(* ===== verification/_CoqProject ===== *)
-Q . S2P
Prelude.v
CallLog.v
GoStrings.v
Sha256.v
GoJson.v
GoDecode.v
GoPath.v
GoTime.v
Lifecycle.v
Domain.v
Questions.v
RuntimeTables.v
Database.v
OperationStore.v
Commands.v
RuntimeInteraction.v
RuntimeApproval.v
RuntimeQuestion.v
StoreSpec.v
StoreSteps.v
StoreRefinement.v
InteractionLogs.v
ApprovalSpec.v
ApprovalProofs.v
QuestionProofs.v
Claiming.v
StoreTheorems.v
ApprovalTheorems.v
ApprovalSweep.v
StoreExamples.v
ApprovalExamples.v
QuestionTheorems.v
Reconciler.v
ReconcilerProofs.v
System.v
Outbox.v
GatewayStore.v
ExecutionPlan.v
Enforcement.v
Admission.v
ExecutionTables.v
ExecutionConformance.v
Drivers.v
DriverProofs.v
WorkspaceSource.v
WorkspaceChanges.v
WorkspaceProofs.v
WorkspaceExamples.v
RuntimeOutput.v
RuntimeRequest.v
RuntimeOutputProofs.v
RuntimeDriver.v
RuntimeReference.v
RuntimeStore.v
ArtifactCatalog.v
RuntimeAttempts.v
RuntimeSystem.v
JournalTheorems.v
RuntimeStoreExamples.v
ArtifactFinalizer.v
S3Store.v
ArtifactDeployment.v
WorkspaceAccess.v
SourceTables.v
SourceClaims.v
SourceSystem.v
SourceDeployment.v
SourceExamples.v
AuthRateLimit.v
AuthRateLimitTheorems.v
RuntimeTurn.v
RuntimeLogic.v
RuntimeParts.v
RuntimeGuards.v
RuntimeJournal.v
RuntimeLedger.v
RuntimeRuns.v
RuntimeSuccess.v
RuntimeExamples.v
