(* ===== verification/Prelude.v ===== *)
(** * A verification development of the DataGround control plane

    DataGround runs AI agents as versioned services.  The control plane (the Go
    code under [internal/]) accepts commands (create a service, publish a
    revision, invoke it, cancel), stores them with long-running operations in
    PostgreSQL, and moves each operation through its state machine by workers
    that hold leases, apply external effects and survive crashes and retries.
    Executions are placed on gateways under immutable plans and enforcement
    policies.  This library translates that core into executable definitions and
    proves what makes it correct.  This file is the shared prelude (errors,
    results, computations on an outside world, tactics and generic lemmas); this
    comment documents the whole library.

    ** Parts, files and how they correspond to the code

    Language and standard library.
    - [GoStrings]: byte strings, UTF-8, the regular expressions used, sorting and
      compaction of string slices.  [Sha256]: SHA-256 and [internal/identity]
      (derived identifiers).  [GoJson]: [encoding/json] values and their encoding.
      [GoDecode]: reading such encodings back, and base64.  [GoPath]: [path] and
      splitting at slashes.  [GoTime]: [time.RFC3339Nano].  Times are microseconds,
      as PostgreSQL keeps them.

    Durable operations ([internal/persistence], [internal/lifecycle],
    [internal/domain]).
    - [Lifecycle]: the state machines of [internal/lifecycle/publication] and
      [/invocation], one Module each.
    - [Domain]: resource records, their JSON, and the contract checks of
      [internal/domain]; the JSON-schema library is the parameter [SchemaEngine].
    - [Database]: the tables of migration 00001 as finite maps and logs in one
      record [db]; [env] holds what a transaction reads from outside (process
      clock, database clock, random identifiers).
    - [OperationStore]: [lifecycle.go], one definition per function and per SQL
      statement: [claimNext], [RenewLease], [advance]/[Advance]/[Fail],
      [ScheduleRetry], [PrepareEffect], [RecordEffect], [RepairOperation].
    - [Commands]: the state-changing commands of [repository.go],
      [alias_withdrawal.go], [revision_retirement.go], [invocation_dispatch.go],
      run by [execute] under idempotency keys.
    - [StoreSpec]: the abstract store, the small steps the contract allows
      ([abs_step]), and the invariants of its reachable states.  [StoreSteps]:
      what each call does to the tables.  [StoreRefinement]: each call is a sequence of
      abstract steps, and keeps the logs of events and idempotency records.  [Claiming]:
      the claim statement against its queue specification.  [StoreTheorems]: the
      properties; [StoreExamples]: concrete runs.

    Approvals and questions of a running agent ([internal/persistence]).
    - [Questions]: the contract of prompts and answers ([internal/domain/question.go]).
    - [RuntimeTables], [RuntimeInteraction]: the rows, and what both kinds share
      ([runtime_target.go], [runtime_interaction_claim.go],
      [runtime_interaction_outcome.go]).  A transaction runs in a [session] that
      gives one clock reading per statement.
    - [RuntimeApproval]: [runtime_approval.go], [runtime_approval_close.go];
      [RuntimeQuestion]: the [runtime_question*.go] files: request, resolution or
      answer, delivery to the runtime, closing and the expiry sweep.
    - [InteractionLogs]: what the other calls leave alone.  [ApprovalSpec]: the state
      machine of an approval in time.  [ApprovalProofs], [QuestionProofs]: the calls
      implement it.  [ApprovalTheorems], [ApprovalSweep], [QuestionTheorems]: the
      properties; [ApprovalExamples] and the end of [QuestionTheorems]: concrete runs.

    Workspaces ([internal/workspace]).
    - [WorkspaceSource]: [source.go]: inspection of archives and containment of links;
      the tar format is the parameter [TarFormat].  [WorkspaceChanges]: [changes.go].
      [WorkspaceProofs]: comparing and applying are inverse, given that the format
      reads what it wrote ([TarLaws]).  [WorkspaceExamples]: a format that meets the
      laws, and concrete workspaces.

    Workers ([internal/reconcile], [internal/outbox]).
    - [Reconciler]: [reconciler.go] over the classes [Store], [EffectDriver] and
      [Clock], the Go interfaces.  [ReconcilerProofs]: the monitor that reads the
      calls of one reconciliation.  [System]: the PostgreSQL store as an instance
      of [Store], [reference_driver.go] as an instance of [EffectDriver], and the
      two running together.
    - [Outbox]: [outbox.go] and [dispatcher.go].

    Executions ([internal/execution]).
    - [GatewayStore]: [memory_store.go]: gateways, placements, executions.
    - [ExecutionTables]: [postgres/store.go], the same interface on tables;
      [ExecutionConformance]: the two stores compared, call by call.
    - [ExecutionPlan]: [plan.go], [plan_memory_store.go], [provider_profiles.go]
      and source records of [internal/workspace/catalog.go].
    - [Enforcement]: [enforcement_bundle.go], [enforcement_bundle_finalizer.go].
    - [Admission]: [admission.go].
    - [Drivers], [DriverProofs]: the effect drivers behind the reconciler
      ([routed_driver.go], [governed_invocation_driver.go],
      [invocation_admission_driver.go], [invocation_cancellation_driver.go]), the
      authoriser in front of them and their target queries on the tables.
    - [CallLog]: the program logic for calls through interfaces, shared by
      [ReconcilerProofs], [Enforcement], [Admission] and [DriverProofs].

    A turn of an agent ([internal/runtime], [internal/reconcile]).
    - [RuntimeOutput], [RuntimeReference]: the outputs of a turn (messages, commands,
      patches, plans, tools, images), their payloads, and the references that take
      the place of bytes kept elsewhere; image decoding is the parameter
      [ImageDecoder].  [RuntimeOutputProofs]: round trips.
    - [RuntimeRequest]: [codex_runtime_request.go].  [RuntimeDriver]: the interfaces
      of the driver and the values they pass.  [RuntimeTurn]:
      [invocation_runtime_driver.go] with its approval, question, output and artifact
      files: start, observation, the loop over events, the end of the turn.
    - [RuntimeLogic], [RuntimeParts]: the trace of calls and the
      program logic over it.  [RuntimeGuards] (deliveries), [RuntimeJournal] (records),
      [RuntimeLedger] (open requests), [RuntimeRuns] (a whole run), [RuntimeSuccess]
      (what success requires): the properties.  [RuntimeExamples]: concrete turns.

    The tables behind a turn ([internal/persistence]).
    - [RuntimeStore]: the rows of attempts, events and artifacts beside the tables of
      [Database], and the plan and preparation a beginning attempt reads.
      [ArtifactCatalog]: [artifact_catalog.go].  [RuntimeAttempts]: [runtime_attempt.go],
      [runtime_output_failure.go] and the [runtime_*_artifact.go] files: beginning,
      recording, completing, failing, freezing.
    - [RuntimeSystem]: the calls as one transition system, what each call does, and
      the life of an attempt.  [JournalTheorems]: events and usage; [RuntimeStoreExamples]:
      a concrete run.

    Artifacts ([internal/artifact], [internal/execution/s3store]).
    - [ArtifactFinalizer]: [finalizer.go] and [reader.go] over arbitrary collaborators;
      the class [ArtifactWorld] states what they are relied on for.
    - [S3Store]: [store.go], [artifact_store.go], [workspace_source.go] over an arbitrary
      [HttpClient]; media types are parsed by the parameter [MediaTypes].  The class
      [ObjectServer] states what a server of objects keeps.
    - [ArtifactDeployment]: the catalog of [ArtifactCatalog] and the store of [S3Store]
      together, with other processes in between, meet [ArtifactWorld].

    Workspace sources ([internal/workspace], [internal/persistence]).
    - [WorkspaceAccess]: [catalog.go] and [access.go] over arbitrary collaborators:
      [InstallSource] and [ReadSource]; the class [SourceWorld] states what they are
      relied on for.
    - [SourceTables]: [workspace.go], [workspace_source.go] and the grants of
      [workspace_source_grant.go], with the triggers of migrations 00064 to 00066.
    - [SourceClaims]: the decisions of [workspace_source_grant.go],
      [workspace_source_claim.go], [workspace_preparation.go] and
      [workspace_quiescence.go], with the functions, constraints and triggers of
      migrations 00066 to 00075; the policy evaluation is the parameter
      [SourceReadEvaluator].
    - [SourceSystem]: these calls and those of [RuntimeSystem] as one transition system
      under one clock, its invariant, and the properties.
    - [SourceDeployment]: the tables and the store of [S3Store] together, with other
      processes in between and calls that fail, meet [SourceWorld]; the reads and
      completions under a claim.  [SourceExamples]: concrete runs.

    Authentication attempts.
    - [AuthRateLimit]: [authentication_rate_limit.go],
      [authentication_rate_limit_policy.go] and the limiter [internal/api] calls.
      [AuthRateLimitTheorems]: its bounds.

    ** What is proved

    - Fencing and leases ([StoreTheorems]): a superseded claim can commit nothing,
      a claim commits once, a running lease is exclusive, cancellation fences all
      workers, leases and renewals stay within their bounds; claiming is exactly
      the first eligible operation of the queue.
    - The store as a whole: every committed call refines the abstract store; its
      reachable states are consistent; operations only make legal transitions,
      settled invocations are final; event logs are contiguous; unpublished
      revisions are quiescent; repeated commands and repairs replay.
    - Approvals and questions: every step of a run follows the state machine of the
      row; a decision or answer is binding, is delivered at most once, and has no
      effect after its expiry; rows stay readable and meet the constraints of their
      table; every sweep that finds no row of the backlog held by others settles some
      of it, so enough of them drain it.
    - Workspaces: an inspected archive describes a tree nothing of which leaves it,
      links included; the changes between two workspaces, applied, give the second,
      and an applicable change set is the only one for its result.
    - The reconciler follows the effect protocol with every store and driver: a state
      that needs an effect is left only when exactly that effect is confirmed and
      recorded.  With the reference driver, and under the conditions stated there,
      each reconciliation takes an invocation to its next state.
    - Outbox delivery: the outcome of one dispatch, finality, fencing.
    - Executions: placement is stable and balanced, terminated executions are
      final, isolation domains do not interfere; the process-local store answers as
      the durable one, but for four kinds of calls, each of which is shown to part them; plans are canonical, bound once
      and digested independently of list order; enforcement bytes are durable and
      verified before metadata or use; admission creates an execution only after
      its whole protocol; the drivers start and terminate executions only when
      authorised, and a prepared start is never reported as absent.
    - Turns: whatever its collaborators answer, the runtime driver starts an agent
      only under a reserved attempt, delivers only authorised decisions (for
      answers, if the ledger asks the check it is given, as the modelled store does),
      records references only to durable bytes, settles every request it opened, and
      answers success only when every event it took was recorded, none was left and
      none was a cancellation.
    - Attempts and their journal: an invocation has at most one attempt, only the
      claim that began it or holds its operation ends it, and once; events are
      recorded once, in order, and the usage shown is that of the last report.
    - Artifacts: once finalised, an artifact stays readable with the recorded bytes,
      with the modelled catalog and any server of objects, other processes included.
    - Workspace sources: a permit to read rests on a recorded decision that was made
      while the requested grant was active and not yet superseded, and under a claim
      while its lease ran and the evaluated policy allowed it; an agent starts on
      a source only after its delivery under the same claim; what a worker is given is
      byte for byte what was installed.
    - Rate limits: what is admitted in any period is bounded by its length and one span
      of the policy for each generation active in it, for any sequence of requests,
      activations and reclamations; a refusal names a delay of at most one interval.

    ** Modelling choices

    A transaction runs alone: the modelled statements lock the rows they use
    ([FOR UPDATE] or one conditional [UPDATE]), so interleavings are sequences of
    committed calls ([world_step]).  Where a statement passes over rows that others
    hold ([SKIP LOCKED]) in the expiry sweeps and in the rate limiter, the rows held are
    an argument, over which the theorems quantify; a claim is made when no other
    transaction holds the operation that is first in the queue.  Arithmetic on tokens, attempts,
    versions and times stays far from the width of [int64] and is done on [Z];
    the one shift whose width matters ([retry_delay]) is bounded by theorem.  In
    [AuthRateLimit] clocks and columns are microseconds and durations nanoseconds, as
    in the code, since rounding between them matters there.

    Recursion is structural on lists or strings.  Fuel is used in SHA-256, whose
    rounds are fixed and whose block loop is given the number of words; in the JSON
    reader, given one more than the bytes to read (enough by [json_size_le]); in the
    walk up to the top of a path (bounded by its components); and in the event loop
    of a turn, which the code runs for as long as the agent does: it answers [None]
    when it is still running, and the theorems on its trace hold of such prefixes
    too.

    Of the constraints of the tables, insertions check those that code or theorems rely
    on: the keys, the columns of approvals, the triggers and checks of the source tables.
    A server of objects is relied on to keep an object only against reads and
    conditional writes, which are the requests the store sends.

    Interfaces are classes or records over an arbitrary world type, so theorems hold
    for every implementation, failures included.  In the theorems on approvals and
    questions the table of runtime attempts is arbitrary: they hold however attempts
    begin and end.  The tables of workspace preparation are arbitrary in
    [RuntimeSystem] for the same reason, and filled by their own calls in
    [SourceSystem], where the active policies are arbitrary.  The JSON reader accepts the encoder's own
    output only, which is all the change sets admit, since they are compared with
    their re-encoding.

    ** Not modelled

    - Listing queries, tracing and constructors that only check that their arguments
      are present: they change nothing.
    - The programs under [cmd/], HTTP routing and the OpenShell provider, the
      Codex process and the conformance harnesses: process, file and network I/O
      around external programs, with little logic of their own.
    - Tokens and signatures ([internal/authn], [internal/auditseal],
      [internal/releasecert]) and Cedar policies ([internal/authz]): their decisions
      are taken by cryptographic and policy libraries.  The authorisers appear as
      arbitrary collaborators of the drivers instead.
    - Versions 2 to 6 of publication, the export of workspace changes, audit export and
      the administration of policies: further transactions of the kind modelled here.
      Of their tables the modelled calls read the active policy only, which is
      arbitrary. *)

From stdpp Require Export base tactics decidable list gmap strings sorting relations.
From Stdlib Require Export ZArith Lia Ascii.

(** ** Scope and notations of the development *)

Declare Scope dg_scope.
Delimit Scope dg_scope with dg.

(** ** Go errors

    An error value is a package-level variable (identified by its qualified
    name, as [errors.Is] identifies it by pointer), a value made on the spot by
    [errors.New] or [fmt.Errorf] without [%w], one wrapping a cause with [%w],
    a structured [*persistence.DomainError], or an [errors.Join] of two. *)
Inductive error : Type :=
  | ESentinel (name : string)
  | ENew (msg : string)
  | EWrap (msg : string) (cause : error)
  | EDomain (code msg : string) (retryable : bool)
  | EJoin (e1 e2 : error).

#[global] Instance error_eq_dec : EqDecision error.
Proof. solve_decision. Defined.

(** [errors.Is(err, target)] for a package-level target. *)
Fixpoint errors_is (err : error) (target : string) : bool :=
  match err with
  | ESentinel name => bool_decide (name = target)
  | ENew _ => false
  | EWrap _ cause => errors_is cause target
  | EDomain _ _ _ => false
  | EJoin e1 e2 => errors_is e1 target || errors_is e2 target
  end.

(** [errors.Is(cause, target)] for one of the package-level error variables. *)
Definition is_err (cause target : error) : bool :=
  match target with ESentinel name => errors_is cause name | _ => false end.

(** ** Results of fallible functions: Go's [(T, error)] pairs. *)
Inductive result (A : Type) : Type :=
  | Ok (a : A)
  | Err (e : error).
Arguments Ok {A} a.
Arguments Err {A} e.

#[global] Instance result_eq_dec `{EqDecision A} : EqDecision (result A).
Proof. solve_decision. Defined.

#[global] Instance result_ret : MRet result := fun _ a => Ok a.
#[global] Instance result_bind : MBind result := fun _ _ k m =>
  match m with Ok a => k a | Err e => Err e end.
#[global] Instance result_fmap : FMap result := fun _ _ f m =>
  match m with Ok a => Ok (f a) | Err e => Err e end.

(** Computations that act on the world outside the process. *)
Definition io (W A : Type) : Type := W → W * A.
#[global] Instance io_ret {W} : MRet (io W) := λ A a w, (w, a).
#[global] Instance io_bind {W} : MBind (io W) := λ A B k m w, let '(w', a) := m w in k a w'.

Definition is_ok {A} (r : result A) : bool :=
  match r with Ok _ => true | Err _ => false end.

Lemma result_bind_Ok {A B} (m : result A) (k : A → result B) b :
  (m ≫= k) = Ok b ↔ ∃ a, m = Ok a ∧ k a = Ok b.
Proof. destruct m; unfold mbind, result_bind; naive_solver. Qed.

Lemma is_ok_true {A} (r : result A) : is_ok r = true ↔ ∃ a, r = Ok a.
Proof. destruct r; naive_solver. Qed.

(** ** Tactics

    [go_cases] walks the branches of a translated function in the hypotheses
    and the goal; [go_inv H] does so in one hypothesis and keeps what each
    branch learned. *)
Ltac go_inv H :=
  repeat match type of H with
  | context [match ?x with _ => _ end] =>
      let E := fresh "E" in destruct x eqn:E; simplify_eq/=
  | (_, _) = (_, _) => simplify_eq/=
  | Ok _ = Ok _ => simplify_eq/=
  | Err _ = Err _ => simplify_eq/=
  end.

Ltac go_cases := repeat (case_match; simplify_eq/=).

(** Turns boolean guards that were decided into propositions. *)
Ltac to_prop :=
  repeat match goal with
  | H : bool_decide _ = true |- _ => apply bool_decide_eq_true in H
  | H : bool_decide _ = false |- _ => apply bool_decide_eq_false in H
  | H : _ && _ = true |- _ => apply andb_true_iff in H as [? ?]
  | H : _ || _ = false |- _ => apply orb_false_iff in H as [? ?]
  | H : _ || _ = true |- _ => apply orb_true_iff in H as [?|?]
  | H : negb _ = true |- _ => apply negb_true_iff in H
  | H : negb _ = false |- _ => apply negb_false_iff in H
  end.

(** Hints used by [eauto with dg]: preservation lemmas of each component. *)
Create HintDb dg.
Create Rewrite HintDb dg.

(** ** Generic lemmas on lists *)

Lemma forallb_Forall {A} (p : A → bool) (l : list A) :
  forallb p l = true ↔ Forall (λ x, p x = true) l.
Proof.
  induction l as [|x l IH]; simpl.
  - split; [constructor | done].
  - rewrite andb_true_iff, IH, Forall_cons. done.
Qed.

Lemma existsb_Exists {A} (p : A → bool) (l : list A) :
  existsb p l = true ↔ Exists (λ x, p x = true) l.
Proof.
  induction l as [|x l IH]; simpl.
  - split; [done | intros H; inversion H].
  - rewrite orb_true_iff, IH, Exists_cons. done.
Qed.

Lemma forallb_app_true {A} (p : A → bool) (l k : list A) :
  forallb p (l ++ k) = true ↔ forallb p l = true ∧ forallb p k = true.
Proof. rewrite forallb_app. apply andb_true_iff. Qed.

(** ** Generic lemmas on maps *)

Lemma alter_Some_insert {K} `{Countable K} {A} (f : A → A) (m : gmap K A) i x :
  m !! i = Some x → alter f i m = <[i := f x]> m.
Proof.
  intros E. apply map_eq. intros j. destruct (decide (i = j)) as [->|N].
  - by rewrite lookup_alter_eq, lookup_insert_eq, E.
  - by rewrite lookup_alter_ne, lookup_insert_ne.
Qed.

(** ** Reading off successful results *)
Definition from_ok {A} (dflt : A) (r : result A) : A := match r with Ok a => a | Err _ => dflt end.

Lemma from_ok_eq {A} (dflt : A) (r : result A) : is_ok r = true → r = Ok (from_ok dflt r).
Proof. by destruct r. Qed.

Lemma from_ok_pair {A B} (dflt : A * B) (r : result (A * B)) b :
  is_ok r = true → (from_ok dflt r).2 = b → r = Ok ((from_ok dflt r).1, b).
Proof. destruct r as [[? ?]|]; simpl; [by intros _ ->|done]. Qed.
