(* ===== verification/CallLog.v ===== *)
(** * Call logs

    Components reach their collaborators through Go interfaces.  Their theorems
    quantify over every implementation: each call may change an arbitrary world
    and answer anything.  To speak about which calls were made, in which order
    and with which answers, a computation runs over a world that also keeps a
    log; [traced] is a small program logic for the calls a computation adds. *)
From S2P Require Import Prelude.

Section call_log.
Context {W C : Type}.

(** Run a call of the underlying world and remember it with its answer. *)
Definition logging {A} (c : A → C) (m : io W A) : io (W * list C) A :=
  λ '(w, l), let '(w', a) := m w in ((w', l ++ [c a]), a).

(** Run it without remembering it. *)
Definition silently {A} (m : io W A) : io (W * list C) A :=
  λ '(w, l), let '(w', a) := m w in ((w', l), a).

(** Every run of [m] adds calls [t] and answers [a] with [Q t a]. *)
Definition traced {A} (m : io (W * list C) A) (Q : list C → A → Prop) : Prop :=
  ∀ w l, ∃ t, (m (w, l)).1.2 = l ++ t ∧ Q t (m (w, l)).2.

Lemma traced_ret {A} (a : A) (Q : list C → A → Prop) : Q [] a → traced (mret a) Q.
Proof. intros HQ w l. exists []. by rewrite app_nil_r. Qed.

Lemma traced_mono {A} (m : io (W * list C) A) (P Q : list C → A → Prop) :
  traced m P → (∀ t a, P t a → Q t a) → traced m Q.
Proof. intros Hm HPQ w l. destruct (Hm w l) as (t & ? & ?). eauto. Qed.

Lemma traced_bind {A B} (m : io (W * list C) A) (k : A → io (W * list C) B) (P : list C → A → Prop) Q :
  traced m P → (∀ t a, P t a → traced (k a) (λ t' b, Q (t ++ t') b)) → traced (m ≫= k) Q.
Proof.
  intros Hm Hk w l. destruct (Hm w l) as (t & H1 & HP). unfold mbind, io_bind.
  destruct (m (w, l)) as [[w1 l1] a]. simpl in *. subst l1.
  destruct (Hk t a HP w1 (l ++ t)) as (t' & H2 & HQ). exists (t ++ t'). by rewrite app_assoc.
Qed.

Lemma traced_and {A} (m : io (W * list C) A) (P Q : list C → A → Prop) :
  traced m P → traced m Q → traced m (λ t a, P t a ∧ Q t a).
Proof.
  intros HP HQ w l. destruct (HP w l) as (t & Ht & ?), (HQ w l) as (t' & Ht' & ?).
  rewrite Ht in Ht'. apply (inj (app l)) in Ht' as <-. by exists t.
Qed.

Lemma traced_logging {A} (c : A → C) (m : io W A) (Q : list C → A → Prop) :
  (∀ a, Q [c a] a) → traced (logging c m) Q.
Proof. intros HQ w l. unfold logging. destruct (m w) as [w' a]. exists [c a]. split; [done|apply HQ]. Qed.

Lemma traced_silently {A} (m : io W A) (Q : list C → A → Prop) :
  (∀ a, Q [] a) → traced (silently m) Q.
Proof.
  intros HQ w l. unfold silently. destruct (m w) as [w' a]. exists []. rewrite app_nil_r. split; [done|apply HQ].
Qed.

(** Sequencing after a call of the world. *)
Lemma traced_logging_bind {A B} (c : A → C) (m : io W A) (k : A → io (W * list C) B) Q :
  (∀ a, traced (k a) (λ t b, Q (c a :: t) b)) → traced (logging c m ≫= k) Q.
Proof.
  intros Hk. apply (traced_bind _ _ (λ t a, t = [c a])); [by apply traced_logging|].
  intros t a ->. apply Hk.
Qed.

Lemma traced_silently_bind {A B} (m : io W A) (k : A → io (W * list C) B) Q :
  (∀ a, traced (k a) Q) → traced (silently m ≫= k) Q.
Proof.
  intros Hk. apply (traced_bind _ _ (λ t a, t = [])); [by apply traced_silently|].
  intros t a ->. apply Hk.
Qed.
End call_log.
