(* ===== verification/GoStrings.v ===== *)
(** * Go strings, slices and character classes

    A Go [string] is an immutable byte sequence; so is Rocq's [string] (its
    characters are 8-bit [ascii] values), which makes byte length, byte
    comparison and concatenation the same operations.  This file holds what the
    sources use of the [strings], [unicode/utf8], [unicode], [sort], [slices],
    [encoding/hex] and [regexp] packages.  The regular expressions of the
    sources are all anchored, over ASCII classes; each becomes a Boolean
    function on bytes. *)
From S2P Require Import Prelude.

Definition bytes_of (s : string) : list ascii := String.list_ascii_of_string s.
Definition of_bytes (l : list ascii) : string := String.string_of_list_ascii l.

Definition byte_value (c : ascii) : N := Ascii.N_of_ascii c.
Definition byte_of_N (n : N) : ascii := Ascii.ascii_of_N n.

(** [len(s)] *)
Definition slen (s : string) : nat := String.length s.
Definition go_len (s : string) : Z := Z.of_nat (String.length s).

(** The string of one byte. *)
Definition chr (n : N) : string := String (byte_of_N n) EmptyString.

(** ** Prefixes, substrings *)

Fixpoint strip_prefix (pfx s : string) : option string :=
  match pfx, s with
  | EmptyString, _ => Some s
  | String a pfx', String b s' => if decide (a = b) then strip_prefix pfx' s' else None
  | String _ _, EmptyString => None
  end.

(** [strings.HasPrefix] and [strings.TrimPrefix]. *)
Definition has_prefix (s pfx : string) : bool :=
  match strip_prefix pfx s with Some _ => true | None => false end.
Definition trim_prefix (s pfx : string) : string :=
  match strip_prefix pfx s with Some rest => rest | None => s end.

Definition count_byte (c : ascii) (s : string) : nat :=
  length (filter (λ x, x = c) (bytes_of s)).

Definition contains_byte (c : ascii) (s : string) : bool :=
  bool_decide (c ∈ bytes_of s).

(** [strings.SplitN(s, sep, 2)] for a one-byte separator. *)
Fixpoint cut_at (c : ascii) (s : string) : string * option string :=
  match s with
  | EmptyString => (EmptyString, None)
  | String a s' =>
      if decide (a = c) then (EmptyString, Some s')
      else let '(l, r) := cut_at c s' in (String a l, r)
  end.

(** [strings.Join]. *)
Fixpoint join (sep : string) (parts : list string) : string :=
  match parts with
  | [] => EmptyString
  | [p] => p
  | p :: rest => p +:+ sep +:+ join sep rest
  end.

(** ** Character classes of the regular expressions *)

Definition in_range (lo hi : N) (c : ascii) : bool :=
  (lo <=? byte_value c)%N && (byte_value c <=? hi)%N.

Definition is_digit (c : ascii) : bool := in_range 48 57 c.
Definition is_lower (c : ascii) : bool := in_range 97 122 c.
Definition is_upper (c : ascii) : bool := in_range 65 90 c.
Definition is_hex_lower (c : ascii) : bool := is_digit c || in_range 97 102 c.
Definition is_id_char (c : ascii) : bool := is_digit c || is_lower c.

Definition all_bytes (p : ascii → bool) (s : string) : bool := forallb p (bytes_of s).

(** [^<pfx>[<class>]{lo,hi}$] *)
Definition match_prefixed (pfx : string) (class : ascii → bool) (lo hi : nat) (s : string) : bool :=
  match strip_prefix pfx s with
  | Some rest => bool_decide (lo ≤ slen rest ≤ hi) && all_bytes class rest
  | None => false
  end.

(** [^[<first>][<class>]{0,hi}$] *)
Definition match_headed (first class : ascii → bool) (hi : nat) (s : string) : bool :=
  match s with
  | EmptyString => false
  | String c rest => first c && bool_decide (slen rest ≤ hi) && all_bytes class rest
  end.

(** ** UTF-8, as [unicode/utf8] decodes it

    [runes] ranges over a string: each element is the decoded code point, the
    bytes it came from, and whether the encoding was valid.  An invalid byte
    yields U+FFFD of width one. *)
Record rune := Rune { rune_value : N; rune_bytes : list ascii; rune_valid : bool }.

Definition continuation (c : ascii) : bool := in_range 128 191 c.

Definition two_ok (b0 b1 : ascii) : bool := in_range 194 223 b0 && continuation b1.
Definition three_ok (b0 b1 b2 : ascii) : bool :=
  ((bool_decide (byte_value b0 = 224%N) && in_range 160 191 b1)
   || ((in_range 225 236 b0 || in_range 238 239 b0) && continuation b1)
   || (bool_decide (byte_value b0 = 237%N) && in_range 128 159 b1))
  && continuation b2.
Definition four_ok (b0 b1 b2 b3 : ascii) : bool :=
  ((bool_decide (byte_value b0 = 240%N) && in_range 144 191 b1)
   || (in_range 241 243 b0 && continuation b1)
   || (bool_decide (byte_value b0 = 244%N) && in_range 128 143 b1))
  && continuation b2 && continuation b3.

Definition bad_rune (b : ascii) : rune := Rune 65533 [b] false.

Fixpoint runes_of (bs : list ascii) : list rune :=
  match bs with
  | [] => []
  | b0 :: r0 =>
      if (byte_value b0 <? 128)%N then Rune (byte_value b0) [b0] true :: runes_of r0
      else match r0 with
      | [] => [bad_rune b0]
      | b1 :: r1 =>
          if two_ok b0 b1 then
            Rune ((byte_value b0 - 192) * 64 + (byte_value b1 - 128)) [b0; b1] true :: runes_of r1
          else match r1 with
          | [] => bad_rune b0 :: runes_of r0
          | b2 :: r2 =>
              if three_ok b0 b1 b2 then
                Rune ((byte_value b0 - 224) * 4096 + (byte_value b1 - 128) * 64 + (byte_value b2 - 128))
                  [b0; b1; b2] true :: runes_of r2
              else match r2 with
              | [] => bad_rune b0 :: runes_of r0
              | b3 :: r3 =>
                  if four_ok b0 b1 b2 b3 then
                    Rune ((byte_value b0 - 240) * 262144 + (byte_value b1 - 128) * 4096
                          + (byte_value b2 - 128) * 64 + (byte_value b3 - 128))
                      [b0; b1; b2; b3] true :: runes_of r3
                  else bad_rune b0 :: runes_of r0
              end
          end
      end
  end.

Definition runes (s : string) : list rune := runes_of (bytes_of s).

(** [utf8.ValidString] *)
Definition valid_utf8 (s : string) : bool := forallb rune_valid (runes s).

(** [unicode.IsControl] (category Cc) and [unicode.IsSpace] (White_Space). *)
Definition is_control (r : N) : bool :=
  (r <=? 31)%N || ((127 <=? r)%N && (r <=? 159)%N).

Definition is_space (r : N) : bool :=
  ((9 <=? r)%N && (r <=? 13)%N) || (r =? 32)%N || (r =? 133)%N || (r =? 160)%N
  || (r =? 5760)%N || ((8192 <=? r)%N && (r <=? 8202)%N)
  || (r =? 8232)%N || (r =? 8233)%N || (r =? 8239)%N || (r =? 8287)%N || (r =? 12288)%N.

(** [strings.TrimSpace] *)
Fixpoint drop_spaces (rs : list rune) : list rune :=
  match rs with
  | [] => []
  | r :: rest => if is_space (rune_value r) then drop_spaces rest else rs
  end.

Definition encode_runes (rs : list rune) : string := of_bytes (rs ≫= rune_bytes).

Definition trim_space (s : string) : string :=
  encode_runes (rev (drop_spaces (rev (drop_spaces (runes s))))).

(** ** Hexadecimal: [hex.EncodeToString] *)
Definition hex_digit (n : N) : ascii :=
  if (n <? 10)%N then byte_of_N (48 + n) else byte_of_N (87 + n).

Fixpoint hex_encode (bs : list N) : string :=
  match bs with
  | [] => EmptyString
  | b :: rest => String (hex_digit (b / 16)) (String (hex_digit (b mod 16)) (hex_encode rest))
  end.

(** ** [sort.Strings] and [slices.Compact] *)
Definition sort_strings (l : list string) : list string := merge_sort String.le l.

Fixpoint compact (l : list string) : list string :=
  match l with
  | [] => []
  | x :: rest =>
      match rest with
      | [] => [x]
      | y :: _ => if decide (x = y) then compact rest else x :: compact rest
      end
  end.

(** Go's [<] on strings. *)
Definition slt (a b : string) : Prop := String.le a b ∧ a ≠ b.
#[global] Instance slt_dec : RelDecision slt.
Proof. intros a b. unfold slt. apply _. Defined.

(** ** Lemmas *)

Lemma of_bytes_of s : of_bytes (bytes_of s) = s.
Proof. apply String.string_of_list_ascii_of_string. Qed.

Lemma bytes_of_of l : bytes_of (of_bytes l) = l.
Proof. apply String.list_ascii_of_string_of_list_ascii. Qed.

Lemma bytes_of_app s t : bytes_of (s +:+ t) = bytes_of s ++ bytes_of t.
Proof. unfold bytes_of. induction s as [|c s IH]; [done|]. simpl. by rewrite <- IH. Qed.

Lemma bytes_of_inj s t : bytes_of s = bytes_of t → s = t.
Proof. intros H. rewrite <- (of_bytes_of s), <- (of_bytes_of t). by rewrite H. Qed.

Lemma length_bytes_of s : length (bytes_of s) = slen s.
Proof. unfold bytes_of, slen. induction s; simpl; by f_equal. Qed.

Lemma strip_prefix_Some pfx s rest : strip_prefix pfx s = Some rest ↔ s = pfx +:+ rest.
Proof.
  revert s. induction pfx as [|a pfx IH]; intros s; simpl.
  - naive_solver.
  - destruct s as [|b s]; [split; [done|by intros H; inversion H]|].
    change (String a pfx +:+ rest) with (String a (pfx +:+ rest)).
    case_decide as E; [subst; rewrite IH; naive_solver|naive_solver].
Qed.

Lemma strip_prefix_app pfx rest : strip_prefix pfx (pfx +:+ rest) = Some rest.
Proof. by apply strip_prefix_Some. Qed.

Lemma append_inj_l s a b : s +:+ a = s +:+ b → a = b.
Proof.
  intros H. apply bytes_of_inj. apply (f_equal bytes_of) in H.
  rewrite !bytes_of_app in H. by apply app_inv_head in H.
Qed.

Lemma append_inj_r s a b : a +:+ s = b +:+ s → a = b.
Proof.
  intros H. apply bytes_of_inj. apply (f_equal bytes_of) in H.
  rewrite !bytes_of_app in H. by apply app_inv_tail in H.
Qed.

Lemma append_assoc a b c : (a +:+ b) +:+ c = a +:+ b +:+ c.
Proof. apply bytes_of_inj. by rewrite !bytes_of_app, app_assoc. Qed.

Lemma match_prefixed_spec pfx class lo hi s :
  match_prefixed pfx class lo hi s = true ↔
  ∃ rest, s = pfx +:+ rest ∧ lo ≤ slen rest ≤ hi ∧ all_bytes class rest = true.
Proof.
  unfold match_prefixed. destruct (strip_prefix pfx s) as [rest|] eqn:E.
  - apply strip_prefix_Some in E. rewrite andb_true_iff, bool_decide_eq_true.
    split; [naive_solver|]. intros (r & -> & ? & ?). by apply append_inj_l in E as ->.
  - split; [done|]. intros (r & -> & _). by rewrite strip_prefix_app in E.
Qed.

(** Two keys joined by a separator agree only if their parts do, when the
    separator does not occur in the first part. *)
Lemma join_sep_inj (c : ascii) a b a' b' :
  c ∉ bytes_of a → c ∉ bytes_of a' →
  a +:+ String c b = a' +:+ String c b' → a = a' ∧ b = b'.
Proof.
  intros Ha Ha' H. apply (f_equal bytes_of) in H. rewrite !bytes_of_app in H.
  change (bytes_of (String c b)) with (c :: bytes_of b) in H.
  change (bytes_of (String c b')) with (c :: bytes_of b') in H.
  assert (∀ l l' k k' : list ascii, c ∉ l → c ∉ l' → l ++ c :: k = l' ++ c :: k' → l = l' ∧ k = k') as Hl.
  { induction l as [|x l IH]; intros [|x' l'] k k' Hl Hl' E; simpl in *; simplify_eq.
    - done.
    - by rewrite elem_of_cons in Hl'; destruct Hl'; left.
    - by rewrite elem_of_cons in Hl; destruct Hl; left.
    - rewrite elem_of_cons in Hl, Hl'.
      destruct (IH l' k k') as [-> ->]; [tauto..|done|done]. }
  destruct (Hl _ _ _ _ Ha Ha' H) as [E1 E2].
  by apply bytes_of_inj in E1; apply bytes_of_inj in E2.
Qed.

Lemma all_bytes_not_in p s c : all_bytes p s = true → p c = false → c ∉ bytes_of s.
Proof.
  unfold all_bytes. rewrite forallb_Forall, Forall_forall.
  intros H Hc Hin. apply H in Hin. congruence.
Qed.

(** *** Sorting *)

Lemma sort_strings_Permutation l : sort_strings l ≡ₚ l.
Proof. apply merge_sort_Permutation. Qed.

Lemma sort_strings_Sorted l : StronglySorted String.le (sort_strings l).
Proof. apply StronglySorted_merge_sort; apply _. Qed.

Lemma sort_strings_perm_eq l k : l ≡ₚ k → sort_strings l = sort_strings k.
Proof.
  intros H. apply (StronglySorted_unique String.le).
  - apply sort_strings_Sorted.
  - apply sort_strings_Sorted.
  - by rewrite !sort_strings_Permutation.
Qed.

Lemma compact_elem_of l x : x ∈ compact l ↔ x ∈ l.
Proof.
  induction l as [|y l IH]; [done|]. simpl.
  destruct l as [|z l]; [done|]. case_decide as E.
  - rewrite IH. subst. set_solver.
  - rewrite !elem_of_cons in *. rewrite IH. done.
Qed.

Lemma compact_head x l : head (compact (x :: l)) = Some x.
Proof.
  revert x. induction l as [|y l IH]; intros x; [done|].
  change (compact (x :: y :: l)) with
    (if decide (x = y) then compact (y :: l) else x :: compact (y :: l)).
  case_decide; [subst; apply IH|done].
Qed.

Lemma compact_Forall (P : string → Prop) l : Forall P l → Forall P (compact l).
Proof. rewrite !Forall_forall. intros H x Hx. apply H. by apply compact_elem_of. Qed.

(** A sorted list becomes strictly sorted. *)
Lemma compact_sorted l : StronglySorted String.le l → StronglySorted slt (compact l).
Proof.
  induction l as [|x l IH]; intros Hs; [constructor|].
  inversion_clear Hs as [|? ? Hs' Hall].
  destruct l as [|y l]; [repeat constructor|].
  change (compact (x :: y :: l)) with
    (if decide (x = y) then compact (y :: l) else x :: compact (y :: l)).
  case_decide as E; [by apply IH|].
  constructor; [by apply IH|].
  apply Forall_forall. intros z Hz. rewrite compact_elem_of in Hz.
  assert (String.le y z) as Hyz.
  { inversion_clear Hs' as [|? ? ? Hy]. apply elem_of_cons in Hz as [->|Hz]; [done|].
    by eapply Forall_forall in Hy. }
  split.
  - by eapply Forall_forall in Hall.
  - intros ->. apply E. apply (anti_symm String.le); [|done].
    by eapply Forall_forall in Hall; [|left].
Qed.

Lemma strict_sorted_le l : StronglySorted slt l → StronglySorted String.le l.
Proof.
  induction 1 as [|x l Hs IH Hall]; constructor; [done|].
  eapply Forall_impl; [done|]. by intros y [? ?].
Qed.

Lemma strict_sorted_compact l : StronglySorted slt l → compact l = l.
Proof.
  induction 1 as [|x l Hs IH Hall]; [done|]. simpl.
  destruct l as [|y l]; [done|]. inversion_clear Hall as [|? ? [_ Hne] _].
  by rewrite decide_False, IH.
Qed.

(** [slices.Compact] after [sort.Strings] is the canonical form of the set of
    strings: strictly increasing, same members, and stable when repeated. *)
Definition sort_compact (l : list string) : list string := compact (sort_strings l).

Lemma sort_compact_strict l : StronglySorted slt (sort_compact l).
Proof. apply compact_sorted, sort_strings_Sorted. Qed.

Lemma sort_compact_elem_of l x : x ∈ sort_compact l ↔ x ∈ l.
Proof. unfold sort_compact. rewrite compact_elem_of. by rewrite sort_strings_Permutation. Qed.

Lemma strict_sorted_unique l k :
  StronglySorted slt l → StronglySorted slt k → (∀ x, x ∈ l ↔ x ∈ k) → l = k.
Proof.
  assert (∀ l, StronglySorted slt l → NoDup l) as Hnd.
  { induction 1 as [|x m Hs IH Hall]; constructor; [|done].
    intros Hin. eapply Forall_forall in Hall as [_ Hne]; done. }
  intros Hl Hk H. apply (StronglySorted_unique String.le).
  - by apply strict_sorted_le.
  - by apply strict_sorted_le.
  - apply NoDup_Permutation; [by apply Hnd..|done].
Qed.

Lemma sort_compact_same_set l k : (∀ x, x ∈ l ↔ x ∈ k) → sort_compact l = sort_compact k.
Proof.
  intros H. apply strict_sorted_unique; [apply sort_compact_strict..|].
  intros x. rewrite !sort_compact_elem_of. done.
Qed.

Lemma sort_compact_idemp l : sort_compact (sort_compact l) = sort_compact l.
Proof. apply sort_compact_same_set, sort_compact_elem_of. Qed.

Lemma sort_compact_Forall (P : string → Prop) l : Forall P l → Forall P (sort_compact l).
Proof. rewrite !Forall_forall. intros H x Hx. apply H. by apply sort_compact_elem_of. Qed.

#[export] Hint Resolve sort_compact_strict sort_compact_Forall : dg.
