(* ===== verification/Sha256.v ===== *)
(** * SHA-256 and derived identifiers

    [crypto/sha256] (FIPS 180-4) on byte lists, executable, and
    [internal/identity]: opaque identifiers made from random bytes ([New]) or
    from the first ten bytes of a digest ([Derived]). *)
From S2P Require Import Prelude.
From S2P Require Import GoStrings.

Module Sha256.

Local Open Scope N_scope.

Definition mask32 : N := 4294967295.
Definition w32 (x : N) : N := N.land x mask32.
Definition add32 (a b : N) : N := w32 (a + b).
Definition rotr (n x : N) : N := N.lor (N.shiftr x n) (w32 (N.shiftl x (32 - n))).
Definition not32 (x : N) : N := N.lxor x mask32.

Definition ch (x y z : N) : N := N.lxor (N.land x y) (N.land (not32 x) z).
Definition maj (x y z : N) : N := N.lxor (N.lxor (N.land x y) (N.land x z)) (N.land y z).
Definition Sigma0 (x : N) : N := N.lxor (N.lxor (rotr 2 x) (rotr 13 x)) (rotr 22 x).
Definition Sigma1 (x : N) : N := N.lxor (N.lxor (rotr 6 x) (rotr 11 x)) (rotr 25 x).
Definition sigma0 (x : N) : N := N.lxor (N.lxor (rotr 7 x) (rotr 18 x)) (N.shiftr x 3).
Definition sigma1 (x : N) : N := N.lxor (N.lxor (rotr 17 x) (rotr 19 x)) (N.shiftr x 10).

(** The constants come from the primes: round constants are the first 32 bits of
    the fractional parts of their cube roots, the initial state of their square
    roots. *)
Definition is_prime (n : N) : bool :=
  forallb (λ d, negb (bool_decide (n mod N.of_nat d = 0))) (seq 2 (N.to_nat (N.sqrt n) - 1)).

Definition primes : list N := filter (λ n, is_prime n = true) (N.of_nat <$> seq 2 310).

(** The largest [r] below [2 ^ bits] with [r ^ e <= x], bit by bit. *)
Fixpoint root (bits : nat) (e x r : N) : N :=
  match bits with
  | O => r
  | S b => let r' := r + 2 ^ N.of_nat b in root b e x (if decide (r' ^ e <= x) then r' else r)
  end.

Definition fraction_bits (e p : N) : N := w32 (root 40 e (p * 2 ^ (32 * e)) 0).

Definition K : list N := Eval vm_compute in fraction_bits 3 <$> primes.

Record regs := Regs { ra : N; rb : N; rc : N; rd : N; re : N; rf : N; rg : N; rh : N }.

Definition word_at (l : list N) (i : nat) : N := default 0 (l !! i).

Definition H0 : regs :=
  Eval vm_compute in
    let h i := fraction_bits 2 (word_at primes i) in
    Regs (h 0%nat) (h 1%nat) (h 2%nat) (h 3%nat) (h 4%nat) (h 5%nat) (h 6%nat) (h 7%nat).

(** The schedule, most recent word first. *)
Fixpoint expand (fuel : nat) (rw : list N) : list N :=
  match fuel with
  | O => rw
  | S fuel' =>
      expand fuel'
        (add32 (add32 (sigma1 (word_at rw 1)) (word_at rw 6))
               (add32 (sigma0 (word_at rw 14)) (word_at rw 15)) :: rw)
  end.

Definition schedule (block : list N) : list N := rev (expand 48 (rev block)).

Definition round (s : regs) (kw : N * N) : regs :=
  let t1 := add32 (add32 (rh s) (Sigma1 (re s)))
                  (add32 (ch (re s) (rf s) (rg s)) (add32 kw.1 kw.2)) in
  let t2 := add32 (Sigma0 (ra s)) (maj (ra s) (rb s) (rc s)) in
  Regs (add32 t1 t2) (ra s) (rb s) (rc s) (add32 (rd s) t1) (re s) (rf s) (rg s).

Definition compress (h : regs) (block : list N) : regs :=
  let s := foldl round h (zip K (schedule block)) in
  Regs (add32 (ra h) (ra s)) (add32 (rb h) (rb s)) (add32 (rc h) (rc s)) (add32 (rd h) (rd s))
       (add32 (re h) (re s)) (add32 (rf h) (rf s)) (add32 (rg h) (rg s)) (add32 (rh h) (rh s)).

Definition byte_at (w : N) (i : N) : N := N.land (N.shiftr w (8 * i)) 255.
Definition be32 (w : N) : list N := [byte_at w 3; byte_at w 2; byte_at w 1; byte_at w 0].
Definition be64 (w : N) : list N :=
  [byte_at w 7; byte_at w 6; byte_at w 5; byte_at w 4; byte_at w 3; byte_at w 2; byte_at w 1; byte_at w 0].

Definition pad (m : list N) : list N :=
  let len := N.of_nat (length m) in
  m ++ [128] ++ replicate (N.to_nat ((119 - len mod 64) mod 64)) 0 ++ be64 (8 * len).

Fixpoint words (bs : list N) : list N :=
  match bs with
  | a :: b :: c :: d :: rest =>
      (N.shiftl a 24 + N.shiftl b 16 + N.shiftl c 8 + d) :: words rest
  | _ => []
  end.

Fixpoint absorb (fuel : nat) (h : regs) (ws : list N) : regs :=
  match fuel with
  | O => h
  | S fuel' =>
      match ws with
      | [] => h
      | _ => absorb fuel' (compress h (take 16 ws)) (drop 16 ws)
      end
  end.

Definition sum256_bytes (m : list N) : list N :=
  let ws := words (pad m) in
  let h := absorb (length ws) H0 ws in
  be32 (ra h) ++ be32 (rb h) ++ be32 (rc h) ++ be32 (rd h)
    ++ be32 (re h) ++ be32 (rf h) ++ be32 (rg h) ++ be32 (rh h).

(** [sha256.Sum256([]byte(s))] *)
Definition Sum256 (s : string) : list N := sum256_bytes (byte_value <$> bytes_of s).

Close Scope N_scope.

Example Sum256_abc :
  hex_encode (Sum256 "abc") = "ba7816bf8f01cfea414140de5dae2223b00361a396177a9cb410ff61f20015ad".
Proof. vm_compute. reflexivity. Qed.

(** The textual digest form used throughout: [sha256:] and 64 hex digits. *)
Definition digest_string (s : string) : string := "sha256:" +:+ hex_encode (Sum256 s).

(** ** Shape of digests *)

Lemma length_Sum256 s : length (Sum256 s) = 32.
Proof. reflexivity. Qed.

Lemma byte_at_lt w i : (byte_at w i < 256)%N.
Proof.
  unfold byte_at. change 255%N with (N.ones 8). rewrite N.land_ones.
  apply N.mod_lt. done.
Qed.

Lemma be32_bytes w : Forall (λ b, (b < 256)%N) (be32 w).
Proof. unfold be32. repeat constructor; apply byte_at_lt. Qed.

Lemma Sum256_bytes s : Forall (λ b, (b < 256)%N) (Sum256 s).
Proof. unfold Sum256, sum256_bytes. rewrite !Forall_app. repeat split; apply be32_bytes. Qed.

Lemma hex_digit_class n : (n < 16)%N → is_hex_lower (hex_digit n) = true.
Proof.
  intros H. assert (n ∈ (N.of_nat <$> seq 0 16)) as Hin.
  { apply list_elem_of_fmap. exists (N.to_nat n). rewrite N2Nat.id.
    split; [done|]. apply elem_of_seq. lia. }
  revert n Hin H. assert (Forall (λ n, is_hex_lower (hex_digit n) = true) (N.of_nat <$> seq 0 16)) as HF.
  { apply forallb_Forall. vm_compute. reflexivity. }
  intros n Hin _. by eapply Forall_forall in HF.
Qed.

Lemma hex_encode_class l :
  Forall (λ b, (b < 256)%N) l → all_bytes is_hex_lower (hex_encode l) = true.
Proof.
  induction 1 as [|b l Hb _ IH]; [done|]. unfold all_bytes in *. simpl.
  rewrite !andb_true_iff. repeat split; [|..|done]; apply hex_digit_class.
  - apply N.Div0.div_lt_upper_bound. lia.
  - apply N.mod_lt. done.
Qed.

Lemma hex_encode_length l : slen (hex_encode l) = 2 * length l.
Proof. unfold slen. induction l as [|b l IH]; simpl; [done|]. rewrite IH. lia. Qed.

End Sha256.

(** ** internal/identity *)
Module Identity.

(** [identity.New]: ten random bytes, supplied by the caller as the value
    [rand.Read] returned. *)
Definition New (random : list N) (prefix : string) : string :=
  prefix +:+ "_" +:+ hex_encode random.

(** [identity.Derived] *)
Definition Derived (prefix seed : string) : string :=
  prefix +:+ "_" +:+ hex_encode (take 10 (Sha256.Sum256 seed)).

Lemma hex_lower_is_id c : is_hex_lower c = true → is_id_char c = true.
Proof.
  unfold is_hex_lower, is_id_char, is_lower, in_range.
  rewrite !orb_true_iff, !andb_true_iff, !N.leb_le.
  intros [H|H]; [by left|right; lia].
Qed.

Lemma all_bytes_impl (p q : ascii → bool) s :
  (∀ c, p c = true → q c = true) → all_bytes p s = true → all_bytes q s = true.
Proof.
  unfold all_bytes. rewrite !forallb_Forall. intros H HF. eapply Forall_impl; eauto.
Qed.

Lemma hex_ten_matches pfx l :
  length l = 10 → Forall (λ b, (b < 256)%N) l →
  match_prefixed (pfx +:+ "_") is_id_char 20 32 (pfx +:+ "_" +:+ hex_encode l) = true.
Proof.
  intros Hlen Hb. apply match_prefixed_spec. eexists. split; [by rewrite append_assoc|].
  rewrite Sha256.hex_encode_length, Hlen. split; [lia|].
  eapply all_bytes_impl; [apply hex_lower_is_id|]. by apply Sha256.hex_encode_class.
Qed.

End Identity.
