(* ===== verification/GoJson.v ===== *)
(** * JSON values and [encoding/json]

    [json] is the type of the values the sources build, store and compare;
    [marshal] prints them as [json.Marshal] does (compact form, HTML-sensitive
    characters escaped, invalid UTF-8 replaced).  A Go struct becomes [JObj] in
    field order; a Go map becomes [json_map], which orders its keys. *)
From stdpp Require Import pretty.
From S2P Require Import Prelude.
From S2P Require Import GoStrings.

Inductive json : Type :=
  | JNull
  | JBool (b : bool)
  | JInt (z : Z)
  | JStr (s : string)
  | JArr (items : list json)
  | JObj (fields : list (string * json)).

(** Structural equality of values. *)
Fixpoint json_eqb (a b : json) : bool :=
  match a, b with
  | JNull, JNull => true
  | JBool x, JBool y => Bool.eqb x y
  | JInt x, JInt y => Z.eqb x y
  | JStr x, JStr y => bool_decide (x = y)
  | JArr xs, JArr ys =>
      (fix go l k := match l, k with
        | [], [] => true
        | x :: l', y :: k' => json_eqb x y && go l' k'
        | _, _ => false end) xs ys
  | JObj xs, JObj ys =>
      (fix go (l k : list (string * json)) := match l, k with
        | [], [] => true
        | (n, x) :: l', (m, y) :: k' => bool_decide (n = m) && json_eqb x y && go l' k'
        | _, _ => false end) xs ys
  | _, _ => false
  end.

(** Induction with hypotheses for the members of arrays and objects. *)
Lemma json_members_ind (P : json → Prop) :
  P JNull → (∀ b, P (JBool b)) → (∀ z, P (JInt z)) → (∀ s, P (JStr s)) →
  (∀ items, Forall P items → P (JArr items)) →
  (∀ fields, Forall (λ f, P f.2) fields → P (JObj fields)) →
  ∀ v, P v.
Proof.
  intros Hn Hb Hi Hs Ha Ho. fix IH 1. intros [| b | z | s | items | fields]; [done| | | | |].
  - apply Hb.
  - apply Hi.
  - apply Hs.
  - apply Ha. induction items as [|x items IHi]; constructor; [apply IH | apply IHi].
  - apply Ho. induction fields as [|[n x] fields IHf]; constructor; [apply IH | apply IHf].
Qed.

Lemma json_eqb_eq a b : json_eqb a b = true ↔ a = b.
Proof.
  revert b. induction a as [|x|x|x|xs IH|xs IH] using json_members_ind;
    intros b; destruct b as [|y|y|y|ys|ys]; simpl;
    try (split; [done|by intros H; inversion H]).
  - rewrite Bool.eqb_true_iff. naive_solver.
  - rewrite Z.eqb_eq. naive_solver.
  - rewrite bool_decide_eq_true. naive_solver.
  - revert ys. induction IH as [|x xs Hx _ IHxs]; intros [|y ys];
      try (split; [done|by intros H; inversion H]).
    rewrite andb_true_iff, Hx, IHxs. naive_solver.
  - revert ys. induction IH as [|[n x] xs Hx _ IHxs]; intros [|[m y] ys];
      try (split; [done|by intros H; inversion H]).
    rewrite !andb_true_iff, bool_decide_eq_true, Hx, IHxs. naive_solver.
Qed.

#[global] Instance json_eq_dec : EqDecision json.
Proof.
  refine (λ a b, match json_eqb a b as r return json_eqb a b = r → Decision (a = b) with
                 | true => λ E, left (proj1 (json_eqb_eq a b) E)
                 | false => λ E, right (λ H, _) end eq_refl).
  apply json_eqb_eq in H. congruence.
Defined.

(** ** Printing *)

Definition quote : string := chr 34.
Definition backslash : string := chr 92.

Definition hex4 (n : N) : string :=
  of_bytes [hex_digit (n / 4096); hex_digit ((n / 256) mod 16);
            hex_digit ((n / 16) mod 16); hex_digit (n mod 16)].

Definition escape_rune (r : rune) : string :=
  let n := rune_value r in
  if negb (rune_valid r) then backslash +:+ "ufffd"
  else if (n =? 34)%N then backslash +:+ quote
  else if (n =? 92)%N then backslash +:+ backslash
  else if (n =? 8)%N then backslash +:+ "b"
  else if (n =? 12)%N then backslash +:+ "f"
  else if (n =? 10)%N then backslash +:+ "n"
  else if (n =? 13)%N then backslash +:+ "r"
  else if (n =? 9)%N then backslash +:+ "t"
  else if (n <? 32)%N || (n =? 60)%N || (n =? 62)%N || (n =? 38)%N || (n =? 8232)%N || (n =? 8233)%N
  then backslash +:+ "u" +:+ hex4 n
  else of_bytes (rune_bytes r).

Definition marshal_string (s : string) : string :=
  quote +:+ foldr (λ r acc, escape_rune r +:+ acc) EmptyString (runes s) +:+ quote.

Fixpoint marshal (v : json) : string :=
  match v with
  | JNull => "null"
  | JBool true => "true"
  | JBool false => "false"
  | JInt z => pretty z
  | JStr s => marshal_string s
  | JArr items => "[" +:+ join "," (map marshal items) +:+ "]"
  | JObj fields =>
      "{" +:+ join "," (map (λ f, marshal_string f.1 +:+ ":" +:+ marshal f.2) fields) +:+ "}"
  end.

(** A Go map: keys in increasing order. *)
Definition key_le (p q : string * json) : Prop := String.le p.1 q.1.
#[global] Instance key_le_dec : RelDecision key_le.
Proof. intros p q. unfold key_le. apply _. Defined.
#[global] Instance key_le_trans : Transitive key_le.
Proof. intros p q r. unfold key_le. apply transitivity. Qed.
#[global] Instance key_le_total : Total key_le.
Proof. intros p q. unfold key_le. apply total. apply _. Qed.

Definition json_map (kvs : list (string * json)) : json := JObj (merge_sort key_le kvs).

(** [payload[key]] on a decoded object; a missing key reads as [nil]. *)
Fixpoint field_lookup (fields : list (string * json)) (key : string) : option json :=
  match fields with
  | [] => None
  | (k, v) :: rest => if decide (k = key) then Some v else field_lookup rest key
  end.

(** The encoding of a map does not depend on the order it was written in. *)
Lemma json_map_perm kvs kvs' :
  NoDup (kvs.*1) → kvs ≡ₚ kvs' → json_map kvs = json_map kvs'.
Proof.
  intros Hnd Hp. unfold json_map. f_equal.
  apply (StronglySorted_unique_strong key_le).
  - intros [k v] [k' v'] Hin Hin' Hle Hge. unfold key_le in *. simpl in *.
    assert (k = k') as -> by (by apply (anti_symm String.le)).
    rewrite merge_sort_Permutation in Hin, Hin'. rewrite <- Hp in Hin'.
    apply list_elem_of_lookup in Hin as [i Hi], Hin' as [j Hj].
    assert (i = j) as ->; [|congruence].
    eapply NoDup_lookup; [exact Hnd| |]; rewrite list_lookup_fmap; [rewrite Hi|rewrite Hj]; done.
  - apply StronglySorted_merge_sort; apply _.
  - apply StronglySorted_merge_sort; apply _.
  - by rewrite !merge_sort_Permutation.
Qed.
