(* ===== verification/GoDecode.v ===== *)
(** * Reading JSON and base64 back

    [unmarshal] reads the compact form that [marshal] writes; [b64_encode] and
    [b64_decode] are [base64.StdEncoding], in which [encoding/json] carries a
    [[]byte].  Go's decoder accepts more than this form (white space, other
    spellings of characters, repeated or differently cased keys); the sources that
    use it here encode what they decoded again and refuse any text that is not
    exactly that encoding, so on those texts nothing more is accepted. *)
From stdpp Require Import pretty.
From S2P Require Import Prelude.
From S2P Require Import GoStrings.
From S2P Require Import GoJson.

(** ** Strings *)

Definition hex_value (c : ascii) : option N :=
  let n := byte_value c in
  if is_digit c then Some (n - 48)%N else if in_range 97 102 c then Some (n - 87)%N else None.

Definition hex4_value (a b c d : ascii) : option N :=
  x ← hex_value a; y ← hex_value b; z ← hex_value c; w ← hex_value d;
  Some (((x * 16 + y) * 16 + z) * 16 + w)%N.

(** The UTF-8 encoding of a code point below 65536. *)
Definition utf8_encode (n : N) : list ascii :=
  if (n <? 128)%N then [byte_of_N n]
  else if (n <? 2048)%N then [byte_of_N (192 + n / 64); byte_of_N (128 + n mod 64)]
  else [byte_of_N (224 + n / 4096); byte_of_N (128 + (n / 64) mod 64); byte_of_N (128 + n mod 64)].

(** What follows the backslash of a two-character escape. *)
Definition simple_escape (c : ascii) : option ascii :=
  let n := byte_value c in
  if (n =? 34)%N || (n =? 92)%N || (n =? 47)%N then Some c
  else if (n =? 98)%N then Some (byte_of_N 8)
  else if (n =? 102)%N then Some (byte_of_N 12)
  else if (n =? 110)%N then Some (byte_of_N 10)
  else if (n =? 114)%N then Some (byte_of_N 13)
  else if (n =? 116)%N then Some (byte_of_N 9)
  else None.

(** The characters up to the closing quote, and what follows it. *)
Fixpoint unquote (bs : list ascii) : option (list ascii * list ascii) :=
  match bs with
  | [] => None
  | c :: r =>
      if (byte_value c =? 34)%N then Some ([], r)
      else if (byte_value c =? 92)%N then
        match r with
        | [] => None
        | e :: r1 =>
            if (byte_value e =? 117)%N then
              match r1 with
              | h3 :: h2 :: h1 :: h0 :: r2 =>
                  n ← hex4_value h3 h2 h1 h0; '(s, rest) ← unquote r2; Some (utf8_encode n ++ s, rest)
              | _ => None
              end
            else x ← simple_escape e; '(s, rest) ← unquote r1; Some (x :: s, rest)
        end
      else if (byte_value c <? 32)%N then None
      else '(s, rest) ← unquote r; Some (c :: s, rest)
  end.

(** ** Numbers *)

Fixpoint read_digits (acc : N) (bs : list ascii) : N * list ascii :=
  match bs with
  | c :: r => if is_digit c then read_digits (acc * 10 + (byte_value c - 48)) r else (acc, bs)
  | [] => (acc, [])
  end.

Definition starts_digit (bs : list ascii) : bool := match bs with c :: _ => is_digit c | [] => false end.

Definition parse_int (bs : list ascii) : option (json * list ascii) :=
  match bs with
  | c :: r =>
      if (byte_value c =? 45)%N then
        if starts_digit r then let '(n, rest) := read_digits 0 r in Some (JInt (- Z.of_N n), rest) else None
      else if is_digit c then let '(n, rest) := read_digits 0 bs in Some (JInt (Z.of_N n), rest) else None
  | [] => None
  end.

(** ** Values *)

Definition expect (word : list ascii) (v : json) (bs : list ascii) : option (json * list ascii) :=
  if decide (take (length word) bs = word) then Some (v, drop (length word) bs) else None.

Fixpoint parse_value (fuel : nat) (bs : list ascii) : option (json * list ascii) :=
  match fuel, bs with
  | S f, c :: r =>
      let n := byte_value c in
      if (n =? 34)%N then '(s, rest) ← unquote r; Some (JStr (of_bytes s), rest)
      else if (n =? 91)%N then
        match r with
        | d :: rest => if (byte_value d =? 93)%N then Some (JArr [], rest)
                       else '(items, rest) ← parse_items f r; Some (JArr items, rest)
        | [] => None
        end
      else if (n =? 123)%N then
        match r with
        | d :: rest => if (byte_value d =? 125)%N then Some (JObj [], rest)
                       else '(fields, rest) ← parse_fields f r; Some (JObj fields, rest)
        | [] => None
        end
      else if (n =? 110)%N then expect (bytes_of "null") JNull bs
      else if (n =? 116)%N then expect (bytes_of "true") (JBool true) bs
      else if (n =? 102)%N then expect (bytes_of "false") (JBool false) bs
      else parse_int bs
  | _, _ => None
  end
with parse_items (fuel : nat) (bs : list ascii) : option (list json * list ascii) :=
  match fuel with
  | O => None
  | S f =>
      '(v, rest) ← parse_value f bs;
      match rest with
      | c :: rest => if (byte_value c =? 44)%N then '(vs, rest) ← parse_items f rest; Some (v :: vs, rest)
                     else if (byte_value c =? 93)%N then Some ([v], rest) else None
      | [] => None
      end
  end
with parse_fields (fuel : nat) (bs : list ascii) : option (list (string * json) * list ascii) :=
  match fuel, bs with
  | S f, q :: r =>
      if (byte_value q =? 34)%N then
        '(k, rest) ← unquote r;
        match rest with
        | colon :: rest =>
            if (byte_value colon =? 58)%N then
              '(v, rest) ← parse_value f rest;
              match rest with
              | c :: rest =>
                  if (byte_value c =? 44)%N then
                    '(fs, rest) ← parse_fields f rest; Some ((of_bytes k, v) :: fs, rest)
                  else if (byte_value c =? 125)%N then Some ([(of_bytes k, v)], rest) else None
              | [] => None
              end
            else None
        | [] => None
        end
      else None
  | _, _ => None
  end.

Definition unmarshal (s : string) : option json :=
  match parse_value (S (slen s)) (bytes_of s) with Some (v, []) => Some v | _ => None end.

(** ** UTF-8 text, one character at a time *)

(** A well-formed character: ASCII, or a sequence of bytes above it. *)
Definition rune_ok (r : rune) : Prop :=
  (∃ c, rune_bytes r = [c] ∧ rune_value r = byte_value c ∧ (byte_value c < 128)%N)
  ∨ (Forall (λ c, (128 ≤ byte_value c)%N) (rune_bytes r) ∧ (128 ≤ rune_value r)%N
     ∧ (rune_value r = 8232 ∨ rune_value r = 8233 → rune_bytes r = utf8_encode (rune_value r))%N).

(** Its bytes read as this character whatever follows. *)
Definition rune_reads (r : rune) : Prop := ∀ y, runes_of (rune_bytes r ++ y) = r :: runes_of y.

Lemma in_range_iff lo hi c : in_range lo hi c = true ↔ (lo ≤ byte_value c ≤ hi)%N.
Proof. unfold in_range. rewrite andb_true_iff, !N.leb_le. done. Qed.

Lemma byte_of_value c : byte_of_N (byte_value c) = c.
Proof. apply ascii_N_embedding. Qed.

Lemma byte_of_value_eq c n : byte_value c = n → byte_of_N n = c.
Proof. intros <-. apply byte_of_value. Qed.

Ltac byte_ranges :=
  repeat match goal with
  | H : _ && _ = true |- _ => apply andb_true_iff in H as [? H]
  | H : _ || _ = true |- _ => apply orb_true_iff in H as [H|H]
  | H : bool_decide _ = true |- _ => apply bool_decide_eq_true in H
  | H : continuation _ = true |- _ => unfold continuation in H
  | H : in_range _ _ _ = true |- _ => apply in_range_iff in H
  end.

Lemma runes_of_cons b0 r0 :
  ∃ r tail, runes_of (b0 :: r0) = r :: runes_of tail ∧ b0 :: r0 = rune_bytes r ++ tail
    ∧ (rune_valid r = true → rune_ok r ∧ rune_reads r) ∧ length tail ≤ length r0.
Proof.
  simpl. destruct (byte_value b0 <? 128)%N eqn:E0.
  { eexists (Rune _ _ _), r0. split_and!; [done..| |simpl; lia]. intros _.
    split; [left; exists b0; apply N.ltb_lt in E0; done|]. intros y. simpl. by rewrite E0. }
  destruct r0 as [|b1 r1]; [by exists (bad_rune b0), []|].
  destruct (two_ok b0 b1) eqn:E1.
  { eexists (Rune _ _ _), r1. split_and!; [done..| |simpl; lia]. intros _.
    split; [right|intros y; simpl; by rewrite E0, E1]. unfold two_ok in E1. byte_ranges. simpl.
    split_and!; [repeat constructor; lia|lia|lia]. }
  destruct r1 as [|b2 r2]; [by exists (bad_rune b0), [b1]|].
  destruct (three_ok b0 b1 b2) eqn:E2.
  { eexists (Rune _ _ _), r2. split_and!; [done..| |simpl; lia]. intros _.
    split; [right|intros y; simpl; by rewrite E0, E1, E2]. unfold three_ok in E2. simpl.
    split_and!; [byte_ranges; repeat constructor; lia|byte_ranges; lia|].
    intros Hv. assert (byte_value b0 = 226 ∧ byte_value b1 = 128 ∧ (byte_value b2 = 168 ∨ byte_value b2 = 169))%N
      as (B0 & B1 & B2) by (byte_ranges; lia).
    rewrite <- (byte_of_value b0), <- (byte_of_value b1), <- (byte_of_value b2), B0, B1.
    destruct B2 as [-> | ->]; reflexivity. }
  destruct r2 as [|b3 r3]; [by exists (bad_rune b0), [b1; b2]|].
  destruct (four_ok b0 b1 b2 b3) eqn:E3; [|by exists (bad_rune b0), (b1 :: b2 :: b3 :: r3)].
  eexists (Rune _ _ _), r3. split_and!; [done..| |simpl; lia]. intros _.
  split; [right|intros y; simpl; by rewrite E0, E1, E2, E3]. unfold four_ok in E3. simpl.
  split_and!; [byte_ranges; repeat constructor; lia|byte_ranges; lia|byte_ranges; lia].
Qed.

(** Text is consumed rune by rune. *)
Lemma runes_of_ind (P : list ascii → Prop) :
  P [] →
  (∀ bs r tail, bs = rune_bytes r ++ tail → runes_of bs = r :: runes_of tail →
     (rune_valid r = true → rune_ok r ∧ rune_reads r) → P tail → P bs) →
  ∀ bs, P bs.
Proof.
  intros H0 Hstep bs. induction bs as [bs IH] using (induction_ltof1 _ (@length ascii)).
  destruct bs as [|b0 r0]; [done|].
  destruct (runes_of_cons b0 r0) as (r & tail & E1 & E2 & Hr & Hl). eapply Hstep; [done..|].
  apply IH. unfold ltof. simpl. lia.
Qed.

Lemma runes_of_bytes bs : runes_of bs ≫= rune_bytes = bs.
Proof.
  induction bs as [|bs r tail -> E _ IH] using runes_of_ind; [done|]. rewrite E.
  change (rune_bytes r ++ (runes_of tail ≫= rune_bytes) = rune_bytes r ++ tail). by rewrite IH.
Qed.

(** Valid text splits at an ASCII character. *)
Lemma runes_of_split l c r :
  (byte_value c < 128)%N → forallb rune_valid (runes_of (l ++ c :: r)) = true →
  runes_of (l ++ c :: r) = runes_of l ++ runes_of (c :: r).
Proof.
  intros Hc. remember (l ++ c :: r) as bs eqn:Ebs. revert l Ebs.
  induction bs as [|bs rn tail E Er Hr IH] using runes_of_ind; intros l Ebs Hv; [by destruct l|].
  rewrite Er in Hv. cbn [forallb] in Hv. apply andb_true_iff in Hv as [Hv Ht]. destruct (Hr Hv) as [Hok Hrd].
  destruct l as [|a l]; [by rewrite Ebs|].
  assert (Hl : ∃ l', a :: l = rune_bytes rn ++ l' ∧ tail = l' ++ c :: r).
  { subst bs. destruct Hok as [(d & Ed & _)|(Hhigh & _)].
    - rewrite Ed in *. exists l. simpl in *. by simplify_eq.
    - revert Ebs. generalize (a :: l) as k. clear -Hhigh Hc. induction Hhigh as [|x xs Hx _ IH]; intros k E; simpl in *.
      + exists k. done.
      + destruct k as [|y k]; simpl in E; simplify_eq; [lia|].
        destruct (IH k) as (l' & -> & ->); [done|]. by exists l'. }
  destruct Hl as (l' & El & ->). rewrite El, Hrd, Er. cbn [app]. f_equal. by apply IH.
Qed.

(** ** The encoder's strings are read back *)

Lemma unquote_high l s :
  Forall (λ c, (128 ≤ byte_value c)%N) l →
  unquote (l ++ s) = ('(t, rest) ← unquote s; Some (l ++ t, rest)).
Proof.
  induction 1 as [|c l Hc _ IH]; simpl; [by destruct (unquote s) as [[]|]|].
  rewrite (proj2 (N.eqb_neq _ _)), (proj2 (N.eqb_neq _ _)), (proj2 (N.ltb_ge _ _)), IH by lia.
  by destruct (unquote s) as [[]|].
Qed.

Lemma unquote_rune r s :
  rune_ok r → rune_valid r = true →
  unquote (bytes_of (escape_rune r) ++ s) = ('(t, rest) ← unquote s; Some (rune_bytes r ++ t, rest)).
Proof.
  intros Hr Hv. unfold escape_rune. rewrite Hv. cbn [negb].
  destruct Hr as [(c & -> & -> & Hc)|(Hhigh & Hn & Hsep)].
  - destruct c as [[] [] [] [] [] [] [] []]; first [by exfalso; vm_compute in Hc|reflexivity].
  - rewrite !(proj2 (N.eqb_neq _ _)) by lia. rewrite (proj2 (N.ltb_ge _ _)) by lia. cbn [orb].
    destruct (rune_value r =? 8232)%N eqn:E1; [|destruct (rune_value r =? 8233)%N eqn:E2]; cbn [orb].
    + apply N.eqb_eq in E1. rewrite E1 in *. rewrite Hsep by auto. reflexivity.
    + apply N.eqb_eq in E2. rewrite E2 in *. rewrite Hsep by auto. reflexivity.
    + rewrite bytes_of_of. by apply unquote_high.
Qed.

Lemma unquote_text bs rest :
  forallb rune_valid (runes_of bs) = true →
  unquote (bytes_of (foldr (λ r acc, escape_rune r +:+ acc) EmptyString (runes_of bs)) ++ byte_of_N 34 :: rest)
  = Some (bs, rest).
Proof.
  induction bs as [|bs r tail -> E Hr IH] using runes_of_ind; [done|]. rewrite E. cbn [foldr forallb].
  intros [Hv Ht]%andb_true_iff. rewrite bytes_of_app, <- app_assoc. rewrite unquote_rune by (done || by apply Hr).
  by rewrite IH.
Qed.

Lemma bytes_marshal_string s :
  bytes_of (marshal_string s)
  = byte_of_N 34 :: bytes_of (foldr (λ r acc, escape_rune r +:+ acc) EmptyString (runes s)) ++ [byte_of_N 34].
Proof. unfold marshal_string. by rewrite !bytes_of_app. Qed.

Lemma unquote_string s rest :
  valid_utf8 s = true →
  ∃ body, bytes_of (marshal_string s) ++ rest = byte_of_N 34 :: body ∧ unquote body = Some (bytes_of s, rest).
Proof.
  intros Hs. rewrite bytes_marshal_string. eexists (_ ++ byte_of_N 34 :: rest).
  split; [by rewrite <- app_comm_cons, <- app_assoc|by apply unquote_text].
Qed.

(** ** Numbers are read back *)

Lemma read_digits_go x s :
  read_digits 0 (bytes_of (pretty_N_go x s)) = read_digits x (bytes_of s).
Proof.
  revert s. induction (N.lt_wf_0 x) as [x _ IH]. intros s. destruct (decide (0 < x)%N) as [Hx|Hx].
  - rewrite pretty_N_go_step by done. rewrite IH by (apply N.div_lt; lia).
    change (bytes_of (String ?c s)) with (c :: bytes_of s). cbn [read_digits].
    assert (Hd : (x mod 10 < 10)%N) by (apply N.mod_lt; lia).
    assert (Hc : is_digit (pretty_N_char (x mod 10)) = true
                 ∧ (byte_value (pretty_N_char (x mod 10)) - 48)%N = (x mod 10)%N).
    { destruct (x mod 10)%N as [|p]; [done|].
      repeat (destruct p as [p|p|]; try (exfalso; lia); try (split; reflexivity)). }
    destruct Hc as [-> ->]. f_equal. rewrite (N.div_mod x 10) at 3 by done. lia.
  - assert (x = 0)%N as -> by lia. done.
Qed.

Lemma pretty_N_go_app x s t : pretty_N_go x (s +:+ t) = pretty_N_go x s +:+ t.
Proof.
  revert s. induction (N.lt_wf_0 x) as [x _ IH]. intros s. destruct (decide (0 < x)%N) as [Hx|Hx].
  - rewrite (pretty_N_go_step x (s +:+ t)), (pretty_N_go_step x s) by done.
    rewrite <- (IH (x / 10)%N) by (apply N.div_lt; lia). done.
  - assert (x = 0)%N as -> by lia. done.
Qed.

Lemma read_digits_stop n rest : starts_digit rest = false → read_digits n rest = (n, rest).
Proof. destruct rest as [|c rest]; [done|]. simpl. by intros ->. Qed.

Lemma read_pretty (n : N) rest :
  starts_digit rest = false → read_digits 0 (bytes_of (pretty n) ++ rest) = (n, rest).
Proof.
  intros Hr. unfold pretty, pretty_N. case_decide as E.
  - subst. simpl. by apply read_digits_stop.
  - rewrite <- (bytes_of_of rest), <- bytes_of_app, <- (pretty_N_go_app n "" (of_bytes rest)).
    rewrite read_digits_go. by apply read_digits_stop; rewrite bytes_of_of.
Qed.

Lemma pretty_go_starts x s : (0 < x)%N → starts_digit (bytes_of (pretty_N_go x s)) = true.
Proof.
  revert s. induction (N.lt_wf_0 x) as [x _ IH]. intros s Hx. rewrite pretty_N_go_step by done.
  destruct (decide (0 < x / 10)%N) as [Hd|Hd]; [apply IH; [apply N.div_lt; lia|done]|].
  assert ((x / 10)%N = 0%N) as -> by (apply N.le_0_r, N.nlt_ge, Hd). simpl. unfold pretty_N_char. by repeat case_match.
Qed.

Lemma pretty_starts (n : N) rest : starts_digit (bytes_of (pretty n) ++ rest) = true.
Proof.
  unfold pretty, pretty_N. case_decide; [done|].
  pose proof (pretty_go_starts n "" ltac:(lia)) as Hs. by destruct (bytes_of (pretty_N_go n "")).
Qed.

Lemma digit_not_special c : is_digit c = true →
  (byte_value c =? 45)%N = false ∧ (byte_value c =? 34)%N = false ∧ (byte_value c =? 91)%N = false
  ∧ (byte_value c =? 123)%N = false ∧ (byte_value c =? 110)%N = false ∧ (byte_value c =? 116)%N = false
  ∧ (byte_value c =? 102)%N = false.
Proof. intros H%in_range_iff. rewrite !N.eqb_neq. lia. Qed.

Lemma parse_pretty z f rest :
  starts_digit rest = false → parse_value (S f) (bytes_of (pretty z) ++ rest) = Some (JInt z, rest).
Proof.
  intros Hr.
  assert (Hpos : ∀ p, parse_value (S f) (bytes_of (pretty (Npos p)) ++ rest) = Some (JInt (Zpos p), rest)).
  { intros p. pose proof (pretty_starts (Npos p) rest) as Hs. pose proof (read_pretty (Npos p) rest Hr) as Hd.
    destruct (bytes_of (pretty (Npos p)) ++ rest) as [|c r] eqn:E; [done|]. simpl in Hs.
    destruct (digit_not_special c Hs) as (E1 & E2 & E3 & E4 & E5 & E6 & E7).
    cbn [parse_value]. rewrite E2, E3, E4, E5, E6, E7. unfold parse_int. by rewrite E1, Hs, Hd. }
  destruct z as [|p|p].
  - destruct rest as [|c rest]; [done|]. simpl in Hr. cbn. by rewrite Hr.
  - apply Hpos.
  - change (bytes_of (pretty (Zneg p)) ++ rest) with (byte_of_N 45 :: (bytes_of (pretty (Npos p)) ++ rest)).
    cbn [parse_value]. change (byte_value (byte_of_N 45)) with 45%N. cbn [N.eqb Pos.eqb].
    unfold parse_int. change (byte_value (byte_of_N 45)) with 45%N. cbn [N.eqb Pos.eqb].
    rewrite pretty_starts, read_pretty by done. done.
Qed.

(** ** Values are read back *)

(** Every string in the value, keys included, is valid UTF-8. *)
Fixpoint json_utf8 (v : json) : bool :=
  match v with
  | JStr s => valid_utf8 s
  | JArr items => forallb json_utf8 items
  | JObj fields => forallb (λ f, valid_utf8 f.1 && json_utf8 f.2) fields
  | _ => true
  end.

(** Enough fuel for the parser. *)
Fixpoint json_size (v : json) : nat :=
  match v with
  | JArr items => S (sum_list_with (λ v, S (json_size v)) items)
  | JObj fields => S (sum_list_with (λ f, S (json_size f.2)) fields)
  | _ => 1
  end.

Definition parses (v : json) : Prop :=
  ∀ fuel rest, json_size v ≤ fuel → json_utf8 v = true → starts_digit rest = false →
    parse_value fuel (bytes_of (marshal v) ++ rest) = Some (v, rest).

Lemma bytes_join sep x y l : bytes_of (join sep (x :: y :: l)) = bytes_of x ++ bytes_of sep ++ bytes_of (join sep (y :: l)).
Proof. cbn [join]. by rewrite !bytes_of_app. Qed.

Lemma parse_items_marshal items fuel rest :
  items ≠ [] → Forall parses items → sum_list_with (λ v, S (json_size v)) items ≤ fuel →
  forallb json_utf8 items = true →
  parse_items fuel (bytes_of (join "," (map marshal items)) ++ byte_of_N 93 :: rest) = Some (items, rest).
Proof.
  intros Hne HP. revert fuel. induction HP as [|v items Hv HP IH]; intros fuel Hf Hu; [done|]. clear Hne.
  cbn [sum_list_with] in Hf. cbn [forallb] in Hu. apply andb_true_iff in Hu as [Hu1 Hu2].
  destruct fuel as [|fuel]; [lia|]. cbn [parse_items]. destruct items as [|w items].
  - cbn [map join]. rewrite (Hv fuel) by (done || lia). done.
  - cbn [map]. rewrite bytes_join, <- !app_assoc. rewrite (Hv fuel) by (done || lia). cbn [mbind option_bind].
    change (bytes_of "," ++ ?l) with (byte_of_N 44 :: l). cbn [byte_value].
    change (byte_value (byte_of_N 44)) with 44%N. cbn [N.eqb Pos.eqb].
    rewrite IH by (done || lia). done.
Qed.

Definition field_text (f : string * json) : string := marshal_string f.1 +:+ ":" +:+ marshal f.2.

Lemma parse_fields_marshal fields fuel rest :
  fields ≠ [] → Forall (λ f, parses f.2) fields → sum_list_with (λ f, S (json_size f.2)) fields ≤ fuel →
  forallb (λ f, valid_utf8 f.1 && json_utf8 f.2) fields = true →
  parse_fields fuel (bytes_of (join "," (map field_text fields)) ++ byte_of_N 125 :: rest) = Some (fields, rest).
Proof.
  intros Hne HP. revert fuel. induction HP as [|[k v] fields Hv HP IH]; intros fuel Hf Hu; [done|]. clear Hne.
  cbn [sum_list_with snd] in Hf. cbn [forallb fst snd] in Hu. apply andb_true_iff in Hu as [[Hk Hu1]%andb_true_iff Hu2].
  simpl in Hv. destruct fuel as [|fuel]; [lia|].
  assert (Hstep : ∀ tail out, starts_digit tail = false →
    (match tail with
     | c :: rest => if (byte_value c =? 44)%N then '(fs, rest) ← parse_fields fuel rest; Some ((k, v) :: fs, rest)
                    else if (byte_value c =? 125)%N then Some ([(k, v)], rest) else None
     | [] => None end) = out →
    parse_fields (S fuel) (bytes_of (field_text (k, v)) ++ tail) = out).
  { intros tail out Ht Hout. unfold field_text. cbn [fst snd]. rewrite !bytes_of_app, <- !app_assoc.
    destruct (unquote_string k (bytes_of ":" ++ bytes_of (marshal v) ++ tail) Hk) as (body & -> & Hq).
    cbn [parse_fields]. change (byte_value (byte_of_N 34)) with 34%N. cbn [N.eqb Pos.eqb]. rewrite Hq.
    cbn [mbind option_bind]. change (bytes_of ":" ++ ?l) with (byte_of_N 58 :: l). cbv iota beta.
    change (byte_value (byte_of_N 58)) with 58%N. cbn [N.eqb Pos.eqb].
    rewrite (Hv fuel) by (done || lia). cbn [mbind option_bind]. by rewrite of_bytes_of. }
  destruct fields as [|g fields].
  - cbn [map join]. by apply Hstep.
  - cbn [map]. rewrite bytes_join, <- !app_assoc. apply Hstep; [done|].
    change (bytes_of "," ++ ?l) with (byte_of_N 44 :: l). cbv iota beta.
    change (byte_value (byte_of_N 44)) with 44%N. cbn [N.eqb Pos.eqb].
    cbn [map] in IH. rewrite IH by (done || lia). done.
Qed.

(** A value never begins like the end of a list or an object. *)
Lemma marshal_head v : ∃ c l, bytes_of (marshal v) = c :: l ∧ (byte_value c =? 93)%N = false ∧ (byte_value c =? 125)%N = false.
Proof.
  assert (Hd : ∀ n : N, ∃ c l, bytes_of (pretty n) = c :: l ∧ (byte_value c =? 93)%N = false ∧ (byte_value c =? 125)%N = false).
  { intros n. pose proof (pretty_starts n []) as Hs. rewrite app_nil_r in Hs.
    destruct (bytes_of (pretty n)) as [|c l]; [done|]. exists c, l. simpl in Hs. apply in_range_iff in Hs.
    rewrite !N.eqb_neq. split_and!; [done|lia|lia]. }
  destruct v as [|[]|[|p|p]|s|items|fields]; cbn [marshal]; try (by eexists _, _).
  apply (Hd (Npos p)).
Qed.

Lemma join_head sep x l : (∃ c k, bytes_of x = c :: k) → ∃ k', bytes_of (join sep (x :: l)) = bytes_of x ++ k'.
Proof. intros _. destruct l as [|y l]; [exists []; by rewrite app_nil_r|]. rewrite bytes_join. by eexists. Qed.

Theorem parse_marshal v : parses v.
Proof.
  induction v as [|b|z|s|items IH|fields IH] using json_members_ind; intros fuel rest Hf Hu Hr;
    cbn [json_size json_utf8] in *; (destruct fuel as [|fuel]; [lia|]).
  - done.
  - by destruct b.
  - by apply parse_pretty.
  - cbn [marshal]. destruct (unquote_string s rest Hu) as (body & -> & Hq). cbn [parse_value].
    change (byte_value (byte_of_N 34)) with 34%N. cbn [N.eqb Pos.eqb]. rewrite Hq. cbn [mbind option_bind].
    by rewrite of_bytes_of.
  - cbn [marshal]. rewrite !bytes_of_app, <- !app_assoc.
    change (bytes_of "[" ++ ?l) with (byte_of_N 91 :: l). change (bytes_of "]" ++ rest) with (byte_of_N 93 :: rest).
    cbn [parse_value]. change (byte_value (byte_of_N 91)) with 91%N. cbn [N.eqb Pos.eqb].
    destruct items as [|v items]; [done|].
    pose proof (parse_items_marshal (v :: items) fuel rest ltac:(done) IH ltac:(lia) Hu) as Hp.
    destruct (marshal_head v) as (c & l & Hl & Hc & _).
    destruct (join_head "," (marshal v) (map marshal items)) as [k Hk]; [by eauto|].
    cbn [map] in Hp |- *. rewrite Hk, Hl in Hp |- *. cbn [app] in Hp |- *. rewrite Hc, Hp. done.
  - change (marshal (JObj fields)) with ("{" +:+ join "," (map field_text fields) +:+ "}").
    rewrite !bytes_of_app, <- !app_assoc.
    change (bytes_of "{" ++ ?l) with (byte_of_N 123 :: l). change (bytes_of "}" ++ rest) with (byte_of_N 125 :: rest).
    cbn [parse_value]. change (byte_value (byte_of_N 123)) with 123%N. cbn [N.eqb Pos.eqb].
    destruct fields as [|[k v] fields]; [done|].
    pose proof (parse_fields_marshal ((k, v) :: fields) fuel rest ltac:(done) IH ltac:(lia) Hu) as Hp.
    assert (Hh : bytes_of (field_text (k, v)) = byte_of_N 34 :: tail (bytes_of (field_text (k, v)))).
    { unfold field_text. rewrite bytes_of_app. cbn [fst]. by rewrite bytes_marshal_string. }
    destruct (join_head "," (field_text (k, v)) (map field_text fields)) as [t Ht]; [by eauto|].
    cbn [map] in Hp |- *. rewrite Ht, Hh in Hp |- *. cbn [app] in Hp |- *.
    change (byte_value (byte_of_N 34)) with 34%N. cbn [N.eqb Pos.eqb]. rewrite Hp. done.
Qed.

Lemma join_size sep (l : list string) :
  slen sep = 1 → l ≠ [] → slen (join sep l) + 1 = sum_list_with (λ s, S (slen s)) l.
Proof.
  intros Hs. induction l as [|x l IH]; [done|]. intros _. destruct l as [|y l]; [cbn [join sum_list_with]; lia|].
  cbn [sum_list_with] in IH |- *. rewrite <- (IH ltac:(done)). rewrite <- !length_bytes_of, bytes_join, !length_app, !length_bytes_of.
  lia.
Qed.

Lemma json_size_le v : json_size v ≤ slen (marshal v).
Proof.
  assert (Hsum : ∀ A (f g : A → nat) l, Forall (λ x, f x ≤ g x) l → sum_list_with f l ≤ sum_list_with g l).
  { induction 1; cbn [sum_list_with]; lia. }
  assert (Hmap : ∀ A (f : A → string) l, sum_list_with (λ s, S (slen s)) (map f l) = sum_list_with (λ x, S (slen (f x))) l).
  { intros A f l. induction l; cbn [map sum_list_with]; lia. }
  induction v as [|b|z|s|items IH|fields IH] using json_members_ind; cbn [json_size].
  - cbn. lia.
  - destruct b; cbn; lia.
  - destruct (marshal_head (JInt z)) as (c & l & Hl & _). rewrite <- length_bytes_of, Hl. simpl. lia.
  - cbn [marshal]. rewrite <- length_bytes_of, bytes_marshal_string. simpl. lia.
  - cbn [marshal]. rewrite <- length_bytes_of, !bytes_of_app, !length_app, !length_bytes_of. cbn [slen].
    destruct items as [|v items]; [cbn; lia|].
    pose proof (join_size "," (map marshal (v :: items)) eq_refl ltac:(done)) as Hj. rewrite Hmap in Hj.
    assert (sum_list_with (λ v, S (json_size v)) (v :: items) ≤ sum_list_with (λ v, S (slen (marshal v))) (v :: items)).
    { apply Hsum. eapply Forall_impl; [done|]. simpl. lia. }
    change (slen "[") with 1. change (slen "]") with 1. lia.
  - change (marshal (JObj fields)) with ("{" +:+ join "," (map field_text fields) +:+ "}").
    rewrite <- length_bytes_of, !bytes_of_app, !length_app, !length_bytes_of.
    destruct fields as [|f fields]; [cbn; lia|].
    pose proof (join_size "," (map field_text (f :: fields)) eq_refl ltac:(done)) as Hj. rewrite Hmap in Hj.
    assert (sum_list_with (λ f, S (json_size f.2)) (f :: fields) ≤ sum_list_with (λ f, S (slen (field_text f))) (f :: fields)).
    { apply Hsum. eapply Forall_impl; [done|]. intros g Hg. simpl in *. unfold field_text.
      rewrite <- (length_bytes_of (_ +:+ _)), !bytes_of_app, !length_app, !length_bytes_of. lia. }
    change (slen "{") with 1. change (slen "}") with 1. lia.
Qed.

(** What the encoder wrote is read back. *)
Lemma unmarshal_marshal v : json_utf8 v = true → unmarshal (marshal v) = Some v.
Proof.
  intros Hu. unfold unmarshal. pose proof (parse_marshal v (S (slen (marshal v))) []) as Hp.
  rewrite app_nil_r in Hp. rewrite Hp; [done| |done|done]. pose proof (json_size_le v). lia.
Qed.

Lemma marshal_inj v w : json_utf8 v = true → json_utf8 w = true → marshal v = marshal w → v = w.
Proof.
  intros Hv Hw E. apply unmarshal_marshal in Hv, Hw. rewrite E in Hv. congruence.
Qed.

(** ** base64 *)

Definition b64_char (n : N) : ascii :=
  if (n <? 26)%N then byte_of_N (65 + n) else if (n <? 52)%N then byte_of_N (71 + n)
  else if (n <? 62)%N then byte_of_N (n - 4) else if (n =? 62)%N then byte_of_N 43 else byte_of_N 47.

Definition b64_value (c : ascii) : option N :=
  let n := byte_value c in
  if is_upper c then Some (n - 65)%N else if is_lower c then Some (n - 71)%N
  else if is_digit c then Some (n + 4)%N else if (n =? 43)%N then Some 62%N
  else if (n =? 47)%N then Some 63%N else None.

Definition pad_char : ascii := byte_of_N 61.

Fixpoint b64_encode (bs : list ascii) : list ascii :=
  match bs with
  | [] => []
  | [a] => let x := byte_value a in
      [b64_char (x / 4); b64_char ((x mod 4) * 16); pad_char; pad_char]
  | [a; b] => let x := byte_value a in let y := byte_value b in
      [b64_char (x / 4); b64_char ((x mod 4) * 16 + y / 16); b64_char ((y mod 16) * 4); pad_char]
  | a :: b :: c :: rest => let x := byte_value a in let y := byte_value b in let z := byte_value c in
      [b64_char (x / 4); b64_char ((x mod 4) * 16 + y / 16); b64_char ((y mod 16) * 4 + z / 64); b64_char (z mod 64)]
      ++ b64_encode rest
  end.

Fixpoint b64_decode (bs : list ascii) : option (list ascii) :=
  match bs with
  | [] => Some []
  | a :: b :: c :: d :: rest =>
      p ← b64_value a; q ← b64_value b;
      if decide (c = pad_char) then
        if decide (d = pad_char ∧ rest = []) then Some [byte_of_N (p * 4 + q / 16)] else None
      else
        r ← b64_value c;
        if decide (d = pad_char) then
          if decide (rest = []) then Some [byte_of_N (p * 4 + q / 16); byte_of_N ((q mod 16) * 16 + r / 4)] else None
        else
          s ← b64_value d; tail ← b64_decode rest;
          Some (byte_of_N (p * 4 + q / 16) :: byte_of_N ((q mod 16) * 16 + r / 4)
                :: byte_of_N ((r mod 4) * 64 + s) :: tail)
  | _ => None
  end.

Lemma byte_value_lt c : (byte_value c < 256)%N.
Proof. apply N_ascii_bounded. Qed.

Lemma b64_value_char n : (n < 64)%N → b64_value (b64_char n) = Some n ∧ b64_char n ≠ pad_char.
Proof.
  intros Hn. assert (H : Forall (λ m, b64_value (b64_char m) = Some m ∧ b64_char m ≠ pad_char) (N.of_nat <$> seq 0 64)).
  { apply Forall_fmap. repeat (constructor; [by split|]). constructor. }
  rewrite Forall_forall in H. apply H. apply list_elem_of_fmap. exists (N.to_nat n). rewrite elem_of_seq. lia.
Qed.

Lemma byte_eq c n : n = byte_value c → byte_of_N n = c.
Proof. intros ->. apply byte_of_value. Qed.

(** Linear arithmetic with quotients and remainders by constants. *)
Ltac div_lia := zify; Z.to_euclidean_division_equations; lia.

Lemma b64_decode_encode bs : b64_decode (b64_encode bs) = Some bs.
Proof.
  induction bs as [bs IH] using (induction_ltof1 _ (@length ascii)).
  assert (Hc : ∀ n, (n < 64)%N → b64_value (b64_char n) = Some n ∧ b64_char n ≠ pad_char) by apply b64_value_char.
  destruct bs as [|a [|b [|c rest]]]; [done| | |]; pose proof (byte_value_lt a) as Ha;
    try pose proof (byte_value_lt b) as Hb; try pose proof (byte_value_lt c) as Hcb; cbn [b64_encode app b64_decode].
  - rewrite (proj1 (Hc (byte_value a / 4)%N ltac:(div_lia))), (proj1 (Hc (byte_value a mod 4 * 16)%N ltac:(div_lia))).
    cbn. do 2 f_equal. apply byte_eq. div_lia.
  - rewrite (proj1 (Hc (byte_value a / 4)%N ltac:(div_lia))),
      (proj1 (Hc (byte_value a mod 4 * 16 + byte_value b / 16)%N ltac:(div_lia))). cbn [mbind option_bind].
    rewrite decide_False by (apply Hc; div_lia). rewrite (proj1 (Hc (byte_value b mod 16 * 4)%N ltac:(div_lia))). cbn [mbind option_bind].
    rewrite !decide_True by done. f_equal. f_equal; [apply byte_eq; div_lia|]. f_equal. apply byte_eq. div_lia.
  - rewrite (proj1 (Hc (byte_value a / 4)%N ltac:(div_lia))),
      (proj1 (Hc (byte_value a mod 4 * 16 + byte_value b / 16)%N ltac:(div_lia))). cbn [mbind option_bind].
    rewrite decide_False by (apply Hc; div_lia).
    rewrite (proj1 (Hc (byte_value b mod 16 * 4 + byte_value c / 64)%N ltac:(div_lia))). cbn [mbind option_bind].
    rewrite decide_False by (apply Hc; div_lia). rewrite (proj1 (Hc (byte_value c mod 64)%N ltac:(div_lia))). cbn [mbind option_bind].
    rewrite IH by (unfold ltof; simpl; lia). cbn [mbind option_bind]. f_equal.
    f_equal; [apply byte_eq; div_lia|]. f_equal; [apply byte_eq; div_lia|]. f_equal. apply byte_eq. div_lia.
Qed.
