(* ===== verification/GoPath.v ===== *)
(** * Slash-separated paths

    What the sources use of Go's [path] package and of [strings.Split] on a slash.
    [Clean] and [Dir] follow the rules of the package documentation, on the list of
    the components of a path. *)
From S2P Require Import Prelude.
From S2P Require Import GoStrings.
From S2P Require Import GoJson.
From S2P Require Import GoDecode.

Definition slash : ascii := byte_of_N 47.

(** [strings.Split(s, "/")] *)
Fixpoint split_bytes (bs : list ascii) : list (list ascii) :=
  match bs with
  | [] => [[]]
  | c :: r =>
      if decide (c = slash) then [] :: split_bytes r
      else match split_bytes r with
           | part :: parts => (c :: part) :: parts
           | [] => [[c]]
           end
  end.
Definition split (s : string) : list string := of_bytes <$> split_bytes (bytes_of s).

Definition IsAbs (s : string) : bool := has_prefix s "/".

(** One component of [path.Clean]; the components kept so far, the last first. *)
Definition clean_part (rooted : bool) (out : list string) (part : string) : list string :=
  if decide (part = "" ∨ part = ".") then out
  else if decide (part = "..") then
    match out with
    | [] => if rooted then [] else [".."]
    | top :: rest => if decide (top = "..") then ".." :: out else rest
    end
  else part :: out.

Definition Clean (s : string) : string :=
  let rooted := IsAbs s in
  let out := rev (foldl (clean_part rooted) [] (split s)) in
  if rooted then "/" +:+ join "/" out
  else match out with [] => "." | _ => join "/" out end.

(** [path.Dir]: what precedes the last slash, cleaned. *)
Definition Dir (s : string) : string :=
  Clean (match removelast (split s) with [] => "" | parts => join "/" parts +:+ "/" end).

(** [strings.EqualFold(s, t)] for a [t] of ASCII letters and signs none of which
    folds to a character beyond ASCII. *)
Definition lower_byte (c : ascii) : ascii := if is_upper c then byte_of_N (byte_value c + 32) else c.
Definition equal_fold_ascii (s t : string) : bool :=
  bool_decide (lower_byte <$> bytes_of s = lower_byte <$> bytes_of t).

(** ** Splitting and joining *)

Definition no_slash (s : string) : Prop := slash ∉ bytes_of s.

Lemma split_bytes_app l r : slash ∉ l → split_bytes (l ++ slash :: r) = l :: split_bytes r.
Proof.
  induction l as [|c l IH]; intros H; [done|].
  apply not_elem_of_cons in H as [Hc H]. simpl. rewrite decide_False by done. by rewrite IH.
Qed.

Lemma split_bytes_one l : slash ∉ l → split_bytes l = [l].
Proof.
  induction l as [|c l IH]; intros H; [done|].
  apply not_elem_of_cons in H as [Hc H]. simpl. rewrite decide_False by done. by rewrite IH.
Qed.

Lemma split_bytes_parts l : Forall (λ p, slash ∉ p) (split_bytes l).
Proof.
  induction l as [|c l IH]; simpl; [repeat constructor; by intros ?%elem_of_nil|].
  case_decide; [apply Forall_cons; split; [by intros ?%elem_of_nil|done]|].
  destruct (split_bytes l) as [|p ps]; [repeat constructor; set_solver|].
  apply Forall_cons in IH as [Hp Hps]. constructor; [set_solver|done].
Qed.

Lemma split_no_slash s : Forall no_slash (split s).
Proof.
  unfold split. apply Forall_fmap. eapply Forall_impl; [apply split_bytes_parts|].
  intros p Hp. unfold no_slash. simpl. by rewrite bytes_of_of.
Qed.

Lemma split_bytes_nonempty l : split_bytes l ≠ [].
Proof. destruct l as [|c l]; simpl; [done|]. case_decide; [done|]. by destruct (split_bytes l). Qed.

Lemma split_nonempty s : split s ≠ [].
Proof. unfold split. pose proof (split_bytes_nonempty (bytes_of s)). by destruct (split_bytes _). Qed.

Lemma split_join parts : parts ≠ [] → Forall no_slash parts → split (join "/" parts) = parts.
Proof.
  intros Hne H. unfold split. induction H as [|p parts Hp H IH]; [done|]. clear Hne. destruct parts as [|q parts].
  - cbn [join]. rewrite split_bytes_one by done. simpl. by rewrite of_bytes_of.
  - rewrite bytes_join. change (bytes_of "/" ++ ?l) with (slash :: l).
    rewrite split_bytes_app by done. rewrite fmap_cons, of_bytes_of. f_equal. by apply IH.
Qed.

Lemma join_split_bytes l : bytes_of (join "/" (of_bytes <$> split_bytes l)) = l.
Proof.
  induction l as [|c l IH]; [done|]. cbn [split_bytes].
  destruct (split_bytes l) as [|p ps] eqn:El; [by apply split_bytes_nonempty in El|]. case_decide as E.
  - rewrite fmap_cons, fmap_cons, bytes_join, <- fmap_cons, IH. by subst.
  - destruct ps as [|q ps]; rewrite !fmap_cons in *.
    + cbn [fmap list_fmap join] in *. rewrite bytes_of_of in *. by subst.
    + rewrite bytes_join in *. rewrite bytes_of_of in *. cbn [app]. by rewrite IH.
Qed.

Lemma join_split s : join "/" (split s) = s.
Proof. apply bytes_of_inj. apply join_split_bytes. Qed.

(** ** Plain components *)

Definition plain (c : string) : Prop := c ≠ "" ∧ c ≠ "." ∧ c ≠ ".." ∧ no_slash c.

Lemma clean_plain rooted out cs : Forall plain cs → foldl (clean_part rooted) out cs = rev cs ++ out.
Proof.
  intros H. revert out. induction H as [|c cs (H1 & H2 & H3 & _) _ IH]; intros out; [done|]. simpl.
  unfold clean_part at 2. rewrite decide_False by tauto. rewrite decide_False by done. rewrite IH, <- app_assoc. done.
Qed.

Lemma IsAbs_join c cs : c ≠ "" → no_slash c → IsAbs (join "/" (c :: cs)) = false.
Proof.
  intros Hne Hs. unfold IsAbs, has_prefix. destruct (strip_prefix _ _) as [rest|] eqn:E; [|done].
  apply strip_prefix_Some in E. apply (f_equal bytes_of) in E. rewrite bytes_of_app in E.
  destruct (join_head "/" c cs) as [k Hk]; [destruct c; [done|by eexists _, _]|]. rewrite Hk in E.
  destruct c as [|a c]; [done|]. injection E as Ea _. destruct Hs. rewrite Ea. left.
Qed.

Lemma Clean_join cs : cs ≠ [] → Forall plain cs → Clean (join "/" cs) = join "/" cs.
Proof.
  intros Hne H. unfold Clean. destruct cs as [|c cs]; [done|]. pose proof (Forall_inv H) as (H1 & _ & _ & H4).
  rewrite IsAbs_join by done. rewrite split_join; [|done|by eapply Forall_impl; [exact H|intros ? (?&?&?&?)]].
  rewrite clean_plain by done. rewrite app_nil_r, rev_involutive. done.
Qed.

(** A path that is its own clean form, relative and without [..], has only plain
    components. *)
Lemma Clean_fixed s :
  Clean s = s → IsAbs s = false → s ≠ "." → ".." ∉ split s → Forall plain (split s).
Proof.
  intros Hc Ha Hdot Hup. unfold Clean in Hc. rewrite Ha in Hc.
  set (out := rev (foldl (clean_part false) [] (split s))) in *.
  assert (Hkeep : Forall (λ c, c ≠ "" ∧ c ≠ "." ∧ no_slash c) out).
  { apply Forall_rev.
    assert (∀ cs acc, Forall no_slash cs → Forall (λ c, c ≠ "" ∧ c ≠ "." ∧ no_slash c) acc →
      Forall (λ c, c ≠ "" ∧ c ≠ "." ∧ no_slash c) (foldl (clean_part false) acc cs)) as Hf.
    { induction cs as [|c cs IH]; intros acc Hn Hacc; [done|]. apply Forall_cons in Hn as [Hn1 Hn2]. simpl.
      apply IH; [done|]. unfold clean_part.
      assert (Hd : ".." ≠ "" ∧ ".." ≠ "." ∧ no_slash "..").
      { split_and!; [done..|]. unfold no_slash. apply (bool_decide_eq_true_1 _). by vm_compute. }
      destruct (decide (c = "" ∨ c = ".")) as [|Hcd]; [done|]. case_decide.
      - destruct acc as [|top acc]; [by constructor|]. case_decide; [by constructor|]. by apply Forall_cons in Hacc as [_ ?].
      - constructor; [|done]. split_and!; [tauto..|done]. }
    apply Hf; [apply split_no_slash|constructor]. }
  clearbody out. destruct out as [|c out]; [done|].
  assert (Hs : split s = c :: out).
  { rewrite <- Hc. apply split_join; [done|]. by eapply Forall_impl; [exact Hkeep|intros ? (?&?&?)]. }
  rewrite Hs in Hup |- *. apply Forall_forall. intros x Hx. rewrite Forall_forall in Hkeep.
  destruct (Hkeep x Hx) as (? & ? & ?). split_and!; [done..| |done]. intros ->. done.
Qed.

Lemma join_snoc_empty ps : ps ≠ [] → join "/" (ps ++ [""]) = join "/" ps +:+ "/".
Proof.
  induction ps as [|p ps IH]; [done|]. intros _. apply bytes_of_inj. destruct ps as [|q ps].
  - cbn [app join]. by rewrite !bytes_of_app, app_nil_r.
  - cbn [app] in *. rewrite bytes_join, (IH ltac:(done)), !bytes_of_app, bytes_join, <- !app_assoc. done.
Qed.

Lemma Dir_join ps c : Forall plain (ps ++ [c]) →
  Dir (join "/" (ps ++ [c])) = match ps with [] => "." | _ => join "/" ps end.
Proof.
  intros H. assert (Hn : Forall no_slash (ps ++ [c])) by (by eapply Forall_impl; [exact H|intros ? (?&?&?&?)]).
  unfold Dir. rewrite split_join; [|by destruct ps|done]. rewrite removelast_last.
  apply Forall_app in H as [H _]. destruct ps as [|p ps]; [by vm_compute|].
  rewrite <- join_snoc_empty by done. unfold Clean. pose proof (Forall_inv H) as (H1 & _ & _ & H4).
  rewrite <- app_comm_cons, IsAbs_join by done. rewrite app_comm_cons, split_join; [|done|].
  - rewrite foldl_app, (clean_plain _ _ (p :: ps)) by done.
    change (foldl (clean_part false) ?out [""]) with out. rewrite app_nil_r, rev_involutive. done.
  - apply Forall_app. apply Forall_app in Hn as [Hn _]. split; [done|]. constructor; [|done]. by intros ?%elem_of_nil.
Qed.
