(* ===== verification/GoTime.v ===== *)
(** * Instants in the text form of [time.RFC3339Nano]

    Instants are microseconds since the Unix epoch.  [FormatRFC3339Nano] prints
    one in UTC, as [t.Format(time.RFC3339Nano)] does: the fraction loses its
    trailing zeros and disappears when it is zero. *)
From stdpp Require Import pretty.
From S2P Require Import Prelude.
From S2P Require Import GoStrings.

Local Open Scope Z_scope.

(** Year, month and day of a day number, in the proleptic Gregorian calendar. *)
Definition civil_of_days (days : Z) : Z * Z * Z :=
  let z := days + 719468 in
  let era := z / 146097 in
  let doe := z mod 146097 in
  let yoe := (doe - doe / 1460 + doe / 36524 - doe / 146096) / 365 in
  let doy := doe - (365 * yoe + yoe / 4 - yoe / 100) in
  let mp := (5 * doy + 2) / 153 in
  let day := doy - (153 * mp + 2) / 5 + 1 in
  let month := if bool_decide (mp < 10) then mp + 3 else mp - 9 in
  let year := yoe + era * 400 + (if bool_decide (month <= 2) then 1 else 0) in
  (year, month, day).

Definition digit_char (n : Z) : string := chr (48 + Z.to_N (n mod 10)).
Definition two_digits (n : Z) : string := digit_char (n / 10) +:+ digit_char n.
Definition four_digits (n : Z) : string := two_digits (n / 100) +:+ two_digits (n mod 100).
Definition six_digits (n : Z) : string := two_digits (n / 10000) +:+ four_digits (n mod 10000).

Fixpoint drop_zeros (l : list ascii) : list ascii :=
  match l with
  | [] => []
  | c :: rest => if decide (byte_value c = 48%N) then drop_zeros rest else l
  end.

Definition fraction (micros : Z) : string :=
  let digits := rev (drop_zeros (rev (bytes_of (six_digits micros)))) in
  match digits with [] => EmptyString | _ => "." +:+ of_bytes digits end.

Definition FormatRFC3339Nano (t : Z) : string :=
  let seconds := t / 1000000 in
  let '(year, month, day) := civil_of_days (seconds / 86400) in
  let s := seconds mod 86400 in
  four_digits year +:+ "-" +:+ two_digits month +:+ "-" +:+ two_digits day +:+ "T"
    +:+ two_digits (s / 3600) +:+ ":" +:+ two_digits (s / 60 mod 60) +:+ ":" +:+ two_digits (s mod 60)
    +:+ fraction (t mod 1000000) +:+ "Z".

Example format_epoch : FormatRFC3339Nano 0 = "1970-01-01T00:00:00Z".
Proof. reflexivity. Qed.
Example format_leap : FormatRFC3339Nano 1709210096120500 = "2024-02-29T12:34:56.1205Z".
Proof. reflexivity. Qed.
