(* ===== verification/Lifecycle.v ===== *)
(** * Operation lifecycles

    [internal/lifecycle/publication] and [internal/lifecycle/invocation]: the
    two state machines of the durable control plane.  States, commands and
    phases are Go strings, so the transition functions are total on arbitrary
    strings, including ones no constant names. *)
From S2P Require Import Prelude.

Module Publication.

Definition StateMachineVersion : Z := 1.
Definition AtomicDevelopmentVersion : Z := 2.
Definition QueuedDevelopmentVersion : Z := 3.
Definition AuthorizedDevelopmentVersion : Z := 4.
Definition AuthorizedWorkspaceDevelopmentVersion : Z := 5.
Definition AuthorizedOwnedWorkspaceVersion : Z := 6.

Definition IsAuthorizedDevelopmentVersion (version : Z) : bool :=
  bool_decide (version = AuthorizedDevelopmentVersion)
  || bool_decide (version = AuthorizedWorkspaceDevelopmentVersion)
  || bool_decide (version = AuthorizedOwnedWorkspaceVersion).

Definition StateQueued := "queued".
Definition StateValidating := "validating".
Definition StateApplying := "applying".
Definition StateObserving := "observing".
Definition StatePublished := "published".
Definition StateFailed := "failed".
Definition StateCancelled := "cancelled".

Definition CommandPublish := "publish".
Definition CommandCancel := "cancel".
Definition CommandRepair := "repair".

Definition IsTerminal (state : string) : bool :=
  bool_decide (state = StatePublished) || bool_decide (state = StateFailed)
  || bool_decide (state = StateCancelled).

(** The [allowed] map literal of [CanTransition]. *)
Definition allowed (from : string) : list string :=
  if decide (from = StateQueued) then [StateValidating; StateFailed; StateCancelled]
  else if decide (from = StateValidating) then [StateApplying; StateFailed; StateCancelled]
  else if decide (from = StateApplying) then [StateObserving; StateFailed; StateCancelled]
  else if decide (from = StateObserving) then
    [StateApplying; StatePublished; StateFailed; StateCancelled]
  else if decide (from = StateFailed) then [StateQueued]
  else [].

Definition CanTransition (from to : string) : bool :=
  if decide (from = to ∧ IsTerminal from = false) then true
  else bool_decide (to ∈ allowed from).

Definition ValidateTransition (from to : string) : result unit :=
  if CanTransition from to then Ok ()
  else Err (ENew ("publication transition " +:+ from +:+ " -> " +:+ to +:+ " is not allowed")).

Definition AllowsEffect (command state phase : string) : bool :=
  if IsTerminal state then false
  else if decide (command = CommandCancel) then bool_decide (phase = "cancel-publication")
  else (bool_decide (command = CommandPublish) || bool_decide (command = CommandRepair))
       && bool_decide (state = StateApplying) && bool_decide (phase = "publish-revision").

End Publication.

Module Invocation.

Definition StateMachineVersion : Z := 2.

Definition StateQueued := "queued".
Definition StateStarting := "starting".
Definition StateRunning := "running".
Definition StateWaiting := "waiting".
Definition StateCancelling := "cancelling".
Definition StateObserving := "observing".
Definition StateSucceeded := "succeeded".
Definition StateFailed := "failed".
Definition StateCancelled := "cancelled".

Definition CommandInvoke := "invoke".
Definition CommandCancel := "cancel".
Definition CommandRepair := "repair".

Definition IsTerminal (state : string) : bool :=
  bool_decide (state = StateSucceeded) || bool_decide (state = StateFailed)
  || bool_decide (state = StateCancelled).

Definition allowed (from : string) : list string :=
  if decide (from = StateQueued) then [StateStarting; StateCancelling; StateFailed]
  else if decide (from = StateStarting) then
    [StateRunning; StateObserving; StateFailed; StateCancelling]
  else if decide (from = StateRunning) then
    [StateWaiting; StateObserving; StateSucceeded; StateFailed; StateCancelling]
  else if decide (from = StateWaiting) then [StateRunning; StateFailed; StateCancelling]
  else if decide (from = StateCancelling) then [StateObserving; StateCancelled; StateFailed]
  else if decide (from = StateObserving) then
    [StateRunning; StateSucceeded; StateFailed; StateCancelled; StateCancelling]
  else if decide (from = StateFailed) then [StateQueued]
  else [].

Definition CanTransition (from to : string) : bool :=
  if decide (from = to ∧ IsTerminal from = false) then true
  else bool_decide (to ∈ allowed from).

Definition ValidateTransition (from to : string) : result unit :=
  if CanTransition from to then Ok ()
  else Err (ENew ("invocation transition " +:+ from +:+ " -> " +:+ to +:+ " is not allowed")).

Definition AllowsEffect (command state phase : string) : bool :=
  if IsTerminal state then false
  else if decide (command = CommandCancel ∨ state = StateCancelling) then
    bool_decide (phase = "cancel-invocation")
  else if decide (command ≠ CommandInvoke ∧ command ≠ CommandRepair) then false
  else (bool_decide (state = StateStarting) && bool_decide (phase = "start-invocation"))
       || (bool_decide (state = StateRunning) && bool_decide (phase = "run-invocation")).

End Invocation.

(** ** Automation for the state machines: reduce membership in an [allowed]
    list to equalities between states. *)
Ltac lifecycle_unfold :=
  unfold Publication.CanTransition, Publication.allowed, Publication.IsTerminal,
    Publication.StateQueued, Publication.StateValidating, Publication.StateApplying,
    Publication.StateObserving, Publication.StatePublished, Publication.StateFailed,
    Publication.StateCancelled, Publication.CommandPublish, Publication.CommandCancel,
    Publication.CommandRepair,
    Invocation.CanTransition, Invocation.allowed, Invocation.IsTerminal,
    Invocation.StateQueued, Invocation.StateStarting, Invocation.StateRunning,
    Invocation.StateWaiting, Invocation.StateCancelling, Invocation.StateObserving,
    Invocation.StateSucceeded, Invocation.StateFailed, Invocation.StateCancelled,
    Invocation.CommandInvoke, Invocation.CommandCancel, Invocation.CommandRepair in *.

Ltac lifecycle_solve :=
  lifecycle_unfold; simpl in *; to_prop;
  repeat (case_decide; simplify_eq/=); to_prop; set_unfold;
  naive_solver.

Lemma publication_terminal_cases s :
  Publication.IsTerminal s = true ↔
  s = Publication.StatePublished ∨ s = Publication.StateFailed ∨ s = Publication.StateCancelled.
Proof.
  unfold Publication.IsTerminal. rewrite !orb_true_iff, !bool_decide_eq_true. tauto.
Qed.

Lemma invocation_terminal_cases s :
  Invocation.IsTerminal s = true ↔
  s = Invocation.StateSucceeded ∨ s = Invocation.StateFailed ∨ s = Invocation.StateCancelled.
Proof.
  unfold Invocation.IsTerminal. rewrite !orb_true_iff, !bool_decide_eq_true. tauto.
Qed.

Lemma publication_terminal_exit s t :
  Publication.IsTerminal s = true → Publication.CanTransition s t = true →
  s = Publication.StateFailed ∧ t = Publication.StateQueued.
Proof.
  rewrite publication_terminal_cases. intros [-> | [-> | ->]] H; lifecycle_solve.
Qed.

Lemma invocation_terminal_exit s t :
  Invocation.IsTerminal s = true → Invocation.CanTransition s t = true →
  s = Invocation.StateFailed ∧ t = Invocation.StateQueued.
Proof.
  rewrite invocation_terminal_cases. intros [-> | [-> | ->]] H; lifecycle_solve.
Qed.

(** ** Runs of the state machines *)

Definition publication_step (s t : string) : Prop := Publication.CanTransition s t = true.
Definition invocation_step (s t : string) : Prop := Invocation.CanTransition s t = true.

Definition publication_states : list string :=
  [Publication.StateQueued; Publication.StateValidating; Publication.StateApplying;
   Publication.StateObserving; Publication.StatePublished; Publication.StateFailed;
   Publication.StateCancelled].

Definition invocation_states : list string :=
  [Invocation.StateQueued; Invocation.StateStarting; Invocation.StateRunning;
   Invocation.StateWaiting; Invocation.StateCancelling; Invocation.StateObserving;
   Invocation.StateSucceeded; Invocation.StateFailed; Invocation.StateCancelled].

(** Transitions stay inside the named states. *)
Lemma publication_states_closed s t :
  publication_step s t → s ∈ publication_states → t ∈ publication_states.
Proof.
  unfold publication_step, Publication.CanTransition. case_decide as E; [by destruct E as [-> _]|].
  unfold publication_states. intros H Hs. apply bool_decide_eq_true in H.
  revert H. unfold Publication.allowed. repeat case_decide; set_solver.
Qed.

Lemma invocation_states_closed s t :
  invocation_step s t → s ∈ invocation_states → t ∈ invocation_states.
Proof.
  unfold invocation_step, Invocation.CanTransition. case_decide as E; [by destruct E as [-> _]|].
  unfold invocation_states. intros H Hs. apply bool_decide_eq_true in H.
  revert H. unfold Invocation.allowed. repeat case_decide; set_solver.
Qed.

(** No unfinished state is a trap: every named, unfinished state of either
    machine may fail, a publication may be cancelled from each of them in one
    step, and an invocation in at most two, through [cancelling]. *)
Theorem unfinished_states_can_end s :
  (s ∈ publication_states → Publication.IsTerminal s = false →
     Publication.CanTransition s Publication.StateFailed = true
     ∧ Publication.CanTransition s Publication.StateCancelled = true)
  ∧ (s ∈ invocation_states → Invocation.IsTerminal s = false →
     Invocation.CanTransition s Invocation.StateFailed = true
     ∧ Invocation.CanTransition s Invocation.StateCancelling = true
     ∧ Invocation.CanTransition Invocation.StateCancelling Invocation.StateCancelled = true).
Proof.
  split; intros H T; unfold publication_states, invocation_states in H;
    repeat (apply elem_of_cons in H as [->|H]; [try discriminate T; vm_compute; auto|]);
    by apply elem_of_nil in H.
Qed.

(** Which external effects a claimed invocation may cause, exactly: nothing
    once it is finished; only [cancel-invocation] when the command is cancel or
    the invocation is cancelling; otherwise, for invoke and repair, the start
    effect in [starting] and the run effect in [running], and nothing else. *)
Theorem invocation_effects_exact command state phase :
  Invocation.AllowsEffect command state phase = true ↔
  Invocation.IsTerminal state = false ∧
  ((command = "cancel" ∨ state = "cancelling") ∧ phase = "cancel-invocation"
   ∨ (command = "invoke" ∨ command = "repair")
     ∧ (state = "starting" ∧ phase = "start-invocation" ∨ state = "running" ∧ phase = "run-invocation")).
Proof.
  unfold Invocation.AllowsEffect, Invocation.CommandCancel, Invocation.CommandInvoke, Invocation.CommandRepair,
    Invocation.StateCancelling, Invocation.StateStarting, Invocation.StateRunning.
  destruct (Invocation.IsTerminal state) eqn:T; [naive_solver|].
  case_decide as E1; [rewrite bool_decide_eq_true; naive_solver|].
  case_decide as E2; [split; [done|]; destruct (decide (command = "invoke")), (decide (command = "repair"));
    naive_solver|].
  rewrite orb_true_iff, !andb_true_iff, !bool_decide_eq_true.
  destruct (decide (command = "invoke")), (decide (command = "repair")); naive_solver.
Qed.

(** A publication that ended published or cancelled is final under any
    sequence of legal transitions, and a failed one can only be left by being
    queued again (repair). *)
Theorem publication_outcomes_final s t :
  rtc publication_step s t →
  (s = Publication.StatePublished ∨ s = Publication.StateCancelled → t = s)
  ∧ (s = Publication.StateFailed → t = s ∨ rtc publication_step Publication.StateQueued t).
Proof.
  induction 1 as [x|x y z Hxy Hyz IH]; [tauto|]. split.
  - intros Hx. destruct (publication_terminal_exit x y) as [E _];
      [apply publication_terminal_cases; tauto|done|]. rewrite E in Hx. by destruct Hx.
  - intros ->. destruct (publication_terminal_exit Publication.StateFailed y) as [_ ->];
      [by apply publication_terminal_cases; auto|done|]. by right.
Qed.

Lemma publication_outcomes_final_witness :
  Publication.StateValidating = Publication.StateFailed
  ∨ rtc publication_step Publication.StateQueued Publication.StateValidating.
Proof.
  refine (proj2 (publication_outcomes_final Publication.StateFailed Publication.StateValidating _) eq_refl).
  apply (rtc_l _ _ Publication.StateQueued); [vm_compute; reflexivity|].
  apply rtc_once. vm_compute. reflexivity.
Defined.
