(* ===== verification/Domain.v ===== *)
(** * Domain values and invocation contracts

    [internal/domain]: the resource structs of [models.go] with their JSON
    encodings, the public error value, and the validation of
    invocation input and output against a revision's JSON Schemas
    ([invocation_input.go]).  Compiling and checking a schema is the job of
    [github.com/santhosh-tekuri/jsonschema], which is not part of the sources:
    it is the class [SchemaEngine]. *)
From S2P Require Import Prelude.
From S2P Require Import GoStrings.
From S2P Require Import GoJson.
From S2P Require Import GoTime.

(** [domain.FieldError] and [domain.APIError]. *)
Record field_error := FieldError { fe_field : string; fe_code : string; fe_message : string }.

Record api_error := APIError {
  ae_code : string;
  ae_message : string;
  ae_correlation_id : string;
  ae_retryable : bool;
  ae_field_errors : list field_error;
}.

#[global] Instance field_error_eq_dec : EqDecision field_error.
Proof. solve_decision. Defined.
#[global] Instance api_error_eq_dec : EqDecision api_error.
Proof. solve_decision. Defined.

Definition with_correlation (e : api_error) (correlationID : string) : api_error :=
  APIError (ae_code e) (ae_message e) correlationID (ae_retryable e) (ae_field_errors e).

(** The JSON Schema compiler and validator: whether a schema document compiles
    (with no external resource loader), and whether a compiled schema accepts a
    value. *)
Class SchemaEngine := {
  schema_compiles : json → bool;
  schema_accepts : json → json → bool;
}.

Section contracts.
Context `{SchemaEngine}.

(** A Go [map[string]any] that may be nil; nil marshals as [null]. *)
Definition nullable (value : option json) : json := default JNull value.

Definition validateInvocationContract (schema value : option json)
    (schemaCode schemaMessage valueCode valueMessage : string) : option api_error :=
  match schema with
  | None => None
  | Some schema =>
      if negb (schema_compiles schema) then Some (APIError schemaCode schemaMessage "" false [])
      else if negb (schema_accepts schema (nullable value)) then
        Some (APIError valueCode valueMessage "" false [])
      else None
  end.

Definition ValidateInvocationInput (schema input : option json) : option api_error :=
  validateInvocationContract schema input
    "REVISION_INPUT_SCHEMA_INVALID" "The service revision input contract cannot be validated."
    "INVOCATION_INPUT_INVALID" "Invocation input does not satisfy the service revision input contract.".

Definition ValidateInvocationOutput (schema output : option json) : option api_error :=
  validateInvocationContract schema output
    "REVISION_OUTPUT_SCHEMA_INVALID" "The service revision output contract cannot be validated."
    "INVOCATION_OUTPUT_INVALID" "Invocation output does not satisfy the service revision output contract.".

Definition schema_problem (schema : option json) (code message : string) : option api_error :=
  match schema with
  | None => None
  | Some schema => if schema_compiles schema then None else Some (APIError code message "" false [])
  end.

Definition ValidateRevisionSchemas (input output : option json) : option api_error :=
  match schema_problem input "REVISION_INPUT_SCHEMA_INVALID"
          "The service revision input contract cannot be validated." with
  | Some problem => Some problem
  | None => schema_problem output "REVISION_OUTPUT_SCHEMA_INVALID"
              "The service revision output contract cannot be validated."
  end.

End contracts.

(** ** Resources ([models.go])

    Instants are encoded as [time.Time] is, in RFC 3339 form.  Labels are never
    set by the modelled code and are left out, as [omitempty] leaves them out. *)

Record ResourceMetadata := Metadata {
  m_ID : string;
  m_IsolationDomainID : string;
  m_Generation : Z;
  m_Version : Z;
  m_CreatedAt : Z;
  m_UpdatedAt : Z;
  m_CreatedBy : string;
}.

Record AgentService := Service {
  s_WorkspaceID : string;
  s_Metadata : ResourceMetadata;
  s_Name : string;
  s_Description : string;
}.

Record ServiceRevision := Revision {
  r_Metadata : ResourceMetadata;
  r_ServiceID : string;
  r_RevisionNumber : Z;
  r_State : string;
  r_RuntimeProfile : string;
  r_RequiredCapabilities : list string;
  r_InputSchema : option json;
  r_OutputSchema : option json;
  r_PublishedAt : option Z;
}.

Record ServiceAlias := Alias {
  a_WithdrawnAt : option Z;
  a_Metadata : ResourceMetadata;
  a_ServiceID : string;
  a_Name : string;
  a_RevisionID : string;
}.

Record OperationLease := Lease { l_Owner : string; l_FencingToken : Z; l_ExpiresAt : Z }.

Record Operation := Op {
  o_Metadata : ResourceMetadata;
  o_Kind : string;
  o_Command : string;
  o_ResourceID : string;
  o_DesiredState : string;
  o_ObservedState : string;
  o_StateMachineVersion : Z;
  o_Attempt : Z;
  o_CorrelationID : string;
  o_Lease : option OperationLease;
  o_DueAt : option Z;
  o_DeadlineAt : option Z;
  o_ErrorClassification : string;
  o_TerminalResult : option json;
  o_Error : option api_error;
}.

Record Usage := UsageCounts { u_InputTokens : Z; u_OutputTokens : Z; u_TotalTokens : Z }.

Record Invocation := Inv {
  i_Metadata : ResourceMetadata;
  i_ServiceID : string;
  i_RevisionID : string;
  i_Alias : string;
  i_State : string;
  i_Input : json;
  i_Result : option json;
  i_Error : option api_error;
  i_Usage : option Usage;
  i_CorrelationID : string;
  i_OperationID : string;
  i_ArtifactIDs : list string;
  i_CompletedAt : option Z;
}.

#[global] Instance metadata_eq_dec : EqDecision ResourceMetadata.
Proof. solve_decision. Defined.
#[global] Instance usage_eq_dec : EqDecision Usage.
Proof. solve_decision. Defined.
#[global] Instance invocation_eq_dec : EqDecision Invocation.
Proof. solve_decision. Defined.

(** *** Encodings *)

Definition time_json (t : Z) : json := JStr (FormatRFC3339Nano t).
Definition strings_json (l : list string) : json := JArr (JStr <$> l).

(** [omitempty] fields: present only when non-empty. *)
Definition omit_string (name value : string) : list (string * json) :=
  if decide (value = "") then [] else [(name, JStr value)].
Definition omit_time (name : string) (value : option Z) : list (string * json) :=
  match value with None => [] | Some t => [(name, time_json t)] end.
Definition omit_map (name : string) (value : option json) : list (string * json) :=
  match value with None => [] | Some (JObj []) => [] | Some v => [(name, v)] end.

Definition field_error_json (f : field_error) : json :=
  JObj [("field", JStr (fe_field f)); ("code", JStr (fe_code f)); ("message", JStr (fe_message f))].

Definition api_error_json (e : api_error) : json :=
  JObj ([("code", JStr (ae_code e)); ("message", JStr (ae_message e));
         ("correlationId", JStr (ae_correlation_id e)); ("retryable", JBool (ae_retryable e))]
        ++ match ae_field_errors e with [] => [] | fs => [("fieldErrors", JArr (field_error_json <$> fs))] end).

Definition omit_error (value : option api_error) : list (string * json) :=
  match value with None => [] | Some e => [("error", api_error_json e)] end.

Definition metadata_json (m : ResourceMetadata) : json :=
  JObj [("id", JStr (m_ID m)); ("isolationDomainId", JStr (m_IsolationDomainID m));
        ("generation", JInt (m_Generation m)); ("version", JInt (m_Version m));
        ("createdAt", time_json (m_CreatedAt m)); ("updatedAt", time_json (m_UpdatedAt m));
        ("createdBy", JStr (m_CreatedBy m))].

Definition service_json (s : AgentService) : json :=
  JObj (omit_string "workspaceId" (s_WorkspaceID s)
        ++ [("metadata", metadata_json (s_Metadata s)); ("name", JStr (s_Name s))]
        ++ omit_string "description" (s_Description s)).

Definition revision_json (r : ServiceRevision) : json :=
  JObj ([("metadata", metadata_json (r_Metadata r)); ("serviceId", JStr (r_ServiceID r));
         ("revisionNumber", JInt (r_RevisionNumber r)); ("state", JStr (r_State r));
         ("runtimeProfile", JStr (r_RuntimeProfile r));
         ("requiredCapabilities", strings_json (r_RequiredCapabilities r))]
        ++ omit_map "inputSchema" (r_InputSchema r) ++ omit_map "outputSchema" (r_OutputSchema r)
        ++ omit_time "publishedAt" (r_PublishedAt r)).

Definition alias_json (a : ServiceAlias) : json :=
  JObj (omit_time "withdrawnAt" (a_WithdrawnAt a)
        ++ [("metadata", metadata_json (a_Metadata a)); ("serviceId", JStr (a_ServiceID a));
            ("name", JStr (a_Name a)); ("revisionId", JStr (a_RevisionID a))]).

Definition lease_json (l : OperationLease) : json :=
  JObj [("owner", JStr (l_Owner l)); ("fencingToken", JInt (l_FencingToken l));
        ("expiresAt", time_json (l_ExpiresAt l))].

Definition operation_json (o : Operation) : json :=
  JObj ([("metadata", metadata_json (o_Metadata o)); ("kind", JStr (o_Kind o));
         ("command", JStr (o_Command o))]
        ++ omit_string "resourceId" (o_ResourceID o)
        ++ [("desiredState", JStr (o_DesiredState o)); ("observedState", JStr (o_ObservedState o));
            ("stateMachineVersion", JInt (o_StateMachineVersion o)); ("attempt", JInt (o_Attempt o));
            ("correlationId", JStr (o_CorrelationID o))]
        ++ match o_Lease o with None => [] | Some l => [("lease", lease_json l)] end
        ++ omit_time "dueAt" (o_DueAt o) ++ omit_time "deadlineAt" (o_DeadlineAt o)
        ++ omit_string "errorClassification" (o_ErrorClassification o)
        ++ omit_map "terminalResult" (o_TerminalResult o) ++ omit_error (o_Error o)).

Definition usage_json (u : Usage) : json :=
  JObj [("inputTokens", JInt (u_InputTokens u)); ("outputTokens", JInt (u_OutputTokens u));
        ("totalTokens", JInt (u_TotalTokens u))].

Definition invocation_json (i : Invocation) : json :=
  JObj ([("metadata", metadata_json (i_Metadata i)); ("serviceId", JStr (i_ServiceID i));
         ("revisionId", JStr (i_RevisionID i)); ("alias", JStr (i_Alias i));
         ("state", JStr (i_State i)); ("input", i_Input i)]
        ++ omit_map "result" (i_Result i) ++ omit_error (i_Error i)
        ++ match i_Usage i with None => [] | Some u => [("usage", usage_json u)] end
        ++ [("correlationId", JStr (i_CorrelationID i)); ("operationId", JStr (i_OperationID i));
            ("artifactIds", strings_json (i_ArtifactIDs i))]
        ++ omit_time "completedAt" (i_CompletedAt i)).

Definition error_envelope_json (e : api_error) : json := JObj [("error", api_error_json e)].

(** [metadata] of [repository.go], [newMetadata] of [server.go]. *)
Definition new_metadata (id isolationDomainID actorID : string) (now : Z) : ResourceMetadata :=
  Metadata id isolationDomainID 1 1 now now actorID.
