(* ===== verification/Questions.v ===== *)
(** * Questions to the user

    [internal/domain/question.go]: an agent may ask up to three questions while an
    invocation runs; an answer selects options or supplies free text.  The two
    validators are loops with early exit, all with the same error; the maps of
    identifiers seen so far are accumulators. *)
From S2P Require Import Prelude.
From S2P Require Import GoStrings.
From S2P Require Import GoJson.

Definition ErrQuestionInvalid : error := ESentinel "domain.ErrQuestionInvalid".

Definition is_item_char (c : ascii) : bool := is_lower c || is_digit c || bool_decide (c = "_"%char).
Definition questionItemIDPattern : string → bool := match_headed is_lower is_item_char 63.

Record QuestionOption := MkOption { qo_ID : string; qo_Label : string; qo_Description : string }.

Record QuestionPrompt := MkPrompt {
  qp_ID : string; qp_Title : string; qp_Prompt : string; qp_Options : list QuestionOption;
  qp_Multiple : bool; qp_AllowFreeText : bool }.

Record QuestionAnswer := MkAnswer {
  qa_QuestionID : string; qa_OptionIDs : list string; qa_Text : option string }.

Definition option_json (o : QuestionOption) : json :=
  JObj [("id", JStr (qo_ID o)); ("label", JStr (qo_Label o)); ("description", JStr (qo_Description o))].

(** [omitempty] on a slice drops it when it has no elements. *)
Definition prompt_json (p : QuestionPrompt) : json :=
  JObj ([("id", JStr (qp_ID p)); ("title", JStr (qp_Title p)); ("prompt", JStr (qp_Prompt p))]
        ++ match qp_Options p with [] => [] | options => [("options", JArr (option_json <$> options))] end
        ++ [("multiple", JBool (qp_Multiple p)); ("allowFreeText", JBool (qp_AllowFreeText p))]).

Definition answer_json (a : QuestionAnswer) : json :=
  JObj ([("questionId", JStr (qa_QuestionID a))]
        ++ match qa_OptionIDs a with [] => [] | ids => [("optionIds", JArr (JStr <$> ids))] end
        ++ match qa_Text a with None => [] | Some text => [("text", JStr text)] end).

Definition questionText (value : string) (maximum : Z) (allowEmpty : bool) : bool :=
  if negb (valid_utf8 value) || (maximum <? go_len value)%Z
     || (negb allowEmpty && bool_decide (trim_space value = "")) then false
  else forallb (λ r, negb (is_control (rune_value r)
                           && negb (bool_decide (rune_value r = 10%N)) && negb (bool_decide (rune_value r = 9%N))))
         (runes value).

(** The inner loop over options. *)
Fixpoint options_valid (ids labels : list string) (options : list QuestionOption) : bool :=
  match options with
  | [] => true
  | o :: rest =>
      if negb (questionItemIDPattern (qo_ID o)) || bool_decide (qo_ID o ∈ ids)
         || bool_decide (trim_space (qo_Label o) ∈ labels)
         || negb (questionText (qo_Label o) 256 false) || negb (questionText (qo_Description o) 1024 true)
      then false
      else options_valid (qo_ID o :: ids) (trim_space (qo_Label o) :: labels) rest
  end.

Definition option_count_valid (p : QuestionPrompt) : bool :=
  match qp_Options p with
  | [] => negb (negb (qp_AllowFreeText p) || qp_Multiple p)
  | options => negb ((length options <? 2) || (4 <? length options))
  end.

(** The outer loop over prompts. *)
Fixpoint prompts_valid (seen : list string) (prompts : list QuestionPrompt) : bool :=
  match prompts with
  | [] => true
  | p :: rest =>
      if negb (questionItemIDPattern (qp_ID p)) || bool_decide (qp_ID p ∈ seen)
         || negb (questionText (qp_Title p) 128 false) || negb (questionText (qp_Prompt p) 2048 false)
      then false
      else if negb (option_count_valid p) then false
      else if options_valid [] [] (qp_Options p) then prompts_valid (qp_ID p :: seen) rest
      else false
  end.

Definition ValidateQuestionPrompts (prompts : list QuestionPrompt) : result unit :=
  if (length prompts <? 1) || (3 <? length prompts) then Err ErrQuestionInvalid
  else if prompts_valid [] prompts then
    if (32768 <? go_len (marshal (JArr (prompt_json <$> prompts))))%Z then Err ErrQuestionInvalid else Ok tt
  else Err ErrQuestionInvalid.

(** [byID]: a later prompt with the same identifier would win. *)
Fixpoint prompt_by_id (prompts : list QuestionPrompt) (id : string) : option QuestionPrompt :=
  match prompts with
  | [] => None
  | p :: rest =>
      match prompt_by_id rest id with
      | Some q => Some q
      | None => if decide (qp_ID p = id) then Some p else None
      end
  end.

Fixpoint selection_valid (options : list QuestionOption) (selected ids : list string) : bool :=
  match ids with
  | [] => true
  | id :: rest =>
      if negb (existsb (λ o, bool_decide (id = qo_ID o)) options) || bool_decide (id ∈ selected) then false
      else selection_valid options (id :: selected) rest
  end.

Definition answer_valid (p : QuestionPrompt) (a : QuestionAnswer) : bool :=
  match qa_Text a with
  | Some text =>
      negb (negb (qp_AllowFreeText p) || negb (bool_decide (qa_OptionIDs a = [])) || negb (questionText text 4096 false))
  | None =>
      if bool_decide (qa_OptionIDs a = []) || (length (qp_Options p) <? length (qa_OptionIDs a))
         || (negb (qp_Multiple p) && negb (length (qa_OptionIDs a) =? 1)) then false
      else selection_valid (qp_Options p) [] (qa_OptionIDs a)
  end.

Fixpoint answers_valid (prompts : list QuestionPrompt) (seen : list string) (answers : list QuestionAnswer) : bool :=
  match answers with
  | [] => true
  | a :: rest =>
      match prompt_by_id prompts (qa_QuestionID a) with
      | None => false
      | Some p =>
          if bool_decide (qa_QuestionID a ∈ seen) then false
          else if answer_valid p a then answers_valid prompts (qa_QuestionID a :: seen) rest else false
      end
  end.

Definition ValidateQuestionAnswers (prompts : list QuestionPrompt) (answers : list QuestionAnswer) : result unit :=
  if negb (is_ok (ValidateQuestionPrompts prompts)) || negb (length answers =? length prompts)
  then Err ErrQuestionInvalid
  else if answers_valid prompts [] answers then
    if (16384 <? go_len (marshal (JArr (answer_json <$> answers))))%Z then Err ErrQuestionInvalid else Ok tt
  else Err ErrQuestionInvalid.

(** ** What accepted answers mean *)

Lemma prompts_valid_spec seen prompts :
  prompts_valid seen prompts = true →
  NoDup (qp_ID <$> prompts) ∧ (∀ p, p ∈ prompts → qp_ID p ∉ seen)
  ∧ Forall (λ p, option_count_valid p = true ∧ options_valid [] [] (qp_Options p) = true) prompts.
Proof.
  revert seen. induction prompts as [|p rest IH]; intros seen; simpl.
  { intros _. split_and!; [constructor|set_solver|constructor]. }
  destruct (_ || _ || _ || _) eqn:E1; [done|]. destruct (option_count_valid p) eqn:E2; [|done].
  destruct (options_valid _ _ _) eqn:E3; [|done]. simpl. intros (Hnd & Hseen & Hall)%IH.
  rewrite !orb_false_iff, bool_decide_eq_false in E1. destruct E1 as [[[_ Hp] _] _].
  split_and!.
  - constructor; [|done]. intros (q & Hq & Hin)%list_elem_of_fmap. apply (Hseen q Hin). rewrite <- Hq. by left.
  - intros q [->|Hq]%elem_of_cons; [done|]. specialize (Hseen q Hq). set_solver.
  - by constructor.
Qed.

Lemma options_valid_spec ids labels options :
  options_valid ids labels options = true →
  NoDup (qo_ID <$> options) ∧ NoDup ((trim_space ∘ qo_Label) <$> options)
  ∧ (∀ o, o ∈ options → (qo_ID o ∉ ids) ∧ trim_space (qo_Label o) ∉ labels).
Proof.
  revert ids labels. induction options as [|o rest IH]; intros ids labels; simpl.
  { intros _. split_and!; [constructor|constructor|set_solver]. }
  destruct (_ || _ || _ || _ || _) eqn:E1; [done|]. intros (Hi & Hl & Hseen)%IH.
  rewrite !orb_false_iff, !bool_decide_eq_false in E1. destruct E1 as [[[[_ Ho] Hb] _] _].
  split_and!.
  - constructor; [|done]. intros (q & Hq & Hin)%list_elem_of_fmap. destruct (Hseen q Hin) as [H1 _]. set_solver.
  - constructor; [|done]. intros (q & Hq & Hin)%list_elem_of_fmap. destruct (Hseen q Hin) as [_ H1]. set_solver.
  - intros q [->|Hq]%elem_of_cons; [done|]. specialize (Hseen q Hq). set_solver.
Qed.

Lemma prompt_by_id_Some prompts id p : prompt_by_id prompts id = Some p → p ∈ prompts ∧ qp_ID p = id.
Proof.
  induction prompts as [|q rest IH]; simpl; [done|]. destruct (prompt_by_id rest id) as [q'|].
  - intros [= ->]. destruct (IH eq_refl). split; [by right|done].
  - case_decide; [|done]. intros [= <-]. split; [by left|done].
Qed.

Lemma prompt_by_id_NoDup prompts p :
  NoDup (qp_ID <$> prompts) → p ∈ prompts → prompt_by_id prompts (qp_ID p) = Some p.
Proof.
  induction prompts as [|q rest IH]; simpl; [set_solver|]. intros [Hq Hnd]%NoDup_cons [->|Hp]%elem_of_cons.
  - destruct (prompt_by_id rest (qp_ID q)) as [q'|] eqn:E; [|by rewrite decide_True].
    apply prompt_by_id_Some in E as [Hin Heq]. destruct Hq. rewrite <- Heq. by apply list_elem_of_fmap_2.
  - by rewrite (IH Hnd Hp).
Qed.

Lemma selection_valid_spec options selected ids :
  selection_valid options selected ids = true ↔
  NoDup ids ∧ (∀ id, id ∈ ids → (id ∉ selected) ∧ id ∈ (qo_ID <$> options)).
Proof.
  revert selected. induction ids as [|id rest IH]; intros selected; simpl.
  { split; [intros _|done]. split; [constructor|set_solver]. }
  assert (Hex : existsb (λ o, bool_decide (id = qo_ID o)) options = true ↔ id ∈ (qo_ID <$> options)).
  { rewrite existsb_Exists, Exists_exists, list_elem_of_fmap.
    split; intros (o & H1 & H2); exists o; [apply bool_decide_eq_true in H2; done|].
    split; [done|]. by apply bool_decide_eq_true. }
  rewrite NoDup_cons. destruct (existsb _ options).
  - destruct (decide (id ∈ selected)) as [Hs|Hs].
    + rewrite (bool_decide_eq_true_2 _ Hs). simpl. set_solver.
    + rewrite (bool_decide_eq_false_2 _ Hs). simpl. rewrite IH. set_solver.
  - simpl. set_solver.
Qed.

(** What an answer to one prompt has to be: free text where the prompt allows it,
    or distinct options of that prompt, exactly one unless it allows several. *)
Definition answers_prompt (p : QuestionPrompt) (a : QuestionAnswer) : Prop :=
  match qa_Text a with
  | Some text => qp_AllowFreeText p = true ∧ qa_OptionIDs a = [] ∧ questionText text 4096 false = true
  | None => NoDup (qa_OptionIDs a) ∧ qa_OptionIDs a ⊆ (qo_ID <$> qp_Options p)
            ∧ qa_OptionIDs a ≠ [] ∧ (qp_Multiple p = true ∨ length (qa_OptionIDs a) = 1)
  end.

Lemma answer_valid_spec p a : answer_valid p a = true ↔ answers_prompt p a.
Proof.
  unfold answer_valid, answers_prompt. destruct (qa_Text a) as [text|].
  - rewrite negb_true_iff, !orb_false_iff, !negb_false_iff, bool_decide_eq_true. tauto.
  - destruct (_ || _ || _) eqn:E.
    + split; [done|]. intros (Hnd & Hin & Hne & Hm). exfalso. revert E.
      rewrite (bool_decide_eq_false_2 _ Hne). simpl.
      apply not_true_iff_false. rewrite orb_false_iff, Nat.ltb_ge. split.
      * rewrite <- (length_fmap qo_ID). apply submseteq_length, NoDup_submseteq; done.
      * destruct Hm as [->| ->]; [done|]. by rewrite andb_false_r.
    + rewrite !orb_false_iff, bool_decide_eq_false, andb_false_iff, !negb_false_iff, Nat.eqb_eq in E.
      destruct E as [[Hne _] Hm]. rewrite selection_valid_spec. set_solver.
Qed.

Lemma answers_valid_spec prompts seen answers :
  answers_valid prompts seen answers = true ↔
  NoDup (qa_QuestionID <$> answers) ∧ (∀ a, a ∈ answers → qa_QuestionID a ∉ seen)
  ∧ Forall (λ a, ∃ p, prompt_by_id prompts (qa_QuestionID a) = Some p ∧ answers_prompt p a) answers.
Proof.
  revert seen. induction answers as [|a rest IH]; intros seen; simpl.
  { split; [intros _|done]. split_and!; [constructor|set_solver|constructor]. }
  rewrite Forall_cons, NoDup_cons. destruct (prompt_by_id _ _) as [p|]; [|split; [done|]; intros (_ & _ & (p & ? & _) & _); done].
  case_bool_decide as Hs.
  { split; [done|]. intros (_ & Hn & _). destruct (Hn a); [by left|done]. }
  pose proof (answer_valid_spec p a) as Ha. destruct (answer_valid p a).
  - rewrite IH. split.
    + intros (Hnd & Hseen & Hall). split_and!; [|done| |exists p; split; [done|by apply Ha]|done].
      * intros (b & Hb & Hin)%list_elem_of_fmap. apply (Hseen b Hin). rewrite Hb. by left.
      * intros b [->|Hb]%elem_of_cons; [done|]. specialize (Hseen b Hb). set_solver.
    + intros ((Hn & Hnd) & Hseen & _ & Hall). split_and!; [done| |done].
      intros b Hb [Heq|Hin]%elem_of_cons; [|by apply (Hseen b); [right|]].
      destruct Hn. rewrite <- Heq. by apply list_elem_of_fmap_2.
  - split; [done|]. intros (_ & _ & (p' & [= <-] & Hp) & _). by apply Ha in Hp.
Qed.

(** The answers to a set of questions are accepted exactly when the questions
    are valid, the answers together name every question once and no other, each
    is free text where its question allows it or a choice of distinct options of
    that question (one, unless it allows several), and their encoding stays
    within 16384 bytes; everything else is [ErrQuestionInvalid]. *)
Theorem answers_accepted_iff prompts answers :
  (ValidateQuestionAnswers prompts answers = Ok tt ∨ ValidateQuestionAnswers prompts answers = Err ErrQuestionInvalid)
  ∧ (ValidateQuestionAnswers prompts answers = Ok tt ↔
     ValidateQuestionPrompts prompts = Ok tt
     ∧ (qa_QuestionID <$> answers) ≡ₚ (qp_ID <$> prompts)
     ∧ (∀ a p, a ∈ answers → p ∈ prompts → qp_ID p = qa_QuestionID a → answers_prompt p a)
     ∧ (go_len (marshal (JArr (answer_json <$> answers))) ≤ 16384)%Z).
Proof.
  split; [unfold ValidateQuestionAnswers; go_cases; auto|].
  unfold ValidateQuestionAnswers.
  destruct (ValidateQuestionPrompts prompts) as [[]|e] eqn:Hv; simpl; [|naive_solver].
  assert (Hnd : NoDup (qp_ID <$> prompts)).
  { unfold ValidateQuestionPrompts in Hv. destruct (_ || _); [done|].
    destruct (prompts_valid [] prompts) eqn:E; [|done]. by apply prompts_valid_spec in E as [? _]. }
  destruct (length answers =? length prompts) eqn:Hl; simpl.
  2:{ split; [done|]. intros (_ & Hp & _). apply Permutation_length in Hp.
      rewrite !length_fmap in Hp. by apply Nat.eqb_neq in Hl. }
  apply Nat.eqb_eq in Hl. pose proof (answers_valid_spec prompts [] answers) as Hav.
  destruct (answers_valid prompts [] answers).
  - destruct (proj1 Hav eq_refl) as (Hna & _ & Hall). rewrite Forall_forall in Hall.
    destruct (_ <? _)%Z eqn:Hsz; [apply Z.ltb_lt in Hsz|apply Z.ltb_ge in Hsz].
    { split; [done|]. intros (_ & _ & _ & ?). lia. }
    split; [intros _|done]. split_and!; [done| | |done].
    + apply submseteq_length_Permutation; [|by rewrite !length_fmap, Hl].
      apply NoDup_submseteq; [done|]. intros id (a & -> & (p & Hp & _)%Hall)%list_elem_of_fmap.
      apply prompt_by_id_Some in Hp as [Hp <-]. by apply list_elem_of_fmap_2.
    + intros a p (p' & Hp' & Hok)%Hall Hp Heq. rewrite <- Heq, prompt_by_id_NoDup in Hp' by done.
      by injection Hp' as ->.
  - split; [done|]. intros (_ & Hp & Hok & _). enough (false = true) by done. apply Hav. split_and!; [by rewrite Hp|set_solver|].
    apply Forall_forall. intros a Ha.
    assert (Hin : qa_QuestionID a ∈ (qp_ID <$> prompts)) by (rewrite <- Hp; by apply list_elem_of_fmap_2).
    apply list_elem_of_fmap in Hin as (p & Heq & Hp').
    exists p. rewrite Heq, prompt_by_id_NoDup by done. split; [done|]. by apply Hok.
Qed.

(** A question with two options and one with free text, answered. *)
Example answers_example :
  let prompts := [MkPrompt "target" "Target" "Which one?" [MkOption "a" "First" ""; MkOption "b" "Second" ""] false false;
                  MkPrompt "why" "Reason" "Why?" [] false true] in
  ValidateQuestionAnswers prompts [MkAnswer "why" [] (Some "because"); MkAnswer "target" ["b"] None] = Ok tt
  ∧ ValidateQuestionAnswers prompts [MkAnswer "why" [] (Some "because"); MkAnswer "target" ["a"; "b"] None]
    = Err ErrQuestionInvalid
  ∧ ValidateQuestionAnswers prompts [MkAnswer "target" ["b"] None; MkAnswer "target" ["b"] None]
    = Err ErrQuestionInvalid.
Proof. split_and!; vm_compute; reflexivity. Qed.
