(* ===== verification/RuntimeTables.v ===== *)
(** * Rows of the runtime interaction tables

    While an invocation runs, its agent may ask for approval of an action or ask
    the user questions.  The tables [invocation_runtime_attempts] (migrations
    00007, 00008), [invocation_runtime_approvals] (00041, 00053, 00054) and
    [invocation_runtime_questions] (00050) hold the one attempt of each operation
    and the interactions it started.  A row has the fields of the struct the code
    scans it into: a [NULL] text is the empty string ([COALESCE]) and a [NULL] time
    is [None], the zero [time.Time]. *)
From S2P Require Import Prelude.
From S2P Require Import GoStrings.
From S2P Require Import GoJson.
From S2P Require Import Questions.

Record InvocationRuntimeAttempt := MkAttempt {
  att_IsolationDomainID : string;
  att_OperationID : string;
  att_EffectID : string;
  att_LeaseOwner : string;
  att_FencingToken : Z;
  att_Status : string;
  att_Result : option json }.

Record InvocationRuntimeApproval := MkApproval {
  apr_Contract : string;
  apr_IsolationDomainID : string;
  apr_ID : string;
  apr_OperationID : string;
  apr_InvocationID : string;
  apr_ServiceID : string;
  apr_RevisionID : string;
  apr_EffectID : string;
  apr_SourceSequence : Z;
  apr_RequestedAction : string;
  apr_State : string;
  apr_Version : Z;
  apr_Decision : string;
  apr_EffectiveDecision : string;
  apr_ResolvedBy : string;
  apr_ResolutionCorrelationID : string;
  apr_ResolvedAt : option Z;
  apr_DeliveredAt : option Z;
  apr_CreatedAt : Z;
  apr_UpdatedAt : Z;
  apr_ExpiresAt : option Z;
  apr_ClosedAt : option Z;
  apr_CloseReason : string }.

(** [MarshalJSON] refuses to encode this record; it never leaves the process whole. *)
Record InvocationRuntimeQuestion := MkQuestion {
  qst_Contract : string;
  qst_IsolationDomainID : string;
  qst_ID : string;
  qst_OperationID : string;
  qst_InvocationID : string;
  qst_ServiceID : string;
  qst_RevisionID : string;
  qst_EffectID : string;
  qst_SourceSequence : Z;
  qst_CorrelationID : string;
  qst_RequestedBy : string;
  qst_Prompts : list QuestionPrompt;
  qst_ExpiresAt : Z;
  qst_State : string;
  qst_Version : Z;
  qst_Answers : list QuestionAnswer;
  qst_AnsweredBy : string;
  qst_AnswerCorrelationID : string;
  qst_AnsweredAt : option Z;
  qst_DeliveryStartedAt : option Z;
  qst_DeliveredAt : option Z;
  qst_ClosedAt : option Z;
  qst_CloseReason : string;
  qst_CreatedAt : Z;
  qst_UpdatedAt : Z }.

(** Each table by its primary key: [(isolation_domain_id, operation_id)] for
    attempts, [(isolation_domain_id, id)] for the others. *)
Record runtime_tables := RuntimeTables {
  rt_attempts : gmap (string * string) InvocationRuntimeAttempt;
  rt_approvals : gmap (string * string) InvocationRuntimeApproval;
  rt_questions : gmap (string * string) InvocationRuntimeQuestion }.

Definition empty_runtime : runtime_tables := RuntimeTables ∅ ∅ ∅.
