(* ===== verification/Database.v ===== *)
(** * The control-plane tables

    The rows of the PostgreSQL tables that [internal/persistence] reads and
    writes (migrations 00001, 00005, 00006 and 00083; the runtime
    interaction tables are in [RuntimeTables]), as finite maps from primary
    keys.  Times are instants in microseconds, PostgreSQL's resolution.
    A transaction is a function from the database to a new database or an
    error; an error rolls back, so the caller keeps the old value. *)
From S2P Require Import Prelude.
From S2P Require Import GoStrings.
From S2P Require Import GoJson.
From S2P Require Import Domain.
From S2P Require Import Questions.
From S2P Require Import RuntimeTables.

(** A primary key [(isolation_domain_id, id)]. *)
Abbreviation key := (string * string)%type.

Record service_row := ServiceRow {
  svc_name : string;
  svc_description : string;
  svc_generation : Z;
  svc_version : Z;
  svc_created_at : Z;
  svc_updated_at : Z;
  svc_created_by : string;
  svc_workspace_id : option string;
}.

(** Keyed by [(isolation_domain_id, service_id, name)]. *)
Record alias_row := AliasRow {
  als_id : string;
  als_revision_id : string;
  als_generation : Z;
  als_version : Z;
  als_created_at : Z;
  als_updated_at : Z;
  als_created_by : string;
  als_withdrawn_at : option Z;
}.

Record revision_row := RevisionRow {
  rev_service_id : string;
  rev_number : Z;
  rev_state : string;
  rev_runtime_profile : string;
  rev_required_capabilities : list string;
  rev_input_schema : option json;
  rev_output_schema : option json;
  rev_published_at : option Z;
  rev_generation : Z;
  rev_version : Z;
  rev_created_at : Z;
  rev_updated_at : Z;
  rev_created_by : string;
}.

Record invocation_row := InvocationRow {
  inv_service_id : string;
  inv_revision_id : string;
  inv_alias : string;
  inv_state : string;
  inv_input : json;
  inv_result : option json;
  inv_error : option api_error;
  inv_usage : option Usage;
  inv_correlation_id : string;
  inv_operation_id : string;
  inv_completed_at : option Z;
  inv_generation : Z;
  inv_version : Z;
  inv_created_at : Z;
  inv_updated_at : Z;
  inv_created_by : string;
}.

(** One row of [service_publication_operations] or
    [invocation_execution_operations]; [op_resource_id] is [revision_id] in the
    first and [invocation_id] in the second. *)
Record operation_row := OperationRow {
  op_resource_id : string;
  op_command : string;
  op_desired_state : string;
  op_observed_state : string;
  op_state_machine_version : Z;
  op_generation : Z;
  op_attempt : Z;
  op_lease_owner : option string;
  op_lease_token : Z;
  op_lease_expires_at : option Z;
  op_due_at : Z;
  op_deadline_at : Z;
  op_error_classification : option string;
  op_error : option api_error;
  op_terminal_result : option json;
  op_correlation_id : string;
  op_actor_id : string;
  op_effect_actor_id : option string;
  op_effect_correlation_id : option string;
  op_last_transition_at : Z;
  op_created_at : Z;
  op_updated_at : Z;
}.

(** [ev_source] is [source_sequence]; [source_kind] is ['runtime'] when it is set
    and [NULL] otherwise (a constraint of migration 00006). *)
Record event_row := EventRow {
  ev_isolation_domain_id : string;
  ev_invocation_id : string;
  ev_id : string;
  ev_sequence : Z;
  ev_type : string;
  ev_occurred_at : Z;
  ev_recorded_at : Z;
  ev_correlation_id : string;
  ev_actor_id : string;
  ev_service_id : string;
  ev_revision_id : string;
  ev_payload : json;
  ev_source : option Z;
}.

Record outbox_row := OutboxRow {
  out_isolation_domain_id : string;
  out_aggregate_type : string;
  out_aggregate_id : string;
  out_event_type : string;
  out_payload : json;
  out_correlation_id : string;
  out_status : string;
  out_attempt : Z;
  out_available_at : Z;
  out_lease_owner : option string;
  out_lease_token : Z;
  out_lease_expires_at : option Z;
  out_created_at : Z;
  out_delivered_at : option Z;
}.

Record audit_row := AuditRow {
  aud_id : string;
  aud_isolation_domain_id : string;
  aud_actor_id : string;
  aud_action : string;
  aud_resource_type : string;
  aud_resource_id : string;
  aud_outcome : string;
  aud_correlation_id : string;
  aud_operation_id : option string;
  aud_safe_metadata : json;
  aud_occurred_at : Z;
}.

Record effect_row := EffectRow {
  eff_operation_kind : string;
  eff_operation_id : string;
  eff_phase : string;
  eff_request_digest : list N;
  eff_status : string;
  eff_attempt : Z;
  eff_observation : option json;
  eff_last_error_code : option string;
  eff_created_at : Z;
  eff_updated_at : Z;
}.

Record inbox_row := InboxRow {
  inb_payload_digest : list N;
  inb_actor_id : option string;
  inb_processed_at : Z;
}.

Record idempotency_row := IdempotencyRow {
  idem_request_digest : list N;
  idem_response : option (Z * string);
  idem_completed_at : option Z;
  idem_expires_at : Z;
}.

(** [db_artifacts] keeps of the [artifacts] table what is read here: the
    invocation an artifact belongs to. *)
Record db := DB {
  db_workspaces : gset key;
  db_services : gmap key service_row;
  db_revisions : gmap key revision_row;
  db_aliases : gmap (string * string * string) alias_row;
  db_invocations : gmap key invocation_row;
  db_publication_ops : gmap key operation_row;
  db_invocation_ops : gmap key operation_row;
  db_events : list event_row;
  db_artifacts : gmap key string;
  db_outbox : gmap string outbox_row;
  db_audit : list audit_row;
  db_effects : gmap key effect_row;
  db_inbox : gmap (string * string * string) inbox_row;
  db_idempotency : gmap (string * string * string * string) idempotency_row;
  db_runtime : runtime_tables;
}.

Definition empty_db : db := DB ∅ ∅ ∅ ∅ ∅ ∅ ∅ [] ∅ ∅ [] ∅ ∅ ∅ empty_runtime.

(** What a call reads from outside the database: the repository's clock, the
    server's [clock_timestamp()], and the bytes [rand.Read] yields. *)
Record env := Env { env_now : Z; env_clock_timestamp : Z; env_random : list N }.

(** ** Updates of one table *)
Definition set_workspaces (f : gset key → gset key) (d : db) : db :=
  DB (f (db_workspaces d)) (db_services d) (db_revisions d) (db_aliases d)
     (db_invocations d) (db_publication_ops d) (db_invocation_ops d) (db_events d) (db_artifacts d)
     (db_outbox d) (db_audit d) (db_effects d) (db_inbox d) (db_idempotency d) (db_runtime d).
Definition set_services (f : gmap key service_row → gmap key service_row) (d : db) : db :=
  DB (db_workspaces d) (f (db_services d)) (db_revisions d) (db_aliases d)
     (db_invocations d) (db_publication_ops d) (db_invocation_ops d) (db_events d) (db_artifacts d)
     (db_outbox d) (db_audit d) (db_effects d) (db_inbox d) (db_idempotency d) (db_runtime d).
Definition set_revisions (f : gmap key revision_row → gmap key revision_row) (d : db) : db :=
  DB (db_workspaces d) (db_services d) (f (db_revisions d)) (db_aliases d)
     (db_invocations d) (db_publication_ops d) (db_invocation_ops d) (db_events d) (db_artifacts d)
     (db_outbox d) (db_audit d) (db_effects d) (db_inbox d) (db_idempotency d) (db_runtime d).
Definition set_aliases (f : gmap (string * string * string) alias_row → gmap (string * string * string) alias_row) (d : db) : db :=
  DB (db_workspaces d) (db_services d) (db_revisions d) (f (db_aliases d))
     (db_invocations d) (db_publication_ops d) (db_invocation_ops d) (db_events d) (db_artifacts d)
     (db_outbox d) (db_audit d) (db_effects d) (db_inbox d) (db_idempotency d) (db_runtime d).
Definition set_invocations (f : gmap key invocation_row → gmap key invocation_row) (d : db) : db :=
  DB (db_workspaces d) (db_services d) (db_revisions d) (db_aliases d)
     (f (db_invocations d)) (db_publication_ops d) (db_invocation_ops d) (db_events d) (db_artifacts d)
     (db_outbox d) (db_audit d) (db_effects d) (db_inbox d) (db_idempotency d) (db_runtime d).
Definition set_events (f : list event_row → list event_row) (d : db) : db :=
  DB (db_workspaces d) (db_services d) (db_revisions d) (db_aliases d)
     (db_invocations d) (db_publication_ops d) (db_invocation_ops d) (f (db_events d)) (db_artifacts d)
     (db_outbox d) (db_audit d) (db_effects d) (db_inbox d) (db_idempotency d) (db_runtime d).
Definition set_outbox (f : gmap string outbox_row → gmap string outbox_row) (d : db) : db :=
  DB (db_workspaces d) (db_services d) (db_revisions d) (db_aliases d)
     (db_invocations d) (db_publication_ops d) (db_invocation_ops d) (db_events d) (db_artifacts d)
     (f (db_outbox d)) (db_audit d) (db_effects d) (db_inbox d) (db_idempotency d) (db_runtime d).
Definition set_audit (f : list audit_row → list audit_row) (d : db) : db :=
  DB (db_workspaces d) (db_services d) (db_revisions d) (db_aliases d)
     (db_invocations d) (db_publication_ops d) (db_invocation_ops d) (db_events d) (db_artifacts d)
     (db_outbox d) (f (db_audit d)) (db_effects d) (db_inbox d) (db_idempotency d) (db_runtime d).
Definition set_effects (f : gmap key effect_row → gmap key effect_row) (d : db) : db :=
  DB (db_workspaces d) (db_services d) (db_revisions d) (db_aliases d)
     (db_invocations d) (db_publication_ops d) (db_invocation_ops d) (db_events d) (db_artifacts d)
     (db_outbox d) (db_audit d) (f (db_effects d)) (db_inbox d) (db_idempotency d) (db_runtime d).
Definition set_inbox (f : gmap (string * string * string) inbox_row → gmap (string * string * string) inbox_row) (d : db) : db :=
  DB (db_workspaces d) (db_services d) (db_revisions d) (db_aliases d)
     (db_invocations d) (db_publication_ops d) (db_invocation_ops d) (db_events d) (db_artifacts d)
     (db_outbox d) (db_audit d) (db_effects d) (f (db_inbox d)) (db_idempotency d) (db_runtime d).
Definition set_idempotency (f : gmap (string * string * string * string) idempotency_row → gmap (string * string * string * string) idempotency_row) (d : db) : db :=
  DB (db_workspaces d) (db_services d) (db_revisions d) (db_aliases d)
     (db_invocations d) (db_publication_ops d) (db_invocation_ops d) (db_events d) (db_artifacts d)
     (db_outbox d) (db_audit d) (db_effects d) (db_inbox d) (f (db_idempotency d)) (db_runtime d).

Definition set_runtime (f : runtime_tables → runtime_tables) (d : db) : db :=
  DB (db_workspaces d) (db_services d) (db_revisions d) (db_aliases d)
     (db_invocations d) (db_publication_ops d) (db_invocation_ops d) (db_events d) (db_artifacts d)
     (db_outbox d) (db_audit d) (db_effects d) (db_inbox d) (db_idempotency d) (f (db_runtime d)).

(** The two operation tables share their shape; [op_table] names one. *)
Inductive op_table := PublicationOps | InvocationOps.
#[global] Instance op_table_eq_dec : EqDecision op_table.
Proof. solve_decision. Defined.

Definition ops_of (t : op_table) (d : db) : gmap key operation_row :=
  match t with PublicationOps => db_publication_ops d | InvocationOps => db_invocation_ops d end.

Definition set_ops (t : op_table) (f : gmap key operation_row → gmap key operation_row) (d : db) : db :=
  match t with
  | PublicationOps => DB (db_workspaces d) (db_services d) (db_revisions d) (db_aliases d)
     (db_invocations d) (f (db_publication_ops d)) (db_invocation_ops d) (db_events d) (db_artifacts d)
     (db_outbox d) (db_audit d) (db_effects d) (db_inbox d) (db_idempotency d) (db_runtime d)
  | InvocationOps => DB (db_workspaces d) (db_services d) (db_revisions d) (db_aliases d)
     (db_invocations d) (db_publication_ops d) (f (db_invocation_ops d)) (db_events d) (db_artifacts d)
     (db_outbox d) (db_audit d) (db_effects d) (db_inbox d) (db_idempotency d) (db_runtime d)
  end.

(** ** Frame lemmas: an update of one table leaves the operation tables alone. *)
Lemma ops_of_set_ops t f d : ops_of t (set_ops t f d) = f (ops_of t d).
Proof. by destruct t. Qed.
Lemma ops_of_set_ops_ne t t' f d : t ≠ t' → ops_of t (set_ops t' f d) = ops_of t d.
Proof. by destruct t, t'. Qed.
Lemma ops_of_set_services t f d : ops_of t (set_services f d) = ops_of t d.
Proof. by destruct t. Qed.
Lemma ops_of_set_aliases t f d : ops_of t (set_aliases f d) = ops_of t d.
Proof. by destruct t. Qed.
Lemma ops_of_set_revisions t f d : ops_of t (set_revisions f d) = ops_of t d.
Proof. by destruct t. Qed.
Lemma ops_of_set_invocations t f d : ops_of t (set_invocations f d) = ops_of t d.
Proof. by destruct t. Qed.
Lemma ops_of_set_events t f d : ops_of t (set_events f d) = ops_of t d.
Proof. by destruct t. Qed.
Lemma ops_of_set_outbox t f d : ops_of t (set_outbox f d) = ops_of t d.
Proof. by destruct t. Qed.
Lemma ops_of_set_audit t f d : ops_of t (set_audit f d) = ops_of t d.
Proof. by destruct t. Qed.
Lemma ops_of_set_effects t f d : ops_of t (set_effects f d) = ops_of t d.
Proof. by destruct t. Qed.
Lemma ops_of_set_inbox t f d : ops_of t (set_inbox f d) = ops_of t d.
Proof. by destruct t. Qed.
Lemma ops_of_set_idempotency t f d : ops_of t (set_idempotency f d) = ops_of t d.
Proof. by destruct t. Qed.
Lemma ops_of_set_runtime t f d : ops_of t (set_runtime f d) = ops_of t d.
Proof. by destruct t. Qed.

#[export] Hint Rewrite ops_of_set_runtime ops_of_set_ops ops_of_set_services ops_of_set_aliases ops_of_set_revisions ops_of_set_invocations ops_of_set_events
  ops_of_set_outbox ops_of_set_audit ops_of_set_effects ops_of_set_inbox ops_of_set_idempotency : dg.
