(* ===== verification/OperationStore.v ===== *)
(** * The durable operation store

    [internal/persistence/lifecycle.go] and the helpers of [repository.go] and
    [revision_retirement.go] it calls: leasing ([claimNext], [RenewLease]),
    fenced transitions ([Advance], [Fail], [advance], [ScheduleRetry]), external
    effects ([PrepareEffect], [RecordEffect]) and repair ([RepairOperation]).
    Each SQL statement is written as the update it performs on the tables of
    [Database]; every function is one transaction. *)
From S2P Require Import Prelude.
From S2P Require Import GoStrings.
From S2P Require Import Sha256.
From S2P Require Import GoJson.
From S2P Require Import GoTime.
From S2P Require Import Lifecycle.
From S2P Require Import Domain.
From S2P Require Import Database.

Definition OperationKindPublication := "service-publication".
Definition OperationKindInvocation := "invocation-execution".

Definition ErrLeaseLost : error := ESentinel "persistence.ErrLeaseLost".
Definition ErrNoRows : error := ESentinel "pgx.ErrNoRows".

Definition OperationFailureDeadline := "deadline-exceeded".
Definition OperationFailureEffectDenied := "effect-denied".
Definition OperationFailureEffectInvalid := "effect-invalid".
Definition OperationFailureRuntime := "runtime-failed".

Record OperationClaim := Claim {
  c_Kind : string;
  c_IsolationDomainID : string;
  c_ID : string;
  c_ResourceID : string;
  c_Command : string;
  c_ObservedState : string;
  c_StateMachineVersion : Z;
  c_Attempt : Z;
  c_LeaseOwner : string;
  c_FencingToken : Z;
  c_DeadlineAt : Z;
  c_LeaseExpiresAt : Z;
  c_CorrelationID : string;
  c_ActorID : string;
}.

Record EffectRecord := Effect {
  e_IsolationDomainID : string;
  e_EffectID : string;
  e_OperationKind : string;
  e_OperationID : string;
  e_Phase : string;
  e_RequestDigest : list N;
  e_Status : string;
  e_Attempt : Z;
  e_Observation : option json;
}.

Definition claim_key (c : OperationClaim) : key := (c_IsolationDomainID c, c_ID c).

(** ** Helpers *)

Definition operationTable (kind : string) : result (op_table * list string) :=
  if decide (kind = OperationKindPublication) then
    Ok (PublicationOps, ["published"; "failed"; "cancelled"])
  else if decide (kind = OperationKindInvocation) then
    Ok (InvocationOps, ["succeeded"; "failed"; "cancelled"; "waiting"])
  else Err (ENew ("unsupported operation kind " +:+ kind)).

Definition validateTransition (kind from to : string) : result unit :=
  if decide (kind = OperationKindPublication) then Publication.ValidateTransition from to
  else if decide (kind = OperationKindInvocation) then Invocation.ValidateTransition from to
  else Err (ENew ("unsupported operation kind " +:+ kind)).

Definition transitionOutcome (state : string) : string :=
  if decide (state = "published" ∨ state = "succeeded") then "succeeded"
  else if decide (state = "failed") then "failed"
  else if decide (state = "cancelled") then "cancelled"
  else "accepted".

Definition invocationResourceState (operationState : string) : string :=
  if decide (operationState = "starting" ∨ operationState = "running" ∨ operationState = "observing")
  then "running"
  else if decide (operationState = "waiting") then "waiting"
  else if decide (operationState = "cancelling") then "cancelling"
  else if decide (operationState = "succeeded" ∨ operationState = "failed" ∨ operationState = "cancelled")
  then operationState
  else "".

Definition operationFailure (reason correlationID : string) : result api_error :=
  if decide (reason = OperationFailureDeadline) then
    Ok (APIError "OPERATION_DEADLINE_EXCEEDED" "The durable operation deadline was exceeded."
          correlationID false [])
  else if decide (reason = OperationFailureEffectDenied) then
    Ok (APIError "OPERATION_EFFECT_DENIED"
          "The operation was denied before its external effect could be applied." correlationID false [])
  else if decide (reason = OperationFailureEffectInvalid) then
    Ok (APIError "OPERATION_EFFECT_INVALID"
          "The operation could not safely apply its external effect." correlationID false [])
  else if decide (reason = OperationFailureRuntime) then
    Ok (APIError "OPERATION_RUNTIME_FAILED" "The runtime completed with a terminal failure."
          correlationID false [])
  else Err (ENew ("operation failure reason " +:+ reason +:+ " is invalid")).

(** ** Outbox, audit and invocation events *)

Definition writeOutboxAndAudit (e : env)
    (isolationDomainID resourceType resourceID eventType actorID correlationID outcome operationID : string)
    (now : Z) (d : db) : db :=
  let outboxID := Identity.Derived "out"
    (isolationDomainID +:+ ":" +:+ eventType +:+ ":" +:+ resourceID +:+ ":" +:+ correlationID) in
  let payload := json_map [("resourceType", JStr resourceType); ("resourceId", JStr resourceID);
                           ("outcome", JStr outcome)] in
  let row := OutboxRow isolationDomainID resourceType resourceID eventType payload correlationID
    "pending" 0 now None 0 None now None in
  let d := set_outbox (λ m, match m !! outboxID with Some _ => m | None => <[outboxID := row]> m end) d in
  set_audit (λ l, l ++ [AuditRow (Identity.New (env_random e) "aud") isolationDomainID actorID eventType
    resourceType resourceID outcome correlationID
    (if decide (operationID = "") then None else Some operationID) (JObj []) now]) d.

Definition events_for (domainID invocationID : string) (l : list event_row) : list event_row :=
  filter (λ ev, ev_isolation_domain_id ev = domainID ∧ ev_invocation_id ev = invocationID) l.

(** [SELECT COALESCE(max(sequence), 0) + 1] *)
Definition next_sequence (domainID invocationID : string) (l : list event_row) : Z :=
  foldr Z.max 0%Z (ev_sequence <$> events_for domainID invocationID l) + 1.

Definition writeInvocationEvent (domainID invocationID : string) (inv : invocation_row)
    (eventType actorID : string) (payload : json) (now : Z) (d : db) : db :=
  let sequence := next_sequence domainID invocationID (db_events d) in
  set_events (λ l, l ++ [EventRow domainID invocationID
    (Identity.Derived "evt" (invocationID +:+ ":" +:+ pretty.pretty sequence)) sequence eventType now now
    (inv_correlation_id inv) actorID (inv_service_id inv) (inv_revision_id inv) payload None]) d.

Definition getInvocationForUpdate (d : db) (k : key) : result invocation_row :=
  match db_invocations d !! k with
  | Some inv => Ok inv
  | None => Err (EDomain "RESOURCE_NOT_FOUND" "Invocation was not found." false)
  end.

Definition getRevisionForUpdate (d : db) (k : key) : result revision_row :=
  match db_revisions d !! k with
  | Some rev => Ok rev
  | None => Err (EDomain "RESOURCE_NOT_FOUND" "Service revision was not found." false)
  end.

(** ** Leasing *)

(** The filters of [claimNext]; the empty string and version 0 do not filter. *)
Record claim_scope := ClaimScope {
  cs_isolationDomainID : string;
  cs_serviceID : string;
  cs_revisionID : string;
  cs_runtimeProfile : string;
  cs_operationID : string;
  cs_stateMachineVersion : Z;
}.

Definition any_scope : claim_scope := ClaimScope "" "" "" "" "" 0.

(** The joined resource of an operation: its service, revision and runtime
    profile, when the joined rows exist. *)
Definition claim_resource (t : op_table) (d : db) (k : key) (row : operation_row)
  : option (string * string * string) :=
  match t with
  | PublicationOps =>
      rev ← db_revisions d !! (k.1, op_resource_id row);
      Some (rev_service_id rev, op_resource_id row, rev_runtime_profile rev)
  | InvocationOps =>
      inv ← db_invocations d !! (k.1, op_resource_id row);
      rev ← db_revisions d !! (k.1, inv_revision_id inv);
      guard (rev_service_id rev = inv_service_id inv);;
      Some (inv_service_id inv, inv_revision_id inv, rev_runtime_profile rev)
  end.

Definition lease_free (row : operation_row) (now : Z) : bool :=
  match op_lease_expires_at row with None => true | Some t => bool_decide (t ≤ now)%Z end.

(** The [WHERE] clause of the [per_domain] query. *)
Definition claim_eligible (t : op_table) (terminalStates : list string) (scope : claim_scope)
    (now : Z) (d : db) (k : key) (row : operation_row) : bool :=
  match claim_resource t d k row with
  | None => false
  | Some (service, revision, profile) =>
      bool_decide (op_observed_state row ∉ terminalStates)
      && bool_decide (cs_isolationDomainID scope = "" ∨ k.1 = cs_isolationDomainID scope)
      && bool_decide (cs_operationID scope = "" ∨ k.2 = cs_operationID scope)
      && bool_decide (cs_stateMachineVersion scope = 0%Z
                      ∨ op_state_machine_version row = cs_stateMachineVersion scope)
      && bool_decide (cs_serviceID scope = ""
                      ∨ (service = cs_serviceID scope ∧ revision = cs_revisionID scope))
      && bool_decide (cs_runtimeProfile scope = "" ∨ profile = cs_runtimeProfile scope)
      && bool_decide (op_command row ≠ "repair"
                      ∨ (is_Some (op_effect_actor_id row) ∧ is_Some (op_effect_correlation_id row)))
      && bool_decide (op_due_at row ≤ now)%Z
      && lease_free row now
  end.

(** The order of the work queues: two timestamps, then the primary key. *)
Definition queue_position : Type := Z * Z * key.

Definition position_before (a b : queue_position) : bool :=
  if decide (a.1.1 = b.1.1) then
    if decide (a.1.2 = b.1.2) then
      if decide (a.2.1 = b.2.1) then bool_decide (String.le a.2.2 b.2.2)
      else bool_decide (String.le a.2.1 b.2.1)
    else bool_decide (a.1.2 ≤ b.1.2)%Z
  else bool_decide (a.1.1 ≤ b.1.1)%Z.

(** [ORDER BY due_at, updated_at, isolation_domain_id, id] (within one domain
    this is also the order of the [DISTINCT ON] query). *)
Definition claim_position (r : key * operation_row) : queue_position :=
  (op_due_at r.2, op_updated_at r.2, r.1).

(** The first row of a query with [ORDER BY] and [LIMIT 1]. *)
Fixpoint first_by {A} (position : A → queue_position) (l : list A) : option A :=
  match l with
  | [] => None
  | x :: rest =>
      match first_by position rest with
      | None => Some x
      | Some y => if position_before (position x) (position y) then Some x else Some y
      end
  end.

(** [SELECT DISTINCT ON (isolation_domain_id) ...]: one row per domain. *)
Definition per_domain {A} (position : A → queue_position) (rows : list A) : list A :=
  omap (λ domainID, first_by position (filter (λ r, (position r).2.1 = domainID) rows))
       (remove_dups ((λ r, (position r).2.1) <$> rows)).

Definition claim_candidate (t : op_table) (terminalStates : list string) (scope : claim_scope)
    (now : Z) (d : db) : option key :=
  fst <$> first_by claim_position
    (per_domain claim_position
       (filter (λ r, claim_eligible t terminalStates scope now d r.1 r.2 = true)
               (map_to_list (ops_of t d)))).

Definition claim_expiry (leaseDuration now : Z) (row : operation_row) : Z :=
  if decide (op_deadline_at row > now)%Z
  then Z.min (now + leaseDuration) (op_deadline_at row)
  else now + leaseDuration.

Definition claimed_row (workerID : string) (expires now : Z) (row : operation_row) : operation_row :=
  OperationRow (op_resource_id row) (op_command row) (op_desired_state row)
    (op_observed_state row) (op_state_machine_version row) (op_generation row)
    (op_attempt row + 1) (Some workerID) (op_lease_token row + 1) (Some expires)
    (op_due_at row) (op_deadline_at row) (op_error_classification row) (op_error row)
    (op_terminal_result row) (op_correlation_id row) (op_actor_id row)
    (op_effect_actor_id row) (op_effect_correlation_id row) (op_last_transition_at row)
    (op_created_at row) now.

(** The [UPDATE ... FROM candidate] of the same statement.  It re-checks the
    lease of the row as it is when the update runs, which is what protects two
    concurrent statements that picked the same candidate. *)
Definition claim_update (kind : string) (t : op_table) (workerID : string) (leaseDuration : Z)
    (now : Z) (k : key) (d : db) : db * option OperationClaim :=
  match ops_of t d !! k with
  | None => (d, None)
  | Some row =>
      if lease_free row now then
        let expires := claim_expiry leaseDuration now row in
        let row' := claimed_row workerID expires now row in
        (set_ops t <[k := row']> d,
         Some (Claim kind k.1 k.2 (op_resource_id row') (op_command row') (op_observed_state row')
                 (op_state_machine_version row') (op_attempt row') workerID (op_lease_token row')
                 (op_deadline_at row') expires
                 (default (op_correlation_id row') (op_effect_correlation_id row'))
                 (default (op_actor_id row') (op_effect_actor_id row'))))
      else (d, None)
  end.

Definition claimNext (e : env) (kind : string) (scope : claim_scope) (workerID : string)
    (leaseDuration : Z) (d : db) : result (db * option OperationClaim) :=
  '(t, terminalStates) ← operationTable kind;
  let now := if decide (cs_operationID scope = "") then env_now e else env_clock_timestamp e in
  match claim_candidate t terminalStates scope now d with
  | None => Ok (d, None)
  | Some k => Ok (claim_update kind t workerID leaseDuration now k d)
  end.

Definition ClaimNext (e : env) (kind workerID : string) (leaseDuration : Z) (d : db) :=
  claimNext e kind any_scope workerID leaseDuration d.

Definition ClaimNextInIsolationDomain (e : env) (kind isolationDomainID workerID : string)
    (leaseDuration : Z) (d : db) : result (db * option OperationClaim) :=
  if decide (isolationDomainID = "") then Err (ENew "isolation-scoped claim requires a domain")
  else claimNext e kind (ClaimScope isolationDomainID "" "" "" "" 0) workerID leaseDuration d.

Definition ClaimNextForServiceRevision (e : env)
    (kind isolationDomainID serviceID revisionID workerID : string)
    (leaseDuration : Z) (d : db) : result (db * option OperationClaim) :=
  if decide (isolationDomainID = "" ∨ serviceID = "" ∨ revisionID = "") then
    Err (ENew "service-revision-scoped claim requires complete scope")
  else claimNext e kind (ClaimScope isolationDomainID serviceID revisionID "" "" 0)
         workerID leaseDuration d.

Definition ClaimNextForRuntimeProfile (e : env) (kind runtimeProfile workerID : string)
    (leaseDuration : Z) (d : db) : result (db * option OperationClaim) :=
  if decide (runtimeProfile = "") then Err (ENew "runtime-profile-scoped claim requires a profile")
  else claimNext e kind (ClaimScope "" "" "" runtimeProfile "" 0) workerID leaseDuration d.

(** The lease test every fenced statement makes: same state, owner and token,
    lease still running. *)
Definition lease_held (c : OperationClaim) (now : Z) (row : operation_row) : bool :=
  bool_decide (op_observed_state row = c_ObservedState c)
  && bool_decide (op_lease_owner row = Some (c_LeaseOwner c))
  && bool_decide (op_lease_token row = c_FencingToken c)
  && match op_lease_expires_at row with None => false | Some t => bool_decide (now < t)%Z end.

Definition renewed_row (expires now : Z) (row : operation_row) : operation_row :=
  OperationRow (op_resource_id row) (op_command row) (op_desired_state row)
    (op_observed_state row) (op_state_machine_version row) (op_generation row)
    (op_attempt row) (op_lease_owner row) (op_lease_token row) (Some expires)
    (op_due_at row) (op_deadline_at row) (op_error_classification row) (op_error row)
    (op_terminal_result row) (op_correlation_id row) (op_actor_id row)
    (op_effect_actor_id row) (op_effect_correlation_id row) (op_last_transition_at row)
    (op_created_at row) now.

Definition RenewLease (e : env) (c : OperationClaim) (leaseDuration : Z) (d : db)
  : result (db * OperationClaim) :=
  if decide (c_IsolationDomainID c = "" ∨ c_ID c = "" ∨ c_Command c = "" ∨ c_ObservedState c = ""
             ∨ c_LeaseOwner c = "" ∨ (c_FencingToken c ≤ 0)%Z ∨ (leaseDuration ≤ 0)%Z) then
    Err (ENew "complete operation claim and positive lease duration are required")
  else
  '(t, _) ← operationTable (c_Kind c);
  let now := env_now e in
  if decide (c_DeadlineAt c ≤ now)%Z then Err ErrLeaseLost else
  let expiresAt := Z.min (now + leaseDuration) (c_DeadlineAt c) in
  match ops_of t d !! claim_key c with
  | None => Err ErrLeaseLost
  | Some row =>
      match op_lease_expires_at row with
      | None => Err ErrLeaseLost
      | Some current =>
          if lease_held c now row && bool_decide (op_command row = c_Command c)
             && bool_decide (op_deadline_at row > now)%Z then
            let expires := Z.min (op_deadline_at row) (Z.max current expiresAt) in
            Ok (set_ops t <[claim_key c := renewed_row expires now row]> d,
                Claim (c_Kind c) (c_IsolationDomainID c) (c_ID c) (c_ResourceID c) (c_Command c)
                  (c_ObservedState c) (c_StateMachineVersion c) (c_Attempt c) (c_LeaseOwner c)
                  (c_FencingToken c) (c_DeadlineAt c) expires (c_CorrelationID c) (c_ActorID c))
          else Err ErrLeaseLost
      end
  end.

(** ** Fenced transitions *)

Section transitions.
Context `{SchemaEngine}.

(** The columns [revision.output_schema, revision.runtime_profile] reached from
    an invocation operation through its immutable bindings. *)
Definition invocation_output_contract (d : db) (c : OperationClaim)
  : option (option json * string) :=
  op ← db_invocation_ops d !! claim_key c;
  guard (op_resource_id op = c_ResourceID c);;
  inv ← db_invocations d !! (c_IsolationDomainID c, op_resource_id op);
  rev ← db_revisions d !! (c_IsolationDomainID c, inv_revision_id inv);
  guard (rev_service_id rev = inv_service_id inv);;
  Some (rev_output_schema rev, rev_runtime_profile rev).

(** The requested transition after the immutable contracts were checked again:
    next state, terminal result and failure. *)
Definition transition : Type := string * option json * option api_error.

Definition fail_contract (c : OperationClaim) (problem : api_error) : result transition :=
  _ ← validateTransition (c_Kind c) (c_ObservedState c) "failed";
  Ok ("failed", None, Some (with_correlation problem (c_CorrelationID c))).

Definition check_publication_contract (d : db) (c : OperationClaim) (tr : transition)
  : result transition :=
  let '(nextState, terminalResult, failure) := tr in
  if decide (c_Kind c = OperationKindPublication ∧ nextState ≠ "failed" ∧ nextState ≠ "cancelled") then
    revision ← getRevisionForUpdate d (c_IsolationDomainID c, c_ResourceID c);
    match ValidateRevisionSchemas (rev_input_schema revision) (rev_output_schema revision) with
    | Some problem => fail_contract c problem
    | None => Ok tr
    end
  else Ok tr.

Definition check_invocation_contract (d : db) (c : OperationClaim) (tr : transition)
  : result transition :=
  let '(nextState, terminalResult, failure) := tr in
  if decide (c_Kind c = OperationKindInvocation ∧ nextState = "succeeded") then
    match invocation_output_contract d c with
    | None => Err (EWrap "read invocation output contract" ErrNoRows)
    | Some (schema, runtimeProfile) =>
        if decide (runtimeProfile = "reference/v1") then
          match ValidateInvocationOutput schema terminalResult with
          | Some problem => fail_contract c problem
          | None => Ok tr
          end
        else Ok tr
    end
  else Ok tr.

(** The version-specific conjuncts of the transition's [WHERE] clause.  The
    version list is the one the statement has. *)
Definition governed_guard (e : env) (kind nextState : string) (row : operation_row) : bool :=
  if decide (kind = OperationKindPublication ∧ op_state_machine_version row ∈ [3; 4; 5]%Z) then
    bool_decide (nextState ∈ ["validating"; "failed"; "cancelled"])
    && match op_lease_expires_at row with
       | None => false
       | Some t => bool_decide (env_clock_timestamp e < t)%Z
       end
    && (bool_decide (nextState ∈ ["failed"; "cancelled"])
        || bool_decide (env_clock_timestamp e < op_deadline_at row)%Z)
  else true.

(** The [governed_publication_states] constraint (migration 00083). *)
Definition governed_states_check (t : op_table) (row : operation_row) : bool :=
  if decide (t = PublicationOps ∧ op_state_machine_version row ∈ [3; 4; 5; 6]%Z) then
    bool_decide (op_observed_state row ∈ ["queued"; "validating"; "published"; "failed"; "cancelled"])
  else true.

Definition advanced_row (nextState : string) (terminalResult : option json)
    (failure : option api_error) (now : Z) (row : operation_row) : operation_row :=
  OperationRow (op_resource_id row) (op_command row) (op_desired_state row) nextState
    (op_state_machine_version row) (op_generation row + 1) (op_attempt row) None
    (op_lease_token row) None now (op_deadline_at row)
    (if decide (nextState = "failed") then Some "terminal"
     else if decide (nextState = "cancelled") then Some "cancelled"
     else op_error_classification row)
    (match failure with Some f => Some f | None => op_error row end)
    (match terminalResult with Some r => Some r | None => op_terminal_result row end)
    (op_correlation_id row) (op_actor_id row) (op_effect_actor_id row)
    (op_effect_correlation_id row) now (op_created_at row) now.

Definition published_row (now : Z) (rev : revision_row) : revision_row :=
  RevisionRow (rev_service_id rev) (rev_number rev) "published" (rev_runtime_profile rev)
    (rev_required_capabilities rev) (rev_input_schema rev) (rev_output_schema rev) (Some now)
    (rev_generation rev + 1) (rev_version rev + 1) (rev_created_at rev) now (rev_created_by rev).

Definition transitioned_invocation (resourceState : string) (terminalResult : option json)
    (failure : option api_error) (now : Z) (inv : invocation_row) : invocation_row :=
  InvocationRow (inv_service_id inv) (inv_revision_id inv) (inv_alias inv) resourceState (inv_input inv)
    (match terminalResult with Some r => Some r | None => inv_result inv end)
    (match failure with Some f => Some f | None => inv_error inv end)
    (inv_usage inv) (inv_correlation_id inv) (inv_operation_id inv)
    (if decide (resourceState ∈ ["succeeded"; "failed"; "cancelled"]) then Some now
     else inv_completed_at inv)
    (inv_generation inv + 1) (inv_version inv + 1) (inv_created_at inv) now (inv_created_by inv).

Definition updateResourceForTransition (c : OperationClaim) (nextState : string)
    (terminalResult : option json) (failure : option api_error) (now : Z) (d : db) : result db :=
  let rk := (c_IsolationDomainID c, c_ResourceID c) in
  if decide (c_Kind c = OperationKindPublication) then
    if decide (nextState ≠ Publication.StatePublished) then Ok d
    else Ok (set_revisions (λ m, match m !! rk with
                                 | Some rev => if decide (rev_state rev = "draft")
                                               then <[rk := published_row now rev]> m else m
                                 | None => m end) d)
  else if decide (c_Kind c = OperationKindInvocation) then
    let resourceState := invocationResourceState nextState in
    if decide (resourceState = "") then Ok d
    else
      let d := set_invocations
                 (alter (transitioned_invocation resourceState terminalResult failure now) rk) d in
      inv ← getInvocationForUpdate d rk;
      Ok (writeInvocationEvent (c_IsolationDomainID c) (c_ResourceID c) inv
            ("lifecycle." +:+ resourceState) (c_ActorID c)
            (json_map [("state", JStr resourceState)]) now d)
  else Ok d.

(** The fenced [UPDATE] of the operation row. *)
Definition advance_operation (e : env) (t : op_table) (c : OperationClaim) (nextState : string)
    (terminalResult : option json) (failure : option api_error) (d : db) : result db :=
  let now := env_now e in
  match ops_of t d !! claim_key c with
  | None => Err ErrLeaseLost
  | Some row =>
      if lease_held c now row && governed_guard e (c_Kind c) nextState row then
        let row' := advanced_row nextState terminalResult failure now row in
        if governed_states_check t row' then Ok (set_ops t <[claim_key c := row']> d)
        else Err (EWrap "advance operation" (ENew "governed_publication_states"))
      else Err ErrLeaseLost
  end.

Definition advance (e : env) (c : OperationClaim) (nextState : string) (terminalResult : option json)
    (failure : option api_error) (d : db) : result db :=
  _ ← validateTransition (c_Kind c) (c_ObservedState c) nextState;
  if decide ((nextState = "failed") ↔ ¬ is_Some failure) then
    Err (ENew "failed transitions require exactly one bounded failure reason")
  else
  '(t, _) ← operationTable (c_Kind c);
  tr ← check_publication_contract d c (nextState, terminalResult, failure);
  tr ← check_invocation_contract d c tr;
  let '(nextState, terminalResult, failure) := tr in
  d ← advance_operation e t c nextState terminalResult failure d;
  d ← updateResourceForTransition c nextState terminalResult failure (env_now e) d;
  Ok (writeOutboxAndAudit e (c_IsolationDomainID c) (c_Kind c) (c_ID c)
        (c_Kind c +:+ "." +:+ nextState) (c_ActorID c) (c_CorrelationID c)
        (transitionOutcome nextState) (c_ID c) (env_now e) d).

Definition Fail (e : env) (c : OperationClaim) (reason : string) (d : db) : result db :=
  failure ← operationFailure reason (c_CorrelationID c);
  advance e c "failed" None (Some failure) d.

Definition Advance (e : env) (c : OperationClaim) (nextState : string)
    (terminalResult : option json) (d : db) : result db :=
  if decide (nextState = "failed") then Fail e c OperationFailureDeadline d
  else advance e c nextState terminalResult None d.

End transitions.

(** [ScheduleRetry] releases the lease and records when to try again. *)
Definition retried_row (classification : string) (problem : api_error) (dueAt now : Z)
    (row : operation_row) : operation_row :=
  OperationRow (op_resource_id row) (op_command row) (op_desired_state row) (op_observed_state row)
    (op_state_machine_version row) (op_generation row) (op_attempt row) None (op_lease_token row)
    None dueAt (op_deadline_at row) (Some classification) (Some problem) (op_terminal_result row)
    (op_correlation_id row) (op_actor_id row) (op_effect_actor_id row)
    (op_effect_correlation_id row) (op_last_transition_at row) (op_created_at row) now.

Definition ScheduleRetry (e : env) (c : OperationClaim) (classification errorCode : string)
    (dueAt : Z) (d : db) : result db :=
  '(t, _) ← operationTable (c_Kind c);
  if decide (classification ≠ "retryable" ∧ classification ≠ "unknown") then
    Err (ENew ("classification " +:+ classification +:+ " cannot schedule a retry"))
  else
  let now := env_now e in
  let problem := APIError errorCode "The operation will be reconciled again." (c_CorrelationID c) true [] in
  match ops_of t d !! claim_key c with
  | None => Err ErrLeaseLost
  | Some row =>
      if lease_held c now row then
        let d := set_ops t <[claim_key c := retried_row classification problem dueAt now row]> d in
        Ok (writeOutboxAndAudit e (c_IsolationDomainID c) (c_Kind c) (c_ID c)
              (c_Kind c +:+ ".retry-scheduled") (c_ActorID c) (c_CorrelationID c) "accepted"
              (c_ID c) now d)
      else Err ErrLeaseLost
  end.

(** ** External effects *)

Definition effect_id (c : OperationClaim) (phase : string) : string :=
  Identity.Derived "eff"
    (c_IsolationDomainID c +:+ ":" +:+ c_Kind c +:+ ":" +:+ c_ID c +:+ ":" +:+ phase).

Definition getEffect (d : db) (isolationDomainID effectID : string) : result EffectRecord :=
  match db_effects d !! (isolationDomainID, effectID) with
  | None => Err ErrNoRows
  | Some row =>
      Ok (Effect isolationDomainID effectID (eff_operation_kind row) (eff_operation_id row)
            (eff_phase row) (eff_request_digest row) (eff_status row) (eff_attempt row)
            (eff_observation row))
  end.

Definition PrepareEffect (e : env) (c : OperationClaim) (phase : string) (requestDigest : list N)
    (d : db) : result (db * EffectRecord) :=
  let effectID := effect_id c phase in
  let now := env_now e in
  '(t, _) ← operationTable (c_Kind c);
  match ops_of t d !! claim_key c with
  | None => Err ErrLeaseLost
  | Some row =>
      if lease_held c now row && bool_decide (op_command row = c_Command c) then
        let ek := (c_IsolationDomainID c, effectID) in
        let fresh := EffectRow (c_Kind c) (c_ID c) phase requestDigest "prepared" 0 None None now now in
        let d := set_effects (λ m, match m !! ek with Some _ => m | None => <[ek := fresh]> m end) d in
        effect ← getEffect d (c_IsolationDomainID c) effectID;
        if decide (e_RequestDigest effect ≠ requestDigest) then
          Err (EDomain "EXTERNAL_EFFECT_CONFLICT"
                 "External effect identifier was reused with a different request." false)
        else Ok (d, effect)
      else Err ErrLeaseLost
  end.

Definition recorded_effect (status : string) (observation : option json) (errorCode : string) (now : Z)
    (row : effect_row) : effect_row :=
  EffectRow (eff_operation_kind row) (eff_operation_id row) (eff_phase row) (eff_request_digest row)
    status (eff_attempt row + 1) observation (if decide (errorCode = "") then None else Some errorCode)
    (eff_created_at row) now.

Definition RecordEffect (e : env) (effect : EffectRecord) (status : string)
    (observation : option json) (errorCode : string) (d : db) : result db :=
  if decide (status ≠ "unknown" ∧ status ≠ "succeeded" ∧ status ≠ "failed") then
    Err (ENew ("invalid effect status " +:+ status))
  else
  let ek := (e_IsolationDomainID effect, e_EffectID effect) in
  match db_effects d !! ek with
  | None => Err ErrNoRows
  | Some row => Ok (set_effects <[ek := recorded_effect status observation errorCode (env_now e) row]> d)
  end.

(** ** Repair *)

(** The revision behind a failed operation must still be in the state the
    repaired command needs. *)
Definition lockRepairRevision (kind : string) (k : key) (d : db) : result unit :=
  let not_repairable := EDomain "OPERATION_NOT_REPAIRABLE"
    "The revision no longer permits this operation to be repaired." false in
  let check (expected : string) (revision : option revision_row) : result unit :=
    match revision with
    | Some rev => if decide (rev_state rev ≠ expected) then Err not_repairable else Ok ()
    | None => Err not_repairable
    end in
  if decide (kind = OperationKindInvocation) then
    check "published"
      (op ← db_invocation_ops d !! k;
       guard (op_observed_state op = "failed");;
       inv ← db_invocations d !! (k.1, op_resource_id op);
       db_revisions d !! (k.1, inv_revision_id inv))
  else if decide (kind = OperationKindPublication) then
    check "draft"
      (op ← db_publication_ops d !! k;
       guard (op_observed_state op = "failed");;
       db_revisions d !! (k.1, op_resource_id op))
  else Err (ENew "unsupported revision repair kind").

Definition repaired_row (actorID deduplicationID : string) (newDeadline now : Z)
    (row : operation_row) : operation_row :=
  OperationRow (op_resource_id row) "repair" (op_desired_state row) "queued"
    (op_state_machine_version row) (op_generation row + 1) (op_attempt row) None
    (op_lease_token row) None now newDeadline None None None (op_correlation_id row)
    (op_actor_id row) (Some actorID) (Some deduplicationID) now (op_created_at row) now.

Definition RepairOperation (e : env)
    (kind isolationDomainID operationID actorID reason deduplicationID : string)
    (newDeadline : Z) (d : db) : result db :=
  if decide (actorID = "" ∨ reason = "" ∨ deduplicationID = "" ∨ (newDeadline ≤ env_now e)%Z) then
    Err (ENew "repair requires actor, reason, deduplication ID, and a future deadline")
  else
  '(t, _) ← operationTable kind;
  let now := env_now e in
  let digest := Sha256.Sum256 (kind +:+ ":" +:+ operationID +:+ ":" +:+ reason +:+ ":"
                               +:+ FormatRFC3339Nano newDeadline) in
  let ik := (isolationDomainID, "command", deduplicationID) in
  match db_inbox d !! ik with
  | Some existing =>
      if decide (inb_payload_digest existing ≠ digest ∨ inb_actor_id existing ≠ Some actorID) then
        Err (EDomain "IDEMPOTENCY_KEY_REUSED"
               "Repair deduplication ID was reused with different content." false)
      else Ok d
  | None =>
      let d := set_inbox <[ik := InboxRow digest (Some actorID) now]> d in
      let k := (isolationDomainID, operationID) in
      _ ← lockRepairRevision kind k d;
      match ops_of t d !! k with
      | Some row =>
          if decide (op_observed_state row = "failed") then
            let d := set_ops t <[k := repaired_row actorID deduplicationID newDeadline now row]> d in
            Ok (writeOutboxAndAudit e isolationDomainID kind operationID (kind +:+ ".repair-accepted")
                  actorID deduplicationID "accepted" operationID now d)
          else Err (EDomain "OPERATION_NOT_REPAIRABLE" "Only a failed operation can be repaired." false)
      | None => Err (EDomain "OPERATION_NOT_REPAIRABLE" "Only a failed operation can be repaired." false)
      end
  end.
