(* ===== verification/Commands.v ===== *)
(** * Durable commands

    The command side of [internal/persistence/repository.go],
    [alias_withdrawal.go] and [revision_retirement.go]: every command runs under
    an idempotency record ([execute]) and changes services, revisions, aliases,
    invocations and their operations in one transaction.  Constraints on the
    spelling of generated identifiers are not modelled; uniqueness constraints
    are, as insertion errors. *)
From S2P Require Import Prelude.
From S2P Require Import GoStrings.
From S2P Require Import Sha256.
From S2P Require Import GoJson.
From S2P Require Import GoTime.
From S2P Require Import Lifecycle.
From S2P Require Import Domain.
From S2P Require Import Database.
From S2P Require Import OperationStore.

Definition StatusOK : Z := 200.
Definition StatusCreated : Z := 201.
Definition StatusAccepted : Z := 202.

(** [idempotencyRetention]: 24 hours. *)
Definition idempotencyRetention : Z := 86400000000.

Record Idempotency := Idem {
  id_IsolationDomainID : string;
  id_Method : string;
  id_Path : string;
  id_Key : string;
  id_RequestDigest : list N;
}.

Record CommandResult := CmdResult { cr_Status : Z; cr_Body : string; cr_Replayed : bool }.

Definition unique_violation (what : string) : error := EWrap what (ENew "unique violation").

(** A command body: reads the clock and the database, answers a status and a
    JSON value with the new database. *)
Definition action : Type := Z → db → result (Z * json * db).

Definition idempotency_key (i : Idempotency) : string * string * string * string :=
  (id_IsolationDomainID i, id_Method i, id_Path i, id_Key i).

Definition execute (e : env) (i : Idempotency) (act : action) (d : db) : result (db * CommandResult) :=
  let now := env_now e in
  let ik := idempotency_key i in
  match db_idempotency d !! ik with
  | Some stored =>
      if decide (idem_request_digest stored ≠ id_RequestDigest i) then
        Err (EDomain "IDEMPOTENCY_KEY_REUSED" "Idempotency key was reused with a different request." false)
      else match idem_response stored with
      | None => Err (EDomain "COMMAND_IN_PROGRESS" "The original command is still being committed." true)
      | Some (status, body) => Ok (d, CmdResult status body true)
      end
  | None =>
      let reserved := IdempotencyRow (id_RequestDigest i) None None (now + idempotencyRetention) in
      let d := set_idempotency <[ik := reserved]> d in
      '(status, value, d) ← act now d;
      let body := marshal value in
      let completed := IdempotencyRow (id_RequestDigest i) (Some (status, body)) (Some now)
                         (now + idempotencyRetention) in
      Ok (set_idempotency (alter (λ _, completed) ik) d, CmdResult status body false)
  end.

(** ** Views of rows *)

Definition revision_of (k : key) (row : revision_row) : ServiceRevision :=
  Revision (Metadata k.2 k.1 (rev_generation row) (rev_version row) (rev_created_at row)
              (rev_updated_at row) (rev_created_by row))
    (rev_service_id row) (rev_number row) (rev_state row) (rev_runtime_profile row)
    (rev_required_capabilities row) (rev_input_schema row) (rev_output_schema row) (rev_published_at row).

Definition alias_of (k : string * string * string) (row : alias_row) : ServiceAlias :=
  Alias (als_withdrawn_at row)
    (Metadata (als_id row) k.1.1 (als_generation row) (als_version row) (als_created_at row)
       (als_updated_at row) (als_created_by row))
    k.1.2 k.2 (als_revision_id row).

Definition scanInvocation (d : db) (k : key) (row : invocation_row) : Invocation :=
  Inv (Metadata k.2 k.1 (inv_generation row) (inv_version row) (inv_created_at row)
         (inv_updated_at row) (inv_created_by row))
    (inv_service_id row) (inv_revision_id row) (inv_alias row) (inv_state row) (inv_input row)
    (inv_result row) (inv_error row) (inv_usage row) (inv_correlation_id row) (inv_operation_id row)
    (snd <$> (fst <$> filter (λ p, p.1.1 = k.1 ∧ p.2 = k.2) (map_to_list (db_artifacts d))))
    (inv_completed_at row).

Definition scanOperation (k : key) (kind : string) (row : operation_row) : Operation :=
  Op (Metadata k.2 k.1 (op_generation row) (op_generation row) (op_created_at row)
        (op_updated_at row) (op_actor_id row))
    kind (op_command row) (op_resource_id row) (op_desired_state row) (op_observed_state row)
    (op_state_machine_version row) (op_attempt row) (op_correlation_id row)
    (match op_lease_owner row, op_lease_expires_at row with
     | Some owner, Some expires => Some (Lease owner (op_lease_token row) expires)
     | _, _ => None end)
    (Some (op_due_at row)) (Some (op_deadline_at row))
    (default "" (op_error_classification row)) (op_terminal_result row) (op_error row).

Definition getOperation (t : op_table) (kind : string) (k : key) (d : db) : result Operation :=
  match ops_of t d !! k with
  | None => Err ErrNoRows
  | Some row => Ok (scanOperation k kind row)
  end.

(** [GetOperation]: a publication operation, or else an invocation operation. *)
Definition GetOperation (k : key) (d : db) : result Operation :=
  match getOperation PublicationOps OperationKindPublication k d with
  | Ok operation => Ok operation
  | Err _ => getOperation InvocationOps OperationKindInvocation k d
  end.

Definition GetInvocation (k : key) (d : db) : result Invocation :=
  match db_invocations d !! k with
  | None => Err ErrNoRows
  | Some row => Ok (scanInvocation d k row)
  end.

(** A fresh operation row, as the two acceptance commands insert it. *)
Definition queued_operation (resourceID command desired : string) (version now deadline : Z)
    (correlationID actorID : string) : operation_row :=
  OperationRow resourceID command desired "queued" version 1 0 None 0 None now deadline None None None
    correlationID actorID None None now now now.

Section commands.
Context `{SchemaEngine}.

(** ** Services and revisions *)

Record CreateServiceInput := CreateServiceIn {
  csi_WorkspaceID : string; csi_ID : string; csi_Name : string; csi_Description : string;
  csi_ActorID : string; csi_CorrelationID : string }.

Definition CreateService (e : env) (i : Idempotency) (input : CreateServiceInput) (d : db)
  : result (db * CommandResult) :=
  if decide (csi_WorkspaceID input ≠ ""
             ∧ match_prefixed "wsp_" is_id_char 20 32 (csi_WorkspaceID input) = false) then
    Err (ENew "service workspace is invalid")
  else execute e i (λ now d,
    if decide (csi_WorkspaceID input ≠ ""
               ∧ (id_IsolationDomainID i, csi_WorkspaceID input) ∉ db_workspaces d) then
      Err (EDomain "RESOURCE_NOT_FOUND" "Workspace was not found." false)
    else
    let k := (id_IsolationDomainID i, csi_ID input) in
    match db_services d !! k with
    | Some _ => Err (unique_violation "insert agent service")
    | None =>
        let row := ServiceRow (csi_Name input) (csi_Description input) 1 1 now now (csi_ActorID input)
          (if decide (csi_WorkspaceID input = "") then None else Some (csi_WorkspaceID input)) in
        let service := Service (csi_WorkspaceID input)
          (new_metadata (csi_ID input) (id_IsolationDomainID i) (csi_ActorID input) now)
          (csi_Name input) (csi_Description input) in
        Ok (StatusCreated, service_json service,
            writeOutboxAndAudit e (id_IsolationDomainID i) "agent-service" (csi_ID input)
              "agent-service.created" (csi_ActorID input) (csi_CorrelationID input) "accepted" "" now
              (set_services <[k := row]> d))
    end) d.

Record CreateRevisionInput := CreateRevisionIn {
  cri_ID : string; cri_ServiceID : string; cri_RuntimeProfile : string;
  cri_RequiredCapabilities : list string; cri_InputSchema : option json;
  cri_OutputSchema : option json; cri_ActorID : string; cri_CorrelationID : string }.

(** [SELECT COALESCE(max(revision_number), 0) + 1] *)
Definition next_revision_number (domainID serviceID : string) (m : gmap key revision_row) : Z :=
  foldr Z.max 0%Z
    (omap (λ p : key * revision_row,
             if decide (p.1.1 = domainID ∧ rev_service_id p.2 = serviceID)
             then Some (rev_number p.2) else None)
       (map_to_list m)) + 1.

Definition CreateRevision (e : env) (i : Idempotency) (input : CreateRevisionInput) (d : db)
  : result (db * CommandResult) :=
  execute e i (λ now d,
    let domainID := id_IsolationDomainID i in
    match db_services d !! (domainID, cri_ServiceID input) with
    | None => Err (EDomain "RESOURCE_NOT_FOUND" "Agent service was not found." false)
    | Some _ =>
        let number := next_revision_number domainID (cri_ServiceID input) (db_revisions d) in
        let k := (domainID, cri_ID input) in
        match db_revisions d !! k with
        | Some _ => Err (unique_violation "insert service revision")
        | None =>
            let row := RevisionRow (cri_ServiceID input) number "draft" (cri_RuntimeProfile input)
              (cri_RequiredCapabilities input) (cri_InputSchema input) (cri_OutputSchema input) None
              1 1 now now (cri_ActorID input) in
            Ok (StatusCreated, revision_json (revision_of k row),
                writeOutboxAndAudit e domainID "service-revision" (cri_ID input)
                  "service-revision.created" (cri_ActorID input) (cri_CorrelationID input) "accepted"
                  "" now (set_revisions <[k := row]> d))
        end
    end) d.

Record RetireRevisionInput := RetireRevisionIn {
  rri_RevisionID : string; rri_ExpectedVersion : Z; rri_ActorID : string; rri_CorrelationID : string }.

Definition revision_routed (k : key) (d : db) : bool :=
  existsb (λ p : string * string * string * alias_row,
    bool_decide (p.1.1.1 = k.1 ∧ als_revision_id p.2 = k.2 ∧ als_withdrawn_at p.2 = None))
    (map_to_list (db_aliases d)).

(** The two [EXISTS] of the retirement check. *)
Definition revision_active (k : key) (d : db) : bool :=
  existsb (λ p : key * invocation_row,
    bool_decide (p.1.1 = k.1 ∧ inv_revision_id p.2 = k.2)
    && (bool_decide (inv_state p.2 ∉ ["succeeded"; "failed"; "cancelled"])
        || existsb (λ q : key * operation_row,
             bool_decide (q.1.1 = k.1 ∧ op_resource_id q.2 = p.1.2
                          ∧ op_observed_state q.2 ∉ ["succeeded"; "failed"; "cancelled"]))
             (map_to_list (db_invocation_ops d))))
    (map_to_list (db_invocations d))
  || existsb (λ q : key * operation_row,
       bool_decide (q.1.1 = k.1 ∧ op_resource_id q.2 = k.2
                    ∧ op_observed_state q.2 ∉ ["published"; "failed"; "cancelled"]))
       (map_to_list (db_publication_ops d)).

Definition retired_row (now : Z) (rev : revision_row) : revision_row :=
  RevisionRow (rev_service_id rev) (rev_number rev) "retired" (rev_runtime_profile rev)
    (rev_required_capabilities rev) (rev_input_schema rev) (rev_output_schema rev) (rev_published_at rev)
    (rev_generation rev + 1) (rev_version rev + 1) (rev_created_at rev) now (rev_created_by rev).

Definition RetireRevision (e : env) (i : Idempotency) (input : RetireRevisionInput) (d : db)
  : result (db * CommandResult) :=
  if decide ((rri_ExpectedVersion input < 1)%Z ∨ rri_ActorID input = "" ∨ rri_CorrelationID input = "") then
    Err (ENew "retirement requires version and attribution")
  else execute e i (λ now d,
    let k := (id_IsolationDomainID i, rri_RevisionID input) in
    revision ← getRevisionForUpdate d k;
    if decide (rev_version revision ≠ rri_ExpectedVersion input) then
      Err (EDomain "VERSION_CONFLICT" "Revision version did not match." false)
    else if decide (rev_state revision ≠ "published") then
      Err (EDomain "REVISION_NOT_PUBLISHED" "Only a published revision can be retired." false)
    else if revision_routed k d then
      Err (EDomain "REVISION_STILL_ROUTED"
             "Move or withdraw all aliases from this revision before retiring it." false)
    else if revision_active k d then
      Err (EDomain "REVISION_STILL_ACTIVE"
             "Wait for all invocation and publication activity to finish before retiring this revision." false)
    else
      let row := retired_row now revision in
      Ok (StatusOK, revision_json (revision_of k row),
          writeOutboxAndAudit e (id_IsolationDomainID i) "service-revision" (rri_RevisionID input)
            "service-revision.retired" (rri_ActorID input) (rri_CorrelationID input) "succeeded" "" now
            (set_revisions <[k := row]> d))) d.

(** ** Publication *)

Record AcceptPublicationInput := AcceptPublicationIn {
  api_RevisionID : string; api_ExpectedVersion : Z; api_ActorID : string;
  api_CorrelationID : string; api_Deadline : Z }.

Definition publication_operation_for (k : key) (d : db) : bool :=
  existsb (λ p : key * operation_row, bool_decide (p.1.1 = k.1 ∧ op_resource_id p.2 = k.2))
    (map_to_list (db_publication_ops d)).

Definition AcceptPublication (e : env) (i : Idempotency) (input : AcceptPublicationInput)
    (supportedCapabilities : gmap string string) (d : db) : result (db * CommandResult) :=
  execute e i (λ now d,
    let domainID := id_IsolationDomainID i in
    let rk := (domainID, api_RevisionID input) in
    revision ← getRevisionForUpdate d rk;
    if decide (rev_version revision ≠ api_ExpectedVersion input) then
      Err (EDomain "VERSION_CONFLICT" "Revision version did not match." false)
    else if decide (rev_state revision ≠ "draft") then
      Err (EDomain "REVISION_IMMUTABLE" "Only a draft revision can be published." false)
    else if decide (rev_runtime_profile revision ≠ "reference/v1") then
      Err (EDomain "RUNTIME_PROFILE_UNAVAILABLE" "Runtime profile is unavailable." false)
    else if decide (Exists (λ capability, supportedCapabilities !! capability ≠ Some "supported")
                      (rev_required_capabilities revision)) then
      Err (EDomain "REQUIRED_CAPABILITY_UNAVAILABLE" "A required runtime capability is unavailable." false)
    else match ValidateRevisionSchemas (rev_input_schema revision) (rev_output_schema revision) with
    | Some problem => Err (EDomain (ae_code problem) (ae_message problem) false)
    | None =>
        let operationID := Identity.Derived "op"
          (domainID +:+ ":" +:+ api_RevisionID input +:+ ":publication:v1") in
        let ok := (domainID, operationID) in
        let row := queued_operation (api_RevisionID input) "publish" "published"
          Publication.StateMachineVersion now (api_Deadline input) (api_CorrelationID input)
          (api_ActorID input) in
        if publication_operation_for rk d then
          operation ← getOperation PublicationOps OperationKindPublication ok d;
          Ok (StatusAccepted, operation_json operation, d)
        else match db_publication_ops d !! ok with
        | Some _ => Err (unique_violation "accept service publication")
        | None =>
            let d := set_ops PublicationOps <[ok := row]> d in
            operation ← getOperation PublicationOps OperationKindPublication ok d;
            Ok (StatusAccepted, operation_json operation,
                writeOutboxAndAudit e domainID "service-publication" operationID
                  "service-publication.accepted" (api_ActorID input) (api_CorrelationID input)
                  "accepted" operationID now d)
        end
    end) d.

(** ** Aliases *)

Record AssignAliasInput := AssignAliasIn {
  aai_ID : string; aai_ServiceID : string; aai_Name : string; aai_RevisionID : string;
  aai_ExpectedVersion : option Z; aai_ActorID : string; aai_CorrelationID : string }.

(** The version the caller must expect: a withdrawn alias counts as absent. *)
Definition required_alias_version (version : Z) (withdrawnAt : option Z) : Z :=
  match withdrawnAt with Some _ => 0 | None => version end.

Definition alias_version_conflict (expected : option Z) (required : Z) : bool :=
  match expected with
  | None => negb (bool_decide (required = 0%Z))
  | Some v => negb (bool_decide (v = required))
  end.

Definition assigned_alias (revisionID : string) (now : Z) (row : alias_row) : alias_row :=
  AliasRow (als_id row) revisionID (als_generation row + 1) (als_version row + 1) (als_created_at row)
    now (als_created_by row) None.

Definition AssignAlias (e : env) (i : Idempotency) (input : AssignAliasInput) (d : db)
  : result (db * CommandResult) :=
  execute e i (λ now d,
    let domainID := id_IsolationDomainID i in
    match db_revisions d !! (domainID, aai_RevisionID input) with
    | None => Err (EDomain "RESOURCE_NOT_FOUND" "Published service revision was not found." false)
    | Some revision =>
      if decide (rev_service_id revision ≠ aai_ServiceID input ∨ rev_state revision ≠ "published") then
        Err (EDomain "REVISION_NOT_PUBLISHED"
               "Alias target must be a published revision of this service." false)
      else
      let ak := (domainID, aai_ServiceID input, aai_Name input) in
      row ← match db_aliases d !! ak with
            | Some row =>
                if alias_version_conflict (aai_ExpectedVersion input)
                     (required_alias_version (als_version row) (als_withdrawn_at row)) then
                  Err (EDomain "VERSION_CONFLICT" "Alias version did not match." false)
                else Ok (assigned_alias (aai_RevisionID input) now row)
            | None =>
                if alias_version_conflict (aai_ExpectedVersion input) 0 then
                  Err (EDomain "VERSION_CONFLICT" "A new alias expects version zero." false)
                else Ok (AliasRow (aai_ID input) (aai_RevisionID input) 1 1 now now (aai_ActorID input) None)
            end;
      Ok (StatusOK, alias_json (alias_of ak row),
          writeOutboxAndAudit e domainID "service-alias" (als_id row) "service-alias.assigned"
            (aai_ActorID input) (aai_CorrelationID input) "accepted" "" now
            (set_aliases <[ak := row]> d))
    end) d.

Record WithdrawAliasInput := WithdrawAliasIn {
  wai_ServiceID : string; wai_Name : string; wai_ActorID : string; wai_CorrelationID : string;
  wai_ExpectedVersion : Z }.

Definition withdrawn_alias (now : Z) (row : alias_row) : alias_row :=
  AliasRow (als_id row) (als_revision_id row) (als_generation row + 1) (als_version row + 1)
    (als_created_at row) now (als_created_by row) (Some now).

Definition WithdrawAlias (e : env) (i : Idempotency) (input : WithdrawAliasInput) (d : db)
  : result (db * CommandResult) :=
  if decide (wai_ExpectedVersion input < 1)%Z then
    Err (EDomain "INVALID_REQUEST" "A positive expected alias version is required." false)
  else execute e i (λ now d,
    let domainID := id_IsolationDomainID i in
    let ak := (domainID, wai_ServiceID input, wai_Name input) in
    match db_aliases d !! ak with
    | Some row =>
        if decide (is_Some (als_withdrawn_at row)) then
          Err (EDomain "RESOURCE_NOT_FOUND" "Service alias was not found." false)
        else if decide (als_version row ≠ wai_ExpectedVersion input) then
          Err (EDomain "VERSION_CONFLICT" "Alias version did not match." false)
        else
          let row := withdrawn_alias now row in
          Ok (StatusOK, alias_json (alias_of ak row),
              writeOutboxAndAudit e domainID "service-alias" (als_id row) "service-alias.withdrawn"
                (wai_ActorID input) (wai_CorrelationID input) "accepted" "" now
                (set_aliases <[ak := row]> d))
    | None => Err (EDomain "RESOURCE_NOT_FOUND" "Service alias was not found." false)
    end) d.

(** ** Invocation acceptance and cancellation *)

Definition GovernedInvocationRuntimeProfile := "codex.app-server/v1".

Record InvocationDispatchTarget := DispatchTarget {
  dt_IsolationDomainID : string; dt_ServiceID : string; dt_RevisionID : string;
  dt_RuntimeProfile : string }.

Definition dispatch_target_valid (t : InvocationDispatchTarget) : bool :=
  match_prefixed "iso_" is_id_char 20 32 (dt_IsolationDomainID t)
  && match_prefixed "svc_" is_id_char 20 32 (dt_ServiceID t)
  && match_prefixed "rev_" is_id_char 20 32 (dt_RevisionID t)
  && bool_decide (dt_RuntimeProfile t = GovernedInvocationRuntimeProfile).

Definition invocationDispatchMismatch : error :=
  EDomain "INVOCATION_DISPATCH_TARGET_MISMATCH"
    "Invocation target is outside the configured governed dispatch scope." false.

Record AcceptInvocationInput := AcceptInvocationIn {
  aii_ID : string; aii_ServiceID : string; aii_Alias : string; aii_Input : json;
  aii_ActorID : string; aii_CorrelationID : string; aii_Deadline : Z;
  aii_DispatchTarget : option InvocationDispatchTarget }.

(** The published revision an unwithdrawn alias routes to. *)
Definition resolve_alias (domainID serviceID name : string) (d : db) : option (string * revision_row) :=
  row ← db_aliases d !! (domainID, serviceID, name);
  guard (als_withdrawn_at row = None);;
  rev ← db_revisions d !! (domainID, als_revision_id row);
  guard (rev_service_id rev = serviceID ∧ rev_state rev = "published");;
  Some (als_revision_id row, rev).

Definition dispatch_mismatch (target : option InvocationDispatchTarget)
    (test : InvocationDispatchTarget → bool) : bool :=
  match target with Some t => test t | None => false end.

Definition invocation_unique_violation (k : key) (operationID : string) (d : db) : bool :=
  bool_decide (is_Some (db_invocations d !! k))
  || existsb (λ p : key * invocation_row, bool_decide (inv_operation_id p.2 = operationID))
       (map_to_list (db_invocations d)).

Definition operation_unique_violation (k : key) (resourceID : string) (d : db) : bool :=
  bool_decide (is_Some (db_invocation_ops d !! k))
  || existsb (λ p : key * operation_row, bool_decide (p.1.1 = k.1 ∧ op_resource_id p.2 = resourceID))
       (map_to_list (db_invocation_ops d)).

Definition AcceptInvocation (e : env) (i : Idempotency) (input : AcceptInvocationInput) (d : db)
  : result (db * CommandResult) :=
  if dispatch_mismatch (aii_DispatchTarget input) (λ t, negb (dispatch_target_valid t)) then
    Err (ENew "invocation dispatch target is invalid")
  else execute e i (λ now d,
    let domainID := id_IsolationDomainID i in
    if dispatch_mismatch (aii_DispatchTarget input) (λ t,
         negb (bool_decide (domainID = dt_IsolationDomainID t))
         || negb (bool_decide (aii_ServiceID input = dt_ServiceID t))) then
      Err invocationDispatchMismatch
    else match resolve_alias domainID (aii_ServiceID input) (aii_Alias input) d with
    | None => Err (EDomain "RESOURCE_NOT_FOUND" "Published service alias was not found." false)
    | Some (revisionID, revision) =>
      if dispatch_mismatch (aii_DispatchTarget input) (λ t,
           negb (bool_decide (revisionID = dt_RevisionID t))
           || negb (bool_decide (rev_runtime_profile revision = dt_RuntimeProfile t))) then
        Err invocationDispatchMismatch
      else match ValidateInvocationInput (rev_input_schema revision) (Some (aii_Input input)) with
      | Some problem => Err (EDomain (ae_code problem) (ae_message problem) false)
      | None =>
        let operationID := Identity.Derived "op" (domainID +:+ ":" +:+ aii_ID input +:+ ":invocation:v1") in
        let k := (domainID, aii_ID input) in
        let ok := (domainID, operationID) in
        let inv := InvocationRow (aii_ServiceID input) revisionID (aii_Alias input) "accepted"
          (aii_Input input) None None None (aii_CorrelationID input) operationID None 1 1 now now
          (aii_ActorID input) in
        let op := queued_operation (aii_ID input) "invoke" "succeeded" Invocation.StateMachineVersion
          now (aii_Deadline input) (aii_CorrelationID input) (aii_ActorID input) in
        if invocation_unique_violation k operationID d then Err (unique_violation "insert invocation")
        else if operation_unique_violation ok (aii_ID input) d then
          Err (unique_violation "accept invocation execution")
        else
        let d := set_ops InvocationOps <[ok := op]> (set_invocations <[k := inv]> d) in
        let accepted := Inv (new_metadata (aii_ID input) domainID (aii_ActorID input) now)
          (aii_ServiceID input) revisionID (aii_Alias input) "accepted" (aii_Input input) None None None
          (aii_CorrelationID input) operationID [] None in
        let d := writeOutboxAndAudit e domainID "invocation" (aii_ID input) "invocation.accepted"
          (aii_ActorID input) (aii_CorrelationID input) "accepted" operationID now d in
        Ok (StatusAccepted, invocation_json accepted,
            writeInvocationEvent domainID (aii_ID input) inv "lifecycle.accepted" (aii_ActorID input)
              (json_map [("state", JStr "accepted")]) now d)
      end
    end) d.

Record AcceptCancellationInput := AcceptCancellationIn {
  aci_InvocationID : string; aci_ActorID : string; aci_CorrelationID : string }.

Definition cancelling_invocation (now : Z) (inv : invocation_row) : invocation_row :=
  InvocationRow (inv_service_id inv) (inv_revision_id inv) (inv_alias inv) "cancelling" (inv_input inv)
    (inv_result inv) (inv_error inv) (inv_usage inv) (inv_correlation_id inv) (inv_operation_id inv)
    (inv_completed_at inv) (inv_generation inv + 1) (inv_version inv + 1) (inv_created_at inv) now
    (inv_created_by inv).

Definition cancelling_operation (actorID correlationID : string) (now : Z) (row : operation_row)
  : operation_row :=
  OperationRow (op_resource_id row) "cancel" "cancelled" "cancelling" (op_state_machine_version row)
    (op_generation row + 1) (op_attempt row) None (op_lease_token row) None now (op_deadline_at row)
    (op_error_classification row) (op_error row) (op_terminal_result row) (op_correlation_id row)
    (op_actor_id row) (Some actorID) (Some correlationID) now (op_created_at row) now.

(** [UPDATE invocation_execution_operations ... WHERE invocation_id = ...] *)
Definition cancel_operations (k : key) (actorID correlationID : string) (now : Z)
    (m : gmap key operation_row) : gmap key operation_row :=
  map_imap (λ k' row, Some (if decide (k'.1 = k.1 ∧ op_resource_id row = k.2)
                            then cancelling_operation actorID correlationID now row else row)) m.

Definition AcceptCancellation (e : env) (i : Idempotency) (input : AcceptCancellationInput) (d : db)
  : result (db * CommandResult) :=
  if decide (aci_ActorID input = "" ∨ aci_CorrelationID input = "") then
    Err (ENew "cancellation actor and correlation are required")
  else execute e i (λ now d,
    let domainID := id_IsolationDomainID i in
    let k := (domainID, aci_InvocationID input) in
    inv ← getInvocationForUpdate d k;
    if decide (inv_state inv = "cancelled") then Ok (StatusOK, invocation_json (scanInvocation d k inv), d)
    else if decide (inv_state inv = "cancelling") then
      Ok (StatusAccepted, invocation_json (scanInvocation d k inv), d)
    else if decide (inv_state inv = "succeeded" ∨ inv_state inv = "failed") then
      Err (EDomain "INVOCATION_TERMINAL" "A completed invocation cannot be cancelled." false)
    else
      let inv' := cancelling_invocation now inv in
      let d := set_ops InvocationOps
                 (cancel_operations k (aci_ActorID input) (aci_CorrelationID input) now)
                 (set_invocations <[k := inv']> d) in
      let d := writeOutboxAndAudit e domainID "invocation" (aci_InvocationID input)
        "invocation.cancellation-accepted" (aci_ActorID input) (aci_CorrelationID input) "accepted"
        (inv_operation_id inv) now d in
      Ok (StatusAccepted, invocation_json (scanInvocation d k inv'),
          writeInvocationEvent domainID (aci_InvocationID input) inv' "lifecycle.cancellation.requested"
            (aci_ActorID input) (json_map [("state", JStr "cancelling")]) now d)) d.

End commands.
