(* ===== verification/RuntimeInteraction.v ===== *)
(** * Runtime interactions: what approvals and questions share

    [internal/persistence/runtime_interaction_claim.go],
    [runtime_interaction_outcome.go] and the parts of [runtime_target.go] and
    [runtime_attempt.go] they use: which worker may act for a running invocation,
    and the events an interaction leaves in the invocation's journal.

    A transaction is a computation on the database that may fail.  Its statements
    read clocks at different moments, so a call is given a [session]: the readings
    of the process clock, of the server's [clock_timestamp()], and the bytes of
    [rand.Read], by the number of the statement.  Row locks are waited for,
    so a transaction runs alone; only the expiry sweeps, which skip rows that others
    hold, are told which rows these are ([row_locks]). *)
From stdpp Require Import pretty.
From S2P Require Import Prelude.
From S2P Require Import GoStrings.
From S2P Require Import Sha256.
From S2P Require Import GoJson.
From S2P Require Import GoTime.
From S2P Require Import Lifecycle.
From S2P Require Import Domain.
From S2P Require Import Questions.
From S2P Require Import RuntimeTables.
From S2P Require Import Database.
From S2P Require Import OperationStore.
From S2P Require Import Commands.

(** ** Transactions *)

Definition tx (A : Type) : Type := db → result (db * A).
#[global] Instance tx_ret : MRet tx := λ A a d, Ok (d, a).
#[global] Instance tx_bind : MBind tx := λ A B k m d,
  match m d with Ok (d', a) => k a d' | Err e => Err e end.

Definition fail {A} (e : error) : tx A := λ _, Err e.
Definition query {A} (q : db → result A) : tx A := λ d, match q d with Ok a => Ok (d, a) | Err e => Err e end.
Definition modify (f : db → db) : tx unit := λ d, Ok (f d, tt).
Definition gets {A} (f : db → A) : tx A := λ d, Ok (d, f d).
Definition reject_if (b : bool) (e : error) : tx unit := if b then fail e else mret tt.

Record session := Session { ses_now : nat → Z; ses_clock : nat → Z; ses_random : nat → list N }.

(** The session seen from its [n]-th statement on. *)
Definition later (n : nat) (s : session) : session :=
  Session (λ i, ses_now s (n + i)) (λ i, ses_clock s (n + i)) (λ i, ses_random s (n + i)).

(** ** Errors and patterns *)

Definition ErrInvocationRuntimeTargetMissing := ESentinel "persistence.ErrInvocationRuntimeTargetMissing".
Definition ErrInvocationRuntimeEventInvalid := ESentinel "persistence.ErrInvocationRuntimeEventInvalid".
Definition ErrInvocationRuntimeEventConflict := ESentinel "persistence.ErrInvocationRuntimeEventConflict".
Definition ErrInvocationRuntimeAttemptInvalid := ESentinel "persistence.ErrInvocationRuntimeAttemptInvalid".
Definition ErrInvocationRuntimeAttemptConflict := ESentinel "persistence.ErrInvocationRuntimeAttemptConflict".

Definition maximumInvocationRuntimeEventPayloadBytes : Z := 262144.
Definition approvalCorrelationPattern : string → bool := match_prefixed "cor_" is_id_char 20 32.
Definition approvalInvocationPattern : string → bool := match_prefixed "inv_" is_id_char 20 32.
(** [questionScopePattern] and [invocationPolicyWithdrawalDomainPattern] are the same expression. *)
Definition questionScopePattern : string → bool := match_prefixed "iso_" is_id_char 20 32.

(** The zero [time.Time], midnight of January 1 of year 1, is before every stored time. *)
Definition zero_time : Z := -62135596800000000.
Definition instant (t : option Z) : Z := default zero_time t.
Definition IsZero (t : option Z) : bool := bool_decide (t = None).
Definition fifteen_minutes : Z := 900000000.

Definition validInvocationRuntimeApprovalActor (value : string) : bool :=
  if bool_decide (value = "") || (256 <? go_len value)%Z || negb (valid_utf8 value) then false
  else forallb (λ r, negb (is_control (rune_value r))) (runes value).

Definition validApprovalCloseReason (reason : string) : bool :=
  bool_decide (reason = "expired" ∨ reason = "runtime-request-cleared" ∨ reason = "runtime-ended"
               ∨ reason = "cancelled").

(** ** The claim and the effect an interaction acts under *)

Definition validInvocationRuntimeClaim (claim : OperationClaim) : bool :=
  bool_decide (c_Kind claim = OperationKindInvocation ∧ c_IsolationDomainID claim ≠ "" ∧ c_ID claim ≠ ""
    ∧ (c_Command claim = "invoke" ∨ c_Command claim = "repair")
    ∧ c_ObservedState claim = "running"
    ∧ c_StateMachineVersion claim = Invocation.StateMachineVersion
    ∧ c_LeaseOwner claim ≠ "" ∧ (0 < c_FencingToken claim)%Z).

Definition invocationRuntimeEffectMayStartAttempt (status : string) : bool :=
  bool_decide (status = "prepared" ∨ status = "failed" ∨ status = "unknown").

Definition validInvocationRuntimeAttempt (claim : OperationClaim) (effect : EffectRecord) : bool :=
  validInvocationRuntimeClaim claim
  && bool_decide (e_IsolationDomainID effect = c_IsolationDomainID claim
       ∧ e_OperationKind effect = c_Kind claim ∧ e_OperationID effect = c_ID claim
       ∧ e_Phase effect = "run-invocation" ∧ e_EffectID effect = effect_id claim "run-invocation")
  && invocationRuntimeEffectMayStartAttempt (e_Status effect).

(** An SQL comparison with a nullable time. *)
Definition after (time : option Z) (now : Z) : bool :=
  match time with None => false | Some t => bool_decide (now < t)%Z end.

(** The operation's row is the one the claim was issued for, and not handed on since. *)
Definition claimed_operation (claim : OperationClaim) (op : operation_row) : bool :=
  bool_decide (op_command op = c_Command claim
    ∧ op_lease_owner op = Some (c_LeaseOwner claim) ∧ op_lease_token op = c_FencingToken claim).

Definition lockInvocationRuntimeClaim (claim : OperationClaim) (now : Z) (d : db) : result string :=
  if negb (validInvocationRuntimeClaim claim) then Err ErrLeaseLost else
  match db_invocation_ops d !! claim_key claim with
  | None => Err ErrLeaseLost
  | Some op =>
      match db_invocations d !! (c_IsolationDomainID claim, op_resource_id op) with
      | None => Err ErrLeaseLost
      | Some _ =>
          if claimed_operation claim op
             && bool_decide (op_observed_state op = c_ObservedState claim
                             ∧ op_state_machine_version op = c_StateMachineVersion claim)
             && after (op_lease_expires_at op) now && bool_decide (now < op_deadline_at op)%Z
          then Ok (op_resource_id op) else Err ErrLeaseLost
      end
  end.

Definition verifyInvocationRuntimeEffect (effect : EffectRecord) (d : db) : result unit :=
  match getEffect d (e_IsolationDomainID effect) (e_EffectID effect) with
  | Err _ => Err ErrInvocationRuntimeAttemptInvalid
  | Ok persisted =>
      if bool_decide (e_OperationKind persisted = e_OperationKind effect
           ∧ e_OperationID persisted = e_OperationID effect ∧ e_Phase persisted = e_Phase effect
           ∧ e_RequestDigest persisted = e_RequestDigest effect ∧ e_Status persisted = e_Status effect)
         && invocationRuntimeEffectMayStartAttempt (e_Status persisted)
      then Ok tt else Err ErrInvocationRuntimeAttemptConflict
  end.

(** The operation joined with its attempt, as the last check of
    [lockRuntimeInteractionAttempt] selects it. *)
Definition attempt_reserved (d : db) (domainID operationID effectID : string) (op : operation_row) : bool :=
  match rt_attempts (db_runtime d) !! (domainID, operationID) with
  | None => false
  | Some attempt =>
      bool_decide (att_EffectID attempt = effectID ∧ att_Status attempt = "reserved"
        ∧ op_lease_owner op = Some (att_LeaseOwner attempt) ∧ op_lease_token op = att_FencingToken attempt)
  end.

Definition claim_interaction (claim : OperationClaim) (effect : EffectRecord) (now : Z) (d : db) : bool :=
  match db_invocation_ops d !! claim_key claim with
  | None => false
  | Some op =>
      bool_decide (op_resource_id op = c_ResourceID claim)
      && claimed_operation claim op && bool_decide (op_observed_state op = "running")
      && after (op_lease_expires_at op) now && bool_decide (now < op_deadline_at op)%Z
      && attempt_reserved d (c_IsolationDomainID claim) (c_ID claim) (e_EffectID effect) op
  end.

Definition lockRuntimeInteractionAttempt (s : session) (claim : OperationClaim) (effect : EffectRecord)
  : tx unit :=
  query (lockInvocationRuntimeClaim claim (ses_clock s 0));;
  query (verifyInvocationRuntimeEffect effect);;
  valid ← gets (claim_interaction claim effect (ses_clock s 1));
  reject_if (negb valid) ErrLeaseLost.

(** [runtimeInteractionLiveAttemptSQL]: some claim of the operation is live and
    the attempt reserved under it is the one the interaction belongs to. *)
Definition live_attempt (d : db) (domainID operationID invocationID effectID : string) (now : Z) : bool :=
  match db_invocation_ops d !! (domainID, operationID) with
  | None => false
  | Some op =>
      bool_decide (op_resource_id op = invocationID ∧ (op_command op = "invoke" ∨ op_command op = "repair")
        ∧ op_observed_state op = "running" ∧ op_lease_owner op ≠ None)
      && after (op_lease_expires_at op) now && bool_decide (now < op_deadline_at op)%Z
      && attempt_reserved d domainID operationID effectID op
  end.

Definition activeRuntimeInteraction (domainID operationID invocationID effectID : string) (now : Z)
  : tx unit :=
  active ← gets (λ d, live_attempt d domainID operationID invocationID effectID now);
  reject_if (negb active) ErrLeaseLost.

(** ** The target of the runtime effect *)

Record InvocationRuntimeTarget := MkRuntimeTarget {
  rtg_IsolationDomainID : string; rtg_OperationID : string; rtg_InvocationID : string;
  rtg_ServiceID : string; rtg_RevisionID : string; rtg_ActorID : string; rtg_CorrelationID : string;
  rtg_StateMachineVersion : Z; rtg_Input : json; rtg_RuntimeProfile : string;
  rtg_OutputSchema : option json }.

(** The join with the admission effect that succeeded. *)
Definition admission_succeeded (domainID operationID : string) (d : db) : bool :=
  existsb (λ kv, bool_decide (kv.1.1 = domainID ∧ eff_operation_kind kv.2 = OperationKindInvocation
                              ∧ eff_operation_id kv.2 = operationID ∧ eff_phase kv.2 = "start-invocation"
                              ∧ eff_status kv.2 = "succeeded")) (map_to_list (db_effects d)).

Definition runtime_target_row (d : db) (domainID operationID : string) : option InvocationRuntimeTarget :=
  op ← db_invocation_ops d !! (domainID, operationID);
  inv ← db_invocations d !! (domainID, op_resource_id op);
  rev ← db_revisions d !! (domainID, inv_revision_id inv);
  if bool_decide (rev_service_id rev = inv_service_id inv) && admission_succeeded domainID operationID d
     && bool_decide (op_observed_state op = "running"
          ∧ op_state_machine_version op = Invocation.StateMachineVersion
          ∧ (op_command op = "invoke"
             ∨ (op_command op = "repair" ∧ op_effect_actor_id op ≠ None ∧ op_effect_correlation_id op ≠ None)))
  then Some (MkRuntimeTarget domainID operationID (op_resource_id op) (inv_service_id inv)
               (inv_revision_id inv) (default (op_actor_id op) (op_effect_actor_id op))
               (default (op_correlation_id op) (op_effect_correlation_id op))
               (op_state_machine_version op) (inv_input inv) (rev_runtime_profile rev) (rev_output_schema rev))
  else None.

Definition getInvocationRuntimeTarget (domainID operationID : string) (d : db)
  : result InvocationRuntimeTarget :=
  match runtime_target_row d domainID operationID with
  | None => Err ErrInvocationRuntimeTargetMissing
  | Some target =>
      if decide (rtg_IsolationDomainID target ≠ domainID ∨ rtg_OperationID target ≠ operationID
           ∨ rtg_InvocationID target = "" ∨ rtg_ServiceID target = "" ∨ rtg_RevisionID target = ""
           ∨ rtg_ActorID target = "" ∨ rtg_CorrelationID target = ""
           ∨ rtg_StateMachineVersion target ≠ Invocation.StateMachineVersion
           ∨ rtg_RuntimeProfile target = "" ∨ rtg_Input target = JNull)
      then Err ErrInvocationRuntimeTargetMissing else Ok target
  end.

Definition invocationRuntimeTargetMatchesApproval (target : InvocationRuntimeTarget) (claim : OperationClaim)
  : bool :=
  bool_decide (rtg_IsolationDomainID target = c_IsolationDomainID claim ∧ rtg_OperationID target = c_ID claim
    ∧ rtg_InvocationID target = c_ResourceID claim ∧ rtg_ServiceID target ≠ "" ∧ rtg_RevisionID target ≠ "")
  && validInvocationRuntimeApprovalActor (rtg_ActorID target)
  && approvalCorrelationPattern (rtg_CorrelationID target).

(** The comparison of a caller's target with the stored one. *)
Definition same_target (actual target : InvocationRuntimeTarget) : bool :=
  bool_decide (rtg_InvocationID actual = rtg_InvocationID target ∧ rtg_ServiceID actual = rtg_ServiceID target
    ∧ rtg_RevisionID actual = rtg_RevisionID target ∧ rtg_ActorID actual = rtg_ActorID target
    ∧ rtg_CorrelationID actual = rtg_CorrelationID target).

Definition GetInvocationRuntimeTarget (domainID operationID : string) (d : db) : result InvocationRuntimeTarget :=
  getInvocationRuntimeTarget domainID operationID d.

Definition GetClaimedInvocationRuntimeTarget (s : session) (claim : OperationClaim) (d : db)
  : result InvocationRuntimeTarget :=
  invocationID ← lockInvocationRuntimeClaim claim (ses_now s 0) d;
  target ← getInvocationRuntimeTarget (c_IsolationDomainID claim) (c_ID claim) d;
  if decide (rtg_InvocationID target ≠ invocationID) then Err ErrInvocationRuntimeTargetMissing else Ok target.

(** ** Journal, audit and outbox rows of an interaction *)

(** [INSERT INTO invocation_events]: identifiers are unique. *)
Definition insert_event (what : string) (ev : event_row) : tx unit := λ d,
  if existsb (λ other, bool_decide (ev_id other = ev_id ev)) (db_events d) then Err (unique_violation what)
  else Ok (set_events (λ l, l ++ [ev]) d, tt).

Definition insert_audit (row : audit_row) : tx unit := modify (set_audit (λ l, l ++ [row])).

(** [INSERT INTO outbox_events] without a conflict clause. *)
Definition insert_outbox (what id : string) (row : outbox_row) : tx unit := λ d,
  match db_outbox d !! id with
  | Some _ => Err (unique_violation what)
  | None => Ok (set_outbox <[id := row]> d, tt)
  end.

Definition getInvocationRuntimeEvent (domainID invocationID : string) (sourceSequence : Z) (d : db)
  : option event_row :=
  list_find (λ ev, ev_isolation_domain_id ev = domainID ∧ ev_invocation_id ev = invocationID
                   ∧ ev_source ev = Some sourceSequence) (db_events d) ≫= λ '(_, ev), Some ev.

(** The guard of the [INSERT ... SELECT] on the claimed operation. *)
Definition claim_live (claim : OperationClaim) (now : Z) (d : db) : bool :=
  match db_invocation_ops d !! claim_key claim with
  | None => false
  | Some op => claimed_operation claim op && bool_decide (op_observed_state op = c_ObservedState claim)
               && after (op_lease_expires_at op) now && bool_decide (now < op_deadline_at op)%Z
  end.

Definition recordInvocationRuntimeInteractionEvent (s : session) (claim : OperationClaim)
    (target : InvocationRuntimeTarget) (sourceSequence : Z) (eventType : string) (payload : json) : tx unit :=
  reject_if (maximumInvocationRuntimeEventPayloadBytes <? go_len (marshal payload))%Z
    ErrInvocationRuntimeEventInvalid;;
  existing ← gets (getInvocationRuntimeEvent (rtg_IsolationDomainID target) (rtg_InvocationID target) sourceSequence);
  match existing with
  | Some ev =>
      reject_if (bool_decide (ev_type ev ≠ eventType) || bool_decide (marshal (ev_payload ev) ≠ marshal payload))
        ErrInvocationRuntimeEventConflict
  | None =>
      sequence ← gets (λ d, next_sequence (rtg_IsolationDomainID target) (rtg_InvocationID target) (db_events d));
      let now := ses_now s 0 in
      live ← gets (claim_live claim (ses_clock s 0));
      reject_if (negb live) ErrLeaseLost;;
      insert_event "persist invocation interaction event"
        (EventRow (rtg_IsolationDomainID target) (rtg_InvocationID target)
           (Identity.Derived "evt" (rtg_InvocationID target +:+ ":runtime:" +:+ pretty sourceSequence))
           sequence eventType now now (rtg_CorrelationID target) (rtg_ActorID target)
           (rtg_ServiceID target) (rtg_RevisionID target) payload (Some sourceSequence))
  end.

Record runtimeInteractionOutcome := MkOutcome {
  oc_isolationDomainID : string; oc_invocationID : string; oc_serviceID : string; oc_revisionID : string;
  oc_id : string; oc_kind : string; oc_state : string; oc_actor : string; oc_correlation : string;
  oc_closeReason : string; oc_version : Z; oc_occurredAt : Z; oc_closedAt : option Z }.

(** The action name and the payload, or nothing when the outcome is invalid. *)
Definition outcome_payload (value : runtimeInteractionOutcome) : option (string * json) :=
  let fields := [(oc_kind value +:+ "Id", JStr (oc_id value)); ("state", JStr (oc_state value));
                 ("version", JInt (oc_version value))] in
  if decide (oc_state value = "answered") then
    if decide (oc_kind value ≠ "question") then None else Some (oc_state value, json_map fields)
  else if decide (oc_state value = "closed" ∨ oc_state value = "expired" ∨ oc_state value = "delivery_unknown") then
    match oc_closedAt value with
    | None => None
    | Some closedAt =>
        if negb (validApprovalCloseReason (oc_closeReason value)) then None
        else Some (if decide (oc_state value = "delivery_unknown") then "delivery.unknown" else oc_state value,
                   json_map (fields ++ [("closedAt", JStr (FormatRFC3339Nano closedAt));
                                        ("closeReason", JStr (oc_closeReason value))]))
    end
  else None.

Definition recordRuntimeInteractionOutcome (s : session) (value : runtimeInteractionOutcome) : tx unit :=
  reject_if (bool_decide (oc_kind value ≠ "approval" ∧ oc_kind value ≠ "question")) ErrInvocationRuntimeEventInvalid;;
  match outcome_payload value with
  | None => fail ErrInvocationRuntimeEventInvalid
  | Some (action, payload) =>
      sequence ← gets (λ d, next_sequence (oc_isolationDomainID value) (oc_invocationID value) (db_events d));
      insert_event "runtime interaction outcome"
        (EventRow (oc_isolationDomainID value) (oc_invocationID value)
           (Identity.Derived "evt" (oc_isolationDomainID value +:+ ":" +:+ oc_invocationID value +:+ ":"
              +:+ oc_kind value +:+ ":" +:+ oc_id value +:+ ":" +:+ pretty (oc_version value)))
           sequence ("interaction." +:+ oc_kind value +:+ "." +:+ action) (oc_occurredAt value) (ses_clock s 0)
           (oc_correlation value) (oc_actor value) (oc_serviceID value) (oc_revisionID value) payload None)
  end.

(** ** Interactions past their expiry that are not settled *)

Definition InvocationRuntimeApprovalContract := "dataground.invocation-runtime-approval/v2".

Definition approval_due (scope : string) (now : Z) (kv : key * InvocationRuntimeApproval) : Prop :=
  kv.1.1 = scope ∧ apr_Contract kv.2 = InvocationRuntimeApprovalContract
  ∧ (apr_State kv.2 = "pending" ∨ apr_State kv.2 = "resolved" ∨ apr_State kv.2 = "delivering")
  ∧ match apr_ExpiresAt kv.2 with Some t => (t ≤ now)%Z | None => False end.
#[global] Instance approval_due_dec scope now kv : Decision (approval_due scope now kv).
Proof. unfold approval_due. destruct (apr_ExpiresAt kv.2); apply _. Defined.

Definition due_approvals (scope : string) (now : Z) (d : db) : list (key * InvocationRuntimeApproval) :=
  filter (approval_due scope now) (map_to_list (rt_approvals (db_runtime d))).

Definition question_due (scope : string) (now : Z) (kv : key * InvocationRuntimeQuestion) : Prop :=
  kv.1.1 = scope ∧ (qst_State kv.2 = "pending" ∨ qst_State kv.2 = "answered" ∨ qst_State kv.2 = "delivering")
  ∧ (qst_ExpiresAt kv.2 ≤ now)%Z.
#[global] Instance question_due_dec scope now kv : Decision (question_due scope now kv).
Proof. unfold question_due. apply _. Defined.

Definition due_questions (scope : string) (now : Z) (d : db) : list (key * InvocationRuntimeQuestion) :=
  filter (question_due scope now) (map_to_list (rt_questions (db_runtime d))).

(** [ORDER BY expires_at, id]; text is compared by bytes. *)
Definition due_le (p q : Z * string) : Prop := (p.1 < q.1)%Z ∨ (p.1 = q.1 ∧ String.le p.2 q.2).
#[global] Instance due_le_dec : RelDecision due_le.
Proof. intros p q. unfold due_le. apply _. Defined.

(** [SELECT invocation_id, min(expires_at) ... GROUP BY invocation_id], of the
    expiry and invocation of each due row. *)
Definition earliest_expiry (due : list (Z * string)) (invocationID : string) : Z :=
  match (filter (λ p, p.2 = invocationID) due).*1 with
  | [] => zero_time
  | t :: rest => foldr Z.min t rest
  end.

(** Rows that other transactions hold, by their identifiers: invocations, and approvals
    or questions.  [FOR UPDATE ... SKIP LOCKED] passes over them, before [LIMIT] counts. *)
Record row_locks := RowLocks { lk_invocations : string → bool; lk_interactions : string → bool }.
Definition no_locks : row_locks := RowLocks (λ _, false) (λ _, false).

Definition due_invocations (locks : row_locks) (scope : string) (limit : nat) (due : list (Z * string)) (d : db) : list string :=
  let invocations := filter (λ inv, is_Some (db_invocations d !! (scope, inv)) ∧ lk_invocations locks inv = false)
                       (remove_dups due.*2) in
  (take limit (merge_sort due_le ((λ inv, (earliest_expiry due inv, inv)) <$> invocations))).*2.

Definition lockDueRuntimeInteractionInvocations (locks : row_locks) (scope kind : string) (limit : nat) (now : Z) (d : db)
  : result (list string) :=
  if decide (kind = "approval") then
    Ok (due_invocations locks scope limit
          ((λ kv, (instant (apr_ExpiresAt kv.2), apr_InvocationID kv.2)) <$> due_approvals scope now d) d)
  else if decide (kind = "question") then
    Ok (due_invocations locks scope limit
          ((λ kv, (qst_ExpiresAt kv.2, qst_InvocationID kv.2)) <$> due_questions scope now d) d)
  else Err ErrInvocationRuntimeEventInvalid.

(** ** Reading off what a committed transaction did *)

Lemma tx_bind_Ok {A B} (m : tx A) (k : A → tx B) d d' b :
  (m ≫= k) d = Ok (d', b) ↔ ∃ d1 a, m d = Ok (d1, a) ∧ k a d1 = Ok (d', b).
Proof.
  unfold mbind, tx_bind. split.
  - destruct (m d) as [[d1 a]|e]; [|done]. intros H. by exists d1, a.
  - intros (d1 & a & -> & H). exact H.
Qed.

Lemma tx_ret_Ok {A} (a : A) d d' b : (mret a : tx A) d = Ok (d', b) ↔ d' = d ∧ b = a.
Proof. unfold mret, tx_ret. naive_solver. Qed.

Lemma query_Ok {A} (q : db → result A) d d' a : query q d = Ok (d', a) ↔ d' = d ∧ q d = Ok a.
Proof. unfold query. destruct (q d); naive_solver. Qed.

Lemma gets_Ok {A} (f : db → A) d d' a : gets f d = Ok (d', a) ↔ d' = d ∧ a = f d.
Proof. unfold gets. naive_solver. Qed.

Lemma reject_if_Ok b e d d' u : reject_if b e d = Ok (d', u) ↔ d' = d ∧ b = false.
Proof. destruct u. unfold reject_if. destruct b; unfold mret, tx_ret; simpl; [split; [done|naive_solver]|naive_solver]. Qed.

Lemma modify_Ok f d d' u : modify f d = Ok (d', u) ↔ d' = f d.
Proof. destruct u. unfold modify. naive_solver. Qed.

Lemma insert_event_Ok what ev d d' u :
  insert_event what ev d = Ok (d', u) → d' = set_events (λ l, l ++ [ev]) d.
Proof. unfold insert_event. case_match; naive_solver. Qed.

Lemma insert_outbox_Ok what id row d d' u :
  insert_outbox what id row d = Ok (d', u) → d' = set_outbox <[id := row]> d ∧ db_outbox d !! id = None.
Proof. unfold insert_outbox. case_match; naive_solver. Qed.

(** Decomposes a hypothesis [m d = Ok (d', a)] along the structure of [m]. *)
Ltac tx_inv H :=
  lazymatch type of H with
  | (_ ≫= _) _ = Ok _ =>
      let d := fresh "d" in let a := fresh "a" in let H1 := fresh "Hm" in
      apply tx_bind_Ok in H as (d & a & H1 & H); cbv beta in H; tx_inv H1; tx_inv H
  | mret _ _ = Ok _ => apply tx_ret_Ok in H as [? ?]; subst
  | query _ _ = Ok _ => apply query_Ok in H as [? H]; subst
  | gets _ _ = Ok _ => apply gets_Ok in H as [? ?]; subst
  | reject_if _ _ _ = Ok _ => apply reject_if_Ok in H as [? H]; subst
  | modify _ _ = Ok _ => apply modify_Ok in H as ->
  | insert_audit _ _ = Ok _ => apply modify_Ok in H as ->
  | insert_event _ _ _ = Ok _ => apply insert_event_Ok in H as ->
  | insert_outbox _ _ _ _ = Ok _ => apply insert_outbox_Ok in H as [-> H]
  | fail _ _ = Ok _ => discriminate H
  | _ => idtac
  end.

Lemma activeRuntimeInteraction_Ok dom op inv eff now d d' u :
  activeRuntimeInteraction dom op inv eff now d = Ok (d', u) → d' = d ∧ live_attempt d dom op inv eff now = true.
Proof. unfold activeRuntimeInteraction. intros H. tx_inv H. by apply negb_false_iff in H. Qed.

(** A property of every committed run of a transaction that relates the states
    before and after. *)
Definition tx_rel {A} (R : db → db → Prop) (m : tx A) : Prop := ∀ d d' a, m d = Ok (d', a) → R d d'.

Section tx_rel.
Context (R : db → db → Prop) `{!PreOrder R}.

Lemma tx_rel_ret {A} (a : A) : tx_rel R (mret a).
Proof. intros d d' b H. tx_inv H. reflexivity. Qed.
Lemma tx_rel_bind {A B} (m : tx A) (k : A → tx B) : tx_rel R m → (∀ a, tx_rel R (k a)) → tx_rel R (m ≫= k).
Proof. intros Hm Hk d d' b H. tx_inv H. etrans; [by eapply Hm|by eapply Hk]. Qed.
Lemma tx_rel_query {A} (q : db → result A) : tx_rel R (query q).
Proof. intros d d' b H. tx_inv H. reflexivity. Qed.
Lemma tx_rel_gets {A} (f : db → A) : tx_rel R (gets f).
Proof. intros d d' b H. tx_inv H. reflexivity. Qed.
Lemma tx_rel_reject b e : tx_rel R (reject_if b e).
Proof. intros d d' u H. tx_inv H. reflexivity. Qed.
Lemma tx_rel_fail {A} e : tx_rel R (fail e : tx A).
Proof. done. Qed.
End tx_rel.

(** Walks a transaction whose definition was unfolded; the lemmas on its parts are
    hints. *)
Ltac tx_rel_solve :=
  repeat first
    [ solve [auto with dg]
    | apply tx_rel_fail | apply tx_rel_ret | apply tx_rel_query | apply tx_rel_gets | apply tx_rel_reject
    | (apply tx_rel_bind; [| |intros ?])
    | apply _
    | case_match ].
