(* ===== verification/RuntimeApproval.v ===== *)
(** * Runtime approvals

    [internal/persistence/runtime_approval.go] and [runtime_approval_close.go]: a
    running agent asks for permission to act; a user resolves the request; the
    worker delivers the decision to the runtime once; requests that are not
    delivered in time expire.  One definition per function, in the order of its
    checks and statements. *)
From stdpp Require Import pretty.
From S2P Require Import Prelude.
From S2P Require Import GoStrings.
From S2P Require Import Sha256.
From S2P Require Import GoJson.
From S2P Require Import GoTime.
From S2P Require Import Domain.
From S2P Require Import Questions.
From S2P Require Import RuntimeTables.
From S2P Require Import Database.
From S2P Require Import OperationStore.
From S2P Require Import Commands.
From S2P Require Import RuntimeInteraction.

Definition InvocationRuntimeApprovalLegacyContract := "dataground.invocation-runtime-approval/v1".

Definition ErrInvocationRuntimeApprovalExpired := ESentinel "persistence.ErrInvocationRuntimeApprovalExpired".
Definition ErrInvocationRuntimeApprovalInvalid := ESentinel "persistence.ErrInvocationRuntimeApprovalInvalid".
Definition ErrInvocationRuntimeApprovalMissing := ESentinel "persistence.ErrInvocationRuntimeApprovalMissing".
Definition ErrInvocationRuntimeApprovalConflict := ESentinel "persistence.ErrInvocationRuntimeApprovalConflict".
Definition ErrInvocationRuntimeApprovalDeliveryAmbiguous :=
  ESentinel "persistence.ErrInvocationRuntimeApprovalDeliveryAmbiguous".

Definition approvalIDPattern : string → bool := match_prefixed "apr_" is_id_char 20 32.

Record InvocationRuntimeApprovalRequest := MkApprovalRequest {
  arq_ExpiresAt : option Z; arq_SourceSequence : Z; arq_RequestedAction : string }.

Record InvocationRuntimeApprovalResolution := MkApprovalResolution {
  ars_IsolationDomainID : string; ars_InvocationID : string; ars_ApprovalID : string;
  ars_ExpectedVersion : Z; ars_Decision : string; ars_ActorID : string; ars_CorrelationID : string }.

(** A policy decision on one approval; an error denies it. *)
Definition InvocationRuntimeApprovalEntryAuthorizer : Type := InvocationRuntimeApproval → option error.

(** ** Validity *)

Definition validInvocationRuntimeApprovalAction (value : string) : bool :=
  bool_decide (value = "process.execute" ∨ value = "workspace.change").

Definition validInvocationRuntimeApprovalDecision (value : string) : bool :=
  bool_decide (value = "approve" ∨ value = "deny").

Definition approval_resolved (value : InvocationRuntimeApproval) : bool :=
  validInvocationRuntimeApprovalDecision (apr_Decision value)
  && validInvocationRuntimeApprovalActor (apr_ResolvedBy value)
  && approvalCorrelationPattern (apr_ResolutionCorrelationID value) && negb (IsZero (apr_ResolvedAt value)).

Definition approval_unresolved (value : InvocationRuntimeApproval) : bool :=
  bool_decide (apr_Decision value = "" ∧ apr_ResolvedBy value = "" ∧ apr_ResolutionCorrelationID value = "")
  && IsZero (apr_ResolvedAt value).

(** The contract fixes which times are there. *)
Definition approval_contract_valid (value : InvocationRuntimeApproval) : bool :=
  if decide (apr_Contract value = InvocationRuntimeApprovalLegacyContract) then
    IsZero (apr_ExpiresAt value) && IsZero (apr_ClosedAt value) && bool_decide (apr_CloseReason value = "")
  else
    bool_decide (apr_Contract value = InvocationRuntimeApprovalContract)
    && bool_decide (apr_CreatedAt value < instant (apr_ExpiresAt value)
                    ∧ instant (apr_ExpiresAt value) ≤ apr_CreatedAt value + fifteen_minutes)%Z.

Definition approval_closed (state : string) : bool :=
  bool_decide (state = "closed" ∨ state = "expired" ∨ state = "delivery_unknown").

Definition approval_closure_valid (value : InvocationRuntimeApproval) : bool :=
  if approval_closed (apr_State value) then
    bool_decide (apr_Contract value = InvocationRuntimeApprovalContract)
    && negb (IsZero (apr_ClosedAt value)) && bool_decide (apr_CreatedAt value ≤ instant (apr_ClosedAt value))%Z
    && validApprovalCloseReason (apr_CloseReason value)
    && negb (bool_decide (apr_State value = "expired" ∧ apr_CloseReason value ≠ "expired")
             || bool_decide (apr_CloseReason value = "expired"
                             ∧ (instant (apr_ClosedAt value) < instant (apr_ExpiresAt value))%Z))
    && negb (bool_decide (apr_State value = "closed" ∧ apr_CloseReason value = "expired"))
  else IsZero (apr_ClosedAt value) && bool_decide (apr_CloseReason value = "").

(** The [switch] over the state. *)
Definition approval_state_fields (value : InvocationRuntimeApproval) : bool :=
  let version v := bool_decide (apr_Version value = v) in
  let no_effective := bool_decide (apr_EffectiveDecision value = "") in
  let effective := validInvocationRuntimeApprovalDecision (apr_EffectiveDecision value) in
  let undelivered := IsZero (apr_DeliveredAt value) in
  if decide (apr_State value = "closed" ∨ apr_State value = "expired") then
    no_effective && undelivered
    && ((version 2%Z && approval_unresolved value) || (version 3%Z && approval_resolved value))
  else if decide (apr_State value = "delivery_unknown") then
    version 4%Z && approval_resolved value && effective && undelivered
  else if decide (apr_State value = "pending") then
    version 1%Z && approval_unresolved value && no_effective && undelivered
  else if decide (apr_State value = "resolved") then
    version 2%Z && approval_resolved value && no_effective && undelivered
  else if decide (apr_State value = "delivering") then
    version 3%Z && approval_resolved value && effective && undelivered
  else if decide (apr_State value = "delivered") then
    version 4%Z && approval_resolved value && effective && negb undelivered
    && bool_decide (instant (apr_ResolvedAt value) ≤ instant (apr_DeliveredAt value))%Z
  else false.

Definition validInvocationRuntimeApprovalState (value : InvocationRuntimeApproval) : bool :=
  approval_contract_valid value && approval_closure_valid value
  && negb (bool_decide (apr_EffectiveDecision value = "approve" ∧ apr_Decision value ≠ "approve"))
  && approval_state_fields value.

Definition approval_readable (domainID id : string) (value : InvocationRuntimeApproval) : bool :=
  bool_decide (apr_Contract value = InvocationRuntimeApprovalContract
               ∨ apr_Contract value = InvocationRuntimeApprovalLegacyContract)
  && bool_decide (apr_IsolationDomainID value = domainID ∧ apr_ID value = id
       ∧ apr_OperationID value ≠ "" ∧ apr_InvocationID value ≠ "" ∧ apr_ServiceID value ≠ ""
       ∧ apr_RevisionID value ≠ "" ∧ apr_EffectID value ≠ "" ∧ apr_SourceSequence value ≠ 0%Z)
  && validInvocationRuntimeApprovalAction (apr_RequestedAction value)
  && validInvocationRuntimeApprovalState value.

Definition getInvocationRuntimeApproval (domainID id : string) (d : db)
  : result (option InvocationRuntimeApproval) :=
  match rt_approvals (db_runtime d) !! (domainID, id) with
  | None => Ok None
  | Some value =>
      if approval_readable domainID id value then Ok (Some value) else Err ErrInvocationRuntimeApprovalConflict
  end.

Definition validInvocationRuntimeApprovalResolution (r : InvocationRuntimeApprovalResolution) : bool :=
  bool_decide (ars_IsolationDomainID r ≠ "") && approvalInvocationPattern (ars_InvocationID r)
  && approvalIDPattern (ars_ApprovalID r) && bool_decide (ars_ExpectedVersion r = 1%Z)
  && validInvocationRuntimeApprovalDecision (ars_Decision r)
  && validInvocationRuntimeApprovalActor (ars_ActorID r) && approvalCorrelationPattern (ars_CorrelationID r).

Definition sameInvocationRuntimeApprovalResolution (value : InvocationRuntimeApproval)
    (r : InvocationRuntimeApprovalResolution) : bool :=
  bool_decide (apr_Decision value = ars_Decision r ∧ apr_ResolvedBy value = ars_ActorID r
               ∧ apr_ResolutionCorrelationID value = ars_CorrelationID r).

(** ** Rows written *)

Definition put_approval (k : key) (value : InvocationRuntimeApproval) : db → db :=
  set_runtime (λ t, RuntimeTables (rt_attempts t) (<[k := value]> (rt_approvals t)) (rt_questions t)).

Definition pending_approval (target : InvocationRuntimeTarget) (effect : EffectRecord)
    (request : InvocationRuntimeApprovalRequest) (id : string) (now expiry : Z) : InvocationRuntimeApproval :=
  MkApproval InvocationRuntimeApprovalContract (rtg_IsolationDomainID target) id (rtg_OperationID target)
    (rtg_InvocationID target) (rtg_ServiceID target) (rtg_RevisionID target) (e_EffectID effect)
    (arq_SourceSequence request) (arq_RequestedAction request) "pending" 1 "" "" "" "" None None now now
    (Some expiry) None "".

Definition resolved_approval (r : InvocationRuntimeApprovalResolution) (now : Z) (v : InvocationRuntimeApproval)
  : InvocationRuntimeApproval :=
  MkApproval (apr_Contract v) (apr_IsolationDomainID v) (apr_ID v) (apr_OperationID v) (apr_InvocationID v)
    (apr_ServiceID v) (apr_RevisionID v) (apr_EffectID v) (apr_SourceSequence v) (apr_RequestedAction v)
    "resolved" (apr_Version v + 1) (ars_Decision r) (apr_EffectiveDecision v) (ars_ActorID r)
    (ars_CorrelationID r) (Some now) (apr_DeliveredAt v) (apr_CreatedAt v) now (apr_ExpiresAt v)
    (apr_ClosedAt v) (apr_CloseReason v).

Definition delivering_approval (effectiveDecision : string) (now : Z) (v : InvocationRuntimeApproval)
  : InvocationRuntimeApproval :=
  MkApproval (apr_Contract v) (apr_IsolationDomainID v) (apr_ID v) (apr_OperationID v) (apr_InvocationID v)
    (apr_ServiceID v) (apr_RevisionID v) (apr_EffectID v) (apr_SourceSequence v) (apr_RequestedAction v)
    "delivering" (apr_Version v + 1) (apr_Decision v) effectiveDecision (apr_ResolvedBy v)
    (apr_ResolutionCorrelationID v) (apr_ResolvedAt v) (apr_DeliveredAt v) (apr_CreatedAt v) now
    (apr_ExpiresAt v) (apr_ClosedAt v) (apr_CloseReason v).

Definition delivered_approval (now : Z) (v : InvocationRuntimeApproval) : InvocationRuntimeApproval :=
  MkApproval (apr_Contract v) (apr_IsolationDomainID v) (apr_ID v) (apr_OperationID v) (apr_InvocationID v)
    (apr_ServiceID v) (apr_RevisionID v) (apr_EffectID v) (apr_SourceSequence v) (apr_RequestedAction v)
    "delivered" (apr_Version v + 1) (apr_Decision v) (apr_EffectiveDecision v) (apr_ResolvedBy v)
    (apr_ResolutionCorrelationID v) (apr_ResolvedAt v) (Some now) (apr_CreatedAt v) now
    (apr_ExpiresAt v) (apr_ClosedAt v) (apr_CloseReason v).

Definition closed_approval (state reason : string) (now : Z) (v : InvocationRuntimeApproval)
  : InvocationRuntimeApproval :=
  MkApproval (apr_Contract v) (apr_IsolationDomainID v) (apr_ID v) (apr_OperationID v) (apr_InvocationID v)
    (apr_ServiceID v) (apr_RevisionID v) (apr_EffectID v) (apr_SourceSequence v) (apr_RequestedAction v)
    state (apr_Version v + 1) (apr_Decision v) (apr_EffectiveDecision v) (apr_ResolvedBy v)
    (apr_ResolutionCorrelationID v) (apr_ResolvedAt v) (apr_DeliveredAt v) (apr_CreatedAt v) now
    (apr_ExpiresAt v) (Some now) reason.

(** [UPDATE ... WHERE isolation_domain_id = $1 AND id = $2 AND <where>]: the
    number of rows is one or none. *)
Definition update_approval (k : key) (where_ : db → InvocationRuntimeApproval → bool)
    (f : InvocationRuntimeApproval → InvocationRuntimeApproval) : tx bool := λ d,
  match rt_approvals (db_runtime d) !! k with
  | Some v => if where_ d v then Ok (put_approval k (f v) d, true) else Ok (d, false)
  | None => Ok (d, false)
  end.

(** [(expires_at IS NULL OR expires_at > clock_timestamp()) AND EXISTS (live attempt)] *)
Definition approval_live (d : db) (now : Z) (v : InvocationRuntimeApproval) : bool :=
  match apr_ExpiresAt v with None => true | Some t => bool_decide (now < t)%Z end
  && live_attempt d (apr_IsolationDomainID v) (apr_OperationID v) (apr_InvocationID v) (apr_EffectID v) now.

Definition activeRuntimeApproval (now : Z) (v : InvocationRuntimeApproval) : tx unit := λ d,
  match activeRuntimeInteraction (apr_IsolationDomainID v) (apr_OperationID v) (apr_InvocationID v)
          (apr_EffectID v) now d with
  | Err e => Err (if is_err e ErrLeaseLost then ErrInvocationRuntimeApprovalConflict else e)
  | ok => ok
  end.

(** What the three conditional updates answer when no row matched. *)
Definition not_updated {A} (now : Z) (v : InvocationRuntimeApproval) : tx A :=
  activeRuntimeApproval now v;;
  if IsZero (apr_ExpiresAt v) then fail ErrInvocationRuntimeApprovalConflict
  else fail ErrInvocationRuntimeApprovalExpired.

(** A row that is expected: an absent one is the error [missing]. *)
Definition existing_approval (domainID id : string) (missing : error) : tx InvocationRuntimeApproval :=
  found ← query (getInvocationRuntimeApproval domainID id);
  match found with None => fail missing | Some v => mret v end.

(** The second read of a row the transaction has just written; it is there. *)
Definition reread_approval (domainID id : string) : tx InvocationRuntimeApproval :=
  existing_approval domainID id ErrInvocationRuntimeApprovalMissing.

(** ** Requests *)

Definition recordInvocationRuntimeApprovalEvent (s : session) (claim : OperationClaim)
    (target : InvocationRuntimeTarget) (v : InvocationRuntimeApproval) : tx unit :=
  recordInvocationRuntimeInteractionEvent s claim target (apr_SourceSequence v) "interaction.approval.requested"
    (json_map [("approvalId", JStr (apr_ID v)); ("action", JStr (apr_RequestedAction v)); ("version", JInt 1)]).

Definition approval_id (target : InvocationRuntimeTarget) (request : InvocationRuntimeApprovalRequest) : string :=
  Identity.Derived "apr" (rtg_IsolationDomainID target +:+ ":" +:+ rtg_OperationID target +:+ ":"
                          +:+ pretty (arq_SourceSequence request)).

Definition same_request (existing : InvocationRuntimeApproval) (target : InvocationRuntimeTarget)
    (effect : EffectRecord) (request : InvocationRuntimeApprovalRequest) : bool :=
  bool_decide (apr_OperationID existing = rtg_OperationID target
    ∧ apr_InvocationID existing = rtg_InvocationID target ∧ apr_ServiceID existing = rtg_ServiceID target
    ∧ apr_RevisionID existing = rtg_RevisionID target ∧ apr_EffectID existing = e_EffectID effect
    ∧ apr_SourceSequence existing = arq_SourceSequence request
    ∧ apr_RequestedAction existing = arq_RequestedAction request
    ∧ (arq_ExpiresAt request = None ∨ apr_ExpiresAt existing = arq_ExpiresAt request)).

Definition approval_expiry (request : InvocationRuntimeApprovalRequest) (now deadline : Z) : Z :=
  match arq_ExpiresAt request with
  | Some expiry => expiry
  | None => Z.min (now + fifteen_minutes) deadline
  end.

(** The [CHECK] clauses of the table on identifiers and on the source sequence, which is
    a [bigint]. *)
Definition approval_columns (value : InvocationRuntimeApproval) : bool :=
  questionScopePattern (apr_IsolationDomainID value) && approvalIDPattern (apr_ID value)
  && match_prefixed "op_" is_id_char 20 32 (apr_OperationID value) && approvalInvocationPattern (apr_InvocationID value)
  && match_prefixed "svc_" is_id_char 20 32 (apr_ServiceID value) && match_prefixed "rev_" is_id_char 20 32 (apr_RevisionID value)
  && match_prefixed "eff_" is_id_char 20 32 (apr_EffectID value)
  && (0 <? apr_SourceSequence value)%Z && (apr_SourceSequence value <=? 9223372036854775807)%Z.

(** [INSERT INTO invocation_runtime_approvals]: one row per operation and source sequence. *)
Definition insert_approval (value : InvocationRuntimeApproval) : tx unit := λ d,
  if negb (approval_columns value) then Err (EWrap "persist invocation runtime approval request" (ENew "check violation"))
  else if existsb (λ kv, bool_decide (kv.1.1 = apr_IsolationDomainID value
                ∧ (kv.1.2 = apr_ID value ∨ (apr_OperationID kv.2 = apr_OperationID value
                                            ∧ apr_SourceSequence kv.2 = apr_SourceSequence value))))
       (map_to_list (rt_approvals (db_runtime d)))
  then Err (unique_violation "persist invocation runtime approval request")
  else Ok (put_approval (apr_IsolationDomainID value, apr_ID value) value d, tt).

Definition RecordInvocationRuntimeApprovalRequest (s : session) (claim : OperationClaim) (effect : EffectRecord)
    (target : InvocationRuntimeTarget) (request : InvocationRuntimeApprovalRequest)
  : tx InvocationRuntimeApproval :=
  reject_if (negb (validInvocationRuntimeClaim claim) || negb (validInvocationRuntimeAttempt claim effect)
             || negb (invocationRuntimeTargetMatchesApproval target claim)
             || bool_decide (arq_SourceSequence request = 0%Z)
             || negb (validInvocationRuntimeApprovalAction (arq_RequestedAction request)))
    ErrInvocationRuntimeApprovalInvalid;;
  lockRuntimeInteractionAttempt s claim effect;;
  actual ← query (getInvocationRuntimeTarget (rtg_IsolationDomainID target) (rtg_OperationID target));
  reject_if (negb (same_target actual target)) ErrInvocationRuntimeApprovalConflict;;
  let id := approval_id target request in
  found ← query (getInvocationRuntimeApproval (rtg_IsolationDomainID target) id);
  match found with
  | Some existing =>
      reject_if (negb (same_request existing target effect request)) ErrInvocationRuntimeApprovalConflict;;
      recordInvocationRuntimeApprovalEvent (later 2 s) claim target existing;;
      mret existing
  | None =>
      deadline ← query (λ d, match db_invocation_ops d !! claim_key claim with
                             | Some op => Ok (op_deadline_at op)
                             | None => Err ErrNoRows
                             end);
      let now := ses_clock s 2 in
      let expiry := approval_expiry request now deadline in
      reject_if (negb (bool_decide (now < expiry)%Z) || bool_decide (now + fifteen_minutes < expiry)%Z
                 || bool_decide (deadline < expiry)%Z) ErrInvocationRuntimeApprovalExpired;;
      insert_approval (pending_approval target effect request id now expiry);;
      v ← reread_approval (rtg_IsolationDomainID target) id;
      recordInvocationRuntimeApprovalEvent (later 3 s) claim target v;;
      mret v
  end.

Definition GetInvocationRuntimeApproval (domainID approvalID : string) (d : db)
  : result InvocationRuntimeApproval :=
  if bool_decide (domainID = "") || negb (approvalIDPattern approvalID) then Err ErrInvocationRuntimeApprovalInvalid
  else match getInvocationRuntimeApproval domainID approvalID d with
       | Err e => Err e
       | Ok None => Err ErrInvocationRuntimeApprovalMissing
       | Ok (Some v) => Ok v
       end.

(** ** Resolution *)

Definition recordInvocationRuntimeApprovalResolutionEvent (v : InvocationRuntimeApproval)
    (r : InvocationRuntimeApprovalResolution) (now : Z) : tx unit :=
  let payload := json_map [("approvalId", JStr (apr_ID v)); ("decision", JStr (ars_Decision r));
                           ("version", JInt (ars_ExpectedVersion r + 1))] in
  reject_if (maximumInvocationRuntimeEventPayloadBytes <? go_len (marshal payload))%Z
    ErrInvocationRuntimeEventInvalid;;
  sequence ← gets (λ d, next_sequence (apr_IsolationDomainID v) (apr_InvocationID v) (db_events d));
  insert_event "persist invocation approval resolution event"
    (EventRow (apr_IsolationDomainID v) (apr_InvocationID v)
       (Identity.Derived "evt" (apr_InvocationID v +:+ ":" +:+ apr_ID v +:+ ":resolved:v1"))
       sequence "interaction.approval.resolved" now now (ars_CorrelationID r) (ars_ActorID r)
       (apr_ServiceID v) (apr_RevisionID v) payload None).

(** The approval shown to the authoriser. *)
Definition candidate_approval (v : InvocationRuntimeApproval) (r : InvocationRuntimeApprovalResolution)
  : InvocationRuntimeApproval :=
  MkApproval (apr_Contract v) (apr_IsolationDomainID v) (apr_ID v) (apr_OperationID v) (apr_InvocationID v)
    (apr_ServiceID v) (apr_RevisionID v) (apr_EffectID v) (apr_SourceSequence v) (apr_RequestedAction v)
    (apr_State v) (apr_Version v) (ars_Decision r) (apr_EffectiveDecision v) (ars_ActorID r)
    (ars_CorrelationID r) (apr_ResolvedAt v) (apr_DeliveredAt v) (apr_CreatedAt v) (apr_UpdatedAt v)
    (apr_ExpiresAt v) (apr_ClosedAt v) (apr_CloseReason v).

(** A nil authoriser is [None]. *)
Definition authorize_entry (authorize : option InvocationRuntimeApprovalEntryAuthorizer)
    (v : InvocationRuntimeApproval) : tx unit :=
  match authorize with
  | None => mret tt
  | Some check => match check v with Some e => fail e | None => mret tt end
  end.

Definition resolve_pending (s : session) (r : InvocationRuntimeApprovalResolution)
    (authorize : option InvocationRuntimeApprovalEntryAuthorizer) (v : InvocationRuntimeApproval)
  : tx InvocationRuntimeApproval :=
  let k := (ars_IsolationDomainID r, ars_ApprovalID r) in
  reject_if (bool_decide (apr_Version v ≠ ars_ExpectedVersion r)) ErrInvocationRuntimeApprovalConflict;;
  activeRuntimeApproval (ses_clock s 1) v;;
  authorize_entry authorize (candidate_approval v r);;
  activeRuntimeApproval (ses_clock s 2) v;;
  let now := ses_clock s 3 in
  updated ← update_approval k
    (λ d row, bool_decide (apr_State row = "pending" ∧ apr_Version row = ars_ExpectedVersion r)
              && approval_live d (ses_clock s 4) row) (resolved_approval r now);
  if negb updated then not_updated (ses_clock s 5) v else
  insert_audit (AuditRow (Identity.New (ses_random s 0) "aud") (apr_IsolationDomainID v) (ars_ActorID r)
    "invocation-approval.resolve" "invocation-approval" (apr_ID v) "accepted" (ars_CorrelationID r) None
    (json_map [("decision", JStr (ars_Decision r)); ("version", JInt (ars_ExpectedVersion r + 1))]) now);;
  recordInvocationRuntimeApprovalResolutionEvent v r now;;
  reread_approval (ars_IsolationDomainID r) (ars_ApprovalID r).

Definition resolveInvocationRuntimeApproval (s : session) (r : InvocationRuntimeApprovalResolution)
    (authorize : option InvocationRuntimeApprovalEntryAuthorizer) : tx InvocationRuntimeApproval :=
  invocation ← gets (λ d, db_invocations d !! (ars_IsolationDomainID r, ars_InvocationID r));
  reject_if (negb (bool_decide (is_Some invocation))) ErrInvocationRuntimeApprovalMissing;;
  v ← existing_approval (ars_IsolationDomainID r) (ars_ApprovalID r) ErrInvocationRuntimeApprovalMissing;
  reject_if (bool_decide (apr_InvocationID v ≠ ars_InvocationID r)) ErrInvocationRuntimeApprovalMissing;;
  reject_if (approval_closed (apr_State v)) ErrInvocationRuntimeApprovalExpired;;
  reject_if (bool_decide (apr_State v = "pending") && negb (IsZero (apr_ExpiresAt v))
             && negb (bool_decide (ses_clock s 0 < instant (apr_ExpiresAt v))%Z))
    ErrInvocationRuntimeApprovalExpired;;
  if decide (apr_State v ≠ "pending") then
    reject_if (negb (sameInvocationRuntimeApprovalResolution v r)) ErrInvocationRuntimeApprovalConflict;;
    authorize_entry authorize (candidate_approval v r);;
    mret v
  else resolve_pending s r authorize v.

Definition ResolveInvocationRuntimeApproval (s : session) (r : InvocationRuntimeApprovalResolution)
  : tx InvocationRuntimeApproval :=
  reject_if (negb (validInvocationRuntimeApprovalResolution r)) ErrInvocationRuntimeApprovalInvalid;;
  resolveInvocationRuntimeApproval s r None.

Definition InvocationApprovalSchemaV1 := "dataground.invocation-approval/v1".
Definition InvocationApprovalSchemaV2 := "dataground.invocation-approval/v2".

(** The public view, encoded: [publicInvocationApproval] fills
    [domain.InvocationApproval], whose fields are printed in this order. *)
Definition publicInvocationApproval (v : InvocationRuntimeApproval) : json :=
  let v2 := bool_decide (apr_Contract v = InvocationRuntimeApprovalContract) in
  JObj ((if v2 then [("expiresAt", time_json (instant (apr_ExpiresAt v)))] ++ omit_time "closedAt" (apr_ClosedAt v)
                    ++ omit_string "closeReason" (apr_CloseReason v) else [])
        ++ [("schemaVersion", JStr (if v2 then InvocationApprovalSchemaV2 else InvocationApprovalSchemaV1));
            ("id", JStr (apr_ID v)); ("isolationDomainId", JStr (apr_IsolationDomainID v));
            ("invocationId", JStr (apr_InvocationID v)); ("requestedAction", JStr (apr_RequestedAction v));
            ("state", JStr (apr_State v)); ("version", JInt (apr_Version v))]
        ++ omit_string "decision" (apr_Decision v) ++ omit_string "resolvedBy" (apr_ResolvedBy v)
        ++ omit_time "resolvedAt" (apr_ResolvedAt v)
        ++ [("createdAt", time_json (apr_CreatedAt v)); ("updatedAt", time_json (apr_UpdatedAt v))]).

Definition GetInvocationApproval (domainID invocationID approvalID : string) (d : db) : result json :=
  if bool_decide (domainID = "") || negb (approvalInvocationPattern invocationID) || negb (approvalIDPattern approvalID)
  then Err ErrInvocationRuntimeApprovalInvalid
  else match getInvocationRuntimeApproval domainID approvalID d with
       | Err e => Err e
       | Ok None => Err ErrInvocationRuntimeApprovalMissing
       | Ok (Some v) =>
           if decide (apr_InvocationID v ≠ invocationID) then Err ErrInvocationRuntimeApprovalMissing
           else Ok (publicInvocationApproval v)
       end.

Definition ResolveInvocationRuntimeApprovalCommand (e : env) (s : session) (i : Idempotency)
    (r : InvocationRuntimeApprovalResolution) (authorize : InvocationRuntimeApprovalEntryAuthorizer) (d : db)
  : result (db * CommandResult) :=
  if negb (validInvocationRuntimeApprovalResolution r)
     || bool_decide (id_IsolationDomainID i ≠ ars_IsolationDomainID r) then Err ErrInvocationRuntimeApprovalInvalid
  else execute e i (λ _ d,
         '(d, v) ← resolveInvocationRuntimeApproval s r (Some authorize) d;
         Ok (StatusOK, publicInvocationApproval v, d)) d.

(** ** Delivery *)

Definition approval_of_claim (claim : OperationClaim) (effect : EffectRecord) (v : InvocationRuntimeApproval) : bool :=
  bool_decide (apr_OperationID v = c_ID claim ∧ apr_EffectID v = e_EffectID effect).

Definition BeginInvocationRuntimeApprovalDelivery (s : session) (claim : OperationClaim) (effect : EffectRecord)
    (approvalID effectiveDecision : string) : tx InvocationRuntimeApproval :=
  reject_if (negb (validInvocationRuntimeClaim claim) || negb (validInvocationRuntimeAttempt claim effect)
             || negb (approvalIDPattern approvalID) || negb (validInvocationRuntimeApprovalDecision effectiveDecision))
    ErrInvocationRuntimeApprovalInvalid;;
  lockRuntimeInteractionAttempt s claim effect;;
  v ← existing_approval (c_IsolationDomainID claim) approvalID ErrInvocationRuntimeApprovalMissing;
  reject_if (negb (approval_of_claim claim effect v)) ErrInvocationRuntimeApprovalConflict;;
  reject_if (bool_decide (apr_State v = "closed" ∨ apr_State v = "expired")) ErrInvocationRuntimeApprovalExpired;;
  reject_if (bool_decide (apr_State v = "delivering" ∨ apr_State v = "delivery_unknown"))
    ErrInvocationRuntimeApprovalDeliveryAmbiguous;;
  reject_if (bool_decide (apr_State v = "delivered")) ErrInvocationRuntimeApprovalConflict;;
  reject_if (bool_decide (apr_State v ≠ "resolved" ∨ apr_EffectiveDecision v ≠ ""
                          ∨ (effectiveDecision = "approve" ∧ apr_Decision v ≠ "approve")))
    ErrInvocationRuntimeApprovalConflict;;
  let now := ses_clock s 2 in
  updated ← update_approval (c_IsolationDomainID claim, approvalID)
    (λ d row, bool_decide (apr_State row = "resolved") && approval_live d (ses_clock s 3) row)
    (delivering_approval effectiveDecision now);
  if negb updated then not_updated (ses_clock s 4) v
  else reread_approval (c_IsolationDomainID claim) approvalID.

Definition CompleteInvocationRuntimeApprovalDelivery (s : session) (claim : OperationClaim) (effect : EffectRecord)
    (approvalID : string) : tx InvocationRuntimeApproval :=
  reject_if (negb (validInvocationRuntimeClaim claim) || negb (validInvocationRuntimeAttempt claim effect)
             || negb (approvalIDPattern approvalID)) ErrInvocationRuntimeApprovalInvalid;;
  lockRuntimeInteractionAttempt s claim effect;;
  v ← existing_approval (c_IsolationDomainID claim) approvalID ErrInvocationRuntimeApprovalMissing;
  reject_if (negb (approval_of_claim claim effect v)) ErrInvocationRuntimeApprovalConflict;;
  if decide (apr_State v = "delivered") then mret v else
  reject_if (bool_decide (apr_State v ≠ "delivering" ∨ apr_EffectiveDecision v = ""))
    ErrInvocationRuntimeApprovalConflict;;
  let now := ses_clock s 2 in
  updated ← update_approval (c_IsolationDomainID claim, approvalID)
    (λ d row, bool_decide (apr_State row = "delivering") && approval_live d (ses_clock s 3) row)
    (delivered_approval now);
  if negb updated then not_updated (ses_clock s 4) v
  else reread_approval (c_IsolationDomainID claim) approvalID.

(** ** Closing and expiry *)

Definition recordRuntimeApprovalClosure (s : session) (v : InvocationRuntimeApproval) (actor correlation : string)
  : tx unit :=
  let event := "invocation-approval." +:+ apr_State v in
  insert_audit (AuditRow (Identity.New (ses_random s 0) "aud") (apr_IsolationDomainID v) actor event
    "invocation-approval" (apr_ID v) "accepted" correlation (Some (apr_OperationID v))
    (json_map [("state", JStr (apr_State v)); ("version", JInt (apr_Version v)); ("reason", JStr (apr_CloseReason v))])
    (apr_UpdatedAt v));;
  insert_outbox "approval closure"
    (Identity.Derived "out" (apr_IsolationDomainID v +:+ ":" +:+ apr_ID v +:+ ":" +:+ pretty (apr_Version v)))
    (OutboxRow (apr_IsolationDomainID v) "invocation-approval" (apr_ID v) event
       (json_map [("approvalId", JStr (apr_ID v)); ("state", JStr (apr_State v)); ("version", JInt (apr_Version v))])
       correlation "pending" 0 (apr_UpdatedAt v) None 0 None (apr_UpdatedAt v) None);;
  recordRuntimeInteractionOutcome s
    (MkOutcome (apr_IsolationDomainID v) (apr_InvocationID v) (apr_ServiceID v) (apr_RevisionID v) (apr_ID v)
       "approval" (apr_State v) actor correlation (apr_CloseReason v) (apr_Version v) (apr_UpdatedAt v)
       (apr_ClosedAt v)).

(** The state a closed approval ends in, [None] for the states that stay. *)
Definition closing_state (state reason : string) : result (option string) :=
  if decide (state = "pending" ∨ state = "resolved") then
    Ok (Some (if decide (reason = "expired") then "expired" else "closed"))
  else if decide (state = "delivering") then Ok (Some "delivery_unknown")
  else if approval_closed state || bool_decide (state = "delivered") then Ok None
  else Err ErrInvocationRuntimeApprovalConflict.

Definition closeRuntimeApproval (s : session) (v : InvocationRuntimeApproval) (reason actor correlation : string)
  : tx InvocationRuntimeApproval :=
  let now := ses_clock s 0 in
  let reason := if decide (instant (apr_ExpiresAt v) ≤ now)%Z then "expired" else reason in
  next ← query (λ _, closing_state (apr_State v) reason);
  match next with
  | None => mret v
  | Some state =>
      update_approval (apr_IsolationDomainID v, apr_ID v) (λ _ _, true) (closed_approval state reason now);;
      v ← reread_approval (apr_IsolationDomainID v) (apr_ID v);
      recordRuntimeApprovalClosure (later 1 s) v actor correlation;;
      mret v
  end.

Definition CloseInvocationRuntimeApproval (s : session) (claim : OperationClaim) (effect : EffectRecord)
    (id reason : string) : tx InvocationRuntimeApproval :=
  reject_if (negb (approvalIDPattern id) || negb (validInvocationRuntimeClaim claim)
             || negb (validInvocationRuntimeAttempt claim effect)
             || bool_decide (reason ≠ "runtime-request-cleared" ∧ reason ≠ "runtime-ended" ∧ reason ≠ "cancelled"))
    ErrInvocationRuntimeApprovalInvalid;;
  lockRuntimeInteractionAttempt s claim effect;;
  v ← existing_approval (c_IsolationDomainID claim) id ErrInvocationRuntimeApprovalMissing;
  reject_if (bool_decide (apr_Contract v ≠ InvocationRuntimeApprovalContract ∨ apr_OperationID v ≠ c_ID claim
                          ∨ apr_InvocationID v ≠ c_ResourceID claim ∨ apr_EffectID v ≠ e_EffectID effect))
    ErrInvocationRuntimeApprovalConflict;;
  closeRuntimeApproval (later 2 s) v reason (c_ActorID claim) (c_CorrelationID claim).

(** [SELECT id ... ORDER BY expires_at, id LIMIT $2] among the locked invocations. *)
Definition expiring_ids (locks : row_locks) (scope : string) (limit : nat) (now : Z) (invocations : list string) (d : db) : list string :=
  let rows := filter (λ kv, apr_InvocationID kv.2 ∈ invocations ∧ lk_interactions locks kv.1.2 = false) (due_approvals scope now d) in
  snd <$> take limit (merge_sort due_le ((λ kv, (instant (apr_ExpiresAt kv.2), kv.1.2)) <$> rows)).

(** The loop over the selected identifiers; each turn has its own statements. *)
Fixpoint expire_each (s : session) (scope actor correlation : string) (ids : list string) : tx unit :=
  match ids with
  | [] => mret tt
  | id :: rest =>
      v ← existing_approval scope id ErrInvocationRuntimeApprovalConflict;
      closeRuntimeApproval s v "expired" actor correlation;;
      expire_each (later 4 s) scope actor correlation rest
  end.

(** [locks]: the rows other transactions hold while the sweep selects. *)
Definition ExpireInvocationRuntimeApprovals (s : session) (locks : row_locks) (scope actor correlation : string) (limit : Z) : tx nat :=
  reject_if (negb (questionScopePattern scope) || negb (validInvocationRuntimeApprovalActor actor)
             || negb (approvalCorrelationPattern correlation) || (limit <? 1)%Z || (100 <? limit)%Z)
    ErrInvocationRuntimeApprovalInvalid;;
  invocations ← query (lockDueRuntimeInteractionInvocations locks scope "approval" (Z.to_nat limit) (ses_clock s 0));
  ids ← gets (expiring_ids locks scope (Z.to_nat limit) (ses_clock s 1) invocations);
  expire_each (later 2 s) scope actor correlation ids;;
  mret (length ids).
