(* ===== verification/RuntimeQuestion.v ===== *)
(** * Runtime questions

    [internal/persistence/runtime_question.go], [runtime_question_answer.go],
    [runtime_question_close.go] and [runtime_question_command.go]: a running agent
    asks the user up to three questions; one set of answers is accepted; the
    worker delivers it to the runtime once; unanswered questions expire.  The JSON
    columns hold the decoded prompts and answers; no answers is [NULL]. *)
From stdpp Require Import pretty.
From S2P Require Import Prelude.
From S2P Require Import GoStrings.
From S2P Require Import Sha256.
From S2P Require Import GoJson.
From S2P Require Import GoTime.
From S2P Require Import Domain.
From S2P Require Import Questions.
From S2P Require Import RuntimeTables.
From S2P Require Import Database.
From S2P Require Import OperationStore.
From S2P Require Import Commands.
From S2P Require Import RuntimeInteraction.

Definition InvocationRuntimeQuestionContract := "dataground.invocation-runtime-question/v1".

Definition ErrInvocationRuntimeQuestionInvalid := ESentinel "persistence.ErrInvocationRuntimeQuestionInvalid".
Definition ErrInvocationRuntimeQuestionMissing := ESentinel "persistence.ErrInvocationRuntimeQuestionMissing".
Definition ErrInvocationRuntimeQuestionConflict := ESentinel "persistence.ErrInvocationRuntimeQuestionConflict".
Definition ErrInvocationRuntimeQuestionExpired := ESentinel "persistence.ErrInvocationRuntimeQuestionExpired".
Definition ErrInvocationRuntimeQuestionDeliveryAmbiguous :=
  ESentinel "persistence.ErrInvocationRuntimeQuestionDeliveryAmbiguous".

Definition questionIDPattern : string → bool := match_prefixed "qst_" is_id_char 20 32.

Record InvocationRuntimeQuestionRequest := MkQuestionRequest {
  qrq_SourceSequence : Z; qrq_Prompts : list QuestionPrompt; qrq_ExpiresAt : option Z }.

Record InvocationRuntimeQuestionAnswer := MkQuestionAnswer {
  qan_IsolationDomainID : string; qan_InvocationID : string; qan_QuestionID : string;
  qan_ExpectedVersion : Z; qan_Answers : list QuestionAnswer; qan_ActorID : string;
  qan_CorrelationID : string }.

Definition InvocationQuestionEntry := "entry".
Definition InvocationQuestionEffect := "effect".

(** A policy decision on one question at the entry or the effect boundary. *)
Definition InvocationRuntimeQuestionAuthorizer : Type := InvocationRuntimeQuestion → string → option error.

Definition prompts_json (prompts : list QuestionPrompt) : string := marshal (JArr (prompt_json <$> prompts)).
Definition answers_json (answers : list QuestionAnswer) : string := marshal (JArr (answer_json <$> answers)).

(** [sameQuestionJSON] at its two types. *)
Definition same_prompts (left right : list QuestionPrompt) : bool :=
  bool_decide (prompts_json left = prompts_json right).
Definition same_answers (left right : list QuestionAnswer) : bool :=
  bool_decide (answers_json left = answers_json right).

(** ** Reading *)

Definition question_readable (v : InvocationRuntimeQuestion) : bool :=
  is_ok (ValidateQuestionPrompts (qst_Prompts v))
  && (bool_decide (qst_Answers v = []) || is_ok (ValidateQuestionAnswers (qst_Prompts v) (qst_Answers v))).

Definition getInvocationRuntimeQuestion (scope id : string) (d : db) : result (option InvocationRuntimeQuestion) :=
  match rt_questions (db_runtime d) !! (scope, id) with
  | None => Ok None
  | Some v => if question_readable v then Ok (Some v) else Err ErrInvocationRuntimeQuestionInvalid
  end.

Definition GetInvocationRuntimeQuestion (scope invocationID id : string) (d : db) : result InvocationRuntimeQuestion :=
  if negb (questionScopePattern scope) || negb (approvalInvocationPattern invocationID) || negb (questionIDPattern id)
  then Err ErrInvocationRuntimeQuestionInvalid
  else match getInvocationRuntimeQuestion scope id d with
       | Err e => Err e
       | Ok None => Err ErrInvocationRuntimeQuestionMissing
       | Ok (Some v) =>
           if decide (qst_InvocationID v ≠ invocationID) then Err ErrInvocationRuntimeQuestionMissing else Ok v
       end.

Definition existing_question (scope id : string) (missing : error) : tx InvocationRuntimeQuestion :=
  found ← query (getInvocationRuntimeQuestion scope id);
  match found with None => fail missing | Some v => mret v end.

(** The second read of a row the transaction has just written; it is there. *)
Definition reread_question (scope id : string) : tx InvocationRuntimeQuestion :=
  existing_question scope id ErrInvocationRuntimeQuestionMissing.

(** ** Rows written *)

Definition put_question (k : key) (value : InvocationRuntimeQuestion) : db → db :=
  set_runtime (λ t, RuntimeTables (rt_attempts t) (rt_approvals t) (<[k := value]> (rt_questions t))).

(** The columns an update of a question changes. *)
Definition change_question (v : InvocationRuntimeQuestion) (state : string) (answers : list QuestionAnswer)
    (answeredBy answerCorrelationID : string) (answeredAt startedAt deliveredAt closedAt : option Z)
    (closeReason : string) (now : Z) : InvocationRuntimeQuestion :=
  MkQuestion (qst_Contract v) (qst_IsolationDomainID v) (qst_ID v) (qst_OperationID v) (qst_InvocationID v)
    (qst_ServiceID v) (qst_RevisionID v) (qst_EffectID v) (qst_SourceSequence v) (qst_CorrelationID v)
    (qst_RequestedBy v) (qst_Prompts v) (qst_ExpiresAt v) state (qst_Version v + 1) answers answeredBy
    answerCorrelationID answeredAt startedAt deliveredAt closedAt closeReason (qst_CreatedAt v) now.

Definition pending_question (target : InvocationRuntimeTarget) (effect : EffectRecord)
    (request : InvocationRuntimeQuestionRequest) (id : string) (now expiry : Z) : InvocationRuntimeQuestion :=
  MkQuestion InvocationRuntimeQuestionContract (rtg_IsolationDomainID target) id (rtg_OperationID target)
    (rtg_InvocationID target) (rtg_ServiceID target) (rtg_RevisionID target) (e_EffectID effect)
    (qrq_SourceSequence request) (rtg_CorrelationID target) (rtg_ActorID target) (qrq_Prompts request) expiry
    "pending" 1 [] "" "" None None None None "" now now.

Definition answered_question (a : InvocationRuntimeQuestionAnswer) (now : Z) (v : InvocationRuntimeQuestion) :=
  change_question v "answered" (qan_Answers a) (qan_ActorID a) (qan_CorrelationID a) (Some now)
    (qst_DeliveryStartedAt v) (qst_DeliveredAt v) (qst_ClosedAt v) (qst_CloseReason v) now.

Definition delivering_question (now : Z) (v : InvocationRuntimeQuestion) :=
  change_question v "delivering" (qst_Answers v) (qst_AnsweredBy v) (qst_AnswerCorrelationID v) (qst_AnsweredAt v)
    (Some now) (qst_DeliveredAt v) (qst_ClosedAt v) (qst_CloseReason v) now.

Definition delivered_question (now : Z) (v : InvocationRuntimeQuestion) :=
  change_question v "delivered" (qst_Answers v) (qst_AnsweredBy v) (qst_AnswerCorrelationID v) (qst_AnsweredAt v)
    (qst_DeliveryStartedAt v) (Some now) (qst_ClosedAt v) (qst_CloseReason v) now.

Definition closed_question (state reason : string) (now : Z) (v : InvocationRuntimeQuestion) :=
  change_question v state (qst_Answers v) (qst_AnsweredBy v) (qst_AnswerCorrelationID v) (qst_AnsweredAt v)
    (qst_DeliveryStartedAt v) (qst_DeliveredAt v) (Some now) reason now.

Definition update_question (k : key) (where_ : db → InvocationRuntimeQuestion → bool)
    (f : InvocationRuntimeQuestion → InvocationRuntimeQuestion) : tx bool := λ d,
  match rt_questions (db_runtime d) !! k with
  | Some v => if where_ d v then Ok (put_question k (f v) d, true) else Ok (d, false)
  | None => Ok (d, false)
  end.

Definition question_live (d : db) (now : Z) (v : InvocationRuntimeQuestion) : bool :=
  live_attempt d (qst_IsolationDomainID v) (qst_OperationID v) (qst_InvocationID v) (qst_EffectID v) now.

Definition activeRuntimeQuestion (now : Z) (v : InvocationRuntimeQuestion) : tx unit := λ d,
  match activeRuntimeInteraction (qst_IsolationDomainID v) (qst_OperationID v) (qst_InvocationID v)
          (qst_EffectID v) now d with
  | Err e => Err (if is_err e ErrLeaseLost then ErrInvocationRuntimeQuestionConflict else e)
  | ok => ok
  end.

Definition recordRuntimeQuestionChange (s : session) (v : InvocationRuntimeQuestion)
    (action actor correlation : string) (now : Z) : tx unit :=
  let event := "invocation-question." +:+ action in
  insert_audit (AuditRow (Identity.New (ses_random s 0) "aud") (qst_IsolationDomainID v) actor event
    "invocation-question" (qst_ID v) "accepted" correlation (Some (qst_OperationID v))
    (json_map [("state", JStr (qst_State v)); ("version", JInt (qst_Version v))]) now);;
  insert_outbox "runtime question change"
    (Identity.Derived "out" (qst_IsolationDomainID v +:+ ":" +:+ qst_ID v +:+ ":" +:+ pretty (qst_Version v)))
    (OutboxRow (qst_IsolationDomainID v) "invocation-question" (qst_ID v) event
       (json_map [("questionId", JStr (qst_ID v)); ("state", JStr (qst_State v)); ("version", JInt (qst_Version v))])
       correlation "pending" 0 now None 0 None now None);;
  if decide (action = "answered" ∨ action = "closed" ∨ action = "expired" ∨ action = "delivery_unknown") then
    recordRuntimeInteractionOutcome s
      (MkOutcome (qst_IsolationDomainID v) (qst_InvocationID v) (qst_ServiceID v) (qst_RevisionID v) (qst_ID v)
         "question" (qst_State v) actor correlation (qst_CloseReason v) (qst_Version v) now (qst_ClosedAt v))
  else mret tt.

(** ** Requests *)

Definition recordRuntimeQuestionEvent (s : session) (claim : OperationClaim) (target : InvocationRuntimeTarget)
    (v : InvocationRuntimeQuestion) : tx unit :=
  recordInvocationRuntimeInteractionEvent s claim target (qst_SourceSequence v) "interaction.question.requested"
    (json_map [("questionId", JStr (qst_ID v)); ("version", JInt 1);
               ("expiresAt", JStr (FormatRFC3339Nano (qst_ExpiresAt v)))]).

Definition question_id (target : InvocationRuntimeTarget) (request : InvocationRuntimeQuestionRequest) : string :=
  Identity.Derived "qst" (rtg_IsolationDomainID target +:+ ":" +:+ rtg_OperationID target +:+ ":"
                          +:+ pretty (qrq_SourceSequence request)).

Definition insert_question (value : InvocationRuntimeQuestion) : tx unit := λ d,
  if existsb (λ kv, bool_decide (kv.1.1 = qst_IsolationDomainID value
                ∧ (kv.1.2 = qst_ID value ∨ (qst_OperationID kv.2 = qst_OperationID value
                                            ∧ qst_SourceSequence kv.2 = qst_SourceSequence value))))
       (map_to_list (rt_questions (db_runtime d)))
  then Err (unique_violation "persist runtime question")
  else Ok (put_question (qst_IsolationDomainID value, qst_ID value) value d, tt).

Definition RecordInvocationRuntimeQuestionRequest (s : session) (claim : OperationClaim) (effect : EffectRecord)
    (target : InvocationRuntimeTarget) (request : InvocationRuntimeQuestionRequest)
  : tx InvocationRuntimeQuestion :=
  reject_if (negb (validInvocationRuntimeClaim claim) || negb (validInvocationRuntimeAttempt claim effect)
             || negb (invocationRuntimeTargetMatchesApproval target claim)
             || bool_decide (qrq_SourceSequence request = 0%Z)
             || negb (is_ok (ValidateQuestionPrompts (qrq_Prompts request))))
    ErrInvocationRuntimeQuestionInvalid;;
  lockRuntimeInteractionAttempt s claim effect;;
  actual ← query (getInvocationRuntimeTarget (rtg_IsolationDomainID target) (rtg_OperationID target));
  reject_if (negb (same_target actual target)) ErrInvocationRuntimeQuestionConflict;;
  let id := question_id target request in
  let expiry := instant (qrq_ExpiresAt request) in
  found ← query (getInvocationRuntimeQuestion (rtg_IsolationDomainID target) id);
  match found with
  | Some existing =>
      reject_if (bool_decide (qst_EffectID existing ≠ e_EffectID effect)
                 || negb (same_prompts (qst_Prompts existing) (qrq_Prompts request))
                 || bool_decide (qst_ExpiresAt existing ≠ expiry)) ErrInvocationRuntimeQuestionConflict;;
      mret existing
  | None =>
      deadline ← query (λ d, match db_invocation_ops d !! claim_key claim with
                             | Some op => Ok (op_deadline_at op)
                             | None => Err ErrNoRows
                             end);
      let now := ses_clock s 2 in
      reject_if (negb (bool_decide (now < expiry)%Z) || bool_decide (now + fifteen_minutes < expiry)%Z
                 || bool_decide (deadline < expiry)%Z) ErrInvocationRuntimeQuestionExpired;;
      insert_question (pending_question target effect request id now expiry);;
      v ← reread_question (rtg_IsolationDomainID target) id;
      recordRuntimeQuestionEvent (later 3 s) claim target v;;
      recordRuntimeQuestionChange (later 4 s) v "requested" (qst_RequestedBy v) (qst_CorrelationID v) now;;
      mret v
  end.

(** ** Answers *)

Definition validInvocationRuntimeQuestionAnswer (a : InvocationRuntimeQuestionAnswer) : bool :=
  questionScopePattern (qan_IsolationDomainID a) && approvalInvocationPattern (qan_InvocationID a)
  && questionIDPattern (qan_QuestionID a) && bool_decide (1 ≤ qan_ExpectedVersion a)%Z
  && validInvocationRuntimeApprovalActor (qan_ActorID a) && approvalCorrelationPattern (qan_CorrelationID a).

(** The question shown to the authoriser, with the answers under consideration. *)
Definition candidate_question (v : InvocationRuntimeQuestion) (answers : list QuestionAnswer)
    (answeredBy correlation : string) : InvocationRuntimeQuestion :=
  MkQuestion (qst_Contract v) (qst_IsolationDomainID v) (qst_ID v) (qst_OperationID v) (qst_InvocationID v)
    (qst_ServiceID v) (qst_RevisionID v) (qst_EffectID v) (qst_SourceSequence v) (qst_CorrelationID v)
    (qst_RequestedBy v) (qst_Prompts v) (qst_ExpiresAt v) (qst_State v) (qst_Version v) answers answeredBy
    correlation (qst_AnsweredAt v) (qst_DeliveryStartedAt v) (qst_DeliveredAt v) (qst_ClosedAt v)
    (qst_CloseReason v) (qst_CreatedAt v) (qst_UpdatedAt v).

Definition authorize_question (authorize : InvocationRuntimeQuestionAuthorizer) (v : InvocationRuntimeQuestion)
    (boundary : string) : tx unit :=
  match authorize v boundary with Some e => fail e | None => mret tt end.

Definition answer_pending (s : session) (a : InvocationRuntimeQuestionAnswer)
    (authorize : InvocationRuntimeQuestionAuthorizer) (v : InvocationRuntimeQuestion)
  : tx InvocationRuntimeQuestion :=
  reject_if (bool_decide (qst_State v ≠ "pending" ∨ qst_Version v ≠ qan_ExpectedVersion a))
    ErrInvocationRuntimeQuestionConflict;;
  reject_if (negb (bool_decide (ses_clock s 0 < qst_ExpiresAt v)%Z)) ErrInvocationRuntimeQuestionExpired;;
  activeRuntimeQuestion (ses_clock s 1) v;;
  authorize_question authorize (candidate_question v (qan_Answers a) (qan_ActorID a) (qan_CorrelationID a))
    InvocationQuestionEntry;;
  activeRuntimeQuestion (ses_clock s 2) v;;
  updated ← update_question (qst_IsolationDomainID v, qst_ID v)
    (λ d row, bool_decide (qst_State row = "pending" ∧ qst_Version row = qan_ExpectedVersion a
                           ∧ (ses_clock s 3 < qst_ExpiresAt row)%Z) && question_live d (ses_clock s 3) row)
    (answered_question a (ses_clock s 3));
  reject_if (negb updated) ErrInvocationRuntimeQuestionExpired;;
  v ← reread_question (qst_IsolationDomainID v) (qst_ID v);
  recordRuntimeQuestionChange (later 4 s) v "answered" (qan_ActorID a) (qan_CorrelationID a) (qst_UpdatedAt v);;
  mret v.

Definition answerInvocationRuntimeQuestion (s : session) (a : InvocationRuntimeQuestionAnswer)
    (authorize : InvocationRuntimeQuestionAuthorizer) : tx InvocationRuntimeQuestion :=
  invocation ← gets (λ d, db_invocations d !! (qan_IsolationDomainID a, qan_InvocationID a));
  reject_if (negb (bool_decide (is_Some invocation))) ErrInvocationRuntimeQuestionMissing;;
  v ← existing_question (qan_IsolationDomainID a) (qan_QuestionID a) ErrInvocationRuntimeQuestionMissing;
  reject_if (bool_decide (qst_InvocationID v ≠ qan_InvocationID a)) ErrInvocationRuntimeQuestionMissing;;
  reject_if (negb (is_ok (ValidateQuestionAnswers (qst_Prompts v) (qan_Answers a))))
    ErrInvocationRuntimeQuestionInvalid;;
  if decide (qst_Answers v ≠ []) then
    reject_if (bool_decide (qst_AnsweredBy v ≠ qan_ActorID a ∨ qan_ExpectedVersion a ≠ 1%Z)
               || negb (same_answers (qst_Answers v) (qan_Answers a))) ErrInvocationRuntimeQuestionConflict;;
    authorize_question authorize
      (candidate_question v (qst_Answers v) (qst_AnsweredBy v) (qan_CorrelationID a)) InvocationQuestionEntry;;
    mret v
  else answer_pending s a authorize v.

Definition AnswerInvocationRuntimeQuestion (s : session) (a : InvocationRuntimeQuestionAnswer)
    (authorize : InvocationRuntimeQuestionAuthorizer) : tx InvocationRuntimeQuestion :=
  reject_if (negb (validInvocationRuntimeQuestionAnswer a)) ErrInvocationRuntimeQuestionInvalid;;
  answerInvocationRuntimeQuestion s a authorize.

Definition InvocationQuestionSchemaV1 := "dataground.invocation-question/v1".

(** The public view, encoded in the order of [domain.InvocationQuestion]. *)
Definition publicInvocationQuestion (v : InvocationRuntimeQuestion) : json :=
  JObj ([("schemaVersion", JStr InvocationQuestionSchemaV1); ("id", JStr (qst_ID v));
         ("isolationDomainId", JStr (qst_IsolationDomainID v)); ("invocationId", JStr (qst_InvocationID v));
         ("serviceId", JStr (qst_ServiceID v)); ("revisionId", JStr (qst_RevisionID v));
         ("questions", JArr (prompt_json <$> qst_Prompts v)); ("state", JStr (qst_State v));
         ("version", JInt (qst_Version v)); ("expiresAt", time_json (qst_ExpiresAt v))]
        ++ omit_string "answeredBy" (qst_AnsweredBy v) ++ omit_time "answeredAt" (qst_AnsweredAt v)
        ++ omit_time "closedAt" (qst_ClosedAt v) ++ omit_string "closeReason" (qst_CloseReason v)
        ++ [("createdAt", time_json (qst_CreatedAt v)); ("updatedAt", time_json (qst_UpdatedAt v))]).

Definition GetInvocationQuestion (scope invocationID id : string) (d : db) : result json :=
  publicInvocationQuestion <$> GetInvocationRuntimeQuestion scope invocationID id d.

(** A replayed receipt is an authorised read: the stored answer is compared again. *)
Definition answer_replayed (a : InvocationRuntimeQuestionAnswer) (authorize : InvocationRuntimeQuestionAuthorizer)
    (d : db) : result unit :=
  v ← GetInvocationRuntimeQuestion (qan_IsolationDomainID a) (qan_InvocationID a) (qan_QuestionID a) d;
  if bool_decide (qan_ExpectedVersion a ≠ 1%Z ∨ qst_AnsweredBy v ≠ qan_ActorID a)
     || negb (same_answers (qst_Answers v) (qan_Answers a)) then Err ErrInvocationRuntimeQuestionConflict
  else match authorize (candidate_question v (qst_Answers v) (qst_AnsweredBy v) (qan_CorrelationID a))
               InvocationQuestionEntry with
       | Some e => Err e
       | None => Ok tt
       end.

(** The receipt is committed by [execute] before a replay is checked again, so an
    error after it is answered with the database it left. *)
Definition AnswerInvocationRuntimeQuestionCommand (e : env) (s : session) (i : Idempotency)
    (a : InvocationRuntimeQuestionAnswer) (authorize : InvocationRuntimeQuestionAuthorizer) (d : db)
  : result (db * result CommandResult) :=
  if negb (validInvocationRuntimeQuestionAnswer a)
     || bool_decide (id_IsolationDomainID i ≠ qan_IsolationDomainID a) then Err ErrInvocationRuntimeQuestionInvalid
  else
    '(d, r) ← execute e i (λ _ d,
        '(d, v) ← answerInvocationRuntimeQuestion s a authorize d;
        Ok (StatusOK, publicInvocationQuestion v, d)) d;
    if cr_Replayed r then
      match answer_replayed a authorize d with Err e => Ok (d, Err e) | Ok _ => Ok (d, Ok r) end
    else Ok (d, Ok r).

(** ** Delivery *)

Definition question_of_claim (claim : OperationClaim) (effect : EffectRecord) (v : InvocationRuntimeQuestion) : bool :=
  bool_decide (qst_OperationID v = c_ID claim ∧ qst_InvocationID v = c_ResourceID claim
               ∧ qst_EffectID v = e_EffectID effect).

Definition BeginInvocationRuntimeQuestionDelivery (s : session) (claim : OperationClaim) (effect : EffectRecord)
    (id : string) (authorize : InvocationRuntimeQuestionAuthorizer) : tx InvocationRuntimeQuestion :=
  reject_if (negb (questionIDPattern id) || negb (validInvocationRuntimeClaim claim)
             || negb (validInvocationRuntimeAttempt claim effect)) ErrInvocationRuntimeQuestionInvalid;;
  lockRuntimeInteractionAttempt s claim effect;;
  v ← existing_question (c_IsolationDomainID claim) id ErrInvocationRuntimeQuestionMissing;
  reject_if (negb (question_of_claim claim effect v)) ErrInvocationRuntimeQuestionConflict;;
  reject_if (bool_decide (qst_State v = "delivering" ∨ qst_State v = "delivery_unknown"))
    ErrInvocationRuntimeQuestionDeliveryAmbiguous;;
  reject_if (bool_decide (qst_State v ≠ "answered")) ErrInvocationRuntimeQuestionConflict;;
  authorize_question authorize v InvocationQuestionEffect;;
  lockRuntimeInteractionAttempt (later 2 s) claim effect;;
  updated ← update_question (qst_IsolationDomainID v, qst_ID v)
    (λ d row, bool_decide (qst_State row = "answered" ∧ (ses_clock s 4 < qst_ExpiresAt row)%Z)
              && question_live d (ses_clock s 4) row) (delivering_question (ses_clock s 4));
  reject_if (negb updated) ErrInvocationRuntimeQuestionExpired;;
  v ← reread_question (qst_IsolationDomainID v) (qst_ID v);
  recordRuntimeQuestionChange (later 5 s) v "delivery-started" (qst_AnsweredBy v) (qst_AnswerCorrelationID v)
    (qst_UpdatedAt v);;
  mret v.

Definition CompleteInvocationRuntimeQuestionDelivery (s : session) (claim : OperationClaim) (effect : EffectRecord)
    (id : string) : tx InvocationRuntimeQuestion :=
  reject_if (negb (questionIDPattern id) || negb (validInvocationRuntimeClaim claim)
             || negb (validInvocationRuntimeAttempt claim effect)) ErrInvocationRuntimeQuestionInvalid;;
  lockRuntimeInteractionAttempt s claim effect;;
  v ← existing_question (c_IsolationDomainID claim) id ErrInvocationRuntimeQuestionMissing;
  reject_if (negb (question_of_claim claim effect v)) ErrInvocationRuntimeQuestionConflict;;
  if decide (qst_State v = "delivered") then mret v else
  reject_if (bool_decide (qst_State v ≠ "delivering")) ErrInvocationRuntimeQuestionConflict;;
  updated ← update_question (qst_IsolationDomainID v, qst_ID v) (λ d row, question_live d (ses_clock s 2) row)
    (delivered_question (ses_clock s 2));
  reject_if (negb updated) ErrLeaseLost;;
  v ← reread_question (qst_IsolationDomainID v) (qst_ID v);
  recordRuntimeQuestionChange (later 3 s) v "delivered" (qst_AnsweredBy v) (qst_AnswerCorrelationID v)
    (qst_UpdatedAt v);;
  mret v.

(** ** Closing and expiry *)

Definition question_closing_state (state reason : string) : result (option string) :=
  if decide (state = "pending" ∨ state = "answered") then
    Ok (Some (if decide (reason = "expired") then "expired" else "closed"))
  else if decide (state = "delivering") then Ok (Some "delivery_unknown")
  else if decide (state = "closed" ∨ state = "expired" ∨ state = "delivery_unknown" ∨ state = "delivered")
  then Ok None
  else Err ErrInvocationRuntimeQuestionConflict.

Definition closeRuntimeQuestion (s : session) (v : InvocationRuntimeQuestion) (reason actor correlation : string)
  : tx InvocationRuntimeQuestion :=
  next ← query (λ _, question_closing_state (qst_State v) reason);
  match next with
  | None => mret v
  | Some state =>
      update_question (qst_IsolationDomainID v, qst_ID v) (λ _ _, true) (closed_question state reason (ses_clock s 0));;
      v ← reread_question (qst_IsolationDomainID v) (qst_ID v);
      recordRuntimeQuestionChange (later 1 s) v state actor correlation (qst_UpdatedAt v);;
      mret v
  end.

Definition CloseInvocationRuntimeQuestion (s : session) (claim : OperationClaim) (effect : EffectRecord)
    (id reason : string) : tx InvocationRuntimeQuestion :=
  reject_if (negb (questionIDPattern id) || negb (validInvocationRuntimeClaim claim)
             || negb (validInvocationRuntimeAttempt claim effect)
             || bool_decide (reason ≠ "runtime-request-cleared" ∧ reason ≠ "runtime-ended" ∧ reason ≠ "cancelled"))
    ErrInvocationRuntimeQuestionInvalid;;
  lockRuntimeInteractionAttempt s claim effect;;
  v ← existing_question (c_IsolationDomainID claim) id ErrInvocationRuntimeQuestionMissing;
  reject_if (negb (question_of_claim claim effect v)) ErrInvocationRuntimeQuestionConflict;;
  closeRuntimeQuestion (later 2 s) v reason (qst_RequestedBy v) (qst_CorrelationID v).

Definition expiring_question_ids (locks : row_locks) (scope : string) (limit : nat) (now : Z) (invocations : list string) (d : db)
  : list string :=
  let rows := filter (λ kv, qst_InvocationID kv.2 ∈ invocations ∧ lk_interactions locks kv.1.2 = false) (due_questions scope now d) in
  (take limit (merge_sort due_le ((λ kv, (qst_ExpiresAt kv.2, kv.1.2)) <$> rows))).*2.

Fixpoint expire_each_question (s : session) (scope actor correlation : string) (ids : list string) : tx unit :=
  match ids with
  | [] => mret tt
  | id :: rest =>
      v ← existing_question scope id ErrInvocationRuntimeQuestionConflict;
      closeRuntimeQuestion s v "expired" actor correlation;;
      expire_each_question (later 4 s) scope actor correlation rest
  end.

Definition ExpireInvocationRuntimeQuestions (s : session) (locks : row_locks) (scope actor correlation : string) (limit : Z) : tx nat :=
  reject_if (negb (questionScopePattern scope) || negb (validInvocationRuntimeApprovalActor actor)
             || negb (approvalCorrelationPattern correlation) || (limit <? 1)%Z || (100 <? limit)%Z)
    ErrInvocationRuntimeQuestionInvalid;;
  invocations ← query (lockDueRuntimeInteractionInvocations locks scope "question" (Z.to_nat limit) (ses_clock s 0));
  ids ← gets (expiring_question_ids locks scope (Z.to_nat limit) (ses_clock s 1) invocations);
  expire_each_question (later 2 s) scope actor correlation ids;;
  mret (length ids).
