(* ===== verification/StoreSpec.v ===== *)
(** * What the durable store promises

    An abstract transition system over the tables that carry the lifecycle:
    revisions, aliases, invocations and the two operation tables.  [abs_step]
    lists the changes the control plane may make to them, with the condition
    under which each is allowed; [core_ok] is the consistency the rest of the
    system relies on.  [StoreRefinement] shows that every committed call of
    [internal/persistence] is made of these steps. *)
From S2P Require Import Prelude.
From S2P Require Import GoStrings.
From S2P Require Import Sha256.
From S2P Require Import GoJson.
From S2P Require Import Lifecycle.
From S2P Require Import Domain.
From S2P Require Import Database.
From S2P Require Import OperationStore.
From S2P Require Import Commands.

Record core := Core {
  k_revisions : gmap key revision_row;
  k_aliases : gmap (string * string * string) alias_row;
  k_invocations : gmap key invocation_row;
  k_publication_ops : gmap key operation_row;
  k_invocation_ops : gmap key operation_row;
}.

Definition core_of (d : db) : core :=
  Core (db_revisions d) (db_aliases d) (db_invocations d) (db_publication_ops d) (db_invocation_ops d).

Definition core_ops (t : op_table) (C : core) : gmap key operation_row :=
  match t with PublicationOps => k_publication_ops C | InvocationOps => k_invocation_ops C end.

Definition with_revisions (m : gmap key revision_row) (C : core) : core :=
  Core m (k_aliases C) (k_invocations C) (k_publication_ops C) (k_invocation_ops C).
Definition with_aliases (m : gmap (string * string * string) alias_row) (C : core) : core :=
  Core (k_revisions C) m (k_invocations C) (k_publication_ops C) (k_invocation_ops C).
Definition with_invocations (m : gmap key invocation_row) (C : core) : core :=
  Core (k_revisions C) (k_aliases C) m (k_publication_ops C) (k_invocation_ops C).
Definition with_ops (t : op_table) (m : gmap key operation_row) (C : core) : core :=
  match t with
  | PublicationOps => Core (k_revisions C) (k_aliases C) (k_invocations C) m (k_invocation_ops C)
  | InvocationOps => Core (k_revisions C) (k_aliases C) (k_invocations C) (k_publication_ops C) m
  end.

(** ** Steps *)

(** Two rows that describe the same work: only the lease, the attempt counter,
    the schedule and the last error may differ. *)
Definition same_work (row row' : operation_row) : Prop :=
  op_resource_id row' = op_resource_id row ∧ op_command row' = op_command row
  ∧ op_desired_state row' = op_desired_state row ∧ op_observed_state row' = op_observed_state row
  ∧ op_state_machine_version row' = op_state_machine_version row.

Definition terminal_states : list string := ["succeeded"; "failed"; "cancelled"].
Definition publication_terminal_states : list string := ["published"; "failed"; "cancelled"].

(** A revision becomes published only out of draft. *)
Definition publish_draft (rk : key) (now : Z) (m : gmap key revision_row) : gmap key revision_row :=
  match m !! rk with
  | Some rev => if decide (rev_state rev = "draft") then <[rk := published_row now rev]> m else m
  | None => m
  end.

Definition idle_revision (k : key) (C : core) : Prop :=
  (∀ ak a, k_aliases C !! ak = Some a → ak.1.1 = k.1 → als_revision_id a = k.2 → is_Some (als_withdrawn_at a))
  ∧ (∀ ik inv, k_invocations C !! ik = Some inv → ik.1 = k.1 → inv_revision_id inv = k.2 →
       inv_state inv ∈ terminal_states ∧
       ∀ ok op, k_invocation_ops C !! ok = Some op → ok.1 = k.1 → op_resource_id op = ik.2 →
         op_observed_state op ∈ terminal_states)
  ∧ (∀ ok op, k_publication_ops C !! ok = Some op → ok.1 = k.1 → op_resource_id op = k.2 →
       op_observed_state op ∈ publication_terminal_states).

Inductive abs_step (C : core) : core → Prop :=
  | A_lease t k row row' :
      core_ops t C !! k = Some row → same_work row row' →
      abs_step C (with_ops t (<[k := row']> (core_ops t C)) C)
  | A_publication k row s r f now :
      k_publication_ops C !! k = Some row →
      Publication.CanTransition (op_observed_state row) s = true → s ≠ "queued" →
      abs_step C (with_ops PublicationOps (<[k := advanced_row s r f now row]> (k_publication_ops C))
        (if decide (s = "published")
         then with_revisions (publish_draft (k.1, op_resource_id row) now (k_revisions C)) C else C))
  | A_invocation k row inv s r f now :
      k_invocation_ops C !! k = Some row →
      k_invocations C !! (k.1, op_resource_id row) = Some inv →
      Invocation.CanTransition (op_observed_state row) s = true → invocationResourceState s ≠ "" →
      abs_step C (with_ops InvocationOps (<[k := advanced_row s r f now row]> (k_invocation_ops C))
        (with_invocations (<[(k.1, op_resource_id row) :=
            transitioned_invocation (invocationResourceState s) r f now inv]> (k_invocations C)) C))
  | A_invocation_silent k row s r f now :
      k_invocation_ops C !! k = Some row →
      Invocation.CanTransition (op_observed_state row) s = true →
      invocationResourceState s = "" → s ≠ "queued" →
      abs_step C (with_ops InvocationOps (<[k := advanced_row s r f now row]> (k_invocation_ops C)) C)
  | A_cancel k inv actor correlation now :
      k_invocations C !! k = Some inv →
      inv_state inv ∉ ["cancelling"; "succeeded"; "failed"; "cancelled"] →
      abs_step C (with_ops InvocationOps (cancel_operations k actor correlation now (k_invocation_ops C))
        (with_invocations (<[k := cancelling_invocation now inv]> (k_invocations C)) C))
  | A_repair_publication k row rev actor correlation deadline now :
      k_publication_ops C !! k = Some row → op_observed_state row = "failed" →
      k_revisions C !! (k.1, op_resource_id row) = Some rev → rev_state rev = "draft" →
      abs_step C (with_ops PublicationOps
        (<[k := repaired_row actor correlation deadline now row]> (k_publication_ops C)) C)
  | A_repair_invocation k row inv rev actor correlation deadline now :
      k_invocation_ops C !! k = Some row → op_observed_state row = "failed" →
      k_invocations C !! (k.1, op_resource_id row) = Some inv →
      k_revisions C !! (k.1, inv_revision_id inv) = Some rev → rev_state rev = "published" →
      abs_step C (with_ops InvocationOps
        (<[k := repaired_row actor correlation deadline now row]> (k_invocation_ops C)) C)
  | A_new_revision k rev :
      k_revisions C !! k = None → rev_state rev = "draft" →
      abs_step C (with_revisions (<[k := rev]> (k_revisions C)) C)
  | A_retire k rev now :
      k_revisions C !! k = Some rev → rev_state rev = "published" → idle_revision k C →
      abs_step C (with_revisions (<[k := retired_row now rev]> (k_revisions C)) C)
  | A_accept_publication k row rev :
      k_publication_ops C !! k = None →
      (∀ k' row', k_publication_ops C !! k' = Some row' →
         k'.1 = k.1 → op_resource_id row' = op_resource_id row → False) →
      k_revisions C !! (k.1, op_resource_id row) = Some rev → rev_state rev = "draft" →
      op_observed_state row = "queued" →
      abs_step C (with_ops PublicationOps (<[k := row]> (k_publication_ops C)) C)
  | A_accept_invocation k ik row inv rev :
      k_invocation_ops C !! k = None → k_invocations C !! ik = None →
      (∀ k' row', k_invocation_ops C !! k' = Some row' →
         k'.1 = k.1 → op_resource_id row' = op_resource_id row → False) →
      ik = (k.1, op_resource_id row) → inv_operation_id inv = k.2 →
      k_revisions C !! (k.1, inv_revision_id inv) = Some rev → rev_state rev = "published" →
      op_observed_state row = "queued" → inv_state inv = "accepted" → inv_usage inv = None →
      abs_step C (with_ops InvocationOps (<[k := row]> (k_invocation_ops C))
        (with_invocations (<[ik := inv]> (k_invocations C)) C))
  | A_route ak a rev :
      als_withdrawn_at a = None →
      k_revisions C !! (ak.1.1, als_revision_id a) = Some rev →
      rev_service_id rev = ak.1.2 → rev_state rev = "published" →
      abs_step C (with_aliases (<[ak := a]> (k_aliases C)) C)
  | A_unroute ak a :
      is_Some (als_withdrawn_at a) →
      abs_step C (with_aliases (<[ak := a]> (k_aliases C)) C).

(** ** Consistency *)

(** The invocation states an operation state may be seen with. *)
Definition linked (operation invocation : string) : Prop :=
  if decide (operation = "queued") then invocation = "accepted" ∨ invocation = "failed"
  else invocationResourceState operation = invocation.

Definition invocation_op_ok (C : core) (k : key) (row : operation_row) : Prop :=
  ∃ inv rev, k_invocations C !! (k.1, op_resource_id row) = Some inv
    ∧ inv_operation_id inv = k.2
    ∧ k_revisions C !! (k.1, inv_revision_id inv) = Some rev
    ∧ op_observed_state row ∈ invocation_states
    ∧ linked (op_observed_state row) (inv_state inv)
    ∧ (op_observed_state row ∉ terminal_states → rev_state rev = "published").

Definition publication_op_ok (C : core) (k : key) (row : operation_row) : Prop :=
  ∃ rev, k_revisions C !! (k.1, op_resource_id row) = Some rev
    ∧ op_observed_state row ∈ publication_states
    ∧ (if decide (op_observed_state row = "published")
       then rev_state rev = "published" ∨ rev_state rev = "retired"
       else rev_state rev = "draft").

Definition alias_ok (C : core) (ak : string * string * string) (a : alias_row) : Prop :=
  als_withdrawn_at a = None →
  ∃ rev, k_revisions C !! (ak.1.1, als_revision_id a) = Some rev
    ∧ rev_service_id rev = ak.1.2 ∧ rev_state rev = "published".

Definition op_per_resource (m : gmap key operation_row) : Prop :=
  ∀ k1 k2 row1 row2, m !! k1 = Some row1 → m !! k2 = Some row2 →
    k1.1 = k2.1 → op_resource_id row1 = op_resource_id row2 → k1 = k2.

Record core_ok (C : core) : Prop := CoreOk {
  ok_invocation_ops : map_Forall (invocation_op_ok C) (k_invocation_ops C);
  ok_publication_ops : map_Forall (publication_op_ok C) (k_publication_ops C);
  ok_aliases : map_Forall (alias_ok C) (k_aliases C);
  ok_invocations : map_Forall (λ ik inv, ∃ row,
      k_invocation_ops C !! (ik.1, inv_operation_id inv) = Some row ∧ op_resource_id row = ik.2)
    (k_invocations C);
  ok_unique_publication : op_per_resource (k_publication_ops C);
  ok_unique_invocation : op_per_resource (k_invocation_ops C);
}.

(** ** Preservation *)

Lemma op_per_resource_update m k row row' :
  op_per_resource m → m !! k = Some row → op_resource_id row' = op_resource_id row →
  op_per_resource (<[k := row']> m).
Proof.
  intros U Hk Hr k1 k2 r1 r2 H1 H2 Hd He.
  apply lookup_insert_Some in H1 as [[<- <-]|[N1 H1]], H2 as [[<- <-]|[N2 H2]]; simplify_eq; eauto.
  - eapply (U _ _ row r2); eauto; congruence.
  - eapply (U _ _ r1 row); eauto; congruence.
Qed.

Lemma op_per_resource_insert m k row :
  op_per_resource m →
  (∀ k' row', m !! k' = Some row' → k'.1 = k.1 → op_resource_id row' = op_resource_id row → False) →
  op_per_resource (<[k := row]> m).
Proof.
  intros U F k1 k2 r1 r2 H1 H2 Hd He.
  apply lookup_insert_Some in H1 as [[<- <-]|[N1 H1]], H2 as [[<- <-]|[N2 H2]]; eauto;
    exfalso; eauto.
Qed.

(** Revisions only move forward: a published one stays published. *)
Definition revisions_forward (m m' : gmap key revision_row) : Prop :=
  ∀ k rev, m !! k = Some rev → ∃ rev', m' !! k = Some rev' ∧ rev_service_id rev' = rev_service_id rev
    ∧ (rev_state rev = "published" → rev_state rev' = "published").

Lemma revisions_forward_refl m : revisions_forward m m.
Proof. intros k rev ?; eauto. Qed.

Lemma publish_draft_forward rk now m : revisions_forward m (publish_draft rk now m).
Proof.
  intros k rev Hk. unfold publish_draft. destruct (m !! rk) as [r|] eqn:E; [|eauto].
  case_decide; [|eauto]. destruct (decide (rk = k)) as [->|N].
  - exists (published_row now r). rewrite lookup_insert_eq. simplify_eq. done.
  - exists rev. rewrite lookup_insert_ne by done. done.
Qed.

Lemma insert_fresh_forward m k rev : m !! k = None → revisions_forward m (<[k := rev]> m).
Proof.
  intros E k' r Hk. exists r. rewrite lookup_insert_ne by congruence. done.
Qed.

#[export] Hint Resolve revisions_forward_refl publish_draft_forward insert_fresh_forward : dg.

Lemma invocation_op_ok_forward C C' k row :
  k_invocations C' !! (k.1, op_resource_id row) = k_invocations C !! (k.1, op_resource_id row) →
  revisions_forward (k_revisions C) (k_revisions C') →
  invocation_op_ok C k row → invocation_op_ok C' k row.
Proof.
  intros EI F (inv & rev & Hi & Ho & Hr & Hs & Hl & Hp).
  destruct (F _ _ Hr) as (rev' & Hr' & _ & Hst).
  exists inv, rev'. rewrite EI. repeat split; auto.
Qed.

Lemma alias_ok_forward C C' ak a :
  revisions_forward (k_revisions C) (k_revisions C') → alias_ok C ak a → alias_ok C' ak a.
Proof.
  intros F H Hw. destruct (H Hw) as (rev & Hr & Hs & Hp).
  destruct (F _ _ Hr) as (rev' & ? & ? & ?). exists rev'. repeat split; auto; congruence.
Qed.

Lemma with_ops_core_ops t C : with_ops t (core_ops t C) C = C.
Proof. by destruct t, C. Qed.

Lemma linked_work_state s r :
  s ≠ "queued" → linked s r ↔ invocationResourceState s = r.
Proof. intros. unfold linked. by rewrite decide_False. Qed.

(** The resource states of the named operation states. *)
Lemma resource_state_nonempty s :
  s ∈ invocation_states → s ≠ "queued" → invocationResourceState s ≠ "".
Proof.
  unfold invocation_states. intros H N.
  repeat (apply elem_of_cons in H as [->|H]; [done || by vm_compute|]). by apply elem_of_nil in H.
Qed.

Lemma resource_state_not_queued s : invocationResourceState s ≠ "" → s ≠ "queued".
Proof. by intros H ->. Qed.

Lemma linked_terminal s i : s ∈ terminal_states → linked s i → i = s.
Proof.
  unfold terminal_states. intros H L.
  repeat (apply elem_of_cons in H as [->|H]; [by symmetry|]). by apply elem_of_nil in H.
Qed.

(** An operation whose invocation still admits cancellation may be moved to
    cancelling. *)
Lemma linked_can_cancel s i :
  s ∈ invocation_states → linked s i → i ∉ ["cancelling"; "succeeded"; "failed"; "cancelled"] →
  Invocation.CanTransition s "cancelling" = true.
Proof.
  unfold invocation_states. intros H L N.
  repeat (apply elem_of_cons in H as [->|H];
    [first [by vm_compute | exfalso; apply N; vm_compute in L; subst; set_solver]|]).
  by apply elem_of_nil in H.
Qed.

Lemma core_ok_update_invocation C k row row' :
  core_ok C → k_invocation_ops C !! k = Some row → op_resource_id row' = op_resource_id row →
  invocation_op_ok C k row' →
  core_ok (with_ops InvocationOps (<[k := row']> (k_invocation_ops C)) C).
Proof.
  intros [OI OP OA ON UP UI] Hk Hr Hok. split; try done.
  - apply map_Forall_insert_2; [exact Hok | exact OI].
  - intros ik inv Hi. destruct (ON _ _ Hi) as (r & Hr1 & Hr2). simpl.
    destruct (decide (k = (ik.1, inv_operation_id inv))) as [->|N].
    + exists row'. rewrite lookup_insert_eq. split; [done|congruence].
    + exists r. by rewrite lookup_insert_ne.
  - by eapply op_per_resource_update.
Qed.

Lemma core_ok_update_publication C k row row' :
  core_ok C → k_publication_ops C !! k = Some row → op_resource_id row' = op_resource_id row →
  publication_op_ok C k row' →
  core_ok (with_ops PublicationOps (<[k := row']> (k_publication_ops C)) C).
Proof.
  intros [OI OP OA ON UP UI] Hk Hr Hok. split; try done.
  - apply map_Forall_insert_2; [exact Hok | exact OP].
  - by eapply op_per_resource_update.
Qed.

Lemma core_ok_lease C t k row row' :
  core_ok C → core_ops t C !! k = Some row → same_work row row' →
  core_ok (with_ops t (<[k := row']> (core_ops t C)) C).
Proof.
  intros OK Hk (Er & _ & _ & Es & _). destruct t; simpl in Hk |- *.
  - eapply core_ok_update_publication; eauto.
    pose proof (ok_publication_ops C OK _ _ Hk) as P. unfold publication_op_ok in *. by rewrite Er, Es.
  - eapply core_ok_update_invocation; eauto.
    pose proof (ok_invocation_ops C OK _ _ Hk) as P. unfold invocation_op_ok in *. by rewrite Er, Es.
Qed.

(** Replacing the revisions of a consistent core by ones further along. *)
Lemma core_ok_revisions C m :
  core_ok C → revisions_forward (k_revisions C) m →
  map_Forall (publication_op_ok (with_revisions m C)) (k_publication_ops C) →
  core_ok (with_revisions m C).
Proof.
  intros [OI OP OA ON UP UI] F HP. split; try done.
  - intros k row Hk. apply (invocation_op_ok_forward C); [done|exact F|eauto].
  - intros k row Hk. apply (alias_ok_forward C); [exact F|eauto].
Qed.

Lemma publish_draft_other rk now m k :
  k ≠ rk → publish_draft rk now m !! k = m !! k.
Proof.
  intros. unfold publish_draft. destruct (m !! rk); [|done]. case_decide; [|done].
  by rewrite lookup_insert_ne.
Qed.

Lemma core_ok_publication C k row s r f now :
  core_ok C → k_publication_ops C !! k = Some row →
  Publication.CanTransition (op_observed_state row) s = true → s ≠ "queued" →
  core_ok (with_ops PublicationOps (<[k := advanced_row s r f now row]> (k_publication_ops C))
    (if decide (s = "published")
     then with_revisions (publish_draft (k.1, op_resource_id row) now (k_revisions C)) C else C)).
Proof.
  intros OK Hk HT HQ. pose proof (ok_publication_ops C OK _ _ Hk) as (rev & Hr & Hs & Hst).
  assert (Hnt : op_observed_state row ≠ "published") by (intros E; rewrite E in HT; lifecycle_solve).
  rewrite decide_False in Hst by done.
  assert (Hs' : s ∈ publication_states) by (eapply publication_states_closed; eauto).
  case_decide as Ep; [subst s|].
  - set (C1 := with_revisions _ C). set (row' := advanced_row _ _ _ _ _).
    assert (Hpub : publication_op_ok C1 k row').
    { exists (published_row now rev). simpl. unfold publish_draft. rewrite Hr, decide_True by done.
      rewrite lookup_insert_eq. auto. }
    destruct OK as [OI OP OA ON UP UI]. split; simpl; try done.
    + intros k' row1 Hk'. apply (invocation_op_ok_forward C); [done|simpl; auto with dg|eauto].
    + intros k' row1 [[<- <-]|[N Hk']]%lookup_insert_Some; [exact Hpub|].
      destruct (OP _ _ Hk') as (rev1 & Hr1 & Hs1 & Hst1). exists rev1. repeat split; auto.
      simpl. rewrite publish_draft_other; [done|]. intros [=E1 E2]. apply N. symmetry. eapply UP; eauto.
    + intros ak a Ha. apply (alias_ok_forward C); [simpl; auto with dg|eauto].
    + by eapply op_per_resource_update.
  - eapply core_ok_update_publication; eauto. exists rev. simpl. rewrite decide_False by done. auto.
Qed.

Lemma core_ok_invocation C k row inv s r f now :
  core_ok C → k_invocation_ops C !! k = Some row →
  k_invocations C !! (k.1, op_resource_id row) = Some inv →
  Invocation.CanTransition (op_observed_state row) s = true → invocationResourceState s ≠ "" →
  core_ok (with_ops InvocationOps (<[k := advanced_row s r f now row]> (k_invocation_ops C))
    (with_invocations (<[(k.1, op_resource_id row) :=
        transitioned_invocation (invocationResourceState s) r f now inv]> (k_invocations C)) C)).
Proof.
  intros OK Hk Hi HT HS. pose proof (ok_invocation_ops C OK _ _ Hk) as (inv0 & rev & Hi0 & Ho & Hr & Hs & Hl & Hp).
  simplify_eq. pose proof (resource_state_not_queued _ HS) as HQ.
  assert (Hs' : s ∈ invocation_states) by (eapply invocation_states_closed; eauto).
  destruct OK as [OI OP OA ON UP UI]. split; simpl; try done.
  - intros k' row1 [[<- <-]|[N Hk']]%lookup_insert_Some.
    + eexists _, rev. simpl. rewrite lookup_insert_eq. split; [done|]. simpl. repeat split; auto.
      * by rewrite linked_work_state.
      * intros Hn. apply Hp. intros Ht. destruct (invocation_terminal_exit (op_observed_state row) s); auto.
        apply invocation_terminal_cases. clear -Ht. unfold terminal_states in Ht. set_solver.
    + apply (invocation_op_ok_forward C); [|simpl; auto with dg|eauto]. simpl.
      rewrite lookup_insert_ne; [done|]. intros [=E1 E2]. apply N. eapply UI; eauto.
  - intros ik i [[<- <-]|[N Hi']]%lookup_insert_Some; simpl.
    + exists (advanced_row s r f now row). rewrite Ho. destruct k; simpl. by rewrite lookup_insert_eq.
    + destruct (ON _ _ Hi') as (r1 & Hr1 & Hr2).
      destruct (decide (k = (ik.1, inv_operation_id i))) as [->|N'].
      * simplify_eq. destruct N. simpl. rewrite Hr2. by destruct ik.
      * exists r1. by rewrite lookup_insert_ne.
  - by eapply op_per_resource_update.
Qed.

Lemma lookup_cancel_operations k actor correlation now m k' :
  cancel_operations k actor correlation now m !! k' =
  (λ row, if decide (k'.1 = k.1 ∧ op_resource_id row = k.2)
          then cancelling_operation actor correlation now row else row) <$> m !! k'.
Proof. unfold cancel_operations. rewrite map_lookup_imap. by destruct (m !! k'). Qed.

Lemma cancel_operations_Some k actor correlation now m k' row' :
  cancel_operations k actor correlation now m !! k' = Some row' →
  ∃ row, m !! k' = Some row ∧ op_resource_id row' = op_resource_id row ∧
    (k'.1 = k.1 ∧ op_resource_id row = k.2 ∧ row' = cancelling_operation actor correlation now row
     ∨ ¬ (k'.1 = k.1 ∧ op_resource_id row = k.2) ∧ row' = row).
Proof.
  rewrite lookup_cancel_operations. intros (row & -> & Hrow)%fmap_Some. exists row. split; [done|].
  subst. case_decide as E; naive_solver.
Qed.

Lemma core_ok_cancel C k inv actor correlation now :
  core_ok C → k_invocations C !! k = Some inv →
  inv_state inv ∉ ["cancelling"; "succeeded"; "failed"; "cancelled"] →
  core_ok (with_ops InvocationOps (cancel_operations k actor correlation now (k_invocation_ops C))
    (with_invocations (<[k := cancelling_invocation now inv]> (k_invocations C)) C)).
Proof.
  intros [OI OP OA ON UP UI] Hi Hn. split; simpl; try done.
  - intros k' row' (row & Hk & Er & [(E1 & E2 & ->)|(N & ->)])%cancel_operations_Some.
    + destruct (OI _ _ Hk) as (inv0 & rev & Hi0 & Ho & Hr & Hs & Hl & Hp).
      assert (inv0 = inv) as -> by (rewrite E1, E2 in Hi0; destruct k; simpl in *; congruence).
      exists (cancelling_invocation now inv), rev. simpl. rewrite E1, E2 in *.
      destruct k as [k1 k2]; simpl in *. rewrite lookup_insert_eq. repeat split; auto.
      * unfold invocation_states. set_solver.
      * intros _. apply Hp. intros Ht. apply Hn. rewrite (linked_terminal _ _ Ht Hl).
        revert Ht. unfold terminal_states. clear. set_solver.
    + apply (invocation_op_ok_forward C); simpl; auto with dg. rewrite lookup_insert_ne; [done|].
      intros ->. by apply N.
  - assert (W : ∀ ik i, (∃ row, k_invocation_ops C !! (ik.1, inv_operation_id i) = Some row
                               ∧ op_resource_id row = ik.2) →
              ∃ row, cancel_operations k actor correlation now (k_invocation_ops C)
                       !! (ik.1, inv_operation_id i) = Some row ∧ op_resource_id row = ik.2).
    { intros ik i (row & Hr1 & Hr2). rewrite lookup_cancel_operations, Hr1. simpl.
      eexists; split; [done|]. by case_decide. }
    intros ik i [[<- <-]|[N Hi']]%lookup_insert_Some.
    + apply (W k inv). by apply ON.
    + apply W. by apply ON.
  - intros k1 k2 r1 r2 (a & Ha & -> & _)%cancel_operations_Some (b & Hb & -> & _)%cancel_operations_Some. eauto.
Qed.

Lemma core_ok_repair_invocation C k row inv rev actor correlation deadline now :
  core_ok C → k_invocation_ops C !! k = Some row → op_observed_state row = "failed" →
  k_invocations C !! (k.1, op_resource_id row) = Some inv →
  k_revisions C !! (k.1, inv_revision_id inv) = Some rev → rev_state rev = "published" →
  core_ok (with_ops InvocationOps
    (<[k := repaired_row actor correlation deadline now row]> (k_invocation_ops C)) C).
Proof.
  intros OK Hk Hf Hi Hr Hp. eapply core_ok_update_invocation; eauto.
  destruct (ok_invocation_ops C OK _ _ Hk) as (inv0 & rev0 & Hi0 & Ho & Hr0 & Hs & Hl & _).
  simplify_eq. exists inv, rev. simpl. repeat split; auto.
  - unfold invocation_states. set_solver.
  - rewrite Hf in Hl. unfold linked in *. rewrite decide_True by done. right. symmetry. exact Hl.
Qed.

Lemma core_ok_repair_publication C k row rev actor correlation deadline now :
  core_ok C → k_publication_ops C !! k = Some row → op_observed_state row = "failed" →
  k_revisions C !! (k.1, op_resource_id row) = Some rev → rev_state rev = "draft" →
  core_ok (with_ops PublicationOps
    (<[k := repaired_row actor correlation deadline now row]> (k_publication_ops C)) C).
Proof.
  intros OK Hk Hf Hr Hp. eapply core_ok_update_publication; eauto.
  exists rev. simpl. repeat split; auto. unfold publication_states. set_solver.
Qed.

Lemma core_ok_new_revision C k rev :
  core_ok C → k_revisions C !! k = None → rev_state rev = "draft" →
  core_ok (with_revisions (<[k := rev]> (k_revisions C)) C).
Proof.
  intros OK Hk _. apply core_ok_revisions; auto with dg.
  intros k' row Hk'. destruct (ok_publication_ops C OK _ _ Hk') as (rev0 & Hr & Hs & Hst).
  exists rev0. simpl. rewrite lookup_insert_ne by congruence. done.
Qed.

Lemma core_ok_retire C k rev now :
  core_ok C → k_revisions C !! k = Some rev → rev_state rev = "published" → idle_revision k C →
  core_ok (with_revisions (<[k := retired_row now rev]> (k_revisions C)) C).
Proof.
  intros [OI OP OA ON UP UI] Hk Hp (IA & II & IP). split; simpl; try done.
  - intros k' row Hk'. destruct (OI _ _ Hk') as (inv & r & Hi & Ho & Hr & Hs & Hl & Hpub).
    destruct (decide (k = (k'.1, inv_revision_id inv))) as [->|N].
    + exists inv, (retired_row now rev). simpl. rewrite lookup_insert_eq. repeat split; auto.
      intros Hn. exfalso. apply Hn. destruct (II _ _ Hi) as [_ W]; auto. by apply (W _ _ Hk').
    + exists inv, r. simpl. by rewrite lookup_insert_ne.
  - intros k' row Hk'. destruct (OP _ _ Hk') as (r & Hr & Hs & Hst).
    destruct (decide (k = (k'.1, op_resource_id row))) as [->|N].
    + exists (retired_row now rev). simpl. rewrite lookup_insert_eq. repeat split; auto.
      simplify_eq. case_decide; [auto|congruence].
    + exists r. simpl. by rewrite lookup_insert_ne.
  - intros ak a Ha Hw. destruct (OA _ _ Ha Hw) as (r & Hr & ? & ?). exists r. simpl.
    rewrite lookup_insert_ne; [done|]. intros ->.
    destruct (IA _ _ Ha) as [? ?]; auto. congruence.
Qed.

Lemma core_ok_accept_publication C k row rev :
  core_ok C → k_publication_ops C !! k = None →
  (∀ k' row', k_publication_ops C !! k' = Some row' →
     k'.1 = k.1 → op_resource_id row' = op_resource_id row → False) →
  k_revisions C !! (k.1, op_resource_id row) = Some rev → rev_state rev = "draft" →
  op_observed_state row = "queued" →
  core_ok (with_ops PublicationOps (<[k := row]> (k_publication_ops C)) C).
Proof.
  intros [OI OP OA ON UP UI] Hk F Hr Hd Hq. split; simpl; try done.
  - apply map_Forall_insert_2; [|exact OP]. exists rev. rewrite Hq. repeat split; auto.
    unfold publication_states. set_solver.
  - by apply op_per_resource_insert.
Qed.

Lemma core_ok_accept_invocation C k ik row inv rev :
  core_ok C → k_invocation_ops C !! k = None → k_invocations C !! ik = None →
  (∀ k' row', k_invocation_ops C !! k' = Some row' →
     k'.1 = k.1 → op_resource_id row' = op_resource_id row → False) →
  ik = (k.1, op_resource_id row) → inv_operation_id inv = k.2 →
  k_revisions C !! (k.1, inv_revision_id inv) = Some rev → rev_state rev = "published" →
  op_observed_state row = "queued" → inv_state inv = "accepted" →
  core_ok (with_ops InvocationOps (<[k := row]> (k_invocation_ops C))
    (with_invocations (<[ik := inv]> (k_invocations C)) C)).
Proof.
  intros [OI OP OA ON UP UI] Hk Hik F -> Ho Hr Hp Hq Ha. split; simpl; try done.
  - apply map_Forall_insert_2.
    + exists inv, rev. simpl. rewrite lookup_insert_eq, Hq, Ha. repeat split; auto.
      * unfold invocation_states. set_solver.
      * unfold linked. rewrite decide_True by done. auto.
    + intros k' row' Hk'. apply (invocation_op_ok_forward C); simpl; auto with dg.
      rewrite lookup_insert_ne; [done|]. intros [=E1 E2]. eapply F; eauto.
  - intros ik' inv' [[<- <-]|[N Hi]]%lookup_insert_Some.
    + exists row. rewrite Ho. destruct k; simpl. by rewrite lookup_insert_eq.
    + destruct (ON _ _ Hi) as (r & Hr1 & Hr2). exists r. rewrite lookup_insert_ne by congruence. done.
  - by apply op_per_resource_insert.
Qed.

Lemma core_ok_alias C ak a :
  core_ok C → alias_ok C ak a → core_ok (with_aliases (<[ak := a]> (k_aliases C)) C).
Proof. intros [OI OP OA ON UP UI] H. split; try done. by apply map_Forall_insert_2. Qed.

Lemma abs_step_ok C C' : abs_step C C' → core_ok C → core_ok C'.
Proof.
  intros [] OK.
  - by eapply core_ok_lease.
  - by eapply core_ok_publication.
  - by eapply core_ok_invocation.
  - exfalso. destruct (ok_invocation_ops C OK _ _ H) as (? & ? & _ & _ & _ & Hs & _).
    eapply (resource_state_nonempty s); eauto. eapply invocation_states_closed; eauto.
  - by apply core_ok_cancel.
  - by eapply core_ok_repair_publication.
  - by eapply core_ok_repair_invocation.
  - by apply core_ok_new_revision.
  - by apply core_ok_retire.
  - by eapply core_ok_accept_publication.
  - by eapply core_ok_accept_invocation.
  - apply core_ok_alias; [done|]. intros _. eauto.
  - apply core_ok_alias; [done|]. intros E. destruct H; congruence.
Qed.

(** ** Legality of every observed transition *)

(** Over one step an invocation operation keeps its state or takes a transition
    the state machine allows. *)
Lemma abs_step_invocation_legal C C' k row :
  abs_step C C' → core_ok C → k_invocation_ops C !! k = Some row →
  ∃ row', k_invocation_ops C' !! k = Some row'
    ∧ op_resource_id row' = op_resource_id row
    ∧ (op_observed_state row' = op_observed_state row
       ∨ Invocation.CanTransition (op_observed_state row) (op_observed_state row') = true).
Proof.
  intros Hs OK Hk. destruct Hs as [t k0 row0 row0' H [E1 [_ [_ [E2 _]]]]|k0 row0 s r f now H HT HQ
    |k0 row0 inv s r f now H Hi HT HS|k0 row0 s r f now H HT HS HQ|k0 inv actor corr now Hi Hn
    |k0 row0 rev a c dl now H Hf|k0 row0 inv rev a c dl now H Hf Hi Hr Hp|k0 rev H|k0 rev now H
    |k0 row0 rev H|k0 ik row0 inv rev H|ak a rev H|ak a H];
    simpl; try (by eexists; eauto).
  - destruct t; simpl in *; [by eauto|]. destruct (decide (k0 = k)) as [->|N].
    + simplify_eq. exists row0'. rewrite lookup_insert_eq. auto.
    + exists row. rewrite lookup_insert_ne by done. auto.
  - exists row. repeat case_decide; simpl; auto.
  - destruct (decide (k0 = k)) as [->|N].
    + simplify_eq. eexists. rewrite lookup_insert_eq. split; [done|]. auto.
    + exists row. rewrite lookup_insert_ne by done. auto.
  - destruct (decide (k0 = k)) as [->|N].
    + simplify_eq. eexists. rewrite lookup_insert_eq. split; [done|]. auto.
    + exists row. rewrite lookup_insert_ne by done. auto.
  - rewrite lookup_cancel_operations, Hk. simpl. eexists; split; [done|]. case_decide as E; [|auto].
    split; [done|]. right. simpl.
    destruct (ok_invocation_ops C OK _ _ Hk) as (inv0 & rev & Hi0 & _ & _ & Hs & Hl & _).
    destruct E as [E1 E2]. rewrite E1, E2 in Hi0. destruct k0; simpl in *. simplify_eq.
    by eapply linked_can_cancel.
  - destruct (decide (k0 = k)) as [->|N].
    + simplify_eq. eexists. rewrite lookup_insert_eq. split; [done|]. split; [done|]. right. by rewrite Hf.
    + exists row. rewrite lookup_insert_ne by done. auto.
  - exists row. rewrite lookup_insert_ne by congruence. auto.
Qed.
