(* ===== verification/StoreSteps.v ===== *)
(** * Runs of the store

    The committed calls of [internal/persistence] as steps of a transition
    system.  A world is the database and the claims workers were handed; workers
    act on any claim they ever received, at any later time, so stale workers,
    crashes and arbitrary interleavings are runs of [world_step].  The lemmas
    give the exact database change of each call. *)
From S2P Require Import Prelude.
From S2P Require Import GoStrings.
From S2P Require Import Sha256.
From S2P Require Import GoJson.
From S2P Require Import Lifecycle.
From S2P Require Import Domain.
From S2P Require Import Database.
From S2P Require Import OperationStore.
From S2P Require Import Commands.
From S2P Require Import RuntimeTables.
From S2P Require Import RuntimeInteraction.
From S2P Require Import RuntimeApproval.
From S2P Require Import RuntimeQuestion.

Section steps.
Context `{SchemaEngine}.

(** ** Commands of the API *)
Inductive command :=
  | CmdCreateService (input : CreateServiceInput)
  | CmdCreateRevision (input : CreateRevisionInput)
  | CmdRetireRevision (input : RetireRevisionInput)
  | CmdAcceptPublication (input : AcceptPublicationInput) (supported : gmap string string)
  | CmdAssignAlias (input : AssignAliasInput)
  | CmdWithdrawAlias (input : WithdrawAliasInput)
  | CmdAcceptInvocation (input : AcceptInvocationInput)
  | CmdAcceptCancellation (input : AcceptCancellationInput).

Definition run_command (e : env) (i : Idempotency) (cmd : command) (d : db) : result (db * CommandResult) :=
  match cmd with
  | CmdCreateService input => CreateService e i input d
  | CmdCreateRevision input => CreateRevision e i input d
  | CmdRetireRevision input => RetireRevision e i input d
  | CmdAcceptPublication input supported => AcceptPublication e i input supported d
  | CmdAssignAlias input => AssignAlias e i input d
  | CmdWithdrawAlias input => WithdrawAlias e i input d
  | CmdAcceptInvocation input => AcceptInvocation e i input d
  | CmdAcceptCancellation input => AcceptCancellation e i input d
  end.

(** ** Runtime interactions

    What workers, users and the expiry sweep do with approvals and questions. *)
Inductive interaction :=
  | RequestApproval (claim : OperationClaim) (effect : EffectRecord) (target : InvocationRuntimeTarget)
      (request : InvocationRuntimeApprovalRequest)
  | ResolveApproval (r : InvocationRuntimeApprovalResolution)
  | ResolveApprovalCommand (e : env) (i : Idempotency) (r : InvocationRuntimeApprovalResolution)
      (authorize : InvocationRuntimeApprovalEntryAuthorizer)
  | BeginApproval (claim : OperationClaim) (effect : EffectRecord) (id decision : string)
  | CompleteApproval (claim : OperationClaim) (effect : EffectRecord) (id : string)
  | CloseApproval (claim : OperationClaim) (effect : EffectRecord) (id reason : string)
  | ExpireApprovals (locks : row_locks) (scope actor correlation : string) (limit : Z)
  | RequestQuestion (claim : OperationClaim) (effect : EffectRecord) (target : InvocationRuntimeTarget)
      (request : InvocationRuntimeQuestionRequest)
  | AnswerQuestion (a : InvocationRuntimeQuestionAnswer) (authorize : InvocationRuntimeQuestionAuthorizer)
  | AnswerQuestionCommand (e : env) (i : Idempotency) (a : InvocationRuntimeQuestionAnswer)
      (authorize : InvocationRuntimeQuestionAuthorizer)
  | BeginQuestion (claim : OperationClaim) (effect : EffectRecord) (id : string)
      (authorize : InvocationRuntimeQuestionAuthorizer)
  | CompleteQuestion (claim : OperationClaim) (effect : EffectRecord) (id : string)
  | CloseQuestion (claim : OperationClaim) (effect : EffectRecord) (id reason : string)
  | ExpireQuestions (locks : row_locks) (scope actor correlation : string) (limit : Z).

Definition committed {A} (r : result (db * A)) : result db :=
  match r with Ok (d, _) => Ok d | Err e => Err e end.

Definition run_interaction (s : session) (x : interaction) (d : db) : result db :=
  match x with
  | RequestApproval claim effect target request =>
      committed (RecordInvocationRuntimeApprovalRequest s claim effect target request d)
  | ResolveApproval r => committed (ResolveInvocationRuntimeApproval s r d)
  | ResolveApprovalCommand e i r authorize =>
      committed (ResolveInvocationRuntimeApprovalCommand e s i r authorize d)
  | BeginApproval claim effect id decision =>
      committed (BeginInvocationRuntimeApprovalDelivery s claim effect id decision d)
  | CompleteApproval claim effect id => committed (CompleteInvocationRuntimeApprovalDelivery s claim effect id d)
  | CloseApproval claim effect id reason => committed (CloseInvocationRuntimeApproval s claim effect id reason d)
  | ExpireApprovals locks scope actor correlation limit =>
      committed (ExpireInvocationRuntimeApprovals s locks scope actor correlation limit d)
  | RequestQuestion claim effect target request =>
      committed (RecordInvocationRuntimeQuestionRequest s claim effect target request d)
  | AnswerQuestion a authorize => committed (AnswerInvocationRuntimeQuestion s a authorize d)
  | AnswerQuestionCommand e i a authorize =>
      committed (AnswerInvocationRuntimeQuestionCommand e s i a authorize d)
  | BeginQuestion claim effect id authorize =>
      committed (BeginInvocationRuntimeQuestionDelivery s claim effect id authorize d)
  | CompleteQuestion claim effect id => committed (CompleteInvocationRuntimeQuestionDelivery s claim effect id d)
  | CloseQuestion claim effect id reason => committed (CloseInvocationRuntimeQuestion s claim effect id reason d)
  | ExpireQuestions locks scope actor correlation limit =>
      committed (ExpireInvocationRuntimeQuestions s locks scope actor correlation limit d)
  end.

(** Replaces the attempts table.  The calls that write it are those of
    [RuntimeAttempts]; here a run may change it at any time and in any way. *)
Definition set_attempts (m : gmap key InvocationRuntimeAttempt) (d : db) : db :=
  set_runtime (λ t, RuntimeTables m (rt_approvals t) (rt_questions t)) d.

Record world := World { w_db : db; w_claims : list OperationClaim }.

(** [step_claim] is the [UPDATE] of [claimNext] for whatever candidate an
    earlier snapshot produced, so two racing claims of one row are two steps.
    [Advance] is never asked for the state [queued]: that is [RepairOperation]'s
    and the reconciler's requests are all other states. *)
Inductive world_step : world → world → Prop :=
  | step_claim kind t ts worker duration now k d cs d' c :
      operationTable kind = Ok (t, ts) →
      claim_update kind t worker duration now k d = (d', Some c) →
      world_step (World d cs) (World d' (c :: cs))
  | step_renew e c duration d cs d' c' :
      c ∈ cs → RenewLease e c duration d = Ok (d', c') →
      world_step (World d cs) (World d' (c' :: cs))
  | step_advance e c nextState terminalResult d cs d' :
      c ∈ cs → nextState ≠ "queued" → Advance e c nextState terminalResult d = Ok d' →
      world_step (World d cs) (World d' cs)
  | step_fail e c reason d cs d' :
      c ∈ cs → Fail e c reason d = Ok d' → world_step (World d cs) (World d' cs)
  | step_retry e c classification code due d cs d' :
      c ∈ cs → ScheduleRetry e c classification code due d = Ok d' →
      world_step (World d cs) (World d' cs)
  | step_prepare e c phase digest d cs d' effect :
      c ∈ cs → PrepareEffect e c phase digest d = Ok (d', effect) →
      world_step (World d cs) (World d' cs)
  | step_record e effect status observation code d cs d' :
      RecordEffect e effect status observation code d = Ok d' →
      world_step (World d cs) (World d' cs)
  | step_repair e kind domain operation actor reason dedup deadline d cs d' :
      RepairOperation e kind domain operation actor reason dedup deadline d = Ok d' →
      world_step (World d cs) (World d' cs)
  | step_command e i cmd d cs d' r :
      run_command e i cmd d = Ok (d', r) → world_step (World d cs) (World d' cs)
  | step_interaction s x d cs d' :
      run_interaction s x d = Ok d' → world_step (World d cs) (World d' cs)
  | step_attempts m d cs : world_step (World d cs) (World (set_attempts m d) cs).

Definition initial_world : world := World empty_db [].
Definition reachable (w : world) : Prop := rtc world_step initial_world w.

(** ** The database change of each fenced call *)

Lemma claim_update_spec kind t worker duration now k d d' c :
  claim_update kind t worker duration now k d = (d', Some c) →
  ∃ row, ops_of t d !! k = Some row ∧ lease_free row now = true
    ∧ d' = set_ops t <[k := claimed_row worker (claim_expiry duration now row) now row]> d
    ∧ c_Kind c = kind ∧ claim_key c = k ∧ c_ResourceID c = op_resource_id row
    ∧ c_Command c = op_command row ∧ c_ObservedState c = op_observed_state row
    ∧ c_LeaseOwner c = worker ∧ c_FencingToken c = (op_lease_token row + 1)%Z
    ∧ c_DeadlineAt c = op_deadline_at row ∧ c_LeaseExpiresAt c = claim_expiry duration now row.
Proof.
  unfold claim_update. destruct (ops_of t d !! k) as [row|] eqn:E; [|done].
  destruct (lease_free row now) eqn:F; [|done]. intros [= <- <-]. exists row. destruct k. done.
Qed.

Lemma lease_held_spec c now row :
  lease_held c now row = true ↔
  op_observed_state row = c_ObservedState c ∧ op_lease_owner row = Some (c_LeaseOwner c)
  ∧ op_lease_token row = c_FencingToken c ∧ ∃ t, op_lease_expires_at row = Some t ∧ (now < t)%Z.
Proof.
  unfold lease_held. rewrite !andb_true_iff, !bool_decide_eq_true.
  destruct (op_lease_expires_at row); [rewrite bool_decide_eq_true|]; naive_solver.
Qed.

Lemma RenewLease_spec e c duration d d' c' :
  RenewLease e c duration d = Ok (d', c') →
  ∃ t ts row current, operationTable (c_Kind c) = Ok (t, ts)
    ∧ ops_of t d !! claim_key c = Some row ∧ lease_held c (env_now e) row = true
    ∧ op_command row = c_Command c ∧ (env_now e < op_deadline_at row)%Z
    ∧ op_lease_expires_at row = Some current ∧ (0 < duration)%Z
    ∧ let expires := Z.min (op_deadline_at row)
        (Z.max current (Z.min (env_now e + duration) (c_DeadlineAt c))) in
      d' = set_ops t <[claim_key c := renewed_row expires (env_now e) row]> d
      ∧ c' = Claim (c_Kind c) (c_IsolationDomainID c) (c_ID c) (c_ResourceID c) (c_Command c)
               (c_ObservedState c) (c_StateMachineVersion c) (c_Attempt c) (c_LeaseOwner c)
               (c_FencingToken c) (c_DeadlineAt c) expires (c_CorrelationID c) (c_ActorID c).
Proof.
  unfold RenewLease. intros H1. case_decide as E0; [done|]. apply result_bind_Ok in H1 as ([t ts] & Et & H1).
  case_decide as E1; [done|]. destruct (ops_of t d !! claim_key c) as [row|] eqn:Er; [|done].
  destruct (op_lease_expires_at row) as [cur|] eqn:Ex; [|done].
  destruct (_ && _) eqn:G in H1; [|done]. simplify_eq. to_prop.
  exists t, ts, row, cur. repeat split; auto; lia.
Qed.

Lemma validateTransition_publication from to :
  validateTransition OperationKindPublication from to = Ok () ↔ Publication.CanTransition from to = true.
Proof.
  unfold validateTransition. rewrite decide_True by done. unfold Publication.ValidateTransition.
  by destruct (Publication.CanTransition from to).
Qed.

Lemma validateTransition_invocation from to :
  validateTransition OperationKindInvocation from to = Ok () ↔ Invocation.CanTransition from to = true.
Proof.
  unfold validateTransition. rewrite decide_False, decide_True by done. unfold Invocation.ValidateTransition.
  by destruct (Invocation.CanTransition from to).
Qed.

Lemma operationTable_cases kind t ts :
  operationTable kind = Ok (t, ts) →
  kind = OperationKindPublication ∧ t = PublicationOps
  ∨ kind = OperationKindInvocation ∧ t = InvocationOps.
Proof. unfold operationTable. repeat case_decide; naive_solver. Qed.

(** The contract checks keep the request or turn it into a legal failure. *)
Lemma contract_checks d c tr tr1 tr2 :
  check_publication_contract d c tr = Ok tr1 → check_invocation_contract d c tr1 = Ok tr2 →
  tr2 = tr ∨ ∃ problem, tr2 = ("failed", None, Some problem)
    ∧ validateTransition (c_Kind c) (c_ObservedState c) "failed" = Ok ().
Proof.
  assert (F : ∀ problem tr', fail_contract c problem = Ok tr' →
    ∃ p, tr' = ("failed", None, Some p) ∧ validateTransition (c_Kind c) (c_ObservedState c) "failed" = Ok ()).
  { intros p tr' ([] & ? & ?)%result_bind_Ok. simplify_eq. eauto. }
  assert (P : check_publication_contract d c tr = Ok tr1 → tr1 = tr ∨ ∃ p, tr1 = ("failed", None, Some p)
    ∧ validateTransition (c_Kind c) (c_ObservedState c) "failed" = Ok ()).
  { unfold check_publication_contract. destruct tr as [[ns r] f]. case_decide; [|naive_solver].
    intros (rev & _ & Hk)%result_bind_Ok. case_match; [right; eauto|left; congruence]. }
  assert (I : check_invocation_contract d c tr1 = Ok tr2 → tr2 = tr1 ∨ ∃ p, tr2 = ("failed", None, Some p)
    ∧ validateTransition (c_Kind c) (c_ObservedState c) "failed" = Ok ()).
  { unfold check_invocation_contract. destruct tr1 as [[ns r] f]. case_decide; [|naive_solver].
    repeat case_match; try naive_solver. }
  naive_solver.
Qed.

Lemma advance_spec e c ns r f d d' :
  advance e c ns r f d = Ok d' →
  ∃ t ts row ns' r' f' d1, operationTable (c_Kind c) = Ok (t, ts)
    ∧ ops_of t d !! claim_key c = Some row ∧ lease_held c (env_now e) row = true
    ∧ validateTransition (c_Kind c) (c_ObservedState c) ns' = Ok ()
    ∧ (ns' = ns ∨ ns' = "failed")
    ∧ updateResourceForTransition c ns' r' f' (env_now e)
        (set_ops t <[claim_key c := advanced_row ns' r' f' (env_now e) row]> d) = Ok d1
    ∧ d' = writeOutboxAndAudit e (c_IsolationDomainID c) (c_Kind c) (c_ID c)
             (c_Kind c +:+ "." +:+ ns') (c_ActorID c) (c_CorrelationID c)
             (transitionOutcome ns') (c_ID c) (env_now e) d1.
Proof.
  unfold advance. intros ([] & Hv & H1)%result_bind_Ok. case_decide; [done|].
  apply result_bind_Ok in H1 as ([t ts] & Et & H1).
  apply result_bind_Ok in H1 as (tr1 & C1 & H1). apply result_bind_Ok in H1 as (tr2 & C2 & H1).
  destruct tr2 as [[ns' r'] f'].
  apply result_bind_Ok in H1 as (d0 & Ho & H1). apply result_bind_Ok in H1 as (d1 & Hu & H1).
  simplify_eq. unfold advance_operation in Ho.
  destruct (ops_of t d !! claim_key c) as [row|] eqn:Er; [|done].
  destruct (lease_held c (env_now e) row) eqn:L; [|done]. simpl in Ho.
  destruct (governed_guard _ _ _ _); [|done]. destruct (governed_states_check _ _); [|done].
  simplify_eq. exists t, ts, row, ns', r', f', d1.
  destruct (contract_checks _ _ _ _ _ C1 C2) as [?|(p & ? & ?)]; simplify_eq; repeat split; auto.
Qed.

Lemma Fail_spec e c reason d d' :
  Fail e c reason d = Ok d' → ∃ f, advance e c "failed" None (Some f) d = Ok d'.
Proof. intros (f & _ & Hf)%result_bind_Ok. eauto. Qed.

Lemma Advance_spec e c ns r d d' :
  Advance e c ns r d = Ok d' →
  ∃ r' f, advance e c ns r' f d = Ok d'.
Proof.
  unfold Advance. case_decide; [subst; intros (f & ?)%Fail_spec|]; eauto.
Qed.

Lemma ScheduleRetry_spec e c classification code due d d' :
  ScheduleRetry e c classification code due d = Ok d' →
  ∃ t ts row problem, operationTable (c_Kind c) = Ok (t, ts)
    ∧ ops_of t d !! claim_key c = Some row ∧ lease_held c (env_now e) row = true
    ∧ d' = writeOutboxAndAudit e (c_IsolationDomainID c) (c_Kind c) (c_ID c)
             (c_Kind c +:+ ".retry-scheduled") (c_ActorID c) (c_CorrelationID c) "accepted"
             (c_ID c) (env_now e)
             (set_ops t <[claim_key c := retried_row classification problem due (env_now e) row]> d).
Proof.
  unfold ScheduleRetry. intros ([t ts] & Et & H1)%result_bind_Ok. case_decide; [done|].
  destruct (ops_of t d !! claim_key c) as [row|] eqn:Er; [|done].
  destruct (lease_held c (env_now e) row) eqn:L; [|done]. simplify_eq.
  exists t, ts, row. eauto 10.
Qed.

(** Effect records are never removed and keep their identity. *)
Definition effect_identity (row : effect_row) : string * string * string :=
  (eff_operation_kind row, eff_operation_id row, eff_phase row).

Definition effects_le (m m' : gmap key effect_row) : Prop :=
  ∀ k row, m !! k = Some row → ∃ row', m' !! k = Some row' ∧ effect_identity row' = effect_identity row.

#[global] Instance effects_le_preorder : PreOrder effects_le.
Proof.
  split; [by intros m k row; eauto|]. intros m1 m2 m3 H1 H2 k row (row2 & (row3 & H3 & E3)%H2 & E2)%H1.
  exists row3. split; [done|congruence].
Qed.

Lemma effects_le_fresh (m : gmap key effect_row) k row : m !! k = None → effects_le m (<[k := row]> m).
Proof.
  intros Hk k' row' Hl. exists row'. split; [|done]. rewrite lookup_insert_ne; [done|]. by intros <-; simplify_eq.
Qed.

Lemma effects_le_update (m : gmap key effect_row) k row row' :
  m !! k = Some row → effect_identity row' = effect_identity row → effects_le m (<[k := row']> m).
Proof.
  intros Hk Hid k' r Hl. destruct (decide (k = k')) as [<-|].
  - exists row'. rewrite lookup_insert_eq. split; [done|congruence].
  - exists r. by rewrite lookup_insert_ne.
Qed.

Lemma PrepareEffect_spec e c phase digest d d' effect :
  PrepareEffect e c phase digest d = Ok (d', effect) →
  ∃ t ts row f, operationTable (c_Kind c) = Ok (t, ts)
    ∧ ops_of t d !! claim_key c = Some row ∧ lease_held c (env_now e) row = true
    ∧ op_command row = c_Command c ∧ d' = set_effects f d
    ∧ effects_le (db_effects d) (f (db_effects d)).
Proof.
  unfold PrepareEffect. intros ([t ts] & Et & H1)%result_bind_Ok.
  destruct (ops_of t d !! claim_key c) as [row|] eqn:Er; [|done].
  destruct (lease_held c (env_now e) row) eqn:L; [|done]. simpl in H1.
  case_bool_decide; [|done]. apply result_bind_Ok in H1 as (ef & _ & H1). case_decide; [done|].
  simplify_eq. do 4 eexists. split_and!; [done..|]. simpl. case_match; [done|by apply effects_le_fresh].
Qed.

Lemma RecordEffect_spec e effect status observation code d d' :
  RecordEffect e effect status observation code d = Ok d' →
  ∃ f, d' = set_effects f d ∧ effects_le (db_effects d) (f (db_effects d)).
Proof.
  unfold RecordEffect. case_decide; [done|]. case_match eqn:E; [|done]. intros [= <-].
  eexists. split; [done|]. by eapply effects_le_update.
Qed.

Lemma RepairOperation_spec e kind domain operation actor reason dedup deadline d d' :
  RepairOperation e kind domain operation actor reason dedup deadline d = Ok d' →
  d' = d ∨ ∃ t ts row ik irow, let k := (domain, operation) in
    operationTable kind = Ok (t, ts) ∧ db_inbox d !! ik = None
    ∧ lockRepairRevision kind k (set_inbox <[ik := irow]> d) = Ok ()
    ∧ ops_of t d !! k = Some row ∧ op_observed_state row = "failed"
    ∧ d' = writeOutboxAndAudit e domain kind operation (kind +:+ ".repair-accepted")
             actor dedup "accepted" operation (env_now e)
             (set_ops t <[k := repaired_row actor dedup deadline (env_now e) row]>
                (set_inbox <[ik := irow]> d)).
Proof.
  unfold RepairOperation. case_decide; [done|]. intros ([t ts] & Et & H1)%result_bind_Ok.
  destruct (db_inbox d !! _) eqn:Ei; [case_decide; naive_solver|].
  apply result_bind_Ok in H1 as ([] & Hl & H1). rewrite ops_of_set_inbox in H1.
  destruct (ops_of t d !! _) as [row|] eqn:Er; [|done]. case_decide; [|done]. simplify_eq.
  right. do 5 eexists. repeat split; eauto.
Qed.

End steps.
