(* ===== verification/StoreRefinement.v ===== *)
(** * The store implements its specification

    Every committed call is a (possibly empty) sequence of the abstract steps of
    [StoreSpec], given that the claim a worker presents was issued by the store.
    Claims stay meaningful over runs because operation rows only move forward in
    the order [row_le]. *)
From S2P Require Import Prelude.
From S2P Require Import GoStrings.
From S2P Require Import Sha256.
From S2P Require Import GoJson.
From S2P Require Import Lifecycle.
From S2P Require Import Domain.
From S2P Require Import Database.
From S2P Require Import OperationStore.
From S2P Require Import Commands.
From S2P Require Import StoreSpec.
From S2P Require Import StoreSteps.

(** ** Frames *)
Lemma core_of_set_services f d : core_of (set_services f d) = core_of d. Proof. done. Qed.
Lemma core_of_set_effects f d : core_of (set_effects f d) = core_of d. Proof. done. Qed.
Lemma core_of_set_inbox f d : core_of (set_inbox f d) = core_of d. Proof. done. Qed.
Lemma core_of_set_idempotency f d : core_of (set_idempotency f d) = core_of d. Proof. done. Qed.
Lemma core_of_set_events f d : core_of (set_events f d) = core_of d. Proof. done. Qed.
Lemma core_of_set_ops t f d :
  core_of (set_ops t f d) = with_ops t (f (ops_of t d)) (core_of d).
Proof. by destruct t. Qed.
Lemma core_of_set_revisions f d :
  core_of (set_revisions f d) = with_revisions (f (db_revisions d)) (core_of d).
Proof. done. Qed.
Lemma core_of_set_aliases f d :
  core_of (set_aliases f d) = with_aliases (f (db_aliases d)) (core_of d).
Proof. done. Qed.
Lemma core_of_set_invocations f d :
  core_of (set_invocations f d) = with_invocations (f (db_invocations d)) (core_of d).
Proof. done. Qed.
Lemma core_of_log e a b c d' f g h i now d :
  core_of (writeOutboxAndAudit e a b c d' f g h i now d) = core_of d.
Proof. done. Qed.
Lemma core_of_event a b inv c f p now d : core_of (writeInvocationEvent a b inv c f p now d) = core_of d.
Proof. done. Qed.
Lemma core_ops_of t d : core_ops t (core_of d) = ops_of t d.
Proof. by destruct t. Qed.
Lemma ops_of_core t d d' : core_of d = core_of d' → ops_of t d = ops_of t d'.
Proof. intros E. by rewrite <- !core_ops_of, E. Qed.
Lemma ops_of_log t e a b c d' f g h i now d :
  ops_of t (writeOutboxAndAudit e a b c d' f g h i now d) = ops_of t d.
Proof. by destruct t. Qed.
Lemma ops_of_event t a b inv c f p now d : ops_of t (writeInvocationEvent a b inv c f p now d) = ops_of t d.
Proof. by destruct t. Qed.

#[export] Hint Rewrite core_of_set_services core_of_set_effects core_of_set_inbox core_of_set_idempotency
  core_of_set_events core_of_set_ops core_of_set_revisions core_of_set_aliases core_of_set_invocations
  core_of_log core_of_event ops_of_log ops_of_event : dg.

(** ** Operation rows move forward *)

(** A row either keeps its token, and then keeps its holder and work or has lost
    its holder, or has a larger token. *)
Definition row_le (row row' : operation_row) : Prop :=
  op_resource_id row' = op_resource_id row
  ∧ op_state_machine_version row' = op_state_machine_version row
  ∧ (op_lease_token row' = op_lease_token row
     ∧ ((op_lease_owner row' = op_lease_owner row ∧ op_observed_state row' = op_observed_state row
         ∧ op_command row' = op_command row)
        ∨ op_lease_owner row' = None)
     ∨ (op_lease_token row < op_lease_token row')%Z).

#[export] Instance row_le_preorder : PreOrder row_le.
Proof.
  split.
  - intros row. unfold row_le. naive_solver.
  - intros x y z (R1 & V1 & H1) (R2 & V2 & H2). split; [congruence|]. split; [congruence|].
    destruct H1 as [[T1 [(O1 & S1 & C1)|O1]]|T1], H2 as [[T2 [(O2 & S2 & C2)|O2]]|T2];
      solve [right; lia | left; split; [congruence|]; first [right; congruence | left; repeat split; congruence]].
Qed.

Definition ops_le (d d' : db) : Prop :=
  ∀ t k row, ops_of t d !! k = Some row → ∃ row', ops_of t d' !! k = Some row' ∧ row_le row row'.

#[export] Instance ops_le_preorder : PreOrder ops_le.
Proof.
  split.
  - intros d t k row E. exists row. split; [done|reflexivity].
  - intros x y z H1 H2 t k row E. destruct (H1 _ _ _ E) as (r1 & E1 & L1).
    destruct (H2 _ _ _ E1) as (r2 & E2 & L2). exists r2. split; [done|]. by etrans.
Qed.

Lemma ops_le_same d d' : (∀ t, ops_of t d' = ops_of t d) → ops_le d d'.
Proof. intros E t k row Hk. exists row. rewrite E. split; [done|reflexivity]. Qed.

Lemma ops_le_core d d' : core_of d' = core_of d → ops_le d d'.
Proof. intros E. apply ops_le_same. intros t. by apply ops_of_core. Qed.

Lemma ops_le_insert t k row row' d :
  ops_of t d !! k = Some row → row_le row row' → ops_le d (set_ops t <[k := row']> d).
Proof.
  intros Hk L t' k' r Hr. destruct (decide (t' = t)) as [->|Nt].
  - rewrite ops_of_set_ops. destruct (decide (k = k')) as [->|N].
    + exists row'. simplify_eq. by rewrite lookup_insert_eq.
    + exists r. rewrite lookup_insert_ne by done. split; [done|reflexivity].
  - rewrite ops_of_set_ops_ne by done. exists r. split; [done|reflexivity].
Qed.

Lemma ops_le_fresh t k row d :
  ops_of t d !! k = None → ops_le d (set_ops t <[k := row]> d).
Proof.
  intros Hk t' k' r Hr. exists r. split; [|reflexivity]. destruct (decide (t' = t)) as [->|Nt].
  - rewrite ops_of_set_ops, lookup_insert_ne; congruence.
  - by rewrite ops_of_set_ops_ne.
Qed.

Lemma row_le_claimed w x now row : row_le row (claimed_row w x now row).
Proof. unfold row_le; simpl. split; [done|]. split; [done|]. right. lia. Qed.
Lemma row_le_renewed x now row : row_le row (renewed_row x now row).
Proof. unfold row_le; simpl. naive_solver. Qed.
Lemma row_le_advanced s r f now row : row_le row (advanced_row s r f now row).
Proof. unfold row_le; simpl. naive_solver. Qed.
Lemma row_le_retried cl p due now row : row_le row (retried_row cl p due now row).
Proof. unfold row_le; simpl. naive_solver. Qed.
Lemma row_le_repaired a c dl now row : row_le row (repaired_row a c dl now row).
Proof. unfold row_le; simpl. naive_solver. Qed.
Lemma row_le_cancelling a c now row : row_le row (cancelling_operation a c now row).
Proof. unfold row_le; simpl. naive_solver. Qed.

#[export] Hint Resolve row_le_claimed row_le_renewed row_le_advanced row_le_retried row_le_repaired
  row_le_cancelling ops_le_insert ops_le_fresh ops_le_core : dg.

Lemma ops_le_cancel k a c now d : ops_le d (set_ops InvocationOps (cancel_operations k a c now) d).
Proof.
  intros [] k' row Hk; simpl in *; [exists row; split; [done|reflexivity]|].
  rewrite lookup_cancel_operations, Hk. simpl. eexists; split; [done|].
  case_decide; [auto with dg|reflexivity].
Qed.

Section refinement.
Context `{SchemaEngine}.

(** ** Fenced calls *)

Lemma updateResource_ops c ns r f now d d1 t :
  updateResourceForTransition c ns r f now d = Ok d1 → ops_of t d1 = ops_of t d.
Proof.
  unfold updateResourceForTransition. repeat case_decide; intros E; simplify_eq; try by destruct t.
  apply result_bind_Ok in E as (inv & _ & E). simplify_eq. by autorewrite with dg.
Qed.

Lemma advance_ops_le e c ns r f d d' : advance e c ns r f d = Ok d' → ops_le d d'.
Proof.
  intros (t & ts & row & ns' & r' & f' & d1 & _ & Hr & _ & _ & _ & Hu & ->)%advance_spec.
  trans (set_ops t <[claim_key c := advanced_row ns' r' f' (env_now e) row]> d); [eauto with dg|].
  apply ops_le_same. intros t'. rewrite ops_of_log. by eapply updateResource_ops.
Qed.

Lemma execute_spec e i act d d' r :
  execute e i act d = Ok (d', r) →
  (d' = d ∧ cr_Replayed r = true)
  ∨ (cr_Replayed r = false ∧ db_idempotency d !! idempotency_key i = None ∧
     ∃ res st v d1 f, act (env_now e) (set_idempotency <[idempotency_key i := res]> d) = Ok (st, v, d1)
       ∧ r = CmdResult st (marshal v) false ∧ d' = set_idempotency f d1
       ∧ f = alter (λ _, IdempotencyRow (id_RequestDigest i) (Some (st, marshal v)) (Some (env_now e))
                           (env_now e + idempotencyRetention)) (idempotency_key i)).
Proof.
  unfold execute. intros H1. destruct (db_idempotency d !! _) as [row|] eqn:E.
  - left. case_decide; [done|]. destruct (idem_response row) as [[st b]|]; [|done]. by simplify_eq.
  - right. apply result_bind_Ok in H1 as ([[st v] d1] & Ha & H1). simplify_eq.
    repeat split; auto. do 5 eexists. repeat split; eauto.
Qed.

(** The abstract effect of a command body. *)
Definition action_refines (act : action) : Prop :=
  ∀ now d st v d1, act now d = Ok (st, v, d1) →
    rtc abs_step (core_of d) (core_of d1) ∧ ops_le d d1.

Lemma execute_refines e i act d d' r :
  action_refines act → execute e i act d = Ok (d', r) →
  rtc abs_step (core_of d) (core_of d') ∧ ops_le d d'.
Proof.
  intros A [[-> _]|(_ & _ & res & st & v & d1 & f & Ha & _ & -> & _)]%execute_spec.
  - split; [constructor|reflexivity].
  - destruct (A _ _ _ _ _ Ha) as [H1 H2]. autorewrite with dg in H1. split; [done|].
    trans d1; [|by apply ops_le_core]. etrans; [|exact H2]. by apply ops_le_core.
Qed.

Lemma step_once C C' d d' : C = core_of d → C' = core_of d' → abs_step C C' → rtc abs_step (core_of d) (core_of d').
Proof. intros -> ->. apply rtc_once. Qed.

Lemma command_skips d d1 : core_of d1 = core_of d → rtc abs_step (core_of d) (core_of d1) ∧ ops_le d d1.
Proof. intros E. rewrite E. split; [constructor|by apply ops_le_core]. Qed.

Lemma existsb_map_to_list {K A} `{Countable K} (p : K * A → bool) (m : gmap K A) :
  existsb p (map_to_list m) = false → ∀ k a, m !! k = Some a → p (k, a) = false.
Proof.
  intros E k a Hk. apply not_true_iff_false. intros T. apply not_true_iff_false in E. apply E.
  apply existsb_exists. exists (k, a). split; [|done]. apply list_elem_of_In. by apply elem_of_map_to_list.
Qed.

Lemma CreateService_refines e i input d d' r :
  CreateService e i input d = Ok (d', r) → rtc abs_step (core_of d) (core_of d') ∧ ops_le d d'.
Proof.
  unfold CreateService. case_decide; [done|]. apply execute_refines. intros now d0 st v d1 Ha. cbv zeta in Ha.
  repeat case_match; simplify_eq; by apply command_skips.
Qed.

Lemma CreateRevision_refines e i input d d' r :
  CreateRevision e i input d = Ok (d', r) → rtc abs_step (core_of d) (core_of d') ∧ ops_le d d'.
Proof.
  apply execute_refines. intros now d0 st v d1 Ha. cbv zeta in Ha.
  destruct (db_services d0 !! _); [|done]. destruct (db_revisions d0 !! _) eqn:E; [done|]. simplify_eq.
  split; [|by apply ops_le_same; intros []].
  eapply step_once; [done| |apply A_new_revision; [exact E|]]; [by autorewrite with dg|done].
Qed.

Lemma AssignAlias_refines e i input d d' r :
  AssignAlias e i input d = Ok (d', r) → rtc abs_step (core_of d) (core_of d') ∧ ops_le d d'.
Proof.
  apply execute_refines. intros now d0 st v d1 Ha. cbv zeta in Ha.
  destruct (db_revisions d0 !! _) as [rev|] eqn:E; [|done]. case_decide as D; [done|].
  apply result_bind_Ok in Ha as (row & Hrow & Ha). simplify_eq.
  assert (als_withdrawn_at row = None ∧ als_revision_id row = aai_RevisionID input) as [W R].
  { revert Hrow. repeat case_match; intros; by simplify_eq. }
  split; [|by apply ops_le_same; intros []].
  eapply step_once; [done| |eapply (A_route _ (_, _, _) row rev)]; [by autorewrite with dg|done| | |];
    simpl; [by rewrite R|..]; destruct (decide (rev_service_id rev = aai_ServiceID input));
    destruct (decide (rev_state rev = "published")); tauto.
Qed.

Lemma WithdrawAlias_refines e i input d d' r :
  WithdrawAlias e i input d = Ok (d', r) → rtc abs_step (core_of d) (core_of d') ∧ ops_le d d'.
Proof.
  unfold WithdrawAlias. case_decide; [done|]. apply execute_refines. intros now d0 st v d1 Ha. cbv zeta in Ha.
  destruct (db_aliases d0 !! _) as [row|] eqn:E; [|done]. case_decide; [done|]. case_decide; [done|].
  simplify_eq. split; [|by apply ops_le_same; intros []].
  eapply step_once; [done| |eapply A_unroute]; [by autorewrite with dg|by eexists].
Qed.

Lemma revision_routed_false k d ak a :
  revision_routed k d = false → db_aliases d !! ak = Some a → ak.1.1 = k.1 → als_revision_id a = k.2 →
  is_Some (als_withdrawn_at a).
Proof.
  intros R Ha E1 E2. pose proof (existsb_map_to_list _ _ R _ _ Ha) as F. simpl in F.
  apply bool_decide_eq_false in F. destruct (als_withdrawn_at a); [by eexists|tauto].
Qed.

Lemma revision_active_false k d :
  revision_routed k d = false → revision_active k d = false → idle_revision k (core_of d).
Proof.
  intros R A. unfold revision_active in A. apply orb_false_iff in A as [A1 A2].
  split; [|split].
  - intros ak a Ha. by eapply revision_routed_false.
  - intros ik inv Hi E1 E2. pose proof (existsb_map_to_list _ _ A1 _ _ Hi) as F. simpl in F.
    rewrite bool_decide_eq_true_2 in F by done. simpl in F. apply orb_false_iff in F as [F1 F2].
    apply bool_decide_eq_false, dec_stable in F1. split; [done|]. intros ok op Ho E3 E4.
    pose proof (existsb_map_to_list _ _ F2 _ _ Ho) as F. simpl in F. apply bool_decide_eq_false in F.
    apply dec_stable. intros N. by apply F.
  - intros ok op Ho E1 E2. pose proof (existsb_map_to_list _ _ A2 _ _ Ho) as F. simpl in F.
    apply bool_decide_eq_false in F. apply dec_stable. intros N. by apply F.
Qed.

Lemma RetireRevision_refines e i input d d' r :
  RetireRevision e i input d = Ok (d', r) → rtc abs_step (core_of d) (core_of d') ∧ ops_le d d'.
Proof.
  unfold RetireRevision. case_decide; [done|]. apply execute_refines. intros now d0 st v d1 Ha. cbv zeta in Ha.
  apply result_bind_Ok in Ha as (rev & Hr & Ha). unfold getRevisionForUpdate in Hr.
  destruct (db_revisions d0 !! _) as [rev0|] eqn:E; [|done]. simplify_eq.
  case_decide; [done|]. case_decide as P; [done|].
  destruct (revision_routed _ _) eqn:R; [done|]. destruct (revision_active _ _) eqn:A; [done|].
  simplify_eq. split; [|by apply ops_le_same; intros []].
  eapply step_once; [done| |eapply A_retire; [exact E| |by apply revision_active_false]];
    [by autorewrite with dg|]. done.
Qed.

Lemma AcceptPublication_refines e i input supported d d' r :
  AcceptPublication e i input supported d = Ok (d', r) →
  rtc abs_step (core_of d) (core_of d') ∧ ops_le d d'.
Proof.
  apply execute_refines. intros now d0 st v d1 Ha. cbv zeta in Ha.
  apply result_bind_Ok in Ha as (rev & Hr & Ha). unfold getRevisionForUpdate in Hr.
  destruct (db_revisions d0 !! _) as [rev0|] eqn:E; [|done]. simplify_eq.
  case_decide; [done|]. case_decide as D; [done|]. case_decide; [done|]. case_decide; [done|].
  destruct (ValidateRevisionSchemas _ _); [done|].
  destruct (publication_operation_for _ _) eqn:P.
  { apply result_bind_Ok in Ha as (op & _ & Ha). simplify_eq. by apply command_skips. }
  destruct (db_publication_ops d0 !! _) eqn:N; [done|].
  apply result_bind_Ok in Ha as (op & _ & Ha). simplify_eq. split.
  - set (row := queued_operation _ _ _ _ _ _ _ _).
    eapply step_once; [done| |apply (A_accept_publication (core_of d0) _ row rev N); [|exact E|done|done]].
    { by autorewrite with dg. }
    intros k' row' Hk' E1 E2. pose proof (existsb_map_to_list _ _ P _ _ Hk') as F.
    apply bool_decide_eq_false in F. simpl in *. tauto.
  - etrans; [eapply (ops_le_fresh PublicationOps _ _ d0 N)|]. apply ops_le_core; reflexivity.
Qed.

Lemma resolve_alias_spec domain service name d revisionID rev :
  resolve_alias domain service name d = Some (revisionID, rev) →
  ∃ a, db_aliases d !! (domain, service, name) = Some a ∧ als_withdrawn_at a = None
    ∧ als_revision_id a = revisionID ∧ db_revisions d !! (domain, revisionID) = Some rev
    ∧ rev_service_id rev = service ∧ rev_state rev = "published".
Proof.
  unfold resolve_alias. intros (a & Ea & H1)%bind_Some. apply bind_Some in H1 as (W & _ & H1).
  apply bind_Some in H1 as (r & Er & H1). apply bind_Some in H1 as (G & _ & H1). simplify_eq.
  exists a. naive_solver.
Qed.

Lemma AcceptInvocation_refines e i input d d' r :
  AcceptInvocation e i input d = Ok (d', r) → rtc abs_step (core_of d) (core_of d') ∧ ops_le d d'.
Proof.
  unfold AcceptInvocation. destruct (dispatch_mismatch _ _); [done|].
  apply execute_refines. intros now d0 st v d1 Ha. cbv zeta in Ha.
  destruct (dispatch_mismatch _ _); [done|].
  destruct (resolve_alias _ _ _ _) as [[revisionID rev]|] eqn:A; [|done].
  destruct (dispatch_mismatch _ _); [done|]. destruct (ValidateInvocationInput _ _); [done|].
  destruct (invocation_unique_violation _ _ _) eqn:U1; [done|].
  destruct (operation_unique_violation _ _ _) eqn:U2; [done|].
  apply resolve_alias_spec in A as (a & _ & _ & _ & Er & _ & Ep).
  unfold invocation_unique_violation in U1. unfold operation_unique_violation in U2.
  apply orb_false_iff in U1 as [U1 _], U2 as [U2 U3].
  apply bool_decide_eq_false, eq_None_not_Some in U1. apply bool_decide_eq_false, eq_None_not_Some in U2.
  simplify_eq. split.
  - set (row := queued_operation _ _ _ _ _ _ _ _). set (inv := InvocationRow _ _ _ _ _ _ _ _ _ _ _ _ _ _ _ _).
    eapply step_once; [done| |apply (A_accept_invocation (core_of d0) _ _ row inv rev U2 U1);
      [|done|done|exact Er|exact Ep|done|done|done]].
    { by autorewrite with dg. }
    intros k' row' Hk' E1 E2. pose proof (existsb_map_to_list _ _ U3 _ _ Hk') as F.
    apply bool_decide_eq_false in F. simpl in *. tauto.
  - etrans; [eapply (ops_le_fresh InvocationOps _ _ d0 U2)|]. apply ops_le_same; intros []; reflexivity.
Qed.

Lemma AcceptCancellation_refines e i input d d' r :
  AcceptCancellation e i input d = Ok (d', r) → rtc abs_step (core_of d) (core_of d') ∧ ops_le d d'.
Proof.
  unfold AcceptCancellation. case_decide; [done|]. apply execute_refines.
  intros now d0 st v d1 Ha. cbv zeta in Ha.
  apply result_bind_Ok in Ha as (inv & Hi & Ha). unfold getInvocationForUpdate in Hi.
  destruct (db_invocations d0 !! _) as [inv0|] eqn:E; [|done]. simplify_eq.
  case_decide as D1; [by simplify_eq; apply command_skips|].
  case_decide as D2; [by simplify_eq; apply command_skips|].
  case_decide as D3; [done|]. simplify_eq. split.
  - eapply step_once; [done| |eapply A_cancel; [exact E|]]; [by autorewrite with dg|].
    set_solver.
  - etrans; [apply ops_le_cancel|]. by apply ops_le_same; intros [].
Qed.

Lemma run_command_refines e i cmd d d' r :
  run_command e i cmd d = Ok (d', r) → rtc abs_step (core_of d) (core_of d') ∧ ops_le d d'.
Proof.
  destruct cmd; simpl; eauto using CreateService_refines, CreateRevision_refines, RetireRevision_refines,
    AcceptPublication_refines, AssignAlias_refines, WithdrawAlias_refines, AcceptInvocation_refines,
    AcceptCancellation_refines.
Qed.

(** ** Claims *)

(** What the store knows of a claim it issued. *)
Definition claim_ok (d : db) (c : OperationClaim) : Prop :=
  ∃ t ts row, operationTable (c_Kind c) = Ok (t, ts) ∧ ops_of t d !! claim_key c = Some row
    ∧ op_resource_id row = c_ResourceID c ∧ (c_FencingToken c ≤ op_lease_token row)%Z.

Lemma claim_ok_le d d' c : ops_le d d' → claim_ok d c → claim_ok d' c.
Proof.
  intros L (t & ts & row & Et & Hr & R & T). destruct (L _ _ _ Hr) as (row' & Hr' & R' & _ & T').
  exists t, ts, row'. repeat split; auto; [congruence|]. destruct T' as [[T' _]|T']; lia.
Qed.

Lemma RepairOperation_refines e kind domain operation actor reason dedup deadline d d' :
  RepairOperation e kind domain operation actor reason dedup deadline d = Ok d' →
  rtc abs_step (core_of d) (core_of d') ∧ ops_le d d'.
Proof.
  intros [->|(t & ts & row & ik & irow & Et & _ & L & Hr & Hf & ->)]%RepairOperation_spec.
  { by apply command_skips. }
  split.
  - destruct (operationTable_cases _ _ _ Et) as [[-> ->]|[-> ->]]; unfold lockRepairRevision in L;
      simpl in L, Hr; rewrite Hr in L; simpl in L; rewrite option_guard_True in L by done; simpl in L.
    + destruct (db_revisions d !! _) as [rev|] eqn:E; [|done]. case_decide as D; [done|].
      eapply step_once; [done| |eapply A_repair_publication; [exact Hr|done|exact E|]];
        [by autorewrite with dg|done].
    + destruct (db_invocations d !! _) as [inv|] eqn:E; [|done]. simpl in L.
      destruct (db_revisions d !! _) as [rev|] eqn:E2; [|done]. case_decide as D; [done|].
      eapply step_once; [done| |eapply A_repair_invocation; [exact Hr|done|exact E|exact E2|]];
        [by autorewrite with dg|done].
  - trans (set_inbox <[ik := irow]> d); [by apply ops_le_core|].
    etrans; [eapply ops_le_insert; [|apply row_le_repaired]|apply ops_le_core; reflexivity].
    by rewrite ops_of_set_inbox.
Qed.

Lemma advance_refines e c ns r f d d' :
  claim_ok d c → ns ≠ "queued" → advance e c ns r f d = Ok d' →
  rtc abs_step (core_of d) (core_of d') ∧ ops_le d d'.
Proof.
  intros (t0 & ts0 & row0 & Et0 & Hr0 & R0 & _) Hq Ha. split; [|by eapply advance_ops_le].
  apply advance_spec in Ha as (t & ts & row & ns' & r' & f' & d1 & Et & Hr & Hh & Hv & Hn & Hu & ->).
  rewrite Et in Et0. injection Et0 as <- <-. rewrite Hr in Hr0. injection Hr0 as <-.
  apply lease_held_spec in Hh as (Hs & _). rewrite <- Hs in Hv.
  assert (Hq' : ns' ≠ "queued") by naive_solver. rewrite core_of_log.
  destruct (operationTable_cases _ _ _ Et) as [[Ek ->]|[Ek ->]]; rewrite Ek in Hv;
    unfold updateResourceForTransition in Hu; rewrite Ek in Hu.
  - apply validateTransition_publication in Hv. rewrite decide_True in Hu by done.
    eapply step_once; [done| |eapply (A_publication _ _ _ ns' r' f' (env_now e)); [exact Hr|exact Hv|done]].
    unfold claim_key. simpl. rewrite R0. case_decide as D; case_decide as D'; try done; simplify_eq; done.
  - apply validateTransition_invocation in Hv. rewrite decide_False, decide_True in Hu by done.
    case_decide as D.
    + simplify_eq. eapply step_once; [done| |eapply (A_invocation_silent _ _ _ ns' r' f' (env_now e)); eauto].
      done.
    + apply result_bind_Ok in Hu as (inv' & Hi & Hu). simplify_eq. unfold getInvocationForUpdate in Hi.
      simpl in Hi. rewrite lookup_alter_eq in Hi. destruct (db_invocations d !! _) as [inv|] eqn:E; [|done].
      eapply step_once; [done| |eapply (A_invocation _ _ _ inv ns' r' f' (env_now e)); [exact Hr| |done|done]].
      * unfold claim_key. simpl. rewrite R0. simpl. unfold core_of. simpl. by rewrite (alter_Some_insert _ _ _ _ E).
      * simpl. by rewrite R0.
Qed.
End refinement.

(** * The append-only side of the store

    Audit records, invocation events, inbox records and completed idempotency
    records are never rewritten: every committed call relates the logs before
    and after by [log_le] (commands and repairs here, the rest in
    [InteractionLogs]). *)

(** No event of the invocation has this source yet. *)
Definition source_fresh (l : list event_row) (ev : event_row) : Prop :=
  ∀ ev', ev' ∈ l → ev_isolation_domain_id ev' = ev_isolation_domain_id ev → ev_invocation_id ev' = ev_invocation_id ev →
    ev_source ev' ≠ ev_source ev.

(** An event is appended with the next sequence number of its invocation; one that has
    a source is the runtime's request for an interaction, its first. *)
Definition event_append (l l' : list event_row) : Prop :=
  ∃ ev, l' = l ++ [ev]
    ∧ ev_sequence ev = next_sequence (ev_isolation_domain_id ev) (ev_invocation_id ev) l
    ∧ (ev_source ev = None ∨ (has_prefix (ev_type ev) "interaction." = true ∧ source_fresh l ev)).

Record log_le (d d' : db) : Prop := LogLe {
  log_audit : db_audit d `prefix_of` db_audit d';
  log_events : rtc event_append (db_events d) (db_events d');
  log_inbox : db_inbox d ⊆ db_inbox d';
  log_idempotency : db_idempotency d ⊆ db_idempotency d';
  log_effects : effects_le (db_effects d) (db_effects d');
}.

#[export] Instance log_le_preorder : PreOrder log_le.
Proof.
  split.
  - intros d. split; reflexivity.
  - intros x y z [] []. split; by etrans.
Qed.

(** [same_idempotency] is what a command body guarantees besides. *)
Definition log_step (d d' : db) : Prop := log_le d d' ∧ db_idempotency d' = db_idempotency d.

Lemma log_step_le d d' : log_step d d' → log_le d d'.
Proof. by intros []. Qed.

Lemma log_step_refl d : log_step d d.
Proof. split; [reflexivity|done]. Qed.

Lemma log_step_trans d1 d2 d3 : log_step d1 d2 → log_step d2 d3 → log_step d1 d3.
Proof. intros [] []. split; [by etrans|congruence]. Qed.

(** A change of other tables. *)
Lemma log_step_frame d d' :
  db_audit d' = db_audit d → db_events d' = db_events d → db_inbox d' = db_inbox d →
  db_idempotency d' = db_idempotency d → db_effects d' = db_effects d → log_step d d'.
Proof. intros E1 E2 E3 E4 E5. split; [split; by rewrite ?E1, ?E2, ?E3, ?E4, ?E5|done]. Qed.

Lemma log_step_effects f d : effects_le (db_effects d) (f (db_effects d)) → log_step d (set_effects f d).
Proof. intros Hf. split; [|done]. split; simpl; [done|constructor|done|done|done]. Qed.

Lemma log_step_ops t f d : log_step d (set_ops t f d).
Proof. by destruct t; apply log_step_frame. Qed.

Lemma log_step_outbox e a b c d' f g h i now d :
  log_step d (writeOutboxAndAudit e a b c d' f g h i now d).
Proof.
  split; [|done]. split; simpl; [by eexists|constructor|done|done|done].
Qed.

Lemma log_step_event a b inv c f p now d : log_step d (writeInvocationEvent a b inv c f p now d).
Proof.
  split; [|done]. split; simpl; [done| |done|done|done]. apply rtc_once. eexists. split_and!; [done|done|by left].
Qed.

Lemma log_step_inbox k row d : db_inbox d !! k = None → log_step d (set_inbox <[k := row]> d).
Proof.
  intros E. split; [|done]. split; simpl; [done|constructor|by apply insert_subseteq|done|done].
Qed.

(** Follows the composition of table updates back to the start. *)
Ltac log_solve :=
  repeat first
    [ apply log_step_refl
    | (eapply log_step_trans; [|apply log_step_outbox])
    | (eapply log_step_trans; [|apply log_step_event])
    | (eapply log_step_trans; [|apply log_step_ops])
    | by apply log_step_frame ].

Section logs.
Context `{SchemaEngine}.

Lemma updateResource_logs c ns r f now d d1 :
  updateResourceForTransition c ns r f now d = Ok d1 → log_step d d1.
Proof.
  unfold updateResourceForTransition. repeat case_decide; intros E; simplify_eq; log_solve.
  apply result_bind_Ok in E as (inv & _ & E). simplify_eq. log_solve.
Qed.

Lemma advance_logs e c ns r f d d' : advance e c ns r f d = Ok d' → log_step d d'.
Proof.
  intros (t & ts & row & ns' & r' & f' & d1 & _ & _ & _ & _ & _ & Hu & ->)%advance_spec.
  apply updateResource_logs in Hu. eapply log_step_trans; [|apply log_step_outbox].
  eapply log_step_trans; [apply log_step_ops|exact Hu].
Qed.

Lemma execute_logs e i act d d' r :
  (∀ now d st v d1, act now d = Ok (st, v, d1) → log_step d d1) →
  execute e i act d = Ok (d', r) → log_le d d'.
Proof.
  intros A [[-> _]|(_ & E & res & st & v & d1 & f & Ha & _ & -> & ->)]%execute_spec; [reflexivity|].
  apply A in Ha as [[L1 L2 L3 _] L5]. split; simpl; auto.
  rewrite L5. simpl. rewrite (alter_Some_insert _ _ _ res) by apply lookup_insert_eq.
  rewrite insert_insert_eq. by apply insert_subseteq.
Qed.

(** [run_command] is [execute] with a body that only appends to the logs, unless
    its arguments are refused before any transaction starts. *)
Lemma run_command_execute cmd :
  (∃ act, (∀ e i now d st v d1, act e i now d = Ok (st, v, d1) → log_step d d1)
     ∧ ∀ e i d, run_command e i cmd d = execute e i (act e i) d)
  ∨ (∃ er, ∀ e i d, run_command e i cmd d = Err er).
Proof.
  destruct cmd; simpl;
    unfold CreateService, CreateRevision, RetireRevision, AcceptPublication, AssignAlias, WithdrawAlias,
      AcceptInvocation, AcceptCancellation; try case_match;
    first [right; eexists; reflexivity | left; eexists (λ e i, _); split; [|reflexivity]];
    intros e i now d0 st v d1 Ha; cbv beta zeta in Ha;
    repeat first
      [ done
      | (apply result_bind_Ok in Ha as (? & ? & Ha))
      | (progress simplify_eq)
      | case_match ]; log_solve.
Qed.

Lemma run_command_logs e i cmd d d' r : run_command e i cmd d = Ok (d', r) → log_le d d'.
Proof.
  destruct (run_command_execute cmd) as [(act & A & E)|(er & E)]; rewrite E; [|done].
  apply execute_logs. intros now. apply A.
Qed.

Lemma RepairOperation_logs e kind domain operation actor reason dedup deadline d d' :
  RepairOperation e kind domain operation actor reason dedup deadline d = Ok d' → log_step d d'.
Proof.
  intros [->|(t & ts & row & ik & irow & _ & Ei & _ & _ & _ & ->)]%RepairOperation_spec; log_solve.
  by apply log_step_inbox.
Qed.

End logs.
