(* ===== verification/InteractionLogs.v ===== *)
(** * Runtime interactions leave the rest of the store alone

    Approvals and questions change their own tables and append to the journal, the
    audit log and the outbox; with them every committed call relates the logs
    before and after by [log_le]. *)
From S2P Require Import Prelude.
From S2P Require Import GoStrings.
From S2P Require Import Sha256.
From S2P Require Import GoJson.
From S2P Require Import Lifecycle.
From S2P Require Import Domain.
From S2P Require Import RuntimeTables.
From S2P Require Import Database.
From S2P Require Import OperationStore.
From S2P Require Import Commands.
From S2P Require Import RuntimeInteraction.
From S2P Require Import RuntimeApproval.
From S2P Require Import RuntimeQuestion.
From S2P Require Import StoreSpec.
From S2P Require Import StoreSteps.
From S2P Require Import StoreRefinement.

Record interaction_le (d d' : db) : Prop := InteractionLe {
  il_core : core_of d' = core_of d;
  il_effects : db_effects d' = db_effects d;
  il_attempts : rt_attempts (db_runtime d') = rt_attempts (db_runtime d);
  il_outbox : db_outbox d ⊆ db_outbox d';
  il_log : log_step d d';
}.

#[export] Instance interaction_le_preorder : PreOrder interaction_le.
Proof.
  split.
  - intros d. split; [done..|apply log_step_refl].
  - intros x y z [] []. split; [congruence..|by etrans|by eapply log_step_trans].
Qed.

Lemma insert_event_le what ev d d' u :
  ev_sequence ev = next_sequence (ev_isolation_domain_id ev) (ev_invocation_id ev) (db_events d) →
  ev_source ev = None ∨ (has_prefix (ev_type ev) "interaction." = true ∧ source_fresh (db_events d) ev) →
  insert_event what ev d = Ok (d', u) → interaction_le d d'.
Proof.
  intros Hs Hi ->%insert_event_Ok. split; [done..|]. split; [|done].
  split; simpl; [done| |done|done|done]. apply rtc_once. by eexists.
Qed.

Lemma insert_audit_le row : tx_rel interaction_le (insert_audit row).
Proof.
  intros d d' u H. tx_inv H. split; [done..|]. split; [|done].
  split; simpl; [by eexists|constructor|done|done|done].
Qed.

Lemma insert_outbox_le what id row : tx_rel interaction_le (insert_outbox what id row).
Proof. intros d d' u H. tx_inv H. split; [done..|by apply insert_subseteq|by apply log_step_frame]. Qed.

Lemma put_le (d : db) f :
  rt_attempts (f (db_runtime d)) = rt_attempts (db_runtime d) → interaction_le d (set_runtime f d).
Proof. intros Hf. split; [done|done|done|done|by apply log_step_frame]. Qed.

Lemma update_approval_le k w f : tx_rel interaction_le (update_approval k w f).
Proof. intros d d' u H. unfold update_approval in H. go_inv H; [by apply put_le|reflexivity..]. Qed.

Lemma insert_approval_le v : tx_rel interaction_le (insert_approval v).
Proof. intros d d' u H. unfold insert_approval in H. go_inv H. by apply put_le. Qed.

Lemma update_question_le k w f : tx_rel interaction_le (update_question k w f).
Proof. intros d d' u H. unfold update_question in H. go_inv H; [by apply put_le|reflexivity..]. Qed.

Lemma insert_question_le v : tx_rel interaction_le (insert_question v).
Proof. intros d d' u H. unfold insert_question in H. go_inv H. by apply put_le. Qed.

Lemma active_approval_le now v : tx_rel interaction_le (activeRuntimeApproval now v).
Proof.
  intros d d' u H. unfold activeRuntimeApproval in H.
  destruct (activeRuntimeInteraction _ _ _ _ _ _) as [[d1 u1]|] eqn:E; [|done]. simplify_eq.
  apply activeRuntimeInteraction_Ok in E as [-> _]. reflexivity.
Qed.

Lemma active_question_le now v : tx_rel interaction_le (activeRuntimeQuestion now v).
Proof.
  intros d d' u H. unfold activeRuntimeQuestion in H.
  destruct (activeRuntimeInteraction _ _ _ _ _ _) as [[d1 u1]|] eqn:E; [|done]. simplify_eq.
  apply activeRuntimeInteraction_Ok in E as [-> _]. reflexivity.
Qed.

Lemma getInvocationRuntimeEvent_None dom inv source d :
  getInvocationRuntimeEvent dom inv source d = None → ∀ ev, ev ∈ db_events d →
  ev_isolation_domain_id ev = dom → ev_invocation_id ev = inv → ev_source ev ≠ Some source.
Proof.
  unfold getInvocationRuntimeEvent. intros H ev Hev Hd Hi Hs. destruct (list_find _ _) as [[n e]|] eqn:E; [done|].
  rewrite list_find_None, Forall_forall in E. by apply (E ev Hev).
Qed.

Lemma interaction_event_le s claim target source ty payload : has_prefix ty "interaction." = true →
  tx_rel interaction_le (recordInvocationRuntimeInteractionEvent s claim target source ty payload).
Proof.
  intros Hty d d' u H. unfold recordInvocationRuntimeInteractionEvent in H.
  apply tx_bind_Ok in H as (d1 & [] & H1 & H). tx_inv H1.
  apply tx_bind_Ok in H as (d1 & ex & H2 & H). tx_inv H2. destruct (getInvocationRuntimeEvent _ _ _ _) eqn:Hnew.
  - tx_inv H. reflexivity.
  - apply tx_bind_Ok in H as (d1 & sequence & H2 & H). tx_inv H2.
    apply tx_bind_Ok in H as (d1 & live & H2 & H). tx_inv H2.
    apply tx_bind_Ok in H as (d1 & [] & H2 & H). tx_inv H2. apply insert_event_le in H; [done|done|right; split; [done|]]. intros ev He Hd Hi.
    by eapply (getInvocationRuntimeEvent_None _ _ _ _ Hnew ev).
Qed.

Lemma interaction_outcome_le s value : tx_rel interaction_le (recordRuntimeInteractionOutcome s value).
Proof.
  intros d d' u H. unfold recordRuntimeInteractionOutcome in H.
  apply tx_bind_Ok in H as (d1 & [] & H1 & H). tx_inv H1.
  destruct (outcome_payload value) as [[action payload]|]; [|done].
  apply tx_bind_Ok in H as (d1 & sequence & H2 & H). tx_inv H2. apply insert_event_le in H; [done|done|by left].
Qed.

Lemma resolution_event_le v r now : tx_rel interaction_le (recordInvocationRuntimeApprovalResolutionEvent v r now).
Proof.
  intros d d' u H. unfold recordInvocationRuntimeApprovalResolutionEvent in H.
  apply tx_bind_Ok in H as (d1 & [] & H1 & H). tx_inv H1.
  apply tx_bind_Ok in H as (d1 & sequence & H2 & H). tx_inv H2. apply insert_event_le in H; [done|done|by left].
Qed.

#[local] Hint Resolve insert_audit_le insert_outbox_le update_approval_le insert_approval_le update_question_le
  insert_question_le active_approval_le active_question_le interaction_event_le interaction_outcome_le
  resolution_event_le : dg.

Lemma lock_attempt_le s claim effect : tx_rel interaction_le (lockRuntimeInteractionAttempt s claim effect).
Proof. unfold lockRuntimeInteractionAttempt. tx_rel_solve. Qed.

Lemma existing_approval_le dom id missing : tx_rel interaction_le (existing_approval dom id missing).
Proof. unfold existing_approval. tx_rel_solve. Qed.

Lemma existing_question_le dom id missing : tx_rel interaction_le (existing_question dom id missing).
Proof. unfold existing_question. tx_rel_solve. Qed.

#[local] Hint Resolve lock_attempt_le existing_approval_le existing_question_le : dg.
#[local] Hint Unfold reread_approval reread_question : dg.

(** ** Every interaction *)

Lemma closure_le s v actor correlation : tx_rel interaction_le (recordRuntimeApprovalClosure s v actor correlation).
Proof. unfold recordRuntimeApprovalClosure. tx_rel_solve. Qed.

Lemma question_change_le s v action actor correlation now :
  tx_rel interaction_le (recordRuntimeQuestionChange s v action actor correlation now).
Proof. unfold recordRuntimeQuestionChange. tx_rel_solve. Qed.

#[local] Hint Resolve closure_le question_change_le : dg.

Lemma close_approval_le s v reason actor correlation :
  tx_rel interaction_le (closeRuntimeApproval s v reason actor correlation).
Proof. unfold closeRuntimeApproval, reread_approval. tx_rel_solve. Qed.

Lemma close_question_le s v reason actor correlation :
  tx_rel interaction_le (closeRuntimeQuestion s v reason actor correlation).
Proof. unfold closeRuntimeQuestion, reread_question. tx_rel_solve. Qed.

#[local] Hint Resolve close_approval_le close_question_le : dg.

Lemma expire_each_le s scope actor correlation ids : tx_rel interaction_le (expire_each s scope actor correlation ids).
Proof. revert s. induction ids as [|id ids IH]; intros s; simpl; tx_rel_solve. Qed.

Lemma expire_each_question_le s scope actor correlation ids :
  tx_rel interaction_le (expire_each_question s scope actor correlation ids).
Proof. revert s. induction ids as [|id ids IH]; intros s; simpl; tx_rel_solve. Qed.

Lemma resolve_le s r authorize : tx_rel interaction_le (resolveInvocationRuntimeApproval s r authorize).
Proof.
  unfold resolveInvocationRuntimeApproval, resolve_pending, not_updated, authorize_entry, reread_approval. tx_rel_solve.
Qed.

Lemma answer_le s a authorize : tx_rel interaction_le (answerInvocationRuntimeQuestion s a authorize).
Proof.
  unfold answerInvocationRuntimeQuestion, answer_pending, authorize_question, reread_question. tx_rel_solve.
Qed.

#[local] Hint Resolve expire_each_le expire_each_question_le resolve_le answer_le : dg.

Section logs.
Context `{SchemaEngine}.

(** What is left of [interaction_le] when an idempotency record is written too. *)
Definition outside_same (d d' : db) : Prop :=
  core_of d' = core_of d ∧ db_effects d' = db_effects d
  ∧ rt_attempts (db_runtime d') = rt_attempts (db_runtime d) ∧ log_le d d'.

Lemma interaction_outside d d' : interaction_le d d' → outside_same d d'.
Proof. intros [? ? ? ? [? _]]. done. Qed.

(** A command body that is an interaction. *)
Lemma execute_interaction {A} e i (m : tx A) f d d' r :
  tx_rel interaction_le m →
  execute e i (λ _ d, '(d1, v) ← m d; Ok (StatusOK, f v, d1)) d = Ok (d', r) → outside_same d d'.
Proof.
  intros Hm Hx.
  assert (Ha : ∀ d st v d1, ('(d1, v) ← m d; Ok (StatusOK, f v, d1)) = Ok (st, v, d1) → interaction_le d d1).
  { intros d0 st v d1 E. apply result_bind_Ok in E as ([d2 a] & E & [= <- <- <-]). by eapply Hm. }
  split_and!; [..|eapply execute_logs, Hx; intros now d0 st v d1 E; by apply Ha, il_log in E];
    apply execute_spec in Hx as [[-> _]|(_ & E & res & st & v & d1 & g & E1 & _ & -> & ->)]; try done;
    by apply Ha in E1 as [].
Qed.

Lemma run_interaction_outside s x d d' : run_interaction s x d = Ok d' → outside_same d d'.
Proof.
  assert (Hc : ∀ A (m : tx A), tx_rel interaction_le m → committed (m d) = Ok d' → outside_same d d').
  { intros A m Hm Hx. unfold committed in Hx. destruct (m d) as [[d1 a]|] eqn:E; [|done]. simplify_eq.
    by eapply interaction_outside, Hm. }
  destruct x; simpl;
    try (eapply Hc;
         unfold RecordInvocationRuntimeApprovalRequest, ResolveInvocationRuntimeApproval,
           BeginInvocationRuntimeApprovalDelivery, CompleteInvocationRuntimeApprovalDelivery,
           CloseInvocationRuntimeApproval, ExpireInvocationRuntimeApprovals,
           RecordInvocationRuntimeQuestionRequest, AnswerInvocationRuntimeQuestion,
           BeginInvocationRuntimeQuestionDelivery, CompleteInvocationRuntimeQuestionDelivery,
           CloseInvocationRuntimeQuestion, ExpireInvocationRuntimeQuestions, not_updated, authorize_question,
           recordInvocationRuntimeApprovalEvent, recordRuntimeQuestionEvent, reread_approval, reread_question;
         by tx_rel_solve).
  - unfold committed, ResolveInvocationRuntimeApprovalCommand. intros Hx. destruct (_ || _); [done|].
    destruct (execute _ _ _ _) as [[d1 r1]|] eqn:E; [|done]. simplify_eq.
    apply execute_interaction in E; [done|auto with dg].
  - unfold committed, AnswerInvocationRuntimeQuestionCommand. intros Hx. destruct (_ || _); [done|].
    destruct (execute _ _ _ _) as [[d1 r1]|] eqn:E; [|done]. cbn [mbind result_bind] in Hx.
    apply execute_interaction in E; [|auto with dg]. destruct (cr_Replayed r1); [destruct (answer_replayed _ _ _)|]; by simplify_eq.
Qed.

Lemma world_step_logs w w' : world_step w w' → log_le (w_db w) (w_db w').
Proof.
  intros [kind t ts worker duration now k d cs d' c Et Hc|e c duration d cs d' c' _ Hc
    |e c ns r d cs d' _ _ Hc|e c reason d cs d' _ Hc|e c cl code due d cs d' _ Hc
    |e c phase digest d cs d' effect _ Hc|e effect status o code d cs d' Hc
    |e kind dom op a r dd dl d cs d' Hc|e i cmd d cs d' r Hc|s x d cs d' Hc|m d cs]; simpl;
    [..|by eapply run_command_logs|by apply run_interaction_outside in Hc as (_ & _ & _ & Hc)|];
    apply log_step_le; [..|by apply log_step_frame].
  - apply claim_update_spec in Hc as (row & _ & _ & -> & _). log_solve.
  - apply RenewLease_spec in Hc as (t & ts & row & cur & _ & _ & _ & _ & _ & _ & _ & -> & _). log_solve.
  - apply Advance_spec in Hc as (r' & f & Hc). by eapply advance_logs.
  - apply Fail_spec in Hc as (f & Hc). by eapply advance_logs.
  - apply ScheduleRetry_spec in Hc as (t & ts & row & p & _ & _ & _ & ->). log_solve.
  - apply PrepareEffect_spec in Hc as (t & ts & row & f & _ & _ & _ & _ & -> & Hf). by apply log_step_effects.
  - apply RecordEffect_spec in Hc as (f & -> & Hf). by apply log_step_effects.
  - by eapply RepairOperation_logs.
Qed.

(** ** Other calls leave the runtime tables alone *)

Definition same_tables (d d' : db) : Prop := db_runtime d' = db_runtime d.

Lemma set_ops_tables t f d : same_tables d (set_ops t f d).
Proof. by destruct t. Qed.

Lemma advance_tables e c ns r f d d' : advance e c ns r f d = Ok d' → same_tables d d'.
Proof.
  intros (t & ts & row & ns' & r' & f' & d1 & _ & _ & _ & _ & _ & Hu & ->)%advance_spec.
  transitivity (db_runtime d1); [done|]. transitivity (db_runtime (set_ops t <[claim_key c := advanced_row ns' r' f' (env_now e) row]> d)).
  2:{ apply set_ops_tables. }
  unfold updateResourceForTransition in Hu. repeat case_decide; simplify_eq; try done.
  apply result_bind_Ok in Hu as (inv & _ & Hu). by simplify_eq.
Qed.

Lemma run_command_tables e i cmd d d' r : run_command e i cmd d = Ok (d', r) → same_tables d d'.
Proof.
  destruct cmd; simpl;
    unfold CreateService, CreateRevision, RetireRevision, AcceptPublication, AssignAlias, WithdrawAlias,
      AcceptInvocation, AcceptCancellation; try case_match; try done;
    intros [[-> _]|(_ & _ & res & st & v & d1 & g & Ha & _ & -> & _)]%execute_spec; try done;
    cbv beta zeta in Ha;
    repeat first
      [ done
      | (apply result_bind_Ok in Ha as (? & ? & Ha))
      | (progress simplify_eq)
      | case_match ]; done.
Qed.

(** A step of the system is an interaction, or leaves approvals and questions as
    they are. *)
Lemma world_step_tables w w' :
  world_step w w' →
  (∃ s x, run_interaction s x (w_db w) = Ok (w_db w') ∧ w_claims w' = w_claims w)
  ∨ (rt_approvals (db_runtime (w_db w')) = rt_approvals (db_runtime (w_db w))
     ∧ rt_questions (db_runtime (w_db w')) = rt_questions (db_runtime (w_db w))).
Proof.
  assert (Hsame : ∀ d d' : db, same_tables d d' → rt_approvals (db_runtime d') = rt_approvals (db_runtime d)
    ∧ rt_questions (db_runtime d') = rt_questions (db_runtime d)) by (by intros d d' ->).
  intros [kind t ts worker duration now k d cs d' c Et Hc|e c duration d cs d' c' _ Hc
    |e c ns r d cs d' _ _ Hc|e c reason d cs d' _ Hc|e c cl code due d cs d' _ Hc
    |e c phase digest d cs d' effect _ Hc|e effect status o code d cs d' Hc
    |e kind dom op a r dd dl d cs d' Hc|e i cmd d cs d' r Hc|s x d cs d' Hc|m d cs]; simpl;
    [..|left; by exists s, x|by right]; right; apply Hsame.
  - apply claim_update_spec in Hc as (row & _ & _ & -> & _). apply set_ops_tables.
  - apply RenewLease_spec in Hc as (t & ts & row & cur & _ & _ & _ & _ & _ & _ & _ & -> & _). apply set_ops_tables.
  - apply Advance_spec in Hc as (r' & f & Hc). by eapply advance_tables.
  - apply Fail_spec in Hc as (f & Hc). by eapply advance_tables.
  - apply ScheduleRetry_spec in Hc as (t & ts & row & p & _ & _ & _ & ->). apply set_ops_tables.
  - by apply PrepareEffect_spec in Hc as (t & ts & row & f & _ & _ & _ & _ & -> & Hf).
  - by apply RecordEffect_spec in Hc as (f & -> & Hf).
  - apply RepairOperation_spec in Hc as [->|(t & ts & row & ik & irow & _ & _ & _ & _ & _ & ->)]; [done|].
    by destruct t.
  - by eapply run_command_tables.
Qed.
End logs.
