(* ===== verification/ApprovalSpec.v ===== *)
(** * What the approvals table promises

    The abstract state machine of runtime approvals: the small steps that calls
    may take, on a table and the time, and the invariant of its reachable states.
    The invariant is stated twice: as the check the code makes when it reads a row
    ([approval_readable]) and as the constraints and the update trigger of
    migrations 00041, 00053 and 00054. *)
From S2P Require Import Prelude.
From S2P Require Import GoStrings.
From S2P Require Import RuntimeTables.
From S2P Require Import Database.
From S2P Require Import OperationStore.
From S2P Require Import RuntimeInteraction.
From S2P Require Import RuntimeApproval.

Abbreviation approvals := (gmap key InvocationRuntimeApproval).

(** The expiry has not passed. *)
Definition unexpired (v : InvocationRuntimeApproval) (now : Z) : Prop :=
  match apr_ExpiresAt v with None => True | Some t => (now < t)%Z end.

(** A resolution that passes the checks on its fields. *)
Definition resolution_fields (r : InvocationRuntimeApprovalResolution) : Prop :=
  validInvocationRuntimeApprovalDecision (ars_Decision r) = true
  ∧ validInvocationRuntimeApprovalActor (ars_ActorID r) = true
  ∧ approvalCorrelationPattern (ars_CorrelationID r) = true.

(** A request that passes the checks on its fields. *)
Definition request_fields (target : InvocationRuntimeTarget) (effect : EffectRecord)
    (request : InvocationRuntimeApprovalRequest) : Prop :=
  rtg_OperationID target ≠ "" ∧ rtg_InvocationID target ≠ "" ∧ rtg_ServiceID target ≠ ""
  ∧ rtg_RevisionID target ≠ "" ∧ e_EffectID effect ≠ "" ∧ arq_SourceSequence request ≠ 0%Z
  ∧ validInvocationRuntimeApprovalAction (arq_RequestedAction request) = true.

(** A step happens between the times of its two states; [now] is the time it
    writes. *)
Inductive approval_step : Z * approvals → Z * approvals → Prop :=
  | ap_wait t t' m : (t ≤ t')%Z → approval_step (t, m) (t', m)
  | ap_request t t' m target effect request id now expiry :
      m !! (rtg_IsolationDomainID target, id) = None →
      (∀ k v, m !! k = Some v → k.1 = rtg_IsolationDomainID target →
         ¬ (apr_OperationID v = rtg_OperationID target ∧ apr_SourceSequence v = arq_SourceSequence request)) →
      request_fields target effect request → (now < expiry ≤ now + fifteen_minutes)%Z →
      approval_columns (pending_approval target effect request id now expiry) = true →
      (t ≤ now ≤ t')%Z →
      approval_step (t, m)
        (t', <[(rtg_IsolationDomainID target, id) := pending_approval target effect request id now expiry]> m)
  | ap_resolve t t' m k v r now :
      m !! k = Some v → apr_State v = "pending" → resolution_fields r →
      (t ≤ now ≤ t')%Z → unexpired v t' →
      approval_step (t, m) (t', <[k := resolved_approval r now v]> m)
  | ap_begin t t' m k v decision now :
      m !! k = Some v → apr_State v = "resolved" → validInvocationRuntimeApprovalDecision decision = true →
      (decision = "approve" → apr_Decision v = "approve") →
      (t ≤ now ≤ t')%Z → unexpired v t' →
      approval_step (t, m) (t', <[k := delivering_approval decision now v]> m)
  | ap_complete t t' m k v now :
      m !! k = Some v → apr_State v = "delivering" →
      (t ≤ now ≤ t')%Z → unexpired v t' →
      approval_step (t, m) (t', <[k := delivered_approval now v]> m)
  | ap_close t t' m k v expiry state reason now :
      m !! k = Some v → apr_Contract v = InvocationRuntimeApprovalContract → apr_ExpiresAt v = Some expiry →
      closing_state (apr_State v) reason = Ok (Some state) →
      validApprovalCloseReason reason = true → (reason = "expired" ↔ (expiry ≤ now)%Z) →
      (t ≤ now ≤ t')%Z →
      approval_step (t, m) (t', <[k := closed_approval state reason now v]> m).

(** ** Constraints of the table *)

Definition approval_states : list string :=
  ["pending"; "resolved"; "delivering"; "delivered"; "closed"; "expired"; "delivery_unknown"].

(** [invocation_runtime_approvals_lifecycle] *)
Definition approval_lifecycle (v : InvocationRuntimeApproval) : Prop :=
  let row version (decided effective delivered : Prop) :=
    apr_Version v = version ∧ (decided ↔ apr_Decision v ≠ "") ∧ (effective ↔ apr_EffectiveDecision v ≠ "")
    ∧ (delivered ↔ is_Some (apr_DeliveredAt v)) in
  (apr_State v = "pending" ∧ row 1%Z False False False)
  ∨ (apr_State v = "resolved" ∧ row 2%Z True False False)
  ∨ (apr_State v = "delivering" ∧ row 3%Z True True False)
  ∨ (apr_State v = "delivered" ∧ row 4%Z True True True)
  ∨ (apr_State v ∈ ["closed"; "expired"] ∧ (row 2%Z False False False ∨ row 3%Z True False False))
  ∨ (apr_State v = "delivery_unknown" ∧ row 4%Z True True False).

(** [invocation_runtime_approvals_closure_fields] *)
Definition approval_closure (v : InvocationRuntimeApproval) : Prop :=
  (apr_State v ∈ ["pending"; "resolved"; "delivering"; "delivered"] ∧ apr_ClosedAt v = None ∧ apr_CloseReason v = "")
  ∨ (apr_State v ∈ ["closed"; "expired"; "delivery_unknown"] ∧ ∃ t expiry,
       apr_ClosedAt v = Some t ∧ apr_ExpiresAt v = Some expiry ∧ (apr_CreatedAt v ≤ t ≤ apr_UpdatedAt v)%Z
       ∧ apr_CloseReason v ∈ ["expired"; "runtime-request-cleared"; "runtime-ended"; "cancelled"]
       ∧ (apr_CloseReason v = "expired" → (expiry ≤ t)%Z)
       ∧ (apr_State v = "expired" → apr_CloseReason v = "expired")
       ∧ (apr_State v = "closed" → apr_CloseReason v ≠ "expired")).

(** The [CHECK] clauses on a row.  Stored times are finite by their type. *)
Record approval_check (v : InvocationRuntimeApproval) : Prop := ApprovalCheck {
  ck_contract : apr_Contract v = InvocationRuntimeApprovalContract;
  ck_columns : approval_columns v = true;
  ck_action : apr_RequestedAction v ∈ ["process.execute"; "workspace.change"];
  ck_state : apr_State v ∈ approval_states;
  ck_decisions : apr_Decision v ∈ [""; "approve"; "deny"] ∧ apr_EffectiveDecision v ∈ [""; "approve"; "deny"];
  ck_resolver : apr_ResolvedBy v = "" ∨ validInvocationRuntimeApprovalActor (apr_ResolvedBy v) = true;
  ck_correlation : apr_ResolutionCorrelationID v = "" ∨ approvalCorrelationPattern (apr_ResolutionCorrelationID v) = true;
  ck_times : ∃ expiry, apr_ExpiresAt v = Some expiry
    ∧ (apr_CreatedAt v < expiry ≤ apr_CreatedAt v + fifteen_minutes)%Z
    ∧ (apr_CreatedAt v ≤ apr_UpdatedAt v)%Z
    ∧ (∀ t, apr_ResolvedAt v = Some t → (apr_CreatedAt v ≤ t < expiry ∧ t ≤ apr_UpdatedAt v)%Z)
    ∧ (∀ t, apr_DeliveredAt v = Some t → (instant (apr_ResolvedAt v) ≤ t < expiry ∧ t ≤ apr_UpdatedAt v)%Z);
  ck_resolution :
    (apr_Decision v = "" ∧ apr_ResolvedBy v = "" ∧ apr_ResolutionCorrelationID v = "" ∧ apr_ResolvedAt v = None)
    ∨ (apr_Decision v ≠ "" ∧ apr_ResolvedBy v ≠ "" ∧ apr_ResolutionCorrelationID v ≠ "" ∧ apr_ResolvedAt v ≠ None);
  ck_bound : apr_EffectiveDecision v = "" ∨ apr_EffectiveDecision v = "deny" ∨ apr_Decision v = "approve";
  ck_lifecycle : approval_lifecycle v;
  ck_closure : approval_closure v }.

(** [UNIQUE (isolation_domain_id, operation_id, source_sequence)] *)
Definition unique_sources (m : approvals) : Prop :=
  ∀ k k' v v', m !! k = Some v → m !! k' = Some v' → k.1 = k'.1 → apr_OperationID v = apr_OperationID v' →
    apr_SourceSequence v = apr_SourceSequence v' → k = k'.

(** The fields a row keeps for life. *)
Definition same_identity (v v' : InvocationRuntimeApproval) : Prop :=
  (apr_Contract v', apr_IsolationDomainID v', apr_ID v', apr_OperationID v', apr_InvocationID v', apr_ServiceID v',
   apr_RevisionID v', apr_EffectID v', apr_SourceSequence v', apr_RequestedAction v', apr_CreatedAt v', apr_ExpiresAt v')
  = (apr_Contract v, apr_IsolationDomainID v, apr_ID v, apr_OperationID v, apr_InvocationID v, apr_ServiceID v,
     apr_RevisionID v, apr_EffectID v, apr_SourceSequence v, apr_RequestedAction v, apr_CreatedAt v, apr_ExpiresAt v).

(** The trigger: which columns an update may change, and the state it may enter. *)
Definition approval_trigger (v v' : InvocationRuntimeApproval) : Prop :=
  same_identity v v'
  ∧ apr_Version v' = (apr_Version v + 1)%Z
  ∧ ((apr_State v, apr_State v') ∈ [("pending", "resolved"); ("resolved", "delivering"); ("delivering", "delivered")]
     ∨ apr_Contract v = InvocationRuntimeApprovalContract
       ∧ (apr_State v, apr_State v') ∈ [("pending", "closed"); ("pending", "expired"); ("resolved", "closed");
                                        ("resolved", "expired"); ("delivering", "delivery_unknown")])
  ∧ (apr_State v ≠ "pending" →
     (apr_Decision v', apr_ResolvedBy v', apr_ResolutionCorrelationID v', apr_ResolvedAt v')
     = (apr_Decision v, apr_ResolvedBy v, apr_ResolutionCorrelationID v, apr_ResolvedAt v))
  ∧ (apr_State v = "delivering" → apr_EffectiveDecision v' = apr_EffectiveDecision v).

(** ** The invariant *)

(** Stored times are in the past, and an approval of the current contract has an expiry. *)
Definition past (t : Z) (v : InvocationRuntimeApproval) : Prop :=
  (apr_CreatedAt v ≤ apr_UpdatedAt v ≤ t)%Z
  ∧ (∀ x, apr_ResolvedAt v = Some x → (apr_CreatedAt v ≤ x ≤ apr_UpdatedAt v)%Z ∧ unexpired v x)
  ∧ (∀ x, apr_DeliveredAt v = Some x → (x ≤ apr_UpdatedAt v)%Z ∧ unexpired v x)
  ∧ (∀ x, apr_ClosedAt v = Some x → (x ≤ apr_UpdatedAt v)%Z)
  ∧ (apr_Contract v = InvocationRuntimeApprovalContract → is_Some (apr_ExpiresAt v)).

Definition approval_ok (t : Z) (k : key) (v : InvocationRuntimeApproval) : Prop :=
  approval_readable k.1 k.2 v = true ∧ past t v.

Definition approvals_ok (x : Z * approvals) : Prop := map_Forall (approval_ok x.1) x.2.

Lemma past_mono t t' v : (t ≤ t')%Z → past t v → past t' v.
Proof. unfold past. intros. intuition lia. Qed.

(** ** Reading a row in a known state *)

(** What the row of a state holds besides its identity. *)
Definition holds (v : InvocationRuntimeApproval) (version : Z) (resolved effective delivered : bool) : Prop :=
  apr_Version v = version
  ∧ (if resolved then approval_resolved v = true else approval_unresolved v = true)
  ∧ (if effective then validInvocationRuntimeApprovalDecision (apr_EffectiveDecision v) = true
     else apr_EffectiveDecision v = "")
  ∧ (if delivered then ∃ x, apr_DeliveredAt v = Some x ∧ (instant (apr_ResolvedAt v) ≤ x)%Z
     else apr_DeliveredAt v = None).

(** Decides the tests of a [switch] over a state that is known. *)
Ltac decide_states :=
  repeat first
    [ rewrite decide_True by (by auto)
    | rewrite decide_False by (let X := fresh in intros X; repeat (destruct X as [X|X]); discriminate X) ].

Ltac fields_at E :=
  unfold approval_state_fields, holds; rewrite E; cbv zeta; decide_states; unfold IsZero;
  rewrite ?andb_true_iff, ?orb_true_iff, ?andb_true_iff, ?bool_decide_eq_true.

Lemma fields_pending v : apr_State v = "pending" → approval_state_fields v = true ↔ holds v 1 false false false.
Proof. intros E. fields_at E. tauto. Qed.
Lemma fields_resolved v : apr_State v = "resolved" → approval_state_fields v = true ↔ holds v 2 true false false.
Proof. intros E. fields_at E. tauto. Qed.
Lemma fields_delivering v : apr_State v = "delivering" → approval_state_fields v = true ↔ holds v 3 true true false.
Proof. intros E. fields_at E. tauto. Qed.
Lemma fields_unknown v : apr_State v = "delivery_unknown" → approval_state_fields v = true ↔ holds v 4 true true false.
Proof. intros E. fields_at E. tauto. Qed.
Lemma fields_delivered v : apr_State v = "delivered" → approval_state_fields v = true ↔ holds v 4 true true true.
Proof.
  intros E. fields_at E. rewrite negb_true_iff, bool_decide_eq_false.
  destruct (apr_DeliveredAt v) as [x|]; simpl; naive_solver.
Qed.
Lemma fields_closed v : apr_State v = "closed" ∨ apr_State v = "expired" →
  approval_state_fields v = true ↔ holds v 2 false false false ∨ holds v 3 true false false.
Proof. intros [E|E]; fields_at E; tauto. Qed.

(** A row that is not closed carries no closing time. *)
Lemma closure_open v : approval_closed (apr_State v) = false →
  approval_closure_valid v = true ↔ apr_ClosedAt v = None ∧ apr_CloseReason v = "".
Proof.
  intros E. unfold approval_closure_valid, IsZero. by rewrite E, andb_true_iff, !bool_decide_eq_true.
Qed.

Definition effective_bound (v : InvocationRuntimeApproval) : Prop :=
  apr_EffectiveDecision v = "approve" → apr_Decision v = "approve".

Definition identity_valid (domainID id : string) (v : InvocationRuntimeApproval) : Prop :=
  apr_IsolationDomainID v = domainID ∧ apr_ID v = id
  ∧ apr_OperationID v ≠ "" ∧ apr_InvocationID v ≠ "" ∧ apr_ServiceID v ≠ ""
  ∧ apr_RevisionID v ≠ "" ∧ apr_EffectID v ≠ "" ∧ apr_SourceSequence v ≠ 0%Z
  ∧ validInvocationRuntimeApprovalAction (apr_RequestedAction v) = true.

Lemma readable_iff domainID id v :
  approval_readable domainID id v = true ↔
  identity_valid domainID id v ∧ approval_contract_valid v = true ∧ approval_closure_valid v = true
  ∧ effective_bound v ∧ approval_state_fields v = true.
Proof.
  unfold approval_readable, validInvocationRuntimeApprovalState, identity_valid, effective_bound.
  rewrite !andb_true_iff, negb_true_iff, bool_decide_eq_false, !bool_decide_eq_true.
  assert (Hc : approval_contract_valid v = true → apr_Contract v = InvocationRuntimeApprovalContract
                 ∨ apr_Contract v = InvocationRuntimeApprovalLegacyContract).
  { unfold approval_contract_valid. case_decide; [tauto|]. rewrite andb_true_iff, bool_decide_eq_true. tauto. }
  split; [intros ([[? ?] ?] & ([? ?] & Hb) & ?)|intros (? & ? & ? & ? & ?)]; split_and!; try tauto.
  intros He. destruct (decide (apr_Decision v = "approve")); tauto.
Qed.

Lemma contract_valid_same v v' :
  same_identity v v' → apr_ClosedAt v' = apr_ClosedAt v → apr_CloseReason v' = apr_CloseReason v →
  approval_contract_valid v = true → approval_contract_valid v' = true.
Proof.
  intros [= Ec _ _ _ _ _ _ _ _ _ Et Ee] E1 E2. unfold approval_contract_valid. by rewrite Ec, Et, Ee, E1, E2.
Qed.

Lemma identity_valid_same domainID id v v' :
  same_identity v v' → identity_valid domainID id v → identity_valid domainID id v'.
Proof. unfold identity_valid. intros [= _ -> -> -> -> -> -> -> -> -> _ _]. done. Qed.

(** ** Every step keeps the invariant *)

Lemma resolve_ok t t' k v r now :
  approval_ok t k v → apr_State v = "pending" → resolution_fields r → (t ≤ now ≤ t')%Z → unexpired v t' →
  approval_ok t' k (resolved_approval r now v).
Proof.
  intros [(Hid & Hc & Hcl & _ & Hf)%readable_iff (Hp & _ & Hd & Hx & Hse)] Es (R1 & R2 & R3) Ht Hu.
  apply (fields_pending _ Es) in Hf as (Ev & _ & Ee & Edl). simpl in Ee, Edl.
  rewrite closure_open in Hcl by (by rewrite Es). destruct Hcl as [Ecl Ecr]. split.
  - apply readable_iff. split_and!.
    + by eapply identity_valid_same.
    + by eapply contract_valid_same.
    + by apply closure_open.
    + unfold effective_bound. simpl. by rewrite Ee.
    + apply fields_resolved; [done|]. unfold holds, approval_resolved. simpl. rewrite Ev, R1, R2, R3. done.
  - split_and!; simpl; [lia|lia| |intros ?; by rewrite Edl|intros ?; by rewrite Ecl|done].
    intros x [= <-]. split; [lia|]. unfold unexpired in *. simpl. destruct (apr_ExpiresAt v); [lia|done].
Qed.

Lemma begin_readable dom id v decision now :
  approval_readable dom id v = true → apr_State v = "resolved" →
  validInvocationRuntimeApprovalDecision decision = true → (decision = "approve" → apr_Decision v = "approve") →
  approval_readable dom id (delivering_approval decision now v) = true.
Proof.
  intros (Hid & Hc & Hcl & _ & Hf)%readable_iff Es Hdec Happ.
  apply (fields_resolved _ Es) in Hf as (Ev & Er & Ee & Edl). simpl in Er, Ee, Edl.
  rewrite closure_open in Hcl by (by rewrite Es). destruct Hcl as [Ecl Ecr]. apply readable_iff. split_and!.
  - by eapply identity_valid_same.
  - by eapply contract_valid_same.
  - by apply closure_open.
  - exact Happ.
  - apply fields_delivering; [done|]. unfold holds. simpl. rewrite Ev. done.
Qed.

Lemma begin_ok t t' k v decision now :
  approval_ok t k v → apr_State v = "resolved" → validInvocationRuntimeApprovalDecision decision = true →
  (decision = "approve" → apr_Decision v = "approve") → (t ≤ now ≤ t')%Z →
  approval_ok t' k (delivering_approval decision now v).
Proof.
  intros [Hrd (Hp & Hr & Hd & Hx & Hse)] Es Hdec Happ Ht. split; [by apply begin_readable|].
  apply readable_iff in Hrd as (_ & _ & Hcl & _ & Hf).
  apply (fields_resolved _ Es) in Hf as (_ & _ & _ & Edl). simpl in Edl.
  rewrite closure_open in Hcl by (by rewrite Es). destruct Hcl as [Ecl _].
  split_and!; simpl; [lia|lia| |intros ?; by rewrite Edl|intros ?; by rewrite Ecl|done].
  intros x Ex. destruct (Hr x Ex). split; [lia|done].
Qed.

Lemma complete_ok t t' k v now :
  approval_ok t k v → apr_State v = "delivering" → (t ≤ now ≤ t')%Z → unexpired v t' →
  approval_ok t' k (delivered_approval now v).
Proof.
  intros [(Hid & Hc & Hcl & Hb & Hf)%readable_iff (Hp & Hr & Hd & Hx & Hse)] Es Ht Hu.
  apply (fields_delivering _ Es) in Hf as (Ev & Er & Ee & Edl). simpl in Er, Ee, Edl.
  rewrite closure_open in Hcl by (by rewrite Es). destruct Hcl as [Ecl Ecr].
  assert (∃ x, apr_ResolvedAt v = Some x) as [x Ex].
  { unfold approval_resolved in Er. to_prop. unfold IsZero in *. to_prop. destruct (apr_ResolvedAt v); [by eexists|done]. }
  destruct (Hr x Ex) as [Hx1 Hx2]. split.
  - apply readable_iff. split_and!.
    + by eapply identity_valid_same.
    + by eapply contract_valid_same.
    + by apply closure_open.
    + exact Hb.
    + apply fields_delivered; [done|]. unfold holds. simpl. rewrite Ev. split_and!; [done..|].
      exists now. split; [done|]. rewrite Ex. simpl. lia.
  - split_and!; simpl; [lia|lia| | |intros ?; by rewrite Ecl|done].
    + intros y Ey. destruct (Hr y Ey). split; [lia|done].
    + intros y [= <-]. split; [lia|]. unfold unexpired in *. simpl. destruct (apr_ExpiresAt v); [lia|done].
Qed.

(** The states a row may be closed from, and the state it then has. *)
Lemma closing_state_inv state reason next :
  closing_state state reason = Ok (Some next) →
  ((state = "pending" ∨ state = "resolved") ∧ next = (if decide (reason = "expired") then "expired" else "closed"))
  ∨ (state = "delivering" ∧ next = "delivery_unknown").
Proof.
  unfold closing_state. destruct (decide (state = "pending" ∨ state = "resolved")); [intros [= <-]; by left|].
  destruct (decide (state = "delivering")); [intros [= <-]; by right|]. by destruct (_ || _).
Qed.

Lemma close_fields v state reason now :
  approval_state_fields v = true → closing_state (apr_State v) reason = Ok (Some state) →
  approval_state_fields (closed_approval state reason now v) = true.
Proof.
  intros Hf [[[Es|Es] ->]|[Es ->]]%closing_state_inv.
  - apply (fields_pending _ Es) in Hf as (Ev & Er & Ee & Edl). apply fields_closed; [simpl; case_decide; auto|].
    left. split_and!; simpl; [lia|done..].
  - apply (fields_resolved _ Es) in Hf as (Ev & Er & Ee & Edl). apply fields_closed; [simpl; case_decide; auto|].
    right. split_and!; simpl; [lia|done..].
  - apply (fields_delivering _ Es) in Hf as (Ev & Er & Ee & Edl). apply fields_unknown; [done|].
    split_and!; simpl; [lia|done..].
Qed.

Lemma close_closure v expiry state reason now :
  apr_Contract v = InvocationRuntimeApprovalContract → apr_ExpiresAt v = Some expiry →
  closing_state (apr_State v) reason = Ok (Some state) → validApprovalCloseReason reason = true →
  (reason = "expired" ↔ (expiry ≤ now)%Z) → (apr_CreatedAt v ≤ now)%Z →
  approval_closure_valid (closed_approval state reason now v) = true.
Proof.
  intros Hc He Hs Hr Hx Hle. unfold approval_closure_valid. simpl. rewrite Hr, He. simpl.
  rewrite (bool_decide_eq_true_2 _ Hc), (bool_decide_eq_true_2 _ Hle). simpl.
  apply closing_state_inv in Hs as [[_ ->]|[_ ->]].
  - destruct (decide (reason = "expired")) as [->|Hn].
    + simpl. rewrite bool_decide_eq_false_2; [done|]. intros [_ ?]. destruct Hx as [Hx _]. specialize (Hx eq_refl). lia.
    + simpl. rewrite !bool_decide_eq_false_2; naive_solver.
  - simpl. rewrite bool_decide_eq_false_2; [done|]. intros [-> ?]. destruct Hx as [Hx _]. specialize (Hx eq_refl). lia.
Qed.

Lemma close_ok t t' k v expiry state reason now :
  approval_ok t k v → apr_Contract v = InvocationRuntimeApprovalContract → apr_ExpiresAt v = Some expiry →
  closing_state (apr_State v) reason = Ok (Some state) → validApprovalCloseReason reason = true →
  (reason = "expired" ↔ (expiry ≤ now)%Z) → (t ≤ now ≤ t')%Z →
  approval_ok t' k (closed_approval state reason now v).
Proof.
  intros [(Hid & Hc & Hcl & Hb & Hf)%readable_iff (Hp & Hr & Hd & Hx & Hse)] Ec Ee Hs Hv Hi Ht. split.
  - apply readable_iff. split_and!.
    + by eapply identity_valid_same.
    + revert Hc. unfold approval_contract_valid. simpl. by rewrite Ec.
    + eapply close_closure; try done. lia.
    + exact Hb.
    + by apply close_fields.
  - split_and!; simpl; [lia|lia| | | |].
    + intros y Ey. destruct (Hr y Ey). split; [lia|done].
    + intros y Ey. destruct (Hd y Ey). split; [lia|done].
    + intros y [= <-]. done.
    + done.
Qed.

Lemma request_ok t' target effect request id now expiry :
  request_fields target effect request → (now < expiry ≤ now + fifteen_minutes)%Z → (now ≤ t')%Z →
  approval_ok t' (rtg_IsolationDomainID target, id) (pending_approval target effect request id now expiry).
Proof.
  intros (F1 & F2 & F3 & F4 & F5 & F6 & F7) He Ht. split.
  - apply readable_iff. split_and!.
    + by repeat split.
    + unfold approval_contract_valid. simpl. by rewrite !bool_decide_eq_true_2.
    + by apply closure_open.
    + done.
    + by apply fields_pending.
  - split_and!; simpl; [lia|lia|done|done|done|by eexists].
Qed.

Lemma approval_step_ok x y : approval_step x y → approvals_ok x → approvals_ok y.
Proof.
  assert (Hwait : ∀ t t' (m : approvals), (t ≤ t')%Z → approvals_ok (t, m) → approvals_ok (t', m)).
  { intros t t' m Ht Hm. eapply map_Forall_impl; [exact Hm|]. intros k v [? ?]. split; [done|by eapply past_mono]. }
  assert (Hins : ∀ t t' (m : approvals) k v, (t ≤ t')%Z → approvals_ok (t, m) → approval_ok t' k v →
    approvals_ok (t', <[k := v]> m)).
  { intros t t' m k v Ht Hm Hv. apply map_Forall_insert_2; [exact Hv|]. exact (Hwait t t' m Ht Hm). }
  assert (Hget : ∀ t (m : approvals) k v, approvals_ok (t, m) → m !! k = Some v → approval_ok t k v).
  { intros t m k v Hm. apply (map_Forall_lookup_1 _ _ _ _ Hm). }
  intros S OK. destruct S; [by eapply Hwait|..]; apply (Hins t t'); try lia; try done.
  - apply request_ok; [done..|lia].
  - eapply resolve_ok; eauto.
  - eapply begin_ok; eauto.
  - eapply complete_ok; eauto.
  - eapply close_ok; eauto.
Qed.

Lemma approval_steps_ok x y : rtc approval_step x y → approvals_ok x → approvals_ok y.
Proof. induction 1; [done|]. intros OK. eauto using approval_step_ok. Qed.

(** The members of a literal list, one goal each. *)
Ltac member_cases H :=
  repeat (apply elem_of_cons in H as [H|H]); [..|by apply elem_of_nil in H].

(** ** The invariant gives the table's constraints, the steps its trigger *)

Lemma resolved_nonempty v : approval_resolved v = true →
  apr_Decision v ≠ "" ∧ apr_ResolvedBy v ≠ "" ∧ apr_ResolutionCorrelationID v ≠ "" ∧ apr_ResolvedAt v ≠ None.
Proof.
  unfold approval_resolved, IsZero. intros H. to_prop.
  split_and!; [intros E; rewrite E in *; done..|done].
Qed.

Lemma unresolved_empty v : approval_unresolved v = true →
  apr_Decision v = "" ∧ apr_ResolvedBy v = "" ∧ apr_ResolutionCorrelationID v = "" ∧ apr_ResolvedAt v = None.
Proof. unfold approval_unresolved, IsZero. intros H. to_prop. naive_solver. Qed.

Lemma state_fields_known v : approval_state_fields v = true → apr_State v ∈ approval_states.
Proof. unfold approval_state_fields, approval_states. repeat case_decide; [set_solver..|done]. Qed.

(** In every state the resolution is either there as a whole or not at all. *)
Lemma state_fields_resolution v : approval_state_fields v = true → approval_resolved v = true ∨ approval_unresolved v = true.
Proof.
  intros Hf. pose proof (state_fields_known _ Hf) as Hs. unfold approval_states in Hs.
  member_cases Hs; rename Hs into Es.
  - apply (fields_pending _ Es) in Hf. right. apply Hf.
  - apply (fields_resolved _ Es) in Hf. left. apply Hf.
  - apply (fields_delivering _ Es) in Hf. left. apply Hf.
  - apply (fields_delivered _ Es) in Hf. left. apply Hf.
  - apply fields_closed in Hf as [Hf|Hf]; [right; apply Hf|left; apply Hf|by left].
  - apply fields_closed in Hf as [Hf|Hf]; [right; apply Hf|left; apply Hf|by right].
  - apply (fields_unknown _ Es) in Hf. left. apply Hf.
Qed.

Lemma delivered_after_resolved v t : approval_state_fields v = true → apr_DeliveredAt v = Some t →
  (instant (apr_ResolvedAt v) ≤ t)%Z.
Proof.
  intros Hf Et. pose proof (state_fields_known _ Hf) as Hs. unfold approval_states in Hs.
  member_cases Hs; rename Hs into Es.
  - apply (fields_pending _ Es) in Hf as (_ & _ & _ & Hd). simpl in Hd. congruence.
  - apply (fields_resolved _ Es) in Hf as (_ & _ & _ & Hd). simpl in Hd. congruence.
  - apply (fields_delivering _ Es) in Hf as (_ & _ & _ & Hd). simpl in Hd. congruence.
  - apply (fields_delivered _ Es) in Hf as (_ & _ & _ & x & Hd & Hx). congruence.
  - apply fields_closed in Hf as [(_ & _ & _ & Hd)|(_ & _ & _ & Hd)]; [simpl in Hd; congruence..|by left].
  - apply fields_closed in Hf as [(_ & _ & _ & Hd)|(_ & _ & _ & Hd)]; [simpl in Hd; congruence..|by right].
  - apply (fields_unknown _ Es) in Hf as (_ & _ & _ & Hd). simpl in Hd. congruence.
Qed.

Lemma closure_iff v : approval_closure_valid v = true →
  (is_Some (apr_ClosedAt v) ↔ approval_closed (apr_State v) = true)
  ∧ ∀ t expiry, apr_ClosedAt v = Some t → apr_ExpiresAt v = Some expiry →
      (apr_CreatedAt v ≤ t)%Z ∧ (apr_CloseReason v = "expired" → (expiry ≤ t)%Z).
Proof.
  unfold approval_closure_valid, IsZero. destruct (approval_closed (apr_State v)) eqn:Es; intros H; to_prop.
  - split; [destruct (apr_ClosedAt v); [naive_solver|done]|]. intros t expiry Et Ee. rewrite Et, Ee in *. simpl in *.
    split; [done|]. intros Er. destruct (decide (expiry ≤ t)%Z); [done|]. exfalso. naive_solver lia.
  - rewrite H. split; [split; [intros [? ?]; done|done]|done].
Qed.

Lemma effective_valid v : approval_state_fields v = true → apr_EffectiveDecision v ∈ [""; "approve"; "deny"].
Proof.
  intros Hf. assert (apr_EffectiveDecision v = "" ∨ validInvocationRuntimeApprovalDecision (apr_EffectiveDecision v) = true) as Hv.
  { pose proof (state_fields_known _ Hf) as Hs. unfold approval_states in Hs.
    member_cases Hs; rename Hs into Es.
    - apply (fields_pending _ Es) in Hf as (_ & _ & He & _). by left.
    - apply (fields_resolved _ Es) in Hf as (_ & _ & He & _). by left.
    - apply (fields_delivering _ Es) in Hf as (_ & _ & He & _). by right.
    - apply (fields_delivered _ Es) in Hf as (_ & _ & He & _). by right.
    - apply fields_closed in Hf as [(_ & _ & He & _)|(_ & _ & He & _)]; [by left..|by left].
    - apply fields_closed in Hf as [(_ & _ & He & _)|(_ & _ & He & _)]; [by left..|by right].
    - apply (fields_unknown _ Es) in Hf as (_ & _ & He & _). by right. }
  destruct Hv as [->|Hv]; [left|]. apply bool_decide_eq_true in Hv. set_solver.
Qed.

Lemma effective_cases v : approval_state_fields v = true → effective_bound v →
  apr_EffectiveDecision v = "" ∨ apr_EffectiveDecision v = "deny" ∨ apr_Decision v = "approve".
Proof. intros Hv%effective_valid Hb. member_cases Hv; [by left|right; right; by apply Hb|right; by left]. Qed.

(** *** The checks *)

Lemma resolved_fields v : approval_resolved v = true →
  apr_Decision v ∈ ["approve"; "deny"] ∧ validInvocationRuntimeApprovalActor (apr_ResolvedBy v) = true
  ∧ approvalCorrelationPattern (apr_ResolutionCorrelationID v) = true.
Proof.
  unfold approval_resolved, validInvocationRuntimeApprovalDecision. intros H. to_prop. split_and!; [set_solver|done|done].
Qed.

Lemma holds_row v version resolved effective delivered : holds v version resolved effective delivered →
  apr_Version v = version ∧ (resolved = true ↔ apr_Decision v ≠ "") ∧ (effective = true ↔ apr_EffectiveDecision v ≠ "")
  ∧ (delivered = true ↔ is_Some (apr_DeliveredAt v)).
Proof.
  intros (Hv & Hr & He & Hd). split_and!; [done|..].
  - destruct resolved; [apply resolved_nonempty in Hr|apply unresolved_empty in Hr]; naive_solver.
  - destruct effective; [|naive_solver]. split; [|done]. intros _ E. by rewrite E in He.
  - destruct delivered; [destruct Hd as (x & -> & _); split; [by eexists|done]|rewrite Hd]. split; [done|by intros [? ?]].
Qed.

Lemma state_fields_lifecycle v : approval_state_fields v = true → approval_lifecycle v.
Proof.
  intros Hf. pose proof (state_fields_known _ Hf) as Hs. unfold approval_states in Hs.
  assert (∀ b P, b = true ↔ P → (if b then True else False) ↔ P) as Hb by (intros []; naive_solver).
  assert (∀ version r e dl, holds v version r e dl → apr_Version v = version
    ∧ ((if r then True else False) ↔ apr_Decision v ≠ "") ∧ ((if e then True else False) ↔ apr_EffectiveDecision v ≠ "")
    ∧ ((if dl then True else False) ↔ is_Some (apr_DeliveredAt v))) as Hrow.
  { intros version r e dl (? & ? & ? & ?)%holds_row. auto. }
  unfold approval_lifecycle. cbv zeta. member_cases Hs; rename Hs into Es.
  - left. split; [done|]. by apply (Hrow _ false false false), fields_pending.
  - right; left. split; [done|]. by apply (Hrow _ true false false), fields_resolved.
  - do 2 right; left. split; [done|]. by apply (Hrow _ true true false), fields_delivering.
  - do 3 right; left. split; [done|]. by apply (Hrow _ true true true), fields_delivered.
  - do 4 right; left. split; [set_solver|]. apply fields_closed in Hf as [Hf|Hf]; [left|right|by left]; by apply Hrow in Hf.
  - do 4 right; left. split; [set_solver|]. apply fields_closed in Hf as [Hf|Hf]; [left|right|by right]; by apply Hrow in Hf.
  - do 5 right. split; [done|]. by apply (Hrow _ true true false), fields_unknown.
Qed.

Lemma closure_valid_closure t v : approval_closure_valid v = true → apr_State v ∈ approval_states → past t v →
  is_Some (apr_ExpiresAt v) → approval_closure v.
Proof.
  intros Hc Hs (_ & _ & _ & Hx & _) [expiry Ee]. unfold approval_closure. destruct (approval_closed (apr_State v)) eqn:Ec.
  - right. destruct (closure_iff _ Hc) as [[_ Hcl] Ht]. destruct (Hcl Ec) as [x Ex]. destruct (Ht x expiry Ex Ee) as [Hlo Hexp].
    unfold approval_closure_valid in Hc. rewrite Ec, !andb_true_iff, !negb_true_iff, orb_false_iff, !bool_decide_eq_false in Hc.
    destruct Hc as [[[_ Hr] [H1 _]] H2]. apply bool_decide_eq_true in Hr.
    unfold approval_closed in Ec. apply bool_decide_eq_true in Ec. split; [set_solver|]. exists x, expiry. specialize (Hx x Ex).
    split_and!; [done|done|lia|lia|set_solver|done|..].
    + intros E. apply dec_stable. naive_solver.
    + naive_solver.
  - left. apply closure_open in Hc as [? ?]; [|done]. split; [|done]. unfold approval_closed in Ec. apply bool_decide_eq_false in Ec.
    unfold approval_states in Hs. set_solver.
Qed.

Lemma approval_ok_check t k v :
  apr_Contract v = InvocationRuntimeApprovalContract → approval_columns v = true → approval_ok t k v → approval_check v.
Proof.
  intros Ec Hcol [((_ & _ & _ & _ & _ & _ & _ & _ & Hact) & Hc & Hcl & Hb & Hf)%readable_iff Hpast].
  pose proof Hpast as (Hp & Hr & Hd & Hx & Hse).
  assert (∃ expiry, apr_ExpiresAt v = Some expiry ∧ (apr_CreatedAt v < expiry ≤ apr_CreatedAt v + fifteen_minutes)%Z)
    as (expiry & Ee & He).
  { unfold approval_contract_valid in Hc. rewrite Ec, decide_False in Hc by done.
    to_prop. destruct (Hse Ec) as [x Ex]. rewrite Ex in *. by exists x. }
  pose proof (state_fields_known _ Hf) as Hs. unfold unexpired in *. rewrite Ee in *.
  split; [done|done| |done| | | | | |by apply effective_cases|by apply state_fields_lifecycle|].
  - unfold validInvocationRuntimeApprovalAction in Hact. apply bool_decide_eq_true in Hact. set_solver.
  - split.
    + destruct (state_fields_resolution _ Hf) as [H|H]; [apply resolved_fields in H|apply unresolved_empty in H]; set_solver.
    + by apply effective_valid.
  - destruct (state_fields_resolution _ Hf) as [H|H]; [apply resolved_fields in H|apply unresolved_empty in H]; naive_solver.
  - destruct (state_fields_resolution _ Hf) as [H|H]; [apply resolved_fields in H|apply unresolved_empty in H]; naive_solver.
  - exists expiry. split_and!; [done|lia|lia|lia| |].
    + intros x Ex. destruct (Hr x Ex). lia.
    + intros x Ex. destruct (Hd x Ex). pose proof (delivered_after_resolved _ _ Hf Ex). lia.
  - destruct (state_fields_resolution _ Hf) as [H|H];
      [right; by apply resolved_nonempty|left; by apply unresolved_empty].
  - eapply closure_valid_closure; [done|done|exact Hpast|]. by rewrite Ee.
Qed.

(** *** The table as a whole *)

(** Rows are of the current contract with well-spelt columns, and no two of an operation
    have the same source. *)
Definition table_ok (m : approvals) : Prop :=
  map_Forall (λ _ v, apr_Contract v = InvocationRuntimeApprovalContract ∧ approval_columns v = true) m ∧ unique_sources m.

Lemma columns_same v v' : same_identity v v' → approval_columns v' = approval_columns v.
Proof. unfold approval_columns. by intros [= _ -> -> -> -> -> -> -> -> _ _ _]. Qed.

Lemma table_ok_update m k v v' : table_ok m → m !! k = Some v → same_identity v v' → table_ok (<[k := v']> m).
Proof.
  intros [Hc Hu] Hk Hsame. pose proof Hsame as [= E1 _ _ E2 _ _ _ _ E3 _ _ _]. split.
  - apply map_Forall_insert_2; [|done]. rewrite E1, (columns_same _ _ Hsame). by apply (Hc k).
  - assert (∀ k' w, <[k := v']> m !! k' = Some w → ∃ w', m !! k' = Some w' ∧ apr_OperationID w = apr_OperationID w'
      ∧ apr_SourceSequence w = apr_SourceSequence w') as Hold.
    { intros k' w [[<- <-]|[Hne Hw]]%lookup_insert_Some; [by exists v|by exists w]. }
    intros k1 k2 v1 v2 (w1 & ? & ? & ?)%Hold (w2 & ? & ? & ?)%Hold ? ? ?. apply (Hu k1 k2 w1 w2); congruence.
Qed.

Lemma step_table x y : approval_step x y → table_ok x.2 → table_ok y.2.
Proof.
  intros S OK. destruct S; cbn in *; try done; try (by eapply table_ok_update).
  destruct OK as [Hc Hu]. split; [by apply map_Forall_insert_2|].
  intros k1 k2 v1 v2 [[<- <-]|[_ K1]]%lookup_insert_Some [[<- <-]|[_ K2]]%lookup_insert_Some; cbn; intros Ek Eo Es; [done|..].
  - exfalso. eapply H0; [exact K2|done|]. split; congruence.
  - exfalso. eapply H0; [exact K1|done|]. split; congruence.
  - by apply (Hu k1 k2 v1 v2).
Qed.

Lemma steps_table x y : rtc approval_step x y → table_ok x.2 → table_ok y.2.
Proof. induction 1; [done|]. intros OK. eauto using step_table. Qed.

(** A row is only ever changed as the trigger allows, and never deleted. *)
Lemma step_trigger t m t' m' k v :
  approval_step (t, m) (t', m') → m !! k = Some v →
  ∃ v', m' !! k = Some v' ∧ (v' = v ∨ approval_trigger v v').
Proof.
  intros S Hk.
  assert (Hins : ∀ k' v0 v', m !! k' = Some v0 → approval_trigger v0 v' →
    ∃ v1, <[k' := v']> m !! k = Some v1 ∧ (v1 = v ∨ approval_trigger v v1)).
  { intros k' v0 v' H0 T. destruct (decide (k' = k)) as [->|Hne].
    - simplify_eq. exists v'. rewrite lookup_insert_eq. auto.
    - exists v. rewrite lookup_insert_ne by done. auto. }
  inversion S; subst; [by exists v; auto| |eapply Hins; [done|]; unfold approval_trigger; simpl..].
  - exists v. rewrite lookup_insert_ne by congruence. auto.
  - rewrite H4. split_and!; [done|done|left; set_solver|done|done].
  - rewrite H4. split_and!; [done|done|left; set_solver|done|done].
  - rewrite H4. split_and!; [done|done|left; set_solver|done|done].
  - apply closing_state_inv in H6 as [[[Es|Es] ->]|[Es ->]]; rewrite Es; split_and!; try done;
      right; (split; [done|]); try case_decide; set_solver.
Qed.
