(* ===== verification/ApprovalProofs.v ===== *)
(** * The approval calls implement the approval state machine

    Each committed call of [RuntimeApproval] is a sequence of [approval_step]s on
    the approvals table, within the times of its session; other calls leave the
    table alone. *)
From S2P Require Import Prelude.
From S2P Require Import GoStrings.
From S2P Require Import Sha256.
From S2P Require Import Domain.
From S2P Require Import RuntimeTables.
From S2P Require Import Database.
From S2P Require Import OperationStore.
From S2P Require Import Commands.
From S2P Require Import RuntimeInteraction.
From S2P Require Import RuntimeApproval.
From S2P Require Import RuntimeQuestion.
From S2P Require Import StoreSpec.
From S2P Require Import StoreSteps.
From S2P Require Import StoreRefinement.
From S2P Require Import InteractionLogs.
From S2P Require Import ApprovalSpec.

(** The clock runs forward during a call, from [t] at the earliest to [t'] at the latest. *)
Definition session_within (t t' : Z) (s : session) : Prop :=
  (t ≤ ses_clock s 0)%Z ∧ (∀ i, ses_clock s i ≤ ses_clock s (S i))%Z ∧ (∀ i, ses_clock s i ≤ t')%Z.

Lemma clock_mono t t' s i j : session_within t t' s → i ≤ j → (ses_clock s i ≤ ses_clock s j)%Z.
Proof. intros (_ & Hs & _). induction 1 as [|j _ IH]; [lia|]. specialize (Hs j). lia. Qed.

Lemma clock_from t t' s i : session_within t t' s → (t ≤ ses_clock s i ≤ t')%Z.
Proof. intros Hs. pose proof (clock_mono _ _ _ 0 i Hs ltac:(lia)). destruct Hs as (? & _ & Hu). specialize (Hu i). lia. Qed.

Lemma later_within t t' s n : session_within t t' s → session_within (ses_clock s n) t' (later n s).
Proof.
  intros (H0 & Hs & Hu). split_and!; simpl; [by rewrite Nat.add_0_r|intros i; rewrite <- plus_n_Sm; apply Hs|intros i; apply Hu].
Qed.

(** Times of a session are ordered as its statements are. *)
Ltac session_lia Hs :=
  repeat match goal with
  | |- context [ses_clock ?s ?i] => lazymatch goal with
      | _ : (_ ≤ ses_clock s i ≤ _)%Z |- _ => fail
      | _ => pose proof (clock_from _ _ s i Hs) end
  end; lia.

Abbreviation ap d := (rt_approvals (db_runtime d)).

(** ** Parts that leave the runtime tables alone *)

Definition same_runtime (d d' : db) : Prop := db_runtime d' = db_runtime d.
#[local] Instance same_runtime_preorder : PreOrder same_runtime.
Proof. split; [done|]. intros x y z. unfold same_runtime. congruence. Qed.

Lemma insert_event_rt what ev : tx_rel same_runtime (insert_event what ev).
Proof. by intros d d' u ->%insert_event_Ok. Qed.
Lemma insert_audit_rt row : tx_rel same_runtime (insert_audit row).
Proof. by intros d d' u ->%modify_Ok. Qed.
Lemma insert_outbox_rt what id row : tx_rel same_runtime (insert_outbox what id row).
Proof. by intros d d' u [-> _]%insert_outbox_Ok. Qed.
Lemma active_rt now v : tx_rel same_runtime (activeRuntimeApproval now v).
Proof.
  intros d d' u H. unfold activeRuntimeApproval in H.
  destruct (activeRuntimeInteraction _ _ _ _ _ _) as [[d1 u1]|] eqn:E; [|done]. simplify_eq.
  by apply activeRuntimeInteraction_Ok in E as [-> _].
Qed.
#[local] Hint Resolve insert_event_rt insert_audit_rt insert_outbox_rt active_rt : dg.

Lemma lock_rt s claim effect : tx_rel same_runtime (lockRuntimeInteractionAttempt s claim effect).
Proof. unfold lockRuntimeInteractionAttempt. tx_rel_solve. Qed.
Lemma interaction_event_rt s claim target source ty payload :
  tx_rel same_runtime (recordInvocationRuntimeInteractionEvent s claim target source ty payload).
Proof. unfold recordInvocationRuntimeInteractionEvent. tx_rel_solve. Qed.
Lemma outcome_rt s value : tx_rel same_runtime (recordRuntimeInteractionOutcome s value).
Proof. unfold recordRuntimeInteractionOutcome. tx_rel_solve. Qed.
#[local] Hint Resolve lock_rt interaction_event_rt outcome_rt : dg.

Lemma closure_rt s v actor correlation : tx_rel same_runtime (recordRuntimeApprovalClosure s v actor correlation).
Proof. unfold recordRuntimeApprovalClosure. tx_rel_solve. Qed.
Lemma resolution_event_rt v r now : tx_rel same_runtime (recordInvocationRuntimeApprovalResolutionEvent v r now).
Proof. unfold recordInvocationRuntimeApprovalResolutionEvent. tx_rel_solve. Qed.
Lemma authorize_rt authorize v : tx_rel same_runtime (authorize_entry authorize v).
Proof. unfold authorize_entry. tx_rel_solve. Qed.

Lemma lock_same s claim effect d :
  is_ok (lockRuntimeInteractionAttempt s claim effect d) = true →
  lockRuntimeInteractionAttempt s claim effect d = Ok (d, tt).
Proof.
  intros [[d' []] H]%is_ok_true. rewrite H. unfold lockRuntimeInteractionAttempt in H. by tx_inv H.
Qed.

(** ** Reads and writes of one row *)

Lemma get_Ok dom id d v :
  getInvocationRuntimeApproval dom id d = Ok (Some v) → ap d !! (dom, id) = Some v ∧ approval_readable dom id v = true.
Proof. unfold getInvocationRuntimeApproval. destruct (_ !! _); [|done]. destruct (approval_readable _ _ _) eqn:E; naive_solver. Qed.

Lemma existing_Ok dom id missing d d' v :
  existing_approval dom id missing d = Ok (d', v) →
  d' = d ∧ ap d !! (dom, id) = Some v ∧ approval_readable dom id v = true.
Proof.
  unfold existing_approval. intros H. apply tx_bind_Ok in H as (d1 & found & H1 & H). tx_inv H1.
  destruct found as [w|]; [|done]. tx_inv H. by apply get_Ok in H1.
Qed.

Lemma update_Ok k w f d d' b :
  update_approval k w f d = Ok (d', b) →
  (b = true ∧ ∃ v, ap d !! k = Some v ∧ w d v = true ∧ ap d' = <[k := f v]> (ap d)) ∨ (b = false ∧ d' = d ∧ ∀ v, ap d !! k = Some v → w d v = false).
Proof.
  unfold update_approval. destruct (_ !! _) as [v|]; [|naive_solver]. destruct (w d v) eqn:E; [|naive_solver].
  intros [= <- <-]. left. split; [done|]. by exists v.
Qed.

Lemma insert_Ok v d d' u :
  insert_approval v d = Ok (d', u) →
  ap d !! (apr_IsolationDomainID v, apr_ID v) = None
  ∧ (∀ k w, ap d !! k = Some w → k.1 = apr_IsolationDomainID v →
       ¬ (apr_OperationID w = apr_OperationID v ∧ apr_SourceSequence w = apr_SourceSequence v))
  ∧ approval_columns v = true ∧ ap d' = <[(apr_IsolationDomainID v, apr_ID v) := v]> (ap d).
Proof.
  unfold insert_approval. destruct (approval_columns v) eqn:Ec; [|done]. cbn [negb]. destruct (existsb _ _) eqn:E; [done|]. intros [= <- <-]. apply not_true_iff_false in E.
  assert (∀ k w, ap d !! k = Some w → k.1 = apr_IsolationDomainID v →
    (k.2 = apr_ID v ∨ apr_OperationID w = apr_OperationID v ∧ apr_SourceSequence w = apr_SourceSequence v) → False) as Hno.
  { intros k w Hk Hd Hsame. destruct E. apply existsb_Exists, Exists_exists. exists (k, w).
    split; [by apply elem_of_map_to_list|]. by apply bool_decide_eq_true. }
  split_and!; [|intros k w Hk Hd Hs; by eapply Hno; eauto|done|done].
  destruct (ap d !! _) as [w|] eqn:Ew; [|done]. destruct (Hno _ w Ew); [done|by left].
Qed.

Lemma live_unexpired d now v : approval_live d now v = true → unexpired v now.
Proof. unfold approval_live, unexpired. intros H. to_prop. destruct (apr_ExpiresAt v); [by to_prop|done]. Qed.

Lemma not_updated_Ok {A} now v d d' (a : A) : not_updated now v d = Ok (d', a) → False.
Proof. unfold not_updated. intros H. apply tx_bind_Ok in H as (d1 & [] & _ & H). by destruct (IsZero _). Qed.

Lemma wait_step t t' m : (t ≤ t')%Z → rtc approval_step (t, m) (t', m).
Proof. intros. by apply rtc_once, ap_wait. Qed.

(** ** The calls *)

Lemma keeps {A} (m : tx A) d d' a : tx_rel same_runtime m → m d = Ok (d', a) → ap d' = ap d.
Proof. intros Hm H. by rewrite (Hm _ _ _ H). Qed.

Lemma valid_request claim effect target request actual d :
  (negb (validInvocationRuntimeClaim claim) || negb (validInvocationRuntimeAttempt claim effect)
     || negb (invocationRuntimeTargetMatchesApproval target claim)
     || bool_decide (arq_SourceSequence request = 0%Z)
     || negb (validInvocationRuntimeApprovalAction (arq_RequestedAction request))) = false →
  getInvocationRuntimeTarget (rtg_IsolationDomainID target) (rtg_OperationID target) d = Ok actual →
  same_target actual target = true → request_fields target effect request.
Proof.
  rewrite !orb_false_iff, !negb_false_iff, bool_decide_eq_false. intros [[[[Hc Ha] Hm] Hq] Hact] Ht Hs.
  apply bool_decide_eq_true in Hc as (_ & _ & Hid & _).
  apply andb_true_iff in Ha as [[_ Ha]%andb_true_iff _]. apply bool_decide_eq_true in Ha as (_ & _ & _ & _ & He).
  apply andb_true_iff in Hm as [[Hm _]%andb_true_iff _]. apply bool_decide_eq_true in Hm as (_ & Hop & _ & Hsv & Hrv).
  apply bool_decide_eq_true in Hs as (Hinv & _). unfold getInvocationRuntimeTarget in Ht.
  destruct (runtime_target_row _ _ _) as [row|]; [|done]. case_decide as Hd; [done|]. injection Ht as ->.
  split_and!; [by rewrite Hop|rewrite <- Hinv; tauto|done|done| |done|done].
  rewrite He. unfold effect_id, Identity.Derived. discriminate.
Qed.

Lemma request_refines t t' s claim effect target request d d' v :
  session_within t t' s → RecordInvocationRuntimeApprovalRequest s claim effect target request d = Ok (d', v) →
  rtc approval_step (t, ap d) (t', ap d').
Proof.
  intros Hs H. unfold RecordInvocationRuntimeApprovalRequest in H.
  apply tx_bind_Ok in H as (d1 & [] & K1 & H). apply reject_if_Ok in K1 as [-> Hv].
  apply tx_bind_Ok in H as (d1 & [] & K1 & H). apply (keeps _ _ _ _ (lock_rt _ _ _)) in K1.
  apply tx_bind_Ok in H as (d2 & actual & Ht & H). apply query_Ok in Ht as [-> Ht].
  apply tx_bind_Ok in H as (d2 & [] & Hsame & H). apply reject_if_Ok in Hsame as [-> Hsame%negb_false_iff].
  pose proof (valid_request _ _ _ _ _ _ Hv Ht Hsame) as Hf. clear Hv.
  cbv zeta in H. apply tx_bind_Ok in H as (d2 & found & K2 & H). apply query_Ok in K2 as [-> K2].
  pose proof (clock_from _ _ _ 2 Hs). rewrite <- K1. destruct found as [existing|].
  - apply tx_bind_Ok in H as (d2 & [] & K3 & H). apply reject_if_Ok in K3 as [-> _].
    apply tx_bind_Ok in H as (d2 & [] & K3 & H). apply tx_ret_Ok in H as [-> ->].
    apply (keeps _ _ _ _ (interaction_event_rt _ _ _ _ _ _)) in K3. rewrite K3. apply wait_step. lia.
  - apply tx_bind_Ok in H as (d2 & deadline & K3 & H). apply query_Ok in K3 as [-> K3].
    apply tx_bind_Ok in H as (d2 & [] & K4 & H). apply reject_if_Ok in K4 as [-> K4]. to_prop.
    apply tx_bind_Ok in H as (d2 & [] & (Hn & Hu & Hcol & Hi)%insert_Ok & H).
    apply tx_bind_Ok in H as (d3 & w & (-> & _)%existing_Ok & H).
    apply tx_bind_Ok in H as (d3 & [] & K5 & H). apply tx_ret_Ok in H as [-> ->].
    apply (keeps _ _ _ _ (interaction_event_rt _ _ _ _ _ _)) in K5. rewrite K5, Hi.
    apply rtc_once, ap_request; [done|exact Hu|done|lia|done|lia].
Qed.

Lemma authorize_Ok authorize v d d' u : authorize_entry authorize v d = Ok (d', u) → d' = d.
Proof.
  unfold authorize_entry. destruct authorize as [check|]; [destruct (check v); [done|]|]; by intros [-> _]%tx_ret_Ok.
Qed.

Lemma active_Ok now v d d' u : activeRuntimeApproval now v d = Ok (d', u) → d' = d.
Proof.
  unfold activeRuntimeApproval. destruct (activeRuntimeInteraction _ _ _ _ _ _) as [[d1 u1]|] eqn:E; [|done].
  intros [= <- <-]. by apply activeRuntimeInteraction_Ok in E as [-> _].
Qed.

(** What a successful resolution did: nothing, if the approval was resolved in the
    same way before; otherwise it resolved a pending approval before its expiry. *)
Lemma resolve_Ok s r authorize d d' v :
  resolveInvocationRuntimeApproval s r authorize d = Ok (d', v) →
  let k := (ars_IsolationDomainID r, ars_ApprovalID r) in
  ∃ row, ap d !! k = Some row ∧ apr_InvocationID row = ars_InvocationID r ∧ approval_closed (apr_State row) = false
    ∧ sameInvocationRuntimeApprovalResolution v r = true
    ∧ ((apr_State row ≠ "pending" ∧ d' = d ∧ v = row)
       ∨ (apr_State row = "pending" ∧ unexpired row (ses_clock s 4)
          ∧ v = resolved_approval r (ses_clock s 3) row ∧ ap d' = <[k := v]> (ap d))).
Proof.
  intros H. unfold resolveInvocationRuntimeApproval in H.
  apply tx_bind_Ok in H as (d1 & inv & [-> _]%gets_Ok & H).
  apply tx_bind_Ok in H as (d1 & [] & [-> _]%reject_if_Ok & H).
  apply tx_bind_Ok in H as (d1 & w & (-> & Hw & _)%existing_Ok & H).
  apply tx_bind_Ok in H as (d1 & [] & [-> Hi]%reject_if_Ok & H).
  apply tx_bind_Ok in H as (d1 & [] & [-> Hcl]%reject_if_Ok & H).
  apply tx_bind_Ok in H as (d1 & [] & [-> _]%reject_if_Ok & H).
  exists w. split; [done|]. split; [apply bool_decide_eq_false in Hi; by apply dec_stable|]. split; [done|].
  case_decide as Hp.
  - apply tx_bind_Ok in H as (d1 & [] & [-> Hsame%negb_false_iff]%reject_if_Ok & H).
    apply tx_bind_Ok in H as (d1 & [] & ->%authorize_Ok & H). apply tx_ret_Ok in H as [-> ->]. auto.
  - unfold resolve_pending in H. apply tx_bind_Ok in H as (d1 & [] & [-> _]%reject_if_Ok & H).
    apply tx_bind_Ok in H as (d1 & [] & ->%active_Ok & H).
    apply tx_bind_Ok in H as (d1 & [] & ->%authorize_Ok & H).
    apply tx_bind_Ok in H as (d1 & [] & ->%active_Ok & H). cbv zeta in H.
    apply tx_bind_Ok in H as (d4 & b & [(-> & row & Hrow & Hw4 & Hu)|(-> & -> & _)]%update_Ok & H);
      [|by apply not_updated_Ok in H]. simpl in H.
    apply tx_bind_Ok in H as (d5 & [] & K5%(keeps _ _ _ _ (insert_audit_rt _)) & H).
    apply tx_bind_Ok in H as (d6 & [] & K6%(keeps _ _ _ _ (resolution_event_rt _ _ _)) & H).
    apply existing_Ok in H as (-> & Hv & _). rewrite Hw in Hrow. injection Hrow as <-.
    rewrite K6, K5, Hu, lookup_insert_eq in Hv. injection Hv as <-.
    apply andb_true_iff in Hw4 as [[E _]%bool_decide_eq_true Hl%live_unexpired].
    split; [by apply bool_decide_eq_true|]. right. split_and!; [done..|by rewrite K6, K5, Hu].
Qed.

Lemma resolve_refines t t' s r authorize d d' v :
  session_within t t' s → validInvocationRuntimeApprovalResolution r = true →
  resolveInvocationRuntimeApproval s r authorize d = Ok (d', v) → rtc approval_step (t, ap d) (t', ap d').
Proof.
  intros Hs Hv H. apply resolve_Ok in H as (row & Hrow & _ & _ & _ & [(_ & -> & _)|(Est & Hu & -> & ->)]);
    pose proof (clock_from _ _ _ 3 Hs); pose proof (clock_from _ _ _ 4 Hs); [apply wait_step; lia|].
  pose proof (clock_mono _ _ _ 3 4 Hs ltac:(lia)).
  eapply (rtc_l _ _ (ses_clock s 4, _)); [|apply wait_step; lia]. eapply ap_resolve; [done|done| |lia|done].
  unfold validInvocationRuntimeApprovalResolution in Hv. by to_prop.
Qed.

(** What a successful reservation of the delivery did. *)
Lemma begin_Ok s claim effect id decision d d' v :
  BeginInvocationRuntimeApprovalDelivery s claim effect id decision d = Ok (d', v) →
  ∃ row, ap d !! (c_IsolationDomainID claim, id) = Some row ∧ apr_State row = "resolved"
    ∧ (decision = "approve" → apr_Decision row = "approve")
    ∧ validInvocationRuntimeApprovalDecision decision = true
    ∧ unexpired row (ses_clock s 3)
    ∧ v = delivering_approval decision (ses_clock s 2) row
    ∧ ap d' = <[(c_IsolationDomainID claim, id) := v]> (ap d).
Proof.
  intros H. unfold BeginInvocationRuntimeApprovalDelivery in H.
  apply tx_bind_Ok in H as (d1 & [] & [-> Hv]%reject_if_Ok & H).
  apply orb_false_iff in Hv as [_ Hdec%negb_false_iff].
  apply tx_bind_Ok in H as (d1 & [] & K1%(keeps _ _ _ _ (lock_rt _ _ _)) & H).
  apply tx_bind_Ok in H as (d2 & w & (-> & Hw & _)%existing_Ok & H).
  do 4 (apply tx_bind_Ok in H as (d2 & [] & [-> _]%reject_if_Ok & H)).
  apply tx_bind_Ok in H as (d2 & [] & [-> Hc%bool_decide_eq_false]%reject_if_Ok & H). cbv zeta in H.
  apply tx_bind_Ok in H as (d2 & b & [(-> & row & Hrow & Hw4 & Hu)|(-> & -> & Hno)]%update_Ok & H);
    [|by apply not_updated_Ok in H].
  rewrite Hw in Hrow. injection Hrow as <-. apply andb_true_iff in Hw4 as [E%bool_decide_eq_true Hl%live_unexpired].
  apply existing_Ok in H as (-> & Hv & _). rewrite Hu, lookup_insert_eq in Hv. injection Hv as <-.
  rewrite K1 in Hw. exists w. split_and!; [done|done| |done|done|done|by rewrite Hu, K1].
  intros ->. destruct (decide (apr_Decision w = "approve")); tauto.
Qed.

Lemma begin_refines t t' s claim effect id decision d d' v :
  session_within t t' s → BeginInvocationRuntimeApprovalDelivery s claim effect id decision d = Ok (d', v) →
  rtc approval_step (t, ap d) (t', ap d').
Proof.
  intros Hs (row & Hrow & Est & Happ & Hdec & Hu & -> & ->)%begin_Ok.
  pose proof (clock_from _ _ _ 2 Hs). pose proof (clock_from _ _ _ 3 Hs).
  pose proof (clock_mono _ _ _ 2 3 Hs ltac:(lia)).
  eapply (rtc_l _ _ (ses_clock s 3, _)); [|apply wait_step; lia]. eapply ap_begin; [done..|lia|done].
Qed.

Lemma complete_refines t t' s claim effect id d d' v :
  session_within t t' s → CompleteInvocationRuntimeApprovalDelivery s claim effect id d = Ok (d', v) →
  rtc approval_step (t, ap d) (t', ap d').
Proof.
  intros Hs H. unfold CompleteInvocationRuntimeApprovalDelivery in H.
  apply tx_bind_Ok in H as (d1 & [] & [-> _]%reject_if_Ok & H).
  apply tx_bind_Ok in H as (d1 & [] & K1%(keeps _ _ _ _ (lock_rt _ _ _)) & H).
  apply tx_bind_Ok in H as (d2 & w & (-> & Hw & _)%existing_Ok & H).
  apply tx_bind_Ok in H as (d2 & [] & [-> _]%reject_if_Ok & H).
  pose proof (clock_from _ _ _ 2 Hs). pose proof (clock_from _ _ _ 3 Hs).
  pose proof (clock_mono _ _ _ 2 3 Hs ltac:(lia)).
  case_decide; [apply tx_ret_Ok in H as [-> ->]; rewrite K1; apply wait_step; lia|].
  apply tx_bind_Ok in H as (d2 & [] & [-> _]%reject_if_Ok & H). cbv zeta in H.
  apply tx_bind_Ok in H as (d2 & b & [(-> & row & Hrow & Hw4 & Hu)|(-> & -> & Hno)]%update_Ok & H);
    [|by apply not_updated_Ok in H].
  apply existing_Ok in H as (-> & _ & _). rewrite Hu, K1. rewrite K1 in Hrow.
  apply andb_true_iff in Hw4 as [E%bool_decide_eq_true Hl%live_unexpired].
  eapply (rtc_l _ _ (ses_clock s 3, _)); [|apply wait_step; lia]. eapply ap_complete; [done|done|lia|done].
Qed.

(** Closing one row, with the reason the code settles on. *)
Lemma close_refines t t' s v reason actor correlation dom id expiry d d' v' :
  (t ≤ ses_clock s 0 ≤ t')%Z → ap d !! (dom, id) = Some v → approval_readable dom id v = true →
  apr_Contract v = InvocationRuntimeApprovalContract → apr_ExpiresAt v = Some expiry →
  validApprovalCloseReason reason = true → (reason = "expired" → (expiry ≤ ses_clock s 0)%Z) →
  closeRuntimeApproval s v reason actor correlation d = Ok (d', v') →
  rtc approval_step (t, ap d) (t', ap d')
  ∧ ∃ reason', (reason' = "expired" ↔ (expiry ≤ ses_clock s 0)%Z)
      ∧ ((closing_state (apr_State v) reason' = Ok None ∧ ap d' = ap d)
         ∨ ∃ state, closing_state (apr_State v) reason' = Ok (Some state)
             ∧ ap d' = <[(dom, id) := closed_approval state reason' (ses_clock s 0) v]> (ap d)).
Proof.
  intros Hs Hv Hr Hc He Hok Hx H. unfold closeRuntimeApproval in H. cbv zeta in H.
  rewrite He in H. simpl in H.
  set (reason' := if decide (expiry ≤ ses_clock s 0)%Z then "expired" else reason) in *.
  assert (Hok' : validApprovalCloseReason reason' = true) by (unfold reason'; by case_decide).
  assert (Hx' : reason' = "expired" ↔ (expiry ≤ ses_clock s 0)%Z) by (unfold reason'; case_decide; tauto).
  apply tx_bind_Ok in H as (d1 & next & [-> Hnext]%query_Ok & H). destruct next as [state|].
  2:{ apply tx_ret_Ok in H as [-> ->]. split; [apply wait_step; lia|exists reason'; by auto]. }
  apply readable_iff in Hr as Hr'. destruct Hr' as ((Ed & Ei & _) & _). rewrite Ed, Ei in H.
  apply tx_bind_Ok in H as (d1 & b & [(-> & row & Hrow & _ & Hu)|(-> & -> & Hno)]%update_Ok & H).
  - apply tx_bind_Ok in H as (d2 & w & (-> & _)%existing_Ok & H).
    apply tx_bind_Ok in H as (d2 & [] & K%(keeps _ _ _ _ (closure_rt _ _ _ _)) & H). apply tx_ret_Ok in H as [-> ->].
    rewrite Hv in Hrow. injection Hrow as <-. rewrite K, Hu. split; [|exists reason'; split; [done|right]; by eauto].
    apply rtc_once. eapply ap_close; eauto.
  - by specialize (Hno v Hv).
Qed.

Lemma close_approval_refines t t' s claim effect id reason d d' v :
  session_within t t' s → approvals_ok (t, ap d) →
  CloseInvocationRuntimeApproval s claim effect id reason d = Ok (d', v) →
  rtc approval_step (t, ap d) (t', ap d').
Proof.
  intros Hs OK H. unfold CloseInvocationRuntimeApproval in H.
  apply tx_bind_Ok in H as (d1 & [] & [-> Hr]%reject_if_Ok & H).
  apply orb_false_iff in Hr as [_ Hr%bool_decide_eq_false].
  apply tx_bind_Ok in H as (d1 & [] & K1%(keeps _ _ _ _ (lock_rt _ _ _)) & H).
  apply tx_bind_Ok in H as (d2 & w & (-> & Hw & Hrd)%existing_Ok & H).
  apply tx_bind_Ok in H as (d2 & [] & [-> Hc%bool_decide_eq_false]%reject_if_Ok & H).
  assert (Hct : apr_Contract w = InvocationRuntimeApprovalContract) by (apply dec_stable; tauto).
  rewrite K1 in Hw. pose proof (map_Forall_lookup_1 _ _ _ _ OK Hw) as [_ (_ & _ & _ & _ & Hex)].
  destruct (Hex Hct) as [expiry He]. rewrite <- K1 in Hw.
  eapply (rtc_l _ _ (ses_clock s 2, _)); [apply ap_wait; pose proof (clock_from _ _ _ 2 Hs); lia|]. rewrite <- K1.
  eapply close_refines in H as [R _]; [exact R| |exact Hw|exact Hrd|exact Hct|exact He| |].
  - simpl. pose proof (clock_from _ _ _ 2 Hs). lia.
  - unfold validApprovalCloseReason. apply bool_decide_eq_true.
    destruct (decide (reason = "runtime-request-cleared")) as [->|]; [by auto|].
    destruct (decide (reason = "runtime-ended")) as [->|]; [by auto|].
    destruct (decide (reason = "cancelled")) as [->|]; [by auto|]. by destruct Hr.
  - intros ->. exfalso. by apply Hr.
Qed.

(** An approval that is past its expiry, in whatever state. *)
Definition past_due (scope : string) (t : Z) (m : approvals) (id : string) : Prop :=
  ∃ v expiry, m !! (scope, id) = Some v ∧ apr_Contract v = InvocationRuntimeApprovalContract
    ∧ apr_ExpiresAt v = Some expiry ∧ (expiry ≤ t)%Z.

Lemma expire_each_refines t t' s scope actor correlation ids d d' u :
  session_within t t' s → Forall (past_due scope t (ap d)) ids →
  expire_each s scope actor correlation ids d = Ok (d', u) → rtc approval_step (t, ap d) (t', ap d').
Proof.
  revert t s d. induction ids as [|id ids IH]; intros t s d Hs Hids H; simpl in H.
  { apply tx_ret_Ok in H as [-> _]. apply wait_step. pose proof (clock_from _ _ _ 0 Hs). lia. }
  apply Forall_cons in Hids as [(v & expiry & Hv & Hc & He & Hle) Hids].
  apply tx_bind_Ok in H as (d1 & w & (-> & Hw & Hrd)%existing_Ok & H). rewrite Hv in Hw. injection Hw as <-.
  apply tx_bind_Ok in H as (d1 & v1 & Hcl & H). pose proof (clock_from _ _ _ 0 Hs).
  eapply (close_refines t (ses_clock s 4)) in Hcl as [R Heff]; [|split|exact Hv|exact Hrd|exact Hc|exact He|done|lia];
    [|lia|by eapply clock_mono; [|lia]].
  etrans; [exact R|]. eapply IH; [by eapply later_within| |exact H].
  apply (Forall_impl _ _ _ Hids). intros id' (v' & e' & Hv' & Hc' & He' & Hle').
  pose proof (clock_from _ _ _ 4 Hs). destruct Heff as (reason & _ & [[_ ->]|(state & _ & ->)]); [exists v', e'; split_and!; [done..|lia]|].
  destruct (decide (id' = id)) as [->|Hne].
  - exists (closed_approval state reason (ses_clock s 0) v), expiry. rewrite lookup_insert_eq.
    split_and!; [done|exact Hc|exact He|lia].
  - exists v', e'. rewrite lookup_insert_ne by congruence. split_and!; [done..|lia].
Qed.

Lemma expiring_id_due locks scope limit now invocations d id :
  id ∈ expiring_ids locks scope limit now invocations d →
  past_due scope now (ap d) id ∧ ∃ v, (scope, id, v) ∈ due_approvals scope now d.
Proof.
  unfold expiring_ids. intros (p & -> & Hp)%list_elem_of_fmap.
  apply elem_of_take in Hp as (i & Hi & _). apply list_elem_of_lookup_2 in Hi.
  rewrite merge_sort_Permutation in Hi. apply list_elem_of_fmap in Hi as ([k v] & -> & Hin). simpl.
  apply list_elem_of_filter in Hin as [_ Hin]. pose proof Hin as Hdue.
  unfold due_approvals in Hin. apply list_elem_of_filter in Hin as [(Hk & Hc & _ & He) Hin%elem_of_map_to_list].
  destruct k as [dom id]. simpl in *. subst dom. destruct (apr_ExpiresAt v) as [expiry|] eqn:Ex; [|done].
  split; [by exists v, expiry|by exists v].
Qed.

Lemma expire_refines t t' s locks scope actor correlation limit d d' n :
  session_within t t' s → ExpireInvocationRuntimeApprovals s locks scope actor correlation limit d = Ok (d', n) →
  rtc approval_step (t, ap d) (t', ap d').
Proof.
  intros Hs H. unfold ExpireInvocationRuntimeApprovals in H.
  apply tx_bind_Ok in H as (d1 & [] & [-> _]%reject_if_Ok & H).
  apply tx_bind_Ok in H as (d1 & invocations & [-> _]%query_Ok & H).
  apply tx_bind_Ok in H as (d1 & ids & [-> ->]%gets_Ok & H).
  apply tx_bind_Ok in H as (d1 & [] & Hx & H). apply tx_ret_Ok in H as [-> _].
  pose proof (clock_from _ _ _ 2 Hs). eapply (rtc_l _ _ (ses_clock s 2, _)); [apply ap_wait; lia|].
  eapply expire_each_refines; [by eapply later_within| |exact Hx].
  apply Forall_forall. intros id ((v & expiry & Hv & Hc & He & Hle) & _)%expiring_id_due.
  exists v, expiry. split_and!; [done..|]. pose proof (clock_mono _ _ _ 1 2 Hs ltac:(lia)). lia.
Qed.

(** ** All interactions, and runs of the system in time *)

Definition same_approvals (d d' : db) : Prop := ap d' = ap d.
#[local] Instance same_approvals_preorder : PreOrder same_approvals.
Proof. split; [done|]. intros x y z. unfold same_approvals. congruence. Qed.

Lemma runtime_approvals {A} (m : tx A) : tx_rel same_runtime m → tx_rel same_approvals m.
Proof. intros Hm d d' a H. by eapply keeps. Qed.

Lemma update_question_ap k w f : tx_rel same_approvals (update_question k w f).
Proof. intros d d' b. unfold update_question. go_cases; intros [= <- <-]; done. Qed.
Lemma insert_question_ap v : tx_rel same_approvals (insert_question v).
Proof. intros d d' b. unfold insert_question. go_cases; intros [= <- <-]; done. Qed.
Lemma active_question_ap now v : tx_rel same_approvals (activeRuntimeQuestion now v).
Proof.
  intros d d' u H. unfold activeRuntimeQuestion in H.
  destruct (activeRuntimeInteraction _ _ _ _ _ _) as [[d1 u1]|] eqn:E; [|done]. simplify_eq.
  by apply activeRuntimeInteraction_Ok in E as [-> _].
Qed.
#[local] Hint Resolve update_question_ap insert_question_ap active_question_ap runtime_approvals : dg.

Lemma existing_question_ap dom id missing : tx_rel same_approvals (existing_question dom id missing).
Proof. unfold existing_question. tx_rel_solve. Qed.
Lemma question_change_ap s v action actor correlation now :
  tx_rel same_approvals (recordRuntimeQuestionChange s v action actor correlation now).
Proof. unfold recordRuntimeQuestionChange. tx_rel_solve. Qed.
#[local] Hint Resolve existing_question_ap question_change_ap : dg.

Lemma close_question_ap s v reason actor correlation :
  tx_rel same_approvals (closeRuntimeQuestion s v reason actor correlation).
Proof. unfold closeRuntimeQuestion, reread_question. tx_rel_solve. Qed.
#[local] Hint Resolve close_question_ap : dg.

Lemma expire_each_question_ap s scope actor correlation ids :
  tx_rel same_approvals (expire_each_question s scope actor correlation ids).
Proof. revert s. induction ids as [|id ids IH]; intros s; simpl; tx_rel_solve. Qed.
Lemma answer_ap s a authorize : tx_rel same_approvals (answerInvocationRuntimeQuestion s a authorize).
Proof.
  unfold answerInvocationRuntimeQuestion, answer_pending, authorize_question, reread_question. tx_rel_solve.
Qed.
#[local] Hint Resolve expire_each_question_ap answer_ap : dg.

(** A command body acts on the approvals as it would alone. *)
Lemma execute_ap {A} (e : env) (i : Idempotency) (m : tx A) (f : A → GoJson.json) (d d' : db) (r : CommandResult) (R : approvals → approvals → Prop) :
  (∀ m, R m m) → (∀ d d' a, m d = Ok (d', a) → R (ap d) (ap d')) →
  execute e i (λ _ d, '(d1, v) ← m d; Ok (StatusOK, f v, d1)) d = Ok (d', r) → R (ap d) (ap d').
Proof.
  intros Hr Hm [[-> _]|(_ & _ & res & st & v & d1 & g & E & _ & -> & _)]%execute_spec; [apply Hr|].
  apply result_bind_Ok in E as ([d2 a] & E & [= <- <- <-]). apply Hm in E. exact E.
Qed.

Lemma committed_Ok {A} (r : result (db * A)) d' : committed r = Ok d' → ∃ a, r = Ok (d', a).
Proof. destruct r as [[d a]|]; simpl; [|done]. intros [= <-]. by eexists. Qed.

Lemma question_interaction_ap {A} (m : tx A) t t' s d d' :
  session_within t t' s → tx_rel same_approvals m → committed (m d) = Ok d' →
  rtc approval_step (t, ap d) (t', ap d').
Proof.
  intros Hs Hm [a H]%committed_Ok. rewrite (Hm _ _ _ H). apply wait_step. pose proof (clock_from _ _ _ 0 Hs). lia.
Qed.

(** Every committed interaction is a sequence of steps of the approval state machine. *)
Lemma interaction_refines t t' s x d d' :
  session_within t t' s → approvals_ok (t, ap d) → run_interaction s x d = Ok d' →
  rtc approval_step (t, ap d) (t', ap d').
Proof.
  intros Hs OK H. pose proof (clock_from _ _ _ 0 Hs).
  destruct x; simpl in H;
    try (eapply question_interaction_ap in H; [exact H|exact Hs|];
         unfold RecordInvocationRuntimeQuestionRequest, AnswerInvocationRuntimeQuestion,
           BeginInvocationRuntimeQuestionDelivery, CompleteInvocationRuntimeQuestionDelivery,
           CloseInvocationRuntimeQuestion, ExpireInvocationRuntimeQuestions, authorize_question,
           recordRuntimeQuestionEvent, reread_question; by tx_rel_solve);
    apply committed_Ok in H as [res H].
  - by eapply request_refines.
  - unfold ResolveInvocationRuntimeApproval in H. apply tx_bind_Ok in H as (d1 & [] & [-> Hv]%reject_if_Ok & H).
    apply negb_false_iff in Hv. by eapply resolve_refines.
  - unfold ResolveInvocationRuntimeApprovalCommand in H. destruct (_ || _) eqn:Hv; [done|].
    apply orb_false_iff in Hv as [Hv%negb_false_iff _].
    eapply (execute_ap _ _ _ _ _ _ _ (λ m m', rtc approval_step (t, m) (t', m'))) in H; [exact H| |].
    + intros m. apply wait_step. lia.
    + intros d0 d1 v. by apply resolve_refines.
  - by eapply begin_refines.
  - by eapply complete_refines.
  - by eapply close_approval_refines.
  - by eapply expire_refines.
  - unfold AnswerInvocationRuntimeQuestionCommand in H. destruct (_ || _); [done|].
    destruct (execute _ _ _ _) as [[d1 r1]|] eqn:E; [|done]. cbn [mbind result_bind] in H.
    apply (execute_ap _ _ _ _ _ _ _ (λ m m', m' = m)) in E; [|done|by apply answer_ap].
    assert (d' = d1) as -> by (destruct (cr_Replayed r1); [destruct (answer_replayed _ _ _)|]; by simplify_eq).
    rewrite E. apply wait_step. lia.
Qed.

(** ** Where rows come from *)

(** Every row was there before, with the same identity. *)
Definition rows_from (d d' : db) : Prop := ∀ k v', ap d' !! k = Some v' → ∃ v, ap d !! k = Some v ∧ same_identity v v'.
#[local] Instance rows_from_preorder : PreOrder rows_from.
Proof.
  split; [intros d k v Hk; by exists v|]. intros d1 d2 d3 H1 H2 k v Hk. destruct (H2 k v Hk) as (v2 & Hk2 & E2).
  destruct (H1 k v2 Hk2) as (v1 & Hk1 & E1). exists v1. split; [done|]. unfold same_identity in *. congruence.
Qed.

Lemma same_rows {A} (m : tx A) : tx_rel same_approvals m → tx_rel rows_from m.
Proof. intros Hm d d' a H k v Hk. rewrite (Hm _ _ _ H) in Hk. by exists v. Qed.
Lemma runtime_rows {A} (m : tx A) : tx_rel same_runtime m → tx_rel rows_from m.
Proof. intros Hm. by apply same_rows, runtime_approvals. Qed.
Lemma update_rows k w f : (∀ v, same_identity v (f v)) → tx_rel rows_from (update_approval k w f).
Proof.
  intros Hf d d' b. unfold update_approval. destruct (ap d !! k) as [v|] eqn:Ev; [|by intros [= <- <-]].
  destruct (w d v); intros [= <- <-]; [|done]. intros k' v' Hk. change (<[k := f v]> (ap d) !! k' = Some v') in Hk.
  apply lookup_insert_Some in Hk as [[<- <-]|[_ Hk]]; [by exists v|by exists v'].
Qed.
Lemma existing_rows dom id missing : tx_rel rows_from (existing_approval dom id missing).
Proof. by intros d d' v (-> & _)%existing_Ok. Qed.
Lemma not_updated_rows {A} now v : tx_rel rows_from (not_updated now v : tx A).
Proof. intros d d' a []%not_updated_Ok. Qed.
#[local] Hint Resolve existing_rows not_updated_rows : dg.
#[local] Hint Extern 1 (tx_rel rows_from (update_approval _ _ _)) => apply update_rows; reflexivity : dg.
#[local] Hint Extern 2 (tx_rel rows_from _) => apply runtime_rows; solve [auto using closure_rt, resolution_event_rt, authorize_rt with dg nocore] : dg.

Lemma close_rows s v reason actor correlation : tx_rel rows_from (closeRuntimeApproval s v reason actor correlation).
Proof. unfold closeRuntimeApproval, reread_approval. tx_rel_solve. Qed.
#[local] Hint Resolve close_rows : dg.
Lemma expire_each_rows s scope actor correlation ids : tx_rel rows_from (expire_each s scope actor correlation ids).
Proof. revert s. induction ids as [|id ids IH]; intros s; simpl; tx_rel_solve. Qed.
Lemma resolve_rows s r authorize : tx_rel rows_from (resolveInvocationRuntimeApproval s r authorize).
Proof. unfold resolveInvocationRuntimeApproval, resolve_pending, reread_approval. tx_rel_solve. Qed.
#[local] Hint Resolve expire_each_rows resolve_rows : dg.

(** The rows an approval refers to. *)
Definition refers (d : db) (k : key) (v : InvocationRuntimeApproval) : Prop :=
  is_Some (db_invocations d !! (k.1, apr_InvocationID v)) ∧ is_Some (db_effects d !! (k.1, apr_EffectID v)).

Lemma target_invocation dom op d actual target : getInvocationRuntimeTarget dom op d = Ok actual → same_target actual target = true →
  is_Some (db_invocations d !! (dom, rtg_InvocationID target)).
Proof.
  unfold getInvocationRuntimeTarget. intros Ht [Hinv _]%bool_decide_eq_true. rewrite <- Hinv.
  destruct (runtime_target_row d dom op) as [row|] eqn:E; [|done]. case_decide; [done|]. injection Ht as ->.
  unfold runtime_target_row in E. apply bind_Some in E as (r & _ & E). apply bind_Some in E as (i & Hi & E).
  apply bind_Some in E as (rev & _ & E). destruct (_ && _); [|done]. injection E as <-. cbn. by rewrite Hi.
Qed.

Lemma locked_effect s claim effect target d d' :
  (negb (validInvocationRuntimeClaim claim) || negb (validInvocationRuntimeAttempt claim effect)
     || negb (invocationRuntimeTargetMatchesApproval target claim)) = false →
  lockRuntimeInteractionAttempt s claim effect d = Ok (d', tt) →
  is_Some (db_effects d !! (rtg_IsolationDomainID target, e_EffectID effect)).
Proof.
  rewrite !orb_false_iff, !negb_false_iff. intros [[_ Ha] Hm] Hl.
  apply andb_true_iff in Ha as [[_ Ha]%andb_true_iff _]. apply bool_decide_eq_true in Ha as (Hiso & _).
  apply andb_true_iff in Hm as [[Hm _]%andb_true_iff _]. apply bool_decide_eq_true in Hm as (Hdom & _).
  unfold lockRuntimeInteractionAttempt in Hl. apply tx_bind_Ok in Hl as (d1 & ? & [-> _]%query_Ok & Hl).
  apply tx_bind_Ok in Hl as (d1 & [] & [-> He]%query_Ok & _). unfold verifyInvocationRuntimeEffect, getEffect in He.
  rewrite Hdom, <- Hiso. by destruct (db_effects d !! _).
Qed.

Lemma request_rows s claim effect target request d d' v :
  RecordInvocationRuntimeApprovalRequest s claim effect target request d = Ok (d', v) →
  ∀ k v', ap d' !! k = Some v' → ap d !! k = Some v' ∨ refers d k v'.
Proof.
  intros H. unfold RecordInvocationRuntimeApprovalRequest in H.
  apply tx_bind_Ok in H as (d1 & [] & K1 & H). apply reject_if_Ok in K1 as [-> Hv].
  apply tx_bind_Ok in H as (d1 & [] & Hlock & H).
  assert (d1 = d) as -> by (unfold lockRuntimeInteractionAttempt in Hlock; by tx_inv Hlock).
  apply tx_bind_Ok in H as (d2 & actual & Ht & H). apply query_Ok in Ht as [-> Ht].
  apply tx_bind_Ok in H as (d2 & [] & Hsame & H). apply reject_if_Ok in Hsame as [-> Hsame%negb_false_iff].
  cbv zeta in H. apply tx_bind_Ok in H as (d2 & found & K2 & H). apply query_Ok in K2 as [-> K2]. destruct found as [existing|].
  - apply tx_bind_Ok in H as (d2 & [] & K3 & H). apply reject_if_Ok in K3 as [-> _].
    apply tx_bind_Ok in H as (d2 & [] & K3 & H). apply tx_ret_Ok in H as [-> ->].
    apply (keeps _ _ _ _ (interaction_event_rt _ _ _ _ _ _)) in K3. rewrite K3. auto.
  - apply tx_bind_Ok in H as (d2 & deadline & K3 & H). apply query_Ok in K3 as [-> K3].
    apply tx_bind_Ok in H as (d2 & [] & K4 & H). apply reject_if_Ok in K4 as [-> _].
    apply tx_bind_Ok in H as (d2 & [] & (_ & _ & _ & Hi)%insert_Ok & H).
    apply tx_bind_Ok in H as (d3 & w & (-> & _)%existing_Ok & H).
    apply tx_bind_Ok in H as (d3 & [] & K5 & H). apply tx_ret_Ok in H as [-> ->].
    apply (keeps _ _ _ _ (interaction_event_rt _ _ _ _ _ _)) in K5. rewrite K5, Hi.
    intros k v' [[<- <-]|[_ Hk]]%lookup_insert_Some; [right|by left]. cbn. split.
    + by eapply target_invocation.
    + apply orb_false_elim in Hv as [[Hv _]%orb_false_elim _]. by eapply locked_effect.
Qed.

(** A call writes no approval row but of an approval that was there, or whose
    invocation and effect are there. *)
Lemma interaction_rows s x d d' : run_interaction s x d = Ok d' → ∀ k v', ap d' !! k = Some v' →
  (∃ v, ap d !! k = Some v ∧ same_identity v v') ∨ refers d k v'.
Proof.
  intros H. assert (rows_from d d' → ∀ k v', ap d' !! k = Some v' → (∃ v, ap d !! k = Some v ∧ same_identity v v') ∨ refers d k v') as Hrows.
  { intros Hr k v' Hk. left. by apply Hr. }
  assert (∀ A (m : tx A), tx_rel rows_from m → committed (m d) = Ok d' → rows_from d d') as Htx.
  { intros A m Hm [a Ha]%committed_Ok. by eapply Hm. }
  destruct x; simpl in H;
    try (apply Hrows; eapply Htx; [|exact H]; apply same_rows;
         unfold RecordInvocationRuntimeQuestionRequest, AnswerInvocationRuntimeQuestion,
           BeginInvocationRuntimeQuestionDelivery, CompleteInvocationRuntimeQuestionDelivery,
           CloseInvocationRuntimeQuestion, ExpireInvocationRuntimeQuestions, authorize_question,
           recordRuntimeQuestionEvent, reread_question; by tx_rel_solve).
  - apply committed_Ok in H as [v H]. intros k v' Hk. destruct (request_rows _ _ _ _ _ _ _ _ H k v' Hk); [left; by exists v'|by right].
  - apply Hrows. eapply Htx; [|exact H]. unfold ResolveInvocationRuntimeApproval. tx_rel_solve.
  - apply committed_Ok in H as [r' H]. unfold ResolveInvocationRuntimeApprovalCommand in H. destruct (_ || _); [done|].
    apply Hrows. refine (execute_ap _ _ _ _ _ _ _ (λ m m', ∀ k v', m' !! k = Some v' → ∃ v, m !! k = Some v ∧ same_identity v v') _ _ H);
      [intros m k v' Hk; by exists v'|intros d0 d1 v0 H0; by eapply resolve_rows].
  - apply Hrows. eapply Htx; [|exact H]. unfold BeginInvocationRuntimeApprovalDelivery, reread_approval. tx_rel_solve.
  - apply Hrows. eapply Htx; [|exact H]. unfold CompleteInvocationRuntimeApprovalDelivery, reread_approval. tx_rel_solve.
  - apply Hrows. eapply Htx; [|exact H]. unfold CloseInvocationRuntimeApproval, reread_approval. tx_rel_solve.
  - apply Hrows. eapply Htx; [|exact H]. unfold ExpireInvocationRuntimeApprovals. tx_rel_solve.
  - apply committed_Ok in H as [r' H]. unfold AnswerInvocationRuntimeQuestionCommand in H. destruct (_ || _); [done|].
    destruct (execute _ _ _ _) as [[d1 r1]|] eqn:E; [|done]. cbn [mbind result_bind] in H.
    apply (execute_ap _ _ _ _ _ _ _ (λ m m', m' = m)) in E; [|done|by apply answer_ap].
    assert (d' = d1) as -> by (destruct (cr_Replayed r1); [destruct (answer_replayed _ _ _)|]; by simplify_eq).
    apply Hrows. intros k v' Hk. exists v'. by rewrite <- E.
Qed.

Section timed.
Context `{SchemaEngine}.

(** Runs of the whole store with the time attached: interactions happen within
    their sessions; any other call may happen in between, and none of those
    touches the approvals or the questions ([world_step_timed]). *)
Inductive timed_step : Z * world → Z * world → Prop :=
  | timed_interaction t t' s x d cs d' :
      session_within t t' s → run_interaction s x d = Ok d' →
      timed_step (t, World d cs) (t', World d' cs)
  | timed_other t t' w w' :
      (t ≤ t')%Z → world_step w w' → ap (w_db w') = ap (w_db w) →
      rt_questions (db_runtime (w_db w')) = rt_questions (db_runtime (w_db w)) → timed_step (t, w) (t', w').

(** The conditions of the second case lose nothing. *)
Lemma world_step_timed w w' :
  world_step w w' →
  (∃ s x, run_interaction s x (w_db w) = Ok (w_db w') ∧ ∀ t t', session_within t t' s → timed_step (t, w) (t', w'))
  ∨ ∀ t t', (t ≤ t')%Z → timed_step (t, w) (t', w').
Proof.
  intros S. destruct (world_step_tables _ _ S) as [(s & x & Hx & Hc)|[Ha Hq]].
  - left. exists s, x. split; [done|]. intros t t' Hs. destruct w, w'. simpl in *. subst. by eapply timed_interaction.
  - right. intros t t' Ht. by apply timed_other.
Qed.

Lemma timed_step_refines x y :
  timed_step x y → approvals_ok (x.1, ap (w_db x.2)) →
  rtc approval_step (x.1, ap (w_db x.2)) (y.1, ap (w_db y.2)).
Proof.
  intros [t t' s i d cs d' Hs Hi|t t' w w' Ht _ E _] OK; simpl in *; [by eapply interaction_refines|].
  rewrite E. by apply wait_step.
Qed.

Lemma timed_run_refines x y :
  rtc timed_step x y → approvals_ok (x.1, ap (w_db x.2)) →
  rtc approval_step (x.1, ap (w_db x.2)) (y.1, ap (w_db y.2)) ∧ approvals_ok (y.1, ap (w_db y.2)).
Proof.
  induction 1 as [|x y z S _ IH]; [done|]. intros OK. apply timed_step_refines in S as R; [|done].
  destruct (IH (approval_steps_ok _ _ R OK)) as [R' OK']. split; [by etrans|done].
Qed.

Lemma timed_reachable_table t0 t w : rtc timed_step (t0, initial_world) (t, w) → table_ok (ap (w_db w)).
Proof.
  intros R. apply timed_run_refines in R as [R _]; [|apply map_Forall_empty].
  apply (steps_table _ _ R). split; [apply map_Forall_empty|]. intros k k' v v' Hk. change ((∅ : approvals) !! k = Some v) in Hk. by rewrite lookup_empty in Hk.
Qed.

Lemma timed_step_world x y : timed_step x y → world_step x.2 y.2.
Proof. intros [t t' s i d cs d' _ Hi|t t' w w' _ S _ _]; [by eapply step_interaction|done]. Qed.

Lemma timed_reachable_ok t0 t w : rtc timed_step (t0, initial_world) (t, w) → approvals_ok (t, ap (w_db w)).
Proof. intros R. apply timed_run_refines in R as [_ OK]; [exact OK|]. apply map_Forall_empty. Qed.
End timed.
