(* ===== verification/QuestionProofs.v ===== *)
(** * Runtime questions: their state machine, and the calls that implement it

    As for approvals: the steps a question may take (the trigger of migration
    00050), the invariant of the table, and that every committed interaction is a
    sequence of such steps. *)
From S2P Require Import Prelude.
From S2P Require Import GoStrings.
From S2P Require Import Sha256.
From S2P Require Import Domain.
From S2P Require Import Questions.
From S2P Require Import RuntimeTables.
From S2P Require Import Database.
From S2P Require Import OperationStore.
From S2P Require Import Commands.
From S2P Require Import RuntimeInteraction.
From S2P Require Import RuntimeApproval.
From S2P Require Import RuntimeQuestion.
From S2P Require Import StoreSteps.
From S2P Require Import StoreRefinement.
From S2P Require Import ApprovalSpec.
From S2P Require Import ApprovalProofs.

Abbreviation questions := (gmap key InvocationRuntimeQuestion).
Abbreviation qu d := (rt_questions (db_runtime d)).

(** ** The state machine *)

Inductive question_step (m : questions) : questions → Prop :=
  | qs_request target effect request id now expiry :
      m !! (rtg_IsolationDomainID target, id) = None → ValidateQuestionPrompts (qrq_Prompts request) = Ok tt →
      question_step m (<[(rtg_IsolationDomainID target, id) := pending_question target effect request id now expiry]> m)
  | qs_answer k v a now :
      m !! k = Some v → qst_State v = "pending" → (now < qst_ExpiresAt v)%Z →
      ValidateQuestionAnswers (qst_Prompts v) (qan_Answers a) = Ok tt →
      question_step m (<[k := answered_question a now v]> m)
  | qs_begin k v now :
      m !! k = Some v → qst_State v = "answered" → (now < qst_ExpiresAt v)%Z →
      question_step m (<[k := delivering_question now v]> m)
  | qs_complete k v now :
      m !! k = Some v → qst_State v = "delivering" → question_step m (<[k := delivered_question now v]> m)
  | qs_close k v state reason now :
      m !! k = Some v → question_closing_state (qst_State v) reason = Ok (Some state) →
      question_step m (<[k := closed_question state reason now v]> m).

(** A row holds answers to its own prompts exactly from the state [answered] on,
    and its key. *)
Definition question_ok (k : key) (v : InvocationRuntimeQuestion) : Prop :=
  (qst_IsolationDomainID v, qst_ID v) = k
  ∧ ValidateQuestionPrompts (qst_Prompts v) = Ok tt
  ∧ (qst_Answers v = [] ∨ ValidateQuestionAnswers (qst_Prompts v) (qst_Answers v) = Ok tt)
  ∧ (qst_State v = "pending" → qst_Answers v = [] ∧ qst_Version v = 1%Z)
  ∧ (qst_State v ∈ ["answered"; "delivering"; "delivered"; "delivery_unknown"] → qst_Answers v ≠ [])
  ∧ (qst_State v = "pending" ∨ qst_State v = "answered" → qst_DeliveryStartedAt v = None).

(** The columns that never change. *)
Definition same_question (v v' : InvocationRuntimeQuestion) : Prop :=
  (qst_Contract v', qst_IsolationDomainID v', qst_ID v', qst_OperationID v', qst_InvocationID v', qst_ServiceID v',
   qst_RevisionID v', qst_EffectID v', qst_SourceSequence v', qst_CorrelationID v', qst_RequestedBy v', qst_Prompts v',
   qst_ExpiresAt v', qst_CreatedAt v')
  = (qst_Contract v, qst_IsolationDomainID v, qst_ID v, qst_OperationID v, qst_InvocationID v, qst_ServiceID v,
     qst_RevisionID v, qst_EffectID v, qst_SourceSequence v, qst_CorrelationID v, qst_RequestedBy v, qst_Prompts v,
     qst_ExpiresAt v, qst_CreatedAt v).

Definition answer_of (v : InvocationRuntimeQuestion) : list QuestionAnswer * string * string * option Z :=
  (qst_Answers v, qst_AnsweredBy v, qst_AnswerCorrelationID v, qst_AnsweredAt v).

(** [enforce_invocation_runtime_question_transition] *)
Definition question_trigger (v v' : InvocationRuntimeQuestion) : Prop :=
  same_question v v' ∧ qst_Version v' = (qst_Version v + 1)%Z
  ∧ (qst_State v, qst_State v') ∈ [("pending", "answered"); ("pending", "expired"); ("pending", "closed");
      ("answered", "delivering"); ("answered", "expired"); ("answered", "closed");
      ("delivering", "delivered"); ("delivering", "delivery_unknown")]
  ∧ ((qst_State v, qst_State v') ≠ ("pending", "answered") → answer_of v' = answer_of v)
  ∧ (qst_DeliveryStartedAt v ≠ None → qst_DeliveryStartedAt v' = qst_DeliveryStartedAt v).

Lemma question_closing_inv state reason next :
  question_closing_state state reason = Ok (Some next) →
  ((state = "pending" ∨ state = "answered") ∧ next = (if decide (reason = "expired") then "expired" else "closed"))
  ∨ (state = "delivering" ∧ next = "delivery_unknown").
Proof.
  unfold question_closing_state. destruct (decide (state = "pending" ∨ state = "answered")); [intros [= <-]; by left|].
  destruct (decide (state = "delivering")); [intros [= <-]; by right|]. by case_decide.
Qed.

Lemma valid_answers_nonempty prompts answers : ValidateQuestionAnswers prompts answers = Ok tt → answers ≠ [].
Proof.
  intros H ->. unfold ValidateQuestionAnswers in H. destruct (negb (is_ok _) || _) eqn:E; [done|].
  apply orb_false_iff in E as [E1 E2]. apply negb_false_iff in E1, E2. apply Nat.eqb_eq in E2. simpl in E2.
  apply is_ok_true in E1 as [[] E1]. unfold ValidateQuestionPrompts in E1. by rewrite <- E2 in E1.
Qed.

Lemma question_step_ok m m' : question_step m m' → map_Forall question_ok m → map_Forall question_ok m'.
Proof.
  intros S OK. assert (Hget : ∀ k v, m !! k = Some v → question_ok k v) by (intros k v; apply OK).
  destruct S as [target effect request id now expiry Hn Hp|k v a now Hk Es _ Ha|k v now Hk Es _|k v now Hk Es
    |k v state reason now Hk Hc]; (apply map_Forall_insert_2; [|done]).
  - split_and!; simpl; [done|done|by left|done| |done]. intros Hs. by member_cases Hs.
  - destruct (Hget _ _ Hk) as (Ek & Hp & _ & _ & _ & Hst). split_and!; simpl; [done|done|by right|done| |].
    + intros _. by eapply valid_answers_nonempty.
    + intros _. apply Hst. by left.
  - destruct (Hget _ _ Hk) as (Ek & Hp & Ha & _ & Hs & _). split_and!; simpl; [done|done|done|done| |by intros []].
    intros _. apply Hs. rewrite Es. by left.
  - destruct (Hget _ _ Hk) as (Ek & Hp & Ha & _ & Hs & _). split_and!; simpl; [done|done|done|done| |by intros []].
    intros _. apply Hs. rewrite Es. right. by left.
  - destruct (Hget _ _ Hk) as (Ek & Hp & Ha & _ & Hs & _). split_and!; simpl; [done|done|done| | |].
    + intros ->. apply question_closing_inv in Hc as [[_ Hc]|[_ Hc]]; [by case_decide|done].
    + intros Hn. apply question_closing_inv in Hc as [[_ ->]|[Es _]].
      * case_decide; by member_cases Hn.
      * apply Hs. rewrite Es. right. by left.
    + apply question_closing_inv in Hc as [[_ ->]|[_ ->]]; [|by intros []]. case_decide; by intros [].
Qed.

Lemma question_step_trigger m m' k v :
  question_step m m' → map_Forall question_ok m → m !! k = Some v → ∃ v', m' !! k = Some v' ∧ (v' = v ∨ question_trigger v v').
Proof.
  intros S OK Hk.
  assert (Hins : ∀ k' v0 v', m !! k' = Some v0 → question_trigger v0 v' →
    ∃ v1, <[k' := v']> m !! k = Some v1 ∧ (v1 = v ∨ question_trigger v v1)).
  { intros k' v0 v' H0 T. destruct (decide (k' = k)) as [->|Hne].
    - simplify_eq. exists v'. rewrite lookup_insert_eq. auto.
    - exists v. rewrite lookup_insert_ne by done. auto. }
  destruct S as [target effect request id now expiry Hn Hp|k' v0 a now Hk' Es _ Ha|k' v0 now Hk' Es _|k' v0 now Hk' Es
    |k' v0 state reason now Hk' Hc]; [|eapply Hins; [done|]; unfold question_trigger; simpl..].
  - exists v. rewrite lookup_insert_ne by congruence. auto.
  - rewrite Es. split_and!; [done|done|set_solver|done|done].
  - rewrite Es. split_and!; [done|done|set_solver|done|].
    intros Hx. destruct Hx. destruct (OK _ _ Hk') as (_ & _ & _ & _ & _ & Hst). apply Hst. by right.
  - rewrite Es. split_and!; [done|done|set_solver|done|done].
  - apply question_closing_inv in Hc as [[[Es|Es] ->]|[Es ->]]; rewrite Es; split_and!; try done;
      try case_decide; set_solver.
Qed.

(** ** The calls *)

Lemma qkeeps {A} (m : tx A) d d' a : tx_rel same_runtime m → m d = Ok (d', a) → qu d' = qu d.
Proof. intros Hm H. by rewrite (Hm _ _ _ H). Qed.

Lemma existing_question_Ok dom id missing d d' v :
  existing_question dom id missing d = Ok (d', v) → d' = d ∧ qu d !! (dom, id) = Some v.
Proof.
  unfold existing_question, getInvocationRuntimeQuestion. intros H.
  apply tx_bind_Ok in H as (d1 & found & [-> Hq]%query_Ok & H). destruct (_ !! _) as [w|] eqn:E; [|by simplify_eq].
  destruct (question_readable w); [|done]. simplify_eq. by apply tx_ret_Ok in H as [-> ->].
Qed.

Lemma update_question_Ok k w f d d' b :
  update_question k w f d = Ok (d', b) →
  (b = true ∧ ∃ v, qu d !! k = Some v ∧ w d v = true ∧ qu d' = <[k := f v]> (qu d)) ∨ (b = false ∧ d' = d).
Proof.
  unfold update_question. destruct (_ !! _) as [v|]; [|naive_solver]. destruct (w d v) eqn:E; [|naive_solver].
  intros [= <- <-]. left. split; [done|]. by exists v.
Qed.

Lemma insert_question_Ok v d d' u :
  insert_question v d = Ok (d', u) →
  qu d !! (qst_IsolationDomainID v, qst_ID v) = None ∧ qu d' = <[(qst_IsolationDomainID v, qst_ID v) := v]> (qu d).
Proof.
  unfold insert_question. destruct (existsb _ _) eqn:E; [done|]. intros [= <- <-]. split; [|done].
  destruct (qu d !! _) as [w|] eqn:Ew; [|done]. apply not_true_iff_false in E. destruct E.
  apply existsb_Exists, Exists_exists. exists ((qst_IsolationDomainID v, qst_ID v), w).
  split; [by apply elem_of_map_to_list|]. apply bool_decide_eq_true. naive_solver.
Qed.

#[local] Hint Resolve insert_event_rt insert_audit_rt insert_outbox_rt outcome_rt : dg.
#[local] Existing Instance same_runtime_preorder.
Lemma question_change_rt s v action actor correlation now :
  tx_rel same_runtime (recordRuntimeQuestionChange s v action actor correlation now).
Proof. unfold recordRuntimeQuestionChange. tx_rel_solve. Qed.
Lemma active_question_rt now v : tx_rel same_runtime (activeRuntimeQuestion now v).
Proof.
  intros d d' u H. unfold activeRuntimeQuestion in H.
  destruct (activeRuntimeInteraction _ _ _ _ _ _) as [[d1 u1]|] eqn:E; [|done]. simplify_eq.
  by apply activeRuntimeInteraction_Ok in E as [-> _].
Qed.
Lemma authorize_question_rt authorize v boundary : tx_rel same_runtime (authorize_question authorize v boundary).
Proof. unfold authorize_question. tx_rel_solve. Qed.

Lemma question_request_refines s claim effect target request d d' v :
  RecordInvocationRuntimeQuestionRequest s claim effect target request d = Ok (d', v) →
  rtc question_step (qu d) (qu d').
Proof.
  intros H. unfold RecordInvocationRuntimeQuestionRequest in H.
  apply tx_bind_Ok in H as (d1 & [] & [-> Hv]%reject_if_Ok & H).
  apply orb_false_iff in Hv as [_ Hv%negb_false_iff]. apply is_ok_true in Hv as [[] Hv].
  apply tx_bind_Ok in H as (d1 & [] & K1%(qkeeps _ _ _ _ (lock_rt _ _ _)) & H).
  apply tx_bind_Ok in H as (d2 & actual & [-> _]%query_Ok & H).
  apply tx_bind_Ok in H as (d2 & [] & [-> _]%reject_if_Ok & H). cbv zeta in H.
  apply tx_bind_Ok in H as (d2 & found & [-> _]%query_Ok & H). rewrite <- K1. destruct found as [existing|].
  - apply tx_bind_Ok in H as (d2 & [] & [-> _]%reject_if_Ok & H). by apply tx_ret_Ok in H as [-> _].
  - apply tx_bind_Ok in H as (d2 & deadline & [-> _]%query_Ok & H).
    apply tx_bind_Ok in H as (d2 & [] & [-> _]%reject_if_Ok & H).
    apply tx_bind_Ok in H as (d2 & [] & [Hn Hi]%insert_question_Ok & H).
    apply tx_bind_Ok in H as (d3 & w & [-> _]%existing_question_Ok & H).
    apply tx_bind_Ok in H as (d3 & [] & K3%(qkeeps _ _ _ _ (interaction_event_rt _ _ _ _ _ _)) & H).
    apply tx_bind_Ok in H as (d4 & [] & K4%(qkeeps _ _ _ _ (question_change_rt _ _ _ _ _ _)) & H).
    apply tx_ret_Ok in H as [-> _]. rewrite K4, K3, Hi. by apply rtc_once, qs_request.
Qed.

(** What a successful answer did: nothing, if the question had been answered in the
    same way; otherwise it answered a pending question before its expiry. *)
Lemma answer_Ok s a authorize d d' v :
  map_Forall question_ok (qu d) → answerInvocationRuntimeQuestion s a authorize d = Ok (d', v) →
  let k := (qan_IsolationDomainID a, qan_QuestionID a) in
  ∃ row, qu d !! k = Some row ∧ qst_InvocationID row = qan_InvocationID a
    ∧ ValidateQuestionAnswers (qst_Prompts row) (qan_Answers a) = Ok tt
    ∧ ((qst_Answers row ≠ [] ∧ d' = d ∧ v = row ∧ qst_AnsweredBy row = qan_ActorID a
        ∧ same_answers (qst_Answers row) (qan_Answers a) = true)
       ∨ (qst_State row = "pending" ∧ qst_Version row = qan_ExpectedVersion a
          ∧ (ses_clock s 3 < qst_ExpiresAt row)%Z
          ∧ v = answered_question a (ses_clock s 3) row ∧ qu d' = <[k := v]> (qu d))).
Proof.
  intros OK H. unfold answerInvocationRuntimeQuestion in H.
  apply tx_bind_Ok in H as (d1 & inv & [-> _]%gets_Ok & H).
  apply tx_bind_Ok in H as (d1 & [] & [-> _]%reject_if_Ok & H).
  apply tx_bind_Ok in H as (d1 & w & [-> Hw]%existing_question_Ok & H).
  apply tx_bind_Ok in H as (d1 & [] & [-> Hi%bool_decide_eq_false]%reject_if_Ok & H). apply dec_stable in Hi.
  apply tx_bind_Ok in H as (d1 & [] & [-> Hva%negb_false_iff]%reject_if_Ok & H).
  apply is_ok_true in Hva as [[] Hva]. exists w. do 3 (split; [done|]). case_decide as Ha.
  - left. apply tx_bind_Ok in H as (d1 & [] & [-> Hs]%reject_if_Ok & H).
    apply orb_false_iff in Hs as [Hs%bool_decide_eq_false Hj%negb_false_iff].
    apply tx_bind_Ok in H as (d1 & [] & K & H). apply tx_ret_Ok in H as [-> ->].
    unfold authorize_question in K. destruct (authorize _ _); [done|]. apply tx_ret_Ok in K as [-> _].
    split_and!; try done. apply dec_stable. tauto.
  - right. unfold answer_pending in H. do 2 (apply tx_bind_Ok in H as (d1 & [] & [-> _]%reject_if_Ok & H)).
    apply tx_bind_Ok in H as (d1 & [] & K1%(qkeeps _ _ _ _ (active_question_rt _ _)) & H).
    apply tx_bind_Ok in H as (d2 & [] & K2%(qkeeps _ _ _ _ (authorize_question_rt _ _ _)) & H).
    apply tx_bind_Ok in H as (d3 & [] & K3%(qkeeps _ _ _ _ (active_question_rt _ _)) & H).
    apply tx_bind_Ok in H as (d4 & b & [(-> & row & Hrow & Hc & Hu)|(-> & ->)]%update_question_Ok & H);
      [|by apply tx_bind_Ok in H as (? & ? & [_ ?]%reject_if_Ok & _)].
    apply tx_bind_Ok in H as (d5 & [] & [-> _]%reject_if_Ok & H).
    apply tx_bind_Ok in H as (d5 & v1 & [-> Hv1]%existing_question_Ok & H).
    apply tx_bind_Ok in H as (d5 & [] & K5%(qkeeps _ _ _ _ (question_change_rt _ _ _ _ _ _)) & H).
    apply tx_ret_Ok in H as [-> ->]. rewrite K3, K2, K1 in Hrow, Hu.
    destruct (OK _ _ Hw) as (Ek & _). rewrite Ek in Hrow, Hu, Hv1. rewrite Hw in Hrow. injection Hrow as <-.
    rewrite Hu, lookup_insert_eq in Hv1. injection Hv1 as <-. rewrite K5, Hu.
    apply andb_true_iff in Hc as [(E1 & E2 & E3)%bool_decide_eq_true _]. done.
Qed.

Lemma answer_refines s a authorize d d' v :
  map_Forall question_ok (qu d) → answerInvocationRuntimeQuestion s a authorize d = Ok (d', v) →
  rtc question_step (qu d) (qu d').
Proof.
  intros OK (row & Hrow & _ & Hva & [(_ & -> & _)|(Es & _ & Hx & -> & ->)])%answer_Ok; [done| |done].
  by apply rtc_once, qs_answer.
Qed.

Lemma question_begin_Ok s claim effect id authorize d d' v :
  map_Forall question_ok (qu d) →
  BeginInvocationRuntimeQuestionDelivery s claim effect id authorize d = Ok (d', v) →
  ∃ row, qu d !! (c_IsolationDomainID claim, id) = Some row ∧ qst_State row = "answered"
    ∧ authorize row InvocationQuestionEffect = None ∧ (ses_clock s 4 < qst_ExpiresAt row)%Z
    ∧ v = delivering_question (ses_clock s 4) row ∧ qu d' = <[(c_IsolationDomainID claim, id) := v]> (qu d).
Proof.
  intros OK H. unfold BeginInvocationRuntimeQuestionDelivery in H.
  apply tx_bind_Ok in H as (d1 & [] & [-> _]%reject_if_Ok & H).
  apply tx_bind_Ok in H as (d1 & [] & K1%(qkeeps _ _ _ _ (lock_rt _ _ _)) & H).
  apply tx_bind_Ok in H as (d2 & w & [-> Hw]%existing_question_Ok & H).
  do 3 (apply tx_bind_Ok in H as (d2 & [] & [-> _]%reject_if_Ok & H)).
  apply tx_bind_Ok in H as (d2 & [] & Hauth & H).
  assert (Hau : authorize w InvocationQuestionEffect = None) by
    (unfold authorize_question in Hauth; destruct (authorize w _); done).
  apply (qkeeps _ _ _ _ (authorize_question_rt _ _ _)) in Hauth.
  apply tx_bind_Ok in H as (d3 & [] & K3%(qkeeps _ _ _ _ (lock_rt _ _ _)) & H).
  apply tx_bind_Ok in H as (d4 & b & [(-> & row & Hrow & Hc & Hu)|(-> & ->)]%update_question_Ok & H);
    [|by apply tx_bind_Ok in H as (? & ? & [_ ?]%reject_if_Ok & _)].
  apply tx_bind_Ok in H as (d5 & [] & [-> _]%reject_if_Ok & H).
  apply tx_bind_Ok in H as (d5 & v1 & [-> Hv1]%existing_question_Ok & H).
  apply tx_bind_Ok in H as (d5 & [] & K5%(qkeeps _ _ _ _ (question_change_rt _ _ _ _ _ _)) & H).
  apply tx_ret_Ok in H as [-> ->]. rewrite K3, Hauth, K1 in Hrow. rewrite K1 in Hw.
  destruct (OK _ _ Hw) as (Ek & _). rewrite Ek in Hrow, Hu, Hv1. rewrite Hw in Hrow. injection Hrow as <-.
  rewrite Hu, lookup_insert_eq in Hv1. injection Hv1 as <-.
  apply andb_true_iff in Hc as [[E1 E2]%bool_decide_eq_true _].
  exists w. split_and!; [done..|]. by rewrite K5, Hu, K3, Hauth, K1.
Qed.

Lemma question_complete_refines s claim effect id d d' v :
  map_Forall question_ok (qu d) →
  CompleteInvocationRuntimeQuestionDelivery s claim effect id d = Ok (d', v) → rtc question_step (qu d) (qu d').
Proof.
  intros OK H. unfold CompleteInvocationRuntimeQuestionDelivery in H.
  apply tx_bind_Ok in H as (d1 & [] & [-> _]%reject_if_Ok & H).
  apply tx_bind_Ok in H as (d1 & [] & K1%(qkeeps _ _ _ _ (lock_rt _ _ _)) & H).
  apply tx_bind_Ok in H as (d2 & w & [-> Hw]%existing_question_Ok & H). rewrite K1 in Hw.
  apply tx_bind_Ok in H as (d2 & [] & [-> _]%reject_if_Ok & H).
  case_decide; [apply tx_ret_Ok in H as [-> _]; by rewrite K1|].
  apply tx_bind_Ok in H as (d2 & [] & [-> Es%bool_decide_eq_false]%reject_if_Ok & H). apply dec_stable in Es.
  apply tx_bind_Ok in H as (d2 & b & [(-> & row & Hrow & _ & Hu)|(-> & ->)]%update_question_Ok & H);
    [|by apply tx_bind_Ok in H as (? & ? & [_ ?]%reject_if_Ok & _)].
  apply tx_bind_Ok in H as (d3 & [] & [-> _]%reject_if_Ok & H).
  apply tx_bind_Ok in H as (d3 & v1 & [-> _]%existing_question_Ok & H).
  apply tx_bind_Ok in H as (d3 & [] & K3%(qkeeps _ _ _ _ (question_change_rt _ _ _ _ _ _)) & H).
  apply tx_ret_Ok in H as [-> _]. rewrite K3, Hu, K1. rewrite K1 in Hrow.
  destruct (OK _ _ Hw) as (Ek & _). rewrite Ek in Hrow |- *. rewrite Hw in Hrow. injection Hrow as <-.
  apply rtc_once. by apply qs_complete.
Qed.

Lemma question_close_refines s v reason actor correlation k d d' v' :
  map_Forall question_ok (qu d) → qu d !! k = Some v →
  closeRuntimeQuestion s v reason actor correlation d = Ok (d', v') → rtc question_step (qu d) (qu d').
Proof.
  intros OK Hv H. unfold closeRuntimeQuestion in H.
  apply tx_bind_Ok in H as (d1 & next & [-> Hnext]%query_Ok & H).
  destruct next as [state|]; [|by apply tx_ret_Ok in H as [-> _]]. destruct (OK _ _ Hv) as (Ek & _). rewrite Ek in H.
  apply tx_bind_Ok in H as (d1 & b & [(-> & row & Hrow & _ & Hu)|(-> & ->)]%update_question_Ok & H);
    (apply tx_bind_Ok in H as (d2 & v1 & [-> _]%existing_question_Ok & H);
     apply tx_bind_Ok in H as (d2 & [] & K%(qkeeps _ _ _ _ (question_change_rt _ _ _ _ _ _)) & H);
     apply tx_ret_Ok in H as [-> _]); rewrite K; [|done].
  rewrite Hv in Hrow. injection Hrow as <-. rewrite Hu. by apply rtc_once, qs_close.
Qed.

Lemma close_question_refines s claim effect id reason d d' v :
  map_Forall question_ok (qu d) →
  CloseInvocationRuntimeQuestion s claim effect id reason d = Ok (d', v) → rtc question_step (qu d) (qu d').
Proof.
  intros OK H. unfold CloseInvocationRuntimeQuestion in H.
  apply tx_bind_Ok in H as (d1 & [] & [-> _]%reject_if_Ok & H).
  apply tx_bind_Ok in H as (d1 & [] & K1%(qkeeps _ _ _ _ (lock_rt _ _ _)) & H).
  apply tx_bind_Ok in H as (d2 & w & [-> Hw]%existing_question_Ok & H).
  apply tx_bind_Ok in H as (d2 & [] & [-> _]%reject_if_Ok & H). rewrite <- K1 in OK |- *.
  by eapply question_close_refines.
Qed.

Lemma question_steps_ok m m' : rtc question_step m m' → map_Forall question_ok m → map_Forall question_ok m'.
Proof. induction 1; eauto using question_step_ok. Qed.

Lemma expire_each_question_refines s scope actor correlation ids d d' u :
  map_Forall question_ok (qu d) → expire_each_question s scope actor correlation ids d = Ok (d', u) →
  rtc question_step (qu d) (qu d').
Proof.
  revert s d. induction ids as [|id ids IH]; intros s d OK H; simpl in H; [by apply tx_ret_Ok in H as [-> _]|].
  apply tx_bind_Ok in H as (d1 & w & [-> Hw]%existing_question_Ok & H).
  apply tx_bind_Ok in H as (d1 & v1 & Hc & H). eapply question_close_refines in Hc; [|done..].
  etrans; [exact Hc|]. eapply IH; [|exact H]. by eapply question_steps_ok.
Qed.

Lemma expire_questions_refines s locks scope actor correlation limit d d' n :
  map_Forall question_ok (qu d) → ExpireInvocationRuntimeQuestions s locks scope actor correlation limit d = Ok (d', n) →
  rtc question_step (qu d) (qu d').
Proof.
  intros OK H. unfold ExpireInvocationRuntimeQuestions in H.
  apply tx_bind_Ok in H as (d1 & [] & [-> _]%reject_if_Ok & H).
  apply tx_bind_Ok in H as (d1 & invocations & [-> _]%query_Ok & H).
  apply tx_bind_Ok in H as (d1 & ids & [-> _]%gets_Ok & H).
  apply tx_bind_Ok in H as (d1 & [] & Hx & H). apply tx_ret_Ok in H as [-> _].
  by eapply expire_each_question_refines.
Qed.

(** ** All interactions, and runs *)

Definition same_questions (d d' : db) : Prop := qu d' = qu d.
#[local] Instance same_questions_preorder : PreOrder same_questions.
Proof. split; [done|]. intros x y z. unfold same_questions. congruence. Qed.

Lemma runtime_questions {A} (m : tx A) : tx_rel same_runtime m → tx_rel same_questions m.
Proof. intros Hm d d' a H. by eapply qkeeps. Qed.
Lemma update_approval_qu k w f : tx_rel same_questions (update_approval k w f).
Proof. intros d d' b. unfold update_approval. go_cases; intros [= <- <-]; done. Qed.
Lemma insert_approval_qu v : tx_rel same_questions (insert_approval v).
Proof. intros d d' b. unfold insert_approval. go_cases; intros [= <- <-]; done. Qed.
#[local] Hint Resolve lock_rt interaction_event_rt active_rt closure_rt resolution_event_rt authorize_rt
  update_approval_qu insert_approval_qu runtime_questions : dg.

Lemma existing_approval_qu dom id missing : tx_rel same_questions (existing_approval dom id missing).
Proof. unfold existing_approval. tx_rel_solve. Qed.
#[local] Hint Resolve existing_approval_qu : dg.

Lemma close_approval_qu s v reason actor correlation :
  tx_rel same_questions (closeRuntimeApproval s v reason actor correlation).
Proof. unfold closeRuntimeApproval, reread_approval. tx_rel_solve. Qed.
#[local] Hint Resolve close_approval_qu : dg.

Lemma expire_each_qu s scope actor correlation ids :
  tx_rel same_questions (expire_each s scope actor correlation ids).
Proof. revert s. induction ids as [|id ids IH]; intros s; simpl; tx_rel_solve. Qed.
Lemma resolve_qu s r authorize : tx_rel same_questions (resolveInvocationRuntimeApproval s r authorize).
Proof.
  unfold resolveInvocationRuntimeApproval, resolve_pending, not_updated, reread_approval. tx_rel_solve.
Qed.
#[local] Hint Resolve expire_each_qu resolve_qu : dg.

(** A command body acts on the questions as it would alone. *)
Lemma execute_qu {A} (e : env) (i : Idempotency) (m : tx A) (f : A → GoJson.json) (d d' : db) (r : CommandResult)
    (R : questions → questions → Prop) :
  (∀ m, R m m) → (∀ d1 d2 a, qu d1 = qu d → m d1 = Ok (d2, a) → R (qu d1) (qu d2)) →
  execute e i (λ _ d, '(d1, v) ← m d; Ok (StatusOK, f v, d1)) d = Ok (d', r) → R (qu d) (qu d').
Proof.
  intros Hr Hm [[-> _]|(_ & _ & res & st & v & d1 & g & E & _ & -> & _)]%execute_spec; [apply Hr|].
  apply result_bind_Ok in E as ([d2 a] & E & [= <- <- <-]). apply Hm in E; [exact E|done].
Qed.

(** Every committed interaction is a sequence of steps of the question state machine. *)
Lemma question_interaction_refines s x d d' :
  map_Forall question_ok (qu d) → run_interaction s x d = Ok d' → rtc question_step (qu d) (qu d').
Proof.
  intros OK H.
  assert (Hsame : ∀ A (m : tx A), tx_rel same_questions m → committed (m d) = Ok d' → rtc question_step (qu d) (qu d')).
  { intros A m Hm [a Hx]%committed_Ok. by rewrite (Hm _ _ _ Hx). }
  destruct x; simpl in H;
    try (eapply Hsame in H; [exact H|];
         unfold RecordInvocationRuntimeApprovalRequest, ResolveInvocationRuntimeApproval,
           BeginInvocationRuntimeApprovalDelivery, CompleteInvocationRuntimeApprovalDelivery,
           CloseInvocationRuntimeApproval, ExpireInvocationRuntimeApprovals, not_updated,
           recordInvocationRuntimeApprovalEvent, reread_approval; by tx_rel_solve);
    apply committed_Ok in H as [res H].
  - unfold ResolveInvocationRuntimeApprovalCommand in H. destruct (_ || _) eqn:Hv; [done|].
    apply (execute_qu _ _ _ _ _ _ _ (λ m m', m' = m)) in H; [by rewrite H|done|].
    intros d1 d2 a _ Hx. by apply resolve_qu in Hx.
  - by eapply question_request_refines.
  - unfold AnswerInvocationRuntimeQuestion in H. apply tx_bind_Ok in H as (d1 & [] & [-> _]%reject_if_Ok & H).
    by eapply answer_refines.
  - unfold AnswerInvocationRuntimeQuestionCommand in H. destruct (_ || _); [done|].
    destruct (execute _ _ _ _) as [[d1 r1]|] eqn:E; [|done]. cbn [mbind result_bind] in H.
    assert (d' = d1) as -> by (destruct (cr_Replayed r1); [destruct (answer_replayed _ _ _)|]; by simplify_eq).
    apply (execute_qu _ _ _ _ _ _ _ (rtc question_step)) in E; [done|done|].
    intros d2 d3 v E2. rewrite <- E2 in OK. by apply answer_refines.
  - apply question_begin_Ok in H as (row & Hrow & Es & _ & Hx & -> & ->); [|done]. by apply rtc_once, qs_begin.
  - by eapply question_complete_refines.
  - by eapply close_question_refines.
  - by eapply expire_questions_refines.
Qed.

Section timed.
Context `{SchemaEngine}.

Lemma question_timed_step x y :
  timed_step x y → map_Forall question_ok (qu (w_db x.2)) → rtc question_step (qu (w_db x.2)) (qu (w_db y.2)).
Proof.
  intros [t t' s i d cs d' Hs Hi|t t' w w' Ht _ _ E] OK; simpl in *; [by eapply question_interaction_refines|].
  by rewrite E.
Qed.

Lemma question_timed_run x y :
  rtc timed_step x y → map_Forall question_ok (qu (w_db x.2)) →
  rtc question_step (qu (w_db x.2)) (qu (w_db y.2)) ∧ map_Forall question_ok (qu (w_db y.2)).
Proof.
  induction 1 as [|x y z S _ IH]; [done|]. intros OK. apply question_timed_step in S as R; [|done].
  destruct (IH (question_steps_ok _ _ R OK)) as [R' OK']. split; [by etrans|done].
Qed.

Lemma questions_reachable_ok t0 t w :
  rtc timed_step (t0, initial_world) (t, w) → map_Forall question_ok (qu (w_db w)).
Proof. intros R. apply question_timed_run in R as [_ OK]; [exact OK|]. apply map_Forall_empty. Qed.
End timed.
