(* ===== verification/Claiming.v ===== *)
(** * Which operation a worker is handed

    The candidate query of [claimNext] goes through [DISTINCT ON] per isolation
    domain; these lemmas show that the detour picks the first eligible row of
    the whole table in the order [(due_at, updated_at, isolation_domain_id, id)],
    and that it finds one whenever one exists. *)
From S2P Require Import Prelude.
From S2P Require Import GoStrings.
From S2P Require Import Domain.
From S2P Require Import Database.
From S2P Require Import OperationStore.
From S2P Require Import StoreSteps.

(** ** The order of the queues *)
Lemma position_before_spec a b :
  position_before a b = true ↔
  (a.1.1 < b.1.1)%Z
  ∨ a.1.1 = b.1.1
    ∧ ((a.1.2 < b.1.2)%Z
       ∨ a.1.2 = b.1.2
         ∧ (a.2.1 ≠ b.2.1 ∧ String.le a.2.1 b.2.1 ∨ a.2.1 = b.2.1 ∧ String.le a.2.2 b.2.2)).
Proof.
  unfold position_before. repeat case_decide; rewrite ?bool_decide_eq_true; intuition lia.
Qed.

Lemma position_before_total a b : position_before a b = true ∨ position_before b a = true.
Proof.
  rewrite !position_before_spec.
  destruct (decide (a.1.1 = b.1.1)) as [->|]; [|lia].
  destruct (decide (a.1.2 = b.1.2)) as [->|]; [|lia].
  destruct (decide (a.2.1 = b.2.1)) as [->|N];
    [destruct (total String.le a.2.2 b.2.2)|destruct (total String.le a.2.1 b.2.1)]; naive_solver.
Qed.

Lemma position_before_refl a : position_before a a = true.
Proof. by destruct (position_before_total a a). Qed.

Lemma position_before_trans a b c :
  position_before a b = true → position_before b c = true → position_before a c = true.
Proof.
  rewrite !position_before_spec. intros H1 H2.
  assert (T : ∀ x y z : string, String.le x y → String.le y z → String.le x z)
    by (intros; by etrans).
  assert (A : ∀ x y : string, String.le x y → String.le y x → x = y)
    by (intros; by apply (anti_symm String.le)).
  destruct H1 as [H1|(E1 & [H1|(E1' & [(N1 & L1)|(D1 & L1)])])],
    H2 as [H2|(E2 & [H2|(E2' & [(N2 & L2)|(D2 & L2)])])]; try (left; lia);
    right; (split; [lia|]); try (left; lia); right; (split; [lia|]).
  - left. split; [|eauto]. intros E. apply N1. apply A; [done|]. by rewrite E.
  - rewrite <- D2. auto.
  - rewrite D1. auto.
  - right. split; [congruence|eauto].
Qed.

(** ** First rows, and one row per isolation domain *)
Section first_by.
Context {A : Type} (position : A → queue_position).

Lemma first_by_elem l x : first_by position l = Some x → x ∈ l.
Proof.
  revert x. induction l as [|y l IH]; simpl; [done|]. intros x Hx.
  destruct (first_by position l) as [z|]; [case_match|]; simplify_eq; set_solver.
Qed.

Lemma first_by_None l : first_by position l = None ↔ l = [].
Proof. destruct l; simpl; [done|]. split; [|done]. by repeat case_match. Qed.

Lemma first_by_least l x y :
  first_by position l = Some x → y ∈ l → position_before (position x) (position y) = true.
Proof.
  revert x. induction l as [|z l IH]; simpl; intros x Hx Hy; [by apply elem_of_nil in Hy|].
  destruct (first_by position l) as [m|] eqn:E.
  - apply elem_of_cons in Hy as [->|Hy]; destruct (position_before (position z) (position m)) eqn:B;
      simplify_eq; auto using position_before_refl.
    + destruct (position_before_total (position x) (position z)); congruence.
    + eapply position_before_trans; [exact B|]. by apply IH.
  - apply first_by_None in E as ->. simplify_eq. apply list_elem_of_singleton in Hy as ->.
    apply position_before_refl.
Qed.

Lemma per_domain_elem rows r : r ∈ per_domain position rows → r ∈ rows.
Proof.
  unfold per_domain. rewrite list_elem_of_omap. intros (dom & _ & H%first_by_elem).
  by apply list_elem_of_filter in H as [_ ?].
Qed.

Lemma per_domain_covers rows r :
  r ∈ rows → ∃ m, m ∈ per_domain position rows ∧ position_before (position m) (position r) = true.
Proof.
  intros Hr. set (same := filter (λ x, (position x).2.1 = (position r).2.1) rows).
  assert (Hs : r ∈ same) by (by apply list_elem_of_filter).
  destruct (first_by position same) as [m|] eqn:E.
  - exists m. split; [|by eapply first_by_least].
    unfold per_domain. apply list_elem_of_omap. exists (position r).2.1. split; [|done].
    apply elem_of_remove_dups, list_elem_of_fmap. by exists r.
  - apply first_by_None in E. rewrite E in Hs. by apply elem_of_nil in Hs.
Qed.

Lemma first_of_domains rows x :
  first_by position (per_domain position rows) = Some x →
  x ∈ rows ∧ ∀ r, r ∈ rows → position_before (position x) (position r) = true.
Proof.
  intros E. split; [by eapply per_domain_elem, first_by_elem|].
  intros r (m & Hm & B)%per_domain_covers. eapply position_before_trans; [|exact B].
  by eapply first_by_least.
Qed.

Lemma no_first_of_domains rows : first_by position (per_domain position rows) = None → rows = [].
Proof.
  intros E%first_by_None. destruct rows as [|r rows]; [done|].
  destruct (per_domain_covers (r :: rows) r) as (m & Hm & _); [set_solver|].
  rewrite E in Hm. by apply elem_of_nil in Hm.
Qed.
End first_by.

Lemma claim_candidate_Some t ts scope now d k :
  claim_candidate t ts scope now d = Some k →
  ∃ row, ops_of t d !! k = Some row ∧ claim_eligible t ts scope now d k row = true
    ∧ ∀ k' row', ops_of t d !! k' = Some row' → claim_eligible t ts scope now d k' row' = true →
        position_before (claim_position (k, row)) (claim_position (k', row')) = true.
Proof.
  unfold claim_candidate. intros ([k0 row] & E & ->)%fmap_Some. apply first_of_domains in E as [Ei Em].
  apply list_elem_of_filter in Ei as [El Ei%elem_of_map_to_list]. exists row. repeat split; auto.
  intros k' row' Hk' Hel. apply (Em (k', row')). apply list_elem_of_filter.
  split; [done|]. by apply elem_of_map_to_list.
Qed.

Lemma claim_candidate_None t ts scope now d k row :
  claim_candidate t ts scope now d = None → ops_of t d !! k = Some row →
  claim_eligible t ts scope now d k row = false.
Proof.
  unfold claim_candidate. intros E Hk. apply not_true_iff_false. intros El.
  apply fmap_None, no_first_of_domains in E.
  assert (Hin : (k, row) ∈ filter (λ r, claim_eligible t ts scope now d r.1 r.2 = true)
    (map_to_list (ops_of t d))) by (apply list_elem_of_filter; split; [done|by apply elem_of_map_to_list]).
  rewrite E in Hin. by apply elem_of_nil in Hin.
Qed.

Lemma claim_eligible_free t ts scope now d k row :
  claim_eligible t ts scope now d k row = true →
  (op_observed_state row ∉ ts) ∧ (op_due_at row ≤ now)%Z ∧ lease_free row now = true.
Proof.
  unfold claim_eligible. destruct (claim_resource _ _ _ _) as [[[? ?] ?]|]; [|done].
  rewrite !andb_true_iff, !bool_decide_eq_true. tauto.
Qed.
