(* ===== verification/StoreTheorems.v ===== *)
(** * Theorems about the durable store

    Fencing, legality of transitions, consistency of routing and retirement,
    and replay of commands, over arbitrary interleavings of workers and
    commands ([world_step]). *)
From S2P Require Import Prelude.
From S2P Require Import GoStrings.
From S2P Require Import Sha256.
From S2P Require Import GoJson.
From S2P Require Import Lifecycle.
From S2P Require Import Domain.
From S2P Require Import Database.
From S2P Require Import OperationStore.
From S2P Require Import Commands.
From S2P Require Import StoreSpec.
From S2P Require Import StoreSteps.
From S2P Require Import StoreRefinement.
From S2P Require Import InteractionLogs.
From S2P Require Import Claiming.

Section theorems.
Context `{SchemaEngine}.

(** ** Simulation *)

Lemma claim_grant_ok kind t ts worker duration now k d d' c :
  operationTable kind = Ok (t, ts) → claim_update kind t worker duration now k d = (d', Some c) →
  ∃ row, ops_of t d' !! claim_key c = Some row ∧ op_resource_id row = c_ResourceID c
    ∧ op_lease_token row = c_FencingToken c ∧ claim_ok d' c.
Proof.
  intros Et (row & Hr & _ & -> & Ek & Ekey & Er & _ & _ & _ & Etok & _)%claim_update_spec.
  eexists. rewrite ops_of_set_ops, Ekey, lookup_insert_eq. split; [done|]. simpl.
  split; [congruence|]. split; [congruence|].
  exists t, ts. eexists. rewrite ops_of_set_ops, Ek, Ekey, lookup_insert_eq.
  split; [done|]. split; [done|]. simpl. split; [congruence|]. rewrite Etok. lia.
Qed.

(** What one step does: a sequence of abstract steps, rows moving forward, and
    every claim still accounted for. *)
Lemma world_step_sim w w' :
  world_step w w' → Forall (claim_ok (w_db w)) (w_claims w) →
  rtc abs_step (core_of (w_db w)) (core_of (w_db w')) ∧ ops_le (w_db w) (w_db w')
  ∧ Forall (claim_ok (w_db w')) (w_claims w').
Proof.
  intros S FC.
  assert (K : ∀ d d' cs, rtc abs_step (core_of d) (core_of d') ∧ ops_le d d' →
    Forall (claim_ok d) cs →
    rtc abs_step (core_of d) (core_of d') ∧ ops_le d d' ∧ Forall (claim_ok d') cs).
  { intros d d' cs [? L] F. repeat split; auto. eapply Forall_impl; [exact F|].
    intros c. by apply claim_ok_le. }
  assert (L : ∀ t k row row' d, ops_of t d !! k = Some row → same_work row row' → row_le row row' →
    rtc abs_step (core_of d) (core_of (set_ops t <[k := row']> d)) ∧ ops_le d (set_ops t <[k := row']> d)).
  { intros t k row row' d Hr W Le. split; [|by eapply ops_le_insert].
    eapply step_once; [done| |eapply (A_lease (core_of d) t k row row')]; [|by rewrite core_ops_of|done].
    by rewrite core_of_set_ops, core_ops_of. }
  destruct S as [kind t ts worker duration now k d cs d' c Et Hc|e c duration d cs d' c' Hin Hc
    |e c ns r d cs d' Hin Hq Hc|e c reason d cs d' Hin Hc|e c cl code due d cs d' Hin Hc
    |e c phase digest d cs d' effect Hin Hc|e effect status o code d cs d' Hc
    |e kind dom op a r dd dl d cs d' Hc|e i cmd d cs d' r Hc|s x d cs d' Hc|m d cs]; simpl in *;
    try (pose proof (proj1 (Forall_forall _ _) FC _ Hin) as OKc).
  - pose proof (claim_grant_ok _ _ _ _ _ _ _ _ _ _ Et Hc) as (_ & _ & _ & _ & OKc).
    apply claim_update_spec in Hc as (row & Hr & _ & -> & _).
    destruct (K d _ cs (L t k row (claimed_row worker (claim_expiry duration now row) now row) d Hr
      ltac:(by repeat split) ltac:(auto with dg)) FC) as (? & ? & ?). auto.
  - apply RenewLease_spec in Hc as (t & ts & row & cur & Et & Hr & _ & _ & _ & _ & _ & -> & ->).
    set (row' := renewed_row _ _ row).
    destruct (K d _ cs (L t (claim_key c) row row' d Hr ltac:(by repeat split)
      ltac:(apply row_le_renewed)) FC) as (? & Le & ?). repeat split; auto. constructor; [|done].
    destruct (claim_ok_le _ _ _ Le OKc) as (t' & ts' & row1 & ? & ? & ? & ?). by exists t', ts', row1.
  - apply Advance_spec in Hc as (r' & f & Hc). apply K; [|done]. by apply (advance_refines e c ns r' f).
  - apply Fail_spec in Hc as (f & Hc). apply K; [|done]. by apply (advance_refines e c "failed" None (Some f)).
  - apply ScheduleRetry_spec in Hc as (t & ts & row & p & _ & Hr & _ & ->). apply K; [|done].
    rewrite core_of_log. destruct (L t (claim_key c) row (retried_row cl p due (env_now e) row) d Hr) as [? Le];
      [by repeat split|auto with dg|]. split; [done|]. etrans; [exact Le|]. by apply ops_le_core.
  - apply PrepareEffect_spec in Hc as (t & ts & row & f & _ & _ & _ & _ & -> & _). apply K; [|done].
    by apply command_skips.
  - apply RecordEffect_spec in Hc as (f & -> & _). apply K; [|done]. by apply command_skips.
  - apply K; [|done]. by eapply RepairOperation_refines.
  - apply K; [|done]. by eapply run_command_refines.
  - apply K; [|done]. apply command_skips. by apply run_interaction_outside in Hc as [? _].
  - apply K; [|done]. by apply command_skips.
Qed.

Lemma run_sim w w' :
  rtc world_step w w' → Forall (claim_ok (w_db w)) (w_claims w) →
  rtc abs_step (core_of (w_db w)) (core_of (w_db w')) ∧ ops_le (w_db w) (w_db w')
  ∧ Forall (claim_ok (w_db w')) (w_claims w').
Proof.
  induction 1 as [w|w w1 w' S _ IH]; intros FC; [repeat split; [constructor|reflexivity|done]|].
  destruct (world_step_sim _ _ S FC) as (S1 & L1 & F1). destruct (IH F1) as (S2 & L2 & F2).
  repeat split; [by etrans|by etrans|done].
Qed.

Lemma reachable_claims w : reachable w → Forall (claim_ok (w_db w)) (w_claims w).
Proof. intros R. by destruct (run_sim _ _ R (Forall_nil_2 _)) as (_ & _ & ?). Qed.

Lemma core_ok_empty : core_ok (core_of empty_db).
Proof.
  split; [intros ? ? E|intros ? ? E|intros ? ? E|intros ? ? E|intros ? ? ? ? E|intros ? ? ? ? E];
    simpl in E; rewrite lookup_empty in E; done.
Qed.

Lemma abs_steps_ok C C' : rtc abs_step C C' → core_ok C → core_ok C'.
Proof. induction 1; eauto using abs_step_ok. Qed.

Lemma reachable_core_ok w : reachable w → core_ok (core_of (w_db w)).
Proof.
  intros R. destruct (run_sim _ _ R (Forall_nil_2 _)) as (S & _ & _).
  eapply abs_steps_ok; [exact S|]. apply core_ok_empty.
Qed.

(** ** Fencing *)

(** Every fenced call of a worker that presents [c] is refused. *)
Definition fenced_out (d : db) (c : OperationClaim) : Prop :=
  ∀ e, (∀ duration, is_ok (RenewLease e c duration d) = false)
    ∧ (∀ ns r, is_ok (Advance e c ns r d) = false)
    ∧ (∀ reason, is_ok (Fail e c reason d) = false)
    ∧ (∀ cl code due, is_ok (ScheduleRetry e c cl code due d) = false)
    ∧ (∀ phase digest, is_ok (PrepareEffect e c phase digest d) = false).

(** A claim is spent on a row that has a newer token or no holder. *)
Definition spent (c : OperationClaim) (row : operation_row) : Prop :=
  (c_FencingToken c < op_lease_token row)%Z
  ∨ op_lease_owner row = None ∧ (c_FencingToken c ≤ op_lease_token row)%Z.

Lemma spent_le c row row' : row_le row row' → spent c row → spent c row'.
Proof.
  unfold spent. intros (_ & _ & [[T [(O & _ & _)|O]]|T]) S; destruct S as [S|[N S]];
    try (left; lia); right; (split; [congruence|lia]).
Qed.

Lemma spent_not_held c row now : spent c row → lease_held c now row = false.
Proof.
  intros S. apply not_true_iff_false. intros (_ & O & T & _)%lease_held_spec.
  destruct S as [S|[N _]]; [lia|congruence].
Qed.

Lemma not_ok {A} (r : result A) : (∀ a, r ≠ Ok a) → is_ok r = false.
Proof. destruct r; simpl; [intros N; by destruct (N a)|done]. Qed.

Lemma spent_fenced_out d c t ts row :
  operationTable (c_Kind c) = Ok (t, ts) → ops_of t d !! claim_key c = Some row → spent c row →
  fenced_out d c.
Proof.
  intros Et Hr S e.
  assert (N : ∀ t' ts' row', operationTable (c_Kind c) = Ok (t', ts') →
    ops_of t' d !! claim_key c = Some row' → lease_held c (env_now e) row' = true → False).
  { intros t' ts' row' Et' Hr' Hh. rewrite Et in Et'. simplify_eq.
    rewrite spent_not_held in Hh by done. done. }
  split; [|split; [|split; [|split]]]; intros; apply not_ok.
  - intros [d' c'] (? & ? & ? & ? & ? & ? & ? & _)%RenewLease_spec. eauto.
  - intros d' (? & ? & (? & ? & ? & ? & ? & ? & ? & ? & ? & ? & _)%advance_spec)%Advance_spec. eauto.
  - intros d' (? & (? & ? & ? & ? & ? & ? & ? & ? & ? & ? & _)%advance_spec)%Fail_spec. eauto.
  - intros d' (? & ? & ? & ? & ? & ? & ? & _)%ScheduleRetry_spec. eauto.
  - intros [d' ef] (? & ? & ? & ? & ? & ? & ? & _)%PrepareEffect_spec. eauto.
Qed.

Lemma spent_stays_out d d' c t ts row :
  operationTable (c_Kind c) = Ok (t, ts) → ops_of t d !! claim_key c = Some row → spent c row →
  ops_le d d' → fenced_out d' c.
Proof.
  intros Et Hr S L. destruct (L _ _ _ Hr) as (row' & Hr' & Le).
  eapply spent_fenced_out; eauto using spent_le.
Qed.

Lemma advance_spends e c ns r f d d' :
  advance e c ns r f d = Ok d' →
  ∃ t ts row', operationTable (c_Kind c) = Ok (t, ts) ∧ ops_of t d' !! claim_key c = Some row'
    ∧ spent c row'.
Proof.
  intros (t & ts & row & ns' & r' & f' & d1 & Et & Hr & Hh & _ & _ & Hu & ->)%advance_spec.
  exists t, ts. eexists. rewrite ops_of_log, (updateResource_ops _ _ _ _ _ _ _ t Hu), ops_of_set_ops,
    lookup_insert_eq. repeat split; [done|]. apply lease_held_spec in Hh as (_ & _ & T & _).
  right. simpl. split; [done|lia].
Qed.

Lemma retry_spends e c cl code due d d' :
  ScheduleRetry e c cl code due d = Ok d' →
  ∃ t ts row', operationTable (c_Kind c) = Ok (t, ts) ∧ ops_of t d' !! claim_key c = Some row'
    ∧ spent c row'.
Proof.
  intros (t & ts & row & p & Et & Hr & Hh & ->)%ScheduleRetry_spec.
  exists t, ts. eexists. rewrite ops_of_log, ops_of_set_ops, lookup_insert_eq. repeat split; [done|].
  apply lease_held_spec in Hh as (_ & _ & T & _). right. simpl. split; [done|lia].
Qed.

(** C1: a worker whose operation was claimed again is fenced out for ever: its
    token is smaller than the new one, and in every later state of the store its
    renewals, transitions, failures, retries and effect preparations are all
    refused, whatever the interleaving. *)
Theorem superseded_claim_fenced w c kind t ts worker duration now k d' c' w' :
  reachable w → c ∈ w_claims w → c_Kind c = kind → claim_key c = k →
  operationTable kind = Ok (t, ts) →
  claim_update kind t worker duration now k (w_db w) = (d', Some c') →
  rtc world_step (World d' (c' :: w_claims w)) w' →
  (c_FencingToken c < c_FencingToken c')%Z ∧ fenced_out (w_db w') c.
Proof.
  intros R Hin Ek Ekey Et Hc Run. pose proof (reachable_claims _ R) as FC.
  pose proof (proj1 (Forall_forall _ _) FC _ Hin) as (t0 & ts0 & row0 & Et0 & Hr0 & _ & T0).
  pose proof (claim_grant_ok _ _ _ _ _ _ _ _ _ _ Et Hc) as (row1 & Hr1 & _ & T1 & _).
  destruct w as [d cs]. simpl in *.
  pose proof (world_step_sim _ _ (step_claim _ _ _ _ _ _ _ _ cs _ _ Et Hc) FC) as (_ & _ & FC').
  destruct (run_sim _ _ Run FC') as (_ & L & _). simpl in L.
  pose proof (claim_update_spec _ _ _ _ _ _ _ _ _ Hc) as (row & Hr & _ & -> & _ & Ekey' & _ & _ & _ & _ & Etok & _).
  rewrite Ek, Et in Et0. injection Et0 as <- <-. rewrite Ekey, Hr in Hr0. injection Hr0 as <-.
  assert (Hlt : (c_FencingToken c < c_FencingToken c')%Z) by lia. split; [done|].
  eapply (spent_stays_out _ _ _ t ts row1); [by rewrite Ek| |left; lia|exact L].
  rewrite Ekey. rewrite Ekey' in Hr1. exact Hr1.
Qed.

(** C30: a claim commits at most one transition: once [Advance], [Fail] or
    [ScheduleRetry] succeeded with it, every later fenced call with the same
    claim is refused. *)
Theorem claim_commits_once w c e ns r reason cl code due d' w' :
  reachable w → c ∈ w_claims w →
  ns ≠ "queued" →
  Advance e c ns r (w_db w) = Ok d' ∨ Fail e c reason (w_db w) = Ok d'
    ∨ ScheduleRetry e c cl code due (w_db w) = Ok d' →
  rtc world_step (World d' (w_claims w)) w' →
  fenced_out (w_db w') c.
Proof.
  intros R Hin Hq Hcall Run. pose proof (reachable_claims _ R) as FC. destruct w as [d cs]. simpl in *.
  assert (world_step (World d cs) (World d' cs)) as S.
  { destruct Hcall as [Hc|[Hc|Hc]]; [by eapply step_advance|by eapply step_fail|by eapply step_retry]. }
  destruct (world_step_sim _ _ S FC) as (_ & _ & FC'). destruct (run_sim _ _ Run FC') as (_ & L & _).
  assert (∃ t ts row', operationTable (c_Kind c) = Ok (t, ts) ∧ ops_of t d' !! claim_key c = Some row'
    ∧ spent c row') as (t & ts & row' & Et & Hr & Sp).
  { destruct Hcall as [Hc|[Hc|Hc]].
    - apply Advance_spec in Hc as (? & ? & Hc). by eapply advance_spends.
    - apply Fail_spec in Hc as (? & Hc). by eapply advance_spends.
    - by eapply retry_spends. }
  by eapply spent_stays_out.
Qed.

(** C37: cancelling fences the worker: when a cancellation is accepted for an
    invocation (the command was not a replay and changed the invocation), every
    claim issued for one of its operations is refused from then on. *)
Theorem cancellation_fences_workers w c e i input d' r w' inv :
  reachable w → c ∈ w_claims w → c_Kind c = OperationKindInvocation →
  c_ResourceID c = aci_InvocationID input → c_IsolationDomainID c = id_IsolationDomainID i →
  db_invocations (w_db w) !! (id_IsolationDomainID i, aci_InvocationID input) = Some inv →
  inv_state inv ∉ ["cancelling"; "cancelled"] →
  AcceptCancellation e i input (w_db w) = Ok (d', r) → cr_Replayed r = false →
  rtc world_step (World d' (w_claims w)) w' →
  fenced_out (w_db w') c.
Proof.
  intros R Hin Ek Er Ed Hi Hst Hc Hrep Run. pose proof (reachable_claims _ R) as FC.
  pose proof (proj1 (Forall_forall _ _) FC _ Hin) as (t0 & ts0 & row0 & Et0 & Hr0 & R0 & T0).
  destruct w as [d cs]. simpl in *.
  assert (t0 = InvocationOps) as ->.
  { rewrite Ek in Et0. by destruct (operationTable_cases _ _ _ Et0) as [[? _]|[_ ->]]. }
  pose proof (world_step_sim _ _ (step_command e i (CmdAcceptCancellation input) d cs d' r Hc) FC) as (_ & _ & FC').
  destruct (run_sim _ _ Run FC') as (_ & L & _). simpl in L.
  unfold AcceptCancellation in Hc. case_decide; [done|].
  apply execute_spec in Hc as [[_ ?]|(_ & _ & res & st & v & d1 & f & Ha & _ & -> & _)]; [congruence|].
  cbv zeta in Ha. apply result_bind_Ok in Ha as (inv' & Hi' & Ha). unfold getInvocationForUpdate in Hi'.
  simpl in Hi'. rewrite Hi in Hi'. simplify_eq.
  case_decide; [set_solver|]. case_decide; [set_solver|]. case_decide; [done|]. simplify_eq.
  eapply (spent_stays_out _ _ _ InvocationOps ts0); [done| | |exact L].
  - simpl in *. rewrite lookup_cancel_operations, Hr0. simpl. reflexivity.
  - rewrite decide_True by (simpl; split; congruence). right. simpl. split; [done|lia].
Qed.

(** ** The implementation refines the specification *)

(** C3: every committed call, by workers holding issued claims or by the API, is
    a sequence of steps of the abstract store, from any reachable state. *)
Theorem store_refines_spec w w' :
  reachable w → world_step w w' → rtc abs_step (core_of (w_db w)) (core_of (w_db w')).
Proof. intros R S. by destruct (world_step_sim _ _ S (reachable_claims _ R)). Qed.

(** C6: every reachable store is consistent: each invocation operation has its
    invocation, in a state that matches, on a revision that is published as long
    as the operation is active; publication operations and revision states agree;
    live aliases route to published revisions of their own service; a resource
    has one operation. *)
Theorem reachable_store_consistent w : reachable w → core_ok (core_of (w_db w)).
Proof. exact (reachable_core_ok w). Qed.

(** A revision that is not published (retired ones among them) is quiescent:
    no live alias routes to it and every invocation operation pinned to it is in
    a terminal state. *)
Theorem unpublished_revision_quiescent w domain id rev :
  reachable w → db_revisions (w_db w) !! (domain, id) = Some rev → rev_state rev ≠ "published" →
  (∀ service name a, db_aliases (w_db w) !! (domain, service, name) = Some a →
     als_revision_id a = id → is_Some (als_withdrawn_at a))
  ∧ (∀ opid row inv, db_invocation_ops (w_db w) !! (domain, opid) = Some row →
     db_invocations (w_db w) !! (domain, op_resource_id row) = Some inv → inv_revision_id inv = id →
     op_observed_state row ∈ terminal_states).
Proof.
  intros R Hr Hp. destruct (reachable_core_ok _ R) as [OI _ OA _ _ _]. split.
  - intros service name a Ha <-. destruct (als_withdrawn_at a) eqn:W; [by eexists|].
    destruct (OA _ _ Ha W) as (rev' & Hr' & _ & Hp'). simpl in *. congruence.
  - intros opid row inv Ho Hi <-. destruct (OI _ _ Ho) as (inv' & rev' & Hi' & _ & Hr' & _ & _ & Hp').
    simpl in *. simplify_eq. apply dec_stable. intros N. by apply Hp, Hp'.
Qed.

(** ** Legality along runs *)

Lemma abs_run_invocation_legal C C' k row :
  rtc abs_step C C' → core_ok C → k_invocation_ops C !! k = Some row →
  ∃ row', k_invocation_ops C' !! k = Some row' ∧ op_resource_id row' = op_resource_id row
    ∧ rtc invocation_step (op_observed_state row) (op_observed_state row').
Proof.
  intros S. revert row. induction S as [C|C C1 C' S1 S IH]; intros row OK Hk.
  { exists row. repeat split; auto. constructor. }
  destruct (abs_step_invocation_legal _ _ _ _ S1 OK Hk) as (row1 & H1 & R1 & T1).
  destruct (IH row1) as (row' & H' & R' & T'); [by eapply abs_step_ok|done|].
  exists row'. repeat split; auto; [congruence|]. destruct T1 as [E|T1]; [by rewrite <- E|].
  eapply rtc_l; [exact T1|exact T'].
Qed.

(** C29: whatever workers, cancellations and repairs do, an invocation operation
    is never lost, keeps its invocation, and its observed state only moves along
    transitions of the invocation state machine. *)
Theorem invocation_runs_legal w w' k row :
  reachable w → rtc world_step w w' → db_invocation_ops (w_db w) !! k = Some row →
  ∃ row', db_invocation_ops (w_db w') !! k = Some row' ∧ op_resource_id row' = op_resource_id row
    ∧ rtc invocation_step (op_observed_state row) (op_observed_state row').
Proof.
  intros R Run Hk. destruct (run_sim _ _ Run (reachable_claims _ R)) as (S & _ & _).
  destruct (abs_run_invocation_legal _ _ k row S (reachable_core_ok _ R) Hk) as (row' & ? & ? & ?).
  by exists row'.
Qed.

(** A settled operation state has no way out. *)
Lemma settled_state_final s s' :
  s = "succeeded" ∨ s = "cancelled" → rtc invocation_step s s' → s' = s.
Proof.
  intros Hs Hr. induction Hr as [x|x y z Hxy _ IH]; [done|]. exfalso.
  destruct (invocation_terminal_exit x y) as [E _]; [apply invocation_terminal_cases|done|];
    destruct Hs as [Hs|Hs]; subst; tauto || (vm_compute in E; congruence).
Qed.

(** A settled invocation is final: once its operation reached succeeded or
    cancelled, no later sequence of claims, transitions, retries, cancellations
    or repairs changes the operation's state, and the invocation resource shows
    the same state. *)
Theorem settled_invocation_final w w' k row :
  reachable w → rtc world_step w w' → db_invocation_ops (w_db w) !! k = Some row →
  op_observed_state row = "succeeded" ∨ op_observed_state row = "cancelled" →
  ∃ row' inv, db_invocation_ops (w_db w') !! k = Some row'
    ∧ op_observed_state row' = op_observed_state row
    ∧ db_invocations (w_db w') !! (k.1, op_resource_id row) = Some inv
    ∧ inv_state inv = op_observed_state row.
Proof.
  intros R Run Hk Hs. destruct (run_sim _ _ Run (reachable_claims _ R)) as (S & _ & _).
  destruct (abs_run_invocation_legal _ _ k row S (reachable_core_ok _ R) Hk) as (row' & Hr' & Er & L).
  apply settled_state_final in L; [|done].
  assert (reachable w') as R' by (unfold reachable in *; by etrans).
  destruct (ok_invocation_ops _ (reachable_core_ok _ R') _ _ Hr') as (inv & rev & Hi & _ & _ & _ & Hl & _).
  simpl in *. exists row', inv. rewrite Er in Hi. repeat split; auto.
  apply linked_terminal in Hl; [congruence|]. rewrite L. unfold terminal_states. set_solver.
Qed.

(** ** Claiming *)

(** [claimNext] hands out the first eligible operation in the order
    (due_at, updated_at, isolation_domain_id, id) over the whole table, never one
    that is terminal, not yet due or still leased, and raises its token by one;
    it hands out nothing exactly when no operation is eligible. *)
Theorem claimNext_first e kind t ts scope worker duration d :
  operationTable kind = Ok (t, ts) →
  let now := if decide (cs_operationID scope = "") then env_now e else env_clock_timestamp e in
  match claimNext e kind scope worker duration d with
  | Err _ => False
  | Ok (d', None) =>
      d' = d ∧ ∀ k row, ops_of t d !! k = Some row → claim_eligible t ts scope now d k row = false
  | Ok (d', Some c) => ∃ row, ops_of t d !! claim_key c = Some row
      ∧ claim_eligible t ts scope now d (claim_key c) row = true
      ∧ (op_observed_state row ∉ ts) ∧ (op_due_at row ≤ now)%Z ∧ lease_free row now = true
      ∧ (∀ k' row', ops_of t d !! k' = Some row' → claim_eligible t ts scope now d k' row' = true →
           position_before (claim_position (claim_key c, row)) (claim_position (k', row')) = true)
      ∧ c_FencingToken c = (op_lease_token row + 1)%Z
      ∧ d' = set_ops t <[claim_key c := claimed_row worker (claim_expiry duration now row) now row]> d
  end.
Proof.
  intros Et now. unfold claimNext. rewrite Et. simpl. fold now.
  destruct (claim_candidate t ts scope now d) as [k|] eqn:E; simpl.
  - apply claim_candidate_Some in E as (row & Hk & El & Em).
    pose proof (claim_eligible_free _ _ _ _ _ _ _ El) as (Hs & Hd & Hf).
    destruct (claim_update kind t worker duration now k d) as [d' [c|]] eqn:Ec.
    + apply claim_update_spec in Ec as (row1 & Hr1 & _ & -> & _ & <- & _ & _ & _ & _ & Etok & _).
      simplify_eq. exists row. repeat split; auto.
    + unfold claim_update in Ec. rewrite Hk, Hf in Ec. done.
  - split; [done|]. intros k row. by apply claim_candidate_None.
Qed.

(** Leases are exclusive: while a row's lease runs at time [now], no claim
    statement running at that time can take it, whichever candidate it picked. *)
Theorem live_lease_exclusive kind t worker duration now k d row expires :
  ops_of t d !! k = Some row → op_lease_expires_at row = Some expires → (now < expires)%Z →
  claim_update kind t worker duration now k d = (d, None)
  ∧ (∀ ts scope, claim_candidate t ts scope now d ≠ Some k).
Proof.
  intros Hk He Hlt.
  assert (F : lease_free row now = false) by (unfold lease_free; rewrite He; case_bool_decide; [lia|done]).
  split; [unfold claim_update; by rewrite Hk, F|].
  intros ts scope (row' & Hk' & El & _)%claim_candidate_Some. simplify_eq.
  apply claim_eligible_free in El as (_ & _ & El). congruence.
Qed.

(** A granted lease lasts into the future, at most for the requested
    duration, and does not outlive the operation's deadline unless that has
    already passed. *)
Theorem claim_lease_bounds kind t worker duration now k d d' c :
  (0 < duration)%Z → claim_update kind t worker duration now k d = (d', Some c) →
  (now < c_LeaseExpiresAt c ≤ now + duration)%Z
  ∧ ((now < c_DeadlineAt c)%Z → (c_LeaseExpiresAt c ≤ c_DeadlineAt c)%Z).
Proof.
  intros Hd (row & _ & _ & _ & _ & _ & _ & _ & _ & _ & _ & -> & ->)%claim_update_spec.
  unfold claim_expiry. case_decide; lia.
Qed.

(** A renewal keeps the token and the holder, leaves a lease that still runs,
    never crosses the operation's deadline, and never shortens a lease that ends
    before the deadline. *)
Theorem renewal_bounds e c duration d d' c' :
  RenewLease e c duration d = Ok (d', c') →
  ∃ t ts row current, operationTable (c_Kind c) = Ok (t, ts)
    ∧ ops_of t d !! claim_key c = Some row ∧ op_lease_expires_at row = Some current
    ∧ ops_of t d' !! claim_key c = Some (renewed_row (c_LeaseExpiresAt c') (env_now e) row)
    ∧ c_FencingToken c' = c_FencingToken c ∧ c_LeaseOwner c' = c_LeaseOwner c
    ∧ (env_now e < c_LeaseExpiresAt c' ≤ op_deadline_at row)%Z
    ∧ (Z.min current (op_deadline_at row) ≤ c_LeaseExpiresAt c')%Z.
Proof.
  intros (t & ts & row & cur & Et & Hr & Hh & _ & Hdl & Hcur & _ & -> & ->)%RenewLease_spec.
  apply lease_held_spec in Hh as (_ & _ & _ & x & Hx & Hlt). simplify_eq.
  exists t, ts, row, x. simpl. rewrite ops_of_set_ops, lookup_insert_eq. repeat split; auto; lia.
Qed.

(** ** Replay *)

Lemma run_logs w w' : rtc world_step w w' → log_le (w_db w) (w_db w').
Proof. induction 1; [reflexivity|]. etrans; [by eapply world_step_logs|done]. Qed.

(** The record a successful command leaves. *)
Lemma execute_records e i act d d' r :
  (∀ now d st v d1, act now d = Ok (st, v, d1) → log_step d d1) →
  execute e i act d = Ok (d', r) →
  ∃ row, db_idempotency d' !! idempotency_key i = Some row
    ∧ idem_request_digest row = id_RequestDigest i ∧ idem_response row = Some (cr_Status r, cr_Body r).
Proof.
  intros A Hx. unfold execute in Hx. destruct (db_idempotency d !! idempotency_key i) as [row|] eqn:E.
  - case_decide; [done|].
    destruct (idem_response row) as [[st b]|] eqn:Er; [|done]. simplify_eq. exists row. by simpl.
  - apply result_bind_Ok in Hx as ([[st v] d1] & Ha & Hx). simplify_eq. apply A in Ha as [_ Ei].
    simpl. rewrite lookup_alter_eq, Ei. simpl. rewrite lookup_insert_eq. simpl. by eexists.
Qed.

(** C35: commands are idempotent over time: once a command with an idempotency key
    committed, repeating it in any later state (other commands, workers and
    retries in between) answers the same status and body, marked as a replay, and
    changes nothing; the same key with another request digest is refused. *)
Theorem command_replay e i cmd d d1 r cs w' e' :
  run_command e i cmd d = Ok (d1, r) → rtc world_step (World d1 cs) w' →
  run_command e' i cmd (w_db w') = Ok (w_db w', CmdResult (cr_Status r) (cr_Body r) true)
  ∧ ∀ digest, digest ≠ id_RequestDigest i →
      run_command e' (Idem (id_IsolationDomainID i) (id_Method i) (id_Path i) (id_Key i) digest) cmd (w_db w')
      = Err (EDomain "IDEMPOTENCY_KEY_REUSED" "Idempotency key was reused with a different request." false).
Proof.
  destruct (run_command_execute cmd) as [(act & A & E)|(er & E)]; rewrite !E; [|done].
  intros Hx Run. pose proof (log_idempotency _ _ (run_logs _ _ Run)) as Sub.
  apply execute_records in Hx as (row & Hrow & Hd & Hresp); [|apply A].
  assert (Hrow' : db_idempotency (w_db w') !! idempotency_key i = Some row)
    by (eapply lookup_weaken; eauto).
  split.
  - unfold execute. rewrite Hrow', decide_False, Hresp by tauto. done.
  - intros digest Hne. rewrite E. unfold execute, idempotency_key in *. simpl in *.
    rewrite Hrow', decide_True by congruence. done.
Qed.

(** An operator's repair is idempotent over time: after it committed,
    repeating the same repair (same deduplication id, actor, reason and deadline,
    while that deadline lies ahead) in any later state succeeds and changes
    nothing, so a repair never re-queues an operation twice. *)
Theorem repair_replay e kind domain operation actor reason dedup deadline d d1 cs w' e' :
  RepairOperation e kind domain operation actor reason dedup deadline d = Ok d1 →
  rtc world_step (World d1 cs) w' → (env_now e' < deadline)%Z →
  RepairOperation e' kind domain operation actor reason dedup deadline (w_db w') = Ok (w_db w').
Proof.
  intros Hx Run Hdl. pose proof (log_inbox _ _ (run_logs _ _ Run)) as Sub. simpl in Sub.
  unfold RepairOperation in *. case_decide as G; [done|]. rewrite decide_False by (intuition lia).
  apply result_bind_Ok in Hx as ([t ts] & Et & Hx). rewrite Et. simpl.
  set (digest := Sha256.Sum256 _) in *.
  assert (∃ row, db_inbox d1 !! (domain, "command", dedup) = Some row ∧ inb_payload_digest row = digest
    ∧ inb_actor_id row = Some actor) as (row & Hrow & Hd & Ha).
  { destruct (db_inbox d !! _) as [row|] eqn:Ei.
    - case_decide as C; [done|]. simplify_eq. exists row. repeat split; [done| |]; apply dec_stable; tauto.
    - apply result_bind_Ok in Hx as ([] & _ & Hx). destruct (ops_of t _ !! _); [|done].
      case_decide; [|done]. simplify_eq. destruct t; simpl; rewrite lookup_insert_eq; by eexists. }
  rewrite (lookup_weaken _ _ _ _ Hrow Sub), decide_False by tauto. done.
Qed.

(** ** Event log *)

Definition event_log_ok (l : list event_row) : Prop :=
  ∀ domain invocation, ev_sequence <$> events_for domain invocation l
    = seqZ 1 (Z.of_nat (length (events_for domain invocation l))).

Lemma foldr_max_seqZ a n :
  (0 ≤ a)%Z → (0 < n)%nat → foldr Z.max 0%Z (seqZ a (Z.of_nat n)) = (a + Z.of_nat n - 1)%Z.
Proof.
  intros Ha Hn. revert a Ha. induction n as [|n IH]; [lia|]. intros a Ha.
  rewrite seqZ_cons by lia. simpl. replace (Z.pred (Z.of_nat (S n))) with (Z.of_nat n) by lia.
  destruct n as [|n]; [simpl; lia|]. rewrite IH; lia.
Qed.

Lemma next_sequence_contiguous domain invocation l :
  event_log_ok l → next_sequence domain invocation l = (Z.of_nat (length (events_for domain invocation l)) + 1)%Z.
Proof.
  intros OK. unfold next_sequence. rewrite OK.
  destruct (length (events_for domain invocation l)) eqn:E; [done|]. rewrite foldr_max_seqZ; lia.
Qed.

Lemma append_contiguous l ev :
  ev_sequence ev = next_sequence (ev_isolation_domain_id ev) (ev_invocation_id ev) l → event_log_ok l → event_log_ok (l ++ [ev]).
Proof.
  intros Hseq OK domain invocation. unfold events_for. rewrite filter_app.
  change (filter _ l) with (events_for domain invocation l).
  destruct (decide (ev_isolation_domain_id ev = domain ∧ ev_invocation_id ev = invocation)) as [E|N].
  - rewrite filter_cons_True by done. rewrite fmap_app, length_app, OK. simpl.
    destruct E as [E1 E2]. rewrite Hseq, E1, E2, next_sequence_contiguous by done.
    rewrite Nat2Z.inj_add, seqZ_app by lia. f_equal. rewrite (seqZ_cons (1 + _)) by lia. simpl. f_equal. lia.
  - rewrite filter_cons_False by done. rewrite app_nil_r. apply OK.
Qed.

(** The event log of every invocation is gap-free: in every reachable store
    its events carry the sequence numbers 1, 2, 3, ... in the order they were
    written, and later steps only append. *)
Theorem event_log_contiguous w w' :
  reachable w → rtc world_step w w' →
  event_log_ok (db_events (w_db w')) ∧ db_events (w_db w) `prefix_of` db_events (w_db w').
Proof.
  intros R Run.
  assert (P : ∀ l l', rtc event_append l l' → l `prefix_of` l' ∧ (event_log_ok l → event_log_ok l')).
  { induction 1 as [|x y z (ev & -> & Hs & _) _ [IH1 IH2]]; [done|]. split.
    - etrans; [|exact IH1]. by eexists.
    - intros OK. apply IH2. by apply append_contiguous. }
  pose proof (P _ _ (log_events _ _ (run_logs _ _ Run))) as [Hp Hok].
  pose proof (P _ _ (log_events _ _ (run_logs _ _ R))) as [_ Hok0]. split; [|done].
  apply Hok, Hok0. by intros domain invocation.
Qed.

End theorems.

(** The clock guard of [advance] covers the governed publication versions 3, 4
    and 5; version 6 ([AuthorizedOwnedWorkspaceVersion]), which the schema and the
    reconciler also treat as governed, passes it with an expired lease. *)
Theorem owned_workspace_clock_unguarded e next row expiry :
  op_lease_expires_at row = Some expiry → (expiry ≤ env_clock_timestamp e)%Z →
  (op_state_machine_version row ∈ [3; 4; 5]%Z → governed_guard e OperationKindPublication next row = false)
  ∧ (op_state_machine_version row = Publication.AuthorizedOwnedWorkspaceVersion →
     Publication.IsAuthorizedDevelopmentVersion (op_state_machine_version row) = true
     ∧ governed_guard e OperationKindPublication next row = true).
Proof.
  intros Hl Hc. unfold governed_guard. rewrite Hl. split.
  - intros Hv. rewrite decide_True by done. rewrite (bool_decide_false (env_clock_timestamp e < expiry)%Z) by lia.
    by destruct (bool_decide _).
  - intros ->. done.
Qed.
