(* ===== verification/ApprovalTheorems.v ===== *)
(** * Properties of runtime approvals

    What users and workers can rely on: rows are always well formed, a decision is
    binding and is delivered at most once, nothing happens after the expiry but
    closing. *)
From S2P Require Import Prelude.
From S2P Require Import GoStrings.
From S2P Require Import Domain.
From S2P Require Import RuntimeTables.
From S2P Require Import Database.
From S2P Require Import OperationStore.
From S2P Require Import Commands.
From S2P Require Import RuntimeInteraction.
From S2P Require Import RuntimeApproval.
From S2P Require Import StoreSpec.
From S2P Require Import StoreSteps.
From S2P Require Import StoreRefinement.
From S2P Require Import InteractionLogs.
From S2P Require Import ApprovalSpec.
From S2P Require Import ApprovalProofs.
From S2P Require Import StoreTheorems.

(** ** Along a run *)

(** Rows are never lost, and change only as the trigger allows. *)
Lemma steps_trigger x y k v :
  rtc approval_step x y → x.2 !! k = Some v → ∃ v', y.2 !! k = Some v' ∧ rtc approval_trigger v v'.
Proof.
  intros R. revert v. induction R as [|x y z S _ IH]; intros v Hk; [by exists v|]. destruct x as [t m], y as [t' m'].
  destruct (step_trigger _ _ _ _ _ _ S Hk) as (v' & Hk' & Hv). destruct (IH v' Hk') as (v'' & ? & ?).
  exists v''. split; [done|]. destruct Hv as [->|]; [done|]. by eapply rtc_l.
Qed.

(** The fields that are fixed once an approval is no longer pending. *)
Definition decision_of (v : InvocationRuntimeApproval) : string * string * string * option Z :=
  (apr_Decision v, apr_ResolvedBy v, apr_ResolutionCorrelationID v, apr_ResolvedAt v).

Lemma trigger_not_pending v v' : approval_trigger v v' → apr_State v' ≠ "pending".
Proof. intros (_ & _ & [Hs|[_ Hs]] & _) E; rewrite E in Hs; member_cases Hs; discriminate. Qed.

Lemma triggers_identity v v' : rtc approval_trigger v v' → same_identity v v'.
Proof. induction 1 as [|v1 v2 v3 [Hi _] _ IH]; [done|]. unfold same_identity in *. congruence. Qed.

Lemma triggers_decision v v' :
  rtc approval_trigger v v' → apr_State v ≠ "pending" → decision_of v' = decision_of v ∧ apr_State v' ≠ "pending".
Proof.
  induction 1 as [|v1 v2 v3 T _ IH]; [done|]. intros Hp. apply trigger_not_pending in T as Hp'.
  destruct (IH Hp') as [E ?]. split; [|done]. rewrite E. by destruct T as (_ & _ & _ & Hd & _); apply Hd.
Qed.

Definition delivery_states : list string := ["delivering"; "delivered"; "delivery_unknown"].

Lemma triggers_delivery v v' :
  rtc approval_trigger v v' → apr_State v ∈ delivery_states →
  apr_State v' ∈ delivery_states ∧ apr_EffectiveDecision v' = apr_EffectiveDecision v.
Proof.
  induction 1 as [|v1 v2 v3 T _ IH]; [done|]. intros Hs. destruct T as (_ & _ & Ht & _ & He).
  assert (E : apr_State v1 = "delivering" ∧ apr_State v2 ∈ delivery_states)
    by (destruct Ht as [Ht|[_ Ht]]; member_cases Ht; injection Ht as E1 E2; rewrite E1 in Hs |- *; rewrite E2;
        try (by member_cases Hs); (split; [done|unfold delivery_states; rewrite !elem_of_cons; tauto])).
  destruct E as [E1 E2]. destruct (IH E2) as [? E]. split; [done|]. rewrite E. by apply He.
Qed.

(** ** After the expiry *)

Lemma step_time x y : approval_step x y → (x.1 ≤ y.1)%Z.
Proof. destruct 1; simpl; lia. Qed.

(** Past its expiry a row is left alone or closed as expired. *)
Lemma step_expired t m t' m' k v expiry :
  approval_step (t, m) (t', m') → m !! k = Some v → apr_ExpiresAt v = Some expiry → (expiry ≤ t)%Z →
  ∃ v', m' !! k = Some v'
    ∧ (v' = v ∨ ∃ state now, closing_state (apr_State v) "expired" = Ok (Some state)
                  ∧ v' = closed_approval state "expired" now v).
Proof.
  intros S Hk He Ht.
  assert (Hins : ∀ k' v0 v1, m !! k' = Some v0 →
    (v0 = v → ∃ state now, closing_state (apr_State v) "expired" = Ok (Some state)
                ∧ v1 = closed_approval state "expired" now v) →
    ∃ v', <[k' := v1]> m !! k = Some v'
    ∧ (v' = v ∨ ∃ state now, closing_state (apr_State v) "expired" = Ok (Some state)
                  ∧ v' = closed_approval state "expired" now v)).
  { intros k' v0 v1 H0 Hc. destruct (decide (k' = k)) as [->|Hne].
    - exists v1. rewrite lookup_insert_eq. split; [done|]. right. apply Hc. congruence.
    - exists v. rewrite lookup_insert_ne by done. auto. }
  inversion S; subst; [by exists v; auto| |eapply Hins; [done|]; intros ->..].
  - exists v. rewrite lookup_insert_ne by congruence. auto.
  - exfalso. unfold unexpired in *. rewrite He in *. lia.
  - exfalso. unfold unexpired in *. rewrite He in *. lia.
  - exfalso. unfold unexpired in *. rewrite He in *. lia.
  - assert (expiry0 = expiry) as -> by congruence.
    assert (reason = "expired") as -> by (by apply H8; lia). by eauto.
Qed.

Lemma closed_stays state reason : approval_closed state = true → closing_state state reason = Ok None.
Proof.
  intros H. unfold closing_state, approval_closed in *. apply bool_decide_eq_true in H as H1.
  rewrite !decide_False by (intros X; destruct H1 as [->|[->| ->]]; by repeat (destruct X as [X|X])).
  rewrite H. done.
Qed.

Lemma steps_expired x y k v expiry :
  rtc approval_step x y → x.2 !! k = Some v → apr_ExpiresAt v = Some expiry → (expiry ≤ x.1)%Z →
  ∃ v', y.2 !! k = Some v'
    ∧ (v' = v ∨ ∃ state now, closing_state (apr_State v) "expired" = Ok (Some state)
                  ∧ v' = closed_approval state "expired" now v).
Proof.
  intros R. revert v. induction R as [|[t m] [t1 m1] y S _ IH]; intros v Hk He Ht; [by exists v; auto|].
  apply step_time in S as Hle. simpl in *.
  destruct (step_expired _ _ _ _ _ _ _ S Hk He Ht) as (v1 & Hk1 & [->|(state & now & Hc & ->)]);
    [apply IH; [done..|lia]|].
  destruct (IH _ Hk1 He ltac:(lia)) as (v2 & Hk2 & [->|(state' & now' & Hc' & _)]); [by eauto 10|].
  simpl in Hc'. apply closing_state_inv in Hc as [[_ ->]|[_ ->]]; by rewrite closed_stays in Hc'.
Qed.

(** Resolving again, in the same way, what is resolved and not closed. *)
Lemma resolve_replays s r check d v :
  is_Some (db_invocations d !! (ars_IsolationDomainID r, ars_InvocationID r)) →
  ap d !! (ars_IsolationDomainID r, ars_ApprovalID r) = Some v →
  approval_readable (ars_IsolationDomainID r) (ars_ApprovalID r) v = true →
  apr_InvocationID v = ars_InvocationID r → approval_closed (apr_State v) = false → apr_State v ≠ "pending" →
  sameInvocationRuntimeApprovalResolution v r = true → check (candidate_approval v r) = None →
  resolveInvocationRuntimeApproval s r (Some check) d = Ok (d, v).
Proof.
  intros Hi Hv Hr Hinv Hcl Hp Hsame Hck. unfold resolveInvocationRuntimeApproval, existing_approval.
  cbv [mbind tx_bind mret tx_ret gets query reject_if]. rewrite (bool_decide_eq_true_2 _ Hi). simpl.
  unfold getInvocationRuntimeApproval. rewrite Hv, Hr. rewrite bool_decide_eq_false_2 by tauto. rewrite Hcl.
  rewrite (bool_decide_eq_false_2 _ Hp). simpl. rewrite decide_True by done. rewrite Hsame. simpl.
  by rewrite Hck.
Qed.

(** ** Every outcome of beginning a delivery *)

Lemma active_live now v d :
  activeRuntimeApproval now v d =
    if live_attempt d (apr_IsolationDomainID v) (apr_OperationID v) (apr_InvocationID v) (apr_EffectID v) now
    then Ok (d, tt) else Err ErrInvocationRuntimeApprovalConflict.
Proof.
  unfold activeRuntimeApproval, activeRuntimeInteraction. cbv [mbind tx_bind mret tx_ret gets reject_if].
  by destruct (live_attempt _ _ _ _ _ _).
Qed.

(** The answer by the state of the approval. *)
Definition begin_answer (s : session) (decision : string) (k : key) (v : InvocationRuntimeApproval) (d : db)
  : result (db * InvocationRuntimeApproval) :=
  let live now := live_attempt d (apr_IsolationDomainID v) (apr_OperationID v) (apr_InvocationID v) (apr_EffectID v) now in
  let v' := delivering_approval decision (ses_clock s 2) v in
  if decide (apr_State v = "closed" ∨ apr_State v = "expired") then Err ErrInvocationRuntimeApprovalExpired
  else if decide (apr_State v = "delivering" ∨ apr_State v = "delivery_unknown") then
    Err ErrInvocationRuntimeApprovalDeliveryAmbiguous
  else if decide (apr_State v ≠ "resolved" ∨ (decision = "approve" ∧ apr_Decision v ≠ "approve")) then
    Err ErrInvocationRuntimeApprovalConflict
  else if approval_live d (ses_clock s 3) v then Ok (put_approval k v' d, v')
  else if live (ses_clock s 4) && negb (IsZero (apr_ExpiresAt v)) then Err ErrInvocationRuntimeApprovalExpired
  else Err ErrInvocationRuntimeApprovalConflict.

(** Beginning a delivery answers every state of the approval as it should: a
    closed or expired approval with the expiry error, a delivery that may already
    have happened as ambiguous, an undecided or denied one with a conflict; a
    resolved one is reserved while it is unexpired and its attempt is live, and
    otherwise refused as expired or, when the attempt is gone, as a conflict. *)
Theorem begin_delivery_outcome s claim effect id decision d v :
  validInvocationRuntimeAttempt claim effect = true → approvalIDPattern id = true →
  validInvocationRuntimeApprovalDecision decision = true →
  lockRuntimeInteractionAttempt s claim effect d = Ok (d, tt) →
  ap d !! (c_IsolationDomainID claim, id) = Some v →
  approval_readable (c_IsolationDomainID claim) id v = true → approval_of_claim claim effect v = true →
  BeginInvocationRuntimeApprovalDelivery s claim effect id decision d
  = begin_answer s decision (c_IsolationDomainID claim, id) v d.
Proof.
  intros Ha Hid Hdec Hlock Hv Hrd Hcl. unfold BeginInvocationRuntimeApprovalDelivery, begin_answer.
  assert (Hc : validInvocationRuntimeClaim claim = true)
    by (unfold validInvocationRuntimeAttempt in Ha; by to_prop).
  rewrite Hc, Ha, Hid, Hdec. unfold existing_approval, reread_approval, existing_approval, getInvocationRuntimeApproval.
  cbv [mbind tx_bind mret tx_ret query reject_if]. cbn [negb orb]. rewrite Hlock, Hv, Hrd, Hcl. cbn [negb].
  destruct (decide (apr_State v = "closed" ∨ apr_State v = "expired")) as [E|E];
    [by rewrite (bool_decide_eq_true_2 _ E)|rewrite (bool_decide_eq_false_2 _ E)].
  destruct (decide (apr_State v = "delivering" ∨ apr_State v = "delivery_unknown")) as [E'|E'];
    [by rewrite (bool_decide_eq_true_2 _ E')|rewrite (bool_decide_eq_false_2 _ E')].
  destruct (decide (apr_State v = "resolved")) as [Es|Es].
  2:{ rewrite decide_True by tauto. destruct (bool_decide (apr_State v = "delivered")); [done|].
      rewrite bool_decide_eq_true_2 by tauto. done. }
  assert (Ee : apr_EffectiveDecision v = "").
  { apply readable_iff in Hrd as (_ & _ & _ & _ & Hf). apply (fields_resolved _ Es) in Hf. apply Hf. }
  rewrite (bool_decide_eq_false_2 (apr_State v = "delivered")) by (by rewrite Es).
  destruct (decide (apr_State v ≠ "resolved" ∨ (decision = "approve" ∧ apr_Decision v ≠ "approve"))) as [Ed|Ed].
  { rewrite bool_decide_eq_true_2 by tauto. done. }
  rewrite bool_decide_eq_false_2 by tauto. unfold update_approval. rewrite Hv. rewrite (bool_decide_eq_true_2 _ Es).
  cbn [andb]. destruct (approval_live d (ses_clock s 3) v).
  - cbn [negb]. unfold put_approval at 1. cbn [db_runtime set_runtime rt_approvals]. rewrite lookup_insert_eq.
    rewrite begin_readable; [done|done|done|done|]. intros ->. destruct (decide (apr_Decision v = "approve")); tauto.
  - cbn [negb]. unfold not_updated. cbv [mbind tx_bind]. rewrite active_live.
    destruct (live_attempt _ _ _ _ _ _); [|done]. by destruct (IsZero _).
Qed.

Section theorems.
Context `{SchemaEngine}.

(** ** What approvals refer to *)

Lemma abs_step_invocations C C' k : abs_step C C' → is_Some (k_invocations C !! k) → is_Some (k_invocations C' !! k).
Proof.
  intros S Hk. assert (∀ k' inv, is_Some (<[k' := inv]> (k_invocations C) !! k)) as Hins.
  { intros k' inv. apply lookup_insert_is_Some'. by right. }
  destruct S; try (destruct t); cbn in *; try done; try (case_decide; done); apply Hins.
Qed.

Lemma world_step_refers w w' k v : world_step w w' → Forall (claim_ok (w_db w)) (w_claims w) → refers (w_db w) k v → refers (w_db w') k v.
Proof.
  intros S FC [Hi [er He]]. destruct (world_step_sim _ _ S FC) as (Habs & _). split.
  - change (is_Some (k_invocations (core_of (w_db w')) !! (k.1, apr_InvocationID v))).
    change (is_Some (k_invocations (core_of (w_db w)) !! (k.1, apr_InvocationID v))) in Hi.
    revert Hi. induction Habs; eauto using abs_step_invocations.
  - destruct (log_effects _ _ (world_step_logs _ _ S) _ _ He) as (er' & -> & _). by eexists.
Qed.

Lemma timed_step_refers x y : timed_step x y → Forall (claim_ok (w_db x.2)) (w_claims x.2) →
  map_Forall (refers (w_db x.2)) (ap (w_db x.2)) → map_Forall (refers (w_db y.2)) (ap (w_db y.2)).
Proof.
  intros S FC OK k v' Hv'. apply timed_step_world in S as W. eapply world_step_refers; [exact W|done|].
  assert ((∃ v, ap (w_db x.2) !! k = Some v ∧ same_identity v v') ∨ refers (w_db x.2) k v') as [(v & Hv & Hid)|Href]; [|..|done].
  - destruct S as [t t' s i d cs d' _ Hi|t t' w w' _ _ E _]; cbn in *; [by eapply interaction_rows|left; exists v'; by rewrite <- E].
  - destruct (OK k v Hv) as [Hi He]. injection Hid as _ _ _ _ E1 _ _ E2 _ _ _ _. split; [by rewrite E1|by rewrite E2].
Qed.

Lemma timed_run_refers x y : rtc timed_step x y → Forall (claim_ok (w_db x.2)) (w_claims x.2) →
  map_Forall (refers (w_db x.2)) (ap (w_db x.2)) → map_Forall (refers (w_db y.2)) (ap (w_db y.2)).
Proof.
  induction 1 as [|x y z S _ IH]; [done|]. intros FC OK. apply IH; [|by eapply timed_step_refers].
  by destruct (world_step_sim _ _ (timed_step_world _ _ S) FC) as (_ & _ & ?).
Qed.

Lemma timed_reachable_refers t0 t w : rtc timed_step (t0, initial_world) (t, w) →
  map_Forall (refers (w_db w)) (ap (w_db w)).
Proof. intros R. apply (timed_run_refers _ _ R); [constructor|apply map_Forall_empty]. Qed.

(** C23: the approval calls implement the approval state machine: whatever the
    store and its workers do, every step of a run moves the approvals table by
    steps of [approval_step] within the time it takes. *)
Theorem approvals_refine t0 t w t' w' :
  rtc timed_step (t0, initial_world) (t, w) → timed_step (t, w) (t', w') →
  rtc approval_step (t, ap (w_db w)) (t', ap (w_db w')).
Proof. intros R S. apply timed_reachable_ok in R. by apply timed_step_refines in S. Qed.

(** C40: the approvals table is well formed in every state that calls can reach.  Each row
    passes the check the code makes whenever it reads one, so no read is ever answered
    with a conflict.  It satisfies the [CHECK] clauses of migrations 00041, 00053 and
    00054 on contract, identifiers, source sequence, action, decisions, resolver,
    correlation, times, resolution, life cycle and closure.  It was last changed in the
    past.  No other row of its operation has its source sequence ([UNIQUE]), and the
    invocation and the effect it refers to exist (the foreign keys). *)
Theorem approval_rows_wellformed t0 t w k v :
  rtc timed_step (t0, initial_world) (t, w) → ap (w_db w) !! k = Some v →
  getInvocationRuntimeApproval k.1 k.2 (w_db w) = Ok (Some v)
  ∧ validInvocationRuntimeApprovalState v = true ∧ approval_check v
  ∧ (apr_CreatedAt v ≤ apr_UpdatedAt v ≤ t)%Z
  ∧ (∀ k' v', ap (w_db w) !! k' = Some v' → k'.1 = k.1 → apr_OperationID v' = apr_OperationID v →
       apr_SourceSequence v' = apr_SourceSequence v → k' = k)
  ∧ is_Some (db_invocations (w_db w) !! (k.1, apr_InvocationID v)) ∧ is_Some (db_effects (w_db w) !! (k.1, apr_EffectID v)).
Proof.
  intros R Hk. destruct (timed_reachable_table _ _ _ R) as [Hc Hu]. destruct (timed_reachable_refers _ _ _ R k v Hk) as [Hi He].
  apply timed_reachable_ok in R. pose proof (map_Forall_lookup_1 _ _ _ _ R Hk) as Hok. simpl in Hok.
  apply approval_ok_check in Hok as Hck; [|by apply (Hc k)..]. destruct Hok as [Hr [[Hp1 Hp2] _]]. split_and!; [| |done..| |done|done].
  - unfold getInvocationRuntimeApproval. destruct k. simpl in *. by rewrite Hk, Hr.
  - unfold approval_readable in Hr. by apply andb_true_iff in Hr as [_ ?].
  - intros k' v' Hk' E1 E2 E3. by apply (Hu k' k v' v).
Qed.

(** C13: a decision is handed to the runtime at most once: when the delivery of an
    approval has begun, no later attempt to begin it succeeds, by any claim and in
    any later state; the decision delivered stays what it was, and it is
    [approve] only if the user approved. *)
Theorem approval_delivered_once t0 t w s claim effect id decision d1 v t1 t2 w2 :
  rtc timed_step (t0, initial_world) (t, w) → session_within t t1 s →
  BeginInvocationRuntimeApprovalDelivery s claim effect id decision (w_db w) = Ok (d1, v) →
  rtc timed_step (t1, World d1 (w_claims w)) (t2, w2) →
  (decision = "approve" → apr_Decision v = "approve")
  ∧ (∃ v2, ap (w_db w2) !! (c_IsolationDomainID claim, id) = Some v2
       ∧ apr_State v2 ∈ delivery_states ∧ apr_EffectiveDecision v2 = decision ∧ decision_of v2 = decision_of v)
  ∧ (∀ s' claim' effect' decision' r, c_IsolationDomainID claim' = c_IsolationDomainID claim →
       BeginInvocationRuntimeApprovalDelivery s' claim' effect' id decision' (w_db w2) ≠ Ok r).
Proof.
  intros R Hs Hb Run. apply timed_reachable_ok in R as OK. set (k := (c_IsolationDomainID claim, id)).
  destruct (begin_Ok _ _ _ _ _ _ _ _ Hb) as (row & Hrow & Est & Happ & _ & _ & Hv & Hd1).
  apply begin_refines with (t := t) (t' := t1) in Hb as Hsteps; [|done].
  apply approval_steps_ok in Hsteps as OK1; [|done].
  apply timed_run_refines in Run as [Hrun _]; [|done]. simpl in Hrun.
  destruct (steps_trigger _ _ k v Hrun) as (v2 & Hv2 & Ht); [simpl; by rewrite Hd1, Hv, lookup_insert_eq|].
  simpl in Hv2. assert (Hdel : apr_State v ∈ delivery_states) by (rewrite Hv; apply elem_of_cons; by left).
  destruct (triggers_delivery _ _ Ht Hdel) as [Hst He].
  destruct (triggers_decision _ _ Ht) as [Hdec _]; [by rewrite Hv|].
  split_and!; [intros ->; rewrite Hv; by apply Happ| |].
  - exists v2. split_and!; [done..| |done]. rewrite He, Hv. done.
  - intros s' claim' effect' decision' [d3 v3] Ec (row' & Hrow' & Est' & _)%begin_Ok. rewrite Ec in Hrow'.
    fold k in Hrow'. rewrite Hv2 in Hrow'. injection Hrow' as <-. rewrite Est' in Hst. by member_cases Hst.
Qed.

(** The rows that approvals refer to, across a resolution and a run after it. *)
Lemma resolution_refers t0 t w s r authorize d1 v t1 t2 w2 :
  rtc timed_step (t0, initial_world) (t, w) → resolveInvocationRuntimeApproval s r authorize (w_db w) = Ok (d1, v) →
  rtc timed_step (t1, World d1 (w_claims w)) (t2, w2) → map_Forall (refers (w_db w2)) (ap (w_db w2)).
Proof.
  intros R Hr Run. pose proof (timed_reachable_refers _ _ _ R) as Href. destruct (resolve_le _ _ _ _ _ _ Hr) as [Hcore Heff _ _ _].
  assert (reachable w) as Hw.
  { unfold reachable. change w with ((t, w).2). change initial_world with ((t0, initial_world).2).
    generalize dependent (t, w). generalize (t0, initial_world). intros x y. induction 1; [done|]. eapply rtc_l; [by apply timed_step_world|done]. }
  apply (timed_run_refers _ _ Run); cbn.
  - eapply Forall_impl; [by apply reachable_claims|]. intros c. by apply claim_ok_le, ops_le_core.
  - intros k v' (v0 & Hv0 & Hid)%(resolve_rows _ _ _ _ _ _ Hr). destruct (Href k v0 Hv0) as [Hi He].
    injection Hid as _ _ _ _ E1 _ _ E2 _ _ _ _. unfold refers. rewrite E1, E2, Heff. split; [|done].
    change (is_Some (k_invocations (core_of d1) !! (k.1, apr_InvocationID v0))). by rewrite Hcore.
Qed.

(** C33: a resolution is binding.  Once a resolution of an approval succeeded, every later
    state keeps its decision, its actor, its correlation and its time; a call that
    succeeds in resolving the approval again carries the same decision, actor and
    correlation, changes nothing and is answered with the row; and repeating the
    original resolution does succeed, provided that the approval was not closed in the
    meantime (by its run or, once expired, by a sweep) and that the authoriser who is
    asked again agrees. *)
Theorem approval_decision_binding t0 t w s r authorize d1 v t1 t2 w2 :
  rtc timed_step (t0, initial_world) (t, w) → session_within t t1 s →
  validInvocationRuntimeApprovalResolution r = true →
  resolveInvocationRuntimeApproval s r authorize (w_db w) = Ok (d1, v) →
  rtc timed_step (t1, World d1 (w_claims w)) (t2, w2) →
  ∃ v2, ap (w_db w2) !! (ars_IsolationDomainID r, ars_ApprovalID r) = Some v2
    ∧ decision_of v2 = decision_of v ∧ apr_Decision v2 = ars_Decision r ∧ apr_ResolvedBy v2 = ars_ActorID r
    ∧ (∀ s' r' authorize' d3 v3,
         ars_IsolationDomainID r' = ars_IsolationDomainID r → ars_ApprovalID r' = ars_ApprovalID r →
         resolveInvocationRuntimeApproval s' r' authorize' (w_db w2) = Ok (d3, v3) →
         d3 = w_db w2 ∧ v3 = v2 ∧ ars_Decision r' = ars_Decision r ∧ ars_ActorID r' = ars_ActorID r
         ∧ ars_CorrelationID r' = ars_CorrelationID r)
    ∧ (∀ s' check,
         approval_closed (apr_State v2) = false → check (candidate_approval v2 r) = None →
         resolveInvocationRuntimeApproval s' r (Some check) (w_db w2) = Ok (w_db w2, v2)).
Proof.
  intros R Hs Hvr Hr Run. pose proof (resolution_refers _ _ _ _ _ _ _ _ _ _ _ R Hr Run) as Href.
  apply timed_reachable_ok in R as OK. set (k := (ars_IsolationDomainID r, ars_ApprovalID r)).
  apply resolve_refines with (t := t) (t' := t1) in Hr as Hsteps; [|done..].
  apply approval_steps_ok in Hsteps as OK1; [|done].
  apply timed_run_refines in Run as [Hrun OK2]; [|done]. simpl in Hrun, OK2.
  apply resolve_Ok in Hr as (row & Hrow & Hinv & _ & Hsame%bool_decide_eq_true & Hcase). simpl in Hcase. fold k in Hrow, Hcase.
  assert (Hv1 : ap d1 !! k = Some v ∧ apr_State v ≠ "pending" ∧ apr_InvocationID v = ars_InvocationID r).
  { destruct Hcase as [(Hp & -> & ->)|(_ & _ & -> & ->)]; [done|]. rewrite lookup_insert_eq. done. }
  destruct Hv1 as (Hv1 & Hnp & Hinv1).
  destruct (steps_trigger _ _ k v Hrun Hv1) as (v2 & Hv2 & Ht). simpl in Hv2.
  destruct (triggers_decision _ _ Ht Hnp) as [Hdec Hnp2]. pose proof (triggers_identity _ _ Ht) as Hid.
  injection Hdec as E1 E2 E3 _. destruct Hsame as (S1 & S2 & S3).
  exists v2. split_and!; [done|unfold decision_of; by apply triggers_decision|congruence|congruence| |].
  - intros s' r' authorize' d3 v3 Ed Ei (row' & Hrow' & _ & _ & Hsame'%bool_decide_eq_true & Hc')%resolve_Ok.
    simpl in Hc'. rewrite Ed, Ei in Hrow', Hc'. fold k in Hrow', Hc'. rewrite Hv2 in Hrow'. injection Hrow' as <-.
    destruct Hc' as [(_ & -> & ->)|(Hp & _)]; [|done]. destruct Hsame' as (T1 & T2 & T3). split_and!; congruence.
  - intros s' check Hcl Hck. destruct (map_Forall_lookup_1 _ _ _ _ OK2 Hv2) as [Hrd _]. simpl in Hrd.
    assert (apr_InvocationID v2 = ars_InvocationID r) as Hi2 by (injection Hid; congruence).
    destruct (Href k v2 Hv2) as [Hi _]. cbn in Hi. rewrite Hi2 in Hi.
    apply resolve_replays; try done.
    apply bool_decide_eq_true. split_and!; congruence.
Qed.

(** Nothing takes effect after the expiry: from the moment an approval has
    expired, no run of the system resolves it, begins or completes its delivery;
    it keeps its row as it is until it is closed with the reason [expired], as
    [expired] or, if a delivery was under way, as [delivery_unknown]. *)
Theorem approval_expired_inert t0 t w t' w' k v expiry :
  rtc timed_step (t0, initial_world) (t, w) → ap (w_db w) !! k = Some v →
  apr_ExpiresAt v = Some expiry → (expiry ≤ t)%Z → rtc timed_step (t, w) (t', w') →
  ∃ v', ap (w_db w') !! k = Some v'
    ∧ (v' = v
       ∨ (apr_CloseReason v' = "expired" ∧ decision_of v' = decision_of v
          ∧ apr_EffectiveDecision v' = apr_EffectiveDecision v ∧ apr_DeliveredAt v' = apr_DeliveredAt v
          ∧ apr_State v' = (if decide (apr_State v = "delivering") then "delivery_unknown" else "expired"))).
Proof.
  intros R Hk He Ht Run. apply timed_reachable_ok in R. apply timed_run_refines in Run as [Hrun _]; [|done].
  destruct (steps_expired _ _ _ _ _ Hrun Hk He Ht) as (v' & Hk' & Hv'). exists v'. split; [done|].
  destruct Hv' as [->|(state & now & Hc & ->)]; [by left|right]. split_and!; [done..|]. simpl.
  apply closing_state_inv in Hc as [[[Es|Es] ->]|[Es ->]]; by rewrite Es.
Qed.
End theorems.
