(* ===== verification/ApprovalSweep.v ===== *)
(** * The expiry sweep

    [ExpireInvocationRuntimeApprovals] is called over and over by the worker
    ([cmd/dataground-worker/interaction_expiry.go]).  A sweep closes as many
    approvals as it reports, at most its limit.  It passes over rows that other
    transactions hold, so it may leave what is due to a later sweep; but what had
    expired at some time only becomes less, whatever happens in between, and every
    sweep that finds none of it held makes it less. *)
From S2P Require Import Prelude.
From S2P Require Import GoStrings.
From S2P Require Import Domain.
From S2P Require Import RuntimeTables.
From S2P Require Import Database.
From S2P Require Import OperationStore.
From S2P Require Import StoreSteps.
From S2P Require Import RuntimeInteraction.
From S2P Require Import RuntimeApproval.
From S2P Require Import ApprovalSpec.
From S2P Require Import ApprovalProofs.
From S2P Require Import ApprovalTheorems.

Definition open_state (state : string) : Prop := state = "pending" ∨ state = "resolved" ∨ state = "delivering".

(** Approvals of a scope that are not settled. *)
Definition open_in (scope : string) (kv : key * InvocationRuntimeApproval) : Prop :=
  kv.1.1 = scope ∧ open_state (apr_State kv.2).
#[global] Instance open_in_dec scope kv : Decision (open_in scope kv).
Proof. unfold open_in, open_state. apply _. Defined.

Definition open_count (scope : string) (d : db) : nat := size (filter (open_in scope) (ap d)).

Lemma open_closing state reason : open_state state → ∃ next, closing_state state reason = Ok (Some next) ∧ ¬ open_state next.
Proof.
  unfold closing_state, open_state. intros Hs.
  destruct (decide (state = "pending" ∨ state = "resolved")).
  - eexists. split; [done|]. case_decide; intros [|[|]]; done.
  - rewrite decide_True by tauto. eexists. split; [done|]. intros [|[|]]; done.
Qed.

Lemma open_count_close (scope : string) (m : approvals) (k : key) v v' :
  m !! k = Some v → open_in scope (k, v) → ¬ open_in scope (k, v') →
  S (size (filter (open_in scope) (<[k := v']> m))) = size (filter (open_in scope) m).
Proof.
  intros Hk Ho Hn. rewrite map_filter_insert_False by done. rewrite map_filter_delete.
  assert (Hf : filter (open_in scope) m !! k = Some v) by (by apply map_lookup_filter_Some).
  rewrite map_size_delete_Some by (by eexists). assert (size (filter (open_in scope) m) ≠ 0); [|lia].
  intros E%map_size_empty_inv. by rewrite E in Hf.
Qed.

(** The loop closes each selected approval. *)
Lemma expire_each_closes t t' s scope actor correlation ids d d' u :
  session_within t t' s → NoDup ids →
  Forall (λ id, past_due scope t (ap d) id ∧ ∃ v, ap d !! (scope, id) = Some v ∧ open_state (apr_State v)) ids →
  expire_each s scope actor correlation ids d = Ok (d', u) →
  open_count scope d' + length ids = open_count scope d
  ∧ (∀ id, id ∈ ids → ∃ v', ap d' !! (scope, id) = Some v' ∧ apr_CloseReason v' = "expired" ∧ ¬ open_state (apr_State v'))
  ∧ (∀ k, (∀ id, id ∈ ids → k ≠ (scope, id)) → ap d' !! k = ap d !! k).
Proof.
  revert t s d. induction ids as [|id ids IH]; intros t s d Hs Hnd Hids H; simpl in H.
  { apply tx_ret_Ok in H as [-> _]. split_and!; [simpl; lia|set_solver|done]. }
  apply NoDup_cons in Hnd as [Hni Hnd]. apply Forall_cons in Hids as [[(v & expiry & Hv & Hc & He & Hle) (w & Hw & Ho)] Hids].
  rewrite Hv in Hw. injection Hw as <-.
  apply tx_bind_Ok in H as (d1 & w & (-> & Hw & Hrd)%existing_Ok & H). rewrite Hv in Hw. injection Hw as <-.
  apply tx_bind_Ok in H as (d1 & v1 & Hcl & H). pose proof (clock_from _ _ _ 0 Hs). pose proof (clock_from _ _ _ 4 Hs).
  eapply (close_refines t (ses_clock s 4)) in Hcl as [_ (reason & Hreason & Heff)];
    [|split|exact Hv|exact Hrd|exact Hc|exact He|done|lia]; [|lia|by eapply clock_mono; [|lia]].
  assert (reason = "expired") as -> by (apply Hreason; lia). clear Hreason.
  destruct (open_closing _ "expired" Ho) as (next & Hnext & Hno).
  destruct Heff as [[Hn _]|(state & Hst & Hd1)]; [congruence|]. assert (state = next) as -> by congruence.
  set (v2 := closed_approval next "expired" (ses_clock s 0) v) in *.
  assert (Hother : ∀ id', id' ≠ id → ap d1 !! (scope, id') = ap d !! (scope, id')).
  { intros id' Hne. rewrite Hd1, lookup_insert_ne by congruence. done. }
  destruct (IH (ses_clock s 4) (later 4 s) d1) as (I1 & I2 & I3); [by eapply later_within|done| |exact H|].
  { apply Forall_forall. intros id' Hin. assert (id' ≠ id) by (by intros ->).
    rewrite Forall_forall in Hids. destruct (Hids id' Hin) as [(v' & e' & Hv' & Hc' & He' & Hle') Hx].
    unfold past_due. rewrite Hother by done. split; [|done]. exists v', e'. split_and!; [done..|lia]. }
  split_and!.
  - unfold open_count in *. rewrite Hd1 in I1. simpl. rewrite <- (open_count_close scope (ap d) (scope, id) v v2); [lia|done|done|].
    by intros [_ ?].
  - intros id' [->|Hin]%elem_of_cons; [|by apply I2]. exists v2. rewrite I3.
    + rewrite Hd1, lookup_insert_eq. done.
    + intros id' Hin [= ->]. done.
  - intros k Hk. rewrite I3 by (intros id' Hin; apply Hk; by right). rewrite Hd1, lookup_insert_ne; [done|].
    intros <-. by apply (Hk id); [left|].
Qed.

(** ** What a sweep selects *)

Lemma due_lookup scope now d k v :
  (k, v) ∈ due_approvals scope now d ↔ ap d !! k = Some v ∧ approval_due scope now (k, v).
Proof. unfold due_approvals. rewrite list_elem_of_filter, elem_of_map_to_list. tauto. Qed.

Lemma due_mono scope now now' kv : (now ≤ now')%Z → approval_due scope now kv → approval_due scope now' kv.
Proof. unfold approval_due. destruct (apr_ExpiresAt kv.2); [|tauto]. intuition lia. Qed.

Lemma expiring_ids_NoDup locks scope limit now invocations d : NoDup (expiring_ids locks scope limit now invocations d).
Proof.
  unfold expiring_ids. rewrite fmap_take. eapply sublist_NoDup; [|apply sublist_take].
  rewrite merge_sort_Permutation, <- list_fmap_compose.
  set (rows := filter _ (due_approvals scope now d)).
  assert (Hkeys : NoDup rows.*1).
  { unfold rows, due_approvals. eapply sublist_NoDup; [|apply fmap_sublist, sublist_filter].
    eapply sublist_NoDup; [|apply fmap_sublist, sublist_filter]. apply NoDup_fst_map_to_list. }
  assert (Hscope : Forall (λ kv, kv.1.1 = scope) rows).
  { apply Forall_forall. intros kv [_ [Hd _]%list_elem_of_filter]%list_elem_of_filter. apply Hd. }
  clearbody rows. induction rows as [|[[sc id] v] rows IH]; simpl; [constructor|].
  simpl in Hkeys. apply NoDup_cons in Hkeys as [Hn Hkeys]. apply Forall_cons in Hscope as [Hsc Hscope].
  constructor; [|by apply IH]. simpl in *. subst. intros ([[sc' id'] v'] & Heq & Hin)%list_elem_of_fmap.
  simpl in Heq. subst. apply Hn. rewrite Forall_forall in Hscope. specialize (Hscope _ Hin). simpl in Hscope. subst.
  by apply (list_elem_of_fmap_2 fst) in Hin.
Qed.

Lemma expiring_ids_length locks scope limit now invocations d :
  length (expiring_ids locks scope limit now invocations d) ≤ limit.
Proof. unfold expiring_ids. rewrite length_fmap, length_take. lia. Qed.

Lemma elem_of_sorted (l : list (Z * string)) p : p ∈ merge_sort due_le l ↔ p ∈ l.
Proof. by rewrite merge_sort_Permutation. Qed.

#[local] Instance due_le_total : Total due_le.
Proof. intros p q. unfold due_le. destruct (Z.lt_trichotomy p.1 q.1) as [?|[E|?]]; [tauto| |tauto]. destruct (total String.le p.2 q.2); [left|right]; right; by split. Qed.
#[local] Instance due_le_trans : Transitive due_le.
Proof.
  intros p q r. unfold due_le. intros [?|[E1 H1]] [?|[E2 H2]]; [left; lia..|]. right. split; [congruence|by etrans].
Qed.

(** The head of a sorted list is least. *)
Lemma sorted_nonempty (l : list (Z * string)) q : q ∈ l → ∃ p ps, merge_sort due_le l = p :: ps ∧ p ∈ l ∧ (p.1 ≤ q.1)%Z.
Proof.
  intros Hq%elem_of_sorted. pose proof (StronglySorted_merge_sort due_le l) as Hsort.
  destruct (merge_sort due_le l) as [|p ps] eqn:E; [by apply elem_of_nil in Hq|].
  exists p, ps. split_and!; [done|apply elem_of_sorted; rewrite E; by left|].
  apply elem_of_cons in Hq as [->|Hq]; [lia|]. apply StronglySorted_inv in Hsort as [_ Hall].
  rewrite Forall_forall in Hall. destruct (Hall q Hq) as [?|[? _]]; lia.
Qed.

(** [min] over a group is a lower bound and one of its members. *)
Lemma earliest_spec due inv e : (e, inv) ∈ due → (earliest_expiry due inv ≤ e)%Z ∧ (earliest_expiry due inv, inv) ∈ due.
Proof.
  intros Hin. unfold earliest_expiry. set (times := (filter (λ p, p.2 = inv) due).*1).
  assert (∀ x, x ∈ times ↔ (x, inv) ∈ due) as Ht.
  { intros x. unfold times. rewrite list_elem_of_fmap. setoid_rewrite list_elem_of_filter. split.
    - intros ([y i] & -> & [E Hy]). cbn in *. by rewrite <- E.
    - intros Hx. by exists (x, inv). }
  rewrite <- Ht in Hin. rewrite <- Ht. clear Ht. destruct times as [|t rest]; [by apply elem_of_nil in Hin|].
  revert Hin. assert (∀ rest, (foldr Z.min t rest ≤ t)%Z ∧ (∀ x, x ∈ rest → (foldr Z.min t rest ≤ x)%Z)
    ∧ (foldr Z.min t rest = t ∨ foldr Z.min t rest ∈ rest)) as F.
  { clear. induction rest as [|y rest (I1 & I2 & I3)]; cbn; [split_and!; [lia|set_solver|by left]|]. split_and!; [lia|..].
    - intros x [->|Hx]%elem_of_cons; [lia|]. specialize (I2 x Hx). lia.
    - destruct (Z.min_spec y (foldr Z.min t rest)) as [[_ ->]|[_ ->]]; [right; by left|].
      destruct I3 as [->|?]; [by left|right; by right]. }
  destruct (F rest) as (F1 & F2 & F3). intros [->|Hin]%elem_of_cons; (split; [|rewrite elem_of_cons; tauto]); [done|by apply F2].
Qed.

(** *** The backlog *)

(** What of a scope had expired at [t0] and is not settled. *)
Definition backlog (scope : string) (t0 : Z) (d : db) : approvals := filter (approval_due scope t0) (ap d).

(** The rows other transactions hold are not of the backlog, nor of its invocations. *)
Definition unobstructed (locks : row_locks) (scope : string) (t0 : Z) (d : db) : Prop :=
  ∀ k v, backlog scope t0 d !! k = Some v → lk_invocations locks (apr_InvocationID v) = false ∧ lk_interactions locks k.2 = false.

Lemma due_early scope t0 now kv : approval_due scope now kv → (instant (apr_ExpiresAt kv.2) ≤ t0)%Z → approval_due scope t0 kv.
Proof. unfold approval_due. destruct (apr_ExpiresAt kv.2); cbn; tauto. Qed.

Lemma due_expiry scope t0 kv : approval_due scope t0 kv → (instant (apr_ExpiresAt kv.2) ≤ t0)%Z.
Proof. unfold approval_due. destruct (apr_ExpiresAt kv.2); cbn; tauto. Qed.

Lemma backlog_lookup scope t0 d k v : backlog scope t0 d !! k = Some v ↔ ap d !! k = Some v ∧ approval_due scope t0 (k, v).
Proof. apply map_lookup_filter_Some. Qed.

(** The first invocation that is not held has something of the backlog. *)
Lemma selected_invocation locks scope limit t0 now d :
  0 < limit → (t0 ≤ now)%Z → map_Forall (refers d) (ap d) → unobstructed locks scope t0 d → backlog scope t0 d ≠ ∅ →
  ∀ invocations, lockDueRuntimeInteractionInvocations locks scope "approval" limit now d = Ok invocations →
  ∃ k v, backlog scope t0 d !! k = Some v ∧ apr_InvocationID v ∈ invocations.
Proof.
  intros Hl Hle Href Hfree (k0 & v0 & Hb0)%map_choose invocations [= <-]. destruct limit as [|limit]; [lia|].
  set (due := (λ kv, (instant (apr_ExpiresAt kv.2), apr_InvocationID kv.2)) <$> due_approvals scope now d).
  pose proof Hb0 as [Hk0 Hd0]%backlog_lookup. destruct (Hfree _ _ Hb0) as [Hf0 _]. destruct (Href _ _ Hk0) as [Hinv _].
  assert (k0.1 = scope) as Hs0 by apply Hd0. rewrite Hs0 in Hinv.
  assert ((instant (apr_ExpiresAt v0), apr_InvocationID v0) ∈ due) as Hdue0.
  { unfold due. apply (list_elem_of_fmap_2' _ _ (k0, v0)); [|done]. apply due_lookup. split; [done|]. by eapply due_mono. }
  unfold due_invocations. set (L := filter _ (remove_dups due.*2)).
  assert (apr_InvocationID v0 ∈ L) as HL.
  { apply list_elem_of_filter. split; [done|]. rewrite elem_of_remove_dups. by apply (list_elem_of_fmap_2 snd) in Hdue0. }
  apply (list_elem_of_fmap_2 (λ inv, (earliest_expiry due inv, inv))), sorted_nonempty in HL as (p & ps & Ep & Hp & Hple).
  apply list_elem_of_fmap in Hp as (inv & -> & Hin). cbn in Hple. rewrite Ep. unfold L in Hin.
  apply list_elem_of_filter in Hin as [_ Hin]. rewrite elem_of_remove_dups in Hin.
  apply list_elem_of_fmap in Hin as ([e inv'] & -> & Hin). cbn [snd] in *.
  destruct (earliest_spec _ _ _ Hdue0) as [He0 _]. destruct (earliest_spec _ _ _ Hin) as [_ Hatt].
  unfold due in Hatt at 2. apply list_elem_of_fmap in Hatt as ([k1 v1] & [= Ee Ei] & H1). cbn in Ee, Ei.
  apply due_lookup in H1 as [Hk1 Hd1]. exists k1, v1. split; [|rewrite <- Ei; by left].
  apply backlog_lookup. split; [done|]. apply (due_early _ _ now); [done|]. cbn. apply due_expiry in Hd0. cbn in Hd0. lia.
Qed.

(** Of a backlog that nobody holds, the sweep selects something. *)
Lemma sweep_selects locks scope limit t0 now now' d :
  0 < limit → (t0 ≤ now ≤ now')%Z → map_Forall (refers d) (ap d) → unobstructed locks scope t0 d → backlog scope t0 d ≠ ∅ →
  ∀ invocations, lockDueRuntimeInteractionInvocations locks scope "approval" limit now d = Ok invocations →
  ∃ id, id ∈ expiring_ids locks scope limit now' invocations d ∧ is_Some (backlog scope t0 d !! (scope, id)).
Proof.
  intros Hl Hle Href Hfree Hne invocations Hlock.
  destruct (selected_invocation _ _ _ _ _ _ Hl (proj1 Hle) Href Hfree Hne _ Hlock) as (k1 & v1 & Hb1 & Hi1).
  pose proof Hb1 as [Hk1 Hd1]%backlog_lookup. destruct (Hfree _ _ Hb1) as [_ Hf1].
  unfold expiring_ids. set (rows := filter _ (due_approvals scope now' d)).
  assert ((k1, v1) ∈ rows) as Hrow.
  { apply list_elem_of_filter. split; [done|]. apply due_lookup. split; [done|]. eapply due_mono; [|exact Hd1]. lia. }
  apply (list_elem_of_fmap_2 (λ kv, (instant (apr_ExpiresAt kv.2), kv.1.2))), sorted_nonempty in Hrow as (p & ps & Ep & Hp & Hple).
  apply list_elem_of_fmap in Hp as ([k2 v2] & -> & H2). cbn in Hple. unfold rows in H2.
  apply list_elem_of_filter in H2 as [_ [Hk2 Hd2]%due_lookup].
  assert (k2.1 = scope) as Hs2 by apply Hd2. destruct k2 as [sc id]. cbn in Hs2. subst sc. exists id. split.
  - destruct limit as [|limit]; [lia|]. rewrite Ep. by left.
  - exists v2. apply backlog_lookup. split; [done|]. apply (due_early _ _ now'); [done|]. cbn.
    apply due_expiry in Hd1. cbn in Hd1. lia.
Qed.

(** ** Sweeps *)

(** What a sweep did: [ids] were closed as expired and nothing else changed. *)
Record swept (scope : string) (limit : Z) (ids : list string) (d d' : db) : Prop := Swept {
  sw_limit : (Z.of_nat (length ids) ≤ limit)%Z;
  sw_count : open_count scope d' + length ids = open_count scope d;
  sw_closed : ∀ id, id ∈ ids → ∃ v', ap d' !! (scope, id) = Some v' ∧ apr_CloseReason v' = "expired" ∧ ¬ open_state (apr_State v');
  sw_others : ∀ k, (∀ id, id ∈ ids → k ≠ (scope, id)) → ap d' !! k = ap d !! k }.

Lemma sweep_outcome t t' s locks scope actor correlation limit d d' n :
  session_within t t' s → ExpireInvocationRuntimeApprovals s locks scope actor correlation limit d = Ok (d', n) →
  ∃ ids, n = length ids ∧ swept scope limit ids d d'
    ∧ ∀ t0, (t0 ≤ t)%Z → map_Forall (refers d) (ap d) → unobstructed locks scope t0 d → backlog scope t0 d ≠ ∅ →
        ∃ id, id ∈ ids ∧ is_Some (backlog scope t0 d !! (scope, id)).
Proof.
  intros Hs H. unfold ExpireInvocationRuntimeApprovals in H.
  apply tx_bind_Ok in H as (d1 & [] & [-> Hg]%reject_if_Ok & H).
  apply orb_false_iff in Hg as [[_ Hl%Z.ltb_ge]%orb_false_iff _].
  apply tx_bind_Ok in H as (d1 & invocations & [-> Hlock]%query_Ok & H).
  apply tx_bind_Ok in H as (d1 & ids & [-> ->]%gets_Ok & H).
  apply tx_bind_Ok in H as (d1 & [] & Hx & H). apply tx_ret_Ok in H as [-> ->].
  pose proof (clock_from _ _ _ 0 Hs). pose proof (clock_mono _ _ _ 0 1 Hs ltac:(lia)). pose proof (clock_mono _ _ _ 1 2 Hs ltac:(lia)).
  pose proof (expiring_ids_length locks scope (Z.to_nat limit) (ses_clock s 1) invocations d) as Hlen.
  set (ids := expiring_ids _ _ _ _ _ _) in *.
  assert (Hids : Forall (λ id, past_due scope (ses_clock s 2) (ap d) id
                     ∧ ∃ v, ap d !! (scope, id) = Some v ∧ open_state (apr_State v)) ids).
  { apply Forall_forall. intros id ((v & expiry & Hv & Hc & He & Hle) & w & Hw)%expiring_id_due.
    apply due_lookup in Hw as [Hw (_ & _ & Ho & _)]. split; [exists v, expiry; split_and!; [done..|lia]|by exists w]. }
  destruct (expire_each_closes _ _ _ _ _ _ _ _ _ _ (later_within _ _ _ 2 Hs) (expiring_ids_NoDup _ _ _ _ _ _) Hids Hx)
    as (Hcount & Hclosed & Hothers). exists ids. split_and!; [done|split; [lia|done..]|].
  intros t0 Ht0 Href Hfree Hne. eapply sweep_selects; [lia| |done..]. lia.
Qed.

(** ** The backlog along a run *)

Lemma open_not_closed state reason next : closing_state state reason = Ok (Some next) → ¬ open_state next.
Proof. intros [[_ ->]|[_ ->]]%closing_state_inv; unfold open_state; [case_decide|]; by intros [|[|]]. Qed.

(** Nothing enters it, and what stays is as it was. *)
Lemma step_backlog scope t0 t m t' m' :
  approval_step (t, m) (t', m') → (t0 ≤ t)%Z → filter (approval_due scope t0) m' ⊆ filter (approval_due scope t0) m.
Proof.
  intros S Ht. apply map_subseteq_spec. intros k v' [Hk Hdue]%map_lookup_filter_Some.
  assert (∀ k0 v0, m' = <[k0 := v0]> m → ¬ approval_due scope t0 (k0, v0) → filter (approval_due scope t0) m !! k = Some v') as Hins.
  { intros k0 v0 -> Hn. apply lookup_insert_Some in Hk as [[<- <-]|[_ Hk]]; [done|]. by apply map_lookup_filter_Some. }
  inversion S; subst; [by apply map_lookup_filter_Some|..]; (eapply Hins; [reflexivity|]); intros (_ & _ & Ho & He); cbn in *.
  - lia.
  - unfold unexpired in *. destruct (apr_ExpiresAt v); [lia|done].
  - unfold unexpired in *. destruct (apr_ExpiresAt v); [lia|done].
  - unfold unexpired in *. destruct (apr_ExpiresAt v); [lia|done].
  - by eapply open_not_closed.
Qed.

Lemma steps_backlog scope t0 x y :
  rtc approval_step x y → (t0 ≤ x.1)%Z → filter (approval_due scope t0) y.2 ⊆ filter (approval_due scope t0) x.2 ∧ (t0 ≤ y.1)%Z.
Proof.
  induction 1 as [|[t m] [t1 m1] y S _ IH]; [done|]. intros Ht. apply step_time in S as Hle. cbn in *.
  destruct IH as [IH ?]; [lia|]. split; [|done]. etrans; [exact IH|]. by eapply step_backlog.
Qed.

Section sweeping.
Context `{SchemaEngine}.

(** A run from [x] in which anything happens, sweeps included; counted are the sweeps that
    find nothing of what had expired at [t0] held by others. *)
Inductive sweeping (scope : string) (t0 : Z) (x : Z * world) : nat → Z * world → Prop :=
  | sweeping_none : sweeping scope t0 x 0 x
  | sweeping_step n y z : sweeping scope t0 x n y → timed_step y z → sweeping scope t0 x n z
  | sweeping_sweep n t d cs s locks actor correlation limit t' d' closed :
      sweeping scope t0 x n (t, World d cs) → session_within t t' s → unobstructed locks scope t0 d →
      ExpireInvocationRuntimeApprovals s locks scope actor correlation limit d = Ok (d', closed) →
      sweeping scope t0 x (S n) (t', World d' cs).

Lemma sweep_timed t t' s locks scope actor correlation limit d d' cs n :
  session_within t t' s → ExpireInvocationRuntimeApprovals s locks scope actor correlation limit d = Ok (d', n) →
  timed_step (t, World d cs) (t', World d' cs).
Proof. intros Hs Hx. apply (timed_interaction t t' s (ExpireApprovals locks scope actor correlation limit)); [done|]. cbn. by rewrite Hx. Qed.

Lemma sweeping_run scope t0 x n y : sweeping scope t0 x n y → rtc timed_step x y.
Proof. induction 1; [done|by eapply rtc_r|]. eapply rtc_r; [done|]. by eapply sweep_timed. Qed.

Lemma timed_step_backlog scope t0 x y : timed_step x y → approvals_ok (x.1, ap (w_db x.2)) → (t0 ≤ x.1)%Z →
  backlog scope t0 (w_db y.2) ⊆ backlog scope t0 (w_db x.2) ∧ (t0 ≤ y.1)%Z.
Proof. intros S OK Ht. apply timed_step_refines in S; [|done]. by apply (steps_backlog scope t0) in S. Qed.

(** A sweep that nothing obstructs makes the backlog less. *)
Lemma sweep_backlog scope t0 t t' s locks actor correlation limit d d' n :
  session_within t t' s → unobstructed locks scope t0 d → map_Forall (refers d) (ap d) → (t0 ≤ t)%Z →
  ExpireInvocationRuntimeApprovals s locks scope actor correlation limit d = Ok (d', n) →
  backlog scope t0 d' ⊆ backlog scope t0 d → size (backlog scope t0 d') ≤ size (backlog scope t0 d) - 1.
Proof.
  intros Hs Hfree Href Ht Hx Hsub. destruct (decide (backlog scope t0 d = ∅)) as [E|Hne].
  { apply map_subseteq_size in Hsub. rewrite E, map_size_empty in Hsub |- *. lia. }
  destruct (sweep_outcome _ _ _ _ _ _ _ _ _ _ _ Hs Hx) as (ids & -> & Hsw & Hsel).
  destruct (Hsel t0 Ht Href Hfree Hne) as (id & Hid & [v Hv]). destruct (sw_closed _ _ _ _ _ Hsw id Hid) as (v' & Hv' & _ & Hno).
  assert (backlog scope t0 d' ⊂ backlog scope t0 d) as Hlt.
  { split; [done|]. intros Hsup. apply (lookup_weaken _ _ _ _ Hv) in Hsup. apply backlog_lookup in Hsup as [Hv2 (_ & _ & Ho & _)].
    rewrite Hv' in Hv2. injection Hv2 as ->. by apply Hno. }
  apply map_subset_size in Hlt. lia.
Qed.

Lemma sweeping_backlog scope start t0 t w n y :
  rtc timed_step (start, initial_world) (t, w) → (t0 ≤ t)%Z → sweeping scope t0 (t, w) n y →
  backlog scope t0 (w_db y.2) ⊆ backlog scope t0 (w_db w)
  ∧ size (backlog scope t0 (w_db y.2)) ≤ size (backlog scope t0 (w_db w)) - n ∧ (t0 ≤ y.1)%Z.
Proof.
  intros R Ht0. induction 1 as [|n y z S (I1 & I2 & I3) T|n t1 d1 cs s locks actor correlation limit t2 d2 closed S (I1 & I2 & I3) Hs Hfree Hx].
  { split_and!; [done|cbn; lia|done]. }
  all: assert (∀ y, rtc timed_step (start, initial_world) y → approvals_ok (y.1, ap (w_db y.2)) ∧ map_Forall (refers (w_db y.2)) (ap (w_db y.2))) as Hok
    by (intros [t' w'] R'; split; [by eapply timed_reachable_ok|by eapply timed_reachable_refers]).
  all: apply sweeping_run in S as Rs; destruct (Hok _ (transitivity R Rs)) as [OK Href].
  - destruct (timed_step_backlog scope t0 _ _ T OK I3) as [Hsub ?]. split_and!; [by etrans| |done].
    apply map_subseteq_size in Hsub. lia.
  - destruct (timed_step_backlog scope t0 _ _ (sweep_timed _ _ _ _ _ _ _ _ _ _ cs _ Hs Hx) OK I3) as [Hsub ?]. cbn in *.
    split_and!; [by etrans| |done]. pose proof (sweep_backlog _ _ _ _ _ _ _ _ _ _ _ _ Hs Hfree Href I3 Hx Hsub). lia.
Qed.

(** C38: What has expired is settled.  From any reachable state, take the approvals of a
    scope that had expired by then and were not settled.  Whatever happens afterwards,
    with any calls of any workers and any sweeps in between, no approval enters this
    backlog and none is in it in another form than before; each sweep during which no
    other transaction holds a row of the backlog or of its invocations settles at least
    one of them, so after as many of these sweeps as there were approvals none is left.
    Sweeps that find rows held may pass over them, and are not counted.  And every
    sweep that commits closes exactly as many approvals as it reports, at most its
    limit, all of them as expired, and changes no other approval. *)
Theorem expiry_sweeps_drain scope start t w n t' w' :
  rtc timed_step (start, initial_world) (t, w) → sweeping scope t (t, w) n (t', w') →
  backlog scope t (w_db w') ⊆ backlog scope t (w_db w)
  ∧ size (backlog scope t (w_db w')) ≤ size (backlog scope t (w_db w)) - n
  ∧ ∀ s locks actor correlation limit t2 d2 closed, session_within t' t2 s →
      ExpireInvocationRuntimeApprovals s locks scope actor correlation limit (w_db w') = Ok (d2, closed) →
      ∃ ids, closed = length ids ∧ swept scope limit ids (w_db w') d2.
Proof.
  intros R S. destruct (sweeping_backlog _ _ _ _ _ _ _ R (Z.le_refl t) S) as (H1 & H2 & _). split_and!; [done|done|].
  intros s locks actor correlation limit t2 d2 closed Hs Hx.
  destruct (sweep_outcome _ _ _ _ _ _ _ _ _ _ _ Hs Hx) as (ids & ? & ? & _). by exists ids.
Qed.
End sweeping.
