(* ===== verification/StoreExamples.v ===== *)
(** * A concrete run of the store

    An executable scheduler for [world_step] and one run of it: a service is
    created, its revision published by a worker, routed by an alias and invoked;
    the invocation is claimed twice.  The witnesses of the store's theorems are
    evaluated on its states. *)
From S2P Require Import Prelude.
From S2P Require Import GoStrings.
From S2P Require Import Sha256.
From S2P Require Import GoJson.
From S2P Require Import Lifecycle.
From S2P Require Import Domain.
From S2P Require Import Database.
From S2P Require Import OperationStore.
From S2P Require Import Commands.
From S2P Require Import StoreSpec.
From S2P Require Import StoreSteps.
From S2P Require Import StoreRefinement.
From S2P Require Import Claiming.
From S2P Require Import StoreTheorems.

Section scheduler.
Context `{SchemaEngine}.

(** One scheduling decision; workers name a claim by its position in the list
    of issued claims, newest first. *)
Inductive decision :=
  | DoClaim (e : env) (kind : string) (scope : claim_scope) (worker : string) (duration : Z)
  | DoRenew (e : env) (n : nat) (duration : Z)
  | DoAdvance (e : env) (n : nat) (nextState : string) (result : option json)
  | DoFail (e : env) (n : nat) (reason : string)
  | DoRetry (e : env) (n : nat) (classification code : string) (due : Z)
  | DoRepair (e : env) (kind domain operation actor reason dedup : string) (deadline : Z)
  | DoCommand (e : env) (i : Idempotency) (cmd : command).

Definition perform (a : decision) (w : world) : option world :=
  let d := w_db w in
  let cs := w_claims w in
  let keep (r : result db) := match r with Ok d' => Some (World d' cs) | Err _ => None end in
  match a with
  | DoClaim e kind scope worker duration =>
      match claimNext e kind scope worker duration d with
      | Ok (d', Some c) => Some (World d' (c :: cs))
      | _ => None
      end
  | DoRenew e n duration =>
      c ← cs !! n;
      match RenewLease e c duration d with Ok (d', c') => Some (World d' (c' :: cs)) | Err _ => None end
  | DoAdvance e n nextState r =>
      if decide (nextState = "queued") then None else c ← cs !! n; keep (Advance e c nextState r d)
  | DoFail e n reason => c ← cs !! n; keep (Fail e c reason d)
  | DoRetry e n classification code due => c ← cs !! n; keep (ScheduleRetry e c classification code due d)
  | DoRepair e kind domain operation actor reason dedup deadline =>
      keep (RepairOperation e kind domain operation actor reason dedup deadline d)
  | DoCommand e i cmd => keep (fst <$> run_command e i cmd d)
  end.

Fixpoint perform_all (l : list decision) (w : world) : option world :=
  match l with
  | [] => Some w
  | a :: rest => w' ← perform a w; perform_all rest w'
  end.

Lemma perform_step a w w' : perform a w = Some w' → world_step w w'.
Proof.
  destruct w as [d cs], a as [e kind scope worker duration|e n duration|e n ns r|e n reason|e n cl code due
    |e kind dom op actor reason dd dl|e i cmd]; simpl.
  - unfold claimNext. destruct (operationTable kind) as [[t ts]|] eqn:Et; simpl; [|done].
    destruct (claim_candidate _ _ _ _ _) as [k|]; [|done].
    destruct (claim_update _ _ _ _ _ _ _) as [d' [c|]] eqn:Ec; [|done]. intros [= <-].
    by eapply step_claim.
  - intros (c & Hc & Hr)%bind_Some. destruct (RenewLease _ _ _ _) as [[d' c']|] eqn:E; simplify_eq.
    eapply step_renew; [by eapply list_elem_of_lookup_2|done].
  - case_decide; [done|]. intros (c & Hc & Hr)%bind_Some. destruct (Advance _ _ _ _ _) eqn:E; simplify_eq.
    eapply step_advance; [by eapply list_elem_of_lookup_2|done|done].
  - intros (c & Hc & Hr)%bind_Some. destruct (Fail _ _ _ _) eqn:E; simplify_eq.
    eapply step_fail; [by eapply list_elem_of_lookup_2|done].
  - intros (c & Hc & Hr)%bind_Some. destruct (ScheduleRetry _ _ _ _ _ _) eqn:E; simplify_eq.
    eapply step_retry; [by eapply list_elem_of_lookup_2|done].
  - intros Hr. destruct (RepairOperation _ _ _ _ _ _ _ _ _) eqn:E; simplify_eq. by eapply step_repair.
  - intros Hr. destruct (run_command _ _ _ _) as [[d' r]|] eqn:E; simplify_eq/=. by eapply step_command.
Qed.

Lemma perform_all_run l w w' : perform_all l w = Some w' → rtc world_step w w'.
Proof.
  revert w. induction l as [|a l IH]; simpl; intros w; [intros [= ->]; constructor|].
  intros (w1 & H1 & H2)%bind_Some. eapply rtc_l; [by eapply perform_step|by apply IH].
Qed.

Definition run_from (w : world) (l : list decision) : world := default w (perform_all l w).

Definition completes (w : world) (l : list decision) : bool :=
  match perform_all l w with Some _ => true | None => false end.

Lemma run_from_run w l : completes w l = true → rtc world_step w (run_from w l).
Proof.
  unfold completes, run_from. destruct (perform_all l w) as [w'|] eqn:E; [|done]. by apply perform_all_run in E.
Qed.

Lemma run_from_step w a : completes w [a] = true → world_step w (run_from w [a]).
Proof.
  unfold completes, run_from. simpl. destruct (perform a w) as [w'|] eqn:E; [|done]. intros _.
  by apply perform_step in E.
Qed.
End scheduler.

(** ** The run *)

#[local] Instance open_schemas : SchemaEngine := {| schema_compiles := λ _, true; schema_accepts := λ _ _, true |}.

Definition ex_env (t : Z) : env := Env t t [].
Definition ex_idem (path key : string) : Idempotency := Idem "iso_a" "POST" path key [].
Definition second : Z := 1000000.

Definition ex_setup : list decision :=
  [ DoCommand (ex_env 1) (ex_idem "/services" "k1")
      (CmdCreateService (CreateServiceIn "" "svc_a" "Service" "" "act_a" "cor_1"));
    DoCommand (ex_env 2) (ex_idem "/revisions" "k2")
      (CmdCreateRevision (CreateRevisionIn "rev_a" "svc_a" "reference/v1" [] None None "act_a" "cor_2"));
    DoCommand (ex_env 3) (ex_idem "/publish" "k3")
      (CmdAcceptPublication (AcceptPublicationIn "rev_a" 1 "act_a" "cor_3" (100 * second)) ∅);
    DoClaim (ex_env 4) OperationKindPublication any_scope "worker-1" second;
    DoAdvance (ex_env 5) 0 "validating" None;
    DoClaim (ex_env 6) OperationKindPublication any_scope "worker-1" second;
    DoAdvance (ex_env 7) 0 "applying" None;
    DoClaim (ex_env 8) OperationKindPublication any_scope "worker-1" second;
    DoAdvance (ex_env 9) 0 "observing" None;
    DoClaim (ex_env 10) OperationKindPublication any_scope "worker-1" second;
    DoAdvance (ex_env 11) 0 "published" None;
    DoCommand (ex_env 12) (ex_idem "/alias" "k4")
      (CmdAssignAlias (AssignAliasIn "als_a" "svc_a" "prod" "rev_a" None "act_a" "cor_4"));
    DoCommand (ex_env 13) (ex_idem "/invoke" "k5")
      (CmdAcceptInvocation (AcceptInvocationIn "inv_a" "svc_a" "prod" (JObj []) "act_a" "cor_5"
         (100 * second) None)) ].

Definition ex_invoked : world := run_from initial_world ex_setup.

(** A worker claims the invocation and stalls. *)
Definition ex_claimed : world :=
  run_from ex_invoked [DoClaim (ex_env 14) OperationKindInvocation any_scope "worker-1" second].

Definition ex_op_key : key :=
  ("iso_a", Identity.Derived "op" ("iso_a" +:+ ":" +:+ "inv_a" +:+ ":invocation:v1")).

Definition ex_claim : OperationClaim :=
  default (Claim "" "" "" "" "" "" 0 0 "" 0 0 0 "" "") (w_claims ex_claimed !! 0).

Lemma ex_invoked_reachable : reachable ex_invoked.
Proof. apply run_from_run. vm_compute. reflexivity. Qed.

Lemma ex_claimed_reachable : reachable ex_claimed.
Proof.
  unfold reachable. etrans; [apply ex_invoked_reachable|]. apply run_from_run. vm_compute. reflexivity.
Qed.

Example ex_claimed_state :
  op_observed_state <$> db_invocation_ops (w_db ex_claimed) !! ex_op_key = Some "queued"
  ∧ c_FencingToken ex_claim = 1%Z ∧ claim_key ex_claim = ex_op_key.
Proof. by vm_compute. Qed.

Definition no_claim : OperationClaim := Claim "" "" "" "" "" "" 0 0 "" 0 0 0 "" "".

Lemma granted_eq (p : db * option OperationClaim) :
  bool_decide (is_Some p.2) = true → p = (p.1, Some (default no_claim p.2)).
Proof. intros E%bool_decide_eq_true. destruct p as [? [c|]]; [done|by destruct E]. Qed.

(** The first lease has expired; a second worker takes over. *)
Definition ex_regrant : db * option OperationClaim :=
  claim_update OperationKindInvocation InvocationOps "worker-2" second (5 * second) ex_op_key (w_db ex_claimed).

Lemma superseded_claim_fenced_witness :
  let w' := World ex_regrant.1 (default no_claim ex_regrant.2 :: w_claims ex_claimed) in
  (c_FencingToken ex_claim < c_FencingToken (default no_claim ex_regrant.2))%Z
  ∧ fenced_out (w_db w') ex_claim.
Proof.
  apply (superseded_claim_fenced ex_claimed ex_claim OperationKindInvocation InvocationOps
    ["succeeded"; "failed"; "cancelled"; "waiting"] "worker-2" second (5 * second) ex_op_key
    ex_regrant.1 (default no_claim ex_regrant.2)).
  - exact ex_claimed_reachable.
  - apply (list_elem_of_lookup_2 _ 0). vm_compute. reflexivity.
  - vm_compute. reflexivity.
  - vm_compute. reflexivity.
  - reflexivity.
  - apply (granted_eq ex_regrant). vm_compute. reflexivity.
  - apply rtc_refl.
Defined.

(** The worker starts the invocation. *)
Definition ex_started : result db := Advance (ex_env 15) ex_claim "starting" None (w_db ex_claimed).

Lemma claim_commits_once_witness : fenced_out (from_ok empty_db ex_started) ex_claim.
Proof.
  apply (claim_commits_once ex_claimed ex_claim (ex_env 15) "starting" None "" "" "" 0
    (from_ok empty_db ex_started) (World (from_ok empty_db ex_started) (w_claims ex_claimed))).
  - exact ex_claimed_reachable.
  - apply (list_elem_of_lookup_2 _ 0). vm_compute. reflexivity.
  - discriminate.
  - left. apply (from_ok_eq empty_db ex_started). vm_compute. reflexivity.
  - apply rtc_refl.
Defined.

Definition ex_cancel_input : AcceptCancellationInput := AcceptCancellationIn "inv_a" "act_a" "cor_6".
Definition ex_cancel : result (db * CommandResult) :=
  AcceptCancellation (ex_env 15) (ex_idem "/cancel" "k6") ex_cancel_input (w_db ex_claimed).
Definition no_result : db * CommandResult := (empty_db, CmdResult 0 "" true).
Definition ex_invocation : invocation_row :=
  default (InvocationRow "" "" "" "" JNull None None None "" "" None 0 0 0 0 "")
    (db_invocations (w_db ex_claimed) !! ("iso_a", "inv_a")).

Lemma cancellation_fences_workers_witness : fenced_out (from_ok no_result ex_cancel).1 ex_claim.
Proof.
  apply (cancellation_fences_workers ex_claimed ex_claim (ex_env 15) (ex_idem "/cancel" "k6") ex_cancel_input
    (from_ok no_result ex_cancel).1 (from_ok no_result ex_cancel).2
    (World (from_ok no_result ex_cancel).1 (w_claims ex_claimed)) ex_invocation).
  - exact ex_claimed_reachable.
  - apply (list_elem_of_lookup_2 _ 0). vm_compute. reflexivity.
  - vm_compute. reflexivity.
  - vm_compute. reflexivity.
  - vm_compute. reflexivity.
  - vm_compute. reflexivity.
  - apply (bool_decide_unpack _). vm_compute. exact I.
  - rewrite <- surjective_pairing. apply (from_ok_eq no_result ex_cancel). vm_compute. reflexivity.
  - vm_compute. reflexivity.
  - apply rtc_refl.
Defined.

Definition ex_start : decision := DoAdvance (ex_env 15) 0 "starting" None.

Lemma store_refines_spec_witness :
  rtc abs_step (core_of (w_db ex_claimed)) (core_of (w_db (run_from ex_claimed [ex_start]))).
Proof.
  apply (store_refines_spec ex_claimed (run_from ex_claimed [ex_start]) ex_claimed_reachable).
  apply run_from_step. vm_compute. reflexivity.
Defined.

Lemma reachable_store_consistent_witness : core_ok (core_of (w_db ex_claimed)).
Proof. apply (reachable_store_consistent ex_claimed). exact ex_claimed_reachable. Defined.

(** The invocation runs to completion; then the alias is withdrawn and the
    revision retired. *)
Definition ex_finish : list decision :=
  [ DoAdvance (ex_env 15) 0 "starting" None;
    DoClaim (ex_env 16) OperationKindInvocation any_scope "worker-1" second;
    DoAdvance (ex_env 17) 0 "running" None;
    DoClaim (ex_env 18) OperationKindInvocation any_scope "worker-1" second;
    DoAdvance (ex_env 19) 0 "observing" None;
    DoClaim (ex_env 20) OperationKindInvocation any_scope "worker-1" second;
    DoRenew (ex_env 21) 0 (2 * second);
    DoAdvance (ex_env 22) 0 "succeeded" (Some (JObj [])) ].
Definition ex_finished : world := run_from ex_claimed ex_finish.

Definition ex_retire : list decision :=
  [ DoCommand (ex_env 23) (ex_idem "/withdraw" "k7")
      (CmdWithdrawAlias (WithdrawAliasIn "svc_a" "prod" "act_a" "cor_7" 1));
    DoCommand (ex_env 24) (ex_idem "/retire" "k8")
      (CmdRetireRevision (RetireRevisionIn "rev_a" 2 "act_a" "cor_8")) ].
Definition ex_retired : world := run_from ex_finished ex_retire.

Lemma ex_finish_run : rtc world_step ex_claimed ex_finished.
Proof. apply run_from_run. vm_compute. reflexivity. Qed.

Lemma ex_retire_run : rtc world_step ex_finished ex_retired.
Proof. apply run_from_run. vm_compute. reflexivity. Qed.

Lemma ex_finished_reachable : reachable ex_finished.
Proof. unfold reachable. etrans; [exact ex_claimed_reachable|exact ex_finish_run]. Qed.

Lemma ex_retired_reachable : reachable ex_retired.
Proof. unfold reachable. etrans; [exact ex_finished_reachable|exact ex_retire_run]. Qed.

Definition no_revision : revision_row := RevisionRow "" 0 "" "" [] None None None 0 0 0 0 "".
Definition no_operation : operation_row :=
  OperationRow "" "" "" "" 0 0 0 None 0 None 0 0 None None None "" "" None None 0 0 0.

Definition ex_revision : revision_row :=
  default no_revision (db_revisions (w_db ex_retired) !! ("iso_a", "rev_a")).
Definition ex_operation (w : world) : operation_row :=
  default no_operation (db_invocation_ops (w_db w) !! ex_op_key).

Lemma unpublished_revision_quiescent_witness :
  rev_state ex_revision = "retired" ∧
  (∀ service name a, db_aliases (w_db ex_retired) !! ("iso_a", service, name) = Some a →
     als_revision_id a = "rev_a" → is_Some (als_withdrawn_at a)).
Proof.
  split; [vm_compute; reflexivity|].
  apply (unpublished_revision_quiescent ex_retired "iso_a" "rev_a" ex_revision).
  - exact ex_retired_reachable.
  - vm_compute. reflexivity.
  - apply (bool_decide_unpack _). vm_compute. exact I.
Defined.

Lemma invocation_runs_legal_witness :
  ∃ row', db_invocation_ops (w_db ex_finished) !! ex_op_key = Some row'
    ∧ op_resource_id row' = op_resource_id (ex_operation ex_claimed)
    ∧ rtc invocation_step (op_observed_state (ex_operation ex_claimed)) (op_observed_state row').
Proof.
  apply (invocation_runs_legal ex_claimed ex_finished ex_op_key (ex_operation ex_claimed)
    ex_claimed_reachable ex_finish_run). vm_compute. reflexivity.
Defined.

Lemma settled_invocation_final_witness :
  ∃ row' inv, db_invocation_ops (w_db ex_retired) !! ex_op_key = Some row'
    ∧ op_observed_state row' = op_observed_state (ex_operation ex_finished)
    ∧ db_invocations (w_db ex_retired) !! (ex_op_key.1, op_resource_id (ex_operation ex_finished)) = Some inv
    ∧ inv_state inv = op_observed_state (ex_operation ex_finished).
Proof.
  apply (settled_invocation_final ex_finished ex_retired ex_op_key (ex_operation ex_finished)
    ex_finished_reachable ex_retire_run).
  - vm_compute. reflexivity.
  - left. vm_compute. reflexivity.
Defined.

Definition invocation_terminals : list string := ["succeeded"; "failed"; "cancelled"; "waiting"].

Lemma claimNext_first_witness :
  match claimNext (ex_env 14) OperationKindInvocation any_scope "worker-1" second (w_db ex_invoked) with
  | Ok (d', Some c) => ∃ row, db_invocation_ops (w_db ex_invoked) !! claim_key c = Some row
      ∧ c_FencingToken c = (op_lease_token row + 1)%Z
  | _ => False
  end.
Proof.
  pose proof (claimNext_first (ex_env 14) OperationKindInvocation InvocationOps invocation_terminals any_scope
    "worker-1" second (w_db ex_invoked) eq_refl) as P. cbv zeta in P.
  assert (S : match claimNext (ex_env 14) OperationKindInvocation any_scope "worker-1" second
                      (w_db ex_invoked) with Ok (_, Some _) => true | _ => false end = true)
    by (vm_compute; reflexivity).
  destruct (claimNext _ _ _ _ _ _) as [[d' [c|]]|]; [|discriminate S|discriminate S].
  destruct P as (row & Hr & _ & _ & _ & _ & _ & Ht & _). exists row. split; [exact Hr|exact Ht].
Defined.

Lemma live_lease_exclusive_witness :
  claim_update OperationKindInvocation InvocationOps "worker-2" second 15 ex_op_key (w_db ex_claimed)
  = (w_db ex_claimed, None).
Proof.
  apply (live_lease_exclusive OperationKindInvocation InvocationOps "worker-2" second 15 ex_op_key
    (w_db ex_claimed) (ex_operation ex_claimed) (14 + second)).
  - vm_compute. reflexivity.
  - vm_compute. reflexivity.
  - unfold second. lia.
Defined.

Definition ex_grant : db * option OperationClaim :=
  claim_update OperationKindInvocation InvocationOps "worker-1" second 14 ex_op_key (w_db ex_invoked).

Lemma claim_lease_bounds_witness :
  (14 < c_LeaseExpiresAt (default no_claim ex_grant.2) ≤ 14 + second)%Z.
Proof.
  apply (claim_lease_bounds OperationKindInvocation InvocationOps "worker-1" second 14 ex_op_key
    (w_db ex_invoked) ex_grant.1 (default no_claim ex_grant.2)).
  - unfold second. lia.
  - apply (granted_eq ex_grant). vm_compute. reflexivity.
Defined.

Definition ex_renewal : result (db * OperationClaim) := RenewLease (ex_env 15) ex_claim (2 * second) (w_db ex_claimed).

Lemma renewal_bounds_witness :
  c_FencingToken (from_ok (empty_db, no_claim) ex_renewal).2 = c_FencingToken ex_claim.
Proof.
  destruct (renewal_bounds (ex_env 15) ex_claim (2 * second) (w_db ex_claimed)
    (from_ok (empty_db, no_claim) ex_renewal).1 (from_ok (empty_db, no_claim) ex_renewal).2)
    as (t & ts & row & cur & _ & _ & _ & _ & Ht & _).
  - rewrite <- surjective_pairing. apply (from_ok_eq (empty_db, no_claim) ex_renewal). vm_compute. reflexivity.
  - exact Ht.
Defined.

Definition ex_alias : Idempotency := ex_idem "/alias2" "k9".
Definition ex_alias_command : command :=
  CmdAssignAlias (AssignAliasIn "als_b" "svc_a" "next" "rev_a" None "act_a" "cor_9").
Definition ex_first : result (db * CommandResult) :=
  run_command (ex_env 30) ex_alias ex_alias_command (w_db ex_claimed).

Lemma command_replay_witness :
  run_command (ex_env 99) ex_alias ex_alias_command (from_ok no_result ex_first).1
  = Ok ((from_ok no_result ex_first).1,
        CmdResult (cr_Status (from_ok no_result ex_first).2) (cr_Body (from_ok no_result ex_first).2) true).
Proof.
  apply (command_replay (ex_env 30) ex_alias ex_alias_command (w_db ex_claimed)
    (from_ok no_result ex_first).1 (from_ok no_result ex_first).2 []
    (World (from_ok no_result ex_first).1 []) (ex_env 99)).
  - rewrite <- surjective_pairing. apply (from_ok_eq no_result ex_first). vm_compute. reflexivity.
  - apply rtc_refl.
Defined.

(** The invocation fails at its deadline and an operator repairs it. *)
Definition ex_failed : world :=
  run_from ex_claimed [DoFail (ex_env 15) 0 OperationFailureRuntime].
Definition ex_repair : result db :=
  RepairOperation (ex_env 40) OperationKindInvocation "iso_a" ex_op_key.2 "op_a" "restored" "dd-1" (200 * second)
    (w_db ex_failed).

Lemma repair_replay_witness :
  RepairOperation (ex_env 50) OperationKindInvocation "iso_a" ex_op_key.2 "op_a" "restored" "dd-1" (200 * second)
    (from_ok empty_db ex_repair) = Ok (from_ok empty_db ex_repair).
Proof.
  apply (repair_replay (ex_env 40) OperationKindInvocation "iso_a" ex_op_key.2 "op_a" "restored" "dd-1"
    (200 * second) (w_db ex_failed) (from_ok empty_db ex_repair) [] (World (from_ok empty_db ex_repair) [])).
  - apply (from_ok_eq empty_db ex_repair). vm_compute. reflexivity.
  - apply rtc_refl.
  - unfold second. simpl. lia.
Defined.

Lemma event_log_contiguous_witness :
  event_log_ok (db_events (w_db ex_finished))
  ∧ db_events (w_db ex_claimed) `prefix_of` db_events (w_db ex_finished).
Proof. apply (event_log_contiguous ex_claimed ex_finished ex_claimed_reachable ex_finish_run). Defined.

Example ex_finished_events :
  ev_type <$> db_events (w_db ex_finished)
  = ["lifecycle.accepted"; "lifecycle.running"; "lifecycle.running"; "lifecycle.running"; "lifecycle.succeeded"].
Proof. vm_compute. reflexivity. Qed.
