(* ===== verification/ApprovalExamples.v ===== *)
(** * A concrete run with an approval

    An invocation is started and runs; its agent asks for an approval, a user
    approves, the worker begins the delivery.  The witnesses of the approval
    theorems are evaluated on its states. *)
From S2P Require Import Prelude.
From S2P Require Import GoStrings.
From S2P Require Import Sha256.
From S2P Require Import GoJson.
From S2P Require Import Domain.
From S2P Require Import RuntimeTables.
From S2P Require Import Database.
From S2P Require Import OperationStore.
From S2P Require Import Commands.
From S2P Require Import RuntimeInteraction.
From S2P Require Import RuntimeApproval.
From S2P Require Import StoreSteps.
From S2P Require Import StoreExamples.
From S2P Require Import ApprovalSpec.
From S2P Require Import ApprovalProofs.
From S2P Require Import ApprovalTheorems.
From S2P Require Import ApprovalSweep.

#[local] Instance open_schemas : SchemaEngine := {| schema_compiles := λ _, true; schema_accepts := λ _ _, true |}.

(** One event; workers act on the newest claim. *)
Inductive happening :=
  | Store (a : decision)
  | Prepare (e : env) (phase : string)
  | Record_ (e : env) (phase status : string)
  | Reserve
  | Interact (s : session) (x : OperationClaim → db → interaction).

Definition newest (w : world) : OperationClaim := default no_claim (w_claims w !! 0).
Definition effect_of (c : OperationClaim) (phase : string) (d : db) : EffectRecord :=
  from_ok (Effect "" "" "" "" "" [] "" 0 None) (getEffect d (c_IsolationDomainID c) (effect_id c phase)).

(** Calls outside the interactions are only scheduled while there are none. *)
Definition no_interactions (w : world) : bool :=
  bool_decide (size (ap (w_db w)) = 0) && bool_decide (size (rt_questions (db_runtime (w_db w))) = 0).
Definition quiet (w w' : world) : bool := no_interactions w && no_interactions w'.

Definition happens (h : happening) (w : world) : option world :=
  let d := w_db w in
  let cs := w_claims w in
  let c := newest w in
  match h with
  | Store a => w' ← perform a w; if quiet w w' then Some w' else None
  | Prepare e phase =>
      match PrepareEffect e c phase [] d with
      | Ok (d', _) => if quiet w (World d' cs) then Some (World d' cs) else None
      | Err _ => None
      end
  | Record_ e phase status =>
      match RecordEffect e (effect_of c phase d) status None "" d with
      | Ok d' => if quiet w (World d' cs) then Some (World d' cs) else None
      | Err _ => None
      end
  | Reserve =>
      Some (World (set_attempts {[claim_key c := MkAttempt (c_IsolationDomainID c) (c_ID c)
        (effect_id c "run-invocation") (c_LeaseOwner c) (c_FencingToken c) "reserved" None]} d) cs)
  | Interact s x => match run_interaction s (x c d) d with Ok d' => Some (World d' cs) | Err _ => None end
  end.

(** A session whose statements all run at one time. *)
Definition at_time (t : Z) : session := Session (λ _, t) (λ _, t) (λ _, []).

Definition allowed (t : Z) (h : happening) : Prop :=
  match h with Interact s _ => ∀ i, ses_clock s i = t | _ => True end.

Lemma no_interactions_empty w :
  no_interactions w = true → ap (w_db w) = ∅ ∧ rt_questions (db_runtime (w_db w)) = ∅.
Proof.
  intros [A%bool_decide_eq_true Q%bool_decide_eq_true]%andb_true_iff. by apply map_size_empty_inv in A, Q.
Qed.

Lemma quiet_step t t' w w' : (t ≤ t')%Z → world_step w w' → quiet w w' = true → timed_step (t, w) (t', w').
Proof.
  intros Ht S [[A Q]%no_interactions_empty [A' Q']%no_interactions_empty]%andb_true_iff.
  apply timed_other; [done|done|by rewrite A, A'|by rewrite Q, Q'].
Qed.

Lemma happens_step t t' h w w' :
  (t ≤ t')%Z → allowed t' h → (w_claims w ≠ [] ∨ match h with Prepare _ _ => False | _ => True end) →
  happens h w = Some w' → timed_step (t, w) (t', w').
Proof.
  destruct w as [d cs]. intros Ht Ha Hc. destruct h as [a|e phase|e phase status| |s x]; simpl.
  - intros (w1 & Hp & Hq)%bind_Some. destruct (quiet _ _) eqn:E; [|done]. injection Hq as ->.
    apply quiet_step; [done|by eapply perform_step|done].
  - destruct (PrepareEffect _ _ _ _ _) as [[d' f]|] eqn:E; [|done]. destruct (quiet _ _) eqn:Q; [|done].
    intros [= <-]. apply quiet_step; [done| |done]. destruct Hc as [Hc|[]].
    destruct cs as [|c cs]; [done|]. eapply step_prepare; [|exact E]. simpl. by left.
  - destruct (RecordEffect _ _ _ _ _ _) as [d'|] eqn:E; [|done]. destruct (quiet _ _) eqn:Q; [|done].
    intros [= <-]. apply quiet_step; [done|by eapply step_record|done].
  - intros [= <-]. apply timed_other; [done|apply step_attempts|done|done].
  - destruct (run_interaction _ _ _) as [d'|] eqn:E; [|done]. intros [= <-].
    eapply timed_interaction; [|exact E]. simpl in Ha. split_and!; [by rewrite Ha|intros i; by rewrite !Ha|intros i; by rewrite Ha].
Qed.

Fixpoint happen_all (t : Z) (l : list (Z * happening)) (w : world) : option (Z * world) :=
  match l with
  | [] => Some (t, w)
  | (t', h) :: rest =>
      if decide (t ≤ t')%Z then
        match h, w_claims w with
        | Prepare _ _, [] => None
        | _, _ => w' ← happens h w; happen_all t' rest w'
        end
      else None
  end.

Lemma happen_all_run t l w t' w' :
  Forall (λ p, allowed p.1 p.2) l → happen_all t l w = Some (t', w') → rtc timed_step (t, w) (t', w').
Proof.
  revert t w. induction l as [|[t1 h] l IH]; intros t w Hl; simpl; [intros [= -> ->]; constructor|].
  apply Forall_cons in Hl as [Hh Hl]. case_decide; [|done]. intros Hx.
  assert (Hc : w_claims w ≠ [] ∨ match h with Prepare _ _ => False | _ => True end)
    by (destruct h, (w_claims w); simpl; auto).
  assert (Hx' : (w1 ← happens h w; happen_all t1 l w1) = Some (t', w')) by (destruct h, (w_claims w); done).
  apply bind_Some in Hx' as (w1 & Hw1 & Hrest).
  eapply rtc_l; [by eapply happens_step|by apply IH].
Qed.

(** ** The run *)

Definition ex_iso := "iso_00000000000000000001".
Definition ex_inv := "inv_00000000000000000001".
Definition ex_cor := "cor_00000000000000000001".
Definition iso_idem (path key : string) : Idempotency := Idem ex_iso "POST" path key [].

Definition claim_invocation (t : Z) : Z * happening :=
  (t, Store (DoClaim (ex_env t) OperationKindInvocation any_scope "worker-1" (10 * second))).

Definition run_setup : list (Z * happening) :=
  [ (1, Store (DoCommand (ex_env 1) (iso_idem "/services" "k1")
      (CmdCreateService (CreateServiceIn "" "svc_00000000000000000001" "Service" "" "act_a" ex_cor))));
    (2, Store (DoCommand (ex_env 2) (iso_idem "/revisions" "k2")
      (CmdCreateRevision (CreateRevisionIn "rev_00000000000000000001" "svc_00000000000000000001" "reference/v1" [] None None "act_a" ex_cor))));
    (3, Store (DoCommand (ex_env 3) (iso_idem "/publish" "k3")
      (CmdAcceptPublication (AcceptPublicationIn "rev_00000000000000000001" 1 "act_a" ex_cor (100 * second)) ∅)));
    (4, Store (DoClaim (ex_env 4) OperationKindPublication any_scope "worker-1" second));
    (5, Store (DoAdvance (ex_env 5) 0 "validating" None));
    (6, Store (DoClaim (ex_env 6) OperationKindPublication any_scope "worker-1" second));
    (7, Store (DoAdvance (ex_env 7) 0 "applying" None));
    (8, Store (DoClaim (ex_env 8) OperationKindPublication any_scope "worker-1" second));
    (9, Store (DoAdvance (ex_env 9) 0 "observing" None));
    (10, Store (DoClaim (ex_env 10) OperationKindPublication any_scope "worker-1" second));
    (11, Store (DoAdvance (ex_env 11) 0 "published" None));
    (12, Store (DoCommand (ex_env 12) (iso_idem "/alias" "k4")
      (CmdAssignAlias (AssignAliasIn "als_a" "svc_00000000000000000001" "prod" "rev_00000000000000000001" None "act_a" ex_cor))));
    (13, Store (DoCommand (ex_env 13) (iso_idem "/invoke" "k5")
      (CmdAcceptInvocation (AcceptInvocationIn ex_inv "svc_00000000000000000001" "prod" (JObj []) "act_a" ex_cor (100 * second) None))));
    claim_invocation 14;
    (15, Store (DoAdvance (ex_env 15) 0 "starting" None));
    claim_invocation 16;
    (17, Prepare (ex_env 17) "start-invocation");
    (18, Record_ (ex_env 18) "start-invocation" "succeeded");
    (19, Store (DoAdvance (ex_env 19) 0 "running" None));
    claim_invocation 20;
    (21, Prepare (ex_env 21) "run-invocation");
    (22, Reserve) ]%Z.

Definition no_target : InvocationRuntimeTarget := MkRuntimeTarget "" "" "" "" "" "" "" 0 JNull "" None.
Definition ex_target (c : OperationClaim) (d : db) : InvocationRuntimeTarget :=
  from_ok no_target (getInvocationRuntimeTarget (c_IsolationDomainID c) (c_ID c) d).
Definition run_effect (c : OperationClaim) (d : db) : EffectRecord := effect_of c "run-invocation" d.
Definition ex_request : InvocationRuntimeApprovalRequest := MkApprovalRequest None 1 "process.execute".
Definition ex_approval_id (c : OperationClaim) (d : db) : string := approval_id (ex_target c d) ex_request.
Definition ex_resolution (c : OperationClaim) (d : db) (decision : string) : InvocationRuntimeApprovalResolution :=
  MkApprovalResolution ex_iso ex_inv (ex_approval_id c d) 1 decision "user_a" ex_cor.

Definition ask : Z * happening :=
  (30%Z, Interact (at_time 30) (λ c d, RequestApproval c (run_effect c d) (ex_target c d) ex_request)).
Definition approve : Z * happening :=
  (31%Z, Interact (at_time 31) (λ c d, ResolveApproval (ex_resolution c d "approve"))).
Definition deliver : Z * happening :=
  (32%Z, Interact (at_time 32) (λ c d, BeginApproval c (run_effect c d) (ex_approval_id c d) "approve")).

Definition reach (l : list (Z * happening)) : Z * world := default (0%Z, initial_world) (happen_all 0 l initial_world).

Definition ex_asked : Z * world := reach (run_setup ++ [ask]).
Definition ex_approved : Z * world := reach (run_setup ++ [ask; approve]).
Definition ex_delivering : Z * world := reach (run_setup ++ [ask; approve; deliver]).

Lemma reach_run l :
  Forall (λ p, allowed p.1 p.2) l → bool_decide (is_Some (happen_all 0 l initial_world)) = true →
  rtc timed_step (0%Z, initial_world) (reach l).
Proof.
  intros Hl E%bool_decide_eq_true. unfold reach. destruct (happen_all 0 l initial_world) as [[t w]|] eqn:R; [|by destruct E].
  by eapply happen_all_run.
Qed.

Ltac reached := unfold ex_asked, ex_approved, ex_delivering; apply reach_run;
  [unfold run_setup; cbn [app]; repeat (apply Forall_cons; split; [first [exact I|intros ?; reflexivity]|]);
   apply Forall_nil; exact I
  |vm_compute; reflexivity].

Lemma ex_asked_run : rtc timed_step (0%Z, initial_world) ex_asked.
Proof. reached. Qed.
Lemma ex_approved_run : rtc timed_step (0%Z, initial_world) ex_approved.
Proof. reached. Qed.
Lemma ex_delivering_run : rtc timed_step (0%Z, initial_world) ex_delivering.
Proof. reached. Qed.

Definition states (x : Z * world) : list (string * Z) :=
  (λ kv, (apr_State kv.2, apr_Version kv.2)) <$> map_to_list (ap (w_db x.2)).

Example ex_states :
  states ex_asked = [("pending", 1%Z)] ∧ states ex_approved = [("resolved", 2%Z)]
  ∧ states ex_delivering = [("delivering", 3%Z)].
Proof. vm_compute. auto. Qed.

(** ** Witnesses *)

Definition no_approval : InvocationRuntimeApproval :=
  MkApproval "" "" "" "" "" "" "" "" 0 "" "" 0 "" "" "" "" None None 0 0 None None "".
Definition ex_key (x : Z * world) : key := (ex_iso, ex_approval_id (newest x.2) (w_db x.2)).
Definition ex_row (x : Z * world) : InvocationRuntimeApproval := default no_approval (ap (w_db x.2) !! ex_key x).

Lemma at_time_within t t' t'' : (t ≤ t' ≤ t'')%Z → session_within t t'' (at_time t').
Proof. intros. unfold session_within, at_time. simpl. split_and!; intros; lia. Qed.

Lemma approval_rows_wellformed_witness :
  getInvocationRuntimeApproval (ex_key ex_approved).1 (ex_key ex_approved).2 (w_db ex_approved.2)
  = Ok (Some (ex_row ex_approved)).
Proof.
  refine (proj1 (approval_rows_wellformed 0 ex_approved.1 ex_approved.2 (ex_key ex_approved) (ex_row ex_approved) _ _)).
  - rewrite <- surjective_pairing. exact ex_approved_run.
  - vm_compute. reflexivity.
Defined.

Lemma some_default {A} (dflt : A) (o : option A) : bool_decide (is_Some o) = true → o = Some (default dflt o).
Proof. intros E%bool_decide_eq_true. destruct o; [done|by destruct E]. Qed.

Definition ex_after : world := default initial_world (happens deliver.2 ex_approved.2).

Lemma approvals_refine_witness :
  rtc approval_step (ex_approved.1, ap (w_db ex_approved.2)) (32%Z, ap (w_db ex_after)).
Proof.
  apply (approvals_refine 0 ex_approved.1 ex_approved.2 32 ex_after).
  - rewrite <- surjective_pairing. exact ex_approved_run.
  - apply (happens_step ex_approved.1 32 deliver.2).
    + vm_compute. discriminate.
    + intros i. reflexivity.
    + right. exact I.
    + apply (some_default initial_world (happens deliver.2 ex_approved.2)). vm_compute. reflexivity.
Defined.

#[local] Abbreviation ex_begun :=
  (BeginInvocationRuntimeApprovalDelivery (at_time 32) (newest ex_approved.2)
    (run_effect (newest ex_approved.2) (w_db ex_approved.2)) (ex_key ex_approved).2 "approve" (w_db ex_approved.2)).

Lemma approval_delivered_once_witness :
  ∃ v2, ap (from_ok (empty_db, no_approval) ex_begun).1
          !! (c_IsolationDomainID (newest ex_approved.2), (ex_key ex_approved).2) = Some v2
    ∧ apr_EffectiveDecision v2 = "approve".
Proof.
  destruct (approval_delivered_once 0 ex_approved.1 ex_approved.2 (at_time 32) (newest ex_approved.2)
    (run_effect (newest ex_approved.2) (w_db ex_approved.2)) (ex_key ex_approved).2 "approve"
    (from_ok (empty_db, no_approval) ex_begun).1 (from_ok (empty_db, no_approval) ex_begun).2 32 32
    (World (from_ok (empty_db, no_approval) ex_begun).1 (w_claims ex_approved.2)))
    as (_ & (v2 & Hv & _ & He & _) & _).
  - rewrite <- surjective_pairing. exact ex_approved_run.
  - apply at_time_within. vm_compute. split; discriminate.
  - rewrite <- surjective_pairing. apply from_ok_eq. vm_compute. reflexivity.
  - apply rtc_refl.
  - cbn [w_db] in Hv. exists v2. split; [exact Hv|exact He].
Defined.

#[local] Abbreviation ex_resolved :=
  (resolveInvocationRuntimeApproval (at_time 31)
    (ex_resolution (newest ex_asked.2) (w_db ex_asked.2) "approve") None (w_db ex_asked.2)).

Lemma approval_decision_binding_witness :
  ∃ v2, ap (from_ok (empty_db, no_approval) ex_resolved).1 !! ex_key ex_asked = Some v2
    ∧ apr_Decision v2 = "approve".
Proof.
  destruct (approval_decision_binding 0 ex_asked.1 ex_asked.2 (at_time 31)
    (ex_resolution (newest ex_asked.2) (w_db ex_asked.2) "approve") None
    (from_ok (empty_db, no_approval) ex_resolved).1 (from_ok (empty_db, no_approval) ex_resolved).2 31 31
    (World (from_ok (empty_db, no_approval) ex_resolved).1 (w_claims ex_asked.2)))
    as (v2 & Hv & _ & Hd & _).
  - rewrite <- surjective_pairing. exact ex_asked_run.
  - apply at_time_within. vm_compute. split; discriminate.
  - vm_compute. reflexivity.
  - rewrite <- surjective_pairing. apply from_ok_eq. vm_compute. reflexivity.
  - apply rtc_refl.
  - cbn [w_db] in Hv. exists v2. split; [exact Hv|exact Hd].
Defined.

(** Much later, after the expiry, the sweep closes the approval. *)
Definition late : Z := (200 * second)%Z.
#[local] Abbreviation ex_sweep :=
  (ExpireInvocationRuntimeApprovals (at_time late) no_locks ex_iso "expiry" ex_cor 100 (w_db ex_approved.2)).

Lemma wait_after x y t' : rtc timed_step x y → (y.1 ≤ t')%Z → rtc timed_step x (t', y.2).
Proof.
  destruct y as [t w]. simpl. intros R Ht. eapply rtc_r; [exact R|]. apply timed_other; [done| |done|done].
  destruct w as [d cs]. assert (E : d = set_attempts (rt_attempts (db_runtime d)) d) by (by destruct d as [????????????? ? []]).
  rewrite E at 2. apply step_attempts.
Qed.

Lemma interact_timed t t' s x w d' :
  session_within t t' s → run_interaction s x (w_db w) = Ok d' → timed_step (t, w) (t', World d' (w_claims w)).
Proof. destruct w. by apply timed_interaction. Qed.

Lemma committed_from_ok {A} dflt (r : result (db * A)) : is_ok r = true → committed r = Ok (from_ok dflt r).1.
Proof. by destruct r as [[? ?]|]. Qed.

Lemma ex_waited : rtc timed_step (0%Z, initial_world) (late, ex_approved.2).
Proof. apply wait_after; [exact ex_approved_run|]. vm_compute. discriminate. Qed.

Lemma approval_expired_inert_witness :
  ∃ v', ap (from_ok (empty_db, 0) ex_sweep).1 !! ex_key ex_approved = Some v'
    ∧ (v' = ex_row ex_approved ∨ apr_CloseReason v' = "expired").
Proof.
  destruct (approval_expired_inert 0 late ex_approved.2 late
    (World (from_ok (empty_db, 0) ex_sweep).1 (w_claims ex_approved.2)) (ex_key ex_approved) (ex_row ex_approved)
    (100 * second)) as (v' & Hv & Hc).
  - exact ex_waited.
  - vm_compute. reflexivity.
  - vm_compute. reflexivity.
  - vm_compute. discriminate.
  - apply rtc_once, (interact_timed late late (at_time late) (ExpireApprovals no_locks ex_iso "expiry" ex_cor 100)).
    + apply at_time_within. lia.
    + apply (committed_from_ok (empty_db, 0) ex_sweep). vm_compute. reflexivity.
  - cbn [w_db] in Hv. exists v'. split; [exact Hv|]. destruct Hc as [Hc|(Hc & _)]; [left; exact Hc|right; exact Hc].
Defined.

Lemma world_eta w : World (w_db w) (w_claims w) = w.
Proof. by destruct w. Qed.

Lemma nothing_held scope t0 d : unobstructed no_locks scope t0 d.
Proof. done. Qed.

Lemma expiry_sweeps_drain_witness :
  size (backlog ex_iso late (w_db ex_approved.2)) = 1
  ∧ size (backlog ex_iso late (from_ok (empty_db, 0) ex_sweep).1) = 0.
Proof.
  assert (E : size (backlog ex_iso late (w_db ex_approved.2)) = 1) by (vm_compute; reflexivity).
  split; [exact E|].
  destruct (expiry_sweeps_drain ex_iso 0 late ex_approved.2 1 late
    (World (from_ok (empty_db, 0) ex_sweep).1 (w_claims ex_approved.2))) as (_ & Hc & _).
  - exact ex_waited.
  - apply (sweeping_sweep _ _ _ 0 late (w_db ex_approved.2) (w_claims ex_approved.2) (at_time late) no_locks
      "expiry" ex_cor 100 late _ 1).
    + rewrite world_eta. apply sweeping_none.
    + apply at_time_within. lia.
    + apply nothing_held.
    + apply (from_ok_pair (empty_db, 0) ex_sweep); vm_compute; reflexivity.
  - rewrite E in Hc. apply Nat.le_0_r. exact Hc.
Defined.

(** The delivery has begun; whether the runtime received the decision is unknown. *)
Lemma begin_delivery_outcome_witness :
  BeginInvocationRuntimeApprovalDelivery (at_time 33) (newest ex_delivering.2)
    (run_effect (newest ex_delivering.2) (w_db ex_delivering.2)) (ex_key ex_delivering).2 "approve"
    (w_db ex_delivering.2)
  = begin_answer (at_time 33) "approve" (c_IsolationDomainID (newest ex_delivering.2), (ex_key ex_delivering).2)
      (ex_row ex_delivering) (w_db ex_delivering.2).
Proof.
  apply (begin_delivery_outcome (at_time 33) (newest ex_delivering.2)
    (run_effect (newest ex_delivering.2) (w_db ex_delivering.2)) (ex_key ex_delivering).2 "approve"
    (w_db ex_delivering.2) (ex_row ex_delivering)).
  - vm_compute. reflexivity.
  - vm_compute. reflexivity.
  - vm_compute. reflexivity.
  - apply lock_same. vm_compute. reflexivity.
  - apply (some_default no_approval (ap (w_db ex_delivering.2) !! ex_key ex_delivering)). vm_compute. reflexivity.
  - vm_compute. reflexivity.
  - vm_compute. reflexivity.
Defined.
