(* ===== verification/QuestionTheorems.v ===== *)
(** * What holds of runtime questions

    Every stored question can be read; an answer that was accepted is the answer;
    it is delivered at most once, and never after the expiry. *)
From S2P Require Import Prelude.
From S2P Require Import GoStrings.
From S2P Require Import Sha256.
From S2P Require Import GoJson.
From S2P Require Import Domain.
From S2P Require Import Questions.
From S2P Require Import RuntimeTables.
From S2P Require Import Database.
From S2P Require Import OperationStore.
From S2P Require Import Commands.
From S2P Require Import RuntimeInteraction.
From S2P Require Import RuntimeQuestion.
From S2P Require Import StoreSteps.
From S2P Require Import ApprovalSpec.
From S2P Require Import ApprovalProofs.
From S2P Require Import QuestionProofs.
From S2P Require Import StoreExamples.
From S2P Require Import ApprovalExamples.

(** ** Consequences of the trigger *)

Definition question_delivery_states : list string := ["delivering"; "delivered"; "delivery_unknown"].

Lemma question_steps_trigger m m' k v :
  rtc question_step m m' → map_Forall question_ok m → m !! k = Some v →
  ∃ v', m' !! k = Some v' ∧ rtc question_trigger v v'.
Proof.
  intros R. revert v. induction R as [m|m m1 m2 S _ IH]; intros v OK Hk; [by exists v|].
  destruct (question_step_trigger _ _ _ _ S OK Hk) as (v1 & Hk1 & Hv1).
  destruct (IH v1) as (v2 & Hk2 & Hv2); [by eapply question_step_ok|done|].
  exists v2. split; [done|]. destruct Hv1 as [->|T]; [done|by eapply rtc_l].
Qed.

Lemma question_triggers_answer v v' :
  rtc question_trigger v v' → qst_State v ≠ "pending" →
  answer_of v' = answer_of v ∧ qst_State v' ≠ "pending" ∧ same_question v v'.
Proof.
  induction 1 as [|v v1 v2 (Hs & _ & Hm & Ha & _) _ IH]; [done|]. intros Hp.
  assert (Hp1 : qst_State v1 ≠ "pending") by (intros E; rewrite E in Hm; by member_cases Hm).
  destruct (IH Hp1) as (E & Hp2 & Hs2). split_and!; [|done|unfold same_question in *; congruence].
  rewrite E. apply Ha. by intros [= ? _].
Qed.

Lemma question_triggers_delivery v v' :
  rtc question_trigger v v' → qst_State v ∈ question_delivery_states → qst_State v' ∈ question_delivery_states.
Proof.
  induction 1 as [|v v1 v2 (_ & _ & Hm & _) _ IH]; [done|]. intros Hd. apply IH. unfold question_delivery_states in *.
  destruct (qst_State v) eqn:E; member_cases Hm; by (set_solver || (exfalso; by member_cases Hd)).
Qed.

(** Answering again, in the same way, what is answered. *)
Lemma answer_replays s a authorize d v :
  is_Some (db_invocations d !! (qan_IsolationDomainID a, qan_InvocationID a)) →
  qu d !! (qan_IsolationDomainID a, qan_QuestionID a) = Some v → question_readable v = true →
  qst_InvocationID v = qan_InvocationID a → ValidateQuestionAnswers (qst_Prompts v) (qan_Answers a) = Ok tt →
  qst_Answers v ≠ [] → qst_AnsweredBy v = qan_ActorID a → qan_ExpectedVersion a = 1%Z →
  same_answers (qst_Answers v) (qan_Answers a) = true →
  authorize (candidate_question v (qst_Answers v) (qst_AnsweredBy v) (qan_CorrelationID a)) InvocationQuestionEntry = None →
  answerInvocationRuntimeQuestion s a authorize d = Ok (d, v).
Proof.
  intros Hi Hv Hr Hinv Hva Hne Hby Hver Hsame Hau. unfold answerInvocationRuntimeQuestion, existing_question.
  cbv [mbind tx_bind mret tx_ret gets query reject_if]. rewrite (bool_decide_eq_true_2 _ Hi). simpl.
  unfold getInvocationRuntimeQuestion. rewrite Hv, Hr. rewrite bool_decide_eq_false_2 by tauto. rewrite Hva. simpl.
  rewrite decide_True by done. rewrite bool_decide_eq_false_2 by (rewrite Hby, Hver; tauto). rewrite Hsame. simpl.
  unfold authorize_question. by rewrite Hau.
Qed.

Lemma question_ok_readable k v : question_ok k v → question_readable v = true.
Proof.
  intros (_ & Hp & Ha & _). unfold question_readable. rewrite Hp. simpl. apply orb_true_iff.
  destruct Ha as [->|Ha]; [by left|right]. by rewrite Ha.
Qed.

Section theorems.
Context `{SchemaEngine}.

(** Question rows are well formed in every reachable store: each one can be
    read, and it carries answers that fit its own prompts exactly when it has been
    answered: never while it is pending, always from [answered] to the end of the
    delivery. *)
Theorem question_rows_wellformed t0 t w k v :
  rtc timed_step (t0, initial_world) (t, w) → qu (w_db w) !! k = Some v →
  getInvocationRuntimeQuestion k.1 k.2 (w_db w) = Ok (Some v)
  ∧ ValidateQuestionPrompts (qst_Prompts v) = Ok tt
  ∧ (qst_State v = "pending" → qst_Answers v = [] ∧ qst_Version v = 1%Z)
  ∧ (qst_State v ∈ "answered" :: question_delivery_states →
       ValidateQuestionAnswers (qst_Prompts v) (qst_Answers v) = Ok tt).
Proof.
  intros R Hk. apply questions_reachable_ok in R. pose proof (R _ _ Hk) as Hok. split_and!.
  - unfold getInvocationRuntimeQuestion. rewrite <- surjective_pairing, Hk. by rewrite (question_ok_readable _ _ Hok).
  - apply Hok.
  - apply Hok.
  - destruct Hok as (_ & _ & [E|Ha] & _ & Hs & _); [|done]. intros Hst. by apply Hs in Hst.
Qed.

(** An accepted answer is binding: it fits the prompts, it stays the recorded
    answer with its author in every later state, any later answer to the question
    that is accepted encodes to the same JSON, comes from the same user and changes
    nothing, and repeating the original answer is accepted whenever the authoriser
    agrees. *)
Theorem question_answer_binding t0 t w s a authorize d1 v t1 t2 w2 :
  rtc timed_step (t0, initial_world) (t, w) →
  answerInvocationRuntimeQuestion s a authorize (w_db w) = Ok (d1, v) → qan_ExpectedVersion a = 1%Z →
  rtc timed_step (t1, World d1 (w_claims w)) (t2, w2) →
  ∃ v2, qu (w_db w2) !! (qan_IsolationDomainID a, qan_QuestionID a) = Some v2
    ∧ answer_of v2 = answer_of v ∧ qst_AnsweredBy v2 = qan_ActorID a
    ∧ ValidateQuestionAnswers (qst_Prompts v2) (qst_Answers v2) = Ok tt
    ∧ (∀ s' a' authorize' d3 v3,
         qan_IsolationDomainID a' = qan_IsolationDomainID a → qan_QuestionID a' = qan_QuestionID a →
         answerInvocationRuntimeQuestion s' a' authorize' (w_db w2) = Ok (d3, v3) →
         d3 = w_db w2 ∧ v3 = v2 ∧ qan_ActorID a' = qan_ActorID a
         ∧ same_answers (qst_Answers v2) (qan_Answers a') = true)
    ∧ (∀ s' check, is_Some (db_invocations (w_db w2) !! (qan_IsolationDomainID a, qan_InvocationID a)) →
         check (candidate_question v2 (qst_Answers v2) (qst_AnsweredBy v2) (qan_CorrelationID a)) InvocationQuestionEntry
           = None →
         answerInvocationRuntimeQuestion s' a check (w_db w2) = Ok (w_db w2, v2)).
Proof.
  intros R Ha Hver Run. apply questions_reachable_ok in R as OK. set (k := (qan_IsolationDomainID a, qan_QuestionID a)).
  apply answer_refines in Ha as Hsteps; [|done]. apply question_steps_ok in Hsteps as OK1; [|done].
  apply question_timed_run in Run as [Hrun OK2]; [|done]. simpl in Hrun.
  apply answer_Ok in Ha as (row & Hrow & Hinv & Hva & Hcase); [|done]. fold k in Hrow, Hcase.
  assert (Hv1 : qu d1 !! k = Some v ∧ qst_State v ≠ "pending" ∧ qst_InvocationID v = qan_InvocationID a
    ∧ qst_Prompts v = qst_Prompts row ∧ qst_AnsweredBy v = qan_ActorID a ∧ qst_Answers v ≠ []
    ∧ same_answers (qst_Answers v) (qan_Answers a) = true).
  { destruct Hcase as [(Hne & -> & -> & Hby & Hsame)|(_ & _ & _ & -> & ->)].
    - split_and!; try done. intros Es. destruct (OK _ _ Hrow) as (_ & _ & _ & Hp & _). by destruct (Hp Es).
    - rewrite lookup_insert_eq. split_and!; try done; [by eapply valid_answers_nonempty|by apply bool_decide_eq_true]. }
  destruct Hv1 as (Hv1 & Hnp & Hinv1 & Hpr & Hby & Hne & Hsame).
  destruct (question_steps_trigger _ _ k v Hrun OK1 Hv1) as (v2 & Hv2 & Ht).
  destruct (question_triggers_answer _ _ Ht Hnp) as (Hans & Hnp2 & Hid).
  injection Hans as E1 E2 E3 E4. injection Hid as ? ? ? ? Einv ? ? ? ? ? ? Epr ? ?.
  exists v2. split_and!; [done|unfold answer_of; congruence|congruence| | |].
  - destruct (OK2 _ _ Hv2) as (_ & _ & [E|?] & _); [congruence|done].
  - intros s' a' authorize' d3 v3 Ed Ei (row' & Hrow' & _ & _ & Hc')%answer_Ok; [|done].
    rewrite Ed, Ei in Hrow', Hc'. fold k in Hrow', Hc'. rewrite Hv2 in Hrow'. injection Hrow' as <-.
    destruct Hc' as [(_ & -> & -> & Hby' & Hs')|(Hp & _)]; [|done]. split_and!; [done..|congruence|done].
  - intros s' check Hi Hck. apply answer_replays; try done; [by eapply question_ok_readable, OK2|congruence..].
Qed.

(** C24: an answer is handed to the runtime at most once: when the delivery of a
    question has begun (which requires recorded answers that fit the prompts, the
    authoriser's consent at the effect boundary and an unexpired question), no
    later attempt to begin it succeeds, by any claim and in any later state, and
    the answers stay as they were delivered. *)
Theorem question_delivered_once t0 t w s claim effect id authorize d1 v t1 t2 w2 :
  rtc timed_step (t0, initial_world) (t, w) →
  BeginInvocationRuntimeQuestionDelivery s claim effect id authorize (w_db w) = Ok (d1, v) →
  rtc timed_step (t1, World d1 (w_claims w)) (t2, w2) →
  ValidateQuestionAnswers (qst_Prompts v) (qst_Answers v) = Ok tt
  ∧ (∃ row, qu (w_db w) !! (c_IsolationDomainID claim, id) = Some row
       ∧ authorize row InvocationQuestionEffect = None ∧ (ses_clock s 4 < qst_ExpiresAt row)%Z
       ∧ answer_of v = answer_of row)
  ∧ (∃ v2, qu (w_db w2) !! (c_IsolationDomainID claim, id) = Some v2
       ∧ qst_State v2 ∈ question_delivery_states ∧ answer_of v2 = answer_of v)
  ∧ (∀ s' claim' effect' authorize' r, c_IsolationDomainID claim' = c_IsolationDomainID claim →
       BeginInvocationRuntimeQuestionDelivery s' claim' effect' id authorize' (w_db w2) ≠ Ok r).
Proof.
  intros R Hb Run. apply questions_reachable_ok in R as OK. set (k := (c_IsolationDomainID claim, id)).
  apply question_begin_Ok in Hb as (row & Hrow & Es & Hau & Hx & Hv & Hd1); [|done].
  assert (Hok1 : map_Forall question_ok (qu d1)).
  { eapply question_step_ok; [|exact OK]. rewrite Hd1, Hv. by apply qs_begin. }
  apply question_timed_run in Run as [Hrun OK2]; [|done]. simpl in Hrun. fold k in Hrow, Hd1.
  destruct (question_steps_trigger _ _ k v Hrun Hok1) as (v2 & Hv2 & Ht); [by rewrite Hd1, lookup_insert_eq|].
  assert (Hdel : qst_State v2 ∈ question_delivery_states).
  { apply (question_triggers_delivery _ _ Ht). rewrite Hv. by left. }
  destruct (question_triggers_answer _ _ Ht) as (Hans & _ & _); [by rewrite Hv|].
  split_and!; [|exists row; split_and!; [done..|by rewrite Hv]|by exists v2|].
  - destruct (OK _ _ Hrow) as (_ & _ & [E|Ha] & _ & Hne & _); [|by rewrite Hv].
    exfalso. apply Hne in E; [done|]. rewrite Es. by left.
  - intros s' claim' effect' authorize' [d3 v3] Ec Hb'.
    apply question_begin_Ok in Hb' as (row' & Hrow' & Es' & _); [|done]. rewrite Ec in Hrow'. fold k in Hrow'.
    rewrite Hv2 in Hrow'. injection Hrow' as <-. rewrite Es' in Hdel. by member_cases Hdel.
Qed.
End theorems.

(** * A concrete run with a question

    The invocation of [ApprovalExamples] asks a question, a user answers, the worker
    begins the delivery; the witnesses of the question theorems. *)

#[local] Existing Instance open_schemas.

Definition ex_prompt : QuestionPrompt :=
  MkPrompt "color" "Color" "Which one?" [MkOption "red" "Red" ""; MkOption "blue" "Blue" ""] false false.
Definition ex_question : InvocationRuntimeQuestionRequest :=
  MkQuestionRequest 1 [ex_prompt] (Some (90 * second)%Z).
Definition ex_question_id (c : OperationClaim) (d : db) : string := question_id (ex_target c d) ex_question.
Definition ex_answer (c : OperationClaim) (d : db) : InvocationRuntimeQuestionAnswer :=
  MkQuestionAnswer ex_iso ex_inv (ex_question_id c d) 1 [MkAnswer "color" ["red"] None] "user_a" ex_cor.
Definition consent : InvocationRuntimeQuestionAuthorizer := λ _ _, None.

Definition asks : Z * happening :=
  (30%Z, Interact (at_time 30) (λ c d, RequestQuestion c (run_effect c d) (ex_target c d) ex_question)).
Definition answers : Z * happening :=
  (31%Z, Interact (at_time 31) (λ c d, AnswerQuestion (ex_answer c d) consent)).

Definition q_asked : Z * world := reach (run_setup ++ [asks]).
Definition q_answered : Z * world := reach (run_setup ++ [asks; answers]).

Ltac q_reached := apply reach_run;
  [unfold run_setup; cbn [app]; repeat (apply Forall_cons; split; [first [exact I|intros ?; reflexivity]|]);
   apply Forall_nil; exact I
  |vm_compute; reflexivity].

Lemma q_asked_run : rtc timed_step (0%Z, initial_world) q_asked.
Proof. unfold q_asked. q_reached. Qed.
Lemma q_answered_run : rtc timed_step (0%Z, initial_world) q_answered.
Proof. unfold q_answered. q_reached. Qed.

Definition no_question : InvocationRuntimeQuestion :=
  MkQuestion "" "" "" "" "" "" "" "" 0 "" "" [] 0 "" 0 [] "" "" None None None None "" 0 0.
Definition q_key (x : Z * world) : key := (ex_iso, ex_question_id (newest x.2) (w_db x.2)).
Definition q_row (x : Z * world) : InvocationRuntimeQuestion := default no_question (qu (w_db x.2) !! q_key x).

Lemma question_rows_wellformed_witness :
  getInvocationRuntimeQuestion (q_key q_answered).1 (q_key q_answered).2 (w_db q_answered.2)
  = Ok (Some (q_row q_answered)).
Proof.
  refine (proj1 (question_rows_wellformed 0 q_answered.1 q_answered.2 (q_key q_answered) (q_row q_answered) _ _)).
  - rewrite <- surjective_pairing. exact q_answered_run.
  - apply (some_default no_question). vm_compute. reflexivity.
Defined.

#[local] Abbreviation q_answer :=
  (answerInvocationRuntimeQuestion (at_time 31) (ex_answer (newest q_asked.2) (w_db q_asked.2)) consent
     (w_db q_asked.2)).

Lemma q_answer_Ok :
  q_answer = Ok ((from_ok (empty_db, no_question) q_answer).1, (from_ok (empty_db, no_question) q_answer).2).
Proof. rewrite <- surjective_pairing. apply from_ok_eq. vm_compute. reflexivity. Qed.

Lemma q_asked_run' : rtc timed_step (0%Z, initial_world) (q_asked.1, q_asked.2).
Proof. rewrite <- surjective_pairing. exact q_asked_run. Qed.

Lemma question_answer_binding_witness :
  ∃ v2, qu (from_ok (empty_db, no_question) q_answer).1
          !! (qan_IsolationDomainID (ex_answer (newest q_asked.2) (w_db q_asked.2)),
              qan_QuestionID (ex_answer (newest q_asked.2) (w_db q_asked.2))) = Some v2
    ∧ qst_AnsweredBy v2 = qan_ActorID (ex_answer (newest q_asked.2) (w_db q_asked.2)).
Proof.
  pose proof (question_answer_binding 0 q_asked.1 q_asked.2 (at_time 31) (ex_answer (newest q_asked.2) (w_db q_asked.2))
    consent (from_ok (empty_db, no_question) q_answer).1 (from_ok (empty_db, no_question) q_answer).2 31 31
    (World (from_ok (empty_db, no_question) q_answer).1 (w_claims q_asked.2)) q_asked_run' q_answer_Ok eq_refl
    (rtc_refl _ _)) as (v2 & Hv & _ & Hb & _).
  exists v2. split; [exact Hv|exact Hb].
Defined.

#[local] Abbreviation q_begun :=
  (BeginInvocationRuntimeQuestionDelivery (at_time 32) (newest q_answered.2)
    (run_effect (newest q_answered.2) (w_db q_answered.2)) (q_key q_answered).2 consent (w_db q_answered.2)).

Lemma q_begun_Ok :
  q_begun = Ok ((from_ok (empty_db, no_question) q_begun).1, (from_ok (empty_db, no_question) q_begun).2).
Proof. rewrite <- surjective_pairing. apply from_ok_eq. vm_compute. reflexivity. Qed.

Lemma q_answered_run' : rtc timed_step (0%Z, initial_world) (q_answered.1, q_answered.2).
Proof. rewrite <- surjective_pairing. exact q_answered_run. Qed.

Lemma question_delivered_once_witness :
  ∃ v2, qu (w_db (World (from_ok (empty_db, no_question) q_begun).1 (w_claims q_answered.2)))
          !! (c_IsolationDomainID (newest q_answered.2), (q_key q_answered).2) = Some v2
    ∧ qst_State v2 ∈ question_delivery_states
    ∧ answer_of v2 = answer_of (from_ok (empty_db, no_question) q_begun).2.
Proof.
  exact (proj1 (proj2 (proj2 (question_delivered_once 0 q_answered.1 q_answered.2 (at_time 32) (newest q_answered.2)
    (run_effect (newest q_answered.2) (w_db q_answered.2)) (q_key q_answered).2 consent
    (from_ok (empty_db, no_question) q_begun).1 (from_ok (empty_db, no_question) q_begun).2 32 32
    (World (from_ok (empty_db, no_question) q_begun).1 (w_claims q_answered.2)) q_answered_run' q_begun_Ok
    (rtc_refl _ _))))).
Defined.
