(* ===== verification/Reconciler.v ===== *)
(** * The operation reconciler

    [internal/reconcile/reconciler.go]: one call of [RunOne] claims an operation
    and moves it one step, applying external effects through a driver.  The
    store and the driver are Go interfaces; here they are the classes [Store]
    and [EffectDriver] over an arbitrary world type, whose methods may change the
    world and fail in any way. *)
From S2P Require Import Prelude.
From S2P Require Import GoStrings.
From S2P Require Import Sha256.
From S2P Require Import GoJson.
From S2P Require Import Lifecycle.
From S2P Require Import Domain.
From S2P Require Import Database.
From S2P Require Import OperationStore.

(** [reconcile.Store] *)
Class Store (W : Type) := {
  ClaimNext_ : string → string → Z → io W (result (option OperationClaim));
  Advance_ : OperationClaim → string → option json → io W (result unit);
  Fail_ : OperationClaim → string → io W (result unit);
  ScheduleRetry_ : OperationClaim → string → string → Z → io W (result unit);
  PrepareEffect_ : OperationClaim → string → list N → io W (result EffectRecord);
  RecordEffect_ : EffectRecord → string → option json → string → io W (result unit);
}.

(** [reconcile.EffectDriver] with the optional interfaces a driver may also
    implement; [None] where the type assertion fails. *)
Class EffectDriver (W : Type) := {
  Observe : EffectRecord → io W (result (option json * bool));
  Apply : EffectRecord → io W (result (option json));
  ClaimedDriver : option ((OperationClaim → EffectRecord → io W (result (option json * bool)))
                          * (OperationClaim → EffectRecord → io W (result (option json))));
  PublishClaimed : option (OperationClaim → io W (result unit));
  PublishAuthorizedClaimed : option (OperationClaim → io W (result unit));
}.

(** [reconciler.now] *)
Class Clock (W : Type) := now_ : io W Z.

Definition defaultLeaseDuration : Z := 30000000.

Definition ErrAmbiguousEffect : error := ESentinel "reconcile.ErrAmbiguousEffect".
Definition ErrEffectDenied : error := ESentinel "reconcile.ErrEffectDenied".
Definition ErrEffectInvalid : error := ESentinel "reconcile.ErrEffectInvalid".
Definition ErrEffectTerminal : error := ESentinel "reconcile.ErrEffectTerminal".
Definition ErrInvocationCancellationRetentionRequired : error :=
  ESentinel "reconcile.ErrInvocationCancellationRetentionRequired".

Definition effectAllowed (claim : OperationClaim) (phase : string) : bool :=
  if decide (c_Kind claim = OperationKindPublication) then
    Publication.AllowsEffect (c_Command claim) (c_ObservedState claim) phase
  else if decide (c_Kind claim = OperationKindInvocation) then
    Invocation.AllowsEffect (c_Command claim) (c_ObservedState claim) phase
  else false.

Definition effectRejection (effect : EffectRecord) (cause : error) : option (string * string) :=
  if is_err cause ErrEffectDenied then Some (OperationFailureEffectDenied, "EXTERNAL_EFFECT_DENIED")
  else if is_err cause ErrEffectInvalid then Some (OperationFailureEffectInvalid, "EXTERNAL_EFFECT_INVALID")
  else if is_err cause ErrEffectTerminal
          && bool_decide (e_OperationKind effect = OperationKindInvocation)
          && bool_decide (e_Phase effect = "run-invocation") then
    Some (OperationFailureRuntime, "EXTERNAL_EFFECT_TERMINAL_FAILURE")
  else None.

Definition effect_digest (claim : OperationClaim) (phase : string) : list N :=
  Sha256.Sum256 (c_IsolationDomainID claim +:+ ":" +:+ c_ID claim +:+ ":" +:+ phase).

#[global] Arguments effect_digest : simpl never.

(** [time.Duration(1<<min(claim.Attempt, 6)) * time.Second] in microseconds. *)
Definition retry_delay (attempt : Z) : Z := Z.shiftl 1 (Z.min attempt 6) * 1000000.

Section reconciler.
Context {W : Type} `{Store W, EffectDriver W, Clock W}.

Definition retry (claim : OperationClaim) (cause : error) : io W (result unit) :=
  let classification := if is_err cause ErrAmbiguousEffect then "unknown" else "retryable" in
  let code := if is_err cause ErrInvocationCancellationRetentionRequired
              then "WORKSPACE_RETENTION_REQUIRED" else "RECONCILIATION_RETRY" in
  now ← now_;
  ScheduleRetry_ claim classification code (now + retry_delay (c_Attempt claim)).

Definition observeWithClaim (claim : OperationClaim) (effect : EffectRecord)
  : io W (result (option json * bool)) :=
  match ClaimedDriver with
  | Some (observeClaimed, _) => observeClaimed claim effect
  | None => Observe effect
  end.

Definition applyWithClaim (claim : OperationClaim) (effect : EffectRecord) : io W (result (option json)) :=
  match ClaimedDriver with
  | Some (_, applyClaimed) => applyClaimed claim effect
  | None => Apply effect
  end.

(** [rejectEffect] answers [None] when the cause is not a rejection. *)
Definition rejectEffect (claim : OperationClaim) (effect : EffectRecord) (cause : error)
  : io W (option (result unit)) :=
  match effectRejection effect cause with
  | None => mret None
  | Some (reason, code) =>
      recorded ← RecordEffect_ effect "failed" None code;
      match recorded with
      | Err err => mret (Some (Err (EJoin cause err)))
      | Ok _ => failed ← Fail_ claim reason; mret (Some failed)
      end
  end.

(** The tail of [applyEffect]: the effect is known to have happened. *)
Definition settleEffect (claim : OperationClaim) (effect : EffectRecord) (observation : option json)
    (nextState : string) : io W (result unit) :=
  recorded ← RecordEffect_ effect "succeeded" observation "";
  match recorded with
  | Err _ => retry claim ErrAmbiguousEffect
  | Ok _ => Advance_ claim nextState None
  end.

Definition applyEffect (claim : OperationClaim) (phase nextState : string) : io W (result unit) :=
  if effectAllowed claim phase then
    prepared ← PrepareEffect_ claim phase (effect_digest claim phase);
    match prepared with
    | Err err => mret (Err err)
    | Ok effect =>
        observation ← observeWithClaim claim effect;
        match observation with
        | Err err =>
            rejected ← rejectEffect claim effect err;
            match rejected with
            | Some rejection => mret rejection
            | None => retry claim err
            end
        | Ok (result, true) => settleEffect claim effect result nextState
        | Ok (_, false) =>
            applied ← applyWithClaim claim effect;
            match applied with
            | Ok result => settleEffect claim effect result nextState
            | Err err =>
                rejected ← rejectEffect claim effect err;
                match rejected with
                | Some rejection => mret rejection
                | None =>
                    let status := if is_err err ErrAmbiguousEffect then "unknown" else "failed" in
                    recorded ← RecordEffect_ effect status None "EXTERNAL_EFFECT_UNCONFIRMED";
                    match recorded with
                    | Err recordErr => mret (Err (EJoin err recordErr))
                    | Ok _ => retry claim err
                    end
                end
            end
        end
    end
  else mret (Err (ENew ("operation " +:+ c_Kind claim +:+ " in state " +:+ c_ObservedState claim
                        +:+ " does not allow effect " +:+ phase))).

Definition observeEffect (claim : OperationClaim) (phase : string) : io W (result (option json * bool)) :=
  prepared ← PrepareEffect_ claim phase (effect_digest claim phase);
  match prepared with
  | Err err => mret (Err err)
  | Ok effect =>
      if decide (e_Status effect = "succeeded") then mret (Ok (e_Observation effect, true))
      else
        observation ← observeWithClaim claim effect;
        match observation with
        | Err err => mret (Err err)
        | Ok (result, false) => mret (Ok (result, false))
        | Ok (result, true) =>
            recorded ← RecordEffect_ effect "succeeded" result "";
            match recorded with
            | Err err => mret (Err err)
            | Ok _ => mret (Ok (result, true))
            end
        end
  end.

(** The observing states: settle on a receipt, retry without one. *)
Definition settleObserved (claim : OperationClaim) (phase nextState : string) : io W (result unit) :=
  observation ← observeEffect claim phase;
  match observation with
  | Err err => retry claim err
  | Ok (_, false) => retry claim ErrAmbiguousEffect
  | Ok (result, true) => Advance_ claim nextState result
  end.

Definition advanceGoverned (claim : OperationClaim) (publish : OperationClaim → io W (result unit))
  : io W (result unit) :=
  if decide (c_ObservedState claim = "queued") then Advance_ claim "validating" None
  else if decide (c_ObservedState claim = "validating") then
    published ← publish claim;
    match published with
    | Err err => if is_err err ErrLeaseLost then mret (Err err) else retry claim err
    | Ok _ => mret (Ok ())
    end
  else mret (Err (ENew "governed publication state is invalid")).

Definition advancePublication (claim : OperationClaim) : io W (result unit) :=
  if decide (c_StateMachineVersion claim = Publication.QueuedDevelopmentVersion
             ∨ Publication.IsAuthorizedDevelopmentVersion (c_StateMachineVersion claim) = true) then
    if decide (c_Command claim = "cancel") then Advance_ claim "cancelled" None
    else if Publication.IsAuthorizedDevelopmentVersion (c_StateMachineVersion claim) then
      match PublishAuthorizedClaimed with
      | None => mret (Err (ENew "authorized publication verifier is required"))
      | Some publish => advanceGoverned claim publish
      end
    else
      match PublishClaimed with
      | None => mret (Err (ENew "governed publication verifier is required"))
      | Some publish => advanceGoverned claim publish
      end
  else if decide (c_StateMachineVersion claim ≠ Publication.StateMachineVersion) then
    mret (Err (ENew "publication state machine version is unsupported"))
  else if decide (c_Command claim = "cancel") then Advance_ claim "cancelled" None
  else if decide (c_ObservedState claim = "queued") then Advance_ claim "validating" None
  else if decide (c_ObservedState claim = "validating") then Advance_ claim "applying" None
  else if decide (c_ObservedState claim = "applying") then applyEffect claim "publish-revision" "observing"
  else if decide (c_ObservedState claim = "observing") then
    settleObserved claim "publish-revision" "published"
  else mret (Err (ENew ("publication state " +:+ c_ObservedState claim +:+ " is not reconcilable"))).

Definition advanceInvocationV1 (claim : OperationClaim) : io W (result unit) :=
  if decide (c_ObservedState claim = "queued") then Advance_ claim "starting" None
  else if decide (c_ObservedState claim = "starting") then applyEffect claim "start-invocation" "observing"
  else if decide (c_ObservedState claim = "observing") then
    settleObserved claim "start-invocation" "succeeded"
  else mret (Err (ENew ("version 1 invocation state " +:+ c_ObservedState claim +:+ " is not reconcilable"))).

Definition advanceInvocationV2 (claim : OperationClaim) : io W (result unit) :=
  if decide (c_ObservedState claim = "queued") then Advance_ claim "starting" None
  else if decide (c_ObservedState claim = "starting") then applyEffect claim "start-invocation" "running"
  else if decide (c_ObservedState claim = "running") then applyEffect claim "run-invocation" "observing"
  else if decide (c_ObservedState claim = "observing") then
    settleObserved claim "run-invocation" "succeeded"
  else mret (Err (ENew ("version 2 invocation state " +:+ c_ObservedState claim +:+ " is not reconcilable"))).

Definition advanceInvocation (claim : OperationClaim) : io W (result unit) :=
  if decide (c_StateMachineVersion claim = 1%Z) then
    if decide (c_Command claim = "cancel") then
      if decide (c_ObservedState claim ≠ "cancelling") then Advance_ claim "cancelling" None
      else Advance_ claim "cancelled" None
    else advanceInvocationV1 claim
  else if decide (c_StateMachineVersion claim = Invocation.StateMachineVersion) then
    if decide (c_Command claim = "cancel") then
      if decide (c_ObservedState claim ≠ "cancelling") then Advance_ claim "cancelling" None
      else applyEffect claim "cancel-invocation" "cancelled"
    else advanceInvocationV2 claim
  else mret (Err (ENew ("invocation state machine version "
                        +:+ pretty.pretty (c_StateMachineVersion claim) +:+ " is unsupported"))).

Definition advance (claim : OperationClaim) : io W (result unit) :=
  if decide (c_Kind claim = OperationKindPublication) then advancePublication claim
  else if decide (c_Kind claim = OperationKindInvocation) then advanceInvocation claim
  else mret (Err (ENew ("unsupported operation kind " +:+ c_Kind claim))).

(** [RunOne]: whether an operation was claimed, and the error if any. *)
Definition RunOne (workerID : string) (leaseDuration : Z) (kind : string) : io W (bool * result unit) :=
  claimed ← ClaimNext_ kind workerID leaseDuration;
  match claimed with
  | Err err => mret (false, Err err)
  | Ok None => mret (false, Ok ())
  | Ok (Some claim) =>
      now ← now_;
      outcome ← (if decide (c_DeadlineAt claim ≤ now)%Z then Fail_ claim OperationFailureDeadline
                 else advance claim);
      mret (true, outcome)
  end.

End reconciler.
