(* ===== verification/ReconcilerProofs.v ===== *)
(** * The reconciler's discipline

    A monitor reads the calls one reconciliation makes to the store and the
    driver and rejects any order that would break the effect protocol: an effect
    is applied only after it was durably prepared under the claim, found absent
    and allowed in the claimed state; an operation moves past an effect only when
    the effect was confirmed and recorded; a claim is settled at most once and
    nothing follows.  The theorem holds for every store and driver. *)
From S2P Require Import Prelude.
From S2P Require Import CallLog.
From S2P Require Import GoStrings.
From S2P Require Import Sha256.
From S2P Require Import GoJson.
From S2P Require Import Lifecycle.
From S2P Require Import Domain.
From S2P Require Import Database.
From S2P Require Import OperationStore.
From S2P Require Import StoreSteps.
From S2P Require Import Reconciler.

(** ** Observable calls *)
Inductive call :=
  | CAdvance (claim : OperationClaim) (nextState : string)
  | CFail (claim : OperationClaim) (reason : string)
  | CRetry (claim : OperationClaim) (classification code : string) (due : Z)
  | CPrepare (claim : OperationClaim) (phase : string) (digest : list N) (answer : result EffectRecord)
  | CRecord (effect : EffectRecord) (status : string) (recorded : bool)
  | CObserve (effect : EffectRecord) (answer : option bool)
  | CApply (effect : EffectRecord) (applied : bool)
  | CPublish (claim : OperationClaim).

(** A world that also remembers the calls, oldest first. *)
Definition logged (W : Type) : Type := W * list call.

Section logged.
Context {W : Type} `{S : Store W, D : EffectDriver W, K : Clock W}.

#[export] Instance logged_clock : Clock (logged W) :=
  silently now_.

#[export] Instance logged_store : Store (logged W) := {|
  ClaimNext_ kind worker duration := silently (ClaimNext_ kind worker duration);
  Advance_ c ns r := logging (λ _, CAdvance c ns) (Advance_ c ns r);
  Fail_ c reason := logging (λ _, CFail c reason) (Fail_ c reason);
  ScheduleRetry_ c cl code due := logging (λ _, CRetry c cl code due) (ScheduleRetry_ c cl code due);
  PrepareEffect_ c phase digest := logging (CPrepare c phase digest) (PrepareEffect_ c phase digest);
  RecordEffect_ ef status o code := logging (λ r, CRecord ef status (is_ok r)) (RecordEffect_ ef status o code);
|}.

Definition observe_call (ef : EffectRecord) (r : result (option json * bool)) : call :=
  CObserve ef (match r with Ok (_, b) => Some b | Err _ => None end).

#[export] Instance logged_driver : EffectDriver (logged W) := {|
  Observe ef := logging (observe_call ef) (Observe ef);
  Apply ef := logging (λ r, CApply ef (is_ok r)) (Apply ef);
  ClaimedDriver := match ClaimedDriver with
    | None => None
    | Some (o, a) => Some (λ c ef, logging (observe_call ef) (o c ef),
                           λ c ef, logging (λ r, CApply ef (is_ok r)) (a c ef))
    end;
  PublishClaimed := match PublishClaimed with
    | None => None | Some p => Some (λ c, logging (λ _, CPublish c) (p c)) end;
  PublishAuthorizedClaimed := match PublishAuthorizedClaimed with
    | None => None | Some p => Some (λ c, logging (λ _, CPublish c) (p c)) end;
|}.
End logged.

(** ** The monitor *)
Inductive progress :=
  | Idle
  | Prepared (phase : string) (ef : EffectRecord)
  | Absent (phase : string) (ef : EffectRecord)
  | Confirmed (phase : string) (ef : EffectRecord)
  | Uncertain (ef : EffectRecord)
  | Recorded (phase : string)
  | Settled.

#[global] Instance result_unit_eq_dec : EqDecision (result unit) := _.
#[global] Instance claim_eq_dec : EqDecision OperationClaim.
Proof. solve_decision. Defined.
#[global] Instance effect_eq_dec : EqDecision EffectRecord.
Proof. solve_decision. Defined.
#[global] Instance progress_eq_dec : EqDecision progress.
Proof. solve_decision. Defined.

(** The effect under way, if any. *)
Definition current (s : progress) : option EffectRecord :=
  match s with
  | Prepared _ ef | Absent _ ef | Confirmed _ ef | Uncertain ef => Some ef
  | _ => None
  end.

(** *** The way of an operation

    Where a claimed operation may go from its state, and the effect that has to be
    confirmed before: per kind, version and command. *)

Definition governed (version : Z) : bool :=
  bool_decide (version = Publication.QueuedDevelopmentVersion) || Publication.IsAuthorizedDevelopmentVersion version.

Abbreviation leg := (string * string * option string)%type.
Definition publication_way (version : Z) : list leg :=
  if governed version then [("queued", "validating", None)]
  else if decide (version = Publication.StateMachineVersion) then
    [("queued", "validating", None); ("validating", "applying", None);
     ("applying", "observing", Some "publish-revision"); ("observing", "published", Some "publish-revision")]
  else [].
Definition invocation_way (version : Z) : list leg :=
  if decide (version = 1%Z) then
    [("queued", "starting", None); ("starting", "observing", Some "start-invocation"); ("observing", "succeeded", Some "start-invocation")]
  else if decide (version = Invocation.StateMachineVersion) then
    [("queued", "starting", None); ("starting", "running", Some "start-invocation");
     ("running", "observing", Some "run-invocation"); ("observing", "succeeded", Some "run-invocation")]
  else [].

(** A cancelled publication ends at once.  A cancelled invocation goes through
    [cancelling], and since version 2 its execution is terminated there. *)
Definition cancel_way (kind : string) (version : Z) (from : string) : list leg :=
  if decide (kind = OperationKindPublication) then [(from, "cancelled", None)]
  else if decide (from ≠ "cancelling") then [(from, "cancelling", None)]
  else [(from, "cancelled", if decide (version = 1%Z) then None else Some "cancel-invocation")].

Definition way (claim : OperationClaim) : list leg :=
  if decide (c_Command claim = "cancel") then cancel_way (c_Kind claim) (c_StateMachineVersion claim) (c_ObservedState claim)
  else if decide (c_Kind claim = OperationKindPublication) then publication_way (c_StateMachineVersion claim)
  else invocation_way (c_StateMachineVersion claim).

(** [Some phase]: this effect is needed; [None]: no effect is. *)
Definition on_way (claim : OperationClaim) (next : string) (effect : option string) : bool :=
  bool_decide ((c_ObservedState claim, next, effect) ∈ way claim).

(** May the operation move on?  Without an effect under way only where none is needed;
    otherwise the one that is needed was recorded, now or, in the observing states, by
    an earlier worker. *)
Definition may_advance (claim : OperationClaim) (next : string) (s : progress) : bool :=
  match s with
  | Idle => on_way claim next None
  | Recorded phase => on_way claim next (Some phase)
  | Prepared phase ef =>
      on_way claim next (Some phase) && bool_decide (e_Status ef = "succeeded" ∧ c_ObservedState claim = "observing")
  | _ => false
  end.

Lemma on_way_intro claim next effect : (c_ObservedState claim, next, effect) ∈ way claim → on_way claim next effect = true.
Proof. intros. by apply bool_decide_eq_true_2. Qed.

Definition legal (claim : OperationClaim) (next : string) : bool :=
  bool_decide (validateTransition (c_Kind claim) (c_ObservedState claim) next = Ok ())
  && bool_decide (next ≠ "queued").

Definition monitor_step (claim : OperationClaim) (s : progress) (c : call) : option progress :=
  match s, c with
  | Settled, _ => None
  | _, CAdvance c ns =>
      if bool_decide (c = claim) && legal claim ns && may_advance claim ns s then Some Settled else None
  | _, CFail c _ => if bool_decide (c = claim) && legal claim "failed" then Some Settled else None
  | _, CRetry c cl _ _ =>
      if bool_decide (c = claim) && bool_decide (cl = "retryable" ∨ cl = "unknown") then Some Settled else None
  | Idle, CPrepare c phase digest answer =>
      if bool_decide (c = claim) && bool_decide (digest = effect_digest claim phase) then
        Some (match answer with Ok ef => Prepared phase ef | Err _ => Idle end)
      else None
  | Idle, CPublish c =>
      if bool_decide (c = claim) && governed (c_StateMachineVersion claim) && bool_decide (c_ObservedState claim = "validating" ∧ c_Command claim ≠ "cancel")
      then Some Idle else None
  | Prepared phase ef, CObserve ef' answer =>
      if bool_decide (ef' = ef) then
        Some (match answer with
              | Some true => Confirmed phase ef | Some false => Absent phase ef | None => Prepared phase ef end)
      else None
  | Absent phase ef, CApply ef' applied =>
      if bool_decide (ef' = ef) && effectAllowed claim phase then
        Some (if applied then Confirmed phase ef else Uncertain ef)
      else None
  | _, CRecord ef status recorded =>
      if bool_decide (current s = Some ef) then
        if decide (status = "succeeded") then
          match s with Confirmed phase _ => Some (if recorded then Recorded phase else Uncertain ef) | _ => None end
        else match s with Confirmed _ _ => None | _ => Some (Uncertain ef) end
      else None
  | _, _ => None
  end.

Fixpoint monitor (claim : OperationClaim) (s : progress) (l : list call) : option progress :=
  match l with
  | [] => Some s
  | c :: rest => s' ← monitor_step claim s c; monitor claim s' rest
  end.

Lemma monitor_app claim s l1 l2 :
  monitor claim s (l1 ++ l2) = (s' ← monitor claim s l1; monitor claim s' l2).
Proof.
  revert s. induction l1 as [|c l1 IH]; intros s; simpl; [done|].
  destruct (monitor_step claim s c); simpl; [apply IH|done].
Qed.

(** ** Reasoning about logged computations *)
Section logic.
Context {W : Type} `{S : Store W, D : EffectDriver W, K : Clock W} (claim : OperationClaim).

(** From monitor state [s], the calls of [m] are accepted and end in a state
    and answer that satisfy [Q]. *)
Definition accepted {A} (s : progress) (m : io (logged W) A) (Q : progress → A → Prop) : Prop :=
  ∀ w l, monitor claim Idle l = Some s →
    ∃ s', monitor claim Idle (m (w, l)).1.2 = Some s' ∧ Q s' (m (w, l)).2.

Lemma accepted_ret {A} s (a : A) (Q : progress → A → Prop) : Q s a → accepted s (mret a) Q.
Proof. intros HQ w l Hl. exists s. done. Qed.

Lemma accepted_bind {A B} s (m : io (logged W) A) (k : A → io (logged W) B) (P : progress → A → Prop) Q :
  accepted s m P → (∀ s' a, P s' a → accepted s' (k a) Q) → accepted s (m ≫= k) Q.
Proof.
  intros Hm Hk w l Hl. destruct (Hm w l Hl) as (s1 & H1 & P1). unfold mbind, io_bind.
  destruct (m (w, l)) as [[w1 l1] a]. simpl in *. apply (Hk s1 a P1 w1 l1 H1).
Qed.

Lemma accepted_logging {A} s (c : A → call) (m : io W A) (Q : progress → A → Prop) :
  (∀ a, ∃ s', monitor_step claim s (c a) = Some s' ∧ Q s' a) → accepted s (logging c m) Q.
Proof.
  intros H w l Hl. unfold logging. destruct (m w) as [w' a]. simpl. destruct (H a) as (s' & Hs & HQ).
  exists s'. split; [|done]. rewrite monitor_app, Hl. simpl. by rewrite Hs.
Qed.

Lemma accepted_now s (Q : progress → Z → Prop) : (∀ t, Q s t) → accepted s now_ Q.
Proof.
  intros H w l Hl. unfold now_, logged_clock, silently. destruct (now_ w) as [w' t]. simpl. exists s. done.
Qed.

Lemma accepted_mono {A} s (m : io (logged W) A) (P Q : progress → A → Prop) :
  accepted s m P → (∀ s' a, P s' a → Q s' a) → accepted s m Q.
Proof. intros H HPQ w l Hl. destruct (H w l Hl) as (s' & ? & ?). eauto. Qed.

Definition anything {A} : progress → A → Prop := λ _ _, True.

Lemma monitor_retry s cl code due :
  s ≠ Settled → cl = "retryable" ∨ cl = "unknown" →
  monitor_step claim s (CRetry claim cl code due) = Some Settled.
Proof.
  intros Hs Hc. destruct s; try done; simpl; rewrite !bool_decide_eq_true_2 by done; done.
Qed.

Lemma monitor_fail s reason :
  s ≠ Settled → legal claim "failed" = true → monitor_step claim s (CFail claim reason) = Some Settled.
Proof.
  intros Hs Hc. destruct s; try done; simpl; rewrite bool_decide_eq_true_2, Hc by done; done.
Qed.

Lemma monitor_advance s ns :
  s ≠ Settled → legal claim ns = true → may_advance claim ns s = true →
  monitor_step claim s (CAdvance claim ns) = Some Settled.
Proof.
  intros Hs Hc Hm. destruct s; try done; simpl in *; rewrite bool_decide_eq_true_2, Hc, ?Hm by done; done.
Qed.

Lemma accepted_retry s cause : s ≠ Settled → accepted s (retry claim cause) anything.
Proof.
  intros Hs. unfold retry. eapply accepted_bind; [by apply (accepted_now _ (λ s' _, s' = s))|].
  intros s' t ->. apply accepted_logging. intros a. exists Settled. split; [|done].
  apply monitor_retry; [done|]. destruct (is_err cause ErrAmbiguousEffect); auto.
Qed.

Lemma accepted_advance s ns r :
  s ≠ Settled → legal claim ns = true → may_advance claim ns s = true →
  accepted s (Advance_ claim ns r) anything.
Proof. intros. apply accepted_logging. intros a. exists Settled. split; [by apply monitor_advance|done]. Qed.

Lemma accepted_observe s phase ef :
  s = Prepared phase ef →
  accepted s (observeWithClaim claim ef) (λ s' a, match a with
    | Ok (_, true) => s' = Confirmed phase ef | Ok (_, false) => s' = Absent phase ef | Err _ => s' = s end).
Proof.
  intros ->. unfold observeWithClaim. simpl.
  destruct ClaimedDriver as [[o ap]|]; apply accepted_logging; intros [[r []]|er]; simpl;
    rewrite bool_decide_eq_true_2 by done; eauto.
Qed.

Lemma accepted_apply s phase ef :
  s = Absent phase ef → effectAllowed claim phase = true →
  accepted s (applyWithClaim claim ef) (λ s' a, match a with
    | Ok _ => s' = Confirmed phase ef | Err _ => s' = Uncertain ef end).
Proof.
  intros -> Ha. unfold applyWithClaim. simpl.
  destruct ClaimedDriver as [[o ap]|]; apply accepted_logging; intros [r|er]; simpl;
    rewrite bool_decide_eq_true_2, Ha by done; eauto.
Qed.

Lemma accepted_reject s ef cause :
  current s = Some ef → (∀ phase, s ≠ Confirmed phase ef) → legal claim "failed" = true →
  accepted s (rejectEffect claim ef cause) (λ s' a, a = None → s' = s).
Proof.
  intros Hc Hn Hl. unfold rejectEffect. destruct (effectRejection ef cause) as [[reason code]|];
    [|by apply accepted_ret].
  eapply (accepted_bind _ _ _ (λ s' _, s' = Uncertain ef)).
  - apply accepted_logging. intros a. exists (Uncertain ef). split; [|done].
    destruct s; simpl in *; simplify_eq; rewrite bool_decide_eq_true_2 by done; try done. by destruct (Hn phase).
  - intros s' [u|er] ->; [|by apply accepted_ret].
    eapply (accepted_bind _ _ _ anything); [|by intros; apply accepted_ret].
    apply accepted_logging. intros a. exists Settled. split; [by apply monitor_fail|done].
Qed.

Lemma accepted_settle phase ef o ns :
  legal claim ns = true → on_way claim ns (Some phase) = true → accepted (Confirmed phase ef) (settleEffect claim ef o ns) anything.
Proof.
  intros Hl Hw. unfold settleEffect.
  eapply (accepted_bind _ _ _ (λ s' a, s' = if is_ok a then Recorded phase else Uncertain ef)).
  - apply accepted_logging. intros a. simpl. rewrite bool_decide_eq_true_2 by done. eauto.
  - intros s' [u|er] ->; simpl; [by apply accepted_advance|by apply accepted_retry].
Qed.

Lemma accepted_prepare phase :
  accepted Idle (PrepareEffect_ claim phase (effect_digest claim phase)) (λ s' a,
    s' = match a with Ok ef => Prepared phase ef | Err _ => Idle end).
Proof.
  apply accepted_logging. intros a. eexists. split; [|reflexivity].
  unfold monitor_step. by rewrite !bool_decide_eq_true_2 by reflexivity.
Qed.

Lemma accepted_applyEffect phase ns :
  legal claim ns = true → on_way claim ns (Some phase) = true → legal claim "failed" = true →
  accepted Idle (applyEffect claim phase ns) anything.
Proof.
  intros Hns Hw Hf. unfold applyEffect. destruct (effectAllowed claim phase) eqn:Ha; [|by apply accepted_ret].
  eapply accepted_bind; [apply accepted_prepare|]. intros s [ef|er] ->; [|by apply accepted_ret].
  eapply accepted_bind; [by eapply accepted_observe|]. intros s [[r []]|er]; simpl.
  - intros ->. by apply accepted_settle.
  - intros ->. eapply accepted_bind; [by eapply accepted_apply|]. intros s [r'|er]; simpl; intros ->.
    + by apply accepted_settle.
    + eapply accepted_bind; [by apply accepted_reject|]. intros s [rej|] Hrej; [by apply accepted_ret|].
      rewrite (Hrej eq_refl). eapply (accepted_bind _ _ _ (λ s' _, s' = Uncertain ef)).
      * apply accepted_logging. intros a. exists (Uncertain ef). split; [|done]. unfold monitor_step.
        rewrite bool_decide_eq_true_2 by done. rewrite decide_False; [done|by case_match].
      * intros s' [u|er'] ->; [by apply accepted_retry|by apply accepted_ret].
  - intros ->. eapply accepted_bind; [by apply accepted_reject|].
    intros s [rej|] Hrej; [by apply accepted_ret|]. rewrite (Hrej eq_refl). by apply accepted_retry.
Qed.

Lemma accepted_settleObserved phase ns :
  legal claim ns = true → on_way claim ns (Some phase) = true → c_ObservedState claim = "observing" →
  accepted Idle (settleObserved claim phase ns) anything.
Proof.
  intros Hns Hw Hobs. unfold settleObserved, observeEffect.
  eapply (accepted_bind _ _ _ (λ s' a, s' ≠ Settled ∧ ∀ r, a = Ok (r, true) → may_advance claim ns s' = true)).
  - eapply accepted_bind; [apply accepted_prepare|]. intros s [ef|er] ->; [|by apply accepted_ret].
    case_decide as E.
    { apply accepted_ret. split; [done|]. intros r _. simpl. rewrite Hw. by apply bool_decide_eq_true_2. }
    eapply accepted_bind; [by eapply accepted_observe|]. intros s [[r []]|er]; simpl; intros ->.
    + eapply (accepted_bind _ _ _ (λ s' a, s' = if is_ok a then Recorded phase else Uncertain ef)).
      * apply accepted_logging. intros a. simpl. rewrite bool_decide_eq_true_2 by done. eauto.
      * intros s' [u|er] ->; apply accepted_ret; done.
    + by apply accepted_ret.
    + by apply accepted_ret.
  - intros s [[r []]|er] [Hs Hm]; [apply accepted_advance|apply accepted_retry|apply accepted_retry]; eauto.
Qed.

Lemma accepted_governed publish :
  legal claim "validating" = true ∨ c_ObservedState claim ≠ "queued" →
  governed (c_StateMachineVersion claim) = true → c_Command claim ≠ "cancel" → c_Kind claim = OperationKindPublication →
  accepted Idle (advanceGoverned claim (λ c, logging (λ _, CPublish c) (publish c))) anything.
Proof.
  intros Hl Hg Hc Hk. unfold advanceGoverned. case_decide as Hq.
  { apply accepted_advance; [done|naive_solver|]. simpl. apply on_way_intro. unfold way, publication_way.
    rewrite decide_False, decide_True, Hg, Hq by done. set_solver. }
  case_decide as Hv; [|by apply accepted_ret].
  eapply (accepted_bind _ _ _ (λ s' _, s' = Idle)).
  - apply accepted_logging. intros a. simpl. rewrite Hg, !bool_decide_eq_true_2 by done. eauto.
  - intros s' [u|er] ->; [by apply accepted_ret|]. case_match; [by apply accepted_ret|by apply accepted_retry].
Qed.
End logic.

(** ** Claims the reconciler can work on *)

(** The claimed state is a named, unfinished state of its state machine. *)
Definition workable (claim : OperationClaim) : Prop :=
  c_Kind claim = OperationKindPublication ∧ c_ObservedState claim ∈ publication_states
    ∧ Publication.IsTerminal (c_ObservedState claim) = false
  ∨ c_Kind claim = OperationKindInvocation ∧ c_ObservedState claim ∈ invocation_states
    ∧ Invocation.IsTerminal (c_ObservedState claim) = false.

Lemma legal_by_state claim kind state next :
  c_Kind claim = kind → c_ObservedState claim = state →
  bool_decide (validateTransition kind state next = Ok ()) && bool_decide (next ≠ "queued") = true →
  legal claim next = true.
Proof. intros <- <- H. exact H. Qed.

(** Splits a state known to be one of the named ones. *)
Ltac named_states H :=
  repeat (apply elem_of_cons in H as [H|H]; [|]); try (by apply elem_of_nil in H).

Ltac legal_solve Hk Hs :=
  apply (legal_by_state _ _ _ _ Hk Hs); vm_compute; reflexivity.

(** The leg that is taken is one of the table. *)
Ltac way_solve :=
  simpl; apply on_way_intro; unfold way, cancel_way, publication_way, invocation_way;
  repeat match goal with H : governed _ = _ |- _ => rewrite H end;
  repeat (case_decide; try (exfalso; first [congruence|tauto]));
  repeat match goal with H : c_ObservedState _ = _ |- _ => rewrite H; clear H end; set_solver.

Lemma workable_fail claim : workable claim → legal claim "failed" = true.
Proof.
  intros [(Hk & Hs & Ht)|(Hk & Hs & Ht)]; unfold publication_states, invocation_states in Hs;
    named_states Hs; rewrite Hs in Ht; try discriminate Ht; legal_solve Hk Hs.
Qed.

Lemma workable_publication_cancel claim :
  workable claim → c_Kind claim = OperationKindPublication → legal claim "cancelled" = true.
Proof.
  intros [(Hk & Hs & Ht)|(Hk & _)] Hk'; [|rewrite Hk in Hk'; discriminate Hk'].
  unfold publication_states in Hs; named_states Hs; rewrite Hs in Ht; try discriminate Ht; legal_solve Hk Hs.
Qed.

Lemma workable_invocation_cancel claim :
  workable claim → c_Kind claim = OperationKindInvocation → c_ObservedState claim ≠ "cancelling" →
  legal claim "cancelling" = true.
Proof.
  intros [(Hk & _)|(Hk & Hs & Ht)] Hk' Hn; [rewrite Hk in Hk'; discriminate Hk'|].
  unfold invocation_states in Hs; named_states Hs; rewrite Hs in Ht; try discriminate Ht;
    try (by destruct Hn); legal_solve Hk Hs.
Qed.

Section discipline.
Context {W : Type} `{S : Store W, D : EffectDriver W, K : Clock W}.

Lemma accepted_advancePublication claim :
  workable claim → c_Kind claim = OperationKindPublication →
  accepted claim Idle (advancePublication claim) anything.
Proof.
  intros Hw Hk. pose proof (workable_fail _ Hw) as Hf. pose proof (workable_publication_cancel _ Hw Hk) as Hc.
  assert (Hq : legal claim "validating" = true ∨ c_ObservedState claim ≠ "queued").
  { destruct (decide (c_ObservedState claim = "queued")) as [E|]; [left; legal_solve Hk E|by right]. }
  unfold advancePublication. case_decide as Hv.
  { assert (governed (c_StateMachineVersion claim) = true) as Hg by (unfold governed; rewrite orb_true_iff, bool_decide_eq_true; tauto).
    case_decide; [apply accepted_advance; [done|done|way_solve]|]. case_match; simpl.
    - destruct PublishAuthorizedClaimed; [by apply accepted_governed|by apply accepted_ret].
    - destruct PublishClaimed; [by apply accepted_governed|by apply accepted_ret]. }
  assert (governed (c_StateMachineVersion claim) = false) as Hg by (unfold governed; rewrite orb_false_iff, bool_decide_eq_false, <- not_true_iff_false; tauto).
  case_decide as Hs; [by apply accepted_ret|]. case_decide; [apply accepted_advance; [done|done|way_solve]|].
  case_decide as E; [apply accepted_advance; [done|legal_solve Hk E|way_solve]|].
  case_decide as E1; [apply accepted_advance; [done|legal_solve Hk E1|way_solve]|].
  case_decide as E2; [apply accepted_applyEffect; [legal_solve Hk E2|way_solve|done]|].
  case_decide as E3; [apply accepted_settleObserved; [legal_solve Hk E3|way_solve|done]|by apply accepted_ret].
Qed.

Lemma accepted_advanceInvocation claim :
  workable claim → c_Kind claim = OperationKindInvocation →
  accepted claim Idle (advanceInvocation claim) anything.
Proof.
  intros Hw Hk. pose proof (workable_fail _ Hw) as Hf. pose proof (workable_invocation_cancel _ Hw Hk) as Hc.
  assert (c_Kind claim ≠ OperationKindPublication) as Hn by (rewrite Hk; discriminate).
  unfold advanceInvocation, advanceInvocationV1, advanceInvocationV2. case_decide as V.
  - case_decide as C.
    + case_decide as E; [apply accepted_advance; [done|by apply Hc|way_solve]|].
      apply accepted_advance; [done|legal_solve Hk E|way_solve].
    + case_decide as E; [apply accepted_advance; [done|legal_solve Hk E|way_solve]|].
      case_decide as E1; [apply accepted_applyEffect; [legal_solve Hk E1|way_solve|done]|].
      case_decide as E2; [apply accepted_settleObserved; [legal_solve Hk E2|way_solve|done]|by apply accepted_ret].
  - case_decide as V2; [|by apply accepted_ret]. case_decide as C.
    + case_decide as E; [apply accepted_advance; [done|by apply Hc|way_solve]|].
      apply accepted_applyEffect; [legal_solve Hk E|way_solve|done].
    + case_decide as E; [apply accepted_advance; [done|legal_solve Hk E|way_solve]|].
      case_decide as E1; [apply accepted_applyEffect; [legal_solve Hk E1|way_solve|done]|].
      case_decide as E2; [apply accepted_applyEffect; [legal_solve Hk E2|way_solve|done]|].
      case_decide as E3; [apply accepted_settleObserved; [legal_solve Hk E3|way_solve|done]|by apply accepted_ret].
Qed.

Lemma accepted_advance_claim claim : workable claim → accepted claim Idle (advance claim) anything.
Proof.
  intros Hw. unfold advance. case_decide; [by apply accepted_advancePublication|].
  case_decide; [by apply accepted_advanceInvocation|by apply accepted_ret].
Qed.

(** What [RunOne] does with a claim. *)
Definition handle (claim : OperationClaim) : io (logged W) (bool * result unit) :=
  now ← now_;
  outcome ← (if decide (c_DeadlineAt claim ≤ now)%Z then Fail_ claim OperationFailureDeadline
             else advance claim);
  mret (true, outcome).

Lemma RunOne_unfold worker duration kind w :
  RunOne worker duration kind (w, []) =
  match ClaimNext_ kind worker duration w with
  | (w', Err er) => ((w', []), (false, Err er))
  | (w', Ok None) => ((w', []), (false, Ok ()))
  | (w', Ok (Some claim)) => handle claim (w', [])
  end.
Proof.
  unfold RunOne, handle. unfold mbind at 1, io_bind at 1. cbn [ClaimNext_ logged_store]. unfold silently at 1.
  destruct (ClaimNext_ kind worker duration w) as [w' [[claim|]|er]]; reflexivity.
Qed.

Lemma handle_claimed claim w : (handle claim w).2.1 = true.
Proof.
  unfold handle, mbind, io_bind. destruct (now_ w) as [w1 t].
  by case_decide; case_match.
Qed.

Lemma accepted_handle claim : workable claim → accepted claim Idle (handle claim) anything.
Proof.
  intros Hw. unfold handle. eapply accepted_bind; [by apply (accepted_now _ _ (λ s' _, s' = Idle))|].
  intros s t ->. eapply (accepted_bind _ _ _ _ anything); [|by intros; apply accepted_ret].
  case_decide; [|by apply accepted_advance_claim].
  apply accepted_logging. intros a. exists Settled. split; [|done]. apply monitor_fail; [done|].
  by apply workable_fail.
Qed.

(** C2: for every store and every driver, however their calls fail, one
    reconciliation of a claim on an unfinished operation (a named state of its machine
    that is not final) follows the effect protocol.  Effects are applied only when
    prepared under the claim, observed absent and allowed by the lifecycle.  The
    operation advances only along [way], and along a leg that needs an effect only
    after exactly that effect was confirmed and recorded in this reconciliation, or, in
    an observing state, was found recorded as succeeded.  A governed publication is
    published only in [validating].  Every requested transition is legal for the
    claimed state and never [queued]; and the claim is settled by at most one call,
    which is the last. *)
Theorem reconciler_discipline worker duration kind (w : W) :
  let '((w', l), (claimed, r)) := RunOne worker duration kind (w, []) in
  match (ClaimNext_ kind worker duration w).2 with
  | Ok (Some claim) => claimed = true ∧ (workable claim → is_Some (monitor claim Idle l))
  | _ => claimed = false ∧ l = []
  end.
Proof.
  rewrite RunOne_unfold. destruct (ClaimNext_ kind worker duration w) as [w1 [[claim|]|er]]; [|done|done].
  pose proof (handle_claimed claim (w1, [])) as Hc. pose proof (accepted_handle claim) as Ha.
  destruct (handle claim (w1, [])) as [[w2 l] [claimed r]] eqn:E. simpl in *. split; [done|]. intros Hw.
  destruct (Ha Hw w1 [] eq_refl) as (s' & Hs & _). rewrite E in Hs. simpl in Hs. by rewrite Hs.
Qed.
End discipline.

(** The back-off before a retry doubles with each attempt, from two seconds
    on the first attempt up to 64 seconds, and never exceeds that. *)
Theorem retry_delay_bounds attempt :
  (1 ≤ attempt)%Z →
  retry_delay attempt = (2 ^ Z.min attempt 6 * 1000000)%Z
  ∧ (2000000 ≤ retry_delay attempt ≤ 64000000)%Z
  ∧ (retry_delay attempt ≤ retry_delay (attempt + 1))%Z.
Proof.
  intros Ha. unfold retry_delay. rewrite !Z.shiftl_mul_pow2 by lia.
  assert (P : ∀ n, (1 ≤ n)%Z → (2 ≤ 2 ^ Z.min n 6 ≤ 64)%Z).
  { intros n Hn. split; [apply (Z.pow_le_mono_r 2 1)|apply (Z.pow_le_mono_r 2 _ 6)]; lia. }
  pose proof (P attempt Ha). split; [lia|]. split; [lia|].
  assert (2 ^ Z.min attempt 6 ≤ 2 ^ Z.min (attempt + 1) 6)%Z by (apply Z.pow_le_mono_r; lia). lia.
Qed.

Lemma retry_delay_bounds_witness : (2000000 ≤ retry_delay 9 ≤ 64000000)%Z.
Proof. apply (retry_delay_bounds 9). lia. Defined.
