(* ===== verification/System.v ===== *)
(** * The control plane at work

    The reconciler connected to the durable store and to the reference driver
    ([internal/reconcile/reference_driver.go]), which keeps its receipts in a
    table of its own.  With it an invocation makes progress at every
    reconciliation. *)
From S2P Require Import Prelude.
From S2P Require Import GoStrings.
From S2P Require Import Sha256.
From S2P Require Import GoJson.
From S2P Require Import Lifecycle.
From S2P Require Import Domain.
From S2P Require Import Database.
From S2P Require Import OperationStore.
From S2P Require Import Commands.
From S2P Require Import StoreSpec.
From S2P Require Import StoreSteps.
From S2P Require Import StoreRefinement.
From S2P Require Import StoreTheorems.
From S2P Require Import Reconciler.
From S2P Require Import ReconcilerProofs.
From S2P Require Import StoreExamples.

(** The database, the driver's table [reference_runtime_receipts] and what the
    processes read from outside. *)
Record sys := Sys { sys_db : db; sys_receipts : gmap key json; sys_env : env }.

Definition with_db (d : db) (s : sys) : sys := Sys d (sys_receipts s) (sys_env s).

(** Runs a transaction: commits on success, rolls back on error. *)
Definition transact {A} (f : env → db → result (db * A)) : io sys (result A) :=
  λ s, match f (sys_env s) (sys_db s) with
       | Ok (d, a) => (with_db d s, Ok a)
       | Err e => (s, Err e)
       end.

Definition transact_ (f : env → db → result db) : io sys (result unit) :=
  transact (λ e d, (λ d', (d', ())) <$> f e d).

#[global] Instance sys_clock : Clock sys := λ s, (s, env_now (sys_env s)).

Section system.
Context `{SchemaEngine}.

#[export] Instance sys_store : Store sys := {|
  ClaimNext_ kind worker duration := transact (λ e, ClaimNext e kind worker duration);
  Advance_ c ns r := transact_ (λ e, Advance e c ns r);
  Fail_ c reason := transact_ (λ e, Fail e c reason);
  ScheduleRetry_ c cl code due := transact_ (λ e, ScheduleRetry e c cl code due);
  PrepareEffect_ c phase digest := transact (λ e, PrepareEffect e c phase digest);
  RecordEffect_ ef status o code := transact_ (λ e, RecordEffect e ef status o code);
|}.

(** ** The reference driver *)

Definition receipt_key (effect : EffectRecord) : key := (e_IsolationDomainID effect, e_EffectID effect).

Definition ReferenceObserve (effect : EffectRecord) (receipts : gmap key json) : option json * bool :=
  match receipts !! receipt_key effect with
  | Some result => (Some result, true)
  | None => (None, false)
  end.

(** [INSERT ... ON CONFLICT DO NOTHING], then [Observe]. *)
Definition ReferenceApply (effect : EffectRecord) (receipts : gmap key json)
  : gmap key json * result (option json) :=
  let result := json_map [("effectId", JStr (e_EffectID effect)); ("phase", JStr (e_Phase effect));
                          ("status", JStr "succeeded")] in
  let receipts := match receipts !! receipt_key effect with
                  | Some _ => receipts
                  | None => <[receipt_key effect := result]> receipts
                  end in
  match ReferenceObserve effect receipts with
  | (observed, true) => (receipts, Ok observed)
  | (_, false) => (receipts, Err (ENew "reference runtime receipt was not visible after apply"))
  end.

#[export] Instance sys_driver : EffectDriver sys := {|
  Observe ef := λ s, (s, Ok (ReferenceObserve ef (sys_receipts s)));
  Apply ef := λ s, let '(receipts, r) := ReferenceApply ef (sys_receipts s) in
                   (Sys (sys_db s) receipts (sys_env s), r);
  ClaimedDriver := None;
  PublishClaimed := None;
  PublishAuthorizedClaimed := None;
|}.

(** The reference driver applies an effect at most once: applying always
    succeeds, leaves exactly one receipt under the effect's key that a later
    observation returns, touches no other receipt, and applying again (also after
    a crash between effect and acknowledgement) changes nothing and answers the
    first receipt. *)
Theorem reference_apply_once effect receipts :
  let '(receipts', r) := ReferenceApply effect receipts in
  (∃ v, r = Ok (Some v) ∧ ReferenceObserve effect receipts' = (Some v, true)
     ∧ (∀ v0, receipts !! receipt_key effect = Some v0 → v = v0))
  ∧ (∀ k, k ≠ receipt_key effect → receipts' !! k = receipts !! k)
  ∧ ReferenceApply effect receipts' = (receipts', r).
Proof.
  unfold ReferenceApply, ReferenceObserve. destruct (receipts !! receipt_key effect) as [v|] eqn:E.
  - rewrite E. cbv iota. rewrite !E. repeat split; auto. exists v. repeat split; congruence.
  - rewrite lookup_insert_eq. cbv iota. rewrite lookup_insert_eq. cbv iota. rewrite lookup_insert_eq.
    split; [eexists; repeat split; congruence|]. split; [|done]. intros k Hk. by rewrite lookup_insert_ne.
Qed.

(** ** Progress *)

Lemma advance_invocation_ok e c ns r d row inv :
  c_Kind c = OperationKindInvocation → db_invocation_ops d !! claim_key c = Some row →
  lease_held c (env_now e) row = true →
  Invocation.CanTransition (c_ObservedState c) ns = true → ns ≠ "failed" →
  (ns = "succeeded" → check_invocation_contract d c (ns, r, None) = Ok (ns, r, None)) →
  db_invocations d !! (c_IsolationDomainID c, c_ResourceID c) = Some inv →
  ∃ d', Advance e c ns r d = Ok d'
    ∧ db_invocation_ops d' !! claim_key c = Some (advanced_row ns r None (env_now e) row)
    ∧ db_revisions d' = db_revisions d ∧ is_Some (db_invocations d' !! (c_IsolationDomainID c, c_ResourceID c)).
Proof.
  intros Hk Hr Hh Ht Hf Hc Hi. unfold Advance. rewrite decide_False by done. unfold OperationStore.advance.
  assert (Hc' : check_invocation_contract d c (ns, r, None) = Ok (ns, r, None)).
  { destruct (decide (ns = "succeeded")); [by apply Hc|]. unfold check_invocation_contract.
    by rewrite decide_False by naive_solver. }
  assert (Hp : check_publication_contract d c (ns, r, None) = Ok (ns, r, None)).
  { unfold check_publication_contract. by rewrite Hk, decide_False by naive_solver. }
  assert (Ho : advance_operation e InvocationOps c ns r None d
    = Ok (set_ops InvocationOps <[claim_key c := advanced_row ns r None (env_now e) row]> d)).
  { unfold advance_operation. cbn [ops_of]. rewrite Hr, Hh. unfold governed_guard, governed_states_check.
    rewrite Hk, !decide_False by naive_solver. done. }
  rewrite Hk, (proj2 (validateTransition_invocation _ _) Ht). cbn [mbind result_bind].
  rewrite decide_False; [|intros E; by apply Hf, E; intros [??]].
  change (operationTable OperationKindInvocation)
    with (Ok (InvocationOps, ["succeeded"; "failed"; "cancelled"; "waiting"])). cbn [mbind result_bind].
  rewrite Hp. cbn [mbind result_bind]. rewrite Hc'. cbn [mbind result_bind]. rewrite Ho. cbn [mbind result_bind].
  unfold updateResourceForTransition. rewrite Hk, decide_False, decide_True by done.
  case_decide as Er; simpl.
  - eexists. split; [done|]. simpl. rewrite lookup_insert_eq. eauto.
  - unfold getInvocationForUpdate. simpl. rewrite lookup_alter_eq, Hi. simpl.
    eexists. split; [done|]. simpl. rewrite lookup_insert_eq, lookup_alter_eq, Hi. eauto.
Qed.

Lemma claim_holds_lease kind t worker duration now k d d' c :
  (0 < duration)%Z → claim_update kind t worker duration now k d = (d', Some c) →
  ∃ row, ops_of t d' !! claim_key c = Some row ∧ lease_held c now row = true
    ∧ op_command row = c_Command c ∧ op_resource_id row = c_ResourceID c.
Proof.
  intros Hd Hc. pose proof (claim_update_spec _ _ _ _ _ _ _ _ _ Hc)
    as (row & Hr & _ & -> & _ & Ek & Er & Ec & Es & Eo & Et & Edl & Ee).
  eexists. rewrite ops_of_set_ops, Ek, lookup_insert_eq. split; [done|]. simpl. split; [|split; congruence].
  apply lease_held_spec. simpl. repeat split; try congruence. eexists; split; [done|].
  unfold claim_expiry. case_decide; lia.
Qed.

Lemma PrepareEffect_ok e c phase d row digest :
  c_Kind c = OperationKindInvocation → db_invocation_ops d !! claim_key c = Some row →
  lease_held c (env_now e) row = true → op_command row = c_Command c →
  (∀ er, db_effects d !! (c_IsolationDomainID c, effect_id c phase) = Some er →
     eff_request_digest er = digest) →
  ∃ f ef, PrepareEffect e c phase digest d = Ok (set_effects f d, ef)
    ∧ receipt_key ef = (c_IsolationDomainID c, effect_id c phase)
    ∧ is_Some (db_effects (set_effects f d) !! receipt_key ef)
    ∧ match db_effects d !! (c_IsolationDomainID c, effect_id c phase) with
      | Some er => e_Status ef = eff_status er ∧ e_Observation ef = eff_observation er
      | None => e_Status ef = "prepared"
      end.
Proof.
  intros Hk Hr Hh Hc Hd. unfold PrepareEffect. rewrite Hk. simpl. rewrite Hr, Hh. simpl.
  rewrite bool_decide_eq_true_2 by done. unfold getEffect. simpl.
  destruct (db_effects d !! (c_IsolationDomainID c, effect_id c phase)) as [er|] eqn:E.
  - rewrite E. simpl. rewrite decide_False by (intros N; apply N; by apply Hd).
    eexists (λ m, _), _. split; [reflexivity|]. split; [done|]. simpl. by rewrite E.
  - rewrite lookup_insert_eq. simpl. rewrite decide_False by tauto.
    eexists (λ m, _), _. split; [reflexivity|]. split; [done|]. simpl. by rewrite E, lookup_insert_eq.
Qed.

Lemma RecordEffect_ok e ef o d :
  is_Some (db_effects d !! receipt_key ef) →
  ∃ f, RecordEffect e ef "succeeded" o "" d = Ok (set_effects f d).
Proof.
  intros [er E]. unfold RecordEffect. rewrite decide_False by naive_solver.
  unfold receipt_key in E. rewrite E. eauto.
Qed.

Lemma io_bind_eq {W A B} (m : io W A) (k : A → io W B) w w1 a : m w = (w1, a) → (m ≫= k) w = k a w1.
Proof. intros E. unfold mbind, io_bind. by rewrite E. Qed.

Lemma transact_eq {A} (f : env → db → result (db * A)) s d a :
  f (sys_env s) (sys_db s) = Ok (d, a) → transact f s = (with_db d s, Ok a).
Proof. intros E. unfold transact. by rewrite E. Qed.

Lemma transact_ok f s d : f (sys_env s) (sys_db s) = Ok d → transact_ f s = (with_db d s, Ok ()).
Proof. intros E. unfold transact_, transact. by rewrite E. Qed.

(** The claim is live and its rows exist. *)
Record held (e : env) (c : OperationClaim) (d : db) : Prop := Held {
  held_kind : c_Kind c = OperationKindInvocation;
  held_row : ∃ row, db_invocation_ops d !! claim_key c = Some row ∧ lease_held c (env_now e) row = true
                ∧ op_command row = c_Command c ∧ op_resource_id row = c_ResourceID c;
  held_invocation : is_Some (db_invocations d !! (c_IsolationDomainID c, c_ResourceID c));
}.

(** The effect recorded for a phase, if any, was recorded with the digest the
    reconciler computes. *)
Definition own_digest (c : OperationClaim) (phase : string) (d : db) : Prop :=
  ∀ er, db_effects d !! (c_IsolationDomainID c, effect_id c phase) = Some er →
    eff_request_digest er = effect_digest c phase.

(** The operation of [c] is now in state [ns]. *)
Definition moved (c : OperationClaim) (ns : string) (s : sys) : Prop :=
  op_observed_state <$> db_invocation_ops (sys_db s) !! claim_key c = Some ns.

Lemma held_effects e c f d : held e c d → held e c (set_effects f d).
Proof. intros []. by split. Qed.

Lemma sys_advance_ok c ns r s :
  held (sys_env s) c (sys_db s) → Invocation.CanTransition (c_ObservedState c) ns = true → ns ≠ "failed" →
  (ns = "succeeded" → check_invocation_contract (sys_db s) c (ns, r, None) = Ok (ns, r, None)) →
  ∃ d, Advance_ c ns r s = (with_db d s, Ok ()) ∧ moved c ns (with_db d s).
Proof.
  intros [Hk (row & Hr & Hh & Hc & Hres) [inv Hi]] Ht Hf Hco.
  destruct (advance_invocation_ok (sys_env s) c ns r (sys_db s) row inv) as (d & Ha & Hrow & _); auto.
  exists d. split; [by apply transact_ok|]. unfold moved. simpl. by rewrite Hrow.
Qed.

Lemma sys_prepare_ok c phase s :
  held (sys_env s) c (sys_db s) → own_digest c phase (sys_db s) →
  ∃ f ef, PrepareEffect_ c phase (effect_digest c phase) s = (with_db (set_effects f (sys_db s)) s, Ok ef)
    ∧ receipt_key ef = (c_IsolationDomainID c, effect_id c phase)
    ∧ is_Some (db_effects (set_effects f (sys_db s)) !! receipt_key ef)
    ∧ match db_effects (sys_db s) !! (c_IsolationDomainID c, effect_id c phase) with
      | Some er => e_Status ef = eff_status er ∧ e_Observation ef = eff_observation er
      | None => e_Status ef = "prepared"
      end.
Proof.
  intros [Hk (row & Hr & Hh & Hc & Hres) _] Hd.
  destruct (PrepareEffect_ok (sys_env s) c phase (sys_db s) row (effect_digest c phase))
    as (f & ef & HP & Hrk & He & Hst); auto.
  exists f, ef. split; [by apply transact_eq|done].
Qed.

(** Recording a known outcome and moving on. *)
Lemma sys_settle_ok c ef o ns s :
  held (sys_env s) c (sys_db s) → is_Some (db_effects (sys_db s) !! receipt_key ef) →
  Invocation.CanTransition (c_ObservedState c) ns = true → ns ≠ "failed" → ns ≠ "succeeded" →
  ∃ d, settleEffect c ef o ns s = (with_db d s, Ok ()) ∧ moved c ns (with_db d s).
Proof.
  intros Hheld Hef Ht Hf Hs. destruct (RecordEffect_ok (sys_env s) ef o (sys_db s) Hef) as (f & HR).
  unfold settleEffect. rewrite (io_bind_eq _ _ s (with_db (set_effects f (sys_db s)) s) (Ok ()))
    by (by apply transact_ok).
  destruct (sys_advance_ok c ns None (with_db (set_effects f (sys_db s)) s)) as (d & Ha & Hm);
    [by apply held_effects|done|done|done|].
  exists d. by rewrite Ha.
Qed.

Lemma sys_applyEffect_ok c phase ns s :
  held (sys_env s) c (sys_db s) → own_digest c phase (sys_db s) → effectAllowed c phase = true →
  Invocation.CanTransition (c_ObservedState c) ns = true → ns ≠ "failed" → ns ≠ "succeeded" →
  ∃ s', applyEffect c phase ns s = (s', Ok ()) ∧ moved c ns s'
    ∧ is_Some (sys_receipts s' !! (c_IsolationDomainID c, effect_id c phase)).
Proof.
  intros Hh Hd Ha Ht Hf Hs. unfold applyEffect. rewrite Ha.
  destruct (sys_prepare_ok c phase s Hh Hd) as (f & ef & HP & Hrk & Hef & _).
  rewrite (io_bind_eq _ _ _ _ _ HP). set (s1 := with_db _ s).
  rewrite (io_bind_eq _ _ s1 s1 (Ok (ReferenceObserve ef (sys_receipts s)))) by done.
  unfold ReferenceObserve. rewrite Hrk.
  destruct (sys_receipts s !! _) as [v|] eqn:E.
  - destruct (sys_settle_ok c ef (Some v) ns s1) as (d & -> & Hm); auto; [by apply held_effects|].
    exists (with_db d s1). simpl. rewrite E. eauto.
  - pose proof (reference_apply_once ef (sys_receipts s)) as Once.
    destruct (ReferenceApply ef (sys_receipts s)) as [receipts r] eqn:EA.
    destruct Once as ((v & -> & Hobs & _) & _ & _).
    set (s2 := Sys (sys_db s1) receipts (sys_env s1)).
    rewrite (io_bind_eq _ _ s1 s2 (Ok (Some v))) by (unfold applyWithClaim; simpl; by rewrite EA).
    destruct (sys_settle_ok c ef (Some v) ns s2) as (d & -> & Hm); auto; [by apply held_effects|].
    exists (with_db d s2). simpl. unfold ReferenceObserve in Hobs. rewrite Hrk in Hobs.
    destruct (receipts !! _) eqn:E'; [|done]. eauto.
Qed.

(** A result the effect of a phase is known to have: the one recorded with the effect when
    it succeeded, otherwise the driver's receipt. *)
Definition found_result (c : OperationClaim) (phase : string) (receipts : gmap key json) (d : db) (r : option json) : Prop :=
  let k := (c_IsolationDomainID c, effect_id c phase) in
  (∃ er, db_effects d !! k = Some er ∧ eff_status er = "succeeded" ∧ r = eff_observation er)
  ∨ (is_Some r ∧ receipts !! k = r).

Lemma sys_observed_ok c phase ns s :
  held (sys_env s) c (sys_db s) → own_digest c phase (sys_db s) →
  (∃ r, found_result c phase (sys_receipts s) (sys_db s) r) →
  Invocation.CanTransition (c_ObservedState c) ns = true → ns ≠ "failed" →
  (∀ r, found_result c phase (sys_receipts s) (sys_db s) r → check_invocation_contract (sys_db s) c (ns, r, None) = Ok (ns, r, None)) →
  ∃ s', settleObserved c phase ns s = (s', Ok ()) ∧ moved c ns s'.
Proof.
  intros Hh Hd [r0 Hr0] Ht Hf Hc. unfold settleObserved, observeEffect.
  destruct (sys_prepare_ok c phase s Hh Hd) as (f & ef & HP & Hrk & Hef & Hst).
  set (s1 := with_db (set_effects f (sys_db s)) s) in *.
  assert (∃ g r, observeEffect c phase s = (with_db (set_effects g (set_effects f (sys_db s))) s, Ok (r, true))
    ∧ found_result c phase (sys_receipts s) (sys_db s) r) as (g & r & HO & Hfound).
  { unfold observeEffect. rewrite (io_bind_eq _ _ _ _ _ HP). case_decide as E.
    { exists id, (e_Observation ef). split; [unfold mret, io_ret; subst s1; done|].
      left. destruct (db_effects (sys_db s) !! _) as [er|] eqn:Ee; [|congruence].
      exists er. destruct Hst as [Hs Ho]. split_and!; [done|congruence|exact Ho]. }
    assert (∃ v, sys_receipts s !! (c_IsolationDomainID c, effect_id c phase) = Some v) as [v Hv].
    { destruct Hr0 as [(er & Her & Hok & _)|[[v ->] Hv]]; [|by exists v]. rewrite Her in Hst. destruct Hst. congruence. }
    rewrite (io_bind_eq _ _ s1 s1 (Ok (ReferenceObserve ef (sys_receipts s)))) by done.
    unfold ReferenceObserve. rewrite Hrk, Hv.
    destruct (RecordEffect_ok (sys_env s) ef (Some v) (sys_db s1) Hef) as (g & HR).
    rewrite (io_bind_eq _ _ s1 (with_db (set_effects g (sys_db s1)) s1) (Ok ())) by (by apply transact_ok).
    exists g, (Some v). split; [done|]. right. by split. }
  rewrite (io_bind_eq _ _ _ _ _ HO).
  destruct (sys_advance_ok c ns r (with_db (set_effects g (set_effects f (sys_db s))) s)) as (d & -> & Hm);
    [by do 2 apply held_effects|done|done|intros _; by apply Hc|]. eauto.
Qed.

(** The path of a version 2 invocation. *)
Definition v2_next (state : string) : option string :=
  if decide (state = "queued") then Some "starting"
  else if decide (state = "starting") then Some "running"
  else if decide (state = "running") then Some "observing"
  else if decide (state = "observing") then Some "succeeded"
  else None.

Lemma claimNext_held e worker duration d d1 c :
  (0 < duration)%Z → ClaimNext e OperationKindInvocation worker duration d = Ok (d1, Some c) →
  is_Some (db_invocations d1 !! (c_IsolationDomainID c, c_ResourceID c)) → held e c d1.
Proof.
  intros Hd Hc Hi. unfold ClaimNext, claimNext in Hc. simpl in Hc. unfold mbind, result_bind in Hc.
  destruct (claim_candidate _ _ _ _ _) as [k|]; [|done]. injection Hc as Hc.
  pose proof (claim_holds_lease _ InvocationOps _ _ _ _ _ _ _ Hd Hc) as (row & Hr & Hh & Hcmd & Hres).
  apply claim_update_spec in Hc as (_ & _ & _ & _ & Hk & _). split; [done| |done]. by exists row.
Qed.

Lemma invoke_allowed c phase :
  c_Kind c = OperationKindInvocation → c_Command c = "invoke" ∨ c_Command c = "repair" →
  c_ObservedState c = "starting" ∧ phase = "start-invocation"
    ∨ c_ObservedState c = "running" ∧ phase = "run-invocation" →
  effectAllowed c phase = true.
Proof.
  intros Hk Hc Hs. unfold effectAllowed. rewrite Hk.
  destruct Hc as [-> | ->], Hs as [[-> ->]|[-> ->]]; vm_compute; reflexivity.
Qed.

(** C31: progress of a reconciler with the reference driver, on a clock that stands still
    during one reconciliation.  Suppose the store hands it an invocation of version 2
    with command invoke or repair, before its deadline and with a lease of positive
    length; the row of the invocation exists; and effects recorded under the
    identifiers of its two phases carry the digests the reconciler computes.  When the
    state is observing, suppose also that a result of the run is found, recorded with
    the effect or as the driver's receipt, and that the output contract of the revision
    accepts it.  Then this reconciliation succeeds and leaves the operation in the next
    state of queued, starting, running, observing, succeeded, whatever else the tables
    hold; and running leaves the receipt that observing needs. *)
Theorem invocation_progress s worker duration d1 c next :
  ClaimNext (sys_env s) OperationKindInvocation worker duration (sys_db s) = Ok (d1, Some c) →
  (0 < duration)%Z → (env_now (sys_env s) < c_DeadlineAt c)%Z →
  c_StateMachineVersion c = 2%Z → c_Command c = "invoke" ∨ c_Command c = "repair" →
  v2_next (c_ObservedState c) = Some next →
  is_Some (db_invocations d1 !! (c_IsolationDomainID c, c_ResourceID c)) →
  own_digest c "start-invocation" d1 → own_digest c "run-invocation" d1 →
  (c_ObservedState c = "observing" → (∃ r, found_result c "run-invocation" (sys_receipts s) d1 r)
     ∧ ∀ r, found_result c "run-invocation" (sys_receipts s) d1 r →
         check_invocation_contract d1 c ("succeeded", r, None) = Ok ("succeeded", r, None)) →
  ∃ s', RunOne worker duration OperationKindInvocation s = (s', (true, Ok ()))
    ∧ moved c next s'
    ∧ (next = "observing" → is_Some (sys_receipts s' !! (c_IsolationDomainID c, effect_id c "run-invocation"))).
Proof.
  intros Hc Hd Hdl Hv Hcmd Hn Hi D1 D2 Hobs.
  pose proof (claimNext_held _ _ _ _ _ _ Hd Hc Hi) as Hheld. set (s1 := with_db d1 s).
  assert (Hk : c_Kind c = OperationKindInvocation) by apply Hheld.
  assert (Hadv : ∃ s', advance c s1 = (s', Ok ()) ∧ moved c next s'
    ∧ (next = "observing" → is_Some (sys_receipts s' !! (c_IsolationDomainID c, effect_id c "run-invocation")))).
  { unfold advance. rewrite Hk, decide_False, decide_True by done. unfold advanceInvocation.
    rewrite Hv, decide_False, decide_True, decide_False by (done || (destruct Hcmd; congruence)).
    unfold advanceInvocationV2. unfold v2_next in Hn.
    case_decide as E1; [|case_decide as E2; [|case_decide as E3; [|case_decide as E4; [|done]]]]; simplify_eq.
    - destruct (sys_advance_ok c "starting" None s1) as (d & -> & Hm); [done|by rewrite E1|done|done|].
      eexists; split; [reflexivity|]. by split; [|discriminate].
    - destruct (sys_applyEffect_ok c "start-invocation" "running" s1) as (s' & -> & Hm & _);
        [exact Hheld|exact D1|by apply invoke_allowed; auto|by rewrite E2|done|done|].
      eexists; split; [reflexivity|]. by split; [|discriminate].
    - destruct (sys_applyEffect_ok c "run-invocation" "observing" s1) as (s' & -> & Hm & Hr);
        [exact Hheld|exact D2|by apply invoke_allowed; auto|by rewrite E3|done|done|].
      eexists; split; [reflexivity|]. by split; [|intros _].
    - destruct (Hobs E4) as [Hrec Hco].
      destruct (sys_observed_ok c "run-invocation" "succeeded" s1) as (s' & -> & Hm);
        [exact Hheld|exact D2|exact Hrec|by rewrite E4|done|exact Hco|].
      eexists; split; [reflexivity|]. by split; [|discriminate]. }
  destruct Hadv as (s' & Hadv & Hm & Hr). exists s'. split; [|done]. unfold RunOne.
  rewrite (io_bind_eq _ _ s s1 (Ok (Some c))) by (by apply transact_eq).
  rewrite (io_bind_eq _ _ s1 s1 (env_now (sys_env s))) by done. rewrite decide_False by lia.
  by rewrite (io_bind_eq _ _ _ _ _ Hadv).
Qed.
End system.

(** ** The example run, reconciled *)
#[local] Instance open_schemas' : SchemaEngine := {| schema_compiles := λ _, true; schema_accepts := λ _ _, true |}.

Definition ex_sys : sys := Sys (w_db ex_invoked) ∅ (ex_env 14).
Definition ex_run_one (s : sys) : sys := (RunOne "worker-1" second OperationKindInvocation s).1.

Example ex_four_runs :
  (λ n, op_observed_state <$> db_invocation_ops (sys_db (Nat.iter n ex_run_one ex_sys)) !! ex_op_key)
    <$> [0; 1; 2; 3; 4; 5]
  = Some <$> ["queued"; "starting"; "running"; "observing"; "succeeded"; "succeeded"].
Proof. vm_compute. reflexivity. Qed.

(** *** The four steps, each an instance of progress *)

Definition ex_at (n : nat) : sys := Nat.iter n ex_run_one ex_sys.
Definition ex_claimed (s : sys) : result (db * option OperationClaim) :=
  ClaimNext (sys_env s) OperationKindInvocation "worker-1" second (sys_db s).
Definition ex_claim_at (n : nat) : OperationClaim := default ex_claim (from_ok (empty_db, None) (ex_claimed (ex_at n))).2.
Definition ex_db_at (n : nat) : db := (from_ok (empty_db, None) (ex_claimed (ex_at n))).1.

(** The hypotheses of progress, as a computation. *)
Definition own_digest_check (c : OperationClaim) (phase : string) (d : db) : bool :=
  match db_effects d !! (c_IsolationDomainID c, effect_id c phase) with
  | Some er => bool_decide (eff_request_digest er = effect_digest c phase)
  | None => true
  end.
Lemma own_digest_checked c phase d : own_digest_check c phase d = true → own_digest c phase d.
Proof. unfold own_digest_check. intros Hd er Her. rewrite Her in Hd. by apply bool_decide_eq_true in Hd. Qed.

Definition found_check (s : sys) (c : OperationClaim) (d : db) : bool :=
  let k := (c_IsolationDomainID c, effect_id c "run-invocation") in
  let accepted r := match check_invocation_contract d c ("succeeded", r, None) with
                    | Ok (state, r', None) => bool_decide (state = "succeeded" ∧ r' = r)
                    | _ => false
                    end in
  match db_effects d !! k with Some er => bool_decide (eff_status er = "succeeded") && accepted (eff_observation er) | None => false end
  && match sys_receipts s !! k with Some v => accepted (Some v) | None => true end.
Lemma found_checked s c d : found_check s c d = true →
  (∃ r, found_result c "run-invocation" (sys_receipts s) d r)
  ∧ ∀ r, found_result c "run-invocation" (sys_receipts s) d r →
      check_invocation_contract d c ("succeeded", r, None) = Ok ("succeeded", r, None).
Proof.
  unfold found_check, found_result. cbv zeta. intros [H1 H2]%andb_true_iff.
  destruct (db_effects d !! _) as [er|] eqn:Ee; [|done]. apply andb_true_iff in H1 as [H1%bool_decide_eq_true H3].
  assert (∀ r, match check_invocation_contract d c ("succeeded", r, None) with
      | Ok (state, r', None) => bool_decide (state = "succeeded" ∧ r' = r) | _ => false end = true →
    check_invocation_contract d c ("succeeded", r, None) = Ok ("succeeded", r, None)) as Hok.
  { intros r. generalize (check_invocation_contract d c ("succeeded", r, None)). intros [[[state r'] [p|]]|]; try done.
    by intros [-> ->]%bool_decide_eq_true. }
  split; [exists (eff_observation er); left; by exists er|]. intros r [(er' & [= <-] & _ & ->)|[[v ->] Hv]]; apply Hok; [done|].
  by rewrite Hv in H2.
Qed.

Definition progress_check (n : nat) (next : string) : bool :=
  let s := ex_at n in let c := ex_claim_at n in let d1 := ex_db_at n in
  match ex_claimed s with Ok (_, Some _) => true | _ => false end
  && bool_decide ((env_now (sys_env s) < c_DeadlineAt c)%Z ∧ c_StateMachineVersion c = 2%Z ∧ c_Command c = "invoke"
       ∧ v2_next (c_ObservedState c) = Some next)
  && bool_decide (is_Some (db_invocations d1 !! (c_IsolationDomainID c, c_ResourceID c)))
  && own_digest_check c "start-invocation" d1 && own_digest_check c "run-invocation" d1
  && (bool_decide (c_ObservedState c ≠ "observing") || found_check s c d1).

Lemma ex_claimed_ok n : match ex_claimed (ex_at n) with Ok (_, Some _) => true | _ => false end = true →
  ex_claimed (ex_at n) = Ok (ex_db_at n, Some (ex_claim_at n)).
Proof. unfold ex_db_at, ex_claim_at. by destruct (ex_claimed (ex_at n)) as [[d [c|]]|]. Qed.

Definition ex_path : list (nat * string) := [(0, "starting"); (1, "running"); (2, "observing"); (3, "succeeded")].

Lemma ex_path_checked : forallb (λ x, progress_check x.1 x.2) ex_path = true.
Proof. vm_compute. reflexivity. Qed.

(** Progress applies in each of the four states. *)
Lemma invocation_progress_witness :
  Forall (λ x, ∃ s', RunOne "worker-1" second OperationKindInvocation (ex_at x.1) = (s', (true, Ok ()))
    ∧ moved (ex_claim_at x.1) x.2 s') ex_path.
Proof.
  pose proof ex_path_checked as Hall. rewrite forallb_forall in Hall. apply Forall_forall.
  intros [n next] Hn%list_elem_of_In%Hall. unfold progress_check in Hn. cbv zeta in Hn. cbn [fst snd] in Hn |- *.
  rewrite !andb_true_iff in Hn. destruct Hn as (((((H1 & H2) & H3) & H4) & H5) & H6).
  apply bool_decide_eq_true in H2 as (? & ? & ? & ?). apply bool_decide_eq_true in H3.
  destruct (invocation_progress (ex_at n) "worker-1" second (ex_db_at n) (ex_claim_at n) next) as (s' & R & M & _); try done.
  - by apply ex_claimed_ok.
  - by left.
  - by apply own_digest_checked.
  - by apply own_digest_checked.
  - intros Ho. apply orb_true_iff in H6 as [H6%bool_decide_eq_true|H6]; [done|]. by apply found_checked.
  - by exists s'.
Defined.
