(* ===== verification/Outbox.v ===== *)
(** * Outbox delivery

    [internal/persistence/outbox.go] and [internal/outbox/dispatcher.go]: events
    written with every command and transition are claimed under a fenced lease,
    published, and completed, retried with a back-off, or dead-lettered on the
    twentieth failed attempt. *)
From S2P Require Import Prelude.
From S2P Require Import GoStrings.
From S2P Require Import Sha256.
From S2P Require Import GoJson.
From S2P Require Import Domain.
From S2P Require Import Database.
From S2P Require Import OperationStore.
From S2P Require Import Commands.
From S2P Require Import StoreSteps.
From S2P Require Import Claiming.
From S2P Require Import StoreExamples.
From S2P Require Import Reconciler.

Definition ErrOutboxClaimInvalid : error := ESentinel "persistence.ErrOutboxClaimInvalid".

Record OutboxClaim := OutClaim {
  oc_ID : string;
  oc_IsolationDomainID : string;
  oc_AggregateType : string;
  oc_AggregateID : string;
  oc_EventType : string;
  oc_Payload : json;
  oc_CorrelationID : string;
  oc_Attempt : Z;
  oc_LeaseOwner : string;
  oc_FencingToken : Z;
}.

(** ** Claiming *)

Definition outbox_worker_valid (workerID : string) : bool :=
  negb (bool_decide (workerID = "")) && bool_decide (slen workerID ≤ 128)%nat
  && bool_decide (trim_space workerID = workerID)
  && negb (contains_byte (byte_of_N 0) workerID) && negb (contains_byte (byte_of_N 13) workerID)
  && negb (contains_byte (byte_of_N 10) workerID).

(** Between one microsecond and one hour, in microseconds. *)
Definition outbox_duration_valid (leaseDuration : Z) : bool :=
  bool_decide (1 ≤ leaseDuration)%Z && bool_decide (leaseDuration ≤ 3600000000)%Z.

Definition outbox_lease_free (row : outbox_row) (now : Z) : bool :=
  match out_lease_expires_at row with None => true | Some t => bool_decide (t ≤ now)%Z end.

(** The conditions of the [UPDATE] (and of the candidate query besides scope). *)
Definition outbox_claimable (row : outbox_row) (now : Z) : bool :=
  bool_decide (out_status row = "pending") && bool_decide (out_available_at row ≤ now)%Z
  && outbox_lease_free row now.

Definition outbox_eligible (scope : string) (now : Z) (row : outbox_row) : bool :=
  outbox_claimable row now && bool_decide (scope = "" ∨ out_isolation_domain_id row = scope).

Definition outbox_position (r : string * outbox_row) : queue_position :=
  (out_available_at r.2, out_created_at r.2, (out_isolation_domain_id r.2, r.1)).

Definition outbox_candidate (scope : string) (now : Z) (d : db) : option string :=
  fst <$> first_by outbox_position
    (per_domain outbox_position
       (filter (λ r, outbox_eligible scope now r.2 = true) (map_to_list (db_outbox d)))).

Definition claimed_outbox (workerID : string) (expires : Z) (row : outbox_row) : outbox_row :=
  OutboxRow (out_isolation_domain_id row) (out_aggregate_type row) (out_aggregate_id row)
    (out_event_type row) (out_payload row) (out_correlation_id row) (out_status row) (out_attempt row + 1)
    (out_available_at row) (Some workerID) (out_lease_token row + 1) (Some expires) (out_created_at row)
    (out_delivered_at row).

Definition outbox_claim_of (id workerID : string) (row : outbox_row) : OutboxClaim :=
  OutClaim id (out_isolation_domain_id row) (out_aggregate_type row) (out_aggregate_id row)
    (out_event_type row) (out_payload row) (out_correlation_id row) (out_attempt row) workerID
    (out_lease_token row).

(** The [UPDATE ... FROM candidate], which checks the row again. *)
Definition outbox_claim_update (workerID : string) (leaseDuration now : Z) (id : string) (d : db)
  : db * option OutboxClaim :=
  match db_outbox d !! id with
  | None => (d, None)
  | Some row =>
      if outbox_claimable row now then
        let row' := claimed_outbox workerID (now + leaseDuration) row in
        (set_outbox <[id := row']> d, Some (outbox_claim_of id workerID row'))
      else (d, None)
  end.

Definition claimOutbox (e : env) (scope workerID : string) (leaseDuration : Z) (d : db)
  : result (db * option OutboxClaim) :=
  if outbox_worker_valid workerID && outbox_duration_valid leaseDuration then
    let now := env_clock_timestamp e in
    match outbox_candidate scope now d with
    | None => Ok (d, None)
    | Some id => Ok (outbox_claim_update workerID leaseDuration now id d)
    end
  else Err ErrOutboxClaimInvalid.

Definition ClaimOutbox (e : env) (workerID : string) (leaseDuration : Z) (d : db) :=
  claimOutbox e "" workerID leaseDuration d.

Definition ClaimOutboxForIsolationDomain (e : env) (isolationDomainID workerID : string)
    (leaseDuration : Z) (d : db) : result (db * option OutboxClaim) :=
  if match_prefixed "iso_" is_id_char 20 32 isolationDomainID then
    claimOutbox e isolationDomainID workerID leaseDuration d
  else Err ErrOutboxClaimInvalid.

(** ** Settling *)

Definition outbox_held (c : OutboxClaim) (now : Z) (row : outbox_row) : bool :=
  bool_decide (out_isolation_domain_id row = oc_IsolationDomainID c)
  && bool_decide (out_status row = "pending")
  && bool_decide (out_lease_owner row = Some (oc_LeaseOwner c))
  && bool_decide (out_lease_token row = oc_FencingToken c)
  && match out_lease_expires_at row with None => false | Some t => bool_decide (now < t)%Z end.

Definition settle_outbox (f : outbox_row → outbox_row) (c : OutboxClaim) (now : Z) (d : db) : result db :=
  match db_outbox d !! oc_ID c with
  | None => Err ErrLeaseLost
  | Some row =>
      if outbox_held c now row then Ok (set_outbox <[oc_ID c := f row]> d) else Err ErrLeaseLost
  end.

Definition delivered_outbox (now : Z) (row : outbox_row) : outbox_row :=
  OutboxRow (out_isolation_domain_id row) (out_aggregate_type row) (out_aggregate_id row)
    (out_event_type row) (out_payload row) (out_correlation_id row) "delivered" (out_attempt row)
    (out_available_at row) None (out_lease_token row) None (out_created_at row) (Some now).

Definition CompleteOutbox (e : env) (c : OutboxClaim) (d : db) : result db :=
  settle_outbox (delivered_outbox (env_clock_timestamp e)) c (env_clock_timestamp e) d.

Definition retried_outbox (dueAt : Z) (row : outbox_row) : outbox_row :=
  OutboxRow (out_isolation_domain_id row) (out_aggregate_type row) (out_aggregate_id row)
    (out_event_type row) (out_payload row) (out_correlation_id row)
    (if decide (20 ≤ out_attempt row)%Z then "dead_letter" else "pending") (out_attempt row)
    dueAt None (out_lease_token row) None (out_created_at row) (out_delivered_at row).

Definition RetryOutbox (e : env) (c : OutboxClaim) (dueAt : Z) (d : db) : result db :=
  settle_outbox (retried_outbox dueAt) c (env_clock_timestamp e) d.

(** ** The dispatcher *)

(** [Publisher]: code outside the store that delivers an event, or fails. *)
Class Publisher (W : Type) := Publish : OutboxClaim → W → W * option error.

(** The database, the publisher's world and the clock readings. *)
Definition dispatch_lease : Z := 30000000.

Section dispatcher.
Context {W : Type} `{Publisher W}.

(** [RunOne] with the environment of its claim and of its settling statement,
    which may read a later clock. *)
Definition RunOne (e1 e2 : env) (workerID : string) (s : db * W) : db * W * (bool * result unit) :=
  let '(d, w) := s in
  match ClaimOutbox e1 workerID dispatch_lease d with
  | Err err => (d, w, (false, Err err))
  | Ok (d, None) => (d, w, (false, Ok ()))
  | Ok (d, Some claim) =>
      let settle (w : W) (r : result db) : db * W * (bool * result unit) :=
        match r with Ok d' => (d', w, (true, Ok ())) | Err err => (d, w, (true, Err err)) end in
      match Publish claim w with
      | (w, Some _) => settle w (RetryOutbox e2 claim (env_now e2 + retry_delay (oc_Attempt claim)) d)
      | (w, None) => settle w (CompleteOutbox e2 claim d)
      end
  end.
End dispatcher.

(** ** Runs *)

(** Claims for any candidate, settlements with any claim, and new events. *)
Inductive outbox_step : db → db → Prop :=
  | ostep_claim worker duration now id d d' c :
      outbox_claim_update worker duration now id d = (d', Some c) → outbox_step d d'
  | ostep_complete e c d d' : CompleteOutbox e c d = Ok d' → outbox_step d d'
  | ostep_retry e c due d d' : RetryOutbox e c due d = Ok d' → outbox_step d d'
  | ostep_write e a b c ev actor corr outcome op now d :
      outbox_step d (writeOutboxAndAudit e a b c ev actor corr outcome op now d).

Lemma outbox_claim_update_spec worker duration now id d d' c :
  outbox_claim_update worker duration now id d = (d', Some c) →
  ∃ row, db_outbox d !! id = Some row ∧ outbox_claimable row now = true
    ∧ d' = set_outbox <[id := claimed_outbox worker (now + duration) row]> d
    ∧ c = outbox_claim_of id worker (claimed_outbox worker (now + duration) row).
Proof.
  unfold outbox_claim_update. destruct (db_outbox d !! id) as [row|] eqn:E; [|done].
  destruct (outbox_claimable row now) eqn:F; [|done]. intros [= <- <-]. by exists row.
Qed.

Lemma settle_outbox_spec f c now d d' :
  settle_outbox f c now d = Ok d' →
  ∃ row, db_outbox d !! oc_ID c = Some row ∧ outbox_held c now row = true
    ∧ d' = set_outbox <[oc_ID c := f row]> d.
Proof.
  unfold settle_outbox. destruct (db_outbox d !! oc_ID c) as [row|] eqn:E; [|done].
  destruct (outbox_held c now row) eqn:F; [|done]. intros [= <-]. by exists row.
Qed.

Lemma outbox_held_spec c now row :
  outbox_held c now row = true ↔
  out_isolation_domain_id row = oc_IsolationDomainID c ∧ out_status row = "pending"
  ∧ out_lease_owner row = Some (oc_LeaseOwner c) ∧ out_lease_token row = oc_FencingToken c
  ∧ ∃ t, out_lease_expires_at row = Some t ∧ (now < t)%Z.
Proof.
  unfold outbox_held. rewrite !andb_true_iff, !bool_decide_eq_true.
  destruct (out_lease_expires_at row); [rewrite bool_decide_eq_true|]; naive_solver.
Qed.

(** How one event's row may move: unchanged, or from [pending] with the token
    kept (settled, no holder) or raised. *)
Definition outbox_le (row row' : outbox_row) : Prop :=
  row' = row
  ∨ out_status row = "pending"
    ∧ (out_lease_token row' = out_lease_token row ∧ out_lease_owner row' = None
       ∨ (out_lease_token row < out_lease_token row')%Z).

Lemma outbox_step_le d d' id row :
  outbox_step d d' → db_outbox d !! id = Some row →
  ∃ row', db_outbox d' !! id = Some row' ∧ outbox_le row row'.
Proof.
  intros S Hr.
  assert (I : ∀ id0 row0 row0', db_outbox d !! id0 = Some row0 → outbox_le row0 row0' →
    ∃ row', <[id0 := row0']> (db_outbox d) !! id = Some row' ∧ outbox_le row row').
  { intros id0 row0 row0' H0 L. destruct (decide (id0 = id)) as [->|N].
    - exists row0'. rewrite lookup_insert_eq. simplify_eq. done.
    - exists row. rewrite lookup_insert_ne by done. split; [done|by left]. }
  destruct S as [worker duration now id0 d d' c Hc|e c d d' Hc|e c due d d' Hc|e a b c ev ac co ou op now d].
  - apply outbox_claim_update_spec in Hc as (row0 & H0 & Hcl & -> & _). simpl. eapply I; [done|].
    unfold outbox_claimable in Hcl. to_prop. right. simpl. split; [done|]. right. lia.
  - apply settle_outbox_spec in Hc as (row0 & H0 & Hh%outbox_held_spec & ->). simpl. eapply I; [done|].
    right. simpl. naive_solver.
  - apply settle_outbox_spec in Hc as (row0 & H0 & Hh%outbox_held_spec & ->). simpl. eapply I; [done|].
    right. simpl. naive_solver.
  - exists row. simpl. split; [|by left].
    destruct (db_outbox d !! Identity.Derived _ _) eqn:E; [done|]. by rewrite lookup_insert_ne by congruence.
Qed.

(** A settled event is final: once delivered or dead-lettered, no later
    claim, completion, retry or new event changes its row, so an event is never
    delivered again after it was marked delivered. *)
Theorem outbox_settled_final d d' id row :
  rtc outbox_step d d' → db_outbox d !! id = Some row → out_status row ≠ "pending" →
  db_outbox d' !! id = Some row.
Proof.
  induction 1 as [d|d d1 d' S _ IH]; [done|]. intros Hr Hs.
  destruct (outbox_step_le _ _ _ _ S Hr) as (row1 & H1 & [->|[? _]]); [by apply IH|done].
Qed.

(** A claim is spent on a row with a newer token, or with no holder, or that is
    settled. *)
Definition outbox_spent (c : OutboxClaim) (row : outbox_row) : Prop :=
  (oc_FencingToken c < out_lease_token row)%Z
  ∨ out_lease_owner row = None ∧ (oc_FencingToken c ≤ out_lease_token row)%Z.

Lemma outbox_spent_run d d' c row :
  rtc outbox_step d d' → db_outbox d !! oc_ID c = Some row → outbox_spent c row →
  ∃ row', db_outbox d' !! oc_ID c = Some row' ∧ outbox_spent c row'.
Proof.
  intros R. revert row. induction R as [d|d d1 d' S _ IH]; [eauto|]. intros row Hr Hs.
  destruct (outbox_step_le _ _ _ _ S Hr) as (row1 & H1 & L). apply (IH row1); [done|].
  unfold outbox_spent in *. destruct L as [->|[_ [[T O]|T]]]; [done| |]; destruct Hs as [Hs|[? Hs]];
    try (left; lia); right; split; (done || lia).
Qed.

Lemma outbox_spent_refused c row e d :
  db_outbox d !! oc_ID c = Some row → outbox_spent c row →
  CompleteOutbox e c d = Err ErrLeaseLost ∧ ∀ due, RetryOutbox e c due d = Err ErrLeaseLost.
Proof.
  intros Hr Hs. unfold CompleteOutbox, RetryOutbox, settle_outbox. rewrite Hr.
  destruct (outbox_held c (env_clock_timestamp e) row) eqn:F; [|done].
  apply outbox_held_spec in F as (_ & _ & O & T & _). destruct Hs as [Hs|[N _]]; [lia|congruence].
Qed.

(** Outbox leases are fenced: after a claim was completed, retried, or
    superseded by a newer claim of the same event, every later attempt to complete
    or retry with it answers the lease-lost error, in every later state. *)
Theorem outbox_claim_fenced d d1 d2 c e e' due worker duration now c' :
  CompleteOutbox e c d = Ok d1 ∨ RetryOutbox e c due d = Ok d1
  ∨ (outbox_claim_update worker duration now (oc_ID c) d = (d1, Some c')
     ∧ ∃ row, db_outbox d !! oc_ID c = Some row ∧ (oc_FencingToken c ≤ out_lease_token row)%Z) →
  rtc outbox_step d1 d2 →
  CompleteOutbox e' c d2 = Err ErrLeaseLost ∧ ∀ due', RetryOutbox e' c due' d2 = Err ErrLeaseLost.
Proof.
  intros H R.
  assert (∃ row, db_outbox d1 !! oc_ID c = Some row ∧ outbox_spent c row) as (row & Hr & Hs).
  { destruct H as [H|[H|[H (row & Hr & Ht)]]].
    - apply settle_outbox_spec in H as (row & Hr & Hh%outbox_held_spec & ->). eexists. simpl.
      rewrite lookup_insert_eq. split; [done|]. right. simpl. split; [done|]. destruct Hh as (_ & _ & _ & -> & _). lia.
    - apply settle_outbox_spec in H as (row & Hr & Hh%outbox_held_spec & ->). eexists. simpl.
      rewrite lookup_insert_eq. split; [done|]. right. simpl. split; [done|]. destruct Hh as (_ & _ & _ & -> & _). lia.
    - apply outbox_claim_update_spec in H as (row' & Hr' & _ & -> & _). simplify_eq. eexists. simpl.
      rewrite lookup_insert_eq. split; [done|]. left. simpl. lia. }
  destruct (outbox_spent_run _ _ _ _ R Hr Hs) as (row' & Hr' & Hs'). by eapply outbox_spent_refused.
Qed.

(** ** What a dispatch does *)

Lemma claimOutbox_spec e scope worker duration d d' c :
  claimOutbox e scope worker duration d = Ok (d', Some c) →
  ∃ row, db_outbox d !! oc_ID c = Some row ∧ outbox_eligible scope (env_clock_timestamp e) row = true
    ∧ (∀ id' row', db_outbox d !! id' = Some row' → outbox_eligible scope (env_clock_timestamp e) row' = true →
         position_before (outbox_position (oc_ID c, row)) (outbox_position (id', row')) = true)
    ∧ d' = set_outbox <[oc_ID c := claimed_outbox worker (env_clock_timestamp e + duration) row]> d
    ∧ c = outbox_claim_of (oc_ID c) worker (claimed_outbox worker (env_clock_timestamp e + duration) row).
Proof.
  unfold claimOutbox. destruct (_ && _); [|done]. cbv zeta. unfold outbox_candidate.
  destruct (first_by outbox_position _) as [[id row]|] eqn:E; [|done]. simpl. intros [= Hc].
  apply first_of_domains in E as [[El Ei%elem_of_map_to_list]%list_elem_of_filter Em]. simpl in *.
  apply outbox_claim_update_spec in Hc as (row' & Hr & _ & -> & ->). simplify_eq. simpl.
  exists row. repeat split; auto. intros id' row' Hr' El'. apply (Em (id', row')).
  apply list_elem_of_filter. split; [done|]. by apply elem_of_map_to_list.
Qed.

Section outcomes.
Context {W : Type} `{Publisher W}.

(** One dispatch, exactly: it takes the first due event over all isolation
    domains; if publishing succeeds within the lease the event is delivered; if it
    fails the event is pending again after the back-off, or dead-lettered when this
    was its twentieth attempt; if the lease ran out meanwhile the settlement is
    refused and the event stays claimable for another delivery. *)
Theorem dispatch_outcome e1 e2 worker d w d1 claim :
  ClaimOutbox e1 worker dispatch_lease d = Ok (d1, Some claim) →
  ∃ row, db_outbox d !! oc_ID claim = Some row ∧ outbox_eligible "" (env_clock_timestamp e1) row = true
    ∧ (∀ id' row', db_outbox d !! id' = Some row' → outbox_eligible "" (env_clock_timestamp e1) row' = true →
         position_before (outbox_position (oc_ID claim, row)) (outbox_position (id', row')) = true)
    ∧ let '(d2, w2, (claimed, r)) := RunOne e1 e2 worker (d, w) in
      claimed = true ∧ w2 = (Publish claim w).1
      ∧ (if decide (env_clock_timestamp e2 < env_clock_timestamp e1 + dispatch_lease)%Z then
           r = Ok () ∧ ∃ row2, db_outbox d2 !! oc_ID claim = Some row2
             ∧ out_attempt row2 = (out_attempt row + 1)%Z
             ∧ match (Publish claim w).2 with
               | None => out_status row2 = "delivered"
               | Some _ => out_status row2 = (if decide (20 ≤ out_attempt row + 1)%Z then "dead_letter" else "pending")
                   ∧ out_available_at row2 = (env_now e2 + retry_delay (out_attempt row + 1))%Z
                   ∧ out_lease_owner row2 = None
               end
         else r = Err ErrLeaseLost ∧ d2 = d1
              ∧ (out_status <$> db_outbox d2 !! oc_ID claim) = Some "pending").
Proof.
  intros Hc. pose proof Hc as Hc'.
  apply claimOutbox_spec in Hc' as (row & Hr & El & Em & E1 & E2). exists row.
  split; [done|]. split; [done|]. split; [done|]. unfold RunOne. rewrite Hc.
  set (row1 := claimed_outbox worker (env_clock_timestamp e1 + dispatch_lease) row) in *.
  assert (Hr1 : db_outbox d1 !! oc_ID claim = Some row1) by (rewrite E1; simpl; apply lookup_insert_eq).
  assert (Hp : out_status row = "pending") by (unfold outbox_eligible, outbox_claimable in El; by to_prop).
  assert (Hh : outbox_held claim (env_clock_timestamp e2) row1
    = bool_decide (env_clock_timestamp e2 < env_clock_timestamp e1 + dispatch_lease)%Z).
  { unfold outbox_held. rewrite E2. simpl. rewrite Hp, !bool_decide_eq_true_2 by done. done. }
  assert (Ha : oc_Attempt claim = (out_attempt row + 1)%Z) by (by rewrite E2).
  unfold RetryOutbox, CompleteOutbox, settle_outbox. rewrite Hr1, Hh.
  destruct (Publish claim w) as [w2 [er|]]; case_bool_decide as L; simpl; repeat split; auto.
  - rewrite decide_True by done. split; [done|]. eexists. rewrite lookup_insert_eq. split; [done|].
    simpl. rewrite Ha. auto.
  - rewrite decide_False by done. rewrite Hr1. simpl. by rewrite Hp.
  - rewrite decide_True by done. split; [done|]. eexists. rewrite lookup_insert_eq. split; [done|]. auto.
  - rewrite decide_False by done. rewrite Hr1. simpl. by rewrite Hp.
Qed.
End outcomes.

(** * Outbox delivery on the example run *)

Definition no_outbox_claim : OutboxClaim := OutClaim "" "" "" "" "" JNull "" 0 "" 0.

Definition ex_outbox_claimed : result (db * option OutboxClaim) :=
  ClaimOutbox (ex_env 20) "dispatcher-1" dispatch_lease (w_db ex_invoked).
Definition ex_outbox_db : db := (from_ok (empty_db, None) ex_outbox_claimed).1.
Definition ex_outbox_claim : OutboxClaim := default no_outbox_claim (from_ok (empty_db, None) ex_outbox_claimed).2.
Definition ex_outbox_delivered : result db := CompleteOutbox (ex_env 21) ex_outbox_claim ex_outbox_db.
Definition no_outbox_row : outbox_row :=
  OutboxRow "" "" "" "" JNull "" "" 0 0 None 0 None 0 None.
Definition ex_outbox_row : outbox_row :=
  default no_outbox_row (db_outbox (from_ok empty_db ex_outbox_delivered) !! oc_ID ex_outbox_claim).

Lemma outbox_settled_final_witness :
  out_status ex_outbox_row = "delivered"
  ∧ db_outbox (from_ok empty_db ex_outbox_delivered) !! oc_ID ex_outbox_claim = Some ex_outbox_row.
Proof.
  split; [vm_compute; reflexivity|].
  apply (outbox_settled_final (from_ok empty_db ex_outbox_delivered) (from_ok empty_db ex_outbox_delivered)
    (oc_ID ex_outbox_claim) ex_outbox_row).
  - apply rtc_refl.
  - vm_compute. reflexivity.
  - apply (bool_decide_unpack _). vm_compute. exact I.
Defined.

Lemma outbox_claim_fenced_witness :
  CompleteOutbox (ex_env 22) ex_outbox_claim (from_ok empty_db ex_outbox_delivered) = Err ErrLeaseLost.
Proof.
  refine (proj1 (outbox_claim_fenced ex_outbox_db (from_ok empty_db ex_outbox_delivered)
    (from_ok empty_db ex_outbox_delivered) ex_outbox_claim (ex_env 21) (ex_env 22) 0 "" 0 0 ex_outbox_claim _ _)).
  - left. apply (from_ok_eq empty_db ex_outbox_delivered). vm_compute. reflexivity.
  - apply rtc_refl.
Defined.

(** A publisher that counts deliveries and always acknowledges
    ([AcknowledgePublisher] with a counter). *)
#[local] Instance counting_publisher : Publisher nat := λ _ n, (S n, None).

Lemma dispatch_outcome_witness :
  ∃ row, db_outbox (w_db ex_invoked) !! oc_ID ex_outbox_claim = Some row
    ∧ outbox_eligible "" (env_clock_timestamp (ex_env 20)) row = true.
Proof.
  destruct (dispatch_outcome (ex_env 20) (ex_env 21) "dispatcher-1" (w_db ex_invoked) 0%nat ex_outbox_db
    ex_outbox_claim) as (row & H1 & H2 & _).
  - apply (from_ok_pair (empty_db, None) ex_outbox_claimed); vm_compute; reflexivity.
  - exists row. split; [exact H1|exact H2].
Defined.

(** Dispatching repeatedly delivers the six events of the run once each, oldest
    first, and then finds nothing. *)
Definition ex_dispatch (s : db * nat) : db * nat := (Outbox.RunOne (ex_env 20) (ex_env 21) "dispatcher-1" s).1.

Example ex_dispatch_all :
  (Nat.iter 12 ex_dispatch (w_db ex_invoked, 0%nat)).2 = size (db_outbox (w_db ex_invoked)).
Proof. vm_compute. reflexivity. Qed.
