(* ===== verification/GatewayStore.v ===== *)
(** * Execution gateways and placements

    [internal/execution/memory_store.go] and the types of [provider.go]: the
    process-local store that registers execution gateways, places operations on
    the least loaded eligible one, and tracks executions.  A Go map is a finite
    map from the scoped key; the methods run under the store's mutex, so each is
    one step. *)
From S2P Require Import Prelude.
From S2P Require Import GoStrings.
From S2P Require Import Sha256.

Definition GatewayActive := "active".
Definition GatewayDraining := "draining".
Definition GatewayUnavailable := "unavailable".
Definition GatewayLost := "lost".

Definition ErrNoGateway : error := ESentinel "execution.ErrNoGateway".
Definition ErrPlacementMissing : error := ESentinel "execution.ErrPlacementMissing".
Definition ErrExecutionMissing : error := ESentinel "execution.ErrExecutionMissing".
Definition ErrStateConflict : error := ESentinel "execution.ErrStateConflict".

Definition ValidGatewayState (state : string) : bool :=
  bool_decide (state ∈ [GatewayActive; GatewayDraining; GatewayUnavailable; GatewayLost]).

Definition NormalizeCapabilities (capabilities : list string) : result (list string) :=
  if decide ("" ∈ capabilities) then Err (ENew "capability names must not be empty")
  else Ok (sort_compact capabilities).

Record GatewayRegistration := GatewayReg {
  gr_IsolationDomainID : string; gr_ID : string; gr_Endpoint : string; gr_Driver : string;
  gr_Capabilities : list string }.

Record Gateway := MkGateway {
  g_IsolationDomainID : string; g_ID : string; g_Driver : string; g_State : string;
  g_Capabilities : list string }.

Record PlacementRequest := PlacementReq {
  pr_IsolationDomainID : string; pr_OperationID : string; pr_RequiredCapabilities : list string }.

Record Placement := MkPlacement { p_IsolationDomainID : string; p_ID : string; p_GatewayID : string }.

Record Execution := MkExecution {
  x_IsolationDomainID : string; x_ID : string; x_GatewayID : string; x_State : string }.

Record GatewayRecord := GatewayRec { grec_Gateway : Gateway; grec_Endpoint : string }.

Record ExecutionRecord := ExecutionRec {
  xr_Execution : Execution; xr_PlacementID : string; xr_OperationID : string; xr_SandboxName : string }.

Record memoryGateway := MemGateway { mg_record : GatewayRecord; mg_reserved : Z }.

Record memoryPlacement := MemPlacement {
  mp_placement : Placement; mp_operationID : string; mp_requiredCapabilities : list string;
  mp_state : string }.

Record MemoryStateStore := MemStore {
  gateways : gmap string memoryGateway;
  placements : gmap string memoryPlacement;
  executions : gmap string ExecutionRecord;
}.

Definition NewMemoryStateStore : MemoryStateStore := MemStore ∅ ∅ ∅.

Definition scopedKey (isolationDomainID id : string) : string := isolationDomainID +:+ chr 0 +:+ id.

Definition containsCapabilities (have required : list string) : bool :=
  forallb (λ item, bool_decide (item ∈ have)) required.

Definition validMemoryExecutionState (state : string) : bool :=
  bool_decide (state ∈ ["provisioning"; "ready"; "running"; "waiting"; "deleting"; "terminated"; "error"; "unknown"]).

Definition sameMemoryExecutionIdentity (left right : ExecutionRecord) : bool :=
  bool_decide (x_IsolationDomainID (xr_Execution left) = x_IsolationDomainID (xr_Execution right))
  && bool_decide (x_ID (xr_Execution left) = x_ID (xr_Execution right))
  && bool_decide (x_GatewayID (xr_Execution left) = x_GatewayID (xr_Execution right))
  && bool_decide (xr_PlacementID left = xr_PlacementID right)
  && bool_decide (xr_OperationID left = xr_OperationID right)
  && bool_decide (xr_SandboxName left = xr_SandboxName right).

(** ** Gateways *)

Definition with_gateway_state (state : string) (entry : memoryGateway) : memoryGateway :=
  let g := grec_Gateway (mg_record entry) in
  MemGateway (GatewayRec (MkGateway (g_IsolationDomainID g) (g_ID g) (g_Driver g) state (g_Capabilities g))
                (grec_Endpoint (mg_record entry))) (mg_reserved entry).

Definition with_placement_state (state : string) (p : memoryPlacement) : memoryPlacement :=
  MemPlacement (mp_placement p) (mp_operationID p) (mp_requiredCapabilities p) state.

Definition with_execution_state (state : string) (r : ExecutionRecord) : ExecutionRecord :=
  let x := xr_Execution r in
  ExecutionRec (MkExecution (x_IsolationDomainID x) (x_ID x) (x_GatewayID x) state)
    (xr_PlacementID r) (xr_OperationID r) (xr_SandboxName r).

Definition RegisterGateway (registration : GatewayRegistration) (s : MemoryStateStore)
  : result (MemoryStateStore * Gateway) :=
  if decide (gr_IsolationDomainID registration = "" ∨ gr_ID registration = ""
             ∨ gr_Driver registration = "" ∨ gr_Endpoint registration = "") then
    Err (ENew "isolation domain, gateway id, driver, and endpoint are required")
  else
  capabilities ← NormalizeCapabilities (gr_Capabilities registration);
  let key := scopedKey (gr_IsolationDomainID registration) (gr_ID registration) in
  match gateways s !! key with
  | Some existing =>
      if decide (grec_Endpoint (mg_record existing) ≠ gr_Endpoint registration
                 ∨ g_Driver (grec_Gateway (mg_record existing)) ≠ gr_Driver registration
                 ∨ g_Capabilities (grec_Gateway (mg_record existing)) ≠ capabilities) then Err ErrStateConflict
      else Ok (s, grec_Gateway (mg_record existing))
  | None =>
      let gateway := MkGateway (gr_IsolationDomainID registration) (gr_ID registration)
        (gr_Driver registration) GatewayActive capabilities in
      Ok (MemStore (<[key := MemGateway (GatewayRec gateway (gr_Endpoint registration)) 0]> (gateways s))
            (placements s) (executions s), gateway)
  end.

(** What [SetGatewayState] does to placements and executions of a lost gateway. *)
Definition lose_placement (isolationDomainID gatewayID : string) (p : memoryPlacement) : memoryPlacement :=
  if decide (p_IsolationDomainID (mp_placement p) = isolationDomainID
             ∧ p_GatewayID (mp_placement p) = gatewayID
             ∧ (mp_state p = "reserved" ∨ mp_state p = "active"))
  then with_placement_state "lost" p else p.

Definition lose_execution (isolationDomainID gatewayID : string) (r : ExecutionRecord) : ExecutionRecord :=
  if decide (x_IsolationDomainID (xr_Execution r) = isolationDomainID
             ∧ x_GatewayID (xr_Execution r) = gatewayID
             ∧ x_State (xr_Execution r) ≠ "terminated" ∧ x_State (xr_Execution r) ≠ "error")
  then with_execution_state "unknown" r else r.

Definition SetGatewayState (isolationDomainID gatewayID state : string) (s : MemoryStateStore)
  : result MemoryStateStore :=
  if ValidGatewayState state then
    let key := scopedKey isolationDomainID gatewayID in
    match gateways s !! key with
    | None => Err ErrNoGateway
    | Some entry =>
        let gs := <[key := with_gateway_state state entry]> (gateways s) in
        if decide (state = GatewayLost) then
          Ok (MemStore gs (lose_placement isolationDomainID gatewayID <$> placements s)
                (lose_execution isolationDomainID gatewayID <$> executions s))
        else Ok (MemStore gs (placements s) (executions s))
    end
  else Err (ENew "invalid gateway state").

Definition GetGateway (isolationDomainID gatewayID : string) (s : MemoryStateStore) : result GatewayRecord :=
  match gateways s !! scopedKey isolationDomainID gatewayID with
  | None => Err ErrNoGateway
  | Some entry => Ok (mg_record entry)
  end.

(** ** Placements *)

Definition gateway_eligible (isolationDomainID : string) (capabilities : list string)
    (entry : memoryGateway) : bool :=
  let g := grec_Gateway (mg_record entry) in
  bool_decide (g_IsolationDomainID g = isolationDomainID) && bool_decide (g_State g = GatewayActive)
  && containsCapabilities (g_Capabilities g) capabilities.

(** The order of [sort.Slice]. *)
Definition gateway_less (a b : memoryGateway) : bool :=
  if decide (mg_reserved a = mg_reserved b) then
    bool_decide (slt (g_ID (grec_Gateway (mg_record a))) (g_ID (grec_Gateway (mg_record b))))
  else bool_decide (mg_reserved a < mg_reserved b)%Z.

(** [eligible[0]] after sorting: an entry no other entry is less than. *)
Fixpoint least_gateway (l : list (string * memoryGateway)) : option (string * memoryGateway) :=
  match l with
  | [] => None
  | x :: rest =>
      match least_gateway rest with
      | None => Some x
      | Some y => if gateway_less y.2 x.2 then Some y else Some x
      end
  end.

Definition ReservePlacement (request : PlacementRequest) (s : MemoryStateStore)
  : result (MemoryStateStore * Placement) :=
  if decide (pr_IsolationDomainID request = "" ∨ pr_OperationID request = "") then
    Err (ENew "isolation domain and operation are required")
  else
  capabilities ← NormalizeCapabilities (pr_RequiredCapabilities request);
  let placementID := Identity.Derived "plc" (pr_IsolationDomainID request +:+ ":" +:+ pr_OperationID request) in
  let key := scopedKey (pr_IsolationDomainID request) placementID in
  match placements s !! key with
  | Some record =>
      if decide (mp_operationID record ≠ pr_OperationID request ∨ mp_requiredCapabilities record ≠ capabilities)
      then Err ErrStateConflict
      else Ok (s, mp_placement record)
  | None =>
      match least_gateway (filter (λ e, gateway_eligible (pr_IsolationDomainID request) capabilities e.2 = true)
                             (map_to_list (gateways s))) with
      | None => Err ErrNoGateway
      | Some (gkey, selected) =>
          let placement := MkPlacement (pr_IsolationDomainID request) placementID
            (g_ID (grec_Gateway (mg_record selected))) in
          Ok (MemStore (<[gkey := MemGateway (mg_record selected) (mg_reserved selected + 1)]> (gateways s))
                (<[key := MemPlacement placement (pr_OperationID request) capabilities "reserved"]> (placements s))
                (executions s), placement)
      end
  end.

Definition GetPlacement (isolationDomainID placementID : string) (s : MemoryStateStore) : result Placement :=
  match placements s !! scopedKey isolationDomainID placementID with
  | None => Err ErrPlacementMissing
  | Some record => Ok (mp_placement record)
  end.

(** ** Executions *)

Definition SaveExecution (record : ExecutionRecord) (s : MemoryStateStore) : result MemoryStateStore :=
  let x := xr_Execution record in
  if decide (x_IsolationDomainID x = "" ∨ x_ID x = "" ∨ xr_PlacementID record = ""
             ∨ xr_OperationID record = "" ∨ xr_SandboxName record = ""
             ∨ validMemoryExecutionState (x_State x) = false) then
    Err (ENew "complete execution identity and valid state are required")
  else
  let key := scopedKey (x_IsolationDomainID x) (x_ID x) in
  match executions s !! key with
  | Some existing => if sameMemoryExecutionIdentity existing record then Ok s else Err ErrStateConflict
  | None =>
      let placementKey := scopedKey (x_IsolationDomainID x) (xr_PlacementID record) in
      match placements s !! placementKey with
      | None => Err ErrPlacementMissing
      | Some placement =>
          if decide (p_GatewayID (mp_placement placement) ≠ x_GatewayID x
                     ∨ mp_operationID placement ≠ xr_OperationID record
                     ∨ (mp_state placement ≠ "reserved" ∧ mp_state placement ≠ "active")) then
            Err ErrStateConflict
          else
            Ok (MemStore (gateways s)
                  (<[placementKey := with_placement_state
                      (if decide (x_State x = "terminated") then "released" else "active") placement]>
                     (placements s))
                  (<[key := record]> (executions s)))
      end
  end.

Definition GetExecution (isolationDomainID id : string) (s : MemoryStateStore) : result ExecutionRecord :=
  match executions s !! scopedKey isolationDomainID id with
  | None => Err ErrExecutionMissing
  | Some record => Ok record
  end.

(** A map is iterated in no fixed order; here in the order of [map_to_list]. *)
Definition GetExecutionByOperation (isolationDomainID operationID : string) (s : MemoryStateStore) : result Execution :=
  match list_find (λ kr : string * ExecutionRecord, x_IsolationDomainID (xr_Execution kr.2) = isolationDomainID
                     ∧ xr_OperationID kr.2 = operationID) (map_to_list (executions s)) with
  | None => Err ErrExecutionMissing
  | Some (_, (_, record)) => Ok (xr_Execution record)
  end.

(** [gateway != nil && gateway.reserved > 0] *)
Definition release_gateway (key : string) (gs : gmap string memoryGateway) : gmap string memoryGateway :=
  match gs !! key with
  | Some g => if decide (0 < mg_reserved g)%Z
              then <[key := MemGateway (mg_record g) (mg_reserved g - 1)]> gs else gs
  | None => gs
  end.

Definition UpdateExecutionState (isolationDomainID id state : string) (s : MemoryStateStore)
  : result MemoryStateStore :=
  let key := scopedKey isolationDomainID id in
  match executions s !! key with
  | None => Err ErrExecutionMissing
  | Some record =>
      let alreadyTerminated := bool_decide (x_State (xr_Execution record) = "terminated") in
      if alreadyTerminated && negb (bool_decide (state = "terminated")) then Err ErrStateConflict
      else
        let xs := <[key := with_execution_state state record]> (executions s) in
        if bool_decide (state = "terminated") && negb alreadyTerminated then
          let placementKey := scopedKey isolationDomainID (xr_PlacementID record) in
          match placements s !! placementKey with
          | Some placement =>
              Ok (MemStore
                    (release_gateway (scopedKey isolationDomainID (p_GatewayID (mp_placement placement)))
                       (gateways s))
                    (<[placementKey := with_placement_state "released" placement]> (placements s)) xs)
          | None => Ok (MemStore (gateways s) (placements s) xs)
          end
        else Ok (MemStore (gateways s) (placements s) xs)
  end.

(** ** Runs of the store *)
Inductive gateway_call :=
  | CallRegister (r : GatewayRegistration)
  | CallSetState (isolationDomainID gatewayID state : string)
  | CallReserve (r : PlacementRequest)
  | CallSave (r : ExecutionRecord)
  | CallUpdate (isolationDomainID id state : string).

Definition perform_call (c : gateway_call) (s : MemoryStateStore) : result MemoryStateStore :=
  match c with
  | CallRegister r => fst <$> RegisterGateway r s
  | CallSetState d i st => SetGatewayState d i st s
  | CallReserve r => fst <$> ReservePlacement r s
  | CallSave r => SaveExecution r s
  | CallUpdate d i st => UpdateExecutionState d i st s
  end.

(** The isolation domain a call names. *)
Definition call_domain (c : gateway_call) : string :=
  match c with
  | CallRegister r => gr_IsolationDomainID r
  | CallSetState d _ _ => d
  | CallReserve r => pr_IsolationDomainID r
  | CallSave r => x_IsolationDomainID (xr_Execution r)
  | CallUpdate d _ _ => d
  end.

Definition gateway_step (s s' : MemoryStateStore) : Prop := ∃ c, perform_call c s = Ok s'.

(** ** What each call changes *)

Lemma RegisterGateway_spec r s s' g :
  RegisterGateway r s = Ok (s', g) →
  s' = s ∨ ∃ capabilities, NormalizeCapabilities (gr_Capabilities r) = Ok capabilities
    ∧ gateways s !! scopedKey (gr_IsolationDomainID r) (gr_ID r) = None
    ∧ g = MkGateway (gr_IsolationDomainID r) (gr_ID r) (gr_Driver r) GatewayActive capabilities
    ∧ s' = MemStore (<[scopedKey (gr_IsolationDomainID r) (gr_ID r)
                       := MemGateway (GatewayRec g (gr_Endpoint r)) 0]> (gateways s)) (placements s) (executions s).
Proof.
  unfold RegisterGateway. case_decide as D0; [done|]. intros (caps & Hc & H)%result_bind_Ok. cbv zeta in H.
  destruct (gateways s !! _) eqn:E; [case_decide; simplify_eq; by left|]. simplify_eq. right. eauto 10.
Qed.

Definition placement_key (r : PlacementRequest) : string :=
  scopedKey (pr_IsolationDomainID r)
    (Identity.Derived "plc" (pr_IsolationDomainID r +:+ ":" +:+ pr_OperationID r)).

Lemma ReservePlacement_spec r s s' p :
  ReservePlacement r s = Ok (s', p) →
  ∃ capabilities, NormalizeCapabilities (pr_RequiredCapabilities r) = Ok capabilities ∧
  ((s' = s ∧ ∃ rec, placements s !! placement_key r = Some rec ∧ mp_placement rec = p
      ∧ mp_operationID rec = pr_OperationID r ∧ mp_requiredCapabilities rec = capabilities)
   ∨ (placements s !! placement_key r = None ∧ ∃ gkey selected,
      least_gateway (filter (λ e, gateway_eligible (pr_IsolationDomainID r) capabilities e.2 = true)
                       (map_to_list (gateways s))) = Some (gkey, selected)
      ∧ p = MkPlacement (pr_IsolationDomainID r)
              (Identity.Derived "plc" (pr_IsolationDomainID r +:+ ":" +:+ pr_OperationID r))
              (g_ID (grec_Gateway (mg_record selected)))
      ∧ s' = MemStore (<[gkey := MemGateway (mg_record selected) (mg_reserved selected + 1)]> (gateways s))
               (<[placement_key r := MemPlacement p (pr_OperationID r) capabilities "reserved"]> (placements s))
               (executions s))).
Proof.
  unfold ReservePlacement. case_decide as D0; [done|]. intros (caps & Hc & H)%result_bind_Ok. cbv zeta in H.
  exists caps. split; [done|]. fold (placement_key r) in H.
  destruct (placements s !! placement_key r) as [rec|] eqn:E.
  - case_decide as D; [done|]. simplify_eq. left. split; [done|]. exists rec.
    repeat split; try done; apply dec_stable; tauto.
  - right. split; [done|]. destruct (least_gateway _) as [[gkey sel]|] eqn:L; [|done].
    injection H as <- <-. eauto 10.
Qed.

Lemma SaveExecution_spec r s s' :
  SaveExecution r s = Ok s' →
  let x := xr_Execution r in
  s' = s ∨ ∃ p, executions s !! scopedKey (x_IsolationDomainID x) (x_ID x) = None
    ∧ placements s !! scopedKey (x_IsolationDomainID x) (xr_PlacementID r) = Some p
    ∧ p_GatewayID (mp_placement p) = x_GatewayID x ∧ mp_operationID p = xr_OperationID r
    ∧ (mp_state p = "reserved" ∨ mp_state p = "active")
    ∧ s' = MemStore (gateways s)
             (<[scopedKey (x_IsolationDomainID x) (xr_PlacementID r) := with_placement_state
                 (if decide (x_State x = "terminated") then "released" else "active") p]> (placements s))
             (<[scopedKey (x_IsolationDomainID x) (x_ID x) := r]> (executions s)).
Proof.
  unfold SaveExecution. cbv zeta. case_decide; [done|].
  destruct (executions s !! _) eqn:E; [case_match; intros; simplify_eq; by left|].
  destruct (placements s !! _) as [p|] eqn:Ep; [|done]. case_decide as D; [done|]. intros [= <-].
  right. exists p. repeat split; auto; try (apply dec_stable; tauto).
Qed.

Lemma UpdateExecutionState_spec d i st s s' :
  UpdateExecutionState d i st s = Ok s' →
  ∃ r, executions s !! scopedKey d i = Some r
    ∧ (x_State (xr_Execution r) = "terminated" → st = "terminated")
    ∧ executions s' = <[scopedKey d i := with_execution_state st r]> (executions s)
    ∧ ((gateways s' = gateways s ∧ placements s' = placements s)
       ∨ ∃ p, placements s !! scopedKey d (xr_PlacementID r) = Some p
           ∧ placements s' = <[scopedKey d (xr_PlacementID r) := with_placement_state "released" p]> (placements s)
           ∧ gateways s' = release_gateway (scopedKey d (p_GatewayID (mp_placement p))) (gateways s)).
Proof.
  unfold UpdateExecutionState. cbv zeta. destruct (executions s !! _) as [r|] eqn:E; [|done].
  destruct (bool_decide (x_State (xr_Execution r) = "terminated")) eqn:T, (bool_decide (st = "terminated")) eqn:T';
    simpl; to_prop; try done.
  - intros [= <-]. exists r. simpl. eauto 10.
  - destruct (placements s !! _) as [p|] eqn:Ep; intros [= <-]; exists r; simpl; eauto 10.
  - intros [= <-]. exists r. simpl. repeat split; auto; tauto.
Qed.

(** ** Placements are stable *)

Definition same_placement (p p' : memoryPlacement) : Prop :=
  mp_placement p' = mp_placement p ∧ mp_operationID p' = mp_operationID p
  ∧ mp_requiredCapabilities p' = mp_requiredCapabilities p.

Lemma gateway_step_placement s s' k p :
  gateway_step s s' → placements s !! k = Some p →
  ∃ p', placements s' !! k = Some p' ∧ same_placement p p'.
Proof.
  intros [c Hc] Hp.
  assert (U : ∀ k0 st p0, placements s !! k0 = Some p0 →
    ∃ p', <[k0 := with_placement_state st p0]> (placements s) !! k = Some p' ∧ same_placement p p').
  { intros k0 st p0 H0. destruct (decide (k0 = k)) as [->|N].
    - simplify_eq. eexists. by rewrite lookup_insert_eq.
    - exists p. by rewrite lookup_insert_ne. }
  destruct c as [r|d i st|r|r|d i st]; simpl in Hc.
  - destruct (RegisterGateway r s) as [[s0 g]|] eqn:E; simplify_eq/=.
    apply RegisterGateway_spec in E as [->|(? & _ & _ & _ & ->)]; by exists p.
  - unfold SetGatewayState in Hc. destruct (ValidGatewayState st); [|done].
    destruct (gateways s !! _); [|done]. case_decide; simplify_eq/=; [|by exists p].
    rewrite lookup_fmap, Hp. simpl. eexists. split; [done|]. unfold lose_placement. by case_decide.
  - destruct (ReservePlacement r s) as [[s0 q]|] eqn:E; simplify_eq/=.
    apply ReservePlacement_spec in E as (? & _ & [[-> _]|(F & gk & sel & _ & _ & ->)]); [by exists p|].
    exists p. simpl. rewrite lookup_insert_ne by congruence. done.
  - apply SaveExecution_spec in Hc as [->|(q & _ & Hq & _ & _ & _ & ->)]; [by exists p|]. by apply U.
  - apply UpdateExecutionState_spec in Hc as (r & _ & _ & _ & [[_ ->]|(q & Hq & -> & _)]); [by exists p|].
    by apply U.
Qed.

(** Placing an operation is idempotent over time: once it was placed, the
    same request in any later state (other registrations, losses, executions and
    releases in between) answers the same placement and changes nothing. *)
Theorem reserve_placement_stable r s s1 p s2 :
  ReservePlacement r s = Ok (s1, p) → rtc gateway_step s1 s2 →
  ReservePlacement r s2 = Ok (s2, p).
Proof.
  intros H R.
  assert (∃ caps rec, NormalizeCapabilities (pr_RequiredCapabilities r) = Ok caps
    ∧ placements s1 !! placement_key r = Some rec ∧ mp_placement rec = p
    ∧ mp_operationID rec = pr_OperationID r ∧ mp_requiredCapabilities rec = caps)
    as (caps & rec & Hc & Hr & Hp & Ho & Hcap).
  { apply ReservePlacement_spec in H as (caps & Hc & [[-> (rec & ?)]|(_ & gk & sel & _ & _ & ->)]).
    - exists caps, rec. tauto.
    - exists caps. eexists. simpl. rewrite lookup_insert_eq. done. }
  assert (∃ rec', placements s2 !! placement_key r = Some rec' ∧ same_placement rec rec')
    as (rec' & Hr' & E1 & E2 & E3).
  { clear -R Hr. revert rec Hr. induction R as [|x y z S _ IH]; intros rec Hr; [by exists rec|].
    destruct (gateway_step_placement _ _ _ _ S Hr) as (rec1 & H1 & S1).
    destruct (IH rec1 H1) as (rec2 & H2 & S2). exists rec2. split; [done|].
    destruct S1 as (? & ? & ?), S2 as (? & ? & ?). repeat split; congruence. }
  unfold ReservePlacement in *. case_decide; [done|]. rewrite Hc. unfold mbind, result_bind. cbv beta iota zeta.
  fold (placement_key r). rewrite Hr'. rewrite decide_False by (rewrite E2, E3; tauto). by rewrite E1, Hp.
Qed.

(** ** Balanced selection *)

Definition gateway_rank (e : string * memoryGateway) : Z * string :=
  (mg_reserved e.2, g_ID (grec_Gateway (mg_record e.2))).

(** [gateway_less] is the strict lexicographic order on rank. *)
Definition rank_le (a b : Z * string) : Prop := (a.1 < b.1)%Z ∨ a.1 = b.1 ∧ String.le a.2 b.2.

Lemma rank_le_trans a b c : rank_le a b → rank_le b c → rank_le a c.
Proof.
  intros [H1|[E1 L1]] [H2|[E2 L2]]; unfold rank_le; [left; lia..|]. right. split; [lia|]. by etrans.
Qed.

Lemma gateway_less_rank a b :
  gateway_less a.2 b.2 = true → rank_le (gateway_rank a) (gateway_rank b).
Proof.
  unfold gateway_less, rank_le, gateway_rank. simpl. case_decide; rewrite bool_decide_eq_true; [|lia].
  intros [Hle _]. auto.
Qed.

Lemma gateway_not_less_rank a b :
  gateway_less b.2 a.2 = false → rank_le (gateway_rank a) (gateway_rank b).
Proof.
  unfold gateway_less, rank_le, gateway_rank. simpl. case_decide as E; rewrite bool_decide_eq_false; [|lia].
  intros N. right. split; [done|].
  destruct (decide (g_ID (grec_Gateway (mg_record a.2)) = g_ID (grec_Gateway (mg_record b.2)))) as [->|Ne];
    [reflexivity|].
  destruct (total String.le (g_ID (grec_Gateway (mg_record a.2))) (g_ID (grec_Gateway (mg_record b.2)))); [done|].
  exfalso. apply N. split; [done|congruence].
Qed.

Lemma least_gateway_spec l x :
  least_gateway l = Some x → x ∈ l ∧ ∀ y, y ∈ l → rank_le (gateway_rank x) (gateway_rank y).
Proof.
  revert x. induction l as [|y l IH]; simpl; [done|]. intros x Hx.
  assert (R : ∀ a, rank_le (gateway_rank a) (gateway_rank a)) by (intros; right; split; reflexivity).
  destruct (least_gateway l) as [m|] eqn:E.
  - destruct (IH m eq_refl) as [Hm Hl]. destruct (gateway_less m.2 y.2) eqn:G; simplify_eq.
    + split; [set_solver|]. intros z [->|Hz]%elem_of_cons; [by apply gateway_less_rank|by apply Hl].
    + split; [set_solver|]. intros z [->|Hz]%elem_of_cons; [apply R|].
      eapply rank_le_trans; [by apply gateway_not_less_rank|by apply Hl].
  - simplify_eq. destruct l as [|z l]; [|simpl in E; by destruct (least_gateway l); repeat case_match].
    split; [set_solver|]. intros z ->%list_elem_of_singleton. apply R.
Qed.

(** A new placement goes to an active gateway of the request's own isolation
    domain that has every required capability, and among those to one with the
    fewest reservations (ties by gateway id); exactly that gateway's counter grows
    by one and the placement is recorded as reserved. *)
Theorem reserve_placement_balanced r s s' p :
  ReservePlacement r s = Ok (s', p) → placements s !! placement_key r = None →
  ∃ capabilities gkey selected,
    NormalizeCapabilities (pr_RequiredCapabilities r) = Ok capabilities
    ∧ gateways s !! gkey = Some selected ∧ p_GatewayID p = g_ID (grec_Gateway (mg_record selected))
    ∧ gateway_eligible (pr_IsolationDomainID r) capabilities selected = true
    ∧ (∀ k g, gateways s !! k = Some g → gateway_eligible (pr_IsolationDomainID r) capabilities g = true →
         rank_le (gateway_rank (gkey, selected)) (gateway_rank (k, g)))
    ∧ gateways s' = <[gkey := MemGateway (mg_record selected) (mg_reserved selected + 1)]> (gateways s)
    ∧ placements s' !! placement_key r = Some (MemPlacement p (pr_OperationID r) capabilities "reserved").
Proof.
  intros H N. apply ReservePlacement_spec in H as (caps & Hc & [[_ (rec & E & _)]|(_ & gk & sel & L & -> & ->)]);
    [congruence|].
  apply least_gateway_spec in L as [[El Ei%elem_of_map_to_list]%list_elem_of_filter Hl].
  exists caps, gk, sel. simpl. rewrite lookup_insert_eq. repeat split; auto.
  intros k g Hg Eg. apply (Hl (k, g)). apply list_elem_of_filter. split; [done|]. by apply elem_of_map_to_list.
Qed.

(** ** Terminated executions *)

Lemma gateway_step_terminated s s' k r :
  gateway_step s s' → executions s !! k = Some r → x_State (xr_Execution r) = "terminated" →
  executions s' !! k = Some r.
Proof.
  intros [c Hc] Hr Ht. destruct c as [g|d i st|q|q|d i st]; simpl in Hc.
  - destruct (RegisterGateway g s) as [[s0 gw]|] eqn:E; simplify_eq/=.
    by apply RegisterGateway_spec in E as [->|(? & _ & _ & _ & ->)].
  - unfold SetGatewayState in Hc. destruct (ValidGatewayState st); [|done].
    destruct (gateways s !! _); [|done]. case_decide; simplify_eq/=; [|done].
    rewrite lookup_fmap, Hr. simpl. unfold lose_execution. by rewrite decide_False by naive_solver.
  - destruct (ReservePlacement q s) as [[s0 p]|] eqn:E; simplify_eq/=.
    by apply ReservePlacement_spec in E as (? & _ & [[-> _]|(F & gk & sel & _ & _ & ->)]).
  - apply SaveExecution_spec in Hc as [->|(p & Hn & _ & _ & _ & _ & ->)]; [done|]. simpl.
    by rewrite lookup_insert_ne by congruence.
  - apply UpdateExecutionState_spec in Hc as (r0 & Hr0 & Hst & -> & _).
    destruct (decide (scopedKey d i = k)) as [<-|Ne]; [|by rewrite lookup_insert_ne].
    rewrite Hr in Hr0. injection Hr0 as <-. rewrite lookup_insert_eq, (Hst Ht). destruct r as [[? ? ? ?] ? ? ?]. simpl in *. by subst.
Qed.

(** A terminated execution is final: no later call, not even the loss of its
    gateway, changes its record. *)
Theorem terminated_execution_final s s' k r :
  rtc gateway_step s s' → executions s !! k = Some r → x_State (xr_Execution r) = "terminated" →
  executions s' !! k = Some r.
Proof. induction 1; eauto using gateway_step_terminated. Qed.

(** ** Consistency *)

Record store_ok (s : MemoryStateStore) : Prop := StoreOk {
  ok_gateways : map_Forall (λ k g, k = scopedKey (g_IsolationDomainID (grec_Gateway (mg_record g)))
                                          (g_ID (grec_Gateway (mg_record g)))
                                   ∧ (0 ≤ mg_reserved g)%Z) (gateways s);
  ok_placements : map_Forall (λ k p, k = scopedKey (p_IsolationDomainID (mp_placement p)) (p_ID (mp_placement p))
      ∧ is_Some (gateways s !! scopedKey (p_IsolationDomainID (mp_placement p)) (p_GatewayID (mp_placement p))))
    (placements s);
  ok_executions : map_Forall (λ k r, k = scopedKey (x_IsolationDomainID (xr_Execution r)) (x_ID (xr_Execution r))
      ∧ ∃ p, placements s !! scopedKey (x_IsolationDomainID (xr_Execution r)) (xr_PlacementID r) = Some p
          ∧ p_GatewayID (mp_placement p) = x_GatewayID (xr_Execution r) ∧ mp_operationID p = xr_OperationID r)
    (executions s);
}.

(** Gateways are never forgotten. *)
Lemma gateway_step_gateway s s' k :
  gateway_step s s' → is_Some (gateways s !! k) → is_Some (gateways s' !! k).
Proof.
  intros [c Hc] Hk.
  assert (I : ∀ k0 g, is_Some (<[k0 := g]> (gateways s) !! k)).
  { intros k0 g. destruct (decide (k0 = k)) as [->|N];
      [by rewrite lookup_insert_eq|by rewrite lookup_insert_ne]. }
  destruct c as [g|d i st|q|q|d i st]; simpl in Hc.
  - destruct (RegisterGateway g s) as [[s0 gw]|] eqn:E; simplify_eq/=.
    apply RegisterGateway_spec in E as [->|(? & _ & _ & _ & ->)]; [done|apply I].
  - unfold SetGatewayState in Hc. destruct (ValidGatewayState st); [|done].
    destruct (gateways s !! scopedKey d i); [|done]. case_decide; simplify_eq/=; apply I.
  - destruct (ReservePlacement q s) as [[s0 p]|] eqn:E; simplify_eq/=.
    apply ReservePlacement_spec in E as (? & _ & [[-> _]|(F & gk & sel & _ & _ & ->)]); [done|apply I].
  - by apply SaveExecution_spec in Hc as [->|(p & _ & _ & _ & _ & _ & ->)].
  - apply UpdateExecutionState_spec in Hc as (r & _ & _ & _ & [[-> _]|(p & _ & _ & ->)]); [done|].
    unfold release_gateway. repeat case_match; try done; apply I.
Qed.

Lemma gateways_ok_step s s' :
  gateway_step s s' → store_ok s →
  map_Forall (λ k g, k = scopedKey (g_IsolationDomainID (grec_Gateway (mg_record g)))
                            (g_ID (grec_Gateway (mg_record g))) ∧ (0 ≤ mg_reserved g)%Z) (gateways s').
Proof.
  intros [c Hc] [OG _ _].
  assert (I : ∀ k0 g0 g, gateways s !! k0 = Some g0 → grec_Gateway (mg_record g) = grec_Gateway (mg_record g0)
      ∨ g_IsolationDomainID (grec_Gateway (mg_record g)) = g_IsolationDomainID (grec_Gateway (mg_record g0))
        ∧ g_ID (grec_Gateway (mg_record g)) = g_ID (grec_Gateway (mg_record g0)) →
    (0 ≤ mg_reserved g)%Z →
    map_Forall (λ k g, k = scopedKey (g_IsolationDomainID (grec_Gateway (mg_record g)))
                              (g_ID (grec_Gateway (mg_record g))) ∧ (0 ≤ mg_reserved g)%Z)
      (<[k0 := g]> (gateways s))).
  { intros k0 g0 g H0 E P. apply map_Forall_insert_2; [|done]. destruct (OG _ _ H0) as [Hk _].
    split; [|done]. destruct E as [E|[E1 E2]]; rewrite Hk; congruence. }
  destruct c as [g|d i st|q|q|d i st]; simpl in Hc.
  - destruct (RegisterGateway g s) as [[s0 gw]|] eqn:E; simplify_eq/=.
    apply RegisterGateway_spec in E as [->|(? & _ & _ & -> & ->)]; [done|].
    by apply map_Forall_insert_2.
  - unfold SetGatewayState in Hc. destruct (ValidGatewayState st); [|done].
    destruct (gateways s !! scopedKey d i) as [g0|] eqn:E; [|done]. destruct (OG _ _ E) as [_ P].
    case_decide; simplify_eq/=; (eapply I; [exact E|right; done|done]).
  - destruct (ReservePlacement q s) as [[s0 p]|] eqn:E; simplify_eq/=.
    apply ReservePlacement_spec in E as (? & _ & [[-> _]|(F & gk & sel & L & _ & ->)]); [done|]. simpl.
    apply least_gateway_spec in L as [[_ Ei%elem_of_map_to_list]%list_elem_of_filter _]. simpl in Ei.
    destruct (OG _ _ Ei) as [_ P]. eapply I; [exact Ei|by left|simpl; lia].
  - by apply SaveExecution_spec in Hc as [->|(p & _ & _ & _ & _ & _ & ->)].
  - apply UpdateExecutionState_spec in Hc as (r & _ & _ & _ & [[-> _]|(p & _ & _ & ->)]); [done|].
    unfold release_gateway. destruct (gateways s !! _) as [g0|] eqn:E; [|done]. case_decide; [|done].
    eapply I; [exact E|by left|simpl; lia].
Qed.

Lemma placements_ok_step s s' :
  gateway_step s s' → store_ok s →
  map_Forall (λ k p, k = scopedKey (p_IsolationDomainID (mp_placement p)) (p_ID (mp_placement p))
      ∧ is_Some (gateways s' !! scopedKey (p_IsolationDomainID (mp_placement p)) (p_GatewayID (mp_placement p))))
    (placements s').
Proof.
  intros S [OG OP _].
  assert (PO : map_Forall (λ k p, k = scopedKey (p_IsolationDomainID (mp_placement p)) (p_ID (mp_placement p))
      ∧ is_Some (gateways s' !! scopedKey (p_IsolationDomainID (mp_placement p)) (p_GatewayID (mp_placement p))))
    (placements s)).
  { intros k p Hp. destruct (OP _ _ Hp) as [-> Hg]. split; [done|]. by eapply gateway_step_gateway. }
  destruct S as [c Hc]; destruct c as [g|d i st|q|q|d i st]; simpl in Hc.
  - destruct (RegisterGateway g s) as [[s0 gw]|] eqn:E; simplify_eq/=.
    by apply RegisterGateway_spec in E as [->|(? & _ & _ & _ & ->)].
  - unfold SetGatewayState in Hc. destruct (ValidGatewayState st); [|done].
    destruct (gateways s !! scopedKey d i); [|done]. case_decide; simplify_eq/=; [|done].
    intros k p Hp. rewrite lookup_fmap in Hp. apply fmap_Some in Hp as (p0 & Hp0 & ->).
    unfold lose_placement. destruct (PO _ _ Hp0). by case_decide.
  - destruct (ReservePlacement q s) as [[s0 p]|] eqn:E; simplify_eq/=.
    apply ReservePlacement_spec in E as (? & _ & [[-> _]|(F & gk & sel & L & -> & ->)]); [done|]. simpl in *.
    apply map_Forall_insert_2; [|done]. split; [done|]. simpl.
    apply least_gateway_spec in L as [[El Ei%elem_of_map_to_list]%list_elem_of_filter _]. simpl in *.
    destruct (OG _ _ Ei) as [Ek _]. unfold gateway_eligible in El. to_prop.
    replace (pr_IsolationDomainID q) with (g_IsolationDomainID (grec_Gateway (mg_record sel))) by done.
    rewrite <- Ek, lookup_insert_eq. by eexists.
  - apply SaveExecution_spec in Hc as [->|(p & _ & Hp & _ & _ & _ & ->)]; [done|]. simpl in *.
    apply map_Forall_insert_2; [|done]. apply (PO _ _ Hp).
  - apply UpdateExecutionState_spec in Hc as (r & _ & _ & _ & [[_ ->]|(p & Hp & -> & _)]); [done|].
    apply map_Forall_insert_2; [|done]. apply (PO _ _ Hp).
Qed.

Lemma executions_ok_step s s' :
  gateway_step s s' → store_ok s →
  map_Forall (λ k r, k = scopedKey (x_IsolationDomainID (xr_Execution r)) (x_ID (xr_Execution r))
      ∧ ∃ p, placements s' !! scopedKey (x_IsolationDomainID (xr_Execution r)) (xr_PlacementID r) = Some p
          ∧ p_GatewayID (mp_placement p) = x_GatewayID (xr_Execution r) ∧ mp_operationID p = xr_OperationID r)
    (executions s').
Proof.
  intros S [_ _ OX].
  assert (XO : map_Forall (λ k r, k = scopedKey (x_IsolationDomainID (xr_Execution r)) (x_ID (xr_Execution r))
      ∧ ∃ p, placements s' !! scopedKey (x_IsolationDomainID (xr_Execution r)) (xr_PlacementID r) = Some p
          ∧ p_GatewayID (mp_placement p) = x_GatewayID (xr_Execution r) ∧ mp_operationID p = xr_OperationID r)
    (executions s)).
  { intros k r Hr. destruct (OX _ _ Hr) as [-> (p & Hp & Hg & Ho)]. split; [done|].
    destruct (gateway_step_placement _ _ _ _ S Hp) as (p' & Hp' & Ep & Eo & _). exists p'. repeat split; congruence. }
  destruct S as [c Hc]; destruct c as [g|d i st|q|q|d i st]; simpl in Hc.
  - destruct (RegisterGateway g s) as [[s0 gw]|] eqn:E; simplify_eq/=.
    by apply RegisterGateway_spec in E as [->|(? & _ & _ & _ & ->)].
  - unfold SetGatewayState in Hc. destruct (ValidGatewayState st); [|done].
    destruct (gateways s !! scopedKey d i); [|done]. case_decide; simplify_eq/=; [|done].
    intros k r Hr. rewrite lookup_fmap in Hr. apply fmap_Some in Hr as (r0 & Hr0 & ->).
    unfold lose_execution. destruct (XO _ _ Hr0). by case_decide.
  - destruct (ReservePlacement q s) as [[s0 p]|] eqn:E; simplify_eq/=.
    by apply ReservePlacement_spec in E as (? & _ & [[-> _]|(F & gk & sel & L & -> & ->)]).
  - apply SaveExecution_spec in Hc as [->|(p & _ & Hp & Hg & Ho & _ & ->)]; [done|]. simpl in *.
    apply map_Forall_insert_2; [|done]. split; [done|]. eexists. rewrite lookup_insert_eq. done.
  - apply UpdateExecutionState_spec in Hc as (r & Hr & _ & -> & _).
    apply map_Forall_insert_2; [|done]. apply (XO _ _ Hr).
Qed.

Lemma gateway_step_ok s s' : gateway_step s s' → store_ok s → store_ok s'.
Proof.
  intros S OK. split; [by eapply gateways_ok_step|by eapply placements_ok_step|by eapply executions_ok_step].
Qed.

(** The store stays consistent: entries are filed under the scoped key of
    their own domain and id, counters are never negative, every placement's
    gateway is registered in the placement's domain, and every execution's
    placement exists in its domain with the same gateway and operation. *)
Theorem gateway_store_consistent s s' : rtc gateway_step s s' → store_ok s → store_ok s'.
Proof.
  induction 1; eauto using gateway_step_ok.
Qed.

(** ** Isolation *)

Definition nul_free (s : string) : Prop := contains_byte (byte_of_N 0) s = false.

Lemma scopedKey_inj d1 i1 d2 i2 :
  nul_free d1 → nul_free d2 → scopedKey d1 i1 = scopedKey d2 i2 → d1 = d2 ∧ i1 = i2.
Proof.
  unfold nul_free, contains_byte. rewrite !bool_decide_eq_false. intros N1 N2.
  by apply (join_sep_inj (byte_of_N 0)).
Qed.

Lemma scopedKey_ne d1 i1 d2 i2 : nul_free d1 → nul_free d2 → d1 ≠ d2 → scopedKey d1 i1 ≠ scopedKey d2 i2.
Proof. intros N1 N2 Hd E. by destruct (scopedKey_inj _ _ _ _ N1 N2 E). Qed.

(** Calls never reach into another isolation domain: for identifiers without
    NUL bytes, a call that names domain [call_domain c] leaves every gateway,
    placement and execution filed under another domain exactly as it was, the
    mass update on gateway loss included. *)
Theorem gateway_store_isolated c s s' d i :
  store_ok s → perform_call c s = Ok s' → nul_free d → nul_free (call_domain c) → d ≠ call_domain c →
  (∀ k x, executions s !! k = Some x → nul_free (x_IsolationDomainID (xr_Execution x))) →
  (∀ k p, placements s !! k = Some p → nul_free (p_IsolationDomainID (mp_placement p))) →
  gateways s' !! scopedKey d i = gateways s !! scopedKey d i
  ∧ placements s' !! scopedKey d i = placements s !! scopedKey d i
  ∧ executions s' !! scopedKey d i = executions s !! scopedKey d i.
Proof.
  intros [OG OP OX] Hc Nd Nc Ne NX NP.
  assert (K : ∀ j, scopedKey (call_domain c) j ≠ scopedKey d i) by (intros j; by apply scopedKey_ne; auto).
  destruct c as [g|d0 i0 st|q|q|d0 i0 st]; simpl in *.
  - destruct (RegisterGateway g s) as [[s0 gw]|] eqn:E; simplify_eq/=.
    apply RegisterGateway_spec in E as [->|(? & _ & _ & _ & ->)]; [done|]. simpl. by rewrite lookup_insert_ne.
  - unfold SetGatewayState in Hc. destruct (ValidGatewayState st); [|done].
    destruct (gateways s !! scopedKey d0 i0); [|done].
    case_decide; simplify_eq/=; rewrite lookup_insert_ne by done; [|done]. split; [done|].
    rewrite !lookup_fmap. split.
    + destruct (placements s !! scopedKey d i) as [p|] eqn:E; [|done]. simpl. f_equal.
      unfold lose_placement. rewrite decide_False; [done|]. intros (Ed & _). destruct (OP _ _ E) as [Ek _].
      apply Ne. rewrite <- Ed. apply (scopedKey_inj _ _ _ _ Nd (NP _ _ E) Ek).
    + destruct (executions s !! scopedKey d i) as [x|] eqn:E; [|done]. simpl. f_equal.
      unfold lose_execution. rewrite decide_False; [done|]. intros (Ed & _). destruct (OX _ _ E) as [Ek _].
      apply Ne. rewrite <- Ed. apply (scopedKey_inj _ _ _ _ Nd (NX _ _ E) Ek).
  - destruct (ReservePlacement q s) as [[s0 p]|] eqn:E; simplify_eq/=.
    apply ReservePlacement_spec in E as (? & _ & [[-> _]|(F & gk & sel & L & -> & ->)]); [done|]. simpl.
    apply least_gateway_spec in L as [[El Ei%elem_of_map_to_list]%list_elem_of_filter _]. simpl in *.
    destruct (OG _ _ Ei) as [-> _]. unfold gateway_eligible in El. to_prop.
    rewrite !lookup_insert_ne; [done|apply K|].
    replace (g_IsolationDomainID (grec_Gateway (mg_record sel))) with (pr_IsolationDomainID q) by done. apply K.
  - apply SaveExecution_spec in Hc as [->|(p & _ & Hp & _ & _ & _ & ->)]; [done|]. simpl.
    rewrite !lookup_insert_ne by apply K. done.
  - apply UpdateExecutionState_spec in Hc as (r & _ & _ & -> & [[-> ->]|(p & Hp & -> & ->)]);
      rewrite !lookup_insert_ne by apply K; [done|]. split; [|done].
    unfold release_gateway. repeat case_match; try done. by rewrite lookup_insert_ne by apply K.
Qed.

(** ** An example *)

Definition ex_registration (d i : string) : GatewayRegistration :=
  GatewayReg d i "unix:///run/gateway" "openshell" ["exec"; "logs"].
Definition ex_request : PlacementRequest := PlacementReq "iso_a" "op_a" ["exec"].
Definition run_calls (l : list gateway_call) (s : MemoryStateStore) : MemoryStateStore :=
  foldl (λ s c, from_ok s (perform_call c s)) s l.

Definition ex_registered : MemoryStateStore :=
  run_calls [CallRegister (ex_registration "iso_a" "gw_1"); CallRegister (ex_registration "iso_a" "gw_2");
             CallRegister (ex_registration "iso_b" "gw_1")] NewMemoryStateStore.
Definition ex_placed : result (MemoryStateStore * Placement) := ReservePlacement ex_request ex_registered.
Definition ex_placement : Placement := (from_ok (NewMemoryStateStore, MkPlacement "" "" "") ex_placed).2.
Definition ex_placed_store : MemoryStateStore := (from_ok (NewMemoryStateStore, MkPlacement "" "" "") ex_placed).1.
Definition ex_execution (state : string) : ExecutionRecord :=
  ExecutionRec (MkExecution "iso_a" "exe_a" (p_GatewayID ex_placement) state) (p_ID ex_placement) "op_a" "sandbox".

Lemma store_ok_empty : store_ok NewMemoryStateStore.
Proof. split; intros k x E; simpl in E; by rewrite lookup_empty in E. Qed.

Lemma run_calls_run l s : rtc gateway_step s (run_calls l s).
Proof.
  revert s. induction l as [|c l IH]; intros s; [apply rtc_refl|]. simpl.
  destruct (perform_call c s) as [s'|] eqn:E; simpl; [|apply IH].
  eapply rtc_l; [by exists c|apply IH].
Qed.

Lemma ex_registered_ok : store_ok ex_registered.
Proof.
  pose proof (run_calls_run [CallRegister (ex_registration "iso_a" "gw_1");
    CallRegister (ex_registration "iso_a" "gw_2"); CallRegister (ex_registration "iso_b" "gw_1")]
    NewMemoryStateStore) as R. fold ex_registered in R. pose proof store_ok_empty as O.
  induction R; eauto using gateway_step_ok.
Qed.

(** An execution first saved as terminated releases its placement but leaves the
    gateway's reservation counted for good; one terminated by
    [UpdateExecutionState] gives it back.  (The PostgreSQL store counts live
    placements instead.) *)
Definition load (s : MemoryStateStore) : list Z := mg_reserved ∘ snd <$> map_to_list (gateways s).
Definition live_placements (s : MemoryStateStore) : nat :=
  length (filter (λ p, mp_state p.2 = "reserved" ∨ mp_state p.2 = "active") (map_to_list (placements s))).

Lemma terminated_save_leaks_load :
  foldr Z.add 0%Z (load (run_calls [CallSave (ex_execution "terminated")] ex_placed_store)) = 1%Z
  ∧ live_placements (run_calls [CallSave (ex_execution "terminated")] ex_placed_store) = 0
  ∧ foldr Z.add 0%Z (load (run_calls [CallSave (ex_execution "ready"); CallUpdate "iso_a" "exe_a" "terminated"]
                            ex_placed_store)) = 0%Z.
Proof. vm_compute. auto. Qed.

Lemma reserve_placement_stable_witness :
  ReservePlacement ex_request ex_placed_store = Ok (ex_placed_store, ex_placement).
Proof.
  apply (reserve_placement_stable ex_request ex_registered ex_placed_store ex_placement ex_placed_store).
  - unfold ex_placed_store, ex_placement. rewrite <- surjective_pairing.
    apply (from_ok_eq (NewMemoryStateStore, MkPlacement "" "" "") ex_placed). vm_compute. reflexivity.
  - apply rtc_refl.
Defined.

Lemma reserve_placement_balanced_witness :
  placements ex_placed_store !! placement_key ex_request
  = Some (MemPlacement ex_placement "op_a" ["exec"] "reserved").
Proof.
  destruct (reserve_placement_balanced ex_request ex_registered ex_placed_store ex_placement)
    as (caps & gk & sel & Hc & _ & _ & _ & _ & _ & Hp).
  - unfold ex_placed_store, ex_placement. rewrite <- surjective_pairing.
    apply (from_ok_eq (NewMemoryStateStore, MkPlacement "" "" "") ex_placed). vm_compute. reflexivity.
  - vm_compute. reflexivity.
  - rewrite Hp. injection Hc as <-. reflexivity.
Defined.

Definition ex_terminated : MemoryStateStore := run_calls [CallSave (ex_execution "terminated")] ex_placed_store.

Lemma terminated_execution_final_witness :
  executions ex_terminated !! scopedKey "iso_a" "exe_a" = Some (ex_execution "terminated").
Proof.
  apply (terminated_execution_final ex_terminated ex_terminated).
  - apply rtc_refl.
  - vm_compute. reflexivity.
  - reflexivity.
Defined.

Lemma gateway_store_consistent_witness : store_ok ex_registered.
Proof. apply (gateway_store_consistent NewMemoryStateStore ex_registered); [apply run_calls_run|exact store_ok_empty]. Defined.

Lemma gateway_store_isolated_witness :
  gateways (run_calls [CallSetState "iso_a" "gw_1" GatewayLost] ex_registered) !! scopedKey "iso_b" "gw_1"
  = gateways ex_registered !! scopedKey "iso_b" "gw_1".
Proof.
  destruct (gateway_store_isolated (CallSetState "iso_a" "gw_1" GatewayLost) ex_registered
    (run_calls [CallSetState "iso_a" "gw_1" GatewayLost] ex_registered) "iso_b" "gw_1") as (H1 & _ & _).
  - exact ex_registered_ok.
  - apply (from_ok_eq ex_registered). vm_compute. reflexivity.
  - vm_compute. reflexivity.
  - vm_compute. reflexivity.
  - discriminate.
  - intros k x E. exfalso. revert E. vm_compute. discriminate.
  - intros k x E. exfalso. revert E. vm_compute. discriminate.
  - exact H1.
Defined.
