(* ===== verification/ExecutionPlan.v ===== *)
(** * Execution plans

    [internal/execution/plan.go], [plan_memory_store.go], [provider_profiles.go]
    and the source record of [internal/workspace/catalog.go].  An execution plan
    is the immutable description of what a revision runs; the store binds at most
    one plan to a revision.

    A Go slice is [nil] or holds elements: [slice] keeps that difference, because
    [encoding/json] does ([null] against [[]]). *)
From S2P Require Import Prelude.
From S2P Require Import GoStrings.
From S2P Require Import Sha256.
From S2P Require Import GoJson.
From S2P Require Import GatewayStore.

Definition slice (A : Type) : Type := option (list A).
Definition elems {A} (s : slice A) : list A := default [] s.
Definition slice_json (s : slice string) : json :=
  match s with None => JNull | Some l => JArr (JStr <$> l) end.

(** ** Patterns *)

Definition isolationDomainPattern : string → bool := match_prefixed "iso_" is_id_char 20 32.
Definition revisionPattern : string → bool := match_prefixed "rev_" is_id_char 20 32.
Definition digestPattern : string → bool := match_prefixed "sha256:" is_hex_lower 64 64.

Definition is_alnum (c : ascii) : bool := is_upper c || is_lower c || is_digit c.
Definition is_opaque_char (c : ascii) : bool := is_alnum c || bool_decide (c ∈ ["."%char; "_"%char; "-"%char]).
Definition opaqueIdentifierPattern : string → bool := match_headed is_alnum is_opaque_char 127.

(** [^[a-z][a-z0-9]*(?:[._-][a-z0-9]+)*$] as an automaton: before the first
    letter, inside a segment, or just after a separator. *)
Inductive profile_scan := AtStart | InSegment | AfterSeparator.

Fixpoint scan_profile (st : profile_scan) (s : list ascii) : bool :=
  match s with
  | [] => match st with InSegment => true | _ => false end
  | c :: rest =>
      match st with
      | AtStart => is_lower c && scan_profile InSegment rest
      | InSegment =>
          if is_id_char c then scan_profile InSegment rest
          else bool_decide (c ∈ ["."%char; "_"%char; "-"%char]) && scan_profile AfterSeparator rest
      | AfterSeparator => is_id_char c && scan_profile InSegment rest
      end
  end.
Definition providerProfilePattern (s : string) : bool := scan_profile AtStart (bytes_of s).

(** ** Portable values *)

Definition validPortableValue (value : string) (maximumLength : Z) : bool :=
  if decide (value = "" ∨ (maximumLength < go_len value)%Z ∨ valid_utf8 value = false) then false
  else forallb (λ r, negb (is_control (rune_value r) || is_space (rune_value r))) (runes value).

Definition validImmutableImageReference (value : string) : bool :=
  if negb (validPortableValue value 2048) || negb (bool_decide (count_byte "@" value = 1)) then false
  else match cut_at "@" value with
       | (name, Some digest) => negb (bool_decide (name = "")) && digestPattern digest
       | (_, None) => false
       end.

Definition portable_item (maximumLength : Z) (rejectEquals : bool) (value : string) : bool :=
  negb (negb (validPortableValue value maximumLength) || (rejectEquals && contains_byte "=" value)).

Definition normalizePortableValues (values : slice string) (maximumLength maximumItems : Z)
    (rejectEquals : bool) : result (slice string) :=
  if decide (maximumItems < Z.of_nat (length (elems values)))%Z then Err (ENew "too many portable values")
  else if forallb (portable_item maximumLength rejectEquals) (elems values)
  then Ok (option_map sort_compact values)
  else Err (ENew "invalid portable value").

(** ** Workspace source records *)

Definition SourceRecordV1 := "dataground.workspace-source/v1".
Definition MaximumArchiveBytes : Z := Z.shiftl 32 20.
Definition MaximumSourceBytes : Z := Z.shiftl 24 20.
Definition MaximumEntries : Z := 4096.

Record SourceRecord := MkSourceRecord {
  sr_SchemaVersion : string; sr_IsolationDomainID : string; sr_WorkspaceID : string; sr_ID : string;
  sr_ArchiveDigest : string; sr_StorageProfileDigest : string;
  sr_ArchiveBytes : Z; sr_EntryCount : Z; sr_SourceBytes : Z }.

#[global] Instance SourceRecord_eq_dec : EqDecision SourceRecord.
Proof. solve_decision. Defined.

Definition ValidSourceRecord (r : SourceRecord) : bool :=
  bool_decide (sr_SchemaVersion r = SourceRecordV1)
  && match_prefixed "iso_" is_id_char 20 32 (sr_IsolationDomainID r)
  && match_prefixed "wsp_" is_id_char 20 32 (sr_WorkspaceID r)
  && match_prefixed "src_" is_id_char 20 32 (sr_ID r)
  && match_prefixed "sha256:" is_hex_lower 64 64 (sr_ArchiveDigest r)
  && match_prefixed "sha256:" is_hex_lower 64 64 (sr_StorageProfileDigest r)
  && (1024 <=? sr_ArchiveBytes r)%Z && (sr_ArchiveBytes r <=? MaximumArchiveBytes)%Z
  && (Z.rem (sr_ArchiveBytes r) 512 =? 0)%Z
  && (0 <=? sr_EntryCount r)%Z && (sr_EntryCount r <=? MaximumEntries)%Z
  && (0 <=? sr_SourceBytes r)%Z && (sr_SourceBytes r <=? MaximumSourceBytes)%Z.

Definition source_json (r : SourceRecord) : json :=
  JObj [("schemaVersion", JStr (sr_SchemaVersion r)); ("isolationDomainId", JStr (sr_IsolationDomainID r));
        ("workspaceId", JStr (sr_WorkspaceID r)); ("id", JStr (sr_ID r));
        ("archiveDigest", JStr (sr_ArchiveDigest r)); ("storageProfileDigest", JStr (sr_StorageProfileDigest r));
        ("archiveBytes", JInt (sr_ArchiveBytes r)); ("entryCount", JInt (sr_EntryCount r));
        ("sourceBytes", JInt (sr_SourceBytes r))].

(** ** Plans *)

Definition ExecutionPlanSchemaV1 := "dataground.execution-plan/v1".
Definition ExecutionPlanSchemaV2 := "dataground.execution-plan/v2".

Definition ErrExecutionPlanMissing : error := ESentinel "execution.ErrExecutionPlanMissing".
Definition ErrExecutionPlanConflict : error := ESentinel "execution.ErrExecutionPlanConflict".
Definition ErrExecutionPlanRevisionMismatch : error := ESentinel "execution.ErrExecutionPlanRevisionMismatch".

Record ExecutionPlan := MkPlan {
  pl_SchemaVersion : string; pl_IsolationDomainID : string; pl_RevisionID : string;
  pl_RuntimeProfile : string; pl_EnvironmentRevisionID : string; pl_ImageReference : string;
  pl_EnvironmentManifestDigest : string; pl_EnforcementBundleID : string;
  pl_EnforcementBundleDigest : string; pl_RuntimeMatrixID : string; pl_RuntimeMatrixDigest : string;
  pl_ProviderProfiles : slice string; pl_RequiredCapabilities : slice string;
  pl_WorkspaceSource : option SourceRecord }.

#[global] Instance ExecutionPlan_eq_dec : EqDecision ExecutionPlan.
Proof. solve_decision. Defined.

Record ExecutionPlanBinding := MkPlanBinding {
  pb_Plan : ExecutionPlan; pb_ActorID : string; pb_CorrelationID : string }.

Definition with_lists (p : ExecutionPlan) (profiles capabilities : slice string) : ExecutionPlan :=
  MkPlan (pl_SchemaVersion p) (pl_IsolationDomainID p) (pl_RevisionID p) (pl_RuntimeProfile p)
    (pl_EnvironmentRevisionID p) (pl_ImageReference p) (pl_EnvironmentManifestDigest p)
    (pl_EnforcementBundleID p) (pl_EnforcementBundleDigest p) (pl_RuntimeMatrixID p)
    (pl_RuntimeMatrixDigest p) profiles capabilities (pl_WorkspaceSource p).

(** The second guard: [v1] plans carry no source, [v2] plans a valid one of their
    own isolation domain. *)
Definition bad_workspace_source (p : ExecutionPlan) : bool :=
  bool_decide (pl_SchemaVersion p = ExecutionPlanSchemaV1 ∧ pl_WorkspaceSource p ≠ None)
  || (bool_decide (pl_SchemaVersion p = ExecutionPlanSchemaV2)
      && match pl_WorkspaceSource p with
         | None => true
         | Some source => negb (ValidSourceRecord source)
                          || negb (bool_decide (sr_IsolationDomainID source = pl_IsolationDomainID p))
         end).

Definition reject_unless {A} (b : bool) (msg : string) (k : result A) : result A :=
  if b then k else Err (ENew msg).

Definition NormalizeExecutionPlan (plan : ExecutionPlan) : result ExecutionPlan :=
  if decide (pl_SchemaVersion plan ≠ ExecutionPlanSchemaV1 ∧ pl_SchemaVersion plan ≠ ExecutionPlanSchemaV2)
  then Err (ENew "unsupported execution plan schema version")
  else if bad_workspace_source plan then Err (ENew "invalid execution plan workspace source")
  else
  reject_unless (isolationDomainPattern (pl_IsolationDomainID plan)) "invalid execution plan isolation domain" $
  reject_unless (revisionPattern (pl_RevisionID plan)) "invalid execution plan revision" $
  reject_unless (validPortableValue (pl_RuntimeProfile plan) 128) "invalid execution plan runtime profile" $
  reject_unless (opaqueIdentifierPattern (pl_EnvironmentRevisionID plan))
    "invalid execution plan environment revision" $
  reject_unless (validImmutableImageReference (pl_ImageReference plan))
    "execution plan image must use an immutable sha256 reference" $
  reject_unless (digestPattern (pl_EnvironmentManifestDigest plan))
    "invalid execution plan environment manifest digest" $
  reject_unless (opaqueIdentifierPattern (pl_EnforcementBundleID plan))
    "invalid execution plan enforcement bundle identifier" $
  reject_unless (digestPattern (pl_EnforcementBundleDigest plan))
    "invalid execution plan enforcement bundle digest" $
  reject_unless (opaqueIdentifierPattern (pl_RuntimeMatrixID plan)) "invalid execution plan runtime matrix" $
  reject_unless (digestPattern (pl_RuntimeMatrixDigest plan)) "invalid execution plan runtime matrix digest" $
  match normalizePortableValues (pl_ProviderProfiles plan) 128 64 true with
  | Err _ => Err (ENew "invalid execution plan provider profile")
  | Ok providerProfiles =>
      match normalizePortableValues (pl_RequiredCapabilities plan) 128 256 false with
      | Err _ => Err (ENew "invalid execution plan required capability")
      | Ok requiredCapabilities => Ok (with_lists plan providerProfiles requiredCapabilities)
      end
  end.

Definition NormalizeExecutionPlanBinding (binding : ExecutionPlanBinding) : result ExecutionPlanBinding :=
  plan ← NormalizeExecutionPlan (pb_Plan binding);
  if validPortableValue (pb_ActorID binding) 256 then
    if validPortableValue (pb_CorrelationID binding) 256
    then Ok (MkPlanBinding plan (pb_ActorID binding) (pb_CorrelationID binding))
    else Err (ENew "invalid execution plan correlation identifier")
  else Err (ENew "invalid execution plan actor").

Definition plan_json (p : ExecutionPlan) : json :=
  JObj ([("schemaVersion", JStr (pl_SchemaVersion p)); ("isolationDomainId", JStr (pl_IsolationDomainID p));
         ("revisionId", JStr (pl_RevisionID p)); ("runtimeProfile", JStr (pl_RuntimeProfile p));
         ("environmentRevisionId", JStr (pl_EnvironmentRevisionID p));
         ("imageReference", JStr (pl_ImageReference p));
         ("environmentManifestDigest", JStr (pl_EnvironmentManifestDigest p));
         ("enforcementBundleId", JStr (pl_EnforcementBundleID p));
         ("enforcementBundleDigest", JStr (pl_EnforcementBundleDigest p));
         ("runtimeMatrixId", JStr (pl_RuntimeMatrixID p));
         ("runtimeMatrixDigest", JStr (pl_RuntimeMatrixDigest p));
         ("providerProfiles", slice_json (pl_ProviderProfiles p));
         ("requiredCapabilities", slice_json (pl_RequiredCapabilities p))]
        ++ match pl_WorkspaceSource p with
           | None => []
           | Some source => [("workspaceSource", source_json source)]
           end).

Definition DigestExecutionPlan (plan : ExecutionPlan) : result string :=
  normalized ← NormalizeExecutionPlan plan;
  Ok (Sha256.digest_string (marshal (plan_json normalized))).

Definition equalPlanSources (left right : option SourceRecord) : bool := bool_decide (left = right).

Definition EqualExecutionPlans (left right : ExecutionPlan) : bool :=
  equalPlanSources (pl_WorkspaceSource left) (pl_WorkspaceSource right)
  && bool_decide (pl_SchemaVersion left = pl_SchemaVersion right)
  && bool_decide (pl_IsolationDomainID left = pl_IsolationDomainID right)
  && bool_decide (pl_RevisionID left = pl_RevisionID right)
  && bool_decide (pl_RuntimeProfile left = pl_RuntimeProfile right)
  && bool_decide (pl_EnvironmentRevisionID left = pl_EnvironmentRevisionID right)
  && bool_decide (pl_ImageReference left = pl_ImageReference right)
  && bool_decide (pl_EnvironmentManifestDigest left = pl_EnvironmentManifestDigest right)
  && bool_decide (pl_EnforcementBundleID left = pl_EnforcementBundleID right)
  && bool_decide (pl_EnforcementBundleDigest left = pl_EnforcementBundleDigest right)
  && bool_decide (pl_RuntimeMatrixID left = pl_RuntimeMatrixID right)
  && bool_decide (pl_RuntimeMatrixDigest left = pl_RuntimeMatrixDigest right)
  && bool_decide (elems (pl_ProviderProfiles left) = elems (pl_ProviderProfiles right))
  && bool_decide (elems (pl_RequiredCapabilities left) = elems (pl_RequiredCapabilities right)).

(** ** The in-memory plan store

    Every plan that enters or leaves the map is a [CloneExecutionPlan], so the
    map shares no storage with a caller and values can be modelled as values. *)

Definition MemoryExecutionPlanStore : Type := gmap string ExecutionPlan.
Definition NewMemoryExecutionPlanStore : MemoryExecutionPlanStore := ∅.

Definition BindExecutionPlan (binding : ExecutionPlanBinding) (s : MemoryExecutionPlanStore)
  : MemoryExecutionPlanStore * result ExecutionPlan :=
  match NormalizeExecutionPlanBinding binding with
  | Err err => (s, Err err)
  | Ok normalized =>
      let plan := pb_Plan normalized in
      let key := scopedKey (pl_IsolationDomainID plan) (pl_RevisionID plan) in
      match s !! key with
      | Some existing =>
          if EqualExecutionPlans existing plan then (s, Ok existing) else (s, Err ErrExecutionPlanConflict)
      | None => (<[key := plan]> s, Ok plan)
      end
  end.

Definition GetExecutionPlan (isolationDomainID revisionID : string) (s : MemoryExecutionPlanStore)
  : result ExecutionPlan :=
  match s !! scopedKey isolationDomainID revisionID with
  | None => Err ErrExecutionPlanMissing
  | Some plan => Ok plan
  end.

(** ** Provider profiles *)

Definition ErrProviderProfileInvalid : error := ESentinel "execution.ErrProviderProfileInvalid".
Definition ErrProviderProfileUnavailable : error := ESentinel "execution.ErrProviderProfileUnavailable".

Definition ProviderProfileRegistry : Type := gset string.

Definition profile_name_ok (name : string) : bool :=
  negb ((64 <? go_len name)%Z || negb (providerProfilePattern name)).

Fixpoint add_profiles (names : list string) (registry : ProviderProfileRegistry)
  : result ProviderProfileRegistry :=
  match names with
  | [] => Ok registry
  | name :: rest =>
      if profile_name_ok name then
        if decide (name ∈ registry) then Err ErrProviderProfileInvalid
        else add_profiles rest ({[name]} ∪ registry)
      else Err ErrProviderProfileInvalid
  end.

Definition NewProviderProfileRegistry (names : list string) : result ProviderProfileRegistry :=
  add_profiles names ∅.

Fixpoint resolve_each (registry : ProviderProfileRegistry) (names : list string) : result unit :=
  match names with
  | [] => Ok tt
  | name :: rest =>
      if profile_name_ok name then
        if decide (name ∈ registry) then resolve_each registry rest
        else Err ErrProviderProfileUnavailable
      else Err ErrProviderProfileInvalid
  end.

(** [None] is the nil registry. *)
Definition Resolve (registry : option ProviderProfileRegistry) (names : slice string)
  : result (slice string) :=
  match registry with
  | None => if decide (elems names = []) then Ok None else Err ErrProviderProfileUnavailable
  | Some reg => _ ← resolve_each reg (elems names); Ok (option_map sort_compact names)
  end.

(** ** Normal form *)

Lemma reject_unless_Ok {A} b msg (k : result A) a : reject_unless b msg k = Ok a ↔ b = true ∧ k = Ok a.
Proof. unfold reject_unless. destruct b; naive_solver. Qed.

Lemma normalizePortableValues_Ok values len items eqs out :
  normalizePortableValues values len items eqs = Ok out ↔
    (Z.of_nat (length (elems values)) ≤ items)%Z
    ∧ Forall (λ v, portable_item len eqs v = true) (elems values)
    ∧ out = option_map sort_compact values.
Proof.
  unfold normalizePortableValues. rewrite <- forallb_Forall.
  repeat case_decide; try (destruct (forallb _ _)); naive_solver lia.
Qed.

Lemma sort_compact_length l : length (sort_compact l) ≤ length l.
Proof.
  unfold sort_compact. rewrite <- (sort_strings_Permutation l) at 2.
  induction (sort_strings l) as [|x k IH]; simpl; [done|].
  destruct k; simpl in *; [lia|]. case_decide; simpl in *; lia.
Qed.

Lemma elems_sort_compact s : elems (option_map sort_compact s) = sort_compact (elems s).
Proof. by destruct s. Qed.

Lemma normalizePortableValues_idemp values len items eqs out :
  normalizePortableValues values len items eqs = Ok out →
  normalizePortableValues out len items eqs = Ok out.
Proof.
  rewrite !normalizePortableValues_Ok. intros (Hlen & Hall & ->). rewrite elems_sort_compact.
  split_and!.
  - pose proof (sort_compact_length (elems values)). lia.
  - by apply sort_compact_Forall.
  - destruct values; simpl; [|done]. by rewrite sort_compact_idemp.
Qed.

(** What [NormalizeExecutionPlan] checks besides the two lists. *)
Definition plan_fields_ok (p : ExecutionPlan) : Prop :=
  (pl_SchemaVersion p = ExecutionPlanSchemaV1 ∨ pl_SchemaVersion p = ExecutionPlanSchemaV2)
  ∧ bad_workspace_source p = false
  ∧ isolationDomainPattern (pl_IsolationDomainID p) = true
  ∧ revisionPattern (pl_RevisionID p) = true
  ∧ validPortableValue (pl_RuntimeProfile p) 128 = true
  ∧ opaqueIdentifierPattern (pl_EnvironmentRevisionID p) = true
  ∧ validImmutableImageReference (pl_ImageReference p) = true
  ∧ digestPattern (pl_EnvironmentManifestDigest p) = true
  ∧ opaqueIdentifierPattern (pl_EnforcementBundleID p) = true
  ∧ digestPattern (pl_EnforcementBundleDigest p) = true
  ∧ opaqueIdentifierPattern (pl_RuntimeMatrixID p) = true
  ∧ digestPattern (pl_RuntimeMatrixDigest p) = true.

Lemma NormalizeExecutionPlan_Ok p q :
  NormalizeExecutionPlan p = Ok q ↔
    plan_fields_ok p ∧ ∃ profiles capabilities,
      normalizePortableValues (pl_ProviderProfiles p) 128 64 true = Ok profiles
      ∧ normalizePortableValues (pl_RequiredCapabilities p) 128 256 false = Ok capabilities
      ∧ q = with_lists p profiles capabilities.
Proof.
  unfold NormalizeExecutionPlan, plan_fields_ok. case_decide as Hv.
  { split; [done|]. naive_solver. }
  assert (pl_SchemaVersion p = ExecutionPlanSchemaV1 ∨ pl_SchemaVersion p = ExecutionPlanSchemaV2)
    by (apply not_and_r in Hv as [Hv|Hv]; apply dec_stable in Hv; auto).
  destruct (bad_workspace_source p); [split; [done|naive_solver]|].
  rewrite !reject_unless_Ok.
  destruct (normalizePortableValues (pl_ProviderProfiles p) 128 64 true) as [ps|]; [|naive_solver].
  destruct (normalizePortableValues (pl_RequiredCapabilities p) 128 256 false); naive_solver.
Qed.

Lemma plan_fields_ok_with_lists p a b : plan_fields_ok (with_lists p a b) ↔ plan_fields_ok p.
Proof. done. Qed.

Lemma NormalizeExecutionPlan_idemp p q :
  NormalizeExecutionPlan p = Ok q → NormalizeExecutionPlan q = Ok q.
Proof.
  rewrite !NormalizeExecutionPlan_Ok. intros (Hf & ps & cs & Hps & Hcs & ->).
  split; [by apply plan_fields_ok_with_lists|]. exists ps, cs.
  eauto using normalizePortableValues_idemp.
Qed.

Lemma bad_workspace_source_false p :
  bad_workspace_source p = false →
  (pl_SchemaVersion p = ExecutionPlanSchemaV1 → pl_WorkspaceSource p = None)
  ∧ (pl_SchemaVersion p = ExecutionPlanSchemaV2 →
     ∃ src, pl_WorkspaceSource p = Some src ∧ ValidSourceRecord src = true
            ∧ sr_IsolationDomainID src = pl_IsolationDomainID p).
Proof.
  unfold bad_workspace_source. rewrite orb_false_iff, andb_false_iff, !bool_decide_eq_false.
  intros [H1 H2]. split; intros Hv.
  - destruct (pl_WorkspaceSource p); naive_solver.
  - destruct H2 as [?|H2]; [done|]. destruct (pl_WorkspaceSource p) as [src|]; [|done].
    apply orb_false_iff in H2 as [H2 H3]. apply negb_false_iff in H2, H3. to_prop. eauto.
Qed.

(** An accepted image is a name pinned by a SHA-256 digest. *)
Lemma image_reference_pinned value :
  validImmutableImageReference value = true →
  ∃ name digest, value = name +:+ "@" +:+ digest ∧ name ≠ "" ∧ digestPattern digest = true.
Proof.
  unfold validImmutableImageReference. destruct (_ || _); [done|].
  destruct (cut_at "@" value) as [name [digest|]] eqn:Hcut; [|done].
  intros [Hn Hd]%andb_true_iff. exists name, digest. split_and!; [|by to_prop|done].
  clear Hn Hd. revert name Hcut. induction value as [|a v IH]; intros name; simpl; [done|].
  case_decide as Ha; [naive_solver|].
  destruct (cut_at "@" v) as [l r] eqn:Hc. intros [= <- ->]. by rewrite (IH l eq_refl) at 1.
Qed.

(** Normalising a plan validates it and yields a canonical form: the result
    differs from the input only in its two lists, which become strictly sorted
    with the same elements; the image is pinned by digest; a source is present
    exactly in version 2 plans and belongs to the plan's isolation domain; and
    normalising again changes nothing. *)
Theorem normalize_plan_canonical p q :
  NormalizeExecutionPlan p = Ok q →
  NormalizeExecutionPlan q = Ok q
  ∧ q = with_lists p (pl_ProviderProfiles q) (pl_RequiredCapabilities q)
  ∧ StronglySorted slt (elems (pl_ProviderProfiles q))
  ∧ StronglySorted slt (elems (pl_RequiredCapabilities q))
  ∧ (∀ x, x ∈ elems (pl_ProviderProfiles q) ↔ x ∈ elems (pl_ProviderProfiles p))
  ∧ (∀ x, x ∈ elems (pl_RequiredCapabilities q) ↔ x ∈ elems (pl_RequiredCapabilities p))
  ∧ (∃ name digest, pl_ImageReference q = name +:+ "@" +:+ digest ∧ name ≠ "" ∧ digestPattern digest = true)
  ∧ (pl_WorkspaceSource q = None ↔ pl_SchemaVersion q = ExecutionPlanSchemaV1)
  ∧ (∀ src, pl_WorkspaceSource q = Some src → sr_IsolationDomainID src = pl_IsolationDomainID q).
Proof.
  intros H. pose proof (NormalizeExecutionPlan_idemp _ _ H) as Hid.
  apply NormalizeExecutionPlan_Ok in H as (Hf & ps & cs & Hps & Hcs & ->).
  apply normalizePortableValues_Ok in Hps as (_ & _ & ->), Hcs as (_ & _ & ->).
  destruct Hf as (Hv & Hsrc & _ & _ & _ & _ & Himg & _).
  split_and!; simpl; rewrite ?elems_sort_compact; try done;
    auto using sort_compact_strict, sort_compact_elem_of, image_reference_pinned.
  - apply bad_workspace_source_false in Hsrc as [H1 H2]. destruct Hv as [Hv|Hv]; [naive_solver|].
    destruct (H2 Hv) as (src & -> & _). rewrite Hv. done.
  - apply bad_workspace_source_false in Hsrc as [H1 H2]. naive_solver.
Qed.

(** ** Equality of plans *)

(** [EqualExecutionPlans] is equality up to [nil] against empty lists. *)
Definition plan_equiv (p q : ExecutionPlan) : Prop :=
  with_lists p None None = with_lists q None None
  ∧ elems (pl_ProviderProfiles p) = elems (pl_ProviderProfiles q)
  ∧ elems (pl_RequiredCapabilities p) = elems (pl_RequiredCapabilities q).

#[global] Instance plan_equiv_equivalence : Equivalence plan_equiv.
Proof.
  split; unfold plan_equiv; [done|intros p q (?&?&?); by split_and!|].
  intros p q r (?&?&?) (?&?&?). split_and!; congruence.
Qed.

Lemma EqualExecutionPlans_spec p q : EqualExecutionPlans p q = true ↔ plan_equiv p q.
Proof.
  unfold EqualExecutionPlans, equalPlanSources, plan_equiv. rewrite !andb_true_iff, !bool_decide_eq_true.
  destruct p, q; unfold with_lists; simpl. split.
  - intros. destruct_and!. by subst.
  - intros (Heq & ? & ?). injection Heq. intros. by split_and!.
Qed.

Lemma option_map_same_sets (s t : slice string) :
  (s = None ↔ t = None) → (∀ x, x ∈ elems s ↔ x ∈ elems t) →
  option_map sort_compact s = option_map sort_compact t.
Proof.
  intros Hn He. destruct s, t; simpl in *; [|naive_solver..]. f_equal. by apply sort_compact_same_set.
Qed.

(** Plans that differ only in the order and repetition of their profiles and
    capabilities have one normal form. *)
Definition same_sets (p q : ExecutionPlan) : Prop :=
  with_lists p None None = with_lists q None None
  ∧ (pl_ProviderProfiles p = None ↔ pl_ProviderProfiles q = None)
  ∧ (pl_RequiredCapabilities p = None ↔ pl_RequiredCapabilities q = None)
  ∧ (∀ x, x ∈ elems (pl_ProviderProfiles p) ↔ x ∈ elems (pl_ProviderProfiles q))
  ∧ (∀ x, x ∈ elems (pl_RequiredCapabilities p) ↔ x ∈ elems (pl_RequiredCapabilities q)).

Lemma normalize_same_sets p q p' q' :
  NormalizeExecutionPlan p = Ok p' → NormalizeExecutionPlan q = Ok q' → same_sets p q → p' = q'.
Proof.
  rewrite !NormalizeExecutionPlan_Ok.
  intros (_ & ps & cs & Hps & Hcs & ->) (_ & ps' & cs' & Hps' & Hcs' & ->) (Heq & Hn1 & Hn2 & Hs1 & Hs2).
  apply normalizePortableValues_Ok in Hps as (_ & _ & ->), Hcs as (_ & _ & ->),
    Hps' as (_ & _ & ->), Hcs' as (_ & _ & ->).
  rewrite (option_map_same_sets _ _ Hn1 Hs1), (option_map_same_sets _ _ Hn2 Hs2).
  destruct p, q; unfold with_lists in *; simpl in *. injection Heq. intros. by subst.
Qed.

(** The digest of a plan does not depend on how its lists were written: two
    acceptable plans that differ only in the order and repetition of provider
    profiles and capabilities normalise to the same plan, have the same digest
    and are equal for the store. *)
Theorem plan_digest_order_free p q p' q' :
  NormalizeExecutionPlan p = Ok p' → NormalizeExecutionPlan q = Ok q' → same_sets p q →
  DigestExecutionPlan p = DigestExecutionPlan q ∧ EqualExecutionPlans p' q' = true
  ∧ DigestExecutionPlan p' = DigestExecutionPlan p.
Proof.
  intros Hp Hq Hs. pose proof (normalize_same_sets _ _ _ _ Hp Hq Hs) as <-.
  unfold DigestExecutionPlan. rewrite Hp, Hq, (NormalizeExecutionPlan_idemp _ _ Hp).
  split_and!; [done| |done]. by apply EqualExecutionPlans_spec.
Qed.

(** ** Append-only binding *)

#[local] Arguments scopedKey : simpl never.
#[local] Arguments NormalizeExecutionPlan : simpl never.

Definition bind_all (bindings : list ExecutionPlanBinding) (s : MemoryExecutionPlanStore)
  : MemoryExecutionPlanStore :=
  foldl (λ s b, (BindExecutionPlan b s).1) s bindings.

(** Every stored plan is in normal form and lies under its own key. *)
Definition plans_ok (s : MemoryExecutionPlanStore) : Prop :=
  map_Forall (λ key plan, NormalizeExecutionPlan plan = Ok plan
                          ∧ key = scopedKey (pl_IsolationDomainID plan) (pl_RevisionID plan)) s.

Lemma NormalizeExecutionPlanBinding_Ok b n :
  NormalizeExecutionPlanBinding b = Ok n →
  NormalizeExecutionPlan (pb_Plan b) = Ok (pb_Plan n) ∧ NormalizeExecutionPlan (pb_Plan n) = Ok (pb_Plan n).
Proof.
  intros H. apply result_bind_Ok in H as (q & Hq & H). go_cases. eauto using NormalizeExecutionPlan_idemp.
Qed.

(** A binding either leaves the store alone or adds a plan under a free key. *)
Lemma BindExecutionPlan_cases b s :
  (BindExecutionPlan b s).1 = s
  ∨ ∃ n, NormalizeExecutionPlanBinding b = Ok n
         ∧ s !! scopedKey (pl_IsolationDomainID (pb_Plan n)) (pl_RevisionID (pb_Plan n)) = None
         ∧ (BindExecutionPlan b s).1
           = <[scopedKey (pl_IsolationDomainID (pb_Plan n)) (pl_RevisionID (pb_Plan n)) := pb_Plan n]> s.
Proof. unfold BindExecutionPlan. repeat case_match; simpl; eauto. Qed.

Lemma BindExecutionPlan_grows b s : s ⊆ (BindExecutionPlan b s).1.
Proof.
  destruct (BindExecutionPlan_cases b s) as [->|(n & _ & Hn & ->)]; [done|]. by apply insert_subseteq.
Qed.

Lemma bind_all_grows bs s : s ⊆ bind_all bs s.
Proof.
  revert s. induction bs as [|b bs IH]; intros s; [done|]. simpl.
  transitivity (BindExecutionPlan b s).1; [apply BindExecutionPlan_grows|apply IH].
Qed.

Lemma BindExecutionPlan_plans_ok b s : plans_ok s → plans_ok (BindExecutionPlan b s).1.
Proof.
  intros Hs. destruct (BindExecutionPlan_cases b s) as [->|(n & Hn & _ & ->)]; [done|].
  apply map_Forall_insert_2; [|done]. by apply NormalizeExecutionPlanBinding_Ok in Hn as [_ ?].
Qed.

Lemma bind_all_plans_ok bs s : plans_ok s → plans_ok (bind_all bs s).
Proof.
  revert s. induction bs as [|b bs IH]; intros s Hs; [done|]. apply IH. by apply BindExecutionPlan_plans_ok.
Qed.

Lemma plan_equiv_scope p q :
  plan_equiv p q → pl_IsolationDomainID p = pl_IsolationDomainID q ∧ pl_RevisionID p = pl_RevisionID q.
Proof. intros [H _]. by injection H. Qed.

Lemma BindExecutionPlan_Ok b s plan :
  (BindExecutionPlan b s).2 = Ok plan →
  ∃ n, NormalizeExecutionPlanBinding b = Ok n ∧ plan_equiv plan (pb_Plan n)
       ∧ (BindExecutionPlan b s).1 !! scopedKey (pl_IsolationDomainID plan) (pl_RevisionID plan) = Some plan.
Proof.
  unfold BindExecutionPlan. destruct (NormalizeExecutionPlanBinding b) as [n|e]; [|done].
  destruct (s !! _) as [old|] eqn:Hold; simpl.
  - destruct (EqualExecutionPlans old (pb_Plan n)) eqn:Heq; [|done]. intros [= <-].
    apply EqualExecutionPlans_spec in Heq. exists n. split_and!; [done..|].
    apply plan_equiv_scope in Heq as [-> ->]. exact Hold.
  - intros [= <-]. exists n. split_and!; [done..|]. apply lookup_insert_eq.
Qed.

(** The answer to a binding for a scope that already has a plan. *)
Lemma BindExecutionPlan_bound b s n plan :
  NormalizeExecutionPlanBinding b = Ok n →
  s !! scopedKey (pl_IsolationDomainID (pb_Plan n)) (pl_RevisionID (pb_Plan n)) = Some plan →
  BindExecutionPlan b s
  = (s, if EqualExecutionPlans plan (pb_Plan n) then Ok plan else Err ErrExecutionPlanConflict).
Proof. intros Hn Hs. unfold BindExecutionPlan. rewrite Hn, Hs. by destruct (EqualExecutionPlans _ _). Qed.

(** Plans are bound once: after a successful binding, whatever else is bound,
    the same plan is read back for the revision; repeating the binding answers
    that plan and changes nothing; and a binding of the same revision to a plan
    that differs is refused and changes nothing. *)
Theorem plan_binding_immutable before after b plan :
  (BindExecutionPlan b (bind_all before NewMemoryExecutionPlanStore)).2 = Ok plan →
  let s := bind_all after (BindExecutionPlan b (bind_all before NewMemoryExecutionPlanStore)).1 in
  GetExecutionPlan (pl_IsolationDomainID plan) (pl_RevisionID plan) s = Ok plan
  ∧ BindExecutionPlan b s = (s, Ok plan)
  ∧ ∀ b' n', NormalizeExecutionPlanBinding b' = Ok n' →
      pl_IsolationDomainID (pb_Plan n') = pl_IsolationDomainID plan →
      pl_RevisionID (pb_Plan n') = pl_RevisionID plan →
      ¬ plan_equiv plan (pb_Plan n') →
      BindExecutionPlan b' s = (s, Err ErrExecutionPlanConflict).
Proof.
  intros Hb s. apply BindExecutionPlan_Ok in Hb as (n & Hn & Heq & Hl).
  assert (s !! scopedKey (pl_IsolationDomainID plan) (pl_RevisionID plan) = Some plan) as Hs.
  { eapply lookup_weaken; [exact Hl|apply bind_all_grows]. }
  destruct (plan_equiv_scope _ _ Heq) as [Hi Hr].
  split_and!.
  - unfold GetExecutionPlan. by rewrite Hs.
  - rewrite (BindExecutionPlan_bound b s n plan Hn) by congruence.
    apply EqualExecutionPlans_spec in Heq as ->. done.
  - intros b' n' Hn' Hi' Hr' Hne. rewrite (BindExecutionPlan_bound b' s n' plan Hn') by congruence.
    destruct (EqualExecutionPlans plan (pb_Plan n')) eqn:E; [|done].
    by apply EqualExecutionPlans_spec in E.
Qed.

(** A plan read for a scope belongs to it and is in normal form. *)
Lemma bound_plan_scoped bs iso rev plan :
  nul_free iso → GetExecutionPlan iso rev (bind_all bs NewMemoryExecutionPlanStore) = Ok plan →
  pl_IsolationDomainID plan = iso ∧ pl_RevisionID plan = rev ∧ NormalizeExecutionPlan plan = Ok plan.
Proof.
  intros Hiso. unfold GetExecutionPlan. case_match eqn:Hl; [|done]. intros [= ->].
  assert (plans_ok (bind_all bs NewMemoryExecutionPlanStore)) as Hok
    by (apply bind_all_plans_ok, map_Forall_empty).
  destruct (Hok _ _ Hl) as [Hn Hk].
  apply NormalizeExecutionPlan_Ok in Hn as Hn'. destruct Hn' as [(_ & _ & Hd & _) _].
  unfold isolationDomainPattern in Hd. apply match_prefixed_spec in Hd as (r & Hd & _ & Hr).
  destruct (scopedKey_inj iso rev (pl_IsolationDomainID plan) (pl_RevisionID plan)) as [-> ->]; [done| |done|done].
  unfold nul_free, contains_byte. rewrite bool_decide_eq_false, Hd, bytes_of_app, not_elem_of_app. split.
  - apply (bool_decide_unpack _). vm_compute. exact I.
  - eapply all_bytes_not_in; [exact Hr|]. vm_compute. reflexivity.
Qed.

(** ** Provider profile registry *)

Lemma add_profiles_Ok names reg reg' :
  add_profiles names reg = Ok reg' ↔
    Forall (λ n, profile_name_ok n = true) names ∧ NoDup names ∧ (∀ n, n ∈ names → n ∉ reg)
    ∧ reg' = reg ∪ list_to_set names.
Proof.
  revert reg. induction names as [|n names IH]; intros reg; simpl.
  { rewrite union_empty_r_L. split; [intros [= ->]|intros (_ & _ & _ & ->)]; [|done].
    split_and!; [constructor..|set_solver|done]. }
  rewrite Forall_cons, NoDup_cons. destruct (profile_name_ok n); [|naive_solver].
  case_decide as Hin.
  - split; [done|]. intros (_ & _ & Hd & _). by destruct (Hd n (list_elem_of_here _ _)).
  - rewrite IH. setoid_rewrite elem_of_cons. setoid_rewrite elem_of_union.
    setoid_rewrite elem_of_singleton. split.
    + intros (H1 & H2 & H3 & ->). split_and!; [done|done| |done| |set_solver]; [|].
      * intros Hn. destruct (H3 n Hn). by left.
      * intros m [->|Hm]; [done|]. intros ?. destruct (H3 m Hm). by right.
    + intros ([_ H1] & [Hn H2] & H3 & ->). split_and!; [done|done| |set_solver].
      intros m Hm [->|Hr]; [done|]. by apply (H3 m); [right|].
Qed.

Lemma resolve_each_Ok reg names :
  resolve_each reg names = Ok tt ↔ Forall (λ n, profile_name_ok n = true ∧ n ∈ reg) names.
Proof.
  induction names as [|n names IH]; simpl; [done|]. rewrite Forall_cons, <- IH.
  destruct (profile_name_ok n); [|naive_solver]. case_decide; naive_solver.
Qed.

(** A registry resolves exactly the selections of its own names, and owns the
    result in canonical order. *)
Lemma registry_resolve_exact names reg sel out :
  NewProviderProfileRegistry names = Ok reg →
  Resolve (Some reg) sel = Ok out ↔ (∀ n, n ∈ elems sel → n ∈ names) ∧ out = option_map sort_compact sel.
Proof.
  intros Hreg. apply add_profiles_Ok in Hreg as (Hok & _ & _ & ->).
  rewrite Forall_forall in Hok. unfold Resolve. rewrite result_bind_Ok. split.
  - intros ([] & Hr & [= <-]). apply resolve_each_Ok in Hr. rewrite Forall_forall in Hr.
    split; [|done]. intros n Hn. destruct (Hr n Hn) as [_ Hin]. set_solver.
  - intros [Hin ->]. exists tt. split; [|done]. apply resolve_each_Ok, Forall_forall.
    intros n Hn. split; [by apply Hok, Hin|]. specialize (Hin n Hn). set_solver.
Qed.

(** ** Examples *)

Definition example_hex : string := "0123456789abcdef0123456789abcdef0123456789abcdef0123456789abcdef".
Definition example_digest : string := "sha256:" +:+ example_hex.

Definition example_plan (bundle_digest : string) (profiles capabilities : slice string) : ExecutionPlan :=
  MkPlan ExecutionPlanSchemaV1 "iso_aaaaaaaaaaaaaaaaaaaa" "rev_bbbbbbbbbbbbbbbbbbbb" "codex" "env-1"
    ("registry.example/agent@" +:+ example_digest) example_digest "bundle-1" bundle_digest
    "matrix-1" example_digest profiles capabilities None.

Definition example_binding (profiles capabilities : slice string) : ExecutionPlanBinding :=
  MkPlanBinding (example_plan example_digest profiles capabilities) "actor" "cor_1".

Definition two_profiles : slice string := Some ["openai"; "anthropic"; "openai"].
Definition two_profiles' : slice string := Some ["anthropic"; "openai"].

Definition example_normal : ExecutionPlan := example_plan example_digest two_profiles' (Some ["network"]).

Lemma normalize_plan_canonical_witness :
  NormalizeExecutionPlan example_normal = Ok example_normal
  ∧ pl_ProviderProfiles example_normal = Some ["anthropic"; "openai"].
Proof.
  split; [|reflexivity].
  refine (proj1 (normalize_plan_canonical (example_plan example_digest two_profiles (Some ["network"]))
                   example_normal _)).
  vm_compute. reflexivity.
Defined.

Lemma plan_digest_order_free_witness :
  DigestExecutionPlan (example_plan example_digest two_profiles (Some ["network"]))
  = DigestExecutionPlan example_normal.
Proof.
  refine (proj1 (plan_digest_order_free (example_plan example_digest two_profiles (Some ["network"]))
                   example_normal example_normal example_normal _ _ _)).
  - vm_compute. reflexivity.
  - vm_compute. reflexivity.
  - unfold same_sets. split_and!; try reflexivity; try done.
    intros x. cbn [pl_ProviderProfiles example_plan example_normal elems two_profiles two_profiles' default].
    set_solver.
Defined.

Definition example_store : MemoryExecutionPlanStore :=
  (BindExecutionPlan (example_binding two_profiles (Some ["network"])) NewMemoryExecutionPlanStore).1.

(** Rebinding the revision with another capability list is refused. *)
Lemma plan_binding_immutable_witness :
  BindExecutionPlan (example_binding two_profiles (Some ["network"; "gpu"])) example_store
  = (example_store, Err ErrExecutionPlanConflict).
Proof.
  refine (proj2 (proj2 (plan_binding_immutable [] [] (example_binding two_profiles (Some ["network"]))
                          example_normal _)) _
            (MkPlanBinding (example_plan example_digest two_profiles' (Some ["gpu"; "network"])) "actor" "cor_1")
            _ _ _ _).
  - vm_compute. reflexivity.
  - vm_compute. reflexivity.
  - reflexivity.
  - reflexivity.
  - intros (_ & _ & H). vm_compute in H. discriminate H.
Defined.

(** A [nil] list and an empty one are equal for [EqualExecutionPlans] but have
    different digests, since normalisation keeps [nil] and JSON shows it. *)
Theorem equal_plans_digests_differ :
  EqualExecutionPlans (example_plan example_digest None None) (example_plan example_digest (Some []) None) = true
  ∧ is_ok (DigestExecutionPlan (example_plan example_digest None None)) = true
  ∧ DigestExecutionPlan (example_plan example_digest None None)
    ≠ DigestExecutionPlan (example_plan example_digest (Some []) None).
Proof. split_and!; [vm_compute; reflexivity..|]. vm_compute. discriminate. Qed.

(** A store with two registered profiles resolves selections of them. *)
Example registry_example :
  (reg ← NewProviderProfileRegistry ["openai"; "aws-bedrock.us"];
   Resolve (Some reg) (Some ["openai"; "aws-bedrock.us"; "openai"]))
  = Ok (Some ["aws-bedrock.us"; "openai"])
  ∧ NewProviderProfileRegistry ["openai."] = Err ErrProviderProfileInvalid.
Proof. split; vm_compute; reflexivity. Qed.
