(* ===== verification/Enforcement.v ===== *)
(** * Enforcement bundles

    [internal/execution/enforcement_bundle.go], [enforcement_bundle_finalizer.go]
    and [VerifyEnforcementPolicy] of [admission.go]: policy bytes live in an
    object store under a key derived from their digest; a catalog row describes
    them.  Catalog, object reader and writer are Go interfaces: classes over an
    arbitrary world.  The request context is one more source of answers, since
    it can be cancelled between any two steps. *)
From S2P Require Import Prelude.
From S2P Require Import CallLog.
From S2P Require Import GoStrings.
From S2P Require Import Sha256.
From S2P Require Import GatewayStore.
From S2P Require Import ExecutionPlan.
From Stdlib Require Decidable.

Definition maximumEnforcementPolicyBytes : Z := Z.shiftl 4 20.

Definition ErrPolicyInvalid : error := ESentinel "execution.ErrPolicyInvalid".
Definition ErrEnforcementBundleMissing : error := ESentinel "execution.ErrEnforcementBundleMissing".
Definition ErrEnforcementBundleMismatch : error := ESentinel "execution.ErrEnforcementBundleMismatch".
Definition ErrEnforcementBundleConflict : error := ESentinel "execution.ErrEnforcementBundleConflict".
Definition ErrEnforcementBundleRevisionMissing : error :=
  ESentinel "execution.ErrEnforcementBundleRevisionMissing".
Definition ErrEnforcementBundleUnavailable : error := ESentinel "execution.ErrEnforcementBundleUnavailable".
Definition ErrEnforcementObjectConflict : error := ESentinel "execution.ErrEnforcementObjectConflict".

Definition VerifyEnforcementPolicy (content digest : string) : result unit :=
  if decide (go_len content = 0 ∨ maximumEnforcementPolicyBytes < go_len content
             ∨ digestPattern digest = false)%Z then Err ErrPolicyInvalid
  else if decide (Sha256.digest_string content = digest) then Ok tt else Err ErrPolicyInvalid.

(** ** Records *)

Definition EnforcementBundleSchemaV1 := "dataground.enforcement-bundle/v1".
Definition EnforcementBundleMediaType := "application/yaml".
Definition enforcementBundleKeyPrefix := "enforcement-bundles/v1".
Definition enforcementBundleProducerV1 := "rosetta".

Definition sourceRevisionPattern : string → bool := match_prefixed "" is_hex_lower 40 40.

Record EnforcementBundle := MkBundle {
  eb_IsolationDomainID : string; eb_ID : string; eb_RevisionID : string; eb_Digest : string;
  eb_Content : string }.

Record EnforcementBundleProvenance := MkProvenance {
  ep_Producer : string; ep_SourceRevision : string; ep_CompilerVersion : string;
  ep_CatalogVersion : string; ep_TargetContractVersion : string; ep_Mode : string;
  ep_InputDigest : string; ep_BindingDigest : string }.

#[global] Instance EnforcementBundleProvenance_eq_dec : EqDecision EnforcementBundleProvenance.
Proof. solve_decision. Defined.

Record EnforcementBundleRecord := MkBundleRecord {
  er_SchemaVersion : string; er_IsolationDomainID : string; er_ID : string; er_RevisionID : string;
  er_Digest : string; er_MediaType : string; er_SizeBytes : Z; er_ObjectKey : string;
  er_Provenance : EnforcementBundleProvenance }.

#[global] Instance EnforcementBundleRecord_eq_dec : EqDecision EnforcementBundleRecord.
Proof. solve_decision. Defined.

Record EnforcementBundleBinding := MkBundleBinding {
  bb_Record : EnforcementBundleRecord; bb_ActorID : string; bb_CorrelationID : string }.

Definition EqualEnforcementBundleRecords (left right : EnforcementBundleRecord) : bool :=
  bool_decide (left = right).

Definition EnforcementBundleObjectKey (record : EnforcementBundleRecord) : string :=
  join "/" [enforcementBundleKeyPrefix; er_IsolationDomainID record; er_RevisionID record; er_ID record;
            trim_prefix (er_Digest record) "sha256:" +:+ ".yaml"].

Definition with_object_key (record : EnforcementBundleRecord) (key : string) : EnforcementBundleRecord :=
  MkBundleRecord (er_SchemaVersion record) (er_IsolationDomainID record) (er_ID record)
    (er_RevisionID record) (er_Digest record) (er_MediaType record) (er_SizeBytes record) key
    (er_Provenance record).

Definition valid_provenance (p : EnforcementBundleProvenance) : bool :=
  bool_decide (ep_Producer p = enforcementBundleProducerV1)
  && sourceRevisionPattern (ep_SourceRevision p)
  && validPortableValue (ep_CompilerVersion p) 128
  && validPortableValue (ep_CatalogVersion p) 128
  && validPortableValue (ep_TargetContractVersion p) 128
  && bool_decide (ep_Mode p = "strict")
  && digestPattern (ep_InputDigest p)
  && digestPattern (ep_BindingDigest p).

Definition NormalizeEnforcementBundleRecord (record : EnforcementBundleRecord)
  : result EnforcementBundleRecord :=
  reject_unless (bool_decide (er_SchemaVersion record = EnforcementBundleSchemaV1))
    "unsupported enforcement bundle schema version" $
  reject_unless (isolationDomainPattern (er_IsolationDomainID record) && revisionPattern (er_RevisionID record))
    "invalid enforcement bundle scope" $
  reject_unless (opaqueIdentifierPattern (er_ID record) && digestPattern (er_Digest record))
    "invalid enforcement bundle identity" $
  reject_unless (bool_decide (er_MediaType record = EnforcementBundleMediaType
                              ∧ 0 < er_SizeBytes record ≤ maximumEnforcementPolicyBytes)%Z)
    "invalid enforcement bundle object metadata" $
  reject_unless (valid_provenance (er_Provenance record)) "invalid enforcement bundle provenance" $
  let expectedKey := EnforcementBundleObjectKey record in
  if decide (er_ObjectKey record ≠ "" ∧ er_ObjectKey record ≠ expectedKey)
  then Err (ENew "invalid enforcement bundle object key")
  else Ok (with_object_key record expectedKey).

Definition NormalizeEnforcementBundleBinding (binding : EnforcementBundleBinding)
  : result EnforcementBundleBinding :=
  record ← NormalizeEnforcementBundleRecord (bb_Record binding);
  if validPortableValue (bb_ActorID binding) 256 then
    if validPortableValue (bb_CorrelationID binding) 256
    then Ok (MkBundleBinding record (bb_ActorID binding) (bb_CorrelationID binding))
    else Err (ENew "invalid enforcement bundle correlation identifier")
  else Err (ENew "invalid enforcement bundle actor").

(** ** The interfaces *)

(** [ctx.Err()] *)
Class GoContext (W : Type) := ctx_Err : io W (option error).

(** An opened object: the bytes it delivers, the fault (if any) it reports after
    delivering them instead of end of file, and the answer of [Close]. *)
Record ReadCloser := MkReadCloser { rc_stream : string; rc_fault : option error; rc_close : option error }.

(** The first [n] bytes. *)
Fixpoint first_bytes (n : Z) (s : string) : string :=
  match s with
  | EmptyString => EmptyString
  | String c rest => if (0 <? n)%Z then String c (first_bytes (n - 1) rest) else EmptyString
  end.

(** [io.ReadAll(io.LimitReader(object, n))]: the limit hides a fault behind it. *)
Definition read_limited (n : Z) (object : ReadCloser) : string * option error :=
  (first_bytes n (rc_stream object),
   if (go_len (rc_stream object) <? n)%Z then rc_fault object else None).

Class EnforcementBundleCatalog (W : Type) :=
  GetEnforcementBundleRecord_ : string → string → io W (result EnforcementBundleRecord).
Class EnforcementBundleStore (W : Type) :=
  BindEnforcementBundle_ : EnforcementBundleBinding → io W (result EnforcementBundleRecord).
Class EnforcementObjectReader (W : Type) :=
  OpenEnforcementObject_ : string → io W (result ReadCloser).
Class EnforcementObjectWriter (W : Type) :=
  PutEnforcementObjectIfAbsent_ : string → string → Z → string → io W (option error).

(** ** Operations *)

Section operations.
Context {W : Type} `{GoContext W, EnforcementBundleCatalog W, EnforcementBundleStore W,
                     EnforcementObjectReader W, EnforcementObjectWriter W}.

(** [if ctx.Err() != nil { return ctx.Err() }; return otherwise]: once a context
    reports an error it keeps reporting it, so it is asked once. *)
Definition unless_cancelled {A} (otherwise : io W (result A)) : io W (result A) :=
  cancelled ← ctx_Err;
  match cancelled with
  | None => otherwise
  | Some err => mret (Err err)
  end.

Definition readEnforcementObject (record : EnforcementBundleRecord) : io W (result string) :=
  opened ← OpenEnforcementObject_ (er_ObjectKey record);
  match opened with
  | Err _ => unless_cancelled (mret (Err ErrEnforcementBundleUnavailable))
  | Ok object =>
      let '(content, readErr) := read_limited (maximumEnforcementPolicyBytes + 1) object in
      if decide (readErr ≠ None ∨ rc_close object ≠ None)
      then unless_cancelled (mret (Err ErrEnforcementBundleUnavailable))
      else if decide (go_len content ≠ er_SizeBytes record
                      ∨ (maximumEnforcementPolicyBytes < go_len content)%Z
                      ∨ VerifyEnforcementPolicy content (er_Digest record) ≠ Ok tt)
      then mret (Err ErrEnforcementBundleMismatch)
      else mret (Ok content)
  end.

Definition GetEnforcementBundle (isolationDomainID bundleID : string) : io W (result EnforcementBundle) :=
  found ← GetEnforcementBundleRecord_ isolationDomainID bundleID;
  match found with
  | Err err =>
      unless_cancelled (mret (Err (if is_err err ErrEnforcementBundleMissing
                                   then ErrEnforcementBundleMissing else ErrEnforcementBundleUnavailable)))
  | Ok stored =>
      match NormalizeEnforcementBundleRecord stored with
      | Err _ => mret (Err ErrEnforcementBundleMismatch)
      | Ok record =>
          if decide (er_IsolationDomainID record ≠ isolationDomainID ∨ er_ID record ≠ bundleID)
          then mret (Err ErrEnforcementBundleMismatch)
          else
          read ← readEnforcementObject record;
          match read with
          | Err err => mret (Err err)
          | Ok content => mret (Ok (MkBundle (er_IsolationDomainID record) (er_ID record)
                                      (er_RevisionID record) (er_Digest record) content))
          end
      end
  end.

Record EnforcementBundleFinalization := MkFinalization {
  ef_Binding : EnforcementBundleBinding; ef_Content : string }.

(** [Ok None] is "not found". *)
Definition preflight (record : EnforcementBundleRecord) (content : string)
  : io W (result (option EnforcementBundleRecord)) :=
  found ← GetEnforcementBundleRecord_ (er_IsolationDomainID record) (er_ID record);
  match found with
  | Err err =>
      unless_cancelled (mret (if is_err err ErrEnforcementBundleMissing
                              then Ok None else Err ErrEnforcementBundleUnavailable))
  | Ok stored =>
      match NormalizeEnforcementBundleRecord stored with
      | Err _ => mret (Err ErrEnforcementBundleConflict)
      | Ok existing =>
          if EqualEnforcementBundleRecords existing record then
            read ← readEnforcementObject existing;
            match read with
            | Err err => mret (Err err)
            | Ok persisted =>
                if decide (persisted = content) then mret (Ok (Some existing))
                else mret (Err ErrEnforcementBundleConflict)
            end
          else mret (Err ErrEnforcementBundleConflict)
      end
  end.

(** The tail of [Finalize], once the object is known to hold the content. *)
Definition bind_finalized (binding : EnforcementBundleBinding) : io W (result EnforcementBundleRecord) :=
  bound ← BindEnforcementBundle_ binding;
  match bound with
  | Err err =>
      unless_cancelled (mret (Err (if is_err err ErrEnforcementBundleConflict
                                      || is_err err ErrEnforcementBundleRevisionMissing
                                   then err else ErrEnforcementBundleUnavailable)))
  | Ok record =>
      match NormalizeEnforcementBundleRecord record with
      | Err _ => mret (Err ErrEnforcementBundleConflict)
      | Ok bound =>
          if EqualEnforcementBundleRecords bound (bb_Record binding) then mret (Ok bound)
          else mret (Err ErrEnforcementBundleConflict)
      end
  end.

Definition write_finalized (binding : EnforcementBundleBinding) (content : string)
  : io W (result EnforcementBundleRecord) :=
  writeErr ← PutEnforcementObjectIfAbsent_ (er_ObjectKey (bb_Record binding)) content
               (er_SizeBytes (bb_Record binding)) (er_Digest (bb_Record binding));
  unless_cancelled (
    read ← readEnforcementObject (bb_Record binding);
    match read with
    | Err readErr =>
        unless_cancelled (mret (Err (
          if is_err readErr ErrEnforcementBundleMismatch
             || match writeErr with Some err => is_err err ErrEnforcementObjectConflict | None => false end
          then ErrEnforcementBundleConflict else ErrEnforcementBundleUnavailable)))
    | Ok persisted =>
        if decide (persisted = content) then bind_finalized binding
        else mret (Err ErrEnforcementBundleConflict)
    end).

Definition Finalize (finalization : EnforcementBundleFinalization) : io W (result EnforcementBundleRecord) :=
  match NormalizeEnforcementBundleBinding (ef_Binding finalization) with
  | Err err => mret (Err err)
  | Ok binding =>
      let content := ef_Content finalization in
      if decide (go_len content ≠ er_SizeBytes (bb_Record binding)
                 ∨ VerifyEnforcementPolicy content (er_Digest (bb_Record binding)) ≠ Ok tt)
      then mret (Err ErrEnforcementBundleMismatch)
      else
      checked ← preflight (bb_Record binding) content;
      match checked with
      | Err err => mret (Err err)
      | Ok (Some existing) => mret (Ok existing)
      | Ok None => write_finalized binding content
      end
  end.
End operations.

(** ** Verified content *)

Lemma VerifyEnforcementPolicy_Ok content digest :
  VerifyEnforcementPolicy content digest = Ok tt ↔
    (0 < go_len content ≤ maximumEnforcementPolicyBytes)%Z ∧ digestPattern digest = true
    ∧ Sha256.digest_string content = digest.
Proof.
  unfold VerifyEnforcementPolicy. assert (0 ≤ go_len content)%Z by (unfold go_len; lia).
  case_decide as H1; [|case_decide]; destruct (digestPattern digest); naive_solver lia.
Qed.

Lemma first_bytes_short s n : (go_len (first_bytes n s) < n)%Z → first_bytes n s = s.
Proof.
  revert n. induction s as [|c s IH]; intros n; [done|]. cbn [first_bytes].
  destruct (Z.ltb_spec 0 n); [|by unfold go_len; simpl; lia].
  intros Hlen. f_equal. apply IH. unfold go_len in *. cbn [String.length] in Hlen. lia.
Qed.

(** A read that stays within the limit and reports no fault saw the whole object. *)
Lemma read_limited_whole {n} object content readErr :
  read_limited (n + 1) object = (content, readErr) →
  ¬ readErr ≠ None → (go_len content ≤ n)%Z →
  rc_stream object = content ∧ rc_fault object = None.
Proof.
  unfold read_limited. intros [= <- <-] Hf%dec_stable Hlen.
  rewrite (first_bytes_short (rc_stream object)) in * by lia.
  split; [done|]. destruct (Z.ltb_spec (go_len (rc_stream object)) (n + 1)); [done|lia].
Qed.

Section theorems.
Context {W : Type} `{GoContext W, EnforcementBundleCatalog W, EnforcementBundleStore W,
                     EnforcementObjectReader W, EnforcementObjectWriter W}.

Lemma unless_cancelled_Ok {A} (k : io W (result A)) w w' a :
  unless_cancelled k w = (w', Ok a) → ∃ w1, ctx_Err w = (w1, None) ∧ k w1 = (w', Ok a).
Proof.
  unfold unless_cancelled, mbind, io_bind. destruct (ctx_Err w) as [w1 [e|]]; [done|]. eauto.
Qed.

(** A successful read opened the record's object once, and the object holds
    exactly the returned bytes, of the recorded size and digest. *)
Lemma readEnforcementObject_Ok record w w' content :
  readEnforcementObject record w = (w', Ok content) →
  (∃ object, OpenEnforcementObject_ (er_ObjectKey record) w = (w', Ok object)
     ∧ rc_stream object = content ∧ rc_fault object = None)
  ∧ go_len content = er_SizeBytes record
  ∧ VerifyEnforcementPolicy content (er_Digest record) = Ok tt.
Proof.
  unfold readEnforcementObject. unfold mbind at 1, io_bind at 1.
  destruct (OpenEnforcementObject_ _ w) as [w1 [object|e]].
  2:{ intros (w2 & _ & Hk)%unless_cancelled_Ok. done. }
  destruct (read_limited _ object) as [content' readErr] eqn:Hread. cbv beta iota.
  case_decide as Hf; [intros (w2 & _ & Hk)%unless_cancelled_Ok; done|].
  case_decide as Hc; [done|]. intros [= <- <-].
  apply Decidable.not_or in Hf as [Hf _], Hc as [Hsize [Hmax Hv]%Decidable.not_or].
  apply dec_stable in Hsize, Hv. split; [|done]. exists object. split; [done|].
  apply (read_limited_whole _ _ _ Hread); [done|lia].
Qed.

Lemma NormalizeEnforcementBundleRecord_Ok r r' :
  NormalizeEnforcementBundleRecord r = Ok r' →
  r' = with_object_key r (EnforcementBundleObjectKey r)
  ∧ isolationDomainPattern (er_IsolationDomainID r) = true ∧ revisionPattern (er_RevisionID r) = true
  ∧ opaqueIdentifierPattern (er_ID r) = true ∧ digestPattern (er_Digest r) = true
  ∧ (0 < er_SizeBytes r ≤ maximumEnforcementPolicyBytes)%Z
  ∧ valid_provenance (er_Provenance r) = true.
Proof.
  unfold NormalizeEnforcementBundleRecord. rewrite !reject_unless_Ok, !andb_true_iff, !bool_decide_eq_true.
  intros (_ & [? ?] & [? ?] & [_ ?] & ? & Hk). case_decide; naive_solver.
Qed.

Lemma with_object_key_key r k : EnforcementBundleObjectKey (with_object_key r k) = EnforcementBundleObjectKey r.
Proof. done. Qed.

Lemma NormalizeEnforcementBundleRecord_idemp r r' :
  NormalizeEnforcementBundleRecord r = Ok r' → NormalizeEnforcementBundleRecord r' = Ok r'.
Proof.
  intros H'. destruct (NormalizeEnforcementBundleRecord_Ok _ _ H') as [-> _]. revert H'.
  unfold NormalizeEnforcementBundleRecord. rewrite !reject_unless_Ok.
  intros (?&?&?&?&?&_). split_and!; [done..|]. by rewrite decide_False by (simpl; tauto).
Qed.

(** Whatever the catalog and the object store answer, a bundle handed out for
    a scope and identifier has that scope and identifier, is non-empty and within
    the size limit, and its content hashes to its digest. *)
Theorem enforcement_bundle_verified iso id (w w' : W) bundle :
  GetEnforcementBundle iso id w = (w', Ok bundle) →
  eb_IsolationDomainID bundle = iso ∧ eb_ID bundle = id
  ∧ isolationDomainPattern iso = true ∧ revisionPattern (eb_RevisionID bundle) = true
  ∧ (0 < go_len (eb_Content bundle) ≤ maximumEnforcementPolicyBytes)%Z
  ∧ Sha256.digest_string (eb_Content bundle) = eb_Digest bundle.
Proof.
  unfold GetEnforcementBundle. unfold mbind at 1, io_bind at 1.
  destruct (GetEnforcementBundleRecord_ iso id w) as [w1 [stored|e]].
  2:{ intros (w2 & _ & Hk)%unless_cancelled_Ok. done. }
  destruct (NormalizeEnforcementBundleRecord stored) as [r|] eqn:Hn; [|done].
  apply NormalizeEnforcementBundleRecord_Ok in Hn as (-> & Hiso & Hrev & _).
  case_decide as Hs; [done|]. unfold mbind, io_bind.
  destruct (readEnforcementObject _ w1) as [w2 [content|e]] eqn:Hr; [|done]. intros [= <- <-].
  apply readEnforcementObject_Ok in Hr as (_ & _ & Hv).
  apply VerifyEnforcementPolicy_Ok in Hv as (Hlen & _ & Hd). simpl in *.
  apply Decidable.not_or in Hs as [Hi%dec_stable Hid%dec_stable]. by subst.
Qed.
End theorems.

(** ** Object keys *)

Lemma match_prefixed_no_byte pfx class lo hi s c :
  match_prefixed pfx class lo hi s = true → c ∉ bytes_of pfx → class c = false → c ∉ bytes_of s.
Proof.
  intros (r & -> & _ & Hr)%match_prefixed_spec Hp Hc. rewrite bytes_of_app, not_elem_of_app.
  split; [done|]. by eapply all_bytes_not_in.
Qed.

Lemma opaque_no_slash s : opaqueIdentifierPattern s = true → "/"%char ∉ bytes_of s.
Proof.
  unfold opaqueIdentifierPattern, match_headed. destruct s as [|a s]; [done|].
  intros [[Ha _]%andb_true_iff Hs]%andb_true_iff. change (bytes_of (String a s)) with (a :: bytes_of s).
  rewrite not_elem_of_cons. split; [by intros <-|]. by eapply all_bytes_not_in.
Qed.

(** The object key identifies the bundle: two acceptable records with the same
    key agree on isolation domain, revision, bundle identifier and content digest,
    so objects of different scopes or contents never collide. *)
Theorem object_key_identifies r1 r1' r2 r2' :
  NormalizeEnforcementBundleRecord r1 = Ok r1' → NormalizeEnforcementBundleRecord r2 = Ok r2' →
  er_ObjectKey r1' = er_ObjectKey r2' →
  er_IsolationDomainID r1' = er_IsolationDomainID r2' ∧ er_RevisionID r1' = er_RevisionID r2'
  ∧ er_ID r1' = er_ID r2' ∧ er_Digest r1' = er_Digest r2'.
Proof.
  intros (-> & I1 & V1 & D1 & G1 & _)%NormalizeEnforcementBundleRecord_Ok
         (-> & I2 & V2 & D2 & G2 & _)%NormalizeEnforcementBundleRecord_Ok.
  apply match_prefixed_spec in G1 as (h1 & G1 & _), G2 as (h2 & G2 & _).
  simpl. unfold EnforcementBundleObjectKey, trim_prefix. rewrite G1, G2, !strip_prefix_app.
  cbn [join]. intros E. apply append_inj_l in E. injection E as E. simpl in E.
  assert (∀ s, isolationDomainPattern s = true → "/"%char ∉ bytes_of s) as Hi
    by (intros s Hs; apply (match_prefixed_no_byte _ _ _ _ _ _ Hs); [apply (bool_decide_unpack _)|]; by vm_compute).
  assert (∀ s, revisionPattern s = true → "/"%char ∉ bytes_of s) as Hr
    by (intros s Hs; apply (match_prefixed_no_byte _ _ _ _ _ _ Hs); [apply (bool_decide_unpack _)|]; by vm_compute).
  apply join_sep_inj in E as [Ei E]; [|by auto..].
  apply join_sep_inj in E as [Er E]; [|by auto..].
  apply join_sep_inj in E as [Ed E]; [|by apply opaque_no_slash..].
  apply append_inj_r in E. by subst h2.
Qed.

(** ** Calls of the finaliser *)

Inductive object_call :=
  | Looked (isolationDomainID bundleID : string) (answer : result EnforcementBundleRecord)
  | Opened (key : string) (answer : result ReadCloser)
  | Put (key content : string) (size : Z) (digest : string) (answer : option error)
  | Bound (binding : EnforcementBundleBinding) (answer : result EnforcementBundleRecord).

Section logged.
Context {W : Type} `{X : GoContext W, C : EnforcementBundleCatalog W, S : EnforcementBundleStore W,
                     R : EnforcementObjectReader W, P : EnforcementObjectWriter W}.

#[export] Instance logged_context : GoContext (W * list object_call) := silently ctx_Err.
#[export] Instance logged_catalog : EnforcementBundleCatalog (W * list object_call) :=
  λ iso id, logging (Looked iso id) (GetEnforcementBundleRecord_ iso id).
#[export] Instance logged_bundles : EnforcementBundleStore (W * list object_call) :=
  λ binding, logging (Bound binding) (BindEnforcementBundle_ binding).
#[export] Instance logged_reader : EnforcementObjectReader (W * list object_call) :=
  λ key, logging (Opened key) (OpenEnforcementObject_ key).
#[export] Instance logged_writer : EnforcementObjectWriter (W * list object_call) :=
  λ key content size digest,
    logging (Put key content size digest) (PutEnforcementObjectIfAbsent_ key content size digest).
End logged.

(** The calls show that the object under [key] holds [content], whole. *)
Definition shows_object (t : list object_call) (key content : string) : Prop :=
  ∃ object, Opened key (Ok object) ∈ t ∧ rc_stream object = content ∧ rc_fault object = None.

(** Only the catalog was asked and objects opened. *)
Definition reads_only (t : list object_call) : Prop :=
  Forall (λ c, match c with Looked _ _ _ | Opened _ _ => True | _ => False end) t.

Section finalize.
Context {W : Type} `{X : GoContext W, C : EnforcementBundleCatalog W, S : EnforcementBundleStore W,
                     R : EnforcementObjectReader W, P : EnforcementObjectWriter W}.

Lemma traced_unless_cancelled {A} (k : io (W * list object_call) (result A)) Q :
  (∀ err, Q [] (Err err)) → traced k Q → traced (unless_cancelled k) Q.
Proof.
  intros Herr Hk. apply traced_silently_bind. intros [err|]; [|done]. by apply traced_ret.
Qed.

Lemma traced_read record :
  traced (W := W) (readEnforcementObject record) (λ t r,
    ∃ answer, t = [Opened (er_ObjectKey record) answer]
    ∧ ∀ content, r = Ok content → ∃ object, answer = Ok object
        ∧ rc_stream object = content ∧ rc_fault object = None).
Proof.
  apply traced_logging_bind. intros answer. destruct answer as [object|err].
  2:{ apply traced_unless_cancelled; [intros ?|apply traced_ret]; eexists; by split. }
  destruct (read_limited _ object) as [content readErr] eqn:Hread.
  case_decide as Hf.
  { apply traced_unless_cancelled; [intros ?|apply traced_ret]; eexists; by split. }
  case_decide as Hc; apply traced_ret; eexists; (split; [done|]); [done|].
  intros ? [= <-]. exists object. split; [done|].
  apply (read_limited_whole _ _ _ Hread); [tauto|lia].
Qed.

Lemma traced_preflight record content :
  traced (W := W) (preflight record content) (λ t r,
    reads_only t ∧ ∀ existing, r = Ok (Some existing) →
      existing = record ∧ shows_object t (er_ObjectKey record) content).
Proof.
  apply traced_logging_bind. intros [stored|err].
  2:{ apply traced_unless_cancelled; [|apply traced_ret; destruct (is_err _ _)];
        repeat constructor; done. }
  destruct (NormalizeEnforcementBundleRecord stored) as [existing|]; [|by apply traced_ret; repeat constructor].
  unfold EqualEnforcementBundleRecords. case_bool_decide as Heq; [|by apply traced_ret; repeat constructor].
  subst existing. eapply traced_bind; [apply traced_read|].
  intros t [persisted|err] (answer & -> & Hans); [|by apply traced_ret; repeat constructor].
  case_decide as Hp; apply traced_ret; (split; [by repeat constructor|]); [|done].
  intros ? [= <-]. destruct (Hans persisted eq_refl) as (object & -> & Hs & Hf). subst content.
  split; [done|]. exists object. split_and!; [set_solver|done..].
Qed.

Lemma traced_bind_finalized binding :
  traced (W := W) (bind_finalized binding) (λ t r,
    (∃ answer, t = [Bound binding answer]) ∧ ∀ record, r = Ok record → record = bb_Record binding).
Proof.
  apply traced_logging_bind. intros [record|err].
  2:{ apply traced_unless_cancelled; [|apply traced_ret]; naive_solver. }
  destruct (NormalizeEnforcementBundleRecord record); [|apply traced_ret; naive_solver].
  unfold EqualEnforcementBundleRecords. case_bool_decide; apply traced_ret; split; naive_solver.
Qed.

(** What the calls of writing and binding look like: a write, a read, and the
    binding only after the read returned the content. *)
Lemma traced_write_finalized binding content :
  traced (W := W) (write_finalized binding content) (λ t r, ∃ put,
    let key := er_ObjectKey (bb_Record binding) in
    let write := Put key content (er_SizeBytes (bb_Record binding)) (er_Digest (bb_Record binding)) put in
    ((t = [write] ∨ ∃ answer, t = [write; Opened key answer]) ∧ is_ok r = false)
    ∨ ∃ object answer, t = [write; Opened key (Ok object); Bound binding answer]
        ∧ rc_stream object = content ∧ rc_fault object = None
        ∧ ∀ record, r = Ok record → record = bb_Record binding).
Proof.
  apply traced_logging_bind. intros put. apply traced_unless_cancelled.
  { intros err. exists put. left. split; [by left|done]. }
  eapply traced_bind; [apply traced_read|]. intros t [persisted|err] (answer & -> & Hans).
  2:{ apply traced_unless_cancelled; [intros ?|apply traced_ret];
        exists put; left; (split; [right; by exists answer|done]). }
  case_decide as Hp; [|apply traced_ret; exists put; left; (split; [right; by exists answer|done])].
  subst content.
  destruct (Hans persisted eq_refl) as (object & -> & Hs & Hf).
  eapply traced_mono; [apply traced_bind_finalized|]. intros t' r ([ans ->] & Hr).
  exists put. right. by exists object, ans.
Qed.

(** The shape of every run of the finaliser. *)
Definition finalized (finalization : EnforcementBundleFinalization) (t : list object_call)
    (r : result EnforcementBundleRecord) : Prop :=
  let content := ef_Content finalization in
  (∀ binding answer, Bound binding answer ∈ t →
     NormalizeEnforcementBundleBinding (ef_Binding finalization) = Ok binding
     ∧ ∃ before object, t = before ++ [Opened (er_ObjectKey (bb_Record binding)) (Ok object); Bound binding answer]
       ∧ (∀ b a, Bound b a ∉ before) ∧ rc_stream object = content ∧ rc_fault object = None)
  ∧ (∀ key written size digest answer, Put key written size digest answer ∈ t →
     ∃ binding, NormalizeEnforcementBundleBinding (ef_Binding finalization) = Ok binding
       ∧ key = er_ObjectKey (bb_Record binding) ∧ written = content)
  ∧ (∀ record, r = Ok record →
     ∃ binding, NormalizeEnforcementBundleBinding (ef_Binding finalization) = Ok binding
       ∧ record = bb_Record binding ∧ shows_object t (er_ObjectKey record) content
       ∧ Sha256.digest_string content = er_Digest record).

Lemma reads_only_no_writes t : reads_only t →
  (∀ b a, Bound b a ∉ t) ∧ (∀ k c s d a, Put k c s d a ∉ t).
Proof.
  unfold reads_only. rewrite Forall_forall. intros Ht. split; intros; intros Hin; by apply Ht in Hin.
Qed.

Lemma finalized_read finalization t r :
  reads_only t →
  (∀ record, r = Ok record →
     ∃ binding, NormalizeEnforcementBundleBinding (ef_Binding finalization) = Ok binding
       ∧ record = bb_Record binding ∧ shows_object t (er_ObjectKey record) (ef_Content finalization)
       ∧ Sha256.digest_string (ef_Content finalization) = er_Digest record) →
  finalized finalization t r.
Proof.
  intros [Hb Hp]%reads_only_no_writes Hr. split_and!; [|..]; [by intros ?? ?%Hb|by intros ????? ?%Hp|done].
Qed.

Section shapes.
Context (finalization : EnforcementBundleFinalization) (binding : EnforcementBundleBinding).
Context (Hn : NormalizeEnforcementBundleBinding (ef_Binding finalization) = Ok binding).
Let record := bb_Record binding.
Let write put := Put (er_ObjectKey record) (ef_Content finalization) (er_SizeBytes record) (er_Digest record) put.

(** Nothing bound: after the write came at most a read, and an error is answered. *)
Lemma finalized_unbound put t t' r :
  reads_only t → reads_only t' → is_ok r = false → finalized finalization (t ++ write put :: t') r.
Proof.
  intros [Hb Hp]%reads_only_no_writes [Hb' Hp']%reads_only_no_writes Hr. split_and!.
  - intros b a. rewrite elem_of_app, elem_of_cons. intros [?%Hb|[?|?%Hb']]; done.
  - intros k c s d a. rewrite elem_of_app, elem_of_cons.
    intros [?%Hp|[[= -> -> _ _ _]|?%Hp']]; [done|by exists binding|done].
  - intros rec ->. done.
Qed.

Lemma finalized_bound put t object answer r :
  reads_only t → rc_stream object = ef_Content finalization → rc_fault object = None →
  Sha256.digest_string (ef_Content finalization) = er_Digest record →
  (∀ rec, r = Ok rec → rec = record) →
  finalized finalization
    (t ++ [write put; Opened (er_ObjectKey record) (Ok object); Bound binding answer]) r.
Proof.
  intros [Hb Hp]%reads_only_no_writes Hs Hf Hd Hr. split_and!.
  - intros b a. rewrite elem_of_app, !elem_of_cons, elem_of_nil.
    intros [?%Hb|[?|[?|[[= -> ->]|?]]]]; [done..| |done]. split; [done|].
    exists (t ++ [write put]), object. split_and!; [by rewrite <- app_assoc| |done|done].
    intros b' a'. rewrite elem_of_app, elem_of_cons, elem_of_nil. intros [?%Hb|[?|?]]; done.
  - intros k c s d a. rewrite elem_of_app, !elem_of_cons, elem_of_nil.
    intros [?%Hp|[[= -> -> _ _ _]|[?|[?|?]]]]; [done|by exists binding|done..].
  - intros rec Hrec. apply Hr in Hrec as ->. exists binding. split_and!; [done..| |done].
    exists object. split_and!; [|done..]. rewrite elem_of_app, !elem_of_cons. auto.
Qed.
End shapes.

Lemma traced_Finalize finalization : traced (W := W) (Finalize finalization) (finalized finalization).
Proof.
  unfold Finalize. destruct (NormalizeEnforcementBundleBinding _) as [binding|err] eqn:Hn.
  2:{ apply traced_ret, finalized_read; [constructor|done]. }
  case_decide as Hc; [apply traced_ret, finalized_read; [constructor|done]|].
  apply Decidable.not_or in Hc as [_ Hv%dec_stable]. apply VerifyEnforcementPolicy_Ok in Hv as (_ & _ & Hd).
  eapply traced_bind; [apply traced_preflight|]. intros t [[existing|]|err] [Hro Hpre].
  - apply traced_ret. rewrite app_nil_r. apply finalized_read; [done|]. intros ? [= <-].
    destruct (Hpre existing eq_refl) as [-> Hs]. eauto.
  - eapply traced_mono; [apply traced_write_finalized|].
    intros t' r (put & [[Ht Hr]|(object & answer & -> & Hs & Hf & Hr)]).
    + destruct Ht as [->|[answer ->]]; apply finalized_unbound; by repeat constructor.
    + apply finalized_bound; auto.
  - apply traced_ret. rewrite app_nil_r. apply finalized_read; [done|done].
Qed.

(** C19: bytes are durable before metadata.  For every catalog, object store and
    cancellation: the finaliser binds the normalised record only as its last call,
    right after the object under the record's key was read back whole and equal
    to the submitted content; it writes nothing but that content under that key;
    and whenever it succeeds it answers the normalised record, the object was seen
    to hold the content, and the content hashes to the record's digest. *)
Theorem finalize_durable_before_bind finalization (w : W) :
  let '((w', t), r) := Finalize finalization (w, []) in finalized finalization t r.
Proof.
  destruct (traced_Finalize finalization w []) as (t' & Ht & HQ).
  destruct (Finalize finalization (w, [])) as [[w' t] r]. simpl in *. by subst t'.
Qed.
End finalize.

(** ** Examples: a world that holds one catalogued object *)

Definition example_policy : string := "version: 1".
Definition example_policy_digest : string := Eval vm_compute in Sha256.digest_string example_policy.

Definition example_record (revision : string) : EnforcementBundleRecord :=
  MkBundleRecord EnforcementBundleSchemaV1 "iso_aaaaaaaaaaaaaaaaaaaa" "bundle-1" revision
    example_policy_digest EnforcementBundleMediaType 10 ""
    (MkProvenance "rosetta" "0123456789abcdef0123456789abcdef01234567" "1.0" "1.0" "1.0" "strict"
       example_digest example_digest).

Definition example_revision : string := "rev_bbbbbbbbbbbbbbbbbbbb".

Definition example_context : GoContext unit := λ w, (w, None).
Definition example_catalog : EnforcementBundleCatalog unit :=
  λ _ _ w, (w, Ok (example_record example_revision)).
Definition example_reader : EnforcementObjectReader unit :=
  λ _ w, (w, Ok (MkReadCloser example_policy None None)).

Definition example_bundle : EnforcementBundle :=
  MkBundle "iso_aaaaaaaaaaaaaaaaaaaa" "bundle-1" example_revision example_policy_digest example_policy.

Lemma enforcement_bundle_verified_witness :
  @GetEnforcementBundle unit example_context example_catalog example_reader
    "iso_aaaaaaaaaaaaaaaaaaaa" "bundle-1" () = ((), Ok example_bundle)
  ∧ eb_ID example_bundle = "bundle-1".
Proof.
  split; [vm_compute; reflexivity|].
  refine (proj1 (proj2 (@enforcement_bundle_verified unit example_context example_catalog example_reader
    "iso_aaaaaaaaaaaaaaaaaaaa" "bundle-1" () () example_bundle _))).
  vm_compute. reflexivity.
Defined.

Definition example_normal_record : EnforcementBundleRecord :=
  with_object_key (example_record example_revision)
    (EnforcementBundleObjectKey (example_record example_revision)).

Lemma object_key_identifies_witness :
  er_ID example_normal_record = "bundle-1" ∧ er_RevisionID example_normal_record = example_revision.
Proof.
  split; [reflexivity|].
  refine (proj1 (proj2 (object_key_identifies (example_record example_revision) example_normal_record
    example_normal_record example_normal_record _ _ _))); vm_compute; reflexivity.
Defined.
