(* ===== verification/Admission.v ===== *)
(** * Execution admission

    [internal/execution/admission.go]: resolves the immutable plan and the
    enforcement bundle of a revision, authorises each provider credential before
    placement and again before creation, and asks the provider to create the
    execution.  Plan store, bundle source, provider and authoriser are Go
    interfaces, hence arbitrary computations over an arbitrary world. *)
From S2P Require Import Prelude.
From S2P Require Import CallLog.
From S2P Require Import GoStrings.
From S2P Require Import Sha256.
From S2P Require Import GatewayStore.
From S2P Require Import ExecutionPlan.
From S2P Require Import Enforcement.

Definition ErrWorkspaceSourceProvisioningUnavailable : error :=
  ESentinel "execution.ErrWorkspaceSourceProvisioningUnavailable".
Definition ErrProviderCredentialUseDenied : error := ESentinel "execution.ErrProviderCredentialUseDenied".

Definition operationPattern : string → bool := match_prefixed "op_" is_id_char 20 32.

Definition ProviderCredentialPurposeAgentInference := "agent-inference".
Definition ProviderCredentialPhaseAdmission := "admission".
Definition ProviderCredentialPhaseEffect := "effect".

Record ProviderCredentialUse := MkCredentialUse {
  cu_IsolationDomainID : string; cu_RevisionID : string; cu_OperationID : string;
  cu_ProviderProfile : string; cu_Purpose : string; cu_Phase : string;
  cu_ActorID : string; cu_CorrelationID : string }.

Record AdmissionRequest := MkAdmissionRequest {
  ar_IsolationDomainID : string; ar_RevisionID : string; ar_OperationID : string;
  ar_ActorID : string; ar_CorrelationID : string }.

Record CreateRequest := MkCreateRequest {
  cr_Placement : Placement; cr_IsolationDomainID : string; cr_OperationID : string;
  cr_Image : string; cr_Policy : string; cr_PolicyDigest : string; cr_ProviderProfiles : slice string }.

(** The interfaces, with the methods admission calls. *)
Record ExecutionPlanStore (W : Type) := {
  GetExecutionPlan_ : string → string → io W (result ExecutionPlan) }.
Record EnforcementBundleSource (W : Type) := {
  GetEnforcementBundle_ : string → string → io W (result EnforcementBundle) }.
Record admissionProvider (W : Type) := {
  SelectGateway_ : PlacementRequest → io W (result Placement);
  Create_ : CreateRequest → io W (result Execution) }.
Record ProviderCredentialUseAuthorizer (W : Type) := {
  AuthorizeProviderCredentialUse_ : ProviderCredentialUse → io W (result unit) }.
Arguments GetExecutionPlan_ {W}.
Arguments GetEnforcementBundle_ {W}.
Arguments SelectGateway_ {W}.
Arguments Create_ {W}.
Arguments AuthorizeProviderCredentialUse_ {W}.

Record Admission (W : Type) := MkAdmission {
  workspacePlanDigest : string;
  plans : ExecutionPlanStore W;
  bundles : EnforcementBundleSource W;
  provider : admissionProvider W;
  credentials : option (ProviderCredentialUseAuthorizer W) }.
Arguments MkAdmission {W}.
Arguments workspacePlanDigest {W}.
Arguments plans {W}.
Arguments bundles {W}.
Arguments provider {W}.
Arguments credentials {W}.

(** ** Construction; [None] is a nil interface. *)
Section construction.
Context {W : Type} (ps : option (ExecutionPlanStore W)) (bs : option (EnforcementBundleSource W))
  (pr : option (admissionProvider W)) (cs : option (ProviderCredentialUseAuthorizer W)).

Definition NewAdmission : result (Admission W) :=
  match ps, bs, pr with
  | Some p, Some b, Some r => Ok (MkAdmission "" p b r None)
  | _, _, _ => Err (ENew "execution admission dependencies are required")
  end.

Definition NewCredentialMediatedAdmission : result (Admission W) :=
  match cs with
  | None => Err (ENew "provider credential authorizer is required")
  | Some c =>
      a ← NewAdmission;
      Ok (MkAdmission (workspacePlanDigest a) (plans a) (bundles a) (provider a) (Some c))
  end.

Definition NewWorkspaceCredentialMediatedAdmission (expected : ExecutionPlan) : result (Admission W) :=
  match NormalizeExecutionPlan expected with
  | Err _ => Err ErrWorkspaceSourceProvisioningUnavailable
  | Ok normalized =>
      if decide (pl_SchemaVersion normalized ≠ ExecutionPlanSchemaV2 ∨ pl_WorkspaceSource normalized = None)
      then Err ErrWorkspaceSourceProvisioningUnavailable
      else match DigestExecutionPlan normalized with
           | Err _ => Err ErrWorkspaceSourceProvisioningUnavailable
           | Ok digest =>
               a ← NewCredentialMediatedAdmission;
               Ok (MkAdmission digest (plans a) (bundles a) (provider a) (credentials a))
           end
  end.
End construction.

(** ** Admission *)
Section admitting.
Context {W : Type} (admission : Admission W).

Definition credential_use (request : AdmissionRequest) (phase profile : string) : ProviderCredentialUse :=
  MkCredentialUse (ar_IsolationDomainID request) (ar_RevisionID request) (ar_OperationID request) profile
    ProviderCredentialPurposeAgentInference phase (ar_ActorID request) (ar_CorrelationID request).

Fixpoint authorize_each (authorizer : ProviderCredentialUseAuthorizer W) (request : AdmissionRequest)
    (phase : string) (profiles : list string) : io W (result unit) :=
  match profiles with
  | [] => mret (Ok tt)
  | profile :: rest =>
      allowed ← AuthorizeProviderCredentialUse_ authorizer (credential_use request phase profile);
      match allowed with
      | Err err => mret (Err err)
      | Ok _ => authorize_each authorizer request phase rest
      end
  end.

Definition authorizeProviderProfiles (request : AdmissionRequest) (plan : ExecutionPlan) (phase : string)
  : io W (result unit) :=
  match credentials admission with
  | None => mret (Ok tt)
  | Some authorizer => authorize_each authorizer request phase (elems (pl_ProviderProfiles plan))
  end.

(** The source rule: an admission made for one source plan serves only that plan,
    any other serves only plans without a source. *)
Definition workspace_source_refused (plan : ExecutionPlan) : bool :=
  if decide (workspacePlanDigest admission ≠ "") then
    match DigestExecutionPlan plan with
    | Err _ => true
    | Ok digest => bool_decide (pl_WorkspaceSource plan = None)
                   || negb (bool_decide (digest = workspacePlanDigest admission))
    end
  else negb (bool_decide (pl_WorkspaceSource plan = None)).

Definition bundle_mismatch (request : AdmissionRequest) (plan : ExecutionPlan) (bundle : EnforcementBundle) : bool :=
  bool_decide (eb_IsolationDomainID bundle ≠ ar_IsolationDomainID request
               ∨ eb_ID bundle ≠ pl_EnforcementBundleID plan
               ∨ eb_RevisionID bundle ≠ ar_RevisionID request
               ∨ eb_Digest bundle ≠ pl_EnforcementBundleDigest plan).

Definition placement_request (request : AdmissionRequest) (plan : ExecutionPlan) : PlacementRequest :=
  PlacementReq (ar_IsolationDomainID request) (ar_OperationID request) (elems (pl_RequiredCapabilities plan)).

Definition create_request (request : AdmissionRequest) (plan : ExecutionPlan) (bundle : EnforcementBundle)
    (placement : Placement) : CreateRequest :=
  MkCreateRequest placement (ar_IsolationDomainID request) (ar_OperationID request) (pl_ImageReference plan)
    (eb_Content bundle) (eb_Digest bundle) (pl_ProviderProfiles plan).

(** [Admit] from the placement on. *)
Definition place_and_create (request : AdmissionRequest) (plan : ExecutionPlan) (bundle : EnforcementBundle)
  : io W (result Execution) :=
  selected ← SelectGateway_ (provider admission) (placement_request request plan);
  match selected with
  | Err err => mret (Err err)
  | Ok placement =>
      allowed ← authorizeProviderProfiles request plan ProviderCredentialPhaseEffect;
      match allowed with
      | Err err => mret (Err err)
      | Ok _ => Create_ (provider admission) (create_request request plan bundle placement)
      end
  end.

(** [Admit] once the plan is known. *)
Definition admit_plan (request : AdmissionRequest) (plan : ExecutionPlan) : io W (result Execution) :=
  allowed ← authorizeProviderProfiles request plan ProviderCredentialPhaseAdmission;
  match allowed with
  | Err err => mret (Err err)
  | Ok _ =>
      found ← GetEnforcementBundle_ (bundles admission) (ar_IsolationDomainID request) (pl_EnforcementBundleID plan);
      match found with
      | Err err => mret (Err err)
      | Ok bundle =>
          if bundle_mismatch request plan bundle then mret (Err ErrEnforcementBundleMismatch)
          else match VerifyEnforcementPolicy (eb_Content bundle) (eb_Digest bundle) with
               | Err _ => mret (Err ErrEnforcementBundleMismatch)
               | Ok _ => place_and_create request plan bundle
               end
      end
  end.

Definition Admit (request : AdmissionRequest) : io W (result Execution) :=
  if operationPattern (ar_OperationID request) then
    if decide (credentials admission ≠ None ∧ (ar_ActorID request = "" ∨ ar_CorrelationID request = ""))
    then mret (Err ErrProviderCredentialUseDenied)
    else
    stored ← GetExecutionPlan_ (plans admission) (ar_IsolationDomainID request) (ar_RevisionID request);
    match stored with
    | Err err => mret (Err err)
    | Ok found =>
        match NormalizeExecutionPlan found with
        | Err _ => mret (Err ErrExecutionPlanRevisionMismatch)
        | Ok plan =>
            if decide (pl_IsolationDomainID plan ≠ ar_IsolationDomainID request
                       ∨ pl_RevisionID plan ≠ ar_RevisionID request)
            then mret (Err ErrExecutionPlanRevisionMismatch)
            else if workspace_source_refused plan
            then mret (Err ErrWorkspaceSourceProvisioningUnavailable)
            else admit_plan request plan
        end
    end
  else mret (Err (ENew "execution admission operation is invalid")).
End admitting.

(** ** Calls of an admission *)

Inductive admission_call :=
  | CallPlan (isolationDomainID revisionID : string) (answer : result ExecutionPlan)
  | CallAuthorize (use : ProviderCredentialUse) (answer : result unit)
  | CallBundle (isolationDomainID bundleID : string) (answer : result EnforcementBundle)
  | CallSelect (request : PlacementRequest) (answer : result Placement)
  | CallCreate (request : CreateRequest) (answer : result Execution).

Section logged.
Context {W : Type}.

Definition logged_authorizer (a : ProviderCredentialUseAuthorizer W)
  : ProviderCredentialUseAuthorizer (W * list admission_call) :=
  {| AuthorizeProviderCredentialUse_ use :=
       logging (CallAuthorize use) (AuthorizeProviderCredentialUse_ a use) |}.

(** The same admission over the logging world. *)
Definition logged_admission (a : Admission W) : Admission (W * list admission_call) :=
  MkAdmission (workspacePlanDigest a)
    {| GetExecutionPlan_ iso rev := logging (CallPlan iso rev) (GetExecutionPlan_ (plans a) iso rev) |}
    {| GetEnforcementBundle_ iso id := logging (CallBundle iso id) (GetEnforcementBundle_ (bundles a) iso id) |}
    {| SelectGateway_ request := logging (CallSelect request) (SelectGateway_ (provider a) request);
       Create_ request := logging (CallCreate request) (Create_ (provider a) request) |}
    (logged_authorizer <$> credentials a).
End logged.

Section theorems.
Context {W : Type} (admission : Admission W) (request : AdmissionRequest).

(** One granted use per provider profile of the plan, in order. *)
Definition granted_uses (plan : ExecutionPlan) (phase : string) : list admission_call :=
  match credentials admission with
  | None => []
  | Some _ => (λ profile, CallAuthorize (credential_use request phase profile) (Ok tt))
                <$> elems (pl_ProviderProfiles plan)
  end.

Definition no_effects (t : list admission_call) : Prop :=
  Forall (λ c, match c with CallCreate _ _ => False | _ => True end) t.

Lemma no_effects_app t t' : no_effects t → no_effects t' → no_effects (t ++ t').
Proof. apply Forall_app_2. Qed.

Lemma no_effects_not_in t r a : no_effects t → CallCreate r a ∉ t.
Proof. unfold no_effects. rewrite Forall_forall. intros Ht Hin. by apply Ht in Hin. Qed.

Lemma no_effects_granted plan phase : no_effects (granted_uses plan phase).
Proof.
  unfold granted_uses, no_effects. destruct (credentials admission); [|done].
  apply Forall_forall. intros c (profile & -> & _)%list_elem_of_fmap. done.
Qed.

Lemma traced_authorize plan phase :
  traced (authorizeProviderProfiles (logged_admission admission) request plan phase) (λ t r,
    no_effects t ∧ (r = Ok tt → t = granted_uses plan phase)).
Proof.
  unfold authorizeProviderProfiles, granted_uses, logged_admission. simpl.
  destruct (credentials admission) as [a|]; simpl; [|apply traced_ret; split; [constructor|done]].
  induction (elems (pl_ProviderProfiles plan)) as [|profile rest IH]; simpl.
  { apply traced_ret. split; [constructor|done]. }
  apply traced_logging_bind. intros [[]|err].
  - eapply traced_mono; [apply IH|]. intros t r [Ht Hr]. split; [by constructor|]. intros ->. by rewrite Hr.
  - apply traced_ret. split; [by repeat constructor|done].
Qed.

(** A run that never reached the provider's [Create] and answers an error. *)
Definition refused (t : list admission_call) (r : result Execution) : Prop := no_effects t ∧ is_ok r = false.

Lemma refused_error t err : no_effects t → refused t (Err err).
Proof. by split. Qed.

Lemma refused_app t t' r : no_effects t → refused t' r → refused (t ++ t') r.
Proof. intros Ht [Ht' Hr]. split; [by apply no_effects_app|done]. Qed.

Lemma traced_place_and_create plan bundle :
  traced (place_and_create (logged_admission admission) request plan bundle) (λ t r,
    refused t r ∨ ∃ placement,
      t = CallSelect (placement_request request plan) (Ok placement)
          :: granted_uses plan ProviderCredentialPhaseEffect
          ++ [CallCreate (create_request request plan bundle placement) r]).
Proof.
  apply traced_logging_bind. intros [placement|err].
  2:{ apply traced_ret. left. apply refused_error. by repeat constructor. }
  eapply traced_bind; [apply traced_authorize|]. intros t [[]|err] [Ht Hr].
  - rewrite (Hr eq_refl). apply traced_logging. intros answer. right. by exists placement.
  - apply traced_ret. left. rewrite app_nil_r. apply refused_error. by constructor.
Qed.

Lemma traced_admit_plan plan :
  traced (admit_plan (logged_admission admission) request plan) (λ t r,
    refused t r ∨ ∃ bundle placement,
      bundle_mismatch request plan bundle = false
      ∧ VerifyEnforcementPolicy (eb_Content bundle) (eb_Digest bundle) = Ok tt
      ∧ t = granted_uses plan ProviderCredentialPhaseAdmission
            ++ CallBundle (ar_IsolationDomainID request) (pl_EnforcementBundleID plan) (Ok bundle)
            :: CallSelect (placement_request request plan) (Ok placement)
            :: granted_uses plan ProviderCredentialPhaseEffect
            ++ [CallCreate (create_request request plan bundle placement) r]).
Proof.
  eapply traced_bind; [apply traced_authorize|]. intros t [[]|err] [Ht Hr].
  2:{ apply traced_ret. left. rewrite app_nil_r. by apply refused_error. }
  rewrite (Hr eq_refl). apply traced_logging_bind. intros [bundle|err].
  2:{ apply traced_ret. left. apply refused_error, no_effects_app; [apply no_effects_granted|by repeat constructor]. }
  destruct (bundle_mismatch request plan bundle) eqn:Hm.
  { apply traced_ret. left. apply refused_error, no_effects_app; [apply no_effects_granted|by repeat constructor]. }
  destruct (VerifyEnforcementPolicy _ _) as [[]|] eqn:Hv.
  2:{ apply traced_ret. left. apply refused_error, no_effects_app; [apply no_effects_granted|by repeat constructor]. }
  eapply traced_mono; [apply traced_place_and_create|]. intros t' r [[Hn He]|(placement & ->)].
  - left. split; [|done]. apply no_effects_app; [apply no_effects_granted|]. by constructor.
  - right. exists bundle, placement. by split_and!.
Qed.

(** The one sequence of calls that creates an execution. *)
Definition created_from (t : list admission_call) (creq : CreateRequest) (answer : result Execution) : Prop :=
  ∃ stored plan bundle placement,
    t = CallPlan (ar_IsolationDomainID request) (ar_RevisionID request) (Ok stored)
        :: granted_uses plan ProviderCredentialPhaseAdmission
        ++ CallBundle (ar_IsolationDomainID request) (pl_EnforcementBundleID plan) (Ok bundle)
        :: CallSelect (placement_request request plan) (Ok placement)
        :: granted_uses plan ProviderCredentialPhaseEffect
        ++ [CallCreate creq answer]
    ∧ creq = create_request request plan bundle placement
    ∧ NormalizeExecutionPlan stored = Ok plan
    ∧ pl_IsolationDomainID plan = ar_IsolationDomainID request ∧ pl_RevisionID plan = ar_RevisionID request
    ∧ eb_IsolationDomainID bundle = ar_IsolationDomainID request ∧ eb_RevisionID bundle = ar_RevisionID request
    ∧ eb_Digest bundle = pl_EnforcementBundleDigest plan
    ∧ Sha256.digest_string (cr_Policy creq) = pl_EnforcementBundleDigest plan
    ∧ (if decide (workspacePlanDigest admission = "") then pl_WorkspaceSource plan = None
       else pl_WorkspaceSource plan ≠ None ∧ DigestExecutionPlan plan = Ok (workspacePlanDigest admission)).

Lemma workspace_source_accepted plan :
  workspace_source_refused admission plan = false →
  if decide (workspacePlanDigest admission = "") then pl_WorkspaceSource plan = None
  else pl_WorkspaceSource plan ≠ None ∧ DigestExecutionPlan plan = Ok (workspacePlanDigest admission).
Proof.
  unfold workspace_source_refused. case_decide as Hw.
  - rewrite decide_False by done. destruct (DigestExecutionPlan plan) as [digest|]; [|done].
    rewrite orb_false_iff, bool_decide_eq_false, negb_false_iff, bool_decide_eq_true. naive_solver.
  - rewrite decide_True by done. by rewrite negb_false_iff, bool_decide_eq_true.
Qed.

Lemma bundle_mismatch_false plan bundle :
  bundle_mismatch request plan bundle = false →
  eb_IsolationDomainID bundle = ar_IsolationDomainID request ∧ eb_ID bundle = pl_EnforcementBundleID plan
  ∧ eb_RevisionID bundle = ar_RevisionID request ∧ eb_Digest bundle = pl_EnforcementBundleDigest plan.
Proof.
  unfold bundle_mismatch. rewrite bool_decide_eq_false. intros Hm. split_and!; apply dec_stable; tauto.
Qed.

Lemma traced_Admit :
  traced (Admit (logged_admission admission) request) (λ t r, refused t r ∨ ∃ creq, created_from t creq r).
Proof.
  unfold Admit. destruct (operationPattern _); [|apply traced_ret; left; by apply refused_error; constructor].
  case_decide; [apply traced_ret; left; by apply refused_error; constructor|].
  apply traced_logging_bind. intros [stored|err].
  2:{ apply traced_ret. left. apply refused_error. by repeat constructor. }
  destruct (NormalizeExecutionPlan stored) as [plan|] eqn:Hn.
  2:{ apply traced_ret. left. apply refused_error. by repeat constructor. }
  case_decide as Hs; [apply traced_ret; left; apply refused_error; by repeat constructor|].
  destruct (workspace_source_refused _ plan) eqn:Hw.
  { apply traced_ret. left. apply refused_error. by repeat constructor. }
  eapply traced_mono; [apply traced_admit_plan|].
  intros t r [[Ht Hr]|(bundle & placement & Hm & Hv & ->)]; [left; split; [by constructor|done]|].
  right. exists (create_request request plan bundle placement), stored, plan, bundle, placement.
  apply Decidable.not_or in Hs as [Hi%dec_stable Hrev%dec_stable].
  apply bundle_mismatch_false in Hm as (Hbi & Hbid & Hbr & Hbd).
  apply VerifyEnforcementPolicy_Ok in Hv as (_ & _ & Hd).
  apply (workspace_source_accepted plan) in Hw.
  split_and!; [done..|simpl; congruence|exact Hw].
Qed.

(** C7: for every plan store, bundle source, provider and authoriser: admission
    asks the provider to create an execution at most once and as its last call,
    and only after the exact sequence that justifies it: the stored plan of the
    requested revision, one granted credential use per provider profile, the
    bundle the plan names with content hashing to the plan's digest, a placement,
    and one granted use per profile again.  It answers an execution only if the
    provider created it. *)
Theorem admission_verified (w : W) :
  let '((w', t), r) := Admit (logged_admission admission) request (w, []) in
  (∀ creq answer, CallCreate creq answer ∈ t → answer = r ∧ created_from t creq r)
  ∧ (∀ x, r = Ok x → ∃ creq, CallCreate creq (Ok x) ∈ t).
Proof.
  destruct (traced_Admit w []) as (t' & Ht & HQ).
  destruct (Admit _ request (w, [])) as [[w' t] r]. simpl in *. subst t'.
  destruct HQ as [[Hn Hr]|(creq & Hc)].
  { split; [intros ?? Hin; by destruct (no_effects_not_in _ _ _ Hn Hin)|]. intros x ->. done. }
  split.
  - intros creq' answer Hin. destruct Hc as (stored & plan & bundle & placement & -> & Hrest).
    rewrite !elem_of_cons, elem_of_app, !elem_of_cons, elem_of_app, list_elem_of_singleton in Hin.
    destruct Hin as [?|[Hin|[?|[?|[Hin|[= -> ->]]]]]]; try done.
    + by destruct (no_effects_not_in _ _ _ (no_effects_granted _ _) Hin).
    + by destruct (no_effects_not_in _ _ _ (no_effects_granted _ _) Hin).
    + split; [done|]. by exists stored, plan, bundle, placement.
  - intros x ->. exists creq. destruct Hc as (stored & plan & bundle & placement & -> & _).
    rewrite !elem_of_cons, elem_of_app, !elem_of_cons, elem_of_app, list_elem_of_singleton. tauto.
Qed.
End theorems.

(** ** Example: a mediated admission that creates an execution *)

Definition example_authorizer : ProviderCredentialUseAuthorizer unit :=
  {| AuthorizeProviderCredentialUse_ use w :=
       (w, if decide (cu_ProviderProfile use = "openai") then Ok tt else Err ErrProviderCredentialUseDenied) |}.

Definition example_admission (profiles : slice string) : result (Admission unit) :=
  NewCredentialMediatedAdmission
    (Some {| GetExecutionPlan_ _ _ w :=
               (w, Ok (example_plan example_policy_digest profiles (Some ["network"]))) |})
    (Some {| GetEnforcementBundle_ := @GetEnforcementBundle unit example_context example_catalog example_reader |})
    (Some {| SelectGateway_ r w := (w, Ok (MkPlacement (pr_IsolationDomainID r) "plc_1" "gw_1"));
             Create_ r w := (w, Ok (MkExecution (cr_IsolationDomainID r) "exe_1"
                                      (p_GatewayID (cr_Placement r)) "provisioning")) |})
    (Some example_authorizer).

Definition example_request : AdmissionRequest :=
  MkAdmissionRequest "iso_aaaaaaaaaaaaaaaaaaaa" example_revision "op_cccccccccccccccccccc" "actor" "cor_1".

(** One granted profile leads to a created execution; a denied one stops the
    admission before anything is selected. *)
Example admission_example :
  (a ← example_admission (Some ["openai"]); Ok (Admit a example_request ()))
  = Ok ((), Ok (MkExecution "iso_aaaaaaaaaaaaaaaaaaaa" "exe_1" "gw_1" "provisioning"))
  ∧ (a ← example_admission (Some ["openai"; "other"]);
     Ok (length (Admit (logged_admission a) example_request ((), [])).1.2))
    = Ok 3.
Proof. split; vm_compute; reflexivity. Qed.
