(* ===== verification/ExecutionTables.v ===== *)
(** * The durable execution store

    [internal/execution/postgres/store.go] over the tables of migration 00002: the
    store that workers share, beside the process-local one of [GatewayStore].  A
    transaction runs alone; the constraints of the tables are checked on insertion
    and a violation is reported as [ErrPersistence].

    Two conventions of the database driver matter.  A text must be valid UTF-8
    without NUL bytes, or the server refuses the statement.  A nil slice is sent as
    [NULL]; [NormalizeCapabilities] answers nil for an empty list. *)
From S2P Require Import Prelude.
From S2P Require Import GoStrings.
From S2P Require Import Sha256.
From S2P Require Import Database.
From S2P Require Import GatewayStore.

Definition ErrPersistence : error := ESentinel "postgres.ErrPersistence".
Definition failed {A} (what : string) : result A := Err (EWrap what ErrPersistence).

(** ** Rows *)

Record gateway_row := GatewayRow {
  gw_driver : string; gw_endpoint : string; gw_state : string; gw_capabilities : list string;
  gw_version : Z; gw_registered_at : Z; gw_updated_at : Z }.

Record placement_row := PlacementRow {
  pl_operation_id : string; pl_gateway_id : string; pl_required_capabilities : list string;
  pl_state : string; pl_created_at : Z; pl_updated_at : Z }.

Record instance_row := InstanceRow {
  in_placement_id : string; in_operation_id : string; in_gateway_id : string; in_sandbox_name : string;
  in_observed_state : string; in_created_at : Z; in_updated_at : Z; in_terminated_at : option Z }.

(** Each table by its primary key [(isolation_domain_id, id)]. *)
Record execution_tables := ExecutionTables {
  et_gateways : gmap key gateway_row;
  et_placements : gmap key placement_row;
  et_instances : gmap key instance_row }.

Definition empty_tables : execution_tables := ExecutionTables ∅ ∅ ∅.

(** ** Parameters of statements *)

Definition sql_text (s : string) : bool := valid_utf8 s && negb (contains_byte (byte_of_N 0) s).
Definition sql_texts (l : list string) : bool := forallb sql_text l.
Definition sql_array (l : list string) : option (list string) := match l with [] => None | _ => Some l end.
(** [length(text)] counts characters. *)
Definition sql_length (s : string) : Z := Z.of_nat (length (runes s)).

Definition domain_check : string → bool := match_prefixed "iso_" is_id_char 20 32.
Definition operation_check : string → bool := match_prefixed "op_" is_id_char 20 32.

Definition gateway_checks (domainID id driver endpoint : string) : bool :=
  domain_check domainID && match_prefixed "gtw_" is_id_char 20 32 id
  && match_headed is_lower (λ c, is_lower c || is_digit c || (byte_value c =? 45)%N) 63 driver
  && (1 <=? sql_length endpoint)%Z && (sql_length endpoint <=? 2048)%Z.

Definition placement_checks (domainID id operationID : string) : bool :=
  domain_check domainID && match_prefixed "plc_" is_id_char 20 32 id && operation_check operationID.

Definition instance_checks (domainID id operationID sandbox : string) : bool :=
  domain_check domainID && match_prefixed "exe_" is_id_char 20 32 id && operation_check operationID
  && (1 <=? sql_length sandbox)%Z && (sql_length sandbox <=? 128)%Z.

(** A [UNIQUE] constraint: some row of the domain has the value. *)
Definition taken {A} (domainID : string) (P : A → bool) (m : gmap key A) : bool :=
  existsb (λ kv, bool_decide (kv.1.1 = domainID) && P kv.2) (map_to_list m).

(** ** Gateways *)

Definition gateway_record (k : key) (row : gateway_row) : GatewayRecord :=
  GatewayRec (MkGateway k.1 k.2 (gw_driver row) (gw_state row) (gw_capabilities row)) (gw_endpoint row).

Definition pg_GetGateway (domainID gatewayID : string) (t : execution_tables) : result GatewayRecord :=
  if negb (sql_texts [domainID; gatewayID]) then failed "read gateway"
  else match et_gateways t !! (domainID, gatewayID) with
  | None => Err ErrNoGateway
  | Some row => Ok (gateway_record (domainID, gatewayID) row)
  end.

(** [INSERT ... ON CONFLICT (isolation_domain_id, id) DO NOTHING] *)
Definition insert_gateway (now : Z) (r : GatewayRegistration) (capabilities : list string) (t : execution_tables)
  : result execution_tables :=
  let k := (gr_IsolationDomainID r, gr_ID r) in
  match sql_array capabilities with
  | None => failed "register gateway"
  | Some capabilities =>
      if negb (sql_texts ([gr_IsolationDomainID r; gr_ID r; gr_Driver r; gr_Endpoint r] ++ capabilities))
         || negb (gateway_checks (gr_IsolationDomainID r) (gr_ID r) (gr_Driver r) (gr_Endpoint r)) then failed "register gateway"
      else match et_gateways t !! k with
      | Some _ => Ok t
      | None =>
          if taken (gr_IsolationDomainID r) (λ row, bool_decide (gw_endpoint row = gr_Endpoint r)) (et_gateways t)
          then failed "register gateway"
          else Ok (ExecutionTables (<[k := GatewayRow (gr_Driver r) (gr_Endpoint r) "active" capabilities 1 now now]> (et_gateways t))
                     (et_placements t) (et_instances t))
      end
  end.

(** The insertion and the reading are two statements; between them only the state of a
    gateway can change. *)
Definition pg_RegisterGateway (now : Z) (r : GatewayRegistration) (t : execution_tables) : result (execution_tables * Gateway) :=
  if decide (gr_IsolationDomainID r = "" ∨ gr_ID r = "" ∨ gr_Driver r = "" ∨ gr_Endpoint r = "")
  then Err (ENew "isolation domain, gateway id, driver, and endpoint are required")
  else
  capabilities ← NormalizeCapabilities (gr_Capabilities r);
  t ← insert_gateway now r capabilities t;
  record ← pg_GetGateway (gr_IsolationDomainID r) (gr_ID r) t;
  if decide (grec_Endpoint record ≠ gr_Endpoint r ∨ g_Driver (grec_Gateway record) ≠ gr_Driver r
             ∨ g_Capabilities (grec_Gateway record) ≠ capabilities) then Err ErrStateConflict
  else Ok (t, grec_Gateway record).

Definition set_gateway_row (state : string) (now : Z) (row : gateway_row) : gateway_row :=
  GatewayRow (gw_driver row) (gw_endpoint row) state (gw_capabilities row) (gw_version row + 1) (gw_registered_at row) now.
Definition set_placement_row (state : string) (now : Z) (row : placement_row) : placement_row :=
  PlacementRow (pl_operation_id row) (pl_gateway_id row) (pl_required_capabilities row) state (pl_created_at row) now.
Definition set_instance_row (state : string) (now : Z) (terminated : option Z) (row : instance_row) : instance_row :=
  InstanceRow (in_placement_id row) (in_operation_id row) (in_gateway_id row) (in_sandbox_name row) state
    (in_created_at row) now terminated.

Definition holds_capacity (state : string) : bool := bool_decide (state ∈ ["reserved"; "active"]).

Definition lose_placement_row (domainID gatewayID : string) (now : Z) (k : key) (row : placement_row) : option placement_row :=
  Some (if bool_decide (k.1 = domainID ∧ pl_gateway_id row = gatewayID) && holds_capacity (pl_state row)
        then set_placement_row "lost" now row else row).
Definition lose_instance_row (domainID gatewayID : string) (now : Z) (k : key) (row : instance_row) : option instance_row :=
  Some (if decide (k.1 = domainID ∧ in_gateway_id row = gatewayID ∧ in_observed_state row ∉ ["terminated"; "error"])
        then set_instance_row "unknown" now (in_terminated_at row) row else row).

Definition pg_SetGatewayState (now : Z) (domainID gatewayID state : string) (t : execution_tables) : result execution_tables :=
  if negb (ValidGatewayState state) then Err (ENew "invalid gateway state")
  else if negb (sql_texts [domainID; gatewayID]) then failed "update gateway state"
  else match et_gateways t !! (domainID, gatewayID) with
  | None => Err ErrNoGateway
  | Some row =>
      let gateways := <[(domainID, gatewayID) := set_gateway_row state now row]> (et_gateways t) in
      if decide (state = GatewayLost) then
        Ok (ExecutionTables gateways (map_imap (lose_placement_row domainID gatewayID now) (et_placements t))
              (map_imap (lose_instance_row domainID gatewayID now) (et_instances t)))
      else Ok (ExecutionTables gateways (et_placements t) (et_instances t))
  end.

(** ** Placements *)

(** [SELECT count( * )] of the placements that hold capacity on a gateway. *)
Definition placed_on (k : key) (kv : key * placement_row) : Prop :=
  kv.1.1 = k.1 ∧ pl_gateway_id kv.2 = k.2 ∧ holds_capacity (pl_state kv.2) = true.
#[global] Instance placed_on_dec k kv : Decision (placed_on k kv).
Proof. unfold placed_on. apply _. Defined.
Definition gateway_load (placements : gmap key placement_row) (k : key) : Z := Z.of_nat (size (filter (placed_on k) placements)).

(** [ORDER BY load, id LIMIT 1] of the rows that match; identifiers have the prefix
    [gtw_] and lower-case letters and digits, which every collation orders by bytes. *)
Fixpoint first_by_load (l : list (Z * string)) : option (Z * string) :=
  match l with
  | [] => None
  | x :: rest =>
      match first_by_load rest with
      | None => Some x
      | Some y => if bool_decide (y.1 < x.1 ∨ (y.1 = x.1 ∧ slt y.2 x.2))%Z then Some y else Some x
      end
  end.

Definition eligible_gateway (domainID : string) (capabilities : option (list string)) (kv : key * gateway_row) : bool :=
  bool_decide (kv.1.1 = domainID ∧ gw_state kv.2 = "active")
  && match capabilities with None => false | Some l => containsCapabilities (gw_capabilities kv.2) l end.

Definition select_gateway (domainID : string) (capabilities : list string) (t : execution_tables) : option string :=
  snd <$> first_by_load ((λ kv, (gateway_load (et_placements t) kv.1, kv.1.2)) <$>
    filter (λ kv, eligible_gateway domainID (sql_array capabilities) kv = true) (map_to_list (et_gateways t))).

Definition placement_of (k : key) (row : placement_row) : Placement := MkPlacement k.1 k.2 (pl_gateway_id row).

(** [operation_id] is unique in a domain, so at most one row matches. *)
Definition getPlacementByOperation (domainID operationID : string) (t : execution_tables) : option (Placement * list string) :=
  '(_, (k, row)) ← list_find (λ kv : key * placement_row, kv.1.1 = domainID ∧ pl_operation_id kv.2 = operationID)
                     (map_to_list (et_placements t));
  Some (placement_of k row, pl_required_capabilities row).

Definition pg_ReservePlacement (now : Z) (request : PlacementRequest) (t : execution_tables)
  : result (execution_tables * Placement) :=
  let domainID := pr_IsolationDomainID request in
  let operationID := pr_OperationID request in
  if decide (domainID = "" ∨ operationID = "") then Err (ENew "isolation domain and operation are required")
  else
  capabilities ← NormalizeCapabilities (pr_RequiredCapabilities request);
  if negb (sql_texts [domainID; operationID]) then failed "read placement by operation"
  else match getPlacementByOperation domainID operationID t with
  | Some (placement, required) =>
      if decide (required ≠ capabilities) then Err ErrStateConflict else Ok (t, placement)
  | None =>
      if negb (sql_texts capabilities) then failed "select placement gateway"
      else match select_gateway domainID capabilities t with
      | None => Err ErrNoGateway
      | Some gatewayID =>
          let id := Identity.Derived "plc" (domainID +:+ ":" +:+ operationID) in
          match sql_array capabilities with
          | None => failed "reserve placement"
          | Some capabilities =>
              if negb (placement_checks domainID id operationID) || bool_decide (is_Some (et_placements t !! (domainID, id)))
              then failed "reserve placement"
              else
                Ok (ExecutionTables (et_gateways t)
                      (<[(domainID, id) := PlacementRow operationID gatewayID capabilities "reserved" now now]> (et_placements t))
                      (et_instances t), MkPlacement domainID id gatewayID)
          end
      end
  end.

Definition pg_GetPlacement (domainID placementID : string) (t : execution_tables) : result Placement :=
  if negb (sql_texts [domainID; placementID]) then failed "read placement"
  else match et_placements t !! (domainID, placementID) with
  | None => Err ErrPlacementMissing
  | Some row => Ok (placement_of (domainID, placementID) row)
  end.

(** ** Executions *)

Definition validExecutionState (state : string) : bool :=
  bool_decide (state ∈ ["provisioning"; "ready"; "running"; "waiting"; "deleting"; "terminated"; "error"; "unknown"]).

Definition sameExecutionIdentity (left right : ExecutionRecord) : bool :=
  bool_decide (x_IsolationDomainID (xr_Execution left) = x_IsolationDomainID (xr_Execution right)
    ∧ x_ID (xr_Execution left) = x_ID (xr_Execution right) ∧ x_GatewayID (xr_Execution left) = x_GatewayID (xr_Execution right)
    ∧ xr_PlacementID left = xr_PlacementID right ∧ xr_OperationID left = xr_OperationID right
    ∧ xr_SandboxName left = xr_SandboxName right).

Definition execution_record (k : key) (row : instance_row) : ExecutionRecord :=
  ExecutionRec (MkExecution k.1 k.2 (in_gateway_id row) (in_observed_state row)) (in_placement_id row) (in_operation_id row)
    (in_sandbox_name row).

Definition getExecution (domainID id : string) (t : execution_tables) : result (option ExecutionRecord) :=
  if negb (sql_texts [domainID; id]) then failed "read execution"
  else Ok (execution_record (domainID, id) <$> et_instances t !! (domainID, id)).

Definition pg_GetExecution (domainID id : string) (t : execution_tables) : result ExecutionRecord :=
  found ← getExecution domainID id t;
  match found with None => Err ErrExecutionMissing | Some record => Ok record end.

Definition pg_GetExecutionByOperation (domainID operationID : string) (t : execution_tables) : result Execution :=
  if negb (sql_texts [domainID; operationID]) then failed "read execution by operation"
  else match list_find (λ kv : key * instance_row, kv.1.1 = domainID ∧ in_operation_id kv.2 = operationID)
               (map_to_list (et_instances t)) with
  | None => Err ErrExecutionMissing
  | Some (_, (k, row)) => Ok (xr_Execution (execution_record k row))
  end.

(** [INSERT INTO execution_instances]: checks and unique constraints. *)
Definition insert_instance (now : Z) (record : ExecutionRecord) (t : execution_tables) : result execution_tables :=
  let x := xr_Execution record in
  let domainID := x_IsolationDomainID x in
  if negb (sql_texts [x_GatewayID x; xr_OperationID record; xr_SandboxName record])
     || negb (instance_checks domainID (x_ID x) (xr_OperationID record) (xr_SandboxName record))
     || taken domainID (λ row, bool_decide (in_operation_id row = xr_OperationID record)) (et_instances t)
     || taken domainID (λ row, bool_decide (in_gateway_id row = x_GatewayID x ∧ in_sandbox_name row = xr_SandboxName record))
          (et_instances t)
  then failed "save execution"
  else Ok (ExecutionTables (et_gateways t) (et_placements t)
             (<[(domainID, x_ID x) := InstanceRow (xr_PlacementID record) (xr_OperationID record) (x_GatewayID x)
                  (xr_SandboxName record) (x_State x) now now (if decide (x_State x = "terminated") then Some now else None)]>
                (et_instances t))).

Definition update_placement (k : key) (state : string) (now : Z) (t : execution_tables) : execution_tables :=
  ExecutionTables (et_gateways t) (alter (set_placement_row state now) k (et_placements t)) (et_instances t).

(** The second reading of the execution, after the placement is locked, finds what the
    first one found. *)
Definition pg_SaveExecution (now : Z) (record : ExecutionRecord) (t : execution_tables) : result execution_tables :=
  let x := xr_Execution record in
  if decide (x_IsolationDomainID x = "" ∨ x_ID x = "" ∨ xr_PlacementID record = "" ∨ xr_OperationID record = ""
             ∨ xr_SandboxName record = "" ∨ validExecutionState (x_State x) = false)
  then Err (ENew "complete execution identity and valid state are required")
  else
  found ← getExecution (x_IsolationDomainID x) (x_ID x) t;
  match found with
  | Some existing => if sameExecutionIdentity existing record then Ok t else Err ErrStateConflict
  | None =>
      let k := (x_IsolationDomainID x, xr_PlacementID record) in
      if negb (sql_text (xr_PlacementID record)) then failed "lock execution placement"
      else match et_placements t !! k with
      | None => Err ErrPlacementMissing
      | Some placement =>
          if negb (bool_decide (pl_operation_id placement = xr_OperationID record ∧ pl_gateway_id placement = x_GatewayID x)
                   && holds_capacity (pl_state placement)) then Err ErrStateConflict
          else
            t ← insert_instance now record t;
            Ok (update_placement k (if decide (x_State x = "terminated") then "released" else "active") now t)
      end
  end.

Definition pg_UpdateExecutionState (now : Z) (domainID id state : string) (t : execution_tables) : result execution_tables :=
  if negb (validExecutionState state) then Err (ENew "invalid execution state")
  else if negb (sql_texts [domainID; id]) then failed "lock execution state"
  else match et_instances t !! (domainID, id) with
  | None => Err ErrExecutionMissing
  | Some row =>
      if decide (in_observed_state row = "terminated" ∧ state ≠ "terminated") then Err ErrStateConflict
      else
        let t := ExecutionTables (et_gateways t) (et_placements t)
          (<[(domainID, id) := set_instance_row state now (if decide (state = "terminated") then Some now else None) row]>
             (et_instances t)) in
        if decide (state = "terminated") then Ok (update_placement (domainID, in_placement_id row) "released" now t) else Ok t
  end.
