(* ===== verification/ExecutionConformance.v ===== *)
(** * The conformance store answers as the durable one

    [MemoryStateStore] calls itself the process-local conformance store.  Here the two
    stores are run on the same calls.  They do not agree on all of them: there are four
    kinds of calls after which their answers can differ, losing a gateway, saving an
    execution that has ended already, updating to an unknown state, and placing an
    operation that requires no capability.  On every run without such a call both
    answer alike, reads included, as long as the durable store accepts the statements
    it is given. *)
From S2P Require Import Prelude.
From S2P Require Import GoStrings.
From S2P Require Import Sha256.
From S2P Require Import Database.
From S2P Require Import GatewayStore.
From S2P Require Import ExecutionTables.

(** ** Runs *)

Inductive store_call :=
  | Change (c : gateway_call)
  | ReadGateway (domainID id : string)
  | ReadPlacement (domainID id : string)
  | ReadExecution (domainID id : string)
  | ReadByOperation (domainID operationID : string).

Inductive answer :=
  | AGateway (g : Gateway)
  | ARecord (g : GatewayRecord)
  | APlacement (p : Placement)
  | AExecutionRecord (r : ExecutionRecord)
  | AExecution (x : Execution)
  | ADone.

Definition pg_perform (now : Z) (c : store_call) (t : execution_tables) : result (execution_tables * answer) :=
  match c with
  | Change (CallRegister r) => '(t, g) ← pg_RegisterGateway now r t; Ok (t, AGateway g)
  | Change (CallSetState d i st) => t ← pg_SetGatewayState now d i st t; Ok (t, ADone)
  | Change (CallReserve r) => '(t, p) ← pg_ReservePlacement now r t; Ok (t, APlacement p)
  | Change (CallSave r) => t ← pg_SaveExecution now r t; Ok (t, ADone)
  | Change (CallUpdate d i st) => t ← pg_UpdateExecutionState now d i st t; Ok (t, ADone)
  | ReadGateway d i => r ← pg_GetGateway d i t; Ok (t, ARecord r)
  | ReadPlacement d i => p ← pg_GetPlacement d i t; Ok (t, APlacement p)
  | ReadExecution d i => r ← pg_GetExecution d i t; Ok (t, AExecutionRecord r)
  | ReadByOperation d op => x ← pg_GetExecutionByOperation d op t; Ok (t, AExecution x)
  end.

Definition mem_perform (c : store_call) (s : MemoryStateStore) : result (MemoryStateStore * answer) :=
  match c with
  | Change (CallRegister r) => '(s, g) ← RegisterGateway r s; Ok (s, AGateway g)
  | Change (CallSetState d i st) => s ← SetGatewayState d i st s; Ok (s, ADone)
  | Change (CallReserve r) => '(s, p) ← ReservePlacement r s; Ok (s, APlacement p)
  | Change (CallSave r) => s ← SaveExecution r s; Ok (s, ADone)
  | Change (CallUpdate d i st) => s ← UpdateExecutionState d i st s; Ok (s, ADone)
  | ReadGateway d i => r ← GetGateway d i s; Ok (s, ARecord r)
  | ReadPlacement d i => p ← GetPlacement d i s; Ok (s, APlacement p)
  | ReadExecution d i => r ← GetExecution d i s; Ok (s, AExecutionRecord r)
  | ReadByOperation d op => x ← GetExecutionByOperation d op s; Ok (s, AExecution x)
  end.

(** The answers of a run; a refused call changes nothing. *)
Fixpoint answers_of {S C : Type} (perform : C → S → result (S * answer)) (calls : list C) (s : S) : list (result answer) :=
  match calls with
  | [] => []
  | c :: rest =>
      match perform c s with
      | Ok (s', a) => Ok a :: answers_of perform rest s'
      | Err e => Err e :: answers_of perform rest s
      end
  end.

(** The kinds of calls on which the stores part: the local store keeps the load of a lost
    gateway and of an execution that is saved as ended, it takes any string for a state,
    and it finds a gateway for an operation that requires nothing. *)
Inductive divergence := LosesGateway | SavesEnded | UnknownState | RequiresNothing.

Definition diverges (v : divergence) (c : store_call) : Prop :=
  match v, c with
  | LosesGateway, Change (CallSetState _ _ st) => st = GatewayLost
  | SavesEnded, Change (CallSave r) => x_State (xr_Execution r) = "terminated"
  | UnknownState, Change (CallUpdate _ _ st) => validExecutionState st = false
  | RequiresNothing, Change (CallReserve r) => pr_RequiredCapabilities r = []
  | _, _ => False
  end.

#[global] Instance diverges_dec v c : Decision (diverges v c).
Proof. destruct v, c as [[]| | | |]; cbn; apply _. Defined.

Definition conformant (c : store_call) : Prop :=
  match c with
  | Change (CallSetState _ _ st) => st ≠ GatewayLost
  | Change (CallReserve r) => pr_RequiredCapabilities r ≠ []
  | Change (CallSave r) => x_State (xr_Execution r) ≠ "terminated"
  | Change (CallUpdate _ _ st) => validExecutionState st = true
  | _ => True
  end.

Lemma conformant_spec c : (∀ v, ¬ diverges v c) → conformant c.
Proof.
  intros H. destruct c as [[| | | |d i st]| | | |]; cbn; [done|exact (H LosesGateway)|exact (H RequiresNothing)|exact (H SavesEnded)| |done..].
  destruct (validExecutionState st) eqn:E; [done|]. by destruct (H UnknownState).
Qed.

(** The statement went through: nothing the tables or the driver refuse. *)
Definition stored (r : result answer) : Prop :=
  match r with Ok _ => True | Err e => is_err e ErrPersistence = false end.

(** Operations of these calls have placement identifiers of their own. *)
Definition placement_id (domainID operationID : string) : string := Identity.Derived "plc" (domainID +:+ ":" +:+ operationID).
Definition reserved_operation (c : store_call) : option key :=
  match c with Change (CallReserve r) => Some (pr_IsolationDomainID r, pr_OperationID r) | _ => None end.
Definition distinct_ids (calls : list store_call) : Prop :=
  ∀ d o o', Some (d, o) ∈ reserved_operation <$> calls → Some (d, o') ∈ reserved_operation <$> calls →
    placement_id d o = placement_id d o' → o = o'.

(** ** A table and the map that stands for it *)

Definition skey (k : key) : string := scopedKey k.1 k.2.

Record agrees {A B} (f : key → A → B) (m : gmap key A) (n : gmap string B) : Prop := Agrees {
  ag_clean : ∀ k a, m !! k = Some a → nul_free k.1;
  ag_lookup : ∀ k, nul_free k.1 → n !! skey k = f k <$> m !! k;
  ag_covers : ∀ j b, n !! j = Some b → ∃ k a, m !! k = Some a ∧ j = skey k }.

Section agrees.
Context {A B : Type}.
Implicit Types (f : key → A → B) (m : gmap key A) (n : gmap string B).

Lemma skey_inj k k' : nul_free k.1 → nul_free k'.1 → skey k = skey k' → k = k'.
Proof. destruct k, k'. intros N1 N2 E. destruct (scopedKey_inj _ _ _ _ N1 N2 E). by simplify_eq/=. Qed.

Lemma agrees_ext f f' m n : agrees f m n → (∀ k a, m !! k = Some a → f' k a = f k a) → agrees f' m n.
Proof.
  intros [Hc Hl Hv] E. split; [done| |done]. intros k Hk. rewrite (Hl k Hk).
  destruct (m !! k) as [a|] eqn:Ea; cbn; [by rewrite E|done].
Qed.

Lemma agrees_insert f f' m n k a :
  agrees f m n → nul_free k.1 → (∀ k' a', k' ≠ k → m !! k' = Some a' → f' k' a' = f k' a') →
  agrees f' (<[k := a]> m) (<[skey k := f' k a]> n).
Proof.
  intros [Hc Hl Hv] Nk E. split.
  - intros k' a' Hk'. destruct (decide (k = k')) as [->|Ne]; [done|]. rewrite lookup_insert_ne in Hk' by done. by eapply Hc.
  - intros k' Nk'. destruct (decide (k = k')) as [->|Ne]; [by rewrite !lookup_insert_eq|].
    rewrite (lookup_insert_ne m) by done. rewrite (lookup_insert_ne n) by (intros H; exact (Ne (skey_inj _ _ Nk Nk' H))). rewrite (Hl k' Nk').
    destruct (m !! k') as [a'|] eqn:Ea; cbn; [by rewrite E|done].
  - intros j b Hj. destruct (decide (skey k = j)) as [<-|Ne].
    + exists k, a. by rewrite lookup_insert_eq.
    + rewrite lookup_insert_ne in Hj by done. destruct (Hv j b Hj) as (k' & a' & Hk' & ->).
      exists k', a'. rewrite lookup_insert_ne; [done|]. by intros ->.
Qed.

Lemma agrees_same f m n k a a' : agrees f m n → m !! k = Some a → f k a' = f k a → agrees f (<[k := a']> m) n.
Proof.
  intros Ag Hk E. pose proof (ag_clean _ _ _ Ag k a Hk) as Nk.
  rewrite <- (insert_id n (skey k) (f k a')) by (by rewrite (ag_lookup _ _ _ Ag k Nk), Hk, E). by apply (agrees_insert f).
Qed.

Lemma agrees_elem f m n j b : agrees f m n → (j, b) ∈ map_to_list n ↔ ∃ k a, (k, a) ∈ map_to_list m ∧ j = skey k ∧ b = f k a.
Proof.
  intros [Hc Hl Hv]. rewrite elem_of_map_to_list. setoid_rewrite elem_of_map_to_list. split.
  - intros Hj. destruct (Hv j b Hj) as (k & a & Hk & ->). exists k, a. split_and!; [done|done|].
    rewrite (Hl k (Hc _ _ Hk)), Hk in Hj. cbn in Hj. congruence.
  - intros (k & a & Hk & -> & ->). by rewrite (Hl k (Hc _ _ Hk)), Hk.
Qed.
End agrees.

(** ** The load of a gateway *)

Lemma load_insert (m : gmap key placement_row) i x k :
  gateway_load (<[i := x]> m) k = (gateway_load (delete i m) k + if decide (placed_on k (i, x)) then 1 else 0)%Z.
Proof.
  unfold gateway_load. rewrite <- (insert_delete_eq m i x), map_filter_insert.
  destruct (decide (placed_on k (i, x))) as [P|P].
  - rewrite map_size_insert, map_lookup_filter_None_2 by (left; apply lookup_delete_eq). lia.
  - rewrite delete_delete_eq. lia.
Qed.

Lemma load_lookup (m : gmap key placement_row) i x k :
  m !! i = Some x → gateway_load m k = (gateway_load (delete i m) k + if decide (placed_on k (i, x)) then 1 else 0)%Z.
Proof. intros H. rewrite <- (insert_id m i x H) at 1. apply load_insert. Qed.

Lemma load_fresh (m : gmap key placement_row) i x k :
  m !! i = None → gateway_load (<[i := x]> m) k = (gateway_load m k + if decide (placed_on k (i, x)) then 1 else 0)%Z.
Proof. intros H. rewrite load_insert, delete_id by done. done. Qed.

Lemma load_same (m : gmap key placement_row) i x y k :
  m !! i = Some x → pl_gateway_id y = pl_gateway_id x → holds_capacity (pl_state y) = holds_capacity (pl_state x) →
  gateway_load (<[i := y]> m) k = gateway_load m k.
Proof.
  intros H Hg Hs. rewrite load_insert, (load_lookup m i x k H). do 2 f_equal. apply decide_ext. unfold placed_on. cbn. by rewrite Hg, Hs.
Qed.

Lemma load_released (m : gmap key placement_row) i x y k :
  m !! i = Some x → holds_capacity (pl_state x) = true → holds_capacity (pl_state y) = false →
  gateway_load (<[i := y]> m) k = (gateway_load m k - if decide (k = (i.1, pl_gateway_id x)) then 1 else 0)%Z.
Proof.
  intros H Hx Hy. rewrite load_insert, (load_lookup m i x k H).
  rewrite (decide_False (P := placed_on k (i, y))) by (intros (_ & _ & Hp); cbn in Hp; congruence).
  destruct (decide (placed_on k (i, x))) as [(P1 & P2 & _)|P]; cbn in *.
  - rewrite decide_True; [lia|]. destruct k. cbn in *. by subst.
  - rewrite decide_False; [lia|]. intros ->. by apply P.
Qed.

Lemma load_nonneg m k : (0 ≤ gateway_load m k)%Z.
Proof. unfold gateway_load. lia. Qed.

(** ** Both stores pick the same gateway *)

Lemma first_by_load_spec l x : first_by_load l = Some x → x ∈ l ∧ ∀ y, y ∈ l → rank_le x y.
Proof.
  revert x. induction l as [|y l IH]; cbn; [done|]. intros x Hx.
  assert (R : ∀ a, rank_le a a) by (intros; right; split; reflexivity).
  destruct (first_by_load l) as [m|] eqn:E.
  - destruct (IH m eq_refl) as [Hm Hl]. case_bool_decide as D; simplify_eq.
    + split; [set_solver|]. intros z [->|Hz]%elem_of_cons; [|by apply Hl].
      destruct D as [D|[D [D' _]]]; [by left|by right].
    + split; [set_solver|]. intros z [->|Hz]%elem_of_cons; [apply R|]. eapply rank_le_trans; [|by apply Hl].
      destruct (Z.lt_trichotomy (x.1) (m.1)) as [H|[H|H]]; [by left| |exfalso; apply D; left; lia].
      right. split; [done|]. destruct (total String.le (x.2) (m.2)) as [?|Hle]; [done|].
      destruct (decide (m.2 = x.2)) as [->|Ne]; [done|]. exfalso. apply D. right. split; [done|]. by split.
  - simplify_eq. destruct l as [|z l]; [|cbn in E; by destruct (first_by_load l); repeat case_match].
    split; [set_solver|]. intros z ->%list_elem_of_singleton. apply R.
Qed.

Lemma first_by_load_None l : first_by_load l = None → l = [].
Proof. destruct l; [done|]. cbn. by destruct (first_by_load l); [case_match|]. Qed.

Lemma least_gateway_None l : least_gateway l = None → l = [].
Proof. destruct l; [done|]. cbn. by destruct (least_gateway l); [case_match|]. Qed.

Lemma rank_le_antisymm a b : rank_le a b → rank_le b a → a = b.
Proof.
  destruct a as [x i], b as [y j]. unfold rank_le. cbn. intros [H|[-> H]] [H'|[? H']]; try lia. f_equal. by apply (anti_symm String.le).
Qed.

(** ** The stores in agreement *)

Definition mem_gateway (t : execution_tables) (k : key) (row : gateway_row) : memoryGateway :=
  MemGateway (gateway_record k row) (gateway_load (et_placements t) k).
Definition mem_placement (k : key) (row : placement_row) : memoryPlacement :=
  MemPlacement (placement_of k row) (pl_operation_id row) (pl_required_capabilities row) (pl_state row).

Record conforms (t : execution_tables) (s : MemoryStateStore) : Prop := Conforms {
  cf_gateways : agrees (mem_gateway t) (et_gateways t) (gateways s);
  cf_placements : agrees mem_placement (et_placements t) (placements s);
  cf_executions : agrees execution_record (et_instances t) (executions s);
  cf_placed : ∀ k row, et_placements t !! k = Some row →
    k.2 = placement_id k.1 (pl_operation_id row) ∧ is_Some (et_gateways t !! (k.1, pl_gateway_id row));
  cf_running : ∀ k row, et_instances t !! k = Some row → ∃ p, et_placements t !! (k.1, in_placement_id row) = Some p
    ∧ pl_operation_id p = in_operation_id row ∧ pl_gateway_id p = in_gateway_id row
    ∧ pl_state p = if decide (in_observed_state row = "terminated") then "released" else "active";
  cf_single : ∀ k k' row row', et_instances t !! k = Some row → et_instances t !! k' = Some row' →
    k.1 = k'.1 → in_operation_id row = in_operation_id row' → k = k' }.

Definition alike (r : result (execution_tables * answer)) (q : result (MemoryStateStore * answer)) : Prop :=
  match r, q with
  | Ok (t, a), Ok (s, b) => a = b ∧ conforms t s
  | Err e, Err e' => is_err e ErrPersistence = true ∨ e = e'
  | Err e, Ok _ => is_err e ErrPersistence = true
  | Ok _, Err _ => False
  end.

Lemma alike_failed what q : alike (failed what) q.
Proof. destruct q as [[]|]; [done|by left]. Qed.

Lemma sql_texts_nul l : sql_texts l = true → Forall nul_free l.
Proof.
  unfold sql_texts. rewrite forallb_Forall. intros H. eapply Forall_impl; [exact H|]. intros s Hs. cbn beta in Hs.
  unfold sql_text in Hs. to_prop. done.
Qed.

Ltac clean H :=
  apply sql_texts_nul in H; repeat match goal with
  | H : Forall nul_free (_ :: _) |- _ => apply Forall_cons in H as [? H]
  | H : Forall nul_free [] |- _ => clear H
  end.

(** A statement refused for its texts, or the texts are clean. *)
Ltac statement :=
  match goal with
  | |- alike (mbind _ (if negb ?b then _ else _)) _ =>
      let H := fresh "Htexts" in destruct b eqn:H; cbn [negb]; [clean H|apply alike_failed]
  end.

Section calls.
Context (t : execution_tables) (s : MemoryStateStore) (C : conforms t s).

Lemma lookup_gateway d i : nul_free d → gateways s !! scopedKey d i = mem_gateway t (d, i) <$> et_gateways t !! (d, i).
Proof. intros N. apply (ag_lookup _ _ _ (cf_gateways _ _ C) (d, i) N). Qed.
Lemma lookup_placement d i : nul_free d → placements s !! scopedKey d i = mem_placement (d, i) <$> et_placements t !! (d, i).
Proof. intros N. apply (ag_lookup _ _ _ (cf_placements _ _ C) (d, i) N). Qed.
Lemma lookup_execution d i : nul_free d → executions s !! scopedKey d i = execution_record (d, i) <$> et_instances t !! (d, i).
Proof. intros N. apply (ag_lookup _ _ _ (cf_executions _ _ C) (d, i) N). Qed.

Lemma read_gateway_alike now d i : alike (pg_perform now (ReadGateway d i) t) (mem_perform (ReadGateway d i) s).
Proof.
  cbn [pg_perform mem_perform]. unfold pg_GetGateway, GetGateway. statement.
  rewrite lookup_gateway by done. destruct (et_gateways t !! (d, i)) as [row|]; cbn; [done|by right].
Qed.

Lemma read_placement_alike now d i : alike (pg_perform now (ReadPlacement d i) t) (mem_perform (ReadPlacement d i) s).
Proof.
  cbn [pg_perform mem_perform]. unfold pg_GetPlacement, GetPlacement. statement.
  rewrite lookup_placement by done. destruct (et_placements t !! (d, i)) as [row|]; cbn; [done|by right].
Qed.

Lemma read_execution_alike now d i : alike (pg_perform now (ReadExecution d i) t) (mem_perform (ReadExecution d i) s).
Proof.
  cbn [pg_perform mem_perform]. unfold pg_GetExecution, getExecution, GetExecution.
  destruct (sql_texts [d; i]) eqn:Htexts; cbn [negb]; [clean Htexts|apply alike_failed].
  rewrite lookup_execution by done. destruct (et_instances t !! (d, i)) as [row|]; cbn; [done|by right].
Qed.

(** At most one execution of an operation: whichever order the map is read in. *)
Lemma read_by_operation_alike now d op : alike (pg_perform now (ReadByOperation d op) t) (mem_perform (ReadByOperation d op) s).
Proof.
  cbn [pg_perform mem_perform]. unfold pg_GetExecutionByOperation, GetExecutionByOperation. statement.
  destruct (list_find _ (map_to_list (et_instances t))) as [[n [k row]]|] eqn:Ep.
  - apply list_find_Some in Ep as (Hi%list_elem_of_lookup_2 & [Hd Ho] & _). cbn in Hd, Ho.
    destruct (list_find _ (map_to_list (executions s))) as [[n' [j r]]|] eqn:Em.
    + apply list_find_Some in Em as (Hj%list_elem_of_lookup_2 & [Hd' Ho'] & _). cbn in Hd', Ho'.
      apply (agrees_elem _ _ _ _ _ (cf_executions _ _ C)) in Hj as (k' & row' & Hk' & -> & ->).
      apply elem_of_map_to_list in Hi, Hk'. cbn in Hd', Ho'.
      assert (k = k') as <- by (apply (cf_single _ _ C k k' row row'); congruence).
      cbn. split; [|done]. congruence.
    + exfalso. rewrite list_find_None, Forall_forall in Em.
      apply (Em (skey k, execution_record k row)); [|done].
      apply (agrees_elem _ _ _ _ _ (cf_executions _ _ C)). by exists k, row.
  - destruct (list_find _ (map_to_list (executions s))) as [[n' [j r]]|] eqn:Em; [|by right]. exfalso.
    apply list_find_Some in Em as (Hj%list_elem_of_lookup_2 & [Hd' Ho'] & _). cbn in Hd', Ho'.
    apply (agrees_elem _ _ _ _ _ (cf_executions _ _ C)) in Hj as (k' & row' & Hk' & -> & ->).
    rewrite list_find_None, Forall_forall in Ep. by apply (Ep (k', row')).
Qed.

Lemma sql_array_Some l l' : sql_array l = Some l' → l' = l.
Proof. destruct l; cbn; congruence. Qed.

Lemma load_unknown k : et_gateways t !! k = None → gateway_load (et_placements t) k = 0%Z.
Proof.
  intros H. unfold gateway_load. rewrite (proj2 (map_empty_filter _ _)); [by rewrite map_size_empty|].
  intros [d i] row Hp (Hd & Hg & _). cbn in Hd, Hg. destruct (cf_placed _ _ C _ _ Hp) as [_ [g Hg']]. cbn in Hg'. destruct k. cbn in *. by simplify_eq.
Qed.

Lemma register_alike now r : alike (pg_perform now (Change (CallRegister r)) t) (mem_perform (Change (CallRegister r)) s).
Proof.
  cbn [pg_perform mem_perform]. unfold pg_RegisterGateway, RegisterGateway. case_decide; [by right|].
  destruct (NormalizeCapabilities _) as [caps|e]; cbn [mbind result_bind]; [|by right].
  unfold insert_gateway. destruct (sql_array caps) as [caps'|] eqn:Ea; [|apply alike_failed]. apply sql_array_Some in Ea as ->.
  destruct (_ || _) eqn:Ht; [apply alike_failed|]. to_prop.
  assert (sql_texts [gr_IsolationDomainID r; gr_ID r] = true) as Htexts.
  { match goal with H : sql_texts (_ ++ _) = true |- _ => unfold sql_texts in H |- *; cbn in H |- *; to_prop end.
    by rewrite !andb_true_iff. }
  assert (nul_free (gr_IsolationDomainID r)) as Nd by (pose proof Htexts as Hx; by clean Hx).
  rewrite (lookup_gateway _ _ Nd). destruct (et_gateways t !! _) as [row|] eqn:Eg; cbn.
  - unfold pg_GetGateway. rewrite Htexts, Eg. cbn. repeat case_decide; cbn; try tauto; by right.
  - destruct (taken _ _ _); [apply alike_failed|]. cbn. unfold pg_GetGateway. rewrite Htexts. cbn [negb et_gateways].
    rewrite lookup_insert_eq. cbn. rewrite decide_False by tauto. cbn. split; [done|].
    split; cbn; try apply C.
    + set (row := GatewayRow _ _ _ _ _ _ _). set (t' := ExecutionTables _ _ _).
      assert (mem_gateway t' (gr_IsolationDomainID r, gr_ID r) row
        = MemGateway (GatewayRec (MkGateway (gr_IsolationDomainID r) (gr_ID r) (gr_Driver r) GatewayActive caps) (gr_Endpoint r)) 0) as <-.
      { unfold mem_gateway. by rewrite load_unknown. }
      apply (agrees_insert (mem_gateway t) (mem_gateway t') _ _ (gr_IsolationDomainID r, gr_ID r)); [apply C|done|done].
    + intros k p Hp. destruct (cf_placed _ _ C k p Hp) as [? ?]. split; [done|]. by apply lookup_insert_is_Some'; right.
Qed.

Lemma set_state_alike now d i st : st ≠ GatewayLost →
  alike (pg_perform now (Change (CallSetState d i st)) t) (mem_perform (Change (CallSetState d i st)) s).
Proof.
  intros Hst. cbn [pg_perform mem_perform]. unfold pg_SetGatewayState, SetGatewayState.
  destruct (ValidGatewayState st); cbn [negb]; [|by right]. statement.
  rewrite lookup_gateway by done. destruct (et_gateways t !! (d, i)) as [row|] eqn:Eg; cbn [fmap option_fmap option_map]; [|by right].
  rewrite !decide_False by done. cbn. split; [done|]. split; cbn; try apply C.
  - apply (agrees_insert (mem_gateway t) (mem_gateway (ExecutionTables (<[(d, i) := set_gateway_row st now row]> (et_gateways t)) (et_placements t) (et_instances t)))
      _ _ (d, i)); [apply C|done|done].
  - intros k p Hp. destruct (cf_placed _ _ C k p Hp) as [? ?]. split; [done|]. by apply lookup_insert_is_Some'; right.
Qed.

(** A placement is found by its operation where its identifier puts it. *)
Lemma placement_by_operation d op :
  (∀ row, et_placements t !! (d, placement_id d op) = Some row → pl_operation_id row = op) →
  getPlacementByOperation d op t
  = (λ row, (placement_of (d, placement_id d op) row, pl_required_capabilities row)) <$> et_placements t !! (d, placement_id d op).
Proof.
  intros Hid. unfold getPlacementByOperation. destruct (list_find _ _) as [[n [k row]]|] eqn:E; cbn.
  - apply list_find_Some in E as (Hk%list_elem_of_lookup_2 & [Hd Ho] & _). apply elem_of_map_to_list in Hk. cbn in Hd, Ho.
    destruct (cf_placed _ _ C k row Hk) as [Hi _]. destruct k as [d' i]. cbn in *. subst. by rewrite Hk.
  - destruct (et_placements t !! _) as [row|] eqn:Ep; [|done]. exfalso.
    rewrite list_find_None, Forall_forall in E. apply (E ((d, placement_id d op), row)); [by apply elem_of_map_to_list|].
    split; [done|by apply Hid].
Qed.

Lemma eligible_alike d caps k row : nul_free d → nul_free k.1 → caps ≠ [] →
  eligible_gateway d (sql_array caps) (k, row) = gateway_eligible d caps (mem_gateway t k row).
Proof.
  intros Nd Nk Hc. unfold eligible_gateway, gateway_eligible, mem_gateway, gateway_record. cbn.
  destruct caps as [|c caps]; [done|]. cbn [sql_array]. f_equal. by rewrite bool_decide_and.
Qed.

Lemma select_alike d caps : nul_free d → caps ≠ [] →
  match select_gateway d caps t, least_gateway (filter (λ e, gateway_eligible d caps e.2 = true) (map_to_list (gateways s))) with
  | Some id, Some (gkey, selected) => ∃ row, et_gateways t !! (d, id) = Some row ∧ gkey = skey (d, id) ∧ selected = mem_gateway t (d, id) row
  | None, None => True
  | _, _ => False
  end.
Proof.
  intros Nd Hc. pose proof (cf_gateways _ _ C) as Ag. unfold select_gateway.
  set (pg := filter _ (map_to_list (et_gateways t))). set (mem := filter _ (map_to_list (gateways s))).
  assert (∀ k row, (k, row) ∈ pg ↔ (skey k, mem_gateway t k row) ∈ mem ∧ et_gateways t !! k = Some row) as Hpg.
  { intros k row. unfold pg, mem. rewrite !list_elem_of_filter, !elem_of_map_to_list. cbn [snd]. split.
    - intros [He Hk]. pose proof (ag_clean _ _ _ Ag k row Hk). rewrite eligible_alike in He by done.
      split_and!; [done| |done]. by rewrite (ag_lookup _ _ _ Ag k), Hk.
    - intros [[He _] Hk]. split; [|done]. by rewrite eligible_alike by (done || by eapply ag_clean). }
  assert (∀ e, e ∈ mem → ∃ k row, e = (skey k, mem_gateway t k row) ∧ (k, row) ∈ pg ∧ k.1 = d) as Hmem.
  { intros [j g] He. pose proof He as He'. unfold mem in He'. apply list_elem_of_filter in He' as [Hel Hj].
    apply (agrees_elem _ _ _ _ _ Ag) in Hj as (k & row & Hk & -> & ->). apply elem_of_map_to_list in Hk.
    exists k, row. split_and!; [done|by apply Hpg|]. unfold gateway_eligible in Hel. cbn in Hel. by to_prop. }
  destruct (first_by_load _) as [[n id]|] eqn:Ef; cbn.
  - apply first_by_load_spec in Ef as [Hin Hmin]. apply list_elem_of_fmap in Hin as ([k row] & Heq & Hk). cbn in Heq. simplify_eq.
    destruct (least_gateway mem) as [[gkey sel]|] eqn:El.
    2:{ apply least_gateway_None in El. apply Hpg in Hk as [Hk _]. rewrite El in Hk. by apply elem_of_nil in Hk. }
    apply least_gateway_spec in El as [Hin' Hmin']. destruct (Hmem _ Hin') as (k' & row' & Heq & Hk' & Hd). simplify_eq.
    pose proof (Hmin' _ (proj1 (proj1 (Hpg _ _) Hk))) as H1.
    assert (rank_le (gateway_load (et_placements t) k, k.2) (gateway_load (et_placements t) k', k'.2)) as H2.
    { apply Hmin. apply list_elem_of_fmap. by exists (k', row'). }
    unfold gateway_rank in H1. cbn in H1. pose proof (rank_le_antisymm _ _ H1 H2) as He. injection He as _ Hid.
    exists row'. apply Hpg in Hk' as [_ Hk']. destruct k' as [d' i']. cbn in *. by subst.
  - apply first_by_load_None, fmap_nil_inv in Ef. destruct (least_gateway mem) as [[gkey sel]|] eqn:El; [|done].
    apply least_gateway_spec in El as [Hin' _]. destruct (Hmem _ Hin') as (k' & row' & _ & Hk' & _). rewrite Ef in Hk'. by apply elem_of_nil in Hk'.
Qed.

Lemma normalized_nonempty l caps : NormalizeCapabilities l = Ok caps → l ≠ [] → caps ≠ [].
Proof.
  unfold NormalizeCapabilities. case_decide; [done|]. intros [= <-] Hl E. destruct l as [|x l]; [done|].
  assert (x ∈ sort_compact (x :: l)) as Hx by (apply sort_compact_elem_of; set_solver). rewrite E in Hx. by apply elem_of_nil in Hx.
Qed.

(** The tables after a reservation. *)
Lemma conforms_reserve d op id grow row :
  nul_free d → et_gateways t !! (d, id) = Some grow → et_placements t !! (d, placement_id d op) = None →
  pl_operation_id row = op → pl_gateway_id row = id → pl_state row = "reserved" →
  let k := (d, placement_id d op) in
  conforms (ExecutionTables (et_gateways t) (<[k := row]> (et_placements t)) (et_instances t))
    (MemStore (<[skey (d, id) := MemGateway (gateway_record (d, id) grow) (gateway_load (et_placements t) (d, id) + 1)]> (gateways s))
       (<[skey k := mem_placement k row]> (placements s)) (executions s)).
Proof.
  intros Nd Hg Hf Ho Hi Hs k. split; cbn; try apply C.
  - set (t' := ExecutionTables _ _ _).
    assert (∀ k', gateway_load (et_placements t') k' = (gateway_load (et_placements t) k' + if decide (k' = (d, id)) then 1 else 0)%Z) as Hl.
    { intros k'. unfold t'. cbn. rewrite load_fresh by done. f_equal. destruct k' as [d' i'].
      apply decide_ext. unfold placed_on. cbn. rewrite Hi, Hs. naive_solver. }
    rewrite <- (insert_id (et_gateways t) (d, id) grow Hg).
    assert (mem_gateway t' (d, id) grow = MemGateway (gateway_record (d, id) grow) (gateway_load (et_placements t) (d, id) + 1)) as <-
      by (unfold mem_gateway; by rewrite Hl, decide_True).
    apply (agrees_insert (mem_gateway t)); [apply C|done|]. intros k' a' Hne _. unfold mem_gateway. rewrite Hl, decide_False by done. by rewrite Z.add_0_r.
  - apply (agrees_insert mem_placement); [apply C|done|done].
  - intros k' row' [[<- <-]|[Hne Hk']]%lookup_insert_Some; [|by apply C]. cbn. rewrite Ho, Hi. by rewrite Hg.
  - intros k' row' Hk'. destruct (cf_running _ _ C _ _ Hk') as (p & Hp & Hrest). exists p. rewrite lookup_insert_ne; [done|].
    intros E. fold k in Hf. rewrite E in Hf. congruence.
Qed.

Lemma reserve_alike now r : pr_RequiredCapabilities r ≠ [] →
  (∀ row, et_placements t !! (pr_IsolationDomainID r, placement_id (pr_IsolationDomainID r) (pr_OperationID r)) = Some row →
     pl_operation_id row = pr_OperationID r) →
  alike (pg_perform now (Change (CallReserve r)) t) (mem_perform (Change (CallReserve r)) s).
Proof.
  intros Hr Hid. cbn [pg_perform mem_perform]. unfold pg_ReservePlacement, ReservePlacement. cbv zeta. case_decide as D; [by right|].
  destruct (NormalizeCapabilities _) as [caps|e] eqn:En; cbn [mbind result_bind]; [|by right]. statement.
  pose proof (normalized_nonempty _ _ En Hr) as Hcaps.
  fold (placement_id (pr_IsolationDomainID r) (pr_OperationID r)). rewrite placement_by_operation, lookup_placement by done.
  destruct (et_placements t !! _) as [row|] eqn:Ep; cbn.
  - rewrite (Hid _ eq_refl). repeat case_decide; cbn; try tauto; by right.
  - destruct (sql_texts caps) eqn:Ht; cbn [negb]; [|apply alike_failed].
    pose proof (select_alike (pr_IsolationDomainID r) caps ltac:(done) Hcaps) as Hsel.
    destruct (select_gateway _ _ _) as [id|], (least_gateway _) as [[gkey sel]|]; try done; [|by right].
    destruct Hsel as (grow & Hg & -> & ->). destruct caps as [|c0 caps0] eqn:Ec; [done|]. cbn [sql_array]. rewrite <- Ec in *. clear Ec c0 caps0.
    destruct (_ || _) eqn:Hk; [apply alike_failed|]. cbn. split; [done|].
    to_prop. apply (conforms_reserve (pr_IsolationDomainID r) (pr_OperationID r) id grow (PlacementRow _ _ _ _ _ _)); done.
Qed.

Lemma alter_known {A} (f : A → A) (m : gmap key A) k x : m !! k = Some x → alter f k m = <[k := f x]> m.
Proof. intros H. apply map_eq. intros j. destruct (decide (k = j)) as [<-|Ne]; by simplify_map_eq. Qed.

Lemma taken_false {A} (d : string) (P : A → bool) (m : gmap key A) (k : key) (a : A) : taken d P m = false → m !! k = Some a → k.1 = d → P a = false.
Proof.
  unfold taken. intros H Hk Hd. destruct (P a) eqn:E; [|done]. exfalso. apply not_true_iff_false in H. apply H.
  apply existsb_exists. exists (k, a). rewrite <- list_elem_of_In, elem_of_map_to_list. cbn. rewrite E. by rewrite bool_decide_true.
Qed.

(** A placement whose gateway and operation stay: the rows and their images. *)
Lemma agrees_placement k p p' now st :
  et_placements t !! k = Some p → p' = set_placement_row st now p →
  agrees mem_placement (<[k := p']> (et_placements t)) (<[skey k := with_placement_state st (mem_placement k p)]> (placements s)).
Proof.
  intros Hp ->. apply (agrees_insert mem_placement mem_placement _ _ k (set_placement_row st now p)); [apply C| |done].
  by eapply (ag_clean _ _ _ (cf_placements _ _ C)).
Qed.

Lemma placed_insert k p p' : et_placements t !! k = Some p → pl_operation_id p' = pl_operation_id p → pl_gateway_id p' = pl_gateway_id p →
  ∀ k' row, <[k := p']> (et_placements t) !! k' = Some row →
    k'.2 = placement_id k'.1 (pl_operation_id row) ∧ is_Some (et_gateways t !! (k'.1, pl_gateway_id row)).
Proof.
  intros Hp Ho Hg k' row [[<- <-]|[Hne Hk']]%lookup_insert_Some; [|by apply C]. rewrite Ho, Hg. by apply C.
Qed.

Lemma same_identity_alike a b : sameExecutionIdentity a b = sameMemoryExecutionIdentity a b.
Proof. unfold sameExecutionIdentity, sameMemoryExecutionIdentity. rewrite !bool_decide_and. by rewrite !andb_assoc. Qed.

Lemma holds_capacity_iff st : holds_capacity st = true ↔ st = "reserved" ∨ st = "active".
Proof. unfold holds_capacity. rewrite bool_decide_eq_true. set_solver. Qed.

(** The tables after an execution is saved on a placement that holds capacity. *)
Lemma conforms_save now d id pid p row :
  nul_free d → et_instances t !! (d, id) = None → et_placements t !! (d, pid) = Some p → holds_capacity (pl_state p) = true →
  in_placement_id row = pid → in_operation_id row = pl_operation_id p → in_gateway_id row = pl_gateway_id p →
  in_observed_state row ≠ "terminated" →
  taken d (λ row', bool_decide (in_operation_id row' = in_operation_id row)) (et_instances t) = false →
  conforms (ExecutionTables (et_gateways t) (<[(d, pid) := set_placement_row "active" now p]> (et_placements t)) (<[(d, id) := row]> (et_instances t)))
    (MemStore (gateways s) (<[skey (d, pid) := with_placement_state "active" (mem_placement (d, pid) p)]> (placements s))
       (<[skey (d, id) := execution_record (d, id) row]> (executions s))).
Proof.
  intros Nd Hx Hp Hh Hpid Hop Hgw Hst Hfree.
  assert (∀ k' row', et_instances t !! k' = Some row' → k'.1 = d → in_operation_id row' ≠ in_operation_id row) as Hother.
  { intros k' row' Hk' Hd'. pose proof (taken_false _ _ _ _ _ Hfree Hk' Hd') as Hb. cbn in Hb. by to_prop. }
  split; cbn.
  - apply (agrees_ext (mem_gateway t)); [apply C|]. intros k g _. unfold mem_gateway. cbn. f_equal. by eapply load_same.
  - by eapply agrees_placement.
  - apply (agrees_insert execution_record); [apply C|done|done].
  - eapply placed_insert; [exact Hp|done|done].
  - intros k' row' [[<- <-]|[Hne Hk']]%lookup_insert_Some; cbn.
    + exists (set_placement_row "active" now p). rewrite Hpid, lookup_insert_eq. by rewrite decide_False.
    + destruct (cf_running _ _ C _ _ Hk') as (p' & Hp' & Ho' & Hrest). exists p'. rewrite lookup_insert_ne; [done|].
      intros [= Hd Hpid']. cbn in Hd. rewrite <- Hd, <- Hpid' in Hp'. apply (Hother k' row' Hk' (eq_sym Hd)). congruence.
  - intros k1 k2 r1 r2 [[<- <-]|[Hn1 H1]]%lookup_insert_Some [[<- <-]|[Hn2 H2]]%lookup_insert_Some Hd Ho; [done|..].
    + exfalso. by apply (Hother _ _ H2).
    + exfalso. by apply (Hother _ _ H1).
    + by eapply (cf_single _ _ C).
Qed.

Lemma save_alike now r : x_State (xr_Execution r) ≠ "terminated" →
  alike (pg_perform now (Change (CallSave r)) t) (mem_perform (Change (CallSave r)) s).
Proof.
  intros Hst. cbn [pg_perform mem_perform]. unfold pg_SaveExecution, SaveExecution. change validMemoryExecutionState with validExecutionState.
  cbv zeta. case_decide as D; [by right|].
  unfold getExecution. destruct (sql_texts [_; _]) eqn:Htexts; cbn [negb]; [clean Htexts|apply alike_failed].
  rewrite lookup_execution by done. destruct (et_instances t !! _) as [row|] eqn:Ex; cbn.
  { rewrite same_identity_alike. destruct (sameMemoryExecutionIdentity _ _); cbn; [done|by right]. }
  destruct (sql_text (xr_PlacementID r)) eqn:Hpl; cbn [negb]; [|apply alike_failed].
  rewrite lookup_placement by done. destruct (et_placements t !! _) as [p|] eqn:Ep; cbn; [|by right].
  pose proof (holds_capacity_iff (pl_state p)) as Hh. destruct (bool_decide _ && _) eqn:Hok; cbn [negb].
  2:{ rewrite decide_True; [by right|]. rewrite andb_false_iff, bool_decide_eq_false in Hok. destruct Hok as [[Hok|Hok]%not_and_l|Hok]; [by right; left|by left|].
      right; right. rewrite Hok in Hh. split; intros E; [discriminate (proj2 Hh (or_introl E))|discriminate (proj2 Hh (or_intror E))]. }
  rewrite andb_true_iff, bool_decide_eq_true in Hok. destruct Hok as [[Ho Hg] Hc]. rewrite (decide_False (P := _ ∨ _)) by tauto. unfold insert_instance.
  destruct (_ || taken _ _ _) eqn:Hk; [apply alike_failed|]. to_prop. cbn. rewrite !(decide_False (P := _ = "terminated")) by done.
  split; [done|]. unfold update_placement. cbn. rewrite (alter_known _ _ _ _ Ep). destruct r as [[d id gw st] pid op sandbox]. cbn in *.
  apply (conforms_save now d id pid p (InstanceRow pid op gw sandbox st now now None)); by subst.
Qed.
(** The tables after an execution changes its state, whatever happens to its placement. *)
Lemma conforms_update d id row row' p p' gs ps :
  let t' := ExecutionTables (et_gateways t) (<[(d, in_placement_id row) := p']> (et_placements t)) (<[(d, id) := row']> (et_instances t)) in
  et_instances t !! (d, id) = Some row → et_placements t !! (d, in_placement_id row) = Some p →
  in_placement_id row' = in_placement_id row → in_operation_id row' = in_operation_id row → in_gateway_id row' = in_gateway_id row →
  pl_operation_id p' = pl_operation_id p → pl_gateway_id p' = pl_gateway_id p →
  pl_state p' = (if decide (in_observed_state row' = "terminated") then "released" else "active") →
  agrees (mem_gateway t') (et_gateways t) gs → agrees mem_placement (et_placements t') ps →
  conforms t' (MemStore gs ps (<[skey (d, id) := execution_record (d, id) row']> (executions s))).
Proof.
  intros t' Hx Hp Hpid Hop Hgw Hop' Hgw' Hst Ag Ap.
  assert (in_operation_id row = pl_operation_id p ∧ in_gateway_id row = pl_gateway_id p) as [Hro Hrg].
  { destruct (cf_running _ _ C _ _ Hx) as (q & Hq & Ho & Hg & _). cbn in Hq. rewrite Hp in Hq. injection Hq as <-. by rewrite Ho, Hg. }
  split; cbn; [done|done|..].
  - apply (agrees_insert execution_record); [apply C| |done]. by eapply (ag_clean _ _ _ (cf_executions _ _ C)).
  - eapply placed_insert; [exact Hp|done|done].
  - intros k' r' [[<- <-]|[Hne Hk']]%lookup_insert_Some; cbn.
    + exists p'. rewrite Hpid, lookup_insert_eq. split_and!; congruence.
    + destruct (cf_running _ _ C _ _ Hk') as (q & Hq & Ho & Hrest). exists q. rewrite lookup_insert_ne; [done|].
      intros [= Hd Hpid']. cbn in Hd. rewrite <- Hd, <- Hpid', Hp in Hq. injection Hq as <-.
      apply Hne. apply (cf_single _ _ C _ _ _ _ Hx Hk'); [done|congruence].
  - intros k1 k2 r1 r2 [[<- <-]|[Hn1 H1]]%lookup_insert_Some [[<- <-]|[Hn2 H2]]%lookup_insert_Some Hd Ho; [done|..].
    + apply (cf_single _ _ C _ _ _ _ Hx H2); [done|congruence].
    + apply (cf_single _ _ C _ _ _ _ H1 Hx); [done|congruence].
    + by eapply (cf_single _ _ C).
Qed.

(** A placement that gives its capacity back. *)
Lemma release_alike now d pid p x :
  nul_free d → et_placements t !! (d, pid) = Some p → holds_capacity (pl_state p) = true →
  agrees (mem_gateway (ExecutionTables (et_gateways t) (<[(d, pid) := set_placement_row "released" now p]> (et_placements t)) x))
    (et_gateways t) (release_gateway (scopedKey d (pl_gateway_id p)) (gateways s)).
Proof.
  intros Nd Hp Hh. destruct (cf_placed _ _ C _ _ Hp) as [_ [g Hg]]. cbn in Hg. unfold release_gateway. rewrite lookup_gateway, Hg by done. cbn.
  assert (0 < gateway_load (et_placements t) (d, pl_gateway_id p))%Z as Hpos.
  { rewrite (load_lookup _ _ _ _ Hp), decide_True by done. pose proof (load_nonneg (delete (d, pid) (et_placements t)) (d, pl_gateway_id p)). lia. }
  rewrite decide_True by done. rewrite <- (insert_id (et_gateways t) _ _ Hg) at 2. set (t' := ExecutionTables _ _ _).
  assert (∀ k, gateway_load (et_placements t') k
    = (gateway_load (et_placements t) k - if decide (k = (d, pl_gateway_id p)) then 1 else 0)%Z) as Hl.
  { intros k. unfold t'. cbn. by rewrite (load_released _ _ p). }
  assert (mem_gateway t' (d, pl_gateway_id p) g
    = MemGateway (gateway_record (d, pl_gateway_id p) g) (gateway_load (et_placements t) (d, pl_gateway_id p) - 1)) as <-.
  { unfold mem_gateway. by rewrite Hl, decide_True. }
  apply (agrees_insert (mem_gateway t) (mem_gateway t') _ _ (d, pl_gateway_id p)); [apply C|done|].
  intros k a Hne _. unfold mem_gateway. rewrite Hl, decide_False by done. by rewrite Z.sub_0_r.
Qed.

Lemma update_alike now d id st : validExecutionState st = true →
  alike (pg_perform now (Change (CallUpdate d id st)) t) (mem_perform (Change (CallUpdate d id st)) s).
Proof.
  intros Hv. cbn [pg_perform mem_perform]. unfold pg_UpdateExecutionState, UpdateExecutionState. rewrite Hv. cbn [negb]. cbv zeta. statement.
  rewrite lookup_execution by done. destruct (et_instances t !! _) as [row|] eqn:Ex; cbn [fmap option_fmap option_map]; [|by right].
  destruct (cf_running _ _ C _ _ Ex) as (p & Hp & Ho & Hg & Hs). cbn [fst execution_record xr_Execution x_State xr_PlacementID] in *.
  destruct (decide (st = "terminated")) as [->|Hst].
  - rewrite (bool_decide_true ("terminated" = "terminated")), (decide_False (P := _ ∧ _)) by tauto.
    rewrite andb_false_r. cbn [mbind result_bind]. unfold update_placement. cbn [et_placements et_gateways et_instances].
    rewrite (alter_known _ _ _ _ Hp). case_bool_decide as Ht; cbn.
    + rewrite decide_True in Hs by done. split; [done|].
      refine (conforms_update d id row (set_instance_row "terminated" now (Some now) row) p (set_placement_row "released" now p) _ _ Ex Hp _ _ _ _ _ _ _ _); try done.
      * apply (agrees_ext (mem_gateway t)); [apply C|]. intros k a _. unfold mem_gateway. cbn. f_equal. eapply load_same; [exact Hp|done|by rewrite Hs].
      * apply agrees_same with p; [apply C|done|]. unfold mem_placement. by rewrite Hs.
    + rewrite decide_False in Hs by done. rewrite lookup_placement, Hp by done. cbn. split; [done|].
      refine (conforms_update d id row (set_instance_row "terminated" now (Some now) row) p (set_placement_row "released" now p) _ _ Ex Hp _ _ _ _ _ _ _ _); try done.
      * apply release_alike; [done|done|by rewrite Hs].
      * by eapply agrees_placement.
  - case_decide as Ht.
    { rewrite (decide_True (P := _ ∧ _)), bool_decide_true, bool_decide_false by done. by right. }
    rewrite (decide_False (P := _ ∧ _)) by tauto. rewrite (bool_decide_false (in_observed_state row = _)) by tauto. rewrite (bool_decide_false (st = _)) by done. cbn. split; [done|].
    rewrite <- (insert_id (et_placements t) _ _ Hp) at 1.
    refine (conforms_update d id row (set_instance_row st now None row) p p _ _ Ex Hp _ _ _ _ _ _ _ _); try done.
    + cbn. by rewrite decide_False.
    + cbn. rewrite (insert_id _ _ _ Hp). apply (agrees_ext (mem_gateway t)); [apply C|done].
    + cbn. rewrite (insert_id _ _ _ Hp). apply C.
Qed.
End calls.

(** ** Runs *)

(** Every placement was asked for by one of the calls. *)
Definition asked_for (ops : list (option key)) (t : execution_tables) : Prop :=
  ∀ k row, et_placements t !! k = Some row → Some (k.1, pl_operation_id row) ∈ ops.

Lemma asked_for_alter ops t gs m ins k st now :
  asked_for ops t → m = et_placements t → asked_for ops (ExecutionTables gs (alter (set_placement_row st now) k m) ins).
Proof.
  intros H -> k' row Hk. cbn in Hk. apply lookup_alter_Some in Hk as [(<- & p & Hp & ->)|[_ Hp]]; [exact (H _ _ Hp)|by apply H].
Qed.

Ltac binds H := repeat apply result_bind_Ok in H as (? & ? & H).

Lemma asked_for_step ops now c t t' a :
  pg_perform now c t = Ok (t', a) → reserved_operation c ∈ ops → asked_for ops t → asked_for ops t'.
Proof.
  intros Hc Hin H. destruct c as [[r|d i st|r|r|d i st]| | | |]; cbn [pg_perform] in Hc.
  - apply result_bind_Ok in Hc as ([t1 g] & Hr & [= <- <-]). unfold pg_RegisterGateway in Hr. case_decide; [done|]. binds Hr.
    unfold insert_gateway in *. repeat (case_match; try done); simplify_eq; done.
  - apply result_bind_Ok in Hc as (t1 & Hr & [= <- <-]). unfold pg_SetGatewayState in Hr. repeat (case_match; try done); simplify_eq; try done.
    intros k row' Hk. cbn in Hk. rewrite map_lookup_imap in Hk. apply bind_Some in Hk as (p & Hp & Hl). unfold lose_placement_row in Hl.
    specialize (H _ _ Hp). case_match; simplify_eq; done.
  - apply result_bind_Ok in Hc as ([t1 p] & Hr & [= <- <-]). unfold pg_ReservePlacement in Hr. case_decide; [done|]. binds Hr.
    repeat (case_match; try done); simplify_eq; try done.
    intros k row Hk. cbn [et_placements] in Hk. apply lookup_insert_Some in Hk as [[<- <-]|[_ Hk]]; [exact Hin|by apply H].
  - apply result_bind_Ok in Hc as (t1 & Hr & [= <- <-]). unfold pg_SaveExecution in Hr. case_decide; [done|]. binds Hr.
    repeat (case_match; try done); simplify_eq; try done.
    all: binds Hr; unfold insert_instance in *; repeat (case_match; try done); simplify_eq; by apply (asked_for_alter _ t).
  - apply result_bind_Ok in Hc as (t1 & Hr & [= <- <-]). unfold pg_UpdateExecutionState in Hr. repeat (case_match; try done); simplify_eq; try done.
    by apply (asked_for_alter _ t).
  - by apply result_bind_Ok in Hc as (x & _ & [= <- <-]).
  - by apply result_bind_Ok in Hc as (x & _ & [= <- <-]).
  - by apply result_bind_Ok in Hc as (x & _ & [= <- <-]).
  - by apply result_bind_Ok in Hc as (x & _ & [= <- <-]).
Qed.

Lemma perform_alike now c t s : conforms t s → conformant c →
  (∀ d o, reserved_operation c = Some (d, o) → ∀ row, et_placements t !! (d, placement_id d o) = Some row → pl_operation_id row = o) →
  alike (pg_perform now c t) (mem_perform c s).
Proof.
  intros C Hc Hid. destruct c as [[r|d i st|r|r|d i st]|d i|d i|d i|d o].
  - by apply register_alike.
  - by apply set_state_alike.
  - apply reserve_alike; [done|done|]. exact (Hid _ _ eq_refl).
  - by apply save_alike.
  - by apply update_alike.
  - by apply read_gateway_alike.
  - by apply read_placement_alike.
  - by apply read_execution_alike.
  - by apply read_by_operation_alike.
Qed.

Lemma conforms_empty : conforms empty_tables NewMemoryStateStore.
Proof.
  split; cbn; try (intros ? ? H; by rewrite lookup_empty in H); try (split; intros ? ?; by rewrite ?lookup_empty).
  intros ? ? ? ? H. by rewrite lookup_empty in H.
Qed.

Definition durable_answers : list (Z * store_call) → execution_tables → list (result answer) := answers_of (λ tc, pg_perform tc.1 tc.2).
Definition memory_answers : list (Z * store_call) → MemoryStateStore → list (result answer) := answers_of (λ tc, mem_perform tc.2).

Lemma run_alike all calls t s :
  conforms t s → asked_for (reserved_operation <$> all) t → distinct_ids all → calls.*2 ⊆ all → Forall conformant calls.*2 →
  Forall stored (durable_answers calls t) → memory_answers calls s = durable_answers calls t.
Proof.
  unfold durable_answers, memory_answers. revert t s.
  induction calls as [|[now c] calls IH]; intros t s C A D Hall Hc Hs; [done|]. cbn in Hall, Hc, Hs |- *. apply Forall_cons in Hc as [Hc Hcs].
  assert (reserved_operation c ∈ reserved_operation <$> all) as Hin by (apply list_elem_of_fmap; exists c; split; [done|]; apply Hall; left).
  assert (alike (pg_perform now c t) (mem_perform c s)) as Hal.
  { apply perform_alike; [done|done|]. intros d o Hr row Hrow. destruct (cf_placed _ _ C _ _ Hrow) as [Hi _].
    symmetry. apply (D d); [by rewrite <- Hr|exact (A _ _ Hrow)|exact Hi]. }
  destruct (pg_perform now c t) as [[t' a]|e] eqn:Ep, (mem_perform c s) as [[s' b]|e']; cbn in Hal; try done; apply Forall_cons in Hs as [Hs0 Hs].
  - destruct Hal as [<- C']. f_equal. apply IH; try done; [by eapply asked_for_step|]. set_solver.
  - exfalso. cbn in Hs0. congruence.
  - cbn in Hs0. destruct Hal as [Hal|<-]; [congruence|]. f_equal. apply IH; try done. set_solver.
Qed.

(** ** Examples *)

Module Examples.
Definition dom := "iso_00000000000000000000".
Definition gw1 := "gtw_00000000000000000001".
Definition gw2 := "gtw_00000000000000000002".
Definition op1 := "op_00000000000000000001".
Definition op2 := "op_00000000000000000002".
Definition exe1 := "exe_00000000000000000001".
Definition exe2 := "exe_00000000000000000002".

Definition register (id endpoint : string) (caps : list string) : store_call :=
  Change (CallRegister (GatewayReg dom id endpoint "openshell" caps)).
Definition reserve (op : string) (caps : list string) : store_call := Change (CallReserve (PlacementReq dom op caps)).
Definition save (id op gw state : string) : store_call :=
  Change (CallSave (ExecutionRec (MkExecution dom id gw state) (placement_id dom op) op ("sandbox-" +:+ id))).
Definition update (id state : string) : store_call := Change (CallUpdate dom id state).
Definition at_once (calls : list store_call) : list (Z * store_call) := (λ c, (0%Z, c)) <$> calls.

Definition run : list (Z * store_call) := at_once
  [register gw2 "https://b" ["exec"; "logs"]; register gw1 "https://a" ["exec"]; reserve op1 ["exec"]; reserve op2 ["exec"];
   reserve op2 ["logs"]; save exe1 op1 gw1 "ready"; ReadByOperation dom op1; update exe1 "terminated"; update exe1 "ready";
   ReadExecution dom exe1; ReadPlacement dom (placement_id dom op2); ReadGateway dom gw2; reserve op1 ["exec"]].

Definition durable (calls : list store_call) : list (result answer) := durable_answers (at_once calls) empty_tables.
Definition memory (calls : list store_call) : list (result answer) := memory_answers (at_once calls) NewMemoryStateStore.
End Examples.
Import Examples.

(** One run for every kind of divergence, with no other call of such a kind. *)
Definition two_gateways (calls : list store_call) : list store_call :=
  [register gw1 "https://a" ["exec"]; register gw2 "https://b" ["exec"]; reserve op1 ["exec"]] ++ calls.
Definition placed_at (gw : string) : result answer := Ok (APlacement (MkPlacement dom (placement_id dom op2) gw)).
Lemma placed_at_inj gw gw' : placed_at gw = placed_at gw' → gw = gw'.
Proof. unfold placed_at. generalize (placement_id dom op2). by intros id [= ->]. Qed.

Definition diverging_run (v : divergence) : list store_call := two_gateways
  match v with
  | LosesGateway => [Change (CallSetState dom gw1 GatewayLost); Change (CallSetState dom gw1 GatewayActive); reserve op2 ["exec"]]
  | SavesEnded => [save exe1 op1 gw1 "terminated"; reserve op2 ["exec"]]
  | UnknownState => [save exe1 op1 gw1 "ready"; update exe1 "paused"]
  | RequiresNothing => [reserve op2 []]
  end.

Lemma diverging_answers v : (last (durable (diverging_run v)), last (memory (diverging_run v))) =
  match v with
  | LosesGateway | SavesEnded => (Some (placed_at gw1), Some (placed_at gw2))
  | UnknownState => (Some (Err (ENew "invalid execution state")), Some (Ok ADone))
  | RequiresNothing => (Some (Err ErrNoGateway), Some (placed_at gw2))
  end.
Proof. destruct v; vm_compute; reflexivity. Qed.

Lemma diverging_differs v : memory (diverging_run v) ≠ durable (diverging_run v).
Proof.
  intros E. pose proof (diverging_answers v) as H. rewrite E in H. clear E. revert H.
  generalize (last (durable (diverging_run v))) as x.
  assert (∀ (x : option (result answer)) a b, (x, x) = (Some a, Some b) → a = b) as Same by congruence.
  destruct v; intros x Hx; apply Same in Hx; [apply placed_at_inj in Hx|apply placed_at_inj in Hx|..]; discriminate Hx.
Qed.

Lemma diverging_fair v :
  Forall stored (durable (diverging_run v)) ∧ Forall (λ c, ∀ v', diverges v' c → v' = v) (diverging_run v)
  ∧ distinct_ids (diverging_run v).
Proof.
  split_and!.
  - destruct v; vm_compute; repeat constructor.
  - destruct v; repeat constructor; intros []; cbn; first [done|by intros [=]|by intros ?].
  - intros d o o' Ho Ho' E.
    assert (∀ x, Some (d, x) ∈ reserved_operation <$> diverging_run v → d = dom ∧ (x = op1 ∨ x = op2)) as H.
    { intros x Hx. destruct v; cbn in Hx;
        repeat (apply elem_of_cons in Hx as [Hx|Hx]; [first [discriminate Hx|injection Hx; auto]|]); by apply elem_of_nil in Hx. }
    destruct (H _ Ho) as [-> [->| ->]], (H _ Ho') as [_ [->| ->]]; try reflexivity; vm_compute in E; discriminate E.
Qed.

(** C21: Run any sequence of calls on the durable execution store and on the process-local
    one, both starting empty.  When no call is of one of the four kinds on which the
    stores part, no two operations named in the run derive the same placement
    identifier, and the database accepted the statements of the durable store, the
    process-local store gives exactly the same answers, errors included: the same
    gateways are chosen for the same operations and every reading finds the same
    records.  None of the four exclusions could be left out: for each kind there is a
    run under the same conditions, with calls of this kind only, on which the answers
    differ. *)
Theorem memory_store_conforms :
  (∀ calls, Forall (λ c, ∀ v, ¬ diverges v c) calls.*2 → distinct_ids calls.*2 → Forall stored (durable_answers calls empty_tables) →
     memory_answers calls NewMemoryStateStore = durable_answers calls empty_tables)
  ∧ (∀ v, ∃ calls, Forall (λ c, ∀ v', diverges v' c → v' = v) calls.*2 ∧ distinct_ids calls.*2
     ∧ Forall stored (durable_answers calls empty_tables)
     ∧ memory_answers calls NewMemoryStateStore ≠ durable_answers calls empty_tables).
Proof.
  split.
  - intros calls Hc Hd Hs. apply (run_alike calls.*2); [apply conforms_empty|done|done|done| |done].
    eapply Forall_impl; [exact Hc|]. apply conformant_spec.
  - intros v. destruct (diverging_fair v) as (Hs & Hv & Hd). exists (at_once (diverging_run v)).
    assert ((at_once (diverging_run v)).*2 = diverging_run v) as -> by by destruct v. split_and!; [done|done|done|].
    apply diverging_differs.
Qed.

Lemma memory_store_conforms_witness : memory_answers run NewMemoryStateStore = durable_answers run empty_tables.
Proof.
  apply (proj1 memory_store_conforms run).
  - repeat constructor; intros []; cbn; first [done|by intros [=]|by intros ?].
  - intros d o o' Ho Ho' E.
    assert (∀ x, Some (d, x) ∈ reserved_operation <$> run.*2 → d = dom ∧ (x = op1 ∨ x = op2)) as H.
    { intros x Hx. cbn in Hx. repeat (apply elem_of_cons in Hx as [Hx|Hx]; [first [discriminate Hx|injection Hx; auto]|]). by apply elem_of_nil in Hx. }
    destruct (H _ Ho) as [-> [->| ->]], (H _ Ho') as [_ [->| ->]]; try reflexivity; vm_compute in E; discriminate E.
  - vm_compute. repeat constructor.
Defined.

(** The durable store cannot hold a gateway without capabilities, nor place an operation
    that requires none: normalizing an empty list gives nil, which the database driver
    sends as [NULL].  Registering such a gateway always fails as a persistence error,
    and such a placement is refused for want of a gateway whatever gateways are active,
    unless the operation was placed before. *)
Theorem no_capabilities_refused now t r q :
  gr_Capabilities r = [] → pr_RequiredCapabilities q = [] →
  (gr_IsolationDomainID r ≠ "" ∧ gr_ID r ≠ "" ∧ gr_Driver r ≠ "" ∧ gr_Endpoint r ≠ "" →
     pg_RegisterGateway now r t = failed "register gateway")
  ∧ (sql_texts [pr_IsolationDomainID q; pr_OperationID q] = true → pr_IsolationDomainID q ≠ "" → pr_OperationID q ≠ "" →
     getPlacementByOperation (pr_IsolationDomainID q) (pr_OperationID q) t = None →
     pg_ReservePlacement now q t = Err ErrNoGateway).
Proof.
  intros Hr Hq. split.
  - intros (H1 & H2 & H3 & H4). unfold pg_RegisterGateway. rewrite decide_False by tauto. by rewrite Hr.
  - intros Ht Hd Ho Hn. unfold pg_ReservePlacement. rewrite decide_False by tauto. rewrite Hq, Ht. cbn [mbind result_bind negb].
    change (NormalizeCapabilities []) with (@Ok (list string) []). cbn [mbind result_bind]. rewrite Hn. cbn [sql_texts forallb negb].
    unfold select_gateway. cbn [sql_array]. destruct (filter _ _) as [|kv l] eqn:E; [done|]. exfalso.
    assert (kv ∈ kv :: l) as Hin by left. rewrite <- E in Hin. apply list_elem_of_filter in Hin as [H _]. unfold eligible_gateway in H.
    by rewrite andb_false_r in H.
Qed.

Lemma no_capabilities_refused_witness :
  let t := ExecutionTables {[ (dom, gw1) := GatewayRow "openshell" "https://a" "active" ["exec"] 1 0 0 ]} ∅ ∅ in
  pg_RegisterGateway 0 (GatewayReg dom gw2 "https://b" "openshell" []) t = failed "register gateway"
  ∧ pg_ReservePlacement 0 (PlacementReq dom op1 []) t = Err ErrNoGateway.
Proof.
  cbv zeta. set (t := ExecutionTables _ _ _).
  destruct (no_capabilities_refused 0 t (GatewayReg dom gw2 "https://b" "openshell" []) (PlacementReq dom op1 []) eq_refl eq_refl) as [Hr Hp].
  split; [apply Hr; repeat split; discriminate|apply Hp; [vm_compute; reflexivity|discriminate|discriminate|vm_compute; reflexivity]].
Defined.
