(* ===== verification/Drivers.v ===== *)
(** * Effect drivers of governed invocations

    [internal/reconcile/routed_driver.go], [governed_invocation_driver.go],
    [invocation_admission_driver.go], [invocation_cancellation_driver.go], the
    admission and cancellation parts of [invocation_authorizer.go], and the two
    target queries of [internal/persistence] ([admission_target.go],
    [cancellation_target.go]).  The drivers sit behind the reconciler's
    [EffectDriver] interface: starting an invocation admits an execution,
    cancelling it terminates the execution. *)
From S2P Require Import Prelude.
From S2P Require Import CallLog.
From S2P Require Import GoStrings.
From S2P Require Import Sha256.
From S2P Require Import GoJson.
From S2P Require Import Lifecycle.
From S2P Require Import Domain.
From S2P Require Import Database.
From S2P Require Import OperationStore.
From S2P Require Import Reconciler.
From S2P Require Import GatewayStore.
From S2P Require Import ExecutionPlan.
From S2P Require Import Enforcement.
From S2P Require Import Admission.

(** ** Routing *)

(** [EffectRoute]: operation kind and phase. *)
Definition EffectRoute : Type := string * string.

Definition ErrEffectClaimRequired : error := ESentinel "reconcile.ErrEffectClaimRequired".
Definition ErrEffectClaimMismatch : error := ESentinel "reconcile.ErrEffectClaimMismatch".
Definition ErrGovernedInvocationDriversIncomplete : error :=
  ESentinel "reconcile.ErrGovernedInvocationDriversIncomplete".

(** Values of the interfaces [EffectDriver] and [ClaimedEffectDriver]. *)
Record effect_driver (W : Type) := MkEffectDriver {
  drv_Observe : EffectRecord → io W (result (option json * bool));
  drv_Apply : EffectRecord → io W (result (option json)) }.
Record claimed_effect_driver (W : Type) := MkClaimedEffectDriver {
  drv_ObserveClaimed : OperationClaim → EffectRecord → io W (result (option json * bool));
  drv_ApplyClaimed : OperationClaim → EffectRecord → io W (result (option json)) }.
Arguments MkEffectDriver {W}.
Arguments drv_Observe {W}.
Arguments drv_Apply {W}.
Arguments MkClaimedEffectDriver {W}.
Arguments drv_ObserveClaimed {W}.
Arguments drv_ApplyClaimed {W}.

Record RoutedDriver (W : Type) := MkRoutedDriver {
  rd_fallback : effect_driver W;
  rd_routes : gmap EffectRoute (effect_driver W);
  rd_claimedRoutes : gmap EffectRoute (claimed_effect_driver W) }.
Arguments MkRoutedDriver {W}.
Arguments rd_fallback {W}.
Arguments rd_routes {W}.
Arguments rd_claimedRoutes {W}.

Definition effectRoute (effect : EffectRecord) : EffectRoute := (e_OperationKind effect, e_Phase effect).

Definition effectMatchesClaim (effect : EffectRecord) (claim : OperationClaim) : bool :=
  bool_decide (e_IsolationDomainID effect ≠ "" ∧ e_OperationKind effect ≠ "" ∧ e_OperationID effect ≠ ""
    ∧ c_IsolationDomainID claim = e_IsolationDomainID effect
    ∧ c_Kind claim = e_OperationKind effect
    ∧ c_ID claim = e_OperationID effect
    ∧ c_Command claim ≠ "" ∧ c_ObservedState claim ≠ "" ∧ c_LeaseOwner claim ≠ ""
    ∧ (0 < c_FencingToken claim)%Z).

Section routing.
Context {W : Type}.

(** A map value [None] is a nil driver. *)
Definition route_incomplete {D} (route : EffectRoute) (driver : option D) : bool :=
  bool_decide (route.1 = "" ∨ route.2 = "") || match driver with None => true | Some _ => false end.

(** When a claimed route is incomplete and another one overlaps, which of the two
    errors is reported depends on Go's map order; this reports the first. *)
Definition newRoutedDriver (fallback : option (effect_driver W))
    (routes : gmap EffectRoute (option (effect_driver W)))
    (claimedRoutes : gmap EffectRoute (option (claimed_effect_driver W))) : result (RoutedDriver W) :=
  match fallback with
  | None => Err (ENew "fallback effect driver is required")
  | Some fallback =>
      if existsb (λ r, route_incomplete r.1 r.2) (map_to_list routes)
      then Err (ENew "complete effect routes are required")
      else if existsb (λ r, route_incomplete r.1 r.2) (map_to_list claimedRoutes)
      then Err (ENew "complete claimed effect routes are required")
      else if existsb (λ r, match routes !! r.1 with Some _ => true | None => false end)
                      (map_to_list claimedRoutes)
      then Err (ENew "effect route cannot be both ordinary and claim-bound")
      else Ok (MkRoutedDriver fallback (omap id routes) (omap id claimedRoutes))
  end.

Definition NewRoutedDriver fallback routes := newRoutedDriver fallback routes ∅.
Definition NewClaimedRoutedDriver fallback routes claimedRoutes :=
  newRoutedDriver fallback routes claimedRoutes.

Definition forEffect (driver : RoutedDriver W) (effect : EffectRecord) : effect_driver W :=
  match rd_routes driver !! effectRoute effect with
  | Some selected => selected
  | None => rd_fallback driver
  end.

Definition claimedForEffect (driver : RoutedDriver W) (effect : EffectRecord)
  : option (claimed_effect_driver W) := rd_claimedRoutes driver !! effectRoute effect.

Definition routed_Observe (driver : RoutedDriver W) (effect : EffectRecord)
  : io W (result (option json * bool)) :=
  match claimedForEffect driver effect with
  | Some _ => mret (Err ErrEffectClaimRequired)
  | None => drv_Observe (forEffect driver effect) effect
  end.

Definition routed_Apply (driver : RoutedDriver W) (effect : EffectRecord) : io W (result (option json)) :=
  match claimedForEffect driver effect with
  | Some _ => mret (Err ErrEffectClaimRequired)
  | None => drv_Apply (forEffect driver effect) effect
  end.

Definition routed_ObserveClaimed (driver : RoutedDriver W) (claim : OperationClaim) (effect : EffectRecord)
  : io W (result (option json * bool)) :=
  match claimedForEffect driver effect with
  | Some selected =>
      if effectMatchesClaim effect claim then drv_ObserveClaimed selected claim effect
      else mret (Err ErrEffectClaimMismatch)
  | None => drv_Observe (forEffect driver effect) effect
  end.

Definition routed_ApplyClaimed (driver : RoutedDriver W) (claim : OperationClaim) (effect : EffectRecord)
  : io W (result (option json)) :=
  match claimedForEffect driver effect with
  | Some selected =>
      if effectMatchesClaim effect claim then drv_ApplyClaimed selected claim effect
      else mret (Err ErrEffectClaimMismatch)
  | None => drv_Apply (forEffect driver effect) effect
  end.

(** What the reconciler sees of a routed driver. *)
Definition routed_effect_driver (driver : RoutedDriver W) : EffectDriver W := {|
  Observe := routed_Observe driver;
  Apply := routed_Apply driver;
  ClaimedDriver := Some (routed_ObserveClaimed driver, routed_ApplyClaimed driver);
  PublishClaimed := None;
  PublishAuthorizedClaimed := None |}.

(** [NewGovernedInvocationDriver]; the runtime driver is a parameter. *)
Definition NewGovernedInvocationDriver (fallback admission : option (effect_driver W))
    (runtime : option (claimed_effect_driver W)) (cancellation : option (effect_driver W))
  : result (RoutedDriver W) :=
  match fallback, admission, runtime, cancellation with
  | Some _, Some _, Some _, Some _ =>
      NewClaimedRoutedDriver fallback
        (<[(OperationKindInvocation, "start-invocation") := admission]>
           (<[(OperationKindInvocation, "cancel-invocation") := cancellation]> ∅))
        (<[(OperationKindInvocation, "run-invocation") := runtime]> ∅)
  | _, _, _, _ => Err ErrGovernedInvocationDriversIncomplete
  end.
End routing.

(** ** Targets *)

Definition ErrInvocationAdmissionTargetMissing : error :=
  ESentinel "persistence.ErrInvocationAdmissionTargetMissing".
Definition ErrInvocationCancellationTargetMissing : error :=
  ESentinel "persistence.ErrInvocationCancellationTargetMissing".

Record InvocationAdmissionTarget := MkAdmissionTarget {
  at_IsolationDomainID : string; at_OperationID : string; at_InvocationID : string;
  at_ServiceID : string; at_RevisionID : string; at_ActorID : string; at_CorrelationID : string;
  at_StateMachineVersion : Z }.

Record InvocationCancellationTarget := MkCancellationTarget {
  ct_IsolationDomainID : string; ct_OperationID : string; ct_InvocationID : string;
  ct_ServiceID : string; ct_RevisionID : string; ct_ActorID : string; ct_CorrelationID : string;
  ct_StateMachineVersion : Z; ct_AdmissionPrepared : bool; ct_WorkspaceSourceSelected : bool }.

Definition GetInvocationAdmissionTarget (isolationDomainID operationID : string) (d : db)
  : result InvocationAdmissionTarget :=
  match db_invocation_ops d !! (isolationDomainID, operationID) with
  | None => Err ErrInvocationAdmissionTargetMissing
  | Some op =>
      match db_invocations d !! (isolationDomainID, op_resource_id op) with
      | None => Err ErrInvocationAdmissionTargetMissing
      | Some inv =>
          if decide (op_command op = "invoke"
                     ∨ (op_command op = "repair" ∧ op_effect_actor_id op ≠ None
                        ∧ op_effect_correlation_id op ≠ None)) then
            Ok (MkAdmissionTarget isolationDomainID operationID (op_resource_id op)
                  (inv_service_id inv) (inv_revision_id inv)
                  (default (op_actor_id op) (op_effect_actor_id op))
                  (default (op_correlation_id op) (op_effect_correlation_id op))
                  (op_state_machine_version op))
          else Err ErrInvocationAdmissionTargetMissing
      end
  end.

(** [EXISTS (SELECT 1 FROM external_effects ...)] for the start phase. *)
Definition admission_prepared (isolationDomainID operationID : string) (d : db) : bool :=
  existsb (λ kv, bool_decide (kv.1.1 = isolationDomainID
                              ∧ eff_operation_kind kv.2 = OperationKindInvocation
                              ∧ eff_operation_id kv.2 = operationID
                              ∧ eff_phase kv.2 = "start-invocation")) (map_to_list (db_effects d)).

(** [plans] is the table of bound execution plans by domain and revision. *)
Definition GetInvocationCancellationTarget (plans : gmap key ExecutionPlan)
    (isolationDomainID operationID : string) (d : db) : result InvocationCancellationTarget :=
  match db_invocation_ops d !! (isolationDomainID, operationID) with
  | None => Err ErrInvocationCancellationTargetMissing
  | Some op =>
      match db_invocations d !! (isolationDomainID, op_resource_id op), op_effect_actor_id op,
            op_effect_correlation_id op with
      | Some inv, Some actor, Some correlation =>
          if decide (op_command op = "cancel") then
            Ok (MkCancellationTarget isolationDomainID operationID (op_resource_id op)
                  (inv_service_id inv) (inv_revision_id inv) actor correlation
                  (op_state_machine_version op)
                  (admission_prepared isolationDomainID operationID d)
                  (match plans !! (isolationDomainID, inv_revision_id inv) with
                   | Some plan => negb (bool_decide (pl_WorkspaceSource plan = None))
                   | None => false
                   end))
          else Err ErrInvocationCancellationTargetMissing
      | _, _, _ => Err ErrInvocationCancellationTargetMissing
      end
  end.

(** ** Authorisation of effects

    [InvocationAuthorizer] for the admission and cancellation phases; the policy
    decision is a Go interface. *)

Definition ErrInvocationAuthorizationDenied : error := ESentinel "reconcile.ErrInvocationAuthorizationDenied".
Definition ErrInvocationAuthorizationInvalid : error := ESentinel "reconcile.ErrInvocationAuthorizationInvalid".
Definition ErrInvocationAdmissionDenied : error := ESentinel "reconcile.ErrInvocationAdmissionDenied".
Definition ErrInvocationCancellationDenied : error := ESentinel "reconcile.ErrInvocationCancellationDenied".

Definition InvocationAuthorizationAdmit := "admit".
Definition InvocationAuthorizationCancel := "cancel".

(** The request without the parts admission and cancellation leave nil. *)
Record InvocationAuthorizationRequest := MkAuthorizationRequest {
  iar_Action : string; iar_IsolationDomainID : string; iar_OperationID : string;
  iar_InvocationID : string; iar_ServiceID : string; iar_RevisionID : string;
  iar_ActorID : string; iar_CorrelationID : string }.

Definition authorization_request_complete (request : InvocationAuthorizationRequest) : bool :=
  bool_decide (iar_IsolationDomainID request ≠ "" ∧ iar_OperationID request ≠ ""
    ∧ iar_InvocationID request ≠ "" ∧ iar_ServiceID request ≠ "" ∧ iar_RevisionID request ≠ ""
    ∧ iar_ActorID request ≠ "" ∧ iar_CorrelationID request ≠ "").

Section authorizer.
Context {W : Type} (decision : InvocationAuthorizationRequest → io W (result unit)).

Definition authorize (request : InvocationAuthorizationRequest) (phaseDenied : error) : io W (result unit) :=
  if authorization_request_complete request then
    decided ← decision request;
    match decided with
    | Ok _ => mret (Ok tt)
    | Err err =>
        if is_err err ErrInvocationAuthorizationDenied then mret (Err (EJoin phaseDenied err))
        else mret (Err err)
    end
  else mret (Err ErrInvocationAuthorizationInvalid).

Definition AuthorizeInvocationAdmission (target : InvocationAdmissionTarget) : io W (result unit) :=
  authorize (MkAuthorizationRequest InvocationAuthorizationAdmit (at_IsolationDomainID target)
               (at_OperationID target) (at_InvocationID target) (at_ServiceID target) (at_RevisionID target)
               (at_ActorID target) (at_CorrelationID target)) ErrInvocationAdmissionDenied.

Definition AuthorizeInvocationCancellation (target : InvocationCancellationTarget) : io W (result unit) :=
  authorize (MkAuthorizationRequest InvocationAuthorizationCancel (ct_IsolationDomainID target)
               (ct_OperationID target) (ct_InvocationID target) (ct_ServiceID target) (ct_RevisionID target)
               (ct_ActorID target) (ct_CorrelationID target)) ErrInvocationCancellationDenied.
End authorizer.

(** ** The admission driver *)

Definition ErrInvocationAdmissionTargetMismatch : error :=
  ESentinel "reconcile.ErrInvocationAdmissionTargetMismatch".

Record InvocationAdmissionDriver (W : Type) := MkAdmissionDriver {
  ad_targets : string → string → io W (result InvocationAdmissionTarget);
  ad_authorizer : InvocationAdmissionTarget → io W (result unit);
  ad_admission : AdmissionRequest → io W (result Execution);
  ad_executions : string → string → io W (result Execution) }.
Arguments MkAdmissionDriver {W}.
Arguments ad_targets {W}.
Arguments ad_authorizer {W}.
Arguments ad_admission {W}.
Arguments ad_executions {W}.

Definition invalidInvocationAdmission (cause : error) : bool :=
  is_err cause ErrExecutionPlanRevisionMismatch || is_err cause ErrEnforcementBundleMismatch
  || is_err cause ErrPolicyInvalid || is_err cause ErrStateConflict.

Definition invocationAdmissionObservation (value : Execution) : json :=
  json_map [("executionId", JStr (x_ID value)); ("state", JStr (x_State value))].

Definition admission_effect_valid (effect : EffectRecord) : bool :=
  bool_decide (e_OperationKind effect = OperationKindInvocation ∧ e_Phase effect = "start-invocation"
    ∧ e_IsolationDomainID effect ≠ "" ∧ e_OperationID effect ≠ "").

Definition admission_target_matches (effect : EffectRecord) (target : InvocationAdmissionTarget) : bool :=
  bool_decide (at_IsolationDomainID target = e_IsolationDomainID effect
    ∧ at_OperationID target = e_OperationID effect
    ∧ at_InvocationID target ≠ "" ∧ at_ServiceID target ≠ "" ∧ at_RevisionID target ≠ ""
    ∧ at_ActorID target ≠ "" ∧ at_CorrelationID target ≠ ""
    ∧ at_StateMachineVersion target = Invocation.StateMachineVersion).

(** The check both drivers make on an execution they were handed. *)
Definition execution_in_scope (isolationDomainID : string) (value : Execution) : bool :=
  bool_decide (x_IsolationDomainID value = isolationDomainID ∧ x_ID value ≠ "" ∧ x_State value ≠ "").

Definition admission_request (target : InvocationAdmissionTarget) : AdmissionRequest :=
  MkAdmissionRequest (at_IsolationDomainID target) (at_RevisionID target) (at_OperationID target)
    (at_ActorID target) (at_CorrelationID target).

Section admission_driver.
Context {W : Type} (driver : InvocationAdmissionDriver W).

Definition admission_target (effect : EffectRecord) : io W (result InvocationAdmissionTarget) :=
  if admission_effect_valid effect then
    found ← ad_targets driver (e_IsolationDomainID effect) (e_OperationID effect);
    match found with
    | Err err =>
        if is_err err ErrInvocationAdmissionTargetMissing then mret (Err (EJoin ErrEffectInvalid err))
        else mret (Err err)
    | Ok target =>
        if admission_target_matches effect target then mret (Ok target)
        else mret (Err (EJoin ErrEffectInvalid ErrInvocationAdmissionTargetMismatch))
    end
  else mret (Err (EJoin ErrEffectInvalid ErrInvocationAdmissionTargetMismatch)).

Definition admission_Observe (effect : EffectRecord) : io W (result (option json * bool)) :=
  resolved ← admission_target effect;
  match resolved with
  | Err err => mret (Err err)
  | Ok target =>
      found ← ad_executions driver (at_IsolationDomainID target) (at_OperationID target);
      match found with
      | Err err => if is_err err ErrExecutionMissing then mret (Ok (None, false)) else mret (Err err)
      | Ok value =>
          if execution_in_scope (at_IsolationDomainID target) value
          then mret (Ok (Some (invocationAdmissionObservation value), true))
          else mret (Err (EJoin ErrAmbiguousEffect ErrInvocationAdmissionTargetMismatch))
      end
  end.

Definition admission_Apply (effect : EffectRecord) : io W (result (option json)) :=
  resolved ← admission_target effect;
  match resolved with
  | Err err => mret (Err err)
  | Ok target =>
      allowed ← ad_authorizer driver target;
      match allowed with
      | Err err =>
          if is_err err ErrInvocationAdmissionDenied then mret (Err (EJoin ErrEffectDenied err))
          else mret (Err err)
      | Ok _ =>
          admitted ← ad_admission driver (admission_request target);
          match admitted with
          | Err err =>
              if is_err err ErrProviderCredentialUseDenied then mret (Err (EJoin ErrEffectDenied err))
              else if invalidInvocationAdmission err then mret (Err (EJoin ErrEffectInvalid err))
              else mret (Err err)
          | Ok value =>
              if execution_in_scope (at_IsolationDomainID target) value
              then mret (Ok (Some (invocationAdmissionObservation value)))
              else mret (Err (EJoin ErrAmbiguousEffect ErrInvocationAdmissionTargetMismatch))
          end
      end
  end.

Definition admission_effect_driver : effect_driver W := MkEffectDriver admission_Observe admission_Apply.
End admission_driver.

(** ** The cancellation driver *)

Definition ErrInvocationCancellationTargetMismatch : error :=
  ESentinel "reconcile.ErrInvocationCancellationTargetMismatch".
Definition ErrInvocationCancellationExecutionUnknown : error :=
  ESentinel "reconcile.ErrInvocationCancellationExecutionUnknown".

Record ExecutionRef := MkExecutionRef { ref_IsolationDomainID : string; ref_ID : string }.
(** [Observation] without its time, which is not read here. *)
Record Observation := MkObservation {
  ob_IsolationDomainID : string; ob_ExecutionID : string; ob_State : string }.

Record InvocationCancellationDriver (W : Type) := MkCancellationDriver {
  cd_targets : string → string → io W (result InvocationCancellationTarget);
  cd_authorizer : InvocationCancellationTarget → io W (result unit);
  cd_executions : string → string → io W (result Execution);
  cd_Observe : ExecutionRef → io W (result Observation);
  cd_Terminate : ExecutionRef → io W (result unit) }.
Arguments MkCancellationDriver {W}.
Arguments cd_targets {W}.
Arguments cd_authorizer {W}.
Arguments cd_executions {W}.
Arguments cd_Observe {W}.
Arguments cd_Terminate {W}.

Definition invocationCancellationObservation (executionID state : string) : json :=
  json_map [("executionId", JStr executionID); ("state", JStr state)].
Definition invocationCancellationAbsentObservation : json := json_map [("state", JStr "absent")].

Definition cancellation_effect_valid (effect : EffectRecord) : bool :=
  bool_decide (e_OperationKind effect = OperationKindInvocation ∧ e_Phase effect = "cancel-invocation"
    ∧ e_IsolationDomainID effect ≠ "" ∧ e_OperationID effect ≠ "").

Definition cancellation_target_matches (effect : EffectRecord) (target : InvocationCancellationTarget) : bool :=
  bool_decide (ct_IsolationDomainID target = e_IsolationDomainID effect
    ∧ ct_OperationID target = e_OperationID effect
    ∧ ct_InvocationID target ≠ "" ∧ ct_ServiceID target ≠ "" ∧ ct_RevisionID target ≠ ""
    ∧ ct_ActorID target ≠ "" ∧ ct_CorrelationID target ≠ ""
    ∧ ct_StateMachineVersion target = Invocation.StateMachineVersion).

Definition retention_required : error := EJoin ErrAmbiguousEffect ErrInvocationCancellationRetentionRequired.

Section cancellation_driver.
Context {W : Type} (driver : InvocationCancellationDriver W).

Definition cancellation_target (effect : EffectRecord) : io W (result InvocationCancellationTarget) :=
  if cancellation_effect_valid effect then
    found ← cd_targets driver (e_IsolationDomainID effect) (e_OperationID effect);
    match found with
    | Err err =>
        if is_err err ErrInvocationCancellationTargetMissing then mret (Err (EJoin ErrEffectInvalid err))
        else mret (Err err)
    | Ok target =>
        if cancellation_target_matches effect target then mret (Ok target)
        else mret (Err (EJoin ErrEffectInvalid ErrInvocationCancellationTargetMismatch))
    end
  else mret (Err (EJoin ErrEffectInvalid ErrInvocationCancellationTargetMismatch)).

(** [execution]: [Ok None] is "not found". *)
Definition cancellation_execution (target : InvocationCancellationTarget) : io W (result (option Execution)) :=
  found ← cd_executions driver (ct_IsolationDomainID target) (ct_OperationID target);
  match found with
  | Err err =>
      if is_err err ErrExecutionMissing then
        if ct_AdmissionPrepared target
        then mret (Err (EJoin ErrAmbiguousEffect ErrInvocationCancellationExecutionUnknown))
        else mret (Ok None)
      else mret (Err err)
  | Ok value =>
      if execution_in_scope (ct_IsolationDomainID target) value then mret (Ok (Some value))
      else mret (Err (EJoin ErrAmbiguousEffect ErrInvocationCancellationTargetMismatch))
  end.

Definition execution_ref (target : InvocationCancellationTarget) (value : Execution) : ExecutionRef :=
  MkExecutionRef (ct_IsolationDomainID target) (x_ID value).

Definition cancellation_Observe (effect : EffectRecord) : io W (result (option json * bool)) :=
  resolved ← cancellation_target effect;
  match resolved with
  | Err err => mret (Err err)
  | Ok target =>
      found ← cancellation_execution target;
      match found with
      | Err err => mret (Err err)
      | Ok None => mret (Ok (Some invocationCancellationAbsentObservation, true))
      | Ok (Some value) =>
          if ct_WorkspaceSourceSelected target then mret (Err retention_required)
          else if decide (x_State value = "terminated")
          then mret (Ok (Some (invocationCancellationObservation (x_ID value) (x_State value)), true))
          else
          observed ← cd_Observe driver (execution_ref target value);
          match observed with
          | Err err => mret (Err err)
          | Ok observation =>
              if decide (ob_IsolationDomainID observation = ct_IsolationDomainID target
                         ∧ ob_ExecutionID observation = x_ID value ∧ ob_State observation ≠ "")
              then mret (Ok (Some (invocationCancellationObservation (ob_ExecutionID observation)
                                     (ob_State observation)),
                             bool_decide (ob_State observation = "terminated")))
              else mret (Err (EJoin ErrAmbiguousEffect ErrInvocationCancellationTargetMismatch))
          end
      end
  end.

Definition cancellation_Apply (effect : EffectRecord) : io W (result (option json)) :=
  resolved ← cancellation_target effect;
  match resolved with
  | Err err => mret (Err err)
  | Ok target =>
      found ← cancellation_execution target;
      match found with
      | Err err => mret (Err err)
      | Ok None => mret (Ok (Some invocationCancellationAbsentObservation))
      | Ok (Some value) =>
          if ct_WorkspaceSourceSelected target then mret (Err retention_required)
          else if decide (x_State value = "terminated")
          then mret (Ok (Some (invocationCancellationObservation (x_ID value) (x_State value))))
          else
          allowed ← cd_authorizer driver target;
          match allowed with
          | Err err =>
              if is_err err ErrInvocationCancellationDenied then mret (Err (EJoin ErrEffectDenied err))
              else mret (Err err)
          | Ok _ =>
              terminated ← cd_Terminate driver (execution_ref target value);
              match terminated with
              | Err err => mret (Err (EJoin ErrAmbiguousEffect err))
              | Ok _ => mret (Ok (Some (invocationCancellationObservation (x_ID value) "terminated")))
              end
          end
      end
  end.

Definition cancellation_effect_driver : effect_driver W :=
  MkEffectDriver cancellation_Observe cancellation_Apply.
End cancellation_driver.
