(* ===== verification/DriverProofs.v ===== *)
(** * What the governed drivers guarantee

    For every target store, authoriser, admission service, execution source and
    provider, whatever they answer: an execution is admitted or terminated only
    for a matching target and after authorisation, and success is reported only
    with evidence.  The last theorem joins the cancellation driver to the durable
    store: a prepared start is never forgotten. *)
From S2P Require Import Prelude.
From S2P Require Import CallLog.
From S2P Require Import GoStrings.
From S2P Require Import GoJson.
From S2P Require Import Lifecycle.
From S2P Require Import Domain.
From S2P Require Import Database.
From S2P Require Import OperationStore.
From S2P Require Import StoreSteps.
From S2P Require Import StoreRefinement.
From S2P Require Import InteractionLogs.
From S2P Require Import Commands.
From S2P Require Import StoreExamples.
From S2P Require Import Reconciler.
From S2P Require Import GatewayStore.
From S2P Require Import ExecutionPlan.
From S2P Require Import Admission.
From S2P Require Import Drivers.

(** ** Starting *)

Inductive start_call :=
  | STarget (isolationDomainID operationID : string) (answer : result InvocationAdmissionTarget)
  | SAuthorize (target : InvocationAdmissionTarget) (answer : result unit)
  | SAdmit (request : AdmissionRequest) (answer : result Execution)
  | SExecution (isolationDomainID operationID : string) (answer : result Execution).

Section start.
Context {W : Type} (driver : InvocationAdmissionDriver W) (effect : EffectRecord).

Definition logged_start : InvocationAdmissionDriver (W * list start_call) :=
  MkAdmissionDriver
    (λ iso op, logging (STarget iso op) (ad_targets driver iso op))
    (λ target, logging (SAuthorize target) (ad_authorizer driver target))
    (λ request, logging (SAdmit request) (ad_admission driver request))
    (λ iso op, logging (SExecution iso op) (ad_executions driver iso op)).

Definition start_target (answer : result InvocationAdmissionTarget) : start_call :=
  STarget (e_IsolationDomainID effect) (e_OperationID effect) answer.

Lemma traced_admission_target :
  traced (admission_target logged_start effect) (λ t r,
    match r with
    | Ok target => t = [start_target (Ok target)] ∧ admission_target_matches effect target = true
    | Err _ => t = [] ∨ ∃ answer, t = [start_target answer]
    end).
Proof.
  unfold admission_target. destruct (admission_effect_valid effect); [|apply traced_ret; by left].
  apply traced_logging_bind. intros [target|err].
  - destruct (admission_target_matches effect target) eqn:Hm; apply traced_ret; [by split|right; by eexists].
  - destruct (is_err _ _); apply traced_ret; right; by eexists.
Qed.

(** The runs of [Apply]: it stops at the target, at a refused authorisation, or
    after one admission. *)
Definition start_run (t : list start_call) (r : result (option json)) : Prop :=
  (is_ok r = false ∧ (t = [] ∨ ∃ answer, t = [start_target answer]))
  ∨ ∃ target, admission_target_matches effect target = true ∧
      ((∃ err, t = [start_target (Ok target); SAuthorize target (Err err)]
        ∧ r = Err (if is_err err ErrInvocationAdmissionDenied then EJoin ErrEffectDenied err else err))
       ∨ ∃ answer, t = [start_target (Ok target); SAuthorize target (Ok tt);
                        SAdmit (admission_request target) answer]
         ∧ ∀ observation, r = Ok observation → ∃ value, answer = Ok value
             ∧ execution_in_scope (e_IsolationDomainID effect) value = true
             ∧ observation = Some (invocationAdmissionObservation value)).

Lemma matches_domain target :
  admission_target_matches effect target = true → at_IsolationDomainID target = e_IsolationDomainID effect.
Proof. unfold admission_target_matches. rewrite bool_decide_eq_true. naive_solver. Qed.

Lemma traced_admission_Apply : traced (admission_Apply logged_start effect) start_run.
Proof.
  eapply traced_bind; [apply traced_admission_target|]. intros t [target|err] Ht.
  2:{ apply traced_ret. rewrite app_nil_r. by left. }
  destruct Ht as [-> Hm]. apply traced_logging_bind. intros [[]|err].
  2:{ destruct (is_err err ErrInvocationAdmissionDenied) eqn:Hd; apply traced_ret; right; exists target;
        (split; [done|]); left; exists err; by rewrite Hd. }
  apply traced_logging_bind. intros answer.
  apply (traced_mono _ (λ t r, t = [] ∧ ∀ observation, r = Ok observation → ∃ value, answer = Ok value
             ∧ execution_in_scope (e_IsolationDomainID effect) value = true
             ∧ observation = Some (invocationAdmissionObservation value))).
  - rewrite <- (matches_domain _ Hm). destruct answer as [value|err].
    + destruct (execution_in_scope _ value) eqn:Hs; apply traced_ret; (split; [done|]); [|done].
      intros o [= <-]. by exists value.
    + destruct (is_err _ _); [|destruct (invalidInvocationAdmission err)]; apply traced_ret; done.
  - intros t r [-> Hr]. right. exists target. split; [done|]. right. by exists answer.
Qed.

Lemma traced_admission_Observe :
  traced (admission_Observe logged_start effect) (λ t _,
    ∀ c, c ∈ t → match c with STarget _ _ _ | SExecution _ _ _ => True | _ => False end).
Proof.
  eapply traced_bind; [apply traced_admission_target|]. intros t [target|err] Ht.
  2:{ apply traced_ret. intros c. destruct Ht as [->|[answer ->]]; set_solver. }
  destruct Ht as [-> _]. apply traced_logging_bind. intros [value|err];
    [destruct (execution_in_scope _ value)|destruct (is_err _ _)]; apply traced_ret;
    intros c; rewrite !elem_of_app, !elem_of_cons, elem_of_nil; naive_solver.
Qed.

(** C28: for every collaborator, the start driver admits an execution only as its
    third and last call, after the durable target of exactly this effect was read
    and its admission authorised, and asks for exactly that target; it reports
    success only for an execution the admission returned, in the effect's scope;
    a denial makes the reconciler fail the operation as denied; and observing
    never authorises or admits anything. *)
Theorem admission_driver_governed (w : W) :
  (let '((_, t), r) := admission_Apply logged_start effect (w, []) in
   (∀ request answer, SAdmit request answer ∈ t → ∃ target,
      t = [STarget (e_IsolationDomainID effect) (e_OperationID effect) (Ok target);
           SAuthorize target (Ok tt); SAdmit request answer]
      ∧ admission_target_matches effect target = true ∧ request = admission_request target)
   ∧ (∀ observation, r = Ok observation → ∃ request value, SAdmit request (Ok value) ∈ t
      ∧ execution_in_scope (e_IsolationDomainID effect) value = true
      ∧ observation = Some (invocationAdmissionObservation value))
   ∧ (∀ target err, SAuthorize target (Err err) ∈ t → is_err err ErrInvocationAdmissionDenied = true →
      ∃ cause, r = Err cause
      ∧ effectRejection effect cause = Some (OperationFailureEffectDenied, "EXTERNAL_EFFECT_DENIED")))
  ∧ ∀ c, c ∈ (admission_Observe logged_start effect (w, [])).1.2 →
      match c with STarget _ _ _ | SExecution _ _ _ => True | _ => False end.
Proof.
  split.
  2:{ destruct (traced_admission_Observe w []) as (t & -> & Ht). exact Ht. }
  destruct (traced_admission_Apply w []) as (t' & Ht & HQ).
  destruct (admission_Apply logged_start effect (w, [])) as [[w' t] r].
  cbn [fst snd app] in Ht, HQ. subst t'.
  destruct HQ as [[Hr Ht]|(target & Hm & [(err & -> & ->)|(answer & -> & Hr)])].
  - destruct r; [done|]. split_and!; [|done|]; destruct Ht as [->|[answer ->]]; set_solver.
  - split_and!; [set_solver|by destruct (is_err _ _)|].
    intros target' err'. rewrite !elem_of_cons, elem_of_nil. intros [?|[[= -> ->]|?]] Hd; [done| |done].
    rewrite Hd. by eexists.
  - split_and!.
    + intros request answer'. rewrite !elem_of_cons, elem_of_nil.
      intros [?|[?|[[= -> ->]|?]]]; [done|done| |done]. by exists target.
    + intros o Ho. destruct (Hr o Ho) as (value & -> & Hs & ->). exists (admission_request target), value.
      split; [set_solver|done].
    + intros target' err'. rewrite !elem_of_cons, elem_of_nil. intros [?|[?|[?|?]]]; done.
Qed.
End start.

(** ** Cancelling *)

Inductive cancel_call :=
  | KTarget (isolationDomainID operationID : string) (answer : result InvocationCancellationTarget)
  | KExecution (isolationDomainID operationID : string) (answer : result Execution)
  | KAuthorize (target : InvocationCancellationTarget) (answer : result unit)
  | KObserve (ref : ExecutionRef) (answer : result Observation)
  | KTerminate (ref : ExecutionRef) (answer : result unit).

Definition cancel_reads (c : cancel_call) : bool :=
  match c with KTarget _ _ _ | KExecution _ _ _ | KObserve _ _ => true | _ => false end.

Section cancel.
Context {W : Type} (driver : InvocationCancellationDriver W) (effect : EffectRecord).

Definition logged_cancel : InvocationCancellationDriver (W * list cancel_call) :=
  MkCancellationDriver
    (λ iso op, logging (KTarget iso op) (cd_targets driver iso op))
    (λ target, logging (KAuthorize target) (cd_authorizer driver target))
    (λ iso op, logging (KExecution iso op) (cd_executions driver iso op))
    (λ ref, logging (KObserve ref) (cd_Observe driver ref))
    (λ ref, logging (KTerminate ref) (cd_Terminate driver ref)).

Definition cancel_target (answer : result InvocationCancellationTarget) : cancel_call :=
  KTarget (e_IsolationDomainID effect) (e_OperationID effect) answer.
Definition cancel_execution (answer : result Execution) : cancel_call :=
  KExecution (e_IsolationDomainID effect) (e_OperationID effect) answer.

Lemma traced_cancellation_target :
  traced (cancellation_target logged_cancel effect) (λ t r,
    match r with
    | Ok target => t = [cancel_target (Ok target)] ∧ cancellation_target_matches effect target = true
    | Err _ => Forall (λ c, cancel_reads c = true) t
    end).
Proof.
  unfold cancellation_target. destruct (cancellation_effect_valid effect); [|apply traced_ret; constructor].
  apply traced_logging_bind. intros [target|err].
  - destruct (cancellation_target_matches effect target) eqn:Hm; apply traced_ret; [done|by repeat constructor].
  - destruct (is_err _ _); apply traced_ret; by repeat constructor.
Qed.

Lemma cancel_matches_scope target :
  cancellation_target_matches effect target = true →
  ct_IsolationDomainID target = e_IsolationDomainID effect ∧ ct_OperationID target = e_OperationID effect.
Proof. unfold cancellation_target_matches. rewrite bool_decide_eq_true. naive_solver. Qed.

(** What the look-up of the execution establishes. *)
Lemma traced_cancellation_execution target :
  cancellation_target_matches effect target = true →
  traced (cancellation_execution logged_cancel target) (λ t r, ∃ answer, t = [cancel_execution answer] ∧
    match r with
    | Ok None => ct_AdmissionPrepared target = false
                 ∧ ∃ err, answer = Err err ∧ is_err err ErrExecutionMissing = true
    | Ok (Some value) => answer = Ok value ∧ execution_in_scope (e_IsolationDomainID effect) value = true
    | Err _ => True
    end).
Proof.
  intros [Hd Ho]%cancel_matches_scope. unfold cancellation_execution. rewrite Hd, Ho.
  apply traced_logging_bind. intros answer. destruct answer as [value|err].
  - destruct (execution_in_scope _ value) eqn:Hs; apply traced_ret; eexists; by split_and!.
  - destruct (is_err err ErrExecutionMissing) eqn:He; [destruct (ct_AdmissionPrepared target) eqn:Hp|];
      apply traced_ret; eexists; split; try done. split; [done|]. by exists err.
Qed.

(** Evidence that the execution of the effect's operation is gone. *)
Definition cancellation_proved (t : list cancel_call) (observation : option json) : Prop :=
  ∃ target, cancel_target (Ok target) ∈ t ∧ cancellation_target_matches effect target = true ∧
    ((ct_AdmissionPrepared target = false ∧ observation = Some invocationCancellationAbsentObservation
      ∧ ∃ err, cancel_execution (Err err) ∈ t ∧ is_err err ErrExecutionMissing = true)
     ∨ (ct_WorkspaceSourceSelected target = false ∧ ∃ value, cancel_execution (Ok value) ∈ t
        ∧ execution_in_scope (e_IsolationDomainID effect) value = true
        ∧ observation = Some (invocationCancellationObservation (x_ID value) "terminated")
        ∧ (x_State value = "terminated" ∨ KTerminate (execution_ref target value) (Ok tt) ∈ t
           ∨ ∃ o, KObserve (execution_ref target value) (Ok o) ∈ t ∧ ob_State o = "terminated"))).

Lemma proved_absent t target err :
  cancellation_target_matches effect target = true → ct_AdmissionPrepared target = false →
  is_err err ErrExecutionMissing = true → cancel_target (Ok target) ∈ t → cancel_execution (Err err) ∈ t →
  cancellation_proved t (Some invocationCancellationAbsentObservation).
Proof. intros. exists target. split_and!; [done..|]. left. split_and!; [done..|]. by exists err. Qed.

Lemma proved_terminated t target value :
  cancellation_target_matches effect target = true → ct_WorkspaceSourceSelected target = false →
  execution_in_scope (e_IsolationDomainID effect) value = true →
  cancel_target (Ok target) ∈ t → cancel_execution (Ok value) ∈ t →
  (x_State value = "terminated" ∨ KTerminate (execution_ref target value) (Ok tt) ∈ t
   ∨ ∃ o, KObserve (execution_ref target value) (Ok o) ∈ t ∧ ob_State o = "terminated") →
  cancellation_proved t (Some (invocationCancellationObservation (x_ID value) "terminated")).
Proof. intros. exists target. split_and!; [done..|]. right. split; [done|]. by exists value. Qed.

(** The one run that terminates an execution. *)
Definition terminates (t : list cancel_call) (ref : ExecutionRef) (answer : result unit) : Prop :=
  ∃ target value,
    t = [cancel_target (Ok target); cancel_execution (Ok value); KAuthorize target (Ok tt); KTerminate ref answer]
    ∧ cancellation_target_matches effect target = true ∧ ref = execution_ref target value
    ∧ execution_in_scope (e_IsolationDomainID effect) value = true
    ∧ ct_WorkspaceSourceSelected target = false ∧ x_State value ≠ "terminated".

Lemma traced_cancellation_Observe :
  traced (cancellation_Observe logged_cancel effect) (λ t r,
    Forall (λ c, cancel_reads c = true) t
    ∧ ∀ observation, r = Ok (observation, true) → cancellation_proved t observation).
Proof.
  eapply traced_bind; [apply traced_cancellation_target|]. intros t [target|err] Ht.
  2:{ apply traced_ret. rewrite app_nil_r. by split. }
  destruct Ht as [-> Hm]. eapply traced_bind; [by apply traced_cancellation_execution|].
  intros t [[value|]|err] (answer & -> & Ha).
  - destruct Ha as [-> Hs]. destruct (ct_WorkspaceSourceSelected target) eqn:Hsel.
    { apply traced_ret. split; [by repeat constructor|done]. }
    case_decide as Hterm.
    { apply traced_ret. split; [by repeat constructor|]. intros o [= <-]. rewrite Hterm.
      apply (proved_terminated _ target value); [done..|set_solver|set_solver|by left]. }
    apply traced_logging_bind. intros [o|err].
    2:{ apply traced_ret. split; [by repeat constructor|done]. }
    case_decide as Hob; [|apply traced_ret; split; [by repeat constructor|done]].
    apply traced_ret. split; [by repeat constructor|]. intros obs [= <- Hst].
    rewrite bool_decide_eq_true in Hst. destruct Hob as (_ & Hid & _). rewrite Hst, Hid.
    apply (proved_terminated _ target value); [done..|set_solver|set_solver|].
    right. right. exists o. split; [set_solver|done].
  - destruct Ha as (Hp & err & -> & He). apply traced_ret. split; [by repeat constructor|].
    intros o [= <-]. apply (proved_absent _ target err); [done..|set_solver|set_solver].
  - apply traced_ret. split; [by repeat constructor|done].
Qed.

Lemma traced_cancellation_Apply :
  traced (cancellation_Apply logged_cancel effect) (λ t r,
    (∀ ref answer, KTerminate ref answer ∈ t → terminates t ref answer)
    ∧ ∀ observation, r = Ok observation → cancellation_proved t observation).
Proof.
  assert (∀ t ref answer, Forall (λ c, cancel_reads c = true) t → KTerminate ref answer ∈ t → terminates t ref answer)
    as Hro by (intros t ref answer Hr Hin; rewrite Forall_forall in Hr; by apply Hr in Hin).
  eapply traced_bind; [apply traced_cancellation_target|]. intros t [target|err] Ht.
  2:{ apply traced_ret. rewrite app_nil_r. split; [by eauto|done]. }
  destruct Ht as [-> Hm]. eapply traced_bind; [by apply traced_cancellation_execution|].
  intros t [[value|]|err] (answer & -> & Ha).
  - destruct Ha as [-> Hs]. destruct (ct_WorkspaceSourceSelected target) eqn:Hsel.
    { apply traced_ret. split; [|done]. intros ref a. apply Hro. by repeat constructor. }
    case_decide as Hterm.
    { apply traced_ret. split; [intros ref a; apply Hro; by repeat constructor|]. intros o [= <-]. rewrite Hterm.
      apply (proved_terminated _ target value); [done..|set_solver|set_solver|by left]. }
    apply traced_logging_bind. intros [[]|err].
    2:{ destruct (is_err _ _); apply traced_ret; (split; [|done]); intros ref a;
          rewrite !elem_of_app, !elem_of_cons, elem_of_nil; naive_solver. }
    apply traced_logging_bind. intros answer.
    assert (∀ ref a,
      KTerminate ref a ∈ [cancel_target (Ok target)] ++ [cancel_execution (Ok value)]
        ++ [KAuthorize target (Ok tt); KTerminate (execution_ref target value) answer] →
      terminates ([cancel_target (Ok target)] ++ [cancel_execution (Ok value)]
        ++ [KAuthorize target (Ok tt); KTerminate (execution_ref target value) answer]) ref a) as Hone.
    { intros ref a. rewrite !elem_of_app, !elem_of_cons, elem_of_nil.
      intros [[?|?]|[[?|?]|[?|[[= -> ->]|?]]]]; try done. exists target, value. by split_and!. }
    destruct answer as [[]|err]; apply traced_ret; (split; [by apply Hone|]); [|done].
    intros o [= <-]. apply (proved_terminated _ target value); [done..|set_solver|set_solver|].
    right. left. set_solver.
  - destruct Ha as (Hp & err & -> & He). apply traced_ret. split.
    { intros ref a. apply Hro. by repeat constructor. }
    intros o [= <-]. apply (proved_absent _ target err); [done..|set_solver|set_solver].
  - apply traced_ret. split; [|done]. intros ref a. apply Hro. by repeat constructor.
Qed.

(** C27: for every collaborator, the cancellation driver terminates an execution
    only as its last call, at most once, for the execution found under the
    effect's own operation, after authorisation, and never one that is already
    terminated or holds a workspace source; it reports success only with
    evidence (absent and never admitted, already terminated, or terminated now);
    observing changes nothing and reports the end only with evidence. *)
Theorem cancellation_driver_safe (w : W) :
  (let '((_, t), r) := cancellation_Apply logged_cancel effect (w, []) in
   (∀ ref answer, KTerminate ref answer ∈ t → terminates t ref answer)
   ∧ ∀ observation, r = Ok observation → cancellation_proved t observation)
  ∧ (let '((_, t), r) := cancellation_Observe logged_cancel effect (w, []) in
     Forall (λ c, cancel_reads c = true) t
     ∧ ∀ observation, r = Ok (observation, true) → cancellation_proved t observation).
Proof.
  destruct (traced_cancellation_Apply w []) as (t1 & Ht1 & HA).
  destruct (traced_cancellation_Observe w []) as (t2 & Ht2 & HO).
  destruct (cancellation_Apply logged_cancel effect (w, [])) as [[w1 l1] r1].
  destruct (cancellation_Observe logged_cancel effect (w, [])) as [[w2 l2] r2].
  cbn [fst snd app] in *. subst. by split.
Qed.
End cancel.

(** ** A prepared start is never forgotten *)

Lemma absent_not_observed id state :
  invocationCancellationObservation id state ≠ invocationCancellationAbsentObservation.
Proof. unfold invocationCancellationObservation, invocationCancellationAbsentObservation, json_map. discriminate. Qed.

(** An absence answered by the driver rests on a target without a prepared start. *)
Section absence.
Context {W : Type} (driver : InvocationCancellationDriver W) (effect : EffectRecord) (w : W).

Definition unprepared_target : Prop :=
  ∃ target, (cd_targets driver (e_IsolationDomainID effect) (e_OperationID effect) w).2 = Ok target
            ∧ ct_AdmissionPrepared target = false.

Lemma cancellation_target_read w' target :
  cancellation_target driver effect w = (w', Ok target) →
  (cd_targets driver (e_IsolationDomainID effect) (e_OperationID effect) w).2 = Ok target.
Proof.
  unfold cancellation_target. destruct (cancellation_effect_valid effect); [|done].
  unfold mbind, io_bind. destruct (cd_targets _ _ _ w) as [w1 [target'|err]]; [|by destruct (is_err _ _)].
  destruct (cancellation_target_matches effect target'); [|done]. by intros [= <- ->].
Qed.

Lemma cancellation_execution_absent target w1 w2 :
  cancellation_execution driver target w1 = (w2, Ok None) → ct_AdmissionPrepared target = false.
Proof.
  unfold cancellation_execution, mbind, io_bind. destruct (cd_executions _ _ _ w1) as [w3 [value|err]].
  - by destruct (execution_in_scope _ value).
  - destruct (is_err _ _); [|done]. by destruct (ct_AdmissionPrepared target).
Qed.

Lemma Apply_absent :
  (cancellation_Apply driver effect w).2 = Ok (Some invocationCancellationAbsentObservation) → unprepared_target.
Proof.
  unfold cancellation_Apply. unfold mbind at 1, io_bind at 1.
  destruct (cancellation_target driver effect w) as [w1 [target|err]] eqn:Ht; [|done].
  apply cancellation_target_read in Ht. unfold mbind at 1, io_bind at 1.
  destruct (cancellation_execution driver target w1) as [w2 [[value|]|err]] eqn:He; [| |done].
  - destruct (ct_WorkspaceSourceSelected target); [done|].
    case_decide; [by intros [= ?%absent_not_observed]|]. unfold mbind, io_bind.
    destruct (cd_authorizer driver target w2) as [w3 [[]|err]]; [|by destruct (is_err _ _)].
    destruct (cd_Terminate driver _ w3) as [w4 [[]|err]]; [|done]. by intros [= ?%absent_not_observed].
  - apply cancellation_execution_absent in He. intros _. by exists target.
Qed.

Lemma Observe_absent :
  (cancellation_Observe driver effect w).2 = Ok (Some invocationCancellationAbsentObservation, true) →
  unprepared_target.
Proof.
  unfold cancellation_Observe. unfold mbind at 1, io_bind at 1.
  destruct (cancellation_target driver effect w) as [w1 [target|err]] eqn:Ht; [|done].
  apply cancellation_target_read in Ht. unfold mbind at 1, io_bind at 1.
  destruct (cancellation_execution driver target w1) as [w2 [[value|]|err]] eqn:He; [| |done].
  - destruct (ct_WorkspaceSourceSelected target); [done|].
    case_decide; [by intros [= ?%absent_not_observed]|]. unfold mbind, io_bind.
    destruct (cd_Observe driver _ w2) as [w3 [o|err]]; [|done].
    case_decide; [|done]. by intros [= ?%absent_not_observed _].
  - apply cancellation_execution_absent in He. intros _. by exists target.
Qed.
End absence.

Section store.
Context `{SchemaEngine}.

Lemma run_effects_le w w' : rtc world_step w w' → effects_le (db_effects (w_db w)) (db_effects (w_db w')).
Proof.
  induction 1 as [w|w1 w2 w3 Hs _ IH]; [done|]. etrans; [|exact IH]. by apply log_effects, world_step_logs.
Qed.

(** The record answered by [PrepareEffect] is in the table. *)
Lemma prepared_effect_stored e c phase digest d d' effect :
  PrepareEffect e c phase digest d = Ok (d', effect) →
  ∃ row, db_effects d' !! (e_IsolationDomainID effect, e_EffectID effect) = Some row
    ∧ effect_identity row = (e_OperationKind effect, e_OperationID effect, e_Phase effect).
Proof.
  unfold PrepareEffect. intros ([t ts] & _ & H1)%result_bind_Ok.
  destruct (ops_of t d !! claim_key c) as [row|]; [|done]. destruct (_ && _); [|done].
  apply result_bind_Ok in H1 as (ef & Hg & H1). case_decide; [done|]. simplify_eq.
  revert Hg. unfold getEffect. case_match eqn:E; [|done]. intros [= <-]. simpl. eauto.
Qed.

Lemma admission_prepared_row iso id row op d :
  db_effects d !! (iso, id) = Some row →
  effect_identity row = (OperationKindInvocation, op, "start-invocation") →
  admission_prepared iso op d = true.
Proof.
  intros Hl [= Hk Ho Hp]. apply existsb_Exists, Exists_exists. exists ((iso, id), row).
  split; [by apply elem_of_map_to_list|]. by apply bool_decide_eq_true.
Qed.

(** Once a start effect was prepared, every later cancellation target of that
    operation says so. *)
Lemma prepared_start_remembered plans e c phase digest d d' cs start w target :
  PrepareEffect e c phase digest d = Ok (d', start) → admission_effect_valid start = true →
  rtc world_step (World d' cs) w →
  GetInvocationCancellationTarget plans (e_IsolationDomainID start) (e_OperationID start) (w_db w) = Ok target →
  ct_AdmissionPrepared target = true.
Proof.
  intros (row & Hrow & Hid)%prepared_effect_stored Hv Run Ht.
  destruct (run_effects_le _ _ Run _ _ Hrow) as (row' & Hrow' & Hid'). simpl in Hrow'.
  unfold admission_effect_valid in Hv. rewrite bool_decide_eq_true in Hv. destruct Hv as (Hk & Hp & _).
  assert (admission_prepared (e_IsolationDomainID start) (e_OperationID start) (w_db w) = true) as Hprep.
  { eapply admission_prepared_row; [exact Hrow'|]. by rewrite Hid', Hid, Hk, Hp. }
  unfold GetInvocationCancellationTarget in Ht. repeat case_match; simplify_eq; exact Hprep.
Qed.

(** C20: once the start of an invocation was durably prepared, so that an execution
    may exist, the cancellation driver reading its targets from the store never
    again answers that the execution is absent, in any later state of the store
    and whatever the execution source, authoriser and provider answer: a lost
    execution stays unresolved instead of being reported as cancelled. *)
Theorem started_invocation_not_absent {W} (driver : InvocationCancellationDriver W) (w : W) plans
    e c phase digest d d' cs start world effect :
  PrepareEffect e c phase digest d = Ok (d', start) → admission_effect_valid start = true →
  rtc world_step (World d' cs) world →
  (∀ iso op, (cd_targets driver iso op w).2 = GetInvocationCancellationTarget plans iso op (w_db world)) →
  e_IsolationDomainID effect = e_IsolationDomainID start → e_OperationID effect = e_OperationID start →
  (cancellation_Apply driver effect w).2 ≠ Ok (Some invocationCancellationAbsentObservation)
  ∧ (cancellation_Observe driver effect w).2 ≠ Ok (Some invocationCancellationAbsentObservation, true).
Proof.
  intros Hprep Hv Run Hstore Hi Ho.
  assert (¬ unprepared_target driver effect w) as Hno.
  { intros (target & Ht & Hp). rewrite Hstore, Hi, Ho in Ht.
    pose proof (prepared_start_remembered _ _ _ _ _ _ _ _ _ _ _ Hprep Hv Run Ht). congruence. }
  split; intros Habs; apply Hno; [by apply Apply_absent|by apply Observe_absent].
Qed.
End store.

(** ** Routing *)

(** The governed driver sends the start and cancel phases of invocations to their
    drivers, everything else but the run phase to the fallback, and the run phase
    to the runtime driver under a matching claim only. *)
Theorem governed_routes {W} (fallback admission cancellation : effect_driver W) (runtime : claimed_effect_driver W) d :
  NewGovernedInvocationDriver (Some fallback) (Some admission) (Some runtime) (Some cancellation) = Ok d →
  ∀ claim effect,
     (effectRoute effect = (OperationKindInvocation, "start-invocation") →
        routed_ApplyClaimed d claim effect = drv_Apply admission effect)
     ∧ (effectRoute effect = (OperationKindInvocation, "cancel-invocation") →
        routed_ApplyClaimed d claim effect = drv_Apply cancellation effect)
     ∧ (effectRoute effect = (OperationKindInvocation, "run-invocation") →
        routed_ApplyClaimed d claim effect
        = (if effectMatchesClaim effect claim then drv_ApplyClaimed runtime claim effect
           else mret (Err ErrEffectClaimMismatch))
        ∧ routed_Apply d effect = mret (Err ErrEffectClaimRequired))
     ∧ (e_OperationKind effect ≠ OperationKindInvocation →
        routed_ApplyClaimed d claim effect = drv_Apply fallback effect).
Proof.
  unfold NewGovernedInvocationDriver, NewClaimedRoutedDriver, newRoutedDriver.
  repeat (case_match; [done|]). intros [= <-] claim effect.
  unfold routed_ApplyClaimed, routed_Apply, claimedForEffect, forEffect. cbn [rd_routes rd_claimedRoutes rd_fallback].
  rewrite !lookup_omap. split_and!; intros Hr.
  - rewrite Hr, lookup_insert_ne, lookup_empty, lookup_insert_eq by discriminate. reflexivity.
  - rewrite Hr, lookup_insert_ne, lookup_empty by discriminate.
    rewrite lookup_insert_ne, lookup_insert_eq by discriminate. reflexivity.
  - rewrite Hr, lookup_insert_eq. split; reflexivity.
  - unfold effectRoute. rewrite !lookup_insert_ne by (intros [=]; congruence). rewrite !lookup_empty. reflexivity.
Qed.

Lemma governed_driver_complete {W} (fallback admission cancellation : effect_driver W) runtime :
  is_ok (NewGovernedInvocationDriver (Some fallback) (Some admission) (Some runtime) (Some cancellation)) = true.
Proof. vm_compute. reflexivity. Qed.

(** ** Example: a cancelled invocation whose execution was lost *)

#[local] Instance driver_schemas : SchemaEngine := {| schema_compiles := λ _, true; schema_accepts := λ _ _, true |}.

Definition no_effect : EffectRecord := Effect "" "" "" "" "" [] "" 0 None.
Definition lost_prepared : result (db * EffectRecord) :=
  PrepareEffect (ex_env 15) ex_claim "start-invocation" [] (w_db ex_claimed).
Definition lost_start : db * EffectRecord := from_ok (empty_db, no_effect) lost_prepared.

(** The start is prepared, then the invocation is cancelled. *)
Definition lost_world : world :=
  run_from (World lost_start.1 (w_claims ex_claimed))
    [DoCommand (ex_env 16) (ex_idem "/cancel" "k6")
       (CmdAcceptCancellation (AcceptCancellationIn "inv_a" "act_b" "cor_6"))].

(** A driver on the store that finds no execution. *)
Definition lost_driver : InvocationCancellationDriver unit :=
  MkCancellationDriver (λ iso op u, (u, GetInvocationCancellationTarget ∅ iso op (w_db lost_world)))
    (λ _ u, (u, Ok tt)) (λ _ _ u, (u, Err ErrExecutionMissing))
    (λ ref u, (u, Ok (MkObservation (ref_IsolationDomainID ref) (ref_ID ref) "running")))
    (λ _ u, (u, Ok tt)).

Definition lost_effect : EffectRecord :=
  Effect "iso_a" "eff_cancel" OperationKindInvocation (e_OperationID lost_start.2) "cancel-invocation" []
    "prepared" 0 None.

Lemma started_invocation_not_absent_witness :
  (cancellation_Apply lost_driver lost_effect ()).2
  = Err (EJoin ErrAmbiguousEffect ErrInvocationCancellationExecutionUnknown)
  ∧ (cancellation_Apply lost_driver lost_effect ()).2 ≠ Ok (Some invocationCancellationAbsentObservation).
Proof.
  split; [vm_compute; reflexivity|].
  refine (proj1 (started_invocation_not_absent lost_driver () ∅ (ex_env 15) ex_claim "start-invocation" []
    (w_db ex_claimed) lost_start.1 (w_claims ex_claimed) lost_start.2 lost_world lost_effect _ _ _ _ _ _)).
  - refine (from_ok_pair (empty_db, no_effect) lost_prepared lost_start.2 _ eq_refl). vm_compute. reflexivity.
  - vm_compute. reflexivity.
  - apply run_from_run. vm_compute. reflexivity.
  - reflexivity.
  - vm_compute. reflexivity.
  - reflexivity.
Defined.
