(* ===== verification/WorkspaceSource.v ===== *)
(** * Workspace source archives

    [internal/workspace/source.go]: an archive is verified completely before any of
    it is installed.  Only ordinary files, directories and symbolic links that stay
    inside the tree are accepted.  The tar format itself ([archive/tar]) is the
    parameter [TarFormat]; what a link reaches is compared with the way a file
    system follows it ([resolves]). *)
From S2P Require Import Prelude.
From S2P Require Import GoStrings.
From S2P Require Import Sha256.
From S2P Require Import GoJson.
From S2P Require Import GoDecode.
From S2P Require Import GoPath.

Definition MaximumArchiveBytes : Z := Z.shiftl 32 20.
Definition MaximumSourceBytes : Z := Z.shiftl 24 20.
Definition MaximumEntries : Z := 4096.

Definition ErrSourceInvalid := ESentinel "workspace.ErrSourceInvalid".

(** Type flags of [archive/tar]. *)
Definition TypeReg : ascii := byte_of_N 48.
Definition TypeRegA : ascii := byte_of_N 0.
Definition TypeSymlink : ascii := byte_of_N 50.
Definition TypeDir : ascii := byte_of_N 53.
Definition TypeXGlobalHeader : ascii := byte_of_N 103.

Record sourceEntry := MkEntry {
  se_name : string; se_kind : ascii; se_executable : bool; se_content : string; se_target : string }.

#[export] Instance sourceEntry_eq_dec : EqDecision sourceEntry.
Proof. solve_decision. Defined.

Abbreviation tree := (gmap string sourceEntry).

Record Receipt := MkReceipt {
  rc_SchemaVersion : string; rc_ArchiveDigest : string; rc_EntryCount : Z; rc_SourceBytes : Z }.

Record Snapshot := MkSnapshot {
  sn_archive : string; sn_entries : tree; sn_names : list string; sn_receipt : Receipt }.

(** ** The tar format *)

Record tar_header := MkHeader {
  th_Name : string; th_Typeflag : ascii; th_Mode : Z; th_Size : Z; th_Linkname : string;
  th_PAXRecords : list (string * string) }.

(** [tar_read] gives what successive calls of [Reader.Next] return, each with what
    reading at most one byte more than the header's size yields ([None] is a read
    error), and then the position of the underlying reader before the call of [Next]
    that reported the end, or [None] when it reported an error.  [tar_write] gives the bytes a [Writer]
    produced for headers and contents, or [None] when one of its calls failed. *)
Class TarFormat := {
  tar_read : string → list (tar_header * option string) * option Z;
  tar_write : list (tar_header * string) → option string;
}.

(** ** Names *)

Definition validLinkText (value : string) : bool :=
  negb (bool_decide (value = "")) && (go_len value <=? 4096)%Z && valid_utf8 value
  && negb (contains_byte (byte_of_N 92) value) && negb (IsAbs value)
  && forallb (λ r, negb (is_control (rune_value r))) (runes value).

Definition validPart (part : string) : bool :=
  negb (bool_decide (part = "..")) && negb (equal_fold_ascii part ".git") && (go_len part <=? 255)%Z.

Definition validSourcePath (name : string) : bool :=
  if bool_decide (name = "") || bool_decide (name = ".") || (4096 <? go_len name)%Z || IsAbs name
     || negb (bool_decide (Clean name = name)) || negb (validLinkText name) then false
  else if (64 <? Z.of_nat (length (split name)))%Z then false
  else forallb validPart (split name).

Definition zeroBytes (data : string) : bool := all_bytes (λ c, (byte_value c =? 0)%N) data.

(** [data[n:]] *)
Definition drop_bytes (n : nat) (data : string) : string := of_bytes (drop n (bytes_of data)).

(** ** Reading the members of an archive *)

Definition sparse_record (record : string * string) : bool := has_prefix record.1 "GNU.sparse".

Definition global_records_valid (records : list (string * string)) : bool :=
  forallb (λ kv, bool_decide (kv.1 = "comment") && (go_len kv.2 <=? 1024)%Z) records.

Definition trim_slash (name : string) : string :=
  match rev (bytes_of name) with
  | c :: r => if decide (c = slash) then of_bytes (rev r) else name
  | [] => name
  end.

Definition member_name (h : tar_header) : string :=
  if decide (th_Typeflag h = TypeDir) then trim_slash (th_Name h) else th_Name h.

(** What one member adds: its entry and the bytes it holds. *)
Definition member_entry (used : Z) (h : tar_header) (body : option string) : option (sourceEntry * Z) :=
  let name := member_name h in
  if decide (th_Typeflag h = TypeReg ∨ th_Typeflag h = TypeRegA) then
    if (th_Size h <? 0)%Z || (MaximumSourceBytes - used <? th_Size h)%Z then None
    else content ← body;
         if decide (go_len content = th_Size h) then
           Some (MkEntry name TypeReg (negb (Z.land (th_Mode h) 73 =? 0)%Z) content "", th_Size h)
         else None
  else if decide (th_Typeflag h = TypeDir) then
    if decide (th_Size h = 0%Z) then Some (MkEntry name TypeDir false "" "", 0%Z) else None
  else if decide (th_Typeflag h = TypeSymlink) then
    if decide (th_Size h = 0%Z ∧ validLinkText (th_Linkname h) = true)
    then Some (MkEntry name TypeSymlink false "" (th_Linkname h), 0%Z) else None
  else None.

Fixpoint read_members (headers : Z) (entries : tree) (used : Z) (members : list (tar_header * option string))
  : result (tree * Z) :=
  match members with
  | [] => Ok (entries, used)
  | (h, body) :: rest =>
      let headers := (headers + 1)%Z in
      if (MaximumEntries <? headers)%Z || (MaximumEntries <=? Z.of_nat (size entries))%Z then Err ErrSourceInvalid
      else if decide (th_Typeflag h = TypeXGlobalHeader) then
        if global_records_valid (th_PAXRecords h) then read_members headers entries used rest else Err ErrSourceInvalid
      else
        let name := member_name h in
        if negb (validSourcePath name) || (th_Mode h <? 0)%Z || negb (Z.land (th_Mode h) (Z.lnot 511) =? 0)%Z
           || bool_decide (is_Some (entries !! name)) || existsb sparse_record (th_PAXRecords h)
        then Err ErrSourceInvalid
        else match member_entry used h body with
             | None => Err ErrSourceInvalid
             | Some (entry, n) => read_members headers (<[name := entry]> entries) (used + n) rest
             end
  end.

(** ** Parents *)

(** [path.Dir(name)], its directory, and so on until the top; [fuel] bounds the
    number of components. *)
Fixpoint dirs (fuel : nat) (parent : string) : list string :=
  match fuel with
  | O => []
  | S fuel => if decide (parent = ".") then [] else parent :: dirs fuel (Dir parent)
  end.
Definition parents (name : string) : list string := dirs (length (split name)) (Dir name).

Fixpoint add_parents (entries : tree) (ps : list string) : result tree :=
  match ps with
  | [] => Ok entries
  | parent :: rest =>
      match entries !! parent with
      | Some entry => if decide (se_kind entry ≠ TypeDir) then Err ErrSourceInvalid else add_parents entries rest
      | None =>
          if (MaximumEntries <=? Z.of_nat (size entries))%Z then Err ErrSourceInvalid
          else add_parents (<[parent := MkEntry parent TypeDir false "" ""]> entries) rest
      end
  end.

(** ** Following links *)

(** One run of the loop of [containedLink]; [steps] counts down from 4096. *)
Fixpoint follow (entries : tree) (steps : nat) (pending resolved : list string) (seen : gset string) : bool :=
  match pending with
  | [] => true
  | part :: rest =>
      match steps with
      | O => false
      | S steps =>
          if (40 <? Z.of_nat (size seen))%Z || (4096 <? Z.of_nat (length pending))%Z then false
          else if decide (part = "" ∨ part = ".") then follow entries steps rest resolved seen
          else if decide (part = "..") then
            match resolved with
            | [] => false
            | _ => follow entries steps rest (removelast resolved) seen
            end
          else
            let name := join "/" (resolved ++ [part]) in
            match entries !! name with
            | None => false
            | Some entry =>
                if decide (se_kind entry = TypeSymlink) then
                  if decide (name ∈ seen) then false
                  else follow entries steps (split (se_target entry) ++ rest) resolved ({[name]} ∪ seen)
                else if negb (bool_decide (rest = [])) && bool_decide (se_kind entry ≠ TypeDir) then false
                else follow entries steps rest (resolved ++ [part]) seen
            end
      end
  end.

Definition link_steps : nat := N.to_nat 4096.
#[global] Opaque link_steps.

Definition containedLink (entries : tree) (link : sourceEntry) : bool :=
  follow entries link_steps (split (Dir (se_name link)) ++ split (se_target link)) [] {[se_name link]}.

(** ** [Inspect] *)

(** The archive ends with at least two zero blocks and nothing else. *)
Definition ends_properly (archive : string) (offset : Z) : bool :=
  let end_ := ((offset + 511) `quot` 512 * 512)%Z in
  negb (go_len archive - end_ <? 1024)%Z && zeroBytes (drop_bytes (Z.to_nat end_) archive).

Definition SourceSchema := "dataground.workspace-source-materialization/v1".

(** The insertion of parents ranges over a Go map, in no fixed order; the model
    takes the names as they come out of the finite map.  The outcome does not depend
    on it: the same parents are needed, and they fit or not together. *)
Definition Inspect `{TarFormat} (archive expectedDigest : string) : result Snapshot :=
  if (MaximumArchiveBytes <? go_len archive)%Z || (go_len archive <? 1024)%Z || negb (go_len archive mod 512 =? 0)%Z
  then Err ErrSourceInvalid
  else
    let digest := Sha256.digest_string archive in
    if decide (digest ≠ expectedDigest) then Err ErrSourceInvalid
    else
      let '(members, ending) := tar_read archive in
      '(entries, used) ← read_members 0 ∅ 0 members;
      match ending with
      | None => Err ErrSourceInvalid
      | Some offset =>
          if negb (ends_properly archive offset) then Err ErrSourceInvalid
          else
            entries ← add_parents entries ((map_to_list entries).*1 ≫= parents);
            if forallb (λ kv, negb (bool_decide (se_kind kv.2 = TypeSymlink)) || containedLink entries kv.2)
                 (map_to_list entries)
            then
              let names := sort_strings (map_to_list entries).*1 in
              Ok (MkSnapshot archive entries names
                    (MkReceipt SourceSchema digest (Z.of_nat (length names)) used))
            else Err ErrSourceInvalid
      end.

(** ** What a snapshot guarantees *)

(** How a file system follows a path: from the directory [at_] (a list of
    components from the root of the workspace), component by component, through
    links, to an entry of the tree.  There is no rule for going above the root. *)
Inductive resolves (t : tree) : list string → list string → list string → Prop :=
  | resolves_here at_ : resolves t at_ [] at_
  | resolves_skip at_ part rest node :
      part = "" ∨ part = "." → resolves t at_ rest node → resolves t at_ (part :: rest) node
  | resolves_up at_ last rest node :
      resolves t at_ rest node → resolves t (at_ ++ [last]) (".." :: rest) node
  | resolves_enter at_ part rest node entry :
      part ∉ [""; "."; ".."] → t !! join "/" (at_ ++ [part]) = Some entry → se_kind entry ≠ TypeSymlink →
      rest = [] ∨ se_kind entry = TypeDir →
      resolves t (at_ ++ [part]) rest node → resolves t at_ (part :: rest) node
  | resolves_link at_ part rest node entry :
      part ∉ [""; "."; ".."] → t !! join "/" (at_ ++ [part]) = Some entry → se_kind entry = TypeSymlink →
      resolves t at_ (split (se_target entry) ++ rest) node → resolves t at_ (part :: rest) node.

(** The shape of one entry. *)
Definition entry_ok (name : string) (e : sourceEntry) : Prop :=
  se_name e = name ∧ validSourcePath name = true
  ∧ ((se_kind e = TypeReg ∧ se_target e = "")
     ∨ (se_kind e = TypeDir ∧ se_executable e = false ∧ se_content e = "" ∧ se_target e = "")
     ∨ (se_kind e = TypeSymlink ∧ se_executable e = false ∧ se_content e = "" ∧ validLinkText (se_target e) = true)).

Definition tree_bytes (t : tree) : nat := sum_list_with (λ kv, slen (se_content kv.2)) (map_to_list t).

Record tree_ok (t : tree) : Prop := TreeOk {
  to_entries : map_Forall entry_ok t;
  to_count : (Z.of_nat (size t) ≤ MaximumEntries)%Z;
  to_bytes : (Z.of_nat (tree_bytes t) ≤ MaximumSourceBytes)%Z;
  to_parents : ∀ name e parent, t !! name = Some e → parent ∈ parents name →
    ∃ d, t !! parent = Some d ∧ se_kind d = TypeDir;
  to_links : ∀ name e, t !! name = Some e → se_kind e = TypeSymlink → containedLink t e = true;
}.

(** ** Links *)

Lemma follow_resolves t steps pending resolved seen :
  follow t steps pending resolved seen = true → ∃ node, resolves t resolved pending node.
Proof.
  revert pending resolved seen. induction steps as [|steps IH]; intros [|part rest] resolved seen Hf;
    [by eexists; constructor|done|by eexists; constructor|].
  cbn [follow] in Hf. destruct (_ || _); [done|]. case_decide as Hskip.
  { destruct (IH _ _ _ Hf) as [node Hn]. exists node. by apply resolves_skip. }
  case_decide as Hup.
  { subst. destruct resolved as [|r resolved _] using rev_ind; [done|].
    assert (Hf' : follow t steps rest resolved seen = true).
    { rewrite removelast_last in Hf. by destruct (resolved ++ [r]) eqn:E; [apply app_nil in E as [_ ?]|]. }
    destruct (IH _ _ _ Hf') as [node Hn]. exists node. by constructor. }
  assert (Hpart : part ∉ [""; "."; ".."]) by set_solver.
  cbv zeta in Hf. destruct (t !! _) as [entry|] eqn:Ee; [|done]. case_decide as Hl.
  - case_decide; [done|]. destruct (IH _ _ _ Hf) as [node Hn]. exists node. by eapply resolves_link.
  - destruct (_ && _) eqn:Ed; [done|]. destruct (IH _ _ _ Hf) as [node Hn]. exists node.
    eapply resolves_enter; try done. apply andb_false_iff in Ed as [Ed|Ed].
    + left. apply negb_false_iff, bool_decide_eq_true in Ed. done.
    + right. apply bool_decide_eq_false in Ed. by apply dec_stable.
Qed.

Lemma contained_resolves t link :
  containedLink t link = true → ∃ node, resolves t [] (split (Dir (se_name link)) ++ split (se_target link)) node.
Proof. apply follow_resolves. Qed.

(** The file system's answer is unique. *)
Lemma resolves_functional t at_ pending node node' :
  resolves t at_ pending node → resolves t at_ pending node' → node = node'.
Proof.
  intros R. revert node'. induction R as [at_|at_ part rest node Hs _ IH|at_ last rest node _ IH
    |at_ part rest node e Hp He Hk Hd _ IH|at_ part rest node e Hp He Hk _ IH]; intros node' R';
    inversion R' as [|? ? ? ? Hs' Hr'|? last' ? ? Hr' Ha|? ? ? ? e' Hp' He' Hk' Hd' Hr'|? ? ? ? e' Hp' He' Hk' Hr']; subst;
    try (by apply IH); try congruence; try set_solver.
  match goal with E : _ ++ [_] = _ ++ [_] |- _ => apply app_inj_tail in E as [-> _] end. by apply IH.
Qed.

(** A walk through a tree ends at its root or at an entry that is not a link. *)
Definition real_path (t : tree) (p : list string) : Prop :=
  ∀ q r, p = q ++ r → q ≠ [] → ∃ e, t !! join "/" q = Some e ∧ se_kind e ≠ TypeSymlink.

Lemma real_path_app t p c : real_path t (p ++ [c]) → real_path t p.
Proof. intros H q r -> Hq. apply (H q (r ++ [c])); [by rewrite app_assoc|done]. Qed.

Lemma resolves_real t at_ pending node : resolves t at_ pending node → real_path t at_ → real_path t node.
Proof.
  induction 1 as [|? ? ? ? _ _ IH|at_ last rest node _ IH|at_ part rest node e Hp He Hk _ _ IH|? ? ? ? ? _ _ _ _ IH];
    intros Hr; [done|by apply IH|apply IH; by eapply real_path_app| |by apply IH].
  apply IH. intros q r E Hq. destruct r as [|x r _] using rev_ind.
  - rewrite app_nil_r in E. subst q. by exists e.
  - rewrite app_assoc in E. apply app_inj_tail in E as [E _]. by apply (Hr q r).
Qed.

(** ** Names *)

Lemma valid_path_spec name :
  validSourcePath name = true →
  Forall plain (split name) ∧ Forall (λ c, validPart c = true) (split name) ∧ validLinkText name = true
  ∧ (Z.of_nat (length (split name)) ≤ 64)%Z ∧ (go_len name ≤ 4096)%Z.
Proof.
  unfold validSourcePath. destruct (_ || _) eqn:E; [done|]. rewrite !orb_false_iff in E.
  destruct E as [[[[[E1 E2] E3] E4] E5] E6]. destruct (64 <? _)%Z eqn:E7; [done|]. intros Hp.
  apply bool_decide_eq_false in E1, E2. apply negb_false_iff in E5, E6. apply bool_decide_eq_true in E5.
  apply forallb_Forall in Hp. split_and!; [|done|done|lia|lia].
  apply Clean_fixed; [done|done|done|]. intros Hin. rewrite Forall_forall in Hp. apply Hp in Hin.
  by vm_compute in Hin.
Qed.


Lemma valid_text_prefix l c r :
  (byte_value c < 128)%N → validLinkText (of_bytes (l ++ c :: r)) = true → l ≠ [] →
  validLinkText (of_bytes l) = true.
Proof.
  intros Hc. unfold validLinkText, valid_utf8, runes. rewrite !bytes_of_of, !andb_true_iff.
  intros [[[[[_ Hlen] Hv] Hb] Ha] Hctl] Hne. pose proof (runes_of_split l c r Hc Hv) as E. rewrite E in Hv, Hctl.
  apply forallb_app_true in Hv as [Hv _]. apply forallb_app_true in Hctl as [Hctl _]. split_and!; try done.
  - apply negb_true_iff, bool_decide_eq_false. intros E'. apply (f_equal bytes_of) in E'. by rewrite bytes_of_of in E'.
  - apply Z.leb_le in Hlen. apply Z.leb_le. unfold go_len in *. fold slen in *. unfold slen in *.
    rewrite <- !length_bytes_of, !bytes_of_of, ?length_app in *. lia.
  - apply negb_true_iff, bool_decide_eq_false. apply negb_true_iff, bool_decide_eq_false in Hb.
    unfold contains_byte in *. rewrite !bytes_of_of in *. set_solver.
  - apply negb_true_iff. apply negb_true_iff in Ha. unfold IsAbs, has_prefix in *. destruct l as [|a l]; [done|].
    simpl in *. by case_decide.
Qed.

Lemma valid_parent ps c :
  ps ≠ [] → Forall plain (ps ++ [c]) → validSourcePath (join "/" (ps ++ [c])) = true →
  validSourcePath (join "/" ps) = true.
Proof.
  intros Hne Hpl Hv. apply valid_path_spec in Hv as (_ & Hparts & Htext & Hn & Hlen).
  assert (Hns : Forall no_slash (ps ++ [c])) by (by eapply Forall_impl; [exact Hpl|intros ? (?&?&?&?)]).
  rewrite split_join in Hparts, Hn by (by destruct ps || done).
  apply Forall_app in Hpl as [Hpl _], Hns as [Hns _], Hparts as [Hparts _].
  assert (Hb : bytes_of (join "/" (ps ++ [c])) = bytes_of (join "/" ps) ++ slash :: bytes_of c).
  { clear -Hne. induction ps as [|p ps IH]; [done|]. destruct ps as [|q ps]; cbn [app].
    - rewrite bytes_join. done.
    - cbn [app] in IH. rewrite bytes_join, IH, bytes_join by done. by rewrite <- !app_assoc. }
  assert (Hname : join "/" ps ≠ "").
  { intros E. destruct ps as [|p ps]; [done|]. apply Forall_inv in Hpl as (Hp & _). apply Hp.
    destruct (join_head "/" p ps) as [k Hk]; [destruct p; [done|by eexists _, _]|].
    rewrite E in Hk. destruct p; [done|by cbn in Hk]. }
  unfold validSourcePath. rewrite split_join by done. rewrite Clean_join by done.
  rewrite (proj2 (orb_false_iff _ _)).
  - rewrite length_app in Hn. simpl in Hn.
    rewrite (proj2 (Z.ltb_ge _ _)) by lia. by apply forallb_Forall.
  - rewrite !orb_false_iff, !negb_false_iff. split_and!.
    + by apply bool_decide_eq_false.
    + apply bool_decide_eq_false. intros E. assert (Hs : split "." = ps) by (by rewrite <- E, split_join).
      subst ps. apply Forall_inv in Hpl as (_ & Hd & _). by apply Hd.
    + apply Z.ltb_ge. unfold go_len in *. fold (slen (join "/" ps)). rewrite <- length_bytes_of.
      fold (slen (join "/" (ps ++ [c]))) in Hlen. rewrite <- length_bytes_of, Hb, length_app in Hlen. lia.
    + destruct ps as [|p ps]; [done|]. apply Forall_inv in Hpl as (H1 & _ & _ & H4). by apply IsAbs_join.
    + by apply bool_decide_eq_true.
    + rewrite <- (of_bytes_of (join "/" ps)). eapply (valid_text_prefix _ slash (bytes_of c)); [done| |].
      * by rewrite <- Hb, of_bytes_of.
      * intros E. apply Hname. apply bytes_of_inj. by rewrite E.
Qed.

(** ** The directories above a name *)

Definition dir_of (cs : list string) : string := match cs with [] => "." | _ => join "/" cs end.

Lemma join_plain_dot cs : cs ≠ [] → Forall plain cs → join "/" cs ≠ ".".
Proof.
  intros Hne Hp E. assert (Hs : split "." = cs).
  { rewrite <- E. apply split_join; [done|]. by eapply Forall_impl; [exact Hp|intros ? (?&?&?&?)]. }
  subst cs. apply Forall_inv in Hp as (_ & Hd & _). by apply Hd.
Qed.

Lemma dirs_elem fuel cs p :
  Forall plain cs → length cs ≤ fuel →
  p ∈ dirs fuel (dir_of cs) ↔ ∃ q r, cs = q ++ r ∧ q ≠ [] ∧ p = join "/" q.
Proof.
  revert cs. induction fuel as [|fuel IH]; intros cs Hp Hf.
  - destruct cs; [|simpl in Hf; lia]. simpl. split; [by intros ?%elem_of_nil|].
    intros (q & r & E & Hq & _). by destruct q.
  - cbn [dirs]. destruct cs as [|c cs _] using rev_ind.
    { simpl. split; [by intros ?%elem_of_nil|]. intros (q & r & E & Hq & _). by destruct q. }
    assert (Hd : dir_of (cs ++ [c]) = join "/" (cs ++ [c])) by (by destruct cs). rewrite Hd.
    rewrite decide_False by (apply join_plain_dot; [by destruct cs|done]).
    rewrite (Dir_join cs c Hp). fold (dir_of cs).
    apply Forall_app in Hp as [Hp Hc]. rewrite length_app in Hf. simpl in Hf.
    rewrite elem_of_cons, IH by (done || lia). split.
    + intros [->|(q & r & -> & Hq & ->)].
      * exists (cs ++ [c]), []. rewrite app_nil_r. split_and!; [done|by destruct cs|done].
      * exists q, (r ++ [c]). by rewrite app_assoc.
    + intros (q & r & E & Hq & ->). destruct r as [|x r _] using rev_ind.
      * rewrite app_nil_r in E. subst q. by left.
      * rewrite app_assoc in E. apply app_inj_tail in E as [-> _]. right. by exists q, r.
Qed.

(** The directories above a valid name are its proper prefixes. *)
Lemma parents_elem name p :
  validSourcePath name = true →
  p ∈ parents name ↔ ∃ q r, split name = q ++ r ∧ q ≠ [] ∧ r ≠ [] ∧ p = join "/" q.
Proof.
  intros (Hp & _)%valid_path_spec. unfold parents.
  destruct (split name) as [|c cs _] eqn:E using rev_ind; [by apply split_nonempty in E|].
  rewrite <- (join_split name), E at 1. rewrite (Dir_join cs c Hp). fold (dir_of cs).
  apply Forall_app in Hp as [Hp _]. rewrite dirs_elem; [|done|rewrite length_app; lia]. split.
  - intros (q & r & -> & Hq & ->). exists q, (r ++ [c]). rewrite app_assoc. split_and!; [done|done|by destruct r|done].
  - intros (q & r & Er & Hq & Hr & ->). destruct r as [|x r _] using rev_ind; [done|].
    rewrite app_assoc in Er. apply app_inj_tail in Er as [-> _]. by exists q, r.
Qed.

Lemma valid_prefix q r :
  q ≠ [] → Forall plain (q ++ r) → validSourcePath (join "/" (q ++ r)) = true → validSourcePath (join "/" q) = true.
Proof.
  intros Hq. induction r as [|x r IH] using rev_ind; [by rewrite app_nil_r|]. rewrite app_assoc. intros Hp Hv.
  apply valid_parent in Hv; [|by destruct q|done]. apply IH; [|done]. by apply Forall_app in Hp as [? _].
Qed.

Lemma parent_valid name p : validSourcePath name = true → p ∈ parents name → validSourcePath p = true.
Proof.
  intros Hv. rewrite parents_elem by done. intros (q & r & E & Hq & _ & ->).
  pose proof (valid_path_spec _ Hv) as (Hp & _). rewrite E in Hp. apply (valid_prefix q r); [done|done|].
  by rewrite <- E, join_split.
Qed.

(** A directory above a directory above a name is above the name. *)
Lemma parents_trans name p p' :
  validSourcePath name = true → p ∈ parents name → p' ∈ parents p → p' ∈ parents name.
Proof.
  intros Hv Hp Hp'. pose proof (parent_valid _ _ Hv Hp) as Hvp.
  rewrite parents_elem in Hp, Hp' |- * by done. destruct Hp as (q & r & E & Hq & Hr & ->).
  destruct Hp' as (q' & r' & E' & Hq' & Hr' & ->). pose proof (valid_path_spec _ Hv) as (Hpl & _). rewrite E in Hpl.
  apply Forall_app in Hpl as [Hpl _]. rewrite split_join in E'; [|done|by eapply Forall_impl; [exact Hpl|intros ? (?&?&?&?)]].
  exists q', (r' ++ r). rewrite E, E', app_assoc. split_and!; [done|done|by destruct r'|done].
Qed.

(** ** Reading an archive *)

Lemma tree_bytes_insert (t : tree) name e : t !! name = None → tree_bytes (<[name := e]> t) = slen (se_content e) + tree_bytes t.
Proof. intros H. unfold tree_bytes. by rewrite map_to_list_insert. Qed.

Lemma member_entry_ok used h body e n :
  member_entry used h body = Some (e, n) → validSourcePath (member_name h) = true →
  entry_ok (member_name h) e ∧ n = Z.of_nat (slen (se_content e)) ∧ (0 ≤ n)%Z ∧ (used + n ≤ Z.max used MaximumSourceBytes)%Z.
Proof.
  unfold member_entry, entry_ok. intros H Hv. case_decide as Hreg; [|case_decide as Hdir; [|case_decide as Hsym]].
  - destruct (_ || _) eqn:Hs; [done|]. apply orb_false_iff in Hs as [Hs1%Z.ltb_ge Hs2%Z.ltb_ge].
    destruct body as [content|]; [|done]. cbn [mbind option_bind] in H. case_decide as Hl; [|done]. simplify_eq/=.
    unfold go_len in Hl. split_and!; [done|done|by left|done|lia|lia].
  - case_decide; [|done]. simplify_eq/=. split_and!; [done|done|by right; left|done|lia|lia].
  - case_decide as Hl; [|done]. simplify_eq/=. split_and!; [done|done|destruct Hl as [_ Hl]; right; right; done|done|lia|lia].
  - done.
Qed.

Lemma read_members_ok members headers t used t' used' :
  read_members headers t used members = Ok (t', used') →
  map_Forall entry_ok t → (Z.of_nat (size t) ≤ MaximumEntries)%Z → used = Z.of_nat (tree_bytes t) →
  (used ≤ MaximumSourceBytes)%Z →
  map_Forall entry_ok t' ∧ (Z.of_nat (size t') ≤ MaximumEntries)%Z ∧ used' = Z.of_nat (tree_bytes t')
  ∧ (used' ≤ MaximumSourceBytes)%Z.
Proof.
  revert headers t used. induction members as [|[h body] members IH]; intros headers t used H Hok Hsz Hu Hmax;
    cbn [read_members] in H; [by simplify_eq|]. cbv zeta in H.
  destruct (_ || _) eqn:Hc; [done|]. apply orb_false_iff in Hc as [_ Hc%Z.leb_gt].
  case_decide; [destruct (global_records_valid _); [by eapply IH|done]|].
  destruct (_ || existsb _ _) eqn:Hg; [done|]. rewrite !orb_false_iff in Hg.
  destruct Hg as [[[[Hv _] _] Hfresh] _]. apply negb_false_iff in Hv. apply bool_decide_eq_false in Hfresh.
  apply eq_None_not_Some in Hfresh.
  destruct (member_entry _ _ _) as [[e n]|] eqn:Em; [|done].
  destruct (member_entry_ok _ _ _ _ _ Em Hv) as (He & Hn & Hpos & Hle). apply IH in H; [done| | | |].
  - by apply map_Forall_insert_2.
  - rewrite map_size_insert_None by done. lia.
  - rewrite tree_bytes_insert by done. lia.
  - lia.
Qed.

(** What [add_parents] adds: directories with valid names, and all that were asked for. *)
Lemma add_parents_ok ps t t' :
  add_parents t ps = Ok t' → Forall (λ p, validSourcePath p = true) ps →
  map_Forall entry_ok t → (Z.of_nat (size t) ≤ MaximumEntries)%Z →
  map_Forall entry_ok t' ∧ (Z.of_nat (size t') ≤ MaximumEntries)%Z ∧ tree_bytes t' = tree_bytes t
  ∧ t ⊆ t' ∧ (∀ p, p ∈ ps → ∃ d, t' !! p = Some d ∧ se_kind d = TypeDir)
  ∧ (∀ name, is_Some (t' !! name) → is_Some (t !! name) ∨ name ∈ ps).
Proof.
  revert t. induction ps as [|p ps IH]; intros t H Hps Hok Hsz; cbn [add_parents] in H.
  { simplify_eq. split_and!; try done; [by intros ? ?%elem_of_nil|auto]. }
  apply Forall_cons in Hps as [Hp Hps]. destruct (t !! p) as [e|] eqn:Ep.
  - case_decide as Hk; [done|].
    destruct (IH t H Hps Hok Hsz) as (H1 & H2 & H3 & H4 & H5 & H6). split_and!; try done.
    + intros x [->|Hx]%elem_of_cons; [|by apply H5]. exists e. split; [by eapply lookup_weaken|done].
    + intros name Hn. destruct (H6 name Hn); [by left|right; by right].
  - destruct (_ <=? _)%Z eqn:Hc; [done|]. apply Z.leb_gt in Hc.
    assert (Hnew : entry_ok p (MkEntry p TypeDir false "" "")).
    { split_and!; [done|done|]. right. by left. }
    destruct (IH _ H Hps) as (H1 & H2 & H3 & H4 & H5 & H6).
    { by apply map_Forall_insert_2. }
    { rewrite map_size_insert_None by done. lia. }
    rewrite tree_bytes_insert in H3 by done. split_and!; try done.
    + etrans; [by apply insert_subseteq|done].
    + intros x [->|Hx]%elem_of_cons; [|by apply H5]. eexists. split; [eapply lookup_weaken; [|exact H4]; apply lookup_insert_eq|done].
    + intros name Hn. destruct (H6 name Hn) as [Hi|Hi]; [|right; by right].
      destruct (decide (p = name)) as [->|Hne]; [right; left|left]. by rewrite lookup_insert_ne in Hi.
Qed.

Lemma Inspect_spec `{TarFormat} archive expected s :
  Inspect archive expected = Ok s →
  ∃ t0 offset,
    (go_len archive ≤ MaximumArchiveBytes)%Z ∧ Sha256.digest_string archive = expected
    ∧ read_members 0 ∅ 0 (tar_read archive).1 = Ok (t0, rc_SourceBytes (sn_receipt s))
    ∧ (tar_read archive).2 = Some offset ∧ ends_properly archive offset = true
    ∧ add_parents t0 ((map_to_list t0).*1 ≫= parents) = Ok (sn_entries s)
    ∧ (∀ name e, sn_entries s !! name = Some e → se_kind e = TypeSymlink → containedLink (sn_entries s) e = true)
    ∧ sn_archive s = archive ∧ sn_names s = sort_strings (map_to_list (sn_entries s)).*1
    ∧ sn_receipt s = MkReceipt SourceSchema expected (Z.of_nat (length (sn_names s))) (rc_SourceBytes (sn_receipt s)).
Proof.
  unfold Inspect. destruct (_ || _) eqn:Hl; [done|]. rewrite !orb_false_iff in Hl. destruct Hl as [[Hl _] _].
  cbv zeta. case_decide as Hd; [done|]. destruct (tar_read archive) as [members ending].
  intros H1. apply result_bind_Ok in H1 as ([t0 used] & Hm & H1). destruct ending as [offset|]; [|done].
  destruct (ends_properly _ _) eqn:He; [|done]. cbn [negb] in H1. apply result_bind_Ok in H1 as (t & Ha & H1).
  destruct (forallb _ _) eqn:Hf; [|done]. injection H1 as <-. exists t0, offset. simpl.
  split_and!; [lia|done|done|done|done|done| |done|done|by rewrite <- Hd].
  intros name e Hn Hk. apply forallb_Forall in Hf. rewrite Forall_forall in Hf.
  specialize (Hf (name, e)). rewrite elem_of_map_to_list in Hf. specialize (Hf Hn). simpl in Hf.
  apply orb_true_iff in Hf as [Hf|Hf]; [|done]. by apply negb_true_iff, bool_decide_eq_false in Hf.
Qed.

Lemma Inspect_ok `{TarFormat} archive expected s : Inspect archive expected = Ok s → tree_ok (sn_entries s).
Proof.
  intros (t0 & offset & _ & _ & Hm & _ & _ & Ha & Hl & _)%Inspect_spec.
  apply read_members_ok in Hm as (Hok & Hsz & Hu & Hmax); [|apply map_Forall_empty|done|done|done].
  assert (Hvalid : ∀ name, is_Some (t0 !! name) → validSourcePath name = true).
  { intros name [e He]. by apply Hok in He as (_ & ? & _). }
  assert (Hin : ∀ name p, is_Some (t0 !! name) → p ∈ parents name → p ∈ (map_to_list t0).*1 ≫= parents).
  { intros name p [e He] Hp. apply list_elem_of_bind. exists name. split; [done|].
    apply list_elem_of_fmap. exists (name, e). split; [done|]. by apply elem_of_map_to_list. }
  assert (Hof : ∀ p, p ∈ (map_to_list t0).*1 ≫= parents → ∃ name, is_Some (t0 !! name) ∧ p ∈ parents name).
  { intros p (name & Hp & (kv & -> & Hkv)%list_elem_of_fmap)%list_elem_of_bind.
    exists kv.1. split; [|done]. destruct kv as [k v]. apply elem_of_map_to_list in Hkv. by exists v. }
  apply add_parents_ok in Ha as (Hok' & Hsz' & Hb & Hsub & Hdirs & Hnames); [| |done|done].
  - split; [done|done|by rewrite Hb; lia| |done]. intros name e p He Hp. apply Hdirs.
    destruct (Hnames name) as [Hn|Hn]; [by exists e|by eapply Hin|].
    destruct (Hof _ Hn) as (name' & Hn' & Hpn). apply (Hin name'); [done|]. eapply parents_trans; [|done..].
    by apply Hvalid.
  - apply Forall_forall. intros p (name & Hn & Hp)%Hof. eapply parent_valid; [|done]. by apply Hvalid.
Qed.

(** C18: an archive that passes inspection has the expected digest and describes a
    tree that is safe to install: every entry has a valid relative name and the shape
    of its kind, all directories above it are directories of the tree (nothing is
    written through a file or a link), sizes are within the limits, and every symbolic
    link, followed as a file system would from its own directory, leads without
    leaving the tree to its root or to an entry of it that is not a link. *)
Theorem inspected_tree_contained `{TarFormat} archive expected s :
  Inspect archive expected = Ok s →
  Sha256.digest_string archive = expected ∧ sn_archive s = archive
  ∧ (Z.of_nat (size (sn_entries s)) ≤ MaximumEntries)%Z
  ∧ (Z.of_nat (tree_bytes (sn_entries s)) ≤ MaximumSourceBytes)%Z
  ∧ ∀ name e, sn_entries s !! name = Some e →
      entry_ok name e
      ∧ (∀ parent, parent ∈ parents name → ∃ d, sn_entries s !! parent = Some d ∧ se_kind d = TypeDir)
      ∧ (se_kind e = TypeSymlink →
         ∃ node, (∀ node', resolves (sn_entries s) [] (split (Dir name) ++ split (se_target e)) node' ↔ node' = node)
           ∧ (node = [] ∨ ∃ d, sn_entries s !! join "/" node = Some d ∧ se_kind d ≠ TypeSymlink)).
Proof.
  intros HI. pose proof (Inspect_ok _ _ _ HI) as [Hok Hsz Hb Hp Hl].
  apply Inspect_spec in HI as (_ & _ & _ & Hd & _ & _ & _ & _ & _ & Ha & _). split_and!; [done..|].
  intros name e He. pose proof (Hok _ _ He) as Hshape. split_and!; [done|by intros p; apply (Hp name e)|].
  intros Hk. apply (Hl _ _ He), contained_resolves in Hk as [node Hn]. destruct Hshape as [En _]. rewrite En in Hn.
  exists node. split.
  - intros node'. split; [intros Hn'; by eapply resolves_functional|by intros ->].
  - apply resolves_real in Hn; [|intros q r Eq Hq; by destruct q].
    destruct node as [|c node]; [by left|right]. apply (Hn (c :: node) []); [by rewrite app_nil_r|done].
Qed.
