(* ===== verification/WorkspaceChanges.v ===== *)
(** * Workspace change sets

    [internal/workspace/changes.go]: the difference between two verified trees as a
    canonical JSON document, and its application.  A base and a result determine the
    document; the document, with the base, determines the result. *)
From S2P Require Import Prelude.
From S2P Require Import GoStrings.
From S2P Require Import Sha256.
From S2P Require Import GoJson.
From S2P Require Import GoDecode.
From S2P Require Import GoPath.
From S2P Require Import WorkspaceSource.

Definition ChangeSetContract := "dataground.workspace-changes/v1".
Definition MaximumChangeSetBytes : Z := Z.shiftl 64 20.

Definition ErrChangesInvalid := ESentinel "workspace.ErrChangesInvalid".

Record changeNode := MkNode { cn_Kind : string; cn_Executable : bool; cn_Content : string; cn_Target : string }.

Record fileChange := MkChange { fc_Path : string; fc_Before : string; fc_After : option changeNode }.

Record changeDocument := MkDocument {
  cd_Contract : string; cd_BaseArchiveDigest : string; cd_ResultArchiveDigest : string; cd_Changes : list fileChange }.

Record ChangeSetReceipt := MkChangeReceipt {
  cr_SchemaVersion : string; cr_Digest : string; cr_SizeBytes : Z; cr_BaseArchiveDigest : string;
  cr_ResultArchiveDigest : string; cr_ChangeCount : Z; cr_EntryCount : Z; cr_SourceBytes : Z }.

Record ChangeSet := MkChangeSet { cs_encoded : string; cs_receipt : ChangeSetReceipt }.

(** ** Encoding *)

Definition base64 (content : string) : string := of_bytes (b64_encode (bytes_of content)).

Definition omit_empty (key value : string) : list (string * json) :=
  if decide (value = "") then [] else [(key, JStr value)].

Definition node_json (n : changeNode) : json :=
  JObj ([("kind", JStr (cn_Kind n))] ++ (if cn_Executable n then [("executable", JBool true)] else [])
        ++ (if decide (cn_Content n = "") then [] else [("content", JStr (base64 (cn_Content n)))])
        ++ omit_empty "target" (cn_Target n)).

Definition change_json (c : fileChange) : json :=
  JObj ([("path", JStr (fc_Path c))] ++ omit_empty "before" (fc_Before c)
        ++ match fc_After c with None => [] | Some n => [("after", node_json n)] end).

Definition document_json (d : changeDocument) : json :=
  JObj [("contract", JStr (cd_Contract d)); ("baseArchiveDigest", JStr (cd_BaseArchiveDigest d));
        ("resultArchiveDigest", JStr (cd_ResultArchiveDigest d)); ("changes", JArr (change_json <$> cd_Changes d))].

(** ** Decoding

    Fields in the order the encoder writes them; one that is left out reads as its
    zero value.  A field that is present with its zero value is accepted by Go's
    decoder but not written by its encoder, so such a document is refused by the
    comparison with its own encoding; here it is refused at once. *)

Definition take_string (key : string) (fields : list (string * json)) : option (string * list (string * json)) :=
  match fields with
  | (k, JStr s) :: rest => if decide (k = key) then if decide (s = "") then None else Some (s, rest) else Some ("", fields)
  | _ => Some ("", fields)
  end.

Definition take_true (key : string) (fields : list (string * json)) : bool * list (string * json) :=
  match fields with
  | (k, JBool true) :: rest => if decide (k = key) then (true, rest) else (false, fields)
  | _ => (false, fields)
  end.

Definition decode_node (v : json) : option changeNode :=
  match v with
  | JObj ((k, JStr kind) :: fields) =>
      if decide (k = "kind") then
        let '(executable, fields) := take_true "executable" fields in
        '(encoded, fields) ← take_string "content" fields;
        content ← b64_decode (bytes_of encoded);
        '(target, fields) ← take_string "target" fields;
        match fields with [] => Some (MkNode kind executable (of_bytes content) target) | _ => None end
      else None
  | _ => None
  end.

Definition decode_change (v : json) : option fileChange :=
  match v with
  | JObj ((k, JStr path) :: fields) =>
      if decide (k = "path") then
        '(before, fields) ← take_string "before" fields;
        match fields with
        | [] => Some (MkChange path before None)
        | [(k, v)] => if decide (k = "after") then n ← decode_node v; Some (MkChange path before (Some n)) else None
        | _ => None
        end
      else None
  | _ => None
  end.

Definition decode_document (v : json) : option changeDocument :=
  match v with
  | JObj [(k1, JStr contract); (k2, JStr base); (k3, JStr result); (k4, JArr changes)] =>
      if decide (k1 = "contract" ∧ k2 = "baseArchiveDigest" ∧ k3 = "resultArchiveDigest" ∧ k4 = "changes") then
        changes ← mapM decode_change changes; Some (MkDocument contract base result changes)
      else None
  | _ => None
  end.

(** ** Entries and nodes *)

Definition nodeFromEntry (e : sourceEntry) : changeNode :=
  if decide (se_kind e = TypeReg) then MkNode "file" (se_executable e) (se_content e) ""
  else if decide (se_kind e = TypeDir) then MkNode "directory" false "" ""
  else if decide (se_kind e = TypeSymlink) then MkNode "symlink" false "" (se_target e)
  else MkNode "" false "" "".

Definition entryFromNode (name : string) (n : changeNode) : option sourceEntry :=
  if decide (cn_Kind n = "file") then
    if decide (cn_Target n ≠ "") then None else Some (MkEntry name TypeReg (cn_Executable n) (cn_Content n) "")
  else if decide (cn_Kind n = "directory") then
    if decide (cn_Target n ≠ "" ∨ cn_Executable n = true ∨ cn_Content n ≠ "") then None
    else Some (MkEntry name TypeDir false "" "")
  else if decide (cn_Kind n = "symlink") then
    if decide (validLinkText (cn_Target n) = false ∨ cn_Executable n = true ∨ cn_Content n ≠ "") then None
    else Some (MkEntry name TypeSymlink false "" (cn_Target n))
  else None.

Definition sameSourceEntry (l r : sourceEntry) : bool :=
  bool_decide (se_kind l = se_kind r ∧ se_executable l = se_executable r ∧ se_target l = se_target r
               ∧ se_content l = se_content r).

Definition sourceEntryDigest (e : sourceEntry) : string :=
  Sha256.digest_string ("dataground.workspace-node/v1" +:+ chr 0 +:+ String (se_kind e) EmptyString
    +:+ chr (if se_executable e then 1 else 0) +:+ se_target e +:+ chr 0 +:+ se_content e).

Definition workspaceDigest (data : string) : string := Sha256.digest_string data.

Definition changeReceipt (encoded : string) (document : changeDocument) (result : Receipt) : ChangeSetReceipt :=
  MkChangeReceipt ChangeSetContract (workspaceDigest encoded) (go_len encoded) (cd_BaseArchiveDigest document)
    (cd_ResultArchiveDigest document) (Z.of_nat (length (cd_Changes document))) (rc_EntryCount result)
    (rc_SourceBytes result).

(** ** Snapshots from entries *)

Definition entry_header (name : string) (e : sourceEntry) : tar_header :=
  MkHeader name (se_kind e) (if decide (se_kind e = TypeDir ∨ se_executable e = true) then 448 else 384)
    (go_len (se_content e)) (se_target e) [].

Definition sorted_names (t : tree) : list string := sort_strings (map_to_list t).*1.

Definition archive_members (t : tree) : list (tar_header * string) :=
  sorted_names t ≫= λ name, match t !! name with Some e => [(entry_header name e, se_content e)] | None => [] end.

Section operations.
Context `{TarFormat}.

(** The archive only grows, so the bound on it is checked once. *)
Definition snapshotFromEntries (t : tree) : result Snapshot :=
  if (MaximumEntries <? Z.of_nat (size t))%Z
     || negb (forallb (λ kv, validSourcePath kv.1 && bool_decide (se_name kv.2 = kv.1)) (map_to_list t))
     || (MaximumSourceBytes <? Z.of_nat (tree_bytes t))%Z then Err ErrChangesInvalid
  else match tar_write (archive_members t) with
       | None => Err ErrChangesInvalid
       | Some archive =>
           if (MaximumArchiveBytes <? go_len archive)%Z then Err ErrChangesInvalid
           else
             result ← Inspect archive (workspaceDigest archive);
             if decide (size (sn_entries result) ≠ size t) then Err ErrChangesInvalid else Ok result
       end.

(** What one name contributes to the document. *)
Definition change_at (base result : tree) (name : string) : list fileChange :=
  match base !! name, result !! name with
  | Some before, Some after =>
      if sameSourceEntry before after then []
      else [MkChange name (sourceEntryDigest before) (Some (nodeFromEntry after))]
  | Some before, None => [MkChange name (sourceEntryDigest before) None]
  | None, Some after => [MkChange name "" (Some (nodeFromEntry after))]
  | None, None => []
  end.

(** [names] is every name of either tree, in order. *)
Definition tree_changes (base result : tree) (names : list string) : list fileChange := names ≫= change_at base result.

Definition all_names (base result : tree) : list string := sort_compact ((map_to_list base).*1 ++ (map_to_list result).*1).

Definition Compare (base final : Snapshot) : result ChangeSet :=
  match snapshotFromEntries (sn_entries final) with
  | Err _ => Err ErrChangesInvalid
  | Ok canonical =>
      let document := MkDocument ChangeSetContract (rc_ArchiveDigest (sn_receipt base))
        (rc_ArchiveDigest (sn_receipt canonical))
        (tree_changes (sn_entries base) (sn_entries final) (all_names (sn_entries base) (sn_entries final))) in
      let encoded := marshal (document_json document) in
      if (MaximumChangeSetBytes <? go_len encoded)%Z then Err ErrChangesInvalid
      else Ok (MkChangeSet encoded (changeReceipt encoded document (sn_receipt canonical)))
  end.

(** ** Applying *)

Fixpoint apply_each (base : tree) (previous : string) (used : Z) (entries : tree) (changes : list fileChange)
  : result tree :=
  match changes with
  | [] => Ok entries
  | c :: rest =>
      if negb (validSourcePath (fc_Path c)) || negb (bool_decide (slt previous (fc_Path c))) then Err ErrChangesInvalid
      else
        let before := base !! fc_Path c in
        let wrong := match before with
                     | Some e => bool_decide (fc_Before c ≠ sourceEntryDigest e)
                     | None => bool_decide (fc_Before c ≠ "" ∨ fc_After c = None)
                     end in
        if wrong then Err ErrChangesInvalid
        else match fc_After c with
             | None => apply_each base (fc_Path c) used (delete (fc_Path c) entries) rest
             | Some node =>
                 match entryFromNode (fc_Path c) node with
                 | None => Err ErrChangesInvalid
                 | Some after =>
                     if match before with Some e => sameSourceEntry e after | None => false end then Err ErrChangesInvalid
                     else
                       let used := (used + go_len (se_content after))%Z in
                       if (MaximumSourceBytes <? used)%Z then Err ErrChangesInvalid
                       else apply_each base (fc_Path c) used (<[fc_Path c := after]> entries) rest
                 end
             end
  end.

Definition ApplyChanges (base : Snapshot) (encoded expectedDigest : string) : result Snapshot :=
  if bool_decide (encoded = "") || (MaximumChangeSetBytes <? go_len encoded)%Z
     || bool_decide (workspaceDigest encoded ≠ expectedDigest) then Err ErrChangesInvalid
  else match unmarshal encoded ≫= decode_document with
       | None => Err ErrChangesInvalid
       | Some document =>
           if bool_decide (cd_Contract document ≠ ChangeSetContract
                           ∨ cd_BaseArchiveDigest document ≠ rc_ArchiveDigest (sn_receipt base))
              || (2 * MaximumEntries <? Z.of_nat (length (cd_Changes document)))%Z
              || negb (bool_decide (marshal (document_json document) = encoded)) then Err ErrChangesInvalid
           else
             entries ← apply_each (sn_entries base) "" 0 (sn_entries base) (cd_Changes document);
             match snapshotFromEntries entries with
             | Err _ => Err ErrChangesInvalid
             | Ok result =>
                 if decide (rc_ArchiveDigest (sn_receipt result) ≠ cd_ResultArchiveDigest document)
                 then Err ErrChangesInvalid else Ok result
             end
       end.

Definition InspectChanges (base : Snapshot) (encoded expectedDigest : string) : result ChangeSet :=
  result ← ApplyChanges base encoded expectedDigest;
  changes ← Compare base result;
  if decide (cr_Digest (cs_receipt changes) ≠ expectedDigest) then Err ErrChangesInvalid else Ok changes.
End operations.
