(* ===== verification/WorkspaceProofs.v ===== *)
(** * Change sets: comparing and applying are inverse

    The encoding of a change document is read back; applying the comparison of two
    trees yields the second; a document that applies is the comparison of the base
    and its result. *)
From S2P Require Import Prelude.
From S2P Require Import GoStrings.
From S2P Require Import Sha256.
From S2P Require Import GoJson.
From S2P Require Import GoDecode.
From S2P Require Import GoPath.
From S2P Require Import WorkspaceSource.
From S2P Require Import WorkspaceChanges.

(** ** What is relied on of the tar format *)

(** The members [snapshotFromEntries] writes. *)
Definition plain_member (m : tar_header * string) : Prop :=
  validSourcePath (th_Name m.1) = true ∧ th_Typeflag m.1 ∈ [TypeReg; TypeDir; TypeSymlink]
  ∧ th_Size m.1 = go_len m.2 ∧ (th_Mode m.1 = 384 ∨ th_Mode m.1 = 448)%Z ∧ th_PAXRecords m.1 = [].

(** A member read back: its own fields and content; the reader may add records of
    its own, but none of a sparse file. *)
Definition reads_back (m : tar_header * string) (r : tar_header * option string) : Prop :=
  th_Name r.1 = th_Name m.1 ∧ th_Typeflag r.1 = th_Typeflag m.1 ∧ th_Mode r.1 = th_Mode m.1
  ∧ th_Size r.1 = th_Size m.1 ∧ th_Linkname r.1 = th_Linkname m.1
  ∧ existsb sparse_record (th_PAXRecords r.1) = false ∧ r.2 = Some m.2.

(** [archive/tar]: a [Reader] yields what a [Writer] wrote. *)
Class TarLaws `{TarFormat} : Prop := {
  tar_read_write ms archive :
    Forall plain_member ms → tar_write ms = Some archive → Forall2 reads_back ms (tar_read archive).1;
}.

(** ** The encoding is read back *)

Lemma b64_encode_nil bs : b64_encode bs = [] → bs = [].
Proof. by destruct bs as [|? [|? [|? ?]]]. Qed.

Lemma base64_nonempty s : s ≠ "" → base64 s ≠ "".
Proof.
  intros Hs E. apply Hs, bytes_of_inj. apply (f_equal bytes_of) in E. unfold base64 in E. rewrite bytes_of_of in E.
  by apply b64_encode_nil in E.
Qed.

Lemma base64_decodes s : b64_decode (bytes_of (base64 s)) = Some (bytes_of s).
Proof. unfold base64. rewrite bytes_of_of. apply b64_decode_encode. Qed.

Lemma take_present key value fields : value ≠ "" → take_string key ((key, JStr value) :: fields) = Some (value, fields).
Proof. intros Hv. cbn [take_string]. by rewrite decide_True, decide_False. Qed.

Lemma take_absent key k v fields : k ≠ key → take_string key ((k, v) :: fields) = Some ("", (k, v) :: fields).
Proof. intros Hk. destruct v; try done. cbn [take_string]. by rewrite decide_False. Qed.

Lemma decode_node_json n : decode_node (node_json n) = Some n.
Proof.
  destruct n as [kind executable content target]. unfold node_json, decode_node, omit_empty.
  cbn [cn_Kind cn_Executable cn_Content cn_Target app]. rewrite decide_True by done.
  assert (Hx : ∀ rest, (∀ b r, rest ≠ ("executable", JBool b) :: r) →
    take_true "executable" ((if executable then [("executable", JBool true)] else []) ++ rest) = (executable, rest)).
  { intros rest Hr. destruct executable; [done|]. cbn [app]. destruct rest as [|[k [| [] | | | |]] rest]; try done.
    cbn [take_true]. rewrite decide_False; [done|]. intros ->. by eapply Hr. }
  rewrite Hx by (destruct (decide (content = "")); destruct (decide (target = "")); done). clear Hx.
  assert (Htail : ('(t, fields) ← take_string "target" (if decide (target = "") then [] else [("target", JStr target)]);
    match fields with [] => Some (MkNode kind executable content t) | _ => None end) = Some (MkNode kind executable content target)).
  { case_decide as Ht; [by subst|]. by rewrite take_present. }
  destruct (decide (content = "")) as [->|Hc]; cbn [app].
  - assert (take_string "content" (if decide (target = "") then [] else [("target", JStr target)])
      = Some ("", if decide (target = "") then [] else [("target", JStr target)])) as -> by (by case_decide).
    exact Htail.
  - rewrite take_present by (by apply base64_nonempty). cbn [mbind option_bind]. rewrite base64_decodes.
    cbn [mbind option_bind]. rewrite of_bytes_of. exact Htail.
Qed.

Lemma decode_change_json c : decode_change (change_json c) = Some c.
Proof.
  destruct c as [path before after]. unfold change_json, decode_change, omit_empty.
  cbn [fc_Path fc_Before fc_After app]. rewrite decide_True by done.
  destruct (decide (before = "")) as [->|Hb]; destruct after as [n|]; cbn [app].
  - rewrite take_absent by done. cbn -[decode_node node_json]. by rewrite decode_node_json.
  - done.
  - rewrite take_present by done. cbn -[decode_node node_json]. by rewrite decode_node_json.
  - by rewrite take_present.
Qed.

Lemma decode_document_json d : decode_document (document_json d) = Some d.
Proof.
  destruct d as [contract base final changes]. unfold document_json, decode_document. cbn [cd_Contract cd_BaseArchiveDigest cd_ResultArchiveDigest cd_Changes].
  rewrite decide_True by done. assert (mapM decode_change (change_json <$> changes) = Some changes) as ->; [|done].
  induction changes as [|c changes IH]; [done|]. rewrite fmap_cons. cbn [mapM]. rewrite decode_change_json. cbn [mbind option_bind].
  by rewrite IH.
Qed.

(** ** The strings of a document are text *)

Definition is_ascii (c : ascii) : bool := (byte_value c <? 128)%N.

Lemma ascii_utf8 s : all_bytes is_ascii s = true → valid_utf8 s = true.
Proof.
  unfold all_bytes, valid_utf8, runes. induction (bytes_of s) as [|c bs IH]; [done|]. cbn [forallb].
  rewrite andb_true_iff. intros [Hc Hs]. unfold is_ascii in Hc. simpl. rewrite Hc. simpl. by apply IH.
Qed.

Lemma digest_utf8 s : valid_utf8 (Sha256.digest_string s) = true.
Proof.
  apply ascii_utf8. unfold Sha256.digest_string, all_bytes. rewrite bytes_of_app, forallb_app, andb_true_iff. split; [done|].
  apply (Identity.all_bytes_impl is_hex_lower); [|apply Sha256.hex_encode_class, Sha256.Sum256_bytes].
  intros c. unfold is_hex_lower, is_digit, is_ascii. rewrite orb_true_iff, !in_range_iff, N.ltb_lt. lia.
Qed.

Lemma base64_utf8 s : valid_utf8 (base64 s) = true.
Proof.
  apply ascii_utf8. unfold base64, all_bytes. rewrite bytes_of_of. generalize (bytes_of s) as bs. clear s.
  assert (Hc : ∀ n, (n < 64)%N → is_ascii (b64_char n) = true).
  { intros n Hn. assert (H : Forall (λ m, is_ascii (b64_char m) = true) (N.of_nat <$> seq 0 64)).
    { apply Forall_fmap. repeat (constructor; [done|]). constructor. }
    rewrite Forall_forall in H. apply H. apply list_elem_of_fmap. exists (N.to_nat n). rewrite elem_of_seq. lia. }
  intros bs. induction bs as [bs IH] using (induction_ltof1 _ (@length ascii)).
  destruct bs as [|a [|b [|c rest]]]; [done| | |]; pose proof (byte_value_lt a) as Ha;
    try pose proof (byte_value_lt b) as Hb; try pose proof (byte_value_lt c) as Hcb; cbn [b64_encode app forallb];
    rewrite !Hc by div_lia; [done..|]. apply IH. unfold ltof. simpl. lia.
Qed.

Definition change_utf8 (c : fileChange) : bool :=
  valid_utf8 (fc_Path c) && valid_utf8 (fc_Before c)
  && match fc_After c with None => true | Some n => valid_utf8 (cn_Kind n) && valid_utf8 (cn_Target n) end.

Lemma node_utf8 n : valid_utf8 (cn_Kind n) = true → valid_utf8 (cn_Target n) = true → json_utf8 (node_json n) = true.
Proof.
  intros Hk Ht. unfold node_json, omit_empty. cbn [json_utf8]. rewrite !forallb_app, !andb_true_iff. split_and!.
  - simpl. by rewrite Hk.
  - by destruct (cn_Executable n).
  - destruct (decide _); [done|]. cbn -[base64]. by rewrite base64_utf8.
  - destruct (decide _); [done|]. simpl. by rewrite Ht.
Qed.

Lemma document_utf8 d :
  valid_utf8 (cd_Contract d) = true → valid_utf8 (cd_BaseArchiveDigest d) = true →
  valid_utf8 (cd_ResultArchiveDigest d) = true → Forall (λ c, change_utf8 c = true) (cd_Changes d) →
  json_utf8 (document_json d) = true.
Proof.
  intros H1 H2 H3 H4. unfold document_json. cbn [json_utf8 forallb fst snd]. rewrite H1, H2, H3. simpl.
  rewrite andb_true_r. apply forallb_Forall, Forall_fmap. eapply Forall_impl; [done|].
  intros [path before after]. unfold change_utf8. cbn [fc_Path fc_Before fc_After compose].
  rewrite !andb_true_iff. intros [[Hp Hb] Ha]. unfold compose, change_json, omit_empty. cbn [fc_Path fc_Before fc_After json_utf8].
  rewrite !forallb_app, !andb_true_iff. split_and!.
  - simpl. by rewrite Hp.
  - destruct (decide _); [done|]. simpl. by rewrite Hb.
  - destruct after as [n|]; [|done]. apply andb_true_iff in Ha as [? ?]. cbn [forallb fst snd]. by rewrite node_utf8.
Qed.

Lemma link_text_utf8 s : validLinkText s = true → valid_utf8 s = true.
Proof. unfold validLinkText. rewrite !andb_true_iff. tauto. Qed.

Lemma path_utf8 s : validSourcePath s = true → valid_utf8 s = true.
Proof.
  unfold validSourcePath. destruct (_ || _) eqn:E; [done|]. intros _. apply link_text_utf8.
  rewrite !orb_false_iff, !negb_false_iff in E. tauto.
Qed.

Lemma entry_node_utf8 name e : entry_ok name e →
  valid_utf8 (cn_Kind (nodeFromEntry e)) = true ∧ valid_utf8 (cn_Target (nodeFromEntry e)) = true.
Proof.
  intros (_ & _ & [[Hk _]|[[Hk _]|[Hk (_ & _ & Ht)]]]); unfold nodeFromEntry; rewrite Hk; split; try done.
  by apply link_text_utf8.
Qed.

Lemma tree_changes_utf8 (base final : tree) names :
  map_Forall entry_ok base → map_Forall entry_ok final →
  Forall (λ c, change_utf8 c = true) (tree_changes base final names).
Proof.
  intros Hb Hf. apply Forall_forall. intros c (name & Hc & _)%list_elem_of_bind. unfold change_at in Hc.
  assert (Hd : ∀ e, final !! name = Some e → change_utf8 (MkChange name "" (Some (nodeFromEntry e))) = true).
  { intros e He. destruct (entry_node_utf8 _ _ (Hf _ _ He)) as [H1 H2]. unfold change_utf8. cbn [fc_Path fc_Before fc_After].
    rewrite H1, H2. destruct (Hf _ _ He) as (_ & Hn & _). by rewrite path_utf8. }
  assert (Hp : ∀ e, base !! name = Some e → valid_utf8 name = true).
  { intros e He. apply path_utf8. by destruct (Hb _ _ He) as (_ & ? & _). }
  assert (Hdg : ∀ e, valid_utf8 (sourceEntryDigest e) = true) by (intros; apply digest_utf8).
  destruct (base !! name) as [before|] eqn:Eb, (final !! name) as [after|] eqn:Ef; [destruct (sameSourceEntry _ _)|..];
    rewrite ?list_elem_of_singleton in Hc; try (by apply elem_of_nil in Hc); subst c; [|clear Hd|by apply Hd].
  - specialize (Hd _ eq_refl). unfold change_utf8 in *. cbn [fc_Path fc_Before fc_After] in *.
    rewrite !andb_true_iff in Hd |- *. rewrite Hdg. tauto.
  - unfold change_utf8. cbn [fc_Path fc_Before fc_After]. by rewrite Hdg, (Hp _ eq_refl).
Qed.

Lemma unmarshal_document d : json_utf8 (document_json d) = true → unmarshal (marshal (document_json d)) ≫= decode_document = Some d.
Proof. intros H. rewrite unmarshal_marshal by done. apply decode_document_json. Qed.

(** ** Applying a comparison *)

Lemma entry_node_inverse name e : entry_ok name e → entryFromNode name (nodeFromEntry e) = Some e.
Proof.
  destruct e as [n k x c t]. intros (E & _ & Hs). simpl in *. subst n. unfold nodeFromEntry, entryFromNode. cbn [se_kind].
  destruct Hs as [[-> ->]|[(-> & -> & -> & ->)|(-> & -> & -> & Ht)]]; [done..|].
  rewrite (decide_False (P := TypeSymlink = TypeReg)), (decide_False (P := TypeSymlink = TypeDir)), (decide_True (P := TypeSymlink = TypeSymlink)) by done.
  cbn [cn_Kind cn_Executable cn_Content cn_Target se_target].
  rewrite (decide_False (P := "symlink" = "file")), (decide_False (P := "symlink" = "directory")), (decide_True (P := "symlink" = "symlink")) by done.
  rewrite decide_False; [done|]. rewrite Ht. intros [?|[?|?]]; done.
Qed.

Lemma same_entry_eq name e e' : entry_ok name e → entry_ok name e' → sameSourceEntry e e' = true → e = e'.
Proof.
  intros [H1 _] [H2 _] (?&?&?&?)%bool_decide_eq_true. destruct e, e'. simpl in *. congruence.
Qed.

Definition bytes_at (t : tree) (name : string) : nat := match t !! name with Some e => slen (se_content e) | None => 0 end.

Lemma bytes_at_sum (t : tree) names : NoDup names → sum_list_with (bytes_at t) names ≤ tree_bytes t.
Proof.
  revert t. induction names as [|name names IH]; intros t Hnd; [simpl; lia|]. apply NoDup_cons in Hnd as [Hni Hnd].
  assert (Hrest : sum_list_with (bytes_at t) names = sum_list_with (bytes_at (delete name t)) names).
  { clear IH Hnd. induction names as [|n names IH]; [done|]. apply not_elem_of_cons in Hni as [Hne Hni]. simpl.
    rewrite IH by done. unfold bytes_at at 1 3. by rewrite lookup_delete_ne. }
  simpl. rewrite Hrest. specialize (IH (delete name t) Hnd). unfold bytes_at at 1. destruct (t !! name) as [e|] eqn:E.
  - rewrite <- (insert_delete_id t name e) at 2 by done. rewrite tree_bytes_insert by apply lookup_delete_eq. lia.
  - rewrite delete_id in IH |- * by done. lia.
Qed.

Lemma sorted_skip (x y : string) l : StronglySorted slt (x :: y :: l) → StronglySorted slt (x :: l).
Proof.
  intros Hs. apply StronglySorted_inv in Hs as [Hs Hx]. apply StronglySorted_inv in Hs as [Hs _].
  constructor; [done|]. by apply Forall_cons in Hx as [_ ?].
Qed.

Lemma sorted_first (x y : string) l : StronglySorted slt (x :: y :: l) → slt x y ∧ StronglySorted slt (y :: l) ∧ y ∉ l.
Proof.
  intros Hs. apply StronglySorted_inv in Hs as [Hs Hx]. apply Forall_cons in Hx as [Hxy _]. split_and!; [done..|].
  apply StronglySorted_inv in Hs as [_ Hy]. intros Hin. rewrite Forall_forall in Hy. by destruct (Hy _ Hin).
Qed.

(** One step of the application, for a change that removes and one that writes an entry. *)
Lemma apply_removal (base : tree) previous used m name e rest :
  slt previous name → base !! name = Some e → validSourcePath name = true →
  apply_each base previous used m (MkChange name (sourceEntryDigest e) None :: rest)
  = apply_each base name used (delete name m) rest.
Proof.
  intros Hlt He Hv. cbn [apply_each fc_Path fc_Before fc_After]. rewrite He, Hv, bool_decide_eq_true_2 by done. cbn [negb orb].
  by rewrite bool_decide_eq_false_2 by (by intros []).
Qed.

Definition digest_before (base : tree) (name : string) : string :=
  match base !! name with Some e => sourceEntryDigest e | None => "" end.

Lemma apply_write (base : tree) previous used m name e rest :
  slt previous name → entry_ok name e → (used + Z.of_nat (slen (se_content e)) ≤ MaximumSourceBytes)%Z →
  match base !! name with Some e' => sameSourceEntry e' e = false | None => True end →
  apply_each base previous used m (MkChange name (digest_before base name) (Some (nodeFromEntry e)) :: rest)
  = apply_each base name (used + Z.of_nat (slen (se_content e))) (<[name := e]> m) rest.
Proof.
  intros Hlt He Hu Hs. destruct (He) as (_ & Hv & _). cbn [apply_each fc_Path fc_Before fc_After].
  rewrite Hv, bool_decide_eq_true_2, entry_node_inverse by done. cbn [negb orb]. cbv zeta.
  unfold go_len. fold (slen (se_content e)). rewrite (proj2 (Z.ltb_ge _ _)) by lia.
  unfold digest_before. destruct (base !! name) as [e'|]; rewrite bool_decide_eq_false_2 by (intros [] || intros [?|?]; done);
    by rewrite ?Hs.
Qed.

(** Two trees that agree off [names], and what one more name does to them. *)
Definition agrees_off (names : list string) (final m m' : tree) : Prop :=
  ∀ k, m' !! k = if decide (k ∈ names) then final !! k else m !! k.

Lemma agrees_off_cons name names (final m m0 m' : tree) :
  name ∉ names → agrees_off names final m0 m' → m0 !! name = final !! name → (∀ k, k ≠ name → m0 !! k = m !! k) →
  agrees_off (name :: names) final m m'.
Proof.
  intros Hni H1 H2 H3 k. rewrite H1. destruct (decide (k = name)) as [->|Hne].
  - rewrite decide_False by done. by rewrite decide_True by left.
  - destruct (decide (k ∈ names)) as [Hk|Hk]; case_decide as Hk'; [done| | |by apply H3].
    + by destruct Hk'; right.
    + by apply elem_of_cons in Hk' as [?|?].
Qed.

Lemma apply_tree_changes (base final : tree) names previous used (m : tree) :
  map_Forall entry_ok base → map_Forall entry_ok final →
  StronglySorted slt (previous :: names) → (∀ k, k ∈ names → m !! k = base !! k) →
  (used + Z.of_nat (sum_list_with (bytes_at final) names) ≤ MaximumSourceBytes)%Z →
  ∃ m', apply_each base previous used m (tree_changes base final names) = Ok m' ∧ agrees_off names final m m'.
Proof.
  intros Hb Hf. revert previous used m. induction names as [|name names IH]; intros previous used m Hs Hm Hu.
  { exists m. split; [done|]. intros k. by rewrite decide_False by (by intros ?%elem_of_nil). }
  pose proof (sorted_skip _ _ _ Hs) as Hskip. apply sorted_first in Hs as (Hlt & Hs & Hni). simpl in Hu.
  assert (Hm0 : ∀ m0 : tree, (∀ k, k ≠ name → m0 !! k = m !! k) → ∀ k, k ∈ names → m0 !! k = base !! k).
  { intros m0 H k Hk. rewrite H by (intros ->; done). apply Hm. by right. }
  assert (Hmn : m !! name = base !! name) by (apply Hm; by left).
  change (tree_changes base final (name :: names)) with (change_at base final name ++ tree_changes base final names).
  (* the tree is left alone *)
  assert (Hkeep : base !! name = final !! name →
    ∃ m', apply_each base previous used m (tree_changes base final names) = Ok m' ∧ agrees_off (name :: names) final m m').
  { intros E. destruct (IH previous used m) as (m' & Ha & Hl); [done|by apply Hm0|lia|]. exists m'. split; [done|].
    eapply agrees_off_cons; [done|done|congruence|done]. }
  (* the entry is written *)
  assert (Hwrite : ∀ e, final !! name = Some e →
    match base !! name with Some e' => sameSourceEntry e' e = false | None => True end →
    ∃ m', apply_each base previous used m
        (MkChange name (digest_before base name) (Some (nodeFromEntry e)) :: tree_changes base final names) = Ok m'
      ∧ agrees_off (name :: names) final m m').
  { intros e He Hd. unfold bytes_at in Hu at 1. rewrite He in Hu. rewrite apply_write by (done || lia || by apply Hf).
    destruct (IH name (used + Z.of_nat (slen (se_content e)))%Z (<[name := e]> m)) as (m' & Ha & Hl); [done| |lia|].
    { apply Hm0. intros k Hk. by rewrite lookup_insert_ne. }
    exists m'. split; [done|]. eapply agrees_off_cons; [done|done|by rewrite lookup_insert_eq|].
    intros k Hk. by rewrite lookup_insert_ne. }
  unfold change_at, digest_before in *.
  destruct (base !! name) as [before|] eqn:Eb, (final !! name) as [after|] eqn:Ef; [|clear Hwrite|by apply Hwrite|by apply Hkeep].
  - destruct (sameSourceEntry before after) eqn:Esame; [|by apply Hwrite]. apply Hkeep. f_equal.
    eapply same_entry_eq; [by apply Hb|by apply Hf|done].
  - cbn [app]. rewrite apply_removal; [|done|done|by destruct (Hb _ _ Eb) as (_ & ? & _)].
    destruct (IH name used (delete name m)) as (m' & Ha & Hl); [done| |lia|].
    { apply Hm0. intros k Hk. by rewrite lookup_delete_ne. }
    exists m'. split; [done|]. eapply agrees_off_cons; [done|done|by rewrite lookup_delete_eq|].
    intros k Hk. by rewrite lookup_delete_ne.
Qed.

(** ** Writing a tree and reading it back *)

Lemma split_trailing l : split_bytes (l ++ [slash]) = split_bytes l ++ [[]].
Proof.
  induction l as [|c l IH]; [done|]. cbn [app split_bytes]. rewrite IH. case_decide; [done|].
  destruct (split_bytes l) as [|p ps] eqn:E; [by apply split_bytes_nonempty in E|done].
Qed.

Lemma trim_slash_valid name : validSourcePath name = true → trim_slash name = name.
Proof.
  intros (Hp & _)%valid_path_spec. unfold trim_slash. destruct (rev (bytes_of name)) as [|c r] eqn:E; [done|].
  case_decide as Hc; [|done]. exfalso. apply (f_equal (@rev _)) in E. rewrite rev_involutive in E. simpl in E. subst c.
  unfold split in Hp. rewrite E, split_trailing, fmap_app in Hp. apply Forall_app in Hp as [_ Hp].
  apply Forall_inv in Hp as [Hp _]. by apply Hp.
Qed.

Lemma entry_kind name e : entry_ok name e → se_kind e ∈ [TypeReg; TypeDir; TypeSymlink].
Proof. intros (_ & _ & [[-> _]|[[-> _]|[-> _]]]); set_solver. Qed.

Lemma entry_member_plain name e : entry_ok name e → plain_member (entry_header name e, se_content e).
Proof.
  intros He. pose proof (entry_kind _ _ He). destruct He as (_ & Hv & _). unfold plain_member, entry_header. simpl.
  split_and!; [done..| |done]. case_decide; auto.
Qed.

(** Reading back a written entry yields the entry. *)
Lemma member_back name e h body used :
  entry_ok name e → reads_back (entry_header name e, se_content e) (h, body) →
  member_name h = name ∧ th_Typeflag h ≠ TypeXGlobalHeader
  ∧ ∀ e' n, member_entry used h body = Some (e', n) → e' = e.
Proof.
  intros He (Hn & Hk & Hm & Hs & Hl & _ & Hb). pose proof (entry_kind _ _ He) as Hkind. simpl in *.
  assert (Hname : member_name h = name).
  { unfold member_name. rewrite Hn. destruct (decide (th_Typeflag h = TypeDir)); [|done]. apply trim_slash_valid.
    by destruct He as (_ & ? & _). }
  split_and!; [done| |].
  { rewrite Hk. intros E. rewrite E in Hkind. repeat (apply elem_of_cons in Hkind as [Hkind|Hkind]; [done|]). by apply elem_of_nil in Hkind. }
  intros e' n. unfold member_entry. rewrite Hname, Hk, Hm, Hs, Hl, Hb. destruct e as [nm k x c t]. simpl in *.
  destruct He as (E & _ & Hshape). simpl in *. subst nm.
  destruct Hshape as [[-> ->]|[(-> & -> & -> & ->)|(-> & -> & -> & Ht)]].
  - rewrite decide_True by (by left). destruct (_ || _); [done|]. cbn [mbind option_bind].
    rewrite decide_True by done. intros [= <- _]. f_equal. destruct x; [by rewrite decide_True by (by right)|].
    by rewrite decide_False by (intros [?|?]; done).
  - cbn. intros [= <- _]. done.
  - rewrite decide_False by (intros [?|?]; done). rewrite decide_False by done. rewrite decide_True by done.
    rewrite decide_True by done. intros [= <- _]. done.
Qed.

Definition members_at (t : tree) (names : list string) : list (tar_header * string) :=
  names ≫= λ name, match t !! name with Some e => [(entry_header name e, se_content e)] | None => [] end.

Lemma members_plain (t : tree) names : map_Forall entry_ok t → Forall plain_member (members_at t names).
Proof.
  intros Ht. apply Forall_forall. intros m (name & Hm & _)%list_elem_of_bind.
  destruct (t !! name) as [e|] eqn:E; [|by apply elem_of_nil in Hm]. apply list_elem_of_singleton in Hm as ->.
  apply entry_member_plain. by apply Ht.
Qed.

Lemma read_members_back (t : tree) names headers (m : tree) used rs m' used' :
  map_Forall entry_ok t → (∀ name, name ∈ names → is_Some (t !! name)) →
  Forall2 reads_back (members_at t names) rs → read_members headers m used rs = Ok (m', used') → NoDup names →
  agrees_off names t m m'.
Proof.
  intros Ht. revert headers m used rs. induction names as [|name names IH]; intros headers m used rs Hin Hf Hr Hnd.
  { apply Forall2_nil_inv_l in Hf as ->. simpl in Hr. simplify_eq. intros k. by rewrite decide_False by (by intros ?%elem_of_nil). }
  apply NoDup_cons in Hnd as [Hni Hnd]. destruct (Hin name ltac:(by left)) as [e He].
  unfold members_at in Hf. rewrite bind_cons, He in Hf. cbn [app] in Hf. fold (members_at t names) in Hf.
  apply Forall2_cons_inv_l in Hf as ([h body] & rs' & Hb & Hf & ->). cbn [read_members] in Hr. cbv zeta in Hr.
  destruct (member_back _ _ _ _ used (Ht _ _ He) Hb) as (Hname & Hk & Hentry). rewrite Hname in Hr.
  destruct (_ || _); [done|]. rewrite decide_False in Hr by done. destruct (_ || existsb _ _); [done|].
  destruct (member_entry _ _ _) as [[e' n]|]; [|done]. rewrite (Hentry _ _ eq_refl) in Hr.
  eapply IH in Hr; [|intros ? ?; apply Hin; by right|done|done].
  eapply agrees_off_cons; [done|done|by rewrite lookup_insert_eq|]. intros k Hk'. by rewrite lookup_insert_ne.
Qed.

Lemma sorted_names_elem (t : tree) name : name ∈ sorted_names t ↔ is_Some (t !! name).
Proof.
  unfold sorted_names. rewrite sort_strings_Permutation, list_elem_of_fmap. split.
  - intros ([k e] & -> & Hk%elem_of_map_to_list). by exists e.
  - intros [e He]. exists (name, e). split; [done|]. by apply elem_of_map_to_list.
Qed.

Lemma sorted_names_NoDup (t : tree) : NoDup (sorted_names t).
Proof. unfold sorted_names. rewrite sort_strings_Permutation. apply NoDup_fst_map_to_list. Qed.

(** A tree written as an archive is the tree that archive describes. *)
Lemma snapshot_entries `{TarLaws} (t : tree) s :
  map_Forall entry_ok t → snapshotFromEntries t = Ok s →
  sn_entries s = t ∧ ∃ archive, Inspect archive (workspaceDigest archive) = Ok s.
Proof.
  intros Ht Hs. unfold snapshotFromEntries in Hs. destruct (_ || _); [done|].
  destruct (tar_write _) as [archive|] eqn:Ew; [|done]. destruct (_ <? _)%Z; [done|].
  apply result_bind_Ok in Hs as (s' & HI & Hs). case_decide as Hsize; [done|]. injection Hs as ->.
  split; [|by exists archive]. symmetry.
  pose proof (Inspect_spec _ _ _ HI) as (t0 & offset & _ & _ & Hm & _ & _ & Ha & _).
  assert (Hback : Forall2 reads_back (members_at t (sorted_names t)) (tar_read archive).1).
  { apply tar_read_write; [by apply members_plain|done]. }
  assert (t0 = t) as ->.
  { pose proof Hm as Hag. eapply read_members_back in Hag; [|done| |done|apply sorted_names_NoDup].
    - apply map_eq. intros k. rewrite Hag. case_decide as Hk; [done|].
      rewrite lookup_empty. rewrite sorted_names_elem in Hk. by apply eq_None_not_Some in Hk.
    - intros name. by rewrite sorted_names_elem. }
  apply read_members_ok in Hm as (Hok & Hsz & _); [|apply map_Forall_empty|done|done|done].
  apply add_parents_ok in Ha as (_ & _ & _ & Hsub & _); [| |done|done].
  - apply map_subseteq_size_eq; [done|]. by rewrite Hsize.
  - apply Forall_forall. intros p (name & Hp & Hn)%list_elem_of_bind. eapply parent_valid; [|done].
    apply list_elem_of_fmap in Hn as ([k e] & -> & Hk%elem_of_map_to_list). by destruct (Ht _ _ Hk) as (_ & ? & _).
Qed.

(** ** Comparing, then applying *)

Lemma all_names_elem (base final : tree) k : k ∈ all_names base final ↔ is_Some (base !! k) ∨ is_Some (final !! k).
Proof.
  unfold all_names. rewrite sort_compact_elem_of, elem_of_app.
  assert (Hk : ∀ t : tree, k ∈ (map_to_list t).*1 ↔ is_Some (t !! k)); [|by rewrite !Hk].
  intros t. rewrite <- sorted_names_elem. unfold sorted_names. by rewrite sort_strings_Permutation.
Qed.

Lemma strict_NoDup l : StronglySorted slt l → NoDup l.
Proof.
  induction 1 as [|x l Hs IH Hall]; constructor; [|done]. intros Hin. eapply Forall_forall in Hall as [_ Hne]; done.
Qed.

Lemma slt_empty s : s ≠ "" → slt "" s.
Proof. intros Hs. split; [|by intros <-]. by destruct s. Qed.

Lemma valid_nonempty name : validSourcePath name = true → name ≠ "".
Proof. by intros H ->. Qed.

Lemma all_names_sorted (base final : tree) :
  map_Forall entry_ok base → map_Forall entry_ok final → StronglySorted slt ("" :: all_names base final).
Proof.
  intros Hb Hf. constructor; [apply sort_compact_strict|]. apply Forall_forall. intros k Hk%all_names_elem.
  apply slt_empty, valid_nonempty. by destruct Hk as [[e He]|[e He]]; [apply Hb in He as (_ & ? & _)|apply Hf in He as (_ & ? & _)].
Qed.

Lemma change_at_length base final name : length (change_at base final name) ≤ 1.
Proof. unfold change_at. destruct (base !! name), (final !! name); [destruct (sameSourceEntry _ _)|..]; simpl; lia. Qed.

Lemma compact_length l : length (compact l) ≤ length l.
Proof.
  induction l as [|x l IH]; [done|]. destruct l as [|y l]; [done|].
  change (compact (x :: y :: l)) with (if decide (x = y) then compact (y :: l) else x :: compact (y :: l)).
  case_decide; simpl in *; lia.
Qed.

Lemma tree_changes_length (base final : tree) : length (tree_changes base final (all_names base final)) ≤ size base + size final.
Proof.
  trans (length (all_names base final)).
  - unfold tree_changes. induction (all_names base final) as [|name names IH]; [done|]. rewrite bind_cons, length_app. simpl.
    pose proof (change_at_length base final name). lia.
  - unfold all_names, sort_compact. rewrite compact_length, sort_strings_Permutation, length_app, !length_fmap.
    by rewrite !length_map_to_list.
Qed.

(** The whole comparison, applied to its base, gives the other tree. *)
Lemma apply_comparison (base final : tree) :
  tree_ok base → tree_ok final →
  apply_each base "" 0 base (tree_changes base final (all_names base final)) = Ok final.
Proof.
  intros [Hb _ _ _ _] [Hf _ Hbytes _ _].
  destruct (apply_tree_changes base final (all_names base final) "" 0 base) as (m' & -> & Hl); [done|done| |done| |].
  - by apply all_names_sorted.
  - pose proof (bytes_at_sum final (all_names base final) (strict_NoDup _ (sort_compact_strict _))). lia.
  - f_equal. apply map_eq. intros k. rewrite Hl. case_decide as Hk; [done|]. rewrite all_names_elem in Hk.
    destruct (base !! k) as [e|]; [by destruct Hk; left; eexists|].
    destruct (final !! k) as [e|]; [by destruct Hk; right; eexists|done].
Qed.

Lemma Compare_spec `{TarFormat} base final cs :
  Compare base final = Ok cs →
  ∃ canonical, snapshotFromEntries (sn_entries final) = Ok canonical
    ∧ let document := MkDocument ChangeSetContract (rc_ArchiveDigest (sn_receipt base))
        (rc_ArchiveDigest (sn_receipt canonical))
        (tree_changes (sn_entries base) (sn_entries final) (all_names (sn_entries base) (sn_entries final))) in
      (go_len (marshal (document_json document)) ≤ MaximumChangeSetBytes)%Z
      ∧ cs = MkChangeSet (marshal (document_json document))
               (changeReceipt (marshal (document_json document)) document (sn_receipt canonical)).
Proof.
  unfold Compare. destruct (snapshotFromEntries _) as [canonical|] eqn:Es; [|done]. cbv zeta.
  destruct (_ <? _)%Z eqn:El; [done|]. intros [= <-]. exists canonical. split_and!; [done|lia|done].
Qed.

Lemma inspected_digest_utf8 `{TarFormat} archive digest s :
  Inspect archive digest = Ok s → valid_utf8 (rc_ArchiveDigest (sn_receipt s)) = true.
Proof.
  intros (? & ? & _ & Hd & _ & _ & _ & _ & _ & _ & _ & ->)%Inspect_spec. simpl. rewrite <- Hd. apply digest_utf8.
Qed.

Lemma object_nonempty fields : marshal (JObj fields) ≠ "".
Proof. done. Qed.

(** C17: the changes computed between two verified workspaces, applied to the first,
    succeed under the digest of the change set's own receipt and give exactly the
    second: the same entries with the same contents. *)
Theorem changes_roundtrip `{TarLaws} archive digest archive' digest' base final cs :
  Inspect archive digest = Ok base → Inspect archive' digest' = Ok final → Compare base final = Ok cs →
  ∃ result, ApplyChanges base (cs_encoded cs) (cr_Digest (cs_receipt cs)) = Ok result
    ∧ sn_entries result = sn_entries final
    ∧ rc_ArchiveDigest (sn_receipt result) = cr_ResultArchiveDigest (cs_receipt cs).
Proof.
  intros Hbase Hfinal (canonical & Hc & Hlen & ->)%Compare_spec.
  pose proof (Inspect_ok _ _ _ Hbase) as Hb. pose proof (Inspect_ok _ _ _ Hfinal) as Hf.
  destruct (snapshot_entries _ _ (to_entries _ Hf) Hc) as [Hent [a Ha]].
  exists canonical. split_and!; [|done|done].
  unfold ApplyChanges. cbn [cs_encoded cs_receipt cr_Digest changeReceipt].
  set (document := MkDocument _ _ _ _) in *.
  rewrite bool_decide_eq_false_2 by apply object_nonempty. rewrite (proj2 (Z.ltb_ge _ _)) by lia.
  rewrite bool_decide_eq_false_2 by (by intros []). cbn [orb]. rewrite unmarshal_document.
  2: { apply document_utf8; [done|by eapply inspected_digest_utf8|by eapply inspected_digest_utf8|].
       apply tree_changes_utf8; [apply Hb|apply Hf]. }
  rewrite bool_decide_eq_false_2 by (by intros [[]|[]]). rewrite bool_decide_eq_true_2 by done. cbn [orb negb].
  rewrite (proj2 (Z.ltb_ge _ _)).
  2: { pose proof (tree_changes_length (sn_entries base) (sn_entries final)). pose proof (to_count _ Hb).
       pose proof (to_count _ Hf). subst document. cbn [cd_Changes]. lia. }
  cbn [orb]. subst document. cbn [cd_Changes cd_ResultArchiveDigest]. rewrite apply_comparison by done. cbn [mbind result_bind].
  rewrite Hc. by rewrite decide_False by (by intros []).
Qed.

(** ** Applying, then comparing *)

Lemma node_entry_inverse name n e :
  validSourcePath name = true → entryFromNode name n = Some e → entry_ok name e ∧ nodeFromEntry e = n.
Proof.
  intros Hv. destruct n as [k x c t]. unfold entryFromNode, entry_ok. cbn [cn_Kind cn_Executable cn_Content cn_Target].
  case_decide as Hf; [|case_decide as Hd; [|case_decide as Hs; [|done]]]; case_decide as Hno; try done; intros [= <-]; subst k.
  - split; [by split_and!; [..|left]|]. unfold nodeFromEntry. simpl. f_equal. destruct (decide (t = "")); naive_solver.
  - split; [by split_and!; [..|right; left]|]. unfold nodeFromEntry. simpl.
    assert (t = "") as -> by (destruct (decide (t = "")); naive_solver).
    assert (c = "") as -> by (destruct (decide (c = "")); naive_solver). destruct x; [naive_solver|done].
  - assert (c = "") as -> by (destruct (decide (c = "")); naive_solver).
    destruct x; [naive_solver|]. destruct (validLinkText t) eqn:Ht; [|naive_solver].
    split; [by split_and!; [..|right; right]|done].
Qed.

Lemma same_refl e : sameSourceEntry e e = true.
Proof. by apply bool_decide_eq_true. Qed.

(** One accepted change: what it did, and how the comparison sees it. *)
Lemma apply_each_cons (base : tree) previous used m c rest t :
  apply_each base previous used m (c :: rest) = Ok t →
  slt previous (fc_Path c) ∧ ∃ used' m',
    apply_each base (fc_Path c) used' m' rest = Ok t
    ∧ (map_Forall entry_ok m → map_Forall entry_ok m')
    ∧ (∀ k, k ≠ fc_Path c → m' !! k = m !! k)
    ∧ ∀ t' : tree, t' !! fc_Path c = m' !! fc_Path c → change_at base t' (fc_Path c) = [c].
Proof.
  cbn [apply_each]. destruct (_ || _) eqn:Hg; [done|]. apply orb_false_iff in Hg as [Hv Hlt].
  apply negb_false_iff in Hv, Hlt. apply bool_decide_eq_true in Hlt. cbv zeta.
  destruct c as [path before after]. cbn [fc_Path fc_Before fc_After] in *.
  match goal with |- (if ?w then _ else _) = _ → _ => destruct w eqn:Hw; [done|] end.
  destruct after as [node|].
  - destruct (entryFromNode path node) as [e|] eqn:En; [|done]. apply node_entry_inverse in En as [He Hn]; [|done].
    match goal with |- (if ?w then _ else _) = _ → _ => destruct w eqn:Hs; [done|] end.
    destruct (_ <? _)%Z; [done|]. intros Ha. split; [done|]. eexists _, (<[path := e]> m). split_and!; [exact Ha| | |].
    + intros Hm. by apply map_Forall_insert_2.
    + intros k Hk. by rewrite lookup_insert_ne.
    + intros t'. rewrite lookup_insert_eq. intros Ht. unfold change_at. rewrite Ht, Hn.
      destruct (base !! path) as [e'|]; apply bool_decide_eq_false in Hw.
      * rewrite Hs. repeat f_equal. symmetry. by apply dec_stable.
      * repeat f_equal. destruct (decide (before = "")); naive_solver.
  - intros Ha. split; [done|]. eexists _, (delete path m). split_and!; [exact Ha| | |].
    + intros Hm. by apply map_Forall_delete.
    + intros k Hk. by rewrite lookup_delete_ne.
    + intros t'. rewrite lookup_delete_eq. intros Ht. unfold change_at. rewrite Ht.
      destruct (base !! path) as [e'|]; apply bool_decide_eq_false in Hw; [|naive_solver].
      repeat f_equal. symmetry. by apply dec_stable.
Qed.

Lemma apply_each_spec (base : tree) previous used m changes t :
  apply_each base previous used m changes = Ok t →
  StronglySorted slt (previous :: (fc_Path <$> changes))
  ∧ Forall (λ c, change_at base t (fc_Path c) = [c]) changes
  ∧ (∀ k, k ∉ fc_Path <$> changes → t !! k = m !! k)
  ∧ (map_Forall entry_ok m → map_Forall entry_ok t).
Proof.
  revert previous used m. induction changes as [|c changes IH]; intros previous used m Ha.
  { simpl in Ha. simplify_eq. split_and!; [repeat constructor|constructor|done|done]. }
  apply apply_each_cons in Ha as (Hlt & used' & m' & Ha & Hok & Hoff & Hat).
  destruct (IH _ _ _ Ha) as (Hs & Hall & Hk & Hm). rewrite fmap_cons.
  assert (Hni : fc_Path c ∉ fc_Path <$> changes).
  { apply StronglySorted_inv in Hs as [_ Hs]. intros Hin. rewrite Forall_forall in Hs. by destruct (Hs _ Hin). }
  split_and!.
  - constructor; [done|]. constructor; [done|]. apply StronglySorted_inv in Hs as [_ Hs].
    eapply Forall_impl; [exact Hs|]. intros x [Hle Hne]. destruct Hlt as [Hle' Hne']. split; [by etrans|].
    intros ->. apply Hne. by apply (anti_symm String.le).
  - constructor; [|done]. apply Hat. by apply Hk.
  - intros k [Hne Hni']%not_elem_of_cons. rewrite Hk by done. by apply Hoff.
  - auto.
Qed.

Lemma sorted_filter {A} (R : A → A → Prop) (P : A → Prop) `{∀ x, Decision (P x)} l :
  StronglySorted R l → StronglySorted R (filter P l).
Proof.
  induction 1 as [|x l Hs IH Hall]; [constructor|]. rewrite filter_cons. case_decide; [|done]. constructor; [done|].
  rewrite Forall_forall in Hall |- *. intros y [_ Hy]%list_elem_of_filter. by apply Hall.
Qed.

(** The accepted changes are the comparison of the base with the result. *)
Lemma changes_canonical (base : tree) changes t :
  apply_each base "" 0 base changes = Ok t → tree_changes base t (all_names base t) = changes.
Proof.
  intros (Hs & Hall & Hk & _)%apply_each_spec. apply StronglySorted_inv in Hs as [Hs _].
  set (paths := fc_Path <$> changes) in *. set (names := all_names base t).
  assert (Hsame : ∀ k, k ∉ paths → change_at base t k = []).
  { intros k Hn. unfold change_at. rewrite (Hk k Hn). destruct (base !! k); [by rewrite same_refl|done]. }
  assert (Hfilter : ∀ l, l ≫= change_at base t = filter (.∈ paths) l ≫= change_at base t).
  { intros l. induction l as [|k l IH]; [done|]. rewrite bind_cons, filter_cons. case_decide as Hin.
    - by rewrite bind_cons, IH.
    - by rewrite Hsame, IH. }
  assert (Hpaths : filter (.∈ paths) names = paths).
  { apply strict_sorted_unique; [|done|].
    - apply sorted_filter. apply sort_compact_strict.
    - intros k. rewrite list_elem_of_filter. split; [by intros [? _]|]. intros Hin. split; [done|].
      apply all_names_elem. apply list_elem_of_fmap in Hin as (c & -> & Hc). rewrite Forall_forall in Hall.
      specialize (Hall _ Hc). unfold change_at in Hall. destruct (base !! _); [left; by eexists|].
      destruct (t !! _); [right; by eexists|done]. }
  unfold tree_changes. fold names. rewrite Hfilter, Hpaths. subst paths.
  clear -Hall. induction Hall as [|c changes Hc _ IH]; [done|]. rewrite fmap_cons, bind_cons, Hc, IH. done.
Qed.

Lemma ApplyChanges_spec `{TarFormat} base encoded digest result :
  ApplyChanges base encoded digest = Ok result →
  ∃ changes t, apply_each (sn_entries base) "" 0 (sn_entries base) changes = Ok t
    ∧ snapshotFromEntries t = Ok result ∧ workspaceDigest encoded = digest
    ∧ (go_len encoded ≤ MaximumChangeSetBytes)%Z
    ∧ encoded = marshal (document_json (MkDocument ChangeSetContract (rc_ArchiveDigest (sn_receipt base))
        (rc_ArchiveDigest (sn_receipt result)) changes)).
Proof.
  unfold ApplyChanges. destruct (_ || _) eqn:Hg; [done|]. rewrite !orb_false_iff in Hg. destruct Hg as [[_ Hl] Hd].
  apply bool_decide_eq_false in Hd. destruct (unmarshal encoded ≫= _) as [[contract bd rd changes]|]; [|done].
  cbn [cd_Contract cd_BaseArchiveDigest cd_ResultArchiveDigest cd_Changes].
  match goal with |- (if ?w then _ else _) = _ → _ => destruct w eqn:Hw; [done|] end.
  rewrite !orb_false_iff, negb_false_iff in Hw. destruct Hw as [[Hc _] He].
  apply bool_decide_eq_false in Hc. apply bool_decide_eq_true in He.
  intros (t & Ht & Hr)%result_bind_Ok. destruct (snapshotFromEntries t) as [r|] eqn:Es; [|done].
  case_decide as Hrd; [done|]. injection Hr as <-. exists changes, t. split_and!; [done|done| |lia|].
  - by apply dec_stable.
  - rewrite <- He. repeat f_equal; [destruct (decide (contract = ChangeSetContract))|
      destruct (decide (bd = rc_ArchiveDigest (sn_receipt base)))|]; naive_solver.
Qed.

(** C34: a change set that applies to a verified workspace is the one the comparison
    of that workspace with its result computes, byte for byte; so it is accepted by
    [InspectChanges], and no two different documents describe the same change. *)
Theorem applied_changes_canonical `{TarLaws} archive digest base encoded expected result :
  Inspect archive digest = Ok base → ApplyChanges base encoded expected = Ok result →
  ∃ cs, Compare base result = Ok cs ∧ cs_encoded cs = encoded ∧ cr_Digest (cs_receipt cs) = expected
    ∧ InspectChanges base encoded expected = Ok cs.
Proof.
  intros Hbase HA. pose proof (Inspect_ok _ _ _ Hbase) as Hb. pose proof HA as HA'.
  apply ApplyChanges_spec in HA as (changes & t & Ha & Hs & Hd & Hl & He).
  pose proof (apply_each_spec _ _ _ _ _ _ Ha) as (_ & _ & _ & Hok).
  destruct (snapshot_entries _ _ (Hok (to_entries _ Hb)) Hs) as [Hent _].
  apply changes_canonical in Ha. unfold InspectChanges. rewrite HA'. cbn [mbind result_bind].
  assert (Hcmp : Compare base result = Ok (MkChangeSet encoded (changeReceipt encoded
    (MkDocument ChangeSetContract (rc_ArchiveDigest (sn_receipt base)) (rc_ArchiveDigest (sn_receipt result)) changes)
    (sn_receipt result)))).
  { unfold Compare. rewrite Hent, Hs, Ha. cbv zeta. rewrite <- He. by rewrite (proj2 (Z.ltb_ge _ _)) by lia. }
  eexists. split; [exact Hcmp|]. split_and!; [done|done|]. rewrite Hcmp. cbn [mbind result_bind cs_receipt changeReceipt cr_Digest].
  by rewrite decide_False by (by intros []).
Qed.
