(* ===== verification/WorkspaceExamples.v ===== *)
(** * Concrete workspaces

    A format that meets [TarLaws], a workspace with a directory, an executable and a
    symbolic link, a changed version of it, and the witnesses of the workspace
    theorems. *)
From S2P Require Import Prelude.
From S2P Require Import GoStrings.
From S2P Require Import Sha256.
From S2P Require Import GoJson.
From S2P Require Import GoDecode.
From S2P Require Import GoPath.
From S2P Require Import WorkspaceSource.
From S2P Require Import WorkspaceChanges.
From S2P Require Import WorkspaceProofs.

(** ** A format

    The members as a JSON array with base64 texts, then zero bytes to a multiple of
    512 and two zero blocks, as in a tar file. *)

Definition member_json (m : tar_header * string) : json :=
  JArr [JStr (base64 (th_Name m.1)); JInt (Z.of_N (byte_value (th_Typeflag m.1))); JInt (th_Mode m.1); JInt (th_Size m.1);
        JStr (base64 (th_Linkname m.1)); JStr (base64 m.2)].

Definition text_of (encoded : string) : option string := of_bytes <$> b64_decode (bytes_of encoded).

Definition json_member (v : json) : option (tar_header * option string) :=
  match v with
  | JArr [JStr name; JInt kind; JInt mode; JInt size; JStr target; JStr content] =>
      name ← text_of name; target ← text_of target; content ← text_of content;
      Some (MkHeader name (byte_of_N (Z.to_N kind)) mode size target [], Some content)
  | _ => None
  end.

Definition zeros (n : nat) : list ascii := replicate n (byte_of_N 0).
Definition padding (n : nat) : nat := (512 - n mod 512) mod 512 + 1024.

Definition plain_write (ms : list (tar_header * string)) : option string :=
  let body := marshal (JArr (member_json <$> ms)) in Some (of_bytes (bytes_of body ++ zeros (padding (slen body)))).

Definition plain_read (archive : string) : list (tar_header * option string) * option Z :=
  match parse_value (S (slen archive)) (bytes_of archive) with
  | Some (JArr items, rest) =>
      match mapM json_member items with
      | Some ms => (ms, Some (go_len archive - Z.of_nat (length rest))%Z)
      | None => ([], None)
      end
  | _ => ([], None)
  end.

#[export] Instance plain_format : TarFormat := { tar_read := plain_read; tar_write := plain_write }.

Lemma text_of_base64 s : text_of (base64 s) = Some s.
Proof. unfold text_of. rewrite base64_decodes. simpl. by rewrite of_bytes_of. Qed.

Lemma member_read m : ∃ r, json_member (member_json m) = Some r ∧ reads_back m r.
Proof.
  destruct m as [[name kind mode size target pax] content]. eexists. split.
  - unfold member_json, json_member. cbn [fst snd th_Name th_Linkname th_Typeflag th_Mode th_Size].
    rewrite !text_of_base64. cbn [mbind option_bind]. reflexivity.
  - unfold reads_back. simpl. rewrite N2Z.id, byte_of_value. done.
Qed.

Lemma members_utf8 ms : json_utf8 (JArr (member_json <$> ms)) = true.
Proof.
  cbn [json_utf8]. apply forallb_Forall, Forall_fmap, Forall_forall. intros m _. unfold compose, member_json.
  cbn [json_utf8 forallb]. by rewrite !base64_utf8.
Qed.

#[export] Instance plain_format_laws : TarLaws.
Proof.
  constructor. intros ms archive _ Hw. change (plain_write ms = Some archive) in Hw. unfold plain_write in Hw. cbv zeta in Hw. apply (inj Some) in Hw as <-.
  cbn [tar_read plain_format]. unfold plain_read. set (body := JArr (member_json <$> ms)).
  rewrite bytes_of_of. rewrite (parse_marshal body); [| |apply members_utf8|].
  - subst body. cbn [fst]. assert (Hm : ∃ rs, mapM json_member (member_json <$> ms) = Some rs ∧ Forall2 reads_back ms rs).
    { induction ms as [|m ms (rs & IH & Hf)]; [by exists []|]. destruct (member_read m) as (r & Hr & Hb).
      exists (r :: rs). split; [|by constructor]. rewrite fmap_cons. cbn [mapM]. rewrite Hr. cbn [mbind option_bind]. by rewrite IH. }
    destruct Hm as (rs & -> & Hf). done.
  - rewrite <- length_bytes_of, bytes_of_of, length_app, length_bytes_of. pose proof (json_size_le body). lia.
  - unfold padding, zeros. by rewrite Nat.add_comm.
Qed.

(** ** Two workspaces *)

Definition directory (name : string) : tar_header * string := (MkHeader name TypeDir 493 0 "" [], "").
Definition file (name content : string) (mode : Z) : tar_header * string :=
  (MkHeader name TypeReg mode (go_len content) "" [], content).
Definition symlink (name target : string) : tar_header * string := (MkHeader name TypeSymlink 511 0 target [], "").

Definition archive_of (ms : list (tar_header * string)) : string := default "" (tar_write ms).
Definition before_archive : string :=
  archive_of [directory "bin"; file "bin/run" "echo hi" 493; symlink "start" "./bin/../bin/run"; file "docs/old.md" "old" 420].
Definition after_archive : string :=
  archive_of [file "bin/run" "echo hello" 493; symlink "start" "./bin/../bin/run"; file "docs/new.md" "new" 420].

Definition nothing : Snapshot := MkSnapshot "" ∅ [] (MkReceipt "" "" 0 0).
Definition inspected (archive : string) : Snapshot :=
  match Inspect archive (Sha256.digest_string archive) with Ok s => s | Err _ => nothing end.
Definition before_ws : Snapshot := inspected before_archive.
Definition after_ws : Snapshot := inspected after_archive.

Lemma before_inspected : Inspect before_archive (Sha256.digest_string before_archive) = Ok before_ws.
Proof. vm_compute. reflexivity. Qed.
Lemma after_inspected : Inspect after_archive (Sha256.digest_string after_archive) = Ok after_ws.
Proof. vm_compute. reflexivity. Qed.

(** Parents are added: [docs] has no member of its own. *)
Example before_names : sn_names before_ws = ["bin"; "bin/run"; "docs"; "docs/old.md"; "start"].
Proof. vm_compute. reflexivity. Qed.

Definition no_changes : ChangeSet := MkChangeSet "" (MkChangeReceipt "" "" 0 "" "" 0 0 0).
Definition ws_changes : ChangeSet := match Compare before_ws after_ws with Ok cs => cs | Err _ => no_changes end.

Lemma ws_compared : Compare before_ws after_ws = Ok ws_changes.
Proof. vm_compute. reflexivity. Qed.

Example ws_change_count : cr_ChangeCount (cs_receipt ws_changes) = 3%Z.
Proof. vm_compute. reflexivity. Qed.

(** ** Witnesses *)

Definition start_link : sourceEntry := MkEntry "start" TypeSymlink false "" "./bin/../bin/run".

Lemma before_has_link : sn_entries before_ws !! "start" = Some start_link.
Proof. vm_compute. reflexivity. Qed.

Lemma inspected_tree_contained_witness :
  se_kind start_link = TypeSymlink
  ∧ ∃ node, (∀ node', resolves (sn_entries before_ws) [] (split (Dir "start") ++ split (se_target start_link)) node' ↔ node' = node)
      ∧ (node = [] ∨ ∃ d, sn_entries before_ws !! join "/" node = Some d ∧ se_kind d ≠ TypeSymlink).
Proof.
  split; [reflexivity|].
  destruct (inspected_tree_contained _ _ _ before_inspected) as (_ & _ & _ & _ & H).
  destruct (H _ _ before_has_link) as (_ & _ & Hl). apply Hl. reflexivity.
Defined.

Lemma changes_roundtrip_witness :
  ∃ result, ApplyChanges before_ws (cs_encoded ws_changes) (cr_Digest (cs_receipt ws_changes)) = Ok result
    ∧ sn_entries result = sn_entries after_ws
    ∧ rc_ArchiveDigest (sn_receipt result) = cr_ResultArchiveDigest (cs_receipt ws_changes).
Proof. exact (changes_roundtrip _ _ _ _ _ _ _ before_inspected after_inspected ws_compared). Defined.

Definition applied_ws : Snapshot :=
  match ApplyChanges before_ws (cs_encoded ws_changes) (cr_Digest (cs_receipt ws_changes)) with Ok s => s | Err _ => nothing end.

Lemma ws_applied : ApplyChanges before_ws (cs_encoded ws_changes) (cr_Digest (cs_receipt ws_changes)) = Ok applied_ws.
Proof. vm_compute. reflexivity. Qed.

Lemma applied_changes_canonical_witness :
  ∃ cs, Compare before_ws applied_ws = Ok cs ∧ cs_encoded cs = cs_encoded ws_changes
    ∧ cr_Digest (cs_receipt cs) = cr_Digest (cs_receipt ws_changes)
    ∧ InspectChanges before_ws (cs_encoded ws_changes) (cr_Digest (cs_receipt ws_changes)) = Ok cs.
Proof. exact (applied_changes_canonical _ _ _ _ _ _ before_inspected ws_applied). Defined.
