(* ===== verification/RuntimeOutput.v ===== *)
(** * Outputs of a native runtime

    [internal/runtime]: the snapshots an adapter reports (messages, commands,
    patches, plans, tool outputs, images), their validation, and the bounded public
    references that replace their content in the event journal.  Payloads are Go
    maps of dynamic values. *)
From stdpp Require Import pretty.
From S2P Require Import Prelude.
From S2P Require Import GoStrings.
From S2P Require Import Sha256.
From S2P Require Import GoJson.
From S2P Require Import GoDecode.
From S2P Require Import GoPath.
From S2P Require Import Questions.

Definition ErrProtocol := ESentinel "runtime.ErrProtocol".
Definition ErrTurnFailed := ESentinel "runtime.ErrTurnFailed".
Definition ErrTurnInterrupted := ESentinel "runtime.ErrTurnInterrupted".
Definition ErrQuestionMode := ESentinel "runtime.ErrQuestionMode".

(** ** Dynamic values

    A value of type [any].  A [float64] is given by the text the encoder writes for
    it, a [json.Number] by its literal.  [AInt] is an [int] or [int64], [AInt32] an
    [int32]; [ANilList] is a nil [[]any]; [AOther] stands for a value of any other
    type. *)
Inductive any :=
  | ANil
  | ABool (b : bool)
  | AInt (z : Z)
  | AInt32 (z : Z)
  | AFloat (text : string)
  | ANumber (literal : string)
  | AStr (s : string)
  | ANilList
  | AList (items : list any)
  | AMap (fields : list (string * any))
  | APrompts (prompts : list QuestionPrompt)
  | AOther.

(** A [map[string]any]; keys are distinct. *)
Abbreviation payload := (list (string * any)).

Fixpoint get (p : payload) (key : string) : option any :=
  match p with
  | [] => None
  | (k, v) :: rest => if decide (k = key) then Some v else get rest key
  end.

(** [value, ok := payload[key].(string)] *)
Definition get_string (p : payload) (key : string) : option string :=
  match get p key with Some (AStr s) => Some s | _ => None end.

(** The encoder's text of a value; keys of maps in order.  [None]: not encodable. *)
Fixpoint any_text (v : any) : option string :=
  match v with
  | ANil | ANilList => Some "null"
  | ABool b => Some (marshal (JBool b))
  | AInt z | AInt32 z => Some (pretty z)
  | AFloat text | ANumber text => Some text
  | AStr s => Some (marshal_string s)
  | AList items =>
      texts ← (fix go items := match items with [] => Some [] | v :: rest => t ← any_text v; ts ← go rest; Some (t :: ts) end) items;
      Some ("[" +:+ join "," texts +:+ "]")
  | AMap fields =>
      texts ← (fix go (fields : list (string * any)) :=
        match fields with [] => Some [] | (k, v) :: rest => t ← any_text v; ts ← go rest; Some ((k, t) :: ts) end) fields;
      let keys := sort_strings texts.*1 in
      Some ("{" +:+ join "," (keys ≫= λ k, match list_find (λ kt : string * string, kt.1 = k) texts with
                                           | Some (_, kt) => [marshal_string k +:+ ":" +:+ kt.2] | None => [] end) +:+ "}")
  | APrompts _ | AOther => None
  end.

(** ** Messages *)

Definition MessageCompletedEvent := "output.message.completed".
Definition MaximumMessageTextBytes : Z := Z.shiftl 1 20.

Record CompletedMessage := MkMessage { cm_Text : string; cm_Phase : string }.

Definition message_payload (m : CompletedMessage) : payload := [("text", AStr (cm_Text m)); ("phase", AStr (cm_Phase m))].

Definition valid_phase (phase : string) : bool := bool_decide (phase ∈ ["commentary"; "final"; "unspecified"]).

Definition ParseCompletedMessage (p : payload) : result CompletedMessage :=
  match get_string p "text", get_string p "phase" with
  | Some text, Some phase =>
      if bool_decide (length p ≠ 2) || (MaximumMessageTextBytes <? go_len text)%Z || negb (valid_utf8 text) then Err ErrProtocol
      else if valid_phase phase then Ok (MkMessage text phase) else Err ErrProtocol
  | _, _ => Err ErrProtocol
  end.

Definition MessageArtifactEvent := "output.message.artifact".
Definition MaximumMessagePreviewBytes : nat := N.to_nat 1024.
Definition MaximumInlineMessageTextBytes : nat := N.to_nat 65536.

Record MessageArtifact := MkMessageArtifact {
  ma_ArtifactID : string; ma_Digest : string; ma_SizeBytes : Z; ma_Phase : string; ma_Preview : string }.

Definition message_artifact_payload (m : MessageArtifact) : payload :=
  [("artifactId", AStr (ma_ArtifactID m)); ("digest", AStr (ma_Digest m)); ("sizeBytes", AInt (ma_SizeBytes m));
   ("phase", AStr (ma_Phase m)); ("preview", AStr (ma_Preview m))].

(** The longest prefix of at most [n] bytes that is valid UTF-8. *)
Fixpoint valid_prefix_of (n : nat) (bs : list ascii) : string :=
  let text := of_bytes (take n bs) in
  if valid_utf8 text then text else match n with O => "" | S n => valid_prefix_of n bs end.

Definition truncateTextPreview (text : string) (maximum : nat) : string :=
  if (slen text <=? maximum)%nat then text else valid_prefix_of maximum (bytes_of text).

(** [strings.ReplaceAll(text, NUL, the six characters of its escape)] *)
Definition escape_nul (text : string) : string :=
  of_bytes (bytes_of text ≫= λ c, if (byte_value c =? 0)%N then bytes_of (backslash +:+ "u0000") else [c]).

Definition runtimeTextPreview (text : string) (maximum : nat) : string :=
  truncateTextPreview (escape_nul (truncateTextPreview text maximum)) maximum.
Definition MessagePreview (text : string) : string := runtimeTextPreview text MaximumMessagePreviewBytes.
Definition MessageDeltaPreview (text : string) : string := runtimeTextPreview text MaximumInlineMessageTextBytes.

(** ** Commands *)

Definition CommandCompletedEvent := "output.command.completed".
Definition CommandArtifactEvent := "output.command.artifact".
Definition MaximumCommandOutputBytes : Z := Z.shiftl 1 20.

Record CompletedCommand := MkCommand { cc_Text : string; cc_Status : string; cc_ExitCode : option Z }.

Definition exit_any (code : option Z) : any := match code with Some z => AInt32 z | None => ANil end.
Definition command_payload (c : CompletedCommand) : payload :=
  [("text", AStr (cc_Text c)); ("status", AStr (cc_Status c)); ("exitCode", exit_any (cc_ExitCode c))].

Definition validOutputStatus (status : string) : bool := bool_decide (status ∈ ["completed"; "failed"; "denied"]).

(** How the decoder matches a key with a field name: letters fold, and so do the
    long s and the Kelvin sign. *)
Definition fold_rune (r : rune) : N :=
  let n := rune_value r in
  if (65 <=? n)%N && (n <=? 90)%N then (n + 32)%N else if (n =? 383)%N then 115 else if (n =? 8490)%N then 107 else n.
Definition fold_name (s : string) : list N := fold_rune <$> runes s.

(** [exitCode], encoded and decoded again into an [*int32]. *)
Definition int32_of (v : any) : option (option Z) :=
  let in_range z := if decide (-2147483648 ≤ z ≤ 2147483647)%Z then Some (Some z) else None in
  match v with
  | ANil | ANilList => Some None
  | AInt z | AInt32 z => in_range z
  | AFloat text | ANumber text => match parse_int (bytes_of text) with Some (JInt z, []) => in_range z | _ => None end
  | _ => None
  end.

Definition ParseCompletedCommand (p : payload) : result CompletedCommand :=
  match get_string p "text", get p "exitCode",
        list_find (λ kv : string * any, fold_name kv.1 = fold_name "status") p with
  | Some text, Some exit, Some (_, (_, AStr status)) =>
      if bool_decide (length p ≠ 3) || negb (valid_utf8 text) || (MaximumCommandOutputBytes <? go_len text)%Z
         || negb (validOutputStatus status) then Err ErrProtocol
      else match int32_of exit with Some code => Ok (MkCommand text status code) | None => Err ErrProtocol end
  | _, _, _ => Err ErrProtocol
  end.

Record CommandArtifact := MkCommandArtifact {
  ca_ArtifactID : string; ca_Digest : string; ca_SizeBytes : Z; ca_Status : string; ca_ExitCode : option Z; ca_Preview : string }.
Definition command_artifact_payload (c : CommandArtifact) : payload :=
  [("artifactId", AStr (ca_ArtifactID c)); ("digest", AStr (ca_Digest c)); ("sizeBytes", AInt (ca_SizeBytes c));
   ("status", AStr (ca_Status c)); ("exitCode", exit_any (ca_ExitCode c)); ("preview", AStr (ca_Preview c))].
Definition CommandPreview (text : string) : string := MessagePreview text.

(** ** Patches *)

Definition PatchCompletedEvent := "output.patch.completed".
Definition PatchArtifactEvent := "output.patch.artifact".
Definition PatchSchemaV1 := "dataground.runtime-patch/v1".
Definition MaximumPatchBytes : Z := Z.shiftl 1 20.
Definition MaximumPatchChanges : Z := 256.

Record PatchChange := MkPatchChange { pc_Path : string; pc_Kind : string; pc_Diff : string; pc_MovePath : option string }.
Record CompletedPatch := MkPatch { cp_SchemaVersion : string; cp_Status : string; cp_Changes : list PatchChange }.

Definition ValidPatchPath (value : string) : bool :=
  negb (bool_decide (value = "")) && negb (bool_decide (value = ".")) && (go_len value <=? 4096)%Z && valid_utf8 value
  && negb (IsAbs value) && bool_decide (Clean value = value) && negb (bool_decide (value = ".."))
  && negb (has_prefix value "../") && negb (contains_byte (byte_of_N 92) value)
  && forallb (λ r, negb (is_control (rune_value r))) (runes value).

Definition option_any (s : option string) : any := match s with Some s => AStr s | None => ANil end.
Definition option_json (s : option string) : json := match s with Some s => JStr s | None => JNull end.

Definition patch_change_any (c : PatchChange) : any :=
  AMap [("path", AStr (pc_Path c)); ("kind", AStr (pc_Kind c)); ("diff", AStr (pc_Diff c)); ("movePath", option_any (pc_MovePath c))].
Definition patch_payload (p : CompletedPatch) : payload :=
  [("schemaVersion", AStr (cp_SchemaVersion p)); ("status", AStr (cp_Status p)); ("changes", AList (patch_change_any <$> cp_Changes p))].

Definition patch_json (p : CompletedPatch) : json :=
  JObj [("schemaVersion", JStr (cp_SchemaVersion p)); ("status", JStr (cp_Status p));
        ("changes", JArr ((λ c, JObj [("path", JStr (pc_Path c)); ("kind", JStr (pc_Kind c)); ("diff", JStr (pc_Diff c));
                                      ("movePath", option_json (pc_MovePath c))]) <$> cp_Changes p))].

(** One element of [changes]. *)
Definition parse_patch_change (raw : any) : option PatchChange :=
  match raw with
  | AMap item =>
      name ← get_string item "path"; kind ← get_string item "kind"; diff ← get_string item "diff"; move ← get item "movePath";
      if bool_decide (length item ≠ 4) || negb (ValidPatchPath name) || negb (bool_decide (kind ∈ ["add"; "delete"; "update"]))
         || negb (valid_utf8 diff) || (MaximumPatchBytes <? go_len diff)%Z then None
      else match move with
           | ANil => Some (MkPatchChange name kind diff None)
           | AStr target =>
               if bool_decide (kind ≠ "update") || negb (ValidPatchPath target) || bool_decide (target = name) then None
               else Some (MkPatchChange name kind diff (Some target))
           | _ => None
           end
  | _ => None
  end.

Definition change_bytes (c : PatchChange) : Z :=
  (go_len (pc_Path c) + go_len (pc_Kind c) + go_len (pc_Diff c) + match pc_MovePath c with Some m => go_len m | None => 0 end)%Z.

Fixpoint parse_patch_changes (used : Z) (raws : list any) : option (list PatchChange) :=
  match raws with
  | [] => Some []
  | raw :: rest =>
      c ← parse_patch_change raw;
      let used := (used + change_bytes c)%Z in
      if (MaximumPatchBytes <? used)%Z then None else cs ← parse_patch_changes used rest; Some (c :: cs)
  end.

Definition ParseCompletedPatch (p : payload) : result CompletedPatch :=
  match get_string p "schemaVersion", get_string p "status",
        (match get p "changes" with Some (AList l) => Some l | Some ANilList => Some [] | _ => None end) with
  | Some version, Some status, Some changes =>
      if bool_decide (length p ≠ 3) || bool_decide (version ≠ PatchSchemaV1) || negb (validOutputStatus status)
         || (MaximumPatchChanges <? Z.of_nat (length changes))%Z then Err ErrProtocol
      else match parse_patch_changes 0 changes with
           | None => Err ErrProtocol
           | Some cs =>
               let patch := MkPatch version status cs in
               if (MaximumPatchBytes <? go_len (marshal (patch_json patch)))%Z then Err ErrProtocol else Ok patch
           end
  | _, _, _ => Err ErrProtocol
  end.

Record PatchArtifact := MkPatchArtifact {
  pa_ArtifactID : string; pa_Digest : string; pa_SizeBytes : Z; pa_Status : string; pa_ChangeCount : Z; pa_Preview : string }.
Definition patch_artifact_payload (p : PatchArtifact) : payload :=
  [("artifactId", AStr (pa_ArtifactID p)); ("digest", AStr (pa_Digest p)); ("sizeBytes", AInt (pa_SizeBytes p));
   ("status", AStr (pa_Status p)); ("changeCount", AInt (pa_ChangeCount p)); ("preview", AStr (pa_Preview p))].
Definition PatchPreview (count : Z) : string :=
  if decide (count = 1%Z) then "Retained patch with 1 file change."
  else "Retained patch with " +:+ pretty count +:+ " file changes.".

(** ** Plans *)

Definition PlanUpdatedEvent := "output.plan.updated".
Definition PlanArtifactEvent := "output.plan.artifact".
Definition PlanSchemaV1 := "dataground.runtime-plan/v1".
Definition MaximumPlanBytes : Z := Z.shiftl 1 20.
Definition MaximumPlanSteps : Z := 256.
Definition PlanPreview := "Plan update retained.".

Record PlanStep := MkStep { ps_Text : string; ps_Status : string }.
Record PlanSnapshot := MkPlan { pl_SchemaVersion : string; pl_Explanation : option string; pl_Steps : list PlanStep }.

Definition plan_payload (p : PlanSnapshot) : payload :=
  [("schemaVersion", AStr (pl_SchemaVersion p)); ("explanation", option_any (pl_Explanation p));
   ("steps", AList ((λ s, AMap [("text", AStr (ps_Text s)); ("status", AStr (ps_Status s))]) <$> pl_Steps p))].
Definition plan_json (p : PlanSnapshot) : json :=
  JObj [("schemaVersion", JStr (pl_SchemaVersion p)); ("explanation", option_json (pl_Explanation p));
        ("steps", JArr ((λ s, JObj [("text", JStr (ps_Text s)); ("status", JStr (ps_Status s))]) <$> pl_Steps p))].

(** The steps, with the bytes that are left for their texts. *)
Fixpoint parse_steps (budget : Z) (entries : list any) : option (list PlanStep) :=
  match entries with
  | [] => Some []
  | AMap step :: rest =>
      text ← get_string step "text"; status ← get_string step "status";
      if bool_decide (length step ≠ 2) || negb (valid_utf8 text) || (budget <? go_len text)%Z
         || negb (bool_decide (status ∈ ["pending"; "in_progress"; "completed"])) then None
      else steps ← parse_steps (budget - go_len text) rest; Some (MkStep text status :: steps)
  | _ => None
  end.

Definition ParsePlanSnapshot (p : payload) : result PlanSnapshot :=
  if bool_decide (length p ≠ 3) || negb (bool_decide (get_string p "schemaVersion" = Some PlanSchemaV1)) then Err ErrProtocol
  else
    let explanation := match get p "explanation" with
      | Some ANil => Some (None, MaximumPlanBytes)
      | Some (AStr text) =>
          if negb (valid_utf8 text) || (MaximumPlanBytes <? go_len text)%Z then None
          else Some (Some text, (MaximumPlanBytes - go_len text)%Z)
      | _ => None end in
    match explanation, get p "steps" with
    | Some (explanation, budget), Some (AList entries) =>
        if (MaximumPlanSteps <? Z.of_nat (length entries))%Z then Err ErrProtocol
        else match parse_steps budget entries with
             | None => Err ErrProtocol
             | Some steps =>
                 let value := MkPlan PlanSchemaV1 explanation steps in
                 if (MaximumPlanBytes <? go_len (marshal (plan_json value)))%Z then Err ErrProtocol else Ok value
             end
    | _, _ => Err ErrProtocol
    end.

(** [completed, inProgress] *)
Definition Counts (p : PlanSnapshot) : Z * Z :=
  (Z.of_nat (length (filter (λ s, ps_Status s = "completed") (pl_Steps p))),
   Z.of_nat (length (filter (λ s, ps_Status s = "in_progress") (pl_Steps p)))).

Record PlanArtifact := MkPlanArtifact {
  pta_ArtifactID : string; pta_Digest : string; pta_SizeBytes : Z; pta_StepCount : Z; pta_CompletedCount : Z;
  pta_InProgressCount : Z; pta_Preview : string }.
Definition plan_artifact_payload (p : PlanArtifact) : payload :=
  [("artifactId", AStr (pta_ArtifactID p)); ("digest", AStr (pta_Digest p)); ("sizeBytes", AInt (pta_SizeBytes p));
   ("stepCount", AInt (pta_StepCount p)); ("completedCount", AInt (pta_CompletedCount p));
   ("inProgressCount", AInt (pta_InProgressCount p)); ("preview", AStr (pta_Preview p))].

(** ** Tool outputs *)

Definition ToolCompletedEvent := "output.tool.completed".
Definition ToolArtifactEvent := "output.tool.artifact".
Definition ToolOutputSchemaV1 := "dataground.runtime-tool-output/v1".
Definition MaximumToolOutputBytes : Z := Z.shiftl 1 20.
Definition MaximumToolContentItems : Z := 256.
Definition MaximumToolJSONDepth : Z := 64.
Definition ToolOutputPreview := "Tool output retained.".

Record CompletedToolOutput := MkToolOutput {
  tv_SchemaVersion : string; tv_Status : string; tv_Content : list any; tv_StructuredContent : any; tv_Error : option string }.

Definition tool_payload (t : CompletedToolOutput) : payload :=
  [("schemaVersion", AStr (tv_SchemaVersion t)); ("status", AStr (tv_Status t)); ("content", AList (tv_Content t));
   ("structuredContent", tv_StructuredContent t); ("error", option_any (tv_Error t))].

(** [validToolJSON], returning the budget that is left; [None] is [false]. *)
Fixpoint validToolJSON (value : any) (depth budget : Z) : option Z :=
  let budget := (budget - 1)%Z in
  if (MaximumToolJSONDepth <? depth)%Z || (budget <? 0)%Z then None
  else match value with
  | AStr s =>
      let budget := (budget - go_len s)%Z in
      if (0 <=? budget)%Z && valid_utf8 s then Some budget else None
  | AList items =>
      (fix go items budget := match items with
         | [] => Some budget
         | item :: rest => budget ← validToolJSON item (depth + 1) budget; go rest budget
         end) items budget
  | AMap fields =>
      (fix go (fields : list (string * any)) budget := match fields with
         | [] => Some budget
         | (key, item) :: rest =>
             let budget := (budget - go_len key)%Z in
             if (budget <? 0)%Z || negb (valid_utf8 key) then None
             else budget ← validToolJSON item (depth + 1) budget; go rest budget
         end) fields budget
  | ANumber literal => let budget := (budget - go_len literal)%Z in if (0 <=? budget)%Z then Some budget else None
  | ANil | ANilList | ABool _ | AFloat _ | AInt _ => Some budget
  | AInt32 _ | APrompts _ | AOther => None
  end.

(** The encoding of the struct, fields in their order. *)
Definition tool_text (t : CompletedToolOutput) : option string :=
  content ← any_text (AList (tv_Content t)); structured ← any_text (tv_StructuredContent t);
  Some ("{" +:+ quote +:+ "schemaVersion" +:+ quote +:+ ":" +:+ marshal_string (tv_SchemaVersion t)
    +:+ "," +:+ quote +:+ "status" +:+ quote +:+ ":" +:+ marshal_string (tv_Status t)
    +:+ "," +:+ quote +:+ "content" +:+ quote +:+ ":" +:+ content
    +:+ "," +:+ quote +:+ "structuredContent" +:+ quote +:+ ":" +:+ structured
    +:+ "," +:+ quote +:+ "error" +:+ quote +:+ ":" +:+ marshal (option_json (tv_Error t)) +:+ "}").

Definition tool_error (p : payload) (status : string) : option (option string) :=
  match get p "error" with
  | Some ANil => Some None
  | Some (AStr text) =>
      if negb (valid_utf8 text) || (MaximumToolOutputBytes <? go_len text)%Z || bool_decide (status ≠ "failed") then None
      else Some (Some text)
  | _ => None
  end.

Definition ParseCompletedToolOutput (p : payload) : result CompletedToolOutput :=
  if bool_decide (length p ≠ 5) || negb (bool_decide (get_string p "schemaVersion" = Some ToolOutputSchemaV1)) then Err ErrProtocol
  else match get_string p "status", get p "content", get p "structuredContent" with
  | Some status, Some (AList content), Some structured =>
      if negb (bool_decide (status ∈ ["completed"; "failed"])) || (MaximumToolContentItems <? Z.of_nat (length content))%Z
      then Err ErrProtocol
      else match tool_error p status,
                 (budget ← validToolJSON (AList content) 0 MaximumToolOutputBytes; validToolJSON structured 0 budget) with
      | Some failure, Some _ =>
          let value := MkToolOutput ToolOutputSchemaV1 status content structured failure in
          match tool_text value with
          | Some encoded => if (MaximumToolOutputBytes <? go_len encoded)%Z then Err ErrProtocol else Ok value
          | None => Err ErrProtocol
          end
      | _, _ => Err ErrProtocol
      end
  | _, _, _ => Err ErrProtocol
  end.

Record ToolArtifact := MkToolArtifact {
  tla_ArtifactID : string; tla_Digest : string; tla_SizeBytes : Z; tla_Status : string; tla_ContentCount : Z; tla_Preview : string }.
Definition tool_artifact_payload (t : ToolArtifact) : payload :=
  [("artifactId", AStr (tla_ArtifactID t)); ("digest", AStr (tla_Digest t)); ("sizeBytes", AInt (tla_SizeBytes t));
   ("status", AStr (tla_Status t)); ("contentCount", AInt (tla_ContentCount t)); ("preview", AStr (tla_Preview t))].

(** ** Images *)

Definition ImageCompletedEvent := "output.image.completed".
Definition ImageArtifactEvent := "output.image.artifact".
Definition MaximumImageBytes : Z := Z.shiftl 4 20.
Definition MaximumImagePixels : Z := Z.shiftl 16 20.
Definition MaximumImageDimension : Z := 8192.
Definition ImagePreview := "Generated image retained.".

Record ImageContent := MkImage { im_Bytes : string; im_MediaType : string; im_Width : Z; im_Height : Z }.

(** [image.DecodeConfig]: width, height and format; and [image.Decode]: the format
    and the corners of the first image. *)
Class ImageDecoder := {
  DecodeConfig : string → option (Z * Z * string);
  Decode : string → option (string * (Z * Z * Z * Z));
}.

Definition validImageMediaType (value : string) : bool := bool_decide (value ∈ ["image/png"; "image/jpeg"; "image/gif"]).
Definition validImageDimensions (width height : Z) : bool :=
  (0 <? width)%Z && (0 <? height)%Z && (width <=? MaximumImageDimension)%Z && (height <=? MaximumImageDimension)%Z
  && (width * height <=? MaximumImagePixels)%Z.

(** [bounds.Empty()] and [bounds.In(image.Rect(0, 0, width, height))] *)
Definition bounds_inside (bounds : Z * Z * Z * Z) (width height : Z) : bool :=
  let '(x0, y0, x1, y1) := bounds in
  (x0 <? x1)%Z && (y0 <? y1)%Z && (0 <=? x0)%Z && (0 <=? y0)%Z && (x1 <=? width)%Z && (y1 <=? height)%Z.

Definition EncodedLen (n : Z) : Z := ((n + 2) / 3 * 4)%Z.

Definition ParseCompletedImage `{ImageDecoder} (p : payload) : result ImageContent :=
  match get_string p "data" with
  | Some data =>
      if bool_decide (length p ≠ 1) || bool_decide (data = "") || (EncodedLen MaximumImageBytes <? go_len data)%Z then Err ErrProtocol
      else match b64_decode (bytes_of data) with
      | None => Err ErrProtocol
      | Some bytes =>
          let content := of_bytes bytes in
          if bool_decide (content = "") || (MaximumImageBytes <? go_len content)%Z
             || negb (bool_decide (of_bytes (b64_encode bytes) = data)) then Err ErrProtocol
          else match DecodeConfig content, Decode content with
          | Some (width, height, format), Some (decodedFormat, bounds) =>
              let mediaType := "image/" +:+ format in
              if negb (validImageDimensions width height) || negb (validImageMediaType mediaType)
                 || bool_decide (decodedFormat ≠ format) || negb (bounds_inside bounds width height) then Err ErrProtocol
              else Ok (MkImage content mediaType width height)
          | _, _ => Err ErrProtocol
          end
      end
  | None => Err ErrProtocol
  end.

Record ImageArtifact := MkImageArtifact {
  ia_ArtifactID : string; ia_Digest : string; ia_SizeBytes : Z; ia_MediaType : string; ia_Width : Z; ia_Height : Z; ia_Preview : string }.
Definition image_artifact_payload (i : ImageArtifact) : payload :=
  [("artifactId", AStr (ia_ArtifactID i)); ("digest", AStr (ia_Digest i)); ("sizeBytes", AInt (ia_SizeBytes i));
   ("mediaType", AStr (ia_MediaType i)); ("width", AInt (ia_Width i)); ("height", AInt (ia_Height i)); ("preview", AStr (ia_Preview i))].
