(* ===== verification/RuntimeRequest.v ===== *)
(** * Requests to a native runtime and its declared output

    The pure parts of the runtime driver: [codex_runtime_request.go], the validation
    in [invocation_runtime_driver.go] and [invocation_question.go], and
    [invocation_runtime_output.go], which turns acknowledged events into the result of
    the invocation. *)
From S2P Require Import Prelude.
From S2P Require Import GoStrings.
From S2P Require Import Sha256.
From S2P Require Import GoJson.
From S2P Require Import GoPath.
From S2P Require Import Questions.
From S2P Require Import Database.
From S2P Require Import OperationStore.
From S2P Require Import RuntimeInteraction.
From S2P Require Import RuntimeOutput.

(** Durations here are nanoseconds. *)
Definition millisecond_ns : Z := 1000000.
Definition minute_ns : Z := 60000000000.

Record ArtifactDeclaration := MkDeclaration {
  dec_ID : string; dec_Name : string; dec_SandboxPath : string; dec_MediaType : string; dec_Kind : string }.

Record StartRequest := MkStart {
  sr_Prompt : string; sr_WorkingDir : string; sr_Model : string; sr_OutputSchema : option json;
  sr_Artifacts : list ArtifactDeclaration; sr_ApprovalMode : string; sr_QuestionMode : string;
  sr_QuestionTimeout : Z; sr_SandboxMode : string }.

Record Event := MkEvent { ev_Sequence : Z; ev_Type : string; ev_Payload : payload }.

Definition ApprovalLocked := "locked".
Definition ApprovalInteractive := "interactive".
Definition QuestionDisabled := "disabled".
Definition QuestionInteractive := "interactive".
Definition SandboxReadOnly := "read-only".
Definition SandboxWorkspaceWrite := "workspace-write".

(** ** Validation *)

Definition maximumInvocationRuntimeArtifacts : Z := 32.

Definition invocationRuntimeArtifactIDPattern (s : string) : bool :=
  match_headed is_lower (λ c, is_lower c || is_digit c || (byte_value c =? 45)%N) 62 s.

Definition contains_rune_nul (s : string) : bool := contains_byte (byte_of_N 0) s.

Definition validInvocationRuntimeArtifactText (value : string) (maximumBytes : Z) : bool :=
  negb (bool_decide (value = "")) && (go_len value <=? maximumBytes)%Z && valid_utf8 value
  && bool_decide (trim_space value = value)
  && negb (contains_byte (byte_of_N 0) value || contains_byte (byte_of_N 13) value || contains_byte (byte_of_N 10) value).

Definition validInvocationRuntimeArtifactKind (kind : string) : bool :=
  bool_decide (kind ∈ ["file"; "structured-output"; "event-payload"; "log"; "other"]).

(** An absolute path in its shortest form. *)
Definition clean_absolute (p : string) : bool := IsAbs p && bool_decide (Clean p = p) && negb (contains_rune_nul p).

Definition declaration_valid (a : ArtifactDeclaration) : bool :=
  invocationRuntimeArtifactIDPattern (dec_ID a) && validInvocationRuntimeArtifactText (dec_Name a) 255
  && validInvocationRuntimeArtifactText (dec_MediaType a) 255 && validInvocationRuntimeArtifactKind (dec_Kind a)
  && clean_absolute (dec_SandboxPath a).

Fixpoint declarations_valid (ids paths : gset string) (artifacts : list ArtifactDeclaration) : result unit :=
  match artifacts with
  | [] => Ok tt
  | a :: rest =>
      if negb (declaration_valid a) then Err (ENew "invocation runtime artifact declaration is invalid")
      else if decide (dec_ID a ∈ ids) then Err (ENew "invocation runtime artifact identifiers must be unique")
      else if decide (dec_SandboxPath a ∈ paths) then Err (ENew "invocation runtime artifact paths must be unique")
      else declarations_valid ({[dec_ID a]} ∪ ids) ({[dec_SandboxPath a]} ∪ paths) rest
  end.

Definition validateInvocationRuntimeArtifacts (artifacts : list ArtifactDeclaration) : result unit :=
  if (maximumInvocationRuntimeArtifacts <? Z.of_nat (length artifacts))%Z
  then Err (ENew "invocation runtime artifact declarations exceed the limit")
  else declarations_valid ∅ ∅ artifacts.

Definition validInvocationRuntimeQuestionMode (r : StartRequest) : bool :=
  if decide (sr_QuestionMode r = "" ∨ sr_QuestionMode r = QuestionDisabled) then (sr_QuestionTimeout r =? 0)%Z
  else if decide (sr_QuestionMode r = QuestionInteractive) then
    (0 <? sr_QuestionTimeout r)%Z && (sr_QuestionTimeout r <=? 15 * minute_ns)%Z && (sr_QuestionTimeout r mod millisecond_ns =? 0)%Z
  else false.

Definition validateInvocationRuntimeRequest (r : StartRequest) : result unit :=
  if decide (sr_Prompt r = "") then Err (ENew "invocation runtime prompt is required")
  else if negb (validInvocationRuntimeQuestionMode r) then Err ErrQuestionMode
  else if decide (sr_ApprovalMode r ∉ [""; ApprovalLocked; ApprovalInteractive]) then Err (ENew "invocation runtime approval mode is invalid")
  else if decide (sr_SandboxMode r ∉ [""; SandboxReadOnly; SandboxWorkspaceWrite]) then Err (ENew "invocation runtime sandbox mode is invalid")
  else if negb (bool_decide (sr_WorkingDir r = "")) && negb (clean_absolute (sr_WorkingDir r))
  then Err (ENew "invocation runtime working directory must be a clean absolute sandbox path")
  else if contains_rune_nul (sr_Model r) then Err (ENew "invocation runtime model is invalid")
  else match validateInvocationRuntimeArtifacts (sr_Artifacts r) with
       | Err err => Err err
       | Ok _ =>
           if decide (sr_Artifacts r ≠ [] ∧ sr_SandboxMode r ≠ SandboxWorkspaceWrite)
           then Err (ENew "invocation runtime artifacts require workspace-write sandboxing") else Ok tt
       end.

(** ** The request of the pinned Codex profile *)

Definition CodexAppServerRuntimeProfileV1 := "codex.app-server/v1".
Definition maximumCodexInvocationPromptBytes : Z := Z.shiftl 256 10.
Definition maximumCodexInvocationOutputSchemaBytes : Z := Z.shiftl 256 10.
Definition maximumCodexInvocationArtifacts : Z := 32.

Definition ErrInvocationRuntimeProfileUnsupported := ESentinel "reconcile.ErrInvocationRuntimeProfileUnsupported".
Definition ErrInvocationRuntimeInputInvalid := ESentinel "reconcile.ErrInvocationRuntimeInputInvalid".
Definition ErrInvocationRuntimeOutputSchemaInvalid := ESentinel "reconcile.ErrInvocationRuntimeOutputSchemaInvalid".

Definition json_string (v : option json) : option string := match v with Some (JStr s) => Some s | _ => None end.

Definition codex_declaration (item : json) : option ArtifactDeclaration :=
  match item with
  | JObj fields =>
      if decide (length fields ≠ 5) then None else
      id ← json_string (field_lookup fields "id"); name ← json_string (field_lookup fields "name");
      path ← json_string (field_lookup fields "sandboxPath"); mediaType ← json_string (field_lookup fields "mediaType");
      kind ← json_string (field_lookup fields "kind"); Some (MkDeclaration id name path mediaType kind)
  | _ => None
  end.

Definition mapCodexInvocationArtifacts (input : list (string * json)) : result (list ArtifactDeclaration) :=
  match field_lookup input "artifacts" with
  | None => if decide (length input ≠ 1) then Err ErrInvocationRuntimeInputInvalid else Ok []
  | Some (JArr items) =>
      if decide (items = [] ∨ maximumCodexInvocationArtifacts < Z.of_nat (length items))%Z then Err ErrInvocationRuntimeInputInvalid
      else match mapM codex_declaration items with
           | None => Err ErrInvocationRuntimeInputInvalid
           | Some artifacts =>
               match validateInvocationRuntimeArtifacts artifacts with
               | Err err => Err (EJoin ErrInvocationRuntimeInputInvalid err)
               | Ok _ => Ok artifacts
               end
           end
  | Some _ => Err ErrInvocationRuntimeInputInvalid
  end.

Definition codexInvocationSandboxMode (artifacts : list ArtifactDeclaration) : string :=
  match artifacts with [] => SandboxReadOnly | _ => SandboxWorkspaceWrite end.

(** The schema is copied through its encoding; a copy of an object is an object. *)
Definition cloneCodexInvocationOutputSchema (schema : option json) : result (option json) :=
  match schema with
  | None => Ok None
  | Some value =>
      if (maximumCodexInvocationOutputSchemaBytes <? go_len (marshal value))%Z then Err ErrInvocationRuntimeOutputSchemaInvalid
      else match value with JObj _ => Ok (Some value) | _ => Err ErrInvocationRuntimeOutputSchemaInvalid end
  end.

Definition codex_BuildInvocationRuntimeRequest (target : InvocationRuntimeTarget) : result StartRequest :=
  if decide (rtg_RuntimeProfile target ≠ CodexAppServerRuntimeProfileV1)
  then Err (EWrap (rtg_RuntimeProfile target) ErrInvocationRuntimeProfileUnsupported)
  else match rtg_Input target with
  | JObj input =>
      if decide (length input < 1 ∨ 2 < length input)
      then Err (EWrap "codex v1 accepts only prompt and optional artifacts" ErrInvocationRuntimeInputInvalid)
      else match json_string (field_lookup input "prompt") with
      | Some prompt =>
          if bool_decide (prompt = "") || (maximumCodexInvocationPromptBytes <? go_len prompt)%Z || negb (valid_utf8 prompt)
             || contains_rune_nul prompt
          then Err (EWrap "codex v1 prompt is missing or invalid" ErrInvocationRuntimeInputInvalid)
          else
            artifacts ← mapCodexInvocationArtifacts input;
            schema ← cloneCodexInvocationOutputSchema (rtg_OutputSchema target);
            Ok (MkStart prompt "" "" schema artifacts ApprovalLocked "" 0 (codexInvocationSandboxMode artifacts))
      | None => Err (EWrap "codex v1 prompt is missing or invalid" ErrInvocationRuntimeInputInvalid)
      end
  | _ => Err (EWrap "codex v1 accepts only prompt and optional artifacts" ErrInvocationRuntimeInputInvalid)
  end.

(** ** The declared output *)

Definition maximumInvocationRuntimeOutputBytes : Z := Z.shiftl 192 10.
Definition maximumInvocationRuntimeOutputEvents : Z := 4096.
Definition ErrInvocationRuntimeOutputInvalid := ESentinel "reconcile.ErrInvocationRuntimeOutputInvalid".

(** What the library code does with arbitrary text: [json_Decode] reads a text that
    holds exactly one JSON value, numbers kept as literals; [json_strings] lists the
    string tokens (keys included) a [json.Decoder] yields before its first error;
    [CompileOutputSchema] is the JSON-schema library; [time_Parse] reads a time in the
    format [time.RFC3339Nano], in nanoseconds. *)
Class RuntimeLibrary := {
  json_Decode : string → option any;
  json_strings : string → list string;
  CompileOutputSchema : json → result (any → option error);
  time_Parse : string → option Z;
}.

Record invocationRuntimeOutput := MkOutput {
  out_structured : bool; out_text : string; out_artifact : option MessageArtifact; out_messageSequence : Z;
  out_sawDelta : bool; out_seen : gset Z; out_validator : option (any → option error); out_invalid : bool }.

Section output.
Context `{RuntimeLibrary}.

Definition newInvocationRuntimeOutput (schema : option json) : result invocationRuntimeOutput :=
  match schema with
  | None => Ok (MkOutput false "" None 0 false ∅ None false)
  | Some schema =>
      match CompileOutputSchema schema with
      | Err err => Err (EJoin ErrInvocationRuntimeOutputSchemaInvalid err)
      | Ok validator => Ok (MkOutput true "" None 0 false ∅ (Some validator) false)
      end
  end.

Definition mark_invalid (o : invocationRuntimeOutput) : invocationRuntimeOutput :=
  MkOutput (out_structured o) (out_text o) (out_artifact o) (out_messageSequence o) (out_sawDelta o) (out_seen o)
    (out_validator o) true.

Definition output_Observe (o : invocationRuntimeOutput) (event : Event) : invocationRuntimeOutput :=
  if decide (ev_Type event = "output.text.delta") then
    MkOutput (out_structured o) (out_text o) (out_artifact o) (out_messageSequence o) true (out_seen o) (out_validator o) (out_invalid o)
  else if decide (ev_Type event ≠ MessageCompletedEvent) then o
  else if decide (ev_Sequence event ∈ out_seen o) then o
  else if (maximumInvocationRuntimeOutputEvents <=? Z.of_nat (size (out_seen o)))%Z then mark_invalid o
  else
    let o := MkOutput (out_structured o) (out_text o) (out_artifact o) (out_messageSequence o) (out_sawDelta o)
               ({[ev_Sequence event]} ∪ out_seen o) (out_validator o) (out_invalid o) in
    match ParseCompletedMessage (ev_Payload event) with
    | Err _ => mark_invalid o
    | Ok message =>
        if decide (ev_Sequence event = 0%Z) then mark_invalid o
        else if decide (cm_Phase message ≠ "commentary" ∧ (out_messageSequence o < ev_Sequence event)%Z) then
          MkOutput (out_structured o) (cm_Text message) (out_artifact o) (ev_Sequence event) (out_sawDelta o) (out_seen o)
            (out_validator o) (out_invalid o)
        else o
    end.

Definition artifact_result (a : MessageArtifact) : payload :=
  [("schemaVersion", AStr "dataground.invocation-artifact-result/v1"); ("status", AStr "succeeded");
   ("outputArtifact", AMap [("artifactId", AStr (ma_ArtifactID a)); ("digest", AStr (ma_Digest a));
                            ("sizeBytes", AInt (ma_SizeBytes a)); ("mediaType", AStr "text/plain; charset=utf-8")])].

(** The value to report: the decoded text where a schema is declared. *)
Definition output_value (o : invocationRuntimeOutput) : result any :=
  if out_structured o then
    if decide (out_messageSequence o = 0%Z ∨ out_text o = "") then Err ErrInvocationRuntimeOutputInvalid
    else match json_Decode (out_text o) with
    | None => Err ErrInvocationRuntimeOutputInvalid
    | Some value =>
        match out_validator o with
        | None => Err (EJoin ErrInvocationRuntimeOutputInvalid ErrInvocationRuntimeOutputSchemaInvalid)
        | Some validate =>
            match validate value with
            | Some err => Err (EJoin ErrInvocationRuntimeOutputInvalid err)
            | None => Ok value
            end
        end
    end
  else Ok (AMap [("text", AStr (out_text o))]).

Definition output_Result (o : invocationRuntimeOutput) : result payload :=
  if out_invalid o || (bool_decide (out_messageSequence o = 0%Z) && (out_sawDelta o || negb (bool_decide (out_seen o = ∅))))
  then Err ErrInvocationRuntimeOutputInvalid
  else
    value ← output_value o;
    match out_artifact o with
    | Some a => Ok (artifact_result a)
    | None =>
        let reported := [("status", AStr "succeeded"); ("output", value)] in
        match any_text (AMap reported) with
        | Some encoded => if (maximumInvocationRuntimeOutputBytes <? go_len encoded)%Z then Err ErrInvocationRuntimeOutputInvalid else Ok reported
        | None => Err ErrInvocationRuntimeOutputInvalid
        end
    end.

Definition messageContainsNUL (text : string) (structured : bool) : bool :=
  contains_rune_nul text || (structured && existsb contains_rune_nul (json_strings text)).
End output.
