(* ===== verification/RuntimeOutputProofs.v ===== *)
(** * What the runtime output checks guarantee

    Previews are short, valid text without NUL; what a parser accepts it accepts
    again in its normal form, with the same value; and the request that is built for
    the pinned Codex profile is one the driver takes. *)
From stdpp Require Import pretty.
From S2P Require Import Prelude.
From S2P Require Import GoStrings.
From S2P Require Import GoJson.
From S2P Require Import GoDecode.
From S2P Require Import GoPath.
From S2P Require Import Questions.
From S2P Require Import Database.
From S2P Require Import OperationStore.
From S2P Require Import RuntimeInteraction.
From S2P Require Import RuntimeOutput.
From S2P Require Import RuntimeRequest.

(** ** Previews *)

Abbreviation escape_byte := (λ c, if (byte_value c =? 0)%N then bytes_of (backslash +:+ "u0000") else [c]).

Lemma escaped_bytes text : bytes_of (escape_nul text) = bytes_of text ≫= escape_byte.
Proof. unfold escape_nul. by rewrite bytes_of_of. Qed.

Lemma escape_high bs : Forall (λ c, (128 ≤ byte_value c)%N) bs → bs ≫= escape_byte = bs.
Proof.
  induction 1 as [|c bs Hc _ IH]; [done|]. cbn [mbind list_bind] in *. rewrite IH.
  destruct (N.eqb_spec (byte_value c) 0); [lia|done].
Qed.

Lemma escape_utf8 text : valid_utf8 text = true → valid_utf8 (escape_nul text) = true.
Proof.
  unfold valid_utf8, runes. rewrite escaped_bytes.
  induction (bytes_of text) as [|bs r tail -> E Hr IH] using runes_of_ind; [done|]. rewrite E. cbn [forallb].
  rewrite andb_true_iff. intros [Hv Ht]. destruct (Hr Hv) as [Hok Hreads]. rewrite bind_app.
  destruct Hok as [(c & -> & Hc & Hlow)|[Hhigh _]].
  - cbn [mbind list_bind]. rewrite app_nil_r. destruct (N.eqb_spec (byte_value c) 0).
    + cbn. by apply IH.
    + cbn [app runes_of]. apply N.ltb_lt in Hlow. rewrite Hlow. cbn. by apply IH.
  - rewrite (escape_high _ Hhigh), Hreads. cbn [forallb]. rewrite Hv. by apply IH.
Qed.

Lemma valid_prefix_prefix n bs : ∃ k, k ≤ n ∧ bytes_of (valid_prefix_of n bs) = take k bs.
Proof.
  induction n as [|n (k & Hk & IH)]; cbn [valid_prefix_of]; destruct (valid_utf8 _).
  - exists 0. by rewrite bytes_of_of.
  - exists 0. done.
  - exists (S n). by rewrite bytes_of_of.
  - exists k. split; [lia|done].
Qed.

Lemma valid_prefix_utf8 n bs : valid_utf8 (valid_prefix_of n bs) = true.
Proof. induction n as [|n IH]; cbn [valid_prefix_of]; destruct (valid_utf8 (of_bytes _)) eqn:E; done. Qed.

Lemma truncate_prefix text n : ∃ k, bytes_of (truncateTextPreview text n) = take k (bytes_of text).
Proof.
  unfold truncateTextPreview. destruct (_ <=? _)%nat; [exists (slen text); by rewrite <- length_bytes_of, firstn_all|].
  destruct (valid_prefix_prefix n (bytes_of text)) as (k & _ & ?). by exists k.
Qed.

Lemma truncate_length text n : (slen (truncateTextPreview text n) ≤ n)%nat.
Proof.
  unfold truncateTextPreview. destruct (Nat.leb_spec (slen text) n); [done|].
  destruct (valid_prefix_prefix n (bytes_of text)) as (k & Hk & E). rewrite <- length_bytes_of, E, length_take. lia.
Qed.

Lemma truncate_utf8 text n : valid_utf8 text = true → valid_utf8 (truncateTextPreview text n) = true.
Proof. unfold truncateTextPreview. destruct (_ <=? _)%nat; [done|intros _; apply valid_prefix_utf8]. Qed.

Lemma escaped_no_nul text : contains_rune_nul (escape_nul text) = false.
Proof.
  unfold contains_rune_nul, contains_byte. apply bool_decide_eq_false. rewrite escaped_bytes, list_elem_of_bind.
  intros (c & Hc & _). destruct (N.eqb_spec (byte_value c) 0) as [|Hne].
  - by vm_compute in Hc; repeat (apply elem_of_cons in Hc as [Hc|Hc]; [done|]); apply elem_of_nil in Hc.
  - apply list_elem_of_singleton in Hc. by subst c.
Qed.

Lemma no_nul_prefix text k n :
  contains_rune_nul text = false → bytes_of k = take n (bytes_of text) → contains_rune_nul k = false.
Proof.
  unfold contains_rune_nul, contains_byte. rewrite !bool_decide_eq_false. intros Hn -> Hin. apply Hn.
  rewrite <- (take_drop n (bytes_of text)). apply elem_of_app. by left.
Qed.

Lemma preview_length text maximum : (slen (runtimeTextPreview text maximum) ≤ maximum)%nat.
Proof. apply truncate_length. Qed.

Lemma preview_no_nul text maximum : contains_rune_nul (runtimeTextPreview text maximum) = false.
Proof.
  destruct (truncate_prefix (escape_nul (truncateTextPreview text maximum)) maximum) as (k & E).
  by eapply no_nul_prefix; [apply escaped_no_nul|].
Qed.

Lemma preview_utf8 text maximum : valid_utf8 text = true → valid_utf8 (runtimeTextPreview text maximum) = true.
Proof. intros Hv. by apply truncate_utf8, escape_utf8, truncate_utf8. Qed.

(** The preview that is recorded for a message or a command, and the text of a
    streamed delta, never exceed their limit, are valid UTF-8 whenever the text was,
    have no NUL, and are the text itself when it is short enough and has none. *)
Theorem runtime_previews_bounded (text : string) (maximum : nat) :
  let preview := runtimeTextPreview text maximum in
  (slen preview ≤ maximum)%nat ∧ contains_rune_nul preview = false
  ∧ (valid_utf8 text = true → valid_utf8 preview = true)
  ∧ ((slen text ≤ maximum)%nat → contains_rune_nul text = false → preview = text).
Proof.
  cbn zeta. split_and!; [apply preview_length|apply preview_no_nul|apply preview_utf8|].
  intros Hl Hn. unfold runtimeTextPreview. assert (truncateTextPreview text maximum = text) as Ht.
  { unfold truncateTextPreview. apply Nat.leb_le in Hl. by rewrite Hl. }
  rewrite Ht. assert (escape_nul text = text) as ->; [|done].
  unfold escape_nul. rewrite <- (of_bytes_of text) at 2. f_equal.
  unfold contains_rune_nul, contains_byte in Hn. apply bool_decide_eq_false in Hn.
  induction (bytes_of text) as [|c bs IH]; [done|]. apply not_elem_of_cons in Hn as [Hc Hn].
  cbn [mbind list_bind]. rewrite IH by done. destruct (N.eqb_spec (byte_value c) 0) as [E|]; [|done].
  by apply byte_of_value_eq in E.
Qed.

(** ** Payloads *)

(** Look up keys of a payload that is written out. *)
Lemma get_here key v p : get ((key, v) :: p) key = Some v.
Proof. cbn [get]. by rewrite decide_True. Qed.
Lemma get_there key key' v p : key' ≠ key → get ((key', v) :: p) key = get p key.
Proof. intros. cbn [get]. by rewrite decide_False. Qed.

Ltac payload_fields :=
  unfold get_string; repeat first [rewrite get_here|rewrite get_there by done];
  try match goal with |- context [bool_decide (length ?l ≠ ?n)] =>
    replace (bool_decide (length l ≠ n)) with false by (symmetry; apply bool_decide_eq_false_2; intros Hne; by apply Hne) end; cbn [orb].

(** The next check was passed. *)
Ltac passed H := match goal with |- (if ?b then _ else _) = _ → _ => destruct b eqn:H; [done|] end.

Lemma message_again p m : ParseCompletedMessage p = Ok m → ParseCompletedMessage (message_payload m) = Ok m.
Proof.
  unfold ParseCompletedMessage at 1. destruct (get_string p "text") as [text|]; [|done].
  destruct (get_string p "phase") as [phase|]; [|done]. destruct (_ || _ || _) eqn:Hc; [done|].
  apply orb_false_elim in Hc as [[_ Hl]%orb_false_elim Hv]. destruct (valid_phase phase) eqn:Hp; [|done].
  intros [= <-]. unfold ParseCompletedMessage, message_payload. cbn [cm_Text cm_Phase]. payload_fields. by rewrite Hl, Hv, Hp.
Qed.

Lemma int32_again v code : int32_of v = Some code → int32_of (exit_any code) = Some code.
Proof.
  assert (∀ z, (if decide (-2147483648 ≤ z ≤ 2147483647)%Z then Some (Some z) else None) = Some code →
    int32_of (exit_any code) = Some code) as Hz.
  { intros z. destruct (decide _) as [Hr|]; [|done]. intros [= <-]. cbn. by rewrite decide_True. }
  destruct v; cbn; try done; try (by intros [= <-]); try apply Hz.
  all: destruct (parse_int _) as [[[] []]|]; try done; apply Hz.
Qed.

Lemma command_again p c : ParseCompletedCommand p = Ok c → ParseCompletedCommand (command_payload c) = Ok c.
Proof.
  unfold ParseCompletedCommand at 1. destruct (get_string p "text") as [text|]; [|done].
  destruct (get p "exitCode") as [exit|]; [|done]. destruct (list_find _ p) as [[? [? value]]|]; [|done].
  destruct value as [| | | | | |status| | | | |]; try done.
  destruct (_ || _ || _ || _) eqn:Hc; [done|]. apply orb_false_elim in Hc as [[[_ Hv]%orb_false_elim Hl]%orb_false_elim Hs].
  destruct (int32_of exit) as [code|] eqn:Hi; [|done]. intros [= <-]. apply int32_again in Hi.
  unfold ParseCompletedCommand, command_payload. cbn [cc_Text cc_Status cc_ExitCode]. payload_fields.
  change (list_find _ [_; _; _]) with (Some (1, ("status", AStr status))). cbn [orb]. by rewrite Hv, Hl, Hs, Hi.
Qed.

Lemma patch_change_again raw c : parse_patch_change raw = Some c → parse_patch_change (patch_change_any c) = Some c.
Proof.
  destruct raw as [| | | | | | | | |item| |]; try done. unfold parse_patch_change at 1.
  destruct (get_string item "path") as [name|]; [|done]. destruct (get_string item "kind") as [kind|]; [|done].
  destruct (get_string item "diff") as [diff|]; [|done]. destruct (get item "movePath") as [move|]; [|done]. cbn [mbind option_bind].
  destruct (_ || _ || _ || _ || _) eqn:Hc; [done|].
  apply orb_false_elim in Hc as [[[[_ Hn]%orb_false_elim Hk]%orb_false_elim Hu]%orb_false_elim Hl].
  destruct move as [| | | | | |moved| | | | |]; try done; [|destruct (_ || _ || _) eqn:Hm; [done|]].
  all: intros [= <-]; unfold parse_patch_change, patch_change_any; cbn [pc_Path pc_Kind pc_Diff pc_MovePath option_any]; payload_fields.
  all: cbn [mbind option_bind orb]; rewrite Hn, Hk, Hu, Hl; cbn [orb]; by rewrite ?Hm.
Qed.

Lemma patch_changes_again raws : ∀ used cs,
  parse_patch_changes used raws = Some cs → parse_patch_changes used (patch_change_any <$> cs) = Some cs ∧ length cs = length raws.
Proof.
  induction raws as [|raw rest IH]; intros used cs; cbn [parse_patch_changes]; [by intros [= <-]|].
  destruct (parse_patch_change raw) as [c|] eqn:Hc; [|done]. cbn [mbind option_bind]. destruct (_ <? _)%Z eqn:Hl; [done|].
  destruct (parse_patch_changes _ rest) as [cs'|] eqn:Hr; [|done]. intros [= <-].
  destruct (IH _ _ Hr) as [IH1 IH2]. cbn [fmap list_fmap parse_patch_changes length]. rewrite (patch_change_again _ _ Hc).
  cbn [mbind option_bind]. rewrite Hl, IH1. by rewrite IH2.
Qed.

Lemma Ok_eq {A} (a b : A) : Ok a = Ok b → a = b.
Proof. by intros [=]. Qed.

Lemma patch_again p v : ParseCompletedPatch p = Ok v → ParseCompletedPatch (patch_payload v) = Ok v.
Proof.
  unfold ParseCompletedPatch at 1. destruct (get_string p "schemaVersion") as [version|]; [|done].
  destruct (get_string p "status") as [status|]; [|done].
  destruct (match get p "changes" with Some _ => _ | None => _ end) as [changes|]; [|done].
  destruct (_ || _ || _ || _) eqn:Hc; [done|]. apply orb_false_elim in Hc as [[[_ Hver]%orb_false_elim Hs]%orb_false_elim Hn].
  destruct (parse_patch_changes 0 changes) as [cs|] eqn:Hcs; [|done]. cbn zeta.
  passed Hl. intros <-%Ok_eq.
  destruct (patch_changes_again _ _ _ Hcs) as [Hagain Hlen].
  unfold ParseCompletedPatch, patch_payload. cbn [cp_SchemaVersion cp_Status cp_Changes]. payload_fields.
  rewrite Hver, Hs, length_fmap, Hlen, Hn. cbn [orb]. by rewrite Hagain, Hl.
Qed.

Lemma steps_again entries : ∀ budget steps, parse_steps budget entries = Some steps →
  parse_steps budget ((λ s, AMap [("text", AStr (ps_Text s)); ("status", AStr (ps_Status s))]) <$> steps) = Some steps
  ∧ length steps = length entries.
Proof.
  induction entries as [|entry rest IH]; intros budget steps; cbn [parse_steps]; [by intros [= <-]|].
  destruct entry as [| | | | | | | | |step| |]; try done.
  destruct (get_string step "text") as [text|]; [|done]. destruct (get_string step "status") as [status|]; [|done].
  cbn [mbind option_bind]. destruct (_ || _ || _ || _) eqn:Hc; [done|].
  apply orb_false_elim in Hc as [[[_ Hu]%orb_false_elim Hl]%orb_false_elim Hs].
  destruct (parse_steps _ rest) as [steps'|] eqn:Hr; [|done]. intros [= <-]. destruct (IH _ _ Hr) as [IH1 IH2].
  cbn [fmap list_fmap parse_steps ps_Text ps_Status]. payload_fields. cbn [mbind option_bind].
  rewrite Hu, Hl, Hs. cbn [orb]. rewrite IH1. cbn [mbind option_bind length]. by rewrite IH2.
Qed.

Lemma plan_again p v : ParsePlanSnapshot p = Ok v → ParsePlanSnapshot (plan_payload v) = Ok v.
Proof.
  unfold ParsePlanSnapshot at 1. destruct (_ || _) eqn:Hc; [done|]. cbn zeta.
  destruct (match get p "explanation" with Some _ => _ | None => _ end) as [[explanation budget]|] eqn:He; [|done].
  destruct (get p "steps") as [[]|]; try done. destruct (_ <? _)%Z eqn:Hn; [done|].
  destruct (parse_steps budget items) as [steps|] eqn:Hs; [|done]. cbn zeta.
  passed Hl. intros <-%Ok_eq.
  destruct (steps_again _ _ _ Hs) as [Hagain Hlen].
  unfold ParsePlanSnapshot, plan_payload. cbn [pl_SchemaVersion pl_Explanation pl_Steps]. payload_fields.
  rewrite bool_decide_eq_true_2 by done. cbn [negb].
  assert (match option_any explanation with
    | ANil => Some (None, MaximumPlanBytes)
    | AStr text => if negb (valid_utf8 text) || (MaximumPlanBytes <? go_len text)%Z then None
                   else Some (Some text, (MaximumPlanBytes - go_len text)%Z)
    | _ => None end = Some (explanation, budget)) as ->.
  { destruct (get p "explanation") as [[]|]; try done; [by injection He as <- <-|].
    match type of He with (if ?b then _ else _) = _ => destruct b eqn:Hx end; [done|]. injection He as <- <-. cbn [option_any]. by rewrite Hx. }
  rewrite length_fmap, Hlen, Hn, Hagain. by rewrite Hl.
Qed.

Lemma tool_again p v : ParseCompletedToolOutput p = Ok v → ParseCompletedToolOutput (tool_payload v) = Ok v.
Proof.
  unfold ParseCompletedToolOutput at 1. passed Hc.
  destruct (get_string p "status") as [status|]; [|done]. destruct (get p "content") as [[]|]; try done.
  destruct (get p "structuredContent") as [structured|]; [|done]. passed Hs.
  destruct (tool_error p status) as [failure|] eqn:Hf; [|done]. destruct (validToolJSON (AList items) _ _ ≫= _) as [rest|] eqn:Hj; [|done].
  cbn zeta. destruct (tool_text _) as [encoded|] eqn:Ht; [|done]. cbn zeta.
  passed Hl. intros <-%Ok_eq.
  unfold ParseCompletedToolOutput, tool_payload.
  cbn [tv_SchemaVersion tv_Status tv_Content tv_StructuredContent tv_Error]. payload_fields.
  rewrite bool_decide_eq_true_2 by done. cbn [negb]. rewrite Hs.
  match goal with |- context [tool_error ?q status] => assert (tool_error q status = Some failure) as -> end.
  { unfold tool_error in *. payload_fields. destruct (get p "error") as [[]|]; try done; [by injection Hf as <-|].
    match type of Hf with (if ?b then _ else _) = _ => destruct b eqn:Hx end; [done|]. injection Hf as <-. cbn [option_any]. by rewrite Hx. }
  by rewrite Hj, Ht, Hl.
Qed.

(** ** What a parser has checked *)

Lemma message_parsed p m : ParseCompletedMessage p = Ok m →
  valid_utf8 (cm_Text m) = true ∧ (go_len (cm_Text m) ≤ MaximumMessageTextBytes)%Z ∧ valid_phase (cm_Phase m) = true.
Proof.
  unfold ParseCompletedMessage. destruct (get_string p "text") as [text|]; [|done].
  destruct (get_string p "phase") as [phase|]; [|done]. passed Hc.
  apply orb_false_elim in Hc as [[_ Hl]%orb_false_elim Hv]. destruct (valid_phase phase) eqn:Hp; [|done].
  intros <-%Ok_eq. cbn [cm_Text cm_Phase]. apply negb_false_iff in Hv. apply Z.ltb_ge in Hl. done.
Qed.

Lemma command_parsed p c : ParseCompletedCommand p = Ok c →
  valid_utf8 (cc_Text c) = true ∧ (go_len (cc_Text c) ≤ MaximumCommandOutputBytes)%Z ∧ validOutputStatus (cc_Status c) = true
  ∧ int32_of (exit_any (cc_ExitCode c)) = Some (cc_ExitCode c).
Proof.
  unfold ParseCompletedCommand. destruct (get_string p "text") as [text|]; [|done].
  destruct (get p "exitCode") as [exit|]; [|done]. destruct (list_find _ p) as [[? [? value]]|]; [|done].
  destruct value as [| | | | | |status| | | | |]; try done. passed Hc.
  apply orb_false_elim in Hc as [[[_ Hv]%orb_false_elim Hl]%orb_false_elim Hs].
  destruct (int32_of exit) as [code|] eqn:Hi; [|done]. intros <-%Ok_eq. cbn [cc_Text cc_Status cc_ExitCode].
  apply negb_false_iff in Hv, Hs. apply Z.ltb_ge in Hl. apply int32_again in Hi. done.
Qed.

Lemma patch_parsed p v : ParseCompletedPatch p = Ok v →
  validOutputStatus (cp_Status v) = true ∧ (Z.of_nat (length (cp_Changes v)) ≤ 256)%Z
  ∧ (go_len (marshal (patch_json v)) ≤ MaximumPatchBytes)%Z.
Proof.
  unfold ParseCompletedPatch. destruct (get_string p "schemaVersion") as [version|]; [|done].
  destruct (get_string p "status") as [status|]; [|done].
  destruct (match get p "changes" with Some _ => _ | None => _ end) as [changes|]; [|done]. passed Hc.
  apply orb_false_elim in Hc as [[[_ Hver]%orb_false_elim Hs]%orb_false_elim Hn].
  destruct (parse_patch_changes 0 changes) as [cs|] eqn:Hcs; [|done]. cbn zeta. passed Hl. intros <-%Ok_eq.
  destruct (patch_changes_again _ _ _ Hcs) as [_ Hlen]. cbn [cp_Status cp_Changes].
  apply negb_false_iff in Hs. apply Z.ltb_ge in Hn, Hl. rewrite Hlen. done.
Qed.

Lemma plan_parsed p v : ParsePlanSnapshot p = Ok v →
  (Z.of_nat (length (pl_Steps v)) ≤ 256)%Z ∧ (go_len (marshal (plan_json v)) ≤ MaximumPlanBytes)%Z.
Proof.
  unfold ParsePlanSnapshot. passed Hc. cbn zeta.
  destruct (match get p "explanation" with Some _ => _ | None => _ end) as [[explanation budget]|] eqn:He; [|done].
  destruct (get p "steps") as [[]|]; try done. passed Hn.
  destruct (parse_steps budget items) as [steps|] eqn:Hs; [|done]. passed Hl. intros <-%Ok_eq.
  destruct (steps_again _ _ _ Hs) as [_ Hlen]. cbn [pl_Steps]. apply Z.ltb_ge in Hn, Hl. rewrite Hlen. done.
Qed.

Lemma tool_parsed p v : ParseCompletedToolOutput p = Ok v →
  tv_Status v ∈ ["completed"; "failed"] ∧ (Z.of_nat (length (tv_Content v)) ≤ 256)%Z
  ∧ ∃ encoded, tool_text v = Some encoded ∧ (go_len encoded ≤ MaximumToolOutputBytes)%Z.
Proof.
  unfold ParseCompletedToolOutput. passed Hc.
  destruct (get_string p "status") as [status|]; [|done]. destruct (get p "content") as [[]|]; try done.
  destruct (get p "structuredContent") as [structured|]; [|done]. passed Hs.
  destruct (tool_error p status) as [failure|]; [|done]. destruct (validToolJSON (AList items) _ _ ≫= _) as [rest|]; [|done].
  cbn zeta. destruct (tool_text _) as [encoded|] eqn:Ht; [|done]. passed Hl. intros <-%Ok_eq. cbn [tv_Status tv_Content].
  apply orb_false_elim in Hs as [Hs%negb_false_iff%bool_decide_eq_true Hn%Z.ltb_ge]. apply Z.ltb_ge in Hl.
  split_and!; [done|done|by exists encoded].
Qed.

Lemma image_parsed `{ImageDecoder} p v : ParseCompletedImage p = Ok v →
  (0 < go_len (im_Bytes v) ≤ MaximumImageBytes)%Z ∧ validImageMediaType (im_MediaType v) = true
  ∧ validImageDimensions (im_Width v) (im_Height v) = true.
Proof.
  unfold ParseCompletedImage. destruct (get_string p "data") as [data|]; [|done]. passed Hd.
  destruct (b64_decode _) as [bytes|]; [|done]. cbn zeta. passed Hc. destruct (DecodeConfig _) as [[[width height] format]|]; [|done].
  destruct (Decode _) as [[decoded bounds]|]; [|done]. passed Hv. intros <-%Ok_eq. cbn [im_Bytes im_MediaType im_Width im_Height].
  apply orb_false_elim in Hc as [[Hne%bool_decide_eq_false Hl%Z.ltb_ge]%orb_false_elim _].
  apply orb_false_elim in Hv as [[[Hdim%negb_false_iff Hm%negb_false_iff]%orb_false_elim _]%orb_false_elim _].
  split_and!; [|done|done|done]. unfold go_len. destruct (of_bytes bytes); [done|]. cbn. lia.
Qed.

(** C39: whatever a runtime parser accepts (a message, a command output, a patch, a plan
    or a tool output) has a normal form that the parser accepts again, with the same
    value: what is retained is what was reported. *)
Theorem runtime_outputs_roundtrip :
  (∀ p v, ParseCompletedMessage p = Ok v → ParseCompletedMessage (message_payload v) = Ok v)
  ∧ (∀ p v, ParseCompletedCommand p = Ok v → ParseCompletedCommand (command_payload v) = Ok v)
  ∧ (∀ p v, ParseCompletedPatch p = Ok v → ParseCompletedPatch (patch_payload v) = Ok v)
  ∧ (∀ p v, ParsePlanSnapshot p = Ok v → ParsePlanSnapshot (plan_payload v) = Ok v)
  ∧ (∀ p v, ParseCompletedToolOutput p = Ok v → ParseCompletedToolOutput (tool_payload v) = Ok v).
Proof. split_and!; [apply message_again|apply command_again|apply patch_again|apply plan_again|apply tool_again]. Qed.

(** ** Requests *)

Lemma codex_artifacts_valid input artifacts :
  mapCodexInvocationArtifacts input = Ok artifacts → validateInvocationRuntimeArtifacts artifacts = Ok tt.
Proof.
  unfold mapCodexInvocationArtifacts. destruct (field_lookup input "artifacts") as [[| | | |items|]|]; try done.
  2:{ destruct (decide _); [done|]. by intros <-%Ok_eq. }
  destruct (decide _); [done|]. destruct (mapM _ _) as [declared|]; [|done].
  destruct (validateInvocationRuntimeArtifacts declared) as [[]|] eqn:Hv; [|done]. by intros <-%Ok_eq.
Qed.

(** What the builder makes of a target. *)
Lemma codex_built target request :
  codex_BuildInvocationRuntimeRequest target = Ok request →
  ∃ input prompt artifacts schema, rtg_Input target = JObj input ∧ field_lookup input "prompt" = Some (JStr prompt) ∧ prompt ≠ ""
    ∧ validateInvocationRuntimeArtifacts artifacts = Ok tt
    ∧ request = MkStart prompt "" "" schema artifacts ApprovalLocked "" 0 (codexInvocationSandboxMode artifacts).
Proof.
  unfold codex_BuildInvocationRuntimeRequest. destruct (decide _); [done|].
  destruct (rtg_Input target) as [| | | | |input] eqn:Hi; try done. destruct (decide _); [done|].
  destruct (field_lookup input "prompt") as [[| | |prompt| |]|] eqn:Hp; try done. cbn [json_string].
  passed Hc. destruct (mapCodexInvocationArtifacts input) as [artifacts|] eqn:Ha; [|done].
  destruct (cloneCodexInvocationOutputSchema _) as [schema|]; [|done]. cbn. intros <-%Ok_eq.
  exists input, prompt, artifacts, schema. split_and!; [done|done| |by eapply codex_artifacts_valid|done].
  apply orb_false_elim in Hc as [[[Hc _]%orb_false_elim _]%orb_false_elim _]. by apply bool_decide_eq_false in Hc.
Qed.

Lemma codex_valid target request :
  codex_BuildInvocationRuntimeRequest target = Ok request → validateInvocationRuntimeRequest request = Ok tt.
Proof.
  intros (input & prompt & artifacts & schema & _ & _ & Hp & Ha & ->)%codex_built. unfold validateInvocationRuntimeRequest.
  cbn [sr_Prompt sr_WorkingDir sr_Model sr_Artifacts sr_ApprovalMode sr_SandboxMode]. rewrite decide_False by done.
  change (negb (validInvocationRuntimeQuestionMode _)) with false. cbn [negb]. rewrite Ha.
  destruct artifacts as [|a rest]; cbn [codexInvocationSandboxMode].
  - rewrite !decide_False; [done|by intros [? ?]|..]; intros Hin; apply Hin; set_solver.
  - rewrite !decide_False; [done|by intros [_ ?]|..]; intros Hin; apply Hin; set_solver.
Qed.
