(* ===== verification/RuntimeDriver.v ===== *)
(** * The runtime driver

    [internal/reconcile/invocation_runtime_driver.go] with its parts
    ([invocation_runtime_approval.go], [invocation_runtime_question.go], the
    [invocation_runtime_*_artifact.go] files, [invocation_runtime_output_retention.go],
    [invocation_workspace_completion.go]): one durable effect becomes one turn of a
    native agent.  The driver holds the claim, records what the agent does, asks
    users through the durable ledger and reports the outcome.  All collaborators are
    Go interfaces: functions over an arbitrary world. *)
From stdpp Require Import pretty.
From S2P Require Import Prelude.
From S2P Require Import CallLog.
From S2P Require Import GoStrings.
From S2P Require Import Sha256.
From S2P Require Import GoJson.
From S2P Require Import Questions.
From S2P Require Import RuntimeTables.
From S2P Require Import Database.
From S2P Require Import OperationStore.
From S2P Require Import RuntimeInteraction.
From S2P Require Import RuntimeApproval.
From S2P Require Import RuntimeQuestion.
From S2P Require Import Reconciler.
From S2P Require Import GatewayStore.
From S2P Require Import Drivers.
From S2P Require Import RuntimeOutput.
From S2P Require Import RuntimeRequest.

(** ** Contexts and calls back *)

(** The contexts the driver derives: the caller's, one that also ends at a time, and
    one cut off from the caller's cancellation that ends after a duration. *)
Inductive context :=
  | Caller
  | WithDeadline (parent : context) (at_ : Z)
  | Detached (parent : context) (timeout : Z).

(** A call that is given a function and calls it back a finite number of times:
    its answer, or a question and how it goes on with the reply. *)
Inductive asking (W Q A : Type) :=
  | Answered (a : A)
  | Asking (q : Q) (resume : option error → W → W * asking W Q A).
Arguments Answered {W Q A} a.
Arguments Asking {W Q A} q resume.

Fixpoint run_asking {W Q A} (f : Q → io W (option error)) (a : asking W Q A) : io W A :=
  λ w, match a with
       | Answered x => (w, x)
       | Asking q resume => let '(w1, e) := f q w in let '(w2, a') := resume e w1 in run_asking f a' w2
       end.

(** Early returns. *)
Definition on_error {W A} (m : io W (option error)) (handle : error → io W A) (k : io W A) : io W A :=
  e ← m; match e with Some err => handle err | None => k end.
Definition on_result {W A B} (m : io W (result A)) (handle : error → io W B) (k : A → io W B) : io W B :=
  r ← m; match r with Err err => handle err | Ok a => k a end.

(** ** Errors *)

Definition ErrInvocationRuntimeDenied := ESentinel "reconcile.ErrInvocationRuntimeDenied".
Definition ErrInvocationRuntimeTargetMismatch := ESentinel "reconcile.ErrInvocationRuntimeTargetMismatch".
Definition ErrInvocationRuntimeExecutionNotReady := ESentinel "reconcile.ErrInvocationRuntimeExecutionNotReady".
Definition ErrInvocationRuntimeExecutionTerminated := ESentinel "reconcile.ErrInvocationRuntimeExecutionTerminated".
Definition ErrInvocationRuntimeExecutionUnknown := ESentinel "reconcile.ErrInvocationRuntimeExecutionUnknown".
Definition ErrInvocationApprovalDenied := ESentinel "reconcile.ErrInvocationApprovalDenied".
Definition ErrInvocationApprovalInvalid := ESentinel "reconcile.ErrInvocationApprovalInvalid".
Definition ErrInvocationApprovalUnavailable := ESentinel "reconcile.ErrInvocationApprovalUnavailable".
Definition ErrInvocationRuntimeAttemptMissing := ESentinel "persistence.ErrInvocationRuntimeAttemptMissing".
Definition ErrInvocationRuntimeAttemptAmbiguous := ESentinel "persistence.ErrInvocationRuntimeAttemptAmbiguous".
Definition ErrWorkspacePreparation := ESentinel "persistence.ErrWorkspacePreparation".
Definition ErrWorkspaceQuiescence := ESentinel "persistence.ErrWorkspaceQuiescence".
Definition ErrInvocationArtifactConflict := ESentinel "artifact.ErrInvocationArtifactConflict".

(** ** Artifacts *)

Definition InvocationArtifactSchemaV1 := "dataground.invocation-artifact/v1".

Record ArtifactRecord := MkArtifact {
  ar_SchemaVersion : string; ar_IsolationDomainID : string; ar_ID : string; ar_InvocationID : string;
  ar_OperationID : string; ar_EffectID : string; ar_Name : string; ar_Kind : string; ar_MediaType : string;
  ar_SizeBytes : Z; ar_Digest : string; ar_Sensitive : bool; ar_ObjectKey : string }.

Record ArtifactBinding := MkArtifactBinding {
  ab_Record : ArtifactRecord; ab_ActorID : string; ab_CorrelationID : string; ab_LeaseOwner : string;
  ab_FencingToken : Z; ab_StateMachineVersion : Z }.

Record Finalization := MkFinalization { fz_Binding : ArtifactBinding; fz_Content : string }.

Record InvocationRuntimeOutputFailure := MkOutputFailure { of_Artifact : Finalization; of_Result : payload; of_Retained : bool }.

Record InvocationRuntimeEvent := MkRuntimeEvent { re_SourceSequence : Z; re_Type : string; re_Payload : payload }.

Record ExportResult := MkExport { ex_IsolationDomainID : string; ex_ExecutionID : string; ex_Content : string }.

(** ** Interfaces *)

Section interfaces.
Variable W : Type.

(** [dgruntime.Turn]; the last two fields are the optional capabilities
    [ApprovalTurn] and [QuestionTurn].  [turn_select] is the [select] of the driver's
    loop: it answers with one of the cases that are ready. *)
Inductive selected :=
  | SelEvent (event : Event)
  | SelClosed
  | SelPoll
  | SelWaited (err : option error)
  | SelRenew
  | SelDone (err : error).
Inductive received := RecvEvent (event : Event) | RecvClosed | RecvEmpty.

Record QuestionTurn := MkQuestionTurn {
  qt_QuestionPending : context → string → io W (result bool);
  qt_AnswerQuestion : context → string → list QuestionAnswer → io W (option error) }.

Record Turn := MkTurn {
  turn_select : io W selected;
  turn_receive : io W received;
  turn_ResolveApproval : context → string → string → io W (option error);
  turn_Interrupt : context → io W (option error);
  turn_Close : io W (option error);
  turn_ApprovalPending : option (context → string → io W (result bool));
  turn_questions : option QuestionTurn }.

Record Adapter := MkAdapter {
  adapter_Start : context → StartRequest → io W (result Turn);
  adapter_Close : io W (option error) }.

Record InvocationRuntimeStore := MkRuntimeStore {
  st_CheckInvocationWorkspacePreparation : context → OperationClaim → EffectRecord → io W (result bool);
  st_PrepareInvocationRuntimeOutputFailure :
    context → OperationClaim → EffectRecord → Z → io W (result InvocationRuntimeOutputFailure);
  st_GetClaimedInvocationRuntimeTarget : context → OperationClaim → io W (result InvocationRuntimeTarget);
  st_GetInvocationRuntimeAttempt : context → string → string → io W (result InvocationRuntimeAttempt);
  st_BeginInvocationRuntimeAttempt : context → OperationClaim → EffectRecord → io W (option error);
  st_CompleteInvocationRuntimeAttempt : context → OperationClaim → EffectRecord → payload → io W (option error);
  st_FailInvocationRuntimeAttempt : context → OperationClaim → EffectRecord → payload → io W (option error);
  st_RecordInvocationRuntimeEvent : context → OperationClaim → InvocationRuntimeEvent → io W (option error);
  st_RenewLease : context → OperationClaim → io W (result OperationClaim) }.

(** The approval store together with the approval authoriser, and the same for
    questions: the driver is built with both or with neither. *)
Record ApprovalMediation := MkApprovals {
  am_Record : context → OperationClaim → EffectRecord → InvocationRuntimeTarget → InvocationRuntimeApprovalRequest →
    io W (result InvocationRuntimeApproval);
  am_Get : context → string → string → io W (result InvocationRuntimeApproval);
  am_Begin : context → OperationClaim → EffectRecord → string → string → io W (result InvocationRuntimeApproval);
  am_Complete : context → OperationClaim → EffectRecord → string → io W (option error);
  am_Close : context → OperationClaim → EffectRecord → string → string → io W (option error);
  am_Authorize : context → InvocationRuntimeApproval → string → io W (option error) }.

Record QuestionMediation := MkQuestions {
  qm_Record : context → OperationClaim → EffectRecord → InvocationRuntimeTarget → InvocationRuntimeQuestionRequest →
    io W (result InvocationRuntimeQuestion);
  qm_Get : context → string → string → string → io W (result InvocationRuntimeQuestion);
  qm_Begin : context → OperationClaim → EffectRecord → string →
    io W (asking W (InvocationRuntimeQuestion * string) (result InvocationRuntimeQuestion));
  qm_Complete : context → OperationClaim → EffectRecord → string → io W (option error);
  qm_Close : context → OperationClaim → EffectRecord → string → string → io W (option error);
  qm_Authorize : context → InvocationRuntimeQuestion → string → io W (option error) }.

(** [session] is what [StartRuntime] hands to [adapters.New]; [owned] is an owned
    session.  Preparation and export call back with the check they are given. *)
Record InvocationRuntimeDriver (session owned : Type) := MkRuntimeDriver {
  ird_store : InvocationRuntimeStore;
  ird_Authorize : context → InvocationRuntimeTarget → StartRequest → io W (option error);
  ird_Build : InvocationRuntimeTarget → io W (result StartRequest);
  ird_GetExecutionByOperation : context → string → string → io W (result Execution);
  ird_Observe : context → ExecutionRef → io W (result Observation);
  ird_StartRuntime : context → ExecutionRef → io W (result session);
  ird_Export : context → ExecutionRef → string → io W (result ExportResult);
  ird_New : session + owned → io W (result Adapter);
  ird_CloseSession : session + owned → io W (option error);
  ird_Finalize : context → Finalization → io W (result ArtifactRecord);
  ird_readiness : option (context → io W (option error));
  ird_ctx_Err : context → io W (option error);
  ird_now : io W Z;
  ird_approvals : option ApprovalMediation;
  ird_questions : option QuestionMediation;
  ird_prepare : option (context → OperationClaim → EffectRecord → InvocationRuntimeTarget → ExecutionRef →
    io W (asking W context (option error)));
  ird_completion : option (
    (context → ExecutionRef → io W (result owned))
    * (context → OperationClaim → EffectRecord → ExecutionRef → owned → io W (asking W context (option error)))
    * (context → OperationClaim → EffectRecord → ExecutionRef → io W (asking W context (option error)))) }.
End interfaces.

Arguments qt_QuestionPending {W}.
Arguments qt_AnswerQuestion {W}.
Arguments turn_select {W}.
Arguments turn_receive {W}.
Arguments turn_ResolveApproval {W}.
Arguments turn_Interrupt {W}.
Arguments turn_Close {W}.
Arguments turn_ApprovalPending {W}.
Arguments turn_questions {W}.
Arguments adapter_Start {W}.
Arguments adapter_Close {W}.
Arguments st_CheckInvocationWorkspacePreparation {W}.
Arguments st_PrepareInvocationRuntimeOutputFailure {W}.
Arguments st_GetClaimedInvocationRuntimeTarget {W}.
Arguments st_GetInvocationRuntimeAttempt {W}.
Arguments st_BeginInvocationRuntimeAttempt {W}.
Arguments st_CompleteInvocationRuntimeAttempt {W}.
Arguments st_FailInvocationRuntimeAttempt {W}.
Arguments st_RecordInvocationRuntimeEvent {W}.
Arguments st_RenewLease {W}.
Arguments am_Record {W}.
Arguments am_Get {W}.
Arguments am_Begin {W}.
Arguments am_Complete {W}.
Arguments am_Close {W}.
Arguments am_Authorize {W}.
Arguments qm_Record {W}.
Arguments qm_Get {W}.
Arguments qm_Begin {W}.
Arguments qm_Complete {W}.
Arguments qm_Close {W}.
Arguments qm_Authorize {W}.
Arguments ird_store {W session owned}.
Arguments ird_Authorize {W session owned}.
Arguments ird_Build {W session owned}.
Arguments ird_GetExecutionByOperation {W session owned}.
Arguments ird_Observe {W session owned}.
Arguments ird_StartRuntime {W session owned}.
Arguments ird_Export {W session owned}.
Arguments ird_New {W session owned}.
Arguments ird_CloseSession {W session owned}.
Arguments ird_Finalize {W session owned}.
Arguments ird_readiness {W session owned}.
Arguments ird_ctx_Err {W session owned}.
Arguments ird_now {W session owned}.
Arguments ird_approvals {W session owned}.
Arguments ird_questions {W session owned}.
Arguments ird_prepare {W session owned}.
Arguments ird_completion {W session owned}.

(** ** Matching claim, effect and target *)

Definition invocationRuntimeEffectMatchesClaim (claim : OperationClaim) (effect : EffectRecord) : bool :=
  effectMatchesClaim effect claim && bool_decide (e_Phase effect = "run-invocation" ∧ e_EffectID effect ≠ ""
    ∧ e_Status effect ∈ ["prepared"; "failed"; "unknown"]).

Definition invocationRuntimeTargetMatchesClaim (target : InvocationRuntimeTarget) (claim : OperationClaim) : bool :=
  bool_decide (rtg_IsolationDomainID target = c_IsolationDomainID claim ∧ rtg_OperationID target = c_ID claim
    ∧ rtg_InvocationID target = c_ResourceID claim ∧ rtg_ActorID target = c_ActorID claim
    ∧ rtg_CorrelationID target = c_CorrelationID claim ∧ rtg_ServiceID target ≠ "" ∧ rtg_RevisionID target ≠ ""
    ∧ rtg_RuntimeProfile target ≠ "" ∧ rtg_Input target ≠ JNull
    ∧ rtg_StateMachineVersion target = c_StateMachineVersion claim).

Definition adapterApprovalIDPattern (s : string) : bool :=
  match strip_prefix "approval-" s with Some rest => match_headed (in_range 49 57) is_digit 19 rest | None => false end.
Definition adapterQuestionIDPattern (s : string) : bool :=
  match strip_prefix "question-" s with Some rest => match_headed (in_range 49 57) is_digit 19 rest | None => false end.

Definition sameRuntimeApprovalRequest (l r : InvocationRuntimeApproval) : bool :=
  bool_decide (apr_Contract l = apr_Contract r ∧ apr_ID l = apr_ID r ∧ apr_IsolationDomainID l = apr_IsolationDomainID r
    ∧ apr_OperationID l = apr_OperationID r ∧ apr_InvocationID l = apr_InvocationID r ∧ apr_ServiceID l = apr_ServiceID r
    ∧ apr_RevisionID l = apr_RevisionID r ∧ apr_EffectID l = apr_EffectID r ∧ apr_SourceSequence l = apr_SourceSequence r
    ∧ apr_RequestedAction l = apr_RequestedAction r ∧ apr_CreatedAt l = apr_CreatedAt r ∧ apr_ExpiresAt l = apr_ExpiresAt r).

#[export] Instance QuestionOption_eq_dec : EqDecision QuestionOption.
Proof. solve_decision. Defined.
#[export] Instance QuestionPrompt_eq_dec : EqDecision QuestionPrompt.
Proof. solve_decision. Defined.
#[export] Instance QuestionAnswer_eq_dec : EqDecision QuestionAnswer.
Proof. solve_decision. Defined.

(** [reflect.DeepEqual] on prompts and answers is equality here: both sides were
    decoded from the same column, so nil and empty lists do not meet. *)
Definition sameRuntimeQuestionRequest (l r : InvocationRuntimeQuestion) : bool :=
  bool_decide (qst_Contract l = qst_Contract r ∧ qst_ID l = qst_ID r ∧ qst_IsolationDomainID l = qst_IsolationDomainID r
    ∧ qst_OperationID l = qst_OperationID r ∧ qst_InvocationID l = qst_InvocationID r ∧ qst_ServiceID l = qst_ServiceID r
    ∧ qst_RevisionID l = qst_RevisionID r ∧ qst_EffectID l = qst_EffectID r ∧ qst_SourceSequence l = qst_SourceSequence r
    ∧ qst_CorrelationID l = qst_CorrelationID r ∧ qst_RequestedBy l = qst_RequestedBy r ∧ qst_ExpiresAt l = qst_ExpiresAt r
    ∧ qst_Prompts l = qst_Prompts r).

(** The approval the store answered is the one that was asked for. *)
Definition approval_fits (claim : OperationClaim) (effect : EffectRecord) (target : InvocationRuntimeTarget)
    (sequence : Z) (action : string) (v : InvocationRuntimeApproval) : bool :=
  bool_decide (apr_Contract v = InvocationRuntimeApprovalContract ∧ apr_IsolationDomainID v = rtg_IsolationDomainID target
    ∧ apr_OperationID v = c_ID claim ∧ apr_InvocationID v = rtg_InvocationID target ∧ apr_ServiceID v = rtg_ServiceID target
    ∧ apr_RevisionID v = rtg_RevisionID target ∧ apr_EffectID v = e_EffectID effect ∧ apr_SourceSequence v = sequence
    ∧ apr_RequestedAction v = action ∧ apr_State v = "pending" ∧ apr_Version v = 1%Z)
  && approvalIDPattern (apr_ID v)
  && match apr_ExpiresAt v with
     | None => false
     | Some expires => bool_decide (apr_CreatedAt v < expires ≤ apr_CreatedAt v + fifteen_minutes ∧ expires ≤ c_DeadlineAt claim)%Z
     end.

Definition question_fits (effect : EffectRecord) (target : InvocationRuntimeTarget) (sequence expires : Z)
    (prompts : list QuestionPrompt) (v : InvocationRuntimeQuestion) : bool :=
  bool_decide (qst_Contract v = InvocationRuntimeQuestionContract ∧ qst_IsolationDomainID v = rtg_IsolationDomainID target
    ∧ qst_OperationID v = rtg_OperationID target ∧ qst_InvocationID v = rtg_InvocationID target
    ∧ qst_ServiceID v = rtg_ServiceID target ∧ qst_RevisionID v = rtg_RevisionID target ∧ qst_EffectID v = e_EffectID effect
    ∧ qst_SourceSequence v = sequence ∧ qst_CorrelationID v = rtg_CorrelationID target ∧ qst_RequestedBy v = rtg_ActorID target
    ∧ qst_ExpiresAt v = expires ∧ qst_Prompts v = prompts ∧ qst_State v = "pending" ∧ qst_Version v = 1%Z)
  && questionIDPattern (qst_ID v).

Definition max_int64 : Z := 9223372036854775807.
Definition sequence_valid (sequence : Z) : bool := (0 <? sequence)%Z && (sequence <=? max_int64)%Z.

(** ** The driver *)

Section driver.
Context {W session owned : Type} `{RuntimeLibrary, ImageDecoder} (driver : InvocationRuntimeDriver W session owned).
Implicit Types (c : context) (claim : OperationClaim) (effect : EffectRecord) (target : InvocationRuntimeTarget).

Definition ready c : io W (option error) :=
  on_error (ird_ctx_Err driver c) (λ err, mret (Some err))
    (match ird_readiness driver with
     | None => ird_ctx_Err driver c
     | Some readiness => on_error (readiness c) (λ err, mret (Some err)) (ird_ctx_Err driver c)
     end).

Definition driver_validateInvocationRuntimeRequest (request : StartRequest) : result unit :=
  match validateInvocationRuntimeRequest request with
  | Err err => Err err
  | Ok _ =>
      if bool_decide (sr_ApprovalMode request = ApprovalInteractive) && match ird_approvals driver with None => true | _ => false end
      then Err (ENew "interactive invocation runtime approvals require durable mediation")
      else if bool_decide (sr_QuestionMode request = QuestionInteractive)
              && match ird_questions driver, ird_readiness driver with Some _, Some _ => false | _, _ => true end
      then Err ErrQuestionMode else Ok tt
  end.

(** *** Artifacts *)

Definition artifact_binding claim (record : ArtifactRecord) : ArtifactBinding :=
  MkArtifactBinding record (c_ActorID claim) (c_CorrelationID claim) (c_LeaseOwner claim) (c_FencingToken claim)
    (c_StateMachineVersion claim).

Definition snapshot_record claim effect target (sequence : Z) (namespace name kind mediaType content : string) : ArtifactRecord :=
  MkArtifact InvocationArtifactSchemaV1 (c_IsolationDomainID claim)
    (Identity.Derived "art" (c_IsolationDomainID claim +:+ ":" +:+ rtg_InvocationID target +:+ ":" +:+ namespace +:+ ":" +:+ pretty sequence))
    (rtg_InvocationID target) (c_ID claim) (e_EffectID effect) name kind mediaType (go_len content)
    (Sha256.digest_string content) true "".

Definition finalizeRuntimeArtifact c claim effect target (sequence : Z) (namespace name kind mediaType content : string)
  : io W (result ArtifactRecord) :=
  let fail err := mret (Err err) in
  on_error (ready c) fail (
  on_result (ird_Build driver target) fail (λ request,
  match driver_validateInvocationRuntimeRequest request with
  | Err err => fail err
  | Ok _ =>
      on_error (ird_Authorize driver c target request) fail (
      on_result (st_RenewLease (ird_store driver) c claim) fail (λ claim,
      on_error (ready c) fail (
      let record := snapshot_record claim effect target sequence namespace name kind mediaType content in
      on_result (ird_Finalize driver c (MkFinalization (artifact_binding claim record) content)) fail (λ bound,
      if decide (ar_ID bound ≠ ar_ID record ∨ ar_Digest bound ≠ ar_Digest record ∨ ar_SizeBytes bound ≠ ar_SizeBytes record)
      then fail ErrInvocationArtifactConflict
      else on_error (ready c) fail (mret (Ok record))))))
  end)).

(** *** Events *)

Definition recordRuntimeEvent c claim (event : Event) : io W (option error) :=
  if has_prefix (ev_Type event) "interaction.question." then mret (Some ErrQuestionMode)
  else if has_prefix (ev_Type event) "interaction.approval." then mret (Some ErrInvocationApprovalUnavailable)
  else st_RecordInvocationRuntimeEvent (ird_store driver) c claim
         (MkRuntimeEvent (ev_Sequence event) (ev_Type event) (ev_Payload event)).

(** Finalise a snapshot and record the reference to it. *)
Definition record_reference c claim effect target (sequence : Z) (namespace name kind mediaType content type : string)
    (reference : ArtifactRecord → payload) : io W (option error) :=
  on_result (finalizeRuntimeArtifact c claim effect target sequence namespace name kind mediaType content) (λ err, mret (Some err)) (λ record,
  st_RecordInvocationRuntimeEvent (ird_store driver) c claim (MkRuntimeEvent sequence type (reference record))).

Definition recordCompletedRuntimeCommand c claim effect target (event : Event) : io W (option error) :=
  match ParseCompletedCommand (ev_Payload event) with
  | Ok command =>
      if negb (sequence_valid (ev_Sequence event)) then mret (Some ErrProtocol)
      else record_reference c claim effect target (ev_Sequence event) "runtime-command" "Completed command output" "log"
             "text/plain; charset=utf-8" (cc_Text command) CommandArtifactEvent (λ record,
             command_artifact_payload (MkCommandArtifact (ar_ID record) (ar_Digest record) (ar_SizeBytes record) (cc_Status command)
               (cc_ExitCode command) (CommandPreview (cc_Text command))))
  | Err _ => mret (Some ErrProtocol)
  end.

Definition recordCompletedRuntimeImage c claim effect target (event : Event) : io W (option error) :=
  if negb (sequence_valid (ev_Sequence event)) then mret (Some ErrProtocol)
  else match ParseCompletedImage (ev_Payload event) with
  | Err err => mret (Some err)
  | Ok content =>
      record_reference c claim effect target (ev_Sequence event) "runtime-image" "Generated image" "file" (im_MediaType content)
        (im_Bytes content) ImageArtifactEvent (λ record,
        image_artifact_payload (MkImageArtifact (ar_ID record) (ar_Digest record) (ar_SizeBytes record) (im_MediaType content)
          (im_Width content) (im_Height content) ImagePreview))
  end.

Definition recordCompletedRuntimePatch c claim effect target (event : Event) : io W (option error) :=
  match ParseCompletedPatch (ev_Payload event) with
  | Ok patch =>
      if negb (sequence_valid (ev_Sequence event)) || bool_decide (cp_Changes patch = []) then mret (Some ErrProtocol)
      else
        let count := Z.of_nat (length (cp_Changes patch)) in
        record_reference c claim effect target (ev_Sequence event) "runtime-patch" "Completed file patch" "structured-output"
          "application/json" (marshal (patch_json patch)) PatchArtifactEvent (λ record,
          patch_artifact_payload (MkPatchArtifact (ar_ID record) (ar_Digest record) (ar_SizeBytes record) (cp_Status patch) count
            (PatchPreview count)))
  | Err _ => mret (Some ErrProtocol)
  end.

Definition recordRuntimePlan c claim effect target (event : Event) : io W (option error) :=
  match ParsePlanSnapshot (ev_Payload event) with
  | Ok plan =>
      if negb (sequence_valid (ev_Sequence event)) then mret (Some ErrProtocol)
      else
        record_reference c claim effect target (ev_Sequence event) "runtime-plan" "Plan update" "structured-output"
          "application/json" (marshal (plan_json plan)) PlanArtifactEvent (λ record,
          plan_artifact_payload (MkPlanArtifact (ar_ID record) (ar_Digest record) (ar_SizeBytes record)
            (Z.of_nat (length (pl_Steps plan))) (Counts plan).1 (Counts plan).2 PlanPreview))
  | Err _ => mret (Some ErrProtocol)
  end.

Definition recordCompletedRuntimeTool c claim effect target (event : Event) : io W (option error) :=
  match ParseCompletedToolOutput (ev_Payload event) with
  | Ok output =>
      if negb (sequence_valid (ev_Sequence event)) then mret (Some ErrProtocol)
      else match tool_text output with
      | None => mret (Some (ENew "json: unsupported value"))
      | Some content =>
          record_reference c claim effect target (ev_Sequence event) "runtime-tool" "Completed tool output" "structured-output"
            "application/json" content ToolArtifactEvent (λ record,
            tool_artifact_payload (MkToolArtifact (ar_ID record) (ar_Digest record) (ar_SizeBytes record) (tv_Status output)
              (Z.of_nat (length (tv_Content output))) ToolOutputPreview))
      end
  | Err _ => mret (Some ErrProtocol)
  end.

Definition recordRuntimeMessage c claim effect target (event : Event) : io W (result (option MessageArtifact)) :=
  let inline := e ← recordRuntimeEvent c claim event; mret (match e with Some err => Err err | None => Ok None end) in
  match ParseCompletedMessage (ev_Payload event) with
  | Ok message =>
      if negb (sequence_valid (ev_Sequence event)) then mret (Err ErrProtocol)
      else match any_text (AMap (ev_Payload event)) with
      | None => mret (Err (ENew "json: unsupported value"))
      | Some encoded =>
          if (go_len (cm_Text message) <=? Z.of_nat MaximumInlineMessageTextBytes)%Z && (go_len encoded <=? Z.shiftl 128 10)%Z
             && negb (messageContainsNUL (cm_Text message) (negb (bool_decide (rtg_OutputSchema target = None))))
          then inline
          else
            on_result (finalizeRuntimeArtifact c claim effect target (ev_Sequence event) "runtime-message" "Completed runtime message"
              "file" "text/plain; charset=utf-8" (cm_Text message)) (λ err, mret (Err err)) (λ record,
            let reference := MkMessageArtifact (ar_ID record) (ar_Digest record) (ar_SizeBytes record) (cm_Phase message)
                               (MessagePreview (cm_Text message)) in
            on_error (st_RecordInvocationRuntimeEvent (ird_store driver) c claim
                (MkRuntimeEvent (ev_Sequence event) MessageArtifactEvent (message_artifact_payload reference)))
              (λ err, mret (Err err)) (mret (Ok (Some reference))))
      end
  | Err _ => mret (Err ErrProtocol)
  end.

Definition artifact_event_types : list string :=
  [MessageArtifactEvent; CommandArtifactEvent; PatchArtifactEvent; ImageArtifactEvent; ToolArtifactEvent; PlanArtifactEvent].

Definition recordRuntimeOutput c claim effect target (event : Event) : io W (result (option MessageArtifact)) :=
  let no_message (m : io W (option error)) : io W (result (option MessageArtifact)) :=
    e ← m; mret (match e with Some err => Err err | None => Ok None end) in
  if decide (ev_Type event ∈ artifact_event_types) then mret (Err ErrProtocol)
  else if decide (ev_Type event = PlanUpdatedEvent) then no_message (recordRuntimePlan c claim effect target event)
  else if decide (ev_Type event = ToolCompletedEvent) then no_message (recordCompletedRuntimeTool c claim effect target event)
  else if decide (ev_Type event = ImageCompletedEvent) then no_message (recordCompletedRuntimeImage c claim effect target event)
  else if decide (ev_Type event = PatchCompletedEvent) then no_message (recordCompletedRuntimePatch c claim effect target event)
  else if decide (ev_Type event = CommandCompletedEvent) then no_message (recordCompletedRuntimeCommand c claim effect target event)
  else if decide (ev_Type event = "output.text.delta") then
    match get_string (ev_Payload event) "text" with
    | Some text =>
        if bool_decide (length (ev_Payload event) ≠ 1) || negb (valid_utf8 text)
           || (Z.of_nat MaximumInlineMessageTextBytes <? go_len text)%Z then mret (Err ErrProtocol)
        else no_message (recordRuntimeEvent c claim
               (MkEvent (ev_Sequence event) (ev_Type event) [("text", AStr (MessageDeltaPreview text))]))
    | None => mret (Err ErrProtocol)
    end
  else if decide (ev_Type event ≠ MessageCompletedEvent) then no_message (recordRuntimeEvent c claim event)
  else recordRuntimeMessage c claim effect target event.
End driver.
