(* ===== verification/RuntimeReference.v ===== *)
(** * References to retained outputs

    The readers of [internal/runtime] for the references that replace an output in
    the journal, [internal/domain/usage.go], and the checks the journal makes before
    it opens a transaction ([RecordInvocationRuntimeEvent]). *)
From stdpp Require Import pretty.
From S2P Require Import Prelude.
From S2P Require Import GoStrings.
From S2P Require Import Sha256.
From S2P Require Import GoJson.
From S2P Require Import GoDecode.
From S2P Require Import GoPath.
From S2P Require Import Questions.
From S2P Require Import Database.
From S2P Require Import Domain.
From S2P Require Import OperationStore.
From S2P Require Import RuntimeInteraction.
From S2P Require Import RuntimeOutput.
From S2P Require Import RuntimeRequest.
From S2P Require Import RuntimeDriver.

Definition runtimeArtifactID : string → bool := match_prefixed "art_" is_id_char 20 32.
Definition runtimeArtifactDigest : string → bool := match_prefixed "sha256:" is_hex_lower 64 64.

(** A number, encoded and decoded again into an [int] or [int64] field: a missing
    value or null leaves zero. *)
Definition int64_of (v : any) : option Z :=
  let in_range z := if decide (-9223372036854775808 ≤ z ≤ 9223372036854775807)%Z then Some z else None in
  match v with
  | ANil | ANilList => Some 0%Z
  | AInt z | AInt32 z => in_range z
  | AFloat text | ANumber text => match parse_int (bytes_of text) with Some (JInt z, []) => in_range z | _ => None end
  | _ => None
  end.
Definition int_field (v : option any) : option Z := match v with None => Some 0%Z | Some v => int64_of v end.

(** The value the decoder finds for a field: keys are matched up to case. *)
Definition get_folded (p : payload) (name : string) : option any :=
  match list_find (λ kv : string * any, fold_name kv.1 = fold_name name) p with Some (_, (_, v)) => Some v | None => None end.

(** Present and not null. *)
Definition present (p : payload) (key : string) : bool := match get p key with Some ANil | None => false | Some _ => true end.

Definition size_within (size maximum : Z) : bool := (0 <? size)%Z && (size <=? maximum)%Z.

Definition ParseMessageArtifact (p : payload) : result MessageArtifact :=
  match get_string p "artifactId", get_string p "digest", get_string p "phase", get_string p "preview", int_field (get p "sizeBytes") with
  | Some id, Some digest, Some phase, Some preview, Some size =>
      if valid_utf8 id && valid_utf8 digest && valid_utf8 phase && valid_utf8 preview && bool_decide (length p = 5)
         && runtimeArtifactID id && runtimeArtifactDigest digest && size_within size MaximumMessageTextBytes
         && (go_len preview <=? Z.of_nat MaximumMessagePreviewBytes)%Z && negb (contains_rune_nul preview)
         && present p "sizeBytes" && valid_phase phase
      then Ok (MkMessageArtifact id digest size phase preview) else Err ErrProtocol
  | _, _, _, _, _ => Err ErrProtocol
  end.

Definition ParseCommandArtifact (p : payload) : result CommandArtifact :=
  match get_string p "artifactId", get_string p "digest", get_string p "status", get_string p "preview",
        int_field (get p "sizeBytes"), get p "exitCode" ≫= int32_of with
  | Some id, Some digest, Some status, Some preview, Some size, Some code =>
      if valid_utf8 id && valid_utf8 digest && valid_utf8 status && valid_utf8 preview && bool_decide (length p = 6)
         && runtimeArtifactID id && runtimeArtifactDigest digest && (0 <=? size)%Z && (size <=? MaximumCommandOutputBytes)%Z
         && (go_len preview <=? Z.of_nat MaximumMessagePreviewBytes)%Z && validOutputStatus status
         && negb (contains_rune_nul preview) && present p "sizeBytes"
      then Ok (MkCommandArtifact id digest size status code preview) else Err ErrProtocol
  | _, _, _, _, _, _ => Err ErrProtocol
  end.

Definition ParsePatchArtifact (p : payload) : result PatchArtifact :=
  match get_string p "artifactId", get_string p "digest", get_string p "status", get_string p "preview",
        int_field (get_folded p "sizeBytes"), int_field (get_folded p "changeCount") with
  | Some id, Some digest, Some status, Some preview, Some size, Some count =>
      if bool_decide (length p = 6) && runtimeArtifactID id && runtimeArtifactDigest digest && size_within size MaximumPatchBytes
         && validOutputStatus status && (1 <=? count)%Z && (count <=? MaximumPatchChanges)%Z && bool_decide (preview = PatchPreview count)
      then Ok (MkPatchArtifact id digest size status count preview) else Err ErrProtocol
  | _, _, _, _, _, _ => Err ErrProtocol
  end.

Definition ParsePlanArtifact (p : payload) : result PlanArtifact :=
  match get_string p "artifactId", get_string p "digest", get_string p "preview", int_field (get p "sizeBytes"),
        int_field (get p "stepCount"), int_field (get p "completedCount"), int_field (get p "inProgressCount") with
  | Some id, Some digest, Some preview, Some size, Some steps, Some completed, Some inProgress =>
      if bool_decide (length p = 7) && present p "sizeBytes" && present p "stepCount" && present p "completedCount"
         && present p "inProgressCount" && runtimeArtifactID id && runtimeArtifactDigest digest && size_within size MaximumPlanBytes
         && (0 <=? steps)%Z && (steps <=? MaximumPlanSteps)%Z && (0 <=? completed)%Z && (completed <=? steps)%Z
         && (0 <=? inProgress)%Z && (inProgress <=? steps - completed)%Z && bool_decide (preview = PlanPreview)
      then Ok (MkPlanArtifact id digest size steps completed inProgress preview) else Err ErrProtocol
  | _, _, _, _, _, _, _ => Err ErrProtocol
  end.

Definition ParseToolArtifact (p : payload) : result ToolArtifact :=
  match get_string p "artifactId", get_string p "digest", get_string p "status", get_string p "preview",
        int_field (get p "sizeBytes"), int_field (get p "contentCount") with
  | Some id, Some digest, Some status, Some preview, Some size, Some count =>
      if bool_decide (length p = 6) && present p "sizeBytes" && present p "contentCount" && runtimeArtifactID id
         && runtimeArtifactDigest digest && size_within size MaximumToolOutputBytes && bool_decide (status ∈ ["completed"; "failed"])
         && (0 <=? count)%Z && (count <=? MaximumToolContentItems)%Z && bool_decide (preview = ToolOutputPreview)
      then Ok (MkToolArtifact id digest size status count preview) else Err ErrProtocol
  | _, _, _, _, _, _ => Err ErrProtocol
  end.

Definition ParseImageArtifact (p : payload) : result ImageArtifact :=
  match get_string p "artifactId", get_string p "digest", get_string p "mediaType", get_string p "preview",
        int_field (get_folded p "sizeBytes"), int_field (get_folded p "width"), int_field (get_folded p "height") with
  | Some id, Some digest, Some mediaType, Some preview, Some size, Some width, Some height =>
      if bool_decide (length p = 7) && runtimeArtifactID id && runtimeArtifactDigest digest && size_within size MaximumImageBytes
         && validImageMediaType mediaType && validImageDimensions width height && bool_decide (preview = ImagePreview)
      then Ok (MkImageArtifact id digest size mediaType width height preview) else Err ErrProtocol
  | _, _, _, _, _, _, _ => Err ErrProtocol
  end.

(** ** Usage *)

Definition ErrUsageInvalid := ESentinel "domain.ErrUsageInvalid".
Definition MaximumUsageTokens : Z := Z.shiftl 1 53 - 1.

(** A count: a number that is there, not null and in range. *)
Definition usage_count (p : payload) (name : string) : option Z :=
  match get p name with
  | Some ANil | Some ANilList | None => None
  | Some v => z ← int64_of v; if (0 <=? z)%Z && (z <=? MaximumUsageTokens)%Z then Some z else None
  end.
Definition ParseUsageSnapshot (p : payload) : result Usage :=
  if decide (length p ≠ 3) then Err ErrUsageInvalid
  else match usage_count p "inputTokens", usage_count p "outputTokens", usage_count p "totalTokens" with
  | Some input, Some output, Some total => Ok (UsageCounts input output total)
  | _, _, _ => Err ErrUsageInvalid
  end.

(** ** The journal's checks *)

Definition maximumInvocationRuntimeEventPayloadBytes : Z := Z.shiftl 256 10.

(** [^[a-z][a-z0-9]*(?:\.[a-z0-9]+)+$]: segments between dots, the first of them headed
    by a letter, none of them empty, at least two. *)
Fixpoint segments (current : list ascii) (bs : list ascii) : list (list ascii) :=
  match bs with
  | [] => [rev current]
  | c :: rest => if (byte_value c =? 46)%N then rev current :: segments [] rest else segments (c :: current) rest
  end.
Definition runtimeEventTypePattern (s : string) : bool :=
  match segments [] (bytes_of s) with
  | (head :: first) :: second :: rest =>
      is_lower head && forallb is_id_char first
      && forallb (λ g, negb (bool_decide (g = [])) && forallb is_id_char g) (second :: rest)
  | _ => false
  end.

(** The outputs of an event, and the references to them. *)
Definition reference_readable (event : InvocationRuntimeEvent) : bool :=
  let p := re_Payload event in
  if decide (re_Type event = ToolArtifactEvent) then is_ok (ParseToolArtifact p)
  else if decide (re_Type event = PlanArtifactEvent) then is_ok (ParsePlanArtifact p)
  else if decide (re_Type event = ImageArtifactEvent) then is_ok (ParseImageArtifact p)
  else if decide (re_Type event = PatchArtifactEvent) then is_ok (ParsePatchArtifact p)
  else if decide (re_Type event = CommandArtifactEvent) then is_ok (ParseCommandArtifact p)
  else if decide (re_Type event = MessageCompletedEvent) then
    match ParseCompletedMessage p with
    | Ok message => (go_len (cm_Text message) <=? Z.of_nat MaximumInlineMessageTextBytes)%Z && negb (contains_rune_nul (cm_Text message))
    | Err _ => false
    end
  else if decide (re_Type event = MessageArtifactEvent) then is_ok (ParseMessageArtifact p)
  else true.

(** What [RecordInvocationRuntimeEvent] requires of an event before it looks at the
    store; a payload here is never nil. *)
Definition runtime_event_valid (event : InvocationRuntimeEvent) : bool :=
  negb (bool_decide (re_SourceSequence event = 0%Z)) && negb (bool_decide (re_Type event = "")) && (go_len (re_Type event) <=? 128)%Z
  && runtimeEventTypePattern (re_Type event)
  && match any_text (AMap (re_Payload event)) with
     | Some encoded => (go_len encoded <=? maximumInvocationRuntimeEventPayloadBytes)%Z
     | None => false
     end
  && (negb (bool_decide (re_Type event = "usage.recorded")) || is_ok (ParseUsageSnapshot (re_Payload event)))
  && negb (bool_decide (re_Type event ∈ [CommandCompletedEvent; PatchCompletedEvent; ImageCompletedEvent; ToolCompletedEvent; PlanUpdatedEvent]))
  && reference_readable event.
