(* ===== verification/RuntimeStore.v ===== *)
(** * The tables of a running invocation

    Beside the control-plane database, the calls of [internal/persistence] that a
    runtime makes read and write the artifact catalog (migrations 00001 and 00009),
    the execution plans (00003, 00068), the execution instances (00002) and the
    workspace preparations (00070).  [ReadExecutionPlan] of
    [internal/execution/postgres/plan_store.go] is here because those calls read plans
    through it. *)
From S2P Require Import Prelude.
From S2P Require Import GoStrings.
From S2P Require Import Sha256.
From S2P Require Import GoJson.
From S2P Require Import GoDecode.
From S2P Require Import RuntimeTables.
From S2P Require Import Database.
From S2P Require Import GatewayStore.
From S2P Require Import ExecutionPlan.
From S2P Require Import ExecutionTables.
From S2P Require Import RuntimeDriver.

(** ** Rows *)

(** [artifacts]: the public description of an artifact. *)
Record artifact_row := ArtifactRow {
  art_invocation_id : string; art_name : string; art_kind : string; art_media_type : string; art_size_bytes : Z;
  art_digest : string; art_state : string; art_sensitive : bool; art_created_at : Z; art_created_by : string }.

(** [invocation_artifact_objects]: the columns of the record, and who bound it. *)
Record object_row := ObjectRow {
  ob_record : ArtifactRecord; ob_lease_owner : string; ob_fencing_token : Z; ob_bound_by : string;
  ob_correlation_id : string; ob_created_at : Z }.

(** [service_revision_execution_plans]; arrays are never [NULL]. *)
Record plan_row := PlanRow {
  pw_schema_version : string; pw_runtime_profile : string; pw_environment_revision_id : string; pw_image_reference : string;
  pw_environment_manifest_digest : string; pw_enforcement_bundle_id : string; pw_enforcement_bundle_digest : string;
  pw_runtime_matrix_id : string; pw_runtime_matrix_digest : string; pw_provider_profiles : list string;
  pw_required_capabilities : list string; pw_plan_digest : string; pw_bound_by : string; pw_correlation_id : string;
  pw_created_at : Z; pw_workspace_source : option SourceRecord }.

(** [invocation_workspace_preparations] and [invocation_workspace_completions], by
    [(isolation_domain_id, operation_id, fencing_token)]. *)
Record preparation_row := PreparationRow {
  wp_effect_id : string; wp_lease_owner : string; wp_execution_id : string; wp_plan_digest : string;
  wp_source_record : SourceRecord; wp_grant_generation : Z; wp_actor_id : string; wp_correlation_id : string }.
Abbreviation claim_version := (string * string * Z)%type.

Record runtime_store := RuntimeStore {
  rs_db : db;
  rs_artifacts : gmap key artifact_row;
  rs_objects : gmap key object_row;
  rs_plans : gmap key plan_row;
  rs_instances : gmap key instance_row;
  rs_preparations : gmap claim_version preparation_row;
  rs_completions : gmap claim_version string }.

Definition set_db (f : db → db) (s : runtime_store) : runtime_store :=
  RuntimeStore (f (rs_db s)) (rs_artifacts s) (rs_objects s) (rs_plans s) (rs_instances s) (rs_preparations s) (rs_completions s).
Definition set_artifacts (f : gmap key artifact_row → gmap key artifact_row) (s : runtime_store) : runtime_store :=
  RuntimeStore (rs_db s) (f (rs_artifacts s)) (rs_objects s) (rs_plans s) (rs_instances s) (rs_preparations s) (rs_completions s).
Definition set_objects (f : gmap key object_row → gmap key object_row) (s : runtime_store) : runtime_store :=
  RuntimeStore (rs_db s) (rs_artifacts s) (f (rs_objects s)) (rs_plans s) (rs_instances s) (rs_preparations s) (rs_completions s).

(** The table [artifacts] as the control-plane database keeps it. *)
Definition publish_artifact (k : key) (invocationID : string) (d : db) : db :=
  DB (db_workspaces d) (db_services d) (db_revisions d) (db_aliases d)
     (db_invocations d) (db_publication_ops d) (db_invocation_ops d) (db_events d) (<[k := invocationID]> (db_artifacts d))
     (db_outbox d) (db_audit d) (db_effects d) (db_inbox d) (db_idempotency d) (db_runtime d).

Definition attempts_of (s : runtime_store) : gmap key InvocationRuntimeAttempt := rt_attempts (db_runtime (rs_db s)).
Definition put_attempt (k : key) (attempt : InvocationRuntimeAttempt) : runtime_store → runtime_store :=
  set_db (set_runtime (λ t, RuntimeTables (<[k := attempt]> (rt_attempts t)) (rt_approvals t) (rt_questions t))).

(** ** Transactions on these tables *)

Definition stx (A : Type) : Type := runtime_store → result (runtime_store * A).
#[global] Instance stx_ret : MRet stx := λ A a s, Ok (s, a).
#[global] Instance stx_bind : MBind stx := λ A B k m s,
  match m s with Ok (s', a) => k a s' | Err e => Err e end.

Definition refuse {A} (e : error) : stx A := λ _, Err e.
Definition ask {A} (q : runtime_store → result A) : stx A := λ s, match q s with Ok a => Ok (s, a) | Err e => Err e end.
Definition look {A} (f : runtime_store → A) : stx A := λ s, Ok (s, f s).
Definition change (f : runtime_store → runtime_store) : stx unit := λ s, Ok (f s, tt).
Definition refuse_if (b : bool) (e : error) : stx unit := if b then refuse e else mret tt.
Definition refuse_unless (b : bool) (e : error) : stx unit := if b then mret tt else refuse e.
(** [if err != nil { return ..., e }] *)
Definition or_else {A} (e : error) (m : stx A) : stx A := λ s, match m s with Err _ => Err e | r => r end.

(** A [jsonb] column: what the server keeps of an encoded value.  It refuses the escape
    of NUL.  Numbers are integers here, as in the other tables. *)
Fixpoint json_nul_free (v : json) : bool :=
  match v with
  | JStr s => negb (contains_byte (byte_of_N 0) s)
  | JArr items => (fix go items := match items with [] => true | v :: rest => json_nul_free v && go rest end) items
  | JObj fields =>
      (fix go (fields : list (string * json)) :=
         match fields with [] => true | (k, v) :: rest => negb (contains_byte (byte_of_N 0) k) && json_nul_free v && go rest end) fields
  | _ => true
  end.
Definition jsonb (encoded : string) : option json := v ← unmarshal encoded; if json_nul_free v then Some v else None.

(** [value->>key]: [NULL] when the key is absent or its value null. *)
Definition json_field (v : json) (key : string) : option json := match v with JObj fields => field_lookup fields key | _ => None end.
Definition text_field (v : json) (key : string) : option string :=
  match json_field v key with
  | None | Some JNull => None
  | Some (JStr s) => Some s
  | Some v => Some (marshal v)
  end.

(** ** Execution plans *)

Definition stored_plan (k : key) (row : plan_row) : ExecutionPlan :=
  MkPlan (pw_schema_version row) k.1 k.2 (pw_runtime_profile row) (pw_environment_revision_id row) (pw_image_reference row)
    (pw_environment_manifest_digest row) (pw_enforcement_bundle_id row) (pw_enforcement_bundle_digest row)
    (pw_runtime_matrix_id row) (pw_runtime_matrix_digest row) (Some (pw_provider_profiles row))
    (Some (pw_required_capabilities row)) (pw_workspace_source row).

Definition ReadExecutionPlan (isolationDomainID revisionID : string) (s : runtime_store) : result ExecutionPlan :=
  match rs_plans s !! (isolationDomainID, revisionID) with
  | None => Err ErrExecutionPlanMissing
  | Some row =>
      match NormalizeExecutionPlan (stored_plan (isolationDomainID, revisionID) row) with
      | Err _ => failed "validate persisted execution plan"
      | Ok normalized =>
          match DigestExecutionPlan normalized with
          | Ok digest => if decide (digest = pw_plan_digest row) then Ok normalized else failed "verify execution plan digest"
          | Err _ => failed "verify execution plan digest"
          end
      end
  end.

(** ** Reading off what a committed transaction did *)

Section committed.
Implicit Types (s : runtime_store).

Lemma stx_bind_Ok {A B} (m : stx A) (k : A → stx B) s s' b :
  (m ≫= k) s = Ok (s', b) ↔ ∃ s1 a, m s = Ok (s1, a) ∧ k a s1 = Ok (s', b).
Proof.
  unfold mbind, stx_bind. split.
  - destruct (m s) as [[s1 a]|e]; [|done]. intros H. by exists s1, a.
  - intros (s1 & a & -> & H). exact H.
Qed.
Lemma stx_ret_Ok {A} (a : A) s s' b : (mret a : stx A) s = Ok (s', b) ↔ s' = s ∧ b = a.
Proof. unfold mret, stx_ret. naive_solver. Qed.
Lemma ask_Ok {A} (q : runtime_store → result A) s s' a : ask q s = Ok (s', a) ↔ s' = s ∧ q s = Ok a.
Proof. unfold ask. destruct (q s); naive_solver. Qed.
Lemma look_Ok {A} (f : runtime_store → A) s s' a : look f s = Ok (s', a) ↔ s' = s ∧ a = f s.
Proof. unfold look. naive_solver. Qed.
Lemma change_Ok f s s' u : change f s = Ok (s', u) ↔ s' = f s.
Proof. destruct u. unfold change. naive_solver. Qed.
Lemma refuse_if_Ok b e s s' u : refuse_if b e s = Ok (s', u) ↔ s' = s ∧ b = false.
Proof. destruct u. unfold refuse_if. destruct b; unfold mret, stx_ret; simpl; [split; [done|naive_solver]|naive_solver]. Qed.
Lemma refuse_unless_Ok b e s s' u : refuse_unless b e s = Ok (s', u) ↔ s' = s ∧ b = true.
Proof. destruct u. unfold refuse_unless. destruct b; unfold mret, stx_ret; simpl; [naive_solver|split; [done|naive_solver]]. Qed.
End committed.

(** Decomposes [m s = Ok (s', a)] along the statements of [m]. *)
Ltac stx_inv H :=
  lazymatch type of H with
  | (_ ≫= _) _ = Ok _ => let s := fresh "s" in let a := fresh "a" in let H1 := fresh "Hm" in
      apply stx_bind_Ok in H as (s & a & H1 & H); cbv beta in H; stx_inv H1; stx_inv H
  | mret _ _ = Ok _ => apply stx_ret_Ok in H as [? ?]; subst
  | ask _ _ = Ok _ => apply ask_Ok in H as [? H]; subst
  | look _ _ = Ok _ => apply look_Ok in H as [? ?]; subst
  | change _ _ = Ok _ => apply change_Ok in H as ->
  | refuse_if _ _ _ = Ok _ => apply refuse_if_Ok in H as [? H]; subst
  | refuse_unless _ _ _ = Ok _ => apply refuse_unless_Ok in H as [? H]; subst
  | refuse _ _ = Ok _ => discriminate H
  | (if ?b then _ else _) _ = Ok _ => let E := fresh "E" in destruct b eqn:E; stx_inv H
  | match ?x with Some _ => _ | None => _ end _ = Ok _ => let E := fresh "E" in destruct x eqn:E; stx_inv H
  | match ?x with Ok _ => _ | Err _ => _ end _ = Ok _ => let E := fresh "E" in destruct x eqn:E; stx_inv H
  | (let '(_, _) := ?x in _) _ = Ok _ => let E := fresh "E" in destruct x eqn:E; stx_inv H
  | _ => idtac
  end.
