(* ===== verification/ArtifactCatalog.v ===== *)
(** * The artifact catalog

    [internal/artifact/finalizer.go] and [reader.go], and the durable catalog of
    [internal/persistence/artifact_catalog.go]: an output is stored as an immutable
    object under a key that names its digest, and then bound to the invocation's
    effect in the database, by the worker that holds the claim. *)
From S2P Require Import Prelude.
From S2P Require Import GoStrings.
From S2P Require Import Sha256.
From S2P Require Import GoJson.
From S2P Require Import RuntimeTables.
From S2P Require Import Database.
From S2P Require Import OperationStore.
From S2P Require Import RuntimeInteraction.
From S2P Require Import RuntimeDriver.
From S2P Require Import RuntimeStore.

(** ** Records *)

Module Artifact.
Definition InvocationArtifactStateMachine : Z := 2.
Definition invocationArtifactKeyPrefix := "invocation-artifacts/v1".

Definition ErrInvocationArtifactMissing := ESentinel "artifact.ErrInvocationArtifactMissing".
Definition ErrInvocationArtifactUnavailable := ESentinel "artifact.ErrInvocationArtifactUnavailable".
Definition ErrInvocationArtifactInvalid := ESentinel "artifact.ErrInvocationArtifactInvalid".
Definition ErrInvocationArtifactObjectConflict := ESentinel "artifact.ErrInvocationArtifactObjectConflict".

Definition isolationDomainPattern : string → bool := match_prefixed "iso_" is_id_char 20 32.
Definition invocationPattern : string → bool := match_prefixed "inv_" is_id_char 20 32.
Definition operationPattern : string → bool := match_prefixed "op_" is_id_char 20 32.
Definition effectPattern : string → bool := match_prefixed "eff_" is_id_char 20 32.
Definition artifactPattern : string → bool := match_prefixed "art_" is_id_char 20 32.
Definition digestPattern : string → bool := match_prefixed "sha256:" is_hex_lower 64 64.

Definition validKind (kind : string) : bool :=
  bool_decide (kind ∈ ["file"; "structured-output"; "event-payload"; "log"; "other"]).

Definition validPortableValue (value : string) (limit : Z) : bool :=
  negb (bool_decide (value = "")) && (go_len value <=? limit)%Z && valid_utf8 value && bool_decide (trim_space value = value)
  && forallb (λ r, negb (bool_decide (rune_value r ∈ [0; 10; 13]%N))) (runes value).

Definition ObjectKey (record : ArtifactRecord) : string :=
  join "/" [invocationArtifactKeyPrefix; ar_IsolationDomainID record; ar_InvocationID record; ar_ID record;
            trim_prefix (ar_Digest record) "sha256:"].

Definition with_key (record : ArtifactRecord) (key : string) : ArtifactRecord :=
  MkArtifact (ar_SchemaVersion record) (ar_IsolationDomainID record) (ar_ID record) (ar_InvocationID record)
    (ar_OperationID record) (ar_EffectID record) (ar_Name record) (ar_Kind record) (ar_MediaType record)
    (ar_SizeBytes record) (ar_Digest record) (ar_Sensitive record) key.

Definition record_valid (record : ArtifactRecord) : bool :=
  bool_decide (ar_SchemaVersion record = InvocationArtifactSchemaV1)
  && isolationDomainPattern (ar_IsolationDomainID record) && artifactPattern (ar_ID record)
  && invocationPattern (ar_InvocationID record) && operationPattern (ar_OperationID record) && effectPattern (ar_EffectID record)
  && validPortableValue (ar_Name record) 255 && validPortableValue (ar_MediaType record) 255 && validKind (ar_Kind record)
  && (0 <=? ar_SizeBytes record)%Z && digestPattern (ar_Digest record).

Definition NormalizeRecord (record : ArtifactRecord) : result ArtifactRecord :=
  if negb (record_valid record) then Err ErrInvocationArtifactInvalid
  else
    let expectedKey := ObjectKey record in
    if decide (ar_ObjectKey record ≠ "" ∧ ar_ObjectKey record ≠ expectedKey) then Err ErrInvocationArtifactInvalid
    else Ok (with_key record expectedKey).

Definition NormalizeBinding (binding : ArtifactBinding) : result ArtifactBinding :=
  record ← NormalizeRecord (ab_Record binding);
  if validPortableValue (ab_ActorID binding) 256 && validPortableValue (ab_CorrelationID binding) 256
     && validPortableValue (ab_LeaseOwner binding) 256 && (0 <? ab_FencingToken binding)%Z
     && bool_decide (ab_StateMachineVersion binding = InvocationArtifactStateMachine)
  then Ok (MkArtifactBinding record (ab_ActorID binding) (ab_CorrelationID binding) (ab_LeaseOwner binding)
             (ab_FencingToken binding) (ab_StateMachineVersion binding))
  else Err ErrInvocationArtifactInvalid.

#[global] Instance record_eq_dec : EqDecision ArtifactRecord.
Proof. solve_decision. Defined.
Definition EqualRecords (left right : ArtifactRecord) : bool := bool_decide (left = right).

Definition verifyContent (content digest : string) : bool :=
  digestPattern digest && bool_decide (Sha256.digest_string content = digest).
End Artifact.

(** ** The catalog *)

(** The join with [artifacts] that makes a binding visible. *)
Definition public_matches (record : ArtifactRecord) (s : runtime_store) : bool :=
  match rs_artifacts s !! (ar_IsolationDomainID record, ar_ID record) with
  | None => false
  | Some public =>
      bool_decide (art_invocation_id public = ar_InvocationID record ∧ art_name public = ar_Name record
        ∧ art_kind public = ar_Kind record ∧ art_media_type public = ar_MediaType record
        ∧ art_size_bytes public = ar_SizeBytes record ∧ art_digest public = ar_Digest record
        ∧ art_state public = "available" ∧ art_sensitive public = ar_Sensitive record)
  end.

Definition findInvocationArtifactRecord (isolationDomainID artifactID : string) (s : runtime_store)
  : result (option ArtifactRecord) :=
  match rs_objects s !! (isolationDomainID, artifactID) with
  | None => Ok None
  | Some row =>
      match Artifact.NormalizeRecord (ob_record row) with
      | Ok normalized => if public_matches (ob_record row) s then Ok (Some normalized) else Err ErrInvocationArtifactConflict
      | Err _ => Err ErrInvocationArtifactConflict
      end
  end.

Definition GetInvocationArtifactRecord (isolationDomainID artifactID : string) (s : runtime_store) : result ArtifactRecord :=
  found ← findInvocationArtifactRecord isolationDomainID artifactID s;
  match found with None => Err Artifact.ErrInvocationArtifactMissing | Some record => Ok record end.

(** The attempt a binding may act under: the reserved one, or one whose invalid output
    this very artifact keeps. *)
Definition binding_attempt (record : ArtifactRecord) (attempt : InvocationRuntimeAttempt) : bool :=
  bool_decide (att_Status attempt = "reserved")
  || (bool_decide (att_Status attempt = "output_invalid")
      && match att_Result attempt with
         | None => false
         | Some result =>
             bool_decide (text_field result "artifactId" = Some (ar_ID record)
               ∧ text_field result "artifactDigest" = Some (ar_Digest record)
               ∧ text_field result "sizeBytes" = Some (marshal (JInt (ar_SizeBytes record))))
         end
      && bool_decide (ar_Name record = "Invalid runtime result" ∧ ar_Kind record = "file"
           ∧ ar_MediaType record = "text/plain; charset=utf-8" ∧ ar_Sensitive record = true)).

Definition run_effect (isolationDomainID operationID effectID : string) (d : db) : bool :=
  match db_effects d !! (isolationDomainID, effectID) with
  | None => false
  | Some effect =>
      bool_decide (eff_operation_kind effect = OperationKindInvocation ∧ eff_operation_id effect = operationID
        ∧ eff_phase effect = "run-invocation") && invocationRuntimeEffectMayStartAttempt (eff_status effect)
  end.

(** The statement that locks the claim a binding acts under. *)
Definition artifact_claim (binding : ArtifactBinding) (now : Z) (s : runtime_store) : bool :=
  let record := ab_Record binding in
  let d := rs_db s in
  let k := (ar_IsolationDomainID record, ar_OperationID record) in
  match db_invocation_ops d !! k, attempts_of s !! k with
  | Some op, Some attempt =>
      bool_decide (is_Some (db_invocations d !! (ar_IsolationDomainID record, op_resource_id op))
        ∧ op_resource_id op = ar_InvocationID record)
      && run_effect (ar_IsolationDomainID record) (ar_OperationID record) (ar_EffectID record) d
      && bool_decide (att_EffectID attempt = ar_EffectID record ∧ op_lease_owner op = Some (att_LeaseOwner attempt)
           ∧ op_lease_token op = att_FencingToken attempt)
      && binding_attempt record attempt
      && bool_decide (op_state_machine_version op = ab_StateMachineVersion binding
           ∧ (op_command op = "invoke" ∨ op_command op = "repair") ∧ op_observed_state op = "running"
           ∧ op_lease_owner op = Some (ab_LeaseOwner binding) ∧ op_lease_token op = ab_FencingToken binding
           ∧ default (op_actor_id op) (op_effect_actor_id op) = ab_ActorID binding
           ∧ default (op_correlation_id op) (op_effect_correlation_id op) = ab_CorrelationID binding)
      && after (op_lease_expires_at op) now && bool_decide (now < op_deadline_at op)%Z
  | _, _ => false
  end.

Definition bind_audit (binding : ArtifactBinding) (now : Z) : audit_row :=
  let record := ab_Record binding in
  AuditRow (Identity.Derived "aud" (ar_IsolationDomainID record +:+ ":" +:+ ar_ID record +:+ ":invocation-artifact.bind"))
    (ar_IsolationDomainID record) (ab_ActorID binding) "invocation-artifact.bind" "invocation-artifact" (ar_ID record) "succeeded"
    (ab_CorrelationID binding) (Some (ar_OperationID record))
    (json_map [("artifactDigest", JStr (ar_Digest record)); ("artifactKind", JStr (ar_Kind record));
               ("sensitive", JBool (ar_Sensitive record)); ("sizeBytes", JInt (ar_SizeBytes record))]) now.

(** The constraints of both tables follow from [NormalizeBinding] and the claim. *)
Definition insertInvocationArtifact (now : Z) (binding : ArtifactBinding) : stx ArtifactRecord :=
  let record := ab_Record binding in
  let k := (ar_IsolationDomainID record, ar_ID record) in
  exists_ ← look (λ s, bool_decide (is_Some (rs_artifacts s !! k)));
  refuse_if exists_ ErrInvocationArtifactConflict;;
  change (set_artifacts <[k := ArtifactRow (ar_InvocationID record) (ar_Name record) (ar_Kind record) (ar_MediaType record)
      (ar_SizeBytes record) (ar_Digest record) "available" (ar_Sensitive record) now (ab_ActorID binding)]>);;
  change (set_db (publish_artifact k (ar_InvocationID record)));;
  change (set_objects <[k := ObjectRow record (ab_LeaseOwner binding) (ab_FencingToken binding) (ab_ActorID binding)
      (ab_CorrelationID binding) now]>);;
  change (set_db (set_audit (λ l, l ++ [bind_audit binding now])));;
  bound ← ask (findInvocationArtifactRecord (ar_IsolationDomainID record) (ar_ID record));
  match bound with
  | Some bound => if Artifact.EqualRecords bound record then mret bound else refuse ErrInvocationArtifactConflict
  | None => refuse ErrInvocationArtifactConflict
  end.

(** A binding that is there already is confirmed or refused; the second look, under the
    lock of the operation, finds what the first one found. *)
Definition BindInvocationArtifact (ses : session) (binding : ArtifactBinding) : stx ArtifactRecord :=
  normalized ← ask (λ _, Artifact.NormalizeBinding binding);
  let record := ab_Record normalized in
  refuse_unless (bool_decide (ar_EffectID record = Identity.Derived "eff" (ar_IsolationDomainID record +:+ ":"
      +:+ OperationKindInvocation +:+ ":" +:+ ar_OperationID record +:+ ":run-invocation"))) Artifact.ErrInvocationArtifactInvalid;;
  existing ← ask (findInvocationArtifactRecord (ar_IsolationDomainID record) (ar_ID record));
  match existing with
  | Some existing => if Artifact.EqualRecords existing record then mret existing else refuse ErrInvocationArtifactConflict
  | None =>
      claimed ← look (artifact_claim normalized (ses_clock ses 0));
      refuse_unless claimed ErrLeaseLost;;
      insertInvocationArtifact (ses_now ses 0) normalized
  end.
