(* ===== verification/RuntimeAttempts.v ===== *)
(** * Runtime attempts and the runtime's journal

    [internal/persistence/runtime_attempt.go], [runtime_output_failure.go],
    [runtime_artifact_result.go], the transaction of [RecordInvocationRuntimeEvent] in
    [runtime_target.go] with the lookups of [runtime_message_artifact.go] and its
    siblings, and the gate of [workspace_preparation.go] before an attempt.

    A call is one transaction; its [session] gives the clocks its statements read. *)
From stdpp Require Import pretty.
From S2P Require Import Prelude.
From S2P Require Import GoStrings.
From S2P Require Import Sha256.
From S2P Require Import GoJson.
From S2P Require Import GoDecode.
From S2P Require Import Lifecycle.
From S2P Require Import Domain.
From S2P Require Import RuntimeTables.
From S2P Require Import Database.
From S2P Require Import OperationStore.
From S2P Require Import RuntimeInteraction.
From S2P Require Import GatewayStore.
From S2P Require Import ExecutionPlan.
From S2P Require Import ExecutionTables.
From S2P Require Import RuntimeOutput.
From S2P Require Import RuntimeRequest.
From S2P Require Import RuntimeDriver.
From S2P Require Import RuntimeReference.
From S2P Require Import RuntimeStore.
From S2P Require Import ArtifactCatalog.

Definition maximumInvocationRuntimeResultBytes : Z := Z.shiftl 256 10.

(** ** Reading an attempt *)

(** [json.Unmarshal] into a [map[string]any]: an object, or null for the nil map. *)
Definition decoded_result (stored : option json) : result (option json) :=
  match stored with
  | None | Some JNull => Ok None
  | Some (JObj fields) => Ok (Some (JObj fields))
  | Some _ => Err (ENew "decode invocation runtime result")
  end.

Definition getInvocationRuntimeAttempt (isolationDomainID operationID : string) (s : runtime_store)
  : result InvocationRuntimeAttempt :=
  match attempts_of s !! (isolationDomainID, operationID) with
  | None => Err ErrInvocationRuntimeAttemptMissing
  | Some row =>
      decoded ← decoded_result (att_Result row);
      let attempt := MkAttempt (att_IsolationDomainID row) (att_OperationID row) (att_EffectID row) (att_LeaseOwner row)
                       (att_FencingToken row) (att_Status row) decoded in
      if decide (att_IsolationDomainID attempt ≠ isolationDomainID ∨ att_OperationID attempt ≠ operationID
           ∨ att_EffectID attempt = "" ∨ att_LeaseOwner attempt = "" ∨ (att_FencingToken attempt ≤ 0)%Z
           ∨ att_Status attempt ∉ ["reserved"; "output_invalid"; "succeeded"; "failed"]
           ∨ (att_Status attempt = "reserved" ∧ is_Some (att_Result attempt))
           ∨ (att_Status attempt ≠ "reserved" ∧ att_Result attempt = None))
      then Err ErrInvocationRuntimeAttemptConflict else Ok attempt
  end.

Definition GetInvocationRuntimeAttempt (isolationDomainID operationID : string) (s : runtime_store)
  : result InvocationRuntimeAttempt :=
  if decide (isolationDomainID = "" ∨ operationID = "") then Err ErrInvocationRuntimeAttemptInvalid
  else getInvocationRuntimeAttempt isolationDomainID operationID s.

(** ** The gate of a workspace source *)

Record InvocationWorkspacePreparation := MkPreparation {
  ip_Execution : key; ip_Source : SourceRecord; ip_PlanDigest : string; ip_GrantGeneration : Z; ip_ExpiresAt : Z }.

(** The instance of the operation; [operation_id] is unique in a domain. *)
Definition instance_of (isolationDomainID operationID : string) (s : runtime_store) : option (key * instance_row) :=
  snd <$> list_find (λ kv : key * instance_row, kv.1.1 = isolationDomainID ∧ in_operation_id kv.2 = operationID)
            (map_to_list (rs_instances s)).

Definition ready_instance (claim : OperationClaim) (now : Z) (s : runtime_store) : option (Z * string) :=
  op ← db_invocation_ops (rs_db s) !! claim_key claim;
  expires ← op_lease_expires_at op;
  '(k, row) ← instance_of (c_IsolationDomainID claim) (c_ID claim) s;
  if bool_decide (op_lease_owner op = Some (c_LeaseOwner claim) ∧ op_lease_token op = c_FencingToken claim
       ∧ (now < expires)%Z ∧ (now < op_deadline_at op)%Z ∧ in_observed_state row = "ready"
       ∧ attempts_of s !! claim_key claim = None)
  then Some (Z.min expires (op_deadline_at op), k.2) else None.

(** A lock that is held elsewhere fails the statement; here transactions run alone. *)
Definition lockWorkspacePreparationTarget (ses : session) (claim : OperationClaim) (effect : EffectRecord) (s : runtime_store)
  : result (InvocationRuntimeTarget * InvocationWorkspacePreparation) :=
  if negb (validInvocationRuntimeAttempt claim effect) then Err ErrWorkspacePreparation
  else match lockInvocationRuntimeClaim claim (ses_clock ses 0) (rs_db s) with
  | Err _ => Err ErrWorkspacePreparation
  | Ok invocation =>
      if decide (invocation ≠ c_ResourceID claim) then Err ErrWorkspacePreparation
      else
      _ ← verifyInvocationRuntimeEffect effect (rs_db s);
      match ready_instance claim (ses_clock ses 1) s with
      | None => Err ErrWorkspacePreparation
      | Some (expires, executionID) =>
          target ← getInvocationRuntimeTarget (c_IsolationDomainID claim) (c_ID claim) (rs_db s);
          match ReadExecutionPlan (c_IsolationDomainID claim) (rtg_RevisionID target) s with
          | Err _ => Err ErrWorkspacePreparation
          | Ok plan =>
              match pl_WorkspaceSource plan with
              | None => Err ErrWorkspacePreparation
              | Some source =>
                  if decide (ExecutionPlan.pl_SchemaVersion plan ≠ ExecutionPlanSchemaV2) then Err ErrWorkspacePreparation
                  else
                    digest ← DigestExecutionPlan plan;
                    Ok (target, MkPreparation (c_IsolationDomainID claim, executionID) source digest 0 expires)
              end
          end
      end
  end.

Definition version_of (claim : OperationClaim) : claim_version := (c_IsolationDomainID claim, c_ID claim, c_FencingToken claim).

Definition verifyWorkspacePreparation (claim : OperationClaim) (effect : EffectRecord) (expected : InvocationWorkspacePreparation)
    (s : runtime_store) : result unit :=
  match rs_preparations s !! version_of claim with
  | None => Err ErrWorkspacePreparation
  | Some row =>
      if decide (wp_source_record row = ip_Source expected ∧ wp_lease_owner row = c_LeaseOwner claim
           ∧ wp_effect_id row = e_EffectID effect ∧ wp_execution_id row = (ip_Execution expected).2
           ∧ wp_plan_digest row = ip_PlanDigest expected ∧ wp_grant_generation row = ip_GrantGeneration expected)
      then Ok tt else Err ErrWorkspacePreparation
  end.

(** Whether the plan of the invocation prepares a workspace; then it was prepared under
    this very claim, and no attempt was begun. *)
Definition requireWorkspaceCompletion (ses : session) (claim : OperationClaim) (effect : EffectRecord) (s : runtime_store)
  : result bool :=
  match db_invocation_ops (rs_db s) !! claim_key claim ≫= λ op, db_invocations (rs_db s) !! (c_IsolationDomainID claim, op_resource_id op) with
  | None => Err ErrNoRows
  | Some inv =>
      match ReadExecutionPlan (c_IsolationDomainID claim) (inv_revision_id inv) s with
      | Err err => if is_err err ErrExecutionPlanMissing then Ok false else Err err
      | Ok plan =>
          match pl_WorkspaceSource plan with
          | None => Ok false
          | Some _ =>
              match getInvocationRuntimeAttempt (c_IsolationDomainID claim) (c_ID claim) s with
              | Ok _ => Err ErrInvocationRuntimeAttemptAmbiguous
              | Err err =>
                  if negb (is_err err ErrInvocationRuntimeAttemptMissing) then Err err
                  else
                    '(_, current) ← lockWorkspacePreparationTarget ses claim effect s;
                    match rs_preparations s !! version_of claim, rs_completions s !! version_of claim with
                    | Some row, Some _ =>
                        _ ← verifyWorkspacePreparation claim effect
                              (MkPreparation (ip_Execution current) (ip_Source current) (ip_PlanDigest current)
                                 (wp_grant_generation row) (ip_ExpiresAt current)) s;
                        Ok true
                    | _, _ => Err ErrWorkspacePreparation
                    end
              end
          end
      end
  end.

Definition CheckInvocationWorkspacePreparation (ses : session) (claim : OperationClaim) (effect : EffectRecord) (s : runtime_store)
  : result bool :=
  if negb (validInvocationRuntimeAttempt claim effect) then Err ErrWorkspacePreparation
  else requireWorkspaceCompletion ses claim effect s.

(** The trigger of migration 00070 on new attempts: with a plan of version 2 the
    workspace was prepared by the holder of the lease. *)
Definition preparation_done (attempt : InvocationRuntimeAttempt) (now : Z) (s : runtime_store) : bool :=
  let k := (att_IsolationDomainID attempt, att_OperationID attempt) in
  let version := (att_IsolationDomainID attempt, att_OperationID attempt, att_FencingToken attempt) in
  match rs_preparations s !! version, rs_completions s !! version, db_invocation_ops (rs_db s) !! k with
  | Some row, Some _, Some op =>
      bool_decide (wp_lease_owner row = att_LeaseOwner attempt ∧ wp_effect_id row = att_EffectID attempt
        ∧ op_lease_owner op = Some (att_LeaseOwner attempt) ∧ op_lease_token op = att_FencingToken attempt
        ∧ (op_command op = "invoke" ∨ op_command op = "repair") ∧ op_state_machine_version op = 2%Z
        ∧ op_observed_state op = "running")
      && after (op_lease_expires_at op) now && bool_decide (now < op_deadline_at op)%Z
  | _, _, _ => false
  end.
Definition attempt_permitted (attempt : InvocationRuntimeAttempt) (now : Z) (s : runtime_store) : bool :=
  let domainID := att_IsolationDomainID attempt in
  match db_invocation_ops (rs_db s) !! (domainID, att_OperationID attempt) ≫= λ op,
        db_invocations (rs_db s) !! (domainID, op_resource_id op) ≫= λ inv, rs_plans s !! (domainID, inv_revision_id inv) with
  | Some plan => negb (bool_decide (pw_schema_version plan = ExecutionPlanSchemaV2)) || preparation_done attempt now s
  | None => true
  end.

(** ** References to retained outputs *)

Definition getRuntimeArtifact (namespace name kind mediaType scope invocationID operationID : string) (sequence : Z)
    (artifactID digest : string) (size : Z) (s : runtime_store) : result ArtifactRecord :=
  let expectedID := Identity.Derived "art" (scope +:+ ":" +:+ invocationID +:+ ":" +:+ namespace +:+ ":" +:+ pretty sequence) in
  if decide (artifactID ≠ expectedID) then Err ErrInvocationRuntimeEventInvalid
  else
    found ← findInvocationArtifactRecord scope artifactID s;
    match found with
    | None => Err ErrInvocationRuntimeEventInvalid
    | Some record =>
        if decide (ar_InvocationID record = invocationID ∧ ar_OperationID record = operationID
             ∧ ar_EffectID record = Identity.Derived "eff" (scope +:+ ":" +:+ OperationKindInvocation +:+ ":" +:+ operationID +:+ ":run-invocation")
             ∧ ar_Digest record = digest ∧ ar_SizeBytes record = size ∧ ar_Name record = name ∧ ar_Kind record = kind
             ∧ ar_MediaType record = mediaType ∧ ar_Sensitive record = true)
        then Ok record else Err ErrInvocationRuntimeEventInvalid
    end.

Section references.
Context (scope invocationID operationID : string) (sequence : Z).
Definition getRuntimeMessageArtifact (r : MessageArtifact) : runtime_store → result ArtifactRecord :=
  getRuntimeArtifact "runtime-message" "Completed runtime message" "file" "text/plain; charset=utf-8"
    scope invocationID operationID sequence (ma_ArtifactID r) (ma_Digest r) (ma_SizeBytes r).
Definition getRuntimeToolArtifact (r : ToolArtifact) : runtime_store → result ArtifactRecord :=
  getRuntimeArtifact "runtime-tool" "Completed tool output" "structured-output" "application/json"
    scope invocationID operationID sequence (tla_ArtifactID r) (tla_Digest r) (tla_SizeBytes r).
Definition getRuntimePlanArtifact (r : PlanArtifact) : runtime_store → result ArtifactRecord :=
  getRuntimeArtifact "runtime-plan" "Plan update" "structured-output" "application/json"
    scope invocationID operationID sequence (pta_ArtifactID r) (pta_Digest r) (pta_SizeBytes r).
Definition getRuntimeImageArtifact (r : ImageArtifact) : runtime_store → result ArtifactRecord :=
  getRuntimeArtifact "runtime-image" "Generated image" "file" (ia_MediaType r)
    scope invocationID operationID sequence (ia_ArtifactID r) (ia_Digest r) (ia_SizeBytes r).
Definition getRuntimePatchArtifact (r : PatchArtifact) : runtime_store → result ArtifactRecord :=
  getRuntimeArtifact "runtime-patch" "Completed file patch" "structured-output" "application/json"
    scope invocationID operationID sequence (pa_ArtifactID r) (pa_Digest r) (pa_SizeBytes r).
Definition getRuntimeCommandArtifact (r : CommandArtifact) : runtime_store → result ArtifactRecord :=
  getRuntimeArtifact "runtime-command" "Completed command output" "log" "text/plain; charset=utf-8"
    scope invocationID operationID sequence (ca_ArtifactID r) (ca_Digest r) (ca_SizeBytes r).

(** The artifact an event refers to, when it is a reference; its payload was read before. *)
Definition event_artifact (type : string) (p : payload) (s : runtime_store) : result (option ArtifactRecord) :=
  let found {R} (parse : payload → result R) (get : R → runtime_store → result ArtifactRecord) :=
    reference ← parse p; record ← get reference s; Ok (Some record) in
  if decide (type = MessageArtifactEvent) then found ParseMessageArtifact getRuntimeMessageArtifact
  else if decide (type = ToolArtifactEvent) then found ParseToolArtifact getRuntimeToolArtifact
  else if decide (type = PlanArtifactEvent) then found ParsePlanArtifact getRuntimePlanArtifact
  else if decide (type = ImageArtifactEvent) then found ParseImageArtifact getRuntimeImageArtifact
  else if decide (type = PatchArtifactEvent) then found ParsePatchArtifact getRuntimePatchArtifact
  else if decide (type = CommandArtifactEvent) then found ParseCommandArtifact getRuntimeCommandArtifact
  else Ok None.
End references.

(** ** The journal *)

Definition runtime_event (domainID invocationID : string) (P : string → json → Z → bool) (ev : event_row) : bool :=
  bool_decide (ev_isolation_domain_id ev = domainID ∧ ev_invocation_id ev = invocationID)
  && match ev_source ev with Some sequence => P (ev_type ev) (ev_payload ev) sequence | None => false end.
Definition some_event (domainID invocationID : string) (P : string → json → Z → bool) (d : db) : bool :=
  existsb (runtime_event domainID invocationID P) (db_events d).

(** An attempt whose output was found invalid accepts no more events. *)
Definition output_frozen (claim : OperationClaim) (s : runtime_store) : bool :=
  match attempts_of s !! claim_key claim ≫= att_Result with
  | Some result => bool_decide (text_field result "code" = Some "RUNTIME_OUTPUT_INVALID" ∧ is_Some (json_field result "sourceSequence"))
  | None => false
  end.

Definition with_usage (usage : Usage) (now : Z) (inv : invocation_row) : invocation_row :=
  InvocationRow (inv_service_id inv) (inv_revision_id inv) (inv_alias inv) (inv_state inv) (inv_input inv) (inv_result inv)
    (inv_error inv) (Some usage) (inv_correlation_id inv) (inv_operation_id inv) (inv_completed_at inv) (inv_generation inv)
    (inv_version inv + 1) (inv_created_at inv) now (inv_created_by inv).

(** The projection of the latest snapshot, by source sequence. *)
Definition project_usage (target : InvocationRuntimeTarget) (usage : Usage) (sequence now : Z) (d : db) : db :=
  let k := (rtg_IsolationDomainID target, rtg_InvocationID target) in
  let later type (_ : json) q := bool_decide (type = "usage.recorded" ∧ (sequence < q)%Z) in
  match db_invocations d !! k with
  | None => d
  | Some inv =>
      if decide (inv_usage inv = Some usage) then d
      else if some_event (rtg_IsolationDomainID target) (rtg_InvocationID target) later d then d
      else set_invocations <[k := with_usage usage now inv]> d
  end.

Definition runtime_event_row (target : InvocationRuntimeTarget) (event : InvocationRuntimeEvent) (stored : json) (sequence now : Z) : event_row :=
  EventRow (rtg_IsolationDomainID target) (rtg_InvocationID target)
    (Identity.Derived "evt" (rtg_InvocationID target +:+ ":runtime:" +:+ pretty (re_SourceSequence event)))
    sequence (re_Type event) now now (rtg_CorrelationID target) (rtg_ActorID target) (rtg_ServiceID target)
    (rtg_RevisionID target) stored (Some (re_SourceSequence event)).

Definition on_db {A} (m : tx A) : stx A := λ s,
  match m (rs_db s) with Ok (d, a) => Ok (set_db (λ _, d) s, a) | Err e => Err e end.

(** The insertion of a new event, and the projection of usage with it. *)
Definition append_runtime_event (ses : session) (claim : OperationClaim) (target : InvocationRuntimeTarget)
    (event : InvocationRuntimeEvent) (encoded : string) : stx event_row :=
  sequence ← look (λ s, next_sequence (rtg_IsolationDomainID target) (rtg_InvocationID target) (db_events (rs_db s)));
  stored ← ask (λ _, from_option Ok (Err (ENew "persist invocation runtime event")) (jsonb encoded));
  live ← look (λ s, claim_live claim (ses_clock ses 0) (rs_db s) && negb (output_frozen claim s));
  refuse_unless live ErrLeaseLost;;
  let row := runtime_event_row target event stored sequence (ses_now ses 1) in
  on_db (insert_event "persist invocation runtime event" row);;
  (match ParseUsageSnapshot (re_Payload event) with
   | Ok usage => if decide (re_Type event = "usage.recorded")
                 then change (set_db (project_usage target usage (re_SourceSequence event) (ses_now ses 1))) else mret tt
   | Err _ => mret tt
   end);;
  mret row.

Definition RecordInvocationRuntimeEvent (ses : session) (claim : OperationClaim) (event : InvocationRuntimeEvent) : stx event_row :=
  refuse_unless (validInvocationRuntimeClaim claim) ErrLeaseLost;;
  refuse_unless (runtime_event_valid event) ErrInvocationRuntimeEventInvalid;;
  encoded ← ask (λ _, from_option Ok (Err ErrInvocationRuntimeEventInvalid) (any_text (AMap (re_Payload event))));
  invocationID ← ask (λ s, lockInvocationRuntimeClaim claim (ses_now ses 0) (rs_db s));
  target ← ask (λ s, getInvocationRuntimeTarget (c_IsolationDomainID claim) (c_ID claim) (rs_db s));
  refuse_if (bool_decide (rtg_InvocationID target ≠ invocationID)) ErrInvocationRuntimeTargetMissing;;
  ask (event_artifact (rtg_IsolationDomainID target) (rtg_InvocationID target) (c_ID claim) (re_SourceSequence event)
         (re_Type event) (re_Payload event));;
  refuse_if (max_int64 <? re_SourceSequence event)%Z (ENew "read invocation runtime event");;
  existing ← look (λ s, getInvocationRuntimeEvent (rtg_IsolationDomainID target) (rtg_InvocationID target)
                          (re_SourceSequence event) (rs_db s));
  match existing with
  | Some ev =>
      refuse_if (bool_decide (ev_type ev ≠ re_Type event) || bool_decide (marshal (ev_payload ev) ≠ encoded))
        ErrInvocationRuntimeEventConflict;;
      mret ev
  | None => append_runtime_event ses claim target event encoded
  end.

(** ** Results that name an artifact *)

Record artifactResult := MkArtifactResult { rr_ArtifactID : string; rr_Digest : string; rr_SizeBytes : Z }.

(** The last member the decoder takes for a field. *)
Definition decoded_member (fields : list (string * json)) (name : string) : option json :=
  snd <$> last (filter (λ kv, fold_name kv.1 = fold_name name) fields).
Definition known_members (names : list string) (fields : list (string * json)) : bool :=
  forallb (λ kv, existsb (λ name, bool_decide (fold_name kv.1 = fold_name name)) names) fields.
Definition decoded_string (v : option json) : option string :=
  match v with None | Some JNull => Some "" | Some (JStr s) => Some s | _ => None end.
Definition decoded_int64 (v : option json) : option Z :=
  match v with
  | None | Some JNull => Some 0%Z
  | Some (JInt z) => if decide (-9223372036854775808 ≤ z ≤ 9223372036854775807)%Z then Some z else None
  | _ => None
  end.

(** [DisallowUnknownFields] *)
Definition decode_artifact_result (v : option json) : option artifactResult :=
  match v with
  | Some (JObj fields) =>
      if negb (known_members ["schemaVersion"; "status"; "outputArtifact"] fields) then None
      else
      schema ← decoded_string (decoded_member fields "schemaVersion");
      status ← decoded_string (decoded_member fields "status");
      match decoded_member fields "outputArtifact" with
      | Some (JObj inner) =>
          if negb (known_members ["artifactId"; "digest"; "sizeBytes"; "mediaType"] inner) then None
          else
          id ← decoded_string (decoded_member inner "artifactId");
          digest ← decoded_string (decoded_member inner "digest");
          size ← decoded_int64 (decoded_member inner "sizeBytes");
          mediaType ← decoded_string (decoded_member inner "mediaType");
          if decide (schema = "dataground.invocation-artifact-result/v1" ∧ status = "succeeded"
                     ∧ mediaType = "text/plain; charset=utf-8")
          then Some (MkArtifactResult id digest size) else None
      | _ => None
      end
  | _ => None
  end.

Definition final_message (type : string) (p : json) : bool :=
  bool_decide (type ∈ [MessageCompletedEvent; MessageArtifactEvent])
  && match text_field p "phase" with Some phase => negb (bool_decide (phase = "commentary")) | None => false end.
Definition ended_badly (type : string) : bool := bool_decide (type ∈ ["lifecycle.failed"; "lifecycle.cancelled"]).

(** The runtime ended well after this event, and said nothing final since. *)
Definition last_word (domainID invocationID : string) (sequence : Z) (d : db) : bool :=
  some_event domainID invocationID (λ type _ q, bool_decide (type = "lifecycle.succeeded" ∧ (sequence < q)%Z)) d
  && negb (some_event domainID invocationID (λ type p q, ended_badly type || (final_message type p && (sequence <? q)%Z)) d).

(** A decoded value, as [any]. *)
Fixpoint any_of (v : json) : any :=
  match v with
  | JNull => ANil
  | JBool b => ABool b
  | JInt z => AFloat (pretty z)
  | JStr s => AStr s
  | JArr items => AList ((fix go items := match items with [] => [] | v :: rest => any_of v :: go rest end) items)
  | JObj fields =>
      AMap ((fix go (fields : list (string * json)) := match fields with [] => [] | (k, v) :: rest => (k, any_of v) :: go rest end) fields)
  end.
Definition payload_of (v : json) : payload := match any_of v with AMap fields => fields | _ => [] end.

Definition named_message (claim : OperationClaim) (artifactID : string) (d : db) (ev : event_row) : Prop :=
  runtime_event (c_IsolationDomainID claim) (c_ResourceID claim) (λ type p _, bool_decide (type = MessageArtifactEvent) && final_message type p) ev = true
  ∧ text_field (ev_payload ev) "artifactId" = Some artifactID
  ∧ match ev_source ev with Some sequence => last_word (c_IsolationDomainID claim) (c_ResourceID claim) sequence d = true | None => False end.
#[global] Instance named_message_dec claim id d ev : Decision (named_message claim id d ev).
Proof. unfold named_message. destruct (ev_source ev); apply _. Defined.

Definition verifyRuntimeArtifactResult (claim : OperationClaim) (encoded : string) (s : runtime_store) : result unit :=
  match decode_artifact_result (unmarshal encoded) with
  | None => Err ErrInvocationRuntimeAttemptInvalid
  | Some r =>
      match list_find (named_message claim (rr_ArtifactID r) (rs_db s)) (db_events (rs_db s)) with
      | None => Err ErrInvocationRuntimeAttemptConflict
      | Some (_, ev) =>
          match ParseMessageArtifact (payload_of (ev_payload ev)) with
          | Err _ => Err ErrInvocationArtifactConflict
          | Ok reference =>
              if decide (ma_Digest reference ≠ rr_Digest r ∨ ma_SizeBytes reference ≠ rr_SizeBytes r) then Err ErrInvocationArtifactConflict
              else
                _ ← getRuntimeMessageArtifact (c_IsolationDomainID claim) (c_ResourceID claim) (c_ID claim) (default 0%Z (ev_source ev)) reference s;
                Ok tt
          end
      end
  end.

(** ** Attempts *)

(** [ON CONFLICT DO NOTHING], on the operation or on the effect. *)
Definition attempt_conflicts (attempt : InvocationRuntimeAttempt) (s : runtime_store) : bool :=
  existsb (λ kv, bool_decide (kv.1.1 = att_IsolationDomainID attempt
                   ∧ (kv.1.2 = att_OperationID attempt ∨ att_EffectID kv.2 = att_EffectID attempt))) (map_to_list (attempts_of s)).

Definition reserve_attempt (attempt : InvocationRuntimeAttempt) (now : Z) : stx bool :=
  permitted ← look (attempt_permitted attempt now);
  refuse_unless permitted (ENew "reserve invocation runtime attempt");;
  conflict ← look (attempt_conflicts attempt);
  if conflict : bool then mret false
  else change (put_attempt (att_IsolationDomainID attempt, att_OperationID attempt) attempt);; mret true.

Definition BeginInvocationRuntimeAttempt (ses : session) (claim : OperationClaim) (effect : EffectRecord)
  : stx InvocationRuntimeAttempt :=
  refuse_unless (validInvocationRuntimeAttempt claim effect) ErrInvocationRuntimeAttemptInvalid;;
  ask (λ s, lockInvocationRuntimeClaim claim (ses_now ses 0) (rs_db s));;
  ask (λ s, verifyInvocationRuntimeEffect effect (rs_db s));;
  ask (requireWorkspaceCompletion ses claim effect);;
  inserted ← reserve_attempt (MkAttempt (e_IsolationDomainID effect) (e_OperationID effect) (e_EffectID effect)
                                (c_LeaseOwner claim) (c_FencingToken claim) "reserved" None) (ses_clock ses 2);
  attempt ← ask (getInvocationRuntimeAttempt (e_IsolationDomainID effect) (e_OperationID effect));
  refuse_if (bool_decide (att_EffectID attempt ≠ e_EffectID effect)) ErrInvocationRuntimeAttemptConflict;;
  refuse_unless inserted ErrInvocationRuntimeAttemptAmbiguous;;
  mret attempt.

(** The operation is running under this very claim. *)
Definition running_under (claim : OperationClaim) (effect : EffectRecord) (now : Z) (s : runtime_store) : bool :=
  match db_invocation_ops (rs_db s) !! (e_IsolationDomainID effect, e_OperationID effect) with
  | None => false
  | Some op =>
      bool_decide ((op_command op = "invoke" ∨ op_command op = "repair") ∧ op_observed_state op = "running"
        ∧ op_lease_owner op = Some (c_LeaseOwner claim) ∧ op_lease_token op = c_FencingToken claim)
      && after (op_lease_expires_at op) now && bool_decide (now < op_deadline_at op)%Z
  end.

(** The artifact a retained failure names is bound to this effect. *)
Definition retained_bound (effect : EffectRecord) (value : json) (s : runtime_store) : bool :=
  match text_field value "artifactId" ≫= λ id, rs_objects s !! (e_IsolationDomainID effect, id) with
  | None => false
  | Some row =>
      bool_decide (ar_OperationID (ob_record row) = e_OperationID effect ∧ ar_EffectID (ob_record row) = e_EffectID effect
        ∧ Some (ar_Digest (ob_record row)) = text_field value "artifactDigest")
  end.

Definition may_finish (claim : OperationClaim) (effect : EffectRecord) (status : string) (value : json) (now : Z)
    (attempt : InvocationRuntimeAttempt) (s : runtime_store) : bool :=
  bool_decide (att_EffectID attempt = e_EffectID effect ∧ att_LeaseOwner attempt = c_LeaseOwner claim
    ∧ att_FencingToken attempt = c_FencingToken claim)
  && running_under claim effect now s
  && (bool_decide (att_Status attempt = "reserved")
      || (bool_decide (att_Status attempt = "output_invalid" ∧ status = "failed" ∧ att_Result attempt = Some value)
          && retained_bound effect value s)).

Definition with_outcome (status : string) (value : json) (attempt : InvocationRuntimeAttempt) : InvocationRuntimeAttempt :=
  MkAttempt (att_IsolationDomainID attempt) (att_OperationID attempt) (att_EffectID attempt) (att_LeaseOwner attempt)
    (att_FencingToken attempt) status (Some value).

Definition update_outcome (claim : OperationClaim) (effect : EffectRecord) (status : string) (value : json) (now : Z) : stx bool :=
  let k := (e_IsolationDomainID effect, e_OperationID effect) in
  found ← look (λ s, attempt ← attempts_of s !! k; if may_finish claim effect status value now attempt s then Some attempt else None);
  match found with
  | Some attempt => change (put_attempt k (with_outcome status value attempt));; mret true
  | None => mret false
  end.

Definition names_artifact (p : payload) : bool :=
  bool_decide (is_Some (get p "outputArtifact")) || bool_decide (get_string p "schemaVersion" = Some "dataground.invocation-artifact-result/v1").

Definition finishInvocationRuntimeAttempt (ses : session) (claim : OperationClaim) (effect : EffectRecord) (status : string)
    (r : payload) : stx InvocationRuntimeAttempt :=
  refuse_unless (validInvocationRuntimeAttempt claim effect && bool_decide (status = "succeeded" ∨ status = "failed"))
    ErrInvocationRuntimeAttemptInvalid;;
  encoded ← ask (λ _, from_option Ok (Err ErrInvocationRuntimeAttemptInvalid) (any_text (AMap r)));
  refuse_if (maximumInvocationRuntimeResultBytes <? go_len encoded)%Z ErrInvocationRuntimeAttemptInvalid;;
  ask (λ s, lockInvocationRuntimeClaim claim (ses_now ses 0) (rs_db s));;
  ask (λ s, verifyInvocationRuntimeEffect effect (rs_db s));;
  (if names_artifact r
   then refuse_if (bool_decide (status ≠ "succeeded")) ErrInvocationRuntimeAttemptInvalid;;
        ask (verifyRuntimeArtifactResult claim encoded)
   else mret tt);;
  value ← ask (λ _, from_option Ok (Err (ENew "complete invocation runtime attempt")) (jsonb encoded));
  updated ← update_outcome claim effect status value (ses_clock ses 0);
  attempt ← ask (getInvocationRuntimeAttempt (e_IsolationDomainID effect) (e_OperationID effect));
  refuse_if (bool_decide (att_EffectID attempt ≠ e_EffectID effect)) ErrInvocationRuntimeAttemptConflict;;
  (if updated : bool then mret tt
   else refuse_if (bool_decide (att_Status attempt = "reserved")) ErrInvocationRuntimeAttemptAmbiguous;;
        refuse_if (bool_decide (att_Status attempt ≠ status)) ErrInvocationRuntimeAttemptConflict;;
        refuse_unless (bool_decide (marshal <$> att_Result attempt = Some encoded)) ErrInvocationRuntimeAttemptConflict);;
  mret attempt.

Definition CompleteInvocationRuntimeAttempt (ses : session) (claim : OperationClaim) (effect : EffectRecord) (r : payload) :=
  finishInvocationRuntimeAttempt ses claim effect "succeeded" r.
Definition FailInvocationRuntimeAttempt (ses : session) (claim : OperationClaim) (effect : EffectRecord) (r : payload) :=
  finishInvocationRuntimeAttempt ses claim effect "failed" r.

(** ** Keeping an output that was found invalid *)

(** [strconv.ParseUint(s, 10, 63)] *)
Definition parse_uint63 (s : string) : option Z :=
  let bs := bytes_of s in
  let value := foldl (λ acc c, 10 * acc + Z.of_N (byte_value c) - 48)%Z 0%Z bs in
  if negb (bool_decide (bs = [])) && forallb is_digit bs && (value <=? max_int64)%Z then Some value else None.

(** The sequence of the frozen output: the one given, or the one frozen before. *)
Definition frozen_sequence (claim : OperationClaim) (attempt : InvocationRuntimeAttempt) (sequence : Z) : result Z :=
  if decide (att_Status attempt = "reserved") then
    if decide (sequence = 0%Z ∨ att_LeaseOwner attempt ≠ c_LeaseOwner claim ∨ att_FencingToken attempt ≠ c_FencingToken claim)
    then Err ErrInvocationRuntimeAttemptAmbiguous else Ok sequence
  else if decide (att_Status attempt = "output_invalid") then
    match att_Result attempt ≫= λ v, json_field v "sourceSequence" with
    | Some (JStr frozen) =>
        match parse_uint63 frozen with
        | Some n => if decide (n = 0%Z ∨ (sequence ≠ 0%Z ∧ sequence ≠ n)) then Err ErrInvocationRuntimeAttemptConflict else Ok n
        | None => Err ErrInvocationRuntimeAttemptConflict
        end
    | _ => Err ErrInvocationRuntimeAttemptConflict
    end
  else Err ErrInvocationRuntimeAttemptConflict.

(** The text of an inline message, or the artifact that holds it. *)
Definition frozen_output (claim : OperationClaim) (invocationID : string) (sequence : Z) (ev : event_row) (s : runtime_store)
  : result (string + ArtifactRecord) :=
  if decide (ev_type ev = MessageCompletedEvent) then
    match ParseCompletedMessage (payload_of (ev_payload ev)) with
    | Ok message =>
        if (Z.of_nat MaximumInlineMessageTextBytes <? go_len (cm_Text message))%Z || bool_decide (cm_Phase message = "commentary")
        then Err ErrInvocationRuntimeAttemptInvalid else Ok (inl (cm_Text message))
    | Err _ => Err ErrInvocationRuntimeAttemptInvalid
    end
  else if decide (ev_type ev = MessageArtifactEvent) then
    match ParseMessageArtifact (payload_of (ev_payload ev)) with
    | Ok reference =>
        if decide (ma_Phase reference = "commentary") then Err ErrInvocationRuntimeAttemptInvalid
        else record ← getRuntimeMessageArtifact (c_IsolationDomainID claim) invocationID (c_ID claim) sequence reference s; Ok (inr record)
    | Err _ => Err ErrInvocationRuntimeAttemptInvalid
    end
  else Err ErrInvocationRuntimeAttemptInvalid.

Definition invalid_result_record (claim : OperationClaim) (effect : EffectRecord) (invocationID content : string) : ArtifactRecord :=
  MkArtifact InvocationArtifactSchemaV1 (c_IsolationDomainID claim)
    (Identity.Derived "art" (c_IsolationDomainID claim +:+ ":" +:+ invocationID +:+ ":runtime-result:invalid"))
    invocationID (c_ID claim) (e_EffectID effect) "Invalid runtime result" "file" "text/plain; charset=utf-8" (go_len content)
    (Sha256.digest_string content) true "".

Definition retention_result (sequence : Z) (record : ArtifactRecord) : payload :=
  [("code", AStr "RUNTIME_OUTPUT_INVALID"); ("status", AStr "failed"); ("sourceSequence", AStr (pretty sequence));
   ("artifactId", AStr (ar_ID record)); ("artifactDigest", AStr (ar_Digest record)); ("sizeBytes", AInt (ar_SizeBytes record))].

(** The guarded [UPDATE]; the holder of the lease takes the frozen attempt over. *)
Definition may_retain (claim : OperationClaim) (effect : EffectRecord) (value : json) (now : Z)
    (attempt : InvocationRuntimeAttempt) (s : runtime_store) : bool :=
  bool_decide (att_EffectID attempt = e_EffectID effect)
  && (bool_decide (att_Status attempt = "reserved" ∧ att_LeaseOwner attempt = c_LeaseOwner claim ∧ att_FencingToken attempt = c_FencingToken claim)
      || bool_decide (att_Status attempt = "output_invalid" ∧ att_Result attempt = Some value))
  && match db_invocation_ops (rs_db s) !! claim_key claim with
     | None => false
     | Some op => claimed_operation claim op && bool_decide (op_observed_state op = "running")
                  && after (op_lease_expires_at op) now && bool_decide (now < op_deadline_at op)%Z
     end.

Definition retained_attempt (claim : OperationClaim) (value : json) (attempt : InvocationRuntimeAttempt) : InvocationRuntimeAttempt :=
  MkAttempt (att_IsolationDomainID attempt) (att_OperationID attempt) (att_EffectID attempt) (c_LeaseOwner claim)
    (c_FencingToken claim) "output_invalid" (Some value).

(** The constraint on the frozen result (migration 00062) holds of every
    [retention_result] the call can build. *)
Definition PrepareInvocationRuntimeOutputFailure (ses : session) (claim : OperationClaim) (effect : EffectRecord) (sequence : Z)
  : stx InvocationRuntimeOutputFailure :=
  refuse_unless (validInvocationRuntimeAttempt claim effect) ErrInvocationRuntimeAttemptInvalid;;
  invocationID ← ask (λ s, lockInvocationRuntimeClaim claim (ses_now ses 0) (rs_db s));
  ask (λ s, verifyInvocationRuntimeEffect effect (rs_db s));;
  attempt ← ask (getInvocationRuntimeAttempt (c_IsolationDomainID claim) (c_ID claim));
  refuse_if (bool_decide (att_EffectID attempt ≠ e_EffectID effect)) ErrInvocationRuntimeAttemptConflict;;
  sequence ← ask (λ _, frozen_sequence claim attempt sequence);
  refuse_if (max_int64 <? sequence)%Z (ENew "read invocation runtime event");;
  event ← look (λ s, getInvocationRuntimeEvent (c_IsolationDomainID claim) invocationID sequence (rs_db s));
  match event with
  | None => refuse ErrInvocationRuntimeAttemptInvalid
  | Some ev =>
      output ← ask (frozen_output claim invocationID sequence ev);
      complete ← look (λ s, last_word (c_IsolationDomainID claim) invocationID sequence (rs_db s));
      refuse_unless complete ErrInvocationRuntimeAttemptInvalid;;
      let '(record, content, retained) := match output with
        | inl text => (invalid_result_record claim effect invocationID text, text, false)
        | inr record => (record, "", true)
        end in
      let r := retention_result sequence record in
      encoded ← ask (λ _, from_option Ok (Err (ENew "encode runtime output failure")) (any_text (AMap r)));
      value ← ask (λ _, from_option Ok (Err (ENew "prepare runtime output retention")) (jsonb encoded));
      found ← look (λ s, attempts_of s !! claim_key claim ≫= λ row,
                         if may_retain claim effect value (ses_clock ses 0) row s then Some row else None);
      match found with
      | None => refuse (EJoin ErrLeaseLost ErrInvocationRuntimeAttemptConflict)
      | Some row =>
          change (put_attempt (claim_key claim) (retained_attempt claim value row));;
          mret (MkOutputFailure (MkFinalization (artifact_binding claim record) content) r retained)
      end
  end.
