(* ===== verification/RuntimeSystem.v ===== *)
(** * Runtime calls among all others

    The calls of [RuntimeAttempts] and [ArtifactCatalog] and every call of the control
    plane, in any order and by any worker: what each runtime call commits, and what
    none of them undoes. *)
From stdpp Require Import pretty.
From S2P Require Import Prelude.
From S2P Require Import GoStrings.
From S2P Require Import Sha256.
From S2P Require Import GoJson.
From S2P Require Import GoDecode.
From S2P Require Import Domain.
From S2P Require Import RuntimeTables.
From S2P Require Import Database.
From S2P Require Import OperationStore.
From S2P Require Import Commands.
From S2P Require Import RuntimeInteraction.
From S2P Require Import StoreSpec.
From S2P Require Import StoreSteps.
From S2P Require Import StoreRefinement.
From S2P Require Import InteractionLogs.
From S2P Require Import StoreTheorems.
From S2P Require Import ExecutionTables.
From S2P Require Import RuntimeOutput.
From S2P Require Import RuntimeRequest.
From S2P Require Import RuntimeDriver.
From S2P Require Import RuntimeReference.
From S2P Require Import RuntimeStore.
From S2P Require Import ArtifactCatalog.
From S2P Require Import RuntimeAttempts.

(** ** The system *)

Inductive runtime_call :=
  | CallBegin (claim : OperationClaim) (effect : EffectRecord)
  | CallFinish (claim : OperationClaim) (effect : EffectRecord) (status : string) (r : payload)
  | CallPrepare (claim : OperationClaim) (effect : EffectRecord) (sequence : Z)
  | CallRecord (claim : OperationClaim) (event : InvocationRuntimeEvent)
  | CallBind (binding : ArtifactBinding).

Definition done_with {A} (r : result (runtime_store * A)) : result runtime_store :=
  match r with Ok (s, _) => Ok s | Err e => Err e end.

Definition run_runtime (ses : session) (c : runtime_call) (s : runtime_store) : result runtime_store :=
  match c with
  | CallBegin claim effect => done_with (BeginInvocationRuntimeAttempt ses claim effect s)
  | CallFinish claim effect status r => done_with (finishInvocationRuntimeAttempt ses claim effect status r s)
  | CallPrepare claim effect sequence => done_with (PrepareInvocationRuntimeOutputFailure ses claim effect sequence s)
  | CallRecord claim event => done_with (RecordInvocationRuntimeEvent ses claim event s)
  | CallBind binding => done_with (BindInvocationArtifact ses binding s)
  end.

Record runtime_world := RuntimeWorld { rw_store : runtime_store; rw_claims : list OperationClaim }.

(** Plans, executions and workspace preparations change in ways that are not followed
    here; the control plane changes attempts only through the calls above. *)
Inductive runtime_step `{SchemaEngine} : runtime_world → runtime_world → Prop :=
  | step_runtime ses c s cs s' : run_runtime ses c s = Ok s' → runtime_step (RuntimeWorld s cs) (RuntimeWorld s' cs)
  | step_control s cs d cs' :
      world_step (World (rs_db s) cs) (World d cs') → rt_attempts (db_runtime d) = attempts_of s →
      runtime_step (RuntimeWorld s cs) (RuntimeWorld (set_db (λ _, d) s) cs')
  | step_elsewhere s cs plans instances preparations completions :
      runtime_step (RuntimeWorld s cs)
        (RuntimeWorld (RuntimeStore (rs_db s) (rs_artifacts s) (rs_objects s) plans instances preparations completions) cs).

Definition initial_runtime : runtime_world := RuntimeWorld (RuntimeStore empty_db ∅ ∅ ∅ ∅ ∅ ∅) [].

(** ** What a call commits *)

Lemma attempts_put k a s : attempts_of (put_attempt k a s) = <[k := a]> (attempts_of s).
Proof. done. Qed.
#[export] Hint Rewrite attempts_put : dg.

Lemma from_option_Ok {A} (m : option A) e a : from_option Ok (Err e) m = Ok a ↔ m = Some a.
Proof. destruct m; cbn; naive_solver. Qed.

Lemma reserve_Ok attempt now s s' b :
  reserve_attempt attempt now s = Ok (s', b) → b = true →
  let k := (att_IsolationDomainID attempt, att_OperationID attempt) in attempts_of s !! k = None ∧ s' = put_attempt k attempt s.
Proof.
  unfold reserve_attempt. intros H Hb. stx_inv H; [done|]. split; [|done].
  destruct (attempts_of s !! _) as [row|] eqn:Ek; [|done]. exfalso.
  unfold attempt_conflicts in E. apply not_true_iff_false in E. apply E, existsb_exists.
  eexists (_, row). rewrite <- list_elem_of_In, elem_of_map_to_list. split; [exact Ek|]. apply bool_decide_eq_true. cbn. auto.
Qed.

Lemma attempt_keys claim effect : validInvocationRuntimeAttempt claim effect = true →
  e_IsolationDomainID effect = c_IsolationDomainID claim ∧ e_OperationID effect = c_ID claim ∧ e_EffectID effect = effect_id claim "run-invocation".
Proof. unfold validInvocationRuntimeAttempt. intros H. to_prop. naive_solver. Qed.

Lemma begin_spec ses claim effect s s' a :
  BeginInvocationRuntimeAttempt ses claim effect s = Ok (s', a) →
  ∃ attempt, attempt = MkAttempt (c_IsolationDomainID claim) (c_ID claim) (e_EffectID effect) (c_LeaseOwner claim) (c_FencingToken claim) "reserved" None
    ∧ attempts_of s !! claim_key claim = None ∧ s' = put_attempt (claim_key claim) attempt s
    ∧ validInvocationRuntimeAttempt claim effect = true
    ∧ is_ok (lockInvocationRuntimeClaim claim (ses_now ses 0) (rs_db s)) = true
    ∧ is_ok (requireWorkspaceCompletion ses claim effect s) = true.
Proof.
  unfold BeginInvocationRuntimeAttempt. intros H. stx_inv H.
  apply reserve_Ok in Hm3 as [Hn ->]; [|done]. destruct (attempt_keys _ _ Hm) as (Ed & Eo & _). cbn in Hn. rewrite Ed, Eo in *.
  eexists. split_and!; [reflexivity|exact Hn|done|done|by rewrite Hm0|by rewrite Hm2].
Qed.

(** The call answers with the row it wrote. *)
Lemma begin_answer ses claim effect s s' a :
  BeginInvocationRuntimeAttempt ses claim effect s = Ok (s', a) →
  a = MkAttempt (c_IsolationDomainID claim) (c_ID claim) (e_EffectID effect) (c_LeaseOwner claim) (c_FencingToken claim) "reserved" None.
Proof.
  intros H. pose proof (begin_spec _ _ _ _ _ _ H) as (attempt & -> & _ & -> & V & _).
  unfold BeginInvocationRuntimeAttempt in H. stx_inv H. destruct (attempt_keys _ _ V) as (Ed & Eo & _). rewrite Ed, Eo in *.
  unfold getInvocationRuntimeAttempt in *. rewrite attempts_put in *.
  match goal with H : context [<[_ := _]> _ !! _] |- _ => rewrite lookup_insert_eq in H; cbn in H end.
  case_decide; naive_solver.
Qed.

Lemma update_outcome_Ok claim effect status value now s s' b :
  update_outcome claim effect status value now s = Ok (s', b) →
  (b = false ∧ s' = s) ∨ (b = true ∧ ∃ row, attempts_of s !! (e_IsolationDomainID effect, e_OperationID effect) = Some row
    ∧ may_finish claim effect status value now row s = true
    ∧ s' = put_attempt (e_IsolationDomainID effect, e_OperationID effect) (with_outcome status value row) s).
Proof.
  unfold update_outcome. intros H. stx_inv H; [|by left]. right. split; [done|].
  apply bind_Some in E as (row & Hr & E). exists row. destruct (may_finish _ _ _ _ _ _ _) eqn:Em; by simplify_eq.
Qed.

Lemma finish_spec ses claim effect status r s s' a :
  finishInvocationRuntimeAttempt ses claim effect status r s = Ok (s', a) →
  validInvocationRuntimeAttempt claim effect = true ∧ (status = "succeeded" ∨ status = "failed")
  ∧ (s' = s ∨ ∃ row value encoded, any_text (AMap r) = Some encoded ∧ jsonb encoded = Some value
       ∧ attempts_of s !! claim_key claim = Some row
       ∧ may_finish claim effect status value (ses_clock ses 0) row s = true
       ∧ s' = put_attempt (claim_key claim) (with_outcome status value row) s
       ∧ (names_artifact r = true → status = "succeeded" ∧ verifyRuntimeArtifactResult claim encoded s = Ok tt)).
Proof.
  unfold finishInvocationRuntimeAttempt. intros H. stx_inv H; to_prop.
  all: destruct (attempt_keys claim effect) as (Ed & Eo & _); [done|].
  all: repeat match goal with
    | H : update_outcome _ _ _ _ _ _ = Ok _ |- _ => apply update_outcome_Ok in H as [[? ->]|(? & row & Hr & Hf & ->)]
    | H : from_option Ok _ _ = Ok _ |- _ => apply from_option_Ok in H
    end; try (split_and!; [done|done|by left]).
  all: rewrite Ed, Eo in *; split_and!; [done|done|right]; exists row; do 2 eexists; split_and!; try eassumption; try done.
  intros _. split; [by apply dec_stable|]. match goal with H : verifyRuntimeArtifactResult _ _ _ = Ok ?u |- _ => destruct u; exact H end.
Qed.

Lemma prepare_spec ses claim effect sequence s s' f :
  PrepareInvocationRuntimeOutputFailure ses claim effect sequence s = Ok (s', f) →
  validInvocationRuntimeAttempt claim effect = true
  ∧ ∃ row value, attempts_of s !! claim_key claim = Some row ∧ may_retain claim effect value (ses_clock ses 0) row s = true
    ∧ s' = put_attempt (claim_key claim) (retained_attempt claim value row) s.
Proof.
  unfold PrepareInvocationRuntimeOutputFailure. intros H. stx_inv H.
  split; [done|]. apply bind_Some in E1 as (row & Hr & E1). exists row. eexists. split_and!; [done| |];
    [|destruct (may_retain _ _ _ _ _ _); simplify_eq; reflexivity].
  by destruct (may_retain _ _ _ _ row _) eqn:Em.
Qed.

(** The database after an event is appended. *)
Definition journaled (target : InvocationRuntimeTarget) (event : InvocationRuntimeEvent) (row : event_row) (now : Z) (d : db) : db :=
  let d := set_events (λ l, l ++ [row]) d in
  match ParseUsageSnapshot (re_Payload event) with
  | Ok usage => if decide (re_Type event = "usage.recorded") then project_usage target usage (re_SourceSequence event) now d else d
  | Err _ => d
  end.

Lemma journaled_runtime target event row now d : db_runtime (journaled target event row now d) = db_runtime d.
Proof. unfold journaled, project_usage. repeat case_match; done. Qed.

Lemma on_db_event what row s s' u :
  on_db (insert_event what row) s = Ok (s', u) → s' = set_db (set_events (λ l, l ++ [row])) s.
Proof.
  unfold on_db. destruct (insert_event _ _ _) as [[d v]|] eqn:E; [|done]. intros [= <- _]. by apply insert_event_Ok in E as ->.
Qed.

Lemma append_spec ses claim target event encoded s s' ev :
  append_runtime_event ses claim target event encoded s = Ok (s', ev) →
  ∃ stored, jsonb encoded = Some stored
    ∧ ev = runtime_event_row target event stored
             (next_sequence (rtg_IsolationDomainID target) (rtg_InvocationID target) (db_events (rs_db s))) (ses_now ses 1)
    ∧ claim_live claim (ses_clock ses 0) (rs_db s) = true ∧ output_frozen claim s = false
    ∧ s' = set_db (journaled target event ev (ses_now ses 1)) s.
Proof.
  unfold append_runtime_event. intros H. stx_inv H.
  all: apply from_option_Ok in Hm; apply on_db_event in Hm1 as ->; to_prop; exists a; split_and!; try done.
  all: unfold journaled; by rewrite E, ?E0.
Qed.

Lemma target_spec dom op d target : getInvocationRuntimeTarget dom op d = Ok target →
  rtg_IsolationDomainID target = dom ∧ rtg_OperationID target = op.
Proof. unfold getInvocationRuntimeTarget. case_match; [|done]. case_decide as D; [done|]. intros [= ->]. split; apply dec_stable; tauto. Qed.

(** The claim holds the lease of a running operation. *)
Definition lease_holder (claim : OperationClaim) (now : Z) (d : db) : Prop :=
  ∃ op, db_invocation_ops d !! claim_key claim = Some op ∧ op_observed_state op = "running"
    ∧ op_lease_owner op = Some (c_LeaseOwner claim) ∧ op_lease_token op = c_FencingToken claim
    ∧ after (op_lease_expires_at op) now = true ∧ (now < op_deadline_at op)%Z.

Lemma lock_spec claim now d inv : lockInvocationRuntimeClaim claim now d = Ok inv →
  lease_holder claim now d ∧ is_Some (db_invocations d !! (c_IsolationDomainID claim, inv)).
Proof.
  unfold lockInvocationRuntimeClaim. destruct (validInvocationRuntimeClaim claim) eqn:V; [|done]. cbn [negb].
  destruct (db_invocation_ops d !! _) as [op|] eqn:Eo; [|done]. destruct (db_invocations d !! _) as [row|] eqn:Er; [|done].
  case_match eqn:G; [|done]. intros [= <-]. unfold claimed_operation, validInvocationRuntimeClaim in *. to_prop.
  split; [|by rewrite Er]. destruct_and!. exists op. split_and!; congruence || done.
Qed.

Lemma record_spec ses claim event s s' ev :
  RecordInvocationRuntimeEvent ses claim event s = Ok (s', ev) →
  ∃ target encoded artifact, any_text (AMap (re_Payload event)) = Some encoded ∧ runtime_event_valid event = true
    ∧ rtg_IsolationDomainID target = c_IsolationDomainID claim
    ∧ lockInvocationRuntimeClaim claim (ses_now ses 0) (rs_db s) = Ok (rtg_InvocationID target)
    ∧ event_artifact (rtg_IsolationDomainID target) (rtg_InvocationID target) (c_ID claim) (re_SourceSequence event)
        (re_Type event) (re_Payload event) s = Ok artifact
    ∧ let known := getInvocationRuntimeEvent (rtg_IsolationDomainID target) (rtg_InvocationID target) (re_SourceSequence event) (rs_db s) in
      (s' = s ∧ known = Some ev ∧ ev_type ev = re_Type event ∧ marshal (ev_payload ev) = encoded)
      ∨ (known = None ∧ append_runtime_event ses claim target event encoded s = Ok (s', ev)).
Proof.
  unfold RecordInvocationRuntimeEvent. intros H. stx_inv H.
  all: repeat match goal with H : from_option Ok _ _ = Ok _ |- _ => apply from_option_Ok in H end; to_prop.
  all: destruct (target_spec _ _ _ _ Hm3) as [Hd _]; apply dec_stable in Hm4; subst a2; exists a3, a1, a5; split_and!; try done.
  - left. split_and!; [done|done|by apply dec_stable..].
  - by right.
Qed.

Definition artifact_key (record : ArtifactRecord) : key := (ar_IsolationDomainID record, ar_ID record).

(** The tables after a binding. *)
Definition bound_store (now : Z) (binding : ArtifactBinding) (s : runtime_store) : runtime_store :=
  let record := ab_Record binding in
  let k := artifact_key record in
  RuntimeStore (set_audit (λ l, l ++ [bind_audit binding now]) (publish_artifact k (ar_InvocationID record) (rs_db s)))
    (<[k := ArtifactRow (ar_InvocationID record) (ar_Name record) (ar_Kind record) (ar_MediaType record) (ar_SizeBytes record)
          (ar_Digest record) "available" (ar_Sensitive record) now (ab_ActorID binding)]> (rs_artifacts s))
    (<[k := ObjectRow record (ab_LeaseOwner binding) (ab_FencingToken binding) (ab_ActorID binding) (ab_CorrelationID binding) now]> (rs_objects s))
    (rs_plans s) (rs_instances s) (rs_preparations s) (rs_completions s).

Lemma find_None dom id s : findInvocationArtifactRecord dom id s = Ok None ↔ rs_objects s !! (dom, id) = None.
Proof.
  unfold findInvocationArtifactRecord. destruct (rs_objects s !! _); [|done].
  destruct (Artifact.NormalizeRecord _); [|done]. by destruct (public_matches _ _).
Qed.

Lemma insert_artifact_spec now binding s s' record :
  insertInvocationArtifact now binding s = Ok (s', record) →
  rs_artifacts s !! artifact_key (ab_Record binding) = None ∧ s' = bound_store now binding s ∧ record = ab_Record binding
  ∧ findInvocationArtifactRecord (ar_IsolationDomainID record) (ar_ID record) s' = Ok (Some record).
Proof.
  unfold insertInvocationArtifact. intros H. stx_inv H. unfold Artifact.EqualRecords in *. to_prop. subst.
  rewrite eq_None_not_Some. done.
Qed.

Lemma bind_spec ses binding s s' record :
  BindInvocationArtifact ses binding s = Ok (s', record) →
  ∃ normalized, Artifact.NormalizeBinding binding = Ok normalized ∧ record = ab_Record normalized
    ∧ ((s' = s ∧ findInvocationArtifactRecord (ar_IsolationDomainID record) (ar_ID record) s = Ok (Some record))
       ∨ (rs_objects s !! artifact_key record = None ∧ rs_artifacts s !! artifact_key record = None
          ∧ artifact_claim normalized (ses_clock ses 0) s = true ∧ s' = bound_store (ses_now ses 0) normalized s
          ∧ findInvocationArtifactRecord (ar_IsolationDomainID record) (ar_ID record) s' = Ok (Some record))).
Proof.
  unfold BindInvocationArtifact. intros H. stx_inv H; exists a; unfold Artifact.EqualRecords in *; to_prop.
  - subst. split_and!; [done|done|by left].
  - apply insert_artifact_spec in H as (Hn & -> & -> & Hf). apply find_None in Hm1. split_and!; [done|done|right]. done.
Qed.

(** * One attempt for each operation

    The life of a runtime attempt under any interleaving of calls: it is begun at most
    once, by the holder of the operation's lease; it ends once; and what ended stays. *)

(** A reserved attempt ends, or freezes the output it found invalid; a frozen one keeps
    that output and fails; one that ended stays as it is. *)
Definition attempt_le (a a' : InvocationRuntimeAttempt) : Prop :=
  a' = a
  ∨ (att_IsolationDomainID a' = att_IsolationDomainID a ∧ att_OperationID a' = att_OperationID a ∧ att_EffectID a' = att_EffectID a
     ∧ is_Some (att_Result a')
     ∧ ((att_Status a = "reserved" ∧ att_Status a' ∈ ["output_invalid"; "succeeded"; "failed"])
        ∨ (att_Status a = "output_invalid" ∧ att_Status a' ∈ ["output_invalid"; "failed"] ∧ att_Result a' = att_Result a))).

#[export] Instance attempt_le_preorder : PreOrder attempt_le.
Proof.
  split; [by left|]. intros a b c [->|(A1 & A2 & A3 & A4 & A5)] [->|(B1 & B2 & B3 & B4 & B5)].
  - by left.
  - right. split_and!; congruence || done.
  - right. split_and!; congruence || done.
  - right. split_and!; try congruence. destruct A5 as [[S1 S2]|(S1 & S2 & S3)], B5 as [[T1 T2]|(T1 & T2 & T3)].
    + rewrite T1 in S2. exfalso. set_solver.
    + left. split; [done|]. set_solver.
    + rewrite T1 in S2. exfalso. set_solver.
    + right. split_and!; [done|done|congruence].
Qed.

(** The new row names the claim it was written under; a reserved attempt is in the hands
    of the claim that reserved it. *)
Definition attempt_change (claim : OperationClaim) (before : option InvocationRuntimeAttempt) (a : InvocationRuntimeAttempt) : Prop :=
  att_LeaseOwner a = c_LeaseOwner claim ∧ att_FencingToken a = c_FencingToken claim
  ∧ match before with
    | None => att_Status a = "reserved"
    | Some b => attempt_le b a
        ∧ (att_Status b = "reserved" → att_LeaseOwner b = c_LeaseOwner claim ∧ att_FencingToken b = c_FencingToken claim)
    end.

Lemma running_holder claim effect now s : validInvocationRuntimeAttempt claim effect = true →
  running_under claim effect now s = true → lease_holder claim now (rs_db s).
Proof.
  unfold running_under. intros (Ed & Eo & _)%attempt_keys H. rewrite Ed, Eo in H.
  destruct (db_invocation_ops _ !! _) as [op|] eqn:E; [|done]. to_prop. destruct_and!. by exists op.
Qed.

Lemma finished_change claim effect status value now row s :
  may_finish claim effect status value now row s = true → status = "succeeded" ∨ status = "failed" →
  validInvocationRuntimeAttempt claim effect = true →
  lease_holder claim now (rs_db s) ∧ attempt_change claim (Some row) (with_outcome status value row).
Proof.
  unfold may_finish. intros H Hst V. rewrite !andb_true_iff, orb_true_iff, andb_true_iff, !bool_decide_eq_true in H.
  destruct H as [[(He & Ho & Ht) Hr] Hs]. split; [by eapply running_holder|]. split; [done|]. split; [done|]. split; [|done].
  right. split_and!; [done..|]. destruct Hs as [Hs|[(Hs & -> & Hres) _]].
  - left. split; [done|]. set_solver.
  - right. split_and!; [done| |done]. set_solver.
Qed.

Lemma retained_change claim effect value now row s :
  may_retain claim effect value now row s = true →
  lease_holder claim now (rs_db s) ∧ attempt_change claim (Some row) (retained_attempt claim value row).
Proof.
  unfold may_retain. intros H. rewrite !andb_true_iff, orb_true_iff, !bool_decide_eq_true in H. destruct H as [[He Hs] Hop]. split.
  - destruct (db_invocation_ops _ !! _) as [op|] eqn:E; [|done]. unfold claimed_operation in Hop. to_prop. destruct_and!. by exists op.
  - split; [done|]. split; [done|]. split; [|intros Hr; destruct Hs as [(_ & ? & ?)|[Hs _]]; [done|congruence]].
    right. split_and!; [done..|]. destruct Hs as [[Hs _]|[Hs Hres]].
    + left. split; [done|]. set_solver.
    + right. split_and!; [done| |done]. set_solver.
Qed.

(** What a runtime call may do to one attempt. *)
Lemma call_attempt ses c s s' k :
  run_runtime ses c s = Ok s' → attempts_of s' !! k = attempts_of s !! k
  ∨ ∃ claim now a, claim_key claim = k ∧ attempts_of s' !! k = Some a ∧ lease_holder claim now (rs_db s)
      ∧ attempt_change claim (attempts_of s !! k) a.
Proof.
  intros H. assert (∀ claim now a, s' = put_attempt (claim_key claim) a s → lease_holder claim now (rs_db s) →
    attempt_change claim (attempts_of s !! claim_key claim) a → attempts_of s' !! k = attempts_of s !! k
    ∨ ∃ claim now a, claim_key claim = k ∧ attempts_of s' !! k = Some a ∧ lease_holder claim now (rs_db s)
        ∧ attempt_change claim (attempts_of s !! k) a) as P.
  { intros claim now a -> L A. destruct (decide (claim_key claim = k)) as [<-|Ne].
    - right. exists claim, now, a. rewrite attempts_put, lookup_insert_eq. done.
    - left. by rewrite attempts_put, lookup_insert_ne. }
  destruct c as [claim effect|claim effect status r|claim effect sequence|claim event|binding]; cbn in H; unfold done_with in H.
  - destruct (BeginInvocationRuntimeAttempt _ _ _ _) as [[s1 a]|] eqn:E; [|done]. simplify_eq.
    apply begin_spec in E as (attempt & -> & Hn & -> & _ & L & _). apply is_ok_true in L as [inv L].
    eapply P; [done|by eapply lock_spec|]. by rewrite Hn.
  - destruct (finishInvocationRuntimeAttempt _ _ _ _ _ _) as [[s1 a]|] eqn:E; [|done]. simplify_eq.
    apply finish_spec in E as (V & Hst & [->|(row & value & encoded & _ & _ & Hr & Hf & -> & _)]); [by left|].
    destruct (finished_change _ _ _ _ _ _ _ Hf Hst V) as [L A]. eapply P; [done|exact L|]. by rewrite Hr.
  - destruct (PrepareInvocationRuntimeOutputFailure _ _ _ _ _) as [[s1 a]|] eqn:E; [|done]. simplify_eq.
    apply prepare_spec in E as (V & row & value & Hr & Hm & ->).
    destruct (retained_change _ _ _ _ _ _ Hm) as [L A]. eapply P; [done|exact L|]. by rewrite Hr.
  - destruct (RecordInvocationRuntimeEvent _ _ _ _) as [[s1 a]|] eqn:E; [|done]. simplify_eq. left.
    apply record_spec in E as (target & encoded & artifact & _ & _ & _ & _ & _ & [(-> & _)|[_ E]]); [done|].
    apply append_spec in E as (stored & _ & _ & _ & _ & ->). unfold attempts_of. cbn. by rewrite journaled_runtime.
  - destruct (BindInvocationArtifact _ _ _) as [[s1 a]|] eqn:E; [|done]. simplify_eq. left.
    by apply bind_spec in E as (n & _ & _ & [[-> _]|(_ & _ & _ & -> & _)]).
Qed.

Section system.
Context `{SchemaEngine}.

Lemma step_attempt w w' k :
  runtime_step w w' → attempts_of (rw_store w') !! k = attempts_of (rw_store w) !! k
  ∨ ∃ claim now a, claim_key claim = k ∧ attempts_of (rw_store w') !! k = Some a ∧ lease_holder claim now (rs_db (rw_store w))
      ∧ attempt_change claim (attempts_of (rw_store w) !! k) a.
Proof.
  intros [ses c s cs s' Hc|s cs d cs' _ Ha|s cs plans instances preparations completions]; cbn.
  - by eapply call_attempt.
  - left. unfold attempts_of in *. cbn. by rewrite Ha.
  - by left.
Qed.

Lemma step_attempt_le w w' k a :
  runtime_step w w' → attempts_of (rw_store w) !! k = Some a →
  ∃ a', attempts_of (rw_store w') !! k = Some a' ∧ attempt_le a a'.
Proof.
  intros S Ha. destruct (step_attempt w w' k S) as [E|(claim & now & a' & _ & Ha' & _ & _ & _ & A)].
  - exists a. rewrite E, Ha. split; reflexivity.
  - rewrite Ha in A. destruct A as [A _]. eauto.
Qed.

Lemma run_attempt_le w w' k a :
  rtc runtime_step w w' → attempts_of (rw_store w) !! k = Some a →
  ∃ a', attempts_of (rw_store w') !! k = Some a' ∧ attempt_le a a'.
Proof.
  intros R. revert a. induction R as [w|w w1 w' S R IH]; intros a Ha; [exists a; split; [done|reflexivity]|].
  destruct (step_attempt_le _ _ _ _ S Ha) as (a1 & H1 & L1). destruct (IH a1 H1) as (a' & H' & L').
  exists a'. split; [done|by etrans].
Qed.

(** Attempts are fenced: a call that changes an attempt is made by the holder of the
    lease of the running operation, and leaves its name and token on it. *)
Lemma runtime_attempt_fenced w w' k :
  runtime_step w w' → attempts_of (rw_store w') !! k ≠ attempts_of (rw_store w) !! k →
  ∃ claim now a, claim_key claim = k ∧ attempts_of (rw_store w') !! k = Some a
    ∧ lease_holder claim now (rs_db (rw_store w)) ∧ attempt_change claim (attempts_of (rw_store w) !! k) a.
Proof. intros S Hne. by destruct (step_attempt w w' k S). Qed.

(** C5: An operation has one attempt.  Once it was begun, whatever calls follow, by any
    workers and in any order, no call begins another: the attempt stays, moves only
    from reserved to an end (through the frozen record of an invalid output, whose
    content never changes again), and one that ended keeps its status and its result.
    Each later change is made by the worker that then holds the lease of the running
    operation, and leaves its name and token on the attempt; a reserved attempt is
    changed only by the very claim that reserved it, so a worker whose lease was taken
    over can no longer end it. *)
Theorem runtime_attempt_once w w' ses claim effect s a :
  BeginInvocationRuntimeAttempt ses claim effect (rw_store w) = Ok (s, a) →
  rtc runtime_step (RuntimeWorld s (rw_claims w)) w' →
  (∃ a', attempts_of (rw_store w') !! claim_key claim = Some a' ∧ attempt_le a a')
  ∧ (∀ ses' claim' effect', claim_key claim' = claim_key claim →
       is_ok (BeginInvocationRuntimeAttempt ses' claim' effect' (rw_store w')) = false)
  ∧ ∀ w'', runtime_step w' w'' → attempts_of (rw_store w'') !! claim_key claim ≠ attempts_of (rw_store w') !! claim_key claim →
      ∃ claim' now a'', claim_key claim' = claim_key claim ∧ attempts_of (rw_store w'') !! claim_key claim = Some a''
        ∧ lease_holder claim' now (rs_db (rw_store w'))
        ∧ attempt_change claim' (attempts_of (rw_store w') !! claim_key claim) a''.
Proof.
  intros Hb R. assert (attempts_of s !! claim_key claim = Some a) as Ha.
  { pose proof (begin_answer _ _ _ _ _ _ Hb) as ->. apply begin_spec in Hb as (attempt & -> & _ & -> & _). by rewrite attempts_put, lookup_insert_eq. }
  destruct (run_attempt_le _ _ _ _ R Ha) as (a' & Ha' & L). split; [by eauto|]. split; [|intros w''; apply runtime_attempt_fenced].
  intros ses' claim' effect' Hk. destruct (BeginInvocationRuntimeAttempt ses' claim' effect' _) as [[s' b]|] eqn:E; [|done].
  apply begin_spec in E as (_ & _ & Hn & _). rewrite Hk in Hn. congruence.
Qed.
End system.
