(* ===== verification/JournalTheorems.v ===== *)
(** * The journal of a run

    What holds of the journal, of the usage shown with an invocation and of the
    references to artifacts in every state that calls can reach, in any order. *)
From stdpp Require Import pretty.
From S2P Require Import Prelude.
From S2P Require Import GoStrings.
From S2P Require Import Sha256.
From S2P Require Import GoJson.
From S2P Require Import Domain.
From S2P Require Import RuntimeTables.
From S2P Require Import Database.
From S2P Require Import OperationStore.
From S2P Require Import Commands.
From S2P Require Import RuntimeInteraction.
From S2P Require Import StoreSpec.
From S2P Require Import StoreSteps.
From S2P Require Import StoreRefinement.
From S2P Require Import InteractionLogs.
From S2P Require Import StoreTheorems.
From S2P Require Import RuntimeOutput.
From S2P Require Import RuntimeDriver.
From S2P Require Import RuntimeReference.
From S2P Require Import RuntimeStore.
From S2P Require Import ArtifactCatalog.
From S2P Require Import RuntimeAttempts.
From S2P Require Import RuntimeSystem.

(** ** Sources *)

Definition event_key (ev : event_row) : key := (ev_isolation_domain_id ev, ev_invocation_id ev).
Definition sources (l : list event_row) : list (key * Z) := omap (λ ev, q ← ev_source ev; Some (event_key ev, q)) l.

Lemma sources_elem l k q : (k, q) ∈ sources l ↔ ∃ ev, ev ∈ l ∧ event_key ev = k ∧ ev_source ev = Some q.
Proof.
  unfold sources. rewrite list_elem_of_omap. split.
  - intros (ev & Hev & (q' & Hq & [= <- <-])%bind_Some). eauto.
  - intros (ev & Hev & <- & Hq). exists ev. split; [done|]. by rewrite Hq.
Qed.

Lemma sources_append l ev : NoDup (sources l) → ev_source ev = None ∨ source_fresh l ev → NoDup (sources (l ++ [ev])).
Proof.
  unfold sources. rewrite omap_app. intros N H. cbn. destruct (ev_source ev) as [q|] eqn:E; cbn; [|by rewrite app_nil_r].
  destruct H as [?|H]; [done|]. apply NoDup_app. split_and!; [done| |apply NoDup_singleton].
  intros [k q'] Hin [= -> ->]%list_elem_of_singleton. apply sources_elem in Hin as (ev' & Hev' & Hk & Hq).
  injection Hk as Hd Hi. apply (H ev' Hev' Hd Hi). congruence.
Qed.

(** ** Usage *)

(** The payload that the journal keeps as [v]. *)
Definition recorded (p : payload) (v : json) : Prop := ∃ encoded, any_text (AMap p) = Some encoded ∧ jsonb encoded = Some v.

Definition usage_event (k : key) (q : Z) (ev : event_row) : Prop :=
  event_key ev = k ∧ ev_type ev = "usage.recorded" ∧ ev_source ev = Some q.

(** The usage shown with an invocation is that of its last snapshot, by source. *)
Definition latest_usage (k : key) (l : list event_row) (shown : option Usage) : Prop :=
  match shown with
  | None => ∀ ev q, ev ∈ l → ¬ usage_event k q ev
  | Some u => ∃ ev q p, ev ∈ l ∧ usage_event k q ev ∧ recorded p (ev_payload ev) ∧ ParseUsageSnapshot p = Ok u
      ∧ ∀ ev' q', ev' ∈ l → usage_event k q' ev' → (q' ≤ q)%Z
  end.

Lemma latest_usage_append k l ev shown :
  (∀ q, ¬ usage_event k q ev) → latest_usage k l shown → latest_usage k (l ++ [ev]) shown.
Proof.
  intros Hne. destruct shown as [u|]; cbn.
  - intros (e & q & p & He & Hu & Hr & Hp & Hmax). exists e, q, p. split_and!; [set_solver|done..|].
    intros e' q' [He'| ->%list_elem_of_singleton]%elem_of_app Hu'; [by eapply Hmax|by destruct (Hne q')].
  - intros H e q [He| ->%list_elem_of_singleton]%elem_of_app; [by apply H|apply Hne].
Qed.

Lemma has_prefix_interaction : has_prefix "usage.recorded" "interaction." = false.
Proof. vm_compute. reflexivity. Qed.

Lemma event_append_prefix l l' : rtc event_append l l' → l `prefix_of` l'.
Proof. induction 1 as [|l l1 l' (ev & -> & _) _ IH]; [done|]. etrans; [|exact IH]. by eexists. Qed.

Lemma control_append l l' :
  rtc event_append l l' → (∀ k shown, latest_usage k l shown → latest_usage k l' shown)
  ∧ (NoDup (sources l) → NoDup (sources l')) ∧ (event_log_ok l → event_log_ok l')
  ∧ ∀ ev, ev ∈ l' → ev ∈ l ∨ ev_source ev = None ∨ has_prefix (ev_type ev) "interaction." = true.
Proof.
  induction 1 as [l|l l1 l' (ev & -> & Hs & Hsrc) _ (IH1 & IH2 & IH3 & IH4)]; [split_and!; auto|].
  assert (ev_source ev = None ∨ has_prefix (ev_type ev) "interaction." = true) as Hsrc' by naive_solver. split_and!.
  - intros k shown Hl. apply IH1, latest_usage_append; [|done]. intros q (_ & Ht & Hq).
    destruct Hsrc' as [?|Hp]; [congruence|]. rewrite Ht, has_prefix_interaction in Hp. done.
  - intros N. apply IH2, sources_append; [done|]. naive_solver.
  - intros OK. by apply IH3, append_contiguous.
  - intros e He. destruct (IH4 e He) as [[?| ->%list_elem_of_singleton]%elem_of_app|?]; auto.
Qed.

(** Control-plane calls keep the usage of an invocation, and start without one. *)
Definition usage_kept (m m' : gmap key invocation_row) : Prop :=
  (∀ k, is_Some (m !! k) → is_Some (m' !! k))
  ∧ ∀ k inv', m' !! k = Some inv' → match m !! k with Some inv => inv_usage inv' = inv_usage inv | None => inv_usage inv' = None end.

Lemma usage_kept_refl m : usage_kept m m.
Proof. split; [done|]. intros k inv' H. by rewrite H. Qed.

Lemma usage_kept_trans m1 m2 m3 : usage_kept m1 m2 → usage_kept m2 m3 → usage_kept m1 m3.
Proof.
  intros [A1 A2] [B1 B2]. split; [auto|]. intros k inv' H. pose proof (B2 k inv' H) as HB. specialize (A2 k).
  destruct (m2 !! k) as [i2|] eqn:E2; [specialize (A2 i2 eq_refl); revert A2; destruct (m1 !! k); congruence|].
  destruct (m1 !! k) as [i1|] eqn:E1; [|done]. destruct (A1 k) as [? ?]; [by rewrite E1|congruence].
Qed.

Lemma usage_kept_insert m k inv : match m !! k with Some old => inv_usage inv = inv_usage old | None => inv_usage inv = None end →
  usage_kept m (<[k := inv]> m).
Proof.
  intros H. split; [intros k' [? ?]; apply lookup_insert_is_Some'; right; by eexists|]. intros k' inv' [[<- <-]|[Hne Hk']]%lookup_insert_Some; [done|].
  by rewrite Hk'.
Qed.

Lemma abs_step_usage C C' : abs_step C C' → usage_kept (k_invocations C) (k_invocations C').
Proof.
  destruct 1; try (destruct t); cbn; try apply usage_kept_refl.
  - case_decide; cbn; apply usage_kept_refl.
  - apply usage_kept_insert. by rewrite H0.
  - apply usage_kept_insert. by rewrite H.
  - apply usage_kept_insert. by rewrite H0.
Qed.

(** ** A new snapshot *)

Section snapshot.
Context (k : key) (l : list event_row) (row : event_row) (q0 : Z) (p0 : payload) (u : Usage).
Context (Hrow : usage_event k q0 row) (Hrec : recorded p0 (ev_payload row)) (Hu : ParseUsageSnapshot p0 = Ok u).

Lemma usage_event_source q : usage_event k q row → q = q0.
Proof. destruct Hrow as (_ & _ & H1). intros (_ & _ & H2). congruence. Qed.

Lemma snapshot_last : (∀ ev q, ev ∈ l → usage_event k q ev → (q ≤ q0)%Z) → latest_usage k (l ++ [row]) (Some u).
Proof.
  intros Hmax. exists row, q0, p0. split_and!; [set_solver|done..|].
  intros ev q [He| ->%list_elem_of_singleton]%elem_of_app Hq; [by eapply Hmax|]. by rewrite (usage_event_source q Hq).
Qed.

Lemma snapshot_late shown : latest_usage k l shown → (∃ ev q, ev ∈ l ∧ usage_event k q ev ∧ (q0 < q)%Z) → latest_usage k (l ++ [row]) shown.
Proof.
  intros Hl (ev & q & He & Hq & Hlt). destruct shown as [v|]; [|by destruct (Hl ev q He)].
  destruct Hl as (e & qm & p & He' & Hqm & Hr & Hp & Hmax). exists e, qm, p. split_and!; [set_solver|done..|].
  intros ev' q' [Hin| ->%list_elem_of_singleton]%elem_of_app Hq'; [by eapply Hmax|].
  rewrite (usage_event_source q' Hq'). specialize (Hmax ev q He Hq). lia.
Qed.

Lemma snapshot_same : latest_usage k l (Some u) → latest_usage k (l ++ [row]) (Some u).
Proof.
  intros Hl. pose proof Hl as (e & qm & p & He & Hqm & Hr & Hp & Hmax). destruct (Z.le_gt_cases qm q0) as [Hle|Hgt].
  - apply snapshot_last. intros ev q Hin Hq. specialize (Hmax ev q Hin Hq). lia.
  - apply snapshot_late; [done|]. eauto.
Qed.
End snapshot.

Lemma some_event_iff dom inv P d :
  some_event dom inv P d = true ↔ ∃ ev q, ev ∈ db_events d ∧ event_key ev = (dom, inv) ∧ ev_source ev = Some q ∧ P (ev_type ev) (ev_payload ev) q = true.
Proof.
  unfold some_event. rewrite existsb_exists. setoid_rewrite <- list_elem_of_In. unfold runtime_event, event_key. split.
  - intros (ev & Hin & H). to_prop. destruct (ev_source ev) as [q|] eqn:E; [|done]. exists ev, q. destruct_and!. by subst.
  - intros (ev & q & Hin & [= Hd Hi] & Hq & HP). exists ev. split; [done|]. rewrite Hq, HP. by rewrite bool_decide_true.
Qed.

Lemma journaled_events target event row now d : db_events (journaled target event row now d) = db_events d ++ [row].
Proof. unfold journaled, project_usage. repeat case_match; done. Qed.

Lemma valid_usage event : runtime_event_valid event = true → re_Type event = "usage.recorded" → is_ok (ParseUsageSnapshot (re_Payload event)) = true.
Proof.
  unfold runtime_event_valid. intros H E. rewrite E, !andb_true_iff in H. destruct H as [[[_ H] _] _].
  rewrite bool_decide_true in H by done. exact H.
Qed.

Definition usage_ok (d : db) : Prop := ∀ k inv, db_invocations d !! k = Some inv → latest_usage k (db_events d) (inv_usage inv).

Lemma journaled_usage target event stored sequence now d :
  let row := runtime_event_row target event stored sequence now in
  recorded (re_Payload event) stored → runtime_event_valid event = true → usage_ok d → usage_ok (journaled target event row now d).
Proof.
  intros row Hrec Hv OK k inv. rewrite journaled_events. unfold journaled.
  set (k0 := (rtg_IsolationDomainID target, rtg_InvocationID target)).
  assert (re_Type event ≠ "usage.recorded" ∨ k ≠ k0 → ∀ q, ¬ usage_event k q row) as Hother.
  { intros [Ht|Hk] q (Hkey & Hty & _); cbn in Hkey, Hty; [done|]. by apply Hk. }
  destruct (decide (re_Type event = "usage.recorded")) as [Ht|Ht].
  2:{ intros Hinv. apply latest_usage_append; [by auto|]. apply OK. revert Hinv. by destruct (ParseUsageSnapshot _). }
  destruct (ParseUsageSnapshot _) as [u|] eqn:Eu; [|pose proof (valid_usage _ Hv Ht) as Hbad; by rewrite Eu in Hbad].
  assert (usage_event k0 (re_SourceSequence event) row) as Hrow by done.
  unfold project_usage. fold k0. cbn [db_invocations set_events]. intros Hinv.
  destruct (decide (k = k0)) as [->|Hne].
  2:{ apply latest_usage_append; [by auto|]. apply OK. revert Hinv. repeat case_match; try done. cbn. by rewrite lookup_insert_ne. }
  destruct (db_invocations d !! k0) as [inv0|] eqn:E0; [|cbn in Hinv; congruence]. pose proof (OK _ _ E0) as Hl.
  case_decide as Hsame; [cbn in Hinv; simplify_eq; rewrite Hsame in *; by eapply snapshot_same|].
  case_match eqn:Hlater.
  - cbn in Hinv. simplify_eq. eapply snapshot_late; [done..|]. apply some_event_iff in Hlater as (ev & q & Hin & Hk & Hq & HP).
    apply bool_decide_eq_true in HP as [Hty Hlt]. cbn in Hin. apply elem_of_app in Hin as [Hin| ->%list_elem_of_singleton].
    + exists ev, q. done.
    + exfalso. cbn in Hq. simplify_eq. lia.
  - cbn in Hinv. rewrite lookup_insert_eq in Hinv. simplify_eq. cbn. eapply snapshot_last; [done..|].
    intros ev q Hin Hq. destruct (Z.le_gt_cases q (re_SourceSequence event)) as [?|Hgt]; [done|]. exfalso.
    apply not_true_iff_false in Hlater. apply Hlater, some_event_iff. exists ev, q. destruct Hq as (Hk & Hty & Hs).
    split_and!; [cbn; set_solver|done|done|]. apply bool_decide_eq_true. done.
Qed.

(** ** References *)

Definition reference_types : list string :=
  [MessageArtifactEvent; ToolArtifactEvent; PlanArtifactEvent; ImageArtifactEvent; PatchArtifactEvent; CommandArtifactEvent].

(** The event refers to an artifact of its run that the catalog holds. *)
Definition reference_bound (s : runtime_store) (ev : event_row) : Prop :=
  ∀ q, ev_source ev = Some q → ev_type ev ∈ reference_types →
  ∃ p operation record, recorded p (ev_payload ev)
    ∧ event_artifact (ev_isolation_domain_id ev) (ev_invocation_id ev) operation q (ev_type ev) p s = Ok (Some record).

Lemma reference_types_interaction type : type ∈ reference_types → has_prefix type "interaction." = false.
Proof.
  intros H. assert (Forall (λ t, has_prefix t "interaction." = false) reference_types) as F by (repeat constructor).
  by apply (proj1 (Forall_forall _ _) F).
Qed.

Lemma event_artifact_some dom inv op q type p s a :
  type ∈ reference_types → event_artifact dom inv op q type p s = Ok a → is_Some a.
Proof.
  unfold event_artifact, reference_types. intros Ht H. repeat case_decide; try (exfalso; set_solver).
  all: repeat (apply result_bind_Ok in H as (? & _ & H)); injection H as <-; eauto.
Qed.

(** Bindings stay. *)
Definition catalog_le (s s' : runtime_store) : Prop := ∀ dom id record,
  findInvocationArtifactRecord dom id s = Ok (Some record) → findInvocationArtifactRecord dom id s' = Ok (Some record).

Lemma getRuntimeArtifact_le s s' namespace name kind media dom inv op q id digest size record :
  catalog_le s s' → getRuntimeArtifact namespace name kind media dom inv op q id digest size s = Ok record →
  getRuntimeArtifact namespace name kind media dom inv op q id digest size s' = Ok record.
Proof.
  unfold getRuntimeArtifact. intros L. case_decide as D; [done|]. intros (found & Hf & H)%result_bind_Ok.
  destruct found as [r|]; [|done]. rewrite (L _ _ _ Hf). exact H.
Qed.

Lemma event_artifact_le s s' dom inv op q type p a :
  catalog_le s s' → event_artifact dom inv op q type p s = Ok a → event_artifact dom inv op q type p s' = Ok a.
Proof.
  intros L. unfold event_artifact. repeat case_decide; try done.
  all: intros (r & -> & (record & Hg & [= <-])%result_bind_Ok)%result_bind_Ok; cbn.
  all: unfold getRuntimeMessageArtifact, getRuntimeToolArtifact, getRuntimePlanArtifact, getRuntimeImageArtifact,
         getRuntimePatchArtifact, getRuntimeCommandArtifact in *; by rewrite (getRuntimeArtifact_le _ _ _ _ _ _ _ _ _ _ _ _ _ _ L Hg).
Qed.

Lemma reference_bound_le s s' ev : catalog_le s s' → reference_bound s ev → reference_bound s' ev.
Proof.
  intros L H q Hq Ht. destruct (H q Hq Ht) as (p & op & record & Hp & Ha). exists p, op, record. split; [done|by eapply event_artifact_le].
Qed.

Lemma catalog_same s s' : rs_objects s' = rs_objects s → rs_artifacts s' = rs_artifacts s → catalog_le s s'.
Proof. unfold catalog_le, findInvocationArtifactRecord, public_matches. by intros -> ->. Qed.

Lemma public_matches_insert k row record s s' :
  rs_artifacts s !! k = None → rs_artifacts s' = <[k := row]> (rs_artifacts s) → public_matches record s = true → public_matches record s' = true.
Proof.
  unfold public_matches. intros Hn -> H. rewrite lookup_insert_ne; [done|]. intros ->. by rewrite Hn in H.
Qed.

Lemma catalog_bound now binding s :
  rs_objects s !! artifact_key (ab_Record binding) = None → rs_artifacts s !! artifact_key (ab_Record binding) = None →
  catalog_le s (bound_store now binding s).
Proof.
  intros Ho Ha dom id record. unfold findInvocationArtifactRecord. cbn [rs_objects bound_store].
  destruct (rs_objects s !! (dom, id)) as [row|] eqn:E; [|done].
  rewrite lookup_insert_ne by congruence. rewrite E. destruct (Artifact.NormalizeRecord _) as [n|]; [|done].
  destruct (public_matches (ob_record row) s) eqn:Ep; [|done]. by rewrite (public_matches_insert _ _ _ s (bound_store now binding s) Ha eq_refl Ep).
Qed.

(** ** The invariant *)

Record journal_ok (w : runtime_world) : Prop := JournalOk {
  jo_claims : Forall (claim_ok (rs_db (rw_store w))) (rw_claims w);
  jo_log : event_log_ok (db_events (rs_db (rw_store w)));
  jo_sources : NoDup (sources (db_events (rs_db (rw_store w))));
  jo_known : ∀ ev, ev ∈ db_events (rs_db (rw_store w)) → is_Some (ev_source ev) → ev_type ev = "usage.recorded" →
    is_Some (db_invocations (rs_db (rw_store w)) !! event_key ev);
  jo_usage : usage_ok (rs_db (rw_store w));
  jo_references : Forall (reference_bound (rw_store w)) (db_events (rs_db (rw_store w))) }.

(** What no call undoes: events, bindings, and which resource an operation is for. *)
Definition journal_le (s s' : runtime_store) : Prop :=
  db_events (rs_db s) `prefix_of` db_events (rs_db s') ∧ ops_le (rs_db s) (rs_db s') ∧ catalog_le s s'.

#[export] Instance journal_le_preorder : PreOrder journal_le.
Proof.
  split; [intros s; split_and!; [done|reflexivity|by intros dom id]|].
  intros a b c (A1 & A2 & A3) (B1 & B2 & B3). split_and!; [by etrans|by etrans|]. intros dom id record H. by apply B3, A3.
Qed.

(** Calls that leave the journal and the invocations alone. *)
Lemma journal_quiet s s' cs :
  db_events (rs_db s') = db_events (rs_db s) → db_invocations (rs_db s') = db_invocations (rs_db s) →
  ops_le (rs_db s) (rs_db s') → catalog_le s s' → journal_ok (RuntimeWorld s cs) → journal_ok (RuntimeWorld s' cs) ∧ journal_le s s'.
Proof.
  intros He Hi Ho Hc [J1 J2 J3 J4 J5 J6]. cbn in *. split; [|split_and!; [by rewrite He|done..]].
  split; cbn; unfold usage_ok in *; rewrite ?He, ?Hi; try done.
  - eapply Forall_impl; [exact J1|]. intros c. by apply claim_ok_le.
  - eapply Forall_impl; [exact J6|]. intros ev. by apply reference_bound_le.
Qed.

Lemma journal_put k a s cs : journal_ok (RuntimeWorld s cs) →
  journal_ok (RuntimeWorld (put_attempt k a s) cs) ∧ journal_le s (put_attempt k a s).
Proof. apply journal_quiet; [done|done| |by apply catalog_same]. by apply ops_le_same; intros []. Qed.

(** *** A new event *)

Lemma journaled_ops target event row now d t : ops_of t (journaled target event row now d) = ops_of t d.
Proof. unfold journaled, project_usage. destruct t; repeat case_match; done. Qed.

Lemma journaled_known target event row now d k :
  is_Some (db_invocations d !! k) → is_Some (db_invocations (journaled target event row now d) !! k).
Proof. unfold journaled, project_usage. repeat case_match; cbn; intros; try done; apply lookup_insert_is_Some'; by right. Qed.

Lemma record_journal ses claim event s s' ev cs :
  RecordInvocationRuntimeEvent ses claim event s = Ok (s', ev) → journal_ok (RuntimeWorld s cs) →
  journal_ok (RuntimeWorld s' cs) ∧ journal_le s s'.
Proof.
  intros (target & encoded & artifact & Henc & Hv & Hd & Hlock & Hart & Hcase)%record_spec J.
  destruct Hcase as [(-> & _)|[Hnew Happ]]; [split; [done|reflexivity]|].
  apply append_spec in Happ as (stored & Hst & -> & _ & _ & ->). set (row := runtime_event_row _ _ _ _ _).
  assert (catalog_le s (set_db (journaled target event row (ses_now ses 1)) s)) as Hcat by by apply catalog_same.
  assert (ops_le (rs_db s) (journaled target event row (ses_now ses 1) (rs_db s))) as Hops by (apply ops_le_same, journaled_ops).
  split; [|split_and!; [cbn; rewrite journaled_events; by eexists|done..]].
  destruct J as [J1 J2 J3 J4 J5 J6]. cbn in *. split; cbn; rewrite ?journaled_events.
  - eapply Forall_impl; [exact J1|]. intros c. by apply claim_ok_le.
  - by apply append_contiguous.
  - apply sources_append; [done|]. right. intros ev' He Hd' Hi'. by eapply getInvocationRuntimeEvent_None.
  - intros ev [He| ->%list_elem_of_singleton]%elem_of_app Hs Ht; apply journaled_known; [by apply J4|].
    change (event_key row) with (rtg_IsolationDomainID target, rtg_InvocationID target). rewrite Hd. by apply lock_spec in Hlock as [_ ?].
  - apply journaled_usage; [by exists encoded|done|done].
  - apply Forall_app. split; [eapply Forall_impl; [exact J6|]; intros ev; by apply reference_bound_le|]. apply Forall_singleton.
    intros q Hq Ht. injection Hq as <-. destruct (event_artifact_some _ _ _ _ _ _ _ _ Ht Hart) as [record ->].
    exists (re_Payload event), (c_ID claim), record. split; [by exists encoded|]. by eapply event_artifact_le.
Qed.

(** *** Any other call *)

Lemma bind_journal ses binding s s' record cs :
  BindInvocationArtifact ses binding s = Ok (s', record) → journal_ok (RuntimeWorld s cs) →
  journal_ok (RuntimeWorld s' cs) ∧ journal_le s s'.
Proof.
  intros (n & _ & -> & [[-> _]|(Ho & Ha & _ & -> & _)])%bind_spec; [split; [done|reflexivity]|].
  apply journal_quiet; [done|done| |by apply catalog_bound]. by apply ops_le_same; intros [].
Qed.

Lemma call_journal ses c s s' cs : run_runtime ses c s = Ok s' → journal_ok (RuntimeWorld s cs) →
  journal_ok (RuntimeWorld s' cs) ∧ journal_le s s'.
Proof.
  unfold run_runtime, done_with. intros H J. destruct c.
  - destruct (BeginInvocationRuntimeAttempt _ _ _ _) as [[s1 a]|] eqn:E; [|done]. simplify_eq.
    apply begin_spec in E as (attempt & _ & _ & -> & _). by apply journal_put.
  - destruct (finishInvocationRuntimeAttempt _ _ _ _ _ _) as [[s1 a]|] eqn:E; [|done]. simplify_eq.
    apply finish_spec in E as (_ & _ & [->|(row & value & encoded & _ & _ & _ & _ & -> & _)]); [split; [done|reflexivity]|by apply journal_put].
  - destruct (PrepareInvocationRuntimeOutputFailure _ _ _ _ _) as [[s1 a]|] eqn:E; [|done]. simplify_eq.
    apply prepare_spec in E as (_ & row & value & _ & _ & ->). by apply journal_put.
  - destruct (RecordInvocationRuntimeEvent _ _ _ _) as [[s1 a]|] eqn:E; [|done]. simplify_eq. by eapply record_journal.
  - destruct (BindInvocationArtifact _ _ _) as [[s1 a]|] eqn:E; [|done]. simplify_eq. by eapply bind_journal.
Qed.

(** ** All calls *)

Section system.
Context `{SchemaEngine}.

Lemma run_usage C C' : rtc abs_step C C' → usage_kept (k_invocations C) (k_invocations C').
Proof. induction 1; [apply usage_kept_refl|]. eapply usage_kept_trans; [by apply abs_step_usage|done]. Qed.

Lemma control_journal s cs d cs' :
  world_step (World (rs_db s) cs) (World d cs') → journal_ok (RuntimeWorld s cs) →
  journal_ok (RuntimeWorld (set_db (λ _, d) s) cs') ∧ journal_le s (set_db (λ _, d) s).
Proof.
  intros S [J1 J2 J3 J4 J5 J6]. cbn in *. destruct (world_step_sim _ _ S J1) as (Habs & Hops & Hcs).
  pose proof (log_events _ _ (world_step_logs _ _ S)) as Hev. destruct (run_usage _ _ Habs) as [Hk Hu]. cbn in *.
  destruct (control_append _ _ Hev) as (Hlatest & Hsrc & Hlog & Hold).
  assert (catalog_le s (set_db (λ _, d) s)) as Hcat by by apply catalog_same.
  split; [|split_and!; [by apply event_append_prefix|done..]]. split; cbn; auto.
  - intros ev He Hs Ht. destruct (Hold ev He) as [Hin|[Hn|Hp]]; [by apply Hk, J4|by rewrite Hn in Hs; destruct Hs|].
    by rewrite Ht, has_prefix_interaction in Hp.
  - intros k inv Hinv. specialize (Hu k inv Hinv). destruct (db_invocations (rs_db s) !! k) as [old|] eqn:E.
    + rewrite Hu. by apply Hlatest, J5.
    + rewrite Hu. apply Hlatest. intros ev q He (<- & Ht & Hq). destruct (J4 ev He) as [? ?]; [by rewrite Hq|done|congruence].
  - rewrite Forall_forall in J6 |- *. intros ev He. destruct (Hold ev He) as [Hin|Hnew]; [by eapply reference_bound_le, J6|].
    intros q Hq Ht. destruct Hnew as [Hn|Hp]; [congruence|]. by rewrite reference_types_interaction in Hp.
Qed.

Lemma step_journal w w' : runtime_step w w' → journal_ok w → journal_ok w' ∧ journal_le (rw_store w) (rw_store w').
Proof.
  intros [ses c s cs s' Hc|s cs d cs' S _|s cs plans instances preparations completions] J.
  - by eapply call_journal.
  - by eapply control_journal.
  - apply journal_quiet; [done|done|reflexivity|by apply catalog_same|done].
Qed.

Lemma run_journal w w' : rtc runtime_step w w' → journal_ok w → journal_ok w' ∧ journal_le (rw_store w) (rw_store w').
Proof.
  induction 1 as [w|w w1 w' S _ IH]; intros J; [split; [done|reflexivity]|].
  destruct (step_journal _ _ S J) as [J1 L1]. destruct (IH J1) as [J2 L2]. split; [done|by etrans].
Qed.

Lemma initial_journal : journal_ok initial_runtime.
Proof. split; cbn; try (constructor || done); intros ?; set_solver. Qed.

(** C8: The journal of a run is consistent.  In every state that calls can reach, by any
    workers and in any order, the events of an invocation carry the sequence numbers
    1, 2, 3, ...; no source number occurs twice; the usage shown with an invocation is
    that of its last snapshot, by source number; and every event that stands for an
    output refers to an artifact that the catalog holds, bound to the same invocation,
    with the digest and the size that the event names. *)
Theorem runtime_journal_consistent w :
  rtc runtime_step initial_runtime w →
  let d := rs_db (rw_store w) in
  event_log_ok (db_events d) ∧ NoDup (sources (db_events d))
  ∧ (∀ k inv, db_invocations d !! k = Some inv → latest_usage k (db_events d) (inv_usage inv))
  ∧ Forall (reference_bound (rw_store w)) (db_events d).
Proof. intros R. destruct (run_journal _ _ R initial_journal) as [[_ J2 J3 _ J5 J6] _]. done. Qed.

(** *** Recording again *)

Lemma find_event_prefix dom inv q d d' ev :
  db_events d `prefix_of` db_events d' → getInvocationRuntimeEvent dom inv q d = Some ev → getInvocationRuntimeEvent dom inv q d' = Some ev.
Proof.
  unfold getInvocationRuntimeEvent. intros [l ->] ([n e] & Hf & [= ->])%bind_Some. by rewrite (list_find_app_l _ _ _ _ _ Hf).
Qed.

Lemma lock_clocks_same claim claim' now now' d d' inv inv' :
  ops_le d d' → claim_key claim' = claim_key claim →
  lockInvocationRuntimeClaim claim now d = Ok inv → lockInvocationRuntimeClaim claim' now' d' = Ok inv' → inv' = inv.
Proof.
  unfold lockInvocationRuntimeClaim. intros L ->. repeat (case_match; try done). intros [= <-] [= <-].
  destruct (L InvocationOps (claim_key claim) o) as (row & Hr & Hle); [done|]. cbn in Hr. destruct Hle as [Hle _]. congruence.
Qed.

Lemma recorded_found ses claim event s s' ev :
  RecordInvocationRuntimeEvent ses claim event s = Ok (s', ev) →
  ∃ inv, lockInvocationRuntimeClaim claim (ses_now ses 0) (rs_db s) = Ok inv
    ∧ getInvocationRuntimeEvent (c_IsolationDomainID claim) inv (re_SourceSequence event) (rs_db s') = Some ev
    ∧ ev_type ev = re_Type event.
Proof.
  intros (target & encoded & artifact & _ & _ & Hd & Hlock & _ & Hcase)%record_spec. exists (rtg_InvocationID target). split; [done|].
  rewrite <- Hd. destruct Hcase as [(-> & -> & Ht & _)|[Hnew Happ]]; [done|]. apply append_spec in Happ as (stored & _ & -> & _ & _ & ->).
  split; [|done]. unfold getInvocationRuntimeEvent in *. cbn. rewrite journaled_events.
  destruct (list_find _ (db_events (rs_db s))) as [[n e]|] eqn:E; [done|]. rewrite list_find_app_r by done. cbn. by rewrite decide_True.
Qed.

(** C22: Recording is idempotent, whatever happens in between.  Once an event is in the
    journal, a later call for the same source number, by whichever worker holds the
    operation then, adds nothing: it is refused, or it is for an event of the same type
    and answers with the row written first, and the store stays as it is. *)
Theorem runtime_event_once w ses claim event s ev w' ses' claim' event' s' ev' :
  rtc runtime_step initial_runtime w →
  RecordInvocationRuntimeEvent ses claim event (rw_store w) = Ok (s, ev) →
  rtc runtime_step (RuntimeWorld s (rw_claims w)) w' →
  claim_key claim' = claim_key claim → re_SourceSequence event' = re_SourceSequence event →
  RecordInvocationRuntimeEvent ses' claim' event' (rw_store w') = Ok (s', ev') →
  s' = rw_store w' ∧ ev' = ev ∧ re_Type event' = re_Type event
  ∧ any_text (AMap (re_Payload event')) = Some (marshal (ev_payload ev)).
Proof.
  intros R H1 Run Hk Hq H2. destruct (run_journal _ _ R initial_journal) as [J _].
  assert (journal_ok (RuntimeWorld s (rw_claims w)) ∧ journal_le (rw_store w) s) as [J1 (_ & L1 & _)].
  { eapply record_journal; [exact H1|]. by destruct w. }
  destruct (run_journal _ _ Run J1) as [_ (Lp & Lo & _)]. cbn in Lp, Lo.
  destruct (recorded_found _ _ _ _ _ _ H1) as (inv & Hl & Hf & Ht).
  apply record_spec in H2 as (target & encoded & artifact & Henc & _ & Hd & Hlock & _ & Hcase).
  assert (rtg_InvocationID target = inv) as Hi by (eapply lock_clocks_same; [|exact Hk|exact Hl|exact Hlock]; by etrans).
  injection Hk as Hdom _. apply (find_event_prefix _ _ _ _ _ _ Lp) in Hf.
  rewrite Hi, Hd, Hdom, Hq, Hf in Hcase. destruct Hcase as [(-> & [= ->] & Ht' & Hm)|[? _]]; [|done].
  rewrite Henc, Hm. split_and!; congruence.
Qed.
End system.
