(* ===== verification/RuntimeStoreExamples.v ===== *)
(** * A concrete run of an attempt

    An invocation is started and runs; its worker begins the attempt, records usage
    twice, keeps the answer as an artifact, records the reference to it and completes.
    The witnesses of [RuntimeSystem] and [JournalTheorems] are evaluated on it. *)
From stdpp Require Import pretty.
From S2P Require Import Prelude.
From S2P Require Import GoStrings.
From S2P Require Import Sha256.
From S2P Require Import GoJson.
From S2P Require Import Domain.
From S2P Require Import RuntimeTables.
From S2P Require Import Database.
From S2P Require Import OperationStore.
From S2P Require Import Commands.
From S2P Require Import RuntimeInteraction.
From S2P Require Import StoreSteps.
From S2P Require Import StoreExamples.
From S2P Require Import StoreTheorems.
From S2P Require Import ApprovalProofs.
From S2P Require Import ApprovalExamples.
From S2P Require Import RuntimeOutput.
From S2P Require Import RuntimeDriver.
From S2P Require Import RuntimeReference.
From S2P Require Import RuntimeStore.
From S2P Require Import ArtifactCatalog.
From S2P Require Import RuntimeAttempts.
From S2P Require Import RuntimeSystem.
From S2P Require Import JournalTheorems.

#[local] Instance any_schemas : SchemaEngine := {| schema_compiles := λ _, true; schema_accepts := λ _ _, true |}.

#[local] Instance attempt_eq_dec : EqDecision InvocationRuntimeAttempt.
Proof. solve_decision. Defined.

(** ** Runs *)

Inductive action :=
  | Control (h : happening)
  | Runtime (t : Z) (c : OperationClaim → db → runtime_call).

Definition act (a : action) (w : runtime_world) : option runtime_world :=
  let 'RuntimeWorld s cs := w in
  let control := World (rs_db s) cs in
  match a with
  | Control h =>
      match h, cs with Prepare _ _, [] => None | _, _ =>
      '(World d cs') ← happens h control;
      if decide (rt_attempts (db_runtime d) = attempts_of s) then Some (RuntimeWorld (set_db (λ _, d) s) cs') else None
      end
  | Runtime t c =>
      match run_runtime (at_time t) (c (newest control) (rs_db s)) s with Ok s' => Some (RuntimeWorld s' cs) | Err _ => None end
  end.

Lemma happens_world_step h w w' :
  (w_claims w ≠ [] ∨ match h with Prepare _ _ => False | _ => True end) → happens h w = Some w' → world_step w w'.
Proof.
  intros Hc H. destruct h as [a|e phase|e phase status| |s x].
  5:{ cbn in H. destruct (run_interaction _ _ _) eqn:E; [|done]. injection H as <-. destruct w. by eapply step_interaction. }
  all: apply (happens_step 0 0) in H; [|done|exact I|done].
  all: by inversion H; subst; [eapply step_interaction|].
Qed.

Lemma act_step a w w' : act a w = Some w' → runtime_step w w'.
Proof.
  destruct w as [s cs], a as [h|t c]; cbn [act].
  - intros H. assert ((w_claims (World (rs_db s) cs) ≠ [] ∨ match h with Prepare _ _ => False | _ => True end)
      ∧ ('(World d cs') ← happens h (World (rs_db s) cs);
         if decide (rt_attempts (db_runtime d) = attempts_of s) then Some (RuntimeWorld (set_db (λ _, d) s) cs') else None) = Some w')
      as [Hc (w1 & Hw & H')%bind_Some] by (destruct h, cs; auto; done).
    destruct w1 as [d cs']. case_decide as D; [|done]. injection H' as <-. apply step_control; [|exact D].
    by apply happens_world_step in Hw.
  - destruct (run_runtime _ _ _) as [s'|] eqn:E; [|done]. intros [= <-]. by eapply step_runtime.
Qed.

Definition act_all (l : list action) (w : runtime_world) : option runtime_world := foldl (λ w a, w ≫= act a) (Some w) l.

Lemma act_all_run l w w' : act_all l w = Some w' → rtc runtime_step w w'.
Proof.
  unfold act_all. revert w. induction l as [|a l IH]; intros w; cbn; [intros [= ->]; constructor|].
  destruct (act a w) as [w1|] eqn:E; [|intros H; exfalso; clear -H; induction l; cbn in H; [done|auto]].
  intros H. eapply rtc_l; [by eapply act_step|by apply IH].
Qed.

(** ** The attempt *)

Definition started : list action := (λ p, Control p.2) <$> take 21 run_setup.

Definition the_effect (c : OperationClaim) (d : db) : EffectRecord := ApprovalExamples.run_effect c d.
Definition begin_ : action := Runtime 23 (λ c d, CallBegin c (the_effect c d)).
Definition usage (n : Z) : payload := [("inputTokens", AInt n); ("outputTokens", AInt n); ("totalTokens", AInt (n + n))].
Definition used (q n : Z) : InvocationRuntimeEvent := MkRuntimeEvent q "usage.recorded" (usage n).
Definition record_ (event : InvocationRuntimeEvent) : action := Runtime 24 (λ c _, CallRecord c event).

Definition answer (c : OperationClaim) (d : db) : ArtifactRecord :=
  snapshot_record c (the_effect c d) (ex_target c d) 3 "runtime-message" "Completed runtime message" "file" "text/plain; charset=utf-8" "hello".
Definition bind_ : action := Runtime 25 (λ c d, CallBind (artifact_binding c (answer c d))).
Definition answered (c : OperationClaim) (d : db) : InvocationRuntimeEvent :=
  MkRuntimeEvent 3 MessageArtifactEvent
    [("artifactId", AStr (ar_ID (answer c d))); ("digest", AStr (ar_Digest (answer c d))); ("phase", AStr "final");
     ("preview", AStr "hello"); ("sizeBytes", AInt 5)].
Definition refer_ : action := Runtime 26 (λ c d, CallRecord c (answered c d)).
Definition ended : InvocationRuntimeEvent := MkRuntimeEvent 4 "lifecycle.succeeded" [("status", AStr "succeeded")].
Definition artifact_result (c : OperationClaim) (d : db) : payload :=
  [("schemaVersion", AStr "dataground.invocation-artifact-result/v1"); ("status", AStr "succeeded");
   ("outputArtifact", AMap [("artifactId", AStr (ar_ID (answer c d))); ("digest", AStr (ar_Digest (answer c d)));
                            ("sizeBytes", AInt 5); ("mediaType", AStr "text/plain; charset=utf-8")])].
Definition complete_ : action := Runtime 27 (λ c d, CallFinish c (the_effect c d) "succeeded" (artifact_result c d)).

Definition whole_run : list action := [begin_; record_ (used 2 20); record_ (used 1 10); bind_; refer_; record_ ended; complete_].

Definition ran (l : list action) : runtime_world := default initial_runtime (act_all l initial_runtime).

Lemma ran_run l : bool_decide (is_Some (act_all l initial_runtime)) = true → rtc runtime_step initial_runtime (ran l).
Proof.
  intros H%bool_decide_eq_true. unfold ran. destruct (act_all l initial_runtime) as [w|] eqn:E; [|by destruct H].
  by apply act_all_run in E.
Qed.

(** The run from one state on. *)
Definition onward (l : list action) (w : runtime_world) : runtime_world := default w (act_all l w).
Lemma onward_run l w : rtc runtime_step w (onward l w).
Proof. unfold onward. destruct (act_all l w) as [w'|] eqn:E; [by apply act_all_run in E|constructor]. Qed.

Definition from_begin {A B} (s : A) (b : B) (r : result (A * B)) : A * B := match r with Ok p => p | Err _ => (s, b) end.
Lemma from_begin_ok {A B} (s : A) (b : B) r : is_ok r = true → r = Ok (from_begin s b r).
Proof. by destruct r. Qed.

Definition holder (w : runtime_world) : OperationClaim := newest (World (rs_db (rw_store w)) (rw_claims w)).

Definition before : runtime_world := ran started.
Definition begun : runtime_world := ran (started ++ [begin_]).
Definition finished : runtime_world := ran (started ++ whole_run).

Example finished_attempt :
  att_Status <$> attempts_of (rw_store finished) !! claim_key (holder finished) = Some "succeeded"
  ∧ (inv_usage <$> db_invocations (rs_db (rw_store finished)) !! (ex_iso, ex_inv)) = Some (Some (UsageCounts 20 20 40))
  ∧ length (db_events (rs_db (rw_store finished))) = 7.
Proof. vm_compute. split_and!; reflexivity. Qed.

(** ** Witnesses *)

Definition first_claim : OperationClaim := holder before.
Definition first_effect : EffectRecord := the_effect first_claim (rs_db (rw_store before)).
Definition no_attempt : InvocationRuntimeAttempt := MkAttempt "" "" "" "" 0 "" None.
Definition the_begin : runtime_store * InvocationRuntimeAttempt :=
  from_begin (rw_store before) no_attempt (BeginInvocationRuntimeAttempt (at_time 23) first_claim first_effect (rw_store before)).
Lemma the_begin_ok : BeginInvocationRuntimeAttempt (at_time 23) first_claim first_effect (rw_store before) = Ok (the_begin.1, the_begin.2).
Proof.
  rewrite (from_begin_ok (rw_store before) no_attempt (BeginInvocationRuntimeAttempt _ _ _ _)); [unfold the_begin; by destruct (from_begin _ _ _)|].
  vm_compute. reflexivity.
Qed.
Definition after_begin : runtime_world := RuntimeWorld the_begin.1 (rw_claims before).

Definition ended_world : runtime_world := onward (tail whole_run) after_begin.

Lemma runtime_attempt_once_witness :
  (∃ a', attempts_of (rw_store ended_world) !! claim_key first_claim = Some a' ∧ attempt_le the_begin.2 a')
  ∧ ∀ ses' claim' effect', claim_key claim' = claim_key first_claim →
      is_ok (BeginInvocationRuntimeAttempt ses' claim' effect' (rw_store ended_world)) = false.
Proof.
  destruct (runtime_attempt_once before ended_world (at_time 23) first_claim first_effect the_begin.1 the_begin.2
           the_begin_ok (onward_run _ _)) as (H1 & H2 & _). exact (conj H1 H2).
Defined.

Lemma runtime_journal_consistent_witness :
  let d := rs_db (rw_store finished) in
  event_log_ok (db_events d) ∧ NoDup (sources (db_events d))
  ∧ (∀ k inv, db_invocations d !! k = Some inv → latest_usage k (db_events d) (inv_usage inv))
  ∧ Forall (reference_bound (rw_store finished)) (db_events d).
Proof. apply (runtime_journal_consistent finished). apply ran_run. vm_compute. reflexivity. Defined.

(** The reference is recorded a second time, after the attempt ended. *)
Definition no_event : event_row := EventRow "" "" "" 0 "" 0 0 "" "" "" "" JNull None.
Definition recorded_at (t : Z) (w : runtime_world) : runtime_store * event_row :=
  from_begin (rw_store w) no_event (RecordInvocationRuntimeEvent (at_time t) (holder w) (answered (holder w) (rs_db (rw_store w))) (rw_store w)).
Lemma recorded_at_ok t w :
  is_ok (RecordInvocationRuntimeEvent (at_time t) (holder w) (answered (holder w) (rs_db (rw_store w))) (rw_store w)) = true →
  RecordInvocationRuntimeEvent (at_time t) (holder w) (answered (holder w) (rs_db (rw_store w))) (rw_store w)
  = Ok ((recorded_at t w).1, (recorded_at t w).2).
Proof. intros H. rewrite (from_begin_ok (rw_store w) no_event _ H). unfold recorded_at. by destruct (from_begin _ _ _). Qed.

Definition bound : runtime_world := ran (started ++ take 4 whole_run).
Definition referred : runtime_world := RuntimeWorld (recorded_at 26 bound).1 (rw_claims bound).
Definition over : runtime_world := onward [record_ ended; complete_] referred.

Lemma runtime_event_once_witness :
  (recorded_at 28 over).1 = rw_store over ∧ (recorded_at 28 over).2 = (recorded_at 26 bound).2.
Proof.
  edestruct (runtime_event_once bound (at_time 26) (holder bound) (answered (holder bound) (rs_db (rw_store bound)))
    (recorded_at 26 bound).1 (recorded_at 26 bound).2 over (at_time 28) (holder over) (answered (holder over) (rs_db (rw_store over)))
    (recorded_at 28 over).1 (recorded_at 28 over).2) as (H1 & H2 & _).
  - apply ran_run. vm_compute. reflexivity.
  - apply recorded_at_ok. vm_compute. reflexivity.
  - apply onward_run.
  - vm_compute. reflexivity.
  - unfold answered. cbn [re_SourceSequence]. exact eq_refl.
  - apply recorded_at_ok. vm_compute. reflexivity.
  - exact (conj H1 H2).
Defined.
