(* ===== verification/ArtifactFinalizer.v ===== *)
(** * Finalising and reading artifacts

    [Finalizer.Finalize] of [internal/artifact/finalizer.go] and [Reader.Read] of
    [reader.go], over any catalog, object reader and object writer.

    [ArtifactWorld] is what the catalog and the object store promise: what they answer
    is there, and neither a binding nor an object ever changes.  [ArtifactDeployment]
    shows that the catalog of [ArtifactCatalog] and the store of [S3Store] keep it. *)
From S2P Require Import Prelude.
From S2P Require Import GoStrings.
From S2P Require Import Sha256.
From S2P Require Import Database.
From S2P Require Import Enforcement.
From S2P Require Import RuntimeDriver.
From S2P Require Import ArtifactCatalog.
From Stdlib Require Decidable.
Import Artifact.

(** ** The interfaces *)

Class ArtifactBindings (W : Type) := {
  GetInvocationArtifactRecord_ : string → string → io W (result ArtifactRecord);
  BindInvocationArtifact_ : ArtifactBinding → io W (result ArtifactRecord) }.
Class ArtifactReader (W : Type) := OpenInvocationArtifactObject_ : string → io W (result ReadCloser).
Class ArtifactWriter (W : Type) :=
  PutInvocationArtifactObjectIfAbsent_ : string → string → Z → string → string → io W (option error).

(** ** Operations *)

(** The bound both constructors ask for; their dependencies are always there. *)
Definition bounded_maximum (maximumBytes : Z) : bool := bool_decide (0 < maximumBytes)%Z && negb (bool_decide (maximumBytes = max_int64)).

Record Content := MkContent { ct_Record : ArtifactRecord; ct_Bytes : string }.

Section operations.
Context {W : Type} `{GoContext W, ArtifactBindings W, ArtifactReader W, ArtifactWriter W}.

Definition readObject (record : ArtifactRecord) (maximumBytes : Z) : io W (result string) :=
  opened ← OpenInvocationArtifactObject_ (ar_ObjectKey record);
  match opened with
  | Err _ => unless_cancelled (mret (Err ErrInvocationArtifactUnavailable))
  | Ok object =>
      let '(content, readErr) := read_limited (maximumBytes + 1) object in
      if decide (readErr ≠ None ∨ rc_close object ≠ None)
      then unless_cancelled (mret (Err ErrInvocationArtifactUnavailable))
      else if decide ((maximumBytes < go_len content)%Z ∨ go_len content ≠ ar_SizeBytes record
                      ∨ verifyContent content (ar_Digest record) = false)
      then mret (Err ErrInvocationArtifactConflict)
      else mret (Ok content)
  end.

(** [Ok None] is "not found". *)
Definition preflight (maximumBytes : Z) (record : ArtifactRecord) (content : string) : io W (result (option ArtifactRecord)) :=
  found ← GetInvocationArtifactRecord_ (ar_IsolationDomainID record) (ar_ID record);
  match found with
  | Err err =>
      unless_cancelled (mret (if is_err err ErrInvocationArtifactMissing then Ok None else Err ErrInvocationArtifactUnavailable))
  | Ok stored =>
      match NormalizeRecord stored with
      | Err _ => mret (Err ErrInvocationArtifactConflict)
      | Ok existing =>
          if EqualRecords existing record then
            read ← readObject existing maximumBytes;
            match read with
            | Err err => mret (Err err)
            | Ok persisted => if decide (persisted = content) then mret (Ok (Some existing)) else mret (Err ErrInvocationArtifactConflict)
            end
          else mret (Err ErrInvocationArtifactConflict)
      end
  end.

(** The tail of [Finalize], once the object was read back. *)
Definition bind_finalized (binding : ArtifactBinding) : io W (result ArtifactRecord) :=
  bound ← BindInvocationArtifact_ binding;
  match bound with
  | Err err =>
      unless_cancelled (mret (Err (if is_err err ErrInvocationArtifactConflict then err else ErrInvocationArtifactUnavailable)))
  | Ok record =>
      match NormalizeRecord record with
      | Err _ => mret (Err ErrInvocationArtifactConflict)
      | Ok bound => if EqualRecords bound (ab_Record binding) then mret (Ok bound) else mret (Err ErrInvocationArtifactConflict)
      end
  end.

Definition write_finalized (maximumBytes : Z) (binding : ArtifactBinding) (content : string) : io W (result ArtifactRecord) :=
  let record := ab_Record binding in
  writeErr ← PutInvocationArtifactObjectIfAbsent_ (ar_ObjectKey record) content (ar_SizeBytes record) (ar_Digest record) (ar_MediaType record);
  unless_cancelled (
    read ← readObject record maximumBytes;
    match read with
    | Err readErr =>
        unless_cancelled (mret (Err (
          if is_err readErr ErrInvocationArtifactConflict
             || match writeErr with Some err => is_err err ErrInvocationArtifactObjectConflict | None => false end
          then ErrInvocationArtifactConflict else ErrInvocationArtifactUnavailable)))
    | Ok persisted =>
        if decide (persisted = content) then bind_finalized binding else mret (Err ErrInvocationArtifactConflict)
    end).

Definition Finalize (maximumBytes : Z) (finalization : Finalization) : io W (result ArtifactRecord) :=
  match NormalizeBinding (fz_Binding finalization) with
  | Err err => mret (Err err)
  | Ok binding =>
      let content := fz_Content finalization in
      if decide ((maximumBytes < ar_SizeBytes (ab_Record binding))%Z ∨ (maximumBytes < go_len content)%Z)
      then mret (Err ErrInvocationArtifactInvalid)
      else if decide (go_len content ≠ ar_SizeBytes (ab_Record binding) ∨ verifyContent content (ar_Digest (ab_Record binding)) = false)
      then mret (Err ErrInvocationArtifactInvalid)
      else
      checked ← preflight maximumBytes (ab_Record binding) content;
      match checked with
      | Err err => mret (Err err)
      | Ok (Some existing) => mret (Ok existing)
      | Ok None => write_finalized maximumBytes binding content
      end
  end.

(** The second look at the catalog, before content is handed out. *)
Definition confirm_read (domainID artifactID : string) (record : ArtifactRecord) (content : string) : io W (result Content) :=
  again ← GetInvocationArtifactRecord_ domainID artifactID;
  unless_cancelled (mret (
    match again ≫= NormalizeRecord with
    | Ok current => if EqualRecords record current then Ok (MkContent record content) else Err ErrInvocationArtifactUnavailable
    | Err _ => Err ErrInvocationArtifactUnavailable
    end)).

Definition read_bound (maximumBytes : Z) (domainID invocationID artifactID : string) (found : ArtifactRecord) : io W (result Content) :=
  if decide (ar_IsolationDomainID found ≠ domainID ∨ ar_InvocationID found ≠ invocationID ∨ ar_ID found ≠ artifactID)
  then mret (Err ErrInvocationArtifactMissing)
  else match NormalizeRecord found with
  | Err _ => mret (Err ErrInvocationArtifactUnavailable)
  | Ok record =>
      if decide (maximumBytes < ar_SizeBytes record)%Z then mret (Err ErrInvocationArtifactUnavailable)
      else
      unless_cancelled (
        read ← readObject record (ar_SizeBytes record);
        match read with
        | Err err => mret (Err err)
        | Ok content => unless_cancelled (confirm_read domainID artifactID record content)
        end)
  end.

Definition Read (maximumBytes : Z) (domainID invocationID artifactID : string) : io W (result Content) :=
  unless_cancelled (
    if negb (isolationDomainPattern domainID && invocationPattern invocationID && artifactPattern artifactID)
    then mret (Err ErrInvocationArtifactInvalid)
    else
    looked ← GetInvocationArtifactRecord_ domainID artifactID;
    match looked with
    | Err err =>
        unless_cancelled (mret (Err (if is_err err ErrInvocationArtifactMissing
                                     then ErrInvocationArtifactMissing else ErrInvocationArtifactUnavailable)))
    | Ok found => read_bound maximumBytes domainID invocationID artifactID found
    end).
End operations.

(** ** What the collaborators promise *)

(** Time passes between any two calls; bindings and objects stay.  A stream delivers a
    prefix of the object, all of it unless it ends in a fault. *)
Class ArtifactWorld (W : Type) `{GoContext W, ArtifactBindings W, ArtifactReader W, ArtifactWriter W} := {
  later : relation W;
  later_order :: PreOrder later;
  bound : W → string → string → ArtifactRecord → Prop;
  stored : W → string → string → Prop;
  bound_later w w' d i r : later w w' → bound w d i r → bound w' d i r;
  stored_later w w' k c : later w w' → stored w k c → stored w' k c;
  bound_once w d i r1 r2 : bound w d i r1 → bound w d i r2 → r1 = r2;
  stored_once w k c1 c2 : stored w k c1 → stored w k c2 → c1 = c2;
  ctx_later w w' e : ctx_Err w = (w', e) → later w w';
  get_later w w' d i a : GetInvocationArtifactRecord_ d i w = (w', a) → later w w';
  get_bound w w' d i r : GetInvocationArtifactRecord_ d i w = (w', Ok r) → bound w' d i r;
  get_missing w w' d i e r : GetInvocationArtifactRecord_ d i w = (w', Err e) → is_err e ErrInvocationArtifactMissing = true → ¬ bound w d i r;
  bind_later w w' b a : BindInvocationArtifact_ b w = (w', a) → later w w';
  bind_bound w w' b r : BindInvocationArtifact_ b w = (w', Ok r) → bound w' (ar_IsolationDomainID r) (ar_ID r) r;
  open_later w w' k a : OpenInvocationArtifactObject_ k w = (w', a) → later w w';
  open_stored w w' k o : OpenInvocationArtifactObject_ k w = (w', Ok o) →
    ∃ c rest, stored w' k c ∧ c = rc_stream o +:+ rest ∧ (rc_fault o = None → rest = "");
  put_later w w' k c size digest media a : PutInvocationArtifactObjectIfAbsent_ k c size digest media w = (w', a) → later w w' }.

(** ** Reasoning about calls *)

Lemma append_nil_r s : s +:+ "" = s.
Proof. induction s as [|c s IH]; [done|]. exact (f_equal (String c) IH). Qed.
Lemma go_len_app s t : go_len (s +:+ t) = (go_len s + go_len t)%Z.
Proof.
  unfold go_len. induction s as [|c s IH]; [done|]. change (String c s +:+ t) with (String c (s +:+ t)). cbn [String.length].
  rewrite !Nat2Z.inj_succ, IH. lia.
Qed.

Section logic.
Context {W : Type} `{ArtifactWorld W}.

(** The state and the answer that [m] leads to. *)
Definition gives {A} (m : io W A) (w : W) (Q : W → A → Prop) : Prop := Q (m w).1 (m w).2.

Lemma gives_ret {A} (a : A) w (Q : W → A → Prop) : Q w a → gives (mret a) w Q.
Proof. done. Qed.
Lemma gives_bind {A B} (m : io W A) (k : A → io W B) w Q : gives m w (λ w1 a, gives (k a) w1 Q) → gives (m ≫= k) w Q.
Proof. unfold gives, mbind, io_bind. by destruct (m w) as [w1 a]. Qed.
Lemma gives_call {A} (m : io W A) w (Q : W → A → Prop) : (∀ w1 a, m w = (w1, a) → Q w1 a) → gives m w Q.
Proof. unfold gives. destruct (m w) as [w1 a]. auto. Qed.
Lemma gives_mono {A} (m : io W A) w (P Q : W → A → Prop) : gives m w P → (∀ w1 a, P w1 a → Q w1 a) → gives m w Q.
Proof. unfold gives. auto. Qed.
Lemma gives_eq {A} (m : io W A) w w' a (Q : W → A → Prop) : gives m w Q → m w = (w', a) → Q w' a.
Proof. unfold gives. intros HQ E. by rewrite E in HQ. Qed.

(** Errors that say nothing about the artifact. *)
Definition cancellation (e : error) : Prop := ∃ w w', ctx_Err (W := W) w = (w', Some e).
Definition excused (e : error) : Prop := e = ErrInvocationArtifactUnavailable ∨ cancellation e.

Lemma gives_unless_cancelled {A} (k : io W (result A)) w (Q : W → result A → Prop) :
  (∀ w1, later w w1 → gives k w1 Q) → (∀ w1 e, later w w1 → cancellation e → Q w1 (Err e)) → gives (unless_cancelled k) w Q.
Proof.
  intros Hk He. apply gives_bind, gives_call. intros w1 e Hc. pose proof (ctx_later _ _ _ Hc) as L.
  destruct e as [e|]; [|by apply Hk]. apply gives_ret, He; [done|]. by exists w, w1.
Qed.

Lemma gives_unavailable w (Q : W → result string → Prop) :
  (∀ w1 e, later w w1 → excused e → Q w1 (Err e)) → gives (unless_cancelled (mret (Err ErrInvocationArtifactUnavailable))) w Q.
Proof. intros HQ. apply gives_unless_cancelled; [intros w1 L; apply gives_ret, HQ; [done|by left]|]. intros w1 e L C. apply HQ; [done|by right]. Qed.

Lemma prefix_bytes n s rest : (go_len (s +:+ rest) ≤ n)%Z → (go_len (first_bytes (n + 1) s) ≤ n)%Z ∧ first_bytes (n + 1) s = s.
Proof.
  rewrite go_len_app. intros Hn. unfold go_len in *.
  assert (∀ m t, (Z.of_nat (String.length t) < m)%Z → first_bytes m t = t) as F.
  { clear. intros m t. revert m. induction t as [|c t IH]; intros m Hm; [done|]. cbn [first_bytes String.length] in *.
    destruct (Z.ltb_spec 0 m); [|lia]. f_equal. apply IH. lia. }
  rewrite F by lia. split; [lia|done].
Qed.

(** *** Records *)

Lemma NormalizeRecord_Ok record normalized :
  NormalizeRecord record = Ok normalized ↔
    record_valid record = true ∧ (ar_ObjectKey record = "" ∨ ar_ObjectKey record = ObjectKey record)
    ∧ normalized = with_key record (ObjectKey record).
Proof.
  unfold NormalizeRecord. destruct (record_valid record); cbn [negb]; [|naive_solver].
  case_decide as D; split; [done| |intros [= <-]; split_and!; [done| |done]|naive_solver].
  - intros (_ & [?|?] & _); exfalso; naive_solver.
  - destruct (decide (ar_ObjectKey record = "")) as [|Hk]; [by left|right]. apply dec_stable. intros Hn. by apply D.
Qed.

Lemma NormalizeRecord_again record normalized : NormalizeRecord record = Ok normalized → NormalizeRecord normalized = Ok normalized.
Proof. rewrite !NormalizeRecord_Ok. intros (Hv & _ & ->). split_and!; [exact Hv|by right|by destruct record]. Qed.

Lemma NormalizeRecord_names record normalized : NormalizeRecord record = Ok normalized →
  ar_IsolationDomainID normalized = ar_IsolationDomainID record ∧ ar_ID normalized = ar_ID record
  ∧ ar_InvocationID normalized = ar_InvocationID record
  ∧ isolationDomainPattern (ar_IsolationDomainID record) = true ∧ invocationPattern (ar_InvocationID record) = true
  ∧ artifactPattern (ar_ID record) = true.
Proof. intros (Hv & _ & ->)%NormalizeRecord_Ok. unfold record_valid in Hv. to_prop. destruct_and?. split_and!; done. Qed.

Lemma NormalizeBinding_record binding normalized : NormalizeBinding binding = Ok normalized →
  NormalizeRecord (ab_Record binding) = Ok (ab_Record normalized).
Proof. unfold NormalizeBinding. intros (record & Hr & Hif)%result_bind_Ok. destruct (_ && _) in Hif; [|done]. by injection Hif as <-. Qed.

(** *** Reading an object *)

Definition matches_record (record : ArtifactRecord) (content : string) : Prop :=
  go_len content = ar_SizeBytes record ∧ verifyContent content (ar_Digest record) = true.

Lemma gives_read record maximumBytes w :
  gives (readObject record maximumBytes) w (λ w' r, later w w'
    ∧ (∀ content, r = Ok content → stored w' (ar_ObjectKey record) content ∧ matches_record record content)
    ∧ (∀ content, stored w (ar_ObjectKey record) content → matches_record record content → (go_len content ≤ maximumBytes)%Z →
         r = Ok content ∨ ∃ e, r = Err e ∧ excused e)).
Proof.
  apply gives_bind, gives_call. intros w1 opened Ho. pose proof (open_later _ _ _ _ Ho) as L1.
  destruct opened as [object|err]; [|apply gives_unavailable; intros w2 e L2 X; split_and!; [by etrans|done|by eauto]].
  destruct (open_stored _ _ _ _ Ho) as (c & rest & Hst & -> & Hfault).
  destruct (read_limited _ object) as [content readErr] eqn:Hread.
  case_decide as Hf; [apply gives_unavailable; intros w2 e L2 X; split_and!; [by etrans|done|by eauto]|].
  assert (∀ content', stored w (ar_ObjectKey record) content' → content' = rc_stream object +:+ rest) as Huniq.
  { intros content' Hc. apply (stored_once w1 (ar_ObjectKey record)); [by eapply stored_later|done]. }
  apply Decidable.not_or in Hf as [Hf _]. case_decide as Hbad; apply gives_ret; split_and!; [done|done| |done| |].
  - intros content' Hc [Hlen Hv] Hmax. exfalso. pose proof (Huniq _ Hc) as ->.
    destruct (prefix_bytes _ _ _ Hmax) as [_ Hfirst]. unfold read_limited in Hread. rewrite Hfirst in Hread. injection Hread as <- Hre.
    assert (rc_fault object = None) as Hnf.
    { destruct (Z.ltb_spec (go_len (rc_stream object)) (maximumBytes + 1)) as [|Hge]; [rewrite Hre; by apply dec_stable|].
      rewrite go_len_app in Hmax. unfold go_len in *. lia. }
    rewrite (Hfault Hnf), append_nil_r in *. destruct Hbad as [?|[?|?]]; [lia|done|congruence].
  - intros content' [= <-]. apply Decidable.not_or in Hbad as [Hm [Hlen Hv]%Decidable.not_or].
    destruct (read_limited_whole _ _ _ Hread) as [<- Hnf]; [done|lia|].
    rewrite (Hfault Hnf), append_nil_r in Hst. split; [done|]. split; [by apply dec_stable|by apply not_false_iff_true].
  - intros content' Hc _ Hmax. left. f_equal. apply Decidable.not_or in Hbad as [Hm _].
    destruct (read_limited_whole _ _ _ Hread) as [<- Hnf]; [done|lia|].
    rewrite (Huniq _ Hc), (Hfault Hnf), append_nil_r. done.
Qed.

(** *** Finalising *)

(** The artifact is there for good: bound under its names, with its content stored. *)
Definition retained (w : W) (record : ArtifactRecord) (content : string) : Prop :=
  (∃ raw, bound w (ar_IsolationDomainID record) (ar_ID record) raw ∧ NormalizeRecord raw = Ok record)
  ∧ stored w (ar_ObjectKey record) content ∧ matches_record record content.

Lemma retained_later w w' record content : later w w' → retained w record content → retained w' record content.
Proof. intros L [(raw & Hb & Hn) [Hs Hm]]. split; [exists raw; split; [by eapply bound_later|done]|]. split; [by eapply stored_later|done]. Qed.

Lemma gives_preflight maximumBytes record content w :
  gives (preflight maximumBytes record content) w (λ w' r, later w w'
    ∧ ∀ existing, r = Ok (Some existing) → existing = record ∧ retained w' record content).
Proof.
  apply gives_bind, gives_call. intros w1 found Hg. pose proof (get_later _ _ _ _ _ Hg) as L1. destruct found as [raw|err].
  2:{ apply gives_unless_cancelled; [intros w2 L2; apply gives_ret; split; [by etrans|by destruct (is_err _ _)]|].
      intros w2 e L2 _. split; [by etrans|done]. }
  apply get_bound in Hg. destruct (NormalizeRecord raw) as [existing|] eqn:Hn; [|by apply gives_ret].
  unfold EqualRecords. case_bool_decide as Heq; [|by apply gives_ret]. subst existing.
  apply gives_bind. eapply gives_mono; [apply gives_read|]. intros w2 r (L2 & Hok & _).
  assert (later w w2) as L by by etrans. destruct r as [persisted|err]; [|by apply gives_ret].
  case_decide as Hp; apply gives_ret; (split; [done|]); [|done]. subst persisted. intros ? [= <-].
  destruct (Hok content eq_refl) as [Hs Hm]. split; [done|]. split; [|done]. exists raw. split; [by apply (bound_later w1)|done].
Qed.

Lemma gives_bind_finalized binding w :
  gives (bind_finalized binding) w (λ w' r, later w w' ∧ ∀ record, r = Ok record → record = ab_Record binding
    ∧ ∃ raw, bound w' (ar_IsolationDomainID record) (ar_ID record) raw ∧ NormalizeRecord raw = Ok record).
Proof.
  apply gives_bind, gives_call. intros w1 answer Hb. pose proof (bind_later _ _ _ _ Hb) as L1. destruct answer as [raw|err].
  2:{ apply gives_unless_cancelled; [intros w2 L2; apply gives_ret|intros w2 e L2 _]; (split; [by etrans|done]). }
  apply bind_bound in Hb. destruct (NormalizeRecord raw) as [record|] eqn:Hn; [|by apply gives_ret].
  unfold EqualRecords. case_bool_decide as Heq; apply gives_ret; (split; [done|]); [|done].
  intros ? [= <-]. split; [done|]. destruct (NormalizeRecord_names _ _ Hn) as (-> & -> & _). by exists raw.
Qed.

Lemma gives_write_finalized maximumBytes binding content w :
  gives (write_finalized maximumBytes binding content) w (λ w' r, later w w'
    ∧ ∀ record, r = Ok record → record = ab_Record binding ∧ retained w' record content).
Proof.
  apply gives_bind, gives_call. intros w1 writeErr Hp. pose proof (put_later _ _ _ _ _ _ _ _ Hp) as L1.
  apply gives_unless_cancelled; [|intros w2 e L2 _; split; [by etrans|done]]. intros w2 L2.
  apply gives_bind. eapply gives_mono; [apply gives_read|]. intros w3 r (L3 & Hok & _).
  assert (later w w3) as L by (do 2 (etrans; [eassumption|]); done). destruct r as [persisted|err].
  2:{ apply gives_unless_cancelled; [intros w4 L4; apply gives_ret|intros w4 e L4 _]; (split; [by etrans|done]). }
  case_decide as He; [|by apply gives_ret]. subst persisted. destruct (Hok content eq_refl) as [Hs Hm].
  eapply gives_mono; [apply gives_bind_finalized|]. intros w4 r (L4 & Hr). split; [by etrans|].
  intros record Hrec. destruct (Hr record Hrec) as [-> Hb]. split; [done|]. split; [done|]. split; [by eapply stored_later|done].
Qed.

Lemma gives_Finalize maximumBytes finalization w :
  gives (Finalize maximumBytes finalization) w (λ w' r, later w w'
    ∧ ∀ record, r = Ok record → NormalizeRecord (ab_Record (fz_Binding finalization)) = Ok record
        ∧ retained w' record (fz_Content finalization)).
Proof.
  unfold Finalize. destruct (NormalizeBinding _) as [binding|] eqn:Hn; [|by apply gives_ret].
  case_decide; [by apply gives_ret|]. case_decide; [by apply gives_ret|]. rewrite (NormalizeBinding_record _ _ Hn).
  apply gives_bind. eapply gives_mono; [apply gives_preflight|]. intros w1 r (L1 & Hpre).
  destruct r as [[existing|]|err]; [apply gives_ret; split; [done|]| |by apply gives_ret].
  - intros ? [= <-]. destruct (Hpre existing eq_refl) as [-> Hr]. done.
  - eapply gives_mono; [apply gives_write_finalized|]. intros w2 r (L2 & Hr). split; [by etrans|].
    intros record Hrec. destruct (Hr record Hrec) as [-> Hret]. done.
Qed.

(** *** Reading *)

Lemma excused_cancellation e : cancellation e → excused e.
Proof. by right. Qed.

Lemma gives_confirm record content w :
  retained w record content →
  gives (confirm_read (ar_IsolationDomainID record) (ar_ID record) record content) w
    (λ _ r, r = Ok (MkContent record content) ∨ ∃ e, r = Err e ∧ excused e).
Proof.
  intros Hr. apply gives_bind, gives_call. intros w1 again Hg. pose proof (get_later _ _ _ _ _ Hg) as L1.
  apply gives_unless_cancelled; [intros w2 _; apply gives_ret|intros w2 e _ C; eauto using excused_cancellation].
  destruct again as [raw|err]; [|right; eexists; split; [done|by left]].
  apply get_bound in Hg. pose proof (retained_later _ _ _ _ L1 Hr) as [(raw' & Hb & Hn) _].
  rewrite (bound_once _ _ _ _ _ Hg Hb). cbn. rewrite Hn. left. unfold EqualRecords. by rewrite bool_decide_true.
Qed.

Lemma gives_read_retained maximumBytes record content w :
  retained w record content → (ar_SizeBytes record ≤ maximumBytes)%Z →
  gives (Read maximumBytes (ar_IsolationDomainID record) (ar_InvocationID record) (ar_ID record)) w
    (λ _ r, r = Ok (MkContent record content) ∨ ∃ e, r = Err e ∧ excused e).
Proof.
  intros Hr Hmax. apply gives_unless_cancelled; [|eauto using excused_cancellation]. intros w1 L1.
  pose proof (retained_later _ _ _ _ L1 Hr) as Hr1. clear Hr. rename Hr1 into Hr. pose proof Hr as [(raw & Hb & Hn) [Hs Hm]].
  destruct (NormalizeRecord_names _ _ Hn) as (Ed & Ei & Ev & Pd & Pv & Pi). rewrite Ed, Ei, Ev in *. rewrite Pd, Pv, Pi. cbn [negb andb].
  apply gives_bind, gives_call. intros w2 looked Hg. pose proof (get_later _ _ _ _ _ Hg) as L2. destruct looked as [found|err].
  2:{ apply gives_unless_cancelled; [intros w3 _; apply gives_ret|eauto using excused_cancellation].
      destruct (is_err err _) eqn:Em; [by destruct (get_missing _ _ _ _ _ raw Hg Em)|right; eexists; split; [done|by left]]. }
  apply get_bound in Hg. rewrite (bound_once _ _ _ _ _ Hg (bound_later _ _ _ _ _ L2 Hb)). unfold read_bound.
  rewrite decide_False by naive_solver. rewrite Hn. rewrite decide_False by lia.
  apply gives_unless_cancelled; [|eauto using excused_cancellation]. intros w3 L3.
  assert (later w1 w3) as L13 by by etrans.
  apply gives_bind. eapply gives_mono; [apply gives_read|]. intros w4 r (L4 & Hok & Hall).
  destruct (Hall content) as [->|(e & -> & X)]; [by eapply stored_later|done|by destruct Hm as [-> _]|..].
  2:{ apply gives_ret. eauto. }
  apply gives_unless_cancelled; [|eauto using excused_cancellation]. intros w5 L5.
  rewrite <- Ed, <- Ei. apply gives_confirm. eapply retained_later; [|exact Hr]. do 2 (etrans; [eassumption|]). done.
Qed.

(** Artifacts stay readable.  Once a finalisation answered, whatever the catalog, the
    object store and other workers do afterwards within their promises, a reader whose
    bound admits the artifact's size is answered the finalised record with exactly the
    finalised content, or an error that says nothing about the artifact: it was
    cancelled, or the collaborators were unavailable.  It never hears that the artifact
    is missing, invalid or different. *)
Lemma artifact_stays_readable maximumBytes maximumRead finalization w w1 w2 w3 record r :
  Finalize maximumBytes finalization w = (w1, Ok record) → later w1 w2 → (ar_SizeBytes record ≤ maximumRead)%Z →
  Read maximumRead (ar_IsolationDomainID record) (ar_InvocationID record) (ar_ID record) w2 = (w3, r) →
  r = Ok (MkContent record (fz_Content finalization)) ∨ ∃ e, r = Err e ∧ excused e.
Proof.
  intros Hf L Hmax Hr. destruct (gives_eq _ _ _ _ _ (gives_Finalize maximumBytes finalization w) Hf) as [_ Hret].
  destruct (Hret record eq_refl) as [_ Hret']. by eapply (gives_eq _ _ _ _ _ (gives_read_retained _ _ _ _ (retained_later _ _ _ _ L Hret') Hmax)).
Qed.
End logic.
