(* ===== verification/S3Store.v ===== *)
(** * Objects in S3

    [internal/execution/s3store]: the immutable objects of enforcement bundles,
    invocation artifacts and workspace sources, over the S3 REST protocol.  The HTTP
    client is the program's; what its [Do] answers is arbitrary.  [mime.ParseMediaType]
    is the parameter [MediaTypes].

    An endpoint is kept by the parts that [url.Parse] found in it; an address by the
    parts that [url.URL] renders.  A key consists of characters that need no escape, so
    building a request from an address does not fail. *)
From S2P Require Import Prelude.
From S2P Require Import GoStrings.
From S2P Require Import Sha256.
From S2P Require Import GoJson.
From S2P Require Import GoDecode.
From S2P Require Import GoPath.
From S2P Require Import Database.
From S2P Require Import GatewayStore.
From S2P Require Import ExecutionPlan.
From S2P Require Import Enforcement.
From S2P Require Import RuntimeDriver.
From S2P Require Import ArtifactCatalog.
From S2P Require Import ArtifactFinalizer.
From S2P Require Import WorkspaceSource.

(** ** Addresses *)

Inductive AddressingStyle := PathStyle | VirtualHostedStyle.

Record Endpoint := MkEndpoint { en_Scheme : string; en_Host : string; en_Hostname : string; en_Port : string }.
Record Store := MkStore { s3_endpoint : Endpoint; s3_bucket : string; s3_style : AddressingStyle }.
Record URL := MkURL { url_Scheme : string; url_Host : string; url_Path : string }.

Definition is_key_char (c : ascii) : bool := is_opaque_char c || bool_decide (c = slash).
Definition keyPattern (key : string) : bool :=
  match key with EmptyString => false | String c rest => is_alnum c && all_bytes is_key_char rest end.

Fixpoint contains_double_slash (bs : list ascii) : bool :=
  match bs with
  | c :: ((d :: _) as rest) => bool_decide (c = slash ∧ d = slash) || contains_double_slash rest
  | _ => false
  end.

Definition validKey (key allowedPrefix : string) : bool :=
  (go_len key <=? 1024)%Z && keyPattern key && negb (contains_double_slash (bytes_of key))
  && negb (contains_byte (byte_of_N 92) key)
  && forallb (λ segment, negb (bool_decide (segment ∈ ["."; ".."]))) (split key)
  && negb (bool_decide (allowedPrefix = "")) && has_prefix key allowedPrefix.

(** [net.JoinHostPort] *)
Definition JoinHostPort (host port : string) : string :=
  if contains_byte ":"%char host then "[" +:+ host +:+ "]:" +:+ port else host +:+ ":" +:+ port.

Definition objectURL (store : Store) (key allowedPrefix : string) : result URL :=
  if negb (validKey key allowedPrefix) then Err (ENew "invalid S3 platform-object key")
  else
    let endpoint := s3_endpoint store in
    match s3_style store with
    | VirtualHostedStyle =>
        let host := s3_bucket store +:+ "." +:+ en_Hostname endpoint in
        Ok (MkURL (en_Scheme endpoint) (if decide (en_Port endpoint = "") then host else JoinHostPort host (en_Port endpoint)) ("/" +:+ key))
    | PathStyle => Ok (MkURL (en_Scheme endpoint) (en_Host endpoint) ("/" +:+ s3_bucket store +:+ "/" +:+ key))
    end.

(** ** Requests *)

Record Request := MkRequest { rq_Method : string; rq_URL : URL; rq_Header : list (string * string); rq_Body : string; rq_ContentLength : Z }.
Record Response := MkResponse { rsp_StatusCode : Z; rsp_ContentEncoding : string; rsp_ContentLength : Z; rsp_Body : ReadCloser }.
Class HttpClient (W : Type) := Do : Request → io W (result Response).
Class MediaTypes := media_type_parses : string → bool.

Definition StatusOK : Z := 200.
Definition StatusNotFound : Z := 404.
Definition StatusPreconditionFailed : Z := 412.

Definition get_request (url : URL) : Request := MkRequest "GET" url [("Accept-Encoding", "identity")] "" 0.

(** [base64.StdEncoding] of the SHA-256 of the body *)
Definition checksum_header (content : string) : string := of_bytes (b64_encode (byte_of_N <$> Sha256.Sum256 content)).
Definition put_request (url : URL) (mediaType content : string) (size : Z) : Request :=
  MkRequest "PUT" url [("Content-Type", mediaType); ("If-None-Match", "*"); ("x-amz-checksum-sha256", checksum_header content)] content size.

(** ** Artifacts *)

Definition ErrInvocationArtifactObjectMissing := ESentinel "artifact.ErrInvocationArtifactObjectMissing".
Definition invocationArtifactKeyPrefix := "invocation-artifacts/v1/".

Definition invocationArtifactObjectKeyPattern (key : string) : bool :=
  match split key with
  | [a; b; iso; inv; art; digest] =>
      bool_decide (a = "invocation-artifacts" ∧ b = "v1") && match_prefixed "iso_" is_id_char 20 32 iso
      && match_prefixed "inv_" is_id_char 20 32 inv && match_prefixed "art_" is_id_char 20 32 art
      && match_prefixed "" is_hex_lower 64 64 digest
  | _ => false
  end.

Definition validArtifactMediaType `{MediaTypes} (value : string) : bool :=
  negb (bool_decide (value = "")) && (go_len value <=? 255)%Z && valid_utf8 value && bool_decide (trim_space value = value)
  && negb (existsb (λ c, contains_byte (byte_of_N c) value) [0; 13; 10]%N) && media_type_parses value.

Section operations.
Context {W : Type} `{GoContext W, HttpClient W, MediaTypes} (store : Store).

Definition OpenInvocationArtifactObject (maximumBytes : Z) (key : string) : io W (result ReadCloser) :=
  match objectURL store key invocationArtifactKeyPrefix, invocationArtifactObjectKeyPattern key with
  | Ok url, true =>
      answer ← Do (get_request url);
      match answer with
      | Err _ => unless_cancelled (mret (Err Artifact.ErrInvocationArtifactUnavailable))
      | Ok response =>
          if decide (rsp_StatusCode response = StatusOK) then
            if decide (rsp_ContentEncoding response ≠ "" ∨ (maximumBytes < rsp_ContentLength response)%Z)
            then mret (Err Artifact.ErrInvocationArtifactUnavailable) else mret (Ok (rsp_Body response))
          else if decide (rsp_StatusCode response = StatusNotFound) then mret (Err ErrInvocationArtifactObjectMissing)
          else mret (Err Artifact.ErrInvocationArtifactUnavailable)
      end
  | _, _ => mret (Err Artifact.ErrInvocationArtifactObjectConflict)
  end.

(** What a conditional write was answered. *)
Definition written (conflict unavailable : error) (answer : result Response) : io W (option error) :=
  match answer with
  | Err _ => cancelled ← ctx_Err; mret (Some (default unavailable cancelled))
  | Ok response =>
      mret (if decide (rsp_StatusCode response = StatusOK) then None
            else if decide (rsp_StatusCode response = StatusPreconditionFailed) then Some conflict else Some unavailable)
  end.
Definition unless_done (otherwise : io W (option error)) : io W (option error) :=
  cancelled ← ctx_Err; match cancelled with Some err => mret (Some err) | None => otherwise end.

(** The content is a reader of its own bytes, which [size + 1] of them bound. *)
Definition PutInvocationArtifactObjectIfAbsent (maximumBytes : Z) (key content : string) (size : Z) (digest mediaType : string)
  : io W (option error) :=
  unless_done (
    match objectURL store key invocationArtifactKeyPrefix with
    | Ok url =>
        if invocationArtifactObjectKeyPattern key && (0 <=? size)%Z && (size <=? maximumBytes)%Z && validArtifactMediaType mediaType then
          let owned := first_bytes (size + 1) content in
          if decide (go_len owned ≠ size ∨ Sha256.digest_string owned ≠ digest)
          then mret (Some Artifact.ErrInvocationArtifactObjectConflict)
          else unless_done (answer ← Do (put_request url mediaType owned size);
                            written Artifact.ErrInvocationArtifactObjectConflict Artifact.ErrInvocationArtifactUnavailable answer)
        else mret (Some Artifact.ErrInvocationArtifactObjectConflict)
    | Err _ => mret (Some Artifact.ErrInvocationArtifactObjectConflict)
    end).

(** ** Enforcement bundles *)

Definition errUnavailable : error := ENew "s3 enforcement-object storage is unavailable".
Definition ErrEnforcementObjectMissing : error := ESentinel "execution.ErrEnforcementObjectMissing".
Definition enforcementPrefix := "enforcement-bundles/v1/".

Definition OpenEnforcementObject (key : string) : io W (result ReadCloser) :=
  match objectURL store key enforcementPrefix with
  | Err err => mret (Err err)
  | Ok url =>
      answer ← Do (get_request url);
      match answer with
      | Err _ => unless_cancelled (mret (Err errUnavailable))
      | Ok response =>
          if decide (rsp_StatusCode response = StatusOK) then
            if decide (rsp_ContentEncoding response ≠ "" ∨ (maximumEnforcementPolicyBytes < rsp_ContentLength response)%Z)
            then mret (Err errUnavailable) else mret (Ok (rsp_Body response))
          else if decide (rsp_StatusCode response = StatusNotFound) then mret (Err ErrEnforcementObjectMissing)
          else mret (Err errUnavailable)
      end
  end.

Definition PutEnforcementObjectIfAbsent (key content : string) (size : Z) (digest : string) : io W (option error) :=
  unless_done (
    match objectURL store key enforcementPrefix with
    | Err err => mret (Some err)
    | Ok url =>
        if decide ((size ≤ 0)%Z ∨ (maximumEnforcementPolicyBytes < size)%Z ∨ ExecutionPlan.digestPattern digest = false)
        then mret (Some ErrEnforcementObjectConflict)
        else
          let owned := first_bytes (size + 1) content in
          if decide (go_len owned ≠ size ∨ VerifyEnforcementPolicy owned digest ≠ Ok tt) then mret (Some ErrEnforcementObjectConflict)
          else unless_done (answer ← Do (put_request url EnforcementBundleMediaType owned size);
                            written ErrEnforcementObjectConflict errUnavailable answer)
    end).

(** ** Workspace sources *)

Definition ErrSourceUnavailable : error := ESentinel "workspace.ErrSourceUnavailable".
Definition ErrSourceObjectMissing : error := ESentinel "workspace.ErrSourceObjectMissing".
Definition ErrSourceConflict : error := ESentinel "workspace.ErrSourceConflict".
Definition workspacePrefix := "workspace-sources/v1/".

Definition workspaceSourceKeyPattern (key : string) : bool :=
  match split key with
  | [a; b; iso; wsp; source; digest] =>
      bool_decide (a = "workspace-sources" ∧ b = "v1") && match_prefixed "iso_" is_id_char 20 32 iso
      && match_prefixed "wsp_" is_id_char 20 32 wsp && match_prefixed "src_" is_id_char 20 32 source
      && match_prefixed "" is_hex_lower 64 64 digest
  | _ => false
  end.

Definition OpenWorkspaceSource (key : string) : io W (result ReadCloser) :=
  match workspaceSourceKeyPattern key, objectURL store key workspacePrefix with
  | true, Ok url =>
      answer ← Do (get_request url);
      mret (match answer with
      | Err _ => Err ErrSourceUnavailable
      | Ok response =>
          if decide (rsp_StatusCode response = StatusOK ∧ rsp_ContentEncoding response = "" ∧ (rsp_ContentLength response ≤ MaximumArchiveBytes)%Z)
          then Ok (rsp_Body response)
          else if decide (rsp_StatusCode response = StatusNotFound) then Err ErrSourceObjectMissing else Err ErrSourceUnavailable
      end)
  | _, _ => mret (Err ErrSourceInvalid)
  end.

(** The last segment of a key names the digest ([strings.HasSuffix]). *)
Definition names_digest (key digest : string) : bool := bool_decide (last (split key) = Some (trim_prefix digest "sha256:")).

Definition PutWorkspaceSourceIfAbsent (key content digest : string) : io W (option error) :=
  if negb (workspaceSourceKeyPattern key && ExecutionPlan.digestPattern digest && names_digest key digest
           && (1024 <=? go_len content)%Z && (go_len content <=? MaximumArchiveBytes)%Z)
  then mret (Some ErrSourceInvalid)
  else if decide (Sha256.digest_string content ≠ digest) then mret (Some ErrSourceInvalid)
  else match objectURL store key workspacePrefix with
  | Err _ => mret (Some ErrSourceInvalid)
  | Ok url =>
      answer ← Do (put_request url "application/x-tar" content (go_len content));
      mret (match answer with
      | Err _ => Some ErrSourceUnavailable
      | Ok response =>
          if decide (rsp_StatusCode response = StatusOK) then None
          else if decide (rsp_StatusCode response = StatusPreconditionFailed) then Some ErrSourceConflict else Some ErrSourceUnavailable
      end)
  end.
End operations.

(** ** Keys *)

Definition good_segment (p : string) : Prop := p ≠ "" ∧ all_bytes is_opaque_char p = true ∧ p ∉ ["."; ".."].

Lemma opaque_segment_no_slash p : all_bytes is_opaque_char p = true → no_slash p.
Proof. intros H. by eapply all_bytes_not_in. Qed.

Lemma no_double_slash l : slash ∉ l → contains_double_slash l = false.
Proof.
  induction l as [|c [|d l] IH]; intros H; [done|done|]. cbn [contains_double_slash].
  apply not_elem_of_cons in H as [Hc Hl]. rewrite bool_decide_false by naive_solver. by apply IH.
Qed.

Lemma double_slash_app l c r :
  slash ∉ l → c ≠ slash → contains_double_slash (c :: r) = false → contains_double_slash (l ++ slash :: c :: r) = false.
Proof.
  intros Hl Hc Hr. induction l as [|a l IH].
  - cbn [app contains_double_slash]. rewrite bool_decide_false by naive_solver. exact Hr.
  - apply not_elem_of_cons in Hl as [Ha Hl]. destruct l as [|b l]; cbn [app contains_double_slash] in *;
      rewrite bool_decide_false by naive_solver; by apply IH.
Qed.

Lemma join_key_bytes p ps : Forall good_segment (p :: ps) →
  (∃ c r, bytes_of (join "/" (p :: ps)) = c :: r ∧ bytes_of p = c :: drop 1 (bytes_of p) ∧ c ≠ slash)
  ∧ contains_double_slash (bytes_of (join "/" (p :: ps))) = false ∧ all_bytes is_key_char (join "/" (p :: ps)) = true.
Proof.
  revert p. induction ps as [|q ps IH]; intros p [(Hne & Hall & _) Hps]%Forall_cons.
  all: pose proof (opaque_segment_no_slash p Hall) as Hs; unfold no_slash in Hs.
  all: assert (all_bytes is_key_char p = true) as Hk by
    (unfold all_bytes in *; rewrite forallb_forall in *; intros x Hx; unfold is_key_char; by rewrite Hall).
  all: assert (∃ c r, bytes_of p = c :: r ∧ c ≠ slash) as (c & r & Hp & Hc) by
    (destruct p as [|c p]; [done|]; exists c, (bytes_of p); split; [done|]; intros ->; apply Hs; left).
  - cbn [join]. split_and!; [exists c, r; by rewrite Hp|by apply no_double_slash|done].
  - destruct (IH q Hps) as ((d & r' & Hj & _ & Hd) & Hcds & Hkq). rewrite bytes_join. split_and!.
    + exists c, (r ++ bytes_of "/" ++ bytes_of (join "/" (q :: ps))). by rewrite Hp.
    + rewrite Hj in *. by apply double_slash_app.
    + unfold all_bytes in *. rewrite bytes_join, !forallb_app, Hk, Hkq. done.
Qed.

Lemma validKey_join p ps pfx : Forall good_segment (p :: ps) → is_alnum (default slash (head (bytes_of p))) = true →
  (go_len (join "/" (p :: ps)) ≤ 1024)%Z → pfx ≠ "" → has_prefix (join "/" (p :: ps)) pfx = true → validKey (join "/" (p :: ps)) pfx = true.
Proof.
  intros Hg Ha Hlen Hne Hpfx. destruct (join_key_bytes p ps Hg) as ((c & r & Hj & Hp & Hc) & Hcds & Hall).
  unfold validKey. rewrite Hpfx, Hcds, (bool_decide_false _ Hne), split_join; [|done|].
  2:{ eapply Forall_impl; [exact Hg|]. intros x (_ & Hx & _). by apply opaque_segment_no_slash. }
  rewrite (proj2 (Z.leb_le _ _) Hlen). cbn [negb andb]. rewrite !andb_true_r, !andb_true_iff. split_and!.
  - unfold keyPattern. destruct (join "/" (p :: ps)) as [|c' s] eqn:E; [done|]. cbn in Hj. injection Hj as -> Hr.
    rewrite Hp in Ha. cbn in Ha. rewrite Ha. unfold all_bytes in Hall. cbn in Hall. apply andb_true_iff in Hall as [_ Hall]. exact Hall.
  - unfold contains_byte. rewrite bool_decide_false; [done|]. by apply (all_bytes_not_in _ _ _ Hall).
  - apply forallb_forall. intros x Hx%list_elem_of_In. rewrite Forall_forall in Hg. destruct (Hg x Hx) as (_ & _ & Hd).
    by rewrite bool_decide_false.
Qed.

Lemma all_bytes_weaken (P Q : ascii → bool) s : (∀ c, P c = true → Q c = true) → all_bytes P s = true → all_bytes Q s = true.
Proof. unfold all_bytes. rewrite !forallb_forall. auto. Qed.

Lemma id_char_opaque c : is_id_char c = true → is_opaque_char c = true.
Proof. unfold is_id_char, is_opaque_char, is_alnum. intros [H|H]%orb_true_iff; rewrite H; by rewrite ?orb_true_r. Qed.
Lemma hex_char_opaque c : is_hex_lower c = true → is_opaque_char c = true.
Proof.
  unfold is_hex_lower, is_opaque_char, is_alnum. intros [H|H]%orb_true_iff; [rewrite H; by rewrite ?orb_true_r|].
  assert (is_lower c = true) as Hl; [|rewrite Hl; by rewrite ?orb_true_r].
  revert H. unfold is_lower, in_range. rewrite !andb_true_iff, !N.leb_le. lia.
Qed.

(** A segment that a pattern admits, and how long it is. *)
Lemma pattern_segment pfx class lo hi s :
  (∀ c, class c = true → is_opaque_char c = true) → all_bytes is_opaque_char pfx = true → 3 ≤ slen pfx + lo →
  match_prefixed pfx class lo hi s = true → good_segment s ∧ slen s ≤ slen pfx + hi.
Proof.
  intros Hc Hp Hlo (rest & -> & Hlen & Hr)%match_prefixed_spec.
  assert (slen (pfx +:+ rest) = slen pfx + slen rest) as Hs by (rewrite <- !length_bytes_of, bytes_of_app, length_app; done).
  split; [|lia]. split_and!.
  - intros E. rewrite E in Hs. cbn in Hs. lia.
  - unfold all_bytes in *. rewrite bytes_of_app, forallb_app, Hp. by eapply all_bytes_weaken.
  - intros Hin. assert (slen (pfx +:+ rest) ≤ 2); [|lia]. apply elem_of_cons in Hin as [->|Hin]; [cbn; lia|].
    apply list_elem_of_singleton in Hin as ->. cbn. lia.
Qed.

Lemma digest_segment digest : ExecutionPlan.digestPattern digest = true →
  match_prefixed "" is_hex_lower 64 64 (trim_prefix digest "sha256:") = true.
Proof.
  intros (h & -> & Hlen & Hh)%match_prefixed_spec. unfold trim_prefix. rewrite strip_prefix_app.
  apply match_prefixed_spec. by exists h.
Qed.

Lemma opaque_id_segment s : opaqueIdentifierPattern s = true → good_segment s ∧ slen s ≤ 128.
Proof.
  unfold opaqueIdentifierPattern, match_headed. destruct s as [|c s]; [done|]. intros H. to_prop. destruct_and?.
  assert (is_opaque_char c = true) as Hc by (unfold is_opaque_char; match goal with H : is_alnum c = true |- _ => by rewrite H end).
  split; [|unfold slen in *; cbn [String.length] in *; lia]. split_and!; [done| |].
  - change (is_opaque_char c && all_bytes is_opaque_char s = true). rewrite Hc. done.
  - intros Hin. assert (c = "."%char) as ->; [|done]. apply elem_of_cons in Hin as [[=]|Hin]; [done|].
    apply list_elem_of_singleton in Hin as [=]; done.
Qed.

Lemma yaml_segment s : match_prefixed "" is_hex_lower 64 64 s = true → good_segment (s +:+ ".yaml") ∧ slen (s +:+ ".yaml") ≤ 69.
Proof.
  intros (h & Hs & Hlen & Hh)%match_prefixed_spec. change ("" +:+ h) with h in Hs. subst s.
  assert (slen (h +:+ ".yaml") = slen h + 5) as Hl by (rewrite <- !length_bytes_of, bytes_of_app, length_app; done).
  split; [|lia]. split_and!.
  - intros E. rewrite E in Hl. cbn in Hl. lia.
  - unfold all_bytes in *. rewrite bytes_of_app, forallb_app. apply andb_true_iff. split; [|done]. eapply all_bytes_weaken; [apply hex_char_opaque|done].
  - intros Hin. assert (slen (h +:+ ".yaml") ≤ 2); [|lia]. apply elem_of_cons in Hin as [->|Hin]; [cbn; lia|].
    apply list_elem_of_singleton in Hin as ->. cbn. lia.
Qed.

Lemma closed_segment s : bool_decide (s ≠ "" ∧ all_bytes is_opaque_char s = true ∧ s ∉ ["."; ".."]) = true → good_segment s.
Proof. by intros ?%bool_decide_eq_true. Qed.

Lemma platform_key first iso second third last pfx :
  first ≠ "" → good_segment first → is_alnum (default slash (head (bytes_of first))) = true → slen first ≤ 30 →
  (good_segment iso ∧ slen iso ≤ 128) → (good_segment second ∧ slen second ≤ 128) → (good_segment third ∧ slen third ≤ 128) →
  (good_segment last ∧ slen last ≤ 128) → pfx ≠ "" → has_prefix (join "/" [first; "v1"; iso; second; third; last]) pfx = true →
  validKey (join "/" [first; "v1"; iso; second; third; last]) pfx = true.
Proof.
  intros Hne Hf Ha Hlf [Hi Hli] [H2 Hl2] [H3 Hl3] [H4 Hl4] Hp Hpfx. apply validKey_join; [|done| |done|done].
  - repeat (apply Forall_cons; split; [first [assumption|by apply closed_segment]|]). by apply Forall_nil.
  - pose proof (join_size "/" [first; "v1"; iso; second; third; last] eq_refl) as Hs. specialize (Hs ltac:(done)).
    cbn [sum_list_with] in Hs. change (slen "v1") with 2 in Hs. unfold go_len. unfold slen in *. lia.
Qed.

Lemma artifact_key_parts record : ar_ObjectKey (Artifact.with_key record (Artifact.ObjectKey record)) =
  join "/" ["invocation-artifacts"; "v1"; ar_IsolationDomainID record; ar_InvocationID record; ar_ID record; trim_prefix (ar_Digest record) "sha256:"].
Proof. reflexivity. Qed.
Lemma bundle_key_parts record : er_ObjectKey (with_object_key record (EnforcementBundleObjectKey record)) =
  join "/" ["enforcement-bundles"; "v1"; er_IsolationDomainID record; er_RevisionID record; er_ID record; trim_prefix (er_Digest record) "sha256:" +:+ ".yaml"].
Proof. reflexivity. Qed.

Lemma objectURL_valid store key pfx : validKey key pfx = true → is_ok (objectURL store key pfx) = true.
Proof. unfold objectURL. intros ->. by destruct (s3_style store). Qed.

Lemma id_segment pfx s : match_prefixed pfx is_id_char 20 32 s = true → all_bytes is_opaque_char pfx = true → slen pfx ≤ 5 →
  good_segment s ∧ slen s ≤ 128.
Proof. intros Hm Hp Hl. destruct (pattern_segment pfx is_id_char 20 32 s id_char_opaque Hp ltac:(lia) Hm). split; [done|lia]. Qed.

Lemma artifact_key_accepted record normalized : Artifact.NormalizeRecord record = Ok normalized →
  validKey (ar_ObjectKey normalized) invocationArtifactKeyPrefix = true ∧ invocationArtifactObjectKeyPattern (ar_ObjectKey normalized) = true.
Proof.
  intros (Hv & _ & ->)%NormalizeRecord_Ok. rewrite artifact_key_parts. unfold Artifact.record_valid in Hv. to_prop. destruct_and?.
  unfold Artifact.isolationDomainPattern, Artifact.invocationPattern, Artifact.artifactPattern in *.
  assert (match_prefixed "" is_hex_lower 64 64 (trim_prefix (ar_Digest record) "sha256:") = true) as Hd by by apply digest_segment.
  pose proof (pattern_segment "" is_hex_lower 64 64 _ hex_char_opaque eq_refl ltac:(cbn; lia) Hd) as [Hd' Hdl]. cbn [slen String.length] in Hdl.
  assert (good_segment (ar_IsolationDomainID record) ∧ slen (ar_IsolationDomainID record) ≤ 128) as Hi by (eapply id_segment; [eassumption|done|cbn; lia]).
  assert (good_segment (ar_InvocationID record) ∧ slen (ar_InvocationID record) ≤ 128) as Hinv by (eapply id_segment; [eassumption|done|cbn; lia]).
  assert (good_segment (ar_ID record) ∧ slen (ar_ID record) ≤ 128) as Hart by (eapply id_segment; [eassumption|done|cbn; lia]).
  split.
  - apply platform_key; [done|by apply closed_segment|done|cbn; lia|done|done|done|split; [done|cbn in Hdl; lia]|done|reflexivity].
  - unfold invocationArtifactObjectKeyPattern. rewrite split_join; [|done|].
    + rewrite bool_decide_true by done. rewrite Hd. cbn [andb]. rewrite !andb_true_r, !andb_true_iff. done.
    + repeat (apply Forall_cons; split; [apply opaque_segment_no_slash; first [reflexivity|by apply Hi|by apply Hinv|by apply Hart|by apply Hd']|]).
      by apply Forall_nil.
Qed.

Lemma bundle_key_accepted record normalized : NormalizeEnforcementBundleRecord record = Ok normalized →
  validKey (er_ObjectKey normalized) enforcementPrefix = true.
Proof.
  intros (-> & Hi & Hr & Hid & Hd & _)%NormalizeEnforcementBundleRecord_Ok. rewrite bundle_key_parts.
  destruct (yaml_segment _ (digest_segment _ Hd)) as [Hy Hyl]. destruct (opaque_id_segment _ Hid) as [Ho Hol].
  apply platform_key; [done|by apply closed_segment|done|cbn; lia| | |done|split; [done|lia]|done|reflexivity];
    (eapply id_segment; [eassumption|done|cbn; lia]).
Qed.

(** The object store takes every key that the other components derive.  The key of a
    normalised artifact or enforcement bundle is addressable under its prefix, and an
    artifact's key has the shape that the store requires of artifact keys, so a
    finalisation is never refused for its key. *)
Lemma platform_keys_accepted store :
  (∀ record normalized, Artifact.NormalizeRecord record = Ok normalized →
     is_ok (objectURL store (ar_ObjectKey normalized) invocationArtifactKeyPrefix) = true
     ∧ invocationArtifactObjectKeyPattern (ar_ObjectKey normalized) = true)
  ∧ ∀ record normalized, NormalizeEnforcementBundleRecord record = Ok normalized →
     is_ok (objectURL store (er_ObjectKey normalized) enforcementPrefix) = true.
Proof.
  split; [|intros record normalized H; apply objectURL_valid; by eapply bundle_key_accepted].
  intros record normalized H. destruct (artifact_key_accepted _ _ H). split; [by apply objectURL_valid|done].
Qed.

(** ** What the bucket promises *)

(** The requests that leave the objects there are as they are: reads, and writes under
    the condition that there is no object yet. *)
Definition keeps_objects (rq : Request) : Prop :=
  rq_Method rq = "GET" ∨ rq_Method rq = "PUT" ∧ ("If-None-Match", "*") ∈ rq_Header rq.

Lemma get_keeps_objects u : keeps_objects (get_request u).
Proof. by left. Qed.
Lemma put_keeps_objects u mediaType content size : keeps_objects (put_request u mediaType content size).
Proof. right. split; [done|]. set_solver. Qed.

(** S3 with strong consistency, in a bucket whose objects nobody else overwrites or
    deletes: a read and a conditional write keep every object.  A response body
    delivers a prefix of the object, all of it unless reading it ends in a fault. *)
Class ObjectServer (W : Type) `{GoContext W, HttpClient W} := {
  passes : relation W;
  passes_order :: PreOrder passes;
  object_at : W → URL → string → Prop;
  object_passes w w' u c : passes w w' → object_at w u c → object_at w' u c;
  object_once w u c1 c2 : object_at w u c1 → object_at w u c2 → c1 = c2;
  server_ctx w w' e : ctx_Err w = (w', e) → passes w w';
  server_do w w' rq a : keeps_objects rq → Do rq w = (w', a) → passes w w';
  server_get w w' u response : Do (get_request u) w = (w', Ok response) → rsp_StatusCode response = StatusOK →
    rsp_ContentEncoding response = "" →
    ∃ c rest, object_at w' u c ∧ c = rc_stream (rsp_Body response) +:+ rest ∧ (rc_fault (rsp_Body response) = None → rest = "") }.

Section server.
Context {W : Type} `{ObjectServer W, MediaTypes} (store : Store).

Lemma open_artifact_object maximumBytes key w w' a :
  OpenInvocationArtifactObject store maximumBytes key w = (w', a) → passes w w'
  ∧ ∀ o, a = Ok o → ∃ u c rest, objectURL store key invocationArtifactKeyPrefix = Ok u ∧ object_at w' u c
      ∧ c = rc_stream o +:+ rest ∧ (rc_fault o = None → rest = "").
Proof.
  unfold OpenInvocationArtifactObject. destruct (objectURL _ _ _) as [u|]; [|by intros [= <- <-]].
  destruct (invocationArtifactObjectKeyPattern key); [|by intros [= <- <-]]. unfold mbind, io_bind.
  destruct (Do (get_request u) w) as [w1 [response|err]] eqn:E; pose proof (server_do _ _ _ _ (get_keeps_objects u) E) as P1.
  - case_decide as Hs; [|case_decide; intros [= <- <-]; done]. case_decide as Hc; [by intros [= <- <-]|].
    intros [= <- <-]. split; [done|]. intros o [= <-]. destruct (server_get _ _ _ _ E Hs) as (c & rest & Ho & -> & Hf); [|by eauto 10].
    apply dec_stable. tauto.
  - unfold unless_cancelled, mbind, io_bind. destruct (ctx_Err w1) as [w2 e] eqn:Ec. pose proof (server_ctx _ _ _ Ec) as P2.
    destruct e; intros [= <- <-]; (split; [by etrans|done]).
Qed.

Lemma unless_done_passes k w w' a :
  (∀ w1, passes w w1 → k w1 = (w', a) → passes w w') → unless_done k w = (w', a) → passes w w'.
Proof.
  intros Hk. unfold unless_done, mbind, io_bind. destruct (ctx_Err w) as [w1 e] eqn:Ec. pose proof (server_ctx _ _ _ Ec) as P1.
  destruct e; [by intros [= <- <-]|]. by apply Hk.
Qed.

Lemma put_artifact_object maximumBytes key content size digest media w w' a :
  PutInvocationArtifactObjectIfAbsent store maximumBytes key content size digest media w = (w', a) → passes w w'.
Proof.
  apply unless_done_passes. intros w1 P1. destruct (objectURL _ _ _) as [u|]; [|by intros [= <- <-]].
  destruct (_ && _); [|by intros [= <- <-]]. cbv zeta. case_decide; [by intros [= <- <-]|]. intros H'.
  trans w1; [done|]. revert H'. apply unless_done_passes. intros w2 P2. unfold mbind, io_bind.
  destruct (Do _ w2) as [w3 answer] eqn:E. pose proof (server_do _ _ _ _ (put_keeps_objects _ _ _ _) E) as P3. unfold written.
  destruct answer as [response|err]; [intros [= <- <-]; by etrans|]. unfold mbind, io_bind.
  destruct (ctx_Err w3) as [w4 e] eqn:Ec. pose proof (server_ctx _ _ _ Ec) as P4. intros [= <- <-]. do 2 (etrans; [eassumption|]). done.
Qed.
End server.
