(* ===== verification/ArtifactDeployment.v ===== *)
(** * Artifacts, as deployed

    The finaliser and the reader over the PostgreSQL catalog of [ArtifactCatalog] and the
    S3 store of [S3Store].  Between any two of their calls other workers change the
    database in any way the system allows; a call to the database may fail, before its
    transaction or after it was committed. *)
From stdpp Require Import pretty.
From S2P Require Import Prelude.
From S2P Require Import GoStrings.
From S2P Require Import Sha256.
From S2P Require Import GoJson.
From S2P Require Import Domain.
From S2P Require Import Database.
From S2P Require Import OperationStore.
From S2P Require Import RuntimeInteraction.
From S2P Require Import StoreSteps.
From S2P Require Import ApprovalExamples.
From S2P Require Import Enforcement.
From S2P Require Import RuntimeDriver.
From S2P Require Import RuntimeStore.
From S2P Require Import ArtifactCatalog.
From S2P Require Import RuntimeAttempts.
From S2P Require Import RuntimeSystem.
From S2P Require Import JournalTheorems.
From S2P Require Import RuntimeStoreExamples.
From S2P Require Import ArtifactFinalizer.
From S2P Require Import S3Store.

(** Bindings stay, whatever calls are made. *)
Section catalog.
Context `{SchemaEngine}.

Lemma call_catalog ses c s s' : run_runtime ses c s = Ok s' → catalog_le s s'.
Proof.
  unfold run_runtime, done_with. intros R. destruct c.
  - destruct (BeginInvocationRuntimeAttempt _ _ _ _) as [[s1 a]|] eqn:E; [|done]. simplify_eq.
    apply begin_spec in E as (attempt & _ & _ & -> & _). by apply catalog_same.
  - destruct (finishInvocationRuntimeAttempt _ _ _ _ _ _) as [[s1 a]|] eqn:E; [|done]. simplify_eq.
    apply finish_spec in E as (_ & _ & [->|(row & value & encoded & _ & _ & _ & _ & -> & _)]); by apply catalog_same.
  - destruct (PrepareInvocationRuntimeOutputFailure _ _ _ _ _) as [[s1 a]|] eqn:E; [|done]. simplify_eq.
    apply prepare_spec in E as (_ & row & value & _ & _ & ->). by apply catalog_same.
  - destruct (RecordInvocationRuntimeEvent _ _ _ _) as [[s1 a]|] eqn:E; [|done]. simplify_eq.
    apply record_spec in E as (target & encoded & artifact & _ & _ & _ & _ & _ & [(-> & _)|[_ E]]); [by apply catalog_same|].
    apply append_spec in E as (stored & _ & _ & _ & _ & ->). by apply catalog_same.
  - destruct (BindInvocationArtifact _ _ _) as [[s1 a]|] eqn:E; [|done]. simplify_eq.
    apply bind_spec in E as (n & _ & -> & [[-> _]|(Ho & Ha & _ & -> & _)]); [by apply catalog_same|by apply catalog_bound].
Qed.

Lemma run_catalog w w' : rtc runtime_step w w' → catalog_le (rw_store w) (rw_store w').
Proof.
  induction 1 as [w|w w1 w' S _ IH]; [by apply catalog_same|]. intros dom id record Hf. apply IH. revert dom id record Hf.
  destruct S as [ses c s cs s' Hc|s cs d cs' _ _|s cs plans instances preparations completions]; [by eapply call_catalog|by apply catalog_same..].
Qed.
End catalog.

(** ** The deployment *)

Section deployment.
Context `{SchemaEngine} {N : Type} `{ObjectServer N, MediaTypes} (bucket : Store) (objectBytes : Z).

(** What happens around one call to the database: the steps of others before it, its
    clocks, and a failure, with whether the transaction was committed. *)
Record move := Move {
  mv_steps : runtime_world → runtime_world; mv_legal : ∀ w, rtc runtime_step w (mv_steps w);
  mv_session : session; mv_failure : option (bool * string) }.

Record deployment := Deployment { dp_world : runtime_world; dp_http : N; dp_moves : list move }.

Definition idle (ses : session) : move := Move (λ w, w) (λ w, rtc_refl _ w) ses None.
Definition next_move (w : deployment) : move := default (idle (Session (λ _, 0%Z) (λ _, 0%Z) (λ _, []))) (head (dp_moves w)).
Definition after_move (w : deployment) : deployment :=
  Deployment (mv_steps (next_move w) (dp_world w)) (dp_http w) (tail (dp_moves w)).

Definition on_http {A} (m : io N A) : io deployment A := λ w,
  let '(h, a) := m (dp_http w) in (Deployment (dp_world w) h (dp_moves w), a).

#[export] Instance deployed_context : GoContext deployment := on_http ctx_Err.
#[export] Instance deployed_reader : ArtifactReader deployment := λ key, on_http (OpenInvocationArtifactObject bucket objectBytes key).
#[export] Instance deployed_writer : ArtifactWriter deployment := λ key content size digest media,
  on_http (PutInvocationArtifactObjectIfAbsent bucket objectBytes key content size digest media).

Definition get_record (domainID artifactID : string) : io deployment (result ArtifactRecord) := λ w,
  let w' := after_move w in
  (w', match mv_failure (next_move w) with
       | Some (_, text) => Err (ENew text)
       | None => GetInvocationArtifactRecord domainID artifactID (rw_store (dp_world w'))
       end).

Definition bind_record (binding : ArtifactBinding) : io deployment (result ArtifactRecord) := λ w,
  let w' := after_move w in
  match mv_failure (next_move w), BindInvocationArtifact (mv_session (next_move w)) binding (rw_store (dp_world w')) with
  | Some (false, text), _ => (w', Err (ENew text))
  | None, Err err => (w', Err err)
  | Some (true, text), Err _ => (w', Err (ENew text))
  | failure, Ok (s, record) =>
      (Deployment (RuntimeWorld s (rw_claims (dp_world w'))) (dp_http w') (dp_moves w'),
       match failure with Some (_, text) => Err (ENew text) | None => Ok record end)
  end.
#[export] Instance deployed_bindings : ArtifactBindings deployment :=
  {| GetInvocationArtifactRecord_ := get_record; BindInvocationArtifact_ := bind_record |}.

(** ** It keeps the promises *)

Definition goes (w w' : deployment) : Prop := rtc runtime_step (dp_world w) (dp_world w') ∧ passes (dp_http w) (dp_http w').
Definition catalogued (w : deployment) (d i : string) (r : ArtifactRecord) : Prop :=
  findInvocationArtifactRecord d i (rw_store (dp_world w)) = Ok (Some r).
Definition object_held (w : deployment) (key content : string) : Prop :=
  ∃ u, objectURL bucket key invocationArtifactKeyPrefix = Ok u ∧ object_at (dp_http w) u content.

#[export] Instance goes_preorder : PreOrder goes.
Proof.
  split; [intros w; split; [apply rtc_refl|reflexivity]|]. intros a b c [A1 A2] [B1 B2]. split; [by etrans|by etrans].
Qed.

Lemma on_http_goes {A} (m : io N A) w w' a :
  (∀ h h' a, m h = (h', a) → passes h h') → on_http m w = (w', a) → goes w w'.
Proof.
  unfold on_http. intros Hm. destruct (m (dp_http w)) as [h a'] eqn:E. intros [= <- <-]. split; [apply rtc_refl|by eapply Hm].
Qed.

Lemma after_move_goes w : goes w (after_move w).
Proof. split; [apply mv_legal|reflexivity]. Qed.

Lemma catalogued_goes w w' d i r : goes w w' → catalogued w d i r → catalogued w' d i r.
Proof. intros [R _]. apply (run_catalog _ _ R). Qed.

Lemma bind_record_spec w w' b a : bind_record b w = (w', a) →
  goes w w' ∧ ∀ r, a = Ok r → catalogued w' (ar_IsolationDomainID r) (ar_ID r) r.
Proof.
  unfold bind_record. intros Hb. pose proof (after_move_goes w) as G. set (w1 := after_move w) in *. clearbody w1.
  destruct (BindInvocationArtifact (mv_session (next_move w)) b (rw_store (dp_world w1))) as [[s record]|err] eqn:E.
  2:{ destruct (mv_failure (next_move w)) as [[[] text]|]; injection Hb as <- <-; done. }
  assert (goes w (Deployment (RuntimeWorld s (rw_claims (dp_world w1))) (dp_http w1) (dp_moves w1))) as G'.
  { etrans; [exact G|]. split; [|reflexivity]. cbn. apply rtc_once. destruct (dp_world w1) as [s1 cs].
    eapply (step_runtime (mv_session (next_move w)) (CallBind b)). unfold run_runtime, done_with. cbn in E. by rewrite E. }
  destruct (mv_failure (next_move w)) as [[[] text]|]; injection Hb as <- <-; try done. split; [done|].
  intros r [= <-]. apply bind_spec in E as (n & _ & -> & [[-> Hf]|(_ & _ & _ & -> & Hf)]); exact Hf.
Qed.

Lemma get_record_missing w w' d i e r :
  get_record d i w = (w', Err e) → is_err e Artifact.ErrInvocationArtifactMissing = true → ¬ catalogued w d i r.
Proof.
  intros Hg Hm Hc. apply (f_equal snd) in Hg. cbn [snd get_record] in Hg. apply (catalogued_goes _ _ _ _ _ (after_move_goes w)) in Hc.
  destruct (mv_failure (next_move w)) as [[? text]|]; [by injection Hg as <-|].
  unfold GetInvocationArtifactRecord in Hg. unfold catalogued in Hc. by rewrite Hc in Hg.
Qed.

#[export] Instance deployed_world : ArtifactWorld deployment.
Proof.
  refine {| later := goes; bound := catalogued; stored := object_held |}.
  - apply catalogued_goes.
  - intros w w' k c [_ P] (u & Hu & Ho). exists u. split; [done|by eapply object_passes].
  - unfold catalogued. congruence.
  - intros w k c1 c2 (u1 & Hu1 & Ho1) (u2 & Hu2 & Ho2). rewrite Hu1 in Hu2. injection Hu2 as <-. by eapply object_once.
  - intros w w' e. apply on_http_goes, server_ctx.
  - intros w w' d i a [= <- _]. apply after_move_goes.
  - intros w w' d i r Hg. apply pair_equal_spec in Hg as [<- Hg]. destruct (mv_failure (next_move w)) as [[? text]|]; [done|].
    unfold GetInvocationArtifactRecord in Hg. apply result_bind_Ok in Hg as ([r'|] & Hf & [= <-]). exact Hf.
  - apply get_record_missing.
  - intros w w' b a Hb. exact (proj1 (bind_record_spec _ _ _ _ Hb)).
  - intros w w' b r Hb. exact (proj2 (bind_record_spec _ _ _ _ Hb) r eq_refl).
  - intros w w' k a. apply on_http_goes. intros h h' a' Ho. exact (proj1 (open_artifact_object _ _ _ _ _ _ Ho)).
  - intros w w' k o. unfold OpenInvocationArtifactObject_, deployed_reader, on_http.
    destruct (OpenInvocationArtifactObject bucket objectBytes k (dp_http w)) as [h a] eqn:E. intros [= <- ->].
    apply open_artifact_object in E as [_ Ho]. destruct (Ho o eq_refl) as (u & c & rest & Hu & Hat & -> & Hf).
    exists (rc_stream o +:+ rest), rest. split_and!; [by exists u|done|done].
  - intros w w' k c size digest media a. apply on_http_goes. intros h h' a'. apply put_artifact_object.
Defined.

(** C9: What was finalised can be read.  With the PostgreSQL catalog and an S3 bucket whose
    objects are immutable: once a finalisation answered, whatever other workers do to
    the database and the bucket afterwards, and whichever calls fail, a reader whose
    bound admits the artifact is answered the finalised record with exactly the
    finalised content, or an error that says nothing about the artifact (the request
    was cancelled, or a collaborator was unavailable).  It is never told that the
    artifact is missing, invalid or different. *)
Theorem deployed_artifacts_readable maximumBytes maximumRead finalization w w1 w2 w3 record r :
  Finalize maximumBytes finalization w = (w1, Ok record) →
  rtc runtime_step (dp_world w1) (dp_world w2) → passes (dp_http w1) (dp_http w2) →
  (ar_SizeBytes record ≤ maximumRead)%Z →
  Read maximumRead (ar_IsolationDomainID record) (ar_InvocationID record) (ar_ID record) w2 = (w3, r) →
  r = Ok (MkContent record (fz_Content finalization)) ∨ ∃ e, r = Err e ∧ excused (W := deployment) e.
Proof. intros Hf R P Hmax. apply (artifact_stays_readable _ _ _ _ _ _ _ _ _ Hf); [exact (conj R P)|done]. Qed.
End deployment.

(** ** A bucket, and a run *)

#[local] Instance url_eq_dec : EqDecision URL.
Proof. solve_decision. Defined.
#[local] Instance any_media : MediaTypes := λ _, true.

(** The objects of a bucket, and whether the next request fails. *)
Definition served := list (URL * string).
Definition object_in (w : served) (u : URL) : option string := snd <$> (snd <$> list_find (λ kv : URL * string, kv.1 = u) w).
Definition answered_with (status : Z) (body : string) : result Response := Ok (MkResponse status "" (go_len body) (MkReadCloser body None None)).

#[local] Instance calm : GoContext served := λ w, (w, None).
#[local] Instance simple_s3 : HttpClient served := λ rq w,
  match object_in w (rq_URL rq), bool_decide (rq_Method rq = "GET") with
  | Some body, true => (w, answered_with StatusOK body)
  | None, true => (w, answered_with StatusNotFound "")
  | Some _, false => (w, answered_with StatusPreconditionFailed "")
  | None, false => (w ++ [(rq_URL rq, rq_Body rq)], answered_with StatusOK "")
  end.

Lemma object_in_app w k u c : object_in w u = Some c → object_in (w ++ k) u = Some c.
Proof.
  unfold object_in. intros (kv & (ikv & Hf & ->)%fmap_Some & ->)%fmap_Some. destruct ikv as [i kv].
  by rewrite (list_find_app_l _ _ _ _ _ Hf).
Qed.

#[local] Instance simple_server : ObjectServer served.
Proof.
  refine {| passes := prefix; object_at := λ w u c, object_in w u = Some c |}.
  - intros w w' u c [k ->]. apply object_in_app.
  - intros w u c1 c2. congruence.
  - intros w w' e [= <- <-]. done.
  - intros w w' rq a _. unfold Do, simple_s3. destruct (object_in w _), (bool_decide _); intros [= <- <-]; try done. by eexists.
  - intros w w' u response. unfold Do, simple_s3. cbn [rq_URL get_request rq_Method].
    destruct (object_in w u) as [body|] eqn:E; cbn; intros [= <- <-]; [|done]. intros _ _. exists body, "". cbn.
    split_and!; [done|by rewrite append_nil_r|done].
Defined.

#[local] Instance plain_schemas : SchemaEngine := {| schema_compiles := λ _, true; schema_accepts := λ _ _, true |}.
Definition a_bucket : Store := MkStore (MkEndpoint "https" "s3.example" "s3.example" "") "artifacts" PathStyle.
#[local] Instance a_reader : ArtifactReader (deployment (N := served)) := deployed_reader a_bucket 4096.
#[local] Instance a_writer : ArtifactWriter (deployment (N := served)) := deployed_writer a_bucket 4096.

Definition deployed_before : deployment (N := served) := Deployment begun [] (repeat (idle (at_time 25)) 4).
Definition hello : Finalization :=
  MkFinalization (artifact_binding (holder begun) (answer (holder begun) (rs_db (rw_store begun)))) "hello".
Definition no_record : ArtifactRecord := MkArtifact "" "" "" "" "" "" "" "" "" 0 "" false "".
Definition finalized_hello : deployment (N := served) * result ArtifactRecord := Finalize 1024 hello deployed_before.
Definition hello_record : ArtifactRecord := match finalized_hello.2 with Ok record => record | Err _ => no_record end.
Definition read_hello : deployment (N := served) * result Content :=
  Read 1024 (ar_IsolationDomainID hello_record) (ar_InvocationID hello_record) (ar_ID hello_record) finalized_hello.1.

Example hello_read : match read_hello.2 with Ok c => ct_Bytes c = "hello" | Err _ => False end.
Proof. vm_compute. reflexivity. Qed.

Lemma finalized_hello_ok : Finalize 1024 hello deployed_before = (finalized_hello.1, Ok hello_record).
Proof.
  change (finalized_hello = (finalized_hello.1, Ok hello_record)).
  unfold hello_record. assert (is_ok finalized_hello.2 = true) as Hok by (vm_compute; reflexivity).
  destruct finalized_hello as [w [record|err]]; [done|]. discriminate Hok.
Qed.

Lemma read_hello_eq :
  Read 1024 (ar_IsolationDomainID hello_record) (ar_InvocationID hello_record) (ar_ID hello_record) finalized_hello.1 = (read_hello.1, read_hello.2).
Proof. exact (surjective_pairing read_hello). Qed.

Lemma deployed_artifacts_readable_witness :
  read_hello.2 = Ok (MkContent hello_record "hello") ∨ ∃ e, read_hello.2 = Err e ∧ excused (W := deployment (N := served)) e.
Proof.
  refine (deployed_artifacts_readable a_bucket 4096 1024 1024 hello deployed_before finalized_hello.1 finalized_hello.1 read_hello.1
    hello_record read_hello.2 finalized_hello_ok (rtc_refl _ _) (reflexivity _) _ _).
  - vm_compute. discriminate.
  - exact read_hello_eq.
Defined.
