(* ===== verification/WorkspaceAccess.v ===== *)
(** * Installing and reading workspace sources

    [InstallSource] of [internal/workspace/catalog.go] and [ReadSource] of [access.go],
    with the records they pass, over any catalog, object store and authoriser.

    [SourceWorld] is what those promise; [SourceDeployment] shows that the tables of
    [SourceTables] and the store of [S3Store] keep it.  Instants are microseconds in UTC,
    as the database pool delivers them, so the checks of zone and of sub-microsecond
    digits in [validSourceTime] always hold. *)
From S2P Require Import Prelude.
From S2P Require Import GoStrings.
From S2P Require Import Sha256.
From S2P Require Import RuntimeInteraction.
From S2P Require Import Reconciler.
From S2P Require Import ExecutionPlan.
From S2P Require Import Enforcement.
From S2P Require Import WorkspaceSource.
From S2P Require Import RuntimeDriver.
From S2P Require Import ArtifactFinalizer.
From S2P Require Import S3Store.
From Stdlib Require Decidable.

(** ** Records *)

Definition ErrSourceMissing : error := ESentinel "workspace.ErrSourceMissing".
Definition ErrSourceUnauthorized : error := ESentinel "workspace.ErrSourceUnauthorized".
Definition SourceGrantV1 := "dataground.workspace-source-grant/v1".
Definition SourceUseV1 := "dataground.workspace-source-use/v1".
Definition SourceReadAdmission := "read-admission".
Definition SourceReadDelivery := "read-delivery".
Definition MaximumSourceGrantDuration : Z := 3600000000.

Definition sourceRevisionPattern : string → bool := match_prefixed "rev_" is_id_char 20 32.
Definition sourceOperationPattern : string → bool := match_prefixed "op_" is_id_char 20 32.
Definition sourceCorrelationPattern : string → bool := match_prefixed "cor_" is_id_char 20 32.
Definition sourceDigestPattern : string → bool := match_prefixed "sha256:" is_hex_lower 64 64.

Record SourceInstallation := MkInstallation { si_Record : SourceRecord; si_ActorID : string; si_CorrelationID : string }.
Record SourceCatalogEntry := MkSourceEntry { sce_Installation : SourceInstallation; sce_Ready : bool }.
#[export] Instance SourceInstallation_eq_dec : EqDecision SourceInstallation.
Proof. solve_decision. Defined.
#[export] Instance SourceCatalogEntry_eq_dec : EqDecision SourceCatalogEntry.
Proof. solve_decision. Defined.

Definition ValidSourceInstallation (v : SourceInstallation) : bool :=
  ValidSourceRecord (si_Record v) && sourceCorrelationPattern (si_CorrelationID v)
  && negb (bool_decide (si_ActorID v = "")) && (go_len (si_ActorID v) <=? 256)%Z
  && bool_decide (trim_space (si_ActorID v) = si_ActorID v) && valid_utf8 (si_ActorID v)
  && forallb (λ r, negb (is_control (rune_value r))) (runes (si_ActorID v)).

Definition SourceObjectKey (r : SourceRecord) : result string :=
  if ValidSourceRecord r
  then Ok ("workspace-sources/v1/" +:+ sr_IsolationDomainID r +:+ "/" +:+ sr_WorkspaceID r +:+ "/" +:+ sr_ID r +:+ "/"
           +:+ trim_prefix (sr_ArchiveDigest r) "sha256:")
  else Err ErrSourceInvalid.
(** [key, _ := SourceObjectKey(record)] *)
Definition object_key (r : SourceRecord) : string := match SourceObjectKey r with Ok key => key | Err _ => "" end.

Definition sourceMatches (r : SourceRecord) (snapshot : Snapshot) (size : Z) : bool :=
  bool_decide (sr_ArchiveBytes r = size ∧ sr_ArchiveDigest r = rc_ArchiveDigest (sn_receipt snapshot)
    ∧ sr_EntryCount r = rc_EntryCount (sn_receipt snapshot) ∧ sr_SourceBytes r = rc_SourceBytes (sn_receipt snapshot)).

Record SourceGrantChange := MkGrant {
  sg_Contract : string; sg_Record : SourceRecord; sg_RevisionID : string; sg_Generation : Z; sg_Operation : string;
  sg_ActivatedAt : Z; sg_ExpiresAt : Z; sg_ActorID : string; sg_ReasonDigest : string; sg_CorrelationID : string }.
#[export] Instance SourceGrantChange_eq_dec : EqDecision SourceGrantChange.
Proof. solve_decision. Defined.

(** The end of the year 9999. *)
Definition year_10000 : Z := 253402300800000000.
Definition validSourceTime (t : Z) : bool := bool_decide (zero_time < t < year_10000)%Z.

Definition grant_valid (v : SourceGrantChange) : bool :=
  bool_decide (sg_Contract v = SourceGrantV1)
  && ValidSourceInstallation (MkInstallation (sg_Record v) (sg_ActorID v) (sg_CorrelationID v))
  && sourceRevisionPattern (sg_RevisionID v) && (1 <=? sg_Generation v)%Z && sourceDigestPattern (sg_ReasonDigest v)
  && (if decide (sg_Operation v = "revoke") then bool_decide (sg_ActivatedAt v = zero_time ∧ sg_ExpiresAt v = zero_time)
      else if decide (sg_Operation v = "activate") then
        validSourceTime (sg_ActivatedAt v) && validSourceTime (sg_ExpiresAt v)
        && bool_decide (sg_ActivatedAt v < sg_ExpiresAt v ∧ sg_ExpiresAt v - sg_ActivatedAt v ≤ MaximumSourceGrantDuration)%Z
      else false).

Record SourceUse := MkSourceUse {
  su_Contract : string; su_Record : SourceRecord; su_RevisionID : string; su_OperationID : string;
  su_GrantGeneration : Z; su_ActorID : string; su_CorrelationID : string }.
#[export] Instance SourceUse_eq_dec : EqDecision SourceUse.
Proof. solve_decision. Defined.

Definition use_valid (v : SourceUse) : bool :=
  bool_decide (su_Contract v = SourceUseV1)
  && ValidSourceInstallation (MkInstallation (su_Record v) (su_ActorID v) (su_CorrelationID v))
  && sourceRevisionPattern (su_RevisionID v) && sourceOperationPattern (su_OperationID v) && (0 <? su_GrantGeneration v)%Z.

Record SourcePermit := MkPermit { sp_Generation : Z; sp_ExpiresAt : Z }.

(** ** Collaborators *)

Class SourceContexts (W : Type) := { Err_ : context → io W (option error); source_clock :: Clock W }.
Class SourceCatalog (W : Type) := {
  PrepareWorkspaceSource_ : context → SourceInstallation → io W (result SourceCatalogEntry);
  CompleteWorkspaceSource_ : context → SourceInstallation → io W (result SourceCatalogEntry);
  GetWorkspaceSource_ : context → string → string → string → io W (result SourceCatalogEntry) }.
(** A reader that is nil without an error is [Ok None]. *)
Class SourceObjects (W : Type) := {
  WorkspaceSourceStorageDigest : string;
  OpenWorkspaceSource_ : context → string → io W (result (option ReadCloser));
  PutWorkspaceSourceIfAbsent_ : context → string → string → string → io W (option error) }.
Class SourceAuthorizer (W : Type) := AuthorizeWorkspaceSource_ : context → SourceUse → string → io W (result SourcePermit).

(** ** Operations *)

Section operations.
Context {W : Type} `{TarFormat, SourceContexts W, SourceCatalog W, SourceObjects W}.

(** [if err := ctx.Err(); err != nil { return ..., err }] *)
Definition unless_over {A} (c : context) (k : io W (result A)) : io W (result A) :=
  e ← Err_ c; match e with Some err => mret (Err err) | None => k end.

(** The bytes of an object, read up to one more than expected. *)
Definition read_source (c : context) (key : string) (record : SourceRecord) : io W (result string) :=
  opened ← OpenWorkspaceSource_ c key;
  match opened with
  | Err err => mret (Err err)
  | Ok None => mret (Err ErrSourceUnavailable)
  | Ok (Some reader) =>
      let '(data, readErr) := read_limited (sr_ArchiveBytes record + 1) reader in
      unless_over c (mret (if decide (readErr ≠ None ∨ rc_close reader ≠ None) then Err ErrSourceUnavailable else Ok data))
  end.

Definition verifySourceObject (c : context) (key : string) (record : SourceRecord) (expected : string) : io W (result unit) :=
  unless_over c (
    read ← read_source c key record;
    mret (data ← read; if decide (data = expected) then Ok tt else Err ErrSourceConflict)).

(** Finding the object, or writing it and observing what the write did. *)
Definition ensure_object (c : context) (key : string) (entry : SourceCatalogEntry) (record : SourceRecord) (owned : string)
  : io W (result unit) :=
  found ← verifySourceObject c key record owned;
  match found with
  | Err err =>
      if is_err err ErrSourceObjectMissing && negb (sce_Ready entry) then
        _ ← PutWorkspaceSourceIfAbsent_ c key owned (sr_ArchiveDigest record);
        verifySourceObject c key record owned
      else mret (Err err)
  | Ok _ => mret (Ok tt)
  end.

Definition complete_installation (c : context) (installation : SourceInstallation) : io W (result SourceCatalogEntry) :=
  answer ← CompleteWorkspaceSource_ c installation;
  mret (completed ← answer;
        if decide (sce_Installation completed ≠ installation ∨ sce_Ready completed = false) then Err ErrSourceConflict
        else Ok completed).

Definition InstallSource (c : context) (installation : SourceInstallation) (archive : string) : io W (result SourceCatalogEntry) :=
  let record := si_Record installation in
  if negb (ValidSourceInstallation installation) || (WorkspaceSource.MaximumArchiveBytes <? go_len archive)%Z
  then mret (Err ErrSourceInvalid)
  else unless_over c (
    if decide (WorkspaceSourceStorageDigest ≠ sr_StorageProfileDigest record) then mret (Err ErrSourceConflict)
    else match Inspect archive (sr_ArchiveDigest record) with
    | Err _ => mret (Err ErrSourceInvalid)
    | Ok snapshot =>
        if negb (sourceMatches record snapshot (go_len archive)) then mret (Err ErrSourceInvalid)
        else
        prepared ← PrepareWorkspaceSource_ c installation;
        match prepared with
        | Err err => mret (Err err)
        | Ok entry =>
            if decide (sce_Installation entry ≠ installation) then mret (Err ErrSourceConflict)
            else
            ensured ← ensure_object c (object_key record) entry record archive;
            match ensured with
            | Err err => mret (Err err)
            | Ok _ => unless_over c (complete_installation c installation)
            end
        end
    end).

Context `{SourceAuthorizer W}.

(** The second decision, before the snapshot is handed out. *)
Definition deliver (c : context) (use : SourceUse) (permit : SourcePermit) (snapshot : Snapshot) : io W (result Snapshot) :=
  answer ← AuthorizeWorkspaceSource_ c use SourceReadDelivery;
  match answer with
  | Err err => mret (Err err)
  | Ok delivered =>
      now ← now_;
      if decide (sp_Generation delivered ≠ sp_Generation permit ∨ sp_ExpiresAt delivered ≠ sp_ExpiresAt permit
                 ∨ (sp_ExpiresAt delivered ≤ now)%Z)
      then mret (Err ErrSourceUnauthorized)
      else unless_over c (mret (Ok snapshot))
  end.

(** Reading the object that the catalog names, and the catalog once more. *)
Definition read_installed (c : context) (use : SourceUse) (permit : SourcePermit) (entry : SourceCatalogEntry) : io W (result Snapshot) :=
  let record := su_Record use in
  read ← read_source c (object_key record) record;
  match read with
  | Err err => mret (Err err)
  | Ok data =>
      match Inspect data (sr_ArchiveDigest record) with
      | Err _ => mret (Err ErrSourceConflict)
      | Ok snapshot =>
          if negb (sourceMatches record snapshot (go_len data)) then mret (Err ErrSourceConflict)
          else
          again ← GetWorkspaceSource_ c (sr_IsolationDomainID record) (sr_WorkspaceID record) (sr_ID record);
          match again with
          | Err err => mret (Err err)
          | Ok current => if decide (current ≠ entry) then mret (Err ErrSourceConflict) else deliver c use permit snapshot
          end
      end
  end.

Definition ReadSource (c : context) (use : SourceUse) : io W (result Snapshot) :=
  let record := su_Record use in
  if negb (use_valid use) then mret (Err ErrSourceInvalid)
  else unless_over c (
    admitted ← AuthorizeWorkspaceSource_ c use SourceReadAdmission;
    match admitted with
    | Err err => mret (Err err)
    | Ok permit =>
        now ← now_;
        if decide (sp_Generation permit ≠ su_GrantGeneration use ∨ validSourceTime (sp_ExpiresAt permit) = false
                   ∨ (sp_ExpiresAt permit ≤ now)%Z)
        then mret (Err ErrSourceUnauthorized)
        else
          let readCtx := WithDeadline c (sp_ExpiresAt permit) in
          if decide (WorkspaceSourceStorageDigest ≠ sr_StorageProfileDigest record) then mret (Err ErrSourceConflict)
          else
          found ← GetWorkspaceSource_ readCtx (sr_IsolationDomainID record) (sr_WorkspaceID record) (sr_ID record);
          match found with
          | Err err => mret (Err err)
          | Ok entry =>
              if decide (sce_Ready entry = false ∨ si_Record (sce_Installation entry) ≠ record) then mret (Err ErrSourceConflict)
              else read_installed readCtx use permit entry
          end
    end).
End operations.

(** ** What the collaborators promise *)

(** Time passes between calls; completed installations, objects and decisions stay. *)
Class SourceWorld (W : Type) `{SourceContexts W, SourceCatalog W, SourceObjects W, SourceAuthorizer W} := {
  since : relation W;
  since_order :: PreOrder since;
  finished : W → SourceInstallation → Prop;
  kept : W → string → string → Prop;
  decided : W → SourceUse → string → SourcePermit → Prop;
  finished_since w w' i : since w w' → finished w i → finished w' i;
  kept_since w w' k data : since w w' → kept w k data → kept w' k data;
  decided_since w w' use phase permit : since w w' → decided w use phase permit → decided w' use phase permit;
  kept_once w k data1 data2 : kept w k data1 → kept w k data2 → data1 = data2;
  err_since w w' c e : Err_ c w = (w', e) → since w w';
  now_since w w' t : now_ w = (w', t) → since w w';
  prepare_since w w' c i a : PrepareWorkspaceSource_ c i w = (w', a) → since w w';
  complete_since w w' c i a : CompleteWorkspaceSource_ c i w = (w', a) → since w w';
  complete_finished w w' c i entry : CompleteWorkspaceSource_ c i w = (w', Ok entry) → sce_Ready entry = true → finished w' (sce_Installation entry);
  source_get_since w w' c s k id a : GetWorkspaceSource_ c s k id w = (w', a) → since w w';
  source_get_finished w w' c s k id entry : GetWorkspaceSource_ c s k id w = (w', Ok entry) → sce_Ready entry = true → finished w' (sce_Installation entry);
  source_open_since w w' c k a : OpenWorkspaceSource_ c k w = (w', a) → since w w';
  source_open_kept w w' c k o : OpenWorkspaceSource_ c k w = (w', Ok (Some o)) →
    ∃ data rest, kept w' k data ∧ data = rc_stream o +:+ rest ∧ (rc_fault o = None → rest = "");
  source_put_since w w' c k data digest a : PutWorkspaceSourceIfAbsent_ c k data digest w = (w', a) → since w w';
  authorize_since w w' c use phase a : AuthorizeWorkspaceSource_ c use phase w = (w', a) → since w w';
  authorize_decided w w' c use phase permit : AuthorizeWorkspaceSource_ c use phase w = (w', Ok permit) → decided w' use phase permit }.

Section logic.
Context {W : Type} `{TarFormat, SourceWorld W}.

Lemma gives_unless_over {A} c (k : io W (result A)) w (Q : W → result A → Prop) :
  (∀ w1, since w w1 → gives k w1 Q) → (∀ w1 e, since w w1 → Q w1 (Err e)) → gives (unless_over c k) w Q.
Proof.
  intros Hk He. apply gives_bind, gives_call. intros w1 e Hc. pose proof (err_since _ _ _ _ Hc) as L.
  destruct e as [e|]; [by apply gives_ret, He|by apply Hk].
Qed.

(** Data that was read and has the recorded length is the whole object. *)
Lemma gives_read_source c key record w :
  gives (read_source c key record) w (λ w' r, since w w' ∧ ∀ data, r = Ok data → (go_len data ≤ sr_ArchiveBytes record)%Z → kept w' key data).
Proof.
  apply gives_bind, gives_call. intros w1 opened Ho. pose proof (source_open_since _ _ _ _ _ Ho) as L1.
  destruct opened as [[reader|]|err]; [|by apply gives_ret..].
  destruct (source_open_kept _ _ _ _ _ Ho) as (whole & rest & Hk & -> & Hfault).
  destruct (read_limited _ reader) as [data readErr] eqn:Hread.
  apply gives_unless_over; [intros w2 L2; apply gives_ret; split; [by etrans|]|intros w2 e L2; split; [by etrans|done]].
  case_decide as Hf; [done|]. intros data' [= <-] Hlen. apply Decidable.not_or in Hf as [Hf _].
  destruct (read_limited_whole _ _ _ Hread) as [<- Hnf]; [done|lia|].
  rewrite (Hfault Hnf), append_nil_r in Hk. by eapply kept_since.
Qed.

Lemma gives_verify c key record expected w :
  (go_len expected ≤ sr_ArchiveBytes record)%Z →
  gives (verifySourceObject c key record expected) w (λ w' r, since w w' ∧ (is_ok r = true → kept w' key expected)).
Proof.
  intros Hlen. apply gives_unless_over; [|intros w1 e L; split; [done|done]]. intros w1 L1.
  apply gives_bind. eapply gives_mono; [apply gives_read_source|]. intros w2 r (L2 & Hr). apply gives_ret. split; [by etrans|].
  destruct r as [data|]; [|done]. cbn. case_decide as E; [|done]. subst. intros _. by apply Hr.
Qed.

Lemma gives_ensure c key entry record owned w :
  (go_len owned ≤ sr_ArchiveBytes record)%Z →
  gives (ensure_object c key entry record owned) w (λ w' r, since w w' ∧ (is_ok r = true → kept w' key owned)).
Proof.
  intros Hlen. apply gives_bind. eapply gives_mono; [by apply gives_verify|]. intros w1 r (L1 & Hr).
  destruct r as [[]|err]; [by apply gives_ret; split; [done|]; auto|].
  destruct (is_err err _ && _); [|by apply gives_ret].
  apply gives_bind, gives_call. intros w2 a Hp. pose proof (source_put_since _ _ _ _ _ _ _ Hp) as L2.
  eapply gives_mono; [by apply gives_verify|]. intros w3 r (L3 & Hr3). split; [do 2 (etrans; [eassumption|]); done|done].
Qed.

Lemma gives_complete c installation w :
  gives (complete_installation c installation) w (λ w' r, since w w' ∧ ∀ entry, r = Ok entry →
    entry = MkSourceEntry installation true ∧ finished w' installation).
Proof.
  apply gives_bind, gives_call. intros w1 answer Hc. pose proof (complete_since _ _ _ _ _ Hc) as L. apply gives_ret. split; [done|].
  destruct answer as [completed|]; [|done]. cbn. case_decide as D; [done|]. apply Decidable.not_or in D as [E%dec_stable R%not_false_iff_true].
  intros entry [= <-]. destruct completed as [i ready]. cbn in *. subst. split; [done|]. by eapply (complete_finished _ _ _ _ _ Hc).
Qed.

(** What an installation leaves: a completed record, and the object. *)
Lemma gives_InstallSource c installation archive w :
  gives (InstallSource c installation archive) w (λ w' r, since w w' ∧ ∀ entry, r = Ok entry →
    entry = MkSourceEntry installation true ∧ finished w' installation
    ∧ kept w' (object_key (si_Record installation)) archive
    ∧ ∃ snapshot, Inspect archive (sr_ArchiveDigest (si_Record installation)) = Ok snapshot
        ∧ sourceMatches (si_Record installation) snapshot (go_len archive) = true).
Proof.
  unfold InstallSource. destruct (_ || _); [by apply gives_ret|].
  apply gives_unless_over; [|intros w1 e L; split; [done|done]]. intros w1 L1. case_decide; [by apply gives_ret|].
  destruct (Inspect _ _) as [snapshot|] eqn:Hi; [|by apply gives_ret].
  destruct (sourceMatches _ _ _) eqn:Hm; cbn [negb]; [|by apply gives_ret].
  assert (go_len archive ≤ sr_ArchiveBytes (si_Record installation))%Z as Hlen by (unfold sourceMatches in Hm; to_prop; lia).
  apply gives_bind, gives_call. intros w2 prepared Hp. pose proof (prepare_since _ _ _ _ _ Hp) as L2.
  assert (since w w2) as L02 by by etrans. destruct prepared as [entry|]; [|by apply gives_ret]. case_decide; [by apply gives_ret|].
  apply gives_bind. eapply gives_mono; [by apply gives_ensure|]. intros w3 r (L3 & Hk). assert (since w w3) as L03 by by etrans.
  destruct r as [u|err]; [|by apply gives_ret]. specialize (Hk eq_refl).
  apply gives_unless_over; [|intros w4 e L4; split; [by etrans|done]]. intros w4 L4.
  eapply gives_mono; [apply gives_complete|]. intros w5 r (L5 & Hr). split; [do 2 (etrans; [eassumption|]); done|].
  intros e He. destruct (Hr e He) as [-> Hf]. split_and!; [done|done| |by exists snapshot].
  eapply kept_since; [|exact Hk]. by etrans.
Qed.

Lemma gives_deliver c use permit snapshot w :
  gives (deliver c use permit snapshot) w (λ w' r, since w w' ∧ ∀ s, r = Ok s → s = snapshot ∧ decided w' use SourceReadDelivery permit).
Proof.
  apply gives_bind, gives_call. intros w1 answer Ha. pose proof (authorize_since _ _ _ _ _ _ Ha) as L1.
  destruct answer as [delivered|]; [|by apply gives_ret]. apply authorize_decided in Ha.
  apply gives_bind, gives_call. intros w2 now Hn. pose proof (now_since _ _ _ Hn) as L2. assert (since w w2) as L by by etrans.
  case_decide as D; [by apply gives_ret|]. apply Decidable.not_or in D as [Eg%dec_stable [Ee%dec_stable _]%Decidable.not_or].
  apply gives_unless_over; [intros w3 L3; apply gives_ret|intros w3 e L3]; (split; [by etrans|]); [|done].
  intros s [= <-]. split; [done|]. destruct delivered, permit. cbn in *. subst. eapply decided_since; [|exact Ha]. by etrans.
Qed.

(** What reading a source shows: the snapshot is that of the object the completed
    installation names, and both decisions were recorded. *)
Definition read_evidence (use : SourceUse) (w : W) (snapshot : Snapshot) : Prop :=
  ∃ installation permit, si_Record installation = su_Record use ∧ finished w installation
    ∧ kept w (object_key (su_Record use)) (sn_archive snapshot)
    ∧ Inspect (sn_archive snapshot) (sr_ArchiveDigest (su_Record use)) = Ok snapshot
    ∧ sp_Generation permit = su_GrantGeneration use
    ∧ decided w use SourceReadAdmission permit ∧ decided w use SourceReadDelivery permit.

Lemma Inspect_archive archive digest snapshot : Inspect archive digest = Ok snapshot → sn_archive snapshot = archive.
Proof.
  unfold Inspect. case_match; [done|]. case_decide; [done|]. destruct (tar_read archive) as [members ending].
  intros ([entries used] & _ & Hk)%result_bind_Ok. destruct ending; [|done]. case_match; [done|].
  apply result_bind_Ok in Hk as (entries' & _ & Hk). case_match; [|done]. by injection Hk as <-.
Qed.

Lemma gives_ReadSource c use w :
  gives (ReadSource c use) w (λ w' r, since w w' ∧ ∀ snapshot, r = Ok snapshot → read_evidence use w' snapshot).
Proof.
  unfold ReadSource. destruct (negb _); [by apply gives_ret|].
  apply gives_unless_over; [|intros w1 e L; split; [done|done]]. intros w1 L1.
  apply gives_bind, gives_call. intros w2 admitted Ha. pose proof (authorize_since _ _ _ _ _ _ Ha) as L2.
  assert (since w w2) as L02 by by etrans. destruct admitted as [permit|]; [|by apply gives_ret]. apply authorize_decided in Ha.
  apply gives_bind, gives_call. intros w3 now Hn. pose proof (now_since _ _ _ Hn) as L3. assert (since w w3) as L03 by by etrans.
  case_decide as D; [by apply gives_ret|]. apply Decidable.not_or in D as [Eg%dec_stable _].
  case_decide; [by apply gives_ret|]. set (rc := WithDeadline c _).
  apply gives_bind, gives_call. intros w4 found Hg. pose proof (source_get_since _ _ _ _ _ _ _ Hg) as L4. assert (since w w4) as L04 by by etrans.
  destruct found as [entry|]; [|by apply gives_ret]. case_decide as D; [by apply gives_ret|].
  apply Decidable.not_or in D as [R%not_false_iff_true Er%dec_stable]. pose proof (source_get_finished _ _ _ _ _ _ _ Hg R) as Hfin.
  unfold read_installed. apply gives_bind. eapply gives_mono; [apply gives_read_source|]. intros w5 r (L5 & Hk). assert (since w w5) as L05 by by etrans.
  destruct r as [data|]; [|by apply gives_ret]. destruct (Inspect _ _) as [snapshot|] eqn:Hi; [|by apply gives_ret].
  destruct (sourceMatches _ _ _) eqn:Hm; cbn [negb]; [|by apply gives_ret].
  assert (kept w5 (object_key (su_Record use)) data) as Hkept by (apply Hk; [done|unfold sourceMatches in Hm; to_prop; lia]).
  apply gives_bind, gives_call. intros w6 again Hg6. pose proof (source_get_since _ _ _ _ _ _ _ Hg6) as L6. assert (since w w6) as L06 by by etrans.
  destruct again as [current|]; [|by apply gives_ret]. case_decide; [by apply gives_ret|].
  eapply gives_mono; [apply gives_deliver|]. intros w7 r (L7 & Hr). split; [by etrans|]. intros s Hs. destruct (Hr s Hs) as [-> Hd].
  exists (sce_Installation entry), permit. rewrite (Inspect_archive _ _ _ Hi).
  assert (since w4 w7) as L47 by (do 2 (etrans; [eassumption|]); done). assert (since w5 w7) as L57 by by etrans.
  split_and!; [done|by apply (finished_since w4)|by apply (kept_since w5)|done|done| |done].
  eapply decided_since; [|exact Ha]. do 2 (etrans; [eassumption|]). done.
Qed.
End logic.
