(* ===== verification/SourceTables.v ===== *)
(** * Workspace sources and their grants in the database

    [CreateWorkspace] of [internal/persistence/workspace.go], [workspace_source.go] and the
    administrative half of [workspace_source_grant.go], with the constraints and triggers
    of migrations 00064 to 00066.  A source is installed once; grants to read it are a sequence of
    activations and revocations per source and revision, never changed afterwards.

    Identifiers that the code checked satisfy the spelling constraints of the columns,
    which are therefore not repeated. *)
From stdpp Require Import pretty.
From S2P Require Import Prelude.
From S2P Require Import GoStrings.
From S2P Require Import Sha256.
From S2P Require Import GoJson.
From S2P Require Import Domain.
From S2P Require Import Database.
From S2P Require Import OperationStore.
From S2P Require Import Commands.
From S2P Require Import RuntimeInteraction.
From S2P Require Import ExecutionPlan.
From S2P Require Import RuntimeDriver.
From S2P Require Import RuntimeStore.
From S2P Require Import S3Store.
From S2P Require Import WorkspaceSource.
From S2P Require Import WorkspaceAccess.

(** ** Rows *)

(** [(isolation_domain_id, workspace_id, id)] *)
Abbreviation source_key := (string * string * string)%type.
Definition source_key_of (r : SourceRecord) : source_key := (sr_IsolationDomainID r, sr_WorkspaceID r, sr_ID r).

(** [workspace_source_grants] *)
Record grant_row := GrantRow {
  gr_source : source_key; gr_revision_id : string; gr_contract : string; gr_archive_digest : string;
  gr_storage_profile_digest : string; gr_generation : Z; gr_operation : string; gr_activated_at : option Z;
  gr_expires_at : option Z; gr_actor_id : string; gr_reason_digest : string; gr_correlation_id : string; gr_occurred_at : Z }.

(** What a decision says of the claim it was asked under, and of the policy. *)
Record claim_evidence := ClaimEvidence {
  ce_contract : string; ce_invocation_id : string; ce_effect_id : string; ce_owner : string; ce_token : Z; ce_expires_at : Z;
  ce_policy_contract : string; ce_policy_set_id : string; ce_policy_digest : string; ce_policy_outcome : string;
  ce_plan_digest : string; ce_cleanup_operation_id : option string }.

(** [workspace_source_use_decisions] *)
Record decision_row := DecisionRow {
  de_id : string; de_contract : string; de_source : source_key; de_revision_id : string; de_operation_id : string;
  de_archive_digest : string; de_storage_profile_digest : string; de_requested_generation : Z; de_observed_generation : option Z;
  de_expires_at : option Z; de_phase : string; de_outcome : string; de_actor_id : string; de_correlation_id : string;
  de_claim : option claim_evidence; de_occurred_at : Z }.

(** [invocation_workspace_quiescence_intents] *)
Record InvocationWorkspaceQuiescence := MkQuiescence {
  wq_SchemaVersion : string; wq_Source : SourceRecord; wq_InvocationID : string; wq_OperationID : string; wq_EffectID : string;
  wq_ExecutionID : string; wq_PlanDigest : string; wq_OwnerBinding : string; wq_RuntimeOwner : string; wq_RuntimeToken : Z;
  wq_ActorID : string; wq_CorrelationID : string }.
#[export] Instance InvocationWorkspaceQuiescence_eq_dec : EqDecision InvocationWorkspaceQuiescence.
Proof. solve_decision. Defined.

Record InvocationAuthorizationPolicyRecord := MkPolicyRecord {
  iap_Contract : string; iap_IsolationDomainID : string; iap_ServiceID : string; iap_RevisionID : string;
  iap_PolicySetID : string; iap_PolicyDigest : list N; iap_Schema : string; iap_Policies : string; iap_Entities : string;
  iap_InstalledBy : string; iap_InstallationCorrelationID : string; iap_ReasonDigest : list N }.

(** The tables.  [ss_policies] is what [getActiveInvocationAuthorizationPolicy] answers
    from the policy tables, which no call here writes. *)
Record source_store := SourceStore {
  ss_runtime : runtime_store;
  ss_installations : gmap source_key SourceInstallation;
  ss_completed : gset source_key;
  ss_grants : list grant_row;
  ss_decisions : list decision_row;
  ss_cleanups : gmap key InvocationWorkspaceQuiescence;
  ss_confirmed : gset key;
  ss_policies : string → string → string → result InvocationAuthorizationPolicyRecord }.

Definition set_runtime_store (f : runtime_store → runtime_store) (s : source_store) : source_store :=
  SourceStore (f (ss_runtime s)) (ss_installations s) (ss_completed s) (ss_grants s) (ss_decisions s) (ss_cleanups s) (ss_confirmed s) (ss_policies s).
Definition add_installation (i : SourceInstallation) (s : source_store) : source_store :=
  SourceStore (ss_runtime s) (<[source_key_of (si_Record i) := i]> (ss_installations s)) (ss_completed s) (ss_grants s) (ss_decisions s)
    (ss_cleanups s) (ss_confirmed s) (ss_policies s).
Definition add_completion (k : source_key) (s : source_store) : source_store :=
  SourceStore (ss_runtime s) (ss_installations s) ({[k]} ∪ ss_completed s) (ss_grants s) (ss_decisions s) (ss_cleanups s) (ss_confirmed s) (ss_policies s).
Definition add_grant (g : grant_row) (s : source_store) : source_store :=
  SourceStore (ss_runtime s) (ss_installations s) (ss_completed s) (ss_grants s ++ [g]) (ss_decisions s) (ss_cleanups s) (ss_confirmed s) (ss_policies s).
Definition add_decision (row : decision_row) (s : source_store) : source_store :=
  SourceStore (ss_runtime s) (ss_installations s) (ss_completed s) (ss_grants s) (ss_decisions s ++ [row]) (ss_cleanups s) (ss_confirmed s) (ss_policies s).
Definition add_cleanup (k : key) (q : InvocationWorkspaceQuiescence) (s : source_store) : source_store :=
  SourceStore (ss_runtime s) (ss_installations s) (ss_completed s) (ss_grants s) (ss_decisions s) (<[k := q]> (ss_cleanups s)) (ss_confirmed s) (ss_policies s).
Definition confirm_cleanup (k : key) (s : source_store) : source_store :=
  SourceStore (ss_runtime s) (ss_installations s) (ss_completed s) (ss_grants s) (ss_decisions s) (ss_cleanups s) ({[k]} ∪ ss_confirmed s) (ss_policies s).

Definition store_db (s : source_store) : db := rs_db (ss_runtime s).
Definition audited (ses : session) (n : nat) (domainID resourceType resourceID eventType actorID correlationID outcome operationID : string)
  : source_store → source_store :=
  set_runtime_store (set_db (writeOutboxAndAudit (Env (ses_now ses n) (ses_clock ses n) (ses_random ses n))
    domainID resourceType resourceID eventType actorID correlationID outcome operationID (ses_now ses n))).

(** ** Workspaces *)

Record Workspace := MkWorkspace { ws_Metadata : ResourceMetadata; ws_Name : string; ws_Description : string }.
Definition workspace_json (w : Workspace) : json :=
  JObj ([("metadata", metadata_json (ws_Metadata w)); ("name", JStr (ws_Name w))]
        ++ (if decide (ws_Description w = "") then [] else [("description", JStr (ws_Description w))])).
Definition ValidWorkspaceMetadata (name description : string) : bool :=
  bool_decide (name = trim_space name) && (0 <? go_len name)%Z && (go_len name <=? 128)%Z && (go_len description <=? 2048)%Z
  && valid_utf8 name && valid_utf8 description && negb (contains_byte (byte_of_N 0) name) && negb (contains_byte (byte_of_N 0) description).

Record CreateWorkspaceInput := CreateWorkspaceIn {
  cwi_ID : string; cwi_Name : string; cwi_Description : string; cwi_ActorID : string; cwi_CorrelationID : string }.
Definition CreateWorkspace (e : env) (i : Idempotency) (input : CreateWorkspaceInput) (d : db) : result (db * CommandResult) :=
  if negb (match_prefixed "wsp_" is_id_char 20 32 (cwi_ID input) && ValidWorkspaceMetadata (cwi_Name input) (cwi_Description input)
           && bool_decide (cwi_ActorID input ≠ "" ∧ cwi_CorrelationID input ≠ ""))
  then Err (ENew "workspace input is invalid")
  else execute e i (λ now d,
    let k := (id_IsolationDomainID i, cwi_ID input) in
    if decide (k ∈ db_workspaces d) then Err (unique_violation "insert workspace")
    else if negb (match_prefixed "iso_" is_id_char 20 32 (id_IsolationDomainID i)) then Err (EWrap "insert workspace" (ENew "check violation"))
    else
      let workspace := MkWorkspace (new_metadata (cwi_ID input) (id_IsolationDomainID i) (cwi_ActorID input) now) (cwi_Name input) (cwi_Description input) in
      Ok (StatusCreated, workspace_json workspace,
          writeOutboxAndAudit e (id_IsolationDomainID i) "workspace" (cwi_ID input) "workspace.created" (cwi_ActorID input)
            (cwi_CorrelationID input) "accepted" "" now (set_workspaces (λ m, {[k]} ∪ m) d))) d.

(** ** Installations *)

Definition findWorkspaceSource (scope workspaceID id : string) (s : source_store) : result SourceCatalogEntry :=
  match ss_installations s !! (scope, workspaceID, id) with
  | None => Err ErrSourceMissing
  | Some installation =>
      if ValidSourceInstallation installation
      then Ok (MkSourceEntry installation (bool_decide ((scope, workspaceID, id) ∈ ss_completed s)))
      else Err ErrSourceConflict
  end.
Definition GetWorkspaceSource (scope workspaceID id : string) (s : source_store) : result SourceCatalogEntry :=
  findWorkspaceSource scope workspaceID id s.

Definition bindWorkspaceSource (ses : session) (input : SourceInstallation) (complete : bool) (s : source_store)
  : result (source_store * SourceCatalogEntry) :=
  let r := si_Record input in
  let event name := audited ses 0 (sr_IsolationDomainID r) "workspace-source" (sr_WorkspaceID r +:+ ":" +:+ sr_ID r) name
                      (si_ActorID input) (si_CorrelationID input) "accepted" "" in
  if negb (ValidSourceInstallation input) then Err ErrSourceInvalid
  else if decide ((sr_IsolationDomainID r, sr_WorkspaceID r) ∉ db_workspaces (store_db s)) then Err ErrSourceMissing
  else match findWorkspaceSource (sr_IsolationDomainID r) (sr_WorkspaceID r) (sr_ID r) s with
  | Err err =>
      if negb (is_err err ErrSourceMissing) then Err err
      else if complete then Err ErrSourceMissing
      else Ok (event "workspace.source.prepared" (add_installation input s), MkSourceEntry input false)
  | Ok entry =>
      if decide (sce_Installation entry ≠ input) then Err ErrSourceConflict
      else if complete && negb (sce_Ready entry)
      then Ok (event "workspace.source.completed" (add_completion (source_key_of r) s), MkSourceEntry input true)
      else Ok (s, entry)
  end.
Definition PrepareWorkspaceSource (ses : session) (input : SourceInstallation) := bindWorkspaceSource ses input false.
Definition CompleteWorkspaceSource (ses : session) (input : SourceInstallation) := bindWorkspaceSource ses input true.

(** ** Grants *)

Definition grants_for (k : source_key) (revision : string) (l : list grant_row) : list grant_row :=
  filter (λ g, gr_source g = k ∧ gr_revision_id g = revision) l.

(** [ORDER BY generation DESC LIMIT 1] *)
Fixpoint highest (l : list grant_row) : option grant_row :=
  match l with
  | [] => None
  | g :: rest =>
      match highest rest with
      | Some other => if decide (gr_generation g < gr_generation other)%Z then Some other else Some g
      | None => Some g
      end
  end.

Definition grant_of (record : SourceRecord) (g : grant_row) : SourceGrantChange :=
  MkGrant (gr_contract g)
    (MkSourceRecord (sr_SchemaVersion record) (sr_IsolationDomainID record) (sr_WorkspaceID record) (sr_ID record)
       (gr_archive_digest g) (gr_storage_profile_digest g) (sr_ArchiveBytes record) (sr_EntryCount record) (sr_SourceBytes record))
    (gr_revision_id g) (gr_generation g) (gr_operation g) (instant (gr_activated_at g)) (instant (gr_expires_at g))
    (gr_actor_id g) (gr_reason_digest g) (gr_correlation_id g).

Definition readWorkspaceSourceGrant (record : SourceRecord) (revision : string) (generation : Z) (s : source_store)
  : result (option SourceGrantChange) :=
  match highest (filter (λ g, generation = 0%Z ∨ gr_generation g = generation) (grants_for (source_key_of record) revision (ss_grants s))) with
  | None => Ok None
  | Some g => if grant_valid (grant_of record g) then Ok (Some (grant_of record g)) else Err ErrSourceConflict
  end.

Definition sameWorkspaceSourceGrant (a b : SourceGrantChange) : bool := bool_decide (a = b).

Definition published (scope revision : string) (s : source_store) : bool :=
  match db_revisions (store_db s) !! (scope, revision) with
  | Some row => bool_decide (rev_state row = "published")
  | None => false
  end.

(** The trigger [enforce_workspace_source_grant_sequence]. *)
Definition grant_sequence (clock : nat → Z) (g : grant_row) (s : source_store) : bool :=
  match highest (grants_for (gr_source g) (gr_revision_id g) (ss_grants s)) with
  | None => bool_decide (gr_generation g = 1%Z ∧ gr_operation g = "activate")
  | Some previous =>
      bool_decide (gr_generation previous ≠ max_int64 ∧ gr_generation g = gr_generation previous + 1)%Z
      && negb (bool_decide (gr_operation g = "revoke" ∧ gr_operation previous ≠ "activate"))
  end
  && match ss_installations s !! gr_source g with
     | Some i => bool_decide (sr_ArchiveDigest (si_Record i) = gr_archive_digest g
                              ∧ sr_StorageProfileDigest (si_Record i) = gr_storage_profile_digest g)
     | None => false
     end
  && (negb (bool_decide (gr_operation g = "activate"))
      || (published (gr_source g).1.1 (gr_revision_id g) s
          && match gr_activated_at g with Some t => bool_decide (t ≤ clock 0%nat)%Z | None => true end
          && after (gr_expires_at g) (clock 1))).

(** The keys of the table. *)
Definition grant_keys (g : grant_row) (s : source_store) : bool :=
  bool_decide (gr_source g ∈ ss_completed s)
  && bool_decide (is_Some (db_revisions (store_db s) !! ((gr_source g).1.1, gr_revision_id g)))
  && forallb (λ other, negb (bool_decide (gr_source other = gr_source g ∧ gr_revision_id other = gr_revision_id g ∧ gr_generation other = gr_generation g))
                       && negb (bool_decide ((gr_source other).1.1 = (gr_source g).1.1 ∧ gr_correlation_id other = gr_correlation_id g))) (ss_grants s).

Definition grant_row_of (v : SourceGrantChange) (now : Z) : grant_row :=
  let times t := if decide (sg_Operation v = "activate") then Some t else None in
  GrantRow (source_key_of (sg_Record v)) (sg_RevisionID v) (sg_Contract v) (sr_ArchiveDigest (sg_Record v)) (sr_StorageProfileDigest (sg_Record v))
    (sg_Generation v) (sg_Operation v) (times (sg_ActivatedAt v)) (times (sg_ExpiresAt v)) (sg_ActorID v) (sg_ReasonDigest v) (sg_CorrelationID v) now.

(** The clocks: the row's [occurred_at], a default, and the two comparisons of the
    trigger, which runs after it. *)
Definition ChangeWorkspaceSourceGrant (ses : session) (v : SourceGrantChange) (s : source_store) : result source_store :=
  let r := sg_Record v in
  if negb (grant_valid v) then Err ErrSourceInvalid
  else
    source ← findWorkspaceSource (sr_IsolationDomainID r) (sr_WorkspaceID r) (sr_ID r) s;
    if decide (sce_Ready source = false ∨ si_Record (sce_Installation source) ≠ r) then Err ErrSourceConflict
    else
      existing ← readWorkspaceSourceGrant r (sg_RevisionID v) (sg_Generation v) s;
      match existing with
      | Some found => if sameWorkspaceSourceGrant found v then Ok s else Err ErrSourceConflict
      | None =>
          let row := grant_row_of v (ses_clock ses 0) in
          if grant_sequence (λ i, ses_clock ses (1 + i)) row s && grant_keys row s then
            let resource := sr_WorkspaceID r +:+ ":" +:+ sr_ID r +:+ ":" +:+ sg_RevisionID v +:+ ":" +:+ pretty (sg_Generation v) in
            Ok (audited ses 0 (sr_IsolationDomainID r) "workspace-source-grant" resource ("workspace.source.grant." +:+ sg_Operation v)
                  (sg_ActorID v) (sg_CorrelationID v) "accepted" "" (add_grant row s))
          else Err ErrSourceConflict
      end.
