(* ===== verification/SourceClaims.v ===== *)
(** * Reading a source under a claim

    [internal/persistence/workspace_source_claim.go], the decisions of
    [workspace_source_grant.go], [workspace_preparation.go], [workspace_quiescence.go] and
    [lockWorkspaceExportTarget] of [workspace_export_authorization.go], with the
    constraints, triggers and functions of migrations 00066 to 00075.

    A source is read for a revision under a grant, and by a worker under its claim and
    the policy of the revision: each time a decision is recorded.  Before an agent is
    started the workspace is prepared: intent, transfer, and a completion that names a
    decision.  After it ended, its cleanup is confirmed.

    Records kept as [jsonb] are the values they encode.  A call's clocks are numbered by
    statement; the insertion of a decision reads three. *)
From stdpp Require Import pretty.
From S2P Require Import Prelude.
From S2P Require Import GoStrings.
From S2P Require Import Sha256.
From S2P Require Import GoJson.
From S2P Require Import RuntimeTables.
From S2P Require Import Database.
From S2P Require Import OperationStore.
From S2P Require Import RuntimeInteraction.
From S2P Require Import GatewayStore.
From S2P Require Import ExecutionPlan.
From S2P Require Import ExecutionTables.
From S2P Require Import RuntimeDriver.
From S2P Require Import RuntimeStore.
From S2P Require Import RuntimeAttempts.
From S2P Require Import S3Store.
From S2P Require Import WorkspaceSource.
From S2P Require Import WorkspaceAccess.
From S2P Require Import SourceTables.

Definition ErrWorkspaceQuiescence : error := ESentinel "persistence.ErrWorkspaceQuiescence".
Definition ErrWorkspaceExportDenied : error := ESentinel "persistence.ErrWorkspaceExportDenied".
Definition ErrInvocationAuthorizationPolicyRecordMissing : error := ESentinel "persistence.ErrInvocationAuthorizationPolicyRecordMissing".
Definition WorkspaceQuiescenceContract := "dataground.invocation-workspace-quiescence/v1".
Definition workspaceOwnerBindingPattern : string → bool := match_prefixed "sha256:" is_hex_lower 64 64.

(** ** The runtime of a prepared workspace *)

(** The joins the database functions share: the operation with its invocation, the
    attempt and its effect, the preparation the attempt was begun under with its
    completion, the execution and the plan. *)
Record prepared_runtime := PreparedRuntime {
  pr_operation : operation_row; pr_invocation : invocation_row; pr_effect : effect_row; pr_attempt : InvocationRuntimeAttempt;
  pr_preparation : preparation_row; pr_instance : instance_row; pr_plan : plan_row }.

Definition join_runtime (scope op : string) (s : runtime_store) : option prepared_runtime :=
  operation ← db_invocation_ops (rs_db s) !! (scope, op);
  invocation ← db_invocations (rs_db s) !! (scope, op_resource_id operation);
  attempt ← attempts_of s !! (scope, op);
  effect ← db_effects (rs_db s) !! (scope, att_EffectID attempt);
  preparation ← rs_preparations s !! (scope, op, att_FencingToken attempt);
  _ ← rs_completions s !! (scope, op, att_FencingToken attempt);
  row ← rs_instances s !! (scope, wp_execution_id preparation);
  plan ← rs_plans s !! (scope, inv_revision_id invocation);
  if bool_decide (eff_operation_id effect = op ∧ wp_lease_owner preparation = att_LeaseOwner attempt
       ∧ wp_effect_id preparation = att_EffectID attempt ∧ in_operation_id row = op)
  then Some (PreparedRuntime operation invocation effect attempt preparation row plan) else None.

(** The conditions they share, and what they demand of a recorded cleanup. *)
Definition runtime_current (owner : string) (token : Z) (actor correlation : string) (now : Z) (j : prepared_runtime) : bool :=
  let op := pr_operation j in
  bool_decide (op_lease_owner op = Some owner ∧ op_lease_token op = token ∧ (op_command op = "invoke" ∨ op_command op = "repair")
    ∧ op_observed_state op = "running" ∧ op_state_machine_version op = 2%Z ∧ (now < op_deadline_at op)%Z
    ∧ default (op_actor_id op) (op_effect_actor_id op) = actor ∧ default (op_correlation_id op) (op_effect_correlation_id op) = correlation
    ∧ eff_operation_kind (pr_effect j) = OperationKindInvocation ∧ eff_phase (pr_effect j) = "run-invocation"
    ∧ att_Status (pr_attempt j) ∈ ["reserved"; "succeeded"; "failed"; "output_invalid"]
    ∧ in_observed_state (pr_instance j) = "ready"
    ∧ pw_schema_version (pr_plan j) = ExecutionPlanSchemaV2 ∧ pw_workspace_source (pr_plan j) = Some (wp_source_record (pr_preparation j))
    ∧ pw_plan_digest (pr_plan j) = wp_plan_digest (pr_preparation j))
  && invocationRuntimeEffectMayStartAttempt (eff_status (pr_effect j)) && after (op_lease_expires_at op) now.
Definition cleanup_of (op : string) (j : prepared_runtime) (q : InvocationWorkspaceQuiescence) : bool :=
  bool_decide (wq_SchemaVersion q = WorkspaceQuiescenceContract ∧ wq_InvocationID q = op_resource_id (pr_operation j)
    ∧ wq_OperationID q = op ∧ wq_EffectID q = att_EffectID (pr_attempt j) ∧ wq_ExecutionID q = wp_execution_id (pr_preparation j)
    ∧ wq_Source q = wp_source_record (pr_preparation j) ∧ wq_PlanDigest q = wp_plan_digest (pr_preparation j)
    ∧ wq_RuntimeOwner q = att_LeaseOwner (pr_attempt j) ∧ wq_RuntimeToken q = att_FencingToken (pr_attempt j)).
Definition lease_end (op : operation_row) : Z := Z.min (instant (op_lease_expires_at op)) (op_deadline_at op).

(** [lock_workspace_quiescence_claim]: only the claim the runtime was started under. *)
Definition lock_workspace_quiescence_claim (scope op owner : string) (token : Z) (actor correlation : string)
    (value : InvocationWorkspaceQuiescence) (now : Z) (s : runtime_store) : option Z :=
  j ← join_runtime scope op s;
  if runtime_current owner token actor correlation now j && cleanup_of op j value
     && bool_decide (att_LeaseOwner (pr_attempt j) = owner ∧ att_FencingToken (pr_attempt j) = token
                     ∧ wq_ActorID value = actor ∧ wq_CorrelationID value = correlation)
  then Some (lease_end (pr_operation j)) else None.

(** [lock_workspace_export_authorization]: any current claim, after a confirmed cleanup. *)
Definition lock_workspace_export_authorization (scope op owner : string) (token : Z) (actor correlation : string)
    (value : InvocationWorkspaceQuiescence) (now : Z) (s : source_store) : option Z :=
  j ← join_runtime scope op (ss_runtime s);
  if runtime_current owner token actor correlation now j && cleanup_of op j value
     && bool_decide (ss_cleanups s !! (scope, op) = Some value ∧ (scope, op) ∈ ss_confirmed s)
  then Some (lease_end (pr_operation j)) else None.

(** ** Cleanups *)

Record InvocationWorkspaceQuiescenceEntry := MkQuiescenceEntry {
  qe_Record : InvocationWorkspaceQuiescence; qe_Confirmed : bool; qe_ExpiresAt : Z }.

Definition quiescence_json (q : InvocationWorkspaceQuiescence) : json :=
  JObj [("schemaVersion", JStr (wq_SchemaVersion q)); ("source", source_json (wq_Source q)); ("invocationId", JStr (wq_InvocationID q));
        ("operationId", JStr (wq_OperationID q)); ("effectId", JStr (wq_EffectID q)); ("executionId", JStr (wq_ExecutionID q));
        ("planDigest", JStr (wq_PlanDigest q)); ("ownerBinding", JStr (wq_OwnerBinding q)); ("runtimeOwner", JStr (wq_RuntimeOwner q));
        ("runtimeToken", JInt (wq_RuntimeToken q)); ("actorId", JStr (wq_ActorID q)); ("correlationId", JStr (wq_CorrelationID q))].

(** The length of the text of a [jsonb] value. *)
Definition jsonb_char (c : ascii) : Z :=
  let n := byte_value c in
  if bool_decide (n ∈ [34; 92; 8; 12; 10; 13; 9]%N) then 2 else if (n <? 32)%N then 6 else 1.
Definition jsonb_string (s : string) : Z := 2 + foldr Z.add 0%Z (jsonb_char <$> bytes_of s).
Fixpoint jsonb_length (v : json) : Z :=
  match v with
  | JStr s => jsonb_string s
  | JArr items => 2 + (fix go items := match items with [] => 0 | [v] => jsonb_length v | v :: rest => jsonb_length v + 2 + go rest end) items
  | JObj fields =>
      2 + (fix go (fields : list (string * json)) :=
             match fields with
             | [] => 0
             | [(k, v)] => jsonb_string k + 2 + jsonb_length v
             | (k, v) :: rest => jsonb_string k + 2 + jsonb_length v + 2 + go rest
             end) fields
  | v => go_len (marshal v)
  end%Z.

Definition readWorkspaceQuiescence (scope operation : string) (s : source_store) : result (option InvocationWorkspaceQuiescenceEntry) :=
  match ss_cleanups s !! (scope, operation) with
  | None => Ok None
  | Some q =>
      if decide ((Z.shiftl 16 10 < jsonb_length (quiescence_json q))%Z) then Err ErrWorkspaceQuiescence
      else if bool_decide (wq_SchemaVersion q = WorkspaceQuiescenceContract ∧ sr_IsolationDomainID (wq_Source q) = scope ∧ wq_OperationID q = operation)
              && ValidSourceRecord (wq_Source q) && workspaceOwnerBindingPattern (wq_OwnerBinding q)
      then Ok (Some (MkQuiescenceEntry q (bool_decide ((scope, operation) ∈ ss_confirmed s)) zero_time))
      else Err ErrWorkspaceQuiescence
  end.

Definition GetInvocationWorkspaceQuiescence (scope operation : string) (s : source_store) : result InvocationWorkspaceQuiescenceEntry :=
  match readWorkspaceQuiescence scope operation s with
  | Ok (Some entry) => Ok entry
  | _ => Err ErrWorkspaceQuiescence
  end.

(** The preparation the attempt was begun under. *)
Definition attempt_preparation (scope op effectID : string) (s : runtime_store) : option (InvocationRuntimeAttempt * preparation_row) :=
  attempt ← attempts_of s !! (scope, op);
  row ← rs_preparations s !! (scope, op, att_FencingToken attempt);
  if bool_decide (att_EffectID attempt = effectID ∧ wp_lease_owner row = att_LeaseOwner attempt ∧ wp_effect_id row = att_EffectID attempt)
  then Some (attempt, row) else None.

Definition quiescence_record (claim : OperationClaim) (effect : EffectRecord) (ownerBinding : string)
    (attempt : InvocationRuntimeAttempt) (row : preparation_row) : InvocationWorkspaceQuiescence :=
  MkQuiescence WorkspaceQuiescenceContract (wp_source_record row) (c_ResourceID claim) (c_ID claim) (e_EffectID effect)
    (wp_execution_id row) (wp_plan_digest row) ownerBinding (att_LeaseOwner attempt) (att_FencingToken attempt)
    (c_ActorID claim) (c_CorrelationID claim).

(** [INSERT ... ON CONFLICT DO NOTHING] after the trigger of the table. *)
Definition insert_cleanup (claim : OperationClaim) (record : InvocationWorkspaceQuiescence) (now : Z) (s : source_store)
  : result (source_store * bool) :=
  match lock_workspace_quiescence_claim (c_IsolationDomainID claim) (c_ID claim) (wq_RuntimeOwner record) (wq_RuntimeToken record)
          (c_ActorID claim) (c_CorrelationID claim) record now (ss_runtime s) with
  | None => Err ErrWorkspaceQuiescence
  | Some _ =>
      match ss_cleanups s !! claim_key claim with
      | Some _ => Ok (s, false)
      | None => Ok (add_cleanup (claim_key claim) record s, true)
      end
  end.

Definition cleanup_event (ses : session) (claim : OperationClaim) (event outcome : string) : source_store → source_store :=
  audited ses 0 (c_IsolationDomainID claim) "workspace-quiescence" (c_ID claim) event (c_ActorID claim) (c_CorrelationID claim) outcome (c_ID claim).

Definition BeginInvocationWorkspaceQuiescence (ses : session) (claim : OperationClaim) (effect : EffectRecord) (expected : key)
    (ownerBinding : string) (s : source_store) : result (source_store * InvocationWorkspaceQuiescenceEntry) :=
  let denied {A} : result A := Err ErrWorkspaceQuiescence in
  if negb (validInvocationRuntimeAttempt claim effect
           && bool_decide (expected.1 = c_IsolationDomainID claim ∧ expected.2 ≠ "") && workspaceOwnerBindingPattern ownerBinding)
  then denied
  else match attempt_preparation (c_IsolationDomainID claim) (c_ID claim) (e_EffectID effect) (ss_runtime s) with
  | None => denied
  | Some (attempt, row) =>
      let record := quiescence_record claim effect ownerBinding attempt row in
      if negb (ValidSourceRecord (wq_Source record)
               && bool_decide (wq_ExecutionID record = expected.2 ∧ sr_IsolationDomainID (wq_Source record) = c_IsolationDomainID claim
                    ∧ wq_RuntimeOwner record = c_LeaseOwner claim ∧ wq_RuntimeToken record = c_FencingToken claim))
      then denied
      else match readWorkspaceQuiescence (c_IsolationDomainID claim) (c_ID claim) s with
      | Err _ => denied
      | Ok found =>
          if match found with Some entry => bool_decide (qe_Record entry ≠ record) | None => false end then denied
          else match found with
          | Some (MkQuiescenceEntry r true at_) => Ok (s, MkQuiescenceEntry r true at_)
          | _ =>
              if negb (is_ok (verifyInvocationRuntimeEffect effect (store_db s))) then denied
              else match lock_workspace_quiescence_claim (c_IsolationDomainID claim) (c_ID claim) (c_LeaseOwner claim) (c_FencingToken claim)
                           (c_ActorID claim) (c_CorrelationID claim) record (ses_clock ses 0) (ss_runtime s) with
              | None => denied
              | Some expires =>
                  '(s, inserted) ← insert_cleanup claim record (ses_clock ses 1) s;
                  match readWorkspaceQuiescence (c_IsolationDomainID claim) (c_ID claim) s with
                  | Ok (Some entry) =>
                      if decide (qe_Record entry ≠ record) then denied
                      else
                        let s := if inserted : bool then cleanup_event ses claim "workspace.cleanup.prepared" "accepted" s else s in
                        Ok (s, MkQuiescenceEntry (qe_Record entry) (qe_Confirmed entry) expires)
                  | _ => denied
                  end
              end
          end
      end
  end.

Definition CompleteInvocationWorkspaceQuiescence (ses : session) (claim : OperationClaim) (effect : EffectRecord)
    (record : InvocationWorkspaceQuiescence) (s : source_store) : result (source_store * InvocationWorkspaceQuiescenceEntry) :=
  let denied {A} : result A := Err ErrWorkspaceQuiescence in
  let locked now := lock_workspace_quiescence_claim (c_IsolationDomainID claim) (c_ID claim) (c_LeaseOwner claim) (c_FencingToken claim)
                      (c_ActorID claim) (c_CorrelationID claim) record now (ss_runtime s) in
  if negb (validInvocationRuntimeAttempt claim effect
           && bool_decide (sr_IsolationDomainID (wq_Source record) = c_IsolationDomainID claim ∧ wq_OperationID record = c_ID claim
                ∧ wq_InvocationID record = c_ResourceID claim ∧ wq_EffectID record = e_EffectID effect
                ∧ wq_RuntimeOwner record = c_LeaseOwner claim ∧ wq_RuntimeToken record = c_FencingToken claim
                ∧ wq_ActorID record = c_ActorID claim ∧ wq_CorrelationID record = c_CorrelationID claim))
  then denied
  else match readWorkspaceQuiescence (c_IsolationDomainID claim) (c_ID claim) s with
  | Ok (Some entry) =>
      if decide (qe_Record entry ≠ record) then denied
      else if qe_Confirmed entry then Ok (s, entry)
      else if negb (is_ok (verifyInvocationRuntimeEffect effect (store_db s))) then denied
      else match locked (ses_clock ses 0), locked (ses_clock ses 1) with
      | Some _, Some _ =>
          Ok (cleanup_event ses claim "workspace.cleanup.confirmed" "succeeded" (confirm_cleanup (claim_key claim) s), MkQuiescenceEntry record true zero_time)
      | _, _ => denied
      end
  | _ => denied
  end.

(** ** Deciding about a use *)

Record SourceReadRequest := MkSourceRead {
  sq_Use : SourceUse; sq_ServiceID : string; sq_InvocationID : string; sq_EffectID : string; sq_FencingToken : Z;
  sq_PlanDigest : string; sq_Phase : string }.
Definition request_valid (r : SourceReadRequest) : bool :=
  use_valid (sq_Use r) && match_prefixed "svc_" is_id_char 20 32 (sq_ServiceID r) && match_prefixed "inv_" is_id_char 20 32 (sq_InvocationID r)
  && match_prefixed "eff_" is_id_char 20 32 (sq_EffectID r) && (0 <? sq_FencingToken r)%Z && match_prefixed "sha256:" is_hex_lower 64 64 (sq_PlanDigest r)
  && bool_decide (sq_Phase r = SourceReadAdmission ∨ sq_Phase r = SourceReadDelivery).

(** [SourceReadEvaluator]: a policy's outcome for a request. *)
Class SourceReadEvaluator := EvaluateSourceRead : InvocationAuthorizationPolicyRecord → SourceReadRequest → string.

(** [invocationSourceAuthorizer]: under which right it reads, and what it has learned. *)
Inductive source_right :=
  | ForAttempt
  | ForPreparation (preparation : InvocationWorkspacePreparation) (completion : bool)
  | ForExport (quiescence : InvocationWorkspaceQuiescence).
Record invocationSourceAuthorizer := MkSourceAuthorizer {
  sa_claim : OperationClaim; sa_effect : EffectRecord; sa_right : source_right;
  sa_record : option SourceRecord; sa_planDigest : string;
  sa_deliveryExpires : Z; sa_readExpires : Z; sa_currentExpires : Z }.
Definition learned (record : SourceRecord) (planDigest : string) (b : invocationSourceAuthorizer) : invocationSourceAuthorizer :=
  MkSourceAuthorizer (sa_claim b) (sa_effect b) (sa_right b) (Some record) planDigest (sa_deliveryExpires b) (sa_readExpires b) (sa_currentExpires b).
Definition with_current (expires : Z) (b : invocationSourceAuthorizer) : invocationSourceAuthorizer :=
  MkSourceAuthorizer (sa_claim b) (sa_effect b) (sa_right b) (sa_record b) (sa_planDigest b) (sa_deliveryExpires b) (sa_readExpires b) expires.
Definition with_read (expires : Z) (b : invocationSourceAuthorizer) : invocationSourceAuthorizer :=
  MkSourceAuthorizer (sa_claim b) (sa_effect b) (sa_right b) (sa_record b) (sa_planDigest b) (sa_deliveryExpires b) expires (sa_currentExpires b).
Definition with_delivery (expires : Z) (b : invocationSourceAuthorizer) : invocationSourceAuthorizer :=
  MkSourceAuthorizer (sa_claim b) (sa_effect b) (sa_right b) (sa_record b) (sa_planDigest b) expires (sa_readExpires b) (sa_currentExpires b).

Definition lockWorkspaceExportTarget (ses : session) (claim : OperationClaim) (effect : EffectRecord) (expected : InvocationWorkspaceQuiescence)
    (s : source_store) : result (InvocationRuntimeTarget * Z) :=
  let denied {A} : result A := Err ErrWorkspaceExportDenied in
  if negb (validInvocationRuntimeAttempt claim effect
           && bool_decide (sr_IsolationDomainID (wq_Source expected) = c_IsolationDomainID claim ∧ wq_OperationID expected = c_ID claim
                ∧ wq_InvocationID expected = c_ResourceID claim ∧ wq_EffectID expected = e_EffectID effect))
  then denied
  else match readWorkspaceQuiescence (c_IsolationDomainID claim) (c_ID claim) s with
  | Ok (Some (MkQuiescenceEntry record true _)) =>
      if decide (record ≠ expected) then denied
      else if negb (is_ok (verifyInvocationRuntimeEffect effect (store_db s))) then denied
      else match lock_workspace_export_authorization (c_IsolationDomainID claim) (c_ID claim) (c_LeaseOwner claim) (c_FencingToken claim)
                   (c_ActorID claim) (c_CorrelationID claim) expected (ses_clock ses 0) s with
      | None => denied
      | Some expires =>
          match db_invocation_ops (store_db s) !! claim_key claim ≫= λ op,
                inv ← db_invocations (store_db s) !! (c_IsolationDomainID claim, op_resource_id op); Some (op, inv) with
          | None => Err (ESentinel "persistence.ErrWorkspaceExportUnavailable")
          | Some (op, inv) =>
              Ok (MkRuntimeTarget (c_IsolationDomainID claim) (c_ID claim) (c_ResourceID claim) (inv_service_id inv) (inv_revision_id inv)
                    (default (op_actor_id op) (op_effect_actor_id op)) (default (op_correlation_id op) (op_effect_correlation_id op))
                    (c_StateMachineVersion claim) JNull "" None, expires)
          end
      end
  | _ => denied
  end.

(** The attempt is reserved under the claim, and the plan pins a source. *)
Definition lock_attempt (ses : session) (b : invocationSourceAuthorizer) (s : source_store)
  : result (invocationSourceAuthorizer * InvocationRuntimeTarget * Z) :=
  let claim := sa_claim b in
  let unauthorized {A} : result A := Err ErrSourceUnauthorized in
  match lockRuntimeInteractionAttempt ses claim (sa_effect b) (store_db s), getInvocationRuntimeTarget (c_IsolationDomainID claim) (c_ID claim) (store_db s) with
  | Ok _, Ok target =>
      if decide (rtg_InvocationID target ≠ c_ResourceID claim) then unauthorized
      else match ReadExecutionPlan (rtg_IsolationDomainID target) (rtg_RevisionID target) (ss_runtime s) with
      | Err _ => unauthorized
      | Ok plan =>
          match pl_WorkspaceSource plan with
          | None => unauthorized
          | Some source =>
              if decide (ExecutionPlan.pl_SchemaVersion plan ≠ ExecutionPlanSchemaV2 ∨ pl_IsolationDomainID plan ≠ rtg_IsolationDomainID target
                         ∨ pl_RevisionID plan ≠ rtg_RevisionID target) then unauthorized
              else if decide (is_Some (sa_record b) ∧ sa_record b ≠ Some source) then unauthorized
              else match DigestExecutionPlan plan, db_invocation_ops (store_db s) !! claim_key claim with
              | Ok digest, Some op => Ok (learned source digest b, target, lease_end op)
              | Err _, _ => unauthorized
              | _, None => Err ErrSourceUnavailable
              end
          end
      end
  | _, _ => unauthorized
  end.

(** [lock]: what the authoriser holds on to, the target, and until when. *)
Definition lock (ses : session) (b : invocationSourceAuthorizer) (s : source_store)
  : result (invocationSourceAuthorizer * InvocationRuntimeTarget * Z) :=
  match sa_right b with
  | ForExport q =>
      match lockWorkspaceExportTarget ses (sa_claim b) (sa_effect b) q s with
      | Err _ => Err ErrSourceUnauthorized
      | Ok (target, expires) => Ok (learned (wq_Source q) (wq_PlanDigest q) b, target, expires)
      end
  | ForPreparation p _ =>
      '(target, current) ← lockWorkspacePreparationTarget ses (sa_claim b) (sa_effect b) (ss_runtime s);
      if decide (ip_Execution current ≠ ip_Execution p ∨ ip_Source current ≠ ip_Source p ∨ ip_PlanDigest current ≠ ip_PlanDigest p)
      then Err ErrWorkspacePreparation
      else
        _ ← verifyWorkspacePreparation (sa_claim b) (sa_effect b)
              (MkPreparation (ip_Execution current) (ip_Source current) (ip_PlanDigest current) (ip_GrantGeneration p) (ip_ExpiresAt current)) (ss_runtime s);
        Ok (learned (ip_Source current) (ip_PlanDigest current) b, target, ip_ExpiresAt current)
  | ForAttempt => lock_attempt ses b s
  end.

Definition right_contract (r : source_right) : string :=
  match r with
  | ForAttempt => "dataground.invocation-source-read/v3"
  | ForPreparation _ _ => "dataground.invocation-source-read/v4"
  | ForExport _ => "dataground.invocation-source-read/v5"
  end.
Definition policy_v7 := "dataground.invocation-authorization-policy/v7".

(** The claim's part of a decision: what was locked, and the policy's outcome. *)
Definition claim_side `{SourceReadEvaluator} (ses : session) (use : SourceUse) (phase : string) (b : invocationSourceAuthorizer) (s : source_store)
  : result (invocationSourceAuthorizer * claim_evidence) :=
  '(b, target, expires) ← lock ses b s;
  if decide (sa_record b ≠ Some (su_Record use) ∨ rtg_IsolationDomainID target ≠ sr_IsolationDomainID (su_Record use)
             ∨ rtg_OperationID target ≠ su_OperationID use ∨ rtg_RevisionID target ≠ su_RevisionID use
             ∨ rtg_ActorID target ≠ su_ActorID use ∨ rtg_CorrelationID target ≠ su_CorrelationID use)
  then Err ErrSourceUnauthorized
  else match ss_policies s (rtg_IsolationDomainID target) (rtg_ServiceID target) (rtg_RevisionID target) with
  | Err err => if is_err err ErrInvocationAuthorizationPolicyRecordMissing then Err ErrSourceUnauthorized else Err ErrSourceUnavailable
  | Ok policy =>
      let request := MkSourceRead use (rtg_ServiceID target) (rtg_InvocationID target) (e_EffectID (sa_effect b)) (c_FencingToken (sa_claim b))
                       (sa_planDigest b) phase in
      if negb (request_valid request) then Err ErrSourceInvalid
      else
        let outcome := match sa_right b with
          | ForExport _ => if decide (iap_Contract policy ≠ policy_v7) then "denied" else EvaluateSourceRead policy request
          | _ => EvaluateSourceRead policy request
          end in
        if decide (outcome ∉ ["allowed"; "denied"; "unavailable"]) then Err ErrSourceUnavailable
        else
          Ok (with_current expires b,
              ClaimEvidence (right_contract (sa_right b)) (rtg_InvocationID target) (e_EffectID (sa_effect b)) (c_LeaseOwner (sa_claim b))
                (c_FencingToken (sa_claim b)) expires (iap_Contract policy) (iap_PolicySetID policy)
                ("sha256:" +:+ hex_encode (iap_PolicyDigest policy)) outcome (sa_planDigest b)
                (match sa_right b with ForExport q => Some (wq_OperationID q) | _ => None end))
  end.

(** The constraints of the table of decisions. *)
Definition policy_contracts : list string :=
  ["dataground.invocation-authorization-policy/v1"; "dataground.invocation-authorization-policy/v2";
   "dataground.invocation-authorization-policy/v3"; "dataground.invocation-authorization-policy/v4";
   "dataground.invocation-authorization-policy/v5"; "dataground.invocation-authorization-policy/v6"; policy_v7].
Definition claim_checks (row : decision_row) (c : claim_evidence) (s : source_store) : bool :=
  let digest := match_prefixed "sha256:" is_hex_lower 64 64 in
  match_prefixed "inv_" is_id_char 20 32 (ce_invocation_id c) && match_prefixed "eff_" is_id_char 20 32 (ce_effect_id c)
  && bool_decide (ce_owner c ≠ "" ∧ (0 < ce_token c)%Z ∧ (de_outcome row = "allowed" → (de_occurred_at row < ce_expires_at c)%Z))
  && bool_decide (ce_policy_contract c ∈ policy_contracts) && opaqueIdentifierPattern (ce_policy_set_id c)
  && digest (ce_policy_digest c) && digest (ce_plan_digest c)
  && bool_decide (ce_policy_outcome c ∈ ["allowed"; "denied"; "unavailable"]
       ∧ (ce_policy_outcome c = "allowed" → ce_policy_contract c ∈ ["dataground.invocation-authorization-policy/v6"; policy_v7])
       ∧ (de_outcome row = "allowed" → ce_policy_outcome c = "allowed"))
  && match ce_cleanup_operation_id c with
     | None => negb (bool_decide (ce_contract c = "dataground.invocation-source-read/v5"))
     | Some cleanup =>
         bool_decide (ce_contract c = "dataground.invocation-source-read/v5" ∧ cleanup = de_operation_id row
           ∧ (ce_policy_outcome c = "allowed" → ce_policy_contract c = policy_v7) ∧ ((de_source row).1.1, cleanup) ∈ ss_confirmed s)
     end.
Definition decision_checks (row : decision_row) (s : source_store) : bool :=
  match_prefixed "sud_" is_id_char 20 32 (de_id row)
  && match de_observed_generation row with Some g => (0 <? g)%Z | None => true end
  && (negb (bool_decide (de_outcome row = "allowed"))
      || (bool_decide (de_observed_generation row = Some (de_requested_generation row)) && after (de_expires_at row) (de_occurred_at row)))
  && match de_claim row with None => true | Some c => claim_checks row c s end
  && forallb (λ other, negb (bool_decide ((de_source other).1.1 = (de_source row).1.1 ∧ de_id other = de_id row))) (ss_decisions s).

(** What the decision reads: the source, the revision and the latest grant. *)
Definition use_allowed (use : SourceUse) (source : result SourceCatalogEntry) (grant : option SourceGrantChange) (now : Z)
    (claim : option claim_evidence) (s : source_store) : bool :=
  match claim with Some c => bool_decide (ce_policy_outcome c = "allowed") | None => true end
  && match source with Ok entry => sce_Ready entry && bool_decide (si_Record (sce_Installation entry) = su_Record use) | Err _ => false end
  && published (sr_IsolationDomainID (su_Record use)) (su_RevisionID use) s
  && match grant with
     | Some g => bool_decide (sg_Record g = su_Record use ∧ sg_Generation g = su_GrantGeneration use ∧ sg_Operation g = "activate"
                   ∧ (sg_ActivatedAt g ≤ now < sg_ExpiresAt g)%Z)
     | None => false
     end.

Definition decision_of (use : SourceUse) (phase : string) (grant : option SourceGrantChange) (allowed : bool) (claim : option claim_evidence)
    (id : string) (clock : nat → Z) : decision_row :=
  let r := su_Record use in
  let expires := g ← grant; if decide (sg_Operation g = "activate") then Some (sg_ExpiresAt g) else None in
  let outcome :=
    if allowed && after expires (clock 0%nat) && match claim with None => true | Some c => bool_decide (clock 1%nat < ce_expires_at c)%Z end
    then "allowed" else "denied" in
  DecisionRow id (su_Contract use) (source_key_of r) (su_RevisionID use) (su_OperationID use) (sr_ArchiveDigest r) (sr_StorageProfileDigest r)
    (su_GrantGeneration use) (sg_Generation <$> grant) expires phase outcome (su_ActorID use) (su_CorrelationID use) claim (clock 2%nat).

(** ** Completing a preparation *)

Definition workspacePreparationResourceID (claim : OperationClaim) : string := c_ID claim +:+ ":" +:+ pretty (c_FencingToken claim).

(** The lease the statements of a preparation are conditional on. *)
Definition holds_lease (claim : OperationClaim) (now : Z) (s : runtime_store) : bool :=
  match db_invocation_ops (rs_db s) !! claim_key claim with
  | Some op => bool_decide (op_lease_owner op = Some (c_LeaseOwner claim) ∧ op_lease_token op = c_FencingToken claim ∧ (now < op_deadline_at op)%Z)
               && after (op_lease_expires_at op) now
  | None => false
  end.

(** The trigger [enforce_workspace_completion]. *)
Definition completion_permitted (version : claim_version) (decisionID : string) (now : Z) (s : source_store) : bool :=
  let '(scope, op, token) := version in
  match rs_preparations (ss_runtime s) !! version, db_invocation_ops (store_db s) !! (scope, op) with
  | Some p, Some operation =>
      let source := wp_source_record p in
      match db_invocations (store_db s) !! (scope, op_resource_id operation) with
      | None => false
      | Some invocation =>
          bool_decide (op_lease_owner operation = Some (wp_lease_owner p) ∧ op_lease_token operation = token
            ∧ (op_command operation = "invoke" ∨ op_command operation = "repair") ∧ op_state_machine_version operation = 2%Z
            ∧ op_observed_state operation = "running" ∧ (now < op_deadline_at operation)%Z ∧ attempts_of (ss_runtime s) !! (scope, op) = None)
          && after (op_lease_expires_at operation) now
          && existsb (λ d, bool_decide ((de_source d).1.1 = scope ∧ de_id d = decisionID ∧ de_operation_id d = op ∧ de_phase d = SourceReadDelivery
                 ∧ de_outcome d = "allowed" ∧ de_requested_generation d = wp_grant_generation p ∧ de_archive_digest d = sr_ArchiveDigest source
                 ∧ de_storage_profile_digest d = sr_StorageProfileDigest source ∧ (de_source d).1.2 = sr_WorkspaceID source ∧ (de_source d).2 = sr_ID source
                 ∧ de_revision_id d = inv_revision_id invocation ∧ de_actor_id d = wp_actor_id p ∧ de_correlation_id d = wp_correlation_id p)
               && after (de_expires_at d) now
               && match de_claim d with
                  | Some c => bool_decide (ce_contract c = "dataground.invocation-source-read/v4" ∧ ce_invocation_id c = op_resource_id operation
                       ∧ ce_effect_id c = wp_effect_id p ∧ ce_owner c = wp_lease_owner p ∧ ce_token c = token ∧ ce_policy_outcome c = "allowed"
                       ∧ (now < ce_expires_at c)%Z ∧ ce_plan_digest c = wp_plan_digest p)
                  | None => false
                  end) (ss_decisions s)
      end
  | _, _ => false
  end.

Definition put_completion (version : claim_version) (decisionID : string) (s : runtime_store) : runtime_store :=
  RuntimeStore (rs_db s) (rs_artifacts s) (rs_objects s) (rs_plans s) (rs_instances s) (rs_preparations s) (<[version := decisionID]> (rs_completions s)).
Definition put_preparation (version : claim_version) (row : preparation_row) (s : runtime_store) : runtime_store :=
  RuntimeStore (rs_db s) (rs_artifacts s) (rs_objects s) (rs_plans s) (rs_instances s) (<[version := row]> (rs_preparations s)) (rs_completions s).

Definition preparation_event (ses : session) (claim : OperationClaim) (event actorID correlationID : string) : source_store → source_store :=
  audited ses 0 (c_IsolationDomainID claim) "workspace-preparation" (workspacePreparationResourceID claim) event actorID correlationID "accepted" (c_ID claim).

Definition recordWorkspaceCompletion (ses : session) (b : invocationSourceAuthorizer) (use : SourceUse) (decisionID : string) (s : source_store)
  : result source_store :=
  let claim := sa_claim b in
  let completed := rs_completions (ss_runtime s) !! version_of claim in
  if holds_lease claim (ses_clock ses 6) (ss_runtime s) then
    if negb (completion_permitted (version_of claim) decisionID (ses_clock ses 7) s) then Err (ENew "workspace completion requires a current exact delivery decision")
    else match completed with
    | Some _ => Ok s
    | None => Ok (preparation_event ses claim "workspace.source.preparation.completed" (su_ActorID use) (su_CorrelationID use)
                    (set_runtime_store (put_completion (version_of claim) decisionID) s))
    end
  else match completed with Some _ => Ok s | None => Err ErrWorkspacePreparation end.

(** ** The decision *)

(** The transaction: it commits the decision, whatever its outcome.  The clocks 0 and 1
    are those of [lock], 2 reads the time, 3 to 5 belong to the insertion. *)
Definition decide_use `{SourceReadEvaluator} (ses : session) (use : SourceUse) (phase : string) (bound : option invocationSourceAuthorizer)
    (s : source_store) : result (source_store * (decision_row * option invocationSourceAuthorizer)) :=
  let r := su_Record use in
  '(bound, claim) ← match bound with
    | None => Ok (None, None)
    | Some b => '(b, c) ← claim_side ses use phase b s; Ok (Some b, Some c)
    end;
  let source := findWorkspaceSource (sr_IsolationDomainID r) (sr_WorkspaceID r) (sr_ID r) s in
  if match source with Err err => negb (is_err err ErrSourceMissing) | Ok _ => false end
  then match source with Err err => Err err | Ok _ => Err ErrSourceUnavailable end
  else
    grant ← readWorkspaceSourceGrant r (su_RevisionID use) 0 s;
    let allowed := use_allowed use source grant (ses_clock ses 2) claim s in
    let row := decision_of use phase grant allowed claim (Identity.New (ses_random ses 1) "sud") (λ i, ses_clock ses (3 + i)) in
    if negb (decision_checks row s) then Err ErrSourceUnavailable
    else
      let s := add_decision row s in
      match bound with
      | Some b =>
          match sa_right b with
          | ForPreparation _ true =>
              if decide (de_outcome row = "allowed") then
                match recordWorkspaceCompletion ses b use (de_id row) s with
                | Ok s => Ok (s, (row, bound))
                | Err _ => Err ErrSourceUnavailable
                end
              else Ok (s, (row, bound))
          | _ => Ok (s, (row, bound))
          end
      | None => Ok (s, (row, bound))
      end.

(** The answer, read off the committed decision; a rolled-back transaction leaves the
    tables as they were. *)
Definition permit_of (ses : session) (row : decision_row) : result SourcePermit :=
  if match de_claim row with Some c => bool_decide (ce_policy_outcome c = "unavailable") | None => false end then Err ErrSourceUnavailable
  else match de_expires_at row, de_observed_generation row with
  | Some expires, Some generation =>
      if bool_decide (de_outcome row = "allowed") && bool_decide (ses_now ses 1 < expires)%Z
         && match de_claim row with Some c => bool_decide (ses_now ses 2 < ce_expires_at c)%Z | None => true end
      then Ok (MkPermit generation expires) else Err ErrSourceUnauthorized
  | _, _ => Err ErrSourceUnauthorized
  end.

Definition authorizeWorkspaceSource `{SourceReadEvaluator} (ses : session) (use : SourceUse) (phase : string)
    (bound : option invocationSourceAuthorizer) (s : source_store) : source_store * (result SourcePermit * option invocationSourceAuthorizer) :=
  if negb (use_valid use && bool_decide (phase = SourceReadAdmission ∨ phase = SourceReadDelivery)) then (s, (Err ErrSourceInvalid, bound))
  else match decide_use ses use phase bound s with
  | Err err => (s, (Err err, bound))
  | Ok (s', (row, bound')) => (s', (permit_of ses row, bound'))
  end.

(** Without a claim: the grant alone. *)
Definition AuthorizeWorkspaceSource `{SourceReadEvaluator} (ses : session) (use : SourceUse) (phase : string) (s : source_store)
  : source_store * result SourcePermit :=
  let '(s, (answer, _)) := authorizeWorkspaceSource ses use phase None s in (s, answer).

(** Under a claim: a permit ends with the grant, the lease it was read under, and the
    lease the reading began under. *)
Definition bound_AuthorizeWorkspaceSource `{SourceReadEvaluator} (ses : session) (use : SourceUse) (phase : string)
    (b : invocationSourceAuthorizer) (s : source_store) : source_store * (result SourcePermit * invocationSourceAuthorizer) :=
  let '(s, (answer, b')) := authorizeWorkspaceSource ses use phase (Some b) s in
  let b := default b b' in
  (s, (answer, match answer with
               | Ok permit => with_delivery (Z.min (Z.min (sp_ExpiresAt permit) (sa_readExpires b)) (sa_currentExpires b)) b
               | Err _ => b
               end)).

(** [sourceUse]: the use the claim stands for.  The transaction only reads. *)
Definition sourceUse (ses : session) (b : invocationSourceAuthorizer) (record : SourceRecord) (generation : Z) (s : source_store)
  : result (SourceUse * Z * invocationSourceAuthorizer) :=
  '(b, target, expires) ← lock ses b s;
  if decide (sa_record b ≠ Some record) then Err ErrSourceUnauthorized
  else
    let use := MkSourceUse SourceUseV1 record (rtg_RevisionID target) (rtg_OperationID target) generation (rtg_ActorID target) (rtg_CorrelationID target) in
    if use_valid use then Ok (use, expires, with_read expires b) else Err ErrSourceInvalid.

Definition new_authorizer (claim : OperationClaim) (effect : EffectRecord) (right : source_right) : invocationSourceAuthorizer :=
  MkSourceAuthorizer claim effect right None "" zero_time zero_time zero_time.

(** ** Preparations *)

(** The trigger [enforce_workspace_preparation]. *)
Definition preparation_permitted (version : claim_version) (row : preparation_row) (now : Z) (s : runtime_store) : bool :=
  let '(scope, op, token) := version in
  match db_invocation_ops (rs_db s) !! (scope, op), rs_instances s !! (scope, wp_execution_id row), db_effects (rs_db s) !! (scope, wp_effect_id row) with
  | Some operation, Some row', Some effect =>
      match inv ← db_invocations (rs_db s) !! (scope, op_resource_id operation); rs_plans s !! (scope, inv_revision_id inv) with
      | None => false
      | Some plan =>
          bool_decide ((op_command operation = "invoke" ∨ op_command operation = "repair") ∧ op_state_machine_version operation = 2%Z
            ∧ op_observed_state operation = "running" ∧ op_lease_owner operation = Some (wp_lease_owner row) ∧ op_lease_token operation = token
            ∧ (now < op_deadline_at operation)%Z ∧ wp_actor_id row = default (op_actor_id operation) (op_effect_actor_id operation)
            ∧ wp_correlation_id row = default (op_correlation_id operation) (op_effect_correlation_id operation)
            ∧ pw_schema_version plan = ExecutionPlanSchemaV2 ∧ pw_plan_digest plan = wp_plan_digest row
            ∧ pw_workspace_source plan = Some (wp_source_record row) ∧ in_operation_id row' = op ∧ in_observed_state row' = "ready"
            ∧ eff_operation_id effect = op ∧ eff_operation_kind effect = OperationKindInvocation ∧ eff_phase effect = "run-invocation"
            ∧ attempts_of s !! (scope, op) = None)
          && invocationRuntimeEffectMayStartAttempt (eff_status effect) && after (op_lease_expires_at operation) now
      end
  | _, _, _ => false
  end.

Definition with_generation (generation : Z) (p : InvocationWorkspacePreparation) : InvocationWorkspacePreparation :=
  MkPreparation (ip_Execution p) (ip_Source p) (ip_PlanDigest p) generation (ip_ExpiresAt p).

(** [INSERT ... SELECT ... WHERE EXISTS ... ON CONFLICT DO NOTHING], after the trigger. *)
Definition insert_preparation (ses : session) (claim : OperationClaim) (row : preparation_row) (s : runtime_store) : result (runtime_store * bool) :=
  if holds_lease claim (ses_clock ses 2) s then
    if negb (preparation_permitted (version_of claim) row (ses_clock ses 3) s) then Err (ENew "workspace preparation requires an inactive exact claimed execution")
    else match rs_preparations s !! version_of claim with
    | Some _ => Ok (s, false)
    | None => Ok (put_preparation (version_of claim) row s, true)
    end
  else Ok (s, false).

Definition BeginInvocationWorkspacePreparation (ses : session) (claim : OperationClaim) (effect : EffectRecord) (expected : key) (generation : Z)
    (s : source_store) : result (source_store * InvocationWorkspacePreparation) :=
  if negb (validInvocationRuntimeAttempt claim effect && bool_decide (expected.1 = c_IsolationDomainID claim ∧ expected.2 ≠ "" ∧ (1 ≤ generation)%Z))
  then Err ErrWorkspacePreparation
  else
    '(target, preparation) ← lockWorkspacePreparationTarget ses claim effect (ss_runtime s);
    if decide (ip_Execution preparation ≠ expected) then Err ErrWorkspacePreparation
    else
      let preparation := with_generation generation preparation in
      let row := PreparationRow (e_EffectID effect) (c_LeaseOwner claim) expected.2 (ip_PlanDigest preparation) (ip_Source preparation) generation
                   (rtg_ActorID target) (rtg_CorrelationID target) in
      '(runtime, inserted) ← insert_preparation ses claim row (ss_runtime s);
      _ ← verifyWorkspacePreparation claim effect preparation runtime;
      let s := set_runtime_store (λ _, runtime) s in
      Ok (if inserted : bool then preparation_event ses claim "workspace.source.preparation.started" (rtg_ActorID target) (rtg_CorrelationID target) s else s,
          preparation).

Definition expected_receipt (r : SourceRecord) : Receipt :=
  MkReceipt SourceSchema (sr_ArchiveDigest r) (sr_EntryCount r) (sr_SourceBytes r).
