(* ===== verification/SourceSystem.v ===== *)
(** * Workspace sources over time

    The calls of [SourceTables] and [SourceClaims] and those of the rest of the system, in
    any order, under a database clock that does not run backwards: what every reachable
    state satisfies. *)
From stdpp Require Import pretty.
From S2P Require Import Prelude.
From S2P Require Import GoStrings.
From S2P Require Import Sha256.
From S2P Require Import Domain.
From S2P Require Import RuntimeTables.
From S2P Require Import Database.
From S2P Require Import OperationStore.
From S2P Require Import Commands.
From S2P Require Import RuntimeInteraction.
From S2P Require Import ExecutionPlan.
From S2P Require Import WorkspaceSource.
From S2P Require Import RuntimeDriver.
From S2P Require Import RuntimeStore.
From S2P Require Import RuntimeAttempts.
From S2P Require Import RuntimeSystem.
From S2P Require Import S3Store.
From S2P Require Import WorkspaceAccess.
From S2P Require Import SourceTables.
From S2P Require Import SourceClaims.

(** ** The system *)

(** One transaction each. *)
Inductive source_call :=
  | SourceBind (input : SourceInstallation) (complete : bool)
  | SourceGrant (change : SourceGrantChange)
  | SourceDecide (use : SourceUse) (phase : string) (bound : option invocationSourceAuthorizer)
  | SourcePrepare (claim : OperationClaim) (effect : EffectRecord) (expected : key) (generation : Z)
  | SourceCleanup (claim : OperationClaim) (effect : EffectRecord) (expected : key) (ownerBinding : string)
  | SourceConfirm (claim : OperationClaim) (effect : EffectRecord) (record : InvocationWorkspaceQuiescence).

Definition committed {A} (r : result (source_store * A)) : result source_store := match r with Ok (s, _) => Ok s | Err e => Err e end.

Definition run_source `{SourceReadEvaluator} (ses : session) (c : source_call) (s : source_store) : result source_store :=
  match c with
  | SourceBind input complete => committed (bindWorkspaceSource ses input complete s)
  | SourceGrant change => ChangeWorkspaceSourceGrant ses change s
  | SourceDecide use phase bound => if use_valid use then committed (decide_use ses use phase bound s) else Err ErrSourceInvalid
  | SourcePrepare claim effect expected generation => committed (BeginInvocationWorkspacePreparation ses claim effect expected generation s)
  | SourceCleanup claim effect expected ownerBinding => committed (BeginInvocationWorkspaceQuiescence ses claim effect expected ownerBinding s)
  | SourceConfirm claim effect record => committed (CompleteInvocationWorkspaceQuiescence ses claim effect record s)
  end.

Record source_world := SourceWorldState { sw_store : source_store; sw_claims : list OperationClaim; sw_clock : Z }.

(** The statements of a call read the clock one after the other. *)
Definition clock_runs (ses : session) (from to : Z) : Prop :=
  (∀ i, from ≤ ses_clock ses i ≤ to)%Z ∧ (∀ i j, i ≤ j → (ses_clock ses i ≤ ses_clock ses j)%Z).

(** The rest of the system reads preparations but does not write them. *)
Definition keeps_preparations (r r' : runtime_store) : Prop :=
  rs_preparations r' = rs_preparations r ∧ rs_completions r' = rs_completions r.

Inductive source_step `{SchemaEngine, SourceReadEvaluator} : source_world → source_world → Prop :=
  | step_source ses c s cs t t' s' :
      clock_runs ses t t' → run_source ses c s = Ok s' → source_step (SourceWorldState s cs t) (SourceWorldState s' cs t')
  | step_system s cs t t' r cs' :
      (t ≤ t')%Z → runtime_step (RuntimeWorld (ss_runtime s) cs) (RuntimeWorld r cs') → keeps_preparations (ss_runtime s) r →
      source_step (SourceWorldState s cs t) (SourceWorldState (set_runtime_store (λ _, r) s) cs' t')
  | step_workspace s cs t t' e i input d answer :
      (t ≤ t')%Z → CreateWorkspace e i input (store_db s) = Ok (d, answer) →
      source_step (SourceWorldState s cs t) (SourceWorldState (set_runtime_store (set_db (λ _, d)) s) cs t')
  | step_policies s cs t policies :
      source_step (SourceWorldState s cs t)
        (SourceWorldState (SourceStore (ss_runtime s) (ss_installations s) (ss_completed s) (ss_grants s) (ss_decisions s) (ss_cleanups s) (ss_confirmed s) policies) cs t).

Definition initial_source : source_world :=
  SourceWorldState (SourceStore (rw_store initial_runtime) ∅ ∅ [] [] ∅ ∅ (λ _ _ _, Err ErrInvocationAuthorizationPolicyRecordMissing)) [] 0.

(** ** Grants *)

(** The rows of one source and revision are numbered from 1, in the order and at the
    times they were written. *)
Definition grants_numbered (l : list grant_row) : Prop :=
  ∀ k rev, gr_generation <$> grants_for k rev l = seqZ 1 (Z.of_nat (length (grants_for k rev l))).
Definition grants_in_time (l : list grant_row) (t : Z) : Prop :=
  ∀ k rev i j a b, grants_for k rev l !! i = Some a → grants_for k rev l !! j = Some b → i ≤ j → (gr_occurred_at a ≤ gr_occurred_at b ≤ t)%Z.

Lemma highest_last l : gr_generation <$> l = seqZ 1 (Z.of_nat (length l)) → highest l = last l.
Proof.
  assert (∀ n l, gr_generation <$> l = seqZ n (Z.of_nat (length l)) →
            highest l = last l ∧ ∀ g, last l = Some g → (gr_generation g = n + Z.of_nat (length l) - 1)%Z) as H.
  2:{ intros Hl. by apply (H 1%Z l). }
  clear l. intros n l. revert n. induction l as [|g l IH]; intros n Hl; [done|].
  rewrite fmap_cons in Hl. cbn [length] in *. rewrite Nat2Z.inj_succ, seqZ_cons in Hl by lia. rewrite Z.pred_succ in Hl.
  injection Hl as Hg Hl. destruct (IH _ Hl) as [Eh Hlast]. cbn [highest]. destruct l as [|g' l]; [cbn; split; [done|intros ? [= <-]; lia]|].
  rewrite Eh. destruct (last (g' :: l)) as [b|] eqn:Eb; [|by apply last_None in Eb].
  specialize (Hlast b eq_refl). cbn [length] in Hlast. rewrite decide_True by (cbn [length]; lia).
  change (last (g :: g' :: l)) with (last (g' :: l)). rewrite Eb. split; [done|]. intros ? [= <-]. cbn [length]. lia.
Qed.

Lemma grants_for_app k rev l g :
  grants_for k rev (l ++ [g]) = grants_for k rev l ++ if decide (gr_source g = k ∧ gr_revision_id g = rev) then [g] else [].
Proof. unfold grants_for. by rewrite filter_app. Qed.

Lemma last_generation l g : gr_generation <$> l = seqZ 1 (Z.of_nat (length l)) → last l = Some g → gr_generation g = Z.of_nat (length l).
Proof.
  intros Hl Hg. rewrite last_lookup in Hg. apply (f_equal (λ m, m !! (pred (length l)))) in Hl.
  rewrite list_lookup_fmap, Hg in Hl. apply lookup_lt_Some in Hg. cbn in Hl. rewrite lookup_seqZ_lt in Hl by lia. injection Hl as ->. lia.
Qed.

(** The trigger numbers a new row one after the last. *)
Lemma sequence_next clock g s :
  grants_numbered (ss_grants s) → grant_sequence clock g s = true →
  gr_generation g = Z.of_nat (S (length (grants_for (gr_source g) (gr_revision_id g) (ss_grants s)))).
Proof.
  intros Hn Hs. unfold grant_sequence in Hs. rewrite (highest_last _ (Hn _ _)) in Hs. apply andb_true_iff in Hs as [[Hs _]%andb_true_iff _].
  destruct (last _) as [p|] eqn:E; to_prop.
  - rewrite (last_generation _ _ (Hn _ _) E) in *. lia.
  - apply last_None in E. rewrite E. naive_solver.
Qed.

Lemma numbered_app g l :
  grants_numbered l → gr_generation g = Z.of_nat (S (length (grants_for (gr_source g) (gr_revision_id g) l))) → grants_numbered (l ++ [g]).
Proof.
  intros Hn Hg k rev. rewrite grants_for_app. case_decide as D; [|by rewrite app_nil_r]. destruct D as [<- <-].
  rewrite fmap_app, length_app, Hn. cbn [length fmap list_fmap]. rewrite Hg, Nat.add_1_r, seqZ_S. do 2 f_equal. lia.
Qed.

Lemma in_time_app g l t t' :
  grants_in_time l t → (t ≤ gr_occurred_at g ≤ t')%Z → grants_in_time (l ++ [g]) t'.
Proof.
  intros Ht Hg k rev i j a b. rewrite grants_for_app. case_decide as D; [|rewrite app_nil_r; intros Ha Hb Hij; specialize (Ht _ _ _ _ _ _ Ha Hb Hij); lia].
  intros Ha Hb Hij. apply lookup_app_Some in Ha as [Ha|[La Ha]], Hb as [Hb|[Lb Hb]].
  - specialize (Ht _ _ _ _ _ _ Ha Hb Hij). lia.
  - apply list_lookup_singleton_Some in Hb as [_ <-]. specialize (Ht _ _ _ _ _ _ Ha Ha (le_n _)). lia.
  - apply lookup_lt_Some in Hb. lia.
  - apply list_lookup_singleton_Some in Ha as [_ <-], Hb as [_ <-]. lia.
Qed.

(** ** The invariant *)

(** The worker's part of an allowed decision. *)
Definition claim_allowed (d : decision_row) : Prop :=
  match de_claim d with
  | Some c => ce_policy_outcome c = "allowed" ∧ (de_occurred_at d < ce_expires_at c)%Z
  | None => True
  end.

(** What an allowed decision rests on: the completed source it names, and the grant of
    that generation, which was activated, had not expired, and had not been followed by
    another when the decision was made. *)
Definition justified (s : source_store) (d : decision_row) : Prop :=
  de_source d ∈ ss_completed s
  ∧ (∃ i, ss_installations s !! de_source d = Some i ∧ sr_ArchiveDigest (si_Record i) = de_archive_digest d
       ∧ sr_StorageProfileDigest (si_Record i) = de_storage_profile_digest d)
  ∧ claim_allowed d
  ∧ ∃ g activated expires, g ∈ ss_grants s ∧ gr_source g = de_source d ∧ gr_revision_id g = de_revision_id d
      ∧ gr_generation g = de_requested_generation d ∧ gr_operation g = "activate"
      ∧ gr_activated_at g = Some activated ∧ gr_expires_at g = Some expires ∧ (activated ≤ de_occurred_at d < expires)%Z
      ∧ (gr_occurred_at g ≤ de_occurred_at d)%Z
      ∧ ∀ g', g' ∈ ss_grants s → gr_source g' = de_source d → gr_revision_id g' = de_revision_id d →
          (gr_generation g < gr_generation g')%Z → (de_occurred_at d ≤ gr_occurred_at g')%Z.

(** What a completed preparation rests on: a delivery that was allowed to this very claim,
    for the source and the generation of the preparation. *)
Definition prepared_by (s : source_store) (v : claim_version) (p : preparation_row) (d : decision_row) (c : claim_evidence) : Prop :=
  let '(scope, op, token) := v in
  d ∈ ss_decisions s ∧ de_outcome d = "allowed" ∧ de_phase d = SourceReadDelivery ∧ de_operation_id d = op
  ∧ de_source d = (scope, sr_WorkspaceID (wp_source_record p), sr_ID (wp_source_record p))
  ∧ de_archive_digest d = sr_ArchiveDigest (wp_source_record p) ∧ de_requested_generation d = wp_grant_generation p
  ∧ de_claim d = Some c ∧ ce_contract c = "dataground.invocation-source-read/v4" ∧ ce_effect_id c = wp_effect_id p
  ∧ ce_owner c = wp_lease_owner p ∧ ce_token c = token ∧ ce_plan_digest c = wp_plan_digest p.

Record source_inv (s : source_store) (t : Z) : Prop := SourceInv {
  inv_installed k i : ss_installations s !! k = Some i → source_key_of (si_Record i) = k ∧ ValidSourceInstallation i = true;
  inv_completed k : k ∈ ss_completed s → is_Some (ss_installations s !! k);
  inv_numbered : grants_numbered (ss_grants s);
  inv_times : grants_in_time (ss_grants s) t;
  inv_decisions d : d ∈ ss_decisions s → de_outcome d = "allowed" → justified s d ∧ (de_occurred_at d ≤ t)%Z;
  inv_completions v id : rs_completions (ss_runtime s) !! v = Some id →
    ∃ p d c, rs_preparations (ss_runtime s) !! v = Some p ∧ de_id d = id ∧ prepared_by s v p d c }.

(** *** What leaves it alone *)

Lemma in_time_later l t t' : grants_in_time l t → (t ≤ t')%Z → grants_in_time l t'.
Proof. intros H Ht k rev i j a b Ha Hb Hij. specialize (H _ _ _ _ _ _ Ha Hb Hij). lia. Qed.

Lemma inv_runtime s t t' r :
  source_inv s t → (t ≤ t')%Z → keeps_preparations (ss_runtime s) r → source_inv (set_runtime_store (λ _, r) s) t'.
Proof.
  intros I Ht [Ep Ec]. split; cbn; [apply I|apply I|apply I|by eapply in_time_later; [apply I|]| |].
  - intros d Hd Ho. destruct (inv_decisions _ _ I d Hd Ho) as [J L]. split; [exact J|lia].
  - intros v id. rewrite Ep, Ec. apply I.
Qed.

Lemma inv_audited s t t' ses n a b c d e f g h : source_inv s t → (t ≤ t')%Z → source_inv (audited ses n a b c d e f g h s) t'.
Proof. intros I Ht. unfold audited. by apply (inv_runtime s t t'). Qed.

Lemma inv_event s t ses claim event actor correlation : source_inv s t → source_inv (preparation_event ses claim event actor correlation s) t.
Proof. intros I. unfold preparation_event. by apply (inv_audited s t t). Qed.

Lemma inv_later s t t' : source_inv s t → (t ≤ t')%Z → source_inv s t'.
Proof. intros I Ht. destruct s. by apply (inv_runtime _ t t' _ I Ht). Qed.

Lemma find_spec scope workspace id s entry : findWorkspaceSource scope workspace id s = Ok entry →
  ss_installations s !! (scope, workspace, id) = Some (sce_Installation entry) ∧ ValidSourceInstallation (sce_Installation entry) = true
  ∧ (sce_Ready entry = true → (scope, workspace, id) ∈ ss_completed s).
Proof.
  unfold findWorkspaceSource. destruct (_ !! _) as [i|]; [|done]. destruct (ValidSourceInstallation i) eqn:E; [|done].
  intros [= <-]. cbn. split_and!; [done|done|]. by intros ?%bool_decide_eq_true.
Qed.

Lemma find_missing scope workspace id s e : findWorkspaceSource scope workspace id s = Err e → is_err e ErrSourceMissing = true →
  ss_installations s !! (scope, workspace, id) = None.
Proof. unfold findWorkspaceSource. destruct (_ !! _) as [i|]; [|done]. destruct (ValidSourceInstallation i); [done|]. by intros [= <-]. Qed.

(** *** Installations *)

Lemma justified_installation i s d :
  ss_installations s !! source_key_of (si_Record i) = None → justified s d → justified (add_installation i s) d.
Proof.
  intros Hn (Hc & (i' & Hi & Hd) & J). split; [done|]. split; [|exact J]. exists i'. split; [|done]. cbn.
  rewrite lookup_insert_ne; [done|]. intros E. by rewrite E, Hi in Hn.
Qed.

Lemma justified_completion k s d : justified s d → justified (add_completion k s) d.
Proof. intros (Hc & J). split; [cbn; set_solver|exact J]. Qed.

Lemma bind_inv ses input complete s s' entry t t' :
  bindWorkspaceSource ses input complete s = Ok (s', entry) → source_inv s t → (t ≤ t')%Z → source_inv s' t'.
Proof.
  unfold bindWorkspaceSource. set (r := si_Record input). destruct (ValidSourceInstallation input) eqn:V; cbn [negb]; [|done]. case_decide; [done|].
  destruct (findWorkspaceSource _ _ _ _) as [found|err] eqn:F; intros E I Ht.
  - apply find_spec in F as (Hi & _ & _). case_decide; [done|]. destruct (complete && _); injection E as <- <-; [|by eapply inv_later].
    eapply inv_audited; [|exact Ht]. split; cbn; try apply I; intros; try (by eapply inv_completions).
    + match goal with H : _ ∈ _ ∪ _ |- _ => apply elem_of_union in H as [->%elem_of_singleton|H]; [by eexists|by eapply inv_completed] end.
    + destruct (inv_decisions _ _ I d) as [J L]; [done|done|]. split; [by apply justified_completion|done].
  - destruct (is_err err ErrSourceMissing) eqn:M; cbn [negb] in E; [|done]. destruct complete; [done|]. injection E as <- <-.
    pose proof (find_missing _ _ _ _ _ F M) as Hn. eapply inv_audited; [|exact Ht]. split; cbn; try apply I; intros; try (by eapply inv_completions).
    + match goal with H : <[_ := _]> _ !! _ = _ |- _ => apply lookup_insert_Some in H as [[<- <-]|[_ H]]; [done|by apply I] end.
    + apply lookup_insert_is_Some'. right. by eapply inv_completed.
    + destruct (inv_decisions _ _ I d) as [J L]; [done|done|]. split; [by apply justified_installation|done].
Qed.

(** *** Grants *)

Lemma justified_grant g s d t :
  (de_occurred_at d ≤ t)%Z → (t ≤ gr_occurred_at g)%Z → justified s d → justified (add_grant g s) d.
Proof.
  intros Hd Hg (Hc & Hi & Hcl & g0 & a & e & Hin & H1 & H2 & H3 & H4 & H5 & H6 & [H7 H9] & H8 & Hlast). split_and!; [done|done|done|].
  exists g0, a, e. cbn. split_and!; try done; [set_solver|]. intros g' [Hg'| ->%list_elem_of_singleton]%elem_of_app S R G; [by apply Hlast|lia].
Qed.

Lemma grant_inv ses v s s' t t' :
  ChangeWorkspaceSourceGrant ses v s = Ok s' → clock_runs ses t t' → source_inv s t → source_inv s' t'.
Proof.
  unfold ChangeWorkspaceSourceGrant. destruct (grant_valid v); cbn [negb]; [|done].
  intros (source & _ & E)%result_bind_Ok [Hr _] I. assert (t ≤ t')%Z as Ht by (specialize (Hr 0); lia). case_decide; [done|].
  apply result_bind_Ok in E as ([found|] & _ & E); [destruct (sameWorkspaceSourceGrant _ _); [|done]; injection E as <-; by eapply inv_later|].
  set (row := grant_row_of v _) in *. destruct (grant_sequence _ _ _) eqn:Seq; cbn [andb] in E; [|done].
  destruct (grant_keys _ _); [|done]. injection E as <-. eapply inv_audited; [|reflexivity]. pose proof (Hr 0) as H2.
  split; cbn; try apply I.
  - apply numbered_app; [apply I|]. by eapply sequence_next; [apply I|].
  - eapply in_time_app; [apply I|]. exact H2.
  - intros d Hd Ho. destruct (inv_decisions _ _ I d Hd Ho) as [J L]. split; [|lia]. eapply justified_grant; [exact L| |done]. cbn. lia.
Qed.

(** *** Decisions *)

Lemma filter_whole {A} (P : A → Prop) `{∀ x, Decision (P x)} (l : list A) : (∀ x, P x) → filter P l = l.
Proof. intros HP. induction l as [|x l IH]; [done|]. rewrite filter_cons_True by apply HP. by rewrite IH. Qed.

Lemma read_latest record rev s v :
  grants_numbered (ss_grants s) → readWorkspaceSourceGrant record rev 0 s = Ok (Some v) →
  ∃ g, last (grants_for (source_key_of record) rev (ss_grants s)) = Some g ∧ v = grant_of record g ∧ grant_valid v = true.
Proof.
  unfold readWorkspaceSourceGrant. intros Hn. rewrite filter_whole by (by left). rewrite (highest_last _ (Hn _ _)).
  destruct (last _) as [g|]; [|done]. destruct (grant_valid _) eqn:V; [|done]. intros [= <-]. by exists g.
Qed.

(** An activation names its times. *)
Lemma activation_times v : grant_valid v = true → sg_Operation v = "activate" → (zero_time < sg_ActivatedAt v)%Z ∧ (zero_time < sg_ExpiresAt v)%Z.
Proof.
  unfold grant_valid, validSourceTime. intros H E. rewrite E in H. apply andb_true_iff in H as [_ H].
  rewrite decide_False, decide_True in H by done. to_prop. lia.
Qed.
Lemma instant_Some o : (zero_time < instant o)%Z → o = Some (instant o).
Proof. destruct o; [done|]. cbn. lia. Qed.

(** The last grant is the one of the highest generation. *)
Lemma nothing_later k rev l g g' :
  grants_numbered l → last (grants_for k rev l) = Some g → g' ∈ l → gr_source g' = k → gr_revision_id g' = rev → (gr_generation g' ≤ gr_generation g)%Z.
Proof.
  intros Hn Hl Hg' Hk Hr. assert (g' ∈ grants_for k rev l) as [i Hi]%list_elem_of_lookup by (apply list_elem_of_filter; done).
  rewrite (last_generation _ _ (Hn k rev) Hl). pose proof (f_equal (λ m, m !! i) (Hn k rev)) as E. cbn in E.
  rewrite list_lookup_fmap, Hi in E. apply lookup_lt_Some in Hi. rewrite lookup_seqZ_lt in E by lia. injection E as ->. lia.
Qed.

Lemma decision_outcome use phase grant allowed claim id clock :
  de_outcome (decision_of use phase grant allowed claim id clock) = "allowed" →
  allowed = true ∧ ∃ g, grant = Some g ∧ sg_Operation g = "activate"
    ∧ match claim with Some c => (clock 1%nat < ce_expires_at c)%Z | None => True end.
Proof.
  cbn. destruct allowed; [|done]. destruct grant as [g|]; cbn; [|done]. case_decide; cbn; [|done].
  case_bool_decide; cbn; [|done]. destruct claim; [case_bool_decide; [|done]|]; naive_solver.
Qed.

Lemma allowed_checks row s : decision_checks row s = true → de_outcome row = "allowed" →
  claim_allowed row ∧ after (de_expires_at row) (de_occurred_at row) = true.
Proof.
  unfold decision_checks, claim_allowed. intros H Ho. rewrite Ho, bool_decide_true in H by done. cbn [negb orb] in H.
  rewrite !andb_true_iff in H. destruct H as [[[_ [_ Ha]] Hc] _]. split; [|done]. destruct (de_claim row) as [c|]; [|done].
  unfold claim_checks in Hc. to_prop. naive_solver.
Qed.

Lemma decided_justified ses use phase claim s t t' grant source id :
  source_inv s t → clock_runs ses t t' →
  source = findWorkspaceSource (sr_IsolationDomainID (su_Record use)) (sr_WorkspaceID (su_Record use)) (sr_ID (su_Record use)) s →
  readWorkspaceSourceGrant (su_Record use) (su_RevisionID use) 0 s = Ok grant →
  let row := decision_of use phase grant (use_allowed use source grant (ses_clock ses 2) claim s) claim id (λ i, ses_clock ses (3 + i)) in
  decision_checks row s = true → de_outcome row = "allowed" → justified s row.
Proof.
  intros I [Hr Hm] -> Hg row Hc Ho. destruct (decision_outcome _ _ _ _ _ _ _ Ho) as (Ha & v & -> & Hop & Hcl).
  destruct (read_latest _ _ _ _ (inv_numbered _ _ I) Hg) as (g & Hlast & -> & Hv). unfold use_allowed in Ha.
  destruct (findWorkspaceSource _ _ _ _) as [entry|] eqn:F; [|by rewrite !andb_false_r in Ha].
  apply find_spec in F as (Hi & _ & Hready). to_prop. destruct_and?.
  match goal with H : sce_Ready entry = true |- _ => specialize (Hready H) end.
  destruct (activation_times _ Hv Hop) as [Za%instant_Some Ze%instant_Some].
  destruct (allowed_checks _ _ Hc Ho) as [Hcl' Hexp]. pose proof (Hr 5) as R5. pose proof (Hm 2 5 ltac:(lia)) as M25.
  split; [exact Hready|]. split; [exists (sce_Installation entry); cbn; split_and!; [done|congruence..]|]. split; [exact Hcl'|].
  exists g, (instant (gr_activated_at g)), (instant (gr_expires_at g)). rewrite last_lookup in Hlast.
  pose proof (list_elem_of_lookup_2 _ _ _ Hlast) as [[Hs1 Hs2] Hin]%list_elem_of_filter.
  cbn in Hexp. cbn in Hop. rewrite decide_True in Hexp by done. cbn in Hexp. apply bool_decide_eq_true in Hexp.
  split_and!; try done; cbn in *; [lia| |].
  - pose proof (inv_times _ _ I _ _ _ _ _ _ Hlast Hlast (le_n _)). lia.
  - intros g' Hg' Hk Hrev Hgen. rewrite <- last_lookup in Hlast.
    pose proof (nothing_later _ _ _ _ _ (inv_numbered _ _ I) Hlast Hg' Hk Hrev). lia.
Qed.

Lemma prepared_by_more s s' v p d c : (∀ d, d ∈ ss_decisions s → d ∈ ss_decisions s') → prepared_by s v p d c → prepared_by s' v p d c.
Proof. destruct v as [[scope op] token]. cbn. intros H (Hd & J). split; [by apply H|exact J]. Qed.

Lemma decision_inv row s t t' :
  source_inv s t → (t ≤ t')%Z → (de_occurred_at row ≤ t')%Z → (de_outcome row = "allowed" → justified s row) → source_inv (add_decision row s) t'.
Proof.
  intros I Ht Hrow J. split; cbn; try apply I; [by eapply in_time_later; [apply I|]| |].
  - intros d [Hd| ->%list_elem_of_singleton]%elem_of_app Ho; [|by split; [apply J|]].
    destruct (inv_decisions _ _ I d Hd Ho) as [Jd L]. split; [exact Jd|lia].
  - intros v id Hv. destruct (inv_completions _ _ I v id Hv) as (p & d & c & Hp & Hid & HB). exists p, d, c. split_and!; [done|done|].
    eapply prepared_by_more; [|exact HB]. cbn. set_solver.
Qed.

(** The trigger finds the decision the completion names. *)
Lemma permitted_spec v id now s :
  completion_permitted v id now s = true → ∃ p d c, rs_preparations (ss_runtime s) !! v = Some p ∧ de_id d = id ∧ prepared_by s v p d c.
Proof.
  unfold completion_permitted. destruct v as [[scope op] token]. destruct (rs_preparations _ !! _) as [p|]; [|done].
  destruct (db_invocation_ops _ !! _) as [operation|]; [|done]. destruct (db_invocations _ !! _) as [inv|]; [|done].
  intros [_ (d & Hd%list_elem_of_In & H)%existsb_exists]%andb_true_iff. destruct (de_claim d) as [c|] eqn:Ec; to_prop; [|done].
  destruct_and?. exists p, d, c. destruct (de_source d) as [[? ?] ?] eqn:Es. cbn in *. split_and!; try done. congruence.
Qed.

Lemma completion_inv ses b use id s s' t :
  recordWorkspaceCompletion ses b use id s = Ok s' → source_inv s t → source_inv s' t.
Proof.
  unfold recordWorkspaceCompletion. destruct (holds_lease _ _ _); [|destruct (_ !! _); [by intros [= <-]|done]].
  destruct (completion_permitted _ _ _ _) eqn:P; cbn [negb]; [|done]. destruct (rs_completions _ !! _); [by intros [= <-]|].
  intros [= <-] I. apply inv_event.
  split; cbn [set_runtime_store put_completion ss_installations ss_completed ss_grants ss_decisions ss_runtime rs_preparations rs_completions];
    try apply I. intros v id'. rewrite lookup_insert_Some.
  intros [[<- <-]|[_ Hv]]; [exact (permitted_spec _ _ _ _ P)|exact (inv_completions _ _ I v id' Hv)].
Qed.

Lemma decide_inv `{SourceReadEvaluator} ses use phase bound s s' a t t' :
  decide_use ses use phase bound s = Ok (s', a) → clock_runs ses t t' → source_inv s t → source_inv s' t'.
Proof.
  unfold decide_use. intros ([bound' claim] & _ & E)%result_bind_Ok Hr I.
  match type of E with (if ?b then _ else _) = _ => destruct b eqn:B end; [by destruct (findWorkspaceSource _ _ _ _)|].
  apply result_bind_Ok in E as (grant & Hg & E). match type of E with (if negb (decision_checks ?r s) then _ else _) = _ => set (row := r) in * end.
  destruct (decision_checks row s) eqn:Hc; cbn [negb] in E; [|done].
  assert (source_inv (add_decision row s) t') as I'.
  { eapply (decision_inv _ _ t); [done|destruct Hr as [Hr _]; specialize (Hr 0); lia|cbn; by apply Hr|].
    intros Ho. by apply (decided_justified ses use phase claim s t t' grant _ _ I Hr eq_refl Hg). }
  destruct bound' as [b|]; [|by injection E as <- _]. destruct (sa_right b) as [|p []|]; try (by injection E as <- _).
  case_decide; [|by injection E as <- _]. destruct (recordWorkspaceCompletion _ _ _ _ _) as [s1|] eqn:R; [|done]. injection E as <- _.
  by eapply completion_inv.
Qed.

(** *** Preparations and cleanups *)

Lemma prepare_inv ses claim effect expected generation s s' p t t' :
  BeginInvocationWorkspacePreparation ses claim effect expected generation s = Ok (s', p) → source_inv s t → (t ≤ t')%Z → source_inv s' t'.
Proof.
  unfold BeginInvocationWorkspacePreparation. destruct (negb _); [done|]. intros ([target preparation] & _ & E)%result_bind_Ok I Ht.
  case_decide; [done|]. apply result_bind_Ok in E as ([r inserted] & Hr & E). apply result_bind_Ok in E as (u & _ & E). injection E as <- _.
  assert (source_inv (set_runtime_store (λ _, r) s) t') as I'; [|destruct inserted; [by apply inv_event|done]].
  unfold insert_preparation in Hr. destruct (holds_lease _ _ _); [|injection Hr as <- _; by apply (inv_runtime s t t')].
  destruct (negb _); [done|]. destruct (rs_preparations _ !! _) eqn:N; injection Hr as <- _; [by apply (inv_runtime s t t')|].
  pose proof (inv_later _ _ _ I Ht) as I'. split; cbn; try apply I'. intros v id Hv.
  destruct (inv_completions _ _ I' v id Hv) as (p0 & d & c & Hp & Hid & HB). exists p0, d, c. split_and!; [|done|exact HB].
  rewrite lookup_insert_ne; [done|]. intros <-. by rewrite Hp in N.
Qed.

(** A cleanup changes its own tables, the journal of the outbox and the audit. *)
Definition same_evidence (s s' : source_store) : Prop :=
  ss_installations s' = ss_installations s ∧ ss_completed s' = ss_completed s ∧ ss_grants s' = ss_grants s
  ∧ ss_decisions s' = ss_decisions s ∧ keeps_preparations (ss_runtime s) (ss_runtime s').

Lemma inv_same s s' t t' : source_inv s t → (t ≤ t')%Z → same_evidence s s' → source_inv s' t'.
Proof.
  intros I Ht (E1 & E2 & E3 & E4 & [E5 E6]). destruct s'. cbn in *. subst.
  split; cbn; try apply I; [by eapply in_time_later; [apply I|]| |].
  - intros d Hd Ho. destruct (inv_decisions _ _ I d Hd Ho) as [J L]. split; [exact J|lia].
  - rewrite E5, E6. apply I.
Qed.

Lemma cleanup_same ses claim effect expected binding s s' e :
  BeginInvocationWorkspaceQuiescence ses claim effect expected binding s = Ok (s', e) → same_evidence s s'.
Proof.
  unfold BeginInvocationWorkspaceQuiescence. intros E.
  repeat (case_match; try done; simplify_eq); [by repeat split|..].
  all: match goal with E : insert_cleanup _ _ _ _ ≫= _ = Ok _ |- _ => apply result_bind_Ok in E as ([s1 inserted] & E1 & E) end.
  all: destruct (readWorkspaceQuiescence _ _ s1) as [[entry|]|]; [|done..]; case_decide; [done|]; injection E as <- <-.
  all: unfold insert_cleanup in E1; repeat (case_match; try done; simplify_eq); by repeat split.
Qed.

Lemma confirm_same ses claim effect record s s' e :
  CompleteInvocationWorkspaceQuiescence ses claim effect record s = Ok (s', e) → same_evidence s s'.
Proof. unfold CompleteInvocationWorkspaceQuiescence. intros E. repeat (case_match; try done; simplify_eq); by repeat split. Qed.

(** *** Every step *)

Lemma source_step_inv `{SchemaEngine, SourceReadEvaluator} w w' :
  source_step w w' → source_inv (sw_store w) (sw_clock w) → source_inv (sw_store w') (sw_clock w').
Proof.
  intros [ses c s cs t t' s' Hr Hc|s cs t t' r cs' Ht _ K|s cs t t' e i input d answer Ht _|s cs t policies] I; cbn in *.
  - assert (t ≤ t')%Z as Ht by (destruct Hr as [Hr _]; specialize (Hr 0); lia). destruct c; cbn in Hc; unfold committed in Hc.
    + destruct (bindWorkspaceSource _ _ _ _) as [[s1 a]|] eqn:E; [|done]. injection Hc as <-. by eapply bind_inv.
    + by eapply grant_inv.
    + destruct (use_valid use); [|done]. destruct (decide_use _ _ _ _ _) as [[s1 a]|] eqn:E; [|done]. injection Hc as <-. by eapply decide_inv.
    + destruct (BeginInvocationWorkspacePreparation _ _ _ _ _ _) as [[s1 a]|] eqn:E; [|done]. injection Hc as <-. by eapply prepare_inv.
    + destruct (BeginInvocationWorkspaceQuiescence _ _ _ _ _ _) as [[s1 a]|] eqn:E; [|done]. injection Hc as <-.
      eapply inv_same; [done|done|by eapply cleanup_same].
    + destruct (CompleteInvocationWorkspaceQuiescence _ _ _ _ _) as [[s1 a]|] eqn:E; [|done]. injection Hc as <-.
      eapply inv_same; [done|done|by eapply confirm_same].
  - by eapply inv_runtime.
  - eapply (inv_same s); [done|done|by repeat split].
  - eapply (inv_same s); [done|done|by repeat split].
Qed.

Lemma initial_source_inv : source_inv (sw_store initial_source) (sw_clock initial_source).
Proof. split; cbn; try done; set_solver. Qed.

Lemma source_reachable_inv `{SchemaEngine, SourceReadEvaluator} w :
  rtc source_step initial_source w → source_inv (sw_store w) (sw_clock w).
Proof.
  intros R. assert (∀ w0, rtc source_step w0 w → source_inv (sw_store w0) (sw_clock w0) → source_inv (sw_store w) (sw_clock w)) as H'.
  { clear R. induction 1 as [|w0 w1 w2 S _ IH]; [done|]. intros I. by apply IH, (source_step_inv _ _ S). }
  by apply (H' initial_source), initial_source_inv.
Qed.

(** * Who may read a source

    Permits rest on grants and policies for as long as anyone looks at them, and an agent
    is started on a source only after it was delivered under the very claim. *)

(** ** Records stay *)

Definition evidence_le (s s' : source_store) : Prop :=
  (∀ k i, ss_installations s !! k = Some i → ss_installations s' !! k = Some i)
  ∧ (∀ k, k ∈ ss_completed s → k ∈ ss_completed s') ∧ (∀ d, d ∈ ss_decisions s → d ∈ ss_decisions s').

Lemma evidence_refl s : evidence_le s s.
Proof. done. Qed.
Lemma evidence_trans s1 s2 s3 : evidence_le s1 s2 → evidence_le s2 s3 → evidence_le s1 s3.
Proof. unfold evidence_le. naive_solver. Qed.
Lemma evidence_same s s' : same_evidence s s' → evidence_le s s'.
Proof. intros (E1 & E2 & _ & E4 & _). unfold evidence_le. rewrite E1, E2, E4. done. Qed.

Lemma bind_le ses input complete s s' entry : bindWorkspaceSource ses input complete s = Ok (s', entry) →
  evidence_le s s' ∧ entry = MkSourceEntry input (sce_Ready entry) ∧ ss_installations s' !! source_key_of (si_Record input) = Some input
  ∧ (sce_Ready entry = true → source_key_of (si_Record input) ∈ ss_completed s').
Proof.
  unfold bindWorkspaceSource. destruct (ValidSourceInstallation input); cbn [negb]; [|done]. case_decide; [done|].
  destruct (findWorkspaceSource _ _ _ _) as [found|err] eqn:F; intros E.
  - apply find_spec in F as (Hi & _ & Hr). case_decide as D; [done|]. subst input.
    destruct complete, (sce_Ready found) eqn:R; injection E as <- <-; cbn; split_and!; try done; try (by destruct found; cbn in *; subst);
      try (by intros; apply Hr); unfold evidence_le; cbn; set_solver.
  - destruct (is_err err ErrSourceMissing) eqn:M; cbn [negb] in E; [|done]. destruct complete; [done|]. injection E as <- <-.
    pose proof (find_missing _ _ _ _ _ F M) as Hn. cbn. split_and!; [|done|by rewrite lookup_insert_eq|done].
    split; cbn; [|set_solver]. intros k i Hk. rewrite lookup_insert_ne; [done|]. intros <-. unfold source_key_of in Hk. congruence.
Qed.

Lemma decide_le `{SourceReadEvaluator} ses use phase bound s s' row b :
  decide_use ses use phase bound s = Ok (s', (row, b)) → evidence_le s s' ∧ row ∈ ss_decisions s'.
Proof.
  unfold decide_use. intros ([bound' claim] & _ & E)%result_bind_Ok.
  match type of E with (if ?b then _ else _) = _ => destruct b end; [by destruct (findWorkspaceSource _ _ _ _)|].
  apply result_bind_Ok in E as (grant & _ & E). destruct (negb _); [done|].
  match type of E with context [add_decision ?r s] => set (new := r) in * end.
  assert (evidence_le s (add_decision new s) ∧ new ∈ ss_decisions (add_decision new s)) as [L Hin] by (unfold evidence_le; cbn; set_solver).
  destruct bound' as [b0|]; [|by simplify_eq]. destruct (sa_right b0) as [|p []|]; try (by simplify_eq).
  case_decide; [|by simplify_eq]. destruct (recordWorkspaceCompletion _ _ _ _ _) as [s1|] eqn:R; [|done]. simplify_eq.
  unfold recordWorkspaceCompletion in R. repeat (case_match; try done; simplify_eq). all: exact (conj L Hin).
Qed.

Lemma source_step_le `{SchemaEngine, SourceReadEvaluator} w w' : source_step w w' → evidence_le (sw_store w) (sw_store w').
Proof.
  intros [ses c s cs t t' s' _ Hc|s cs t t' r cs' Ht _ K|s cs t t' e i input d answer Ht _|s cs t policies]; cbn; try done.
  destruct c; cbn in Hc; unfold committed in Hc.
  - destruct (bindWorkspaceSource _ _ _ _) as [[s1 a]|] eqn:E; [|done]. injection Hc as <-. by apply bind_le in E as [].
  - unfold ChangeWorkspaceSourceGrant in Hc. destruct (negb _); [done|]. apply result_bind_Ok in Hc as (source & _ & Hc). case_decide; [done|].
    apply result_bind_Ok in Hc as (existing & _ & Hc). repeat (case_match; try done; simplify_eq). all: exact (evidence_refl _).
  - destruct (use_valid use); [|done]. destruct (decide_use _ _ _ _ _) as [[s1 [row b]]|] eqn:E; [|done]. injection Hc as <-. by apply decide_le in E as [].
  - destruct (BeginInvocationWorkspacePreparation _ _ _ _ _ _) as [[s1 a]|] eqn:E; [|done]. injection Hc as <-.
    unfold BeginInvocationWorkspacePreparation in E. destruct (negb _); [done|]. apply result_bind_Ok in E as ([target p] & _ & E). case_decide; [done|].
    apply result_bind_Ok in E as ([r inserted] & _ & E). apply result_bind_Ok in E as (u & _ & E). injection E as <- _. by destruct inserted.
  - destruct (BeginInvocationWorkspaceQuiescence _ _ _ _ _ _) as [[s1 a]|] eqn:E; [|done]. injection Hc as <-. by apply evidence_same, (cleanup_same _ _ _ _ _ _ _ _ E).
  - destruct (CompleteInvocationWorkspaceQuiescence _ _ _ _ _) as [[s1 a]|] eqn:E; [|done]. injection Hc as <-. by apply evidence_same, (confirm_same _ _ _ _ _ _ _ E).
Qed.

Lemma source_run_le `{SchemaEngine, SourceReadEvaluator} w w' : rtc source_step w w' → evidence_le (sw_store w) (sw_store w').
Proof. induction 1 as [w|w w1 w' S _ IH]; [done|]. exact (evidence_trans _ _ _ (source_step_le _ _ S) IH). Qed.

(** ** Permits *)

(** The decision behind a permit. *)
Definition records_use (use : SourceUse) (phase : string) (permit : SourcePermit) (d : decision_row) : Prop :=
  de_outcome d = "allowed" ∧ de_phase d = phase ∧ de_source d = source_key_of (su_Record use)
  ∧ de_contract d = su_Contract use ∧ de_archive_digest d = sr_ArchiveDigest (su_Record use)
  ∧ de_storage_profile_digest d = sr_StorageProfileDigest (su_Record use) ∧ de_revision_id d = su_RevisionID use ∧ de_operation_id d = su_OperationID use
  ∧ de_requested_generation d = su_GrantGeneration use ∧ sp_Generation permit = su_GrantGeneration use
  ∧ de_actor_id d = su_ActorID use ∧ de_correlation_id d = su_CorrelationID use ∧ de_expires_at d = Some (sp_ExpiresAt permit).

Lemma decide_row `{SourceReadEvaluator} ses use phase bound s s' row b :
  decide_use ses use phase bound s = Ok (s', (row, b)) →
  (∃ grant allowed claim id clock, row = decision_of use phase grant allowed claim id clock) ∧ decision_checks row s = true.
Proof.
  unfold decide_use. intros ([bound' claim] & _ & E)%result_bind_Ok.
  match type of E with (if ?b then _ else _) = _ => destruct b end; [by destruct (findWorkspaceSource _ _ _ _)|].
  apply result_bind_Ok in E as (grant & _ & E). destruct (decision_checks _ _) eqn:Hc; cbn [negb] in E; [|done].
  repeat (case_match; try done; simplify_eq); split; try done; by repeat eexists.
Qed.

Lemma allowed_generation row s : decision_checks row s = true → de_outcome row = "allowed" →
  de_observed_generation row = Some (de_requested_generation row).
Proof.
  unfold decision_checks. intros H Ho. rewrite Ho, bool_decide_true in H by done. cbn [negb orb] in H.
  rewrite !andb_true_iff, bool_decide_eq_true in H. tauto.
Qed.

Lemma permit_records `{SourceReadEvaluator} ses use phase bound s s' permit b :
  authorizeWorkspaceSource ses use phase bound s = (s', (Ok permit, b)) →
  use_valid use = true ∧ ∃ row b', decide_use ses use phase bound s = Ok (s', (row, b')) ∧ records_use use phase permit row.
Proof.
  unfold authorizeWorkspaceSource. destruct (negb _) eqn:V; [done|]. apply negb_false_iff in V. to_prop. destruct_and?.
  destruct (decide_use _ _ _ _ _) as [[s1 [row b']]|] eqn:D; [|done]. intros E. assert (s1 = s' ∧ permit_of ses row = Ok permit ∧ b' = b) as (-> & P & ->) by naive_solver.
  split; [done|]. exists row, b. split; [done|]. destruct (decide_row _ _ _ _ _ _ _ _ D) as [(grant & allowed & claim & id & clock & ->) Hc].
  unfold permit_of in P. destruct (match de_claim _ with Some _ => _ | None => _ end); [done|].
  destruct (de_expires_at _) as [expires|] eqn:Ee; [|done]. destruct (de_observed_generation _) as [generation|] eqn:Eg; [|done].
  match type of P with (if ?b then _ else _) = _ => destruct b eqn:B; [|done] end. injection P as <-. to_prop. destruct_and?.
  pose proof (allowed_generation _ _ Hc ltac:(done)) as Eo. rewrite Eg in Eo. injection Eo as ->. split_and!; done.
Qed.

(** ** Permits under a claim *)

(** What a worker is allowed, the policy allowed when it was asked about this use under
    this claim, and the decision fell within the lease the operation was held under. *)
Definition allowed_under `{SourceReadEvaluator} (b : invocationSourceAuthorizer) (use : SourceUse) (phase : string) (s : source_store)
    (d : decision_row) : Prop :=
  ∃ op inv policy request c,
    db_invocation_ops (store_db s) !! claim_key (sa_claim b) = Some op
    ∧ op_lease_owner op = Some (c_LeaseOwner (sa_claim b)) ∧ op_lease_token op = c_FencingToken (sa_claim b)
    ∧ (de_occurred_at d < lease_end op)%Z
    ∧ db_invocations (store_db s) !! (c_IsolationDomainID (sa_claim b), op_resource_id op) = Some inv ∧ inv_revision_id inv = su_RevisionID use
    ∧ ss_policies s (sr_IsolationDomainID (su_Record use)) (inv_service_id inv) (su_RevisionID use) = Ok policy
    ∧ EvaluateSourceRead policy request = "allowed"
    ∧ sq_Use request = use ∧ sq_Phase request = phase ∧ sq_ServiceID request = inv_service_id inv
    ∧ sq_EffectID request = e_EffectID (sa_effect b) ∧ sq_FencingToken request = c_FencingToken (sa_claim b)
    ∧ de_claim d = Some c ∧ ce_owner c = c_LeaseOwner (sa_claim b) ∧ ce_token c = c_FencingToken (sa_claim b)
    ∧ ce_expires_at c = lease_end op ∧ ce_plan_digest c = sq_PlanDigest request
    ∧ ce_policy_set_id c = iap_PolicySetID policy ∧ ce_policy_digest c = "sha256:" +:+ hex_encode (iap_PolicyDigest policy).

Lemma target_rows dom id d target : getInvocationRuntimeTarget dom id d = Ok target →
  ∃ op inv, db_invocation_ops d !! (dom, id) = Some op ∧ db_invocations d !! (dom, op_resource_id op) = Some inv
    ∧ rtg_ServiceID target = inv_service_id inv ∧ rtg_RevisionID target = inv_revision_id inv.
Proof.
  unfold getInvocationRuntimeTarget, runtime_target_row. destruct (db_invocation_ops d !! _) as [op|]; [|done]. cbn.
  destruct (db_invocations d !! _) as [inv|] eqn:Ei; [|done]. cbn. destruct (db_revisions d !! _) as [rev|]; cbn; [|done].
  destruct (_ && _ && _); [|done]. case_decide; [done|]. intros [= <-]. by exists op, inv.
Qed.

(** What the lock holds, whatever the right it is taken under. *)
Definition locked_rows (b : invocationSourceAuthorizer) (target : InvocationRuntimeTarget) (expires : Z) (s : source_store) : Prop :=
  ∃ op inv, db_invocation_ops (store_db s) !! claim_key (sa_claim b) = Some op
    ∧ op_lease_owner op = Some (c_LeaseOwner (sa_claim b)) ∧ op_lease_token op = c_FencingToken (sa_claim b) ∧ expires = lease_end op
    ∧ db_invocations (store_db s) !! (c_IsolationDomainID (sa_claim b), op_resource_id op) = Some inv
    ∧ rtg_ServiceID target = inv_service_id inv ∧ rtg_RevisionID target = inv_revision_id inv.

Lemma lock_attempt_rows ses b s b' target expires :
  lock_attempt ses b s = Ok (b', target, expires) → sa_claim b' = sa_claim b ∧ sa_effect b' = sa_effect b ∧ locked_rows b target expires s.
Proof.
  unfold lock_attempt. destruct (lockRuntimeInteractionAttempt _ _ _ _) as [[d1 u]|] eqn:L; [|done].
  destruct (getInvocationRuntimeTarget _ _ _) as [target'|] eqn:T; [|done]. case_decide; [done|].
  destruct (ReadExecutionPlan _ _ _) as [plan|]; [|done]. destruct (pl_WorkspaceSource plan) as [source|]; [|done].
  case_decide; [done|]. case_decide; [done|]. destruct (DigestExecutionPlan plan) as [digest|]; [|done].
  destruct (db_invocation_ops _ !! claim_key (sa_claim b)) as [op|] eqn:Eo; [|done]. intros [= <- <- <-]. split_and!; [done|done|].
  apply tx_bind_Ok in L as (d2 & inv & K & _). apply query_Ok in K as [-> K]. apply lock_spec in K as [(op' & Eo' & _ & Ho & Ht & _) _].
  rewrite Eo in Eo'. injection Eo' as <-. destruct (target_rows _ _ _ _ T) as (op' & inv' & Eo' & Ei & Es & Er).
  unfold claim_key in Eo. rewrite Eo in Eo'. injection Eo' as <-. by exists op, inv'.
Qed.

Lemma lock_preparation_rows ses claim effect s target current :
  lockWorkspacePreparationTarget ses claim effect (ss_runtime s) = Ok (target, current) →
  ∀ b, sa_claim b = claim → locked_rows b target (ip_ExpiresAt current) s.
Proof.
  unfold lockWorkspacePreparationTarget. destruct (negb _); [done|]. destruct (lockInvocationRuntimeClaim _ _ _) as [inv|]; [|done].
  case_decide; [done|]. intros (u & _ & L)%result_bind_Ok b <-. destruct (ready_instance _ _ _) as [[expires executionID]|] eqn:R; [|done].
  apply result_bind_Ok in L as (target' & T & L). destruct (ReadExecutionPlan _ _ _) as [plan|]; [|done].
  destruct (pl_WorkspaceSource plan); [|done]. case_decide; [done|]. apply result_bind_Ok in L as (digest & _ & L). injection L as <- <-.
  unfold ready_instance in R. apply bind_Some in R as (op & Eo & R). apply bind_Some in R as (until & Eu & R).
  apply bind_Some in R as ([k row] & _ & R). case_bool_decide as B; [|done]. injection R as <- _. cbn.
  destruct (target_rows _ _ _ _ T) as (op' & inv' & Eo' & Ei & Es & Er). unfold claim_key in Eo. rewrite Eo in Eo'. injection Eo' as <-.
  exists op, inv'. unfold lease_end. rewrite Eu. cbn. destruct_and!. by split_and!.
Qed.

Lemma lock_export_rows ses b s q target expires :
  lockWorkspaceExportTarget ses (sa_claim b) (sa_effect b) q s = Ok (target, expires) → locked_rows b target expires s.
Proof.
  unfold lockWorkspaceExportTarget. destruct (negb _); [done|]. destruct (readWorkspaceQuiescence _ _ _) as [[[record [] at_]|]|]; try done.
  case_decide; [done|]. destruct (negb _); [done|]. destruct (lock_workspace_export_authorization _ _ _ _ _ _ _ _ _) as [until|] eqn:L; [|done].
  destruct (db_invocation_ops _ !! claim_key (sa_claim b)) as [op|] eqn:Eo; cbn; [|done].
  destruct (db_invocations _ !! _) as [inv|] eqn:Ei; cbn; [|done]. intros [= <- <-].
  unfold lock_workspace_export_authorization in L. apply bind_Some in L as (j & J & L).
  match type of L with (if ?g then _ else _) = _ => destruct g eqn:G; [|done] end. injection L as <-.
  unfold join_runtime in J. apply bind_Some in J as (op' & Eo' & J). change (rs_db (ss_runtime s)) with (store_db s) in Eo'.
  unfold claim_key in Eo. rewrite Eo in Eo'. injection Eo' as <-.
  do 7 (apply bind_Some in J as (? & _ & J)). match type of J with (if ?g then _ else _) = _ => destruct g; [|done] end. injection J as <-. cbn in *.
  unfold runtime_current in G. cbn in G. to_prop. destruct_and!. exists op, inv. by split_and!.
Qed.

Lemma lock_rows ses b s b' target expires :
  lock ses b s = Ok (b', target, expires) → sa_claim b' = sa_claim b ∧ sa_effect b' = sa_effect b ∧ locked_rows b target expires s.
Proof.
  unfold lock. destruct (sa_right b) as [|p completion|q].
  - apply lock_attempt_rows.
  - intros ([target' current] & L & E)%result_bind_Ok. case_decide; [done|]. apply result_bind_Ok in E as (u & _ & E). injection E as <- <- <-.
    split_and!; [done|done|]. by apply (lock_preparation_rows _ _ _ _ _ _ L).
  - destruct (lockWorkspaceExportTarget _ _ _ _ _) as [[target' expires']|] eqn:L; [|done]. intros [= <- <- <-].
    split_and!; [done|done|]. by apply lock_export_rows in L.
Qed.

Lemma side_allowed `{SourceReadEvaluator} ses use phase b s b' c :
  claim_side ses use phase b s = Ok (b', c) → ce_policy_outcome c = "allowed" →
  ∀ d, de_claim d = Some c → (de_occurred_at d < ce_expires_at c)%Z → allowed_under b use phase s d.
Proof.
  unfold claim_side. intros ([[b1 target] expires] & L & E)%result_bind_Ok Ho d Hc Ht.
  destruct (lock_rows _ _ _ _ _ _ L) as (Ec & Ee & op & inv & Eop & Ho' & Htok & -> & Einv & Es & Er). case_decide as D; [done|].
  destruct (ss_policies _ _ _ _) as [policy|err] eqn:P; [|by destruct (is_err _ _)]. destruct (negb _); [done|].
  case_decide; [done|]. injection E as <- <-. cbn in *. rewrite ?Ec, ?Ee in *.
  apply Decidable.not_or in D as [_ [Hiso%dec_stable [_ [Hrev%dec_stable _]%Decidable.not_or]%Decidable.not_or]%Decidable.not_or].
  rewrite Hiso, Hrev, Es in *. set (request := MkSourceRead _ _ _ _ _ _ _) in *.
  assert (EvaluateSourceRead policy request = "allowed") as Hev by (destruct (sa_right b1); [done|done|]; by destruct (decide _) in Ho).
  exists op, inv, policy, request. eexists. by split_and!.
Qed.

Lemma decided_under `{SourceReadEvaluator} ses use phase b s s' row b' :
  decide_use ses use phase (Some b) s = Ok (s', (row, b')) → de_outcome row = "allowed" → allowed_under b use phase s row.
Proof.
  intros D Ho. pose proof (proj2 (decide_row _ _ _ _ _ _ _ _ D)) as Hck. unfold decide_use in D.
  apply result_bind_Ok in D as ([bound' claim] & Hb & D). apply result_bind_Ok in Hb as ([b1 c] & Hs & Hb). injection Hb as <- <-.
  match type of D with (if ?b then _ else _) = _ => destruct b end; [by destruct (findWorkspaceSource _ _ _ _)|].
  apply result_bind_Ok in D as (grant & _ & D). destruct (negb _); [done|].
  set (allowed := use_allowed _ _ _ _ _ _) in D.
  set (new := decision_of _ _ _ _ _ _ _) in D. assert (row = new) as ->.
  { clear -D. destruct (sa_right b1) as [|p []|]; [by simplify_eq| |by simplify_eq..].
    destruct (decide _); [|by simplify_eq]. destruct (recordWorkspaceCompletion _ _ _ _ _); by simplify_eq. }
  assert (allowed = true) as Ha by (cbn in Ho; by destruct allowed).
  apply (side_allowed _ _ _ _ _ _ _ Hs); [|done|].
  - unfold allowed, use_allowed in Ha. rewrite !andb_true_iff, bool_decide_eq_true in Ha. tauto.
  - unfold decision_checks in Hck. apply andb_true_iff in Hck as [[_ Hck]%andb_true_iff _]. change (de_claim new) with (Some c) in Hck.
    unfold claim_checks in Hck. rewrite !andb_true_iff, !bool_decide_eq_true in Hck. clear -Hck Ho. tauto.
Qed.

(** ** The gate of an attempt *)

Lemma target_revision dom id d target op inv :
  getInvocationRuntimeTarget dom id d = Ok target → db_invocation_ops d !! (dom, id) = Some op →
  db_invocations d !! (dom, op_resource_id op) = Some inv → rtg_RevisionID target = inv_revision_id inv.
Proof.
  unfold getInvocationRuntimeTarget, runtime_target_row. intros H Hop Hinv. rewrite Hop in H. cbn in H. rewrite Hinv in H. cbn in H.
  destruct (db_revisions d !! _) as [rev|]; cbn in H; [|done]. destruct (_ && _ && _) in H; [|done]. case_decide; [done|]. by injection H as <-.
Qed.

Lemma gate_open ses claim effect s op inv plan source :
  db_invocation_ops (rs_db s) !! claim_key claim = Some op →
  db_invocations (rs_db s) !! (c_IsolationDomainID claim, op_resource_id op) = Some inv →
  ReadExecutionPlan (c_IsolationDomainID claim) (inv_revision_id inv) s = Ok plan → pl_WorkspaceSource plan = Some source →
  is_ok (requireWorkspaceCompletion ses claim effect s) = true →
  ∃ p id, rs_preparations s !! version_of claim = Some p ∧ rs_completions s !! version_of claim = Some id
    ∧ wp_source_record p = source ∧ DigestExecutionPlan plan = Ok (wp_plan_digest p)
    ∧ wp_lease_owner p = c_LeaseOwner claim ∧ wp_effect_id p = e_EffectID effect.
Proof.
  intros Hop Hinv Hplan Hsrc G. unfold requireWorkspaceCompletion in G. rewrite Hop in G. cbn in G. rewrite Hinv, Hplan, Hsrc in G.
  destruct (getInvocationRuntimeAttempt _ _ _) as [|err]; [done|]. destruct (negb _) in G; [done|].
  destruct (lockWorkspacePreparationTarget _ _ _ _) as [[target current]|] eqn:L; cbn in G; [|done].
  destruct (rs_preparations s !! _) as [p|] eqn:Hp; [|done]. destruct (rs_completions s !! _) as [id|]; [|done].
  unfold verifyWorkspacePreparation in G. rewrite Hp in G. case_decide as D; [|done]. cbn in D. destruct_and?.
  unfold lockWorkspacePreparationTarget in L. destruct (negb _) in L; [done|]. destruct (lockInvocationRuntimeClaim _ _ _); [|done].
  destruct (decide _) in L; [done|]. apply result_bind_Ok in L as (u & _ & L). destruct (ready_instance _ _ _) as [[expires executionID]|]; [|done].
  apply result_bind_Ok in L as (target' & Ht & L). rewrite (target_revision _ _ _ _ _ _ Ht Hop Hinv), Hplan, Hsrc in L.
  case_decide; [done|]. apply result_bind_Ok in L as (digest & Hd & L). injection L as <- <-. cbn in *.
  exists p, id. split_and!; try done. congruence.
Qed.

Section theorems.
Context `{SchemaEngine, SourceReadEvaluator}.

(** C10: Reading a source is governed.  In any run, when a worker or an administrator is given
    a permit to read a source, a decision about exactly this use is recorded, and from
    then on, at whatever later time the tables are looked at, that decision rests on the
    completed installation with the recorded digest and on the grant of the requested
    generation for this source and revision: it was an activation, the decision fell
    between its activation and its expiry, and every later change of the grant, a
    revocation in particular, was made at or after the decision.  Under a claim, when the
    decision was made the claim held the lease of the operation, which had not ended, and
    the active policy of the invocation's service and revision, evaluated on the request
    about this use, allowed it. *)
Theorem source_use_governed ses use phase bound w w' t' s' permit b :
  rtc source_step initial_source w → clock_runs ses (sw_clock w) t' →
  authorizeWorkspaceSource ses use phase bound (sw_store w) = (s', (Ok permit, b)) →
  rtc source_step (SourceWorldState s' (sw_claims w) t') w' →
  ∃ d, d ∈ ss_decisions (sw_store w') ∧ records_use use phase permit d ∧ justified (sw_store w') d
    ∧ ∀ b0, bound = Some b0 → allowed_under b0 use phase (sw_store w) d.
Proof.
  intros R Hr A R'. destruct (permit_records _ _ _ _ _ _ _ _ A) as (V & row & b' & D & Hrec).
  assert (source_step w (SourceWorldState s' (sw_claims w) t')) as S.
  { destruct w as [s cs t]. apply (step_source ses (SourceDecide use phase bound)); [done|]. cbn. cbn in D. rewrite V. by rewrite D. }
  destruct (decide_le _ _ _ _ _ _ _ _ D) as [_ Hin]. exists row.
  assert (row ∈ ss_decisions (sw_store w')) as Hin' by (by apply (source_run_le _ _ R')).
  split_and!; [done|done| |].
  - refine (proj1 (inv_decisions _ _ (source_reachable_inv w' _) row Hin' _)); [|by destruct Hrec].
    etrans; [exact R|]. by eapply rtc_l.
  - intros b0 ->. by apply (decided_under _ _ _ _ _ _ _ _ D), Hrec.
Qed.

(** C12: An agent starts on a source only after its delivery.  In any run, when an attempt
    begins for an invocation whose plan pins a workspace source, the workspace was
    prepared under the same claim (its lease owner, its fencing token and its effect) for
    exactly that source and that plan, and the preparation was completed by a delivery
    decision that was allowed to this claim for the prepared generation of the grant; the
    decision rests on an active grant as in [justified]. *)
Theorem runtime_start_prepared ses claim effect w r attempt op inv plan source :
  rtc source_step initial_source w →
  BeginInvocationRuntimeAttempt ses claim effect (ss_runtime (sw_store w)) = Ok (r, attempt) →
  db_invocation_ops (store_db (sw_store w)) !! claim_key claim = Some op →
  db_invocations (store_db (sw_store w)) !! (c_IsolationDomainID claim, op_resource_id op) = Some inv →
  ReadExecutionPlan (c_IsolationDomainID claim) (inv_revision_id inv) (ss_runtime (sw_store w)) = Ok plan →
  pl_WorkspaceSource plan = Some source →
  ∃ p d c, rs_preparations (ss_runtime (sw_store w)) !! version_of claim = Some p
    ∧ wp_source_record p = source ∧ DigestExecutionPlan plan = Ok (wp_plan_digest p)
    ∧ wp_lease_owner p = c_LeaseOwner claim ∧ wp_effect_id p = e_EffectID effect
    ∧ prepared_by (sw_store w) (version_of claim) p d c ∧ justified (sw_store w) d.
Proof.
  intros R B Hop Hinv Hplan Hsrc. apply begin_spec in B as (_ & _ & _ & _ & _ & _ & G).
  destruct (gate_open _ _ _ _ _ _ _ _ Hop Hinv Hplan Hsrc G) as (p & id & Hp & Hc & Hs & Hd & Ho & He).
  pose proof (source_reachable_inv w R) as I. destruct (inv_completions _ _ I _ _ Hc) as (p' & d & c & Hp' & _ & HB).
  rewrite Hp in Hp'. injection Hp' as <-. exists p, d, c. split_and!; try done.
  refine (proj1 (inv_decisions _ _ I d _ _)); unfold version_of in HB; cbn in HB; tauto.
Qed.
End theorems.
