(* ===== verification/SourceDeployment.v ===== *)
(** * Workspace sources, as deployed

    [InstallSource] and [ReadSource] over the tables of [SourceTables] and [SourceClaims]
    and the S3 store of [S3Store], and the reads under a claim of
    [workspace_source_claim.go] and [workspace_preparation.go] that use them.  Between any
    two calls others change the tables in any way the system allows; a call to the
    database may fail, before its transaction or after it was committed. *)
From S2P Require Import Prelude.
From S2P Require Import GoStrings.
From S2P Require Import Sha256.
From S2P Require Import GoJson.
From S2P Require Import Domain.
From S2P Require Import Database.
From S2P Require Import OperationStore.
From S2P Require Import RuntimeInteraction.
From S2P Require Import Reconciler.
From S2P Require Import ExecutionPlan.
From S2P Require Import Enforcement.
From S2P Require Import RuntimeDriver.
From S2P Require Import RuntimeStore.
From S2P Require Import RuntimeAttempts.
From S2P Require Import RuntimeSystem.
From S2P Require Import S3Store.
From S2P Require Import WorkspaceSource.
From S2P Require Import WorkspaceAccess.
From S2P Require Import SourceTables.
From S2P Require Import SourceClaims.
From S2P Require Import SourceSystem.
From S2P Require Import ArtifactFinalizer.

(** The digest of the bucket's configuration ([NewWorkspaceSourceStore]). *)
Definition profileDigest (store : Store) : string :=
  Sha256.digest_string (marshal (JObj
    [("schemaVersion", JStr "dataground.workspace-source-storage/v1");
     ("endpoint", JStr (en_Scheme (s3_endpoint store) +:+ "://" +:+ en_Host (s3_endpoint store)));
     ("bucket", JStr (s3_bucket store));
     ("addressingStyle", JStr (match s3_style store with PathStyle => "path" | VirtualHostedStyle => "virtual-hosted" end))])).

#[export] Instance Receipt_eq_dec : EqDecision Receipt.
Proof. solve_decision. Defined.

Section deployment.
Context `{SchemaEngine, SourceReadEvaluator, TarFormat} {N : Type} `{ObjectServer N} (bucket : Store).

(** What happens around one call to the database. *)
Record source_move := SourceMove {
  sm_steps : source_world → source_world; sm_legal : ∀ w, rtc source_step w (sm_steps w);
  sm_session : Z → session; sm_until : Z → Z; sm_runs : ∀ t, clock_runs (sm_session t) t (sm_until t);
  sm_failure : option (bool * string) }.

(** [sd_bound] is the authoriser of the reading in progress, when it has one; [sd_times]
    are the readings of the process clock. *)
Record source_deployment := SourceDeployed {
  sd_world : source_world; sd_http : N; sd_moves : list source_move; sd_times : list Z; sd_bound : option invocationSourceAuthorizer }.

Definition set_bound (b : invocationSourceAuthorizer) : io source_deployment unit := λ w,
  (SourceDeployed (sd_world w) (sd_http w) (sd_moves w) (sd_times w) (Some b), tt).
Definition at_http {A} (m : io N A) : io source_deployment A := λ w,
  let '(h, a) := m (sd_http w) in (SourceDeployed (sd_world w) h (sd_moves w) (sd_times w) (sd_bound w), a).

(** A transaction, which may answer an error and yet commit. *)
Definition run_transaction {A} (f : session → source_store → source_store * result A) : io source_deployment (result A) := λ w,
  match sd_moves w with
  | [] => (w, Err (ENew "closed pool"))
  | move :: rest =>
      let w1 := sm_steps move (sd_world w) in
      let '(s, answer) := f (sm_session move (sw_clock w1)) (sw_store w1) in
      let w2 := SourceWorldState s (sw_claims w1) (sm_until move (sw_clock w1)) in
      let left world := SourceDeployed world (sd_http w) rest (sd_times w) (sd_bound w) in
      match sm_failure move with
      | None => (left w2, answer)
      | Some (true, text) => (left w2, Err (ENew text))
      | Some (false, text) => (left w1, Err (ENew text))
      end
  end.

Definition transact {A} (f : session → source_store → result (source_store * A)) : io source_deployment (result A) :=
  run_transaction (λ ses s, match f ses s with Ok (s', a) => (s', Ok a) | Err e => (s, Err e) end).
Definition query_source {A} (f : session → source_store → result A) : io source_deployment (result A) :=
  run_transaction (λ ses s, (s, f ses s)).

#[export] Instance deployed_contexts : SourceContexts source_deployment := {|
  Err_ := λ _, at_http ctx_Err;
  source_clock := λ w, (SourceDeployed (sd_world w) (sd_http w) (sd_moves w) (tail (sd_times w)) (sd_bound w), default 0%Z (head (sd_times w))) |}.
#[export] Instance deployed_catalog : SourceCatalog source_deployment := {|
  PrepareWorkspaceSource_ := λ _ input, transact (λ ses, PrepareWorkspaceSource ses input);
  CompleteWorkspaceSource_ := λ _ input, transact (λ ses, CompleteWorkspaceSource ses input);
  GetWorkspaceSource_ := λ _ scope workspaceID id, query_source (λ _, GetWorkspaceSource scope workspaceID id) |}.
#[export] Instance deployed_objects : SourceObjects source_deployment := {|
  WorkspaceSourceStorageDigest := profileDigest bucket;
  OpenWorkspaceSource_ := λ _ key, at_http (answer ← OpenWorkspaceSource bucket key; mret (reader ← answer; Ok (Some reader)));
  PutWorkspaceSourceIfAbsent_ := λ _ key content digest, at_http (PutWorkspaceSourceIfAbsent bucket key content digest) |}.

(** The repository decides; under a claim it keeps what it learned. *)
#[export] Instance deployed_authorizer : SourceAuthorizer source_deployment := λ _ use phase w,
  match sd_bound w with
  | None => run_transaction (λ ses, AuthorizeWorkspaceSource ses use phase) w
  | Some b =>
      let '(w', answer) := run_transaction (λ ses s,
            let '(s', (answer, b')) := bound_AuthorizeWorkspaceSource ses use phase b s in
            (s', match answer with Ok permit => Ok (permit, b') | Err e => Err e end)) w in
      match answer with
      | Ok (permit, b') => ((set_bound b' w').1, Ok permit)
      | Err e => (w', Err e)
      end
  end.

(** ** It keeps the promises *)

Definition proceeds (w w' : source_deployment) : Prop := rtc source_step (sd_world w) (sd_world w') ∧ passes (sd_http w) (sd_http w').
Definition installed (w : source_deployment) (i : SourceInstallation) : Prop :=
  ∃ k, ss_installations (sw_store (sd_world w)) !! k = Some i ∧ k ∈ ss_completed (sw_store (sd_world w)).
Definition source_held (w : source_deployment) (key data : string) : Prop :=
  ∃ u, objectURL bucket key workspacePrefix = Ok u ∧ object_at (sd_http w) u data.
Definition permitted (w : source_deployment) (use : SourceUse) (phase : string) (permit : SourcePermit) : Prop :=
  ∃ d, d ∈ ss_decisions (sw_store (sd_world w)) ∧ records_use use phase permit d.

#[export] Instance proceeds_preorder : PreOrder proceeds.
Proof.
  split; [intros w; split; [apply rtc_refl|reflexivity]|]. intros a b c [A1 A2] [B1 B2]. split; [by etrans|by etrans].
Qed.

Lemma at_http_proceeds {A} (m : io N A) w w' a :
  (∀ h h' a, m h = (h', a) → passes h h') → at_http m w = (w', a) → proceeds w w'.
Proof.
  unfold at_http. intros Hm. destruct (m (sd_http w)) as [h a'] eqn:E. intros [= <- <-]. split; [apply rtc_refl|by eapply Hm].
Qed.

(** The transaction is a step of the system, or changes nothing. *)
Definition is_step {A} (f : session → source_store → source_store * result A) : Prop := ∀ ses w t',
  clock_runs ses (sw_clock w) t' → rtc source_step w (SourceWorldState (f ses (sw_store w)).1 (sw_claims w) t').

Lemma run_spec {A} (f : session → source_store → source_store * result A) w w' a :
  is_step f → run_transaction f w = (w', a) →
  proceeds w w' ∧ sd_bound w' = sd_bound w
  ∧ ∀ v, a = Ok v → ∃ ses w1 t', clock_runs ses (sw_clock w1) t' ∧ rtc source_step (sd_world w) w1
      ∧ f ses (sw_store w1) = (sw_store (sd_world w'), Ok v).
Proof.
  unfold run_transaction. intros Hf. destruct (sd_moves w) as [|move rest]; [by intros [= <- <-]|].
  pose proof (sm_legal move (sd_world w)) as L. set (w1 := sm_steps move (sd_world w)) in *. clearbody w1.
  pose proof (sm_runs move (sw_clock w1)) as Hr. pose proof (Hf _ _ _ Hr) as S.
  destruct (f _ _) as [s answer] eqn:E. cbn in S.
  destruct (sm_failure move) as [[[] text]|]; intros [= <- <-]; split_and!; try done; try (by split; cbn; [etrans|reflexivity]).
  intros v ->. by exists (sm_session move (sw_clock w1)), w1, (sm_until move (sw_clock w1)).
Qed.

Lemma clock_only w t' : (sw_clock w ≤ t')%Z → rtc source_step w (SourceWorldState (sw_store w) (sw_claims w) t').
Proof.
  intros Ht. destruct w as [s cs t]. cbn in *. apply rtc_once.
  assert (set_runtime_store (λ _, ss_runtime s) s = s) as Es by by destruct s. rewrite <- Es at 2.
  apply step_system; [done| |done]. destruct (ss_runtime s) as [d a o p i pr c]. exact (step_elsewhere _ _ p i pr c).
Qed.

Lemma runs_forward ses from to : clock_runs ses from to → (from ≤ to)%Z.
Proof. intros [Hr _]. specialize (Hr 0). lia. Qed.

Lemma query_is_step {A} (f : session → source_store → result A) : is_step (λ ses s, (s, f ses s)).
Proof. intros ses w t' Hr. by apply clock_only, (runs_forward ses). Qed.

Lemma call_is_step {A} (c : source_call) (f : session → source_store → source_store * result A) :
  (∀ ses s, run_source ses c s = Ok (f ses s).1 ∨ (f ses s).1 = s) → is_step f.
Proof.
  intros Hf ses w t' Hr. destruct (Hf ses (sw_store w)) as [E| ->]; [|by apply clock_only, (runs_forward ses)].
  destruct w as [s cs t]. apply rtc_once. by eapply step_source.
Qed.

Lemma bind_is_step input complete :
  is_step (λ ses s, match bindWorkspaceSource ses input complete s with Ok (s', a) => (s', Ok a) | Err e => (s, Err e) end).
Proof. apply (call_is_step (SourceBind input complete)). intros ses s. cbn. destruct (bindWorkspaceSource _ _ _ _) as [[s' a]|]; [by left|by right]. Qed.

Lemma authorize_call ses use phase bound s :
  run_source ses (SourceDecide use phase bound) s = Ok (authorizeWorkspaceSource ses use phase bound s).1
  ∨ (authorizeWorkspaceSource ses use phase bound s).1 = s.
Proof.
  unfold authorizeWorkspaceSource. cbn. destruct (use_valid use); cbn; [|by right]. case_bool_decide; cbn; [|by right].
  destruct (decide_use _ _ _ _ _) as [[s' [row b]]|]; [by left|by right].
Qed.

Lemma grant_is_step use phase : is_step (λ ses, AuthorizeWorkspaceSource ses use phase).
Proof.
  apply (call_is_step (SourceDecide use phase None)). intros ses s. pose proof (authorize_call ses use phase None s) as Hc.
  unfold AuthorizeWorkspaceSource. destruct (authorizeWorkspaceSource _ _ _ _ _) as [s' [answer b]]. exact Hc.
Qed.

Definition claimed_decision (use : SourceUse) (phase : string) (b : invocationSourceAuthorizer) (ses : session) (s : source_store)
  : source_store * result (SourcePermit * invocationSourceAuthorizer) :=
  let '(s', (answer, b')) := bound_AuthorizeWorkspaceSource ses use phase b s in
  (s', match answer with Ok permit => Ok (permit, b') | Err e => Err e end).

Lemma claimed_is_step use phase b : is_step (claimed_decision use phase b).
Proof.
  apply (call_is_step (SourceDecide use phase (Some b))). intros ses s. pose proof (authorize_call ses use phase (Some b) s) as Hc.
  unfold claimed_decision, bound_AuthorizeWorkspaceSource. destruct (authorizeWorkspaceSource _ _ _ _ _) as [s' [answer b']]. exact Hc.
Qed.

Lemma authorized_permitted ses use phase bound w1 w t' permit b :
  clock_runs ses (sw_clock w1) t' → authorizeWorkspaceSource ses use phase bound (sw_store w1) = (sw_store (sd_world w), (Ok permit, b)) →
  permitted w use phase permit.
Proof.
  intros _ A. destruct (permit_records _ _ _ _ _ _ _ _ A) as (_ & row & b' & D & Hrec). exists row. split; [|done].
  exact (proj2 (decide_le _ _ _ _ _ _ _ _ D)).
Qed.

Lemma authorize_spec c use phase w w' a :
  AuthorizeWorkspaceSource_ c use phase w = (w', a) → proceeds w w' ∧ ∀ permit, a = Ok permit → permitted w' use phase permit.
Proof.
  unfold AuthorizeWorkspaceSource_, deployed_authorizer. destruct (sd_bound w) as [b|].
  - change (λ ses s, let '(s', (answer, b')) := bound_AuthorizeWorkspaceSource ses use phase b s in _) with (claimed_decision use phase b).
    destruct (run_transaction _ w) as [w1 answer] eqn:R. destruct (run_spec _ _ _ _ (claimed_is_step use phase b) R) as (P & _ & Hok).
    destruct answer as [[permit b']|e]; intros [= <- <-]; [|done]. split; [exact P|]. intros ? [= <-].
    destruct (Hok _ eq_refl) as (ses & w2 & t' & Hr & _ & E). unfold claimed_decision, bound_AuthorizeWorkspaceSource in E.
    destruct (authorizeWorkspaceSource _ _ _ _ _) as [s' [answer b0]] eqn:A. destruct answer as [p|]; [|done]. injection E as -> -> _.
    eapply (authorized_permitted _ _ _ _ w2 w1); [exact Hr|exact A].
  - intros R. destruct (run_spec _ _ _ _ (grant_is_step use phase) R) as (P & _ & Hok). split; [exact P|]. intros permit ->.
    destruct (Hok _ eq_refl) as (ses & w2 & t' & Hr & _ & E). unfold AuthorizeWorkspaceSource in E.
    destruct (authorizeWorkspaceSource _ _ _ _ _) as [s' [answer b0]] eqn:A. injection E as -> ->.
    eapply (authorized_permitted _ _ _ _ w2 w'); [exact Hr|exact A].
Qed.

Lemma open_source_object key h h' a :
  OpenWorkspaceSource bucket key h = (h', a) → passes h h'
  ∧ ∀ o, a = Ok o → ∃ u data rest, objectURL bucket key workspacePrefix = Ok u ∧ object_at h' u data
      ∧ data = rc_stream o +:+ rest ∧ (rc_fault o = None → rest = "").
Proof.
  unfold OpenWorkspaceSource. destruct (workspaceSourceKeyPattern key); [|by intros [= <- <-]].
  destruct (objectURL _ _ _) as [u|]; [|by intros [= <- <-]]. unfold mbind, io_bind.
  destruct (Do (get_request u) h) as [h1 [response|err]] eqn:E; pose proof (server_do _ _ _ _ (get_keeps_objects u) E) as P; [|by intros [= <- <-]].
  case_decide as D; [|case_decide; by intros [= <- <-]]. intros [= <- <-]. split; [done|]. intros o [= <-]. destruct D as (Hs & Hc & _).
  destruct (server_get _ _ _ _ E Hs Hc) as (data & rest & Ho & -> & Hf). by exists u, (rc_stream (rsp_Body response) +:+ rest), rest.
Qed.

Lemma put_source_object key content digest h h' a : PutWorkspaceSourceIfAbsent bucket key content digest h = (h', a) → passes h h'.
Proof.
  unfold PutWorkspaceSourceIfAbsent. destruct (negb _); [by intros [= <- <-]|]. case_decide; [by intros [= <- <-]|].
  destruct (objectURL _ _ _) as [u|]; [|by intros [= <- <-]]. unfold mbind, io_bind.
  destruct (Do _ h) as [h1 answer] eqn:E. pose proof (server_do _ _ _ _ (put_keeps_objects _ _ _ _) E) as P. by destruct answer; intros [= <- <-].
Qed.

#[export] Instance deployed_source_world : SourceWorld source_deployment.
Proof.
  refine {| since := proceeds; finished := installed; kept := source_held; decided := permitted |}.
  - intros w w' i [R _] (k & Hk & Hc). exists k. split; by apply (source_run_le _ _ R).
  - intros w w' k data [_ P] (u & Hu & Ho). exists u. split; [done|by eapply object_passes].
  - intros w w' use phase permit [R _] (d & Hd & Hrec). exists d. split; [by apply (source_run_le _ _ R)|done].
  - intros w k d1 d2 (u1 & Hu1 & Ho1) (u2 & Hu2 & Ho2). rewrite Hu1 in Hu2. injection Hu2 as <-. by eapply object_once.
  - intros w w' c e. apply at_http_proceeds, server_ctx.
  - intros w w' t [= <- _]. split; [apply rtc_refl|reflexivity].
  - intros w w' c i a R. by destruct (run_spec _ _ _ _ (bind_is_step i false) R).
  - intros w w' c i a R. by destruct (run_spec _ _ _ _ (bind_is_step i true) R).
  - intros w w' c i entry R Hready. destruct (run_spec _ _ _ _ (bind_is_step i true) R) as (_ & _ & Hok).
    destruct (Hok _ eq_refl) as (ses & w1 & t' & _ & _ & E). destruct (bindWorkspaceSource _ _ _ _) as [[s a]|] eqn:B; [|done].
    injection E as -> ->. apply bind_le in B as (_ & Ee & Hi & Hc). rewrite Ee. cbn. exists (source_key_of (si_Record i)). auto.
  - intros w w' c s k id a R. by destruct (run_spec _ _ _ _ (query_is_step _) R).
  - intros w w' c s k id entry R Hready. destruct (run_spec _ _ _ _ (query_is_step _) R) as (_ & _ & Hok).
    destruct (Hok _ eq_refl) as (ses & w1 & t' & _ & _ & E). injection E as Es F. rewrite Es in F.
    apply find_spec in F as (Hi & _ & Hr). exists (s, k, id). auto.
  - intros w w' c k a. apply at_http_proceeds. intros h h' a'. unfold mbind, io_bind.
    destruct (OpenWorkspaceSource bucket k h) as [h1 answer] eqn:E. intros [= <- _]. by apply open_source_object in E as [].
  - intros w w' c k o. unfold OpenWorkspaceSource_, deployed_objects, at_http, mbind, io_bind.
    destruct (OpenWorkspaceSource bucket k (sd_http w)) as [h answer] eqn:E. destruct answer as [reader|]; [|done]. intros [= <- <-].
    apply open_source_object in E as [_ Ho]. destruct (Ho _ eq_refl) as (u & data & rest & Hu & Hat & Hd & Hf).
    exists data, rest. split_and!; [by exists u|done|done].
  - intros w w' c k data digest a. apply at_http_proceeds. intros h h' a'. apply put_source_object.
  - intros w w' c use phase a Ha. by destruct (authorize_spec _ _ _ _ _ _ Ha).
  - intros w w' c use phase permit Ha. destruct (authorize_spec _ _ _ _ _ _ Ha) as [_ Hp]. by apply Hp.
Defined.

(** ** Reads under a claim *)

(** What both kinds of reading share: learn the use, then read under its lease. *)
Definition read_under (c : context) (b : invocationSourceAuthorizer) (record : SourceRecord) (generation : Z)
  : io source_deployment (result Snapshot) :=
  learned ← query_source (λ ses, sourceUse ses b record generation);
  match learned with
  | Err err => mret (Err err)
  | Ok (use, expires, b) => _ ← set_bound b; ReadSource (WithDeadline c expires) use
  end.
(** [bound.deliveryExpires] *)
Definition delivery_expires : io source_deployment Z := λ w, (w, from_option sa_deliveryExpires zero_time (sd_bound w)).

Definition ReadClaimedWorkspaceSource (c : context) (claim : OperationClaim) (effect : EffectRecord) (record : SourceRecord) (generation : Z)
  : io source_deployment (result Snapshot) :=
  if negb (validInvocationRuntimeAttempt claim effect && bool_decide (sr_IsolationDomainID record = c_IsolationDomainID claim))
  then mret (Err ErrSourceInvalid)
  else read_under c (new_authorizer claim effect ForAttempt) record generation.

Definition ReadPreparingWorkspaceSource (c : context) (claim : OperationClaim) (effect : EffectRecord) (preparation : InvocationWorkspacePreparation)
  : io source_deployment (result (Snapshot * Z)) :=
  read ← read_under c (new_authorizer claim effect (ForPreparation preparation false)) (ip_Source preparation) (ip_GrantGeneration preparation);
  expires ← delivery_expires;
  mret (snapshot ← read; Ok (snapshot, expires)).

Definition ReadExportWorkspaceSource (c : context) (claim : OperationClaim) (effect : EffectRecord) (expected : InvocationWorkspaceQuiescence)
    (generation : Z) : io source_deployment (result (Snapshot * Z)) :=
  if negb (validInvocationRuntimeAttempt claim effect && ValidSourceRecord (wq_Source expected)) then mret (Err ErrSourceInvalid)
  else
    read ← read_under c (new_authorizer claim effect (ForExport expected)) (wq_Source expected) generation;
    expires ← delivery_expires;
    mret (snapshot ← read; Ok (snapshot, expires)).

(** A delivery decision on its own. *)
Definition decide_delivery (c : context) (claim : OperationClaim) (effect : EffectRecord) (preparation : InvocationWorkspacePreparation) (completion : bool)
  : io source_deployment (result SourcePermit) :=
  let b := new_authorizer claim effect (ForPreparation preparation completion) in
  learned ← query_source (λ ses, sourceUse ses b (ip_Source preparation) (ip_GrantGeneration preparation));
  match learned with
  | Err err => mret (Err err)
  | Ok (use, _, b) => _ ← set_bound b; AuthorizeWorkspaceSource_ c use SourceReadDelivery
  end.

Definition AuthorizeInvocationWorkspaceTransfer (c : context) (claim : OperationClaim) (effect : EffectRecord) (preparation : InvocationWorkspacePreparation)
  : io source_deployment (result Z) :=
  decided ← decide_delivery c claim effect preparation false;
  expires ← delivery_expires;
  mret (_ ← decided; Ok expires).

Definition CompleteInvocationWorkspacePreparation (c : context) (claim : OperationClaim) (effect : EffectRecord)
    (preparation : InvocationWorkspacePreparation) (receipt : Receipt) : io source_deployment (result unit) :=
  if decide (sr_IsolationDomainID (ip_Source preparation) ≠ c_IsolationDomainID claim ∨ receipt ≠ expected_receipt (ip_Source preparation))
  then mret (Err ErrWorkspacePreparation)
  else
    decided ← decide_delivery c claim effect preparation true;
    mret (_ ← decided; Ok tt).

(** ** What is read is what was installed *)

Lemma gives_read_under c b record generation w :
  gives (read_under c b record generation) w (λ w' r, proceeds w w' ∧ ∀ snapshot, r = Ok snapshot →
    ∃ use, su_Record use = record ∧ su_GrantGeneration use = generation ∧ read_evidence use w' snapshot).
Proof.
  apply gives_bind, gives_call. intros w1 learned R. destruct (run_spec _ _ _ _ (query_is_step _) R) as (P & _ & Hok).
  destruct learned as [[[use expires] b']|]; [|by apply gives_ret]. destruct (Hok _ eq_refl) as (ses & w0 & t' & _ & _ & E). injection E as _ E.
  unfold sourceUse in E. apply result_bind_Ok in E as ([[b1 target] expires'] & _ & E). case_decide; [done|]. destruct (use_valid _); [|done].
  injection E as <- <- <-. apply gives_bind. unfold gives at 1. cbn. eapply gives_mono; [apply gives_ReadSource|].
  intros w2 r [P2 Hr]. split; [etrans; [exact P|]; exact P2|]. intros snapshot Hs. eexists. split_and!; [| |by apply Hr]; done.
Qed.

(** C11: What a worker is given is what was installed, under two justified decisions.  With the
    tables and an S3 bucket whose objects are immutable: once [InstallSource] answered for
    an archive, then whatever others do to the tables and the bucket afterwards and
    whichever calls fail, a worker that reads this source under its claim to prepare a
    workspace and is given a snapshot is given that of exactly this archive; and both the
    admission and the delivery of this reading are recorded as allowed, for the requested
    generation, and rest on an active grant as in [justified]. *)
Theorem deployed_source_exact c installation archive w w1 w2 c' claim effect preparation w3 entry snapshot expires :
  rtc source_step initial_source (sd_world w) →
  InstallSource c installation archive w = (w1, Ok entry) → proceeds w1 w2 →
  ip_Source preparation = si_Record installation →
  ReadPreparingWorkspaceSource c' claim effect preparation w2 = (w3, Ok (snapshot, expires)) →
  sn_archive snapshot = archive ∧ Inspect archive (sr_ArchiveDigest (si_Record installation)) = Ok snapshot
  ∧ ∃ d1 d2, de_phase d1 = SourceReadAdmission ∧ de_phase d2 = SourceReadDelivery
      ∧ Forall (λ d, d ∈ ss_decisions (sw_store (sd_world w3)) ∧ de_outcome d = "allowed" ∧ de_source d = source_key_of (si_Record installation)
                  ∧ de_requested_generation d = ip_GrantGeneration preparation ∧ justified (sw_store (sd_world w3)) d) [d1; d2].
Proof.
  intros R Hi L Hp Hr. destruct (gives_eq _ _ _ _ _ (gives_InstallSource c installation archive w) Hi) as [L1 Hins].
  destruct (Hins entry eq_refl) as (_ & _ & Hk & snapshot' & Hins' & _).
  assert (gives (ReadPreparingWorkspaceSource c' claim effect preparation) w2 (λ w' r, proceeds w2 w' ∧ ∀ p, r = Ok p →
    ∃ use, su_Record use = ip_Source preparation ∧ su_GrantGeneration use = ip_GrantGeneration preparation ∧ read_evidence use w' p.1)) as G.
  { apply gives_bind. eapply gives_mono; [apply gives_read_under|]. intros w4 r [L4 He]. apply gives_bind. unfold gives at 1. cbn. apply gives_ret.
    split; [done|]. destruct r as [sn|]; [|done]. intros p [= <-]. by apply He. }
  destruct (gives_eq _ _ _ _ _ G Hr) as [L3 He]. destruct (He _ eq_refl) as (use & Eu & Eg & (i & permit & _ & _ & Hk' & Hin & Hgen & (d1 & Hd1 & R1) & (d2 & Hd2 & R2))).
  rewrite Eu, Hp in *. cbn [fst] in *.
  assert (sn_archive snapshot = archive) as Ea.
  { apply (kept_once w3 (object_key (si_Record installation))); [done|]. eapply (kept_since w1); [by etrans|done]. }
  rewrite Ea in Hin. split_and!; [done|done|]. exists d1, d2. unfold records_use in *. destruct_and?. split_and!; [done|done|].
  assert (source_inv (sw_store (sd_world w3)) (sw_clock (sd_world w3))) as I.
  { apply source_reachable_inv. etrans; [exact R|]. by destruct L1, L, L3; do 2 (etrans; [eassumption|]). }
  repeat constructor; try congruence; by apply (inv_decisions _ _ I).
Qed.
End deployment.
