(* ===== verification/SourceExamples.v ===== *)
(** * A concrete workspace source

    A workspace is created and a source installed in it, by the tables alone and through
    the deployed store; an administrator grants a revision its use; the worker of an
    invocation of that revision prepares the workspace, reads the source and begins the
    attempt.  The witnesses of [SourceSystem] and [SourceDeployment] are evaluated on
    these runs. *)
From S2P Require Import Prelude.
From S2P Require Import GoStrings.
From S2P Require Import Sha256.
From S2P Require Import GoJson.
From S2P Require Import Domain.
From S2P Require Import RuntimeTables.
From S2P Require Import Database.
From S2P Require Import OperationStore.
From S2P Require Import Commands.
From S2P Require Import RuntimeInteraction.
From S2P Require Import StoreSteps.
From S2P Require Import StoreExamples.
From S2P Require Import ApprovalExamples.
From S2P Require Import ExecutionPlan.
From S2P Require Import ExecutionTables.
From S2P Require Import Enforcement.
From S2P Require Import RuntimeDriver.
From S2P Require Import RuntimeStore.
From S2P Require Import RuntimeAttempts.
From S2P Require Import RuntimeSystem.
From S2P Require Import RuntimeStoreExamples.
From S2P Require Import S3Store.
From S2P Require Import ArtifactDeployment.
From S2P Require Import WorkspaceSource.
From S2P Require Import WorkspaceExamples.
From S2P Require Import WorkspaceAccess.
From S2P Require Import SourceTables.
From S2P Require Import SourceClaims.
From S2P Require Import SourceSystem.
From S2P Require Import SourceDeployment.

#[local] Existing Instance RuntimeStoreExamples.any_schemas.
#[local] Existing Instance ArtifactDeployment.calm.
#[local] Existing Instance ArtifactDeployment.simple_s3.
#[local] Existing Instance ArtifactDeployment.simple_server.
#[local] Instance permissive : SourceReadEvaluator := λ _ _, "allowed".
#[local] Instance preparation_row_eq_dec : EqDecision preparation_row.
Proof. solve_decision. Defined.

(** ** Runs *)

(** The clock stands still during a call; the identifiers of calls differ. *)
Definition steady (n : N) (t : Z) : session := Session (λ _, t) (λ _, t) (λ i, replicate 8 0%N ++ [n; N.of_nat i]).
Lemma steady_runs n t : clock_runs (steady n t) t t.
Proof. split; cbn; intros; lia. Qed.

Inductive source_act :=
  | ActSystem (a : action)
  | ActElsewhere (plans : gmap key plan_row) (instances : OperationClaim → gmap key instance_row)
  | ActWorkspace (input : CreateWorkspaceInput)
  | ActPolicy (policy : InvocationAuthorizationPolicyRecord)
  | ActSource (n : N) (c : OperationClaim → source_store → source_call).

Definition worker (w : source_world) : OperationClaim := holder (RuntimeWorld (ss_runtime (sw_store w)) (sw_claims w)).

Definition system_to (w : source_world) (r : runtime_store) (cs : list OperationClaim) (t : Z) : option source_world :=
  if decide (rs_preparations r = rs_preparations (ss_runtime (sw_store w)) ∧ rs_completions r = rs_completions (ss_runtime (sw_store w)))
  then Some (SourceWorldState (set_runtime_store (λ _, r) (sw_store w)) cs t) else None.

(** One action, a microsecond after the last. *)
Definition source_act_on (a : source_act) (w : source_world) : option source_world :=
  let 'SourceWorldState s cs t := w in
  let r := ss_runtime s in
  match a with
  | ActSystem a => '(RuntimeWorld r' cs') ← act a (RuntimeWorld r cs); system_to w r' cs' (t + 1)
  | ActElsewhere plans instances =>
      system_to w (RuntimeStore (rs_db r) (rs_artifacts r) (rs_objects r) plans (instances (worker w)) (rs_preparations r) (rs_completions r)) cs (t + 1)
  | ActWorkspace input =>
      match CreateWorkspace (Env t t []) (iso_idem "/workspaces" "w") input (store_db s) with
      | Ok (d, _) => Some (SourceWorldState (set_runtime_store (set_db (λ _, d)) s) cs (t + 1))
      | Err _ => None
      end
  | ActPolicy policy =>
      Some (SourceWorldState (SourceStore (ss_runtime s) (ss_installations s) (ss_completed s) (ss_grants s) (ss_decisions s) (ss_cleanups s)
        (ss_confirmed s) (λ _ _ _, Ok policy)) cs t)
  | ActSource n c =>
      match run_source (steady n t) (c (worker w) s) s with Ok s' => Some (SourceWorldState s' cs t) | Err _ => None end
  end.

Lemma source_act_step a w w' : source_act_on a w = Some w' → source_step w w'.
Proof.
  destruct w as [s cs t], a as [a|plans instances|input|policy|n c]; cbn [source_act_on].
  - intros ([r' cs'] & Ha & Hs)%bind_Some. unfold system_to in Hs. case_decide as D; [|done]. injection Hs as <-.
    apply step_system; [lia|by eapply act_step|exact D].
  - unfold system_to. cbn. case_decide as D; [|done]. intros [= <-]. apply step_system; [lia| |exact D].
    destruct (ss_runtime s). exact (step_elsewhere _ _ _ _ _ _).
  - destruct (CreateWorkspace _ _ _ _) as [[d answer]|] eqn:E; [|done]. intros [= <-]. eapply step_workspace; [lia|exact E].
  - intros [= <-]. apply step_policies.
  - destruct (run_source _ _ _) as [s'|] eqn:E; [|done]. intros [= <-]. by eapply step_source; [apply steady_runs|].
Qed.

Definition source_acts (l : list source_act) (w : source_world) : option source_world := foldl (λ w a, w ≫= source_act_on a) (Some w) l.
Definition act_from (w : source_world) (l : list source_act) : source_world := default w (source_acts l w).

Lemma source_acts_run l w w' : source_acts l w = Some w' → rtc source_step w w'.
Proof.
  unfold source_acts. revert w. induction l as [|a l IH]; intros w; cbn; [intros [= ->]; constructor|].
  destruct (source_act_on a w) as [w1|] eqn:E; [|intros H; exfalso; clear -H; induction l; cbn in H; [done|auto]].
  intros H. eapply rtc_l; [by apply (source_act_step a)|by apply IH].
Qed.

Lemma act_from_run w l : rtc source_step w (act_from w l).
Proof. unfold act_from. destruct (source_acts l w) as [w'|] eqn:E; [by apply source_acts_run in E|constructor]. Qed.

(** ** The source and the invocation *)

Definition x_svc := "svc_00000000000000000001".
Definition x_rev := "rev_00000000000000000001".
Definition x_wsp := "wsp_00000000000000000001".
Definition x_src := "src_00000000000000000001".
Definition x_env (t : Z) : env := Env t t (replicate 9 0%N ++ [Z.to_N t]).

Definition x_claim (t : Z) : happening := ApprovalExamples.Store (DoClaim (x_env t) OperationKindInvocation any_scope "worker-1" (10 * second)).
Definition x_publish (t : Z) (next : string) : list happening :=
  [ApprovalExamples.Store (DoClaim (x_env t) OperationKindPublication any_scope "worker-1" second); ApprovalExamples.Store (DoAdvance (x_env (t + 1)) 0 next None)].
Definition x_setup : list happening :=
  ([ ApprovalExamples.Store (DoCommand (x_env 1) (iso_idem "/services" "k1") (CmdCreateService (CreateServiceIn "" x_svc "Service" "" "act_a" ex_cor)));
     ApprovalExamples.Store (DoCommand (x_env 2) (iso_idem "/revisions" "k2")
       (CmdCreateRevision (CreateRevisionIn x_rev x_svc "reference/v1" [] None None "act_a" ex_cor)));
     ApprovalExamples.Store (DoCommand (x_env 3) (iso_idem "/publish" "k3")
       (CmdAcceptPublication (AcceptPublicationIn x_rev 1 "act_a" ex_cor (100 * second)) ∅)) ]
   ++ x_publish 4 "validating" ++ x_publish 6 "applying" ++ x_publish 8 "observing" ++ x_publish 10 "published" ++
   [ ApprovalExamples.Store (DoCommand (x_env 12) (iso_idem "/alias" "k4") (CmdAssignAlias (AssignAliasIn "als_a" x_svc "prod" x_rev None "act_a" ex_cor)));
     ApprovalExamples.Store (DoCommand (x_env 13) (iso_idem "/invoke" "k5")
       (CmdAcceptInvocation (AcceptInvocationIn ex_inv x_svc "prod" (JObj []) "act_a" ex_cor (100 * second) None)));
     x_claim 14; ApprovalExamples.Store (DoAdvance (x_env 15) 0 "starting" None); x_claim 16; Prepare (x_env 17) "start-invocation";
     Record_ (x_env 18) "start-invocation" "succeeded"; ApprovalExamples.Store (DoAdvance (x_env 19) 0 "running" None); x_claim 20;
     Prepare (x_env 21) "run-invocation" ])%Z.

Definition x_world : source_world :=
  act_from initial_source (((λ h, ActSystem (Control h)) <$> x_setup) ++ [ActWorkspace (CreateWorkspaceIn x_wsp "Sources" "" "act_a" ex_cor)]).

Definition x_record : SourceRecord :=
  MkSourceRecord SourceRecordV1 ex_iso x_wsp x_src (Sha256.digest_string before_archive) (profileDigest a_bucket) (go_len before_archive)
    (rc_EntryCount (sn_receipt before_ws)) (rc_SourceBytes (sn_receipt before_ws)).
Definition x_installation : SourceInstallation := MkInstallation x_record "act_a" ex_cor.
Definition x_grant : SourceGrantChange :=
  MkGrant SourceGrantV1 x_record x_rev 1 "activate" 1 1000 "act_a" example_digest ex_cor.

Definition x_row (digest : string) : plan_row :=
  PlanRow ExecutionPlanSchemaV2 "codex" "env-1" ("registry.example/agent@" +:+ example_digest) example_digest "bundle-1" example_digest
    "matrix-1" example_digest ["openai"] ["network"] digest "act_a" ex_cor 0 (Some x_record).
Definition x_plan : ExecutionPlan := stored_plan (ex_iso, x_rev) (x_row "").
Definition digest_or_empty (r : result string) : string := match r with Ok d => d | Err _ => "" end.
Definition x_plans : gmap key plan_row :=
  {[(ex_iso, x_rev) := x_row (digest_or_empty (DigestExecutionPlan x_plan))]}.
Definition x_instances (c : OperationClaim) : gmap key instance_row :=
  {[(ex_iso, "exec_1") := InstanceRow "plc_1" (c_ID c) "gw_1" "sandbox" "ready" 0 0 None]}.
Definition x_policy : InvocationAuthorizationPolicyRecord :=
  MkPolicyRecord policy_v7 ex_iso x_svc x_rev "policies" (replicate 32 0%N) "" "" "" "act_a" ex_cor [].

Definition run_of (w : source_world) : EffectRecord := the_effect (worker w) (store_db (sw_store w)).

(** The grant, the environment, and the intent. *)
Definition granted : list source_act :=
  [ ActSource 1 (λ _ _, SourceGrant x_grant); ActElsewhere x_plans x_instances; ActPolicy x_policy;
    ActSource 2 (λ c s, SourcePrepare c (the_effect c (store_db s)) (ex_iso, "exec_1") 1) ].
Definition x_prepared : source_world :=
  act_from x_world ([ActSource 3 (λ _ _, SourceBind x_installation false); ActSource 4 (λ _ _, SourceBind x_installation true)] ++ granted).

(** ** Reading and starting *)

Definition x_preparation : InvocationWorkspacePreparation :=
  MkPreparation (ex_iso, "exec_1") x_record (digest_or_empty (DigestExecutionPlan x_plan)) 1 0.
Definition x_reader (w : source_world) (completion : bool) : invocationSourceAuthorizer :=
  new_authorizer (worker w) (run_of w) (ForPreparation x_preparation completion).
Definition x_use : SourceUse := MkSourceUse SourceUseV1 x_record x_rev (c_ID (worker x_prepared)) 1 "act_a" ex_cor.

Definition x_decision : source_store * (result SourcePermit * option invocationSourceAuthorizer) :=
  authorizeWorkspaceSource (steady 5 (sw_clock x_prepared)) x_use SourceReadDelivery (Some (x_reader x_prepared true)) (sw_store x_prepared).
Definition x_permit : SourcePermit := MkPermit 1 1000.

(** Afterwards the grant is revoked. *)
Definition x_revoke : SourceGrantChange :=
  MkGrant SourceGrantV1 x_record x_rev 2 "revoke" zero_time zero_time "act_a" example_digest "cor_00000000000000000002".
Definition x_revoked : source_world :=
  act_from (SourceWorldState x_decision.1 (sw_claims x_prepared) (sw_clock x_prepared)) [ActSource 6 (λ _ _, SourceGrant x_revoke)].

(** The same decision, and the attempt. *)
Definition x_delivered : source_world :=
  act_from x_prepared [ActSource 5 (λ _ _, SourceDecide x_use SourceReadDelivery (Some (x_reader x_prepared true)))].
Definition x_begin : runtime_store * InvocationRuntimeAttempt :=
  from_begin (ss_runtime (sw_store x_delivered)) no_attempt
    (BeginInvocationRuntimeAttempt (at_time 24) (worker x_delivered) (run_of x_delivered) (ss_runtime (sw_store x_delivered))).

(** ** Through the deployed store *)

Definition quiet_move (n : N) : source_move := {|
  sm_steps := λ w, w; sm_legal := λ w, rtc_refl _ w; sm_session := steady n; sm_until := λ t, t; sm_runs := steady_runs n; sm_failure := None |}.
Definition x_deployed : source_deployment (N := served) :=
  SourceDeployed x_world [] (quiet_move <$> [10; 11; 12; 13; 14; 15; 16; 17]%N) (repeat 23%Z 8) None.
#[local] Instance x_objects : SourceObjects (source_deployment (N := served)) := deployed_objects a_bucket.

Definition x_install : source_deployment (N := served) * result SourceCatalogEntry := InstallSource Caller x_installation before_archive x_deployed.
Definition with_world (f : source_world → source_world) (w : source_deployment (N := served)) : source_deployment (N := served) :=
  SourceDeployed (f (sd_world w)) (sd_http w) (sd_moves w) (sd_times w) (sd_bound w).
Definition x_ready : source_deployment (N := served) := with_world (λ w, act_from w granted) x_install.1.
Definition x_read : source_deployment (N := served) * result (Snapshot * Z) :=
  ReadPreparingWorkspaceSource a_bucket Caller (worker (sd_world x_ready)) (run_of (sd_world x_ready)) x_preparation x_ready.
Definition snapshot_of (r : result (Snapshot * Z)) : Snapshot := match r with Ok (s, _) => s | Err _ => nothing end.
Definition x_snapshot : Snapshot := snapshot_of x_read.2.

(** ** What the runs give *)

#[local] Instance permit_eq_dec : EqDecision SourcePermit.
Proof. solve_decision. Defined.
Definition answers {A B} `{EqDecision B} (f : A → B) (r : result A) (b : B) : bool := match r with Ok a => bool_decide (f a = b) | Err _ => false end.
Lemma answers_spec {A B} `{EqDecision B} (f : A → B) r b : answers f r b = true → ∃ a, r = Ok a ∧ f a = b.
Proof. destruct r as [a|]; [|done]. intros E%bool_decide_eq_true. by exists a. Qed.

Definition has_value {A B} `{EqDecision B} (f : A → B) (o : option A) (b : B) : bool := match o with Some a => bool_decide (f a = b) | None => false end.
Lemma has_value_spec {A B} `{EqDecision B} (f : A → B) o b : has_value f o b = true → ∃ a, o = Some a ∧ f a = b.
Proof. destruct o as [a|]; [|done]. intros E%bool_decide_eq_true. by exists a. Qed.

(** Evaluated together, since they share their beginning. *)
Definition x_outcomes : list bool :=
  [ answers id x_decision.2.1 x_permit;
    (length (ss_grants (sw_store x_revoked)) =? 2)%nat;
    is_ok (BeginInvocationRuntimeAttempt (at_time 24) (worker x_delivered) (run_of x_delivered) (ss_runtime (sw_store x_delivered)));
    has_value op_resource_id (db_invocation_ops (store_db (sw_store x_delivered)) !! claim_key (worker x_delivered)) ex_inv;
    has_value inv_revision_id (db_invocations (store_db (sw_store x_delivered)) !! (c_IsolationDomainID (worker x_delivered), ex_inv)) x_rev;
    answers id (ReadExecutionPlan (c_IsolationDomainID (worker x_delivered)) x_rev (ss_runtime (sw_store x_delivered))) x_plan;
    answers id x_install.2 (MkSourceEntry x_installation true);
    answers snd x_read.2 1000%Z ].

Lemma x_evaluated : forallb id x_outcomes = true.
Proof. vm_compute. reflexivity. Qed.

Lemma x_facts : Forall (λ b, b = true) x_outcomes.
Proof. eapply Forall_impl; [exact (proj1 (forallb_Forall _ _) x_evaluated)|]. by intros []. Qed.
Lemma x_fact n b : x_outcomes !! n = Some b → b = true.
Proof. intros H. exact (Forall_lookup_1 _ _ _ _ x_facts H). Qed.

Lemma pair_eq {A B} (p : A * B) b : p.2 = b → p = (p.1, b).
Proof. destruct p. by intros <-. Qed.

Lemma x_decided :
  authorizeWorkspaceSource (steady 5 (sw_clock x_prepared)) x_use SourceReadDelivery (Some (x_reader x_prepared true)) (sw_store x_prepared)
  = (x_decision.1, (Ok x_permit, x_decision.2.2)).
Proof.
  destruct (answers_spec _ _ _ (x_fact 0 _ eq_refl)) as (permit & E & Ep). cbn [id] in Ep. rewrite Ep in E. unfold x_decision in *.
  rewrite <- E. destruct (authorizeWorkspaceSource _ _ _ _ _) as [s' [answer b]]. reflexivity.
Qed.

Lemma x_begin_ok :
  BeginInvocationRuntimeAttempt (at_time 24) (worker x_delivered) (run_of x_delivered) (ss_runtime (sw_store x_delivered)) = Ok (x_begin.1, x_begin.2).
Proof.
  rewrite (from_begin_ok (ss_runtime (sw_store x_delivered)) no_attempt _ (x_fact 2 _ eq_refl)).
  unfold x_begin. by destruct (from_begin _ _ _).
Qed.

Lemma x_rows : ∃ op inv,
  db_invocation_ops (store_db (sw_store x_delivered)) !! claim_key (worker x_delivered) = Some op
  ∧ db_invocations (store_db (sw_store x_delivered)) !! (c_IsolationDomainID (worker x_delivered), op_resource_id op) = Some inv
  ∧ ReadExecutionPlan (c_IsolationDomainID (worker x_delivered)) (inv_revision_id inv) (ss_runtime (sw_store x_delivered)) = Ok x_plan.
Proof.
  destruct (has_value_spec _ _ _ (x_fact 3 _ eq_refl)) as (op & Hop & Eop). destruct (has_value_spec _ _ _ (x_fact 4 _ eq_refl)) as (inv & Hinv & Einv).
  destruct (answers_spec _ _ _ (x_fact 5 _ eq_refl)) as (plan & Hplan & Ep).
  cbn [id] in Ep. rewrite Ep in Hplan. exists op, inv. rewrite Eop, Einv. exact (conj Hop (conj Hinv Hplan)).
Qed.

Lemma x_install_ok : InstallSource Caller x_installation before_archive x_deployed = (x_install.1, Ok (MkSourceEntry x_installation true)).
Proof.
  destruct (answers_spec _ _ _ (x_fact 6 _ eq_refl)) as (entry & E & Ee). cbn [id] in Ee. rewrite Ee in E. exact (pair_eq x_install _ E).
Qed.

Lemma x_read_ok :
  ReadPreparingWorkspaceSource a_bucket Caller (worker (sd_world x_ready)) (run_of (sd_world x_ready)) x_preparation x_ready
  = (x_read.1, Ok (x_snapshot, 1000%Z)).
Proof.
  destruct (answers_spec _ _ _ (x_fact 7 _ eq_refl)) as ([sn e] & E & Ee). cbn [snd] in Ee. rewrite Ee in E.
  unfold x_snapshot. rewrite E. exact (pair_eq x_read _ E).
Qed.

(** ** Witnesses *)

Lemma x_prepared_run : rtc source_step initial_source x_prepared.
Proof. unfold x_prepared, x_world. etrans; apply act_from_run. Qed.

Lemma source_use_governed_witness :
  ∃ d, d ∈ ss_decisions (sw_store x_revoked) ∧ records_use x_use SourceReadDelivery x_permit d ∧ justified (sw_store x_revoked) d
    ∧ ∀ b0, Some (x_reader x_prepared true) = Some b0 → allowed_under b0 x_use SourceReadDelivery (sw_store x_prepared) d.
Proof.
  refine (source_use_governed (steady 5 (sw_clock x_prepared)) x_use SourceReadDelivery (Some (x_reader x_prepared true)) x_prepared
    x_revoked (sw_clock x_prepared) x_decision.1 x_permit x_decision.2.2 x_prepared_run (steady_runs _ _) x_decided (act_from_run _ _)).
Defined.

Lemma runtime_start_prepared_witness :
  ∃ p d c, rs_preparations (ss_runtime (sw_store x_delivered)) !! version_of (worker x_delivered) = Some p
    ∧ wp_source_record p = x_record ∧ DigestExecutionPlan x_plan = Ok (wp_plan_digest p)
    ∧ wp_lease_owner p = c_LeaseOwner (worker x_delivered) ∧ wp_effect_id p = e_EffectID (run_of x_delivered)
    ∧ prepared_by (sw_store x_delivered) (version_of (worker x_delivered)) p d c ∧ justified (sw_store x_delivered) d.
Proof.
  destruct x_rows as (op & inv & Hop & Hinv & Hplan).
  refine (runtime_start_prepared (at_time 24) (worker x_delivered) (run_of x_delivered) x_delivered x_begin.1 x_begin.2 op inv x_plan x_record
    _ x_begin_ok Hop Hinv Hplan eq_refl). exact (transitivity x_prepared_run (act_from_run _ _)).
Defined.

Lemma act_proceeds l w : proceeds w (with_world (λ v, act_from v l) w).
Proof. split; [apply act_from_run|reflexivity]. Qed.
Lemma x_ready_proceeds : proceeds x_install.1 x_ready.
Proof. exact (act_proceeds granted x_install.1). Qed.
Lemma x_deployed_run : rtc source_step initial_source (sd_world x_deployed).
Proof. unfold x_deployed. cbn [sd_world]. unfold x_world. apply act_from_run. Qed.

Lemma deployed_source_exact_witness :
  sn_archive x_snapshot = before_archive ∧ Inspect before_archive (sr_ArchiveDigest x_record) = Ok x_snapshot.
Proof.
  destruct (deployed_source_exact a_bucket Caller x_installation before_archive x_deployed x_install.1 x_ready Caller
    (worker (sd_world x_ready)) (run_of (sd_world x_ready)) x_preparation x_read.1 (MkSourceEntry x_installation true) x_snapshot 1000
    x_deployed_run x_install_ok x_ready_proceeds eq_refl x_read_ok) as (H1 & H2 & _).
  exact (conj H1 H2).
Defined.
