(* ===== verification/AuthRateLimit.v ===== *)
(** * Admission of authentications

    [internal/persistence/authentication_rate_limit.go] and
    [authentication_rate_limit_policy.go], with [internal/api/authentication_rate_limit.go]
    and [postgres_authentication_rate_limiter.go] above them: how many authentications a
    deployment admits, in all, for an isolation domain and for a credential.

    Clocks and timestamp columns count microseconds, durations nanoseconds; a time that
    is written to a column loses its nanoseconds.  An admission is one transaction, which
    from its second statement on holds the row of the global bucket. *)
From S2P Require Import Prelude.
From S2P Require Import GoStrings.
From S2P Require Import Sha256.
From S2P Require Import Database.
From S2P Require Import RuntimeInteraction.
From S2P Require Import ExecutionPlan.
From S2P Require Import OperationStore.

(** ** Policies *)

Definition minimumAuthenticationRateLimitWindow : Z := 1000000000.
Definition maximumAuthenticationRateLimitWindow : Z := 24 * 3600 * 1000000000.
Definition maximumAuthenticationRateLimitBurst : Z := 1000000.
Definition authenticationRateLimitCleanupBatch : nat := 128.

Definition ErrAuthenticationRateLimitInvalid := ESentinel "persistence.ErrAuthenticationRateLimitInvalid".
Definition ErrAuthenticationRateLimitConflict := ESentinel "persistence.ErrAuthenticationRateLimitConflict".
Definition ErrAuthenticationRateLimitPolicyActivationInvalid :=
  ESentinel "persistence.ErrAuthenticationRateLimitPolicyActivationInvalid".
Definition ErrAuthenticationRateLimitPolicyInactive := ESentinel "persistence.ErrAuthenticationRateLimitPolicyInactive".

Definition authenticationRateLimitDomainPattern : string → bool := match_prefixed "iso_" is_id_char 20 32.
Definition is_actor_char (c : ascii) : bool := is_id_char c || bool_decide (c ∈ ["_"%char; "-"%char]).
Definition authenticationRateLimitActorPattern (s : string) : bool :=
  match_headed is_lower is_actor_char 127 s && bool_decide (3 ≤ slen s).
Definition authenticationRateLimitCorrelationPattern : string → bool := match_prefixed "cor_" is_id_char 20 32.

Abbreviation sha_digest := (list N).

Record AuthenticationRateLimitPolicy := MkRatePolicy {
  rp_Window : Z; rp_GlobalBurst : Z; rp_IsolationDomainBurst : Z; rp_CredentialBurst : Z }.

#[global] Instance AuthenticationRateLimitPolicy_eq_dec : EqDecision AuthenticationRateLimitPolicy.
Proof. solve_decision. Defined.

Definition policy_Valid (policy : AuthenticationRateLimitPolicy) : bool :=
  bool_decide ((minimumAuthenticationRateLimitWindow ≤ rp_Window policy ≤ maximumAuthenticationRateLimitWindow)
    ∧ (1 ≤ rp_GlobalBurst policy ≤ maximumAuthenticationRateLimitBurst)
    ∧ (1 ≤ rp_IsolationDomainBurst policy ≤ rp_GlobalBurst policy)
    ∧ (1 ≤ rp_CredentialBurst policy ≤ rp_IsolationDomainBurst policy))%Z.

Definition authenticationRateLimitDigest (scope : string) (value : list N) : sha_digest :=
  Sha256.sum256_bytes ((byte_value <$> bytes_of ("dataground:authentication-rate-limit:" +:+ scope +:+ ":v1")) ++ [0%N] ++ value).
Definition authenticationRateLimitGlobalDigest : sha_digest := Sha256.Sum256 "dataground:authentication-rate-limit:global:v1".

(** Big-endian words. *)
Definition policy_digest (policy : AuthenticationRateLimitPolicy) : sha_digest :=
  authenticationRateLimitDigest "policy"
    (Sha256.be64 (Z.to_N (rp_Window policy)) ++ Sha256.be32 (Z.to_N (rp_GlobalBurst policy))
     ++ Sha256.be32 (Z.to_N (rp_IsolationDomainBurst policy)) ++ Sha256.be32 (Z.to_N (rp_CredentialBurst policy))).

(** ** Tables *)

Record AuthenticationRateLimitPolicyActivation := MkActivation {
  ac_Contract : string; ac_Generation : Z; ac_Policy : AuthenticationRateLimitPolicy; ac_ActivatedBy : string;
  ac_CorrelationID : string; ac_ReasonDigest : list N }.
#[global] Instance Activation_eq_dec : EqDecision AuthenticationRateLimitPolicyActivation.
Proof. solve_decision. Defined.

(** [authentication_rate_limit_policy_activations], by generation; a row keeps the digest
    beside the activation. *)
Record activation_row := ActivationRow { av_activation : AuthenticationRateLimitPolicyActivation; av_policy_digest : sha_digest }.

(** [authentication_rate_limit_buckets], by [(policy_generation, scope, subject_digest)]. *)
Record bucket_row := BucketRow { bk_policy_digest : sha_digest; bk_theoretical_arrival_at : Z; bk_updated_at : Z }.
Abbreviation bucket_key := (Z * string * sha_digest)%type.

Record limiter := Limiter { lm_activations : gmap Z activation_row; lm_buckets : gmap bucket_key bucket_row }.

Definition nanos (timestamp : Z) : Z := (1000 * timestamp)%Z.
Definition timestamptz (t : Z) : Z := (t / 1000)%Z.

(** ** Activations *)

Definition authenticationRateLimitPolicyContract := "dataground.authentication-rate-limit-policy/v1".

Definition activation_Valid (activation : AuthenticationRateLimitPolicyActivation) : bool :=
  bool_decide (ac_Contract activation = authenticationRateLimitPolicyContract)
  && bool_decide (0 < ac_Generation activation ≤ 9223372036854775807)%Z && policy_Valid (ac_Policy activation)
  && authenticationRateLimitActorPattern (ac_ActivatedBy activation)
  && authenticationRateLimitCorrelationPattern (ac_CorrelationID activation)
  && bool_decide (length (ac_ReasonDigest activation) = 32).

(** [COALESCE(max(generation), 0)] *)
Definition current_generation (m : gmap Z activation_row) : Z := foldr Z.max 0%Z (map_to_list m).*1.

Definition requireActiveAuthenticationRateLimitPolicy (generation : Z) (policy : AuthenticationRateLimitPolicy) (m : gmap Z activation_row)
  : result unit :=
  match m !! current_generation m with
  | None => Err ErrAuthenticationRateLimitPolicyInactive
  | Some row =>
      if decide (current_generation m = generation ∧ av_policy_digest row = policy_digest policy
                 ∧ ac_Policy (av_activation row) = policy)
      then Ok tt else Err ErrAuthenticationRateLimitConflict
  end.

Definition getAuthenticationRateLimitPolicyActivation (generation : Z) (m : gmap Z activation_row)
  : result AuthenticationRateLimitPolicyActivation :=
  match m !! generation with
  | None => Err ErrNoRows
  | Some row =>
      if activation_Valid (av_activation row) && bool_decide (av_policy_digest row = policy_digest (ac_Policy (av_activation row)))
      then Ok (av_activation row) else Err ErrAuthenticationRateLimitPolicyActivationInvalid
  end.

(** The generation that a correlation identifier is unique for. *)
Definition correlated_generation (correlationID : string) (m : gmap Z activation_row) : option Z :=
  fst <$> (snd <$> list_find (λ kv : Z * activation_row, ac_CorrelationID (av_activation kv.2) = correlationID) (map_to_list m)).

Definition ActivateAuthenticationRateLimitPolicy (activation : AuthenticationRateLimitPolicyActivation) (l : limiter) : result limiter :=
  if negb (activation_Valid activation) then Err ErrAuthenticationRateLimitPolicyActivationInvalid
  else
    let m := lm_activations l in
    let current := current_generation m in
    let generation := ac_Generation activation in
    match correlated_generation (ac_CorrelationID activation) m with
    | Some other => if decide (other ≠ generation) then Err ErrAuthenticationRateLimitConflict else Ok tt
    | None => Ok tt
    end ≫= λ _,
    if decide (generation ≤ current)%Z then
      match getAuthenticationRateLimitPolicyActivation generation m with
      | Err err => Err (if is_err err ErrNoRows then ErrAuthenticationRateLimitConflict else err)
      | Ok existing =>
          if decide (generation ≠ current ∨ existing ≠ activation) then Err ErrAuthenticationRateLimitConflict else Ok l
      end
    else if decide (generation ≠ current + 1)%Z then Err ErrAuthenticationRateLimitConflict
    else Ok (Limiter (<[generation := ActivationRow activation (policy_digest (ac_Policy activation))]> m) (lm_buckets l)).

Definition AuthenticationRateLimitPolicyReady (generation : Z) (policy : AuthenticationRateLimitPolicy) (l : limiter) : result unit :=
  if negb (bool_decide (0 < generation ≤ 9223372036854775807)%Z && policy_Valid policy)
  then Err ErrAuthenticationRateLimitPolicyActivationInvalid
  else requireActiveAuthenticationRateLimitPolicy generation policy (lm_activations l).

(** ** Buckets *)

Record AuthenticationRateLimitResult := MkRateResult { rr_Allowed : bool; rr_RetryAfter : Z }.

(** The result and the next theoretical arrival; [window] and [burst] are positive. *)
Definition advanceAuthenticationRateLimitBucket (now theoreticalArrival window burst : Z) : AuthenticationRateLimitResult * Z :=
  let interval := (window / burst)%Z in
  let allowedAt := (theoreticalArrival - interval * (burst - 1))%Z in
  if decide (now < allowedAt)%Z then (MkRateResult false (allowedAt - now), theoreticalArrival)
  else (MkRateResult true 0, Z.max theoreticalArrival now + interval)%Z.

(** The row, made when there is none, and its theoretical arrival. *)
Definition lockAuthenticationRateLimitBucket (k : bucket_key) (policyDigest : sha_digest) (now : Z) (buckets : gmap bucket_key bucket_row)
  : result (gmap bucket_key bucket_row * Z) :=
  match buckets !! k with
  | None => Ok (<[k := BucketRow policyDigest now now]> buckets, nanos now)
  | Some row =>
      if decide (bk_policy_digest row = policyDigest) then Ok (buckets, nanos (bk_theoretical_arrival_at row))
      else Err ErrAuthenticationRateLimitConflict
  end.

Definition storeAuthenticationRateLimitBucket (k : bucket_key) (nextArrival now : Z) : gmap bucket_key bucket_row → gmap bucket_key bucket_row :=
  alter (λ row, BucketRow (bk_policy_digest row) (timestamptz nextArrival) now) k.

(** The row is there and [locked] before [now] is read; [first] is the clock read before
    that, which only a new row keeps. *)
Definition consume_bucket (k : bucket_key) (policyDigest : sha_digest) (first now window burst : Z) (buckets : gmap bucket_key bucket_row)
  : result (gmap bucket_key bucket_row * AuthenticationRateLimitResult) :=
  '(buckets, arrival) ← lockAuthenticationRateLimitBucket k policyDigest first buckets;
  let '(r, nextArrival) := advanceAuthenticationRateLimitBucket (nanos now) arrival window burst in
  Ok (storeAuthenticationRateLimitBucket k nextArrival now buckets, r).
Definition consumeAuthenticationRateLimitBucket (k : bucket_key) (policyDigest : sha_digest) (now window burst : Z) :=
  consume_bucket k policyDigest now now window burst.

(** *** Reclaiming *)

Definition stale (generation staleBefore : Z) (kv : bucket_key * bucket_row) : Prop :=
  kv.1.1.1 ≠ generation ∨ (kv.1.1.2 ≠ "global" ∧ (bk_updated_at kv.2 ≤ staleBefore)%Z).
#[global] Instance stale_dec generation staleBefore kv : Decision (stale generation staleBefore kv).
Proof. unfold stale. apply _. Defined.

(** [ORDER BY policy_generation, updated_at, scope, subject_digest] *)
Fixpoint lexicographic (a b : list Z) : bool :=
  match a, b with
  | [], _ => true
  | _, [] => false
  | x :: a, y :: b => bool_decide (x < y)%Z || (bool_decide (x = y) && lexicographic a b)
  end.
Definition reclaim_order (kv : bucket_key * bucket_row) : list Z :=
  [kv.1.1.1; bk_updated_at kv.2] ++ (Z.of_N ∘ byte_value <$> bytes_of kv.1.1.2) ++ [(-1)%Z] ++ (Z.of_N <$> kv.1.2).
Definition reclaim_before (a b : bucket_key * bucket_row) : Prop := lexicographic (reclaim_order a) (reclaim_order b) = true.

#[global] Instance reclaim_before_dec a b : Decision (reclaim_before a b).
Proof. unfold reclaim_before. apply _. Defined.

(** Rows that other transactions hold are passed over. *)
Definition reclaimAuthenticationRateLimitBuckets (generation staleBefore : Z) (held : bucket_key → bool) (buckets : gmap bucket_key bucket_row)
  : gmap bucket_key bucket_row :=
  let candidates := filter (λ kv, stale generation staleBefore kv ∧ held kv.1 = false) (map_to_list buckets) in
  foldr (λ kv, delete kv.1) buckets (take authenticationRateLimitCleanupBatch (merge_sort reclaim_before candidates)).

(** ** Admission *)

Definition credential_key (isolationDomainID : string) (credentialDigest : sha_digest) : list N :=
  (byte_value <$> bytes_of isolationDomainID) ++ [0%N] ++ credentialDigest.

Definition global_bucket (generation : Z) : bucket_key := (generation, "global", authenticationRateLimitGlobalDigest).
Definition domain_bucket (generation : Z) (isolationDomainID : string) : bucket_key :=
  (generation, "domain", authenticationRateLimitDigest "domain" (byte_value <$> bytes_of isolationDomainID)).
Definition credential_bucket (generation : Z) (isolationDomainID : string) (credentialDigest : sha_digest) : bucket_key :=
  (generation, "credential", authenticationRateLimitDigest "credential" (credential_key isolationDomainID credentialDigest)).

Definition admission_valid (isolationDomainID : string) (credentialDigest : sha_digest) (generation : Z) (policy : AuthenticationRateLimitPolicy) : bool :=
  authenticationRateLimitDomainPattern isolationDomainID && negb (bool_decide (credentialDigest = replicate 32 0%N))
  && bool_decide (0 < generation ≤ 9223372036854775807)%Z && policy_Valid policy.

(** [clock] gives the two clock readings, [held] the rows that other transactions hold. *)
Definition AllowAuthentication (clock : nat → Z) (held : bucket_key → bool) (isolationDomainID : string) (credentialDigest : sha_digest)
    (generation : Z) (policy : AuthenticationRateLimitPolicy) (l : limiter) : result (limiter * AuthenticationRateLimitResult) :=
  if negb (admission_valid isolationDomainID credentialDigest generation policy) then Err ErrAuthenticationRateLimitInvalid
  else
    _ ← requireActiveAuthenticationRateLimitPolicy generation policy (lm_activations l);
    let digest := policy_digest policy in
    let window := rp_Window policy in
    let commit buckets r := Ok (Limiter (lm_activations l) buckets, r) in
    let now := clock 1 in
    '(buckets, global) ← consume_bucket (global_bucket generation) digest (clock 0) now window (rp_GlobalBurst policy) (lm_buckets l);
    if negb (rr_Allowed global) then commit buckets global
    else
      let buckets := reclaimAuthenticationRateLimitBuckets generation (timestamptz (nanos now - window)) held buckets in
      '(buckets, domain) ← consumeAuthenticationRateLimitBucket (domain_bucket generation isolationDomainID) digest now window
                             (rp_IsolationDomainBurst policy) buckets;
      if negb (rr_Allowed domain) then commit buckets domain
      else
        '(buckets, credential) ← consumeAuthenticationRateLimitBucket (credential_bucket generation isolationDomainID credentialDigest) digest now window
                                   (rp_CredentialBurst policy) buckets;
        commit buckets credential.

(** ** The limiter of the HTTP API *)

Definition maximumAuthenticationRetryAfter : Z := 24 * 3600 * 1000000000.

Definition decision_Valid (decision : AuthenticationRateLimitResult) : bool :=
  if rr_Allowed decision then bool_decide (rr_RetryAfter decision = 0%Z)
  else bool_decide (0 < rr_RetryAfter decision ≤ maximumAuthenticationRetryAfter)%Z.

Definition authenticationRetryAfterSeconds (delay : Z) : Z := (delay + 1000000000 - 1) / 1000000000.

(** The digest of the access token stands for the credential. *)
Definition api_AllowAuthentication (clock : nat → Z) (held : bucket_key → bool) (isolationDomainID accessToken : string)
    (generation : Z) (policy : AuthenticationRateLimitPolicy) (l : limiter) : result (limiter * AuthenticationRateLimitResult) :=
  let digest := Sha256.Sum256 accessToken in
  if negb (authenticationRateLimitDomainPattern isolationDomainID && negb (bool_decide (digest = replicate 32 0%N)) && policy_Valid policy)
  then Err ErrAuthenticationRateLimitInvalid
  else
    '(l, r) ← AllowAuthentication clock held isolationDomainID digest generation policy l;
    Ok (l, if rr_Allowed r then MkRateResult true 0 else MkRateResult false (rr_RetryAfter r)).
