(* ===== verification/AuthRateLimitTheorems.v ===== *)
(** * How many authentications are admitted

    The buckets under every sequence of admissions and activations.  The argument follows
    the theoretical arrival of one bucket: an admission moves it by one interval, time
    and reclaiming never move it back, and it is never far ahead of the clock. *)
From S2P Require Import Prelude.
From S2P Require Import GoStrings.
From S2P Require Import Sha256.
From S2P Require Import Database.
From S2P Require Import AuthRateLimit.

(** ** Runs *)

Record admission := Admission {
  ad_IsolationDomainID : string; ad_CredentialDigest : sha_digest; ad_Generation : Z; ad_Policy : AuthenticationRateLimitPolicy;
  ad_Result : AuthenticationRateLimitResult }.

(** The clock of the database does not go back.  The reading after the global bucket is
    locked orders the admissions. *)
Inductive limiter_step : Z * limiter → list admission → Z * limiter → Prop :=
  | step_allow t (clock : nat → Z) held iso credential generation policy l l' r :
      (t ≤ clock 1%nat)%Z → (clock 0%nat ≤ clock 1%nat)%Z →
      AllowAuthentication clock held iso credential generation policy l = Ok (l', r) →
      limiter_step (t, l) [Admission iso credential generation policy r] (clock 1, l')
  | step_activate t t' activation l l' :
      (t ≤ t')%Z → ActivateAuthenticationRateLimitPolicy activation l = Ok l' → limiter_step (t, l) [] (t', l').

Inductive limiter_run : Z * limiter → list admission → Z * limiter → Prop :=
  | run_none x : limiter_run x [] x
  | run_more x y z es fs : limiter_run x es y → limiter_step y fs z → limiter_run x (es ++ fs) z.

Definition no_limiter : limiter := Limiter ∅ ∅.

(** ** Intervals *)

Definition burst_of (policy : AuthenticationRateLimitPolicy) (k : bucket_key) : Z :=
  if decide (k.1.2 = "global") then rp_GlobalBurst policy
  else if decide (k.1.2 = "domain") then rp_IsolationDomainBurst policy else rp_CredentialBurst policy.

Definition interval (policy : AuthenticationRateLimitPolicy) (k : bucket_key) : Z := (rp_Window policy / burst_of policy k)%Z.
(** What remains of an interval in a column. *)
Definition stored_interval (policy : AuthenticationRateLimitPolicy) (k : bucket_key) : Z := nanos (timestamptz (interval policy k)).
(** How far the theoretical arrival may be ahead of the clock. *)
Definition span (policy : AuthenticationRateLimitPolicy) (k : bucket_key) : Z :=
  (interval policy k * (burst_of policy k - 1) + stored_interval policy k)%Z.

Section intervals.
Context (policy : AuthenticationRateLimitPolicy) (Hv : policy_Valid policy = true) (k : bucket_key).

Lemma burst_positive : (1 ≤ burst_of policy k ≤ maximumAuthenticationRateLimitBurst)%Z ∧ (minimumAuthenticationRateLimitWindow ≤ rp_Window policy)%Z.
Proof. unfold policy_Valid in Hv. apply bool_decide_eq_true in Hv. unfold burst_of. repeat case_decide; lia. Qed.

Lemma interval_bounds : (1000 ≤ interval policy k)%Z ∧ (interval policy k * burst_of policy k ≤ rp_Window policy)%Z.
Proof.
  pose proof burst_positive as [[H1 H2] H3]. unfold interval. unfold maximumAuthenticationRateLimitBurst, minimumAuthenticationRateLimitWindow in *. split.
  - apply Z.div_le_lower_bound; [lia|]. nia.
  - rewrite Z.mul_comm. apply Z.mul_div_le. lia.
Qed.

Lemma stored_bounds : (1000 ≤ stored_interval policy k ≤ interval policy k)%Z.
Proof.
  pose proof interval_bounds as [H1 _]. unfold stored_interval, nanos, timestamptz. split.
  - assert (1 ≤ interval policy k / 1000)%Z by (apply Z.div_le_lower_bound; lia). lia.
  - apply Z.mul_div_le. lia.
Qed.

Lemma span_bounds : (0 ≤ span policy k ≤ rp_Window policy)%Z.
Proof. pose proof burst_positive as [[? ?] ?]. pose proof interval_bounds as [? ?]. pose proof stored_bounds as [? ?]. unfold span. nia. Qed.
End intervals.

(** ** One bucket *)

Definition arrival_at (k : bucket_key) (now : Z) (buckets : gmap bucket_key bucket_row) : Z :=
  match buckets !! k with Some row => Z.max (nanos now) (nanos (bk_theoretical_arrival_at row)) | None => nanos now end.

Lemma timestamptz_nanos x : timestamptz (nanos x) = x.
Proof. unfold timestamptz, nanos. rewrite Z.mul_comm. by apply Z.div_mul. Qed.
Lemma timestamptz_add x d : timestamptz (nanos x + d) = (x + timestamptz d)%Z.
Proof. unfold timestamptz, nanos. rewrite Z.mul_comm, Z.div_add_l by lia. done. Qed.

Lemma consume_spec k digest first now window burst buckets buckets' r :
  consume_bucket k digest first now window burst buckets = Ok (buckets', r) →
  ∃ arrival next, advanceAuthenticationRateLimitBucket (nanos now) (nanos arrival) window burst = (r, next)
    ∧ match buckets !! k with Some row => arrival = bk_theoretical_arrival_at row | None => arrival = first end
    ∧ buckets' = <[k := BucketRow digest (timestamptz next) now]> buckets.
Proof.
  unfold consume_bucket, lockAuthenticationRateLimitBucket, storeAuthenticationRateLimitBucket.
  destruct (buckets !! k) as [row|] eqn:E; [case_decide as D; [|done]|]; cbn.
  - destruct (advanceAuthenticationRateLimitBucket _ _ _ _) as [r' next] eqn:Ea. intros [= <- <-].
    exists (bk_theoretical_arrival_at row), next. split_and!; [done|done|].
    by rewrite alter_alt, E, D.
  - destruct (advanceAuthenticationRateLimitBucket _ _ _ _) as [r' next] eqn:Ea. intros [= <- <-].
    exists first, next. split_and!; [done|done|]. by rewrite alter_insert_eq.
Qed.

Lemma consume_arrival k digest first now policy buckets buckets' r :
  policy_Valid policy = true → (first ≤ now)%Z →
  consume_bucket k digest first now (rp_Window policy) (burst_of policy k) buckets = Ok (buckets', r) →
  arrival_at k now buckets' = (arrival_at k now buckets + if rr_Allowed r then stored_interval policy k else 0)%Z.
Proof.
  intros Hv Hf (arrival & next & Ha & Hk & ->)%consume_spec. pose proof (stored_bounds policy Hv k) as [Hs _].
  unfold arrival_at. rewrite lookup_insert_eq. cbn [bk_theoretical_arrival_at].
  unfold advanceAuthenticationRateLimitBucket in Ha. fold (interval policy k) in Ha.
  case_decide as Hd; injection Ha as <- <-; cbn [rr_Allowed].
  - rewrite timestamptz_nanos. destruct (buckets !! k); subst; unfold nanos in *; lia.
  - assert (Z.max (nanos arrival) (nanos now) = nanos (Z.max arrival now)) as -> by (unfold nanos; lia).
    rewrite timestamptz_add. assert (∀ a b, nanos (a + b) = (nanos a + nanos b)%Z) as -> by (unfold nanos; lia).
    fold (stored_interval policy k). destruct (buckets !! k); subst; unfold nanos in *; lia.
Qed.

Lemma consume_other k k' digest first now window burst buckets buckets' r :
  k' ≠ k → consume_bucket k digest first now window burst buckets = Ok (buckets', r) → buckets' !! k' = buckets !! k'.
Proof. intros Hne (arrival & next & _ & _ & ->)%consume_spec. by rewrite lookup_insert_ne. Qed.

(** ** The invariant *)

Definition bucket_ok (t : Z) (m : gmap Z activation_row) (k : bucket_key) (row : bucket_row) : Prop :=
  ∃ active, m !! k.1.1 = Some active ∧ (bk_updated_at row ≤ t)%Z
    ∧ (nanos (bk_theoretical_arrival_at row) ≤ nanos (bk_updated_at row) + span (ac_Policy (av_activation active)) k)%Z.

Definition activation_ok (g : Z) (row : activation_row) : Prop := policy_Valid (ac_Policy (av_activation row)) = true ∧ (0 < g)%Z.

Record limiter_ok (t : Z) (l : limiter) : Prop := LimiterOk {
  lo_activations : map_Forall activation_ok (lm_activations l);
  lo_buckets : map_Forall (bucket_ok t (lm_activations l)) (lm_buckets l) }.

Lemma bucket_ok_later t t' m k row : (t ≤ t')%Z → bucket_ok t m k row → bucket_ok t' m k row.
Proof. intros Ht (active & Hm & Hu & Ha). exists active. split_and!; [done|lia|done]. Qed.

Lemma consume_ok k digest first now policy active m buckets buckets' r :
  policy_Valid policy = true → (first ≤ now)%Z → m !! k.1.1 = Some active → ac_Policy (av_activation active) = policy →
  consume_bucket k digest first now (rp_Window policy) (burst_of policy k) buckets = Ok (buckets', r) →
  map_Forall (bucket_ok now m) buckets → map_Forall (bucket_ok now m) buckets'.
Proof.
  intros Hv Hf Hm Hp (arrival & next & Ha & Hk & ->)%consume_spec OK. apply map_Forall_insert_2; [|done].
  pose proof (burst_positive policy Hv k) as [[? ?] _]. pose proof (interval_bounds policy Hv k) as [? _].
  pose proof (stored_bounds policy Hv k) as [? _]. exists active. rewrite Hp. cbn. split_and!; [done|lia|].
  unfold advanceAuthenticationRateLimitBucket in Ha. fold (interval policy k) in Ha.
  case_decide as Hd; injection Ha as <- <-.
  - rewrite timestamptz_nanos. destruct (buckets !! k) as [row|] eqn:E.
    + subst arrival. destruct (OK k row E) as (active' & Hm' & Hu & Hb). assert (active' = active) as -> by congruence. rewrite Hp in Hb.
      unfold nanos in *. lia.
    + subst arrival. unfold span, nanos in *. nia.
  - assert (Z.max (nanos arrival) (nanos now) = nanos (Z.max arrival now)) as -> by (unfold nanos; lia).
    rewrite timestamptz_add. assert (∀ a b, nanos (a + b) = (nanos a + nanos b)%Z) as -> by (unfold nanos; lia).
    fold (stored_interval policy k). unfold span, nanos in *. nia.
Qed.

(** *** Reclaiming *)

Lemma reclaim_lookup generation staleBefore held buckets k :
  let buckets' := reclaimAuthenticationRateLimitBuckets generation staleBefore held buckets in
  buckets' !! k = buckets !! k ∨ (buckets' !! k = None ∧ ∃ row, buckets !! k = Some row ∧ stale generation staleBefore (k, row)).
Proof.
  unfold reclaimAuthenticationRateLimitBuckets. set (candidates := filter _ _).
  assert (∀ kv, kv ∈ take authenticationRateLimitCleanupBatch (merge_sort reclaim_before candidates) →
    buckets !! kv.1 = Some kv.2 ∧ stale generation staleBefore kv) as Hc.
  { intros kv Hin. apply elem_of_take in Hin as (i & Hi & _). apply list_elem_of_lookup_2 in Hi. rewrite merge_sort_Permutation in Hi.
    apply list_elem_of_filter in Hi as [[Hs _] Hi]. destruct kv as [k' row]. by apply elem_of_map_to_list in Hi. }
  induction (take _ _) as [|kv l IH]; [by left|]. cbn [foldr].
  assert (∀ kv', kv' ∈ l → buckets !! kv'.1 = Some kv'.2 ∧ stale generation staleBefore kv') as Hl by (intros kv' H; apply Hc; by right).
  specialize (IH Hl). destruct (decide (kv.1 = k)) as [<-|Hne]; [|by rewrite lookup_delete_ne]. right.
  rewrite lookup_delete_eq. destruct (Hc kv) as [Hb Hs]; [by left|]. split; [done|]. exists kv.2. split; [done|by destruct kv].
Qed.

Lemma reclaim_arrival generation staleBefore held now m active buckets k :
  map_Forall (bucket_ok now m) buckets → k.1.1 = generation → m !! generation = Some active →
  policy_Valid (ac_Policy (av_activation active)) = true →
  staleBefore = timestamptz (nanos now - rp_Window (ac_Policy (av_activation active))) →
  arrival_at k now (reclaimAuthenticationRateLimitBuckets generation staleBefore held buckets) = arrival_at k now buckets.
Proof.
  intros OK Hg Hm Hv ->. destruct (reclaim_lookup generation (timestamptz (nanos now - rp_Window (ac_Policy (av_activation active)))) held buckets k)
    as [E|(E & row & Hr & Hs)]; unfold arrival_at; [by rewrite E|]. rewrite E, Hr.
  destruct (OK k row Hr) as (active' & Hm' & Hu & Hb). rewrite Hg, Hm in Hm'. injection Hm' as <-.
  pose proof (span_bounds _ Hv k) as [_ Hsp]. destruct Hs as [Hs|[_ Hs]]; [done|]. cbn in Hs.
  assert (nanos (bk_updated_at row) ≤ nanos now - rp_Window (ac_Policy (av_activation active)))%Z; [|lia].
  unfold timestamptz, nanos in *. pose proof (Z.mul_div_le (1000 * now - rp_Window (ac_Policy (av_activation active))) 1000). lia.
Qed.

Lemma reclaim_ok generation staleBefore held t m buckets :
  map_Forall (bucket_ok t m) buckets → map_Forall (bucket_ok t m) (reclaimAuthenticationRateLimitBuckets generation staleBefore held buckets).
Proof. intros OK k row Hk. apply (OK k). by destruct (reclaim_lookup generation staleBefore held buckets k) as [<-|[E _]]; [|congruence]. Qed.

(** ** One admission *)

Definition charged (a : admission) : list bucket_key :=
  [global_bucket (ad_Generation a); domain_bucket (ad_Generation a) (ad_IsolationDomainID a);
   credential_bucket (ad_Generation a) (ad_IsolationDomainID a) (ad_CredentialDigest a)].

Definition charge (a : admission) (k : bucket_key) : Z :=
  if decide (rr_Allowed (ad_Result a) = true ∧ k ∈ charged a) then stored_interval (ad_Policy a) k else 0%Z.

Lemma charge_denied a k : rr_Allowed (ad_Result a) = false → charge a k = 0%Z.
Proof. unfold charge. intros ->. by rewrite decide_False by naive_solver. Qed.

Lemma consume_mono k0 k digest first now policy buckets buckets' r :
  policy_Valid policy = true → (first ≤ now)%Z →
  consume_bucket k0 digest first now (rp_Window policy) (burst_of policy k0) buckets = Ok (buckets', r) →
  (arrival_at k now buckets ≤ arrival_at k now buckets')%Z
  ∧ (rr_Allowed r = true → k = k0 → (arrival_at k now buckets + stored_interval policy k ≤ arrival_at k now buckets')%Z).
Proof.
  intros Hv Hf Hc. pose proof (stored_bounds policy Hv k) as [? _]. destruct (decide (k = k0)) as [->|Hne].
  - rewrite (consume_arrival _ _ _ _ _ _ _ _ Hv Hf Hc). destruct (rr_Allowed r); split; try done; lia.
  - split; [|done]. unfold arrival_at. rewrite (consume_other _ _ _ _ _ _ _ _ _ _ Hne Hc). lia.
Qed.

Lemma require_active generation policy m :
  requireActiveAuthenticationRateLimitPolicy generation policy m = Ok tt →
  current_generation m = generation ∧ ∃ active, m !! generation = Some active ∧ ac_Policy (av_activation active) = policy.
Proof.
  unfold requireActiveAuthenticationRateLimitPolicy. destruct (m !! current_generation m) as [row|] eqn:E; [|done].
  case_decide as D; [|done]. intros _. destruct D as (<- & _ & <-). split; [done|]. by exists row.
Qed.

Section admission.
Context (t : Z) (clock : nat → Z) (held : bucket_key → bool) (iso : string) (credential : sha_digest) (generation : Z)
        (policy : AuthenticationRateLimitPolicy) (l l' : limiter) (r : AuthenticationRateLimitResult).
Context (Ht : (t ≤ clock 1)%Z) (Hclock : (clock 0 ≤ clock 1)%Z) (OK : limiter_ok t l).
Context (Hallow : AllowAuthentication clock held iso credential generation policy l = Ok (l', r)).

Let this := Admission iso credential generation policy r.

Lemma allow_active :
  current_generation (lm_activations l) = generation ∧ policy_Valid policy = true
  ∧ ∃ active, lm_activations l !! generation = Some active ∧ ac_Policy (av_activation active) = policy.
Proof.
  revert Hallow. unfold AllowAuthentication. destruct (admission_valid _ _ _ _) eqn:V; [|done]. cbn [negb].
  intros ([] & Hr & _)%result_bind_Ok. destruct (require_active _ _ _ Hr) as [Hc Ha]. split; [done|]. split; [|done].
  unfold admission_valid in V. by apply andb_true_iff in V as [_ V].
Qed.

Lemma allow_spec : lm_activations l' = lm_activations l ∧ limiter_ok (clock 1) l'
  ∧ ∀ k, k.1.1 = generation → (arrival_at k (clock 1) (lm_buckets l) + charge this k ≤ arrival_at k (clock 1) (lm_buckets l'))%Z.
Proof.
  destruct allow_active as (_ & Hv & active & Hact & Hpol). destruct OK as [OKa OKb].
  assert (map_Forall (bucket_ok (clock 1) (lm_activations l)) (lm_buckets l)) as OK0
    by (intros k row Hk; eapply bucket_ok_later; [|by apply OKb]; done).
  revert Hallow. unfold AllowAuthentication. destruct (admission_valid _ _ _ _); [|done]. cbn [negb].
  intros (_ & _ & ([b1 global] & Hg & H1)%result_bind_Ok)%result_bind_Ok.
  pose proof (consume_ok (global_bucket generation) _ _ _ policy active _ _ _ _ Hv Hclock Hact Hpol Hg OK0) as OK1.
  pose proof (λ k, consume_mono (global_bucket generation) k _ _ _ policy _ _ _ Hv Hclock Hg) as M1.
  destruct (rr_Allowed global) eqn:Ag; cbn [negb] in H1.
  2:{ injection H1 as <- <-. split_and!; [done|by split|]. intros k _. rewrite charge_denied by done. destruct (M1 k). cbn. lia. }
  set (b2 := reclaimAuthenticationRateLimitBuckets _ _ _ b1) in H1.
  assert (map_Forall (bucket_ok (clock 1) (lm_activations l)) b2) as OK2 by by apply reclaim_ok.
  assert (∀ k, k.1.1 = generation → arrival_at k (clock 1) b2 = arrival_at k (clock 1) b1) as M2.
  { intros k Hk. eapply reclaim_arrival; [exact OK1|done|exact Hact|by rewrite Hpol|by rewrite Hpol]. }
  apply result_bind_Ok in H1 as ([b3 domain] & Hd & H1).
  pose proof (consume_ok (domain_bucket generation iso) _ _ _ policy active _ _ _ _ Hv (Z.le_refl _) Hact Hpol Hd OK2) as OK3.
  pose proof (λ k, consume_mono (domain_bucket generation iso) k _ _ _ policy _ _ _ Hv (Z.le_refl _) Hd) as M3.
  destruct (rr_Allowed domain) eqn:Ad; cbn [negb] in H1.
  2:{ injection H1 as <- <-. split_and!; [done|by split|]. intros k Hk. rewrite charge_denied by done.
      destruct (M1 k), (M3 k). specialize (M2 k Hk). cbn. lia. }
  apply result_bind_Ok in H1 as ([b4 cred] & Hc & [= <- <-]).
  pose proof (consume_ok (credential_bucket generation iso credential) _ _ _ policy active _ _ _ _ Hv (Z.le_refl _) Hact Hpol Hc OK3) as OK4.
  pose proof (λ k, consume_mono (credential_bucket generation iso credential) k _ _ _ policy _ _ _ Hv (Z.le_refl _) Hc) as M4.
  split_and!; [done|by split|]. intros k Hk. destruct (M1 k) as [L1 C1], (M3 k) as [L3 C3], (M4 k) as [L4 C4]. specialize (M2 k Hk).
  unfold charge. cbn [lm_buckets]. case_decide as D; [|lia]. destruct D as [Ac Hin]. cbn [this ad_Result ad_Policy] in *.
  unfold charged in Hin. cbn [this ad_Generation ad_IsolationDomainID ad_CredentialDigest] in Hin.
  rewrite !elem_of_cons, elem_of_nil in Hin. destruct Hin as [Hin|[Hin|[Hin|[]]]].
  - specialize (C1 eq_refl Hin). lia.
  - specialize (C3 eq_refl Hin). lia.
  - specialize (C4 Ac Hin). lia.
Qed.
End admission.

(** ** Activations *)

Lemma current_lookup m : current_generation m = 0%Z ∨ is_Some (m !! current_generation m).
Proof.
  unfold current_generation. assert (∀ l : list (Z * activation_row), (∀ kv, kv ∈ l → m !! kv.1 = Some kv.2) →
    foldr Z.max 0%Z l.*1 = 0%Z ∨ is_Some (m !! foldr Z.max 0%Z l.*1)) as F.
  { induction l as [|[g row] l IH]; intros Hl; [by left|]. cbn. destruct (Z.max_spec g (foldr Z.max 0%Z l.*1)) as [[_ ->]|[_ ->]].
    - apply IH. intros kv Hkv. apply Hl. by right.
    - right. exists row. apply (Hl (g, row)). by left. }
  apply F. intros [g row]. by rewrite elem_of_map_to_list.
Qed.

Lemma current_max m g : is_Some (m !! g) → (g ≤ current_generation m)%Z.
Proof.
  intros [row Hg]. apply elem_of_map_to_list in Hg. unfold current_generation. revert Hg. generalize (map_to_list m) as l.
  induction l as [|kv l IH]; [by intros ?%elem_of_nil|]. intros [<-|H]%elem_of_cons; cbn; [lia|]. specialize (IH H). lia.
Qed.

Lemma current_insert m g row : (current_generation m < g)%Z → current_generation (<[g := row]> m) = g.
Proof.
  intros Hg. assert (g ≤ current_generation (<[g := row]> m))%Z as H1 by (apply current_max; by rewrite lookup_insert_eq).
  destruct (current_lookup (<[g := row]> m)) as [H2|[row' H2]].
  - assert (0 ≤ current_generation m)%Z; [|lia]. unfold current_generation. induction (map_to_list m).*1; cbn; lia.
  - apply lookup_insert_Some in H2 as [[<- _]|[_ H2]]; [done|]. pose proof (current_max m _ (mk_is_Some _ _ H2)). lia.
Qed.

Lemma activate_spec activation l l' : ActivateAuthenticationRateLimitPolicy activation l = Ok l' →
  l' = l ∨ (let g := (current_generation (lm_activations l) + 1)%Z in policy_Valid (ac_Policy activation) = true
    ∧ l' = Limiter (<[g := ActivationRow activation (policy_digest (ac_Policy activation))]> (lm_activations l)) (lm_buckets l)).
Proof.
  unfold ActivateAuthenticationRateLimitPolicy. destruct (activation_Valid activation) eqn:V; [|done]. cbn [negb].
  intros (_ & _ & H)%result_bind_Ok. case_decide as D1.
  - destruct (getAuthenticationRateLimitPolicyActivation _ _); [|done]. case_decide; [done|]. injection H as <-. by left.
  - case_decide as D2; [done|]. injection H as <-. right. rewrite <- D2. split; [|done].
    unfold activation_Valid in V. rewrite !andb_true_iff in V. by destruct V as [[[[_ V] _] _] _].
Qed.

Lemma activate_ok t t' activation l l' : (t ≤ t')%Z → ActivateAuthenticationRateLimitPolicy activation l = Ok l' → limiter_ok t l →
  limiter_ok t' l' ∧ (lm_buckets l' = lm_buckets l) ∧ (current_generation (lm_activations l) ≤ current_generation (lm_activations l'))%Z
  ∧ (∀ g row, lm_activations l !! g = Some row → lm_activations l' !! g = Some row)
  ∧ (current_generation (lm_activations l') = current_generation (lm_activations l) → l' = l).
Proof.
  intros Ht Ha [OKa OKb]. assert (0 ≤ current_generation (lm_activations l))%Z as Hc.
  { unfold current_generation. induction (map_to_list (lm_activations l)).*1; cbn; lia. }
  apply activate_spec in Ha as [->|[Hv ->]].
  - split_and!; [split; [done|]|done|lia|done|done]. intros k row Hk. eapply bucket_ok_later; [|by apply OKb]. done.
  - cbn. rewrite current_insert by lia. set (g := (current_generation (lm_activations l) + 1)%Z).
    assert (lm_activations l !! g = None) as Hn.
    { apply eq_None_not_Some. intros Hs%current_max. unfold g in Hs. lia. }
    assert (∀ g' row, lm_activations l !! g' = Some row →
      <[g := ActivationRow activation (policy_digest (ac_Policy activation))]> (lm_activations l) !! g' = Some row) as Hkeep.
    { intros g' row Hg. rewrite lookup_insert_ne; [done|]. congruence. }
    split_and!; [split|done|lia|done|lia]; cbn.
    + apply map_Forall_insert_2; [split; [done|unfold g; lia]|done].
    + intros k row Hk. destruct (OKb k row Hk) as (active & Hm & Hu & Hb). exists active. split_and!; [by apply Hkeep|lia|done].
Qed.

(** ** Counting *)

Lemma step_ok t l es t' l' : limiter_step (t, l) es (t', l') → limiter_ok t l → limiter_ok t' l' ∧ (t ≤ t')%Z.
Proof.
  inversion 1 as [t1 clock held iso credential generation policy l1 l1' r Ht Hc Ha|t1 t1' activation l1 l1' Ht Ha]; subst; intros OK.
  - by destruct (allow_spec _ _ _ _ _ _ _ _ _ _ Ht Hc OK Ha) as (_ & ? & _).
  - split; [|done]. by destruct (activate_ok _ _ _ _ _ Ht Ha OK).
Qed.

Lemma run_ok x es y : limiter_run x es y → limiter_ok x.1 x.2 → limiter_ok y.1 y.2 ∧ (x.1 ≤ y.1)%Z.
Proof.
  induction 1 as [x|x y z es fs _ IH S]; intros OK; [split; [done|lia]|]. destruct (IH OK) as [OKy Ly]. destruct y as [t l], z as [t' l'].
  destruct (step_ok _ _ _ _ _ S OKy) as [? ?]. cbn in *. split; [done|lia].
Qed.

Lemma no_limiter_ok t : limiter_ok t no_limiter.
Proof. split; apply map_Forall_empty. Qed.

(** One subject over all generations: everybody, an isolation domain or a credential. *)
Section counting.
Context (scope : string) (subject : sha_digest).
Abbreviation key g := ((g, scope, subject) : bucket_key).

(** What the admissions of the subject take, each the stored interval of its policy. *)
Definition cost (es : list admission) : Z := foldr (λ a, Z.add (charge a (key (ad_Generation a)))) 0%Z es.

Lemma cost_app es fs : cost (es ++ fs) = (cost es + cost fs)%Z.
Proof. unfold cost. induction es as [|a es IH]; cbn; [done|]. rewrite IH. lia. Qed.

(** What one generation can be ahead of the clock, and what the generations from [g0] on
    can be together. *)
Definition span_at (m : gmap Z activation_row) (g : Z) : Z :=
  match m !! g with Some row => span (ac_Policy (av_activation row)) (key g) | None => 0%Z end.
Definition budget (m : gmap Z activation_row) (g0 g : Z) : Z := foldr Z.add 0%Z (span_at m <$> seqZ g0 (g - g0 + 1)).

Lemma sum_app (xs ys : list Z) : foldr Z.add 0%Z (xs ++ ys) = (foldr Z.add 0%Z xs + foldr Z.add 0%Z ys)%Z.
Proof. induction xs as [|x xs IH]; cbn; [done|]. rewrite IH. lia. Qed.

Lemma budget_next m g0 g : (g0 ≤ g)%Z → budget m g0 g = (budget m g0 (g - 1) + span_at m g)%Z.
Proof.
  intros Hg. unfold budget. replace (g - g0 + 1)%Z with (g - 1 - g0 + 1 + 1)%Z by lia. rewrite seqZ_app by lia.
  rewrite fmap_app, sum_app. replace (g0 + (g - 1 - g0 + 1))%Z with g by lia.
  replace (seqZ g 1) with [g] by (rewrite seqZ_cons, seqZ_nil by lia; done). cbn [fmap list_fmap foldr]. lia.
Qed.

Lemma budget_same m m' g0 g : (∀ g', (g0 ≤ g' ≤ g)%Z → m' !! g' = m !! g') → budget m' g0 g = budget m g0 g.
Proof.
  intros Hm. unfold budget. f_equal. apply list_fmap_ext. intros i g' Hi. apply list_elem_of_lookup_2, elem_of_seqZ in Hi.
  unfold span_at. rewrite Hm; [done|lia].
Qed.

Lemma span_at_nonneg m g : map_Forall activation_ok m → (0 ≤ span_at m g)%Z.
Proof.
  intros Ha. unfold span_at. destruct (m !! g) as [row|] eqn:E; [|lia]. destruct (Ha g row E) as [Hv _].
  by destruct (span_bounds _ Hv (key g)).
Qed.

Lemma arrival_bounded t l g : limiter_ok t l → (arrival_at (key g) t (lm_buckets l) ≤ nanos t + span_at (lm_activations l) g)%Z.
Proof.
  intros [OKa OKb]. pose proof (span_at_nonneg _ g OKa). unfold arrival_at.
  destruct (lm_buckets l !! key g) as [row|] eqn:E; [|lia]. destruct (OKb _ row E) as (active & Hm & Hu & Hb).
  unfold span_at in *. cbn in Hm. rewrite Hm in *. unfold nanos in *. lia.
Qed.

Section period.
Context (t0 g0 : Z).

(** What was taken since [t0] shows in the bucket of the current generation, up to what the
    generations before it had ahead of the clock. *)
Definition spent (n t : Z) (l : limiter) : Prop :=
  let current := current_generation (lm_activations l) in
  (g0 ≤ current)%Z
  ∧ (nanos t0 + n ≤ arrival_at (key current) t (lm_buckets l) + budget (lm_activations l) g0 (current - 1))%Z.

Lemma arrival_later k t t' buckets : (t ≤ t')%Z → (arrival_at k t buckets ≤ arrival_at k t' buckets)%Z.
Proof. intros Ht. unfold arrival_at, nanos. destruct (buckets !! k); lia. Qed.

Lemma allow_spent n t clock held iso credential generation p l l' r :
  (t ≤ clock 1%nat)%Z → (clock 0%nat ≤ clock 1%nat)%Z → limiter_ok t l →
  AllowAuthentication clock held iso credential generation p l = Ok (l', r) →
  spent n t l → spent (n + cost [Admission iso credential generation p r]) (clock 1%nat) l'.
Proof.
  intros Ht Hc OK Ha [Hg S]. destruct (allow_active _ _ _ _ _ _ _ _ _ Ha) as (Hcur & _).
  destruct (allow_spec _ _ _ _ _ _ _ _ _ _ Ht Hc OK Ha) as (Eacts & _ & Hgrow).
  unfold spent in *. rewrite Eacts, Hcur in *. split; [done|]. specialize (Hgrow (key generation) eq_refl).
  pose proof (arrival_later (key generation) _ _ (lm_buckets l) Ht). cbn [cost foldr ad_Generation]. lia.
Qed.

Lemma activate_spent n t t' activation l l' :
  (t ≤ t')%Z → limiter_ok t l → ActivateAuthenticationRateLimitPolicy activation l = Ok l' → spent n t l → spent n t' l'.
Proof.
  intros Ht OK Ha [Hg S]. pose proof (arrival_bounded t l (current_generation (lm_activations l)) OK) as B.
  apply activate_spec in Ha as [->|[_ ->]].
  - split; [done|]. pose proof (arrival_later (key (current_generation (lm_activations l))) _ _ (lm_buckets l) Ht). lia.
  - unfold spent. cbn [lm_activations lm_buckets]. rewrite current_insert by lia. set (m := lm_activations l) in *.
    replace (current_generation m + 1 - 1)%Z with (current_generation m) by lia. split; [lia|].
    rewrite (budget_same m) by (intros g' ?; apply lookup_insert_ne; lia). rewrite budget_next by done.
    assert (nanos t' ≤ arrival_at (key (current_generation m + 1)) t' (lm_buckets l))%Z
      by (unfold arrival_at, nanos; destruct (lm_buckets l !! _); lia).
    unfold nanos in *. lia.
Qed.

Lemma run_spent x es y : limiter_run x es y → limiter_ok x.1 x.2 → spent 0 x.1 x.2 → spent (cost es) y.1 y.2.
Proof.
  intros R OK P. induction R as [x|x y z es fs R IH S]; [done|]. specialize (IH OK P).
  destruct (run_ok _ _ _ R OK) as [OKy Ly]. destruct y as [t l], z as [t' l']. cbn in *. rewrite cost_app.
  inversion S as [t1 clock held iso credential generation p l1 l1' r Ht Hc Ha|t1 t1' activation l1 l1' Ht Ha]; subst.
  - exact (allow_spent _ _ _ _ _ _ _ _ _ _ _ Ht Hc OKy Ha IH).
  - change (cost []) with 0%Z. rewrite Z.add_0_r. exact (activate_spent _ _ _ _ _ _ Ht OKy Ha IH).
Qed.
End period.

Lemma cost_bounded t t' l l' es : limiter_run (t, l) es (t', l') → limiter_ok t l →
  (cost es ≤ nanos (t' - t)
     + budget (lm_activations l') (current_generation (lm_activations l)) (current_generation (lm_activations l')))%Z
  ∧ (current_generation (lm_activations l) ≤ current_generation (lm_activations l'))%Z.
Proof.
  intros R OK. set (g0 := current_generation (lm_activations l)).
  assert (spent t g0 0 t l) as S0.
  { split; [done|]. fold g0. unfold budget. replace (g0 - 1 - g0 + 1)%Z with 0%Z by lia. rewrite seqZ_nil by lia. cbn [fmap list_fmap foldr].
    unfold arrival_at. destruct (lm_buckets l !! _); lia. }
  destruct (run_spent t g0 _ _ _ R OK S0) as [Hg S]. destruct (run_ok _ _ _ R OK) as [OK' _]. cbn in *.
  pose proof (arrival_bounded t' l' (current_generation (lm_activations l')) OK') as B. split; [|done].
  rewrite budget_next by done. unfold nanos in *. lia.
Qed.

(** *** Under one policy *)

(** Admitted, at the expense of the subject. *)
Definition counts (a : admission) : Prop := rr_Allowed (ad_Result a) = true ∧ key (ad_Generation a) ∈ charged a.
#[export] Instance counts_dec a : Decision (counts a).
Proof. unfold counts. apply _. Defined.
Definition admitted (es : list admission) : Z := Z.of_nat (length (filter counts es)).

Context (policy : AuthenticationRateLimitPolicy).

Lemma cost_admitted g es : Forall (λ a, ad_Policy a = policy) es → cost es = (admitted es * stored_interval policy (key g))%Z.
Proof.
  unfold admitted. induction 1 as [|a es Ha _ IH]; [done|]. cbn [cost foldr]. fold (cost es). rewrite IH, filter_cons. unfold charge.
  change (stored_interval (ad_Policy a) (key (ad_Generation a))) with (stored_interval (ad_Policy a) (key g)). rewrite Ha.
  destruct (decide (counts a)) as [D|D].
  - rewrite decide_True by exact D. cbn [length]. lia.
  - rewrite decide_False by exact D. lia.
Qed.

(** An admission is made under the policy of the generation that is current then. *)
Lemma run_policies x es y : limiter_run x es y → limiter_ok x.1 x.2 →
  Forall (λ a, (current_generation (lm_activations x.2) ≤ ad_Generation a)%Z
    ∧ ∃ row, lm_activations y.2 !! ad_Generation a = Some row ∧ ac_Policy (av_activation row) = ad_Policy a) es
  ∧ (current_generation (lm_activations x.2) ≤ current_generation (lm_activations y.2))%Z.
Proof.
  induction 1 as [x|x y z es fs R IH S]; intros OK; [by split; [constructor|]|]. destruct (IH OK) as [IHe IHg].
  destruct (run_ok _ _ _ R OK) as [OKy _]. destruct y as [t l], z as [t' l']. cbn in *.
  inversion S as [t1 clock held iso credential generation p l1 l1' r Ht Hc Ha|t1 t1' activation l1 l1' Ht Ha]; subst.
  - destruct (allow_active _ _ _ _ _ _ _ _ _ Ha) as (Hcur & _ & active & Hact & Hpol).
    destruct (allow_spec _ _ _ _ _ _ _ _ _ _ Ht Hc OKy Ha) as (Eacts & _). rewrite Eacts. split; [|done].
    apply Forall_app; split; [done|]. constructor; [|constructor]. cbn. split; [lia|]. by exists active.
  - rewrite app_nil_r. destruct (activate_ok _ _ _ _ _ Ht Ha OKy) as (_ & _ & Hle & Hkeep & _). split; [|lia].
    eapply Forall_impl; [exact IHe|]. intros a [? (row & Hr & ?)]. split; [done|]. exists row. split; [by apply Hkeep|done].
Qed.

Lemma budget_policy m g0 g : (∀ g' row, (g0 ≤ g')%Z → m !! g' = Some row → ac_Policy (av_activation row) = policy) →
  (0 ≤ span policy (key g))%Z → (g0 ≤ g)%Z → (budget m g0 g ≤ (g - g0 + 1) * span policy (key g))%Z.
Proof.
  intros Hp Hs Hg. unfold budget.
  assert (∀ gs, Forall (λ g', (g0 ≤ g')%Z) gs →
    (foldr Z.add 0%Z (span_at m <$> gs) ≤ Z.of_nat (length gs) * span policy (key g))%Z) as F.
  { induction 1 as [|g' gs Hg' _ IH]; [done|]. cbn [fmap list_fmap foldr length].
    assert (span_at m g' ≤ span policy (key g))%Z; [|lia]. unfold span_at. destruct (m !! g') as [row|] eqn:E; [|done].
    by rewrite (Hp g' row Hg' E). }
  specialize (F (seqZ g0 (g - g0 + 1))). rewrite length_seqZ, Z2Nat.id in F by lia. apply F.
  apply Forall_forall. intros g' Hin%elem_of_seqZ. lia.
Qed.
End counting.

(** C14: Admissions are bounded.  Take any period in the life of the limiter, with any
    admissions, refusals and activations before and in it, whichever rows other
    transactions hold and however the table is reclaimed, with a clock of the database
    that does not go back.  Count what is admitted in the period for one subject:
    everybody, an isolation domain or a credential.  Each admission takes the interval
    [window / burst] of the policy it was made under, cut to the microseconds a column
    keeps; and together they take at most the length of the period and, for every
    generation that was active in it, the span of that generation's policy,
    [interval * (burst - 1)] and one stored interval.  So an activation grants a fresh
    burst, and nothing else does.  If all of these generations have the same policy and
    its interval is a whole number of microseconds, a period of length [d] with [n]
    activations admits at most [(n + 1) * burst + d / interval]. *)
Theorem admissions_bounded scope subject start t t' l l' before es :
  limiter_run (start, no_limiter) before (t, l) → limiter_run (t, l) es (t', l') →
  let g := current_generation (lm_activations l) in let g' := current_generation (lm_activations l') in
  (cost scope subject es ≤ nanos (t' - t) + budget scope subject (lm_activations l') g g')%Z
  ∧ ∀ policy, policy_Valid policy = true →
      (∀ generation row, (g ≤ generation)%Z → lm_activations l' !! generation = Some row → ac_Policy (av_activation row) = policy) →
      let k := (g', scope, subject) : bucket_key in
      (admitted scope subject es * stored_interval policy k
         ≤ nanos (t' - t) + (g' - g + 1) * (interval policy k * (burst_of policy k - 1) + stored_interval policy k))%Z
      ∧ (stored_interval policy k = interval policy k →
         admitted scope subject es ≤ (g' - g + 1) * burst_of policy k + nanos (t' - t) / interval policy k)%Z.
Proof.
  intros R0 R g g'. destruct (run_ok _ _ _ R0 (no_limiter_ok _)) as [OK _]. cbn in OK.
  destruct (cost_bounded scope subject _ _ _ _ _ R OK) as [C Hg]. fold g g' in C, Hg. split; [exact C|].
  intros policy Hv Hp k. pose proof (span_bounds policy Hv k) as [Hs _].
  pose proof (budget_policy scope subject policy _ g g' Hp Hs Hg) as B.
  destruct (run_policies _ _ _ R OK) as [Hes _]. cbn in Hes.
  assert (Forall (λ a, ad_Policy a = policy) es) as Hpol.
  { eapply Forall_impl; [exact Hes|]. intros a [Hge (row & Hr & <-)]. by eapply Hp. }
  rewrite (cost_admitted scope subject policy g' es Hpol) in C. fold k in B, C. unfold span in B. split; [lia|].
  intros E. rewrite E in *. pose proof (interval_bounds policy Hv k) as [Hi _].
  assert (admitted scope subject es - (g' - g + 1) * burst_of policy k ≤ nanos (t' - t) / interval policy k)%Z; [|lia].
  apply Z.div_le_lower_bound; [lia|]. nia.
Qed.

(** ** Refusals *)

Lemma consume_refused k digest first now policy active m buckets buckets' r :
  policy_Valid policy = true → (first ≤ now)%Z → m !! k.1.1 = Some active → ac_Policy (av_activation active) = policy →
  map_Forall (bucket_ok now m) buckets →
  consume_bucket k digest first now (rp_Window policy) (burst_of policy k) buckets = Ok (buckets', r) →
  if rr_Allowed r then rr_RetryAfter r = 0%Z else (0 < rr_RetryAfter r ≤ interval policy k)%Z.
Proof.
  intros Hv Hf Hm Hp OK (arrival & next & Ha & Hk & _)%consume_spec. unfold advanceAuthenticationRateLimitBucket in Ha.
  fold (interval policy k) in Ha. case_decide as D; injection Ha as <- _; cbn; [|done]. split; [lia|].
  pose proof (burst_positive policy Hv k) as [[? _] _]. pose proof (stored_bounds policy Hv k) as [_ Hs]. pose proof (interval_bounds policy Hv k) as [? _].
  destruct (buckets !! k) as [row|] eqn:E.
  - subst arrival. destruct (OK k row E) as (active' & Hm' & Hu & Hb). rewrite Hm in Hm'. injection Hm' as <-. rewrite Hp in Hb.
    unfold span, nanos in *. lia.
  - subst arrival. unfold nanos in *. nia.
Qed.

Lemma allow_refused t (clock : nat → Z) held iso credential generation policy l l' r :
  (t ≤ clock 1%nat)%Z → (clock 0%nat ≤ clock 1%nat)%Z → limiter_ok t l →
  AllowAuthentication clock held iso credential generation policy l = Ok (l', r) →
  if rr_Allowed r then rr_RetryAfter r = 0%Z
  else ∃ k, k ∈ charged (Admission iso credential generation policy r) ∧ (0 < rr_RetryAfter r ≤ interval policy k)%Z.
Proof.
  intros Ht Hc [OKa OKb] Hallow. destruct (allow_active _ _ _ _ _ _ _ _ _ Hallow) as (_ & Hv & active & Hact & Hpol).
  assert (map_Forall (bucket_ok (clock 1) (lm_activations l)) (lm_buckets l)) as OK0
    by (intros k row Hk; eapply bucket_ok_later; [|by apply OKb]; done).
  revert Hallow. unfold AllowAuthentication. destruct (admission_valid _ _ _ _); [|done]. cbn [negb].
  intros (_ & _ & ([b1 global] & Hg & H1)%result_bind_Ok)%result_bind_Ok.
  pose proof (consume_refused (global_bucket generation) _ _ _ policy active _ _ _ _ Hv Hc Hact Hpol OK0 Hg) as R1.
  pose proof (consume_ok (global_bucket generation) _ _ _ policy active _ _ _ _ Hv Hc Hact Hpol Hg OK0) as OK1.
  destruct (rr_Allowed global) eqn:Ag; cbn [negb] in H1.
  2:{ injection H1 as <- <-. rewrite Ag. exists (global_bucket generation). split; [left|done]. }
  apply result_bind_Ok in H1 as ([b3 domain] & Hd & H1). pose proof (reclaim_ok generation (timestamptz (nanos (clock 1%nat) - rp_Window policy)) held _ _ _ OK1) as OK2.
  pose proof (consume_refused (domain_bucket generation iso) _ _ _ policy active _ _ _ _ Hv (Z.le_refl _) Hact Hpol OK2 Hd) as R3.
  pose proof (consume_ok (domain_bucket generation iso) _ _ _ policy active _ _ _ _ Hv (Z.le_refl _) Hact Hpol Hd OK2) as OK3.
  destruct (rr_Allowed domain) eqn:Ad; cbn [negb] in H1.
  2:{ injection H1 as <- <-. rewrite Ad. exists (domain_bucket generation iso). split; [right; left|done]. }
  apply result_bind_Ok in H1 as ([b4 cred] & Hcr & [= <- <-]).
  pose proof (consume_refused (credential_bucket generation iso credential) _ _ _ policy active _ _ _ _ Hv (Z.le_refl _) Hact Hpol OK3 Hcr) as R4.
  destruct (rr_Allowed cred); [done|]. exists (credential_bucket generation iso credential). split; [right; right; left|done].
Qed.

(** C36: Refusals are answered within bounds.  Whatever happened before, an answer of the
    limiter is one the HTTP layer accepts, so a refused client hears when to come back
    and not that authentication is unavailable; it is told to wait at most one interval
    of the bucket that refused it.  Only the policy that was activated last admits:
    a process with an older generation is refused. *)
Theorem refusals_bounded start t l before clock held iso token generation policy l' r :
  limiter_run (start, no_limiter) before (t, l) → (t ≤ clock 1%nat)%Z → (clock 0%nat ≤ clock 1%nat)%Z →
  api_AllowAuthentication clock held iso token generation policy l = Ok (l', r) →
  decision_Valid r = true ∧ generation = current_generation (lm_activations l)
  ∧ (rr_Allowed r = false → ∃ k, k ∈ charged (Admission iso (Sha256.Sum256 token) generation policy r)
       ∧ (0 < rr_RetryAfter r ≤ interval policy k)%Z).
Proof.
  intros R Ht Hc. destruct (run_ok _ _ _ R (no_limiter_ok _)) as [OK _]. cbn in OK. unfold api_AllowAuthentication.
  destruct (negb _); [done|]. intros ([l1 r1] & Ha & [= <- <-])%result_bind_Ok.
  destruct (allow_active _ _ _ _ _ _ _ _ _ Ha) as (Hcur & Hv & _). pose proof (allow_refused _ _ _ _ _ _ _ _ _ _ Ht Hc OK Ha) as Hr.
  unfold decision_Valid. destruct (rr_Allowed r1) eqn:Er; cbn; [done|]. destruct Hr as (k & Hin & Hb).
  split_and!; [|done|intros _; exists k; split; [exact Hin|done]]. apply bool_decide_eq_true.
  pose proof (interval_bounds policy Hv k) as [_ Hi]. pose proof (burst_positive policy Hv k) as [[? _] _].
  unfold policy_Valid in Hv. apply bool_decide_eq_true in Hv.
  unfold maximumAuthenticationRetryAfter, maximumAuthenticationRateLimitWindow in *. nia.
Qed.

(** ** Examples *)

Definition example_rate : AuthenticationRateLimitPolicy := MkRatePolicy 1000000000 4 4 1.
Definition example_activation : AuthenticationRateLimitPolicyActivation :=
  MkActivation authenticationRateLimitPolicyContract 1 example_rate "operator" "cor_00000000000000000001" (replicate 32 7%N).
Definition rate_domain := "iso_00000000000000000001".
Definition from_result {A} (a : A) (r : result A) : A := match r with Ok a' => a' | Err _ => a end.
Lemma from_result_ok {A} (a : A) r : is_ok r = true → r = Ok (from_result a r).
Proof. by destruct r. Qed.
Definition rates_on : limiter := from_result no_limiter (ActivateAuthenticationRateLimitPolicy example_activation no_limiter).
Definition ask_at (t : Z) (token : string) (l : limiter) : limiter * AuthenticationRateLimitResult :=
  from_result (l, MkRateResult false 0) (api_AllowAuthentication (λ _, t) (λ _, false) rate_domain token 1 example_rate l).

(** The second request of the same credential within the second is refused, and told to
    wait for the rest of it; one of another credential is admitted. *)
Example rates :
  let a := ask_at 10 "a" rates_on in let b := ask_at 20 "a" a.1 in let c := ask_at 30 "b" b.1 in
  (rr_Allowed a.2, rr_Allowed b.2, rr_RetryAfter b.2, rr_Allowed c.2) = (true, false, 999990000, true)%Z.
Proof. vm_compute. reflexivity. Qed.

(** An interval that is not a whole number of microseconds is cut short when it is
    stored.  This policy asks for 1500 nanoseconds between admissions, but a request every
    microsecond is admitted for ever: the theoretical arrival stays at the clock. *)
Definition fractional_rate : AuthenticationRateLimitPolicy := MkRatePolicy 1500000000 1000000 1000000 1000000.
Lemma fractional_interval_cut now k :
  policy_Valid fractional_rate = true ∧ interval fractional_rate k = 1500%Z
  ∧ let '(r, next) := advanceAuthenticationRateLimitBucket (nanos now) (nanos now) (rp_Window fractional_rate) (burst_of fractional_rate k) in
    rr_Allowed r = true ∧ timestamptz next = (now + 1)%Z.
Proof.
  assert (burst_of fractional_rate k = 1000000)%Z as Hb by (unfold burst_of; repeat case_decide; reflexivity).
  unfold interval. rewrite Hb. split_and!; [reflexivity|reflexivity|]. unfold advanceAuthenticationRateLimitBucket.
  change (rp_Window fractional_rate / 1000000)%Z with 1500%Z. rewrite decide_False by lia. split; [done|].
  rewrite Z.max_id, timestamptz_add. reflexivity.
Qed.

Lemma rates_on_run : limiter_run (0%Z, no_limiter) [] (0%Z, rates_on).
Proof. eapply (run_more _ _ _ [] []); [constructor|]. apply (step_activate 0 0 example_activation); [done|]. vm_compute. reflexivity. Qed.

Definition admit_at (t : Z) (l : limiter) : limiter * AuthenticationRateLimitResult :=
  from_result (l, MkRateResult false 0) (AllowAuthentication (λ _, t) (λ _, false) rate_domain (Sha256.Sum256 "a") 1 example_rate l).
Definition once : limiter := (admit_at 10 rates_on).1.
Definition first_admission : admission := Admission rate_domain (Sha256.Sum256 "a") 1 example_rate (admit_at 10 rates_on).2.

Lemma from_result_pair {A B} (a : A) (b : B) r : is_ok r = true → r = Ok ((from_result (a, b) r).1, (from_result (a, b) r).2).
Proof. by destruct r as [[]|]. Qed.

Lemma admit_step : limiter_step (0%Z, rates_on) [first_admission] (10%Z, once).
Proof.
  refine (step_allow 0 (λ _, 10%Z) (λ _, false) _ _ _ _ _ _ _ _ _ (from_result_pair rates_on (MkRateResult false 0) _ _)); [done|done|].
  vm_compute. reflexivity.
Qed.

Lemma ask_again_ok :
  api_AllowAuthentication (λ _, 20%Z) (λ _, false) rate_domain "a" 1 example_rate once = Ok ((ask_at 20 "a" once).1, (ask_at 20 "a" once).2).
Proof. refine (from_result_pair once (MkRateResult false 0) _ _). vm_compute. reflexivity. Qed.

Lemma rates_on_policy generation row :
  (1 ≤ generation)%Z → lm_activations once !! generation = Some row → ac_Policy (av_activation row) = example_rate.
Proof. assert (lm_activations once = {[1%Z := ActivationRow example_activation (policy_digest example_rate)]}) as -> by (vm_compute; reflexivity).
  intros _ [_ <-]%lookup_singleton_Some. done. Qed.

Lemma admissions_bounded_witness :
  (admitted "global" authenticationRateLimitGlobalDigest [first_admission] = 1
   ∧ admitted "global" authenticationRateLimitGlobalDigest [first_admission] ≤ 1 * 4 + nanos 10 / 250000000)%Z.
Proof.
  split; [vm_compute; reflexivity|].
  refine (proj2 (proj2 (admissions_bounded "global" authenticationRateLimitGlobalDigest 0 0 10 rates_on once [] [first_admission]
    rates_on_run (run_more _ _ _ [] [_] (run_none _) admit_step)) example_rate _ rates_on_policy) _); vm_compute; reflexivity.
Defined.

Lemma refusals_bounded_witness : rr_Allowed (ask_at 20 "a" once).2 = false ∧ decision_Valid (ask_at 20 "a" once).2 = true.
Proof.
  split; [vm_compute; reflexivity|].
  destruct (refusals_bounded 0 10 once [first_admission] (λ _, 20%Z) (λ _, false) rate_domain "a" 1 example_rate
    (ask_at 20 "a" once).1 (ask_at 20 "a" once).2 (run_more _ _ _ [] [_] rates_on_run admit_step)) as (H & _).
  - vm_compute. discriminate.
  - vm_compute. discriminate.
  - exact ask_again_ok.
  - exact H.
Defined.
