(* ===== verification/RuntimeTurn.v ===== *)
(** * One turn of a native agent

    The second half of the runtime driver: pending approvals and questions
    ([invocation_runtime_approval.go], [invocation_runtime_question.go]), the loop that
    owns a live turn, and the effect driver's two operations
    ([invocation_runtime_driver.go], [invocation_workspace_completion.go]). *)
From stdpp Require Import pretty.
From S2P Require Import Prelude.
From S2P Require Import CallLog.
From S2P Require Import GoStrings.
From S2P Require Import Sha256.
From S2P Require Import GoJson.
From S2P Require Import Questions.
From S2P Require Import RuntimeTables.
From S2P Require Import Database.
From S2P Require Import OperationStore.
From S2P Require Import RuntimeInteraction.
From S2P Require Import RuntimeApproval.
From S2P Require Import RuntimeQuestion.
From S2P Require Import Reconciler.
From S2P Require Import GatewayStore.
From S2P Require Import Drivers.
From S2P Require Import RuntimeOutput.
From S2P Require Import RuntimeRequest.
From S2P Require Import RuntimeDriver.

Definition ErrCanceled := ESentinel "context.Canceled".

(** A request the ledger holds open and the adapter's own name for it. *)
Abbreviation pending_approval_entry := (InvocationRuntimeApproval * string)%type.
Abbreviation pending_question_entry := (InvocationRuntimeQuestion * string)%type.

Record approval_set := MkApprovalSet { aset_pending : list pending_approval_entry; aset_next : nat }.

Definition InvocationApprovalPhaseEffect := "effect".

Definition maximumPendingRuntimeApprovals : Z := 256.

Section turn.
Context {W session owned : Type} `{RuntimeLibrary, ImageDecoder} (driver : InvocationRuntimeDriver W session owned).
Context (turn : Turn W) (target : InvocationRuntimeTarget) (effect : EffectRecord).
Implicit Types (c : context) (claim : OperationClaim) (event : Event).

(** ** Approvals *)

Definition approval_close c claim (pending : option pending_approval_entry) (reason : string)
  : io W (option pending_approval_entry * option error) :=
  match pending, ird_approvals driver with
  | Some (v, _), Some mediation =>
      e ← am_Close mediation c claim effect (apr_ID v) reason;
      mret (match e with None => (None, None) | Some err => (pending, Some err) end)
  | _, _ => mret (pending, None)
  end.

(** [record] of one request.  The answer's flag tells whether the event was of
    this kind. *)
Definition approval_record c claim event (ended : bool) (pending : option pending_approval_entry)
  : io W (option pending_approval_entry * (bool * option error)) :=
  if negb (has_prefix (ev_Type event) "interaction.approval.") then mret (pending, (false, None))
  else match ird_approvals driver, turn_ApprovalPending turn with
  | Some mediation, Some is_pending =>
      if decide (ev_Type event ≠ "interaction.approval.requested") then mret (pending, (true, Some ErrInvocationApprovalUnavailable))
      else
        let c := WithDeadline c (c_DeadlineAt claim) in
        let request (pending : option pending_approval_entry) :=
          match get_string (ev_Payload event) "approvalId", get_string (ev_Payload event) "action" with
          | Some id, Some action =>
              if negb (adapterApprovalIDPattern id) || negb (bool_decide (action ∈ ["process.execute"; "workspace.change"]))
                 || bool_decide (length (ev_Payload event) ≠ 2) || bool_decide (ev_Sequence event = 0%Z)
              then mret (pending, (true, Some ErrInvocationApprovalInvalid))
              else
                on_result (am_Record mediation c claim effect target (MkApprovalRequest None (ev_Sequence event) action))
                  (λ err, mret (pending, (true, Some err))) (λ v,
                if negb (approval_fits claim effect target (ev_Sequence event) action v)
                then mret (pending, (true, Some ErrInvocationRuntimeApprovalConflict))
                else if ended then '(pending, e) ← approval_close c claim (Some (v, id)) "runtime-ended"; mret (pending, (true, e))
                else mret (Some (v, id), (true, None)))
          | _, _ => mret (pending, (true, Some ErrInvocationApprovalInvalid))
          end in
        on_error (ready driver c) (λ err, mret (pending, (true, Some err))) (
        match pending with
        | None => request None
        | Some (v, adapterID) =>
            on_result (is_pending c adapterID) (λ err, mret (pending, (true, Some err))) (λ active,
            if (active : bool) then mret (pending, (true, Some ErrInvocationRuntimeApprovalConflict))
            else
              '(pending, e) ← approval_close c claim pending "runtime-request-cleared";
              match e with Some err => mret (pending, (true, Some err)) | None => request pending end)
        end)
  | _, _ => mret (pending, (true, Some ErrInvocationApprovalUnavailable))
  end.

(** The approval read back is decided by a user. *)
Definition approval_resolved_now (v : InvocationRuntimeApproval) : bool :=
  bool_decide (apr_Version v = 2%Z ∧ apr_Decision v ∈ ["approve"; "deny"] ∧ apr_ResolvedBy v ≠ ""
    ∧ apr_ResolutionCorrelationID v ≠ "" ∧ apr_ResolvedAt v ≠ None).

Definition approval_reserved (effective : string) (accepted v : InvocationRuntimeApproval) : bool :=
  sameRuntimeApprovalRequest v accepted
  && bool_decide (apr_State v = "delivering" ∧ apr_Version v = 3%Z ∧ apr_EffectiveDecision v = effective
       ∧ apr_Decision v = apr_Decision accepted ∧ apr_ResolvedBy v = apr_ResolvedBy accepted
       ∧ apr_ResolutionCorrelationID v = apr_ResolutionCorrelationID accepted ∧ apr_ResolvedAt v = apr_ResolvedAt accepted).

(** Hand over a decision that was reserved for delivery. *)
Definition approval_deliver (mediation : ApprovalMediation W) c claim (pending : option pending_approval_entry)
    (adapterID effective : string) (v : InvocationRuntimeApproval) : io W (option pending_approval_entry * option error) :=
  let deliveryCtx := WithDeadline c (c_LeaseExpiresAt claim) in
  let ambiguous err := mret (pending, Some (EJoin ErrInvocationRuntimeApprovalDeliveryAmbiguous err)) in
  on_error (ready driver deliveryCtx) ambiguous (
  on_error (turn_ResolveApproval turn deliveryCtx adapterID effective) ambiguous (
  on_error (ready driver c) (λ err, mret (pending, Some err)) (
  on_error (am_Complete mediation c claim effect (apr_ID v)) ambiguous (
  mret (None, None))))).

(** The part of [poll] after the store answered a decided approval. *)
Definition approval_decided (mediation : ApprovalMediation W) (is_pending : context → string → io W (result bool))
    c claim (pending : option pending_approval_entry) (adapterID : string) (accepted : InvocationRuntimeApproval)
  : io W (option pending_approval_entry * option error) :=
  let fail err := mret (pending, Some err) in
  let go_on effective :=
    on_error (ready driver c) fail (
    on_result (is_pending c adapterID) fail (λ active,
    if negb active then approval_close c claim pending "runtime-request-cleared"
    else
      on_result (am_Begin mediation c claim effect (apr_ID accepted) effective) fail (λ v,
      if negb (approval_reserved effective accepted v) then fail ErrInvocationRuntimeApprovalConflict
      else approval_deliver mediation c claim pending adapterID effective v))) in
  e ← am_Authorize mediation c accepted InvocationApprovalPhaseEffect;
  match e with
  | None => go_on (apr_Decision accepted)
  | Some err => if is_err err ErrInvocationApprovalDenied then go_on "deny" else fail err
  end.

Definition approval_poll c claim (pending : option pending_approval_entry)
  : io W (option pending_approval_entry * option error) :=
  match pending, ird_approvals driver, turn_ApprovalPending turn with
  | Some (original, adapterID), Some mediation, Some is_pending =>
      let c := WithDeadline c (instant (apr_ExpiresAt original)) in
      let fail err := mret (pending, Some err) in
      on_error (ready driver c) fail (
      on_result (is_pending c adapterID) fail (λ active,
      if negb active then approval_close c claim pending "runtime-request-cleared"
      else
        on_result (am_Get mediation c (apr_IsolationDomainID original) (apr_ID original)) fail (λ v,
        if negb (sameRuntimeApprovalRequest v original) then fail ErrInvocationRuntimeApprovalConflict
        else if decide (apr_State v = "pending") then
          if decide (apr_Version v ≠ 1%Z) then fail ErrInvocationRuntimeApprovalConflict else mret (pending, None)
        else if decide (apr_State v ∈ ["closed"; "expired"]) then fail ErrInvocationRuntimeApprovalExpired
        else if decide (apr_State v ∈ ["delivering"; "delivery_unknown"; "delivered"])
        then fail ErrInvocationRuntimeApprovalDeliveryAmbiguous
        else if decide (apr_State v = "resolved") then
          if negb (approval_resolved_now v) then fail ErrInvocationRuntimeApprovalConflict
          else approval_decided mediation is_pending c claim pending adapterID v
        else fail ErrInvocationApprovalInvalid)))
  | _, _, _ => mret (pending, None)
  end.

(** *** The set of pending approvals *)

Definition set_record c claim event (ended : bool) (set : approval_set) : io W (approval_set * (bool * option error)) :=
  if negb (has_prefix (ev_Type event) "interaction.approval.") then mret (set, (false, None))
  else if negb ended && (maximumPendingRuntimeApprovals <=? Z.of_nat (length (aset_pending set)))%Z
  then mret (set, (true, Some ErrInvocationApprovalUnavailable))
  else
    let id := default "" (get_string (ev_Payload event) "approvalId") in
    if existsb (λ entry : pending_approval_entry, bool_decide (entry.2 = id ∨ apr_SourceSequence entry.1 = ev_Sequence event)) (aset_pending set)
    then mret (set, (true, Some ErrInvocationRuntimeApprovalConflict))
    else
      '(current, answer) ← approval_record c claim event ended None;
      match current with
      | None => mret (set, answer)
      | Some (v, adapterID) =>
          if existsb (λ entry : pending_approval_entry, bool_decide (apr_ID entry.1 = apr_ID v)) (aset_pending set)
          then mret (set, (true, Some ErrInvocationRuntimeApprovalConflict))
          else mret (MkApprovalSet (aset_pending set ++ [(v, adapterID)]) (aset_next set), answer)
      end.

Definition set_poll c claim (set : approval_set) : io W (approval_set * option error) :=
  match aset_pending set with
  | [] => mret (set, None)
  | _ =>
      let next := if (length (aset_pending set) <=? aset_next set)%nat then 0 else aset_next set in
      match aset_pending set !! next with
      | None => mret (set, None)
      | Some entry =>
          '(current, e) ← approval_poll (WithDeadline c (c_LeaseExpiresAt claim)) claim (Some entry);
          match e with
          | Some err => mret (MkApprovalSet (aset_pending set) next, Some err)
          | None =>
              match current with
              | None => mret (MkApprovalSet (delete next (aset_pending set)) next, None)
              | Some _ => mret (MkApprovalSet (aset_pending set) (S next), None)
              end
          end
      end
  end.

(** [errors.Join(result, err)] *)
Definition join_error (result : option error) (err : error) : option error :=
  Some (match result with None => err | Some r => EJoin r err end).

Fixpoint close_each c claim (reason : string) (result : option error) (pending : list pending_approval_entry)
  : io W (list pending_approval_entry * option error) :=
  match pending with
  | [] => mret ([], result)
  | entry :: rest =>
      '(_, e) ← approval_close c claim (Some entry) reason;
      match e with
      | None => close_each c claim reason result rest
      | Some err => '(remaining, e) ← close_each c claim reason (join_error result err) rest; mret (entry :: remaining, e)
      end
  end.

Definition set_close c claim (reason : string) (set : approval_set) : io W (approval_set * option error) :=
  '(remaining, e) ← close_each c claim reason None (aset_pending set);
  mret (MkApprovalSet remaining 0, e).

(** ** Questions *)

Definition question_close c claim (pending : option pending_question_entry) (reason : string)
  : io W (option pending_question_entry * option error) :=
  match pending, ird_questions driver with
  | Some (v, _), Some mediation =>
      e ← qm_Close mediation c claim effect (qst_ID v) reason;
      mret (match e with None => (None, None) | Some err => (pending, Some err) end)
  | _, _ => mret (pending, None)
  end.

(** The part of [record] once no question is pending. *)
Definition question_request (mediation : QuestionMediation W) (timeout : Z) c claim event (ended : bool)
    (pending : option pending_question_entry) : io W (option pending_question_entry * (bool * option error)) :=
  let invalid := mret (pending, (true, Some ErrInvocationRuntimeQuestionInvalid)) in
  match get_string (ev_Payload event) "questionId", get (ev_Payload event) "questions",
        get_string (ev_Payload event) "expiresAt" ≫= time_Parse with
  | Some id, Some (APrompts prompts), Some expires =>
      if negb (adapterQuestionIDPattern id) || negb (is_ok (ValidateQuestionPrompts prompts))
         || bool_decide (length (ev_Payload event) ≠ 3) || bool_decide (ev_Sequence event = 0%Z) then invalid
      else
        now ← ird_now driver;
        if (timeout <=? 0)%Z || (now + timeout <? expires)%Z then invalid
        else
          let expires := (Z.min expires (c_DeadlineAt claim * 1000) `div` 1000)%Z in
          on_result (qm_Record mediation c claim effect target (MkQuestionRequest (ev_Sequence event) prompts (Some expires)))
            (λ err, mret (pending, (true, Some err))) (λ v,
          if negb (question_fits effect target (ev_Sequence event) expires prompts v)
          then mret (pending, (true, Some ErrInvocationRuntimeQuestionConflict))
          else if ended then '(pending, e) ← question_close c claim (Some (v, id)) "runtime-ended"; mret (pending, (true, e))
          else mret (Some (v, id), (true, None)))
  | _, _, _ => invalid
  end.

Definition question_record (enabled : bool) (timeout : Z) c claim event (ended : bool) (pending : option pending_question_entry)
  : io W (option pending_question_entry * (bool * option error)) :=
  if negb (has_prefix (ev_Type event) "interaction.question.") then mret (pending, (false, None))
  else match turn_questions turn, ird_questions driver with
  | Some qturn, Some mediation =>
      if negb enabled || bool_decide (ev_Type event ≠ "interaction.question.requested") then mret (pending, (true, Some ErrQuestionMode))
      else
        on_error (ready driver c) (λ err, mret (pending, (true, Some err))) (
        match pending with
        | None => question_request mediation timeout c claim event ended None
        | Some (v, adapterID) =>
            on_result (qt_QuestionPending qturn c adapterID) (λ err, mret (pending, (true, Some err))) (λ active,
            if (active : bool) then mret (pending, (true, Some ErrInvocationRuntimeQuestionConflict))
            else
              '(pending, e) ← question_close c claim pending "runtime-request-cleared";
              match e with
              | Some err => mret (pending, (true, Some err))
              | None => question_request mediation timeout c claim event ended pending
              end)
        end)
  | _, _ => mret (pending, (true, Some ErrQuestionMode))
  end.

Definition question_reserved (accepted v : InvocationRuntimeQuestion) : bool :=
  bool_decide (qst_State v = "delivering" ∧ qst_Version v = 3%Z) && sameRuntimeQuestionRequest v accepted
  && bool_decide (qst_AnsweredBy v = qst_AnsweredBy accepted ∧ qst_AnswerCorrelationID v = qst_AnswerCorrelationID accepted
       ∧ qst_AnsweredAt v = qst_AnsweredAt accepted ∧ qst_Answers v = qst_Answers accepted).

(** The check the store calls back with, inside its transaction. *)
Definition question_authorize (mediation : QuestionMediation W) c (accepted : InvocationRuntimeQuestion)
    (asked : InvocationRuntimeQuestion * string) : io W (option error) :=
  if negb (sameRuntimeQuestionRequest asked.1 accepted)
     || bool_decide (qst_Version asked.1 ≠ 2%Z ∨ qst_State asked.1 ≠ "answered" ∨ asked.2 ≠ InvocationQuestionEffect)
  then mret (Some ErrInvocationRuntimeQuestionConflict)
  else on_error (ready driver c) (λ err, mret (Some err)) (qm_Authorize mediation c asked.1 asked.2).

Definition question_answered (mediation : QuestionMediation W) (qturn : QuestionTurn W) c claim
    (pending : option pending_question_entry) (adapterID : string) (accepted : InvocationRuntimeQuestion)
  : io W (option pending_question_entry * option error) :=
  let fail err := mret (pending, Some err) in
  let ambiguous err := mret (pending, Some (EJoin ErrInvocationRuntimeQuestionDeliveryAmbiguous err)) in
  on_error (ready driver c) fail (
  on_result (a ← qm_Begin mediation c claim effect (qst_ID accepted); run_asking (question_authorize mediation c accepted) a) fail (λ v,
  if negb (question_reserved accepted v) then fail ErrInvocationRuntimeQuestionConflict
  else
    on_error (ready driver c) fail (
    let deliveryCtx := WithDeadline c (Z.min (qst_ExpiresAt v) (c_LeaseExpiresAt claim)) in
    on_error (qt_AnswerQuestion qturn deliveryCtx adapterID (qst_Answers v)) ambiguous (
    on_error (qm_Complete mediation c claim effect (qst_ID v)) ambiguous (
    mret (None, None)))))).

Definition question_poll c claim (pending : option pending_question_entry)
  : io W (option pending_question_entry * option error) :=
  match pending, ird_questions driver, turn_questions turn with
  | Some (original, adapterID), Some mediation, Some qturn =>
      let fail err := mret (pending, Some err) in
      on_result (qt_QuestionPending qturn c adapterID) fail (λ active,
      if negb active then question_close c claim pending "runtime-request-cleared"
      else
        on_result (qm_Get mediation c (qst_IsolationDomainID original) (qst_InvocationID original) (qst_ID original)) fail (λ v,
        if negb (sameRuntimeQuestionRequest v original) then fail ErrInvocationRuntimeQuestionConflict
        else if decide (qst_State v = "pending") then
          if decide (qst_Version v ≠ 1%Z) then fail ErrInvocationRuntimeQuestionConflict else mret (pending, None)
        else if decide (qst_State v ∈ ["closed"; "expired"]) then fail ErrInvocationRuntimeQuestionExpired
        else if decide (qst_State v ∈ ["delivering"; "delivery_unknown"; "delivered"])
        then fail ErrInvocationRuntimeQuestionDeliveryAmbiguous
        else if decide (qst_State v = "answered") then
          if negb (bool_decide (qst_Version v = 2%Z) && is_ok (ValidateQuestionAnswers (qst_Prompts original) (qst_Answers v)))
          then fail ErrInvocationRuntimeQuestionConflict
          else question_answered mediation qturn c claim pending adapterID v
        else fail ErrInvocationRuntimeQuestionConflict))
  | _, _, _ => mret (pending, None)
  end.

(** ** The loop that owns the turn *)

(** What changes while the turn runs: the claim (renewed), the open requests, the
    output so far, whether a cancellation was seen and whether the event channel is
    still open. *)
Record turn_state := MkTurnState {
  ts_claim : OperationClaim; ts_approvals : approval_set; ts_question : option pending_question_entry;
  ts_output : invocationRuntimeOutput; ts_interrupted : bool; ts_open : bool }.

Definition with_claim (st : turn_state) claim : turn_state :=
  MkTurnState claim (ts_approvals st) (ts_question st) (ts_output st) (ts_interrupted st) (ts_open st).
Definition with_approvals (st : turn_state) (set : approval_set) : turn_state :=
  MkTurnState (ts_claim st) set (ts_question st) (ts_output st) (ts_interrupted st) (ts_open st).
Definition with_question (st : turn_state) (question : option pending_question_entry) : turn_state :=
  MkTurnState (ts_claim st) (ts_approvals st) question (ts_output st) (ts_interrupted st) (ts_open st).
Definition with_output (st : turn_state) (output : invocationRuntimeOutput) (interrupted : bool) : turn_state :=
  MkTurnState (ts_claim st) (ts_approvals st) (ts_question st) output interrupted (ts_open st).
Definition closed_events (st : turn_state) : turn_state :=
  MkTurnState (ts_claim st) (ts_approvals st) (ts_question st) (ts_output st) (ts_interrupted st) false.

Definition set_artifact (o : invocationRuntimeOutput) (reference : option MessageArtifact) : invocationRuntimeOutput :=
  MkOutput (out_structured o) (out_text o) reference (out_messageSequence o) (out_sawDelta o) (out_seen o) (out_validator o) (out_invalid o).

Definition consume (questionsEnabled : bool) (questionTimeout : Z) c (ended : bool) (st : turn_state) event
  : io W (turn_state * option error) :=
  '(question, (handled, e)) ← question_record questionsEnabled questionTimeout c (ts_claim st) event ended (ts_question st);
  let st := with_question st question in
  if (handled : bool) then mret (st, e)
  else
    '(set, (handled, e)) ← set_record c (ts_claim st) event ended (ts_approvals st);
    let st := with_approvals st set in
    if (handled : bool) then mret (st, e)
    else
      on_result (recordRuntimeOutput driver c (ts_claim st) effect target event) (λ err, mret (st, Some err)) (λ reference,
      let interrupted := ts_interrupted st || bool_decide (ev_Type event = "lifecycle.cancelled") in
      let output := output_Observe (ts_output st) event in
      let output := if decide (ev_Type event = MessageCompletedEvent ∧ out_messageSequence output = ev_Sequence event)
                    then set_artifact output reference else output in
      mret (with_output st output interrupted, None)).

(** Both close calls the loop makes when the turn has ended. *)
Definition close_interactions c (st : turn_state) : io W (turn_state * option error) :=
  '(question, e) ← question_close c (ts_claim st) (ts_question st) "runtime-ended";
  let st := with_question st question in
  match e with
  | Some err => mret (st, Some err)
  | None =>
      '(set, e) ← set_close c (ts_claim st) "runtime-ended" (ts_approvals st);
      mret (with_approvals st set, e)
  end.

(** [drainRuntimeEvents]: what is in the channel's buffer; [fuel] bounds its length,
    and [None] means it was not enough. *)
Fixpoint drainRuntimeEvents (questionsEnabled : bool) (questionTimeout : Z) c (fuel : nat) (st : turn_state)
  : io W (option (turn_state * option error)) :=
  if negb (ts_open st) then mret (Some (st, None))
  else match fuel with
  | O => mret None
  | S fuel =>
      r ← turn_receive turn;
      match r with
      | RecvEmpty | RecvClosed => mret (Some (st, None))
      | RecvEvent event =>
          '(st, e) ← consume questionsEnabled questionTimeout c true st event;
          match e with Some err => mret (Some (st, Some err)) | None => drainRuntimeEvents questionsEnabled questionTimeout c fuel st end
      end
  end.

Definition interruptInvocationRuntimeTurn c : io W unit :=
  _ ← turn_Interrupt turn (Detached c 2000000); mret tt.

Definition declaration_record (declaration : ArtifactDeclaration) (content : string) : ArtifactRecord :=
  MkArtifact InvocationArtifactSchemaV1 (rtg_IsolationDomainID target)
    (Identity.Derived "art" (rtg_IsolationDomainID target +:+ ":" +:+ rtg_InvocationID target +:+ ":" +:+ dec_ID declaration))
    (rtg_InvocationID target) (rtg_OperationID target) (e_EffectID effect) (dec_Name declaration) (dec_Kind declaration)
    (dec_MediaType declaration) (go_len content) (Sha256.digest_string content) true "".

Fixpoint publishInvocationArtifacts c claim (ref : ExecutionRef) (declarations : list ArtifactDeclaration)
  : io W (result OperationClaim) :=
  match declarations with
  | [] => mret (Ok claim)
  | declaration :: rest =>
      let fail err := mret (Err err) in
      on_error (ready driver c) fail (
      on_result (st_RenewLease (ird_store driver) c claim) fail (λ claim,
      on_result (ird_Export driver c ref (dec_SandboxPath declaration)) fail (λ exported,
      if decide (ex_IsolationDomainID exported ≠ ref_IsolationDomainID ref ∨ ex_ExecutionID exported ≠ ref_ID ref)
      then fail ErrInvocationRuntimeTargetMismatch
      else
        on_result (ird_Finalize driver c (MkFinalization (artifact_binding claim (declaration_record declaration (ex_Content exported)))
          (ex_Content exported))) fail (λ _,
        publishInvocationArtifacts c claim ref rest))))
  end.

(** [retainInvalidRuntimeOutput]; every path ends in an error. *)
Definition retainInvalidRuntimeOutput c claim (sequence : Z) : io W error :=
  let c := WithDeadline c (c_DeadlineAt claim) in
  let ambiguous err := mret (EJoin ErrAmbiguousEffect err) in
  let store := ird_store driver in
  on_error (ready driver c) ambiguous (
  on_result (st_RenewLease store c claim) ambiguous (λ claim,
  on_result (st_PrepareInvocationRuntimeOutputFailure store c claim effect sequence) ambiguous (λ failure,
  on_result (st_GetClaimedInvocationRuntimeTarget store c claim) ambiguous (λ target,
  if negb (invocationRuntimeTargetMatchesClaim target claim) then ambiguous ErrInvocationRuntimeTargetMismatch
  else on_result (ird_Build driver target) ambiguous (λ request,
  match driver_validateInvocationRuntimeRequest driver request with
  | Err err => ambiguous err
  | Ok _ =>
      on_error (ird_Authorize driver c target request) ambiguous (
      on_error (ready driver c) ambiguous (
      on_result (st_RenewLease store c claim) ambiguous (λ claim,
      let fail_attempt :=
        on_error (ready driver c) ambiguous (
        on_error (st_FailInvocationRuntimeAttempt store c claim effect (of_Result failure)) ambiguous (
        mret (EJoin ErrEffectTerminal ErrInvocationRuntimeOutputInvalid))) in
      if of_Retained failure then fail_attempt
      else on_result (ird_Finalize driver c (of_Artifact failure)) ambiguous (λ _, fail_attempt))))
  end))))).

Definition runtime_failure (code : string) : payload := [("code", AStr code); ("status", AStr "failed")].

(** The turn ended: [waitErr] is the answer of [turn.Wait]. *)
Definition turn_ended (fuel : nat) (questionsEnabled : bool) (questionTimeout : Z) c (ref : ExecutionRef)
    (declarations : list ArtifactDeclaration) (finish : option (context → OperationClaim → io W (option error)))
    (waitErr : option error) (st : turn_state) : io W (option (turn_state * result payload)) :=
  let stop st err := mret (Some (st, Err (EJoin ErrAmbiguousEffect err))) in
  let finish_then st (k : io W (option (turn_state * result payload))) :=
    match finish with None => k | Some f => on_error (f c (ts_claim st)) (stop st) k end in
  '(st, e) ← close_interactions c st;
  match e with Some err => stop st err | None =>
  on_error (ready driver c) (stop st) (
  drained ← drainRuntimeEvents questionsEnabled questionTimeout c fuel st;
  match drained with None => mret None | Some (st, e) =>
  match e with Some err => stop st err | None =>
  '(st, e) ← close_interactions c st;
  match e with Some err => stop st err | None =>
  let waitErr := match waitErr with None => if ts_interrupted st then Some ErrTurnInterrupted else None | e => e end in
  match waitErr with
  | Some err =>
      if is_err err ErrTurnFailed || is_err err ErrTurnInterrupted then
        let code := if is_err err ErrTurnInterrupted then "RUNTIME_TURN_INTERRUPTED" else "RUNTIME_TURN_FAILED" in
        on_error (st_FailInvocationRuntimeAttempt (ird_store driver) c (ts_claim st) effect (runtime_failure code))
          (λ e, stop st (EJoin err e)) (
        finish_then st (mret (Some (st, Err (EJoin ErrEffectTerminal err)))))
      else stop st err
  | None =>
      match output_Result (ts_output st) with
      | Err resultErr =>
          if (0 <? out_messageSequence (ts_output st))%Z then
            err ← retainInvalidRuntimeOutput c (ts_claim st) (out_messageSequence (ts_output st));
            if is_err err ErrEffectTerminal then finish_then st (mret (Some (st, Err err))) else mret (Some (st, Err err))
          else
            on_error (st_FailInvocationRuntimeAttempt (ird_store driver) c (ts_claim st) effect (runtime_failure "RUNTIME_OUTPUT_INVALID"))
              (λ e, stop st (EJoin resultErr e)) (
            finish_then st (mret (Some (st, Err (EJoin ErrEffectTerminal resultErr)))))
      | Ok result =>
          on_result (publishInvocationArtifacts c (ts_claim st) ref declarations) (stop st) (λ claim,
          let st := with_claim st claim in
          on_error (ready driver c) (stop st) (
          on_error (st_CompleteInvocationRuntimeAttempt (ird_store driver) c claim effect result) (stop st) (
          finish_then st (mret (Some (st, Ok result))))))
      end
  end end end end) end.

(** The [select] loop.  [None]: still running after [fuel] rounds.  A case whose
    channel is nil is never ready; if it is offered all the same, nothing happens. *)
Fixpoint run_loop (fuel : nat) (questionsEnabled : bool) (questionTimeout : Z) c (ref : ExecutionRef)
    (declarations : list ArtifactDeclaration) (finish : option (context → OperationClaim → io W (option error)))
    (st : turn_state) : io W (option (turn_state * result payload)) :=
  match fuel with
  | O => mret None
  | S fuel =>
      let again := run_loop fuel questionsEnabled questionTimeout c ref declarations finish in
      let abandon st err :=
        _ ← interruptInvocationRuntimeTurn c; mret (Some (st, Err (EJoin ErrAmbiguousEffect err))) in
      case ← turn_select turn;
      match case with
      | SelEvent event =>
          if negb (ts_open st) then again st
          else
            '(st, e) ← consume questionsEnabled questionTimeout c false st event;
            match e with Some err => abandon st err | None => again st end
      | SelClosed => again (closed_events st)
      | SelPoll =>
          if negb (questionsEnabled || match ird_approvals driver with Some _ => true | None => false end) then again st
          else
            '(set, e) ← set_poll c (ts_claim st) (ts_approvals st);
            let st := with_approvals st set in
            match e with Some err => abandon st err | None =>
            '(question, e) ← question_poll c (ts_claim st) (ts_question st);
            let st := with_question st question in
            match e with Some err => abandon st err | None => again st end end
      | SelWaited waitErr => turn_ended fuel questionsEnabled questionTimeout c ref declarations finish waitErr st
      | SelRenew =>
          on_error (ready driver c) (abandon st) (
          on_result (st_RenewLease (ird_store driver) c (ts_claim st)) (abandon st) (λ claim, again (with_claim st claim)))
      | SelDone err => abandon st err
      end
  end.

(** The deferred closing of what is still open, first the question. *)
Definition close_deferred c (st : turn_state) (r : result payload) : io W (result payload) :=
  let cleanup := Detached c 2000000 in
  let with_error (r : result payload) err : result payload :=
    match r with
    | Ok _ => Err (EJoin ErrAmbiguousEffect err)
    | Err e => Err (EJoin e (EJoin ErrAmbiguousEffect err))
    end in
  '(_, e) ← question_close cleanup (ts_claim st) (ts_question st) "runtime-ended";
  let r := match e with Some err => with_error r err | None => r end in
  match aset_pending (ts_approvals st) with
  | [] => mret r
  | _ =>
      let reason := match r with Err e => if is_err e ErrCanceled then "cancelled" else "runtime-ended" | Ok _ => "runtime-ended" end in
      '(_, e) ← set_close cleanup (ts_claim st) reason (ts_approvals st);
      mret (match e with Some err => with_error r err | None => r end)
  end.

Definition runTurn (fuel : nat) c claim (output : invocationRuntimeOutput) (ref : ExecutionRef)
    (declarations : list ArtifactDeclaration) (questionsEnabled : bool) (questionTimeout : Z)
    (finish : option (context → OperationClaim → io W (option error))) : io W (option (result payload)) :=
  let runCtx := WithDeadline c (c_DeadlineAt claim) in
  match questionsEnabled, turn_questions turn with
  | true, None => mret (Some (Err (EJoin ErrAmbiguousEffect ErrQuestionMode)))
  | _, _ =>
      ended ← run_loop fuel questionsEnabled questionTimeout runCtx ref declarations finish
                (MkTurnState claim (MkApprovalSet [] 0) None output false true);
      match ended with
      | None => mret None
      | Some (st, r) => r ← close_deferred c st r; mret (Some r)
      end
  end.
End turn.

(** ** The effect driver *)

Section effect_driver.
Context {W session owned : Type} `{RuntimeLibrary, ImageDecoder} (driver : InvocationRuntimeDriver W session owned).
Implicit Types (c : context) (claim : OperationClaim) (effect : EffectRecord) (target : InvocationRuntimeTarget).

Definition finishWorkspace c claim effect target (ref : ExecutionRef) (request : StartRequest) (owner : option owned)
  : io W (option error) :=
  match ird_completion driver with
  | None => mret None
  | Some (_, confirm, export) =>
      let fail err := mret (Some err) in
      let check c := on_error (ready driver c) fail (ird_Authorize driver c target request) in
      on_error (check c) fail (
      on_result (st_RenewLease (ird_store driver) c claim) fail (λ renewed,
      let export_changes := (a ← export c renewed effect ref; run_asking check a) in
      match owner with
      | None => export_changes
      | Some owner => on_error (a ← confirm c renewed effect ref owner; run_asking check a) fail export_changes
      end))
  end.

Definition startRuntimeSession c effect target (ref : ExecutionRef) (request : StartRequest)
  : io W (result ((session + owned) * option (context → OperationClaim → io W (option error)))) :=
  match ird_completion driver with
  | None => on_result (ird_StartRuntime driver c ref) (λ err, mret (Err err)) (λ s, mret (Ok (inl s, None)))
  | Some (start, _, _) =>
      on_result (start c ref) (λ err, mret (Err (EJoin ErrAmbiguousEffect (EJoin ErrWorkspaceQuiescence err)))) (λ s,
      mret (Ok (inr s, Some (λ c claim, finishWorkspace c claim effect target ref request (Some s)))))
  end.

Definition recoverWorkspace c claim effect : io W (option error) :=
  match ird_completion driver with
  | None => mret None
  | Some _ =>
      let fail err := mret (Some err) in
      on_result (st_GetClaimedInvocationRuntimeTarget (ird_store driver) c claim) fail (λ target,
      if negb (invocationRuntimeTargetMatchesClaim target claim) then fail ErrInvocationRuntimeTargetMismatch
      else on_result (ird_GetExecutionByOperation driver c (c_IsolationDomainID claim) (c_ID claim)) fail (λ value,
      if decide (x_IsolationDomainID value ≠ c_IsolationDomainID claim ∨ x_ID value = "") then fail ErrInvocationRuntimeTargetMismatch
      else on_result (ird_Build driver target) fail (λ request,
      match driver_validateInvocationRuntimeRequest driver request with
      | Err err => fail err
      | Ok _ =>
          finishWorkspace c claim effect target (MkExecutionRef (x_IsolationDomainID value) (x_ID value)) request None
      end)))
  end.

(** The error an attempt that failed is reported with again. *)
Definition recorded_failure (result : option json) : error :=
  match result with
  | Some (JObj fields) =>
      match field_lookup fields "code" with
      | Some (JStr code) =>
          if decide (code = "RUNTIME_TURN_INTERRUPTED") then ErrTurnInterrupted
          else if decide (code = "RUNTIME_OUTPUT_INVALID") then ErrInvocationRuntimeOutputInvalid else ErrTurnFailed
      | _ => ErrTurnFailed
      end
  | _ => ErrTurnFailed
  end.

Definition runtime_ObserveClaimed c claim effect : io W (result (option json * bool)) :=
  let fail err := mret (Err err) in
  if negb (invocationRuntimeEffectMatchesClaim claim effect) then fail (EJoin ErrEffectInvalid ErrInvocationRuntimeTargetMismatch)
  else
    on_error (ready driver c) fail (
    r ← st_GetInvocationRuntimeAttempt (ird_store driver) c (e_IsolationDomainID effect) (e_OperationID effect);
    match r with
    | Err err => if is_err err ErrInvocationRuntimeAttemptMissing then mret (Ok (None, false)) else fail err
    | Ok attempt =>
        let recovered k := on_error (recoverWorkspace c claim effect) (λ err, fail (EJoin ErrAmbiguousEffect err)) k in
        if decide (att_EffectID attempt ≠ e_EffectID effect) then fail (EJoin ErrEffectInvalid ErrInvocationRuntimeAttemptConflict)
        else if decide (att_Status attempt = "succeeded") then recovered (mret (Ok (att_Result attempt, true)))
        else if decide (att_Status attempt = "failed") then
          recovered (fail (EJoin ErrEffectTerminal (recorded_failure (att_Result attempt))))
        else if decide (att_Status attempt = "output_invalid") then
          err ← retainInvalidRuntimeOutput driver effect c claim 0;
          if is_err err ErrEffectTerminal then recovered (fail err) else fail err
        else if decide (att_Status attempt = "reserved") then fail (EJoin ErrAmbiguousEffect ErrInvocationRuntimeAttemptAmbiguous)
        else fail ErrInvocationRuntimeAttemptConflict
    end).

(** From a running session to the end of the turn; the session is closed with the
    adapter, on every path. *)
Definition with_session (fuel : nat) c claim effect target (ref : ExecutionRef) (request : StartRequest)
    (output : invocationRuntimeOutput) (sourcePrepared : bool)
    (started : (session + owned) * option (context → OperationClaim → io W (option error))) : io W (option (result payload)) :=
  let fail err := mret (Some (Err err)) in
  r ← ird_New driver started.1;
  match r with
  | Err err => _ ← ird_CloseSession driver started.1; fail err
  | Ok adapter =>
      let start_turn : io W (option (result payload)) :=
        r ← adapter_Start adapter c request;
        match r with
        | Err err => fail (EJoin ErrAmbiguousEffect err)
        | Ok turn =>
            r ← runTurn driver turn target effect fuel c claim output ref (sr_Artifacts request)
                  (bool_decide (sr_QuestionMode request = QuestionInteractive)) (sr_QuestionTimeout request) started.2;
            match r with None => mret None | Some r => _ ← turn_Close turn; mret (Some r) end
        end in
      r ← (if sourcePrepared then start_turn
           else on_error (st_BeginInvocationRuntimeAttempt (ird_store driver) c claim effect) fail start_turn);
      match r with None => mret None | Some r => _ ← adapter_Close adapter; mret (Some r) end
  end.

(** Authorise once more; a denial rejects the effect. *)
Definition authorize_runtime c target (request : StartRequest) : io W (option error) :=
  on_error (ird_Authorize driver c target request)
    (λ err, mret (Some (if is_err err ErrInvocationRuntimeDenied then EJoin ErrEffectDenied err else err))) (mret None).

(** From an authorised request to a running session. *)
Definition start_session (fuel : nat) c claim effect target (ref : ExecutionRef) (request : StartRequest)
    (output : invocationRuntimeOutput) : io W (option (result payload)) :=
  let fail err := mret (Some (Err err)) in
  let check c := on_error (authorize_runtime c target request) (λ err, mret (Some err)) (ready driver c) in
  let session :=
    on_result (st_CheckInvocationWorkspacePreparation (ird_store driver) c claim effect) fail (λ sourcePrepared,
    if negb sourcePrepared && match ird_prepare driver with Some _ => true | None => false end then fail ErrWorkspacePreparation
    else
      let go := on_result (startRuntimeSession c effect target ref request) fail
                  (with_session fuel c claim effect target ref request output sourcePrepared) in
      if (sourcePrepared : bool) then on_error (st_BeginInvocationRuntimeAttempt (ird_store driver) c claim effect) fail go else go) in
  match ird_prepare driver with
  | None => session
  | Some prepare =>
      on_error (a ← prepare c claim effect target ref; run_asking check a) fail (
      on_error (check c) fail session)
  end.

Definition runtime_ApplyClaimed (fuel : nat) c claim effect : io W (option (result payload)) :=
  let fail err := mret (Some (Err err)) in
  let store := ird_store driver in
  if negb (invocationRuntimeEffectMatchesClaim claim effect) then fail (EJoin ErrEffectInvalid ErrInvocationRuntimeTargetMismatch)
  else
    on_error (ready driver c) fail (
    let c := WithDeadline c (c_DeadlineAt claim) in
    on_result (st_GetClaimedInvocationRuntimeTarget store c claim)
      (λ err, fail (if is_err err ErrInvocationRuntimeTargetMissing then EJoin ErrEffectInvalid err else err)) (λ target,
    if negb (invocationRuntimeTargetMatchesClaim target claim) then fail (EJoin ErrEffectInvalid ErrInvocationRuntimeTargetMismatch)
    else
      on_result (ird_GetExecutionByOperation driver c (rtg_IsolationDomainID target) (rtg_OperationID target))
        (λ err, fail (if is_err err ErrExecutionMissing then EJoin ErrAmbiguousEffect ErrInvocationRuntimeExecutionUnknown else err)) (λ value,
      if decide (x_IsolationDomainID value ≠ rtg_IsolationDomainID target ∨ x_ID value = "")
      then fail (EJoin ErrEffectInvalid ErrInvocationRuntimeTargetMismatch)
      else
        let ref := MkExecutionRef (rtg_IsolationDomainID target) (x_ID value) in
        on_result (ird_Observe driver c ref) fail (λ observation,
        if decide (ob_IsolationDomainID observation ≠ ref_IsolationDomainID ref ∨ ob_ExecutionID observation ≠ ref_ID ref
                   ∨ ob_State observation = "")
        then fail (EJoin ErrAmbiguousEffect ErrInvocationRuntimeTargetMismatch)
        else if decide (ob_State observation = "terminated")
        then fail (EJoin ErrEffectTerminal ErrInvocationRuntimeExecutionTerminated)
        else if decide (ob_State observation ≠ "ready") then fail ErrInvocationRuntimeExecutionNotReady
        else on_result (ird_Build driver target) (λ err, fail (EJoin ErrEffectInvalid err)) (λ request,
        match driver_validateInvocationRuntimeRequest driver request with
        | Err err => fail (EJoin ErrEffectInvalid err)
        | Ok _ =>
            match newInvocationRuntimeOutput (sr_OutputSchema request) with
            | Err err => fail (EJoin ErrEffectInvalid err)
            | Ok output =>
                on_result (st_RenewLease store c claim) fail (λ claim,
                on_error (authorize_runtime c target request) fail (
                on_error (ready driver c) fail (
                start_session fuel c claim effect target ref request output)))
            end
        end))))).
End effect_driver.
