(* ===== verification/RuntimeLogic.v ===== *)
(** * A logic for the calls of the runtime driver

    Properties of call logs that hold of the empty log and survive concatenation can
    be checked call by call.  [always P m]: every run of [m] adds calls with [P]. *)
From S2P Require Import Prelude.
From S2P Require Import CallLog.
From S2P Require Import GoStrings.
From S2P Require Import GoJson.
From S2P Require Import Questions.
From S2P Require Import RuntimeTables.
From S2P Require Import Database.
From S2P Require Import OperationStore.
From S2P Require Import RuntimeInteraction.
From S2P Require Import RuntimeApproval.
From S2P Require Import RuntimeQuestion.
From S2P Require Import Reconciler.
From S2P Require Import GatewayStore.
From S2P Require Import Drivers.
From S2P Require Import RuntimeOutput.
From S2P Require Import RuntimeRequest.
From S2P Require Import RuntimeDriver.
From S2P Require Import RuntimeTurn.

(** * The calls of the runtime driver

    The driver over a world that remembers its calls, and which calls each of its
    parts can make at all. *)

(** ** Calls *)

Inductive rt_call :=
  | RTarget (claim : OperationClaim) (answer : result InvocationRuntimeTarget)
  | RAttempt (isolationDomainID operationID : string) (answer : result InvocationRuntimeAttempt)
  | RObserve (ref : ExecutionRef) (answer : result Observation)
  | RAuthorize (target : InvocationRuntimeTarget) (request : StartRequest) (answer : option error)
  | RRenew (claim : OperationClaim) (answer : result OperationClaim)
  | RBegin (claim : OperationClaim) (effect : EffectRecord) (answer : option error)
  | RSession (ref : ExecutionRef) (started : bool)
  | RStart (request : StartRequest) (started : bool)
  | RJournal (claim : OperationClaim) (event : InvocationRuntimeEvent) (answer : option error)
  | RFinalize (finalization : Finalization) (answer : result ArtifactRecord)
  | RExport (ref : ExecutionRef) (path : string) (answer : result ExportResult)
  | RComplete (claim : OperationClaim) (effect : EffectRecord) (result : payload) (answer : option error)
  | RFail (claim : OperationClaim) (effect : EffectRecord) (result : payload) (answer : option error)
  | RSelect (case : selected)
  | RReceive (received : received)
  | AOpen (claim : OperationClaim) (effect : EffectRecord) (target : InvocationRuntimeTarget)
      (request : InvocationRuntimeApprovalRequest) (answer : result InvocationRuntimeApproval)
  | AGet (answer : result InvocationRuntimeApproval)
  | AAuthorize (approval : InvocationRuntimeApproval) (phase : string) (answer : option error)
  | ABegin (id decision : string) (answer : result InvocationRuntimeApproval)
  | AResolve (c : context) (adapterID decision : string) (answer : option error)
  | AComplete (id : string) (answer : option error)
  | AClose (id reason : string) (answer : option error)
  | QOpen (effect : EffectRecord) (target : InvocationRuntimeTarget) (request : InvocationRuntimeQuestionRequest)
      (answer : result InvocationRuntimeQuestion)
  | QGet (answer : result InvocationRuntimeQuestion)
  | QAuthorize (question : InvocationRuntimeQuestion) (phase : string) (answer : option error)
  | QBegin (id : string)
  | QAnswer (c : context) (adapterID : string) (answers : list QuestionAnswer) (answer : option error)
  | QComplete (id : string) (answer : option error)
  | QClose (id reason : string) (answer : option error).

Section logged.
Context {W : Type}.
Abbreviation L := (W * list rt_call)%type.

Fixpoint logged_asking {Q A} (a : asking W Q A) : asking L Q A :=
  match a with
  | Answered x => Answered x
  | Asking q resume => Asking q (λ e '(w, l), let '(w', a') := resume e w in ((w', l), logged_asking a'))
  end.
Definition asking_silently {Q A} (m : io W (asking W Q A)) : io L (asking L Q A) :=
  λ '(w, l), let '(w', a) := m w in ((w', l), logged_asking a).
Definition asking_logging {Q A} (call : rt_call) (m : io W (asking W Q A)) : io L (asking L Q A) :=
  λ '(w, l), let '(w', a) := m w in ((w', l ++ [call]), logged_asking a).

(** Run a call that hands out a collaborator, and remember the calls of that too. *)
Definition logging_as {A B} (f : A → B) (call : A → rt_call) (m : io W A) : io L B :=
  λ '(w, l), let '(w', a) := m w in ((w', l ++ [call a]), f a).
Definition silently_as {A B} (f : A → B) (m : io W A) : io L B :=
  λ '(w, l), let '(w', a) := m w in ((w', l), f a).

Definition logged_turn (t : Turn W) : Turn L := {|
  turn_select := logging RSelect (turn_select t);
  turn_receive := logging RReceive (turn_receive t);
  turn_ResolveApproval c id decision := logging (AResolve c id decision) (turn_ResolveApproval t c id decision);
  turn_Interrupt c := silently (turn_Interrupt t c);
  turn_Close := silently (turn_Close t);
  turn_ApprovalPending := (λ f c id, silently (f c id)) <$> turn_ApprovalPending t;
  turn_questions := (λ q, {|
    qt_QuestionPending c id := silently (qt_QuestionPending q c id);
    qt_AnswerQuestion c id answers := logging (QAnswer c id answers) (qt_AnswerQuestion q c id answers) |}) <$> turn_questions t |}.

Definition logged_adapter (a : Adapter W) : Adapter L := {|
  adapter_Start c request := logging_as (fmap logged_turn) (λ r, RStart request (is_ok r)) (adapter_Start a c request);
  adapter_Close := silently (adapter_Close a) |}.

Definition logged_runtime_store (s : InvocationRuntimeStore W) : InvocationRuntimeStore L := {|
  st_CheckInvocationWorkspacePreparation c claim effect := silently (st_CheckInvocationWorkspacePreparation s c claim effect);
  st_PrepareInvocationRuntimeOutputFailure c claim effect n := silently (st_PrepareInvocationRuntimeOutputFailure s c claim effect n);
  st_GetClaimedInvocationRuntimeTarget c claim := logging (RTarget claim) (st_GetClaimedInvocationRuntimeTarget s c claim);
  st_GetInvocationRuntimeAttempt c iso op := logging (RAttempt iso op) (st_GetInvocationRuntimeAttempt s c iso op);
  st_BeginInvocationRuntimeAttempt c claim effect := logging (RBegin claim effect) (st_BeginInvocationRuntimeAttempt s c claim effect);
  st_CompleteInvocationRuntimeAttempt c claim effect r := logging (RComplete claim effect r) (st_CompleteInvocationRuntimeAttempt s c claim effect r);
  st_FailInvocationRuntimeAttempt c claim effect r := logging (RFail claim effect r) (st_FailInvocationRuntimeAttempt s c claim effect r);
  st_RecordInvocationRuntimeEvent c claim event := logging (RJournal claim event) (st_RecordInvocationRuntimeEvent s c claim event);
  st_RenewLease c claim := logging (RRenew claim) (st_RenewLease s c claim) |}.

Definition logged_approvals (m : ApprovalMediation W) : ApprovalMediation L := {|
  am_Record c claim effect target request := logging (AOpen claim effect target request) (am_Record m c claim effect target request);
  am_Get c iso id := logging AGet (am_Get m c iso id);
  am_Begin c claim effect id decision := logging (ABegin id decision) (am_Begin m c claim effect id decision);
  am_Complete c claim effect id := logging (AComplete id) (am_Complete m c claim effect id);
  am_Close c claim effect id reason := logging (AClose id reason) (am_Close m c claim effect id reason);
  am_Authorize c v phase := logging (AAuthorize v phase) (am_Authorize m c v phase) |}.

Definition logged_questions (m : QuestionMediation W) : QuestionMediation L := {|
  qm_Record c claim effect target request := logging (QOpen effect target request) (qm_Record m c claim effect target request);
  qm_Get c iso inv id := logging QGet (qm_Get m c iso inv id);
  qm_Begin c claim effect id := asking_logging (QBegin id) (qm_Begin m c claim effect id);
  qm_Complete c claim effect id := logging (QComplete id) (qm_Complete m c claim effect id);
  qm_Close c claim effect id reason := logging (QClose id reason) (qm_Close m c claim effect id reason);
  qm_Authorize c v phase := logging (QAuthorize v phase) (qm_Authorize m c v phase) |}.

Definition logged_runtime_driver {session owned} (d : InvocationRuntimeDriver W session owned)
  : InvocationRuntimeDriver L session owned := {|
  ird_store := logged_runtime_store (ird_store d);
  ird_Authorize c target request := logging (RAuthorize target request) (ird_Authorize d c target request);
  ird_Build target := silently (ird_Build d target);
  ird_GetExecutionByOperation c iso op := silently (ird_GetExecutionByOperation d c iso op);
  ird_Observe c ref := logging (RObserve ref) (ird_Observe d c ref);
  ird_StartRuntime c ref := logging (λ r, RSession ref (is_ok r)) (ird_StartRuntime d c ref);
  ird_Export c ref path := logging (RExport ref path) (ird_Export d c ref path);
  ird_New s := silently_as (fmap logged_adapter) (ird_New d s);
  ird_CloseSession s := silently (ird_CloseSession d s);
  ird_Finalize c f := logging (RFinalize f) (ird_Finalize d c f);
  ird_readiness := (λ f c, silently (f c)) <$> ird_readiness d;
  ird_ctx_Err c := silently (ird_ctx_Err d c);
  ird_now := silently (ird_now d);
  ird_approvals := logged_approvals <$> ird_approvals d;
  ird_questions := logged_questions <$> ird_questions d;
  ird_prepare := (λ f c claim effect target ref, asking_silently (f c claim effect target ref)) <$> ird_prepare d;
  ird_completion := (λ '(start, confirm, export),
    (λ c ref, logging (λ r, RSession ref (is_ok r)) (start c ref),
     λ c claim effect ref owner, asking_silently (confirm c claim effect ref owner),
     λ c claim effect ref, asking_silently (export c claim effect ref))) <$> ird_completion d |}.
End logged.

Class Local {C} (P : list C → Prop) : Prop := {
  local_nil : P [];
  local_app t t' : P t → P t' → P (t ++ t') }.

#[export] Instance local_Forall {C} (p : C → Prop) : Local (Forall p).
Proof. split; [constructor|]. intros. by apply Forall_app. Qed.

#[export] Instance local_quiet {C} : Local (λ t : list C, t = []).
Proof. split; [done|]. by intros ? ? -> ->. Qed.

#[export] Instance local_and {C} (P Q : list C → Prop) : Local P → Local Q → Local (λ t, P t ∧ Q t).
Proof. intros [] []. split; naive_solver. Qed.

(** [G before call] for every call of the log, where a longer past is as good. *)
Definition guarded {C} (G : list C → C → Prop) (t : list C) : Prop := ∀ t1 call t2, t = t1 ++ call :: t2 → G t1 call.

Class Extensible {C} (G : list C → C → Prop) : Prop := extended t t1 call : G t1 call → G (t ++ t1) call.

#[export] Instance local_guarded {C} (G : list C → C → Prop) `{!Extensible G} : Local (guarded G).
Proof.
  split; [by intros [] ? ?|]. intros t t' Ht Ht' t1 call t2 Heq. symmetry in Heq.
  apply app_eq_inv in Heq as [(k & -> & Hk)|(k & -> & Hk)].
  - by apply extended, (Ht' _ _ t2).
  - destruct k as [|x k]; simplify_eq/=; [|by eapply Ht].
    rewrite <- (app_nil_r t1). apply extended. by apply (Ht' [] _ t2).
Qed.

Lemma guarded_cons {C} (G : list C → C → Prop) c t :
  (∀ t1 call t2, t = t1 ++ call :: t2 → G (c :: t1) call) → G [] c → guarded G (c :: t).
Proof. intros Ht Hc [|x t1] call t2 [= -> ->]; [done|by eapply Ht]. Qed.

Lemma guarded_here {C} (G : list C → C → Prop) `{!Extensible G} c t : (∀ t1, G t1 c) → guarded G t → guarded G (c :: t).
Proof.
  intros Hc Ht. apply guarded_cons; [|apply Hc]. intros t1 call t2 ->.
  apply (extended [c]), (Ht _ _ t2). done.
Qed.

Lemma guarded_snoc {C} (G : list C → C → Prop) t c : guarded G t → G t c → guarded G (t ++ [c]).
Proof.
  intros Ht Hc t1 call t2 Heq. destruct t2 as [|x t2 _] using rev_ind.
  - by apply app_inj_tail in Heq as [-> ->].
  - rewrite app_comm_cons, app_assoc in Heq. apply app_inj_tail in Heq as [-> ->]. by eapply Ht.
Qed.

(** Single calls of a kind have the property. *)
Class Allows {C} (P : list C → Prop) (kind : C → bool) : Prop := allows c : kind c = true → P [c].

Lemma allows_sub {C} (P : list C → Prop) (k k' : C → bool) :
  Allows P k → (∀ c, k' c = true → k c = true) → Allows P k'.
Proof. intros HP Hk c Hc. by apply HP, Hk. Qed.

(** A call that succeeds only when one of its calls back gave its consent. *)
Fixpoint needs_consent {W Q A} (a : asking W Q (result A)) : Prop :=
  match a with
  | Answered r => is_ok r = false
  | Asking q resume => ∀ err w, let '(_, a') := resume (Some err) w in needs_consent a'
  end.

Section always.
Context {W : Type}.
Implicit Types P : list rt_call → Prop.

Definition always P {A} (m : io (W * list rt_call) A) : Prop := traced m (λ t _, P t).

Lemma always_mono P P' {A} (m : io (W * list rt_call) A) : always P m → (∀ t, P t → P' t) → always P' m.
Proof. intros Hm HP. eapply traced_mono; [exact Hm|eauto]. Qed.

Lemma always_ret P `{!Local P} {A} (a : A) : always P (mret a : io (W * list rt_call) A).
Proof. apply traced_ret, local_nil. Qed.

Lemma always_bind P `{!Local P} {A B} (m : io (W * list rt_call) A) (k : A → io (W * list rt_call) B) :
  always P m → (∀ a, always P (k a)) → always P (m ≫= k).
Proof.
  intros Hm Hk. eapply traced_bind; [exact Hm|]. intros t a Ht.
  eapply traced_mono; [apply Hk|]. intros t' ? Ht'. by apply local_app.
Qed.

Lemma always_on_error P `{!Local P} {A} m (handle : error → io (W * list rt_call) A) k :
  always P m → (∀ err, always P (handle err)) → always P k → always P (on_error m handle k).
Proof. intros. apply always_bind; [done|done|]. by intros []. Qed.

Lemma always_on_result P `{!Local P} {A B} (m : io _ (result A)) (handle : error → io (W * list rt_call) B) k :
  always P m → (∀ err, always P (handle err)) → (∀ a, always P (k a)) → always P (on_result m handle k).
Proof. intros. apply always_bind; [done|done|]. by intros []. Qed.

Lemma always_logging P {A} (c : A → rt_call) (m : io W A) : (∀ a, P [c a]) → always P (logging c m).
Proof. intros. by apply traced_logging. Qed.

Lemma always_silently P `{!Local P} {A} (m : io W A) : always P (silently m).
Proof. apply traced_silently. intros _. apply local_nil. Qed.

Lemma always_silently_as P `{!Local P} {A B} (f : A → B) (m : io W A) : always P (silently_as f m).
Proof.
  intros w l. unfold silently_as. destruct (m w) as [w' a]. exists []. rewrite app_nil_r. split; [done|apply local_nil].
Qed.

Lemma traced_silently_as_bind {A B D} (f : A → B) (m : io W A) (k : B → io (W * list rt_call) D) Q :
  (∀ a, traced (k (f a)) Q) → traced (silently_as f m ≫= k) Q.
Proof. intros Hk w l. unfold mbind, io_bind, silently_as. destruct (m w) as [w' a]. apply Hk. Qed.

Lemma traced_logging_as_bind {A B D} (f : A → B) (c : A → rt_call) (m : io W A) (k : B → io (W * list rt_call) D) Q :
  (∀ a, traced (k (f a)) (λ t r, Q (c a :: t) r)) → traced (logging_as f c m ≫= k) Q.
Proof.
  intros Hk w l. unfold mbind, io_bind, logging_as. destruct (m w) as [w' a].
  destruct (Hk a w' (l ++ [c a])) as (t & Ht & HQ). exists (c a :: t). by rewrite Ht, <- app_assoc.
Qed.

Lemma always_silently_as_bind P {A B D} (f : A → B) (m : io W A) (k : B → io (W * list rt_call) D) :
  (∀ a, always P (k (f a))) → always P (silently_as f m ≫= k).
Proof. apply traced_silently_as_bind. Qed.

Lemma always_logging_as_bind P `{!Local P} {A B D} (f : A → B) (c : A → rt_call) (m : io W A) (k : B → io (W * list rt_call) D) :
  (∀ a, P [c a]) → (∀ a, always P (k (f a))) → always P (logging_as f c m ≫= k).
Proof.
  intros Hc Hk. apply traced_logging_as_bind. intros a. eapply traced_mono; [apply Hk|].
  intros t ? Ht. by apply (local_app [c a]).
Qed.

(** Early returns after a call, and after a computation without calls. *)
Lemma traced_log_error {A} (call : option error → rt_call) (m : io W (option error)) (handle : error → io (W * list rt_call) A) k Q :
  (∀ err, traced (handle err) (λ t r, Q (call (Some err) :: t) r)) → traced k (λ t r, Q (call None :: t) r) →
  traced (on_error (logging call m) handle k) Q.
Proof. intros He Hk. apply traced_logging_bind. by intros [err|]. Qed.

Lemma traced_log_result {A B} (call : result A → rt_call) (m : io W (result A)) (handle : error → io (W * list rt_call) B) k Q :
  (∀ err, traced (handle err) (λ t r, Q (call (Err err) :: t) r)) → (∀ a, traced (k a) (λ t r, Q (call (Ok a) :: t) r)) →
  traced (on_result (logging call m) handle k) Q.
Proof. intros He Hk. apply traced_logging_bind. by intros [a|err]. Qed.

Lemma traced_quiet_bind {A B} (m : io (W * list rt_call) A) (k : A → io (W * list rt_call) B) Q :
  always (λ t, t = []) m → (∀ a, traced (k a) Q) → traced (m ≫= k) Q.
Proof. intros Hm Hk. eapply traced_bind; [exact Hm|]. intros ? a ->. apply Hk. Qed.

Lemma traced_quiet_error {A} m (handle : error → io (W * list rt_call) A) k Q :
  always (λ t, t = []) m → (∀ err, traced (handle err) Q) → traced k Q → traced (on_error m handle k) Q.
Proof. intros Hm He Hk. apply traced_quiet_bind; [done|]. by intros [err|]. Qed.

Lemma traced_quiet_result {A B} (m : io _ (result A)) (handle : error → io (W * list rt_call) B) k Q :
  always (λ t, t = []) m → (∀ err, traced (handle err) Q) → (∀ a, traced (k a) Q) → traced (on_result m handle k) Q.
Proof. intros Hm He Hk. apply traced_quiet_bind; [done|]. by intros [a|err]. Qed.

Lemma always_run_asking P `{!Local P} {Q A} (f : Q → io (W * list rt_call) (option error)) :
  (∀ q, always P (f q)) → ∀ a : asking W Q A, always P (run_asking f (logged_asking a)).
Proof.
  intros Hf. fix IH 1. intros [x|q resume] w l; cbn [run_asking logged_asking].
  - exists []. rewrite app_nil_r. split; [done|apply local_nil].
  - destruct (Hf q w l) as (t & Ht & HP). destruct (f q (w, l)) as [[w1 l1] e]. cbn [fst snd] in Ht. subst l1.
    destruct (resume e w1) as [w2 a']. destruct (IH a' w2 (l ++ t)) as (t' & Ht' & HP').
    exists (t ++ t'). rewrite app_assoc. split; [done|by apply local_app].
Qed.

Lemma always_asking P `{!Local P} {Q A} (f : Q → io (W * list rt_call) (option error)) (m : io W (asking W Q A)) :
  (∀ q, always P (f q)) → always P (asking_silently m ≫= run_asking f).
Proof.
  intros Hf w l. unfold mbind, io_bind, asking_silently. destruct (m w) as [w' a].
  by apply always_run_asking.
Qed.

Lemma traced_asking_logging P `{!Local P} {Q A} call (f : Q → io (W * list rt_call) (option error)) (m : io W (asking W Q A)) :
  (∀ q, always P (f q)) → traced (asking_logging call m ≫= run_asking f) (λ t _, ∃ asked, t = call :: asked ∧ P asked).
Proof.
  intros Hf w l. unfold mbind, io_bind, asking_logging. destruct (m w) as [w' a].
  destruct (always_run_asking P f Hf a w' (l ++ [call])) as (t & Ht & HP).
  exists ([call] ++ t). rewrite app_assoc. split; [done|by exists t].
Qed.

(** A call back that gives its consent leaves a call with [C] in the log, so a tree
    that needs consent succeeds only with one. *)
Lemma traced_run_consent P `{!Local P} (C : rt_call → Prop) {Q A} (f : Q → io (W * list rt_call) (option error)) :
  (∀ q, traced (f q) (λ t e, P t ∧ (e = None → Exists C t))) →
  ∀ a : asking W Q (result A), traced (run_asking f (logged_asking a)) (λ t r,
    P t ∧ (needs_consent a → is_ok r = true → Exists C t)).
Proof.
  intros Hf. fix IH 1. intros [x|q resume] w l; cbn [run_asking logged_asking needs_consent].
  - exists []. rewrite app_nil_r. split_and!; [done|apply local_nil|cbn; congruence].
  - destruct (Hf q w l) as (t & Ht & HP & HC). destruct (f q (w, l)) as [[w1 l1] e]. cbn [fst snd] in Ht, HC. subst l1.
    specialize (IH (resume e w1).2 (resume e w1).1 (l ++ t)) as (t' & Ht' & HP' & HC').
    intros. destruct (resume e w1) as [w2 a'] eqn:Hr. cbn [fst snd] in *.
    exists (t ++ t'). rewrite app_assoc. split_and!; [done|by apply local_app|]. intros Hn Hok. apply Exists_app.
    destruct e as [err|]; [right|left; by apply HC]. apply HC'; [|done]. specialize (Hn err w1). by rewrite Hr in Hn.
Qed.

Lemma traced_asking_consent P `{!Local P} (C : rt_call → Prop) {Q A} call (f : Q → io (W * list rt_call) (option error))
    (m : io W (asking W Q (result A))) :
  (∀ q, traced (f q) (λ t e, P t ∧ (e = None → Exists C t))) →
  traced (asking_logging call m ≫= run_asking f) (λ t r, ∃ asked, t = call :: asked ∧ P asked
    ∧ ((∀ w, needs_consent (m w).2) → is_ok r = true → Exists C asked)).
Proof.
  intros Hf w l. unfold mbind, io_bind, asking_logging. destruct (m w) as [w' a] eqn:Hm.
  destruct (traced_run_consent P C f Hf a w' (l ++ [call])) as (t & Ht & HP & HC).
  exists ([call] ++ t). rewrite app_assoc. split; [done|]. exists t. split_and!; [done..|].
  intros Hn. apply HC. specialize (Hn w). by rewrite Hm in Hn.
Qed.

Lemma always_asking_logging P `{!Local P} {Q A} call (f : Q → io (W * list rt_call) (option error)) (m : io W (asking W Q A)) :
  P [call] → (∀ q, always P (f q)) → always P (asking_logging call m ≫= run_asking f).
Proof.
  intros Hc Hf. eapply traced_mono; [by apply traced_asking_logging|]. intros ? ? (asked & -> & Ha). by apply (local_app [call]).
Qed.
End always.

(** Show the logged collaborators. *)
Ltac expose :=
  cbn [ird_store ird_Authorize ird_Build ird_GetExecutionByOperation ird_Observe ird_StartRuntime ird_Export ird_New
       ird_CloseSession ird_Finalize ird_readiness ird_ctx_Err ird_now ird_approvals ird_questions ird_prepare ird_completion
       st_CheckInvocationWorkspacePreparation st_PrepareInvocationRuntimeOutputFailure st_GetClaimedInvocationRuntimeTarget
       st_GetInvocationRuntimeAttempt st_BeginInvocationRuntimeAttempt st_CompleteInvocationRuntimeAttempt
       st_FailInvocationRuntimeAttempt st_RecordInvocationRuntimeEvent st_RenewLease
       am_Record am_Get am_Begin am_Complete am_Close am_Authorize qm_Record qm_Get qm_Begin qm_Complete qm_Close qm_Authorize
       turn_select turn_receive turn_ResolveApproval turn_Interrupt turn_Close turn_ApprovalPending turn_questions
       qt_QuestionPending qt_AnswerQuestion
       logged_runtime_driver logged_runtime_store logged_approvals logged_questions logged_turn logged_adapter adapter_Start adapter_Close fmap option_fmap option_map result_fmap].

Create HintDb calls.
#[export] Hint Extern 1 (Allows _ _) =>
  match goal with A : Allows ?P ?k |- Allows ?P _ => refine (allows_sub P k _ A _); by intros [] end : typeclass_instances.
#[export] Hint Extern 1 (Allows (Forall _) _) => intros [] ?; solve [discriminate | by repeat constructor] : typeclass_instances.

#[export] Hint Extern 0 (Allows _ _) => apply _ : calls.
#[export] Hint Extern 0 (Local _) => apply _ : calls.

Ltac scrutinise x :=
  lazymatch x with
  | option_map _ ?y => scrutinise y
  | result_fmap _ _ _ ?y => scrutinise y
  | fmap _ ?y => scrutinise y
  | match ?y with _ => _ end => scrutinise y
  | _ => destruct x
  end.

(** Walk through a computation; known operations are closed from [calls]. *)
Ltac walk :=
  expose; cbn zeta;
  lazymatch goal with
  | |- ∀ _, _ => intro; walk
  | |- always _ _ => first [ solve [eauto with calls] | walk_step ]
  | |- Forall _ [_] => repeat constructor; try done
  | |- _ => try done; try match goal with A : Allows ?P _ |- ?P [_] => apply A; reflexivity end
  end
with walk_step :=
  lazymatch goal with
  | |- always _ (mret _) => apply always_ret; apply _
  | |- always _ (on_error _ _ _) => apply always_on_error; [apply _|walk..]
  | |- always _ (on_result _ _ _) => apply always_on_result; [apply _|walk..]
  | |- always _ (asking_silently _ ≫= _) => apply always_asking; [apply _|walk]
  | |- always _ (asking_logging _ _ ≫= _) => apply always_asking_logging; [apply _|walk..]
  | |- always _ (silently_as _ _ ≫= _) => apply always_silently_as_bind; walk
  | |- always _ (logging_as _ _ _ ≫= _) => apply always_logging_as_bind; [apply _|walk..]
  | |- always _ (_ ≫= _) => apply always_bind; [apply _|walk..]
  | |- always _ (logging _ _) => apply always_logging; intro; walk
  | |- always _ (silently _) => apply always_silently; apply _
  | |- always _ (silently_as _ _) => apply always_silently_as; apply _
  | |- always _ (match ?x with _ => _ end) => scrutinise x; walk
  | |- always _ ((match ?x with _ => _ end) _) => scrutinise x; walk
  | |- _ => idtac
  end.

(** One step of a computation whose calls are followed one by one. *)
Ltac trace_step :=
  expose; cbn zeta;
  lazymatch goal with
  | |- traced (mret _) _ => apply traced_ret
  | |- traced (on_error (logging _ _) _ _) _ => apply traced_log_error; [intros ?err|]
  | |- traced (on_result (logging _ _) _ _) _ => apply traced_log_result; [intros ?err|intros ?a]
  | |- traced (on_error _ _ _) _ => apply traced_quiet_error; [solve [walk]|intros ?err|]
  | |- traced (on_result _ _ _) _ => apply traced_quiet_result; [solve [walk]|intros ?err|intros ?a]
  | |- traced (if ?x then _ else _) _ => let E := fresh "E" in destruct x eqn:E
  | |- traced (match ?x with _ => _ end) _ => scrutinise x
  end.
