(* ===== verification/RuntimeParts.v ===== *)
(** * The parts of a turn and their calls

    For every operation of the runtime driver that a turn is made of: which kinds of
    calls it can make, whatever its collaborators answer. *)

From S2P Require Import Prelude.
From S2P Require Import CallLog.
From S2P Require Import GoStrings.
From S2P Require Import GoJson.
From S2P Require Import Questions.
From S2P Require Import RuntimeTables.
From S2P Require Import Database.
From S2P Require Import OperationStore.
From S2P Require Import RuntimeInteraction.
From S2P Require Import RuntimeApproval.
From S2P Require Import RuntimeQuestion.
From S2P Require Import Reconciler.
From S2P Require Import GatewayStore.
From S2P Require Import Drivers.
From S2P Require Import RuntimeOutput.
From S2P Require Import RuntimeRequest.
From S2P Require Import RuntimeDriver.
From S2P Require Import RuntimeTurn.
From S2P Require Import RuntimeLogic.

Definition output_call (c : rt_call) : bool :=
  match c with RAuthorize _ _ _ | RRenew _ _ | RFinalize _ _ | RJournal _ _ _ => true | _ => false end.

Definition finalize_call (c : rt_call) : bool :=
  match c with RAuthorize _ _ _ | RRenew _ _ | RFinalize _ _ => true | _ => false end.

Definition interaction_call (c : rt_call) : bool :=
  match c with
  | AOpen _ _ _ _ _ | AGet _ | AAuthorize _ _ _ | ABegin _ _ _ | AResolve _ _ _ _ | AComplete _ _ | AClose _ _ _
  | QOpen _ _ _ _ | QGet _ | QAuthorize _ _ _ | QBegin _ | QAnswer _ _ _ _ | QComplete _ _ | QClose _ _ _ => true
  | _ => false
  end.

(** Requests opened and closed, and the calls that poll for a decision. *)
Definition opening_call (c : rt_call) : bool :=
  match c with AOpen _ _ _ _ _ | AClose _ _ _ | QOpen _ _ _ _ | QClose _ _ _ => true | _ => false end.

(** The calls after the agent ended. *)
Definition ending_call (c : rt_call) : bool :=
  match c with
  | RTarget _ _ | RAuthorize _ _ _ | RRenew _ _ | RFinalize _ _ | RExport _ _ _ | RComplete _ _ _ _ | RFail _ _ _ _ => true
  | _ => false
  end.

(** All a turn may call once it was started. *)
Definition turn_call (c : rt_call) : bool :=
  match c with RSession _ _ | RStart _ _ | RBegin _ _ _ | RObserve _ _ => false | _ => true end.

(** Reading the target, authorising and renewing; and what retaining invalid output adds. *)
Definition check_call (c : rt_call) : bool :=
  match c with RTarget _ _ | RAuthorize _ _ _ | RRenew _ _ => true | _ => false end.
Definition retain_call (c : rt_call) : bool :=
  match c with RTarget _ _ | RAuthorize _ _ _ | RRenew _ _ | RFinalize _ _ | RFail _ _ _ _ => true | _ => false end.

(** What a run does besides recording output, polling for decisions and starting the turn. *)
Definition loop_call (c : rt_call) : bool :=
  opening_call c || ending_call c || match c with RSelect _ | RReceive _ => true | _ => false end.

(** Reading, authorising and opening a session. *)
Definition entry_call (c : rt_call) : bool :=
  match c with RTarget _ _ | RObserve _ _ | RAuthorize _ _ _ | RRenew _ _ | RSession _ _ => true | _ => false end.

Definition run_call (c : rt_call) : bool :=
  loop_call c || entry_call c || match c with RBegin _ _ _ | RStart _ _ => true | _ => false end.

Section parts.
Context {W session owned : Type} `{RuntimeLibrary, ImageDecoder} (d : InvocationRuntimeDriver W session owned).
Abbreviation driver := (logged_runtime_driver d).
Implicit Types P : list rt_call → Prop.

Lemma always_ready P `{!Local P} c : always P (ready driver c).
Proof. unfold ready. walk. Qed.
#[local] Hint Resolve always_ready : calls.

Lemma always_finalizeRuntimeArtifact P `{!Local P, !Allows P finalize_call} c claim effect target sequence namespace name kind mediaType content :
  always P (finalizeRuntimeArtifact driver c claim effect target sequence namespace name kind mediaType content).
Proof. unfold finalizeRuntimeArtifact. walk. Qed.
#[local] Hint Resolve always_finalizeRuntimeArtifact : calls.

Lemma always_record_reference P `{!Local P, !Allows P output_call} c claim effect target sequence namespace name kind mediaType content type reference :
  always P (record_reference driver c claim effect target sequence namespace name kind mediaType content type reference).
Proof. unfold record_reference. walk. Qed.
#[local] Hint Resolve always_record_reference : calls.

Lemma always_recordRuntimeOutput P `{!Local P, !Allows P output_call} c claim effect target event :
  always P (recordRuntimeOutput driver c claim effect target event).
Proof.
  unfold recordRuntimeOutput, recordRuntimePlan, recordCompletedRuntimeTool, recordCompletedRuntimeImage,
    recordCompletedRuntimePatch, recordCompletedRuntimeCommand, recordRuntimeMessage, recordRuntimeEvent. walk.
Qed.
#[local] Hint Resolve always_recordRuntimeOutput : calls.

Context (t : Turn W) (target : InvocationRuntimeTarget) (effect : EffectRecord).
Abbreviation turn := (logged_turn t).

Lemma always_approval_close P `{!Local P, !Allows P opening_call} c claim pending reason :
  always P (approval_close driver effect c claim pending reason).
Proof. unfold approval_close. walk. Qed.
#[local] Hint Resolve always_approval_close : calls.

Lemma always_approval_record P `{!Local P, !Allows P opening_call} c claim event ended pending :
  always P (approval_record driver turn target effect c claim event ended pending).
Proof. unfold approval_record. walk. Qed.
#[local] Hint Resolve always_approval_record : calls.

Lemma always_set_record P `{!Local P, !Allows P opening_call} c claim event ended set :
  always P (set_record driver turn target effect c claim event ended set).
Proof. unfold set_record. walk. Qed.
#[local] Hint Resolve always_set_record : calls.

Lemma always_close_each P `{!Local P, !Allows P opening_call} c claim reason pending :
  ∀ result, always P (close_each driver effect c claim reason result pending).
Proof. induction pending as [|entry rest IH]; intros result; cbn [close_each]; walk. Qed.
#[local] Hint Resolve always_close_each : calls.

Lemma always_set_close P `{!Local P, !Allows P opening_call} c claim reason set :
  always P (set_close driver effect c claim reason set).
Proof. unfold set_close. walk. Qed.
#[local] Hint Resolve always_set_close : calls.

Lemma always_question_close P `{!Local P, !Allows P opening_call} c claim pending reason :
  always P (question_close driver effect c claim pending reason).
Proof. unfold question_close. walk. Qed.
#[local] Hint Resolve always_question_close : calls.

Lemma always_question_record P `{!Local P, !Allows P opening_call} enabled timeout c claim event ended pending :
  always P (question_record driver turn target effect enabled timeout c claim event ended pending).
Proof. unfold question_record, question_request. walk. Qed.
#[local] Hint Resolve always_question_record : calls.

Lemma always_consume P `{!Local P, !Allows P opening_call} enabled timeout c ended st event :
  (∀ c claim event, always P (recordRuntimeOutput driver c claim effect target event)) →
  always P (consume driver turn target effect enabled timeout c ended st event).
Proof. intros ?. unfold consume. walk. Qed.
#[local] Hint Resolve always_consume : calls.

Lemma always_close_interactions P `{!Local P, !Allows P opening_call} c st :
  always P (close_interactions driver effect c st).
Proof. unfold close_interactions. walk. Qed.
#[local] Hint Resolve always_close_interactions : calls.

Lemma always_close_deferred P `{!Local P, !Allows P opening_call} c st r :
  always P (close_deferred driver effect c st r).
Proof. unfold close_deferred. walk. Qed.
#[local] Hint Resolve always_close_deferred : calls.

Lemma always_publishInvocationArtifacts P `{!Local P, !Allows P ending_call} c ref declarations :
  ∀ claim, always P (publishInvocationArtifacts driver target effect c claim ref declarations).
Proof. induction declarations as [|declaration rest IH]; intros claim; cbn [publishInvocationArtifacts]; walk. Qed.
#[local] Hint Resolve always_publishInvocationArtifacts : calls.

Lemma always_retainInvalidRuntimeOutput P `{!Local P, !Allows P retain_call} c claim sequence :
  always P (retainInvalidRuntimeOutput driver effect c claim sequence).
Proof. unfold retainInvalidRuntimeOutput. walk. Qed.
#[local] Hint Resolve always_retainInvalidRuntimeOutput : calls.

Lemma always_approval_poll P `{!Local P, !Allows P interaction_call} c claim pending :
  always P (approval_poll driver turn effect c claim pending).
Proof. unfold approval_poll, approval_decided, approval_deliver. walk. Qed.

Lemma always_question_poll P `{!Local P, !Allows P interaction_call} c claim pending :
  always P (question_poll driver turn effect c claim pending).
Proof. unfold question_poll, question_answered, question_authorize. walk. Qed.

(** The loop has a local property when recording output, the two polls and the work
    after the turn have it. *)
Section loop.
Context (P : list rt_call → Prop) `{!Local P, !Allows P loop_call}.
Context (records : ∀ c claim event, always P (recordRuntimeOutput driver c claim effect target event)).
Context (approval_polls : ∀ c claim entry, always P (approval_poll driver turn effect c claim (Some entry))).
Context (question_polls : ∀ c claim pending, always P (question_poll driver turn effect c claim pending)).
Context (finish : option (context → OperationClaim → io (W * list rt_call) (option error))).
Context (finishes : ∀ f c claim, finish = Some f → always P (f c claim)).

Lemma always_set_poll c claim set : always P (set_poll driver turn effect c claim set).
Proof. unfold set_poll. walk. Qed.
#[local] Hint Resolve always_set_poll : calls.

Lemma always_drainRuntimeEvents enabled timeout c fuel :
  ∀ st, always P (drainRuntimeEvents driver turn target effect enabled timeout c fuel st).
Proof. induction fuel as [|fuel IH]; intros st; cbn [drainRuntimeEvents]; walk. Qed.
#[local] Hint Resolve always_drainRuntimeEvents : calls.

Lemma always_turn_ended fuel enabled timeout c ref declarations waitErr st :
  always P (turn_ended driver turn target effect fuel enabled timeout c ref declarations finish waitErr st).
Proof. unfold turn_ended. destruct finish; walk. Qed.
#[local] Hint Resolve always_turn_ended : calls.

Lemma always_run_loop enabled timeout c ref declarations fuel :
  ∀ st, always P (run_loop driver turn target effect fuel enabled timeout c ref declarations finish st).
Proof. induction fuel as [|fuel IH]; intros st; cbn [run_loop]; unfold interruptInvocationRuntimeTurn; walk. Qed.
#[local] Hint Resolve always_run_loop : calls.

Lemma always_runTurn fuel c claim output ref declarations enabled timeout :
  always P (runTurn driver turn target effect fuel c claim output ref declarations enabled timeout finish).
Proof. unfold runTurn. walk. Qed.
End loop.
End parts.

#[export] Hint Resolve always_ready always_recordRuntimeOutput always_finalizeRuntimeArtifact always_approval_close
  always_approval_poll always_question_poll always_approval_record always_set_record always_close_each always_set_close always_question_close always_question_record
  always_consume always_close_interactions always_close_deferred always_publishInvocationArtifacts
  always_retainInvalidRuntimeOutput always_set_poll always_drainRuntimeEvents always_turn_ended always_run_loop
  always_runTurn : calls.

(** ** The effect driver *)

Section effect_parts.
Context {W session owned : Type} `{RuntimeLibrary, ImageDecoder} (d : InvocationRuntimeDriver W session owned).
Abbreviation driver := (logged_runtime_driver d).
Implicit Types P : list rt_call → Prop.

Lemma always_authorize_runtime P `{!Local P, !Allows P check_call} c target request :
  always P (authorize_runtime driver c target request).
Proof. unfold authorize_runtime. walk. Qed.
#[local] Hint Resolve always_authorize_runtime : calls.

Lemma always_finishWorkspace P `{!Local P, !Allows P check_call} c claim effect target ref request owner :
  always P (finishWorkspace driver c claim effect target ref request owner).
Proof. unfold finishWorkspace. destruct owner; walk. Qed.
#[local] Hint Resolve always_finishWorkspace : calls.

Lemma always_recoverWorkspace P `{!Local P, !Allows P check_call} c claim effect :
  always P (recoverWorkspace driver c claim effect).
Proof. unfold recoverWorkspace. walk. Qed.
#[local] Hint Resolve always_recoverWorkspace : calls.

(** A session comes with the work to do after its turn. *)
Lemma traced_startRuntimeSession P `{!Local P, !Allows P entry_call} c effect target ref request :
  traced (startRuntimeSession driver c effect target ref request) (λ t r, P t
    ∧ ∀ started f c' claim', r = Ok started → started.2 = Some f → always P (f c' claim')).
Proof.
  unfold startRuntimeSession, on_result. expose.
  destruct (ird_completion d) as [[[start confirm] export]|]; cbn [fmap option_fmap option_map];
    apply traced_logging_bind; intros [s|err]; apply traced_ret; (split; [by apply allows|]); intros started f c' claim' [=<-].
  - intros [=<-]. eauto with calls.
  - done.
Qed.

(** A run has a local property when recording output and polling for decisions have it. *)
Section run.
Context (P : list rt_call → Prop) `{!Local P, !Allows P run_call}.
Context (records : ∀ c claim effect target event, always P (recordRuntimeOutput driver c claim effect target event)).
Context (approval_polls : ∀ t effect c claim entry, always P (approval_poll driver (logged_turn t) effect c claim (Some entry))).
Context (question_polls : ∀ t effect c claim pending, always P (question_poll driver (logged_turn t) effect c claim pending)).

Lemma always_with_session fuel c claim effect target ref request output prepared started :
  (∀ f c' claim', started.2 = Some f → always P (f c' claim')) →
  always P (with_session driver fuel c claim effect target ref request output prepared started).
Proof. intros finishes. unfold with_session. destruct prepared; walk. Qed.

Lemma always_start_session fuel c claim effect target ref request output :
  always P (start_session driver fuel c claim effect target ref request output).
Proof.
  assert (∀ prepared, always P (on_result (startRuntimeSession driver c effect target ref request)
    (λ err, mret (Some (Err err))) (with_session driver fuel c claim effect target ref request output prepared))).
  { intros prepared. eapply traced_bind; [by apply (traced_startRuntimeSession P)|]. intros t [started|err] [Ht finishes].
    - eapply traced_mono; [apply always_with_session; eauto|]. intros t' ? Ht'. by apply local_app.
    - apply traced_ret. by rewrite app_nil_r. }
  unfold start_session. walk.
Qed.
#[local] Hint Resolve always_start_session : calls.

Lemma always_runtime_ApplyClaimed fuel c claim effect : always P (runtime_ApplyClaimed driver fuel c claim effect).
Proof. unfold runtime_ApplyClaimed. walk. Qed.
End run.
End effect_parts.

#[export] Hint Resolve always_authorize_runtime always_finishWorkspace always_recoverWorkspace : calls.
