(* ===== verification/RuntimeGuards.v ===== *)
(** * What precedes a delivery and a journal entry

    Two properties of a run that can be read off its log call by call: a decision
    reaches the agent only as the ledger holds it and as it was authorised, and an
    event refers to an artifact only once that artifact is durable. *)
From S2P Require Import Prelude.
From S2P Require Import CallLog.
From S2P Require Import GoStrings.
From S2P Require Import Sha256.
From S2P Require Import GoJson.
From S2P Require Import Questions.
From S2P Require Import RuntimeTables.
From S2P Require Import Database.
From S2P Require Import OperationStore.
From S2P Require Import RuntimeInteraction.
From S2P Require Import RuntimeApproval.
From S2P Require Import RuntimeQuestion.
From S2P Require Import Reconciler.
From S2P Require Import GatewayStore.
From S2P Require Import Drivers.
From S2P Require Import RuntimeOutput.
From S2P Require Import RuntimeRequest.
From S2P Require Import RuntimeDriver.
From S2P Require Import RuntimeTurn.
From S2P Require Import RuntimeLogic.
From S2P Require Import RuntimeParts.

(** ** Journal entries *)

Definition raw_event_types : list string :=
  [PlanUpdatedEvent; ToolCompletedEvent; ImageCompletedEvent; PatchCompletedEvent; CommandCompletedEvent].

(** The last call stored the artifact [id] under the digest of its content. *)
Definition retained (before : list rt_call) (id digest : string) (size : Z) : Prop :=
  ∃ t0 f bound, before = t0 ++ [RFinalize f (Ok bound)]
  ∧ ar_ID bound = id ∧ ar_Digest bound = digest ∧ ar_SizeBytes bound = size
  ∧ digest = Sha256.digest_string (fz_Content f) ∧ size = go_len (fz_Content f).

Definition journaled (before : list rt_call) (call : rt_call) : Prop :=
  match call with
  | RJournal _ event _ =>
      (re_Type event ∉ raw_event_types)
      ∧ (re_Type event ∈ artifact_event_types → ∃ id digest size, retained before id digest size
         ∧ get (re_Payload event) "artifactId" = Some (AStr id) ∧ get (re_Payload event) "digest" = Some (AStr digest)
         ∧ get (re_Payload event) "sizeBytes" = Some (AInt size))
      ∧ (re_Type event = MessageCompletedEvent → ∃ message, ParseCompletedMessage (re_Payload event) = Ok message
         ∧ (go_len (cm_Text message) ≤ Z.of_nat MaximumInlineMessageTextBytes)%Z ∧ contains_rune_nul (cm_Text message) = false)
  | _ => True
  end.

Definition not_journal (c : rt_call) : bool := match c with RJournal _ _ _ => false | _ => true end.

#[export] Instance journaled_extensible : Extensible journaled.
Proof.
  intros t t1 [] Hc; try done. destruct Hc as (Hr & Ha & Hm). split_and!; [done| |done].
  intros Ht. destruct (Ha Ht) as (id & digest & size & (t0 & f & bound & -> & Hb) & Hp).
  exists id, digest, size. split; [|done]. exists (t ++ t0), f, bound. by rewrite app_assoc.
Qed.
#[export] Instance journaled_allows : Allows (guarded journaled) not_journal.
Proof. intros [] Hc; try done; by apply guarded_cons; [intros [] ? ?|]. Qed.

#[export] Hint Extern 1 (Allows (guarded journaled) _) =>
  refine (allows_sub _ not_journal _ journaled_allows _); by intros [] : typeclass_instances.

Section journal.
Context {W session owned : Type} `{RuntimeLibrary, ImageDecoder} (d : InvocationRuntimeDriver W session owned).
Abbreviation driver := (logged_runtime_driver d).

Lemma traced_finalizeRuntimeArtifact c claim effect target sequence namespace name kind mediaType content :
  traced (finalizeRuntimeArtifact driver c claim effect target sequence namespace name kind mediaType content) (λ t r,
    ∀ record, r = Ok record → retained t (ar_ID record) (ar_Digest record) (ar_SizeBytes record)).
Proof.
  unfold finalizeRuntimeArtifact. repeat trace_step; try done.
  intros record [= <-]. eexists [_; _], _, _. split_and!; [done|apply dec_stable; naive_solver..|done|done].
Qed.

Lemma artifact_types t : t ∈ artifact_event_types → (t ∉ raw_event_types) ∧ t ≠ MessageCompletedEvent.
Proof.
  intros Ht. repeat (apply elem_of_cons in Ht as [->|Ht]); [..|by apply elem_of_nil in Ht];
    (split; [refine (bool_decide_unpack _ _); vm_compute; exact I|done]).
Qed.

Lemma journaled_reference t claim record event answer :
  retained t (ar_ID record) (ar_Digest record) (ar_SizeBytes record) → re_Type event ∈ artifact_event_types →
  get (re_Payload event) "artifactId" = Some (AStr (ar_ID record)) →
  get (re_Payload event) "digest" = Some (AStr (ar_Digest record)) →
  get (re_Payload event) "sizeBytes" = Some (AInt (ar_SizeBytes record)) →
  guarded journaled t → guarded journaled (t ++ [RJournal claim event answer]).
Proof.
  intros Hr Ht Hid Hdigest Hsize Hg. apply guarded_snoc; [done|]. destruct (artifact_types _ Ht).
  split_and!; [done| |done]. intros _. by exists (ar_ID record), (ar_Digest record), (ar_SizeBytes record).
Qed.

Lemma finalized_journaled c claim effect target sequence namespace name kind mediaType content :
  traced (finalizeRuntimeArtifact driver c claim effect target sequence namespace name kind mediaType content) (λ t r,
    guarded journaled t ∧ ∀ record, r = Ok record → retained t (ar_ID record) (ar_Digest record) (ar_SizeBytes record)).
Proof. apply traced_and; [|apply traced_finalizeRuntimeArtifact]. by apply (always_finalizeRuntimeArtifact d (guarded journaled)). Qed.

Lemma record_reference_journaled c claim effect target sequence namespace name kind mediaType content type reference :
  type ∈ artifact_event_types →
  (∀ record, get (reference record) "artifactId" = Some (AStr (ar_ID record))
     ∧ get (reference record) "digest" = Some (AStr (ar_Digest record))
     ∧ get (reference record) "sizeBytes" = Some (AInt (ar_SizeBytes record))) →
  always (guarded journaled) (record_reference driver c claim effect target sequence namespace name kind mediaType content type reference).
Proof.
  intros Ht Href. eapply traced_bind; [apply finalized_journaled|]. intros t [record|err] [Hg Hr]; cbn zeta.
  - apply traced_logging. intros answer. destruct (Href record) as (? & ? & ?). by apply (journaled_reference t claim record); eauto.
  - apply traced_ret. by rewrite app_nil_r.
Qed.

Lemma recordRuntimeMessage_journaled c claim effect target event :
  ev_Type event = MessageCompletedEvent → always (guarded journaled) (recordRuntimeMessage driver c claim effect target event).
Proof.
  intros Ht. unfold recordRuntimeMessage. destruct (ParseCompletedMessage _) as [message|err] eqn:Hm; [|apply always_ret; apply _].
  destruct (sequence_valid _); [|apply always_ret; apply _]. destruct (any_text _) as [encoded|]; [|apply always_ret; apply _].
  cbn [negb]. destruct (_ && _) eqn:Hc.
  - unfold recordRuntimeEvent. rewrite Ht. eapply always_bind; [apply _| |intros; apply always_ret; apply _].
    apply always_logging. intros answer. apply guarded_cons; [by intros []|].
    cbn [journaled re_Type re_Payload]. split_and!.
    + refine (bool_decide_unpack _ _); vm_compute; exact I.
    + intros Hin. by destruct (artifact_types _ Hin).
    + intros _. exists message. apply andb_prop in Hc as [[Hl _]%andb_prop Hn]. apply negb_true_iff, orb_false_elim in Hn as [Hn _].
      split_and!; [done|by apply Z.leb_le|done].
  - eapply traced_bind; [apply finalized_journaled|]. intros t [record|err] [Hg Hr].
    2:{ apply traced_ret. by rewrite app_nil_r. }
    apply traced_log_error; [intros err|]; apply traced_ret;
      (apply (journaled_reference t claim record); [by apply Hr|refine (bool_decide_unpack _ _); vm_compute; exact I|done..]).
Qed.

Lemma recordRuntimeEvent_journaled c claim event :
  (ev_Type event ∉ raw_event_types) → (ev_Type event ∉ artifact_event_types) → ev_Type event ≠ MessageCompletedEvent →
  always (guarded journaled) (recordRuntimeEvent driver c claim event).
Proof.
  intros Hr Ha Hm. unfold recordRuntimeEvent. pose proof journaled_allows. walk.
  apply guarded_cons; [by intros []|]. by split_and!.
Qed.

(** An output is recorded by the operation of its kind, any other event as it is. *)
Lemma always_output_cases P `{!Local P} c claim effect target event :
  always P (recordRuntimePlan driver c claim effect target event) → always P (recordCompletedRuntimeTool driver c claim effect target event) →
  always P (recordCompletedRuntimeImage driver c claim effect target event) → always P (recordCompletedRuntimePatch driver c claim effect target event) →
  always P (recordCompletedRuntimeCommand driver c claim effect target event) →
  (ev_Type event = MessageCompletedEvent → always P (recordRuntimeMessage driver c claim effect target event)) →
  (∀ event', (ev_Type event' ∉ raw_event_types) → (ev_Type event' ∉ artifact_event_types) → ev_Type event' ≠ MessageCompletedEvent →
     always P (recordRuntimeEvent driver c claim event')) →
  always P (recordRuntimeOutput driver c claim effect target event).
Proof.
  intros Hplan Htool Himage Hpatch Hcommand Hmessage Hevent.
  unfold recordRuntimeOutput. cbn zeta. destruct (decide (_ ∈ _)) as [|Ha]; [apply always_ret; apply _|].
  destruct (decide _) as [Ht|H1]; [|destruct (decide _) as [Ht|H2]; [|destruct (decide _) as [Ht|H3]; [|destruct (decide _) as [Ht|H4];
    [|destruct (decide _) as [Ht|H5]; [|destruct (decide _) as [Ht|H6]; [|destruct (decide _) as [Ht|H7]]]]]]].
  1-5: (apply always_bind; [apply _|done|intros; apply always_ret; apply _]).
  - destruct (get_string _ _); [|apply always_ret; apply _]. destruct (_ || _); [apply always_ret; apply _|].
    apply always_bind; [apply _| |intros; apply always_ret; apply _].
    apply Hevent; cbn [ev_Type]; rewrite Ht; [refine (bool_decide_unpack _ _); vm_compute; exact I..|done].
  - apply always_bind; [apply _| |intros; apply always_ret; apply _].
    apply Hevent; [|done|done]. unfold raw_event_types. rewrite !not_elem_of_cons. split_and!; [done..|]. apply not_elem_of_nil.
  - apply dec_stable in H7. by apply Hmessage.
Qed.

Lemma recordRuntimeOutput_journaled c claim effect target event :
  always (guarded journaled) (recordRuntimeOutput driver c claim effect target event).
Proof.
  apply always_output_cases; eauto using recordRuntimeMessage_journaled, recordRuntimeEvent_journaled; try apply _;
    unfold recordRuntimePlan, recordCompletedRuntimeTool, recordCompletedRuntimeImage, recordCompletedRuntimePatch,
    recordCompletedRuntimeCommand; repeat case_match; try (apply always_ret; apply _);
    (apply record_reference_journaled; [refine (bool_decide_unpack _ _); vm_compute; exact I|done]).
Qed.

(** C26: for every collaborator, every event of a run that refers to an artifact is
    recorded directly after the finaliser stored that artifact, and names its
    identity, the digest of its content and its size; the text of a completed
    message is recorded inline only when it is within the inline limit and has no
    NUL; and plans, tool outputs, images, patches and command outputs never reach
    the journal themselves. *)
Theorem runtime_references_durable fuel c claim effect (w : W) :
  let '((_, t), _) := runtime_ApplyClaimed driver fuel c claim effect (w, []) in
  ∀ before claim' event answer after, t = before ++ RJournal claim' event answer :: after →
    (re_Type event ∉ raw_event_types)
    ∧ (re_Type event ∈ artifact_event_types → ∃ t0 f bound, before = t0 ++ [RFinalize f (Ok bound)]
       ∧ get (re_Payload event) "artifactId" = Some (AStr (ar_ID bound))
       ∧ get (re_Payload event) "digest" = Some (AStr (Sha256.digest_string (fz_Content f)))
       ∧ ar_Digest bound = Sha256.digest_string (fz_Content f)
       ∧ get (re_Payload event) "sizeBytes" = Some (AInt (go_len (fz_Content f))))
    ∧ (re_Type event = MessageCompletedEvent → ∃ message, ParseCompletedMessage (re_Payload event) = Ok message
       ∧ (go_len (cm_Text message) ≤ Z.of_nat MaximumInlineMessageTextBytes)%Z ∧ contains_rune_nul (cm_Text message) = false).
Proof.
  assert (always (guarded journaled) (runtime_ApplyClaimed driver fuel c claim effect)) as Hrun.
  { apply always_runtime_ApplyClaimed; eauto using recordRuntimeOutput_journaled with calls; apply _. }
  destruct (Hrun w []) as (t' & Ht & Hg). destruct (runtime_ApplyClaimed _ _ _ _ _ _) as [[w' t] r].
  cbn [fst snd app] in Ht, Hg. subst t'. intros before claim' event answer after Heq.
  destruct (Hg _ _ _ Heq) as (Hraw & Href & Hmessage). split_and!; [done| |done].
  intros Hin. destruct (Href Hin) as (id & digest & size & (t0 & f & bound & -> & <- & Hd & <- & -> & ->) & ? & ? & ?).
  exists t0, f, bound. naive_solver.
Qed.
End journal.

(** ** Deliveries *)

(** The authorisation of a reserved answer, called from inside the ledger. *)
Definition authorises_answer (accepted : InvocationRuntimeQuestion) (c : rt_call) : Prop :=
  match c with
  | QAuthorize question phase _ =>
      sameRuntimeQuestionRequest question accepted = true ∧ qst_State question = "answered" ∧ phase = InvocationQuestionEffect
  | _ => False
  end.

(** The authoriser allowed the effect of this answer. *)
Definition consents_answer (accepted : InvocationRuntimeQuestion) (c : rt_call) : Prop :=
  ∃ question, c = QAuthorize question InvocationQuestionEffect None
    ∧ sameRuntimeQuestionRequest question accepted = true ∧ qst_State question = "answered".

(** The contract of the ledger with its client: an answer is reserved only if the
    check it was given allowed one of the questions it was asked. *)
Definition asks_consent {W} (m : QuestionMediation W) : Prop :=
  ∀ c claim effect id w, needs_consent (qm_Begin m c claim effect id w).2.
Definition ledger_asks_consent {W session owned} (d : InvocationRuntimeDriver W session owned) : Prop :=
  ∀ m, ird_questions d = Some m → asks_consent m.

(** The PostgreSQL store keeps the contract.  Its call, with the callback as a question:
    the checks before it, and the whole transaction with the reply it got. *)
Definition begin_checked (s : RuntimeInteraction.session) claim effect id : tx InvocationRuntimeQuestion :=
  reject_if (negb (questionIDPattern id) || negb (validInvocationRuntimeClaim claim)
             || negb (validInvocationRuntimeAttempt claim effect)) ErrInvocationRuntimeQuestionInvalid;;
  lockRuntimeInteractionAttempt s claim effect;;
  v ← existing_question (c_IsolationDomainID claim) id ErrInvocationRuntimeQuestionMissing;
  reject_if (negb (question_of_claim claim effect v)) ErrInvocationRuntimeQuestionConflict;;
  reject_if (bool_decide (qst_State v = "delivering" ∨ qst_State v = "delivery_unknown"))
    ErrInvocationRuntimeQuestionDeliveryAmbiguous;;
  reject_if (bool_decide (qst_State v ≠ "answered")) ErrInvocationRuntimeQuestionConflict;;
  mret v.

Definition committed (d : db) (r : result (db * InvocationRuntimeQuestion)) : db * result InvocationRuntimeQuestion :=
  match r with Ok (d', v) => (d', Ok v) | Err err => (d, Err err) end.

Definition store_begin (s : RuntimeInteraction.session) claim effect id
  : io db (asking db (InvocationRuntimeQuestion * string) (result InvocationRuntimeQuestion)) := λ d,
  (d, match begin_checked s claim effect id d with
      | Err err => Answered (Err err)
      | Ok (_, v) => Asking (v, InvocationQuestionEffect) (λ e d,
          let '(d, r) := committed d (BeginInvocationRuntimeQuestionDelivery s claim effect id (λ _ _, e) d) in (d, Answered r))
      end).

Lemma begin_after_checks s claim effect id authorize d :
  match begin_checked s claim effect id d with
  | Err err => BeginInvocationRuntimeQuestionDelivery s claim effect id authorize d = Err err
  | Ok (_, v) => match authorize v InvocationQuestionEffect with
      | Some err => BeginInvocationRuntimeQuestionDelivery s claim effect id authorize d = Err err
      | None => BeginInvocationRuntimeQuestionDelivery s claim effect id authorize d
                = BeginInvocationRuntimeQuestionDelivery s claim effect id (λ _ _, None) d
      end
  end.
Proof.
  unfold BeginInvocationRuntimeQuestionDelivery, begin_checked. cbv [mbind tx_bind].
  destruct (reject_if _ _ d) as [[d1 []]|err]; [|done].
  destruct (lockRuntimeInteractionAttempt s claim effect d1) as [[d2 []]|err]; [|done].
  destruct (existing_question _ _ _ d2) as [[d3 v]|err]; [|done].
  destruct (reject_if _ _ d3) as [[d4 []]|err]; [|done].
  destruct (reject_if _ _ d4) as [[d5 []]|err]; [|done].
  destruct (reject_if _ _ d5) as [[d6 []]|err]; [|done].
  cbn [mret tx_ret]. unfold authorize_question. by destruct (authorize v _).
Qed.

Lemma store_begin_runs s claim effect id (authorize : InvocationRuntimeQuestionAuthorizer) d :
  (a ← store_begin s claim effect id; run_asking (λ q d, (d, authorize q.1 q.2)) a) d
  = committed d (BeginInvocationRuntimeQuestionDelivery s claim effect id authorize d).
Proof.
  pose proof (begin_after_checks s claim effect id authorize d) as Hrun.
  pose proof (λ e, begin_after_checks s claim effect id (λ _ _, e) d) as Hwith.
  unfold store_begin, mbind, io_bind. destruct (begin_checked s claim effect id d) as [[d1 v]|err]; cbn; [|by rewrite Hrun].
  destruct (authorize v InvocationQuestionEffect) as [err|]; rewrite Hrun; [rewrite (Hwith (Some err)); done|].
  by destruct (committed _ _).
Qed.

Lemma store_begin_asks_consent s claim effect id d : needs_consent (store_begin s claim effect id d).2.
Proof.
  unfold store_begin. cbn [snd].
  destruct (begin_checked s claim effect id d) as [[d1 v]|err]; cbn [needs_consent]; [|done].
  intros err w. pose proof (begin_after_checks s claim effect id (λ _ _, Some err) w) as Hrun.
  destruct (begin_checked s claim effect id w) as [[d2 v2]|err2]; rewrite Hrun; done.
Qed.

Definition delivered_call (consented : Prop) (before : list rt_call) (call : rt_call) : Prop :=
  match call with
  | AResolve _ _ decision _ => ∃ t0 accepted answer v,
      before = t0 ++ [AGet (Ok accepted); AAuthorize accepted InvocationApprovalPhaseEffect answer;
                      ABegin (apr_ID accepted) decision (Ok v)]
      ∧ apr_State accepted = "resolved" ∧ approval_resolved_now accepted = true ∧ approval_reserved decision accepted v = true
      ∧ match answer with
        | None => decision = apr_Decision accepted
        | Some err => is_err err ErrInvocationApprovalDenied = true ∧ decision = "deny"
        end
  | QAnswer _ _ answers _ => ∃ t0 accepted asked,
      before = t0 ++ QGet (Ok accepted) :: QBegin (qst_ID accepted) :: asked ∧ Forall (authorises_answer accepted) asked
      ∧ (consented → Exists (consents_answer accepted) asked)
      ∧ qst_State accepted = "answered" ∧ qst_Version accepted = 2%Z ∧ answers = qst_Answers accepted
      ∧ ValidateQuestionAnswers (qst_Prompts accepted) answers = Ok tt
  | _ => True
  end.

Definition not_delivery (c : rt_call) : bool := match c with AResolve _ _ _ _ | QAnswer _ _ _ _ => false | _ => true end.

#[export] Instance delivered_extensible consented : Extensible (delivered_call consented).
Proof.
  intros t t1 [] Hc; try done; cbn in *.
  - destruct Hc as (t0 & accepted & answer' & v & -> & Hc). exists (t ++ t0), accepted, answer', v. by rewrite app_assoc.
  - destruct Hc as (t0 & accepted & asked & -> & Hc). exists (t ++ t0), accepted, asked. by rewrite app_assoc.
Qed.
#[export] Instance delivered_allows consented : Allows (guarded (delivered_call consented)) not_delivery.
Proof. intros [] Hc; try done; by apply guarded_cons; [intros [] ? ?|]. Qed.
#[export] Hint Extern 1 (Allows (guarded (delivered_call _)) _) =>
  refine (allows_sub _ not_delivery _ (delivered_allows _) _); by intros [] : typeclass_instances.

Lemma delivered_quiet consented t : Forall (λ c, not_delivery c = true) t → guarded (delivered_call consented) t.
Proof. intros Ht t1 c t2 ->. apply Forall_app in Ht as [_ [Hc _]%Forall_cons]. by destruct c. Qed.

(** A log with one delivery. *)
Lemma delivered_log consented before call after :
  Forall (λ c, not_delivery c = true) before → delivered_call consented before call → Forall (λ c, not_delivery c = true) after →
  guarded (delivered_call consented) (before ++ call :: after).
Proof.
  intros Hb Hc Ha. rewrite (app_assoc before [call] after : before ++ call :: after = _).
  apply local_app; [|by apply delivered_quiet]. apply guarded_snoc; [by apply delivered_quiet|done].
Qed.

Ltac quiet_end := apply traced_ret; apply delivered_quiet; by repeat constructor.

Section delivery.
Context {W session owned : Type} `{RuntimeLibrary, ImageDecoder} (d : InvocationRuntimeDriver W session owned).
Context (t : Turn W) (effect : EffectRecord).
Abbreviation driver := (logged_runtime_driver d).
Abbreviation turn := (logged_turn t).
Abbreviation consented := (ledger_asks_consent d).

Definition allowed_by (accepted : InvocationRuntimeApproval) (effective : string) (answer : option error) : Prop :=
  match answer with
  | None => effective = apr_Decision accepted
  | Some err => is_err err ErrInvocationApprovalDenied = true ∧ effective = "deny"
  end.

Lemma approval_deliver_delivered m c claim pending adapterID effective accepted answer v :
  apr_State accepted = "resolved" → approval_resolved_now accepted = true → approval_reserved effective accepted v = true →
  allowed_by accepted effective answer →
  traced (approval_deliver driver turn effect (logged_approvals m) c claim pending adapterID effective v) (λ t _,
    guarded (delivered_call consented) ([AGet (Ok accepted); AAuthorize accepted InvocationApprovalPhaseEffect answer;
      ABegin (apr_ID accepted) effective (Ok v)] ++ t)).
Proof.
  intros Hs Hr Hv Ha. unfold approval_deliver.
  repeat trace_step; try (apply (delivered_log _ [_; _; _]); [by repeat constructor| |by repeat constructor];
    exists [], accepted, answer, v; done).
  all: by apply delivered_quiet; repeat constructor.
Qed.

Lemma approval_decided_delivered m pending_call c claim pending adapterID accepted :
  (∀ c id, always (λ t, t = []) (pending_call c id)) →
  apr_State accepted = "resolved" → approval_resolved_now accepted = true →
  traced (approval_decided driver turn effect (logged_approvals m) pending_call c claim pending adapterID accepted) (λ t _,
    guarded (delivered_call consented) (AGet (Ok accepted) :: t)).
Proof.
  intros Hp Hs Hr. unfold approval_decided. cbn zeta.
  assert (∀ effective answer, allowed_by accepted effective answer → traced
    (on_error (ready driver c) (λ err, mret (pending, Some err))
      (on_result (pending_call c adapterID) (λ err, mret (pending, Some err)) (λ active,
       if negb active then approval_close driver effect c claim pending "runtime-request-cleared"
       else on_result (am_Begin (logged_approvals m) c claim effect (apr_ID accepted) effective) (λ err, mret (pending, Some err)) (λ v,
         if negb (approval_reserved effective accepted v) then mret (pending, Some ErrInvocationRuntimeApprovalConflict)
         else approval_deliver driver turn effect (logged_approvals m) c claim pending adapterID effective v))))
    (λ t _, guarded (delivered_call consented) ([AGet (Ok accepted); AAuthorize accepted InvocationApprovalPhaseEffect answer] ++ t))) as Hgo.
  { intros effective answer Ha. do 2 (trace_step; [quiet_end|]). trace_step.
    - eapply traced_mono; [apply (always_approval_close d effect (Forall (λ c, not_delivery c = true)))|].
      intros t' ? Ht'. apply delivered_quiet. by apply Forall_app; split; [repeat constructor|].
    - do 2 (trace_step; [quiet_end|]).
      apply approval_deliver_delivered; [done..| |done]. by destruct (approval_reserved _ _ _). }
  apply traced_logging_bind. intros [err|]; [destruct (is_err err _) eqn:Hd|].
  - by apply (Hgo "deny" (Some err)).
  - quiet_end.
  - by apply (Hgo (apr_Decision accepted) None).
Qed.

Lemma approval_poll_delivered c claim entry : always (guarded (delivered_call consented)) (approval_poll driver turn effect c claim (Some entry)).
Proof.
  destruct entry as [original adapterID]. unfold approval_poll. expose.
  destruct (ird_approvals d) as [m|]; [|apply always_ret; apply _].
  destruct (turn_ApprovalPending t) as [is_pending|]; [|apply always_ret; apply _]. unfold always.
  do 2 (trace_step; [quiet_end|]). trace_step; [by apply (always_approval_close d effect (guarded (delivered_call consented))); apply _|].
  trace_step; [quiet_end|]. repeat trace_step; try (apply delivered_quiet; by repeat constructor).
  apply approval_decided_delivered; [intros; walk|done|by destruct (approval_resolved_now _)].
Qed.

(** The ledger's calls back while it reserves an answer. *)
Lemma question_authorize_calls m c accepted asked :
  traced (question_authorize driver (logged_questions m) c accepted asked) (λ t e,
    Forall (authorises_answer accepted) t ∧ (e = None → Exists (consents_answer accepted) t)).
Proof.
  unfold question_authorize. destruct (_ || _) eqn:Hc; [by apply traced_ret|].
  apply orb_false_elim in Hc as [Hsame%negb_false_iff Hrest%bool_decide_eq_false].
  trace_step; [by apply traced_ret|].
  assert (qst_State asked.1 = "answered" ∧ asked.2 = InvocationQuestionEffect) as [Hs Hp] by (split; apply dec_stable; naive_solver).
  apply traced_logging. intros answer. split; [by repeat constructor|]. intros ->. constructor. exists asked.1. by rewrite Hp.
Qed.

Lemma question_answered_delivered m (qturn : QuestionTurn W) c claim pending adapterID accepted :
  ird_questions d = Some m →
  qst_State accepted = "answered" → qst_Version accepted = 2%Z →
  ValidateQuestionAnswers (qst_Prompts accepted) (qst_Answers accepted) = Ok tt →
  traced (question_answered driver effect (logged_questions m) (MkQuestionTurn _ (λ c id, silently (qt_QuestionPending qturn c id))
      (λ c id answers, logging (QAnswer c id answers) (qt_AnswerQuestion qturn c id answers))) c claim pending adapterID accepted) (λ t _,
    guarded (delivered_call consented) (QGet (Ok accepted) :: t)).
Proof.
  intros Hm Hs Hv Hok. unfold question_answered. trace_step; [quiet_end|].
  eapply traced_bind; [apply (traced_asking_consent (Forall (authorises_answer accepted)) (consents_answer accepted));
    intros; apply question_authorize_calls|].
  intros ? [v|err] (asked & -> & Hasked & Hconsent).
  all: assert (Forall (λ c, not_delivery c = true) asked) as Hq by (eapply Forall_impl; [exact Hasked|]; by intros []).
  2:{ apply traced_ret. apply delivered_quiet. rewrite app_nil_r. by repeat constructor. }
  destruct (question_reserved accepted v) eqn:Hr; cbn [negb].
  2:{ apply traced_ret. apply delivered_quiet. rewrite app_nil_r. by repeat constructor. }
  assert (qst_Answers v = qst_Answers accepted) as ->.
  { unfold question_reserved in Hr. apply andb_prop in Hr as [_ Hr%bool_decide_eq_true]. naive_solver. }
  assert (consented → Exists (consents_answer accepted) asked) as Hwith.
  { intros Hall. apply Hconsent; [|done]. intros w. by apply Hall. }
  trace_step; [apply traced_ret; apply delivered_quiet; rewrite app_nil_r; by repeat constructor|].
  repeat trace_step; (apply (delivered_log _ (QGet (Ok accepted) :: QBegin (qst_ID accepted) :: asked)); [by repeat constructor| |by repeat constructor];
    exists [], accepted, asked; done).
Qed.

Lemma question_poll_delivered c claim pending : always (guarded (delivered_call consented)) (question_poll driver turn effect c claim pending).
Proof.
  destruct pending as [[original adapterID]|]; [|apply always_ret; apply _]. unfold question_poll. expose.
  destruct (ird_questions d) as [m|] eqn:Hm; [|apply always_ret; apply _].
  destruct (turn_questions t) as [qturn|]; [|apply always_ret; apply _]. unfold always.
  trace_step; [quiet_end|]. trace_step; [by apply (always_question_close d effect (guarded (delivered_call consented))); apply _|].
  trace_step; [quiet_end|]. destruct (sameRuntimeQuestionRequest a0 original) eqn:Hsame; [|quiet_end]. cbn [negb].
  apply bool_decide_eq_true in Hsame.
  repeat (trace_step; [quiet_end||(trace_step; quiet_end)|]).
  trace_step; [|quiet_end]. trace_step; [quiet_end|].
  match goal with E' : negb (_ && _) = false |- _ => apply negb_false_iff, andb_prop in E' as [Hv%bool_decide_eq_true Hok] end.
  assert (qst_Prompts a0 = qst_Prompts original) as Hp by naive_solver. rewrite <- Hp in Hok.
  apply question_answered_delivered; [done..|]. by destruct (ValidateQuestionAnswers _ _) as [[]|].
Qed.

End delivery.

(** C15: for every collaborator, a decision reaches the agent only in this way.  An
    approval: the ledger was asked and answered a decision of a user; the effect of
    this approval was authorised, or denied, and the denial turns the decision into
    a refusal; that decision was reserved for delivery; and the very next call hands
    it over.  An answer: the ledger answered the user's answers, they fit the
    prompts, and while it reserved them the ledger put nothing to the authoriser but
    this question in its answered state; if the ledger keeps its contract, to reserve
    an answer only with the consent of the check it is given
    ([store_begin_asks_consent]: the PostgreSQL store does), then the authoriser was
    asked for the effect of this answered question and allowed it, after the answers
    were read and before they were handed over.  Nothing else is ever delivered. *)
Theorem runtime_delivery_authorised {W session owned} `{RuntimeLibrary, ImageDecoder}
    (d : InvocationRuntimeDriver W session owned) fuel c claim effect (w : W) :
  let '((_, t), _) := runtime_ApplyClaimed (logged_runtime_driver d) fuel c claim effect (w, []) in
  (∀ before c' adapterID decision e after, t = before ++ AResolve c' adapterID decision e :: after →
     ∃ t0 accepted answer v,
       before = t0 ++ [AGet (Ok accepted); AAuthorize accepted InvocationApprovalPhaseEffect answer;
                       ABegin (apr_ID accepted) decision (Ok v)]
       ∧ apr_State accepted = "resolved" ∧ approval_resolved_now accepted = true ∧ approval_reserved decision accepted v = true
       ∧ match answer with
         | None => decision = apr_Decision accepted
         | Some err => is_err err ErrInvocationApprovalDenied = true ∧ decision = "deny"
         end)
  ∧ (∀ before c' adapterID answers e after, t = before ++ QAnswer c' adapterID answers e :: after →
     ∃ t0 accepted asked, before = t0 ++ QGet (Ok accepted) :: QBegin (qst_ID accepted) :: asked
       ∧ Forall (authorises_answer accepted) asked
       ∧ (ledger_asks_consent d → Exists (consents_answer accepted) asked)
       ∧ qst_State accepted = "answered" ∧ answers = qst_Answers accepted
       ∧ ValidateQuestionAnswers (qst_Prompts accepted) answers = Ok tt).
Proof.
  assert (always (guarded (delivered_call (ledger_asks_consent d)))
    (runtime_ApplyClaimed (logged_runtime_driver d) fuel c claim effect)) as Hrun.
  { apply always_runtime_ApplyClaimed; eauto using approval_poll_delivered, question_poll_delivered with calls; apply _. }
  destruct (Hrun w []) as (t' & Ht & Hg). destruct (runtime_ApplyClaimed _ _ _ _ _ _) as [[w' t] r].
  cbn [fst snd app] in Ht, Hg. subst t'. split.
  - intros before c' adapterID decision e after Heq. exact (Hg _ _ _ Heq).
  - intros before c' adapterID answers e after Heq.
    destruct (Hg _ _ _ Heq) as (t0 & accepted & asked & -> & ? & ? & ? & ? & ? & ?). by exists t0, accepted, asked.
Qed.
