(* ===== verification/RuntimeJournal.v ===== *)
(** * The driver and the journal agree

    Every reference and every inline message that a run hands to the journal passes the
    checks the journal makes first.  A streamed delta does not always: its text is
    bounded, its encoding is not. *)
From stdpp Require Import pretty.
From S2P Require Import Prelude.
From S2P Require Import CallLog.
From S2P Require Import GoStrings.
From S2P Require Import Sha256.
From S2P Require Import GoJson.
From S2P Require Import GoDecode.
From S2P Require Import GoPath.
From S2P Require Import Questions.
From S2P Require Import RuntimeTables.
From S2P Require Import Database.
From S2P Require Import OperationStore.
From S2P Require Import RuntimeInteraction.
From S2P Require Import RuntimeApproval.
From S2P Require Import RuntimeQuestion.
From S2P Require Import Reconciler.
From S2P Require Import GatewayStore.
From S2P Require Import Drivers.
From S2P Require Import RuntimeOutput.
From S2P Require Import RuntimeRequest.
From S2P Require Import RuntimeOutputProofs.
From S2P Require Import RuntimeDriver.
From S2P Require Import RuntimeReference.
From S2P Require Import RuntimeTurn.
From S2P Require Import RuntimeLogic.
From S2P Require Import RuntimeParts.
From S2P Require Import RuntimeGuards.

(** * The journal takes what the driver records

    The references the driver writes are ones the journal reads: their identifiers and
    digests have the required shape, their sizes and counts are within the limits and
    their previews are short text without NUL; encoded, they stay far below the limit
    on payloads. *)

(** ** Shapes *)

Lemma artifact_id_shape seed : runtimeArtifactID (Identity.Derived "art" seed) = true.
Proof.
  apply (Identity.hex_ten_matches "art"); [done|]. apply Forall_take, Sha256.Sum256_bytes.
Qed.

Lemma artifact_digest_shape content : runtimeArtifactDigest (Sha256.digest_string content) = true.
Proof.
  apply match_prefixed_spec. eexists. split; [done|]. rewrite Sha256.hex_encode_length, Sha256.length_Sum256. split; [lia|].
  apply Sha256.hex_encode_class, Sha256.Sum256_bytes.
Qed.

(** Text of these classes is ASCII, hence valid UTF-8. *)
Lemma prefixed_utf8 pfx class lo hi s :
  (∀ c, class c = true → (byte_value c < 128)%N) → all_bytes (λ c, (byte_value c <? 128)%N) pfx = true →
  match_prefixed pfx class lo hi s = true → valid_utf8 s = true.
Proof.
  intros Hclass Hpfx (rest & -> & _ & Hrest)%match_prefixed_spec. unfold all_bytes, valid_utf8, runes in *.
  rewrite bytes_of_app. revert Hpfx. induction (bytes_of pfx) as [|c bs IH]; cbn [forallb app].
  - intros _. induction (bytes_of rest) as [|c bs IH]; [done|]. cbn [forallb] in Hrest. apply andb_prop in Hrest as [Hc Hbs].
    cbn [runes_of]. apply Hclass, N.ltb_lt in Hc. rewrite Hc. cbn. by apply IH.
  - intros [Hc Hbs]%andb_prop. cbn [runes_of]. rewrite Hc. cbn. by apply IH.
Qed.

Lemma id_ascii c : is_id_char c = true → (byte_value c < 128)%N.
Proof. unfold is_id_char, is_digit, is_lower, in_range. rewrite orb_true_iff, !andb_true_iff, !N.leb_le. lia. Qed.
Lemma hex_ascii c : is_hex_lower c = true → (byte_value c < 128)%N.
Proof. unfold is_hex_lower, is_digit, in_range. rewrite orb_true_iff, !andb_true_iff, !N.leb_le. lia. Qed.

Lemma artifact_id_utf8 id : runtimeArtifactID id = true → valid_utf8 id = true.
Proof. by apply prefixed_utf8; [apply id_ascii|]. Qed.
Lemma artifact_digest_utf8 digest : runtimeArtifactDigest digest = true → valid_utf8 digest = true.
Proof. by apply prefixed_utf8; [apply hex_ascii|]. Qed.

(** ** Limits *)

Lemma limit_message : MaximumMessageTextBytes = 1048576%Z. Proof. reflexivity. Qed.
Lemma limit_command : MaximumCommandOutputBytes = 1048576%Z. Proof. reflexivity. Qed.
Lemma limit_patch : MaximumPatchBytes = 1048576%Z. Proof. reflexivity. Qed.
Lemma limit_plan : MaximumPlanBytes = 1048576%Z. Proof. reflexivity. Qed.
Lemma limit_tool : MaximumToolOutputBytes = 1048576%Z. Proof. reflexivity. Qed.
Lemma limit_image : MaximumImageBytes = 4194304%Z. Proof. reflexivity. Qed.
Lemma limit_preview : Z.of_nat MaximumMessagePreviewBytes = 1024%Z. Proof. reflexivity. Qed.
Lemma limit_inline : Z.of_nat MaximumInlineMessageTextBytes = 65536%Z. Proof. reflexivity. Qed.
Lemma limit_payload : maximumInvocationRuntimeEventPayloadBytes = 262144%Z. Proof. reflexivity. Qed.

Ltac limits :=
  rewrite ?limit_message, ?limit_command, ?limit_patch, ?limit_plan, ?limit_tool, ?limit_image, ?limit_preview, ?limit_inline, ?limit_payload in *.

(** Decide the numeric checks of a reader. *)
Ltac check_numbers :=
  unfold size_within; limits;
  repeat match goal with
  | |- context [(?a <? ?b)%Z] => rewrite (proj2 (Z.ltb_lt a b)) by lia
  | |- context [(?a <=? ?b)%Z] => rewrite (proj2 (Z.leb_le a b)) by lia
  end.

(** ** Readable references *)

Ltac reference_fields :=
  unfold get_string, present; repeat first [rewrite get_here|rewrite get_there by done]; cbn [int_field int64_of mbind option_bind].

Ltac small_ints := repeat rewrite (decide_True (P:=(-9223372036854775808 ≤ _ ≤ 9223372036854775807)%Z)) by (limits; lia).

Section readable.
Context (id digest : string) (Hi : runtimeArtifactID id = true) (Hd : runtimeArtifactDigest digest = true).

Lemma message_reference_readable size phase preview :
  (0 < size ≤ MaximumMessageTextBytes)%Z → valid_phase phase = true → valid_utf8 phase = true → valid_utf8 preview = true →
  (go_len preview ≤ 1024)%Z → contains_rune_nul preview = false →
  is_ok (ParseMessageArtifact (message_artifact_payload (MkMessageArtifact id digest size phase preview))) = true.
Proof.
  intros Hs Hp Hpu Hv Hl Hn. unfold ParseMessageArtifact, message_artifact_payload.
  cbn [ma_ArtifactID ma_Digest ma_SizeBytes ma_Phase ma_Preview]. reference_fields. small_ints.
  rewrite (artifact_id_utf8 _ Hi), (artifact_digest_utf8 _ Hd), Hi, Hd, Hp, Hpu, Hv, Hn, bool_decide_eq_true_2 by done.
  by check_numbers.
Qed.

Lemma command_reference_readable size status code preview :
  (0 ≤ size ≤ MaximumCommandOutputBytes)%Z → validOutputStatus status = true → valid_utf8 status = true →
  int32_of (exit_any code) = Some code → valid_utf8 preview = true → (go_len preview ≤ 1024)%Z → contains_rune_nul preview = false →
  is_ok (ParseCommandArtifact (command_artifact_payload (MkCommandArtifact id digest size status code preview))) = true.
Proof.
  intros Hs Hst Hsu Hc Hv Hl Hn. unfold ParseCommandArtifact, command_artifact_payload.
  cbn [ca_ArtifactID ca_Digest ca_SizeBytes ca_Status ca_ExitCode ca_Preview]. reference_fields. small_ints. rewrite Hc.
  rewrite (artifact_id_utf8 _ Hi), (artifact_digest_utf8 _ Hd), Hi, Hd, Hst, Hsu, Hv, Hn, bool_decide_eq_true_2 by done.
  by check_numbers.
Qed.

Lemma patch_reference_readable size status count :
  (0 < size ≤ MaximumPatchBytes)%Z → validOutputStatus status = true → (1 ≤ count ≤ 256)%Z →
  is_ok (ParsePatchArtifact (patch_artifact_payload (MkPatchArtifact id digest size status count (PatchPreview count)))) = true.
Proof.
  intros Hs Hst Hc. unfold ParsePatchArtifact, patch_artifact_payload.
  cbn [pa_ArtifactID pa_Digest pa_SizeBytes pa_Status pa_ChangeCount pa_Preview].
  change (get_folded _ "sizeBytes") with (Some (AInt size)). change (get_folded _ "changeCount") with (Some (AInt count)).
  reference_fields. small_ints. rewrite Hi, Hd, Hst, !bool_decide_eq_true_2 by done. unfold MaximumPatchChanges. by check_numbers.
Qed.

Lemma plan_reference_readable size steps completed inProgress :
  (0 < size ≤ MaximumPlanBytes)%Z → (0 ≤ completed)%Z → (0 ≤ inProgress)%Z → (completed + inProgress ≤ steps ≤ 256)%Z →
  is_ok (ParsePlanArtifact (plan_artifact_payload (MkPlanArtifact id digest size steps completed inProgress PlanPreview))) = true.
Proof.
  intros Hs Hc Hp Ht. unfold ParsePlanArtifact, plan_artifact_payload.
  cbn [pta_ArtifactID pta_Digest pta_SizeBytes pta_StepCount pta_CompletedCount pta_InProgressCount pta_Preview].
  reference_fields. small_ints. rewrite Hi, Hd, !bool_decide_eq_true_2 by done. unfold MaximumPlanSteps. by check_numbers.
Qed.

Lemma tool_reference_readable size status count :
  (0 < size ≤ MaximumToolOutputBytes)%Z → status ∈ ["completed"; "failed"] → (0 ≤ count ≤ 256)%Z →
  is_ok (ParseToolArtifact (tool_artifact_payload (MkToolArtifact id digest size status count ToolOutputPreview))) = true.
Proof.
  intros Hs Hst Hc. unfold ParseToolArtifact, tool_artifact_payload.
  cbn [tla_ArtifactID tla_Digest tla_SizeBytes tla_Status tla_ContentCount tla_Preview].
  reference_fields. small_ints. rewrite Hi, Hd, !bool_decide_eq_true_2 by done. unfold MaximumToolContentItems. by check_numbers.
Qed.

Lemma image_reference_readable size mediaType width height :
  (0 < size ≤ MaximumImageBytes)%Z → validImageMediaType mediaType = true → validImageDimensions width height = true →
  is_ok (ParseImageArtifact (image_artifact_payload (MkImageArtifact id digest size mediaType width height ImagePreview))) = true.
Proof.
  intros Hs Hm Hdim. unfold ParseImageArtifact, image_artifact_payload.
  cbn [ia_ArtifactID ia_Digest ia_SizeBytes ia_MediaType ia_Width ia_Height ia_Preview].
  change (get_folded _ "sizeBytes") with (Some (AInt size)). change (get_folded _ "width") with (Some (AInt width)).
  change (get_folded _ "height") with (Some (AInt height)).
  assert (0 < width ≤ 8192 ∧ 0 < height ≤ 8192)%Z.
  { unfold validImageDimensions, MaximumImageDimension in Hdim. rewrite !andb_true_iff, !Z.ltb_lt, !Z.leb_le in Hdim. lia. }
  reference_fields. small_ints. rewrite Hi, Hd, Hm, Hdim, !bool_decide_eq_true_2 by done. by check_numbers.
Qed.
End readable.

(** ** The size of an encoding *)

Lemma slen_app s t : slen (s +:+ t) = slen s + slen t.
Proof. by rewrite <- !length_bytes_of, bytes_of_app, length_app. Qed.

Lemma slen_String c s : slen (String c s) = S (slen s).
Proof. done. Qed.

Lemma slen_of_bytes l : slen (of_bytes l) = length l.
Proof. by rewrite <- length_bytes_of, bytes_of_of. Qed.

Lemma pretty_N_go_length k : ∀ x s, (x < 10 ^ N.of_nat k)%N → slen (pretty_N_go x s) ≤ k + slen s.
Proof.
  induction k as [|k IH]; intros x s Hx; (destruct (decide (x = 0)%N) as [->|]; [rewrite pretty_N_go_0; lia|]).
  - cbn in Hx. lia.
  - rewrite pretty_N_go_step by lia. etrans; [apply IH|rewrite slen_String; lia].
    apply N.Div0.div_lt_upper_bound. rewrite Nat2N.inj_succ, N.pow_succ_r' in Hx. exact Hx.
Qed.

Lemma pretty_length (z : Z) : (-10000000000 < z < 10000000000)%Z → slen (pretty z) ≤ 11.
Proof.
  assert (∀ n : N, (n < 10000000000)%N → slen (pretty n) ≤ 10) as HN.
  { intros n Hn. unfold pretty, pretty_N. destruct (decide _); [cbn; lia|].
    pose proof (pretty_N_go_length 10 n "") as Hp. change (slen "") with 0 in Hp. apply Hp in Hn. lia. }
  intros Hz. destruct z as [|p|p]; [cbn; lia| |].
  - change (pretty (Zpos p)) with (pretty (Npos p)). pose proof (HN (Npos p)). lia.
  - change (pretty (Zneg p)) with ("-" +:+ pretty (Npos p)). rewrite slen_app. change (slen "-") with 1.
    pose proof (HN (Npos p)). lia.
Qed.

Lemma hex4_length n : slen (hex4 n) = 4.
Proof. reflexivity. Qed.

Lemma escape_length r : slen (escape_rune r) ≤ 6 `max` length (rune_bytes r).
Proof. unfold escape_rune. repeat case_match; try (cbn; lia). all: rewrite ?slen_app, ?hex4_length, ?slen_of_bytes; cbn; lia. Qed.

Lemma marshal_string_length s : slen (marshal_string s) ≤ 6 * slen s + 2.
Proof.
  unfold marshal_string. rewrite !slen_app. cbn [slen]. rewrite <- (length_bytes_of s). unfold runes.
  assert (slen (foldr (λ r acc, escape_rune r +:+ acc) EmptyString (runes_of (bytes_of s))) ≤ 6 * length (bytes_of s)); [|cbn; lia].
  induction (bytes_of s) as [|bs r tail -> E Hr IH] using runes_of_ind; [cbn; lia|]. rewrite E. cbn [foldr].
  rewrite slen_app, length_app. pose proof (escape_length r).
  assert (1 ≤ length (rune_bytes r)); [|lia].
  destruct (rune_bytes r) as [|b bs] eqn:Eb; [|cbn; lia]. exfalso. cbn in E.
  apply (f_equal length) in E. cbn in E. lia.
Qed.

Lemma join_length l B : Forall (λ s, slen s ≤ B) l → slen (join "," l) ≤ length l * (B + 1).
Proof.
  induction 1 as [|s l Hs Hl IH]; [cbn; lia|]. destruct l as [|s' l]; [cbn [join length]; lia|].
  change (join "," (s :: s' :: l)) with (s +:+ "," +:+ join "," (s' :: l)). rewrite !slen_app. change (slen ",") with 1.
  cbn [length] in *. lia.
Qed.

(** A map whose values have texts, with a bound on what it encodes to. *)
Lemma map_encoding fields texts B :
  Forall2 (λ f kt, kt.1 = f.1 ∧ any_text f.2 = Some kt.2) fields texts →
  Forall (λ kt, slen (marshal_string kt.1) + slen kt.2 ≤ B) texts →
  ∃ text, any_text (AMap fields) = Some text ∧ slen text ≤ 2 + length texts * (B + 2).
Proof.
  intros Hf Hb. cbn [any_text].
  match goal with |- context [?go fields ≫= _] => assert (go fields = Some texts) as -> end.
  { clear Hb. induction Hf as [|[k v] [k' t] fields texts [Hk Ht] _ IH]; [done|]. cbn in Hk, Ht. subst k'. rewrite Ht. cbn. by rewrite IH. }
  cbn [mbind option_bind]. eexists. split; [done|]. rewrite !slen_app.
  set (found := λ k : string, match list_find (λ kt : string * string, kt.1 = k) texts with
    | Some (_, kt) => [marshal_string k +:+ ":" +:+ kt.2] | None => [] end).
  assert (∀ keys, Forall (λ s, slen s ≤ B + 1) (keys ≫= found) ∧ length (keys ≫= found) ≤ length keys) as Hk.
  { induction keys as [|k keys [IH1 IH2]]; [by split; [constructor|]|].
    change ((k :: keys) ≫= found) with (found k ++ (keys ≫= found)). rewrite Forall_app, length_app.
    unfold found at 1 3. destruct (list_find _ texts) as [[i kt]|] eqn:Hfind; [|split; [split; [constructor|done]|cbn; lia]].
    apply list_find_Some in Hfind as (Hi & <- & _). rewrite Forall_forall in Hb. apply list_elem_of_lookup_2, Hb in Hi.
    split; [split; [|done]|cbn; lia]. repeat constructor. rewrite !slen_app. change (slen ":") with 1. lia. }
  destruct (Hk (sort_strings texts.*1)) as [H1 H2]. pose proof (join_length _ _ H1) as Hj. fold found.
  assert (length (sort_strings texts.*1) = length texts) as Hlen.
  { unfold sort_strings. by rewrite merge_sort_Permutation, length_fmap. }
  change (slen "{") with 1. change (slen "}") with 1. rewrite Hlen in H2. nia.
Qed.

Definition small_value (v : any) : Prop :=
  match v with
  | AStr s => slen s ≤ 1024
  | AInt z | AInt32 z => (-10000000000 < z < 10000000000)%Z
  | ANil => True
  | _ => False
  end.

Lemma small_encoding (fields : payload) :
  Forall (λ f, slen f.1 ≤ 20 ∧ small_value f.2) fields → length fields ≤ 7 →
  ∃ text, any_text (AMap fields) = Some text ∧ (go_len text ≤ maximumInvocationRuntimeEventPayloadBytes)%Z.
Proof.
  intros Hs Hl.
  assert (∃ texts, Forall2 (λ f kt, kt.1 = f.1 ∧ any_text f.2 = Some kt.2) fields texts
    ∧ Forall (λ kt, slen (marshal_string kt.1) + slen kt.2 ≤ 6 * 1024 + 124) texts ∧ length texts = length fields) as (texts & H2 & Hb & Hlen).
  { clear Hl. induction Hs as [|[k v] fields [Hk Hv] _ (texts & H2 & Hb & Hlen)]; [by exists []; repeat constructor|].
    cbn [fst snd] in Hk, Hv. pose proof (marshal_string_length k) as Hm.
    assert (∃ text, any_text v = Some text ∧ slen text ≤ 6 * 1024 + 2) as (text & Ht & Hlt).
    { destruct v; try done; cbn [any_text small_value] in *; eexists; (split; [done|]).
      - cbn. lia.
      - pose proof (pretty_length z Hv). lia.
      - pose proof (pretty_length z Hv). lia.
      - pose proof (marshal_string_length s). lia. }
    exists ((k, text) :: texts). split_and!; [by constructor|constructor; [cbn [fst snd]; lia|done]|cbn; by rewrite Hlen]. }
  destruct (map_encoding fields texts (6 * 1024 + 124) H2 Hb) as (text & -> & Ht). exists text. split; [done|].
  limits. unfold go_len. fold (slen text). rewrite Hlen in Ht. nia.
Qed.

Abbreviation reference_types :=
  [MessageArtifactEvent; CommandArtifactEvent; PatchArtifactEvent; ImageArtifactEvent; ToolArtifactEvent; PlanArtifactEvent].

Lemma reference_valid event :
  re_SourceSequence event ≠ 0%Z → re_Type event ∈ reference_types →
  Forall (λ f, slen f.1 ≤ 20 ∧ small_value f.2) (re_Payload event) → length (re_Payload event) ≤ 7 →
  reference_readable event = true → runtime_event_valid event = true.
Proof.
  intros Hs Ht Hsmall Hl Hr. destruct (small_encoding _ Hsmall Hl) as (text & He & Hb). unfold runtime_event_valid.
  rewrite He, Hr, (proj2 (Z.leb_le _ _) Hb), (bool_decide_eq_false_2 _ Hs), !andb_true_iff. clear He Hr Hb Hsmall.
  repeat (apply elem_of_cons in Ht as [->|Ht]); [..|by apply elem_of_nil in Ht]; vm_compute; done.
Qed.

Definition checked_types : list string := MessageCompletedEvent :: artifact_event_types.

Definition journal_ok (c : rt_call) : Prop :=
  match c with
  | RJournal _ event _ => re_Type event ∈ checked_types → runtime_event_valid event = true
  | _ => True
  end.

Lemma marshal_object_length fields : (0 < go_len (marshal (JObj fields)))%Z.
Proof. unfold go_len. cbn [marshal]. fold slen. change (String.length ?s) with (slen s). rewrite !slen_app. change (slen "{") with 1. lia. Qed.

Lemma preview_facts text :
  valid_utf8 text = true →
  valid_utf8 (MessagePreview text) = true ∧ (go_len (MessagePreview text) ≤ 1024)%Z ∧ contains_rune_nul (MessagePreview text) = false.
Proof.
  intros Hv. split_and!; [by apply preview_utf8| |apply preview_no_nul].
  pose proof limit_preview. pose proof (preview_length text MaximumMessagePreviewBytes).
  unfold go_len. fold (slen (MessagePreview text)). unfold MessagePreview. lia.
Qed.

Section journal.
Context {W session owned : Type} `{RuntimeLibrary, ImageDecoder} (d : InvocationRuntimeDriver W session owned).
Abbreviation driver := (logged_runtime_driver d).
Abbreviation journal_oks := (Forall journal_ok).

(** The record a snapshot is finalised under. *)
Lemma finalized_record c claim effect target sequence namespace name kind mediaType content :
  traced (finalizeRuntimeArtifact driver c claim effect target sequence namespace name kind mediaType content) (λ t r,
    journal_oks t ∧ ∀ record, r = Ok record →
      runtimeArtifactID (ar_ID record) = true ∧ runtimeArtifactDigest (ar_Digest record) = true ∧ ar_SizeBytes record = go_len content).
Proof.
  apply traced_and; [by apply (always_finalizeRuntimeArtifact d journal_oks); apply _|].
  unfold finalizeRuntimeArtifact. repeat trace_step; try done.
  intros record [= <-]. split_and!; [apply artifact_id_shape|apply artifact_digest_shape|done].
Qed.

Lemma record_reference_ok c claim effect target sequence namespace name kind mediaType content type reference :
  (∀ record, runtimeArtifactID (ar_ID record) = true → runtimeArtifactDigest (ar_Digest record) = true →
     ar_SizeBytes record = go_len content → runtime_event_valid (MkRuntimeEvent sequence type (reference record)) = true) →
  always journal_oks (record_reference driver c claim effect target sequence namespace name kind mediaType content type reference).
Proof.
  intros Href. eapply traced_bind; [apply finalized_record|]. intros t [record|err] [Ht Hr].
  - apply traced_logging. intros answer. apply Forall_app; split; [done|]. repeat constructor. intros _.
    destruct (Hr record eq_refl) as (? & ? & ?). by apply Href.
  - apply traced_ret. by rewrite app_nil_r.
Qed.

Lemma sequence_nonzero sequence : sequence_valid sequence = true → sequence ≠ 0%Z.
Proof. unfold sequence_valid. rewrite andb_true_iff, Z.ltb_lt. lia. Qed.

(** A reference of a known kind is valid when it is readable and its values small. *)
Ltac reference_ok :=
  apply reference_valid; [by apply sequence_nonzero|apply (bool_decide_unpack _); vm_compute; exact I| | |].

Lemma id_small id : runtimeArtifactID id = true → slen id ≤ 1024.
Proof. intros (rest & -> & Hl & _)%match_prefixed_spec. rewrite slen_app. change (slen "art_") with 4. lia. Qed.
Lemma digest_small digest : runtimeArtifactDigest digest = true → slen digest ≤ 1024.
Proof. intros (rest & -> & Hl & _)%match_prefixed_spec. rewrite slen_app. change (slen "sha256:") with 7. lia. Qed.

Lemma status_facts status : validOutputStatus status = true → valid_utf8 status = true ∧ slen status ≤ 1024.
Proof.
  unfold validOutputStatus. rewrite bool_decide_eq_true. intros Hs.
  repeat (apply elem_of_cons in Hs as [->|Hs]); [..|by apply elem_of_nil in Hs]; (split; [done|cbn; lia]).
Qed.

Lemma phase_facts phase : valid_phase phase = true → valid_utf8 phase = true ∧ slen phase ≤ 1024.
Proof.
  unfold valid_phase. rewrite bool_decide_eq_true. intros Hs.
  repeat (apply elem_of_cons in Hs as [->|Hs]); [..|by apply elem_of_nil in Hs]; (split; [done|cbn; lia]).
Qed.

Ltac small_fields :=
  repeat (apply Forall_cons_2; [split; [cbn; lia|cbn [snd small_value]]|]); [..|apply Forall_nil_2];
  try (by apply id_small); try (by apply digest_small); try lia; try done.

Lemma go_slen s n : (go_len s ≤ Z.of_nat n)%Z → slen s ≤ n.
Proof. unfold go_len, slen. lia. Qed.
Lemma go_len_nonneg s : (0 ≤ go_len s)%Z.
Proof. unfold go_len. lia. Qed.

Lemma counts_bounded (plan : PlanSnapshot) :
  (0 ≤ (Counts plan).1)%Z ∧ (0 ≤ (Counts plan).2)%Z ∧ ((Counts plan).1 + (Counts plan).2 ≤ Z.of_nat (length (pl_Steps plan)))%Z.
Proof.
  unfold Counts. cbn [fst snd]. split_and!; [lia|lia|]. rewrite <- Nat2Z.inj_add. apply Nat2Z.inj_le.
  induction (pl_Steps plan) as [|s steps IH]; [cbn; lia|]. rewrite !filter_cons.
  destruct (decide (ps_Status s = "completed")) as [E|]; [|destruct (decide (ps_Status s = "in_progress")); cbn [length]; lia].
  rewrite decide_False by (by rewrite E). cbn [length]. lia.
Qed.

Lemma command_ok c claim effect target event :
  always journal_oks (recordCompletedRuntimeCommand driver c claim effect target event).
Proof.
  unfold recordCompletedRuntimeCommand. destruct (ParseCompletedCommand _) as [command|err] eqn:Hp; [|apply always_ret; apply _].
  destruct (sequence_valid _) eqn:Hs; cbn [negb]; [|apply always_ret; apply _].
  apply record_reference_ok. intros record Hi Hd Hsize. destruct (command_parsed _ _ Hp) as (Hv & Hl & Hst & Hc). rewrite limit_command in Hl.
  destruct (preview_facts _ Hv) as (Hpu & Hpl & Hpn), (status_facts _ Hst). pose proof (go_len_nonneg (cc_Text command)).
  reference_ok; unfold command_artifact_payload;
    cbn [re_Payload ca_ArtifactID ca_Digest ca_SizeBytes ca_Status ca_ExitCode ca_Preview length]; [|lia|].
  - small_fields; [|by apply (go_slen _ 1024)]. destruct (cc_ExitCode command) as [z|]; [|done].
    cbn in Hc |- *. destruct (decide _); [lia|done].
  - apply (command_reference_readable _ _ Hi Hd (ar_SizeBytes record)); rewrite ?limit_command; try done; lia.
Qed.

Lemma image_ok c claim effect target event : always journal_oks (recordCompletedRuntimeImage driver c claim effect target event).
Proof.
  unfold recordCompletedRuntimeImage. destruct (sequence_valid _) eqn:Hs; cbn [negb]; [|apply always_ret; apply _].
  destruct (ParseCompletedImage _) as [content|err] eqn:Hp; [|apply always_ret; apply _].
  apply record_reference_ok. intros record Hi Hd Hsize. destruct (image_parsed _ _ Hp) as (Hl & Hm & Hdim). rewrite limit_image in Hl.
  assert (slen (im_MediaType content) ≤ 1024 ∧ (0 < im_Width content ≤ 8192)%Z ∧ (0 < im_Height content ≤ 8192)%Z) as (? & ? & ?).
  { split.
    - unfold validImageMediaType in Hm. apply bool_decide_eq_true in Hm.
      repeat (apply elem_of_cons in Hm as [->|Hm]); [..|by apply elem_of_nil in Hm]; cbn; lia.
    - unfold validImageDimensions, MaximumImageDimension in Hdim. rewrite !andb_true_iff, !Z.ltb_lt, !Z.leb_le in Hdim. lia. }
  reference_ok; unfold image_artifact_payload;
    cbn [re_Payload ia_ArtifactID ia_Digest ia_SizeBytes ia_MediaType ia_Width ia_Height ia_Preview length]; [|lia|].
  - small_fields. cbn. lia.
  - apply (image_reference_readable _ _ Hi Hd (ar_SizeBytes record)); rewrite ?limit_image; try done; lia.
Qed.

Lemma patch_ok c claim effect target event : always journal_oks (recordCompletedRuntimePatch driver c claim effect target event).
Proof.
  unfold recordCompletedRuntimePatch. destruct (ParseCompletedPatch _) as [patch|err] eqn:Hp; [|apply always_ret; apply _].
  destruct (negb _ || _) eqn:Hs; [apply always_ret; apply _|].
  apply orb_false_elim in Hs as [Hs%negb_false_iff Hne%bool_decide_eq_false]. cbn zeta.
  apply record_reference_ok. intros record Hi Hd Hsize. destruct (patch_parsed _ _ Hp) as (Hst & Hn & Hl). rewrite limit_patch in Hl.
  destruct (status_facts _ Hst). pose proof (marshal_object_length [("schemaVersion", JStr (cp_SchemaVersion patch)); ("status", JStr (cp_Status patch));
        ("changes", JArr ((λ c, JObj [("path", JStr (pc_Path c)); ("kind", JStr (pc_Kind c)); ("diff", JStr (pc_Diff c));
                                      ("movePath", option_json (pc_MovePath c))]) <$> cp_Changes patch))]) as Hpos. fold (patch_json patch) in Hpos.
  assert (1 ≤ Z.of_nat (length (cp_Changes patch)))%Z by (destruct (cp_Changes patch); [done|cbn; lia]).
  reference_ok; unfold patch_artifact_payload;
    cbn [re_Payload pa_ArtifactID pa_Digest pa_SizeBytes pa_Status pa_ChangeCount pa_Preview length]; [|lia|].
  - small_fields. unfold PatchPreview. destruct (decide _); [cbn; lia|]. rewrite !slen_app.
    pose proof (pretty_length (Z.of_nat (length (cp_Changes patch)))).
    change (slen "Retained patch with ") with 20. change (slen " file changes.") with 14. lia.
  - apply (patch_reference_readable _ _ Hi Hd (ar_SizeBytes record)); rewrite ?limit_patch; try done; lia.
Qed.

Lemma plan_ok c claim effect target event : always journal_oks (recordRuntimePlan driver c claim effect target event).
Proof.
  unfold recordRuntimePlan. destruct (ParsePlanSnapshot _) as [plan|err] eqn:Hp; [|apply always_ret; apply _].
  destruct (sequence_valid _) eqn:Hs; cbn [negb]; [|apply always_ret; apply _].
  apply record_reference_ok. intros record Hi Hd Hsize. destruct (plan_parsed _ _ Hp) as (Hn & Hl). rewrite limit_plan in Hl.
  assert (0 < go_len (marshal (plan_json plan)))%Z as Hpos by apply marshal_object_length.
  destruct (counts_bounded plan) as (Hc1 & Hc2 & Hc3).
  reference_ok; unfold plan_artifact_payload;
    cbn [re_Payload pta_ArtifactID pta_Digest pta_SizeBytes pta_StepCount pta_CompletedCount pta_InProgressCount pta_Preview length]; [|lia|].
  - small_fields. cbn. lia.
  - apply (plan_reference_readable _ _ Hi Hd (ar_SizeBytes record)); rewrite ?limit_plan; try done; lia.
Qed.

Lemma tool_ok c claim effect target event : always journal_oks (recordCompletedRuntimeTool driver c claim effect target event).
Proof.
  unfold recordCompletedRuntimeTool. destruct (ParseCompletedToolOutput _) as [output|err] eqn:Hp; [|apply always_ret; apply _].
  destruct (sequence_valid _) eqn:Hs; cbn [negb]; [|apply always_ret; apply _].
  destruct (tool_text output) as [content|] eqn:Ht; [|apply always_ret; apply _].
  apply record_reference_ok. intros record Hi Hd Hsize. destruct (tool_parsed _ _ Hp) as (Hst & Hn & encoded & Ht' & Hl). rewrite limit_tool in Hl.
  rewrite Ht in Ht'. injection Ht' as <-.
  assert (0 < go_len content)%Z as Hpos.
  { unfold tool_text in Ht. destruct (any_text (AList _)) as [t1|]; [|done]. destruct (any_text (tv_StructuredContent output)) as [t2|]; [|done].
    cbn [mbind option_bind] in Ht. injection Ht as <-. unfold go_len. fold slen.
    match goal with |- (0 < Z.of_nat (String.length (?a +:+ ?b)))%Z => change (String.length (a +:+ b)) with (slen (a +:+ b)); rewrite (slen_app a b) end.
    change (slen "{") with 1. lia. }
  assert (slen (tv_Status output) ≤ 1024).
  { repeat (apply elem_of_cons in Hst as [->|Hst]); [..|by apply elem_of_nil in Hst]; cbn; lia. }
  reference_ok; unfold tool_artifact_payload;
    cbn [re_Payload tla_ArtifactID tla_Digest tla_SizeBytes tla_Status tla_ContentCount tla_Preview length]; [|lia|].
  - small_fields. cbn. lia.
  - apply (tool_reference_readable _ _ Hi Hd (ar_SizeBytes record) (tv_Status output) (Z.of_nat (length (tv_Content output))));
      rewrite ?limit_tool; try done; lia.
Qed.

(** A message without text is small enough to be recorded inline. *)
Lemma two_fields (p : payload) text phase :
  length p = 2 → get p "text" = Some (AStr text) → get p "phase" = Some (AStr phase) →
  p = [("text", AStr text); ("phase", AStr phase)] ∨ p = [("phase", AStr phase); ("text", AStr text)].
Proof.
  destruct p as [|[k1 v1] [|[k2 v2] [|]]]; try done. intros _. cbn [get].
  repeat case_decide; naive_solver.
Qed.

Lemma empty_message_small p message encoded :
  ParseCompletedMessage p = Ok message → cm_Text message = "" → any_text (AMap p) = Some encoded → (go_len encoded ≤ 100)%Z.
Proof.
  unfold ParseCompletedMessage, get_string. destruct (get p "text") as [[]|] eqn:Ht; try done.
  destruct (get p "phase") as [[]|] eqn:Hph; try done. passed Hc. destruct (valid_phase _) eqn:Hp; [|done].
  intros <-%Ok_eq. cbn [cm_Text]. intros ->. apply orb_false_elim in Hc as [[Hl%bool_decide_eq_false _]%orb_false_elim _].
  unfold valid_phase in Hp. apply bool_decide_eq_true in Hp.
  destruct (two_fields _ _ _ (dec_stable Hl) Ht Hph) as [-> | ->];
    repeat (apply elem_of_cons in Hp as [->|Hp]); try (by apply elem_of_nil in Hp); vm_compute; by intros [= <-].
Qed.

(** A message recorded inline passes the checks of the journal. *)
Lemma inline_valid sequence p message encoded :
  sequence_valid sequence = true → ParseCompletedMessage p = Ok message → any_text (AMap p) = Some encoded →
  (go_len (cm_Text message) <=? Z.of_nat MaximumInlineMessageTextBytes)%Z = true → (go_len encoded <=? Z.shiftl 128 10)%Z = true →
  contains_rune_nul (cm_Text message) = false →
  runtime_event_valid (MkRuntimeEvent sequence MessageCompletedEvent p) = true.
Proof.
  intros Hs Hp He Hl Hel Hn. unfold runtime_event_valid, reference_readable. cbn [re_SourceSequence re_Type re_Payload].
  rewrite He, Hp, Hl, Hn, (bool_decide_eq_false_2 _ (sequence_nonzero _ Hs)).
  assert ((go_len encoded <=? maximumInvocationRuntimeEventPayloadBytes)%Z = true) as ->.
  { apply Z.leb_le in Hel. apply Z.leb_le. rewrite limit_payload. change (Z.shiftl 128 10) with 131072%Z in Hel. lia. }
  vm_compute. done.
Qed.

Context (no_empty_json : json_strings "" = []).

Lemma message_ok c claim effect target event :
  ev_Type event = MessageCompletedEvent → always journal_oks (recordRuntimeMessage driver c claim effect target event).
Proof.
  intros Htype. unfold recordRuntimeMessage. destruct (ParseCompletedMessage _) as [message|err] eqn:Hm; [|apply always_ret; apply _].
  destruct (sequence_valid _) eqn:Hs; cbn [negb]; [|apply always_ret; apply _].
  destruct (any_text _) as [encoded|] eqn:He; [|apply always_ret; apply _]. destruct (_ && _) eqn:Hc.
  - unfold recordRuntimeEvent. rewrite Htype. eapply always_bind; [apply _| |intros; apply always_ret; apply _].
    apply always_logging. intros answer. repeat constructor. intros _.
    apply andb_prop in Hc as [[Hl Hel]%andb_prop Hn]. apply negb_true_iff, orb_false_elim in Hn as [Hn _].
    exact (inline_valid _ _ message encoded Hs Hm He Hl Hel Hn).
  - assert (0 < go_len (cm_Text message))%Z as Hpos.
    { destruct (cm_Text message) as [|a s] eqn:Htext; [|unfold go_len; cbn; lia].
      pose proof (empty_message_small _ _ _ Hm Htext He) as Hsmall.
      rewrite (proj2 (Z.leb_le (go_len encoded) _)) in Hc by (change (Z.shiftl 128 10) with 131072%Z; lia).
      unfold messageContainsNUL in Hc. rewrite no_empty_json in Hc. cbn [existsb] in Hc. by rewrite andb_false_r in Hc. }
    eapply traced_bind; [apply finalized_record|]. intros t [record|err] [Hg Hr].
    2:{ apply traced_ret. by rewrite app_nil_r. }
    destruct (message_parsed _ _ Hm) as (Hv & Hlen & Hphase), (Hr record eq_refl) as (Hi & Hd & Hsize).
    destruct (preview_facts _ Hv) as (Hpu & Hpl & Hpn), (phase_facts _ Hphase).
    assert (runtime_event_valid (MkRuntimeEvent (ev_Sequence event) MessageArtifactEvent (message_artifact_payload
      (MkMessageArtifact (ar_ID record) (ar_Digest record) (ar_SizeBytes record) (cm_Phase message) (MessagePreview (cm_Text message))))) = true).
    { rewrite limit_message in Hlen. reference_ok; unfold message_artifact_payload;
        cbn [re_Payload ma_ArtifactID ma_Digest ma_SizeBytes ma_Phase ma_Preview length]; [|lia|].
      - small_fields. by apply (go_slen _ 1024).
      - apply (message_reference_readable _ _ Hi Hd (ar_SizeBytes record)); rewrite ?limit_message; try done; lia. }
    apply traced_log_error; [intros err|]; apply traced_ret; (apply Forall_app; split; [done|]);
      (apply Forall_cons_2; [by intros _|by apply Forall_nil_2]).
Qed.

Lemma recordRuntimeOutput_ok c claim effect target event :
  always journal_oks (recordRuntimeOutput driver c claim effect target event).
Proof.
  apply always_output_cases; eauto using plan_ok, tool_ok, image_ok, patch_ok, command_ok, message_ok; try apply _.
  intros event' _ Ha Hm. unfold recordRuntimeEvent. walk. repeat constructor. intros Hin. by apply elem_of_cons in Hin as [|].
Qed.

(** C32: whatever the collaborators of a run answer, every completed message and every
    reference to an artifact that the driver hands to the journal passes the checks the
    journal makes before it writes: the sequence, the type and the encoded size are in
    range and the payload reads back as a reference of its kind. *)
Theorem runtime_journal_accepts fuel c claim effect (w : W) :
  let '((_, t), _) := runtime_ApplyClaimed driver fuel c claim effect (w, []) in
  ∀ claim' event answer, RJournal claim' event answer ∈ t →
    re_Type event ∈ checked_types → runtime_event_valid event = true.
Proof.
  assert (always journal_oks (runtime_ApplyClaimed driver fuel c claim effect)) as Hrun.
  { apply always_runtime_ApplyClaimed; eauto using recordRuntimeOutput_ok with calls; apply _. }
  destruct (Hrun w []) as (t' & Ht & Hg). destruct (runtime_ApplyClaimed _ _ _ _ _ _) as [[w' t] r].
  cbn [fst snd app] in Ht, Hg. subst t'. intros claim' event answer Hin.
  by apply (proj1 (Forall_forall _ _) Hg _ Hin).
Qed.
End journal.
