(* ===== verification/RuntimeLedger.v ===== *)
(** * No request is left open

    The approvals and questions a run opened in the durable ledger and did not settle,
    read off its log, and a logic for computations that keep them within a known set.
    When a run is over, everything it opened is closed or delivered, or its error says
    that the effect is ambiguous. *)
From S2P Require Import Prelude.
From S2P Require Import CallLog.
From S2P Require Import GoStrings.
From S2P Require Import GoJson.
From S2P Require Import Questions.
From S2P Require Import RuntimeTables.
From S2P Require Import Database.
From S2P Require Import OperationStore.
From S2P Require Import RuntimeInteraction.
From S2P Require Import RuntimeApproval.
From S2P Require Import RuntimeQuestion.
From S2P Require Import Reconciler.
From S2P Require Import GatewayStore.
From S2P Require Import Drivers.
From S2P Require Import RuntimeOutput.
From S2P Require Import RuntimeRequest.
From S2P Require Import RuntimeDriver.
From S2P Require Import RuntimeTurn.
From S2P Require Import RuntimeLogic.
From S2P Require Import RuntimeParts.

(** ** Open requests *)

Abbreviation requests := (gset (string + string)).

(** An approval is [inl] of its identity, a question [inr]. *)
Definition open_request (s : requests) (c : rt_call) : requests :=
  match c with
  | AOpen claim effect target request (Ok v) =>
      if approval_fits claim effect target (arq_SourceSequence request) (arq_RequestedAction request) v
      then {[inl (apr_ID v)]} ∪ s else s
  | AComplete id None | AClose id _ None => s ∖ {[inl id]}
  | QOpen effect target request (Ok v) =>
      if question_fits effect target (qrq_SourceSequence request) (default 0%Z (qrq_ExpiresAt request)) (qrq_Prompts request) v
      then {[inr (qst_ID v)]} ∪ s else s
  | QComplete id None | QClose id _ None => s ∖ {[inr id]}
  | _ => s
  end.

Definition open_requests (t : list rt_call) : requests := foldl open_request ∅ t.

(** The requests stay within [p'] when they were within [p], in any frame. *)
Definition keeps (p p' : requests) (t : list rt_call) : Prop :=
  ∀ s F, s ⊆ p ∪ F → foldl open_request s t ⊆ p' ∪ F.

Definition settled (c : rt_call) : Prop := ∀ s, open_request s c = s.

Lemma keeps_settled p t : Forall settled t → keeps p p t.
Proof. induction 1 as [|c t Hc _ IH]; intros s F Hs; [done|]. simpl. rewrite Hc. by apply IH. Qed.

Lemma keeps_app p q r t t' : keeps p q t → keeps q r t' → keeps p r (t ++ t').
Proof. intros Hp Hq s F Hs. rewrite foldl_app. by apply Hq, Hp. Qed.

Lemma keeps_weaken p0 p p' p1 t : p0 ⊆ p → p' ⊆ p1 → keeps p p' t → keeps p0 p1 t.
Proof.
  intros H0 H1 Hk s F Hs. etrans; [apply Hk|by apply union_mono_r]. etrans; [exact Hs|by apply union_mono_r].
Qed.

Lemma keeps_frame p p' R t : keeps p p' t → keeps (p ∪ R) (p' ∪ R) t.
Proof. intros Hk s F. rewrite <- !(assoc_L (∪)). apply Hk. Qed.

Section keeping.
Context {W : Type}.
Implicit Types (p q R : requests).

Definition keeping {A : Type} (p : requests) (m : io (W * list rt_call) A) (G : A → requests → Prop) : Prop :=
  traced m (λ t a, ∃ p', keeps p p' t ∧ G a p').

Lemma keeping_ret {A : Type} (p : requests) (a : A) (G : A → requests → Prop) : G a p → keeping p (mret a) G.
Proof. intros HG. apply traced_ret. exists p. split; [by apply keeps_settled|done]. Qed.

Lemma keeping_mono {A : Type} (p : requests) (m : io (W * list rt_call) A) (G G' : A → requests → Prop) :
  keeping p m G → (∀ a q, G a q → G' a q) → keeping p m G'.
Proof. intros Hm HG. eapply traced_mono; [exact Hm|]. intros t a (p' & ? & ?). eauto. Qed.

Lemma keeping_bind {A B : Type} (p : requests) (m : io (W * list rt_call) A) (k : A → io (W * list rt_call) B) (G : A → requests → Prop) (G' : B → requests → Prop) :
  keeping p m G → (∀ a q, G a q → keeping q (k a) G') → keeping p (m ≫= k) G'.
Proof.
  intros Hm Hk. eapply traced_bind; [exact Hm|]. intros t a (q & Hp & HG).
  eapply traced_mono; [by apply Hk|]. intros t' b (r & Hq & HG'). exists r. split; [by eapply keeps_app|done].
Qed.

Lemma keeping_settled {A : Type} (p : requests) (m : io (W * list rt_call) A) : always (Forall settled) m → keeping p m (λ _ q, q = p).
Proof. intros Hm. eapply traced_mono; [exact Hm|]. intros t a Ht. exists p. split; [by apply keeps_settled|done]. Qed.

Lemma keeping_settled_bind {A B : Type} (p : requests) (m : io (W * list rt_call) A) (k : A → io (W * list rt_call) B) G :
  always (Forall settled) m → (∀ a, keeping p (k a) G) → keeping p (m ≫= k) G.
Proof. intros Hm Hk. eapply keeping_bind; [by apply keeping_settled|]. intros a q ->. apply Hk. Qed.

Lemma keeping_settled_error {A : Type} (p : requests) m (handle : error → io (W * list rt_call) A) k G :
  always (Forall settled) m → (∀ err, keeping p (handle err) G) → keeping p k G → keeping p (on_error m handle k) G.
Proof. intros Hm He Hk. apply keeping_settled_bind; [done|]. by intros []. Qed.

Lemma keeping_settled_result {A B : Type} (p : requests) (m : io _ (result A)) (handle : error → io (W * list rt_call) B) k G :
  always (Forall settled) m → (∀ err, keeping p (handle err) G) → (∀ a, keeping p (k a) G) → keeping p (on_result m handle k) G.
Proof. intros Hm He Hk. apply keeping_settled_bind; [done|]. by intros []. Qed.

Lemma keeping_logging {A : Type} (p : requests) (call : A → rt_call) (m : io W A) (G : A → requests → Prop) :
  (∀ a, ∃ q, keeps p q [call a] ∧ G a q) → keeping p (logging call m) G.
Proof. intros HG. by apply traced_logging. Qed.

Lemma keeping_silently_as_bind {A B D : Type} (p : requests) (f : A → B) (m : io W A) (k : B → io (W * list rt_call) D) G :
  (∀ a, keeping p (k (f a)) G) → keeping p (silently_as f m ≫= k) G.
Proof. apply traced_silently_as_bind. Qed.

Lemma keeping_logging_as_bind {A B D : Type} (p : requests) (f : A → B) (c : A → rt_call) (m : io W A) (k : B → io (W * list rt_call) D) G :
  (∀ a, settled (c a)) → (∀ a, keeping p (k (f a)) G) → keeping p (logging_as f c m ≫= k) G.
Proof.
  intros Hc Hk. apply traced_logging_as_bind. intros a. eapply traced_mono; [apply Hk|]. intros t r (q & Hq & HG).
  exists q. split; [|done]. apply (keeps_app _ p _ [c a]); [by apply keeps_settled; repeat constructor|done].
Qed.

Lemma keeping_weaken {A : Type} (p p0 : requests) (m : io (W * list rt_call) A) G : p ⊆ p0 → keeping p0 m G → keeping p m G.
Proof.
  intros Hp Hm. eapply traced_mono; [exact Hm|]. intros t a (q & Hk & HG). exists q.
  split; [by eapply keeps_weaken|done].
Qed.

Lemma keeping_frame {A : Type} (p R : requests) (m : io (W * list rt_call) A) G :
  keeping p m G → keeping (p ∪ R) m (λ a q, ∃ q', q = q' ∪ R ∧ G a q').
Proof.
  intros Hm. eapply traced_mono; [exact Hm|]. intros t a (q & Hk & HG). exists (q ∪ R).
  split; [by apply keeps_frame|]. by exists q.
Qed.
End keeping.

(** Steps through a computation; [auto with calls] knows what leaves the ledger alone. *)
Ltac keep_step :=
  expose; cbn zeta;
  lazymatch goal with
  | |- keeping _ (mret _) _ => apply keeping_ret
  | |- keeping _ (on_error _ _ _) _ => apply keeping_settled_error; [solve [walk]|intros ?err|]
  | |- keeping _ (on_result _ _ _) _ => apply keeping_settled_result; [solve [walk]|intros ?err|intros ?a]
  | |- keeping _ (if ?x then _ else _) _ => let E := fresh "E" in destruct x eqn:E
  | |- keeping _ (match ?x with _ => _ end) _ => let E := fresh "E" in destruct x eqn:E
  | |- keeping _ (_ ≫= _) _ => apply keeping_settled_bind; [solve [walk]|intros ?a]
  end.

Section ledger.
Context {W session owned : Type} `{RuntimeLibrary, ImageDecoder} (d : InvocationRuntimeDriver W session owned).
Context (t : Turn W) (target : InvocationRuntimeTarget) (effect : EffectRecord).
Abbreviation driver := (logged_runtime_driver d).
Abbreviation turn := (logged_turn t).

(** What is pending; a driver without mediation holds nothing. *)
Definition aids (pending : list pending_approval_entry) : requests :=
  match ird_approvals d with None => ∅ | Some _ => list_to_set ((λ entry, inl (apr_ID entry.1)) <$> pending) end.
Definition qids (pending : option pending_question_entry) : requests :=
  match ird_questions d, pending with Some _, Some (v, _) => {[inr (qst_ID v)]} | _, _ => ∅ end.

Lemma keeping_approval_close c claim pending reason :
  keeping (aids (option_list pending)) (approval_close driver effect c claim pending reason) (λ r p,
    p = aids (option_list r.1) ∧ (r.1 = None ∨ r.1 = pending) ∧ (r.2 = None → p = ∅)).
Proof.
  unfold approval_close, aids. expose. destruct pending as [[v adapterID]|]; [|by apply keeping_ret; destruct (ird_approvals d); auto].
  destruct (ird_approvals d) as [m|]; [|by apply keeping_ret; auto].
  eapply keeping_bind; [apply (keeping_logging _ _ _ (λ e p, p = match e with None => ∅ | Some _ => {[inl (apr_ID v)]} end)); intros [err|]; eexists|].
  - split; [|done]. eapply keeps_weaken, keeps_settled; [done| |by repeat constructor]. set_solver.
  - split; [|done]. intros s F Hs. set_solver.
  - intros [err|] p ->; apply keeping_ret; (split_and!; [set_solver|by auto|done]).
Qed.

Lemma aids_app l l' : aids (l ++ l') = aids l ∪ aids l'.
Proof. unfold aids. destruct (ird_approvals d); [by rewrite fmap_app, list_to_set_app_L|set_solver]. Qed.
Lemma aids_nil : aids [] = ∅.
Proof. unfold aids. by destruct (ird_approvals d). Qed.
Lemma aids_none : aids (option_list None) = ∅.
Proof. exact aids_nil. Qed.
Lemma aids_incl l l' : l ⊆ l' → aids l ⊆ aids l'.
Proof. unfold aids. destruct (ird_approvals d); [|done]. intros Hl x. rewrite !elem_of_list_to_set, !list_elem_of_fmap. naive_solver. Qed.

Lemma keeping_approval_record c claim event ended :
  keeping ∅ (approval_record driver turn target effect c claim event ended None) (λ r p, p = aids (option_list r.1)).
Proof.
  unfold approval_record. destruct (negb (has_prefix _ _)); [apply keeping_ret; exact (eq_sym aids_nil)|]. expose.
  destruct (ird_approvals d) as [m|] eqn:Hm; cbn [option_map]; [|apply keeping_ret; exact (eq_sym aids_nil)].
  destruct (turn_ApprovalPending t) as [is_pending|]; cbn [option_map]; [|apply keeping_ret; exact (eq_sym aids_nil)].
  destruct (decide _); [apply keeping_ret; exact (eq_sym aids_nil)|].
  keep_step; [apply keeping_ret; exact (eq_sym aids_nil)|].
  destruct (get_string _ _) as [id|]; [|apply keeping_ret; exact (eq_sym aids_nil)].
  destruct (get_string _ _) as [action|]; [|apply keeping_ret; exact (eq_sym aids_nil)].
  keep_step; [apply keeping_ret; exact (eq_sym aids_nil)|]. expose.
  eapply keeping_bind; [apply (keeping_logging _ _ _ (λ r p, match r with
    | Ok v => if approval_fits claim effect target (ev_Sequence event) action v then p = {[inl (apr_ID v)]} else p = ∅
    | Err _ => p = ∅ end)); intros [v|err]; [destruct (approval_fits _ _ _ _ _ v) eqn:Hf|]; eexists; split; [|done| |done| |done]|].
  - intros s F Hs. simpl. rewrite Hf. set_solver.
  - intros s F Hs. simpl. by rewrite Hf.
  - by apply keeps_settled; repeat constructor.
  - intros [v|err] p; [|intros ->; apply keeping_ret; exact (eq_sym aids_nil)].
    destruct (approval_fits _ _ _ _ _ v); intros ->; cbn [negb]; [|apply keeping_ret; exact (eq_sym aids_nil)].
    assert ({[inl (apr_ID v)]} = aids (option_list (Some (v, id)))) as -> by (unfold aids; rewrite Hm; set_solver).
    destruct ended; [|by apply keeping_ret].
    eapply keeping_bind; [apply keeping_approval_close|]. intros [pending e] p [-> _]. by apply keeping_ret.
Qed.

(** Polling keeps the entry, or settles it. *)
Definition polled (entry : pending_approval_entry) (r : option pending_approval_entry * option error) (p : requests) : Prop :=
  p = aids (option_list r.1) ∧ (r.1 = None ∨ r.1 = Some entry).

Lemma polled_kept entry e : polled entry (Some entry, e) (aids [entry]).
Proof. split; auto. Qed.
#[local] Hint Resolve polled_kept : calls.

Lemma keeping_polled_close c claim entry reason :
  keeping (aids [entry]) (approval_close driver effect c claim (Some entry) reason) (polled entry).
Proof. eapply keeping_mono; [apply (keeping_approval_close c claim (Some entry))|]. intros r p (-> & Hr & _). by split. Qed.

Lemma keeping_approval_deliver m c claim entry adapterID effective v :
  ird_approvals d = Some m → apr_ID v = apr_ID entry.1 →
  keeping (aids [entry]) (approval_deliver driver turn effect (logged_approvals m) c claim (Some entry) adapterID effective v) (polled entry).
Proof.
  intros Hm Hv. unfold approval_deliver. do 3 (keep_step; [apply keeping_ret; auto with calls|]). expose.
  eapply keeping_bind; [apply (keeping_logging _ _ _ (λ e p, p = match e with None => ∅ | Some _ => aids [entry] end));
    intros [err|]; eexists; split; [|done| |done]|].
  - by apply keeps_settled; repeat constructor.
  - intros s F Hs. unfold aids in Hs. rewrite Hm in Hs. simpl. rewrite Hv. set_solver.
  - intros [err|] p ->; apply keeping_ret; [auto with calls|]. split; [exact (eq_sym aids_nil)|by left].
Qed.

Lemma keeping_approval_decided m is_pending c claim entry adapterID accepted :
  ird_approvals d = Some m → apr_ID accepted = apr_ID entry.1 → (∀ c id, always (Forall settled) (is_pending c id)) →
  keeping (aids [entry]) (approval_decided driver turn effect (logged_approvals m) is_pending c claim (Some entry) adapterID accepted) (polled entry).
Proof.
  intros Hm Hid Hp. unfold approval_decided.
  keep_step. repeat keep_step; auto with calls; try (apply keeping_polled_close).
  all: apply keeping_approval_deliver; [done|]; rewrite <- Hid.
  all: match goal with E : negb (approval_reserved _ _ ?v) = false |- apr_ID ?v = _ =>
    apply negb_false_iff, andb_prop in E as [E%bool_decide_eq_true _]; naive_solver end.
Qed.

Lemma keeping_approval_poll c claim entry :
  keeping (aids [entry]) (approval_poll driver turn effect c claim (Some entry)) (polled entry).
Proof.
  destruct entry as [original adapterID]. unfold approval_poll. expose.
  destruct (ird_approvals d) as [m|] eqn:Hm; cbn [option_map]; [|apply keeping_ret; auto with calls].
  destruct (turn_ApprovalPending t) as [is_pending|]; cbn [option_map]; [|apply keeping_ret; auto with calls].
  do 2 (keep_step; [apply keeping_ret; auto with calls|]). keep_step; [apply keeping_polled_close|].
  keep_step; [apply keeping_ret; auto with calls|].
  destruct (sameRuntimeApprovalRequest a0 original) eqn:Hsame; cbn [negb]; [|apply keeping_ret; auto with calls].
  apply bool_decide_eq_true in Hsame. repeat keep_step; auto with calls.
  apply keeping_approval_decided; [done|naive_solver|intros; walk].
Qed.

(** ** The set of approvals *)

Abbreviation set_ids set := (aids (aset_pending set)).

Lemma keeping_set_record c claim event ended set :
  keeping (set_ids set) (set_record driver turn target effect c claim event ended set) (λ r p, p = set_ids r.1).
Proof.
  unfold set_record. do 3 (keep_step; [by apply keeping_ret|]).
  eapply keeping_bind.
  { eapply keeping_weaken; [|apply (keeping_frame ∅ (set_ids set)), keeping_approval_record]. set_solver. }
  intros [[[v adapterID]|] answer] p (p' & -> & ->); cbn [fst option_list].
  - match goal with |- keeping _ (if ?b then _ else _) _ => destruct b eqn:He end.
    2:{ apply keeping_ret. cbn [fst aset_pending]. rewrite aids_app. apply union_comm_L. }
    apply keeping_weaken with (set_ids set); [|by apply keeping_ret].
    apply existsb_exists in He as ([v' id'] & Hin%list_elem_of_In & Hid%bool_decide_eq_true).
    apply union_least; [|done]. unfold aids. destruct (ird_approvals d); [|done].
    intros x. rewrite !elem_of_list_to_set, !list_elem_of_fmap. intros (? & -> & ->%list_elem_of_singleton). exists (v', id'); split; [by rewrite Hid|done].
  - apply keeping_weaken with (set_ids set); [rewrite aids_none; set_solver|by apply keeping_ret].
Qed.

Lemma delete_ids (l : list pending_approval_entry) i entry : l !! i = Some entry → aids l = aids [entry] ∪ aids (delete i l).
Proof.
  intros Hi. rewrite <- aids_app. apply delete_Permutation in Hi. unfold aids. destruct (ird_approvals d); [|done].
  by apply list_to_set_perm_L, fmap_Permutation.
Qed.

Lemma keeping_set_poll c claim set :
  keeping (set_ids set) (set_poll driver turn effect c claim set) (λ r p, p ⊆ set_ids r.1).
Proof.
  unfold set_poll. destruct (aset_pending set) as [|e0 l] eqn:Hl; [apply keeping_ret; cbn; by rewrite Hl|]. rewrite <- Hl. clear e0 l Hl.
  cbn zeta. destruct (aset_pending set !! _) as [entry|] eqn:Hi; [|by apply keeping_ret].
  rewrite (delete_ids _ _ _ Hi).
  eapply keeping_bind; [apply keeping_frame, keeping_approval_poll|].
  intros [current e] p (p' & -> & -> & Hc). cbn [fst] in *.
  assert (aids (option_list current) ∪ aids (delete (if (length (aset_pending set) <=? aset_next set)%nat then 0 else aset_next set)
    (aset_pending set)) ⊆ set_ids set) as Hsub.
  { rewrite (delete_ids _ _ _ Hi). apply union_mono_r. destruct Hc as [->| ->]; [|done]. rewrite aids_none. set_solver. }
  destruct e as [err|]; [by apply keeping_ret|]. destruct current as [entry'|]; [by apply keeping_ret|].
  apply keeping_ret. cbn [aset_pending fst]. rewrite aids_none. set_solver.
Qed.

Lemma keeping_close_each c claim reason pending : ∀ result,
  keeping (aids pending) (close_each driver effect c claim reason result pending) (λ r p,
    p = aids r.1 ∧ (r.2 = None → result = None ∧ p = ∅)).
Proof.
  induction pending as [|entry rest IH]; intros result; cbn [close_each].
  { apply keeping_ret. split; [done|]. cbn. intros ->. by rewrite aids_nil. }
  change (entry :: rest) with ([entry] ++ rest) at 1. rewrite aids_app.
  eapply keeping_bind; [apply keeping_frame, (keeping_approval_close c claim (Some entry))|].
  intros [pending' [err|]] p (p' & -> & -> & Hp & Hnone); cbn [fst snd] in *.
  - eapply keeping_bind.
    { eapply keeping_weaken; [|apply (keeping_frame (aids rest) (aids [entry])), IH].
      destruct Hp as [->| ->]; rewrite ?aids_none; set_solver. }
    intros [remaining e] p (p' & -> & -> & He). apply keeping_ret. cbn [fst snd] in *. split.
    + change (entry :: remaining) with ([entry] ++ remaining). rewrite aids_app. apply union_comm_L.
    + intros ->. by destruct (He eq_refl).
  - rewrite (Hnone eq_refl). eapply keeping_weaken; [|apply IH]. set_solver.
Qed.

Lemma keeping_set_close c claim reason set :
  keeping (set_ids set) (set_close driver effect c claim reason set) (λ r p, p = set_ids r.1 ∧ (r.2 = None → p = ∅)).
Proof.
  eapply keeping_bind; [apply keeping_close_each|]. intros [remaining e] p [-> He]. apply keeping_ret. split; [done|].
  cbn. intros ->. by destruct (He eq_refl).
Qed.

(** ** Questions *)

Lemma qids_none : qids None = ∅.
Proof. unfold qids. by destruct (ird_questions d). Qed.

Lemma keeping_question_close c claim pending reason :
  keeping (qids pending) (question_close driver effect c claim pending reason) (λ r p,
    p = qids r.1 ∧ (r.1 = None ∨ r.1 = pending) ∧ (r.2 = None → p = ∅)).
Proof.
  unfold question_close, qids. expose. destruct pending as [[v adapterID]|]; [|by apply keeping_ret; destruct (ird_questions d); auto].
  destruct (ird_questions d) as [m|]; [|by apply keeping_ret; auto].
  eapply keeping_bind; [apply (keeping_logging _ _ _ (λ e p, p = match e with None => ∅ | Some _ => {[inr (qst_ID v)]} end)); intros [err|]; eexists|].
  - split; [|done]. by apply keeps_settled; repeat constructor.
  - split; [|done]. intros s F Hs. set_solver.
  - intros [err|] p ->; apply keeping_ret; (split_and!; [done|by auto|done]).
Qed.

Lemma keeping_question_request m timeout c claim event ended pending :
  ird_questions d = Some m → qids pending = ∅ →
  keeping ∅ (question_request driver target effect (logged_questions m) timeout c claim event ended pending) (λ r p, p = qids r.1).
Proof.
  intros Hm Hp. unfold question_request. cbn zeta.
  assert (∀ answer : bool * option error, keeping (W:=W) ∅ (mret (pending, answer)) (λ r p, p = qids r.1)) as Hsame
    by (intros; by apply keeping_ret).
  destruct (get_string _ "questionId") as [id|]; [|apply Hsame].
  destruct (get _ "questions") as [value|]; [|apply Hsame]. destruct value; try apply Hsame.
  destruct (get_string _ _ ≫= time_Parse) as [expires|]; [|apply Hsame]. destruct (_ || _); [apply Hsame|].
  keep_step. destruct (_ || _); [apply Hsame|]. expose.
  eapply keeping_bind; [apply (keeping_logging _ _ _ (λ r p, match r with
    | Ok v => if question_fits effect target (ev_Sequence event) (Z.min expires (c_DeadlineAt claim * 1000) `div` 1000)%Z prompts v
              then p = {[inr (qst_ID v)]} else p = ∅
    | Err _ => p = ∅ end)); intros [v|err]; [destruct (question_fits _ _ _ _ _ v) eqn:Hf|]; eexists; split; [|reflexivity| |reflexivity| |reflexivity]|].
  - intros s' F Hs. simpl. rewrite Hf. set_solver.
  - intros s' F Hs. simpl. by rewrite Hf.
  - by apply keeps_settled; repeat constructor.
  - intros [v|err] p; [|intros ->; apply Hsame]. destruct (question_fits _ _ _ _ _ v); intros ->; cbn [negb]; [|apply Hsame].
    assert ({[inr (qst_ID v)]} = qids (Some (v, id))) as -> by (unfold qids; by rewrite Hm).
    destruct ended; [|by apply keeping_ret].
    eapply keeping_bind; [apply keeping_question_close|]. intros [pending' e] p [-> _]. by apply keeping_ret.
Qed.

Lemma keeping_question_record enabled timeout c claim event ended pending :
  keeping (qids pending) (question_record driver turn target effect enabled timeout c claim event ended pending) (λ r p, p = qids r.1).
Proof.
  unfold question_record. keep_step; [by apply keeping_ret|]. expose.
  destruct (turn_questions t) as [qturn|]; cbn [option_map]; [|by apply keeping_ret].
  destruct (ird_questions d) as [m|] eqn:Hm; cbn [option_map]; [|by apply keeping_ret].
  do 2 (keep_step; [by apply keeping_ret|]). destruct pending as [[v adapterID]|].
  2:{ rewrite qids_none. by apply keeping_question_request; [|apply qids_none]. }
  do 2 (keep_step; [by apply keeping_ret|]).
  eapply keeping_bind; [apply keeping_question_close|]. intros [pending e] p (-> & _ & Hnone). cbn [fst snd] in *.
  destruct e as [err|]; [by apply keeping_ret|]. rewrite Hnone by done. apply keeping_question_request; [done|by apply Hnone].
Qed.

Lemma keeping_question_answered m qturn c claim v adapterID accepted entry :
  ird_questions d = Some m → entry = (v, adapterID) → qst_ID accepted = qst_ID v →
  keeping (qids (Some entry)) (question_answered driver effect (logged_questions m)
    (MkQuestionTurn _ (λ c id, silently (qt_QuestionPending qturn c id))
      (λ c id answers, logging (QAnswer c id answers) (qt_AnswerQuestion qturn c id answers))) c claim (Some entry) adapterID accepted)
    (λ r p, p = qids r.1).
Proof.
  intros Hm -> Hid. unfold question_answered. keep_step; [by apply keeping_ret|].
  apply keeping_settled_result; [unfold question_authorize; walk|intros; by apply keeping_ret|]. intros v'.
  destruct (question_reserved accepted v') eqn:Hr; cbn [negb]; [|by apply keeping_ret].
  do 2 (keep_step; [by apply keeping_ret|]). expose.
  assert (qst_ID v' = qst_ID v) as Hv.
  { unfold question_reserved in Hr. apply andb_prop in Hr as [[_ Hs%bool_decide_eq_true]%andb_prop _]. rewrite <- Hid. naive_solver. }
  eapply keeping_bind; [apply (keeping_logging _ _ _ (λ e p, p = match e with None => ∅ | Some _ => qids (Some (v, adapterID)) end));
    intros [err|]; eexists; split; [|reflexivity| |reflexivity]|].
  - by apply keeps_settled; repeat constructor.
  - intros s F Hs. unfold qids in Hs. rewrite Hm in Hs. simpl. rewrite Hv. set_solver.
  - intros [err|] p ->; apply keeping_ret; [done|]. exact (eq_sym qids_none).
Qed.

Lemma keeping_question_poll c claim pending :
  keeping (qids pending) (question_poll driver turn effect c claim pending) (λ r p, p = qids r.1).
Proof.
  destruct pending as [[original adapterID]|]; [|by apply keeping_ret]. unfold question_poll. expose.
  destruct (ird_questions d) as [m|] eqn:Hm; cbn [option_map]; [|by apply keeping_ret].
  destruct (turn_questions t) as [qturn|]; cbn [option_map]; [|by apply keeping_ret].
  keep_step; [by apply keeping_ret|]. keep_step.
  { eapply keeping_mono; [apply keeping_question_close|]. by intros r p [-> _]. }
  keep_step; [by apply keeping_ret|].
  destruct (sameRuntimeQuestionRequest a0 original) eqn:Hsame; cbn [negb]; [|by apply keeping_ret].
  apply bool_decide_eq_true in Hsame. repeat keep_step; try done.
  eapply keeping_question_answered; [done|done|naive_solver].
Qed.

(** ** The turn *)

Definition held (st : turn_state) : requests := set_ids (ts_approvals st) ∪ qids (ts_question st).

(** An operation on the approvals, or on the question, of a state. *)
Lemma keeping_on_approvals {A : Type} (m : io (W * list rt_call) (approval_set * A)) st G :
  keeping (set_ids (ts_approvals st)) m (λ r p, p ⊆ set_ids r.1 ∧ (G r → p = ∅)) →
  keeping (held st) m (λ r p, p ⊆ held (with_approvals st r.1) ∧ (G r → p ⊆ qids (ts_question st))).
Proof.
  intros Hm. eapply keeping_mono; [by apply keeping_frame|]. intros r p (p' & -> & Hp & HG). split; [by apply union_mono_r|].
  intros Hr. rewrite (HG Hr). set_solver.
Qed.

Lemma keeping_on_question {A : Type} (m : io (W * list rt_call) (option pending_question_entry * A)) st G :
  keeping (qids (ts_question st)) m (λ r p, p = qids r.1 ∧ (G r → p = ∅)) →
  keeping (held st) m (λ r p, p ⊆ held (with_question st r.1) ∧ (G r → p ⊆ set_ids (ts_approvals st))).
Proof.
  intros Hm. unfold held. rewrite (union_comm_L (set_ids _)). eapply keeping_mono; [by apply keeping_frame|].
  intros r p (p' & -> & -> & HG). split; [by rewrite union_comm_L|]. intros Hr. rewrite (HG Hr). set_solver.
Qed.

Lemma keeping_sub {A : Type} (p q : requests) (m : io (W * list rt_call) A) G : p ⊆ q → keeping q m G → keeping p m G.
Proof. apply keeping_weaken. Qed.

Lemma keeping_consume enabled timeout c ended st event :
  keeping (held st) (consume driver turn target effect enabled timeout c ended st event) (λ r p, p ⊆ held r.1).
Proof.
  unfold consume. eapply keeping_bind.
  { apply (keeping_on_question _ _ (λ _, False)). eapply keeping_mono; [apply keeping_question_record|]. by intros r p ->. }
  intros [question [handled e]] p [Hp _]. cbn [fst] in Hp. apply (keeping_sub _ _ _ _ Hp). cbn zeta.
  destruct handled; [by apply keeping_ret|]. eapply keeping_bind.
  { apply (keeping_on_approvals _ _ (λ _, False)). eapply keeping_mono; [apply keeping_set_record|]. by intros r q ->. }
  intros [set [handled e']] q [Hq _]. cbn [fst] in Hq. apply (keeping_sub _ _ _ _ Hq). cbn zeta.
  destruct handled; [by apply keeping_ret|]. keep_step; [by apply keeping_ret|]. by apply keeping_ret.
Qed.

Lemma keeping_close_interactions c st :
  keeping (held st) (close_interactions driver effect c st) (λ r p, p ⊆ held r.1).
Proof.
  unfold close_interactions. eapply keeping_bind.
  { apply (keeping_on_question _ _ (λ _, False)). eapply keeping_mono; [apply keeping_question_close|]. by intros r p [-> _]. }
  intros [question e] p [Hp _]. cbn [fst] in Hp. apply (keeping_sub _ _ _ _ Hp). cbn zeta.
  destruct e as [err|]; [by apply keeping_ret|]. eapply keeping_bind.
  { apply (keeping_on_approvals _ _ (λ _, False)). eapply keeping_mono; [apply keeping_set_close|]. by intros r q [-> _]. }
  intros [set e'] q [Hq _]. by apply keeping_ret.
Qed.

Lemma keeping_drainRuntimeEvents enabled timeout c fuel : ∀ st,
  keeping (held st) (drainRuntimeEvents driver turn target effect enabled timeout c fuel st) (λ r p,
    match r with None => True | Some (st', _) => p ⊆ held st' end).
Proof.
  induction fuel as [|fuel IH]; intros st; cbn [drainRuntimeEvents]; (keep_step; [by apply keeping_ret|]); [by apply keeping_ret|].
  keep_step. destruct a as [event| |]; [|by apply keeping_ret..].
  eapply keeping_bind; [apply keeping_consume|]. intros [st' e] p Hp. cbn [fst] in Hp. apply (keeping_sub _ _ _ _ Hp).
  destruct e; [by apply keeping_ret|apply IH].
Qed.

(** The outcome says that the effect may have happened. *)
Definition ambiguous (r : result payload) : Prop := ∃ err, r = Err err ∧ is_err err ErrAmbiguousEffect = true.

Lemma ambiguous_joined (r : result payload) err :
  ambiguous (match r with Ok _ => Err (EJoin ErrAmbiguousEffect err) | Err e => Err (EJoin e (EJoin ErrAmbiguousEffect err)) end).
Proof. destruct r as [v|e]; eexists; (split; [done|]); cbn; [done|by rewrite orb_true_r]. Qed.

Section loop.
Context (finish : option (context → OperationClaim → io (W * list rt_call) (option error))).
Context (finishes : ∀ f c claim, finish = Some f → always (Forall settled) (f c claim)).

Definition ended_within (r : option (turn_state * result payload)) (p : requests) : Prop :=
  match r with None => True | Some (st, _) => p ⊆ held st end.

Ltac over := apply keeping_ret; unfold ended_within; first [exact I|reflexivity].

Lemma keeping_turn_ended fuel enabled timeout c ref declarations waitErr st :
  keeping (held st) (turn_ended driver turn target effect fuel enabled timeout c ref declarations finish waitErr st) ended_within.
Proof.
  unfold turn_ended. cbn zeta.
  assert (∀ st (r : option (turn_state * result payload)), ended_within r (held st) →
    keeping (held st) (match finish with None => mret r | Some f =>
      on_error (f c (ts_claim st)) (λ err, mret (Some (st, Err (EJoin ErrAmbiguousEffect err)))) (mret r) end) ended_within) as Hfinish.
  { intros st' r Hr. destruct finish as [f|] eqn:Hf; [|by apply keeping_ret].
    apply keeping_settled_error; [by apply finishes|intros; over|by apply keeping_ret]. }
  eapply keeping_bind; [apply keeping_close_interactions|]. intros [st1 e] p Hp. cbn [fst] in Hp. apply (keeping_sub _ _ _ _ Hp).
  destruct e; [over|]. keep_step; [over|].
  eapply keeping_bind; [apply keeping_drainRuntimeEvents|]. intros [[st2 e2]|] p2 Hp2; [|over].
  apply (keeping_sub _ _ _ _ Hp2). destruct e2; [over|].
  eapply keeping_bind; [apply keeping_close_interactions|]. intros [st3 e3] p3 Hp3. cbn [fst] in Hp3. apply (keeping_sub _ _ _ _ Hp3).
  destruct e3; [over|]. clear Hp Hp2 Hp3.
  destruct (match waitErr with Some _ => _ | None => _ end) as [err|].
  - keep_step; [|over]. keep_step; [over|]. apply (Hfinish st3); by unfold ended_within.
  - destruct (output_Result _) as [r|err].
    + do 3 (keep_step; [over|]). apply (Hfinish (with_claim st3 a)); by unfold ended_within.
    + keep_step.
      * keep_step. destruct (is_err _ _); [apply (Hfinish st3); by unfold ended_within|over].
      * keep_step; [over|]. apply (Hfinish st3); by unfold ended_within.
Qed.

Lemma keeping_run_loop enabled timeout c ref declarations fuel : ∀ st,
  keeping (held st) (run_loop driver turn target effect fuel enabled timeout c ref declarations finish st) ended_within.
Proof.
  induction fuel as [|fuel IH]; intros st; cbn [run_loop]; [over|].
  assert (∀ st err, keeping (held st) (_ ← interruptInvocationRuntimeTurn turn c;
    mret (Some (st, Err (A:=payload) (EJoin ErrAmbiguousEffect err)))) ended_within) as Habandon.
  { intros st' err. unfold interruptInvocationRuntimeTurn. keep_step. over. }
  keep_step. destruct a as [event| | |waitErr| |err].
  - keep_step; [apply IH|]. eapply keeping_bind; [apply keeping_consume|]. intros [st' e] p Hp. apply (keeping_sub _ _ _ _ Hp).
    destruct e; [apply Habandon|apply IH].
  - apply (IH (closed_events st)).
  - keep_step; [apply IH|]. eapply keeping_bind.
    { apply (keeping_on_approvals _ _ (λ _, False)). eapply keeping_mono; [apply keeping_set_poll|]. by intros. }
    intros [set e] p [Hp _]. cbn [fst] in Hp. apply (keeping_sub _ _ _ _ Hp). cbn zeta. destruct e; [apply Habandon|].
    eapply keeping_bind.
    { apply (keeping_on_question _ _ (λ _, False)). eapply keeping_mono; [apply keeping_question_poll|]. by intros. }
    intros [question e] p' [Hp' _]. cbn [fst] in Hp'. apply (keeping_sub _ _ _ _ Hp'). cbn zeta. destruct e; [apply Habandon|apply IH].
  - apply keeping_turn_ended.
  - do 2 (keep_step; [apply Habandon|]). apply (IH (with_claim st a)).
  - apply Habandon.
Qed.

Lemma keeping_close_deferred c st r :
  keeping (held st) (close_deferred driver effect c st r) (λ r' p, p = ∅ ∨ ambiguous r').
Proof.
  unfold close_deferred. eapply keeping_bind.
  { apply (keeping_on_question _ _ (λ r, r.2 = None)). eapply keeping_mono; [apply keeping_question_close|]. by intros r' p (-> & _ & ?). }
  intros [question e] p [_ Hp]. cbn [fst snd] in Hp.
  set (r1 := match e with Some _ => _ | None => r end).
  assert (p ⊆ set_ids (ts_approvals st) ∨ ambiguous r1) as Hcase.
  { destruct e as [err|]; [right; apply ambiguous_joined|left; by apply Hp]. }
  clearbody r1. clear Hp. destruct (aset_pending (ts_approvals st)) as [|e0 l] eqn:Hl.
  { apply keeping_ret. rewrite aids_nil in Hcase. destruct Hcase; [left; set_solver|by right]. }
  destruct Hcase as [Hp|Ha].
  - rewrite <- Hl in Hp. apply (keeping_sub _ _ _ _ Hp). eapply keeping_bind; [apply keeping_set_close|].
    intros [set e'] q [_ Hq]. apply keeping_ret. destruct e' as [err|]; [right; apply ambiguous_joined|left; by apply Hq].
  - eapply keeping_bind.
    { eapply keeping_weaken; [|apply (keeping_frame (set_ids (ts_approvals st)) p), keeping_set_close]. set_solver. }
    intros [set e'] q _. apply keeping_ret. right. destruct e' as [err|]; [apply ambiguous_joined|done].
Qed.

(** What the end of a run says about the requests that are open. *)
Definition over_settled (r : option (result payload)) (p : requests) : Prop :=
  ∀ outcome, r = Some outcome → p = ∅ ∨ ambiguous outcome.

Lemma keeping_runTurn fuel c claim output ref declarations enabled timeout :
  keeping ∅ (runTurn driver turn target effect fuel c claim output ref declarations enabled timeout finish) over_settled.
Proof.
  unfold runTurn.
  assert (keeping ∅ (ended ← run_loop driver turn target effect fuel enabled timeout (WithDeadline c (c_DeadlineAt claim)) ref declarations finish
                (MkTurnState claim (MkApprovalSet [] 0) None output false true);
      match ended with
      | None => mret None
      | Some (st, r) => r ← close_deferred driver effect c st r; mret (Some r)
      end) over_settled) as Hrun.
  { eapply keeping_bind.
    { eapply keeping_weaken; [apply empty_subseteq|apply keeping_run_loop]. }
    intros [[st r]|] p Hp; [|by apply keeping_ret]. apply (keeping_sub _ _ _ _ Hp).
    eapply keeping_bind; [apply keeping_close_deferred|]. intros r' q Hq. apply keeping_ret. by intros ? [= <-]. }
  expose. destruct enabled; [|exact Hrun]. destruct (turn_questions t); [exact Hrun|].
  apply keeping_ret. intros ? _. by left.
Qed.
End loop.
End ledger.

Section run.
Context {W session owned : Type} `{RuntimeLibrary, ImageDecoder} (d : InvocationRuntimeDriver W session owned).
Abbreviation driver := (logged_runtime_driver d).

Lemma over_settled_none r : over_settled r ∅.
Proof. intros ? _. by left. Qed.
#[local] Hint Resolve over_settled_none : calls.

Lemma keeping_with_session fuel c claim effect target ref request output prepared started :
  (∀ f c' claim', started.2 = Some f → always (Forall settled) (f c' claim')) →
  keeping ∅ (with_session driver fuel c claim effect target ref request output prepared started) over_settled.
Proof.
  intros finishes. unfold with_session. expose.
  apply keeping_silently_as_bind. intros [adapter|err]; cbn [fmap result_fmap].
  2:{ keep_step. apply keeping_ret. auto with calls. }
  assert (keeping ∅ (r ← logging_as (fmap logged_turn) (λ r, RStart request (is_ok r)) (adapter_Start adapter c request);
    match r with
    | Err err => mret (Some (Err (EJoin ErrAmbiguousEffect err)))
    | Ok turn =>
        r ← runTurn driver turn target effect fuel c claim output ref (sr_Artifacts request)
              (bool_decide (sr_QuestionMode request = QuestionInteractive)) (sr_QuestionTimeout request) started.2;
        match r with None => mret None | Some r => _ ← turn_Close turn; mret (Some r) end
    end) over_settled) as Hstart.
  { apply keeping_logging_as_bind; [done|]. intros [t|err]; cbn [fmap result_fmap]; [|apply keeping_ret; apply over_settled_none].
    eapply keeping_bind; [by apply keeping_runTurn|]. intros [r|] p Hp; [|by apply keeping_ret]. keep_step. by apply keeping_ret. }
  expose. cbn zeta. eapply keeping_bind.
  - destruct prepared; [exact Hstart|]. keep_step; [apply keeping_ret; apply over_settled_none|exact Hstart].
  - intros [r|] p Hp; [|by apply keeping_ret]. keep_step. by apply keeping_ret.
Qed.

Lemma keeping_start_session fuel c claim effect target ref request output :
  keeping ∅ (start_session driver fuel c claim effect target ref request output) over_settled.
Proof.
  assert (∀ prepared, keeping ∅ (on_result (startRuntimeSession driver c effect target ref request)
    (λ err, mret (Some (Err err))) (with_session driver fuel c claim effect target ref request output prepared)) over_settled) as Hgo.
  { intros prepared. eapply (keeping_bind _ _ _ (λ r p, p = ∅ ∧ ∀ started f c' claim', r = Ok started → started.2 = Some f →
      always (Forall settled) (f c' claim'))).
    - eapply traced_mono; [by apply (traced_startRuntimeSession d (Forall settled)); apply _|]. intros t r [Ht Hr].
      exists ∅. split; [by apply keeps_settled|done].
    - intros [started|err] p [-> Hs]; [apply keeping_with_session; eauto|apply keeping_ret; apply over_settled_none]. }
  unfold start_session. expose. destruct (ird_prepare d); cbn [fmap option_fmap option_map].
  all: repeat (first [apply Hgo|keep_step]; auto with calls).
Qed.

(** C25: for every collaborator, when a run is over, every approval and every question
    it opened in the ledger and that the ledger confirmed for this claim and target
    was closed or its delivery completed, or the outcome is an error that marks the
    effect as ambiguous; a run that succeeds leaves nothing open. *)
Theorem runtime_requests_settled fuel c claim effect (w : W) :
  let '((_, t), r) := runtime_ApplyClaimed driver fuel c claim effect (w, []) in
  ∀ outcome, r = Some outcome →
    open_requests t = ∅ ∨ ∃ err, outcome = Err err ∧ is_err err ErrAmbiguousEffect = true.
Proof.
  assert (keeping ∅ (runtime_ApplyClaimed driver fuel c claim effect) over_settled) as Hrun.
  { unfold runtime_ApplyClaimed. repeat (keep_step; auto using keeping_start_session with calls). }
  destruct (Hrun w []) as (t' & Ht & p & Hp & Hover). destruct (runtime_ApplyClaimed _ _ _ _ _ _) as [[w' t] r].
  cbn [fst snd app] in *. subst t'. intros outcome Hr. destruct (Hover outcome Hr) as [->|Ha]; [left|by right].
  specialize (Hp ∅ ∅). unfold open_requests. set_solver.
Qed.
End run.
