(* ===== verification/RuntimeRuns.v ===== *)
(** * How a run starts and what success means

    For every collaborator, whatever it answers: what must have happened before the
    agent is started, and what must have happened before an effect counts as done. *)
From S2P Require Import Prelude.
From S2P Require Import CallLog.
From S2P Require Import GoStrings.
From S2P Require Import GoJson.
From S2P Require Import Questions.
From S2P Require Import RuntimeTables.
From S2P Require Import Database.
From S2P Require Import OperationStore.
From S2P Require Import RuntimeInteraction.
From S2P Require Import RuntimeApproval.
From S2P Require Import RuntimeQuestion.
From S2P Require Import Reconciler.
From S2P Require Import GatewayStore.
From S2P Require Import Drivers.
From S2P Require Import RuntimeOutput.
From S2P Require Import RuntimeRequest.
From S2P Require Import RuntimeDriver.
From S2P Require Import RuntimeTurn.
From S2P Require Import RuntimeLogic.
From S2P Require Import RuntimeParts.

(** ** Observing *)

Definition observing_call (c : rt_call) : bool :=
  match c with
  | RTarget _ _ | RAttempt _ _ _ | RAuthorize _ _ _ | RRenew _ _ | RFinalize _ _ | RFail _ _ _ _ => true
  | _ => false
  end.

Section observing.
Context {W session owned : Type} `{RuntimeLibrary, ImageDecoder} (d : InvocationRuntimeDriver W session owned).
Context (c : context) (claim : OperationClaim) (effect : EffectRecord).
Abbreviation driver := (logged_runtime_driver d).
Abbreviation RAttemptOf := (RAttempt (e_IsolationDomainID effect) (e_OperationID effect)).

(** An attempt is the only evidence of what happened. *)
Definition observed (t : list rt_call) (r : result (option json * bool)) : Prop :=
  Forall (λ c, observing_call c = true) t
  ∧ ∀ result exists_, r = Ok (result, exists_) →
      if (exists_ : bool) then ∃ attempt, RAttemptOf (Ok attempt) ∈ t ∧ att_EffectID attempt = e_EffectID effect
        ∧ att_Status attempt = "succeeded" ∧ result = att_Result attempt
      else ∃ err, t = [RAttemptOf (Err err)] ∧ is_err err ErrInvocationRuntimeAttemptMissing = true.

Lemma traced_runtime_ObserveClaimed : traced (runtime_ObserveClaimed driver c claim effect) observed.
Proof.
  unfold runtime_ObserveClaimed. cbn zeta. destruct (negb _); [apply traced_ret; by split|].
  apply traced_quiet_error; [walk|intros; apply traced_ret; by split|].
  apply traced_logging_bind. intros [attempt|err].
  2:{ destruct (is_err err _) eqn:He; apply traced_ret; (split; [by repeat constructor|]); [|done].
      intros ? ? [= <- <-]. by exists err. }
  assert (∀ k : result (option json * bool), (∀ r b, k = Ok (r, b) → b = true ∧ att_EffectID attempt = e_EffectID effect
        ∧ att_Status attempt = "succeeded" ∧ r = att_Result attempt) → ∀ t0, Forall (λ c, observing_call c = true) t0 → traced
    (on_error (recoverWorkspace driver c claim effect) (λ err, mret (Err (EJoin ErrAmbiguousEffect err))) (mret k))
    (λ t, observed (RAttemptOf (Ok attempt) :: t0 ++ t))) as Hrecover.
  { intros k Hk t0 Ht0. eapply traced_bind; [by apply (always_recoverWorkspace d (Forall (λ c, observing_call c = true))); apply _|].
    intros t e Ht. assert (Forall (λ c, observing_call c = true) (RAttemptOf (Ok attempt) :: t0 ++ t)) as Hall.
    { constructor; [done|]. by apply Forall_app. }
    destruct e as [err|]; apply traced_ret; rewrite app_nil_r; (split; [done|]); [done|].
    intros r b ->. destruct (Hk r b eq_refl) as (-> & ? & ? & ->). exists attempt. split; [apply elem_of_cons; by left|done]. }
  destruct (decide _) as [|Heffect]; [apply traced_ret; split; [by repeat constructor|done]|]. apply dec_stable in Heffect.
  destruct (decide _) as [Hs|_].
  { apply (Hrecover (Ok (att_Result attempt, true))) with (t0 := []); [|constructor]. by intros r b [= <- <-]. }
  destruct (decide _); [by apply (Hrecover (Err _)) with (t0 := []); [|constructor]|].
  destruct (decide _).
  { eapply traced_bind; [apply (always_retainInvalidRuntimeOutput d effect (Forall (λ c, observing_call c = true))); apply _|].
    intros t err Ht. destruct (is_err err _); [by apply (Hrecover (Err err))|].
    apply traced_ret. rewrite app_nil_r. split; [by constructor|done]. }
  destruct (decide _); apply traced_ret; (split; [by repeat constructor|done]).
Qed.
End observing.

(** ** Starting *)

Definition starts (c : rt_call) : bool := match c with RStart _ _ => true | _ => false end.
Abbreviation unstarted := (Forall (λ c, starts c = false)).
Abbreviation in_turn := (Forall (λ c, turn_call c = true)).

Section starting.
Context {W session owned : Type} `{RuntimeLibrary, ImageDecoder} (d : InvocationRuntimeDriver W session owned).
Context (fuel : nat) (c : context) (claim : OperationClaim) (effect : EffectRecord) (target : InvocationRuntimeTarget).
Context (ref : ExecutionRef) (request : StartRequest) (output : invocationRuntimeOutput).
Abbreviation driver := (logged_runtime_driver d).

(** After [before], the agent was started once, or never. *)
Definition started_after (before : list rt_call → Prop) (t : list rt_call) : Prop :=
  unstarted t ∨ ∃ t0 s after, t = t0 ++ RStart request s :: after ∧ before t0 ∧ in_turn after.

Lemma started_cons (before : list rt_call → Prop) call t :
  starts call = false → started_after (λ t0, before (call :: t0)) t → started_after before (call :: t).
Proof. intros Hc [Ht|(t0 & s & after & -> & Hb & Ha)]; [left; by constructor|right; by exists (call :: t0), s, after]. Qed.

Lemma started_app (before : list rt_call → Prop) t1 t :
  unstarted t1 → started_after (λ t0, before (t1 ++ t0)) t → started_after before (t1 ++ t).
Proof.
  intros Hc [Ht|(t0 & s & after & -> & Hb & Ha)]; [left; by apply Forall_app|right].
  exists (t1 ++ t0), s, after. by rewrite <- app_assoc.
Qed.

Lemma traced_with_session prepared started :
  (∀ f c' claim', started.2 = Some f → always in_turn (f c' claim')) →
  traced (with_session driver fuel c claim effect target ref request output prepared started) (λ t _,
    started_after (λ t0, t0 = if (prepared : bool) then [] else [RBegin claim effect None]) t).
Proof.
  intros finishes. unfold with_session. expose. apply traced_silently_as_bind. intros [adapter|err]; cbn [fmap result_fmap].
  2:{ apply traced_silently_bind. intros _. apply traced_ret. by left. }
  expose. cbn zeta. eapply (traced_bind _ _ (λ t _, started_after (λ t0, t0 = if (prepared : bool) then [] else [RBegin claim effect None]) t)).
  2:{ intros t [r|] Ht; [apply traced_silently_bind; intros _|]; apply traced_ret; by rewrite app_nil_r. }
  match goal with |- traced (if prepared then ?m else _) _ =>
    assert (traced m (λ t _, ∃ s after, t = RStart request s :: after ∧ in_turn after)) as Hstart end.
  { apply traced_logging_as_bind. intros [t|err]; cbn [fmap result_fmap]; [|apply traced_ret; by eexists _, _].
    eapply traced_bind; [apply (always_runTurn d t target effect in_turn); eauto with calls; apply _|].
    intros after r Ha. destruct r; [apply traced_silently_bind; intros _|]; apply traced_ret; rewrite app_nil_r; by eexists _, _. }
  destruct prepared.
  - eapply traced_mono; [exact Hstart|]. intros t ? (s & after & -> & Ha). right. by exists [], s, after.
  - apply traced_log_error; [intros err; apply traced_ret; left; by repeat constructor|].
    eapply traced_mono; [exact Hstart|]. intros t ? (s & after & -> & Ha). right. by exists [RBegin claim effect None], s, after.
Qed.

(** Authorisations asked for on the way, the last of them granted, then the reservation
    of the attempt and the session, in either order. *)
Definition reserved_before (t0 : list rt_call) : Prop :=
  ∃ asked reserved, t0 = asked ++ reserved ∧ Forall (λ call, ∃ e, call = RAuthorize target request e) asked
  ∧ (∀ call, last asked = Some call → call = RAuthorize target request None)
  ∧ reserved ≡ₚ [RBegin claim effect None; RSession ref true].

Abbreviation asks := (Forall (λ call, ∃ e, call = RAuthorize target request e)).

Lemma always_check c' : always asks
  (on_error (authorize_runtime driver c' target request) (λ err, mret (Some err)) (ready driver c')).
Proof.
  apply always_on_error; [apply _| |walk|walk]. unfold authorize_runtime. apply always_on_error; [apply _| |walk|walk].
  apply always_logging. intros e. constructor; [by exists e|constructor].
Qed.

Lemma traced_authorize_runtime :
  traced (authorize_runtime driver c target request) (λ t e, asks t ∧ (e = None → t = [RAuthorize target request None])).
Proof.
  unfold authorize_runtime. expose. apply traced_log_error; [intros err|]; apply traced_ret;
    (split; [repeat constructor; by eexists|]); [by destruct (is_err _ _)|done].
Qed.

Lemma traced_check : traced
  (on_error (authorize_runtime driver c target request) (λ err, mret (Some err)) (ready driver c)) (λ t e,
    asks t ∧ (e = None → t = [RAuthorize target request None])).
Proof.
  apply traced_and; [apply always_check|].
  eapply traced_bind; [apply traced_authorize_runtime|]. intros t [err|] [_ Ht]; [by apply traced_ret|]. rewrite (Ht eq_refl).
  eapply traced_mono; [apply (always_ready d (λ t, t = [])); apply _|]. by intros t' e ->.
Qed.

Lemma traced_session :
  traced (startRuntimeSession driver c effect target ref request) (λ t r,
    match r with Ok _ => t = [RSession ref true] | Err _ => t = [RSession ref false] end
    ∧ ∀ started f c' claim', r = Ok started → started.2 = Some f → always in_turn (f c' claim')).
Proof.
  unfold startRuntimeSession, on_result. expose.
  destruct (ird_completion d) as [[[start confirm] export]|]; cbn [fmap option_fmap option_map];
    apply traced_logging_bind; intros [s|err]; apply traced_ret; (split; [done|]); intros started f c' claim' [=<-].
  - intros [=<-]. by apply always_finishWorkspace; apply _.
  - done.
Qed.

Lemma traced_go prepared :
  traced (on_result (startRuntimeSession driver c effect target ref request) (λ err, mret (Some (Err err)))
    (with_session driver fuel c claim effect target ref request output prepared)) (λ t _,
    started_after (λ t0, t0 = RSession ref true :: if (prepared : bool) then [] else [RBegin claim effect None]) t).
Proof.
  eapply traced_bind; [apply traced_session|]. intros t [started|err] [-> Hf].
  - eapply traced_mono; [apply traced_with_session; eauto|]. intros t' ? Ht'. apply started_cons; [done|].
    destruct Ht' as [?|(t0 & s & after & -> & -> & ?)]; [by left|right; by eexists _, s, after].
  - apply traced_ret. left. by repeat constructor.
Qed.

Lemma asks_unstarted t : asks t → unstarted t.
Proof. intros Ht. eapply Forall_impl; [exact Ht|]. by intros ? [? ->]. Qed.

Lemma traced_prepared required :
  traced (on_result (silently (st_CheckInvocationWorkspacePreparation (ird_store d) c claim effect)) (λ err, mret (Some (Err err))) (λ prepared,
    if negb prepared && required then mret (Some (Err ErrWorkspacePreparation))
    else
      let go := on_result (startRuntimeSession driver c effect target ref request) (λ err, mret (Some (Err err)))
                  (with_session driver fuel c claim effect target ref request output prepared) in
      if (prepared : bool) then on_error (logging (RBegin claim effect) (st_BeginInvocationRuntimeAttempt (ird_store d) c claim effect))
                                  (λ err, mret (Some (Err err))) go else go))
    (λ t _, started_after (λ t0, t0 ≡ₚ [RBegin claim effect None; RSession ref true]) t).
Proof.
  apply traced_quiet_result; [walk|intros; apply traced_ret; by left|]. intros prepared.
  destruct (negb prepared && _); [apply traced_ret; by left|]. destruct prepared.
  - apply traced_log_error; [intros; apply traced_ret; left; by repeat constructor|].
    eapply traced_mono; [apply traced_go|]. intros t ? Ht. apply started_cons; [done|].
    destruct Ht as [?|(t0 & s & after & -> & -> & ?)]; [by left|right; by eexists _, s, after].
  - eapply traced_mono; [apply traced_go|]. intros t ? [?|(t0 & s & after & -> & -> & ?)]; [by left|right].
    eexists _, s, after. split_and!; [done| |done]. apply Permutation_swap.
Qed.

Lemma traced_start_session :
  traced (start_session driver fuel c claim effect target ref request output) (λ t _, started_after reserved_before t).
Proof.
  unfold start_session. cbn zeta.
  expose. destruct (ird_prepare d) as [prepare|]; cbn [fmap option_fmap option_map].
  - eapply traced_bind; [apply (always_asking asks), always_check; apply _|]. intros asked [err|] Hasked.
    { apply traced_ret. left. rewrite app_nil_r. by apply asks_unstarted. }
    eapply traced_bind; [apply traced_check|]. intros checked [err|] [Hchecked Hnone].
    { apply traced_ret. left. rewrite app_nil_r. apply Forall_app; split; by apply asks_unstarted. }
    eapply traced_mono; [apply traced_prepared|]. intros t ? Ht. rewrite (Hnone eq_refl), app_assoc in *.
    apply started_app; [apply Forall_app; split; [by apply asks_unstarted|by repeat constructor]|].
    destruct Ht as [?|(t0 & s & after & -> & Ht0 & ?)]; [by left|right]. exists t0, s, after. split_and!; [done| |done].
    exists (asked ++ [RAuthorize target request None]), t0. split_and!; [done| | |done].
    + apply Forall_app; split; [done|]. repeat constructor. by eexists.
    + intros call. rewrite last_snoc. by intros [= <-].
  - eapply traced_mono; [apply traced_prepared|]. intros t ? [?|(t0 & s & after & -> & ? & ?)]; [by left|right].
    exists t0, s, after. split_and!; [done| |done]. by exists [], t0.
Qed.
End starting.

(** ** Runs *)

Section running.
Context {W session owned : Type} `{RuntimeLibrary, ImageDecoder} (d : InvocationRuntimeDriver W session owned).
Abbreviation driver := (logged_runtime_driver d).

Definition ready_observation (ref : ExecutionRef) (observation : Observation) : Prop :=
  ob_IsolationDomainID observation = ref_IsolationDomainID ref ∧ ob_ExecutionID observation = ref_ID ref
  ∧ ob_State observation = "ready".

(** What a run did before it started the agent. *)
Definition governed_before (claim : OperationClaim) (effect : EffectRecord) (request : StartRequest) (t0 : list rt_call) : Prop :=
  ∃ target ref observation claim' t1,
    t0 = [RTarget claim (Ok target); RObserve ref (Ok observation); RRenew claim (Ok claim'); RAuthorize target request None] ++ t1
    ∧ invocationRuntimeEffectMatchesClaim claim effect = true ∧ invocationRuntimeTargetMatchesClaim target claim = true
    ∧ ref_IsolationDomainID ref = c_IsolationDomainID claim ∧ ready_observation ref observation
    ∧ driver_validateInvocationRuntimeRequest d request = Ok tt
    ∧ reserved_before claim' effect target ref request t1.

Lemma validate_logged request :
  driver_validateInvocationRuntimeRequest driver request = driver_validateInvocationRuntimeRequest d request.
Proof.
  unfold driver_validateInvocationRuntimeRequest. expose. by destruct (ird_approvals d), (ird_questions d), (ird_readiness d).
Qed.

Lemma traced_runtime_ApplyClaimed fuel c claim effect :
  traced (runtime_ApplyClaimed driver fuel c claim effect) (λ t _,
    ∃ request, started_after request (governed_before claim effect request) t).
Proof.
  unfold runtime_ApplyClaimed. cbn zeta.
  destruct (invocationRuntimeEffectMatchesClaim claim effect) eqn:Heffect; cbn [negb].
  2:{ apply traced_ret. exists (MkStart "" "" "" None [] "" "" 0 ""). by left. }
  assert (∀ t, unstarted t → ∃ request, started_after request (governed_before claim effect request) t) as Hnone.
  { intros t Ht. exists (MkStart "" "" "" None [] "" "" 0 ""). by left. }
  trace_step; [apply traced_ret, Hnone; by repeat constructor|].
  trace_step; [apply traced_ret, Hnone; by repeat constructor|]. rename a into target.
  destruct (invocationRuntimeTargetMatchesClaim target claim) eqn:Htarget; cbn [negb]; [|apply traced_ret, Hnone; by repeat constructor].
  trace_step; [apply traced_ret, Hnone; by repeat constructor|]. rename a into value.
  destruct (decide _); [apply traced_ret, Hnone; by repeat constructor|].
  trace_step; [apply traced_ret, Hnone; by repeat constructor|]. rename a into observation.
  do 3 (trace_step; [apply traced_ret, Hnone; by repeat constructor|]).
  trace_step; [apply traced_ret, Hnone; by repeat constructor|]. rename a into request.
  rewrite validate_logged. destruct (driver_validateInvocationRuntimeRequest d request) as [[]|err] eqn:Hvalid;
    [|apply traced_ret, Hnone; by repeat constructor].
  destruct (newInvocationRuntimeOutput _) as [output|err]; [|apply traced_ret, Hnone; by repeat constructor].
  trace_step; [apply traced_ret, Hnone; by repeat constructor|]. rename a into claim'.
  eapply traced_bind; [apply traced_authorize_runtime|]. intros t [err|] [Hasks Hgranted].
  { apply traced_ret, Hnone. rewrite app_nil_r. repeat constructor. by apply asks_unstarted in Hasks. }
  rewrite (Hgranted eq_refl). trace_step; [apply traced_ret, Hnone; by repeat constructor|].
  eapply traced_mono; [apply traced_start_session|]. intros t' ? Ht'. exists request.
  apply (started_app request _ [_; _; _; _]); [by repeat constructor|].
  destruct Ht' as [?|(t0 & s & after & -> & Ht0 & ?)]; [by left|right]. exists t0, s, after. split_and!; [done| |done].
  eexists target, _, observation, claim', t0. split_and!; [done..| | |done|done].
  - apply bool_decide_eq_true in Htarget. cbn. naive_solver.
  - split_and!; [apply dec_stable; naive_solver..|by apply dec_stable].
Qed.

(** C4: for every collaborator, a run starts the agent at most once, and then only as
    follows: the claim's own target was read, its execution observed ready, the lease
    renewed, the validated request authorised for that target, then perhaps asked for
    again and granted; the attempt was reserved under the renewed claim and the
    session opened; nothing after the start reserves an attempt, opens a session or
    starts again.  Observing never does any of this: it reports the effect as done
    only from a recorded success of this effect, and as absent only when the store
    has no attempt. *)
Theorem runtime_turn_governed fuel c claim effect (w : W) :
  (let '((_, t), _) := runtime_ApplyClaimed driver fuel c claim effect (w, []) in
   Forall (λ call, starts call = false) t ∨
   ∃ target ref observation claim' request asked reserved started after,
     t = [RTarget claim (Ok target); RObserve ref (Ok observation); RRenew claim (Ok claim'); RAuthorize target request None]
         ++ asked ++ reserved ++ RStart request started :: after
     ∧ invocationRuntimeEffectMatchesClaim claim effect = true ∧ invocationRuntimeTargetMatchesClaim target claim = true
     ∧ ref_IsolationDomainID ref = c_IsolationDomainID claim ∧ ready_observation ref observation
     ∧ driver_validateInvocationRuntimeRequest d request = Ok tt
     ∧ Forall (λ call, ∃ e, call = RAuthorize target request e) asked
     ∧ (∀ call, last asked = Some call → call = RAuthorize target request None)
     ∧ reserved ≡ₚ [RBegin claim' effect None; RSession ref true]
     ∧ Forall (λ call, turn_call call = true) after)
  ∧ let '((_, t), r) := runtime_ObserveClaimed driver c claim effect (w, []) in
    Forall (λ call, observing_call call = true) t
    ∧ ∀ result exists_, r = Ok (result, exists_) →
        if (exists_ : bool) then ∃ attempt, RAttempt (e_IsolationDomainID effect) (e_OperationID effect) (Ok attempt) ∈ t
          ∧ att_EffectID attempt = e_EffectID effect ∧ att_Status attempt = "succeeded" ∧ result = att_Result attempt
        else ∃ err, t = [RAttempt (e_IsolationDomainID effect) (e_OperationID effect) (Err err)]
          ∧ is_err err ErrInvocationRuntimeAttemptMissing = true.
Proof.
  split.
  - destruct (traced_runtime_ApplyClaimed fuel c claim effect w []) as (t' & Ht & request & Hs).
    destruct (runtime_ApplyClaimed _ _ _ _ _ _) as [[w' t] r]. cbn [fst snd app] in *. subst t'.
    destruct Hs as [?|(t0 & s & after & -> & (target & ref & observation & claim' & t1 & -> & ? & ? & ? & ? & ? & Hr) & ?)];
      [by left|right]. destruct Hr as (asked & reserved & -> & ? & ? & ?).
    exists target, ref, observation, claim', request, asked, reserved, s, after. by rewrite <- !app_assoc.
  - destruct (traced_runtime_ObserveClaimed d c claim effect w []) as (t' & Ht & HO).
    destruct (runtime_ObserveClaimed _ _ _ _ _) as [[w' t] r]. cbn [fst snd app] in *. subst t'. exact HO.
Qed.
End running.
