(* ===== verification/RuntimeSuccess.v ===== *)
(** * What a successful run has done

    A run reports success only after the agent ended by itself, nothing it did was
    recorded as a cancellation or a failure, every declared artifact was exported and
    finalised, and the attempt was completed with exactly the reported result. *)
From S2P Require Import Prelude.
From S2P Require Import CallLog.
From S2P Require Import GoStrings.
From S2P Require Import GoJson.
From S2P Require Import Questions.
From S2P Require Import RuntimeTables.
From S2P Require Import Database.
From S2P Require Import OperationStore.
From S2P Require Import RuntimeInteraction.
From S2P Require Import RuntimeApproval.
From S2P Require Import RuntimeQuestion.
From S2P Require Import Reconciler.
From S2P Require Import GatewayStore.
From S2P Require Import Drivers.
From S2P Require Import RuntimeOutput.
From S2P Require Import RuntimeRequest.
From S2P Require Import RuntimeDriver.
From S2P Require Import RuntimeTurn.
From S2P Require Import RuntimeLogic.
From S2P Require Import RuntimeParts.

(** No failure and no cancellation: every record was accepted, none of them is a
    cancellation, and the attempt was neither failed nor completed. *)
Definition unfailing_call (c : rt_call) : Prop :=
  match c with
  | RJournal _ event e => e = None ∧ re_Type event ≠ "lifecycle.cancelled"
  | RFail _ _ _ _ | RComplete _ _ _ _ => False
  | _ => True
  end.

(** The event a call took from the agent. *)
Definition taken (c : rt_call) : option Event :=
  match c with RSelect (SelEvent event) | RReceive (RecvEvent event) => Some event | _ => None end.

(** The types under which the journal holds an event of a type. *)
Definition journal_types (type : string) : list string :=
  if decide (type = PlanUpdatedEvent) then [PlanArtifactEvent]
  else if decide (type = ToolCompletedEvent) then [ToolArtifactEvent]
  else if decide (type = ImageCompletedEvent) then [ImageArtifactEvent]
  else if decide (type = PatchCompletedEvent) then [PatchArtifactEvent]
  else if decide (type = CommandCompletedEvent) then [CommandArtifactEvent]
  else if decide (type = MessageCompletedEvent) then [MessageCompletedEvent; MessageArtifactEvent]
  else [type].

(** The call put the event on record: in the journal under its number, or as the
    request of an approval or of a question with its number. *)
Definition records (event : Event) (c : rt_call) : Prop :=
  match c with
  | RJournal _ record None => re_SourceSequence record = ev_Sequence event ∧ re_Type record ∈ journal_types (ev_Type event)
  | AOpen _ _ _ request (Ok _) => arq_SourceSequence request = ev_Sequence event ∧ ev_Type event = "interaction.approval.requested"
  | QOpen _ _ request (Ok _) => qrq_SourceSequence request = ev_Sequence event ∧ ev_Type event = "interaction.question.requested"
  | _ => False
  end.

(** An event was dealt with: it is no cancellation and it was put on record before
    anything else was taken from the agent. *)
Definition dealt_with (event : Event) (after : list rt_call) : Prop :=
  ev_Type event ≠ "lifecycle.cancelled"
  ∧ ∃ t1 c t2, after = t1 ++ c :: t2 ∧ records event c ∧ Forall (λ c, taken c = None) t1.

(** Every event taken while the channel was open was dealt with. *)
Definition heard (open : bool) (log : list rt_call) : Prop :=
  ∀ t1 c event t2, log = t1 ++ c :: t2 → taken c = Some event → open = true → RSelect SelClosed ∉ t1 → dealt_with event t2.

(** Nothing is left with the agent: its channel was closed, or found empty or closed
    when the agent had ended. *)
Definition drained (log : list rt_call) : Prop :=
  Exists (λ c, c = RSelect SelClosed ∨ c = RReceive RecvEmpty ∨ c = RReceive RecvClosed) log.

(** Nothing is taken and nothing fails. *)
Definition calm_call (c : rt_call) : Prop := taken c = None ∧ unfailing_call c.
Abbreviation calm := (Forall calm_call).

(** Nothing fails, and what is taken is dealt with. *)
Definition settled (open : bool) (log : list rt_call) : Prop := Forall unfailing_call log ∧ heard open log.

Lemma dealt_with_app event log log' : dealt_with event log → dealt_with event (log ++ log').
Proof.
  intros (Ht & t1 & c & t2 & -> & Hc & Hq). split; [done|]. exists t1, c, (t2 ++ log'). by rewrite <- app_assoc.
Qed.

Lemma heard_quiet open log : Forall (λ c, taken c = None) log → heard open log.
Proof. intros Hq t1 c event t2 -> Hc. apply Forall_app in Hq as [_ [? _]%Forall_cons]. congruence. Qed.

Lemma heard_app open log log' : heard open log → heard open log' → heard open (log ++ log').
Proof.
  intros H1 H2 t1 c event t2 Heq Hc Ho Hn. symmetry in Heq. apply app_eq_inv in Heq as [(k & -> & Hk)|(k & -> & Hk)].
  - eapply H2; [exact Hk|done..|set_solver].
  - destruct k as [|x k]; simplify_eq/=.
    + eapply (H2 []); [done..|set_solver].
    + apply dealt_with_app. by eapply H1.
Qed.

Lemma heard_closed log : heard false log → heard true (RSelect SelClosed :: log).
Proof. intros _ [|x t1] c event t2 Heq Hc _ Hn; simplify_eq/=. destruct Hn. by left. Qed.

(** What is taken and then put on record. *)
Lemma heard_taken open c event log :
  taken c = Some event → ev_Type event ≠ "lifecycle.cancelled" → Exists (records event) log → calm log → heard open (c :: log).
Proof.
  intros Hc Ht Hr Hq. assert (Forall (λ c, taken c = None) log) as Hn by (eapply Forall_impl; [exact Hq|]; by intros ? []).
  intros [|x t1] c' event' t2 [= -> ->] Hc' _ _.
  - rewrite Hc in Hc'. injection Hc' as <-. split; [done|]. apply Exists_exists in Hr as (call & Hin & Hr).
    apply list_elem_of_split in Hin as (t1 & t3 & ->). exists t1, call, t3. split_and!; [done..|]. by apply Forall_app in Hn as [? _].
  - apply Forall_app in Hn as [_ [? _]%Forall_cons]. congruence.
Qed.

Lemma settled_calm open log : calm log → settled open log.
Proof. intros Hq. split; [|apply heard_quiet]; eapply Forall_impl; try exact Hq; by intros ? []. Qed.

Lemma settled_app open log log' : settled open log → settled open log' → settled open (log ++ log').
Proof. intros [] []. split; [by apply Forall_app|by apply heard_app]. Qed.

Lemma settled_taken open c event log :
  taken c = Some event → ev_Type event ≠ "lifecycle.cancelled" → Exists (records event) log → calm log → settled open (c :: log).
Proof.
  intros Hc Ht Hr Hq. split; [|by eapply heard_taken]. constructor; [by destruct c as [| | | | | | | | | | | | | []| | | | | | | | | | | | | | |]|].
  eapply Forall_impl; [exact Hq|]. by intros ? [].
Qed.

(** What is offered after the channel was closed is not looked at. *)
Lemma settled_ignored event : settled false [RSelect (SelEvent event)].
Proof. split; [by constructor|]. by intros ? ? ? ? ? ? ?. Qed.

Lemma settled_open open log : settled true log → settled open log.
Proof. intros [? Hh]. split; [done|]. destruct open; [done|]. by intros ? ? ? ? ? ? ?. Qed.

Lemma settled_closed log : settled false log → settled true (RSelect SelClosed :: log).
Proof. intros [? ?]. split; [by constructor|by apply heard_closed]. Qed.

Section success.
Context {W session owned : Type} `{RuntimeLibrary, ImageDecoder} (d : InvocationRuntimeDriver W session owned).
Context (t : Turn W) (target : InvocationRuntimeTarget) (effect : EffectRecord).
Context (ref : ExecutionRef) (declarations : list ArtifactDeclaration).
Abbreviation driver := (logged_runtime_driver d).
Abbreviation turn := (logged_turn t).

(** A declared artifact was exported from the sandbox and what was exported finalised. *)
Definition published (before : list rt_call) (declaration : ArtifactDeclaration) : Prop :=
  ∃ exported claim bound, RExport ref (dec_SandboxPath declaration) (Ok exported) ∈ before
  ∧ ex_IsolationDomainID exported = ref_IsolationDomainID ref ∧ ex_ExecutionID exported = ref_ID ref
  ∧ RFinalize (MkFinalization (artifact_binding claim (declaration_record target effect declaration (ex_Content exported)))
      (ex_Content exported)) (Ok bound) ∈ before.

(** The attempt was completed, after the calls [required] and without a failure. *)
Definition evidence (open : bool) (required : list rt_call) (result : payload) (log : list rt_call) : Prop :=
  ∃ before claim after, log = before ++ RComplete claim effect result None :: after ∧ settled open before ∧ calm after
  ∧ (open = true → drained before) ∧ Forall (.∈ before) required ∧ Forall (published before) declarations.

Lemma published_mono before before' declaration :
  (∀ call, call ∈ before → call ∈ before') → published before declaration → published before' declaration.
Proof. intros Hsub (exported & claim & bound & ? & ? & ? & ?). exists exported, claim, bound. auto. Qed.

Lemma evidence_longer open open' required result log0 log :
  (∀ log, settled open log → settled open' (log0 ++ log)) → (open' = true → open = true ∨ drained log0) →
  evidence open required result log → evidence open' (log0 ++ required) result (log0 ++ log).
Proof.
  intros Hc Ho (before & claim & after & -> & Hb & Ha & Hd & Hs & Hp). exists (log0 ++ before), claim, after.
  rewrite app_assoc. split_and!; [done|by apply Hc|done|..].
  - intros Hopen. apply Exists_app. destruct (Ho Hopen); [right; by apply Hd|by left].
  - rewrite Forall_forall in *. intros call. rewrite !elem_of_app. intros [?|?]; auto.
  - eapply Forall_impl; [exact Hp|]. intros declaration. apply published_mono. intros call. rewrite elem_of_app. auto.
Qed.

Lemma evidence_prefix open required result log0 log :
  settled open log0 → evidence open required result log → evidence open (log0 ++ required) result (log0 ++ log).
Proof. intros Hc. apply evidence_longer; [|by left]. intros ?. by apply settled_app. Qed.

Lemma evidence_weaken open required required' result log :
  Forall (.∈ required) required' → evidence open required result log → evidence open required' result log.
Proof.
  intros Hr (before & claim & after & -> & Hb & Ha & Hd & Hs & Hp). exists before, claim, after. split_and!; [done..| |done].
  rewrite Forall_forall in *. auto.
Qed.

Lemma evidence_settled open required result log0 log :
  settled open log0 → evidence open required result log → evidence open required result (log0 ++ log).
Proof.
  intros Hc He. eapply evidence_weaken; [|by apply evidence_prefix]. apply Forall_forall. intros call ?. apply elem_of_app. auto.
Qed.

Lemma evidence_after open required result log0 log :
  calm log0 → evidence open required result log → evidence open required result (log0 ++ log).
Proof. intros Hc. by apply evidence_settled, settled_calm. Qed.

Lemma evidence_closed required result log :
  evidence false required result log → evidence true required result (RSelect SelClosed :: log).
Proof.
  intros He. eapply evidence_weaken; [|eapply (evidence_longer _ _ _ _ [RSelect SelClosed]); [| |exact He]].
  - apply Forall_forall. intros call ?. apply elem_of_app. auto.
  - apply settled_closed.
  - intros _. right. constructor. by left.
Qed.

Lemma evidence_suffix open required result log log1 :
  evidence open required result log → calm log1 → evidence open required result (log ++ log1).
Proof.
  intros (before & claim & after & -> & Hb & Ha & Hd & Hs & Hp) Hc. exists before, claim, (after ++ log1).
  rewrite <- app_assoc. split_and!; [done|done|by apply Forall_app|done|done|done].
Qed.

(** ** Events *)

(** An event that was recorded, and if it is no cancellation without a trace of one. *)
Definition recorded (event : Event) (log : list rt_call) : Prop :=
  Exists (records event) log ∧ (ev_Type event ≠ "lifecycle.cancelled" → calm log).

Lemma recorded_journal event claim (record : InvocationRuntimeEvent) log :
  calm log → re_SourceSequence record = ev_Sequence event → re_Type record ∈ journal_types (ev_Type event) →
  (ev_Type event ≠ "lifecycle.cancelled" → re_Type record ≠ "lifecycle.cancelled") →
  recorded event (log ++ [RJournal claim record None]).
Proof.
  intros Hc Hs Ht Hn. split; [apply Exists_app; right; by constructor|]. intros Hne. apply Forall_app; split; [done|].
  constructor; [|constructor]. split; [done|]. split; [done|by apply Hn].
Qed.

Lemma recorded_reference c claim event namespace name kind mediaType content type reference :
  journal_types (ev_Type event) = [type] → type ≠ "lifecycle.cancelled" →
  traced (record_reference driver c claim effect target (ev_Sequence event) namespace name kind mediaType content type reference) (λ log e,
    e = None → recorded event log).
Proof.
  intros Hj Ht. eapply traced_bind; [by apply (always_finalizeRuntimeArtifact d calm); apply _|]. intros log [record|err] Hlog.
  - apply traced_logging. intros e ->. apply recorded_journal; [done|done| |done]. rewrite Hj. by constructor.
  - by apply traced_ret.
Qed.

Lemma recorded_event c claim event recorded_as :
  ev_Sequence recorded_as = ev_Sequence event → ev_Type recorded_as = ev_Type event → ev_Type event ∈ journal_types (ev_Type event) →
  traced (recordRuntimeEvent driver c claim recorded_as) (λ log e, e = None → recorded event log).
Proof.
  intros Hs Ht Hj. unfold recordRuntimeEvent. destruct (has_prefix _ _); [by apply traced_ret|]. destruct (has_prefix _ _); [by apply traced_ret|].
  apply traced_logging. intros e ->. apply (recorded_journal event claim _ []); cbn; rewrite ?Ht; done.
Qed.

Ltac output_steps :=
  unfold recordRuntimePlan, recordCompletedRuntimeTool, recordCompletedRuntimeImage, recordCompletedRuntimePatch,
    recordCompletedRuntimeCommand; repeat case_match;
  first [by apply traced_ret|apply recorded_reference; [|done]; by match goal with E : ev_Type _ = _ |- _ => rewrite E end].

Lemma recorded_recordRuntimeOutput c claim event :
  traced (recordRuntimeOutput driver c claim effect target event) (λ log r, is_ok r = true → recorded event log).
Proof.
  assert (∀ m : io (W * list rt_call) (option error), traced m (λ log e, e = None → recorded event log) →
    traced (e ← m; mret (match e with Some err => Err err | None => Ok (A:=option MessageArtifact) None end))
      (λ log r, is_ok r = true → recorded event log)) as Hno.
  { intros m Hm. eapply traced_bind; [exact Hm|]. intros log [err|] Hlog; apply traced_ret; [by intros|].
    intros _. rewrite app_nil_r. by apply Hlog. }
  unfold recordRuntimeOutput. cbn zeta.
  destruct (decide _); [apply traced_ret; by intros|].
  do 5 (destruct (decide _); [apply Hno; output_steps|]).
  destruct (decide _) as [Hdelta|].
  { destruct (get_string _ _); [|apply traced_ret; by intros]. destruct (_ || _); [apply traced_ret; by intros|].
    apply Hno, recorded_event; [done..|]. by rewrite Hdelta; constructor. }
  assert (ev_Type event ∈ journal_types (ev_Type event)) as Hself.
  { unfold journal_types. do 5 (rewrite decide_False by done). case_decide as Hm; [rewrite Hm|]; constructor. }
  destruct (decide _) as [|Hm]; [by apply Hno, recorded_event|]. unfold recordRuntimeMessage. cbn zeta.
  destruct (ParseCompletedMessage _); [|apply traced_ret; by intros]. destruct (negb _); [apply traced_ret; by intros|].
  destruct (any_text _); [|apply traced_ret; by intros]. destruct (_ && _); [by apply Hno, recorded_event|].
  eapply traced_bind; [by apply (always_finalizeRuntimeArtifact d calm); apply _|]. intros log [record|err] Hlog.
  2:{ apply traced_ret. by intros. }
  expose. apply traced_log_error; [intros err|]; apply traced_ret; [by intros|].
  intros _. apply recorded_journal; [done|done| |done].
  apply dec_stable in Hm. rewrite Hm. cbn. right. by constructor.
Qed.

(** Requests are opened under the number of their event. *)
Definition opened (event : Event) {A : Type} (log : list rt_call) (r : A * (bool * option error)) : Prop :=
  r.2.1 = true → r.2.2 = None → Exists (records event) log ∧ ev_Type event ≠ "lifecycle.cancelled".

Ltac opened_here Ht := apply traced_ret; intros _ _; split; [by apply Exists_cons_hd|by rewrite Ht].

Lemma opened_question_request m timeout c claim event ended pending :
  ev_Type event = "interaction.question.requested" →
  traced (question_request driver target effect (logged_questions m) timeout c claim event ended pending) (opened event).
Proof.
  intros Ht. unfold question_request. cbn zeta.
  destruct (get_string _ "questionId"); [|by apply traced_ret]. destruct (get _ _) as [[]|]; try by apply traced_ret.
  destruct (_ ≫= time_Parse); [|by apply traced_ret]. destruct (_ || _); [by apply traced_ret|].
  apply traced_silently_bind. intros now. destruct (_ || _); [by apply traced_ret|]. trace_step; [by apply traced_ret|].
  destruct (negb _); [by apply traced_ret|]. destruct ended; [|opened_here Ht].
  eapply traced_bind; [by apply (always_question_close d effect calm); apply _|]. intros log [? e] _. opened_here Ht.
Qed.

Lemma opened_question_record enabled timeout c claim event ended pending :
  traced (question_record driver turn target effect enabled timeout c claim event ended pending) (opened event).
Proof.
  unfold question_record. destruct (negb _); [by apply traced_ret|]. expose.
  destruct (turn_questions t) as [qturn|]; [|by apply traced_ret]. destruct (ird_questions d) as [m|] eqn:Hm; [|by apply traced_ret].
  cbn [fmap option_fmap option_map]. destruct (_ || _) eqn:Hb; [by apply traced_ret|].
  apply orb_false_elim in Hb as [_ Ht%bool_decide_eq_false%dec_stable].
  trace_step; [by apply traced_ret|]. destruct pending as [[v adapterID]|]; [|by apply opened_question_request].
  trace_step; [by apply traced_ret|]. destruct a; [by apply traced_ret|].
  eapply traced_bind; [by apply (always_question_close d effect calm); apply _|]. intros log [pending [err|]] _; [by apply traced_ret|].
  eapply traced_mono; [by apply opened_question_request|]. intros log' r Hr H1 H2. destruct (Hr H1 H2). split; [|done]. apply Exists_app. by right.
Qed.

Lemma opened_approval_record c claim event ended :
  traced (approval_record driver turn target effect c claim event ended None) (opened event).
Proof.
  unfold approval_record. destruct (negb _); [by apply traced_ret|]. expose.
  destruct (ird_approvals d) as [m|] eqn:Hm; [|by apply traced_ret]. destruct (turn_ApprovalPending t) as [pend|]; [|by apply traced_ret].
  cbn [fmap option_fmap option_map]. destruct (decide _) as [|Ht%dec_stable]; [by apply traced_ret|]. cbn zeta.
  trace_step; [by apply traced_ret|].
  destruct (get_string _ "approvalId"); [|by apply traced_ret]. destruct (get_string _ "action"); [|by apply traced_ret].
  destruct (_ || _); [by apply traced_ret|]. trace_step; [by apply traced_ret|].
  destruct (negb _); [by apply traced_ret|]. destruct ended; [|opened_here Ht].
  eapply traced_bind; [by apply (always_approval_close d effect calm); apply _|]. intros log [? e] _. opened_here Ht.
Qed.

Lemma opened_set_record c claim event ended set :
  traced (set_record driver turn target effect c claim event ended set) (opened event).
Proof.
  unfold set_record. destruct (negb _); [by apply traced_ret|]. destruct (_ && _); [by apply traced_ret|]. cbn zeta.
  destruct (existsb _ _); [by apply traced_ret|]. eapply traced_bind; [apply opened_approval_record|].
  intros log [[[v adapterID]|] answer] Hlog; [|apply traced_ret; by rewrite app_nil_r].
  destruct (existsb _ _); apply traced_ret; rewrite app_nil_r; [|done]. by intros ? ?.
Qed.

(** Without an error and without an interruption, the event is no cancellation. *)
Definition consumed (event : Event) (st st' : turn_state) (log : list rt_call) : Prop :=
  ts_interrupted st = false ∧ ts_open st' = ts_open st ∧ ev_Type event ≠ "lifecycle.cancelled" ∧ Exists (records event) log ∧ calm log.

Lemma traced_consume enabled timeout c ended st event :
  traced (consume driver turn target effect enabled timeout c ended st event) (λ log r,
    r.2 = None → ts_interrupted r.1 = false → consumed event st r.1 log).
Proof.
  unfold consume.
  eapply traced_bind; [apply traced_and; [by apply (always_question_record d t target effect calm); apply _|apply opened_question_record]|].
  intros log1 [question [handled e]] [H1 O1]. cbn zeta. destruct handled.
  { apply traced_ret. rewrite app_nil_r. intros He Hi. by destruct (O1 eq_refl He). }
  eapply traced_bind; [apply traced_and; [by apply (always_set_record d t target effect calm); apply _|apply opened_set_record]|].
  intros log2 [set [handled e']] [H2 O2]. cbn zeta. destruct handled.
  { apply traced_ret. rewrite app_nil_r. intros He Hi. destruct (O2 eq_refl He).
    split_and!; [done..|apply Exists_app; by right|by apply Forall_app]. }
  eapply traced_bind; [apply recorded_recordRuntimeOutput|]. intros log3 [reference|err] H3; apply traced_ret; [|done].
  intros _ Hi. cbn in Hi. apply orb_false_elim in Hi as [Hi Ht%bool_decide_eq_false]. destruct (H3 eq_refl) as [Hr Hc].
  rewrite app_nil_r. split_and!; [done..|by rewrite !Exists_app; right; right|]. rewrite !Forall_app. auto.
Qed.

Lemma traced_drainRuntimeEvents enabled timeout c fuel : ∀ st,
  traced (drainRuntimeEvents driver turn target effect enabled timeout c fuel st) (λ log r,
    ∀ st', r = Some (st', None) → ts_interrupted st' = false →
      ts_interrupted st = false ∧ settled true log ∧ (ts_open st = true → drained log)).
Proof.
  induction fuel as [|fuel IH]; intros st; cbn [drainRuntimeEvents].
  all: destruct (ts_open st) eqn:Ho; cbn [negb]; [|apply traced_ret; intros ? [= <-] ?; split_and!; [done|by apply settled_calm|done]].
  { by apply traced_ret. }
  expose. apply traced_logging_bind. intros [event| |].
  2,3: apply traced_ret; intros ? [= <-] ?; split_and!; [done|by apply settled_calm; repeat constructor|intros _; constructor; naive_solver].
  eapply traced_bind; [apply traced_consume|]. intros log [st' [err|]] Hlog; [by apply traced_ret|].
  eapply traced_mono; [apply IH|]. intros log' r Hlog' st'' Hr Hi. destruct (Hlog' st'' Hr Hi) as (Hi' & ? & Hd).
  destruct (Hlog eq_refl Hi') as (? & Hopen & Hne & Hrec & Hc). cbn in Hopen. rewrite Hopen in Hd. split_and!; [done| |].
  - apply (settled_app _ (_ :: log)); [|done]. by apply (settled_taken _ _ event).
  - intros _. apply Exists_cons_tl, Exists_app. right. by apply Hd.
Qed.

Lemma traced_publishInvocationArtifacts c : ∀ declared claim,
  traced (publishInvocationArtifacts driver target effect c claim ref declared) (λ log r,
    calm log ∧ (is_ok r = true → Forall (published log) declared)).
Proof.
  induction declared as [|declaration rest IH]; intros claim; cbn [publishInvocationArtifacts]; [by apply traced_ret|].
  do 3 (trace_step; [apply traced_ret; by repeat constructor|]). rename a0 into exported.
  destruct (decide _) as [|Hfit]; [apply traced_ret; by repeat constructor|].
  trace_step; [apply traced_ret; by repeat constructor|].
  eapply traced_mono; [apply IH|]. intros log r [Hc Hp]. split; [by repeat constructor|].
  intros Hr. constructor.
  - exists exported, a, a0. split_and!; [set_solver|apply dec_stable; naive_solver..|set_solver].
  - eapply Forall_impl; [by apply Hp|]. intros declaration'. apply published_mono. set_solver.
Qed.

(** ** The turn *)

Lemma calm_close_interactions c st :
  traced (close_interactions driver effect c st) (λ log r,
    calm log ∧ ts_interrupted r.1 = ts_interrupted st ∧ ts_open r.1 = ts_open st).
Proof.
  unfold close_interactions. eapply traced_bind; [by apply (always_question_close d effect calm); apply _|].
  intros log [question [err|]] H1; [apply traced_ret; by rewrite app_nil_r|]. cbn zeta.
  eapply traced_bind; [by apply (always_set_close d effect calm); apply _|]. intros log' [set e] H2.
  apply traced_ret. rewrite app_nil_r. split; [by apply Forall_app|done].
Qed.

Section loop.
Context (finish : option (context → OperationClaim → io (W * list rt_call) (option error))).
Context (finishes : ∀ f c claim, finish = Some f → always calm (f c claim)).

Lemma calm_finish c st (r : result payload) : traced
  (match finish with
   | None => mret (Some (st, r))
   | Some f => on_error (f c (ts_claim st)) (λ err, mret (Some (st, Err (EJoin ErrAmbiguousEffect err)))) (mret (Some (st, r)))
   end) (λ log r', calm log ∧ ∀ st' res, r' = Some (st', Ok res) → r = Ok res).
Proof.
  destruct finish as [f|] eqn:Hf; [|apply traced_ret; split; [done|]; by intros ? ? [= _ ->]].
  eapply traced_bind; [by apply finishes|]. intros log [err|] Hlog; apply traced_ret; rewrite app_nil_r; (split; [done|]); [done|].
  by intros ? ? [= _ ->].
Qed.

Lemma traced_turn_ended fuel enabled timeout c waitErr st :
  traced (turn_ended driver turn target effect fuel enabled timeout c ref declarations finish waitErr st) (λ log r,
    ∀ st' res, r = Some (st', Ok res) → waitErr = None ∧ ts_interrupted st = false ∧ evidence (ts_open st) [] res log).
Proof.
  unfold turn_ended. cbn zeta.
  eapply traced_bind; [apply calm_close_interactions|].
  intros log1 [st1 [err|]] (H1 & Hi1 & Ho1); [by apply traced_ret|]. cbn [fst] in Hi1, Ho1.
  trace_step; [by apply traced_ret|].
  eapply traced_bind; [apply traced_drainRuntimeEvents|]. intros log2 [[st2 [err|]]|] H2; [by apply traced_ret| |by apply traced_ret].
  eapply traced_bind; [apply calm_close_interactions|].
  intros log3 [st3 [err|]] (H3 & Hi3 & _); [by apply traced_ret|]. cbn [fst] in Hi3.
  destruct (match waitErr with Some _ => _ | None => _ end) as [err|] eqn:Hw.
  { destruct (_ || _); [|by apply traced_ret]. trace_step; [by apply traced_ret|].
    eapply traced_mono; [apply calm_finish|]. intros log r [_ Hr] st' res Hres. by specialize (Hr st' res Hres). }
  assert (waitErr = None ∧ ts_interrupted st3 = false) as [-> Hi] by (destruct waitErr, (ts_interrupted st3); done).
  rewrite Hi3 in Hi. destruct (H2 st2 eq_refl Hi) as (Hi2 & Hc2 & Hd2). rewrite Hi1 in Hi2. rewrite Ho1 in Hd2.
  destruct (output_Result _) as [result|err].
  - eapply traced_bind; [apply traced_publishInvocationArtifacts|]. intros log4 [claim|err] [H4 Hp4]; [|by apply traced_ret].
    cbn zeta. trace_step; [by apply traced_ret|]. trace_step; [by apply traced_ret|].
    eapply traced_mono; [apply (calm_finish c (with_claim st3 claim) (Ok result))|].
    intros log5 r [H5 Hr] st' res Hres. specialize (Hr st' res Hres) as [= ->]. split_and!; [done..|].
    exists (log1 ++ log2 ++ log3 ++ log4), claim, log5. rewrite <- !app_assoc.
    split_and!; [done| |done|intros Ho; apply Exists_app; right; apply Exists_app; left; by apply Hd2|constructor|].
    { apply settled_open. repeat apply settled_app; first [done|by apply settled_calm]. }
    eapply Forall_impl; [by apply Hp4|]. intros declaration. apply published_mono. intros call. rewrite !elem_of_app. auto.
  - destruct (_ <? _)%Z.
    + eapply traced_bind; [by apply (always_retainInvalidRuntimeOutput d effect (Forall (λ _, True))); apply _|].
      intros log4 err' _. destruct (is_err err' _); [|by apply traced_ret].
      eapply traced_mono; [apply calm_finish|]. intros log r [_ Hr] st' res Hres. by specialize (Hr st' res Hres).
    + trace_step; [by apply traced_ret|].
      eapply traced_mono; [apply calm_finish|]. intros log r [_ Hr] st' res Hres. by specialize (Hr st' res Hres).
Qed.

Lemma always_interrupt c : always calm (interruptInvocationRuntimeTurn turn c).
Proof. unfold interruptInvocationRuntimeTurn. walk. Qed.

Definition loop_success (st : turn_state) (log : list rt_call) (r : option (turn_state * result payload)) : Prop :=
  ∀ st' res, r = Some (st', Ok res) → ts_interrupted st = false ∧ evidence (ts_open st) [RSelect (SelWaited None)] res log.

(** A round that leaves no trace of a failure. *)
Lemma loop_round {A : Type} (m : io (W * list rt_call) A) (k : A → io (W * list rt_call) (option (turn_state * result payload))) st :
  always calm m → (∀ a, traced (k a) (loop_success st)) → traced (m ≫= k) (loop_success st).
Proof.
  intros Hm Hk. eapply traced_bind; [exact Hm|]. intros log a Hlog. eapply traced_mono; [apply Hk|].
  intros log' r Hr st' res Hres. destruct (Hr st' res Hres). split; [done|]. by apply evidence_after.
Qed.

Lemma traced_run_loop enabled timeout c fuel : ∀ st,
  traced (run_loop driver turn target effect fuel enabled timeout c ref declarations finish st) (loop_success st).
Proof.
  induction fuel as [|fuel IH]; intros st; cbn [run_loop]; [by apply traced_ret|].
  assert (∀ st' err (Q : list rt_call → option (turn_state * result payload) → Prop),
    (∀ log, Q log (Some (st', Err (EJoin ErrAmbiguousEffect err)))) →
    traced (_ ← interruptInvocationRuntimeTurn turn c; mret (Some (st', Err (EJoin ErrAmbiguousEffect err)))) Q) as Habandon.
  { intros st' err Q HQ. eapply traced_bind; [apply (always_interrupt c)|].
    intros log ? _. by apply traced_ret. }
  expose. apply traced_logging_bind. intros [event| | |waitErr| |err]; cbn zeta.
  4:{ eapply traced_mono; [apply traced_turn_ended|]. intros log r Hr st' res Hres. destruct (Hr st' res Hres) as (-> & ? & ?).
      split; [done|].
      by apply (evidence_prefix _ [] res [RSelect (SelWaited None)]); [apply settled_calm; repeat constructor|]. }
  2:{ eapply traced_mono; [apply (IH (closed_events st))|]. intros log r Hr st' res Hres. destruct (Hr st' res Hres) as [Hi He].
      split; [done|]. destruct (ts_open st) eqn:Ho; [by apply evidence_closed|].
      apply (evidence_after _ _ _ [_]); [by repeat constructor|done]. }
  1:{ destruct (ts_open st) eqn:Ho; cbn [negb].
      - eapply traced_bind; [apply traced_consume|]. intros log [st1 [err|]] Hlog.
        { apply Habandon. by intros. }
        eapply traced_mono; [apply IH|]. intros log' r Hr st' res Hres. destruct (Hr st' res Hres) as [Hi He].
        destruct (Hlog eq_refl Hi) as (? & Hopen & Hne & Hrec & Hc). cbn in Hopen. rewrite Hopen in He. split; [done|].
        apply (evidence_settled _ _ _ (_ :: log)); [|done]. by apply (settled_taken _ _ event).
      - eapply traced_mono; [apply IH|]. intros log r Hr st' res Hres. destruct (Hr st' res Hres) as [Hi He]. split; [done|].
        rewrite Ho in He |- *. apply (evidence_settled _ _ _ [_]); [|done]. by apply settled_ignored. }
  all: apply (traced_mono _ (loop_success st));
    [|intros log r Hr st' res Hres; destruct (Hr st' res Hres); split; [done|];
      match goal with |- evidence _ _ _ (?call :: log) => apply (evidence_after _ _ _ [call]); [by repeat constructor|done] end].
  - destruct (negb _); [apply IH|].
    apply loop_round; [apply (always_set_poll d t effect calm); eauto with calls; apply _|]. intros [set e]. cbn zeta.
    destruct e; [apply Habandon; by intros|].
    apply loop_round; [by apply (always_question_poll d t effect calm); apply _|]. intros [question e]. cbn zeta.
    destruct e; [apply Habandon; by intros|apply (IH (with_question (with_approvals st set) question))].
  - apply loop_round; [walk|]. intros [err|]; [apply Habandon; by intros|].
    apply loop_round; [walk|]. intros [claim|err]; [apply (IH (with_claim st claim))|apply Habandon; by intros].
  - apply Habandon. by intros.
Qed.

Lemma calm_close_deferred c st r :
  traced (close_deferred driver effect c st r) (λ log r', calm log ∧ ∀ res, r' = Ok res → r = Ok res).
Proof.
  apply traced_and; [by apply (always_close_deferred d effect calm); apply _|]. unfold close_deferred. cbn zeta.
  eapply traced_bind; [by apply (always_question_close d effect calm); apply _|]. intros log [question e] _.
  destruct (aset_pending _); [apply traced_ret; intros res Hres; by destruct e, r|].
  eapply traced_bind; [by apply (always_set_close d effect calm); apply _|]. intros log' [set e'] _. apply traced_ret.
  intros res Hres. by destruct e', e, r.
Qed.

Lemma traced_runTurn fuel c claim output enabled timeout :
  traced (runTurn driver turn target effect fuel c claim output ref declarations enabled timeout finish) (λ log r,
    ∀ res, r = Some (Ok res) → evidence true [RSelect (SelWaited None)] res log).
Proof.
  unfold runTurn. match goal with |- traced (match _ with true => _ | false => ?m end) ?Q => assert (traced m Q) as Hrun end.
  { eapply traced_bind; [apply traced_run_loop|]. intros log [[st r]|] Hlog; [|by apply traced_ret].
    eapply traced_bind; [apply calm_close_deferred|]. intros log' r' [Hc Hr]. apply traced_ret. rewrite app_nil_r.
    intros res [= ->]. rewrite (Hr res eq_refl) in Hlog. destruct (Hlog st res eq_refl). by apply evidence_suffix. }
  destruct enabled; [|exact Hrun]. expose. destruct (turn_questions t); [exact Hrun|by apply traced_ret].
Qed.
End loop.
End success.

(** ** Runs *)

Section run.
Context {W session owned : Type} `{RuntimeLibrary, ImageDecoder} (d : InvocationRuntimeDriver W session owned).
Context (effect : EffectRecord).
Abbreviation driver := (logged_runtime_driver d).

Section session.
Context (target : InvocationRuntimeTarget) (ref : ExecutionRef) (request : StartRequest).

(** Success of a run that works on this target, execution and request. *)
Definition succeeds (log : list rt_call) (r : option (result payload)) : Prop :=
  ∀ res, r = Some (Ok res) →
    evidence target effect ref (sr_Artifacts request) true [RStart request true; RSelect (SelWaited None)] res log.

Lemma succeeds_bind {A : Type} (m : io (W * list rt_call) A) (k : A → io (W * list rt_call) (option (result payload))) :
  always calm m → (∀ a, traced (k a) succeeds) → traced (m ≫= k) succeeds.
Proof.
  intros Hm Hk. eapply traced_bind; [exact Hm|]. intros log a Hlog. eapply traced_mono; [apply Hk|].
  intros log' r Hr res Hres. by apply evidence_after, Hr.
Qed.

Lemma succeeds_then (m : io (W * list rt_call) (option (result payload))) k :
  traced m succeeds → (∀ r : result payload, traced (k r) (λ log r', calm log ∧ r' = Some r)) →
  traced (r ← m; match r with None => mret None | Some r => k r end) succeeds.
Proof.
  intros Hm Hk. eapply traced_bind; [exact Hm|]. intros log [r|] Hr; [|by apply traced_ret].
  eapply traced_mono; [apply Hk|]. intros log' ? [Hc ->] res Hres. by apply evidence_suffix; [apply Hr|].
Qed.

Lemma succeeds_with_session fuel c claim output prepared started :
  (∀ f c' claim', started.2 = Some f → always calm (f c' claim')) →
  traced (with_session driver fuel c claim effect target ref request output prepared started) succeeds.
Proof.
  intros finishes. unfold with_session. expose. apply traced_silently_as_bind. intros [adapter|err]; cbn [fmap result_fmap].
  2:{ apply traced_silently_bind. intros _. by apply traced_ret. }
  expose. cbn zeta. apply succeeds_then.
  2:{ intros r. apply traced_silently_bind. intros _. by apply traced_ret. }
  match goal with |- traced (if prepared then ?m else _) _ => assert (traced m succeeds) as Hstart end.
  { apply traced_logging_as_bind. intros [t|err]; cbn [fmap result_fmap is_ok]; [|by apply traced_ret].
    apply (traced_mono _ (λ log r, ∀ res, r = Some (Ok res) →
      evidence target effect ref (sr_Artifacts request) true [RSelect (SelWaited None)] res log)).
    - eapply traced_bind; [by apply traced_runTurn|]. intros log [r|] Hr; [|by apply traced_ret].
      apply traced_silently_bind. intros _. apply traced_ret. rewrite app_nil_r. intros res [= ->]. by apply Hr.
    - intros log r Hr res Hres. apply (evidence_prefix _ _ _ _ _ _ _ [RStart request true]); [by apply settled_calm; repeat constructor|by apply Hr]. }
  destruct prepared; [exact Hstart|]. apply succeeds_bind; [walk|]. by intros [err|]; [apply traced_ret|].
Qed.

Lemma succeeds_start_session fuel c claim output :
  traced (start_session driver fuel c claim effect target ref request output) succeeds.
Proof.
  assert (∀ prepared, traced (on_result (startRuntimeSession driver c effect target ref request)
    (λ err, mret (Some (Err err))) (with_session driver fuel c claim effect target ref request output prepared)) succeeds) as Hgo.
  { intros prepared. eapply traced_bind; [by apply (traced_startRuntimeSession d calm); apply _|].
    intros log [started|err] [Hlog Hf]; [|by apply traced_ret].
    eapply traced_mono; [apply succeeds_with_session; eauto|]. intros log' r Hr res Hres. by apply evidence_after, Hr. }
  unfold start_session. expose.
  destruct (ird_prepare d); cbn [fmap option_fmap option_map]; unfold on_error, on_result in *;
    repeat first [apply Hgo | by apply traced_ret | apply succeeds_bind; [walk|intros [?|?]]|apply succeeds_bind; [walk|intros [?|]]
      | match goal with |- traced (if ?b then _ else _) _ => destruct b end].
Qed.
End session.

Lemma succeeds_runtime_ApplyClaimed fuel c claim :
  traced (runtime_ApplyClaimed driver fuel c claim effect) (λ log r, ∀ res, r = Some (Ok res) → ∃ target ref request,
    evidence target effect ref (sr_Artifacts request) true
      [RTarget claim (Ok target); RStart request true; RSelect (SelWaited None)] res log).
Proof.
  unfold runtime_ApplyClaimed. cbn zeta. destruct (negb _); [by apply traced_ret|].
  do 2 (trace_step; [by apply traced_ret|]). rename a into target. trace_step; [by apply traced_ret|].
  trace_step; [by apply traced_ret|]. rename a into value. trace_step; [by apply traced_ret|].
  trace_step; [by apply traced_ret|]. rename a into observation. do 3 (trace_step; [by apply traced_ret|]).
  trace_step; [by apply traced_ret|]. rename a into request.
  destruct (driver_validateInvocationRuntimeRequest _ _); [|by apply traced_ret].
  destruct (newInvocationRuntimeOutput _) as [output|err]; [|by apply traced_ret].
  trace_step; [by apply traced_ret|]. rename a into claim'.
  eapply traced_bind; [by apply (always_authorize_runtime d calm); apply _|]. intros log [err|] Hlog; [by apply traced_ret|].
  trace_step; [by apply traced_ret|]. eapply traced_mono; [apply succeeds_start_session|].
  intros log' r Hr res Hres. eexists target, _, request.
  apply (evidence_prefix _ _ _ _ _ _ _ [_]); [by apply settled_calm; repeat constructor|].
  apply (evidence_after _ _ _ _ _ _ _ [_; _]); [by repeat constructor|]. by apply evidence_after, Hr.
Qed.

(** C16: for every collaborator, a run reports success only when the target of the claim
    was read, the agent started and ended by itself without an error, and then, as the
    only end of the attempt, the attempt was completed with exactly the reported
    result.  Before that, every event that was taken from the agent, while its channel
    was open or from what was left in it, was no cancellation and was put on record
    under its number before the next one was taken: in the journal under its own type
    or as the reference to its output, or as an approval or question that was opened;
    and nothing was left, the channel being closed or found empty after the end.
    No record was refused, none is a cancellation, and every artifact the request
    declares was exported from this execution and finalised. *)
Theorem runtime_success_evidence fuel c claim (w : W) :
  let '((_, t), r) := runtime_ApplyClaimed driver fuel c claim effect (w, []) in
  ∀ result, r = Some (Ok result) →
    ∃ target ref request before claim' after,
      t = before ++ RComplete claim' effect result None :: after
      ∧ RTarget claim (Ok target) ∈ before ∧ RStart request true ∈ before ∧ RSelect (SelWaited None) ∈ before
      ∧ Forall (published target effect ref before) (sr_Artifacts request)
      ∧ heard true before ∧ drained before ∧ Forall unfailing_call before ∧ Forall calm_call after.
Proof.
  destruct (succeeds_runtime_ApplyClaimed fuel c claim w []) as (t' & Ht & Hr).
  destruct (runtime_ApplyClaimed _ _ _ _ _ _) as [[w' t] r]. cbn [fst snd app] in *. subst t'. intros result Hres.
  destruct (Hr result Hres) as (target & ref & request & before & claim' & after & -> & [? ?] & ? & ? & Hrequired & ?).
  rewrite !Forall_cons in Hrequired. destruct Hrequired as (? & ? & ? & _).
  exists target, ref, request, before, claim', after. split_and!; auto.
Qed.
End run.
