(* ===== verification/RuntimeExamples.v ===== *)
(** * A run of the runtime driver

    A scripted agent and collaborators that agree: the agent asks for an approval, a
    user grants it, a message ends the turn and a declared artifact is published.  The
    run succeeds, so the theorems about successful runs are about something; and the
    request the Codex profile builds is one the driver takes. *)
From S2P Require Import Prelude.
From S2P Require Import CallLog.
From S2P Require Import GoStrings.
From S2P Require Import GoJson.
From S2P Require Import Questions.
From S2P Require Import RuntimeTables.
From S2P Require Import Database.
From S2P Require Import OperationStore.
From S2P Require Import RuntimeInteraction.
From S2P Require Import RuntimeApproval.
From S2P Require Import RuntimeQuestion.
From S2P Require Import Reconciler.
From S2P Require Import GatewayStore.
From S2P Require Import Drivers.
From S2P Require Import RuntimeOutput.
From S2P Require Import RuntimeRequest.
From S2P Require Import RuntimeDriver.
From S2P Require Import RuntimeTurn.
From S2P Require Import RuntimeLogic.
From S2P Require Import RuntimeParts.
From S2P Require Import RuntimeLedger.
From S2P Require Import RuntimeSuccess.
From S2P Require Import RuntimeOutputProofs.
From S2P Require Import RuntimeReference.
From S2P Require Import RuntimeJournal.

Definition toy_library : RuntimeLibrary := {|
  json_Decode _ := None; json_strings _ := []; CompileOutputSchema _ := Ok (λ _, None); time_Parse _ := None |}.
Definition toy_images : ImageDecoder := {| DecodeConfig _ := None; Decode _ := None |}.

(** The world is the script of the agent. *)
Abbreviation script := (list selected).
Definition answers {A : Type} (a : A) : io script A := λ w, (w, a).

Definition ex_claim : OperationClaim :=
  Claim "invocation" "iso_1" "op_1" "inv_1" "run" "running" 1 1 "worker-1" 7 2000000000 1000000000 "cor_1" "actor_1".
Definition ex_effect : EffectRecord := Effect "iso_1" "eff_1" "invocation" "op_1" "run-invocation" [] "prepared" 1 None.
Definition ex_target : InvocationRuntimeTarget :=
  MkRuntimeTarget "iso_1" "op_1" "inv_1" "svc_1" "rev_1" "actor_1" "cor_1" 1 (JObj [("prompt", JStr "Fix the build.")])
    CodexAppServerRuntimeProfileV1 None.
Definition ex_artifact : ArtifactDeclaration := MkDeclaration "report" "Report" "/work/report.txt" "text/plain" "file".
Definition ex_request : StartRequest :=
  MkStart "Fix the build." "/work" "" None [ex_artifact] ApprovalInteractive QuestionDisabled 0 SandboxWorkspaceWrite.

Definition ex_approval (state : string) (version : Z) (decision effective by_ cor : string) (at_ : option Z) : InvocationRuntimeApproval :=
  MkApproval InvocationRuntimeApprovalContract "iso_1" "apr_0123456789abcdef0123" "op_1" "inv_1" "svc_1" "rev_1" "eff_1" 1
    "process.execute" state version decision effective by_ cor at_ None 1000 1000 (Some 900000%Z) None "".

Definition ex_approvals : ApprovalMediation script := {|
  am_Record _ _ _ _ _ := answers (Ok (ex_approval "pending" 1 "" "" "" "" None));
  am_Get _ _ _ := answers (Ok (ex_approval "resolved" 2 "approve" "" "user_1" "cor_2" (Some 2000%Z)));
  am_Begin _ _ _ _ decision := answers (Ok (ex_approval "delivering" 3 "approve" decision "user_1" "cor_2" (Some 2000%Z)));
  am_Complete _ _ _ _ := answers None;
  am_Close _ _ _ _ _ := answers None;
  am_Authorize _ _ _ := answers None |}.

Definition ex_turn : Turn script := {|
  turn_select := λ w, match w with [] => ([], SelDone ErrCanceled) | case :: rest => (rest, case) end;
  turn_receive := answers RecvEmpty;
  turn_ResolveApproval _ _ _ := answers None;
  turn_Interrupt _ := answers None;
  turn_Close := answers None;
  turn_ApprovalPending := Some (λ _ _, answers (Ok true));
  turn_questions := None |}.

Definition ex_store : InvocationRuntimeStore script := {|
  st_CheckInvocationWorkspacePreparation _ _ _ := answers (Ok false);
  st_PrepareInvocationRuntimeOutputFailure _ _ _ _ := answers (Err ErrAmbiguousEffect);
  st_GetClaimedInvocationRuntimeTarget _ _ := answers (Ok ex_target);
  st_GetInvocationRuntimeAttempt _ _ _ := answers (Err ErrInvocationRuntimeAttemptMissing);
  st_BeginInvocationRuntimeAttempt _ _ _ := answers None;
  st_CompleteInvocationRuntimeAttempt _ _ _ _ := answers None;
  st_FailInvocationRuntimeAttempt _ _ _ _ := answers None;
  st_RecordInvocationRuntimeEvent _ _ _ := answers None;
  st_RenewLease _ claim := answers (Ok claim) |}.

Definition ex_driver (build : InvocationRuntimeTarget → result StartRequest) : InvocationRuntimeDriver script unit unit := {|
  ird_store := ex_store;
  ird_Authorize _ _ _ := answers None;
  ird_Build target := answers (build target);
  ird_GetExecutionByOperation _ _ _ := answers (Ok (MkExecution "iso_1" "exe_1" "gw_1" "ready"));
  ird_Observe _ ref := answers (Ok (MkObservation (ref_IsolationDomainID ref) (ref_ID ref) "ready"));
  ird_StartRuntime _ _ := answers (Ok tt);
  ird_Export _ ref _ := answers (Ok (MkExport (ref_IsolationDomainID ref) (ref_ID ref) "done"));
  ird_New _ := answers (Ok (MkAdapter _ (λ _ _, answers (Ok ex_turn)) (answers None)));
  ird_CloseSession _ := answers None;
  ird_Finalize _ f := answers (Ok (ab_Record (fz_Binding f)));
  ird_readiness := None;
  ird_ctx_Err _ := answers None;
  ird_now := answers 0%Z;
  ird_approvals := Some ex_approvals;
  ird_questions := None;
  ird_prepare := None;
  ird_completion := None |}.

Definition ex_script : script :=
  [SelEvent (MkEvent 1 "interaction.approval.requested" [("approvalId", AStr "approval-1"); ("action", AStr "process.execute")]);
   SelPoll;
   SelEvent (MkEvent 2 MessageCompletedEvent [("text", AStr "All green."); ("phase", AStr "final")]);
   SelWaited None].

Definition ex_run : script * list rt_call * option (result payload) :=
  let '((w, t), r) := @runtime_ApplyClaimed _ _ _ toy_library toy_images (logged_runtime_driver (ex_driver (λ _, Ok ex_request)))
    9 Caller ex_claim ex_effect (ex_script, []) in (w, t, r).

(** The run succeeds with the message, the approval was delivered and nothing is open. *)
Example run_succeeds :
  ex_run.2 = Some (Ok [("status", AStr "succeeded"); ("output", AMap [("text", AStr "All green.")])])
  ∧ (ex_run.1.2 ≫= λ c, match c with AResolve _ id decision _ => [(id, decision)] | _ => [] end) = [("approval-1", "approve")]
  ∧ open_requests ex_run.1.2 = ∅.
Proof.
  split_and!.
  - vm_compute. reflexivity.
  - vm_compute. reflexivity.
  - vm_compute. reflexivity.
Qed.

(** ** The journal *)

Lemma runtime_journal_accepts_witness :
  let '((_, t), _) := @runtime_ApplyClaimed _ _ _ toy_library toy_images (logged_runtime_driver (ex_driver (λ _, Ok ex_request)))
    9 Caller ex_claim ex_effect (ex_script, []) in
  ∀ claim event answer, RJournal claim event answer ∈ t → re_Type event ∈ checked_types → runtime_event_valid event = true.
Proof. apply (@runtime_journal_accepts _ _ _ toy_library toy_images). reflexivity. Defined.

(** A streamed delta of 45000 angle brackets, each of which the encoder writes as six bytes. *)
Definition ex_delta : Event :=
  MkEvent 1 "output.text.delta" [("text", AStr (of_bytes (replicate (45 * 1000) (byte_of_N 60))))].

(** The driver takes the delta, within its limit on the text, and hands it to the
    journal, which refuses it for the length of its encoding. *)
Example delta_encoding_refused :
  (let '((_, t), r) := @recordRuntimeOutput _ _ _ toy_library toy_images (logged_runtime_driver (ex_driver (λ _, Ok ex_request)))
     Caller ex_claim ex_effect ex_target ex_delta (ex_script, []) in
   match t with [RJournal _ event _] => is_ok r && negb (runtime_event_valid event) | _ => false end) = true.
Proof. vm_compute. reflexivity. Qed.

(** ** The request of the Codex profile *)

(** A request that the pinned Codex profile builds from a target is one every
    driver takes, whatever mediation it was given: it carries the prompt of the
    target's input, locks approvals, asks no questions, and may write its workspace
    exactly when it declares artifacts. *)
Theorem codex_request_accepted {W session owned} (d : InvocationRuntimeDriver W session owned) target request
    (built : codex_BuildInvocationRuntimeRequest target = Ok request) :
  driver_validateInvocationRuntimeRequest d request = Ok tt
  ∧ (∃ input, rtg_Input target = JObj input ∧ field_lookup input "prompt" = Some (JStr (sr_Prompt request)))
  ∧ sr_ApprovalMode request = ApprovalLocked ∧ sr_QuestionMode request ≠ QuestionInteractive
  ∧ (sr_SandboxMode request = SandboxWorkspaceWrite ↔ sr_Artifacts request ≠ []).
Proof.
  pose proof (codex_valid target request built) as Hv.
  destruct (codex_built target request built) as (input & prompt & artifacts & schema & Hi & Hp & _ & _ & ->). split_and!.
  - unfold driver_validateInvocationRuntimeRequest. by rewrite Hv.
  - by exists input.
  - done.
  - done.
  - destruct artifacts; done.
Qed.

Example codex_request_accepted_witness :
  driver_validateInvocationRuntimeRequest (ex_driver codex_BuildInvocationRuntimeRequest)
    (MkStart "Fix the build." "" "" None [] ApprovalLocked "" 0 SandboxReadOnly) = Ok tt.
Proof. apply (codex_request_accepted (ex_driver codex_BuildInvocationRuntimeRequest) ex_target). vm_compute. reflexivity. Defined.
